(* ===== verification/_CoqProject ===== *)
-Q . S2P
Prelude.v
PolicyKernel.v
PolicyGraph.v
PolicyDecisions.v
PolicyLayers.v
ProductAccess.v
McpToolPermissions.v
ResourceAccess.v
GoalAccess.v
Calendar.v
RecurringCadence.v
TurnLifecycle.v
MutationAdmission.v
BootReadiness.v
FileAdmission.v
JsValue.v
NumberText.v
CanonicalJson.v
AutomationScan.v
LogicalModels.v
WorkerControl.v
LightAppKernel.v
RecordFilter.v
TurnTimeline.v
Sha1.v
EntityId.v
Utf8.v
ObjectReference.v
SnapshotChain.v
TreeDigest.v
MoveMapping.v
SchemaAdmission.v
FieldValues.v
RecordStore.v
CommandInput.v
SchedulerStore.v
SchedulerRecords.v
CommandReceipts.v
IdempotentCommand.v
ExecutionAttempts.v
NanoHostAttempts.v
SchedulerHistory.v
SchedulerDispatch.v
JsonText.v
AgentLoop.v
RequestAdmission.v
RollingContext.v
CompactingContext.v
NativeDdl.v
SchemaMigration.v
WorkspaceReconciliation.v
PiChannel.v
PiOutcome.v
PiHost.v
