(* ===== verification/Prelude.v ===== *)
(** * OpenKit: a verification development

    OpenKit is a TypeScript monorepo.  NanoCore (src/apps/nanocore) is the server that owns
    workspaces, threads, Turns, policy, light apps and the control of worker processes; the packages
    under src/packages hold the code it shares with workers and clients.  This library models the
    parts that carry the decisions of the program and proves what makes them correct.  Definitions
    keep the names of the source; each file says which source files it translates.

    ** Parts, files and how they fit together

    - Policy.  [PolicyKernel] is the NGAC kernel (packages/policy-kernel/src/index.ts): indexes,
      validation, containment closure, cycle detection, prohibitions and [evaluateAccess] with reasons
      and trace.  [PolicyGraph] proves its two graph loops against reachability, [PolicyDecisions] the
      validator and the decision against a declarative NGAC specification, [PolicyLayers] what one
      policy class inside a larger graph contributes.  Four clients build policies and ask the kernel:
      [ProductAccess] (nanocore/src/policy/workspace-access.ts), [ResourceAccess]
      (workspace-resource-access.ts with the admission of workspace policy documents), [GoalAccess]
      (goal and Task access) and [McpToolPermissions] (mcp-tool-permissions.ts).
    - Time and automations.  [Calendar] is the UTC calendar of the [Date] object, [RecurringCadence]
      (lib/recurring-cadence.ts) the arithmetic of recurring instants, [AutomationScan] the selection
      of due work from it.
    - Turns and boot.  [TurnLifecycle] has the status sets, the stop decision and the waiter of a Turn,
      [TurnTimeline] the bounded recorder of a Turn, [MutationAdmission] the gates, freezes and drains
      of workspace mutations, [BootReadiness] the boot phases, [FileAdmission] the byte reservations.
    - Texts and identities.  [JsValue], [NumberText], [JsonText] and [Utf8] are the part of the language
      the rest uses: strings as UTF-16 code units, doubles and their shortest decimal text, JSON texts,
      [isDeepStrictEqual].  [CanonicalJson] is the canonical encoder, [Sha1] and [EntityId] the
      prefixed UUIDs, [ObjectReference] the reference URIs.
    - Models.  [LogicalModels] is the catalog of logical models with its failover contracts.
    - Worker control.  [WorkerControl] has the durable sequence recorder and the sequenced-operation
      path of the gateway (runtime/worker-control-sequences.ts, worker-control-gateway.ts), with the
      transactions around heartbeats and final statuses and their rollback.  The class
      [SequenceRecorder] is the interface between them: the gateway is proved against the class, the
      SQLite recorder is its instance.
    - Light apps (nanocore/src/generative-kernel).  [LightAppKernel] has the failures, the limits and
      the admitted schema; [RecordFilter] the filter language compiled to parameterized SQL;
      [SchemaAdmission] the admission and evolution of schemas; [FieldValues] the normalization of
      values; [RecordStore] the app database with the record commands; [NativeDdl] the statements that
      create and migrate the native tables (native.ts); [SchemaMigration] the commands that create an
      app and change its definition, from an authored proposal or a definition selected in the catalog,
      on top of all of these.
    - Workspaces.  [SnapshotChain] is the chain of captured snapshots of a work slot, [TreeDigest] the
      digest of a configuration tree, [MoveMapping] the mapping of a moved workspace,
      [WorkspaceReconciliation] the recovery records of a workspace, which read the receipts of the
      chain (storage/workspace-reconciliation-*.ts, workspace-takeover-native.ts,
      workspace-capture-native.ts).
    - Commands.  [CommandInput] has the stable text that is hashed and the ledger keys,
      [CommandReceipts] the receipts of executed commands with the class [ReceiptLedger] and its
      instances [db_ledger] and [memory_ledger], [IdempotentCommand] the runner that is proved against
      that class, as segments between awaits that interleave with other calls and restarts, with one
      in-flight map per [WeakMap] instance and store.
    - Scheduler.  [SchedulerStore] holds the admission and attempt tables, [SchedulerRecords] the queue,
      [ExecutionAttempts] and [NanoHostAttempts] the operations on attempts, [SchedulerHistory] the
      histories of all of them, [SchedulerDispatch] the dispatch loop and restart recovery.
    - Internal Agents (nanocore/src/internal-agents, context/model-request-admission.ts).  [AgentLoop]
      is the bounded loop of provider calls and Tool calls, [RequestAdmission] the token estimate and
      the wire projection of requests and answers, [RollingContext] the history window with its
      retained summaries, [CompactingContext] the provider that compacts one run; the last two use the
      window estimate of RequestAdmission.
    - The Pi host, a child process that runs Turns of the Pi SDK for NanoCore.  [PiChannel] is the
      channel between the two (UTF-8 decoding, line readers, frames, redaction, forwarding of native
      events), [PiOutcome] the tracker of the outcome of a Turn, the projection of its settlement and what
      the adapter in the worker (worker-shim/src/adapters/pi.ts) makes of it, [PiHost] the host itself, as segments between awaits, with its session handles.

    This file holds what they share: the result type for functions that throw, list functions of
    JavaScript arrays and sets, the stable sort, tactics and hints.

    ** How the code is modelled

    A function that throws returns a [result]; state is passed explicitly, through a small monad where
    many calls thread it; a loop that is not structural takes fuel.  A database is a finite map of
    tables, a JavaScript Map a [gmap], an array a list.  Numbers are [Z] where the code keeps them
    integral and safe, and binary64 values ([spec_float]) where they are data; SHA-1 keeps JavaScript's
    signed 32-bit words with their wrap-around.  A transaction that throws leaves its tables as they
    were.  Code that awaits is split at its awaits, and what happens in between is either an explicit
    sequence of steps of all callers or an environment over a world type.

    Parameters: clocks, random bytes, digests of node:crypto, the redaction of texts, the third-party
    schema validator and Zod issues, the encoded size of a value, provider, Tools, store and signals of
    the Agent components, the SQL engine with its constraints and integrity checks, the platform
    signal table, and for the Pi host sha256, the path test of node:path and, as inputs of the steps, the
    answers of the SDK and of the file system.  What is relied on of them is a named hypothesis, such as
    [documented] for the effect of SQL statements that succeed and [refuses_existing] for the creation of a
    table that exists; witnesses instantiate each of them.

    Fuel is always enough and never visible in a result: the closure and the cycle search take a bound
    computed from the policy and the theorems show they return; the tokenizer and the parser of filters
    take the length of their input and the theorems exclude [OutOfFuel]; the search for the shortest text of
    a number tries up to seventeen digits, which [NumberText] shows to be enough for every double; the sealing loop of the
    timeline takes the number of entries and drops one per round; page loops and the dispatch selection
    take one unit per row and one more; the Agent loop takes one unit per allowed model call and one
    more; the search for the largest summary batch, the fitting loop of the window and the reading of a
    range take one unit per Item and one more; the line reader takes one unit per byte.  JSON parsing is a structural pass over the tokens.

    ** What the theorems show

    - Policy: the evaluator allows exactly what the specification permits; closure and cycle detection
      are exact and terminate; product, Thread, goal and Tool access follow exactly from the current
      facts they are built from, and prohibitions only narrow.
    - Time: advancing is the nominal successor, the constant-work prefix equals the iteration, a scan
      takes the globally earliest work.
    - Turns and boot: the waiter settles once; the timeline seals within its byte budget; a freeze
      excludes mutations over every history; reserved writes fit; a boot runs exactly the phases up to a
      critical failure or an abort and reports ready and failed exactly when it should.
    - Texts: exactly the data that JSON can express has a canonical text, which parses back; every double
      has a text; reference URIs round-trip, equal texts are equal values, identifiers are canonical and
      sort by time.
    - Worker control: the durable recorder implements its contract; over every history of requests,
      downstream failures, crashes and restarts a sequence is completed as new at most once, and a
      failure inside a transaction leaves no trace, so that the retry is answered alike.
    - Light apps: exactly the texts of the filter grammar are compiled, to the rendering of the filter; admission accepts exactly the safe
      evolutions; values are accepted exactly by their contract and survive SQLite; updates are
      compare-and-set; the texts of the DDL are those of the intended statements; a schema update loses
      no record; a migration that commits ran the intended statements; from creation on, every reachable
      app database is typed, relationally consistent and within its ceiling, whatever definitions and
      records are written.
    - Workspaces: captured links form one contiguous chain; equal framings are equal trees; a capture
      record counts as recovered only with its accepted receipt, retains the backend until then, and
      decisions are final.
    - Commands: a retained receipt prevents a second execution, and at most one call executes at a time
      under a key in each in-flight map, over every interleaving and restart.
    - Scheduler: live attempts are exclusive, a release needs its proof, outstanding operations survive
      maintenance, restart releases what was interrupted, the loop decides the first ready entry and
      the oldest eligible and published entry is the one dispatched.
    - Internal Agents: only validated calls execute, the loop is bounded, the provider sees answered
      calls only; a window and a compacted call are built from verified sources, every compacted call of a
      run sees the pinned environment and covers its prefix exactly, and a summary replaces exactly a
      committed prefix.
    - Pi host: what the line readers deliver does not depend on how the bytes were cut into chunks;
      frames survive the channel and show no credential; the adapter reports a Turn completed exactly when
      its settlement is correlated and routed, nothing was interrupted or failed, its handle is the
      expected one and proved resumable; every request is answered once,
      over every interleaving, and a host that waits can always go on; a ready handle was earned by a
      proved settlement.

    Examples beside the theorems record where the code and its documentation part, or where the code
    fails: a retry after a restart and one after a failure outside a transaction, one command in two
    in-flight maps, non-literals in filters and the grouping depth, batch updates that
    link records of the same batch, batch data that is not an object, select values that mislead the
    selection of DDL statements, and a refused effort that lists compactions of an earlier Turn.

    ** Not modelled

    Of the modelled parts: the catalog of definitions, snapshot files, the format journal and the
    projections of light apps, and what the SQL engine makes of lone surrogates and negative zeros; the
    event path of the worker-control gateway and its native publishers; the capture, usage
    ledger and routing around a provider call; the probing of capture files; the request
    schemas, the set-up of SDK sessions, the file-system proofs and the process control of the adapter
    around the Pi host.  Left out altogether:
    the step journal and the idle clean-up over it, which follow records of the physical host; the user interfaces;
    HTTP and provider traffic; third-party authentication and cryptography; file-system and SQL
    plumbing; content pipelines over files and external services; and the Rust programs. *)

From Stdlib Require Export Ascii String.
From stdpp Require Export prelude gmap strings list sorting fin_maps.
From Stdlib Require Export ZArith Lia.

(** ** Fallible computations

    A TypeScript function that may throw is a function into [result E A]: [Err e] is the thrown
    value, [Ok a] the returned one.  The stdpp monad classes give the [x ← m; k] notation and
    [mapM]. *)

Inductive result (E A : Type) : Type :=
| Ok (a : A)
| Err (e : E).
Arguments Ok {E A} a.
Arguments Err {E A} e.

#[export] Instance result_ret {E} : MRet (result E) := λ A a, Ok a.
#[export] Instance result_bind {E} : MBind (result E) := λ A B f m,
  match m with Ok a => f a | Err e => Err e end.
#[export] Instance result_fmap {E} : FMap (result E) := λ A B f m,
  match m with Ok a => Ok (f a) | Err e => Err e end.

#[export] Instance result_eq_dec {E A} `{EqDecision E, EqDecision A} : EqDecision (result E A).
Proof. solve_decision. Defined.

Declare Scope openkit_scope.
Delimit Scope openkit_scope with openkit.
(** [require b e; k]: the guard [if (!b) throw e] before the continuation [k]. *)
Notation "'require' b 'else' e ; k" := (if b then k else Err e)
  (at level 100, b at level 99, e at level 99, k at level 200, right associativity,
   format "'[v' 'require'  b  'else'  e ;  '/' k ']'") : openkit_scope.
Open Scope openkit_scope.

Definition is_ok {E A} (m : result E A) : bool := match m with Ok _ => true | Err _ => false end.

Lemma Ok_inj {E A} (a b : A) : @Ok E A a = Ok b → a = b.
Proof. congruence. Qed.

Lemma bind_Ok {E A B} (m : result E A) (f : A → result E B) b :
  m ≫= f = Ok b ↔ ∃ a, m = Ok a ∧ f a = Ok b.
Proof. destruct m; cbn; naive_solver. Qed.

Lemma bind_Err {E A B} (m : result E A) (f : A → result E B) e :
  m ≫= f = Err e ↔ m = Err e ∨ ∃ a, m = Ok a ∧ f a = Err e.
Proof. destruct m; cbn; naive_solver. Qed.

Lemma mapM_result_Ok {E A B} (f : A → result E B) l k :
  mapM f l = Ok k ↔ Forall2 (λ x y, f x = Ok y) l k.
Proof.
  split.
  - revert k. induction l as [|x l IH]; intros k; cbn; [by intros [= <-]|].
    rewrite bind_Ok. intros (y & Hy & Hk). apply bind_Ok in Hk as (ys & Hys & [= <-]).
    constructor; eauto.
  - induction 1 as [|x y l k Hx _ IH]; cbn; [done|].
    apply bind_Ok. exists y; split; [done|]. apply bind_Ok. by exists k.
Qed.

(** ** Automation shared by the components *)

Create HintDb openkit discriminated.

(** Turns hypotheses on booleans into propositions, once. *)
Ltac bool_to_prop :=
  repeat match goal with
  | H : _ && _ = true |- _ => apply andb_true_iff in H; destruct H
  | H : _ && _ = false |- _ => apply andb_false_iff in H
  | H : _ || _ = true |- _ => apply orb_true_iff in H
  | H : _ || _ = false |- _ => apply orb_false_iff in H; destruct H
  | H : negb _ = true |- _ => apply negb_true_iff in H
  | H : negb _ = false |- _ => apply negb_false_iff in H
  | H : bool_decide _ = true |- _ => apply bool_decide_eq_true_1 in H
  | H : bool_decide _ = false |- _ => apply bool_decide_eq_false_1 in H
  | H : (_ <? _)%Z = true |- _ => apply Z.ltb_lt in H
  | H : (_ <? _)%Z = false |- _ => apply Z.ltb_ge in H
  | H : (_ <=? _)%Z = true |- _ => apply Z.leb_le in H
  | H : (_ <=? _)%Z = false |- _ => apply Z.leb_gt in H
  | H : (_ =? _)%Z = true |- _ => apply Z.eqb_eq in H
  | H : (_ =? _)%Z = false |- _ => apply Z.eqb_neq in H
  end.

(** Splits every [match] and [if] of a hypothesis, naming the equations. *)
Ltac split_match H :=
  repeat match type of H with
  | context [match ?x with _ => _ end] => destruct x eqn:?; simplify_eq/=; try done
  end.

(** Unfolds a successful sequence of binds into its steps. *)
Ltac inv_binds :=
  repeat match goal with
  | H : _ ≫= _ = Ok _ |- _ => apply bind_Ok in H as (? & ? & ?)
  | H : Ok _ = Ok _ |- _ => injection H as H; subst
  | H : Err _ = Ok _ |- _ => discriminate H
  | H : mret _ = Ok _ |- _ => injection H as H; subst
  end.

(** ** Lists *)

(** [Array.prototype.find]. *)
Fixpoint find {A} (p : A → bool) (l : list A) : option A :=
  match l with
  | [] => None
  | x :: l => if p x then Some x else find p l
  end.

(** [Array.prototype.filter] with a boolean callback. *)
Fixpoint filterb {A} (p : A → bool) (l : list A) : list A :=
  match l with
  | [] => []
  | x :: l => if p x then x :: filterb p l else filterb p l
  end.

Lemma find_Some {A} (p : A → bool) l x : find p l = Some x → x ∈ l ∧ p x = true.
Proof.
  induction l as [|y l IH]; cbn; [done|]. destruct (p y) eqn:E.
  - intros [= <-]. split; [left|done].
  - intros H. destruct (IH H). split; [by right|done].
Qed.

Lemma find_None {A} (p : A → bool) l : find p l = None ↔ ∀ x, x ∈ l → p x = false.
Proof.
  induction l as [|y l IH]; cbn.
  - split; [|done]. intros _ x Hx. inversion Hx.
  - destruct (p y) eqn:E; split.
    + done.
    + intros H. rewrite (H y) in E; [done|left].
    + intros H x [->|Hx]%elem_of_cons; [done|]. by apply IH.
    + intros H. apply IH. intros x Hx. apply H. by right.
Qed.

Lemma find_is_Some {A} (p : A → bool) l : is_Some (find p l) ↔ ∃ x, x ∈ l ∧ p x = true.
Proof.
  split.
  - intros [x Hx]. exists x. by apply find_Some.
  - intros (x & Hx & Hp). destruct (find p l) eqn:E; [done|].
    rewrite (proj1 (find_None p l) E x Hx) in Hp. done.
Qed.

Lemma elem_of_filterb {A} (p : A → bool) l x : x ∈ filterb p l ↔ x ∈ l ∧ p x = true.
Proof.
  induction l as [|y l IH]; cbn; [set_solver|].
  rewrite elem_of_cons. destruct (p y) eqn:E; rewrite ?elem_of_cons, IH; split; intros; destruct_or?; destruct_and?; subst; intuition congruence.
Qed.

Lemma filterb_all {A} (p : A → bool) l : (∀ x, x ∈ l → p x = true) → filterb p l = l.
Proof.
  induction l as [|x l IH]; intros H; cbn; [done|]. rewrite (H x) by left.
  f_equal. apply IH. intros y Hy. apply H. by right.
Qed.

Lemma filterb_nil {A} (p : A → bool) l : filterb p l = [] ↔ ∀ x, x ∈ l → p x = false.
Proof.
  induction l as [|y l IH]; cbn.
  - split; [|done]. intros _ x Hx. inversion Hx.
  - destruct (p y) eqn:E; split.
    + done.
    + intros H. rewrite (H y) in E; [done|left].
    + intros H x [->|Hx]%elem_of_cons; [done|]. by apply IH.
    + intros H. apply IH. intros x Hx. apply H. by right.
Qed.

Lemma filterb_app {A} (p : A → bool) l l' : filterb p (l ++ l') = filterb p l ++ filterb p l'.
Proof. induction l as [ | x l IH]; cbn; [done | ]. rewrite IH. by destruct (p x). Qed.

Lemma existsb_elem {A} (p : A → bool) l : existsb p l = true ↔ ∃ x, x ∈ l ∧ p x = true.
Proof. rewrite existsb_exists. setoid_rewrite list_elem_of_In. done. Qed.

Lemma existsb_elem_false {A} (p : A → bool) l : existsb p l = false ↔ ∀ x, x ∈ l → p x = false.
Proof.
  rewrite <-not_true_iff_false, existsb_elem. split.
  - intros H x Hx. destruct (p x) eqn:E; [|done]. exfalso. eauto.
  - intros H (x & Hx & Hp). rewrite H in Hp by done. done.
Qed.

Lemma forallb_elem {A} (p : A → bool) l : forallb p l = true ↔ ∀ x, x ∈ l → p x = true.
Proof. rewrite forallb_forall. setoid_rewrite list_elem_of_In. done. Qed.

(** Membership of a string in a list of strings, [Array.prototype.includes]. *)
Definition includes {A} `{EqDecision A} (l : list A) (x : A) : bool := bool_decide (x ∈ l).

(** Insertion into a JavaScript [Set] kept in insertion order. *)
Definition set_add {A} `{EqDecision A} (x : A) (s : list A) : list A :=
  if bool_decide (x ∈ s) then s else s ++ [x].

Lemma elem_of_set_add {A} `{EqDecision A} (x y : A) s : y ∈ set_add x s ↔ y = x ∨ y ∈ s.
Proof. unfold set_add. case_bool_decide; set_solver. Qed.

Lemma NoDup_set_add {A} `{EqDecision A} (x : A) s : NoDup s → NoDup (set_add x s).
Proof.
  unfold set_add. intros. case_bool_decide; [done|].
  apply NoDup_app. split; [done|]. split; [set_solver|apply NoDup_singleton].
Qed.

(** [new Set(values)] and its spread [[...new Set(values)]]. *)
Definition dedup {A} `{EqDecision A} (l : list A) : list A :=
  foldl (λ s x, set_add x s) [] l.

Lemma foldl_set_add {A} `{EqDecision A} (l s : list A) :
  NoDup s →
  NoDup (foldl (λ s x, set_add x s) s l) ∧
  ∀ y, y ∈ foldl (λ s x, set_add x s) s l ↔ y ∈ s ∨ y ∈ l.
Proof.
  revert s. induction l as [|x l IH]; intros s Hs; cbn.
  - split; [done|set_solver].
  - destruct (IH (set_add x s)) as [Hn He]; [by apply NoDup_set_add|].
    split; [done|]. intros y. rewrite He, elem_of_set_add, elem_of_cons. naive_solver.
Qed.

Lemma NoDup_dedup {A} `{EqDecision A} (l : list A) : NoDup (dedup l).
Proof. apply foldl_set_add. constructor. Qed.

Lemma elem_of_dedup {A} `{EqDecision A} (l : list A) y : y ∈ dedup l ↔ y ∈ l.
Proof.
  unfold dedup. destruct (foldl_set_add l []) as [_ H]; [constructor|].
  rewrite H. set_solver.
Qed.

(** [new Set(values).size === values.length] *)
Lemma dedup_length_NoDup {A} `{EqDecision A} (l : list A) : length (dedup l) = length l → NoDup l.
Proof.
  intros H. assert (Hp : dedup l ≡ₚ l).
  { apply submseteq_length_Permutation; [|lia].
    apply NoDup_submseteq; [apply NoDup_dedup|]. intros x. by rewrite elem_of_dedup. }
  rewrite <-Hp. apply NoDup_dedup.
Qed.

(** Elements with the same key of a list with distinct keys are equal. *)
Lemma NoDup_fmap_elem {A B} (f : A → B) l x y : NoDup (f <$> l) → x ∈ l → y ∈ l → f x = f y → x = y.
Proof.
  intros Hn Hx Hy He. apply list_elem_of_lookup in Hx as [i Hi], Hy as [j Hj].
  assert (i = j); [|congruence].
  eapply NoDup_lookup; [exact Hn|by rewrite list_lookup_fmap, Hi|]. by rewrite list_lookup_fmap, Hj, He.
Qed.

#[export] Hint Resolve NoDup_dedup NoDup_set_add : openkit.
#[export] Hint Rewrite @elem_of_dedup @elem_of_set_add @elem_of_filterb : openkit.

(** ** [Array.prototype.sort] with a comparator

    ECMAScript requires the sort to be stable; insertion from the right is stable because an
    element is placed before the elements that compare equal to it. *)

Section StableSort.
Context {A : Type} (cmp : A → A → Z).

Fixpoint insert_stable (x : A) (l : list A) : list A :=
  match l with
  | [] => [x]
  | y :: l' => if (cmp x y <=? 0)%Z then x :: y :: l' else y :: insert_stable x l'
  end.

Definition js_sort (l : list A) : list A := foldr insert_stable [] l.

Definition cmp_le (x y : A) : Prop := (cmp x y <= 0)%Z.

Lemma insert_stable_perm x l : insert_stable x l ≡ₚ x :: l.
Proof.
  induction l as [|y l IH]; cbn; [done|]. destruct (_ <=? _)%Z; [done|].
  rewrite IH. constructor.
Qed.

Lemma js_sort_perm l : js_sort l ≡ₚ l.
Proof. induction l as [|x l IH]; cbn; [done|]. rewrite insert_stable_perm. by rewrite IH. Qed.

Context (Htotal : ∀ x y, cmp_le x y ∨ cmp_le y x) (Htrans : Transitive cmp_le).

Lemma insert_stable_sorted x l : StronglySorted cmp_le l → StronglySorted cmp_le (insert_stable x l).
Proof.
  induction 1 as [|y l Hs IH Hall]; cbn; [repeat constructor|].
  destruct (_ <=? _)%Z eqn:E; bool_to_prop.
  - constructor; [by constructor|]. constructor; [done|].
    eapply Forall_impl; [exact Hall|]. intros z Hz. by trans y.
  - constructor; [done|]. rewrite insert_stable_perm. constructor; [|done].
    destruct (Htotal x y) as [Hc|]; [|done]. unfold cmp_le in Hc. lia.
Qed.

Lemma js_sort_sorted l : StronglySorted cmp_le (js_sort l).
Proof. induction l; cbn; [constructor|]. by apply insert_stable_sorted. Qed.

Lemma insert_stable_head x l : Forall (cmp_le x) l → insert_stable x l = x :: l.
Proof.
  intros H. destruct H as [|y l Hy]; [done|]. cbn.
  unfold cmp_le in Hy. by rewrite (proj2 (Z.leb_le _ _) Hy).
Qed.

Lemma js_sort_id l : StronglySorted cmp_le l → js_sort l = l.
Proof.
  induction 1 as [|x l Hs IH Hall]; [done|].
  change (js_sort (x :: l)) with (insert_stable x (js_sort l)). rewrite IH.
  by apply insert_stable_head.
Qed.
End StableSort.
