(* ===== verification/PolicyKernel.v ===== *)
(** * The NGAC policy kernel (packages/policy-kernel/src/index.ts)

    Policy facts, the containment closure, the cycle detector, the policy validator and the access
    evaluator.  Identifiers are strings that the kernel only compares, tests for emptiness and
    splices into messages.  A [ReadonlyMap] that is only read by [get] and [size] is a [gmap]; a
    [Set] whose iteration order reaches the decision trace is a duplicate-free list in insertion
    order.  The two graph loops carry fuel; [computeContainmentClosure_spec] and
    [hasAssignmentCycle_spec] show that the fuel they are started with always suffices. *)

From S2P Require Import Prelude.

Local Open Scope string_scope.
Local Open Scope list_scope.

(** ** Policy facts *)

Inductive PolicyElementKind := KUser | KObject | KUserAttribute | KObjectAttribute | KPolicyClass.

#[export] Instance PolicyElementKind_eq_dec : EqDecision PolicyElementKind.
Proof. solve_decision. Defined.

Record PolicyElement := { el_id : string; el_kind : PolicyElementKind }.
Record PolicyAssignment := { as_child : string; as_parent : string }.
Record PolicyOperation := { op_id : string; op_accessRights : list string }.
Record PolicyProcessUser := { pu_process : string; pu_user : string }.
Record PolicyAssociation := {
  assoc_id : string;
  assoc_userAttribute : string;
  assoc_accessRights : list string;
  assoc_targetAttribute : string;
}.

Inductive PolicyProhibitionKind := PKUser | PKProcess | PKUserAttribute.
#[export] Instance PolicyProhibitionKind_eq_dec : EqDecision PolicyProhibitionKind.
Proof. solve_decision. Defined.

Inductive PolicyProhibitionRangeType := Disjunctive | Conjunctive.
Record PolicyProhibitionRange := {
  range_type : PolicyProhibitionRangeType;
  range_include : option (list string);
  range_exclude : option (list string);
}.
Record PolicyProhibition := {
  proh_id : string;
  proh_kind : PolicyProhibitionKind;
  proh_subject : string;
  proh_accessRights : list string;
  proh_range : PolicyProhibitionRange;
}.

Record PolicyState := {
  elements : list PolicyElement;
  assignments : list PolicyAssignment;
  operations : list PolicyOperation;
  processUsers : option (list PolicyProcessUser);
  associations : list PolicyAssociation;
  prohibitions : option (list PolicyProhibition);
}.

Record AccessRequest := {
  req_user : option string;
  req_process : option string;
  req_operation : string;
  req_target : string;
}.

Inductive PolicyDecisionEffect := Allow | Deny.
#[export] Instance PolicyDecisionEffect_eq_dec : EqDecision PolicyDecisionEffect.
Proof. solve_decision. Defined.

Inductive PolicyDecisionReason :=
| AssociationGrant (associationId : string)
| MissingPrivilege (accessRight : string)
| Restriction (prohibitionId : string)
| MissingOperation (operation : string)
| InvalidPolicy (message : string)
| InvalidRequest (message : string).

Record PolicyDecisionTrace := {
  tr_user : option string;
  tr_process : option string;
  tr_requiredAccessRights : list string;
  tr_userClosure : list string;
  tr_targetClosure : list string;
  tr_policyClasses : list string;
  tr_matchedAssociations : list string;
  tr_matchedProhibitions : list string;
}.

Record PolicyDecision := {
  effect : PolicyDecisionEffect;
  reasons : list PolicyDecisionReason;
  trace : PolicyDecisionTrace;
}.

(** ** Indexes *)

(** JavaScript truthiness of a string. *)
Definition truthy (s : string) : bool := negb (bool_decide (s = "")).

(** [user ? { user } : {}]: a falsy optional string is left out. *)
Definition truthy_option (s : option string) : option string :=
  match s with Some x => if truthy x then Some x else None | None => None end.

(** [new Map(entries)]: a later entry replaces an earlier one with the same key. *)
Definition indexElements (els : list PolicyElement) : gmap string PolicyElement :=
  foldl (λ m e, <[el_id e := e]> m) ∅ els.

Definition indexAssignmentParents (asg : list PolicyAssignment) : gmap string (list string) :=
  foldl (λ m a, <[as_child a := default [] (m !! as_child a) ++ [as_parent a]]> m) ∅ asg.

(** [parentsByChild.get(id) ?? []] *)
Definition parents_of (m : gmap string (list string)) (id : string) : list string :=
  default [] (m !! id).

(** [elementsById.get(id)?.kind === k] *)
Definition has_kind (m : gmap string PolicyElement) (id : string) (k : PolicyElementKind) : bool :=
  bool_decide (el_kind <$> m !! id = Some k).

(** ** Containment closure *)

(** Number of assignment edges in the index. *)
Definition edge_count (m : gmap string (list string)) : nat :=
  map_fold (λ _ ps n, length ps + n) 0 m.

(** The [while] loop; the head of [pending] is the top of the stack, [None] is "out of fuel". *)
Fixpoint closure_loop (fuel : nat) (m : gmap string (list string))
    (closure pending : list string) : option (list string) :=
  match pending with
  | [] => Some closure
  | current :: rest =>
    match fuel with
    | O => None
    | S fuel =>
      if negb (truthy current) || bool_decide (current ∈ closure)
      then closure_loop fuel m closure rest
      else closure_loop fuel m (closure ++ [current]) (rev (parents_of m current) ++ rest)
    end
  end.

Definition computeContainmentClosure (start : string) (m : gmap string (list string))
    : list string :=
  default [] (closure_loop (S (edge_count m)) m [] [start]).

(** ** Cycle detection *)

Record VisitState := { visiting : gset string; visited : gset string }.

(** The [for] loop over the parents of one node. *)
Fixpoint visit_parents (visit : string → VisitState → option (bool * VisitState))
    (ps : list string) (st : VisitState) : option (bool * VisitState) :=
  match ps with
  | [] => Some (false, st)
  | p :: ps =>
    match visit p st with
    | Some (false, st) => visit_parents visit ps st
    | r => r
    end
  end.

Fixpoint visit (fuel : nat) (m : gmap string (list string)) (id : string) (st : VisitState)
    : option (bool * VisitState) :=
  match fuel with
  | O => None
  | S fuel =>
    if bool_decide (id ∈ visiting st) then Some (true, st)
    else if bool_decide (id ∈ visited st) then Some (false, st)
    else
      match visit_parents (visit fuel m) (parents_of m id)
              {| visiting := {[id]} ∪ visiting st; visited := visited st |} with
      | Some (false, st) =>
        Some (false, {| visiting := visiting st ∖ {[id]}; visited := {[id]} ∪ visited st |})
      | r => r
      end
  end.

(** [elements.some((element) => visit(element.id))], with the sets shared between the calls. *)
Definition hasAssignmentCycle (els : list PolicyElement) (m : gmap string (list string)) : bool :=
  match visit_parents (visit (S (size m)) m) (el_id <$> els) {| visiting := ∅; visited := ∅ |} with
  | Some (b, _) => b
  | None => true
  end.

(** ** Validation *)

Definition isAllowedAssignment (child parent : PolicyElementKind) : bool :=
  match child with
  | KUser => bool_decide (parent = KUserAttribute)
  | KUserAttribute => bool_decide (parent = KUserAttribute) || bool_decide (parent = KPolicyClass)
  | KObject | KObjectAttribute =>
    bool_decide (parent = KObjectAttribute) || bool_decide (parent = KPolicyClass)
  | KPolicyClass => false
  end.

Definition isAttributeElement (e : option PolicyElement) : bool :=
  match e with
  | Some e =>
    match el_kind e with KUserAttribute | KObjectAttribute | KObject => true | _ => false end
  | None => false
  end.

(** A validation pass is the first error it meets. *)
Fixpoint first_error {A} (check : A → option string) (l : list A) : option string :=
  match l with
  | [] => None
  | x :: l => match check x with Some e => Some e | None => first_error check l end
  end.

Definition validateProhibition (p : PolicyProhibition) (policy : PolicyState)
    (els : gmap string PolicyElement) : option string :=
  let include := default [] (range_include (proh_range p)) in
  let exclude := default [] (range_exclude (proh_range p)) in
  if bool_decide (proh_accessRights p = []) then
    Some ("Prohibition " +:+ proh_id p +:+ " must deny at least one access right.")
  else if bool_decide (proh_kind p = PKUser) && negb (has_kind els (proh_subject p) KUser) then
    Some ("Prohibition " +:+ proh_id p +:+ " must reference an NGAC user.")
  else if bool_decide (proh_kind p = PKUserAttribute)
          && negb (has_kind els (proh_subject p) KUserAttribute) then
    Some ("Prohibition " +:+ proh_id p +:+ " must reference an NGAC user attribute.")
  else if bool_decide (proh_kind p = PKProcess)
          && negb (existsb (λ e, bool_decide (pu_process e = proh_subject p))
                           (default [] (processUsers policy))) then
    Some ("Prohibition " +:+ proh_id p +:+ " must reference a mapped process.")
  else if bool_decide (include = []) && bool_decide (exclude = []) then
    Some ("Prohibition " +:+ proh_id p +:+ " must define a non-empty range.")
  else
    first_error (λ attribute,
      if isAttributeElement (els !! attribute) then None
      else Some ("Prohibition " +:+ proh_id p +:+ " range must reference only NGAC attributes."))
      (include ++ exclude).

Definition validateAssignment (els : gmap string PolicyElement) (a : PolicyAssignment)
    : option string :=
  let error := Some ("Invalid NGAC assignment " +:+ as_child a +:+ " -> " +:+ as_parent a +:+ ".") in
  match els !! as_child a, els !! as_parent a with
  | Some child, Some parent =>
    if isAllowedAssignment (el_kind child) (el_kind parent) then None else error
  | _, _ => error
  end.

Definition validateConnected (els : gmap string PolicyElement) (m : gmap string (list string))
    (e : PolicyElement) : option string :=
  if bool_decide (el_kind e = KPolicyClass) then None
  else if existsb (λ id, has_kind els id KPolicyClass) (computeContainmentClosure (el_id e) m)
  then None
  else Some ("Policy element " +:+ el_id e +:+ " is not connected to a policy class.").

Definition validateAssociation (els : gmap string PolicyElement) (a : PolicyAssociation)
    : option string :=
  if negb (has_kind els (assoc_userAttribute a) KUserAttribute) then
    Some ("Association " +:+ assoc_id a +:+ " must start from a user attribute.")
  else if negb (isAttributeElement (els !! assoc_targetAttribute a)) then
    Some ("Association " +:+ assoc_id a +:+ " must target a user or object attribute.")
  else if bool_decide (assoc_accessRights a = []) then
    Some ("Association " +:+ assoc_id a +:+ " must allocate at least one access right.")
  else None.

(** The first error of two passes. *)
Definition or_error (e1 e2 : option string) : option string :=
  match e1 with Some _ => e1 | None => e2 end.
Infix "<||>" := or_error (at level 60, right associativity) : openkit_scope.

Definition validatePolicy (policy : PolicyState) (els : gmap string PolicyElement)
    (m : gmap string (list string)) : option string :=
  (if bool_decide (size els = length (elements policy)) then None
   else Some "Policy element identifiers must be unique.") <||>
  first_error (validateAssignment els) (assignments policy) <||>
  (if hasAssignmentCycle (elements policy) m
   then Some "NGAC assignment relation must be acyclic." else None) <||>
  first_error (validateConnected els m) (elements policy) <||>
  first_error (λ o, if bool_decide (op_accessRights o = []) then
      Some ("Operation " +:+ op_id o +:+ " must require at least one access right.") else None)
    (operations policy) <||>
  first_error (validateAssociation els) (associations policy) <||>
  first_error (λ pu, if has_kind els (pu_user pu) KUser then None
      else Some ("Process " +:+ pu_process pu +:+ " must map to an NGAC user."))
    (default [] (processUsers policy)) <||>
  first_error (λ p, validateProhibition p policy els) (default [] (prohibitions policy)).

(** ** Evaluation *)

Definition deny (rs : list PolicyDecisionReason) (t : PolicyDecisionTrace) : PolicyDecision :=
  {| effect := Deny; reasons := rs; trace := t |}.

Definition emptyTrace (request : AccessRequest) (required : list string) (user : option string)
    : PolicyDecisionTrace := {|
  tr_user := truthy_option user;
  tr_process := truthy_option (req_process request);
  tr_requiredAccessRights := required;
  tr_userClosure := [];
  tr_targetClosure := [];
  tr_policyClasses := [];
  tr_matchedAssociations := [];
  tr_matchedProhibitions := [];
|}.

(** [inl] is the resolved user, [inr] the validation failure. *)
Definition resolveRequestUser (policy : PolicyState) (request : AccessRequest)
    (els : gmap string PolicyElement) : string + string :=
  let mappedUser :=
    match truthy_option (req_process request) with
    | Some process =>
      pu_user <$> find (λ e, bool_decide (pu_process e = process))
                       (default [] (processUsers policy))
    | None => None
    end in
  let user := match req_user request with Some u => Some u | None => mappedUser end in
  let unresolved := inr "Access request must resolve to an NGAC user." in
  match user with
  | Some u =>
    if truthy u && has_kind els u KUser then
      match truthy_option (req_user request), truthy_option mappedUser with
      | Some requested, Some mapped =>
        if bool_decide (requested = mapped) then inl u
        else inr ("Process " +:+ default "undefined" (req_process request)
                  +:+ " is not mapped to user " +:+ requested +:+ ".")
      | _, _ => inl u
      end
    else unresolved
  | None => unresolved
  end.

Definition grantsAccessRight (a : PolicyAssociation) (accessRight policyClass : string)
    (userClosure targetClosure : list string) (m : gmap string (list string)) : bool :=
  includes userClosure (assoc_userAttribute a)
  && includes targetClosure (assoc_targetAttribute a)
  && includes (computeContainmentClosure (assoc_targetAttribute a) m) policyClass
  && includes (assoc_accessRights a) accessRight.

Definition targetInRange (target : string) (range : PolicyProhibitionRange)
    (m : gmap string (list string)) : bool :=
  let include := default [] (range_include range) in
  let exclude := default [] (range_exclude range) in
  let isContainedBy := includes (computeContainmentClosure target m) in
  match range_type range with
  | Disjunctive => existsb isContainedBy include || existsb (λ a, negb (isContainedBy a)) exclude
  | Conjunctive => forallb isContainedBy include && forallb (λ a, negb (isContainedBy a)) exclude
  end.

Definition matchesRestriction (p : PolicyProhibition) (request : AccessRequest) (user : string)
    (userClosure : list string) (target : string) (required : list string)
    (m : gmap string (list string)) : bool :=
  let subjectMatches :=
    (bool_decide (proh_kind p = PKUser) && bool_decide (proh_subject p = user))
    || (bool_decide (proh_kind p = PKProcess)
        && bool_decide (Some (proh_subject p) = req_process request))
    || (bool_decide (proh_kind p = PKUserAttribute) && includes userClosure (proh_subject p)) in
  subjectMatches
  && existsb (λ accessRight, includes (proh_accessRights p) accessRight) required
  && targetInRange target (proh_range p) m.

Section AssociationSearch.
Context (grants : PolicyAssociation → string → string → bool) (assocs : list PolicyAssociation).

(** The inner loop over the policy classes; [Some ar] is the [break associationSearch]. *)
Fixpoint search_classes (ar : string) (classes matched : list string)
    : list string * option string :=
  match classes with
  | [] => (matched, None)
  | pc :: classes =>
    match find (λ a, grants a ar pc) assocs with
    | Some a => search_classes ar classes (set_add (assoc_id a) matched)
    | None => (matched, Some ar)
    end
  end.

(** The outer loop over the required access rights. *)
Fixpoint search_rights (rights classes matched : list string) : list string * option string :=
  match rights with
  | [] => (matched, None)
  | ar :: rights =>
    match search_classes ar classes matched with
    | (matched, None) => search_rights rights classes matched
    | r => r
    end
  end.
End AssociationSearch.

(** The part of [evaluateAccess] after the request has been resolved. *)
Definition decide_request (policy : PolicyState) (request : AccessRequest)
    (els : gmap string PolicyElement) (m : gmap string (list string))
    (operation : PolicyOperation) (user : string) : PolicyDecision :=
  let userClosure := computeContainmentClosure user m in
  let targetClosure := computeContainmentClosure (req_target request) m in
  let policyClasses := filterb (λ id, has_kind els id KPolicyClass) targetClosure in
  let '(matchedAssociations, missingAccessRight) :=
    search_rights (λ a ar pc, grantsAccessRight a ar pc userClosure targetClosure m)
      (associations policy) (op_accessRights operation) policyClasses [] in
  let matchedProhibitions :=
    filterb (λ p, matchesRestriction p request user userClosure (req_target request)
                    (op_accessRights operation) m)
      (default [] (prohibitions policy)) in
  let base := emptyTrace request (op_accessRights operation) (Some user) in
  let finalTrace := {|
    tr_user := tr_user base;
    tr_process := tr_process base;
    tr_requiredAccessRights := tr_requiredAccessRights base;
    tr_userClosure := userClosure;
    tr_targetClosure := targetClosure;
    tr_policyClasses := policyClasses;
    tr_matchedAssociations := matchedAssociations;
    tr_matchedProhibitions := proh_id <$> matchedProhibitions;
  |} in
  match matchedProhibitions with
  | firstProhibition :: _ => deny [Restriction (proh_id firstProhibition)] finalTrace
  | [] =>
    match missingAccessRight with
    | Some ar => deny [MissingPrivilege ar] finalTrace
    | None =>
      {| effect := Allow;
         reasons := [AssociationGrant (default "" (head matchedAssociations))];
         trace := finalTrace |}
    end
  end.

Definition evaluateAccess (policy : PolicyState) (request : AccessRequest) : PolicyDecision :=
  let els := indexElements (elements policy) in
  let m := indexAssignmentParents (assignments policy) in
  match validatePolicy policy els m with
  | Some policyError => deny [InvalidPolicy policyError] (emptyTrace request [] None)
  | None =>
    match find (λ o, bool_decide (op_id o = req_operation request)) (operations policy) with
    | None => deny [MissingOperation (req_operation request)] (emptyTrace request [] None)
    | Some operation =>
      match resolveRequestUser policy request els with
      | inr message =>
        deny [InvalidRequest message] (emptyTrace request (op_accessRights operation) None)
      | inl user =>
        match els !! req_target request with
        | Some target =>
          if bool_decide (el_kind target = KPolicyClass) then
            deny [InvalidRequest ("Invalid NGAC request target " +:+ req_target request +:+ ".")]
              (emptyTrace request (op_accessRights operation) (Some user))
          else decide_request policy request els m operation user
        | None =>
          deny [InvalidRequest ("Invalid NGAC request target " +:+ req_target request +:+ ".")]
            (emptyTrace request (op_accessRights operation) (Some user))
        end
      end
    end
  end.
