(* ===== verification/PolicyGraph.v ===== *)
(** * The assignment graph of the policy kernel

    Correctness of the two graph loops of packages/policy-kernel/src/index.ts against the
    reflexive transitive closure of the assignment relation: the containment closure is exactly
    the set of reachable elements, and the cycle detector answers exactly whether an element
    reaches a cycle.  Both results include that the fuel of the loops suffices. *)

From S2P Require Import Prelude PolicyKernel.

Local Open Scope string_scope.
Local Open Scope list_scope.
Local Open Scope nat_scope.

(** ** Reachability *)

Section Reachability.
Context (m : gmap string (list string)).

(** One assignment edge. *)
Definition parent_step (a b : string) : Prop := b ∈ parents_of m a.

(** One edge of the closure loop, which skips empty identifiers. *)
Definition contain_step (a b : string) : Prop := parent_step a b ∧ b ≠ "".

(** [x] is [start] or one of its transitive containers. *)
Definition contained_in (start x : string) : Prop := start ≠ "" ∧ rtc contain_step start x.

(** [a] lies on a cycle of the assignment relation. *)
Definition on_cycle (a : string) : Prop := tc parent_step a a.

Lemma contained_in_trans a b c : contained_in a b → contained_in b c → contained_in a c.
Proof. intros [? ?] [_ ?]. split; [done|]. by etrans. Qed.

Lemma contained_in_nonempty a b : contained_in a b → b ≠ "".
Proof. intros [Ha H]. induction H as [|x y z [Hxy Hy] _ IH]; [done|]. by apply IH. Qed.
End Reachability.

Lemma truthy_spec s : truthy s = true ↔ s ≠ "".
Proof. unfold truthy. rewrite negb_true_iff, bool_decide_eq_false. done. Qed.

Lemma includes_spec {A} `{EqDecision A} (l : list A) x : includes l x = true ↔ x ∈ l.
Proof. apply bool_decide_eq_true. Qed.

#[export] Hint Rewrite truthy_spec @includes_spec : openkit.

(** ** The closure loop terminates *)

Lemma edge_count_delete m k ps :
  m !! k = Some ps → edge_count m = length ps + edge_count (delete k m).
Proof.
  intros Hk. unfold edge_count.
  apply (map_fold_delete_L (λ _ ps n, length ps + n) 0 k ps m); [|done].
  intros. lia.
Qed.

(** [left] keeps the adjacency lists that have not been expanded. *)
Lemma closure_loop_total m fuel closure pending (rem : gmap string (list string)) :
  (∀ k, k ∉ closure → rem !! k = m !! k) →
  length pending + edge_count rem ≤ fuel →
  is_Some (closure_loop fuel m closure pending).
Proof.
  revert closure pending rem. induction fuel as [|fuel IH]; intros closure pending rem Hrem Hle.
  - destruct pending; [done|cbn in Hle; lia].
  - destruct pending as [|c rest]; [done|]. cbn in *.
    destruct (_ || _) eqn:E; [apply (IH _ _ rem); [done|lia]|].
    apply orb_false_iff in E as [_ Hc%bool_decide_eq_false_1].
    assert (Hrem' : ∀ k, k ∉ closure ++ [c] → delete c rem !! k = m !! k).
    { intros k Hk. rewrite lookup_delete_ne; set_solver. }
    apply (IH _ _ (delete c rem) Hrem'). unfold parents_of.
    rewrite <-Hrem by done. destruct (rem !! c) as [ps|] eqn:Hps; cbn.
    + rewrite (edge_count_delete rem c ps Hps) in Hle. rewrite length_app, length_rev. lia.
    + rewrite delete_id by done. lia.
Qed.

(** ** The closure loop computes reachability *)

Record closure_inv (m : gmap string (list string)) (start : string)
    (closure pending : list string) : Prop := {
  ci_nodup : NoDup closure;
  ci_sound : ∀ x, x ∈ closure → contained_in m start x;
  ci_pending : ∀ x, x ∈ pending → x = "" ∨ contained_in m start x;
  ci_start : start = "" ∨ start ∈ closure ∨ start ∈ pending;
  ci_closed : ∀ x y, x ∈ closure → contain_step m x y → y ∈ closure ∨ y ∈ pending;
}.

Lemma closure_inv_skip m start closure c rest :
  c = "" ∨ c ∈ closure →
  closure_inv m start closure (c :: rest) → closure_inv m start closure rest.
Proof.
  intros Hc [Hn Hs Hp Hst Hcl]. split; [done|done|set_solver| |].
  - destruct Hst as [|[|[->|]%elem_of_cons]]; destruct Hc; auto.
  - intros x y Hx Hxy. destruct (Hcl x y Hx Hxy) as [|[->|]%elem_of_cons]; [by left| |by right].
    destruct Hc as [->|]; [|by left]. by destruct Hxy.
Qed.

Lemma closure_inv_expand m start closure c rest :
  c ≠ "" → c ∉ closure →
  closure_inv m start closure (c :: rest) →
  closure_inv m start (closure ++ [c]) (rev (parents_of m c) ++ rest).
Proof.
  intros Hne Hnin [Hn Hs Hp Hst Hcl].
  assert (Hreach : contained_in m start c) by (destruct (Hp c); [left|done|done]).
  split.
  - apply NoDup_app. split; [done|]. split; [set_solver|apply NoDup_singleton].
  - intros x [Hx| ->%list_elem_of_singleton]%elem_of_app; auto.
  - intros x [Hx|?]%elem_of_app; [|by apply Hp; right].
    destruct (decide (x = "")) as [->|Hx']; [by left|]. right.
    destruct Hreach as [? Hr]. split; [done|]. eapply rtc_r; [exact Hr|]. split; [|done].
    apply list_elem_of_In, in_rev. by apply list_elem_of_In.
  - destruct Hst as [|[|[->|]%elem_of_cons]]; set_solver.
  - intros x y [Hx| ->%list_elem_of_singleton]%elem_of_app Hxy.
    + destruct (Hcl x y Hx Hxy) as [|[->|]%elem_of_cons]; set_solver.
    + right. apply elem_of_app. left. destruct Hxy as [Hxy _].
      apply list_elem_of_In. rewrite <-in_rev. by apply list_elem_of_In.
Qed.

Lemma closure_loop_inv m start fuel closure pending result :
  closure_inv m start closure pending →
  closure_loop fuel m closure pending = Some result →
  closure_inv m start result [].
Proof.
  revert closure pending. induction fuel as [|fuel IH]; intros closure [|c rest] Hinv; cbn;
    [by intros [= <-]|done|by intros [= <-]|].
  destruct (_ || _) eqn:E; apply IH; clear IH.
  - apply closure_inv_skip with c; [|done].
    apply orb_true_iff in E as [E%negb_true_iff|E%bool_decide_eq_true_1]; [left|by right].
    destruct (decide (c = "")) as [|Hc]; [done|]. apply truthy_spec in Hc. congruence.
  - apply orb_false_iff in E as [E%negb_false_iff Hc%bool_decide_eq_false_1].
    apply closure_inv_expand; [by apply truthy_spec|done|done].
Qed.

(** The closure is duplicate-free and holds exactly the start and its transitive containers. *)
Lemma computeContainmentClosure_spec m start :
  NoDup (computeContainmentClosure start m) ∧
  ∀ x, x ∈ computeContainmentClosure start m ↔ contained_in m start x.
Proof.
  unfold computeContainmentClosure.
  destruct (closure_loop_total m (S (edge_count m)) [] [start] m) as [cl Hcl]; [done|cbn; lia|].
  rewrite Hcl. cbn.
  assert (Hinv : closure_inv m start cl []).
  { eapply closure_loop_inv; [|exact Hcl].
    split; [constructor|by intros ? ?%elem_of_nil| |right; right; left|by intros ? ? ?%elem_of_nil].
    intros x ->%list_elem_of_singleton. destruct (decide (start = "")); [by left|].
    right. by split. }
  destruct Hinv as [Hn Hs _ Hst Hc]. split; [done|]. intros x. split; [apply Hs|].
  intros [Hne Hr]. assert (Hstart : start ∈ cl) by set_solver. clear Hne Hst Hcl Hs.
  induction Hr as [|x y z Hxy _ IH]; [done|]. apply IH. by destruct (Hc x y Hstart Hxy) as [Hy|[]%elem_of_nil].
Qed.

Lemma elem_of_closure m start x :
  x ∈ computeContainmentClosure start m ↔ contained_in m start x.
Proof. apply computeContainmentClosure_spec. Qed.

#[export] Hint Rewrite elem_of_closure : openkit.

(** ** The cycle detector *)

Lemma parents_of_dom m id : parents_of m id ≠ [] → id ∈ dom m.
Proof. unfold parents_of. intros H. apply elem_of_dom. by destruct (m !! id). Qed.

Lemma visit_unfold fuel m id st :
  visit (S fuel) m id st =
  if bool_decide (id ∈ visiting st) then Some (true, st)
  else if bool_decide (id ∈ visited st) then Some (false, st)
  else
    match visit_parents (visit fuel m) (parents_of m id)
            {| visiting := {[id]} ∪ visiting st; visited := visited st |} with
    | Some (false, st) =>
      Some (false, {| visiting := visiting st ∖ {[id]}; visited := {[id]} ∪ visited st |})
    | r => r
    end.
Proof. done. Qed.

(** [visited] is closed under parents, disjoint from the stack, and free of cycles. *)
Record visit_inv (m : gmap string (list string)) (st : VisitState) : Prop := {
  vi_closed : ∀ x y, x ∈ visited st → parent_step m x y → y ∈ visited st;
  vi_disjoint : visiting st ## visited st;
  vi_acyclic : ∀ x, x ∈ visited st → ¬ on_cycle m x;
}.

(** Every node of the stack reaches the node that is about to be visited. *)
Definition stack_reaches (m : gmap string (list string)) (st : VisitState) (id : string) : Prop :=
  ∀ x, x ∈ visiting st → tc (parent_step m) x id.

(** What visiting the nodes [ids] establishes: a reported cycle is real; without one the stack is
    restored and every node of [ids] ends up visited. *)
Definition visit_post (m : gmap string (list string)) (ids : list string) (st : VisitState)
    (r : option (bool * VisitState)) : Prop :=
  match r with
  | None => False
  | Some (true, _) => ∃ id c, id ∈ ids ∧ rtc (parent_step m) id c ∧ on_cycle m c
  | Some (false, st') =>
    visit_inv m st' ∧ visiting st' = visiting st ∧ visited st ⊆ visited st' ∧
    ∀ id, id ∈ ids → id ∈ visited st'
  end.

Lemma visit_parents_post m (v : string → VisitState → option (bool * VisitState)) vs ps st :
  (∀ id st, visiting st = vs → visit_inv m st → stack_reaches m st id →
    visit_post m [id] st (v id st)) →
  visiting st = vs → visit_inv m st → (∀ p, p ∈ ps → stack_reaches m st p) →
  visit_post m ps st (visit_parents v ps st).
Proof.
  intros Hv. revert st. induction ps as [|p ps IH]; intros st Hvs Hinv Hreach; cbn.
  - repeat split; [apply Hinv..|set_solver|]. by intros ? ?%elem_of_nil.
  - pose proof (Hv p st Hvs Hinv (Hreach p ltac:(left))) as Hp.
    destruct (v p st) as [[[] st1]|]; cbn in Hp; [|clear Hv|done].
    + destruct Hp as (id & c & ->%list_elem_of_singleton & ? & ?). exists p, c. split; [left|done].
    + destruct Hp as (Hinv1 & Hvs1 & Hsub1 & Hin1).
      assert (Hpost : visit_post m ps st1 (visit_parents v ps st1)).
      { apply IH; [congruence|done|]. intros q Hq x Hx. apply (Hreach q); [by right|].
        by rewrite <-Hvs1. }
      destruct (visit_parents v ps st1) as [[[] st2]|]; cbn in *; [|..].
      * destruct Hpost as (id & c & ? & ? & ?). exists id, c. split; [by right|done].
      * destruct Hpost as (Hinv2 & Hvs2 & Hsub2 & Hin2).
        split; [done|]. split; [congruence|]. split; [set_solver|].
        intros id [->|Hid]%elem_of_cons; [|by apply Hin2]. apply Hsub2, Hin1. left.
      * done.
Qed.

Lemma visit_inv_push m st id :
  id ∉ visited st → visit_inv m st →
  visit_inv m {| visiting := {[id]} ∪ visiting st; visited := visited st |}.
Proof. intros Hid [Hc Hd Ha]. split; cbn; [done|set_solver|done]. Qed.

Lemma visit_inv_pop m st st' id :
  id ∉ visiting st → visiting st' = {[id]} ∪ visiting st → visit_inv m st' →
  (∀ p, p ∈ parents_of m id → p ∈ visited st') →
  visit_inv m {| visiting := visiting st' ∖ {[id]}; visited := {[id]} ∪ visited st' |}.
Proof.
  intros Hid Hvs [Hc Hd Ha] Hps. split; cbn.
  - intros x y [->%elem_of_singleton|Hx]%elem_of_union Hxy; [|set_solver].
    apply elem_of_union_r. by apply Hps.
  - set_solver.
  - intros x [->%elem_of_singleton|Hx]%elem_of_union; [|by apply Ha].
    intros Hcyc. assert (Hstep : ∃ y, parent_step m id y ∧ rtc (parent_step m) y id).
    { inversion Hcyc; subst; [by exists id|]. eexists. split; [done|]. by apply tc_rtc. }
    destruct Hstep as (y & Hy & Hr). apply Hps in Hy.
    assert (id ∈ visited st') as Hin; [|set_solver].
    clear -Hc Hr Hy. induction Hr; [done|]. eauto.
Qed.

Lemma visit_correct fuel m id st :
  visit_inv m st → stack_reaches m st id → size (dom m ∖ visiting st) < fuel →
  visit_post m [id] st (visit fuel m id st).
Proof.
  revert id st. induction fuel as [|fuel IH]; intros id st Hinv Hreach Hfuel; [lia|].
  rewrite visit_unfold. case_bool_decide as Hvis; [|case_bool_decide as Hdone].
  - cbn. exists id, id. split; [left|]. split; [done|]. by apply Hreach.
  - cbn. repeat split; [apply Hinv..|set_solver|]. by intros ? ->%list_elem_of_singleton.
  - set (st1 := {| visiting := {[id]} ∪ visiting st; visited := visited st |}).
    assert (Hpost : visit_post m (parents_of m id) st1
                      (visit_parents (visit fuel m) (parents_of m id) st1)).
    { destruct (decide (parents_of m id = [])) as [->|Hne].
      { split; [by apply visit_inv_push|]. do 2 (split; [done|]). by intros ? ?%elem_of_nil. }
      apply (visit_parents_post m _ (visiting st1)); [|done|by apply visit_inv_push|].
      - intros p st' Hvs Hinv' Hreach'. apply IH; [done|done|]. rewrite Hvs.
        apply parents_of_dom in Hne. eapply Nat.lt_le_trans; [|apply Nat.lt_succ_r, Hfuel].
        apply subset_size. cbn. set_solver.
      - intros p Hp x [->%elem_of_singleton|Hx]%elem_of_union; [by apply tc_once|].
        eapply tc_r; [by apply Hreach|done]. }
    destruct (visit_parents _ _ _) as [[[] st2]|]; cbn in Hpost |- *; [| |done].
    + destruct Hpost as (p & c & Hp & Hr & Hc). exists id, c. split; [left|]. split; [|done].
      by eapply rtc_l.
    + destruct Hpost as (Hinv2 & Hvs2 & Hsub2 & Hin2). split; [by eapply visit_inv_pop|].
      split; [set_solver|]. split; [set_solver|]. intros ? ->%list_elem_of_singleton. set_solver.
Qed.

(** The detector reports a cycle exactly when some element reaches one. *)
Lemma hasAssignmentCycle_spec els m :
  hasAssignmentCycle els m = true ↔
  ∃ e c, e ∈ els ∧ rtc (parent_step m) (el_id e) c ∧ on_cycle m c.
Proof.
  unfold hasAssignmentCycle. set (st := {| visiting := ∅; visited := ∅ |}).
  assert (Hinv : visit_inv m st) by (split; cbn; set_solver).
  assert (Hpost : visit_post m (el_id <$> els) st
                    (visit_parents (visit (S (size m)) m) (el_id <$> els) st)).
  { apply (visit_parents_post m _ ∅); [|done|done|by intros ? _ ? ?%not_elem_of_empty].
    intros id st' Hvs Hinv' Hreach. apply visit_correct; [done..|].
    rewrite Hvs, difference_empty_L, size_dom. lia. }
  destruct (visit_parents _ _ _) as [[[] st']|]; cbn in Hpost; [| |done].
  - split; [intros _|done]. destruct Hpost as (id & c & (e & -> & He)%list_elem_of_fmap & Hr & Hc).
    by exists e, c.
  - split; [done|]. intros (e & c & He & Hr & Hc). exfalso.
    destruct Hpost as ([Hcl _ Ha] & _ & _ & Hin). apply (Ha c); [|done].
    assert (Hid : el_id e ∈ visited st') by (apply Hin; by apply list_elem_of_fmap_2).
    clear -Hr Hid Hcl. induction Hr; eauto.
Qed.
