(* ===== verification/PolicyDecisions.v ===== *)
(** * What the policy kernel decides

    A declarative NGAC specification ([wf_policy], [privileged], [restricted], [permits]) and the
    theorems that the validator and the evaluator of packages/policy-kernel/src/index.ts implement
    it. *)

From S2P Require Import Prelude PolicyKernel PolicyGraph.

Local Open Scope string_scope.
Local Open Scope list_scope.
Local Open Scope nat_scope.

(** ** Declarative specification *)

Section Specification.
Context (policy : PolicyState).

(** The element [id] is declared with kind [k]. *)
Definition declared (id : string) (k : PolicyElementKind) : Prop :=
  {| el_id := id; el_kind := k |} ∈ elements policy.

Definition assigned (a b : string) : Prop :=
  {| as_child := a; as_parent := b |} ∈ assignments policy.

(** [b] is [a] or contains it through assignments. *)
Definition within (a b : string) : Prop :=
  a ≠ "" ∧ rtc (λ x y, assigned x y ∧ y ≠ "") a b.

Definition is_attribute (id : string) : Prop :=
  declared id KUserAttribute ∨ declared id KObjectAttribute ∨ declared id KObject.

Definition allowed_kinds (child parent : PolicyElementKind) : Prop :=
  match child, parent with
  | KUser, KUserAttribute
  | KUserAttribute, KUserAttribute | KUserAttribute, KPolicyClass
  | KObject, KObjectAttribute | KObject, KPolicyClass
  | KObjectAttribute, KObjectAttribute | KObjectAttribute, KPolicyClass => True
  | _, _ => False
  end.

Definition range_includes (p : PolicyProhibition) : list string :=
  default [] (range_include (proh_range p)).
Definition range_excludes (p : PolicyProhibition) : list string :=
  default [] (range_exclude (proh_range p)).

Definition wf_prohibition (p : PolicyProhibition) : Prop :=
  proh_accessRights p ≠ [] ∧
  match proh_kind p with
  | PKUser => declared (proh_subject p) KUser
  | PKUserAttribute => declared (proh_subject p) KUserAttribute
  | PKProcess => ∃ pu, pu ∈ default [] (processUsers policy) ∧ pu_process pu = proh_subject p
  end ∧
  range_includes p ++ range_excludes p ≠ [] ∧
  (∀ a, a ∈ range_includes p ++ range_excludes p → is_attribute a).

(** The policy states the kernel evaluates. *)
Record wf_policy : Prop := {
  wf_unique : NoDup (el_id <$> elements policy);
  wf_assignments : ∀ a b, assigned a b →
    ∃ ka kb, declared a ka ∧ declared b kb ∧ allowed_kinds ka kb;
  wf_acyclic : ∀ a, ¬ tc assigned a a;
  wf_connected : ∀ id k, declared id k → k ≠ KPolicyClass →
    ∃ pc, within id pc ∧ declared pc KPolicyClass;
  wf_operations : ∀ o, o ∈ operations policy → op_accessRights o ≠ [];
  wf_associations : ∀ a, a ∈ associations policy →
    declared (assoc_userAttribute a) KUserAttribute ∧ is_attribute (assoc_targetAttribute a) ∧
    assoc_accessRights a ≠ [];
  wf_processUsers : ∀ pu, pu ∈ default [] (processUsers policy) → declared (pu_user pu) KUser;
  wf_prohibitions : ∀ p, p ∈ default [] (prohibitions policy) → wf_prohibition p;
}.

(** An association allocates [right] to [user] on [target] under the policy class [pc]. *)
Definition allocates (a : PolicyAssociation) (user ar target pc : string) : Prop :=
  a ∈ associations policy ∧ within user (assoc_userAttribute a) ∧
  within target (assoc_targetAttribute a) ∧ within (assoc_targetAttribute a) pc ∧
  ar ∈ assoc_accessRights a.

(** NGAC privilege: every policy class that contains the target allocates the access right. *)
Definition privileged (user ar target : string) : Prop :=
  ∀ pc, within target pc → declared pc KPolicyClass → ∃ a, allocates a user ar target pc.

Definition in_range (target : string) (p : PolicyProhibition) : Prop :=
  match range_type (proh_range p) with
  | Disjunctive =>
    (∃ a, a ∈ range_includes p ∧ within target a) ∨ (∃ a, a ∈ range_excludes p ∧ ¬ within target a)
  | Conjunctive =>
    (∀ a, a ∈ range_includes p → within target a) ∧ (∀ a, a ∈ range_excludes p → ¬ within target a)
  end.

(** The prohibition [p] restricts [user] (running as [process]) from the rights on [target]. *)
Definition restricts (p : PolicyProhibition) (user : string) (process : option string)
    (rights : list string) (target : string) : Prop :=
  match proh_kind p with
  | PKUser => proh_subject p = user
  | PKProcess => process = Some (proh_subject p)
  | PKUserAttribute => within user (proh_subject p)
  end ∧
  (∃ ar, ar ∈ rights ∧ ar ∈ proh_accessRights p) ∧ in_range target p.

(** The user a process is mapped to; an absent or empty process has none. *)
Definition mapped_user (request : AccessRequest) : option string :=
  match truthy_option (req_process request) with
  | Some process =>
    pu_user <$> find (λ e, bool_decide (pu_process e = process)) (default [] (processUsers policy))
  | None => None
  end.

(** The request runs for the declared user [u]. *)
Definition runs_as (request : AccessRequest) (u : string) : Prop :=
  declared u KUser ∧
  match req_user request with
  | Some v => v = u ∧ (mapped_user request = None ∨ mapped_user request = Some u)
  | None => mapped_user request = Some u
  end.

(** The access decision function of the implemented NGAC subset. *)
Definition permits (request : AccessRequest) : Prop :=
  ∃ op user kind,
    find (λ o, bool_decide (op_id o = req_operation request)) (operations policy) = Some op ∧
    runs_as request user ∧
    declared (req_target request) kind ∧ kind ≠ KPolicyClass ∧
    (∀ ar, ar ∈ op_accessRights op → privileged user ar (req_target request)) ∧
    (∀ p, p ∈ default [] (prohibitions policy) →
      ¬ restricts p user (req_process request) (op_accessRights op) (req_target request)).
End Specification.

(** ** The indexes *)

Lemma indexElements_snoc els e :
  indexElements (els ++ [e]) = <[el_id e := e]> (indexElements els).
Proof. unfold indexElements. by rewrite foldl_app. Qed.

Lemma indexElements_dom els id : is_Some (indexElements els !! id) ↔ id ∈ el_id <$> els.
Proof.
  induction els as [|e els IH] using rev_ind.
  - cbn. rewrite lookup_empty, elem_of_nil. split; [by intros []|done].
  - rewrite indexElements_snoc, lookup_insert_is_Some', fmap_app, elem_of_app, IH. cbn.
    rewrite list_elem_of_singleton. naive_solver.
Qed.

Lemma indexElements_size els :
  size (indexElements els) = length els ↔ NoDup (el_id <$> els).
Proof.
  assert (Hle : ∀ l, size (indexElements l) ≤ length l).
  { intros l. induction l as [|e l IH] using rev_ind; [done|].
    rewrite indexElements_snoc, length_app, map_size_insert. cbn [length].
    destruct (indexElements l !! el_id e); cbn; lia. }
  induction els as [|e els IH] using rev_ind; [split; [constructor|done]|].
  rewrite indexElements_snoc, fmap_app, NoDup_app, length_app, map_size_insert, <-IH. cbn [length fmap list_fmap].
  pose proof (Hle els). pose proof (indexElements_dom els (el_id e)) as Hdom.
  destruct (indexElements els !! el_id e) eqn:E; cbn [id].
  - split; [lia|]. intros (_ & Hn & _). exfalso. apply (Hn (el_id e)); [by apply Hdom|left].
  - split; [intros ?; split; [lia|]|intros (? & _ & _); lia]. split; [|apply NoDup_singleton].
    intros x Hx ->%list_elem_of_singleton. apply Hdom in Hx as [? ?]. congruence.
Qed.

Lemma indexElements_lookup els id e :
  NoDup (el_id <$> els) → indexElements els !! id = Some e ↔ e ∈ els ∧ el_id e = id.
Proof.
  induction els as [|f els IH] using rev_ind; intros Hn.
  - cbn. rewrite lookup_empty, elem_of_nil. naive_solver.
  - rewrite fmap_app in Hn. apply NoDup_app in Hn as (Hn & Hd & _).
    rewrite indexElements_snoc, elem_of_app, list_elem_of_singleton, lookup_insert.
    assert (Hne : e ∈ els → el_id e ≠ el_id f).
    { intros He Heq. apply (Hd (el_id e)); [by apply list_elem_of_fmap_2|]. rewrite Heq. left. }
    case_decide; [|rewrite IH by done]; naive_solver.
Qed.

Lemma declared_lookup policy id k :
  NoDup (el_id <$> elements policy) →
  declared policy id k ↔ el_kind <$> indexElements (elements policy) !! id = Some k.
Proof.
  intros Hn. rewrite fmap_Some. unfold declared. split.
  - intros H. eexists. rewrite (indexElements_lookup _ _ _ Hn). split; [split; [exact H|]|]; done.
  - intros ([i k'] & [H Hid]%indexElements_lookup & Hk); [|done]. cbn in *. by subst.
Qed.

Lemma has_kind_spec policy id k :
  NoDup (el_id <$> elements policy) →
  has_kind (indexElements (elements policy)) id k = true ↔ declared policy id k.
Proof. intros Hn. unfold has_kind. rewrite bool_decide_eq_true. by rewrite declared_lookup. Qed.

Lemma isAttributeElement_spec policy id :
  NoDup (el_id <$> elements policy) →
  isAttributeElement (indexElements (elements policy) !! id) = true ↔ is_attribute policy id.
Proof.
  intros Hn. unfold is_attribute. rewrite !declared_lookup by done.
  destruct (indexElements (elements policy) !! id) as [[? []]|]; cbn; naive_solver.
Qed.

Lemma indexAssignmentParents_snoc asg a :
  indexAssignmentParents (asg ++ [a]) =
  <[as_child a := parents_of (indexAssignmentParents asg) (as_child a) ++ [as_parent a]]>
    (indexAssignmentParents asg).
Proof. unfold indexAssignmentParents. by rewrite foldl_app. Qed.

Lemma parent_step_assigned policy a b :
  parent_step (indexAssignmentParents (assignments policy)) a b ↔ assigned policy a b.
Proof.
  unfold parent_step, assigned. induction (assignments policy) as [|[c p] asg IH] using rev_ind.
  - unfold parents_of. cbn. rewrite lookup_empty. cbn. by rewrite !elem_of_nil.
  - rewrite indexAssignmentParents_snoc, elem_of_app, list_elem_of_singleton, <-IH. cbn.
    unfold parents_of at 1. rewrite lookup_insert. case_decide as Hc; cbn.
    + subst. rewrite elem_of_app, list_elem_of_singleton. naive_solver.
    + fold (parents_of (indexAssignmentParents asg) a). naive_solver.
Qed.

Lemma contained_within policy a b :
  contained_in (indexAssignmentParents (assignments policy)) a b ↔ within policy a b.
Proof.
  unfold contained_in, within. apply and_iff_compat_l.
  split; apply rtc_subrel; intros x y [H ?]; split; try done; by apply parent_step_assigned.
Qed.

Lemma closure_within policy a b :
  b ∈ computeContainmentClosure a (indexAssignmentParents (assignments policy))
  ↔ within policy a b.
Proof. rewrite elem_of_closure. apply contained_within. Qed.

(** ** The validator *)

Lemma first_error_None {A} (check : A → option string) l :
  first_error check l = None ↔ ∀ x, x ∈ l → check x = None.
Proof.
  induction l as [|y l IH]; cbn.
  - split; [by intros _ ? ?%elem_of_nil|done].
  - destruct (check y) eqn:E.
    + split; [done|]. intros H. rewrite (H y) in E by left. done.
    + rewrite IH. split; [intros H x [->|]%elem_of_cons; auto|]. intros H x Hx. apply H. by right.
Qed.

Lemma or_error_None e1 e2 : e1 <||> e2 = None ↔ e1 = None ∧ e2 = None.
Proof. destruct e1, e2; cbn; naive_solver. Qed.

Lemma if_error_None (b : bool) (e : string) : (if b then None else Some e) = None ↔ b = true.
Proof. by destruct b. Qed.

Lemma if_error_None' (b : bool) (e : string) : (if b then Some e else None) = None ↔ b = false.
Proof. by destruct b. Qed.

Lemma if_else_None (b : bool) (e : string) k :
  (if b then Some e else k) = None ↔ b = false ∧ k = None.
Proof. destruct b; naive_solver. Qed.

Lemma guard_false (P : Prop) `{Decision P} (b : bool) :
  bool_decide P && negb b = false ↔ (P → b = true).
Proof. case_bool_decide; destruct b; naive_solver. Qed.

Lemma isAllowedAssignment_spec a b : isAllowedAssignment a b = true ↔ allowed_kinds a b.
Proof. destruct a, b; cbn; naive_solver. Qed.

Lemma tc_assigned policy a b :
  tc (parent_step (indexAssignmentParents (assignments policy))) a b ↔ tc (assigned policy) a b.
Proof.
  split; induction 1; [apply tc_once|eapply tc_l|apply tc_once|eapply tc_l]; eauto;
    by apply parent_step_assigned.
Qed.

Section Validator.
Context (policy : PolicyState) (Hn : NoDup (el_id <$> elements policy)).
Let els := indexElements (elements policy).
Let m := indexAssignmentParents (assignments policy).

Lemma validateAssignment_spec a :
  validateAssignment els a = None ↔
  ∃ ka kb, declared policy (as_child a) ka ∧ declared policy (as_parent a) kb ∧ allowed_kinds ka kb.
Proof.
  unfold validateAssignment, els. setoid_rewrite declared_lookup; [|done..].
  destruct (indexElements (elements policy) !! as_child a) as [ea|];
    destruct (indexElements (elements policy) !! as_parent a) as [eb|]; cbn.
  2-4: split; [done|naive_solver].
  rewrite if_error_None, isAllowedAssignment_spec. naive_solver.
Qed.

Lemma validateConnected_spec e :
  validateConnected els m e = None ↔
  (el_kind e ≠ KPolicyClass → ∃ pc, within policy (el_id e) pc ∧ declared policy pc KPolicyClass).
Proof.
  unfold validateConnected. case_bool_decide as Hk; [naive_solver|].
  rewrite if_error_None, existsb_elem. unfold els, m. setoid_rewrite closure_within.
  setoid_rewrite has_kind_spec; [|done]. naive_solver.
Qed.

Lemma validateAssociation_spec a :
  validateAssociation els a = None ↔
  declared policy (assoc_userAttribute a) KUserAttribute ∧
  is_attribute policy (assoc_targetAttribute a) ∧ assoc_accessRights a ≠ [].
Proof.
  unfold validateAssociation. rewrite !if_else_None, !negb_false_iff, bool_decide_eq_false.
  unfold els. rewrite has_kind_spec, isAttributeElement_spec by done. naive_solver.
Qed.

Lemma prohibition_range_spec p :
  first_error (λ attribute,
    if isAttributeElement (els !! attribute) then None
    else Some ("Prohibition " +:+ proh_id p +:+ " range must reference only NGAC attributes."))
    (range_includes p ++ range_excludes p) = None ↔
  ∀ a, a ∈ range_includes p ++ range_excludes p → is_attribute policy a.
Proof.
  rewrite first_error_None. unfold els. setoid_rewrite if_error_None.
  by setoid_rewrite isAttributeElement_spec.
Qed.

Lemma validateProhibition_spec p :
  validateProhibition p policy els = None ↔ wf_prohibition policy p.
Proof.
  unfold validateProhibition, wf_prohibition.
  fold (range_includes p) (range_excludes p).
  rewrite !if_else_None, !guard_false, prohibition_range_spec, bool_decide_eq_false.
  rewrite existsb_elem. setoid_rewrite bool_decide_eq_true.
  unfold els. rewrite <-!declared_lookup by done.
  rewrite andb_false_iff, !bool_decide_eq_false.
  assert (Happ : (range_includes p ≠ [] ∨ range_excludes p ≠ []) ↔
                 range_includes p ++ range_excludes p ≠ []).
  { destruct (range_includes p); naive_solver. }
  rewrite Happ. destruct (proh_kind p); naive_solver.
Qed.

(** The validator accepts exactly the well-formed policies. *)
Lemma validatePolicy_spec_aux :
  validatePolicy policy els m = None ↔ wf_policy policy.
Proof.
  unfold validatePolicy. rewrite !or_error_None, if_error_None, bool_decide_eq_true.
  rewrite !first_error_None, if_error_None'.
  setoid_rewrite if_error_None'. setoid_rewrite if_error_None.
  setoid_rewrite bool_decide_eq_false.
  setoid_rewrite validateAssignment_spec. setoid_rewrite validateConnected_spec.
  setoid_rewrite validateAssociation_spec. setoid_rewrite validateProhibition_spec.
  unfold els at 2. setoid_rewrite has_kind_spec; [|done].
  rewrite <-not_true_iff_false, hasAssignmentCycle_spec.
  split.
  - intros (_ & Has & Hcyc & Hcon & Hops & Hassoc & Hpu & Hproh). split; try done.
    + intros a b Hab. by apply (Has {| as_child := a; as_parent := b |}).
    + intros a Ha. apply Hcyc.
      assert (Hd : ∃ k, declared policy a k).
      { assert (∃ b, assigned policy a b) as [b Hb] by (inversion Ha; eauto).
        destruct (Has {| as_child := a; as_parent := b |} Hb) as (ka & _ & ? & _). eauto. }
      destruct Hd as [k Hd]. eexists _, a. split; [exact Hd|]. split; [done|]. by apply tc_assigned.
    + intros id k Hd Hk. by apply (Hcon {| el_id := id; el_kind := k |}).
  - intros [_ Has Hcyc Hcon Hops Hassoc Hpu Hproh]. split; [by apply indexElements_size|].
    split; [intros [a b]; apply Has|]. split.
    { intros (e & c & _ & _ & Hc). apply (Hcyc c). by apply tc_assigned. }
    split; [intros [i k]; apply Hcon|]. done.
Qed.
End Validator.

Lemma validatePolicy_spec policy :
  validatePolicy policy (indexElements (elements policy))
    (indexAssignmentParents (assignments policy)) = None ↔ wf_policy policy.
Proof.
  destruct (decide (NoDup (el_id <$> elements policy))) as [Hn|Hn].
  - by apply validatePolicy_spec_aux.
  - split; [|by intros []]. unfold validatePolicy. rewrite or_error_None, if_error_None.
    rewrite bool_decide_eq_true, indexElements_size. by intros [? _].
Qed.

(** ** The association search *)

Section Search.
Context (grants : PolicyAssociation → string → string → bool) (assocs : list PolicyAssociation).

(** Where a matched identifier comes from. *)
Definition matched_by (rights classes : list string) (id : string) : Prop :=
  ∃ a ar pc, a ∈ assocs ∧ ar ∈ rights ∧ pc ∈ classes ∧ grants a ar pc = true ∧ id = assoc_id a.

Lemma search_classes_spec ar classes matched :
  match search_classes grants assocs ar classes matched with
  | (matched', None) =>
    (∀ pc, pc ∈ classes → ∃ a, a ∈ assocs ∧ grants a ar pc = true) ∧
    (∀ id, id ∈ matched' → id ∈ matched ∨ matched_by [ar] classes id) ∧
    (matched ≠ [] ∨ classes ≠ [] → matched' ≠ [])
  | (_, Some r) => r = ar ∧ ∃ pc, pc ∈ classes ∧ ∀ a, a ∈ assocs → grants a ar pc = false
  end.
Proof.
  revert matched. induction classes as [|pc classes IH]; intros matched; cbn.
  - split; [by intros ? ?%elem_of_nil|]. split; [by left|]. naive_solver.
  - destruct (find _ assocs) as [a|] eqn:E.
    + apply find_Some in E as [Ha Hg]. specialize (IH (set_add (assoc_id a) matched)).
      destruct (search_classes _ _ _ _ _) as [matched' [r|]].
      * destruct IH as (-> & pc' & ? & ?). split; [done|]. exists pc'. split; [by right|done].
      * destruct IH as (Hall & Hids & Hne). split; [|split].
        -- intros pc' [->|]%elem_of_cons; [by exists a|auto].
        -- intros id Hid. destruct (Hids id Hid) as [[->|?]%elem_of_set_add|Hm]; [right|by left|].
           ++ exists a, ar, pc. repeat split; auto; left.
           ++ right. destruct Hm as (a' & r & pc' & ? & ? & ? & ? & ?).
              exists a', r, pc'. repeat split; auto. by right.
        -- intros _. apply Hne. left. intros Hnil.
           assert (assoc_id a ∈ set_add (assoc_id a) matched) as Hin by (apply elem_of_set_add; auto).
           rewrite Hnil in Hin. by apply elem_of_nil in Hin.
    + split; [done|]. exists pc. split; [left|]. by apply find_None.
Qed.

Lemma search_rights_spec rights classes matched :
  match search_rights grants assocs rights classes matched with
  | (matched', None) =>
    (∀ ar pc, ar ∈ rights → pc ∈ classes → ∃ a, a ∈ assocs ∧ grants a ar pc = true) ∧
    (∀ id, id ∈ matched' → id ∈ matched ∨ matched_by rights classes id) ∧
    (matched ≠ [] ∨ (rights ≠ [] ∧ classes ≠ []) → matched' ≠ [])
  | (_, Some r) =>
    r ∈ rights ∧ ∃ pc, pc ∈ classes ∧ ∀ a, a ∈ assocs → grants a r pc = false
  end.
Proof.
  revert matched. induction rights as [|ar rights IH]; intros matched; cbn.
  - split; [by intros ? ? ?%elem_of_nil|]. split; [by left|]. naive_solver.
  - pose proof (search_classes_spec ar classes matched) as Hc.
    destruct (search_classes _ _ _ _ _) as [matched1 [r|]].
    + destruct Hc as [-> ?]. split; [left|done].
    + destruct Hc as (Hall1 & Hids1 & Hne1). specialize (IH matched1).
      destruct (search_rights _ _ _ _ _) as [matched2 [r|]].
      * destruct IH as [? ?]. split; [by right|done].
      * destruct IH as (Hall2 & Hids2 & Hne2). split; [|split].
        -- intros r pc [->|]%elem_of_cons ?; auto.
        -- intros id Hid. destruct (Hids2 id Hid) as [Hid1|Hm].
           ++ destruct (Hids1 id Hid1) as [|Hm]; [by left|]. right.
              destruct Hm as (a & r & pc & ? & ->%list_elem_of_singleton & ? & ? & ?).
              exists a, ar, pc. repeat split; auto. left.
           ++ right. destruct Hm as (a & r & pc & ? & ? & ? & ? & ?).
              exists a, r, pc. repeat split; auto. by right.
        -- intros H. apply Hne2. left. apply Hne1. naive_solver.
Qed.
End Search.

(** ** The evaluator *)

Lemma wf_nonempty policy id k :
  wf_policy policy → declared policy id k → k ≠ KPolicyClass → id ≠ "".
Proof. intros Hwf Hd Hk. by destruct (wf_connected _ Hwf id k Hd Hk) as (pc & [? _] & _). Qed.

Lemma truthy_option_nonempty s : truthy_option (Some s) = Some s ↔ s ≠ "".
Proof. cbn. destruct (truthy s) eqn:E; [apply truthy_spec in E|]; [naive_solver|].
  split; [done|]. intros H%truthy_spec. congruence. Qed.

Section Evaluator.
Context (policy : PolicyState) (Hwf : wf_policy policy).
Let els := indexElements (elements policy).
Let m := indexAssignmentParents (assignments policy).

Lemma mapped_user_declared request u :
  mapped_user policy request = Some u → declared policy u KUser.
Proof.
  unfold mapped_user. destruct (truthy_option _); [|done].
  intros (pu & [Hin _]%find_Some & ->)%fmap_Some. by apply wf_processUsers.
Qed.

Lemma resolveRequestUser_spec request u :
  resolveRequestUser policy request els = inl u ↔ runs_as policy request u.
Proof.
  pose proof (wf_unique _ Hwf) as Hn.
  assert (Hne : ∀ v, declared policy v KUser → truthy v = true ∧ truthy_option (Some v) = Some v).
  { intros v Hv. pose proof (wf_nonempty _ _ _ Hwf Hv ltac:(done)) as Hv'.
    split; [by apply truthy_spec|by apply truthy_option_nonempty]. }
  unfold resolveRequestUser, runs_as. fold (mapped_user policy request).
  pose proof (mapped_user_declared request) as Hmap.
  destruct (req_user request) as [v|]; cbn [truthy_option].
  - destruct (truthy v && has_kind els v KUser) eqn:E.
    + apply andb_true_iff in E as [Ht Hk%has_kind_spec]; [|done]. rewrite Ht.
      destruct (mapped_user policy request) as [w|]; [|naive_solver].
      destruct (Hne w (Hmap _ eq_refl)) as [_ ->]. case_bool_decide; naive_solver.
    + split; [done|]. intros (Hd & -> & _). apply andb_false_iff in E as [E|E].
      * destruct (Hne _ Hd). congruence.
      * apply (has_kind_spec policy u KUser Hn) in Hd. unfold els in E. congruence.
  - destruct (mapped_user policy request) as [w|]; [|naive_solver].
    specialize (Hmap w eq_refl). destruct (Hne w Hmap) as [-> _].
    unfold els. rewrite (proj2 (has_kind_spec policy w KUser Hn) Hmap). cbn. naive_solver.
Qed.

Lemma grantsAccessRight_spec a ar pc user target :
  a ∈ associations policy →
  grantsAccessRight a ar pc (computeContainmentClosure user m)
    (computeContainmentClosure target m) m = true ↔ allocates policy a user ar target pc.
Proof.
  intros Ha. unfold grantsAccessRight, allocates. rewrite !andb_true_iff, !includes_spec.
  unfold m. rewrite !closure_within. naive_solver.
Qed.

Lemma targetInRange_spec target p :
  targetInRange target (proh_range p) m = true ↔ in_range policy target p.
Proof.
  unfold targetInRange, in_range. fold (range_includes p) (range_excludes p).
  destruct (range_type (proh_range p)).
  - rewrite orb_true_iff, !existsb_elem. setoid_rewrite negb_true_iff.
    setoid_rewrite <-not_true_iff_false. setoid_rewrite includes_spec.
    unfold m. by setoid_rewrite closure_within.
  - rewrite andb_true_iff, !forallb_elem. setoid_rewrite negb_true_iff.
    setoid_rewrite <-not_true_iff_false. setoid_rewrite includes_spec.
    unfold m. by setoid_rewrite closure_within.
Qed.

Lemma matchesRestriction_spec p request user target rights :
  matchesRestriction p request user (computeContainmentClosure user m) target rights m = true ↔
  restricts policy p user (req_process request) rights target.
Proof.
  unfold matchesRestriction, restricts. rewrite !andb_true_iff, targetInRange_spec, existsb_elem.
  setoid_rewrite includes_spec. rewrite !orb_true_iff, !andb_true_iff, includes_spec.
  rewrite !bool_decide_eq_true. unfold m. rewrite closure_within.
  destruct (proh_kind p); naive_solver.
Qed.

Lemma policyClasses_spec target pc :
  pc ∈ filterb (λ id, has_kind els id KPolicyClass) (computeContainmentClosure target m) ↔
  within policy target pc ∧ declared policy pc KPolicyClass.
Proof.
  rewrite elem_of_filterb. unfold m, els. rewrite closure_within.
  by rewrite has_kind_spec by apply Hwf.
Qed.

(** What the decision reports after the request is resolved, on each of its three branches. *)
Lemma decide_request_spec request op user kind :
  op ∈ operations policy → declared policy (req_target request) kind → kind ≠ KPolicyClass →
  let d := decide_request policy request els m op user in
  let restricting p := restricts policy p user (req_process request) (op_accessRights op)
                         (req_target request) in
  match effect d, reasons d with
  | Allow, [AssociationGrant id] =>
    (∀ ar, ar ∈ op_accessRights op → privileged policy user ar (req_target request)) ∧
    (∀ p, p ∈ default [] (prohibitions policy) → ¬ restricting p) ∧
    ∃ a ar pc, assoc_id a = id ∧ ar ∈ op_accessRights op ∧ declared policy pc KPolicyClass ∧
      allocates policy a user ar (req_target request) pc
  | Deny, [Restriction id] =>
    ∃ p, p ∈ default [] (prohibitions policy) ∧ proh_id p = id ∧ restricting p
  | Deny, [MissingPrivilege ar] =>
    (∀ p, p ∈ default [] (prohibitions policy) → ¬ restricting p) ∧
    ar ∈ op_accessRights op ∧ ¬ privileged policy user ar (req_target request)
  | _, _ => False
  end.
Proof.
  intros Hop Hd Hk d restricting. subst d. unfold decide_request.
  set (classes := filterb _ (computeContainmentClosure (req_target request) m)).
  assert (Hclasses : ∀ pc, pc ∈ classes ↔
    within policy (req_target request) pc ∧ declared policy pc KPolicyClass)
    by (intros; apply policyClasses_spec).
  assert (Hcne : classes ≠ []).
  { destruct (wf_connected _ Hwf _ _ Hd Hk) as (pc & ? & ?).
    intros Hnil. assert (pc ∈ classes) as Hpc by (by apply Hclasses).
    rewrite Hnil in Hpc. by apply elem_of_nil in Hpc. }
  pose proof (search_rights_spec
    (λ a ar pc, grantsAccessRight a ar pc (computeContainmentClosure user m)
       (computeContainmentClosure (req_target request) m) m)
    (associations policy) (op_accessRights op) classes []) as Hsearch.
  destruct (search_rights _ _ _ _ _) as [matched missing].
  destruct (filterb _ (default [] (prohibitions policy))) as [|p ps] eqn:Hps.
  - assert (Hnone : ∀ p, p ∈ default [] (prohibitions policy) → ¬ restricting p).
    { intros p Hp Hr. apply matchesRestriction_spec in Hr.
      rewrite (proj1 (filterb_nil _ _) Hps p Hp) in Hr. done. }
    destruct missing as [ar|]; cbn.
    + destruct Hsearch as (Har & pc & [Hpc Hpcd]%Hclasses & Hno). split; [done|]. split; [done|].
      intros Hpriv. destruct (Hpriv pc Hpc Hpcd) as (a & Ha). pose proof (proj1 Ha) as Hin.
      apply grantsAccessRight_spec in Ha; [|done]. rewrite Hno in Ha by done. done.
    + destruct Hsearch as (Hall & Hids & Hne). split; [|split; [done|]].
      * intros ar Har pc Hpc Hpcd. destruct (Hall ar pc Har) as (a & Ha & Hg);
          [by apply Hclasses|]. exists a. by apply grantsAccessRight_spec in Hg.
      * destruct matched as [|id matched].
        { exfalso. apply Hne; [|done]. right. split; [|done]. by apply Hwf. }
        destruct (Hids id ltac:(left)) as [[]%elem_of_nil|(a & ar & pc & Ha & Har & Hpc & Hg & ->)].
        exists a, ar, pc. apply grantsAccessRight_spec in Hg; [|done].
        apply Hclasses in Hpc as [_ Hpc]. done.
  - cbn. assert (Hin : p ∈ p :: ps) by left. rewrite <-Hps in Hin.
    apply elem_of_filterb in Hin as [Hin Hr%matchesRestriction_spec]. by exists p.
Qed.

Lemma decide_request_allow request op user kind :
  op ∈ operations policy → declared policy (req_target request) kind → kind ≠ KPolicyClass →
  effect (decide_request policy request els m op user) = Allow ↔
  (∀ ar, ar ∈ op_accessRights op → privileged policy user ar (req_target request)) ∧
  (∀ p, p ∈ default [] (prohibitions policy) →
    ¬ restricts policy p user (req_process request) (op_accessRights op) (req_target request)).
Proof.
  intros Hop Hd Hk. pose proof (decide_request_spec request op user kind Hop Hd Hk) as H.
  cbn in H. destruct (effect _), (reasons _) as [|[] [|? ?]]; try done; naive_solver.
Qed.

Lemma target_lookup request :
  (∃ t, els !! req_target request = Some t ∧ el_kind t ≠ KPolicyClass) ↔
  ∃ kind, declared policy (req_target request) kind ∧ kind ≠ KPolicyClass.
Proof.
  setoid_rewrite declared_lookup; [|apply Hwf]. setoid_rewrite fmap_Some. naive_solver.
Qed.
End Evaluator.

(** ** Main theorems *)

Lemma evaluateAccess_allow_spec policy request :
  effect (evaluateAccess policy request) = Allow ↔ wf_policy policy ∧ permits policy request.
Proof.
  unfold evaluateAccess, permits. destruct (validatePolicy _ _ _) eqn:Hv.
  { split; [done|]. intros [Hwf%validatePolicy_spec _]. congruence. }
  apply validatePolicy_spec in Hv as Hwf.
  destruct (find _ _) as [op|] eqn:Hop; [|split; [done|naive_solver]].
  pose proof (find_Some _ _ _ Hop) as [Hin _].
  destruct (resolveRequestUser _ _ _) as [u|e] eqn:Hu.
  2:{ split; [done|]. intros (_ & ? & u & k & _ & Hr%(resolveRequestUser_spec policy Hwf) & _).
      congruence. }
  assert (Hr : ∀ v, runs_as policy request v ↔ v = u).
  { intros v. rewrite <-(resolveRequestUser_spec policy Hwf), Hu. naive_solver. }
  assert (Ht := target_lookup policy Hwf request).
  destruct (_ !! req_target request) as [t|] eqn:Et.
  2:{ split; [done|]. intros (_ & ? & ? & k & _ & _ & Hd & Hk & _).
      destruct (proj2 Ht) as (? & ? & _); [eauto|done]. }
  case_bool_decide as Hkind.
  { split; [done|]. intros (_ & ? & ? & k & _ & _ & Hd & Hk & _).
    destruct (proj2 Ht) as (? & ? & ?); [eauto|]. congruence. }
  destruct (proj1 Ht) as (kind & Hd & Hk); [eauto|].
  rewrite (decide_request_allow policy Hwf request op u kind) by done.
  split; [intros [? ?]; split; [done|]; exists op, u, kind; rewrite Hr; done|].
  intros (_ & op' & v & k & [= <-] & ->%Hr & _ & _ & ?). done.
Qed.

(** C1. The evaluator allows a request exactly when the policy is well formed and the declarative
    NGAC decision function permits it: the operation exists, the request runs as a declared user,
    the target is a declared non-class element, every policy class containing the target allocates
    every required right to the user, and no prohibition restricts the request. *)
Theorem evaluateAccess_allow_iff policy request :
  effect (evaluateAccess policy request) = Allow ↔ wf_policy policy ∧ permits policy request.
Proof. apply evaluateAccess_allow_spec. Qed.

Lemma evaluateAccess_reason_spec policy request :
  match effect (evaluateAccess policy request), reasons (evaluateAccess policy request) with
  | Allow, [AssociationGrant id] =>
    ∃ op user a ar pc, runs_as policy request user ∧ op ∈ operations policy ∧
      ar ∈ op_accessRights op ∧ declared policy pc KPolicyClass ∧ assoc_id a = id ∧
      allocates policy a user ar (req_target request) pc
  | Deny, [Restriction id] =>
    ∃ op user p, runs_as policy request user ∧ op ∈ operations policy ∧
      p ∈ default [] (prohibitions policy) ∧ proh_id p = id ∧
      restricts policy p user (req_process request) (op_accessRights op) (req_target request)
  | Deny, [MissingPrivilege ar] =>
    ∃ op user, runs_as policy request user ∧ op ∈ operations policy ∧
      ar ∈ op_accessRights op ∧ ¬ privileged policy user ar (req_target request) ∧
      ∀ p, p ∈ default [] (prohibitions policy) →
        ¬ restricts policy p user (req_process request) (op_accessRights op) (req_target request)
  | Deny, [InvalidPolicy _] => ¬ wf_policy policy
  | Deny, [MissingOperation o] =>
    wf_policy policy ∧ o = req_operation request ∧ ∀ op, op ∈ operations policy → op_id op ≠ o
  | Deny, [InvalidRequest _] =>
    wf_policy policy ∧
    ((∀ u, ¬ runs_as policy request u) ∨
     ∀ k, declared policy (req_target request) k → k = KPolicyClass)
  | _, _ => False
  end.
Proof.
  unfold evaluateAccess. destruct (validatePolicy _ _ _) eqn:Hv; cbn.
  { intros Hwf%validatePolicy_spec. congruence. }
  apply validatePolicy_spec in Hv as Hwf.
  destruct (find _ _) as [op|] eqn:Hop; cbn.
  2:{ split; [done|]. split; [done|]. intros op Hop'.
      by apply (proj1 (find_None _ _) Hop), bool_decide_eq_false in Hop'. }
  pose proof (find_Some _ _ _ Hop) as [Hin _].
  destruct (resolveRequestUser _ _ _) as [u|e] eqn:Hu; cbn.
  2:{ split; [done|]. left. intros u Hr%(resolveRequestUser_spec policy Hwf). congruence. }
  apply (resolveRequestUser_spec policy Hwf) in Hu.
  assert (Ht := target_lookup policy Hwf request).
  destruct (_ !! req_target request) as [t|] eqn:Et; cbn.
  2:{ split; [done|]. right. intros k Hd. destruct (decide (k = KPolicyClass)); [done|].
      destruct (proj2 Ht) as (? & ? & _); [eauto|done]. }
  case_bool_decide as Hkind; cbn.
  { split; [done|]. right. intros k Hd. destruct (decide (k = KPolicyClass)); [done|].
    destruct (proj2 Ht) as (? & ? & ?); [eauto|]. congruence. }
  destruct (proj1 Ht) as (kind & Hd & Hk); [eauto|].
  pose proof (decide_request_spec policy Hwf request op u kind Hin Hd Hk) as H. cbn in H.
  destruct (effect _), (reasons _) as [|[] [|? ?]]; try done; naive_solver.
Qed.

(** Every decision carries exactly one reason, and the reason is true of the policy: a grant
    names a real association that allocates a required right under a policy class of the target
    (never the empty fallback identifier), a restriction names a prohibition that restricts the
    request, a missing privilege names a required right the user does not hold while no prohibition
    restricts, and the three refusals before evaluation name what was invalid. *)
Theorem evaluateAccess_reason_sound policy request :
  match effect (evaluateAccess policy request), reasons (evaluateAccess policy request) with
  | Allow, [AssociationGrant id] =>
    ∃ op user a ar pc, runs_as policy request user ∧ op ∈ operations policy ∧
      ar ∈ op_accessRights op ∧ declared policy pc KPolicyClass ∧ assoc_id a = id ∧
      allocates policy a user ar (req_target request) pc
  | Deny, [Restriction id] =>
    ∃ op user p, runs_as policy request user ∧ op ∈ operations policy ∧
      p ∈ default [] (prohibitions policy) ∧ proh_id p = id ∧
      restricts policy p user (req_process request) (op_accessRights op) (req_target request)
  | Deny, [MissingPrivilege ar] =>
    ∃ op user, runs_as policy request user ∧ op ∈ operations policy ∧
      ar ∈ op_accessRights op ∧ ¬ privileged policy user ar (req_target request) ∧
      ∀ p, p ∈ default [] (prohibitions policy) →
        ¬ restricts policy p user (req_process request) (op_accessRights op) (req_target request)
  | Deny, [InvalidPolicy _] => ¬ wf_policy policy
  | Deny, [MissingOperation o] =>
    wf_policy policy ∧ o = req_operation request ∧ ∀ op, op ∈ operations policy → op_id op ≠ o
  | Deny, [InvalidRequest _] =>
    wf_policy policy ∧
    ((∀ u, ¬ runs_as policy request u) ∨
     ∀ k, declared policy (req_target request) k → k = KPolicyClass)
  | _, _ => False
  end.
Proof. apply evaluateAccess_reason_spec. Qed.

(** The validator accepts exactly the well-formed policy states: unique identifiers, legal and
    acyclic assignments between declared elements, every element connected to a policy class, and
    well-formed operations, associations, process mappings and prohibitions. *)
Theorem validatePolicy_accepts_iff policy :
  validatePolicy policy (indexElements (elements policy))
    (indexAssignmentParents (assignments policy)) = None ↔ wf_policy policy.
Proof. apply validatePolicy_spec. Qed.

(** The containment closure terminates within its fuel on any index, has no duplicates and
    holds exactly the start and its transitive containers. *)
Theorem containment_closure_is_reachability m start :
  closure_loop (S (edge_count m)) m [] [start] = Some (computeContainmentClosure start m) ∧
  NoDup (computeContainmentClosure start m) ∧
  ∀ x, x ∈ computeContainmentClosure start m ↔ contained_in m start x.
Proof.
  split; [|apply computeContainmentClosure_spec]. unfold computeContainmentClosure.
  destruct (closure_loop_total m (S (edge_count m)) [] [start] m) as [cl ->]; [done|cbn; lia|done].
Qed.

(** The depth-first cycle detector, started with its fuel, answers exactly whether some listed
    element reaches a cycle of the assignment relation. *)
Theorem cycle_detector_is_exact els m :
  hasAssignmentCycle els m = true ↔
  ∃ e c, e ∈ els ∧ rtc (parent_step m) (el_id e) c ∧ on_cycle m c.
Proof. apply hasAssignmentCycle_spec. Qed.

(** ** Prohibitions only narrow *)

Definition with_prohibitions (policy : PolicyState) (ps : list PolicyProhibition) : PolicyState := {|
  elements := elements policy;
  assignments := assignments policy;
  operations := operations policy;
  processUsers := processUsers policy;
  associations := associations policy;
  prohibitions := Some (default [] (prohibitions policy) ++ ps);
|}.

Lemma with_prohibitions_wf policy ps : wf_policy (with_prohibitions policy ps) → wf_policy policy.
Proof.
  intros [? ? ? ? ? ? ? Hp]. split; try done.
  intros p Hin. apply (Hp p). cbn. apply elem_of_app. by left.
Qed.

(** Adding prohibitions to a policy never turns a denied request into an allowed one, whatever
    the prohibitions are. *)
Theorem evaluateAccess_prohibitions_narrow policy ps request :
  effect (evaluateAccess (with_prohibitions policy ps) request) = Allow →
  effect (evaluateAccess policy request) = Allow.
Proof.
  rewrite !evaluateAccess_allow_spec. intros [Hwf Hp]. split; [by eapply with_prohibitions_wf|].
  destruct Hp as (op & u & k & Hop & Hu & Hd & Hk & Hpriv & Hno).
  exists op, u, k. do 4 (split; [done|]). split; [done|].
  intros p Hin. apply (Hno p). cbn. apply elem_of_app. by left.
Qed.

(** ** Concrete instance: one user, one document, one class *)

Definition demo_policy : PolicyState := {|
  elements := [
    {| el_id := "alice"; el_kind := KUser |}; {| el_id := "staff"; el_kind := KUserAttribute |};
    {| el_id := "report"; el_kind := KObject |}; {| el_id := "docs"; el_kind := KObjectAttribute |};
    {| el_id := "office"; el_kind := KPolicyClass |} ];
  assignments := [
    {| as_child := "alice"; as_parent := "staff" |}; {| as_child := "staff"; as_parent := "office" |};
    {| as_child := "report"; as_parent := "docs" |}; {| as_child := "docs"; as_parent := "office" |} ];
  operations := [{| op_id := "read"; op_accessRights := ["r"] |}];
  processUsers := None;
  associations := [{| assoc_id := "staff-read"; assoc_userAttribute := "staff";
                      assoc_accessRights := ["r"]; assoc_targetAttribute := "docs" |}];
  prohibitions := None;
|}.

Definition demo_request : AccessRequest :=
  {| req_user := Some "alice"; req_process := None; req_operation := "read"; req_target := "report" |}.

(** A prohibition on another right of the same target leaves the request allowed. *)
Definition demo_write_prohibition : PolicyProhibition :=
  {| proh_id := "no-write"; proh_kind := PKUser; proh_subject := "alice"; proh_accessRights := ["w"];
     proh_range := {| range_type := Disjunctive; range_include := Some ["docs"];
                      range_exclude := None |} |}.

Example demo_write_operation_missing :
  reasons (evaluateAccess demo_policy
    {| req_user := Some "alice"; req_process := None; req_operation := "write";
       req_target := "report" |}) = [MissingOperation "write"].
Proof. vm_compute. reflexivity. Qed.

Lemma evaluateAccess_prohibitions_narrow_witness :
  effect (evaluateAccess (with_prohibitions demo_policy [demo_write_prohibition]) demo_request)
    = Allow ∧
  effect (evaluateAccess demo_policy demo_request) = Allow.
Proof.
  assert (H : effect (evaluateAccess (with_prohibitions demo_policy [demo_write_prohibition])
                        demo_request) = Allow) by (vm_compute; reflexivity).
  split; [exact H|].
  exact (evaluateAccess_prohibitions_narrow demo_policy [demo_write_prohibition] demo_request H).
Defined.
