(* ===== verification/PolicyLayers.v ===== *)
(** * Policies with one layer of attributes

    Every policy graph that NanoCore builds from current facts has the same shape: users and objects
    are assigned to attributes only, and attributes to policy classes only.  For such graphs the
    containment closure has depth two, so well-formedness and the kernel's decision reduce to
    statements about single assignments.  The access projections (workspace-access.ts,
    workspace-resource-access.ts, goal-task-access.ts) are proved through these lemmas and never
    unfold the kernel. *)

From S2P Require Import Prelude PolicyKernel PolicyGraph PolicyDecisions.

Local Open Scope string_scope.
Local Open Scope list_scope.

Section Layers.
Context (policy : PolicyState).

(** The two kinds of edges. *)
Definition layered_edge (a b : string) : Prop :=
  (declared policy a KUser ∧ declared policy b KUserAttribute) ∨
  (declared policy a KObject ∧ declared policy b KObjectAttribute) ∨
  ((declared policy a KUserAttribute ∨ declared policy a KObjectAttribute) ∧
   declared policy b KPolicyClass).

Record layered_policy : Prop := {
  ly_unique : NoDup (el_id <$> elements policy);
  ly_nonempty : ∀ id k, declared policy id k → id ≠ "";
  ly_edges : ∀ a b, assigned policy a b → layered_edge a b;
  ly_leaves : ∀ id k, declared policy id k → k = KUser ∨ k = KObject → ∃ at_, assigned policy id at_;
  ly_attributes : ∀ id k, declared policy id k → k = KUserAttribute ∨ k = KObjectAttribute →
    ∃ pc, assigned policy id pc;
  ly_operations : ∀ o, o ∈ operations policy → op_accessRights o ≠ [];
  ly_associations : ∀ a, a ∈ associations policy →
    declared policy (assoc_userAttribute a) KUserAttribute ∧
    declared policy (assoc_targetAttribute a) KObjectAttribute ∧ assoc_accessRights a ≠ [];
  ly_processUsers : ∀ pu, pu ∈ default [] (processUsers policy) → declared policy (pu_user pu) KUser;
  ly_prohibitions : ∀ p, p ∈ default [] (prohibitions policy) → wf_prohibition policy p;
}.

Context (L : layered_policy).

Lemma declared_kind id k k' : declared policy id k → declared policy id k' → k = k'.
Proof.
  intros H H'. pose proof (NoDup_fmap_elem el_id _ _ _ (ly_unique L) H H' eq_refl). congruence.
Qed.

Ltac kinds := repeat match goal with
  | H : declared policy ?i ?k, H' : declared policy ?i ?k' |- _ =>
    pose proof (declared_kind i k k' H H'); clear H'; try done; subst
  end.

Lemma assigned_nonempty a b : assigned policy a b → a ≠ "" ∧ b ≠ "".
Proof.
  intros H%(ly_edges L). split; destruct H as [[Ha Hb]|[[Ha Hb]|[[Ha|Ha] Hb]]];
    eauto using ly_nonempty.
Qed.

Lemma attribute_edge a b k : assigned policy a b → declared policy a k →
  k = KUserAttribute ∨ k = KObjectAttribute → declared policy b KPolicyClass.
Proof.
  intros He%(ly_edges L) Ha Hk. destruct He as [[]|[[]|[[] ]]]; kinds; try done; naive_solver.
Qed.

Lemma leaf_edge a b k : assigned policy a b → declared policy a k → k = KUser ∨ k = KObject →
  declared policy b (if bool_decide (k = KUser) then KUserAttribute else KObjectAttribute).
Proof.
  intros He%(ly_edges L) Ha Hk. destruct He as [[]|[[]|[[] ]]]; kinds; try done; naive_solver.
Qed.

Lemma class_has_no_edge a b : declared policy a KPolicyClass → ¬ assigned policy a b.
Proof. intros Ha He%(ly_edges L). destruct He as [[]|[[]|[[] ]]]; kinds. Qed.

(** Containment, spelled out. *)
Lemma within_attribute a b k : declared policy a k → k = KUserAttribute ∨ k = KObjectAttribute →
  within policy a b ↔ b = a ∨ assigned policy a b.
Proof.
  intros Ha Hk. split.
  - intros [_ H]. inversion H as [|? y ? [Hy _] Hr]; subst; [by left|]. right.
    pose proof (attribute_edge _ _ _ Hy Ha Hk) as Hc.
    inversion Hr as [|? z ? [Hz _] _]; subst; [done|]. by destruct (class_has_no_edge _ _ Hc Hz).
  - intros H. split; [eauto using ly_nonempty|]. destruct H as [->|H]; [done|].
    apply rtc_once. split; [done|]. by apply assigned_nonempty in H as [_ ?].
Qed.

Lemma within_leaf a b k : declared policy a k → k = KUser ∨ k = KObject →
  within policy a b ↔
  b = a ∨ assigned policy a b ∨ ∃ at_, assigned policy a at_ ∧ assigned policy at_ b.
Proof.
  intros Ha Hk. split.
  - intros [_ H]. inversion H as [|? y ? [Hy Hne] Hr]; subst; [by left|]. right.
    pose proof (leaf_edge _ _ _ Hy Ha Hk) as Hd.
    assert (Hw : within policy y b) by done.
    eapply within_attribute in Hw; [|exact Hd|case_bool_decide; auto].
    destruct Hw as [->|?]; [by left|right; eauto].
  - intros H. split; [eauto using ly_nonempty|].
    destruct H as [->|[H|(y & H1 & H2)]]; [done|apply rtc_once|eapply rtc_l; [|apply rtc_once]];
      (split; [eassumption|]); by edestruct assigned_nonempty.
Qed.

Lemma leaf_within_class a pc k : declared policy a k → k = KUser ∨ k = KObject →
  declared policy pc KPolicyClass →
  within policy a pc ↔ ∃ at_, assigned policy a at_ ∧ assigned policy at_ pc.
Proof.
  intros Ha Hk Hpc. rewrite within_leaf by done. split; [|by auto].
  intros [->|[H|?]]; [| |done]; exfalso.
  - kinds; naive_solver.
  - pose proof (leaf_edge _ _ _ H Ha Hk). kinds; case_bool_decide; done.
Qed.

Lemma leaf_within_attribute a b k kb : declared policy a k → k = KUser ∨ k = KObject →
  declared policy b kb → kb = KUserAttribute ∨ kb = KObjectAttribute →
  within policy a b ↔ assigned policy a b.
Proof.
  intros Ha Hk Hb Hkb. rewrite within_leaf by done. split; [|by auto].
  intros [->|[H|(y & H1 & H2)]]; [|done|]; exfalso.
  - kinds; naive_solver.
  - pose proof (leaf_edge _ _ _ H1 Ha Hk) as Hy.
    eapply attribute_edge in H2; [|exact Hy|case_bool_decide; auto]. kinds; naive_solver.
Qed.

(** Every path goes down one layer at a time. *)
Lemma layered_acyclic a : ¬ tc (assigned policy) a a.
Proof.
  set (rank := λ x n, (declared policy x KUser ∨ declared policy x KObject) ∧ n = 2 ∨
    (declared policy x KUserAttribute ∨ declared policy x KObjectAttribute) ∧ n = 1 ∨
    declared policy x KPolicyClass ∧ n = 0).
  assert (Hfun : ∀ x n n', rank x n → rank x n' → n = n').
  { intros x n n' H H'. unfold rank in *. destruct_or!; destruct_and!; destruct_or?; kinds; lia. }
  assert (Hstep : ∀ x y, assigned policy x y → ∃ n n', rank x n ∧ rank y n' ∧ n' < n).
  { intros x y [[]|[[]|[? ?]]]%(ly_edges L).
    - exists 2, 1. unfold rank. naive_solver lia.
    - exists 2, 1. unfold rank. naive_solver lia.
    - exists 1, 0. unfold rank. naive_solver lia. }
  assert (H : ∀ x y, tc (assigned policy) x y → ∃ n n', rank x n ∧ rank y n' ∧ n' < n).
  { induction 1 as [x y H|x y z H _ IH]; [eauto|].
    destruct (Hstep _ _ H) as (n & n1 & Hx & H1 & ?), IH as (n2 & n3 & H2 & Hz & ?).
    pose proof (Hfun _ _ _ H1 H2). exists n, n3. split; [done|]. split; [done|lia]. }
  intros Ha. destruct (H _ _ Ha) as (n & m & H1 & H2 & ?). pose proof (Hfun _ _ _ H1 H2). lia.
Qed.

Lemma layered_wf : wf_policy policy.
Proof.
  split; try apply L.
  - intros a b [[]|[[]|[[] ?]]]%(ly_edges L); do 2 eexists; by split_and!.
  - apply layered_acyclic.
  - intros id k Hd Hk. destruct k; try done.
    1,2: destruct (ly_leaves L _ _ Hd ltac:(auto)) as [y Hy];
      pose proof (leaf_edge _ _ _ Hy Hd ltac:(auto)) as Hdy; cbn in Hdy;
      destruct (ly_attributes L _ _ Hdy ltac:(auto)) as [pc Hpc];
      exists pc; (split; [|by eapply attribute_edge; eauto]);
      eapply within_leaf; eauto 6.
    all: destruct (ly_attributes L _ _ Hd ltac:(auto)) as [pc Hpc]; exists pc;
      (split; [|by eapply attribute_edge; eauto]); eapply within_attribute; eauto.
  - intros a Ha. destruct (ly_associations L a Ha) as (? & ? & ?). unfold is_attribute. naive_solver.
Qed.

(** The classes of an object grant the right through one association each. *)
Definition granted_in_every_class (u ar t : string) : Prop :=
  ∀ oa pc, assigned policy t oa → assigned policy oa pc →
    ∃ a, a ∈ associations policy ∧ assigned policy u (assoc_userAttribute a) ∧
      assigned policy t (assoc_targetAttribute a) ∧ assigned policy (assoc_targetAttribute a) pc ∧
      ar ∈ assoc_accessRights a.

Lemma layered_privileged u ar t : declared policy u KUser → declared policy t KObject →
  privileged policy u ar t ↔ granted_in_every_class u ar t.
Proof.
  intros Hu Ht. unfold privileged, granted_in_every_class, allocates.
  assert (Ha : ∀ pc a, declared policy pc KPolicyClass → a ∈ associations policy →
    (within policy u (assoc_userAttribute a) ↔ assigned policy u (assoc_userAttribute a)) ∧
    (within policy t (assoc_targetAttribute a) ↔ assigned policy t (assoc_targetAttribute a)) ∧
    (within policy (assoc_targetAttribute a) pc ↔ assigned policy (assoc_targetAttribute a) pc)).
  { intros pc a Hpc Hin. destruct (ly_associations L a Hin) as (Hua & Hta & _).
    split; [by eapply leaf_within_attribute; eauto|].
    split; [by eapply leaf_within_attribute; eauto|].
    rewrite within_attribute by eauto. split; [|by auto]. intros [->|?]; [|done]. kinds. }
  split.
  - intros H oa pc H1 H2. pose proof (leaf_edge _ _ _ H1 Ht ltac:(auto)) as Hoa. cbn in Hoa.
    pose proof (attribute_edge _ _ _ H2 Hoa ltac:(auto)) as Hpc.
    destruct (H pc) as (a & Hin & ?); [by eapply leaf_within_class; eauto|done|].
    exists a. destruct (Ha pc a Hpc Hin) as (? & ? & ?). naive_solver.
  - intros H pc Hw Hpc. eapply leaf_within_class in Hw as (oa & H1 & H2); eauto.
    destruct (H oa pc H1 H2) as (a & Hin & ?). exists a. destruct (Ha pc a Hpc Hin) as (? & ? & ?).
    naive_solver.
Qed.

(** The kernel's decision on a layered policy, for a resolved user and an object target. *)
Lemma layered_allow request u :
  runs_as policy request u → declared policy (req_target request) KObject →
  effect (evaluateAccess policy request) = Allow ↔
  ∃ op, find (λ o, bool_decide (op_id o = req_operation request)) (operations policy) = Some op ∧
    (∀ ar, ar ∈ op_accessRights op → granted_in_every_class u ar (req_target request)) ∧
    (∀ p, p ∈ default [] (prohibitions policy) →
      ¬ restricts policy p u (req_process request) (op_accessRights op) (req_target request)).
Proof.
  intros Hr Ht. rewrite evaluateAccess_allow_spec.
  assert (Hu : declared policy u KUser) by apply Hr.
  assert (Huniq : ∀ v, runs_as policy request v → v = u).
  { intros v. revert Hr. unfold runs_as. destruct (req_user request); naive_solver. }
  split.
  - intros [_ (op & v & k & Hop & ->%Huniq & _ & _ & Hp & Hno)]. exists op. split; [done|].
    split; [|done]. intros ar Har. by apply layered_privileged, Hp.
  - intros (op & Hop & Hp & Hno). split; [apply layered_wf|]. exists op, u, KObject.
    split_and!; try done. intros ar Har. by apply layered_privileged, Hp.
Qed.
End Layers.
