(* ===== verification/ProductAccess.v ===== *)
(** * Product access from current facts

    The projections that turn current identity, credential and resource facts into one kernel
    request: [evaluateProductAccess] (nanocore/src/policy/workspace-access.ts) for the primary
    admission of every product operation, with the registry of access rights
    (packages/config-schema/src/product-policy.ts).  The graph is built exactly as the code builds
    it; the theorem says which facts it allows, without mentioning the graph. *)

From S2P Require Import Prelude PolicyKernel PolicyGraph PolicyDecisions PolicyLayers.

Local Open Scope string_scope.
Local Open Scope list_scope.

(** ** The registry *)

Definition PRODUCT_OPERATION_ACCESS_RIGHTS : list (string * string) := [
  ("api.call", "ar:core-api-call");
  ("administration.configuration.apply", "ar:worker-git-read-maintenance-apply");
  ("approval.respond", "ar:approval-respond");
  ("artifact.read", "ar:artifact-read");
  ("artifact.write", "ar:artifact-write");
  ("audit.read", "ar:audit-read");
  ("deployment.recover", "ar:deployment-recover");
  ("invitation.respond", "ar:invitation-respond");
  ("knowledge.propose", "ar:knowledge-propose");
  ("knowledge.read", "ar:knowledge-read");
  ("knowledge.write", "ar:knowledge-write");
  ("llm.gateway.use", "ar:llm-gateway-use");
  ("membership.manage", "ar:membership-manage");
  ("network.egress", "ar:network-egress");
  ("review.apply", "ar:review-apply");
  ("runtime.launch", "ar:runtime-launch");
  ("thread.read", "ar:thread-read");
  ("tool.grant", "ar:tool-grant");
  ("tool.use", "ar:tool-use");
  ("turn.run", "ar:turn-run");
  ("vault.admin", "ar:vault-admin");
  ("vault.use", "ar:vault-use");
  ("workspace.configure", "ar:workspace-configure");
  ("workspace.export", "ar:workspace-export");
  ("workspace.leave", "ar:workspace-leave");
  ("workspace.lifecycle", "ar:workspace-lifecycle");
  ("workspace.read", "ar:workspace-read");
  ("workspace.write", "ar:workspace-write") ].

Definition product_operations : list string := PRODUCT_OPERATION_ACCESS_RIGHTS.*1.

(** [PRODUCT_OPERATION_ACCESS_RIGHTS[operation]]; an unregistered name reads [undefined]. *)
Definition access_right (operation : string) : string :=
  default "undefined" (snd <$> find (λ e, bool_decide (e.1 = operation)) PRODUCT_OPERATION_ACCESS_RIGHTS).

Definition rights (operations : list string) : list string := access_right <$> operations.

Definition WORKSPACE_MEMBER_OPERATIONS : list string := [
  "approval.respond"; "artifact.read"; "artifact.write"; "audit.read"; "knowledge.propose";
  "knowledge.read"; "knowledge.write"; "llm.gateway.use"; "membership.manage"; "network.egress";
  "review.apply"; "runtime.launch"; "thread.read"; "tool.grant"; "tool.use"; "turn.run";
  "vault.admin"; "vault.use"; "workspace.configure"; "workspace.leave"; "workspace.lifecycle";
  "workspace.read"; "workspace.write" ].

Definition IDENTITY_OPERATIONS : list string :=
  filterb (λ operation, negb (bool_decide (operation = "administration.configuration.apply")))
    product_operations.

Definition SERVER_FAMILY_OPERATIONS : list (string * list string) := [
  ("administration", IDENTITY_OPERATIONS);
  ("mcp", ["api.call"]);
  ("knowledge", ["knowledge.read"; "knowledge.write"; "review.apply"; "thread.read"; "turn.run"]) ].

(** [Object.hasOwn(SERVER_FAMILY_OPERATIONS, family)] and the entry. *)
Definition server_family (family : string) : option (list string) :=
  snd <$> find (λ e, bool_decide (e.1 = family)) SERVER_FAMILY_OPERATIONS.

(** ** Facts and targets *)

Inductive CredentialKind := CredLocal | CredSession | CredToken | CredRetainedAuthor.
#[export] Instance CredentialKind_eq_dec : EqDecision CredentialKind.
Proof. solve_decision. Defined.

Record Credential := {
  cr_current : bool;
  cr_workspaceBound : bool;
  cr_readOnly : bool;
  cr_kind : CredentialKind;
}.

Record ProductAccessFacts := {
  pf_userId : string;
  pf_activeUser : bool;
  pf_administrator : bool;
  pf_credential : Credential;
}.

Inductive Membership := MOwner | MMember.
Record DeletedRecovery := { dr_ownerActive : bool; dr_originalOwner : bool }.

Inductive ProductAccessTarget :=
| TUser (userId : option string) (active : option bool)
| TInvitation (invitationId : string) (inviteeUserId : option string)
| TServer (family : option string)
| TWorkspace (workspaceId : string) (active : bool) (membership : option Membership)
    (deletedRecovery : option DeletedRecovery).

Definition target_kind (scope : ProductAccessTarget) : string :=
  match scope with
  | TUser _ _ => "user" | TInvitation _ _ => "invitation"
  | TServer _ => "server" | TWorkspace _ _ _ _ => "workspace"
  end.

Definition is_workspace (scope : ProductAccessTarget) : bool :=
  match scope with TWorkspace _ _ _ _ => true | _ => false end.

Definition target_family (family : option string) : string := default "administration" family.

(** The escape of one character by [JSON.stringify]. *)
Definition json_char (c : ascii) : string :=
  let n := nat_of_ascii c in
  let hex k := String (default "0"%char (String.get k "0123456789abcdef")) "" in
  if bool_decide (n = 34) then "\" +:+ String c ""
  else if bool_decide (n = 92) then "\\"
  else if bool_decide (n = 8) then "\b"
  else if bool_decide (n = 9) then "\t"
  else if bool_decide (n = 10) then "\n"
  else if bool_decide (n = 12) then "\f"
  else if bool_decide (n = 13) then "\r"
  else if bool_decide (n < 32) then "\u00" +:+ hex (n / 16) +:+ hex (n mod 16)
  else String c "".

Fixpoint json_chars (s : string) : string :=
  match s with
  | EmptyString => ""
  | String c s => json_char c +:+ json_chars s
  end.

Definition dquote : string := String (ascii_of_nat 34) "".
Definition json_string (s : string) : string := dquote +:+ json_chars s +:+ dquote.

(** ** The projection *)

Section Projection.
Context (facts : ProductAccessFacts) (scope : ProductAccessTarget).

Definition user_element : string := "user:" +:+ pf_userId facts.

Definition target_element : string :=
  match scope with
  | TServer family => "object:server:" +:+ target_family family
  | TWorkspace w _ _ _ =>
    "object:[" +:+ json_string "workspace" +:+ "," +:+ json_string w +:+ "]"
  | TInvitation i _ => "object:[" +:+ json_string "invitation" +:+ "," +:+ json_string i +:+ "]"
  | TUser u _ =>
    "object:[" +:+ json_string "user" +:+ "," +:+ json_string (default (pf_userId facts) u) +:+ "]"
  end.

Definition policyClass : string := "pc:" +:+ target_kind scope.
Definition objects : string := "oa:" +:+ target_kind scope +:+ "-resource".
Definition member : string := "ua:" +:+ target_kind scope +:+ "-member".
Definition administrator : string := "ua:" +:+ target_kind scope +:+ "-administrator".
Definition subject : string := "ua:current-subject".
Definition credentialClass : string := "pc:credential".
Definition credentialObjects : string := "oa:credential-resource".
Definition authenticated : string := "ua:credential-current".
Definition writable : string := "ua:credential-writable".

Definition base_policy : PolicyState := {|
  elements :=
    [ {| el_id := user_element; el_kind := KUser |}; {| el_id := target_element; el_kind := KObject |} ]
    ++ ((λ id, {| el_id := id; el_kind := KUserAttribute |})
          <$> [subject; member; administrator; authenticated; writable])
    ++ ((λ id, {| el_id := id; el_kind := KObjectAttribute |}) <$> [objects; credentialObjects])
    ++ ((λ id, {| el_id := id; el_kind := KPolicyClass |}) <$> [policyClass; credentialClass]);
  assignments := [
    {| as_child := user_element; as_parent := subject |};
    {| as_child := subject; as_parent := policyClass |};
    {| as_child := subject; as_parent := credentialClass |};
    {| as_child := member; as_parent := policyClass |};
    {| as_child := administrator; as_parent := policyClass |};
    {| as_child := target_element; as_parent := objects |};
    {| as_child := objects; as_parent := policyClass |};
    {| as_child := target_element; as_parent := credentialObjects |};
    {| as_child := credentialObjects; as_parent := credentialClass |};
    {| as_child := authenticated; as_parent := credentialClass |};
    {| as_child := writable; as_parent := credentialClass |} ];
  operations :=
    (λ id, {| op_id := id; op_accessRights := [access_right id] |}) <$> IDENTITY_OPERATIONS;
  processUsers := None;
  associations := [];
  prohibitions := None;
|}.

(** [bind(attribute, operations, id)] *)
Record Binding := { bd_attribute : string; bd_operations : list string; bd_id : string }.

Definition bind (policy : PolicyState) (b : Binding) : PolicyState := {|
  elements := elements policy;
  assignments := assignments policy ++ [{| as_child := user_element; as_parent := bd_attribute b |}];
  operations := operations policy;
  processUsers := processUsers policy;
  associations := associations policy ++
    [{| assoc_id := bd_id b; assoc_userAttribute := bd_attribute b;
        assoc_accessRights := rights (bd_operations b); assoc_targetAttribute := objects |}];
  prohibitions := prohibitions policy;
|}.

Definition when (b : bool) {A} (l : list A) : list A := if b then l else [].

Definition interactive : bool :=
  bool_decide (cr_kind (pf_credential facts) = CredLocal)
  || bool_decide (cr_kind (pf_credential facts) = CredSession).

(** The calls of [bind] that the current facts lead to, in order. *)
Definition bindings : list Binding :=
  if negb (pf_activeUser facts && truthy (pf_userId facts)) then []
  else
    match scope with
    | TWorkspace workspaceId active membership recovery =>
      match recovery with
      | Some r =>
        when (dr_ownerActive r)
          (when (dr_originalOwner r)
             [{| bd_attribute := member; bd_operations := ["workspace.write"];
                 bd_id := "assoc:workspace-recovery-owner" |}] ++
           when (pf_administrator facts)
             [{| bd_attribute := administrator; bd_operations := ["workspace.write"];
                 bd_id := "assoc:workspace-recovery-administrator" |}])
      | None =>
        when (active && truthy workspaceId)
          (when (bool_decide (is_Some membership))
             [{| bd_attribute := member; bd_operations := WORKSPACE_MEMBER_OPERATIONS;
                 bd_id := "assoc:workspace-active-member" |}] ++
           when (pf_administrator facts)
             [{| bd_attribute := administrator; bd_operations := IDENTITY_OPERATIONS;
                 bd_id := "assoc:workspace-administrator" |}])
      end
    | TInvitation _ invitee =>
      match invitee with
      | Some i =>
        when (bool_decide (i = pf_userId facts) && interactive)
          [{| bd_attribute := member; bd_operations := ["invitation.respond"];
              bd_id := "assoc:invitation-invitee" |}] ++
        when (pf_administrator facts)
          [{| bd_attribute := administrator; bd_operations := ["invitation.respond"];
              bd_id := "assoc:invitation-administrator" |}]
      | None => []
      end
    | TUser userId active =>
      when (negb (bool_decide (active = Some false)))
        (when (bool_decide (userId = None) && interactive)
           [{| bd_attribute := member; bd_operations := IDENTITY_OPERATIONS;
               bd_id := "assoc:user-authenticated" |}] ++
         when (pf_administrator facts)
           [{| bd_attribute := administrator; bd_operations := IDENTITY_OPERATIONS;
               bd_id := "assoc:user-administrator" |}])
    | TServer family =>
      let family := target_family family in
      when (pf_administrator facts && truthy family)
        match server_family family with
        | Some ops => [{| bd_attribute := administrator; bd_operations := ops;
                          bd_id := "assoc:server-administrator:" +:+ family |}]
        | None => []
        end
    end.

(** The credential class; [mutating] is the catalog's posture of the operation. *)
Definition credential_applies : bool :=
  cr_current (pf_credential facts)
  && (negb (is_workspace scope) || cr_workspaceBound (pf_credential facts) || pf_administrator facts).

Definition with_credential (policy : PolicyState) (mutating : bool) : PolicyState := {|
  elements := elements policy;
  assignments := assignments policy ++
    when credential_applies
      ([{| as_child := user_element; as_parent := authenticated |}] ++
       when (negb (cr_readOnly (pf_credential facts)))
         [{| as_child := user_element; as_parent := writable |}]);
  operations := operations policy;
  processUsers := processUsers policy;
  associations := associations policy ++
    when (negb mutating)
      [{| assoc_id := "assoc:credential-current"; assoc_userAttribute := authenticated;
          assoc_accessRights := rights IDENTITY_OPERATIONS; assoc_targetAttribute := credentialObjects |}] ++
    [{| assoc_id := "assoc:credential-writable"; assoc_userAttribute := writable;
        assoc_accessRights := rights IDENTITY_OPERATIONS; assoc_targetAttribute := credentialObjects |}];
  prohibitions := prohibitions policy;
|}.

Definition product_policy (mutating : bool) : PolicyState :=
  with_credential (foldl bind base_policy bindings) mutating.

Definition product_request (operation : string) : AccessRequest := {|
  req_user := Some user_element; req_process := None;
  req_operation := operation; req_target := target_element;
|}.

Definition evaluateProductAccess (operation : string) (mutating : bool) : PolicyDecision :=
  evaluateAccess (product_policy mutating) (product_request operation).
End Projection.

(** ** The registry is one-to-one *)

Lemma access_right_inj o1 o2 :
  o1 ∈ product_operations → o2 ∈ product_operations → access_right o1 = access_right o2 → o1 = o2.
Proof.
  assert (H : forallb (λ o1, forallb (λ o2,
    negb (bool_decide (access_right o1 = access_right o2)) || bool_decide (o1 = o2))
    product_operations) product_operations = true) by (vm_compute; reflexivity).
  intros H1 H2 He. rewrite forallb_elem in H. specialize (H _ H1). rewrite forallb_elem in H.
  specialize (H _ H2). rewrite bool_decide_eq_true_2 in H by done. cbn in H. by apply bool_decide_eq_true_1 in H.
Qed.

Definition registered (ops : list string) : Prop := ∀ o, o ∈ ops → o ∈ product_operations.

(** Inclusion of closed tables, decided by evaluation. *)
Lemma listed_by_evaluation (l ops : list string) :
  forallb (λ o, bool_decide (o ∈ l)) ops = true → ∀ o, o ∈ ops → o ∈ l.
Proof. intros H o Ho. rewrite forallb_elem in H. exact (bool_decide_eq_true_1 _ (H o Ho)). Qed.

Lemma elem_of_rights op ops : op ∈ product_operations → registered ops →
  access_right op ∈ rights ops ↔ op ∈ ops.
Proof.
  intros Hop Hr. unfold rights. rewrite list_elem_of_fmap. split.
  - intros (o & He & Ho). by rewrite (access_right_inj op o Hop (Hr _ Ho) He).
  - intros Ho. by exists op.
Qed.

Lemma identity_registered : registered IDENTITY_OPERATIONS.
Proof. refine (listed_by_evaluation _ _ _). vm_compute. reflexivity. Qed.

Lemma member_registered : registered WORKSPACE_MEMBER_OPERATIONS.
Proof. refine (listed_by_evaluation _ _ _). vm_compute. reflexivity. Qed.

Lemma server_family_registered f ops : server_family f = Some ops →
  registered ops ∧ ops ≠ [] ∧ ∀ o, o ∈ ops → o ∈ IDENTITY_OPERATIONS.
Proof.
  unfold server_family. intros (e & [He _]%find_Some & ->)%fmap_Some.
  repeat (apply elem_of_cons in He as [->|He]; [cbn [snd]|]); [| | |by apply elem_of_nil in He].
  - split; [apply identity_registered|]. split; [by vm_compute|done].
  - split; [|split; [done|]]; refine (listed_by_evaluation _ _ _); vm_compute; reflexivity.
  - split; [|split; [done|]]; refine (listed_by_evaluation _ _ _); vm_compute; reflexivity.
Qed.

Lemma find_operation ops op :
  find (λ o, bool_decide (op_id o = op))
    ((λ id, {| op_id := id; op_accessRights := [access_right id] |}) <$> ops) =
  if bool_decide (op ∈ ops) then Some {| op_id := op; op_accessRights := [access_right op] |} else None.
Proof.
  induction ops as [|o ops IH]; cbn [find fmap list_fmap]; [by rewrite bool_decide_eq_false_2 by set_solver|].
  cbn [op_id]. destruct (decide (o = op)) as [->|Hne].
  - by rewrite !bool_decide_eq_true_2 by set_solver.
  - rewrite (bool_decide_eq_false_2 (o = op)), IH by done.
    by rewrite (bool_decide_ext (op ∈ o :: ops) (op ∈ ops)) by set_solver.
Qed.

#[local] Opaque IDENTITY_OPERATIONS WORKSPACE_MEMBER_OPERATIONS product_operations access_right rights.

(** ** The graph is layered *)

Lemma PolicyAssignment_inj a b c d :
  {| as_child := a; as_parent := b |} = {| as_child := c; as_parent := d |} ↔ a = c ∧ b = d.
Proof. split; [by intros [= -> ->]|by intros [-> ->]]. Qed.

Section Graph.
Context (facts : ProductAccessFacts) (scope : ProductAccessTarget).

Lemma foldl_bind bs p :
  elements (foldl (bind facts scope) p bs) = elements p ∧
  operations (foldl (bind facts scope) p bs) = operations p ∧
  processUsers (foldl (bind facts scope) p bs) = processUsers p ∧
  prohibitions (foldl (bind facts scope) p bs) = prohibitions p ∧
  assignments (foldl (bind facts scope) p bs) = assignments p ++
    ((λ b, {| as_child := user_element facts; as_parent := bd_attribute b |}) <$> bs) ∧
  associations (foldl (bind facts scope) p bs) = associations p ++
    ((λ b, {| assoc_id := bd_id b; assoc_userAttribute := bd_attribute b;
              assoc_accessRights := rights (bd_operations b);
              assoc_targetAttribute := objects scope |}) <$> bs).
Proof.
  revert p. induction bs as [|b bs IH]; intros p; cbn; [by rewrite !app_nil_r|].
  destruct (IH (bind facts scope p b)) as (-> & -> & -> & -> & -> & ->). cbn.
  by rewrite <-!app_assoc.
Qed.

Lemma elem_of_when {A} (b : bool) (l : list A) x : x ∈ when b l ↔ b = true ∧ x ∈ l.
Proof. destruct b; cbn; set_solver. Qed.

Lemma binding_shape b : b ∈ bindings facts scope →
  (bd_attribute b = member scope ∨ bd_attribute b = administrator scope) ∧
  registered (bd_operations b) ∧ bd_operations b ≠ [] ∧
  ∀ o, o ∈ bd_operations b → o ∈ IDENTITY_OPERATIONS.
Proof.
  assert (HI : registered IDENTITY_OPERATIONS ∧ IDENTITY_OPERATIONS ≠ [] ∧
    ∀ o, o ∈ IDENTITY_OPERATIONS → o ∈ IDENTITY_OPERATIONS)
    by (split; [apply identity_registered|]; split; [by vm_compute|done]).
  assert (HL : ∀ ops, forallb (λ o, bool_decide (o ∈ IDENTITY_OPERATIONS)) ops = true → ops ≠ [] →
    registered ops ∧ ops ≠ [] ∧ ∀ o, o ∈ ops → o ∈ IDENTITY_OPERATIONS).
  { intros ops H Hne. pose proof (listed_by_evaluation _ _ H) as Hl.
    split; [|done]. intros o Ho. by apply identity_registered, Hl. }
  unfold bindings. destruct (negb _); [by intros ?%elem_of_nil|].
  destruct scope as [u act|i inv|fam|w act m [r|]]; cbn [member administrator target_kind].
  - rewrite elem_of_when, elem_of_app, !elem_of_when, !list_elem_of_singleton.
    intros (_ & [(_ & ->)|(_ & ->)]); cbn [bd_attribute bd_operations]; (split; [|exact HI]); auto.
  - destruct inv; [|by intros ?%elem_of_nil]. rewrite elem_of_app, !elem_of_when, !list_elem_of_singleton.
    intros [(_ & ->)|(_ & ->)]; cbn [bd_attribute bd_operations]; (split; [by auto|]); apply HL; by vm_compute.
  - rewrite elem_of_when. destruct (server_family _) as [ops|] eqn:Hf; [|by intros [_ ?%elem_of_nil]].
    rewrite list_elem_of_singleton. intros [_ ->]. cbn [bd_attribute bd_operations]. split; [by auto|].
    by eapply server_family_registered.
  - rewrite elem_of_when, elem_of_app, !elem_of_when, !list_elem_of_singleton.
    intros (_ & [(_ & ->)|(_ & ->)]); cbn [bd_attribute bd_operations]; (split; [by auto|]); apply HL; by vm_compute.
  - rewrite elem_of_when, elem_of_app, !elem_of_when, !list_elem_of_singleton.
    intros (_ & [(_ & ->)|(_ & ->)]); cbn [bd_attribute bd_operations]; (split; [by auto|]); [apply HL; by vm_compute|exact HI].
Qed.

Context (mutating : bool).
Let policy := product_policy facts scope mutating.

(** The assignments, by child. *)
Lemma product_assignments a b : assigned policy a b ↔
  (a = user_element facts ∧
    (b = subject ∨ (∃ bd, bd ∈ bindings facts scope ∧ b = bd_attribute bd) ∨
     (credential_applies facts scope = true ∧
      (b = authenticated ∨ (cr_readOnly (pf_credential facts) = false ∧ b = writable))))) ∨
  (a = target_element facts scope ∧ (b = objects scope ∨ b = credentialObjects)) ∨
  ((a = subject ∨ a = member scope ∨ a = administrator scope ∨ a = objects scope) ∧
    b = policyClass scope) ∨
  ((a = subject ∨ a = credentialObjects ∨ a = authenticated ∨ a = writable) ∧ b = credentialClass).
Proof.
  unfold assigned, policy, product_policy, with_credential. cbn [assignments].
  destruct (foldl_bind (bindings facts scope) (base_policy facts scope)) as (_ & _ & _ & _ & -> & _).
  rewrite !elem_of_app, list_elem_of_fmap, elem_of_when, elem_of_app, elem_of_when.
  cbn [assignments base_policy]. rewrite !elem_of_cons, !elem_of_nil.
  setoid_rewrite PolicyAssignment_inj. rewrite negb_true_iff.
  split; [|naive_solver]. intros H. destruct_or!; naive_solver.
Qed.

Lemma PolicyElement_inj i k i' k' :
  {| el_id := i; el_kind := k |} = {| el_id := i'; el_kind := k' |} ↔ i = i' ∧ k = k'.
Proof. split; [by intros [= -> ->]|by intros [-> ->]]. Qed.

Lemma product_elements id k : declared policy id k ↔
  (id = user_element facts ∧ k = KUser) ∨ (id = target_element facts scope ∧ k = KObject) ∨
  ((id = subject ∨ id = member scope ∨ id = administrator scope ∨ id = authenticated ∨
    id = writable) ∧ k = KUserAttribute) ∨
  ((id = objects scope ∨ id = credentialObjects) ∧ k = KObjectAttribute) ∨
  ((id = policyClass scope ∨ id = credentialClass) ∧ k = KPolicyClass).
Proof.
  unfold declared, policy, product_policy, with_credential. cbn [elements].
  destruct (foldl_bind (bindings facts scope) (base_policy facts scope)) as (-> & _).
  cbn [elements base_policy fmap list_fmap app]. rewrite !elem_of_cons, !elem_of_nil, !PolicyElement_inj.
  split; [|naive_solver]. intros H. destruct_or!; naive_solver.
Qed.

Lemma element_ids : NoDup (el_id <$> elements policy) ∧ ∀ id k, declared policy id k → id ≠ "".
Proof.
  split.
  - unfold policy, product_policy, with_credential. cbn [elements].
    destruct (foldl_bind (bindings facts scope) (base_policy facts scope)) as (-> & _).
    cbn [elements base_policy fmap list_fmap app el_id].
    destruct scope; cbn; repeat constructor; rewrite ?elem_of_cons, ?elem_of_nil;
      intros H; destruct_or?; discriminate.
  - intros id k H%product_elements. destruct scope; destruct_or!; destruct_and!; destruct_or?;
      subst; discriminate.
Qed.

Lemma product_associations a : a ∈ associations policy ↔
  (∃ bd, bd ∈ bindings facts scope ∧
    a = {| assoc_id := bd_id bd; assoc_userAttribute := bd_attribute bd;
           assoc_accessRights := rights (bd_operations bd);
           assoc_targetAttribute := objects scope |}) ∨
  (mutating = false ∧
    a = {| assoc_id := "assoc:credential-current"; assoc_userAttribute := authenticated;
           assoc_accessRights := rights IDENTITY_OPERATIONS;
           assoc_targetAttribute := credentialObjects |}) ∨
  a = {| assoc_id := "assoc:credential-writable"; assoc_userAttribute := writable;
         assoc_accessRights := rights IDENTITY_OPERATIONS;
         assoc_targetAttribute := credentialObjects |}.
Proof.
  unfold policy, product_policy, with_credential. cbn [associations].
  destruct (foldl_bind (bindings facts scope) (base_policy facts scope)) as (_ & _ & _ & _ & _ & ->).
  cbn [associations base_policy app]. rewrite !elem_of_app, list_elem_of_fmap, elem_of_when,
    !list_elem_of_singleton, negb_true_iff. naive_solver.
Qed.

Lemma rights_nonempty ops : ops ≠ [] → rights ops ≠ [].
Proof. by destruct ops. Qed.

Lemma product_layered : layered_policy policy.
Proof.
  pose proof element_ids as [Hn Hne].
  assert (Hrest : operations policy = operations (base_policy facts scope) ∧
    processUsers policy = None ∧ prohibitions policy = None).
  { unfold policy, product_policy, with_credential. cbn.
    by destruct (foldl_bind (bindings facts scope) (base_policy facts scope)) as (_ & -> & -> & -> & _). }
  destruct Hrest as (Hop & Hpu & Hpr). split; [done|done| | | | | | |].
  - intros a b H%product_assignments. unfold layered_edge. rewrite !product_elements.
    assert (Hb : ∀ bd, bd ∈ bindings facts scope →
      bd_attribute bd = member scope ∨ bd_attribute bd = administrator scope)
      by (intros bd Hbd; by apply binding_shape).
    destruct H as [(-> & Hx)|[(-> & Hx)|[(Hx & ->)|(Hx & ->)]]]; [left|right; left|right; right..].
    + split; [by auto|]. right; right; left. split; [|done]. naive_solver.
    + split; [by auto 6|]. right; right; right; left. split; [|done]. naive_solver.
    + split; [|by auto 9]. naive_solver.
    + split; [|by auto 9]. naive_solver.
  - intros id k H%product_elements Hk. setoid_rewrite product_assignments. naive_solver.
  - intros id k H%product_elements Hk. setoid_rewrite product_assignments. naive_solver.
  - rewrite Hop. cbn [operations base_policy]. intros o (x & -> & _)%list_elem_of_fmap. done.
  - intros a Ha%product_associations. rewrite !product_elements.
    destruct Ha as [(bd & Hbd & ->)|[(_ & ->)| ->]]; cbn [assoc_userAttribute assoc_targetAttribute assoc_accessRights].
    + destruct (binding_shape bd Hbd) as (Hat & _ & Hbn & _).
      split; [naive_solver|]. split; [by auto 9|]. by apply rights_nonempty.
    + split; [by auto 9|]. split; [by auto 9|]. by apply rights_nonempty; vm_compute.
    + split; [by auto 9|]. split; [by auto 9|]. by apply rights_nonempty; vm_compute.
  - rewrite Hpu. by intros pu ?%elem_of_nil.
  - rewrite Hpr. by intros pu ?%elem_of_nil.
Qed.
End Graph.

(** ** What the facts permit *)

(** Identity: a current active user, and the grounds the target accepts. *)
Definition identity_permits (facts : ProductAccessFacts) (scope : ProductAccessTarget) (op : string)
    : Prop :=
  pf_activeUser facts = true ∧ pf_userId facts ≠ "" ∧
  match scope with
  | TWorkspace _ _ _ (Some r) =>
    op = "workspace.write" ∧ dr_ownerActive r = true ∧
    (dr_originalOwner r = true ∨ pf_administrator facts = true)
  | TWorkspace w active m None =>
    active = true ∧ w ≠ "" ∧
    (is_Some m ∧ op ∈ WORKSPACE_MEMBER_OPERATIONS ∨
     pf_administrator facts = true ∧ op ∈ IDENTITY_OPERATIONS)
  | TInvitation _ invitee =>
    op = "invitation.respond" ∧ is_Some invitee ∧
    (invitee = Some (pf_userId facts) ∧ interactive facts = true ∨ pf_administrator facts = true)
  | TUser u active =>
    active ≠ Some false ∧ op ∈ IDENTITY_OPERATIONS ∧
    (u = None ∧ interactive facts = true ∨ pf_administrator facts = true)
  | TServer family =>
    pf_administrator facts = true ∧ ∃ ops, server_family (target_family family) = Some ops ∧ op ∈ ops
  end.

(** Credential: current, bound to the workspace (or an administrator's), and writable for mutations. *)
Definition credential_permits (facts : ProductAccessFacts) (scope : ProductAccessTarget)
    (mutating : bool) : Prop :=
  cr_current (pf_credential facts) = true ∧
  (is_workspace scope = true →
    cr_workspaceBound (pf_credential facts) = true ∨ pf_administrator facts = true) ∧
  (mutating = true → cr_readOnly (pf_credential facts) = false).

Section Exists.
Context {A : Type} (P : A → Prop).

Lemma ex_when b l : (∃ x, x ∈ when b l ∧ P x) ↔ b = true ∧ ∃ x, x ∈ l ∧ P x.
Proof. setoid_rewrite elem_of_when. naive_solver. Qed.
Lemma ex_app l k : (∃ x, x ∈ l ++ k ∧ P x) ↔ (∃ x, x ∈ l ∧ P x) ∨ ∃ x, x ∈ k ∧ P x.
Proof. setoid_rewrite elem_of_app. naive_solver. Qed.
Lemma ex_singleton y : (∃ x, x ∈ [y] ∧ P x) ↔ P y.
Proof. setoid_rewrite list_elem_of_singleton. naive_solver. Qed.
Lemma ex_nil : (∃ x, x ∈ [] ∧ P x) ↔ False.
Proof. setoid_rewrite elem_of_nil. naive_solver. Qed.
End Exists.

Lemma bindings_permit facts scope op :
  (∃ bd, bd ∈ bindings facts scope ∧ op ∈ bd_operations bd) ↔ identity_permits facts scope op.
Proof.
  unfold bindings, identity_permits. rewrite <-(truthy_spec (pf_userId facts)).
  destruct (pf_activeUser facts); cbn [andb negb]; [|rewrite ex_nil; naive_solver].
  destruct (truthy (pf_userId facts)); cbn [negb]; [|rewrite ex_nil; naive_solver].
  destruct scope as [u act|i [i'|]|fam|w act m [r|]].
  - rewrite ex_when, ex_app, !ex_when, !ex_singleton, negb_true_iff, bool_decide_eq_false, andb_true_iff,
      bool_decide_eq_true. cbn [bd_operations]. naive_solver.
  - rewrite ex_app, !ex_when, !ex_singleton, andb_true_iff, bool_decide_eq_true.
    cbn [bd_operations]. rewrite list_elem_of_singleton. naive_solver.
  - rewrite ex_nil. split; [done|]. by intros (_ & _ & _ & [? ?] & _).
  - rewrite ex_when, andb_true_iff. destruct (server_family (target_family fam)) as [ops|] eqn:Hf.
    + rewrite ex_singleton. cbn [bd_operations].
      assert (truthy (target_family fam) = true).
      { apply truthy_spec. intros He. rewrite He in Hf. by vm_compute in Hf. }
      naive_solver.
    + rewrite ex_nil. naive_solver.
  - rewrite ex_when, ex_app, !ex_when, !ex_singleton. cbn [bd_operations].
    rewrite list_elem_of_singleton. naive_solver.
  - rewrite ex_when, ex_app, !ex_when, !ex_singleton, andb_true_iff, truthy_spec, bool_decide_eq_true.
    cbn [bd_operations]. naive_solver.
Qed.

(** The classes of the target are its own and the credential's. *)
Lemma product_classes facts scope mutating ar :
  granted_in_every_class (product_policy facts scope mutating) (user_element facts) ar
    (target_element facts scope) ↔
  (∃ bd, bd ∈ bindings facts scope ∧ ar ∈ rights (bd_operations bd)) ∧
  (credential_applies facts scope = true ∧
    (mutating = true → cr_readOnly (pf_credential facts) = false) ∧ ar ∈ rights IDENTITY_OPERATIONS).
Proof.
  set (P := product_policy facts scope mutating).
  assert (Ht : ∀ oa, assigned P (target_element facts scope) oa ↔ oa = objects scope ∨ oa = credentialObjects).
  { intros oa. unfold P. rewrite product_assignments. split; [|by auto].
    intros [(He & _)|[(_ & H)|[([He|[He|[He|He]]] & _)|([He|[He|[He|He]]] & _)]]]; [|exact H|..];
      exfalso; clear -He scope; by destruct scope. }
  assert (Ho : ∀ pc, assigned P (objects scope) pc ↔ pc = policyClass scope).
  { intros pc. unfold P. rewrite product_assignments. split; [|by auto 9].
    intros [(He & _)|[(He & _)|[(_ & H)|([He|[He|[He|He]]] & _)]]]; [| |exact H|..];
      exfalso; clear -He scope; by destruct scope. }
  assert (Hc : ∀ pc, assigned P credentialObjects pc ↔ pc = credentialClass).
  { intros pc. unfold P. rewrite product_assignments. split; [|by auto 9].
    intros [(He & _)|[(He & _)|[([He|[He|[He|He]]] & _)|(_ & H)]]]; [..|exact H];
      exfalso; clear -He scope; by destruct scope. }
  assert (Hd : policyClass scope ≠ credentialClass ∧ objects scope ≠ credentialObjects)
    by (by destruct scope).
  assert (Hu : ∀ b, assigned P (user_element facts) b ↔
    b = subject ∨ (∃ bd, bd ∈ bindings facts scope ∧ b = bd_attribute bd) ∨
     (credential_applies facts scope = true ∧
      (b = authenticated ∨ (cr_readOnly (pf_credential facts) = false ∧ b = writable)))).
  { intros b. unfold P. rewrite product_assignments. split; [|by auto].
    intros [(_ & H)|[(He & _)|[([He|[He|[He|He]]] & _)|([He|[He|[He|He]]] & _)]]]; [exact H|..];
      exfalso; clear -He scope; by destruct scope. }
  assert (Hcred : ∀ b, b = authenticated ∨ b = writable → assigned P (user_element facts) b ↔
    credential_applies facts scope = true ∧
    (b = writable → cr_readOnly (pf_credential facts) = false)).
  { intros b Hb. rewrite Hu. split.
    - intros [->|[(bd & Hbd & ->)|(? & [->|[? ->]])]]; [by destruct Hb| |done|done].
      exfalso. apply binding_shape in Hbd as [Hbd _].
      destruct Hbd as [Hbd|Hbd], Hb as [Hb|Hb]; rewrite Hbd in Hb; clear -Hb scope; by destruct scope.
    - intros [? Hw]. right; right. split; [done|]. destruct Hb as [->| ->]; auto. }
  unfold granted_in_every_class. split.
  - intros H. split.
    + destruct (H (objects scope) (policyClass scope)) as (a & Ha & H1 & H2 & H3 & Har);
        [by apply Ht; auto|by apply Ho|].
      apply product_associations in Ha as [(bd & Hbd & ->)|[(_ & ->)| ->]]; [by eauto| |];
        apply Hc in H3; by destruct Hd.
    + destruct (H credentialObjects credentialClass) as (a & Ha & H1 & H2 & H3 & Har);
        [by apply Ht; auto|by apply Hc|].
      apply product_associations in Ha as [(bd & Hbd & ->)|[(Hm & ->)| ->]].
      * apply Ho in H3. destruct Hd. congruence.
      * apply Hcred in H1 as [? ?]; [|by auto]. split; [done|]. split; [|done]. congruence.
      * apply Hcred in H1 as [? ?]; [|by auto]. auto.
  - intros [(bd & Hbd & Har) (Hca & Hro & Hid)] oa pc [->| ->]%Ht Hpc.
    + apply Ho in Hpc as ->. eexists. split; [apply product_associations; left; exists bd; split; [done|reflexivity]|].
      cbn [assoc_userAttribute assoc_targetAttribute assoc_accessRights].
      rewrite Hu, Ht, Ho. split_and!; [right; left; by exists bd|by left|done|done].
    + apply Hc in Hpc as ->. destruct mutating.
      * eexists. split; [apply product_associations; right; right; reflexivity|].
        cbn [assoc_userAttribute assoc_targetAttribute assoc_accessRights].
        rewrite Hcred, Ht, Hc by auto. split_and!; auto.
      * eexists. split; [apply product_associations; right; left; split; reflexivity|].
        cbn [assoc_userAttribute assoc_targetAttribute assoc_accessRights].
        rewrite Hcred, Ht, Hc by auto. split_and!; auto; done.
Qed.

Lemma identity_permits_listed facts scope op :
  identity_permits facts scope op → op ∈ IDENTITY_OPERATIONS.
Proof. intros (bd & Hbd & Ho)%bindings_permit. by apply (binding_shape _ _ _ Hbd). Qed.

Lemma credential_permits_spec facts scope mutating :
  credential_permits facts scope mutating ↔ credential_applies facts scope = true ∧
    (mutating = true → cr_readOnly (pf_credential facts) = false).
Proof.
  unfold credential_permits, credential_applies.
  rewrite andb_true_iff, !orb_true_iff, negb_true_iff. destruct (is_workspace scope); intuition congruence.
Qed.

Lemma product_access_spec facts scope op mutating :
  effect (evaluateProductAccess facts scope op mutating) = Allow ↔
  identity_permits facts scope op ∧ credential_permits facts scope mutating.
Proof.
  set (P := product_policy facts scope mutating).
  assert (L : layered_policy P) by apply product_layered.
  assert (Ht : declared P (target_element facts scope) KObject) by (apply product_elements; auto).
  assert (Hrest : operations P = operations (base_policy facts scope) ∧
    processUsers P = None ∧ prohibitions P = None).
  { unfold P, product_policy, with_credential. cbn.
    by destruct (foldl_bind facts scope (bindings facts scope) (base_policy facts scope))
      as (_ & -> & -> & -> & _). }
  destruct Hrest as (Hop & Hpu & Hpr).
  assert (Hr : runs_as P (product_request facts scope op) (user_element facts)).
  { split; [apply product_elements; auto|]. cbn. split; [done|]. by left. }
  unfold evaluateProductAccess. fold P. rewrite (layered_allow P L _ _ Hr Ht).
  rewrite Hop, Hpr. cbn [operations base_policy req_operation product_request default].
  rewrite find_operation. cbn [req_target product_request].
  assert (Hcl : ∀ ar, granted_in_every_class P (user_element facts) ar (target_element facts scope) ↔ _)
    by (intros; apply product_classes).
  rewrite credential_permits_spec. split.
  - intros (o & Ho & Hg & _). case_bool_decide as Hin; [|done]. injection Ho as <-.
    pose proof (identity_registered _ Hin) as Hreg.
    destruct (proj1 (Hcl _) (Hg _ ltac:(by apply list_elem_of_singleton))) as [(bd & Hbd & Har) (? & ? & _)].
    split; [|done]. apply bindings_permit. exists bd. split; [done|].
    apply (proj1 (elem_of_rights op _ Hreg (proj1 (proj2 (binding_shape _ _ _ Hbd)))) Har).
  - intros [Hid [Hca Hro]]. pose proof (identity_permits_listed _ _ _ Hid) as Hin.
    pose proof (identity_registered _ Hin) as Hreg.
    rewrite bool_decide_eq_true_2 by done. eexists. split; [reflexivity|].
    split; [|by intros p ?%elem_of_nil]. intros ar ->%list_elem_of_singleton. apply Hcl.
    apply bindings_permit in Hid as (bd & Hbd & Ho). split.
    + exists bd. split; [done|]. exact (proj2 (elem_of_rights op _ Hreg (proj1 (proj2 (binding_shape _ _ _ Hbd)))) Ho).
    + split_and!; [done|done|]. exact (proj2 (elem_of_rights op _ Hreg identity_registered) Hin).
Qed.

(** C4. Primary product access depends on the current facts only: the projected policy is always well
    formed, and an operation is allowed exactly when the active user has one of the grounds the target
    accepts (membership, administration, being the invitee or the account itself, the original owner of
    a deleted workspace) for that very operation, and the credential is current, bound to the workspace
    or an administrator's, and writable if the operation mutates.  In particular no ground of one
    target kind, and no credential alone, ever allows anything. *)
Theorem product_access_from_current_facts facts scope op mutating :
  effect (evaluateProductAccess facts scope op mutating) = Allow ↔
  identity_permits facts scope op ∧ credential_permits facts scope mutating.
Proof. apply product_access_spec. Qed.

(** The delegated maintenance operation has no ground here, for anyone. *)
Example maintenance_has_no_ground facts scope mutating :
  effect (evaluateProductAccess facts scope "administration.configuration.apply" mutating) = Deny.
Proof.
  destruct (effect _) eqn:E; [|done]. apply product_access_spec in E as [H%identity_permits_listed _].
  exfalso. revert H. apply (bool_decide_eq_false_1 (_ ∈ IDENTITY_OPERATIONS)). by vm_compute.
Qed.

(** A read-only token of a member reads the workspace and changes nothing in it. *)
Example read_only_member : let facts := {| pf_userId := "u1"; pf_activeUser := true; pf_administrator := false;
    pf_credential := {| cr_current := true; cr_workspaceBound := true; cr_readOnly := true; cr_kind := CredToken |} |} in
  let target := TWorkspace "w1" true (Some MMember) None in
  effect (evaluateProductAccess facts target "workspace.read" false) = Allow ∧
  effect (evaluateProductAccess facts target "workspace.write" true) = Deny.
Proof. vm_compute. done. Qed.
