(* ===== verification/McpToolPermissions.v ===== *)
(** * Tool prohibitions on top of the kernel (apps/nanocore/src/policy/mcp-tool-permissions.ts)

    The selection of the human-authored Tool statements that bind one proposed MCP Tool use, and
    the composition of a Kernel decision with the selected prohibitions.  The composition is a
    client of the policy kernel: it is proved against the kernel's decision lemmas only. *)

From S2P Require Import Prelude PolicyKernel PolicyGraph PolicyDecisions.

Local Open Scope string_scope.
Local Open Scope list_scope.

(** ** Policy v1 statements (packages/protocol/src/models/policy-v1.ts) *)

Inductive PolicyOwner := OwnerServer | OwnerWorkspace (workspaceId : string) | OwnerUser (userId : string).
#[export] Instance PolicyOwner_eq_dec : EqDecision PolicyOwner.
Proof. solve_decision. Defined.
Record PolicyContainer := { ct_owner : PolicyOwner; ct_kind : string; ct_id : string }.
#[export] Instance PolicyContainer_eq_dec : EqDecision PolicyContainer.
Proof. solve_decision. Defined.
(** [notAfter] is the instant [Date.parse] reads from the schema-checked timestamp. *)
Record PolicyLifetime := { lt_anchor : PolicyContainer; lt_notAfter : option Z; lt_uses : option Z }.
Inductive PolicyPrincipal := HumanPrincipal (id : string) | AgentPrincipal (id : string).
Inductive PolicyResource :=
| ContainerResource (container : PolicyContainer)
| McpToolResource (workspaceId serverId toolName : string).
Record PolicyScope := {
  sc_subjects : list PolicyPrincipal;
  sc_actions : list string;
  sc_resources : list PolicyResource;
}.
Inductive PolicyAuthority := HumanAuthority (userId : string) | DelegationAuthority (id digest : string).
Inductive PolicyGrantKind :=
| GrantOrdinary | GrantAgentProcess (agentId : string) | GrantMaintenance | GrantStorageLease.
#[export] Instance PolicyGrantKind_eq_dec : EqDecision PolicyGrantKind.
Proof. solve_decision. Defined.
Inductive PermissionState := PermissionInactive | PermissionActive.
#[export] Instance PermissionState_eq_dec : EqDecision PermissionState.
Proof. solve_decision. Defined.
Inductive PermissionEffect := PermAllow | PermProhibit | PermRequireApproval.
#[export] Instance PermissionEffect_eq_dec : EqDecision PermissionEffect.
Proof. solve_decision. Defined.

Record PolicyPermission := {
  pm_id : string;
  pm_author : PolicyPrincipal;
  pm_authority : PolicyAuthority;
  pm_scope : PolicyScope;
  pm_lifetime : PolicyLifetime;
  pm_state : PermissionState;
  pm_effect : PermissionEffect;
  pm_grant : PolicyGrantKind;
}.

(** A managed boundary names resources only: its subjects and actions are empty by schema. *)
Record PolicyBoundary := {
  bn_id : string;
  bn_author : PolicyPrincipal;
  bn_authority : PolicyAuthority;
  bn_lifetime : PolicyLifetime;
  bn_state : PermissionState;
  bn_resources : list PolicyResource;
}.

(** Bindings, delegations and agent principals are only recognised and skipped or refused. *)
Inductive PolicyStatement :=
| StPermission (p : PolicyPermission)
| StBinding (id : string)
| StDelegation (id : string)
| StManagedBoundary (b : PolicyBoundary)
| StAgentPrincipal (id : string).

Record McpToolProposal := {
  tp_workspaceId : string;
  tp_serverId : string;
  tp_toolName : string;
  tp_principal : PolicyPrincipal;
}.

(** ** Selection *)

Section Selection.
(** [policyDigest] of a principal (a SHA-256 of its canonical form) and the current-authority check
    of the caller. *)
Context (principalDigest : PolicyPrincipal → string) (authorCurrent : string → bool).

(** The first guard: an active ordinary restriction written by a human under human authority. *)
Definition is_human_restriction (s : PolicyPermission) : option string :=
  match pm_state s, pm_grant s, pm_authority s, pm_author s, pm_effect s with
  | PermissionActive, GrantOrdinary, HumanAuthority _, HumanPrincipal author,
    (PermProhibit | PermRequireApproval) => Some author
  | _, _, _, _, _ => None
  end.

(** The second guard: anchored at the proposal's workspace and not expired at [now]. *)
Definition anchored_and_current (proposal : McpToolProposal) (now : Z) (l : PolicyLifetime) : bool :=
  match ct_owner (lt_anchor l) with
  | OwnerWorkspace w =>
    bool_decide (w = tp_workspaceId proposal)
    && bool_decide (ct_kind (lt_anchor l) = "workspace")
    && bool_decide (ct_id (lt_anchor l) = tp_workspaceId proposal)
    && match lt_notAfter l with Some t => negb (t <=? now)%Z | None => true end
  | _ => false
  end.

(** The third guard: the scope names the principal, the action and the exact Tool. *)
Definition scope_names_tool (proposal : McpToolProposal) (s : PolicyScope) : bool :=
  existsb (λ subject, bool_decide (principalDigest subject = principalDigest (tp_principal proposal)))
    (sc_subjects s)
  && includes (sc_actions s) "tool.use"
  && existsb (λ r, match r with
       | McpToolResource w srv tool =>
         bool_decide (w = tp_workspaceId proposal) && bool_decide (srv = tp_serverId proposal)
         && bool_decide (tool = tp_toolName proposal)
       | ContainerResource _ => false
       end) (sc_resources s).

(** The callback of [filter]; losing the author's authority throws. *)
Definition select_statement (proposal : McpToolProposal) (now : Z) (s : PolicyStatement)
    : result string (option PolicyPermission) :=
  match s with
  | StPermission p =>
    match is_human_restriction p with
    | Some author =>
      if anchored_and_current proposal now (pm_lifetime p)
         && scope_names_tool proposal (pm_scope p) then
        require authorCurrent author else "MCP Policy author no longer has current authority.";
        Ok (Some p)
      else Ok None
    | None => Ok None
    end
  | _ => Ok None
  end.

Fixpoint selectMcpToolPermissions (statements : list PolicyStatement) (proposal : McpToolProposal)
    (now : Z) : result string (list PolicyPermission) :=
  match statements with
  | [] => Ok []
  | s :: rest =>
    selected ← select_statement proposal now s;
    ps ← selectMcpToolPermissions rest proposal now;
    Ok (match selected with Some p => p :: ps | None => ps end)
  end.

(** The statements that bind the proposal, declaratively. *)
Definition binds (proposal : McpToolProposal) (now : Z) (p : PolicyPermission) (author : string)
    : Prop :=
  is_human_restriction p = Some author ∧
  anchored_and_current proposal now (pm_lifetime p) = true ∧
  scope_names_tool proposal (pm_scope p) = true.

Lemma select_statement_Ok proposal now s r :
  select_statement proposal now s = Ok r →
  ∀ p, r = Some p ↔
    s = StPermission p ∧ ∃ author, binds proposal now p author ∧ authorCurrent author = true.
Proof.
  unfold select_statement, binds.
  destruct s as [q| | | |]; try (intros [= <-] p; split; [done|by intros [? _]]).
  destruct (is_human_restriction q) as [author|] eqn:Hr.
  2:{ intros [= <-] p. split; [done|]. intros ([= ->] & a & (? & _) & _). congruence. }
  destruct (_ && _) eqn:Hg.
  2:{ intros [= <-] p. split; [done|]. intros ([= ->] & a & (_ & Ha & Hs) & _).
      rewrite Ha, Hs in Hg. done. }
  apply andb_true_iff in Hg as [Ha Hs]. destruct (authorCurrent author) eqn:Hc; [|done].
  intros [= <-] p. split; [intros [= ->]; split; [done|]; by exists author|].
  by intros ([= ->] & _).
Qed.

Lemma selectMcpToolPermissions_Ok statements proposal now ps :
  selectMcpToolPermissions statements proposal now = Ok ps →
  ∀ p, p ∈ ps ↔ StPermission p ∈ statements ∧ ∃ author, binds proposal now p author.
Proof.
  revert ps. induction statements as [|s rest IH]; cbn; intros ps H.
  - injection H as <-. intros p. rewrite !elem_of_nil. naive_solver.
  - apply bind_Ok in H as (sel & Hsel & (ps' & Hps' & [= <-])%bind_Ok). intros p.
    pose proof (select_statement_Ok _ _ _ _ Hsel) as Hp. rewrite elem_of_cons.
    specialize (IH _ Hps' p). destruct sel as [q|].
    + destruct (proj1 (Hp q) eq_refl) as (-> & author & Hb & _).
      rewrite elem_of_cons, IH. split; [|naive_solver].
      intros [->|?]; [|naive_solver]. eauto.
    + rewrite IH. split; [naive_solver|]. intros ([<-|?] & author & Hb); [|eauto].
      exfalso. cbn in Hsel. destruct Hb as (Hr & Ha & Hs). unfold select_statement in Hsel.
      rewrite Hr, Ha, Hs in Hsel. cbn in Hsel. by destruct (authorCurrent author).
Qed.

Lemma selectMcpToolPermissions_authors statements proposal now ps :
  selectMcpToolPermissions statements proposal now = Ok ps →
  ∀ p author, StPermission p ∈ statements → binds proposal now p author →
    authorCurrent author = true.
Proof.
  revert ps. induction statements as [|s rest IH]; cbn; intros ps H.
  - by intros p author ?%elem_of_nil.
  - apply bind_Ok in H as (sel & Hsel & (ps' & Hps' & _)%bind_Ok).
    intros p author [<-|Hin]%elem_of_cons Hb; [|by eapply IH].
    destruct Hb as (Hr & Ha & Hs). unfold select_statement in Hsel.
    rewrite Hr, Ha, Hs in Hsel. cbn in Hsel. by destruct (authorCurrent author).
Qed.

Lemma selectMcpToolPermissions_Err statements proposal now e :
  selectMcpToolPermissions statements proposal now = Err e →
  ∃ p author, StPermission p ∈ statements ∧ binds proposal now p author ∧
    authorCurrent author = false.
Proof.
  induction statements as [|s rest IH]; cbn; [done|].
  destruct (select_statement proposal now s) as [sel|e'] eqn:Hsel; cbn.
  - destruct (selectMcpToolPermissions rest proposal now) as [ps|e'']; [done|]. cbn. intros [= ->].
    destruct (IH eq_refl) as (p & author & Hin & Hb). exists p, author. split; [by right|done].
  - intros _. unfold select_statement in Hsel. destruct s as [p| | | |]; try done.
    destruct (is_human_restriction p) as [author|] eqn:Hr; [|done].
    destruct (_ && _) eqn:Hg; [|done]. apply andb_true_iff in Hg as [Ha Hs].
    destruct (authorCurrent author) eqn:Hc; [done|].
    exists p, author. split; [left|]. done.
Qed.
End Selection.

(** ** Composition with the Kernel *)

(** The synthetic policy; [granted] is [kernel.effect === 'allow']. *)
Definition mcp_policy (granted : bool) (prohibiting : list PolicyPermission) : PolicyState := {|
  elements := [
    {| el_id := "caller"; el_kind := KUser |};
    {| el_id := "eligible"; el_kind := KUserAttribute |};
    {| el_id := "tool"; el_kind := KObject |};
    {| el_id := "tools"; el_kind := KObjectAttribute |};
    {| el_id := "mcp"; el_kind := KPolicyClass |} ];
  assignments := [
    {| as_child := "caller"; as_parent := "eligible" |};
    {| as_child := "eligible"; as_parent := "mcp" |};
    {| as_child := "tool"; as_parent := "tools" |};
    {| as_child := "tools"; as_parent := "mcp" |} ];
  operations := [{| op_id := "tool.use"; op_accessRights := ["use"] |}];
  processUsers := None;
  associations :=
    if granted then
      [{| assoc_id := "current-native-authority"; assoc_userAttribute := "eligible";
          assoc_accessRights := ["use"]; assoc_targetAttribute := "tools" |}]
    else [];
  prohibitions := Some ((λ s, {|
    proh_id := pm_id s; proh_kind := PKUser; proh_subject := "caller";
    proh_accessRights := ["use"];
    proh_range := {| range_type := Disjunctive; range_include := Some ["tools"];
                     range_exclude := None |} |}) <$> prohibiting);
|}.

Definition mcp_request : AccessRequest := {|
  req_user := Some "caller"; req_process := None; req_operation := "tool.use"; req_target := "tool";
|}.

Definition is_validation_reason (r : PolicyDecisionReason) : bool :=
  match r with InvalidPolicy _ | InvalidRequest _ | MissingOperation _ => true | _ => false end.

Definition prohibits (p : PolicyPermission) : bool := bool_decide (pm_effect p = PermProhibit).

Definition applyMcpToolProhibitions (kernel : PolicyDecision) (permissions : list PolicyPermission)
    : PolicyDecision :=
  let prohibiting := filterb prohibits permissions in
  if bool_decide (length prohibiting = 0) || existsb is_validation_reason (reasons kernel)
  then kernel
  else
    let decision :=
      evaluateAccess (mcp_policy (bool_decide (effect kernel = Allow)) prohibiting) mcp_request in
    {| effect := effect decision;
       reasons := reasons decision;
       trace := {|
         tr_user := tr_user (trace decision);
         tr_process := tr_process (trace decision);
         tr_requiredAccessRights := tr_requiredAccessRights (trace decision);
         tr_userClosure := tr_userClosure (trace decision);
         tr_targetClosure := tr_targetClosure (trace decision);
         tr_policyClasses := tr_policyClasses (trace decision);
         tr_matchedAssociations := tr_matchedAssociations (trace kernel);
         tr_matchedProhibitions :=
           tr_matchedProhibitions (trace kernel) ++ tr_matchedProhibitions (trace decision);
       |} |}.

(** ** The composed decision *)

Lemma mcp_policy_valid granted ps :
  validatePolicy (mcp_policy granted ps) (indexElements (elements (mcp_policy granted ps)))
    (indexAssignmentParents (assignments (mcp_policy granted ps))) = None.
Proof.
  unfold validatePolicy. rewrite !or_error_None.
  do 5 (split; [vm_compute; done|]). split; [destruct granted; vm_compute; done|].
  split; [done|]. apply first_error_None. cbn. intros x (s & -> & _)%list_elem_of_fmap.
  vm_compute. done.
Qed.

Lemma mcp_evaluation granted p ps :
  let d := evaluateAccess (mcp_policy granted (p :: ps)) mcp_request in
  effect d = Deny ∧ reasons d = [Restriction (pm_id p)] ∧
  tr_matchedProhibitions (trace d) = pm_id <$> (p :: ps).
Proof.
  cbn zeta. unfold evaluateAccess. rewrite mcp_policy_valid.
  replace (find _ (operations _)) with (Some {| op_id := "tool.use"; op_accessRights := ["use"] |})
    by (vm_compute; done).
  replace (resolveRequestUser _ _ _) with (inl "caller" : string + string) by (vm_compute; done).
  replace (_ !! req_target mcp_request) with (Some {| el_id := "tool"; el_kind := KObject |})
    by (vm_compute; done).
  rewrite bool_decide_eq_false_2 by done. unfold decide_request.
  rewrite (filterb_all _ (default [] (prohibitions _))).
  - destruct (search_rights _ _ _ _ _) as [matched missing]. cbn. split; [done|]. split; [done|].
    f_equal. rewrite <-list_fmap_compose. done.
  - cbn. intros x [->|(s & -> & _)%list_elem_of_fmap]%elem_of_cons; vm_compute; done.
Qed.

Lemma applyMcpToolProhibitions_spec kernel permissions :
  match filterb prohibits permissions with
  | [] => applyMcpToolProhibitions kernel permissions = kernel
  | p :: ps =>
    if existsb is_validation_reason (reasons kernel)
    then applyMcpToolProhibitions kernel permissions = kernel
    else
      let d := applyMcpToolProhibitions kernel permissions in
      effect d = Deny ∧ reasons d = [Restriction (pm_id p)] ∧
      tr_matchedAssociations (trace d) = tr_matchedAssociations (trace kernel) ∧
      tr_matchedProhibitions (trace d) =
        tr_matchedProhibitions (trace kernel) ++ (pm_id <$> (p :: ps))
  end.
Proof.
  unfold applyMcpToolProhibitions. destruct (filterb prohibits permissions) as [|p ps]; [done|].
  rewrite bool_decide_eq_false_2 by done. cbn [orb].
  destruct (existsb _ _); [done|]. cbn zeta.
  pose proof (mcp_evaluation (bool_decide (effect kernel = Allow)) p ps) as H. cbn zeta in H.
  generalize dependent (evaluateAccess (mcp_policy (bool_decide (effect kernel = Allow)) (p :: ps))
                          mcp_request).
  intros d (He & Hr & Ht). cbn. rewrite He, Hr, Ht. done.
Qed.

(** A Tool prohibition among the selected permissions denies the use, whatever the kernel
    decided: no kernel decision about any policy and request survives it. *)
Theorem mcp_prohibition_denies policy request permissions p :
  p ∈ permissions → pm_effect p = PermProhibit →
  effect (applyMcpToolProhibitions (evaluateAccess policy request) permissions) = Deny.
Proof.
  intros Hin Hp. pose proof (applyMcpToolProhibitions_spec (evaluateAccess policy request) permissions) as H.
  assert (Hf : p ∈ filterb prohibits permissions).
  { apply elem_of_filterb. split; [done|]. by apply bool_decide_eq_true. }
  destruct (filterb prohibits permissions) as [|q qs]; [by apply elem_of_nil in Hf|].
  destruct (existsb _ _) eqn:E; [|apply H]. rewrite H.
  pose proof (evaluateAccess_reason_spec policy request) as Hr.
  destruct (effect _), (reasons _) as [|[] [|? ?]]; done.
Qed.

(** The composition never adds authority and keeps the kernel's evidence: it allows only what
    the kernel allowed, returns the kernel decision untouched when there is no prohibition or the
    kernel refused before evaluating, and otherwise denies with the first prohibition as reason
    and with every prohibition appended to the kernel's trace. *)
Theorem mcp_composition_is_restrictive kernel permissions :
  let d := applyMcpToolProhibitions kernel permissions in
  (effect d = Allow → effect kernel = Allow) ∧
  match filterb prohibits permissions with
  | [] => d = kernel
  | p :: ps =>
    if existsb is_validation_reason (reasons kernel) then d = kernel
    else reasons d = [Restriction (pm_id p)] ∧
      tr_matchedAssociations (trace d) = tr_matchedAssociations (trace kernel) ∧
      tr_matchedProhibitions (trace d) =
        tr_matchedProhibitions (trace kernel) ++ (pm_id <$> (p :: ps))
  end.
Proof.
  cbn zeta. pose proof (applyMcpToolProhibitions_spec kernel permissions) as H.
  destruct (filterb prohibits permissions) as [|p ps]; [by rewrite H|].
  destruct (existsb _ _); [by rewrite H|]. cbn zeta in H. destruct H as (He & Hr & Ht & Hp).
  rewrite He, Hr, Ht, Hp. done.
Qed.

(** Selection is exact and fails closed: when it returns, the selected permissions are exactly
    the statements of the document that are active ordinary human restrictions, anchored at the
    proposal's workspace, unexpired, and scoped to the principal, the action and the exact Tool, and
    every author of such a statement is current; it throws exactly when the author of a binding
    statement has lost authority, so a restriction is never silently dropped. *)
Theorem mcp_selection_is_exact digest current statements proposal now :
  match selectMcpToolPermissions digest current statements proposal now with
  | Ok ps =>
    (∀ p, p ∈ ps ↔ StPermission p ∈ statements ∧ ∃ author, binds digest proposal now p author) ∧
    (∀ p author, StPermission p ∈ statements → binds digest proposal now p author →
      current author = true)
  | Err _ => ∃ p author, StPermission p ∈ statements ∧ binds digest proposal now p author ∧
      current author = false
  end.
Proof.
  destruct (selectMcpToolPermissions _ _ _ _ _) as [ps|e] eqn:E.
  - split; [by eapply selectMcpToolPermissions_Ok|by eapply selectMcpToolPermissions_authors].
  - by eapply selectMcpToolPermissions_Err.
Qed.

(** ** Concrete instance: a prohibition of one Tool *)

Definition demo_anchor : PolicyContainer :=
  {| ct_owner := OwnerWorkspace "w1"; ct_kind := "workspace"; ct_id := "w1" |}.

Definition demo_prohibition : PolicyPermission := {|
  pm_id := "no-shell"; pm_author := HumanPrincipal "u1"; pm_authority := HumanAuthority "u1";
  pm_scope := {| sc_subjects := [AgentPrincipal "a1"]; sc_actions := ["tool.use"];
                 sc_resources := [McpToolResource "w1" "srv" "shell"] |};
  pm_lifetime := {| lt_anchor := demo_anchor; lt_notAfter := None; lt_uses := None |};
  pm_state := PermissionActive; pm_effect := PermProhibit; pm_grant := GrantOrdinary |}.

Lemma mcp_prohibition_denies_witness :
  effect (evaluateAccess demo_policy demo_request) = Allow ∧
  effect (applyMcpToolProhibitions (evaluateAccess demo_policy demo_request) [demo_prohibition])
    = Deny.
Proof.
  split; [vm_compute; reflexivity|].
  apply (mcp_prohibition_denies demo_policy demo_request [demo_prohibition] demo_prohibition);
    [left|reflexivity].
Defined.
