(* ===== verification/ResourceAccess.v ===== *)
(** * Thread audience and resource policy

    [evaluateWorkspaceResourceAccess] (nanocore/src/policy/workspace-resource-access.ts): the audience
    of one Thread and, when a managed boundary names it, the additional policy class of its
    workspace's policy document; with the admission of that document
    (packages/config-schema/src/workspace-resource-policy.ts), and [evaluateThreadAuthorization], which
    feeds it from the Thread record (packages/protocol/src/models/thread.ts).  The graph is layered and
    the decision is proved through PolicyLayers. *)

From stdpp Require Import pretty.
From S2P Require Import Prelude PolicyKernel PolicyGraph PolicyDecisions PolicyLayers McpToolPermissions ProductAccess.

Local Open Scope string_scope.
Local Open Scope list_scope.

(** ** The workspace policy document *)

Module Document.

Definition statement_id (s : PolicyStatement) : string :=
  match s with
  | StPermission p => pm_id p
  | StManagedBoundary b => bn_id b
  | StBinding id | StDelegation id | StAgentPrincipal id => id
  end.

(** The part of the refinement common to permissions and boundaries: a human author under their own
    authority, anchored at the workspace without limits, on exactly one Thread of the workspace; the
    Thread's container is the key of the boundary. *)
Definition constrained_target (author : PolicyPrincipal) (authority : PolicyAuthority)
    (lifetime : PolicyLifetime) (resources : list PolicyResource) : option PolicyContainer :=
  let anchor := lt_anchor lifetime in
  match author, authority, ct_owner anchor, lt_notAfter lifetime, lt_uses lifetime, resources with
  | HumanPrincipal id, HumanAuthority userId, OwnerWorkspace w, None, None,
    [ContainerResource container] =>
    if bool_decide (id = userId) && bool_decide (ct_kind anchor = "workspace")
       && bool_decide (ct_id anchor = w) && bool_decide (ct_kind container = "thread")
       && bool_decide (ct_owner container = OwnerWorkspace (ct_id anchor))
    then Some container else None
  | _, _, _, _, _, _ => None
  end.

Definition supported_permission (p : PolicyPermission) : bool :=
  match pm_grant p with GrantOrdinary | GrantAgentProcess _ => true | _ => false end
  && (bool_decide (pm_state p = PermissionInactive) ||
      bool_decide (pm_effect p = PermAllow) || bool_decide (pm_effect p = PermProhibit))
  && match sc_subjects (pm_scope p) with [HumanPrincipal _] => true | _ => false end
  && forallb (λ a, bool_decide (a ∈ product_operations)) (sc_actions (pm_scope p)).

(** The loop of the refinement; [None] is an issue.  The accumulators are the containers of the
    active boundaries and of the active permissions. *)
Fixpoint check_statements (statements : list PolicyStatement)
    (boundaries permissions : list PolicyContainer) : option (list PolicyContainer * list PolicyContainer) :=
  match statements with
  | [] => Some (boundaries, permissions)
  | StPermission p :: rest =>
    match constrained_target (pm_author p) (pm_authority p) (pm_lifetime p) (sc_resources (pm_scope p)) with
    | Some key =>
      if supported_permission p then
        check_statements rest boundaries
          (if bool_decide (pm_state p = PermissionActive) then permissions ++ [key] else permissions)
      else None
    | None => None
    end
  | StManagedBoundary b :: rest =>
    match constrained_target (bn_author b) (bn_authority b) (bn_lifetime b) (bn_resources b) with
    | Some key =>
      if bool_decide (bn_state b = PermissionActive) then
        if bool_decide (key ∈ boundaries) then None
        else check_statements rest (boundaries ++ [key]) permissions
      else check_statements rest boundaries permissions
    | None => None
    end
  | _ :: _ => None
  end.

(** The part of the shared schema that the projections rely on: unique selectors and, for every
    permission, at least one action. *)
Definition shared_schema_ok (statements : list PolicyStatement) : bool :=
  bool_decide (NoDup (statement_id <$> statements))
  && forallb (λ s, match s with
       | StPermission p => negb (bool_decide (sc_actions (pm_scope p) = []))
       | _ => true
       end) statements.

Definition WorkspacePolicyDocumentSchema (statements : list PolicyStatement) : bool :=
  shared_schema_ok statements
  && match check_statements statements [] [] with
     | Some (boundaries, permissions) =>
       forallb (λ key, bool_decide (key ∈ boundaries)) permissions
     | None => false
     end.

Definition statement_anchor (s : PolicyStatement) : option PolicyContainer :=
  match s with
  | StPermission p => Some (lt_anchor (pm_lifetime p))
  | StManagedBoundary b => Some (lt_anchor (bn_lifetime b))
  | _ => None
  end.

Definition parseWorkspacePolicy (workspaceId : string) (statements : list PolicyStatement)
    : result string (list PolicyStatement) :=
  require WorkspacePolicyDocumentSchema statements
    else "Unsupported Workspace Policy scope, constraint or boundary.";
  require forallb (λ s, match statement_anchor s with
      | Some anchor => bool_decide (ct_owner anchor = OwnerWorkspace workspaceId)
      | None => true
      end) statements
    else "Workspace Policy belongs to a different owner.";
  Ok statements.

Inductive WorkspacePolicySubject := SubjUser (userId : string) | SubjAgent (userId agentId : string).

Definition workspacePolicySubject (p : PolicyPermission) : result string WorkspacePolicySubject :=
  match sc_subjects (pm_scope p) with
  | HumanPrincipal id :: _ =>
    match pm_grant p with
    | GrantOrdinary => Ok (SubjUser id)
    | GrantAgentProcess agentId => Ok (SubjAgent id agentId)
    | _ => Err "Unsupported Workspace Policy grant."
    end
  | _ => Err "Workspace Policy recipient must be human-rooted."
  end.
End Document.
Import Document.

(** ** The projection *)

Inductive ResourcePolicyActor :=
| ActorUser (userId : string)
| ActorAgent (userId agentId processId : string).

Definition actor_user (a : ResourcePolicyActor) : string :=
  match a with ActorUser u | ActorAgent u _ _ => u end.

Definition matches (subject : WorkspacePolicySubject) (actor : ResourcePolicyActor) : bool :=
  match subject, actor with
  | SubjUser u, ActorUser v => bool_decide (u = v)
  | SubjAgent u a, ActorAgent v b _ => bool_decide (u = v) && bool_decide (a = b)
  | _, _ => false
  end.

Inductive Visibility := VisWorkspace | VisPrivate.

Record ResourceAccessInput := {
  ri_actor : ResourcePolicyActor;
  ri_administrator : bool;
  ri_visibility : Visibility;
  ri_privateOwnerUserId : option string;
  ri_personalWorkspaceId : option string;
  ri_workspaceId : string;
  ri_policy : list PolicyStatement;
  ri_threadId : string;
  ri_operation : string;
}.

(** A grant or prohibition of the managed class: its recipient and operations. *)
Record ResourceRule := { rr_subject : WorkspacePolicySubject; rr_operations : list string }.
Record ManagedRules := { mr_grants : list ResourceRule; mr_prohibitions : list ResourceRule }.

Definition names_thread (id : string) (r : PolicyResource) : bool :=
  match r with
  | ContainerResource c => bool_decide (ct_kind c = "thread") && bool_decide (ct_id c = id)
  | McpToolResource _ _ _ => false
  end.

(** Active statements on the Thread. *)
Definition matching (id : string) (s : PolicyStatement) : bool :=
  match s with
  | StPermission p =>
    bool_decide (pm_state p = PermissionActive) && existsb (names_thread id) (sc_resources (pm_scope p))
  | StManagedBoundary b =>
    bool_decide (bn_state b = PermissionActive) && existsb (names_thread id) (bn_resources b)
  | _ => false
  end.

Definition is_boundary (s : PolicyStatement) : bool :=
  match s with StManagedBoundary _ => true | _ => false end.

(** [matching.flatMap(...)] for one effect. *)
Fixpoint rules_with (eff : PermissionEffect) (statements : list PolicyStatement)
    : result string (list ResourceRule) :=
  match statements with
  | [] => Ok []
  | StPermission p :: rest =>
    if bool_decide (pm_effect p = eff) then
      subject ← workspacePolicySubject p;
      rules ← rules_with eff rest;
      Ok ({| rr_subject := subject; rr_operations := sc_actions (pm_scope p) |} :: rules)
    else rules_with eff rest
  | _ :: rest => rules_with eff rest
  end.

Definition managed_rules (document : list PolicyStatement) (threadId : string)
    : result string (option ManagedRules) :=
  let ms := filterb (matching threadId) document in
  if existsb is_boundary ms then
    grants ← rules_with PermAllow ms;
    prohibitions ← rules_with PermProhibit ms;
    Ok (Some {| mr_grants := grants; mr_prohibitions := prohibitions |})
  else Ok None.

Section Projection.
Context (input : ResourceAccessInput).

Definition r_user : string := "user:" +:+ actor_user (ri_actor input).
(** [JSON.stringify({ family: 'thread', id })] *)
Definition r_target : string :=
  "object:{" +:+ json_string "family" +:+ ":" +:+ json_string "thread" +:+ "," +:+
  json_string "id" +:+ ":" +:+ json_string (ri_threadId input) +:+ "}".
Definition r_subject : string := "ua:thread-subject".
Definition baseline : string := "ua:thread-shared".
Definition privateOwner : string := "ua:thread-private-owner".
Definition r_administrator : string := "ua:thread-administrator".
Definition r_objects : string := "oa:workspace-resource".
Definition baselineClass : string := "pc:thread-audience".

Definition element (k : PolicyElementKind) (id : string) : PolicyElement := {| el_id := id; el_kind := k |}.
Definition edge (a b : string) : PolicyAssignment := {| as_child := a; as_parent := b |}.
Definition audience_association (targetAttribute attribute : string) : PolicyAssociation :=
  {| assoc_id := "assoc:" +:+ attribute; assoc_userAttribute := attribute;
     assoc_accessRights := rights WORKSPACE_MEMBER_OPERATIONS; assoc_targetAttribute := targetAttribute |}.

Definition owns_private : bool :=
  match ri_visibility input with
  | VisPrivate => bool_decide (ri_privateOwnerUserId input = Some (actor_user (ri_actor input)))
  | VisWorkspace => false
  end.

Definition audience_policy : PolicyState := {|
  elements := [ element KUser r_user; element KUserAttribute r_subject; element KUserAttribute baseline;
    element KUserAttribute privateOwner; element KUserAttribute r_administrator;
    element KObject r_target; element KObjectAttribute r_objects; element KPolicyClass baselineClass ];
  assignments :=
    [ edge r_user r_subject; edge r_subject baselineClass ]
    ++ when (match ri_visibility input with VisWorkspace => true | VisPrivate => false end)
         [edge r_user baseline]
    ++ when owns_private [edge r_user privateOwner]
    ++ when (ri_administrator input) [edge r_user r_administrator]
    ++ [ edge privateOwner baselineClass; edge r_administrator baselineClass;
         edge baseline baselineClass; edge r_target r_objects; edge r_objects baselineClass ];
  operations := (λ id, {| op_id := id; op_accessRights := [access_right id] |})
    <$> WORKSPACE_MEMBER_OPERATIONS;
  processUsers :=
    match ri_actor input with
    | ActorAgent _ _ processId => Some [{| pu_process := processId; pu_user := r_user |}]
    | ActorUser _ => None
    end;
  associations := audience_association r_objects <$> [baseline; privateOwner; r_administrator];
  prohibitions := None;
|}.

Definition personalClass : string := "pc:personal-workspace-audience".
Definition personalObjects : string := "oa:personal-workspace".
Definition personalOwner : string := "ua:personal-workspace-owner".
Definition personalAdministrator : string := "ua:personal-workspace-administrator".

Definition with_personal (policy : PolicyState) : PolicyState :=
  match ri_personalWorkspaceId input with
  | None => policy
  | Some personal => {|
      elements := elements policy ++
        [ element KPolicyClass personalClass; element KObjectAttribute personalObjects;
          element KUserAttribute personalOwner; element KUserAttribute personalAdministrator ];
      assignments := assignments policy ++
        [ edge r_subject personalClass; edge r_target personalObjects; edge personalObjects personalClass;
          edge personalOwner personalClass; edge personalAdministrator personalClass ]
        ++ when (bool_decide (ri_workspaceId input = personal)) [edge r_user personalOwner]
        ++ when (ri_administrator input) [edge r_user personalAdministrator];
      operations := operations policy;
      processUsers := processUsers policy;
      associations := associations policy ++
        (audience_association personalObjects <$> [personalOwner; personalAdministrator]);
      prohibitions := prohibitions policy;
    |}
  end.

Definition resourceClass : string := "pc:managed-resource".
Definition resourceObjects : string := "oa:managed-resource".
Definition allocation (index : nat) : string := "ua:resource-allocation:" +:+ pretty index.

(** The prohibitions that concern the actor, under the index of their statement. *)
Fixpoint actor_prohibitions (index : nat) (rules : list ResourceRule) : list PolicyProhibition :=
  match rules with
  | [] => []
  | rule :: rest =>
    let restrictUser :=
      match rr_subject rule with
      | SubjUser u => bool_decide (u = actor_user (ri_actor input))
      | SubjAgent _ _ => false
      end in
    (if negb restrictUser && negb (matches (rr_subject rule) (ri_actor input)) then []
     else [{|
       proh_id := "prohibition:resource:" +:+ pretty index;
       proh_kind := if restrictUser then PKUser else PKProcess;
       proh_subject :=
         if restrictUser then r_user
         else match ri_actor input with ActorAgent _ _ processId => processId | ActorUser _ => r_user end;
       proh_accessRights := rights (rr_operations rule);
       proh_range := {| range_type := Disjunctive; range_include := Some [resourceObjects];
                        range_exclude := None |} |}])
    ++ actor_prohibitions (S index) rest
  end.

(** The loop over the grants: one attribute and one association per grant. *)
Definition grant_elements (grants : list ResourceRule) : list PolicyElement :=
  imap (λ index _, element KUserAttribute (allocation index)) grants.

Definition grant_assignments (grants : list ResourceRule) : list PolicyAssignment :=
  mjoin (imap (λ index grant,
    edge (allocation index) resourceClass
      :: when (matches (rr_subject grant) (ri_actor input)) [edge r_user (allocation index)]) grants).

Definition grant_associations (grants : list ResourceRule) : list PolicyAssociation :=
  imap (λ index grant, {|
    assoc_id := "assoc:resource-allocation:" +:+ pretty index;
    assoc_userAttribute := allocation index;
    assoc_accessRights := rights (rr_operations grant);
    assoc_targetAttribute := resourceObjects |}) grants.

Definition with_managed (policy : PolicyState) (managed : option ManagedRules) : PolicyState :=
  match managed with
  | None => policy
  | Some rules => {|
      elements := elements policy
        ++ [element KPolicyClass resourceClass; element KObjectAttribute resourceObjects]
        ++ grant_elements (mr_grants rules);
      assignments := assignments policy
        ++ [edge r_target resourceObjects; edge resourceObjects resourceClass]
        ++ grant_assignments (mr_grants rules);
      operations := operations policy;
      processUsers := processUsers policy;
      associations := associations policy ++ grant_associations (mr_grants rules);
      prohibitions := Some (actor_prohibitions 0 (mr_prohibitions rules));
    |}
  end.

Definition resource_request : AccessRequest := {|
  req_user := Some r_user;
  req_process := match ri_actor input with ActorAgent _ _ processId => Some processId | ActorUser _ => None end;
  req_operation := ri_operation input;
  req_target := r_target;
|}.

Definition resource_policy (managed : option ManagedRules) : PolicyState :=
  with_managed (with_personal audience_policy) managed.

Definition evaluateWorkspaceResourceAccess : result string PolicyDecision :=
  document ← parseWorkspacePolicy (ri_workspaceId input) (ri_policy input);
  managed ← managed_rules document (ri_threadId input);
  Ok (evaluateAccess (resource_policy managed) resource_request).
End Projection.

(** ** The Thread record and its authorization *)

Inductive WorkOwner := WorkspaceOwner (workspaceId : string) | ServerOwner.
Inductive ThreadVisibility := ThreadPrivate | ThreadWorkspace | ThreadServer.
#[export] Instance ThreadVisibility_eq_dec : EqDecision ThreadVisibility.
Proof. solve_decision. Defined.

Record Thread := {
  th_id : string;
  th_owner : WorkOwner;
  th_parentThreadId : option string;
  th_administration : bool;
  th_visibility : ThreadVisibility;
  th_privateOwnerUserId : option string;
}.

Definition owner_is_server (o : WorkOwner) : bool := match o with ServerOwner => true | WorkspaceOwner _ => false end.

(** The refinements of the Thread schema; its members are already of their types. *)
Definition ThreadSchema (t : Thread) : bool :=
  negb (bool_decide (th_parentThreadId t = Some (th_id t))) &&
  Bool.eqb (bool_decide (th_visibility t = ThreadPrivate)) (negb (bool_decide (th_privateOwnerUserId t = None))) &&
  Bool.eqb (owner_is_server (th_owner t)) (bool_decide (th_visibility t = ThreadServer)) &&
  negb (th_administration t && negb (owner_is_server (th_owner t)) && negb (bool_decide (th_visibility t = ThreadPrivate))).

Record ThreadAuthorizationInput := {
  ta_thread : Thread;
  ta_workspaceId : string;
  ta_userId : string;
  ta_administrator : bool;
  ta_personalWorkspaceId : option string;
  ta_policy : list PolicyStatement;
  ta_operation : string;
  ta_actor : option ResourcePolicyActor;
}.

Definition resource_input (i : ThreadAuthorizationInput) (v : Visibility) : ResourceAccessInput := {|
  ri_actor := default (ActorUser (ta_userId i)) (ta_actor i);
  ri_administrator := ta_administrator i;
  ri_visibility := v;
  ri_privateOwnerUserId := th_privateOwnerUserId (ta_thread i);
  ri_personalWorkspaceId := ta_personalWorkspaceId i;
  ri_workspaceId := ta_workspaceId i;
  ri_policy := ta_policy i;
  ri_threadId := th_id (ta_thread i);
  ri_operation := ta_operation i;
|}.

Definition inexact_facts : string := "Thread authorization requires exact current audience and actor facts.".

Definition evaluateThreadAuthorization (i : ThreadAuthorizationInput) : result string PolicyDecision :=
  if negb (truthy (ta_userId i)) || negb (ThreadSchema (ta_thread i)) then Err inexact_facts
  else match th_visibility (ta_thread i), th_owner (ta_thread i) with
  | ThreadServer, _ | _, ServerOwner => Err inexact_facts
  | v, WorkspaceOwner w =>
    if negb (bool_decide (w = ta_workspaceId i)) ||
       match ta_actor i with Some actor => negb (bool_decide (actor_user actor = ta_userId i)) | None => false end
    then Err inexact_facts
    else evaluateWorkspaceResourceAccess
      (resource_input i (if bool_decide (v = ThreadPrivate) then VisPrivate else VisWorkspace))
  end.

(** ** The graph is layered *)

Section Graph.
Context (input : ResourceAccessInput) (managed : option ManagedRules).
Let P := resource_policy input managed.

(** The sets the graph is made of. *)
Definition personal : Prop := is_Some (ri_personalWorkspaceId input).
Definition granted (id : string) (grant : ResourceRule) : Prop :=
  ∃ rules i, managed = Some rules ∧ mr_grants rules !! i = Some grant ∧ id = allocation i.

Definition user_attributes (id : string) : Prop :=
  (id = r_subject ∨ id = baseline ∨ id = privateOwner ∨ id = r_administrator) ∨
  (personal ∧ (id = personalOwner ∨ id = personalAdministrator)) ∨ ∃ grant, granted id grant.

Definition object_class (oa pc : string) : Prop :=
  (oa = r_objects ∧ pc = baselineClass) ∨
  (personal ∧ oa = personalObjects ∧ pc = personalClass) ∨
  (is_Some managed ∧ oa = resourceObjects ∧ pc = resourceClass).

Definition user_class (ua pc : string) : Prop :=
  ((ua = r_subject ∨ ua = baseline ∨ ua = privateOwner ∨ ua = r_administrator) ∧ pc = baselineClass) ∨
  (personal ∧ (ua = r_subject ∨ ua = personalOwner ∨ ua = personalAdministrator) ∧ pc = personalClass) ∨
  ((∃ grant, granted ua grant) ∧ pc = resourceClass).

Definition member_of (ua : string) : Prop :=
  ua = r_subject ∨
  (ri_visibility input = VisWorkspace ∧ ua = baseline) ∨
  (owns_private input = true ∧ ua = privateOwner) ∨
  (ri_administrator input = true ∧ ua = r_administrator) ∨
  (ri_personalWorkspaceId input = Some (ri_workspaceId input) ∧ ua = personalOwner) ∨
  (personal ∧ ri_administrator input = true ∧ ua = personalAdministrator) ∨
  ∃ grant, granted ua grant ∧ matches (rr_subject grant) (ri_actor input) = true.

Lemma edge_inj a b c d : edge a b = edge c d ↔ a = c ∧ b = d.
Proof. apply PolicyAssignment_inj. Qed.

Lemma elem_of_grant_assignments grants a b : edge a b ∈ grant_assignments input grants ↔
  ∃ i grant, grants !! i = Some grant ∧
    (a = allocation i ∧ b = resourceClass ∨
     matches (rr_subject grant) (ri_actor input) = true ∧ a = r_user input ∧ b = allocation i).
Proof.
  unfold grant_assignments. rewrite list_elem_of_join. setoid_rewrite elem_of_lookup_imap.
  split.
  - intros (l & Hin & i & grant & -> & Hg). exists i, grant. split; [done|].
    rewrite elem_of_cons, elem_of_when, list_elem_of_singleton, !edge_inj in Hin. tauto.
  - intros (i & grant & Hg & H). eexists. split; [|exists i, grant; by split].
    rewrite elem_of_cons, elem_of_when, list_elem_of_singleton, !edge_inj. tauto.
Qed.

Lemma audience_assigned a b : assigned (audience_policy input) a b ↔
  (a = r_user input ∧ (b = r_subject ∨ (ri_visibility input = VisWorkspace ∧ b = baseline) ∨
    (owns_private input = true ∧ b = privateOwner) ∨
    (ri_administrator input = true ∧ b = r_administrator))) ∨
  (a = r_target input ∧ b = r_objects) ∨
  ((a = r_subject ∨ a = baseline ∨ a = privateOwner ∨ a = r_administrator ∨ a = r_objects) ∧
   b = baselineClass).
Proof.
  unfold assigned. fold (edge a b). cbn [assignments audience_policy].
  rewrite !elem_of_app, !elem_of_when, !elem_of_cons, !elem_of_nil, !edge_inj.
  assert (Hv : (match ri_visibility input with VisWorkspace => true | VisPrivate => false end = true)
    ↔ ri_visibility input = VisWorkspace) by (by destruct (ri_visibility input)).
  rewrite Hv. tauto.
Qed.

Lemma personal_assigned p a b : assigned (with_personal input p) a b ↔ assigned p a b ∨
  (personal ∧ ((a = r_target input ∧ b = personalObjects) ∨
    ((a = r_subject ∨ a = personalObjects ∨ a = personalOwner ∨ a = personalAdministrator) ∧
      b = personalClass) ∨
    (a = r_user input ∧
      ((ri_personalWorkspaceId input = Some (ri_workspaceId input) ∧ b = personalOwner) ∨
       (ri_administrator input = true ∧ b = personalAdministrator))))).
Proof.
  unfold assigned, with_personal, personal. fold (edge a b).
  destruct (ri_personalWorkspaceId input) as [pw|]; [|rewrite is_Some_alt; tauto].
  cbn [assignments]. rewrite !elem_of_app, !elem_of_when, !elem_of_cons, !elem_of_nil, !edge_inj,
    bool_decide_eq_true.
  assert (Hs : is_Some (Some pw)) by eauto.
  assert (Hw : ri_workspaceId input = pw ↔ Some pw = Some (ri_workspaceId input)) by naive_solver.
  rewrite Hw. tauto.
Qed.

Lemma managed_assigned p a b : assigned (with_managed input p managed) a b ↔ assigned p a b ∨
  (is_Some managed ∧ ((a = r_target input ∧ b = resourceObjects) ∨
    (a = resourceObjects ∧ b = resourceClass))) ∨
  (∃ grant, granted a grant ∧ b = resourceClass) ∨
  (∃ grant, granted b grant ∧ a = r_user input ∧ matches (rr_subject grant) (ri_actor input) = true).
Proof.
  unfold assigned, with_managed, granted. fold (edge a b). destruct managed as [rules|].
  - cbn [assignments]. rewrite !elem_of_app, elem_of_grant_assignments, !elem_of_cons, !elem_of_nil, !edge_inj.
    assert (Hs : is_Some (Some rules)) by eauto. naive_solver.
  - rewrite is_Some_alt. naive_solver.
Qed.

Lemma object_attributes oa : (∃ pc, object_class oa pc) ↔
  oa = r_objects ∨ (personal ∧ oa = personalObjects) ∨ (is_Some managed ∧ oa = resourceObjects).
Proof. unfold object_class. naive_solver. Qed.

Lemma resource_assignments a b : assigned P a b ↔
  (a = r_user input ∧ member_of b) ∨
  (a = r_target input ∧ ∃ pc, object_class b pc) ∨ object_class a b ∨ user_class a b.
Proof.
  unfold P, resource_policy. rewrite managed_assigned, personal_assigned, audience_assigned.
  assert (Hg : (∃ grant, granted a grant ∧ b = resourceClass) ↔
    (∃ grant, granted a grant) ∧ b = resourceClass) by naive_solver.
  assert (Hu : (∃ grant, granted b grant ∧ a = r_user input ∧
      matches (rr_subject grant) (ri_actor input) = true) ↔
    a = r_user input ∧ ∃ grant, granted b grant ∧ matches (rr_subject grant) (ri_actor input) = true)
    by naive_solver.
  assert (Hp : ri_personalWorkspaceId input = Some (ri_workspaceId input) → personal)
    by (unfold personal; intros ->; eauto).
  rewrite Hg, Hu, object_attributes. unfold member_of, object_class, user_class. tauto.
Qed.

Lemma element_inj k i k' i' : element k i = element k' i' ↔ i = i' ∧ k = k'.
Proof. apply PolicyElement_inj. Qed.

Lemma elem_of_grant_elements grants id k : element k id ∈ grant_elements grants ↔
  (∃ i grant, grants !! i = Some grant ∧ id = allocation i) ∧ k = KUserAttribute.
Proof.
  unfold grant_elements. rewrite elem_of_lookup_imap. setoid_rewrite element_inj. naive_solver.
Qed.

Definition classes (pc : string) : Prop :=
  pc = baselineClass ∨ (personal ∧ pc = personalClass) ∨ (is_Some managed ∧ pc = resourceClass).

Lemma resource_elements id k : declared P id k ↔
  (id = r_user input ∧ k = KUser) ∨ (id = r_target input ∧ k = KObject) ∨
  (user_attributes id ∧ k = KUserAttribute) ∨
  ((∃ pc, object_class id pc) ∧ k = KObjectAttribute) ∨ (classes id ∧ k = KPolicyClass).
Proof.
  rewrite object_attributes. unfold declared, P, resource_policy, with_managed, with_personal,
    user_attributes, classes, granted, personal. fold (element k id).
  destruct (ri_personalWorkspaceId input) as [pw|], managed as [rules|];
    cbn [elements audience_policy];
    rewrite ?elem_of_app, ?elem_of_grant_elements, ?elem_of_cons, ?elem_of_nil, ?element_inj, ?is_Some_alt.
  - assert (Hg : (∃ i grant, mr_grants rules !! i = Some grant ∧ id = allocation i) ↔
      ∃ grant rules0 i, Some rules = Some rules0 ∧ mr_grants rules0 !! i = Some grant ∧ id = allocation i)
      by naive_solver.
    rewrite Hg. tauto.
  - assert (Hg : (∃ (grant : ResourceRule) rules0 i, None = Some rules0 ∧
      mr_grants rules0 !! i = Some grant ∧ id = allocation i) ↔ False) by naive_solver.
    rewrite Hg. tauto.
  - assert (Hg : (∃ i grant, mr_grants rules !! i = Some grant ∧ id = allocation i) ↔
      ∃ grant rules0 i, Some rules = Some rules0 ∧ mr_grants rules0 !! i = Some grant ∧ id = allocation i)
      by naive_solver.
    rewrite Hg. tauto.
  - assert (Hg : (∃ (grant : ResourceRule) rules0 i, None = Some rules0 ∧
      mr_grants rules0 !! i = Some grant ∧ id = allocation i) ↔ False) by naive_solver.
    rewrite Hg. tauto.
Qed.

Lemma allocation_inj i j : allocation i = allocation j → i = j.
Proof. unfold allocation. intros H. apply (inj (String.append _)) in H. by apply (inj pretty) in H. Qed.

Lemma grant_ids grants : el_id <$> grant_elements grants = imap (λ i _, allocation i) grants.
Proof. unfold grant_elements. rewrite fmap_imap. done. Qed.

Lemma NoDup_allocations (grants : list ResourceRule) : NoDup (imap (λ i _, allocation i) grants).
Proof.
  apply NoDup_alt. intros i j x. rewrite !list_lookup_imap, !fmap_Some.
  intros (g & _ & ->) (h & _ & He). by apply allocation_inj.
Qed.

Lemma resource_ids : NoDup (el_id <$> elements P).
Proof.
  unfold P, resource_policy, with_managed, with_personal.
  destruct (ri_personalWorkspaceId input) as [pw|], managed as [rules|]; cbn [elements audience_policy];
    rewrite ?fmap_app, ?grant_ids; cbn [fmap list_fmap el_id element];
    rewrite ?NoDup_app; split_and?; try apply NoDup_allocations;
    try (repeat constructor; rewrite ?elem_of_cons, ?elem_of_nil; intros H; destruct_or?; discriminate).
  all: intros x Hx; rewrite ?elem_of_app, ?elem_of_cons, ?elem_of_nil in Hx;
    rewrite ?elem_of_app, ?elem_of_cons, ?elem_of_nil, ?elem_of_lookup_imap; intros Hy;
    destruct_or!; subst; destruct_or?; try discriminate; naive_solver.
Qed.

Lemma resource_associations a : a ∈ associations P ↔
  (∃ ua, (ua = baseline ∨ ua = privateOwner ∨ ua = r_administrator) ∧
    a = audience_association r_objects ua) ∨
  (personal ∧ ∃ ua, (ua = personalOwner ∨ ua = personalAdministrator) ∧
    a = audience_association personalObjects ua) ∨
  ∃ rules i grant, managed = Some rules ∧ mr_grants rules !! i = Some grant ∧
    a = {| assoc_id := "assoc:resource-allocation:" +:+ pretty i;
           assoc_userAttribute := allocation i;
           assoc_accessRights := rights (rr_operations grant);
           assoc_targetAttribute := resourceObjects |}.
Proof.
  unfold P, resource_policy, with_managed, with_personal, personal.
  destruct (ri_personalWorkspaceId input) as [pw|], managed as [rules|]; cbn [associations audience_policy];
    unfold grant_associations;
    rewrite ?elem_of_app, ?elem_of_lookup_imap, ?is_Some_alt; cbn [fmap list_fmap];
    rewrite ?elem_of_cons, ?elem_of_nil; naive_solver.
Qed.

(** The hypothesis on the rules that an admitted document guarantees. *)
Definition rules_ok : Prop := ∀ rules rule, managed = Some rules →
  rule ∈ mr_grants rules ++ mr_prohibitions rules → rr_operations rule ≠ [] ∧ registered (rr_operations rule).
Context (Hok : rules_ok).

Lemma elem_of_actor_prohibitions p n rules : p ∈ actor_prohibitions input n rules →
  ∃ rule, rule ∈ rules ∧ proh_accessRights p = rights (rr_operations rule) ∧
    proh_range p = {| range_type := Disjunctive; range_include := Some [resourceObjects];
                      range_exclude := None |} ∧
    ((rr_subject rule = SubjUser (actor_user (ri_actor input)) ∧ proh_kind p = PKUser ∧
      proh_subject p = r_user input) ∨
     (∃ u a q, rr_subject rule = SubjAgent u a ∧ ri_actor input = ActorAgent u a q ∧
      proh_kind p = PKProcess ∧ proh_subject p = q)).
Proof.
  revert n. induction rules as [|rule rules IH]; intros n; cbn [actor_prohibitions].
  { by intros ?%elem_of_nil. }
  rewrite elem_of_app. intros [H|H].
  2:{ destruct (IH _ H) as (r & ? & ?). exists r. split; [by right|done]. }
  exists rule. split; [left|]. destruct (rr_subject rule) as [u|u a] eqn:Hs; cbn [negb andb] in H.
  - case_bool_decide as Hu; cbn in H.
    + apply list_elem_of_singleton in H as ->. cbn. subst. auto 10.
    + destruct (ri_actor input) as [v|v b q] eqn:Ha; cbn in H, Hu; [|by apply elem_of_nil in H].
      rewrite bool_decide_eq_false_2 in H by done. by apply elem_of_nil in H.
  - destruct (ri_actor input) as [v|v b q] eqn:Ha; cbn in H; [by apply elem_of_nil in H|].
    destruct (_ && _) eqn:Hm; cbn in H; [|by apply elem_of_nil in H].
    apply list_elem_of_singleton in H as ->. bool_to_prop. subst. cbn. eauto 15.
Qed.

Lemma prohibitions_managed p : p ∈ default [] (prohibitions P) ↔
  ∃ rules, managed = Some rules ∧ p ∈ actor_prohibitions input 0 (mr_prohibitions rules).
Proof.
  unfold P, resource_policy, with_managed, with_personal. destruct managed as [rules|].
  - split; [intros H; by exists rules|]. by intros (r & [= <-] & H).
  - destruct (ri_personalWorkspaceId input); cbn; rewrite elem_of_nil; naive_solver.
Qed.

Lemma member_of_attribute ua : member_of ua → user_attributes ua.
Proof.
  unfold member_of, user_attributes, personal.
  intros [?|[[_ ?]|[[_ ?]|[[_ ?]|[[-> ?]|[(? & _ & ?)|(grant & ? & _)]]]]]]; eauto 7.
Qed.

Lemma object_class_class oa pc : object_class oa pc → classes pc.
Proof. unfold object_class, classes. tauto. Qed.

Lemma user_class_class ua pc : user_class ua pc → user_attributes ua ∧ classes pc.
Proof.
  unfold user_class, user_attributes, classes.
  intros [?|[?|[(grant & Hg) ?]]]; [tauto|tauto|]. split; [by eauto|]. right; right.
  destruct Hg as (rules & _ & -> & _). eauto.
Qed.

Lemma resource_layered : layered_policy P.
Proof.
  assert (Hop : operations P = operations (audience_policy input)).
  { unfold P, resource_policy, with_managed, with_personal. destruct managed, (ri_personalWorkspaceId input); done. }
  assert (Hpu : processUsers P = processUsers (audience_policy input)).
  { unfold P, resource_policy, with_managed, with_personal. destruct managed, (ri_personalWorkspaceId input); done. }
  split.
  - apply resource_ids.
  - intros id k H%resource_elements. rewrite object_attributes in H.
    unfold user_attributes, classes, granted in H. destruct_or!; destruct_and?; destruct_or?; destruct_and?; subst;
      try discriminate; naive_solver.
  - intros a b H%resource_assignments. unfold layered_edge. rewrite !resource_elements.
    destruct H as [(-> & H)|[(-> & H)|[H|H]]].
    + left. split; [by left|]. do 2 right. left. split; [|done]. by apply member_of_attribute.
    + right; left. split; [right; by left|]. do 3 right. left. by auto.
    + right; right. split; [right; do 3 right; left; by eauto|]. do 4 right. split; [|done]. by eapply object_class_class.
    + right; right. apply user_class_class in H as [? ?]. split; [left; do 2 right; by left|]. by do 4 right.
  - intros id k H Hk. apply resource_elements in H. setoid_rewrite resource_assignments.
    destruct H as [(-> & _)|[(-> & _)|H]]; [exists r_subject|exists r_objects|].
    + left. split; [done|]. by left.
    + right; left. split; [done|]. exists baselineClass. by left.
    + destruct H as [(_ & ->)|[(_ & ->)|(_ & ->)]]; by destruct Hk.
  - intros id k H Hk. apply resource_elements in H. setoid_rewrite resource_assignments.
    destruct H as [(_ & ->)|[(_ & ->)|[(H & _)|[([pc Hpc] & _)|(_ & ->)]]]]; try by destruct Hk.
    + unfold user_attributes, user_class in *. destruct H as [?|[[? ?]|?]].
      * exists baselineClass. do 3 right. by left.
      * exists personalClass. do 3 right. right; left. tauto.
      * exists resourceClass. do 3 right. by do 2 right.
    + exists pc. auto.
  - rewrite Hop. intros o (x & -> & _)%list_elem_of_fmap. done.
  - intros a Ha%resource_associations. rewrite !resource_elements. unfold user_attributes, object_class.
    destruct Ha as [(ua & Hua & ->)|[(Hp & ua & Hua & ->)|(rules & i & grant & Hm & Hg & ->)]];
      cbn [assoc_userAttribute assoc_targetAttribute assoc_accessRights audience_association].
    + split; [right; right; left; tauto|]. split; [|by vm_compute]. right; right; right; left. eauto 7.
    + split; [right; right; left; tauto|]. split; [|by vm_compute]. right; right; right; left. eauto 9.
    + split; [|split].
      * right; right; left. split; [|done]. right; right. exists grant, rules, i. done.
      * right; right; right; left. split; [|done]. exists resourceClass. right; right. subst. eauto.
      * apply rights_nonempty, (Hok rules grant Hm), elem_of_app. left. by eapply list_elem_of_lookup_2.
  - rewrite Hpu. cbn [processUsers audience_policy]. intros pu Hpu'.
    destruct (ri_actor input); cbn in Hpu'; [by apply elem_of_nil in Hpu'|].
    apply list_elem_of_singleton in Hpu' as ->. apply resource_elements. by left.
  - intros p Hp. apply prohibitions_managed in Hp as (rules & Hm & Hp).
    destruct (elem_of_actor_prohibitions _ _ _ Hp) as (rule & Hin & Hr & Hrange & Hsub).
    unfold wf_prohibition, range_includes, range_excludes. rewrite Hr, Hrange. cbn. split; [|split; [|split; [done|]]].
    + apply rights_nonempty, (Hok rules rule Hm), elem_of_app. by right.
    + destruct Hsub as [(_ & -> & ->)|(u & a & q & _ & Ha & -> & ->)].
      * apply resource_elements. by left.
      * rewrite Hpu. cbn [processUsers audience_policy]. rewrite Ha. cbn. eexists.
        split; [by left|done].
    + intros x ->%list_elem_of_singleton. right; left. apply resource_elements.
      right; right; right; left. split; [|done]. exists resourceClass. right; right.
      rewrite Hm. eauto.
Qed.

Definition in_audience : Prop :=
  ri_visibility input = VisWorkspace ∨
  (ri_visibility input = VisPrivate ∧
    ri_privateOwnerUserId input = Some (actor_user (ri_actor input))) ∨
  ri_administrator input = true.

Definition in_personal_audience : Prop :=
  is_Some (ri_personalWorkspaceId input) → ri_personalWorkspaceId input = Some (ri_workspaceId input) ∨ ri_administrator input = true.

Lemma owns_private_spec : owns_private input = true ↔
  ri_visibility input = VisPrivate ∧ ri_privateOwnerUserId input = Some (actor_user (ri_actor input)).
Proof. unfold owns_private. destruct (ri_visibility input); rewrite ?bool_decide_eq_true; naive_solver. Qed.

(** Who is assigned to a user attribute, and which class an object attribute has. *)
Lemma user_edges b : assigned P (r_user input) b ↔ member_of b.
Proof.
  rewrite resource_assignments. split; [|by auto]. intros [(_ & H)|[(He & _)|[H|H]]]; [done|done| |]; exfalso.
  - unfold object_class in H. naive_solver.
  - unfold user_class, granted in H. naive_solver.
Qed.

Lemma target_edges b : assigned P (r_target input) b ↔ ∃ pc, object_class b pc.
Proof.
  rewrite resource_assignments. split; [|by auto]. intros [(He & _)|[(_ & H)|[H|H]]]; [done|done| |]; exfalso.
  - unfold object_class in H. naive_solver.
  - unfold user_class, granted in H. naive_solver.
Qed.

Lemma object_edges oa pc pc' : object_class oa pc → assigned P oa pc' ↔ pc' = pc.
Proof.
  intros Ho. rewrite resource_assignments. split; [|intros ->; by auto].
  intros [(-> & _)|[(-> & _)|[H|H]]]; unfold object_class, user_class, granted in *;
    [exfalso; naive_solver|exfalso; naive_solver| |exfalso; naive_solver].
  destruct Ho as [(-> & ->)|[(_ & -> & ->)|(_ & -> & ->)]], H as [(? & ->)|[(_ & ? & ->)|(_ & ? & ->)]]; done.
Qed.

Lemma resource_classes ar :
  granted_in_every_class P (r_user input) ar (r_target input) ↔
  (in_audience ∧ ar ∈ rights WORKSPACE_MEMBER_OPERATIONS) ∧
  (personal → in_personal_audience ∧ ar ∈ rights WORKSPACE_MEMBER_OPERATIONS) ∧
  (∀ rules, managed = Some rules → ∃ grant, grant ∈ mr_grants rules ∧
    matches (rr_subject grant) (ri_actor input) = true ∧ ar ∈ rights (rr_operations grant)).
Proof.
  assert (Hsub : ∀ x, x = baseline ∨ x = privateOwner ∨ x = r_administrator → member_of x → in_audience).
  { unfold member_of, in_audience, granted. intros x Hx Hm. rewrite owns_private_spec in Hm.
    destruct Hm as [->|[?|[?|[?|[[_ ->]|[(_ & _ & ->)|(g & (r & j & _ & _ & ->) & _)]]]]]]; try tauto;
      by destruct Hx as [|[|]]. }
  assert (Hper : ∀ x, x = personalOwner ∨ x = personalAdministrator → member_of x →
    ri_personalWorkspaceId input = Some (ri_workspaceId input) ∨ ri_administrator input = true).
  { unfold member_of, granted. intros x Hx Hm.
    destruct Hm as [->|[[_ ->]|[[_ ->]|[[? _]|[?|[?|(g & (r & j & _ & _ & ->) & _)]]]]]]; try tauto;
      by destruct Hx. }
  unfold granted_in_every_class. split.
  - intros H. split; [|split].
    + destruct (H r_objects baselineClass) as (a & Ha & H1 & _ & H3 & Har);
        [apply target_edges; exists baselineClass; by left|apply resource_assignments; do 2 right; left; by left|].
      apply user_edges in H1.
      apply resource_associations in Ha as [(ua & Hua & ->)|[(Hp & ua & Hua & ->)|(rules & i & grant & Hm & Hg & ->)]];
        cbn [assoc_userAttribute assoc_targetAttribute assoc_accessRights audience_association] in *.
      * eauto.
      * rewrite (object_edges personalObjects personalClass) in H3; [done|right; left; by auto].
      * rewrite (object_edges resourceObjects resourceClass) in H3; [done|right; right; rewrite Hm; by eauto].
    + intros Hp. destruct (H personalObjects personalClass) as (a & Ha & H1 & _ & H3 & Har);
        [apply target_edges; exists personalClass; right; left; by auto
        |apply resource_assignments; do 2 right; left; right; left; by auto|].
      apply user_edges in H1.
      apply resource_associations in Ha as [(ua & Hua & ->)|[(_ & ua & Hua & ->)|(rules & i & grant & Hm & Hg & ->)]];
        cbn [assoc_userAttribute assoc_targetAttribute assoc_accessRights audience_association] in *.
      * rewrite (object_edges r_objects baselineClass) in H3; [done|by left].
      * split; [intros _; eauto|done].
      * rewrite (object_edges resourceObjects resourceClass) in H3; [done|right; right; rewrite Hm; by eauto].
    + intros rules Hm. destruct (H resourceObjects resourceClass) as (a & Ha & H1 & _ & H3 & Har);
        [apply target_edges; exists resourceClass; right; right; rewrite Hm; by eauto
        |apply resource_assignments; do 2 right; left; right; right; rewrite Hm; by eauto|].
      apply user_edges in H1.
      apply resource_associations in Ha as [(ua & Hua & ->)|[(Hp & ua & Hua & ->)|(rules' & i & grant & Hm' & Hg & ->)]];
        cbn [assoc_userAttribute assoc_targetAttribute assoc_accessRights audience_association] in *.
      * rewrite (object_edges r_objects baselineClass) in H3; [done|by left].
      * rewrite (object_edges personalObjects personalClass) in H3; [done|right; left; by auto].
      * rewrite Hm in Hm'. injection Hm' as <-. exists grant. split; [by eapply list_elem_of_lookup_2|].
        split; [|done]. unfold member_of, granted in H1.
        destruct H1 as [?|[[_ ?]|[[_ ?]|[[_ ?]|[[_ ?]|[(_ & _ & ?)|(g & (r & j & Hr & Hj & He) & Hmt)]]]]]]; try done.
        apply allocation_inj in He as <-. rewrite Hm in Hr. injection Hr as <-. congruence.
  - intros (Haud & Hpers & Hman) oa pc [pc' Ho]%target_edges Hpc. rewrite (object_edges oa pc') in Hpc by done. subst pc.
    destruct Ho as [(-> & ->)|[(Hp & -> & ->)|([rules Hm] & -> & ->)]].
    + destruct Haud as [Haud Har].
      assert (∃ ua, (ua = baseline ∨ ua = privateOwner ∨ ua = r_administrator) ∧ member_of ua) as (ua & Hua & Hm).
      { pose proof owns_private_spec. unfold in_audience in Haud. unfold member_of. 
        destruct Haud as [?|[?|?]]; [exists baseline|exists privateOwner|exists r_administrator]; tauto. }
      exists (audience_association r_objects ua). split; [apply resource_associations; left; eauto|].
      cbn [assoc_userAttribute assoc_targetAttribute assoc_accessRights audience_association].
      rewrite user_edges, target_edges. split; [done|]. split; [exists baselineClass; by left|]. split; [|done].
      apply resource_assignments. do 2 right. left. by left.
    + destruct (Hpers Hp) as [Hpa Har].
      assert (∃ ua, (ua = personalOwner ∨ ua = personalAdministrator) ∧ member_of ua) as (ua & Hua & Hm).
      { unfold member_of. destruct (Hpa Hp) as [?|?]; [exists personalOwner|exists personalAdministrator]; tauto. }
      exists (audience_association personalObjects ua). split; [apply resource_associations; right; left; eauto|].
      cbn [assoc_userAttribute assoc_targetAttribute assoc_accessRights audience_association].
      rewrite user_edges, target_edges. split; [done|]. split; [exists personalClass; right; left; by auto|]. split; [|done].
      apply resource_assignments. do 2 right. left. right; left. by auto.
    + destruct (Hman rules Hm) as (grant & [i Hi]%list_elem_of_lookup & Hmt & Har).
      eexists. split; [apply resource_associations; right; right; by exists rules, i, grant|].
      cbn [assoc_userAttribute assoc_targetAttribute assoc_accessRights audience_association].
      rewrite user_edges, target_edges. split; [|split; [exists resourceClass; right; right; rewrite Hm; by eauto|]; split; [|done]].
      * do 6 right. exists grant. split; [by exists rules, i|done].
      * apply resource_assignments. do 2 right. left. right; right. rewrite Hm. eauto.
Qed.

(** The prohibitions that restrict the request. *)
Definition concerns (rule : ResourceRule) : Prop :=
  rr_subject rule = SubjUser (actor_user (ri_actor input)) ∨
  matches (rr_subject rule) (ri_actor input) = true.

Lemma concerning_prohibition n rules rule : rule ∈ rules → concerns rule →
  ∃ p, p ∈ actor_prohibitions input n rules ∧ proh_accessRights p = rights (rr_operations rule).
Proof.
  intros Hin Hc. revert n. induction rules as [|rule' rules IH]; intros n; cbn [actor_prohibitions];
    [by apply elem_of_nil in Hin|].
  apply elem_of_cons in Hin as [<-|Hin].
  2:{ destruct (IH Hin (S n)) as (p & ? & ?). exists p. rewrite elem_of_app. auto. }
  destruct (negb _ && negb _) eqn:E.
  { exfalso. apply andb_true_iff in E as [E1%negb_true_iff E2%negb_true_iff].
    destruct Hc as [Hc|Hc]; [|congruence]. rewrite Hc in E1. by rewrite bool_decide_eq_true_2 in E1. }
  eexists. rewrite elem_of_app. split; [left; by left|done].
Qed.

Lemma resource_restricted ar :
  (∃ p, p ∈ default [] (prohibitions P) ∧
    restricts P p (r_user input) (req_process (resource_request input)) [ar] (r_target input)) ↔
  ∃ rules rule, managed = Some rules ∧ rule ∈ mr_prohibitions rules ∧ concerns rule ∧
    ar ∈ rights (rr_operations rule).
Proof.
  setoid_rewrite prohibitions_managed. unfold restricts.
  assert (Hw : is_Some managed → within P (r_target input) resourceObjects).
  { intros Hm. apply (leaf_within_attribute P resource_layered _ _ KObject KObjectAttribute).
    - apply resource_elements. auto.
    - auto.
    - apply resource_elements. do 3 right. left. split; [|done]. exists resourceClass. right; right. auto.
    - auto.
    - apply target_edges. exists resourceClass. right; right. auto. }
  split.
  - intros (p & (rules & Hm & Hp) & Hs & (x & ->%list_elem_of_singleton & Hx) & _).
    destruct (elem_of_actor_prohibitions _ _ _ Hp) as (rule & Hin & Hr & _ & Hsub).
    exists rules, rule. rewrite Hr in Hx. split_and!; try done. unfold concerns.
    destruct Hsub as [(? & _)|(u & a & q & -> & -> & _)]; [by left|right]. cbn.
    by rewrite !bool_decide_eq_true_2.
  - intros (rules & rule & Hm & Hin & Hc & Har).
    destruct (concerning_prohibition 0 _ rule Hin Hc) as (p & Hp & Hrights).
    exists p. split; [eauto|].
    destruct (elem_of_actor_prohibitions _ _ _ Hp) as (rule' & _ & _ & Hrange & Hsub). split; [|split].
    + destruct Hsub as [(_ & -> & ->)|(u & a & q & _ & Ha & -> & ->)]; [done|]. cbn. by rewrite Ha.
    + exists ar. rewrite Hrights. split; [by apply list_elem_of_singleton|done].
    + unfold in_range, range_includes. rewrite Hrange. cbn. left. exists resourceObjects.
      split; [by apply list_elem_of_singleton|]. apply Hw. by rewrite Hm.
Qed.

Lemma resource_allow_spec :
  effect (evaluateAccess P (resource_request input)) = Allow ↔
  ri_operation input ∈ WORKSPACE_MEMBER_OPERATIONS ∧ in_audience ∧ in_personal_audience ∧
  ∀ rules, managed = Some rules →
    (∃ grant, grant ∈ mr_grants rules ∧ matches (rr_subject grant) (ri_actor input) = true ∧
      ri_operation input ∈ rr_operations grant) ∧
    (∀ rule, rule ∈ mr_prohibitions rules → concerns rule → ri_operation input ∉ rr_operations rule).
Proof.
  assert (Hop : operations P = operations (audience_policy input)).
  { unfold P, resource_policy, with_managed, with_personal. destruct managed, (ri_personalWorkspaceId input); done. }
  assert (Hpu : processUsers P = processUsers (audience_policy input)).
  { unfold P, resource_policy, with_managed, with_personal. destruct managed, (ri_personalWorkspaceId input); done. }
  assert (Hr : runs_as P (resource_request input) (r_user input)).
  { split; [apply resource_elements; by left|]. cbn. split; [done|]. unfold mapped_user. cbn.
    rewrite Hpu. cbn. destruct (ri_actor input) as [u|u a q] eqn:Ha; [by left|]. cbn.
    destruct (truthy q); [|by left]. cbn. rewrite bool_decide_eq_true_2 by done. by right. }
  rewrite (layered_allow P resource_layered _ _ Hr) by (apply resource_elements; auto).
  rewrite Hop. cbn [operations audience_policy req_operation resource_request]. rewrite find_operation.
  cbn [req_target resource_request]. set (op := ri_operation input).
  assert (Hone : op ∈ WORKSPACE_MEMBER_OPERATIONS → op ∈ product_operations ∧
    access_right op ∈ rights WORKSPACE_MEMBER_OPERATIONS).
  { intros Hin. pose proof (member_registered _ Hin). split; [done|].
    by apply elem_of_rights; [|apply member_registered|]. }
  assert (Hrule : op ∈ product_operations → ∀ rules rule, managed = Some rules →
    rule ∈ mr_grants rules ++ mr_prohibitions rules →
    access_right op ∈ rights (rr_operations rule) ↔ op ∈ rr_operations rule).
  { intros Hin rules rule Hm Hrule. apply elem_of_rights; [done|]. by eapply Hok. }
  split.
  - intros (o & Ho & Hg & Hno). case_bool_decide as Hin; [|done]. injection Ho as <-.
    destruct (Hone Hin) as [Hreg _].
    destruct (proj1 (resource_classes _) (Hg _ ltac:(by apply list_elem_of_singleton))) as ([? _] & Hper & Hman).
    split; [done|]. split; [done|]. split; [intros Hp; by apply Hper|].
    intros rules Hm. split.
    + destruct (Hman rules Hm) as (grant & ? & ? & Har). exists grant. split_and!; try done.
      eapply Hrule; eauto. apply elem_of_app. by left.
    + intros rule Hrin Hc Hor. destruct (proj2 (resource_restricted (access_right op))) as (p & Hp & Hres).
      { exists rules, rule. split_and!; try done. eapply Hrule; eauto. apply elem_of_app. by right. }
      by apply (Hno p Hp).
  - intros (Hin & Haud & Hper & Hman). destruct (Hone Hin) as [Hreg Hmem].
    rewrite bool_decide_eq_true_2 by done. eexists. split; [reflexivity|]. cbn [op_accessRights]. split.
    + intros ar ->%list_elem_of_singleton. apply resource_classes. split_and!; [done|done|auto|].
      intros rules Hm. destruct (Hman rules Hm) as [(grant & Hgin & ? & ?) _]. exists grant.
      split_and!; try done. eapply Hrule; eauto. apply elem_of_app. by left.
    + intros p Hp Hres. destruct (proj1 (resource_restricted (access_right op))) as (rules & rule & Hm & Hrin & Hc & Har);
        [eauto|]. destruct (Hman rules Hm) as [_ Hnone]. apply (Hnone rule Hrin Hc).
      eapply Hrule; eauto. apply elem_of_app. by right.
Qed.
End Graph.

(** ** Admitted documents *)

Lemma check_statements_permissions statements bs ps r p :
  check_statements statements bs ps = Some r → StPermission p ∈ statements →
  supported_permission p = true.
Proof.
  revert bs ps. induction statements as [|s rest IH]; intros bs ps H Hin; [by apply elem_of_nil in Hin|].
  apply elem_of_cons in Hin as [<-|Hin]; cbn in H.
  - destruct (constrained_target _ _ _ _); [|done]. by destruct (supported_permission p).
  - destruct s as [q| | |b|]; try done.
    + destruct (constrained_target _ _ _ _); [|done]. destruct (supported_permission q); [|done]. eauto.
    + destruct (constrained_target _ _ _ _); [|done]. destruct (bool_decide (bn_state b = _)); [|eauto].
      destruct (bool_decide _); [done|eauto].
Qed.

Lemma parsed_permission w statements p : is_ok (parseWorkspacePolicy w statements) = true →
  StPermission p ∈ statements →
  sc_actions (pm_scope p) ≠ [] ∧ registered (sc_actions (pm_scope p)) ∧
  (∃ u, sc_subjects (pm_scope p) = [HumanPrincipal u]) ∧
  (pm_grant p = GrantOrdinary ∨ ∃ a, pm_grant p = GrantAgentProcess a).
Proof.
  unfold parseWorkspacePolicy. destruct (WorkspacePolicyDocumentSchema statements) eqn:Hd; [|done].
  intros _ Hin. unfold WorkspacePolicyDocumentSchema, shared_schema_ok in Hd. rewrite !andb_true_iff in Hd.
  destruct Hd as [[_ Ha] Hc]. rewrite forallb_elem in Ha. specialize (Ha _ Hin). cbn in Ha. bool_to_prop.
  destruct (check_statements statements [] []) as [r|] eqn:Hr; [|done].
  pose proof (check_statements_permissions _ _ _ _ _ Hr Hin) as Hs. unfold supported_permission in Hs.
  rewrite !andb_true_iff in Hs. destruct Hs as [[[Hg _] Hsub] Hact].
  split; [done|]. split; [exact (listed_by_evaluation _ _ Hact)|]. split.
  - destruct (sc_subjects (pm_scope p)) as [|[u|] [|]]; eauto; done.
  - destruct (pm_grant p); eauto; done.
Qed.

(** The recipient of a statement, on the statement itself. *)
Definition addressed_to (p : PolicyPermission) (actor : ResourcePolicyActor) : Prop :=
  sc_subjects (pm_scope p) = [HumanPrincipal (actor_user actor)] ∧
  pm_grant p = match actor with ActorUser _ => GrantOrdinary | ActorAgent _ a _ => GrantAgentProcess a end.

(** A restriction of a user follows that user's agents. *)
Definition restrains (p : PolicyPermission) (actor : ResourcePolicyActor) : Prop :=
  sc_subjects (pm_scope p) = [HumanPrincipal (actor_user actor)] ∧
  (pm_grant p = GrantOrdinary ∨ addressed_to p actor).

(** Active statements of the document on the Thread. *)
Definition in_force (input : ResourceAccessInput) (s : PolicyStatement) : Prop :=
  s ∈ ri_policy input ∧ matching (ri_threadId input) s = true.

Section Rules.
Context (w : string) (statements : list PolicyStatement) (Hparse : is_ok (parseWorkspacePolicy w statements) = true).

Lemma rules_with_spec eff l : (∀ s, s ∈ l → s ∈ statements) →
  ∃ rules, rules_with eff l = Ok rules ∧
    ∀ rule, rule ∈ rules ↔ ∃ p, StPermission p ∈ l ∧ pm_effect p = eff ∧
      workspacePolicySubject p = Ok (rr_subject rule) ∧ rr_operations rule = sc_actions (pm_scope p).
Proof.
  induction l as [|s l IH]; intros Hsub; cbn [rules_with].
  { exists []. split; [done|]. intros rule. setoid_rewrite elem_of_nil. naive_solver. }
  destruct IH as (rules & Hr & Hrules); [intros; apply Hsub; by right|].
  assert (Hskip : ∀ rule, (∀ p, s = StPermission p → pm_effect p ≠ eff) →
    rule ∈ rules ↔ ∃ p, StPermission p ∈ s :: l ∧ pm_effect p = eff ∧
      workspacePolicySubject p = Ok (rr_subject rule) ∧ rr_operations rule = sc_actions (pm_scope p)).
  { intros rule Hne. rewrite Hrules. setoid_rewrite elem_of_cons. naive_solver. }
  destruct s as [p| | | |]; try (exists rules; split; [done|]; intros; apply Hskip; naive_solver).
  case_bool_decide as He; [|exists rules; split; [done|]; intros; apply Hskip; naive_solver].
  destruct (parsed_permission w statements p Hparse) as (_ & _ & [u Hu] & Hg); [apply Hsub; left|].
  assert (∃ subj, workspacePolicySubject p = Ok subj) as [subj Hsubj].
  { unfold workspacePolicySubject. rewrite Hu. destruct Hg as [->|[a ->]]; eauto. }
  rewrite Hsubj, Hr. cbn. eexists. split; [reflexivity|]. intros rule.
  rewrite elem_of_cons, Hrules. setoid_rewrite elem_of_cons. split.
  - intros [->|(q & ? & ?)]; [exists p; cbn; auto|eauto].
  - intros (q & [[= ->]|Hq] & Heq & Hs & Ho); [left|right; eauto].
    rewrite Hsubj in Hs. injection Hs as ->. destruct rule; cbn in *; by subst.
Qed.

Lemma managed_rules_spec threadId :
  ∃ managed, managed_rules statements threadId = Ok managed ∧
    (is_Some managed ↔ ∃ b, StManagedBoundary b ∈ statements ∧ matching threadId (StManagedBoundary b) = true) ∧
    ∀ rules, managed = Some rules →
      (∀ rule, rule ∈ mr_grants rules ↔ ∃ p, StPermission p ∈ statements ∧
        matching threadId (StPermission p) = true ∧ pm_effect p = PermAllow ∧
        workspacePolicySubject p = Ok (rr_subject rule) ∧ rr_operations rule = sc_actions (pm_scope p)) ∧
      (∀ rule, rule ∈ mr_prohibitions rules ↔ ∃ p, StPermission p ∈ statements ∧
        matching threadId (StPermission p) = true ∧ pm_effect p = PermProhibit ∧
        workspacePolicySubject p = Ok (rr_subject rule) ∧ rr_operations rule = sc_actions (pm_scope p)).
Proof.
  set (ms := filterb (matching threadId) statements).
  assert (Hms : ∀ s, s ∈ ms ↔ s ∈ statements ∧ matching threadId s = true) by (intros; apply elem_of_filterb).
  destruct (rules_with_spec PermAllow ms) as (gs & Hg & Hgs); [intros s Hs; by apply (proj1 (Hms s) Hs)|].
  destruct (rules_with_spec PermProhibit ms) as (ps & Hp & Hps); [intros s Hs; by apply (proj1 (Hms s) Hs)|].
  assert (Hb : existsb is_boundary ms = true ↔
    ∃ b, StManagedBoundary b ∈ statements ∧ matching threadId (StManagedBoundary b) = true).
  { rewrite existsb_elem. setoid_rewrite Hms. split.
    - intros (s & ? & Hs). destruct s; try done. eauto.
    - intros (b & ?). by exists (StManagedBoundary b). }
  unfold managed_rules. fold ms. destruct (existsb is_boundary ms).
  - rewrite Hg, Hp. cbn. eexists. split; [reflexivity|]. split; [rewrite <-Hb; split; by eauto|].
    intros rules [= <-]. cbn. setoid_rewrite Hgs. setoid_rewrite Hps. setoid_rewrite Hms. split; naive_solver.
  - exists None. split; [done|]. split; [|done]. rewrite <-Hb. split; [by intros []|done].
Qed.
End Rules.

Lemma subject_matches w statements p subj actor :
  is_ok (parseWorkspacePolicy w statements) = true → StPermission p ∈ statements →
  workspacePolicySubject p = Ok subj →
  (matches subj actor = true ↔ addressed_to p actor) ∧
  (subj = SubjUser (actor_user actor) ∨ matches subj actor = true ↔ restrains p actor).
Proof.
  intros Hparse Hin Hs. destruct (parsed_permission w statements p Hparse Hin) as (_ & _ & [u Hu] & Hg).
  unfold workspacePolicySubject in Hs. rewrite Hu in Hs. unfold restrains, addressed_to. rewrite Hu.
  destruct Hg as [Hg|[a Hg]]; rewrite Hg in *; injection Hs as <-; destruct actor as [v|v b q]; cbn;
    rewrite ?andb_true_iff, ?bool_decide_eq_true; naive_solver.
Qed.

(** A permission in force, with its recipient and one of its actions. *)
Definition grants_to_actor (input : ResourceAccessInput) : Prop :=
  ∃ p, in_force input (StPermission p) ∧ pm_effect p = PermAllow ∧
    addressed_to p (ri_actor input) ∧ ri_operation input ∈ sc_actions (pm_scope p).

Definition prohibits_actor (input : ResourceAccessInput) : Prop :=
  ∃ p, in_force input (StPermission p) ∧ pm_effect p = PermProhibit ∧
    restrains p (ri_actor input) ∧ ri_operation input ∈ sc_actions (pm_scope p).

Definition thread_is_managed (input : ResourceAccessInput) : Prop :=
  ∃ b, in_force input (StManagedBoundary b).

Lemma resource_access_spec input :
  match evaluateWorkspaceResourceAccess input with
  | Ok d =>
    effect d = Allow ↔
    ri_operation input ∈ WORKSPACE_MEMBER_OPERATIONS ∧ in_audience input ∧ in_personal_audience input ∧
    (thread_is_managed input → grants_to_actor input ∧ ¬ prohibits_actor input)
  | Err e => parseWorkspacePolicy (ri_workspaceId input) (ri_policy input) = Err e
  end.
Proof.
  unfold evaluateWorkspaceResourceAccess.
  destruct (parseWorkspacePolicy _ _) as [doc|e] eqn:Hp; [|done]. cbn [mbind result_bind].
  assert (doc = ri_policy input) as ->.
  { unfold parseWorkspacePolicy in Hp. split_match Hp. }
  assert (Hok : is_ok (parseWorkspacePolicy (ri_workspaceId input) (ri_policy input)) = true) by (by rewrite Hp).
  destruct (managed_rules_spec _ _ Hok (ri_threadId input)) as (managed & -> & Hman & Hrules).
  cbn [mbind result_bind].
  rewrite (resource_allow_spec input managed).
  - apply and_iff_compat_l, and_iff_compat_l, and_iff_compat_l.
    assert (Hm : thread_is_managed input ↔ is_Some managed) by (rewrite Hman; done). rewrite Hm. clear Hm Hman.
    assert (Hsub := λ p subj, subject_matches _ _ p subj (ri_actor input) Hok).
    unfold grants_to_actor, prohibits_actor, in_force. destruct managed as [rules|].
    2:{ split; [intros _ [? ?]; done|done]. }
    destruct (Hrules rules eq_refl) as [Hg Hpr]. split.
    + intros H _. destruct (H rules eq_refl) as [(grant & (p & Hin & Hmt & He & Hs & Ho)%Hg & Hm & Hop) Hno].
      split.
      * exists p. rewrite <-Ho. split_and!; try done. by apply (Hsub p _ Hin Hs).
      * intros (q & (Hqin & Hqm) & Hqe & Hqr & Hqo).
        destruct (parsed_permission _ _ q Hok Hqin) as (_ & _ & [u Hu] & Hgk).
        assert (∃ subj, workspacePolicySubject q = Ok subj) as [subj Hsubj].
        { unfold workspacePolicySubject. rewrite Hu. destruct Hgk as [->|[a ->]]; eauto. }
        apply (Hno {| rr_subject := subj; rr_operations := sc_actions (pm_scope q) |}); [|by apply (Hsub q)|done].
        apply Hpr. by exists q.
    + intros H rules' [= <-]. destruct H as [(p & (Hin & Hmt) & He & Ha & Ho) Hno]; [done|].
      destruct (parsed_permission _ _ p Hok Hin) as (_ & _ & [u Hu] & Hgk).
      assert (∃ subj, workspacePolicySubject p = Ok subj) as [subj Hsubj].
      { unfold workspacePolicySubject. rewrite Hu. destruct Hgk as [->|[a ->]]; eauto. }
      split.
      * exists {| rr_subject := subj; rr_operations := sc_actions (pm_scope p) |}.
        split; [apply Hg; by exists p|]. split; [by apply (Hsub p)|done].
      * intros rule (q & Hqin & Hqm & Hqe & Hqs & Hqo)%Hpr Hc Hop. apply Hno. exists q.
        rewrite <-Hqo. split_and!; try done. by apply (Hsub q _ Hqin Hqs).
  - intros rules rule Hm Hin. destruct (Hrules rules Hm) as [Hg Hpr].
    assert (∃ p, StPermission p ∈ ri_policy input ∧ rr_operations rule = sc_actions (pm_scope p))
      as (p & Hpin & ->) by (apply elem_of_app in Hin as [(p & ? & _ & _ & _ & ?)%Hg|(p & ? & _ & _ & _ & ?)%Hpr]; eauto).
    destruct (parsed_permission _ _ p Hok Hpin) as (? & ? & _). done.
Qed.

(** C7. Access to a Thread is decided by its audience and its workspace's policy document: evaluation
    throws only when the document is not admitted; otherwise an operation is allowed exactly when it is
    a member operation, the actor is in the Thread's audience and in that of a personal workspace, and,
    if an active boundary manages the Thread, some active permission addressed to this very actor names
    the operation and no active prohibition that restrains the actor does.  A grant to a user never
    reaches the user's agents; a prohibition of a user does. *)
Theorem resource_access_from_document input :
  match evaluateWorkspaceResourceAccess input with
  | Ok d =>
    effect d = Allow ↔
    ri_operation input ∈ WORKSPACE_MEMBER_OPERATIONS ∧ in_audience input ∧ in_personal_audience input ∧
    (thread_is_managed input → grants_to_actor input ∧ ¬ prohibits_actor input)
  | Err e => parseWorkspacePolicy (ri_workspaceId input) (ri_policy input) = Err e
  end.
Proof. apply resource_access_spec. Qed.

(** The facts a Thread decision needs: a named user who is the actor's, and a workspace Thread of this workspace. *)
Definition exact_facts (i : ThreadAuthorizationInput) : Prop :=
  ta_userId i ≠ "" ∧ ThreadSchema (ta_thread i) = true ∧ th_owner (ta_thread i) = WorkspaceOwner (ta_workspaceId i) ∧
  ∀ actor, ta_actor i = Some actor → actor_user actor = ta_userId i.

(** The decision is made on the Thread's own audience: with exact facts an allowed actor acts for the named user,
    who sees a shared Thread, owns a private one or administers; without them the evaluation throws. *)
Theorem thread_authorization_is_exact i :
  match evaluateThreadAuthorization i with
  | Ok d => exact_facts i ∧
    (effect d = Allow →
       ta_operation i ∈ WORKSPACE_MEMBER_OPERATIONS ∧
       (th_privateOwnerUserId (ta_thread i) = None ∨ th_privateOwnerUserId (ta_thread i) = Some (ta_userId i) ∨
        ta_administrator i = true))
  | Err e => (e = inexact_facts ∧ ¬ exact_facts i) ∨ parseWorkspacePolicy (ta_workspaceId i) (ta_policy i) = Err e
  end.
Proof.
  unfold evaluateThreadAuthorization, exact_facts.
  destruct (truthy (ta_userId i)) eqn:Eu; cbn [negb orb].
  2:{ left. split; [done|]. intros [H _]. destruct (ta_userId i); done. }
  destruct (ThreadSchema (ta_thread i)) eqn:Es; [|left; split; [done|]; by intros (_ & ? & _)]. cbn [negb].
  assert (Hne : ta_userId i ≠ "") by (by destruct (ta_userId i)).
  pose proof Es as Hs. unfold ThreadSchema in Hs. rewrite !andb_true_iff in Hs. destruct Hs as (((_ & Hp) & Ho) & _).
  apply eqb_prop in Hp, Ho. destruct (th_owner (ta_thread i)) as [w|] eqn:Ew.
  2:{ destruct (th_visibility _); left; split; try done; by intros (_ & _ & ? & _). }
  destruct (bool_decide (th_visibility (ta_thread i) = ThreadServer)) eqn:Ev; [done|].
  apply bool_decide_eq_false in Ev.
  replace (match th_visibility (ta_thread i) with ThreadServer => _ | _ => _ end)
    with (if negb (bool_decide (w = ta_workspaceId i)) ||
             match ta_actor i with Some actor => negb (bool_decide (actor_user actor = ta_userId i)) | None => false end
          then Err inexact_facts
          else evaluateWorkspaceResourceAccess
            (resource_input i (if bool_decide (th_visibility (ta_thread i) = ThreadPrivate) then VisPrivate else VisWorkspace)))
    by (by destruct (th_visibility (ta_thread i))).
  destruct (bool_decide (w = ta_workspaceId i)) eqn:Eb; cbn [negb orb].
  2:{ apply bool_decide_eq_false in Eb. left. split; [done|]. intros (_ & _ & [= ?] & _). done. }
  apply bool_decide_eq_true in Eb. subst w.
  destruct (match ta_actor i with Some _ => _ | None => _ end) eqn:Ea.
  { left. split; [done|]. intros (_ & _ & _ & H). destruct (ta_actor i) as [actor|]; [|done].
    rewrite bool_decide_true in Ea by auto. done. }
  assert (Hact : ∀ actor, ta_actor i = Some actor → actor_user actor = ta_userId i).
  { intros actor E. rewrite E in Ea. by apply negb_false_iff, bool_decide_eq_true in Ea. }
  pose proof (resource_access_spec
    (resource_input i (if bool_decide (th_visibility (ta_thread i) = ThreadPrivate) then VisPrivate else VisWorkspace))) as Hr.
  destruct (evaluateWorkspaceResourceAccess _) as [d|e]; [|by right].
  split; [done|]. intros (Hop & Haud & _)%Hr. split; [done|]. clear Hr.
  assert (Hau : actor_user (default (ActorUser (ta_userId i)) (ta_actor i)) = ta_userId i)
    by (destruct (ta_actor i); cbn; auto).
  destruct Haud as [Hv|[(_ & Hown)|?]]; [|right; left; by rewrite <-Hau|by right; right]. left.
  cbn in Hv. destruct (bool_decide (th_visibility _ = ThreadPrivate)); [done|].
  symmetry in Hp. by apply negb_false_iff, bool_decide_eq_true in Hp.
Qed.

(** ** Concrete instance: a managed Thread, its grantee and the grantee's agent *)

Module ResourceDemo.

Definition anchor : PolicyContainer := {| ct_owner := OwnerWorkspace "w1"; ct_kind := "workspace"; ct_id := "w1" |}.
Definition thread : PolicyResource :=
  ContainerResource {| ct_owner := OwnerWorkspace "w1"; ct_kind := "thread"; ct_id := "t1" |}.
Definition lifetime : PolicyLifetime := {| lt_anchor := anchor; lt_notAfter := None; lt_uses := None |}.
Definition boundary : PolicyStatement := StManagedBoundary {|
  bn_id := "b1"; bn_author := HumanPrincipal "root"; bn_authority := HumanAuthority "root";
  bn_lifetime := lifetime; bn_state := PermissionActive; bn_resources := [thread] |}.
Definition statement (id : string) (eff : PermissionEffect) (action : string) : PolicyStatement := StPermission {|
  pm_id := id; pm_author := HumanPrincipal "root"; pm_authority := HumanAuthority "root";
  pm_scope := {| sc_subjects := [HumanPrincipal "u1"]; sc_actions := [action]; sc_resources := [thread] |};
  pm_lifetime := lifetime; pm_state := PermissionActive; pm_effect := eff; pm_grant := GrantOrdinary |}.
Definition request (actor : ResourcePolicyActor) (policy : list PolicyStatement) : ResourceAccessInput := {|
  ri_actor := actor; ri_administrator := false; ri_visibility := VisWorkspace; ri_privateOwnerUserId := None;
  ri_personalWorkspaceId := None; ri_workspaceId := "w1"; ri_policy := policy; ri_threadId := "t1";
  ri_operation := "thread.read" |}.

Definition allows (i : ResourceAccessInput) : option bool :=
  match evaluateWorkspaceResourceAccess i with
  | Ok d => Some (bool_decide (effect d = Allow)) | Err _ => None
  end.

Example managed_thread :
  allows (request (ActorUser "u1") [boundary; statement "s1" PermAllow "thread.read"]) = Some true ∧
  allows (request (ActorUser "u2") [boundary; statement "s1" PermAllow "thread.read"]) = Some false ∧
  allows (request (ActorAgent "u1" "a1" "p1") [boundary; statement "s1" PermAllow "thread.read"]) = Some false ∧
  allows (request (ActorUser "u1") [boundary; statement "s1" PermAllow "thread.read";
                                    statement "s2" PermProhibit "thread.read"]) = Some false ∧
  allows (request (ActorUser "u2") []) = Some true ∧
  allows (request (ActorUser "u1") [statement "s1" PermAllow "thread.read"]) = None.
Proof. vm_compute. done. Qed.
End ResourceDemo.
