(* ===== verification/GoalAccess.v ===== *)
(** * Access of a Goal's workers

    [evaluateGoalTaskAccess] and [evaluateGoalTaskAdmission] (nanocore/src/policy/goal-task-access.ts):
    the approved Goal envelope and the selected Task resources are two policy classes of one layered
    graph, on top of a human decision that stays mandatory.  [policyDigest] (a SHA-256 of canonical
    text) is a parameter on each type of value it is applied to. *)

From S2P Require Import Prelude PolicyKernel PolicyGraph PolicyDecisions PolicyLayers McpToolPermissions ProductAccess ResourceAccess.

Local Open Scope string_scope.
Local Open Scope list_scope.

(** ** The two mandatory classes *)

Record ScopeInput := {
  si_operation : string;
  si_user : string;
  si_process : option string;
  si_inGoalEnvelope : bool;
  si_selectedByTask : bool;
  si_humanKernel : PolicyDecision;
}.

Definition goal_classes : list string := ["goal-envelope"; "goal-task"].

Definition registered_operation (operation : string) : option string :=
  if bool_decide (operation ∈ product_operations) then Some operation else None.

Definition scope_graph (i : ScopeInput) : PolicyState :=
  let operation := registered_operation (si_operation i) in
  let accessRights := match operation with Some o => [access_right o] | None => [] end in
  let user := si_user i in {|
  elements := [element KUser user; element KObject "goal-request"]
    ++ (id ← goal_classes; [element KUserAttribute ("ua:" +:+ id); element KObjectAttribute ("oa:" +:+ id);
                            element KPolicyClass ("pc:" +:+ id)]);
  assignments :=
    id ← goal_classes; [edge user ("ua:" +:+ id); edge ("ua:" +:+ id) ("pc:" +:+ id);
                        edge "goal-request" ("oa:" +:+ id); edge ("oa:" +:+ id) ("pc:" +:+ id)];
  operations := match operation with
    | Some o => [{| op_id := o; op_accessRights := accessRights |}] | None => [] end;
  processUsers :=
    match truthy_option (si_process i) with
    | Some process => Some [{| pu_process := process; pu_user := user |}]
    | None => None
    end;
  associations := (λ id, {| assoc_id := id; assoc_userAttribute := "ua:" +:+ id;
      assoc_accessRights := accessRights; assoc_targetAttribute := "oa:" +:+ id |})
    <$> filterb (λ id, if bool_decide (id = "goal-envelope") then si_inGoalEnvelope i
                       else si_selectedByTask i) goal_classes;
  prohibitions := None;
|}.

Definition scope_request (i : ScopeInput) : AccessRequest := {|
  req_user := Some (si_user i); req_process := truthy_option (si_process i);
  req_operation := si_operation i; req_target := "goal-request" |}.

Definition scopeKernel (i : ScopeInput) : PolicyDecision :=
  match effect (si_humanKernel i) with
  | Deny => si_humanKernel i
  | Allow => evaluateAccess (scope_graph i) (scope_request i)
  end.

(** ** Access of a concrete effect *)

Inductive PolicyActorRef := ActAgent (id : string) | ActOther (kind id : string).
Record PolicyProcess := { pp_workspaceId : string; pp_threadId : string; pp_turnId : string }.
Record PolicySubject := {
  ps_principal : PolicyPrincipal;
  ps_onBehalfOf : option string;
  ps_actor : PolicyActorRef;
  ps_process : option PolicyProcess;
  ps_responsibleHumanId : string;
}.
Record GoalSource := { gs_workspaceId : string; gs_goalId : string; gs_planVersionId : string }.
Record GoalDomainStatement := {
  gd_id : string;
  gd_author : PolicyPrincipal;
  gd_state : PermissionState;
  gd_scope : PolicyScope;
  gd_delegate : PolicyPrincipal;
  gd_source : GoalSource;
}.

Definition principal_id (p : PolicyPrincipal) : string := match p with HumanPrincipal id | AgentPrincipal id => id end.
Definition principal_kind (p : PolicyPrincipal) : string :=
  match p with HumanPrincipal _ => "human" | AgentPrincipal _ => "agent" end.

Record GoalTaskAccessInput := {
  gi_domain : option GoalDomainStatement;
  gi_permissions : option (list PolicyPermission);
  gi_subject : PolicySubject;
  gi_responsibleHumanId : string;
  gi_resources : list PolicyResource;
  gi_operation : string;
  gi_resource : PolicyResource;
  gi_humanKernel : PolicyDecision;
}.

Record Escalation := { es_workspaceId : string; es_goalId : string; es_agentId : string }.
Record GoalTaskAccessResult := {
  gr_kernel : PolicyDecision;
  gr_inGoalEnvelope : bool;
  gr_escalation : option Escalation;
  gr_permission : option PolicyPermission;
  gr_authorizationRevision : string;
}.

Section Digests.
Context (principalDigest : PolicyPrincipal → string) (actionDigest : string → string)
  (resourceDigest : PolicyResource → string) (domainDigest : GoalDomainStatement → string)
  (revisionDigest : GoalTaskAccessInput → option PolicyPermission → string).

Definition policyScopeContains (scope disclosure : PolicyScope) : bool :=
  forallb (λ v, bool_decide (principalDigest v ∈ principalDigest <$> sc_subjects scope)) (sc_subjects disclosure)
  && forallb (λ v, bool_decide (actionDigest v ∈ actionDigest <$> sc_actions scope)) (sc_actions disclosure)
  && forallb (λ v, bool_decide (resourceDigest v ∈ resourceDigest <$> sc_resources scope)) (sc_resources disclosure).

Definition selects_resource (resources : list PolicyResource) (resource : PolicyResource) : bool :=
  existsb (λ v, bool_decide (resourceDigest v = resourceDigest resource)) resources.

Definition in_goal_envelope (i : GoalTaskAccessInput) : bool :=
  match gi_domain i with
  | None => false
  | Some domain =>
    let subject := gi_subject i in
    bool_decide (gd_state domain = PermissionActive)
    && match gd_author domain with HumanPrincipal _ => true | AgentPrincipal _ => false end
    && match ps_principal subject, ps_actor subject with
       | AgentPrincipal id, ActAgent actor => bool_decide (actor = id)
       | _, _ => false
       end
    && bool_decide (ps_onBehalfOf subject = None)
    && bool_decide (ps_responsibleHumanId subject = gi_responsibleHumanId i)
    && bool_decide (pp_workspaceId <$> ps_process subject = Some (gs_workspaceId (gd_source domain)))
    && existsb (λ v, match v with
         | AgentPrincipal id => bool_decide (id = principal_id (ps_principal subject))
         | HumanPrincipal _ => false end) (sc_subjects (gd_scope domain))
    && includes (sc_actions (gd_scope domain)) (gi_operation i)
    && selects_resource (sc_resources (gd_scope domain)) (gi_resource i)
  end.

(** A current allow that the Goal's delegate wrote under the domain and inside its scope. *)
Definition delegated_allow (i : GoalTaskAccessInput) (domain : GoalDomainStatement) (p : PolicyPermission) : bool :=
  bool_decide (pm_state p = PermissionActive) && bool_decide (pm_effect p = PermAllow)
  && bool_decide (pm_grant p = GrantOrdinary)
  && match pm_author p with
     | AgentPrincipal id => bool_decide (id = principal_id (gd_delegate domain))
     | HumanPrincipal _ => false
     end
  && match pm_authority p with
     | DelegationAuthority id digest => bool_decide (id = gd_id domain) && bool_decide (digest = domainDigest domain)
     | HumanAuthority _ => false
     end
  && policyScopeContains (gd_scope domain) (pm_scope p)
  && existsb (λ v, bool_decide (principalDigest v = principalDigest (ps_principal (gi_subject i))))
       (sc_subjects (pm_scope p))
  && includes (sc_actions (pm_scope p)) (gi_operation i)
  && selects_resource (sc_resources (pm_scope p)) (gi_resource i).

Definition selected_permission (i : GoalTaskAccessInput) : option PolicyPermission :=
  match gi_domain i with
  | Some domain =>
    if selects_resource (gi_resources i) (gi_resource i) then None
    else match gi_permissions i with
         | Some ps => find (delegated_allow i domain) ps
         | None => None
         end
  | None => None
  end.

Definition is_missing_privilege (r : PolicyDecisionReason) : bool :=
  match r with MissingPrivilege _ => true | _ => false end.

Definition evaluateGoalTaskAccess (i : GoalTaskAccessInput) : GoalTaskAccessResult :=
  let inGoalEnvelope := in_goal_envelope i in
  let selectedByTask := selects_resource (gi_resources i) (gi_resource i) in
  let permission := selected_permission i in
  let kernel := scopeKernel {|
    si_operation := gi_operation i;
    si_user := principal_kind (ps_principal (gi_subject i)) +:+ ":" +:+ principal_id (ps_principal (gi_subject i));
    si_process := pp_turnId <$> ps_process (gi_subject i);
    si_inGoalEnvelope := inGoalEnvelope;
    si_selectedByTask := selectedByTask || bool_decide (is_Some permission);
    si_humanKernel := gi_humanKernel i |} in
  {| gr_kernel := kernel;
     gr_inGoalEnvelope := inGoalEnvelope;
     gr_escalation :=
       match gi_domain i with
       | Some domain =>
         if inGoalEnvelope && negb selectedByTask && negb (bool_decide (is_Some permission))
            && bool_decide (effect (gi_humanKernel i) = Allow) && bool_decide (effect kernel = Deny)
            && bool_decide (reasons kernel ≠ []) && forallb is_missing_privilege (reasons kernel)
         then Some {| es_workspaceId := gs_workspaceId (gd_source domain);
                      es_goalId := gs_goalId (gd_source domain);
                      es_agentId := principal_id (gd_delegate domain) |}
         else None
       | None => None
       end;
     gr_permission := permission;
     gr_authorizationRevision := revisionDigest i permission |}.

(** ** Admission of a prepared Task *)

Record GoalTaskAdmissionInput := {
  ga_domain : option GoalDomainStatement;
  ga_workspaceId : string;
  ga_planVersionId : string;
  ga_agentId : string;
  ga_resources : list PolicyResource;
  ga_humanKernel : PolicyDecision;
}.

Definition admission_envelope (i : GoalTaskAdmissionInput) : bool :=
  match ga_domain i with
  | Some domain =>
    bool_decide (gd_state domain = PermissionActive)
    && bool_decide (gs_workspaceId (gd_source domain) = ga_workspaceId i)
    && bool_decide (gs_planVersionId (gd_source domain) = ga_planVersionId i)
    && existsb (λ v, match v with AgentPrincipal id => bool_decide (id = ga_agentId i) | HumanPrincipal _ => false end)
         (sc_subjects (gd_scope domain))
  | None => false
  end.

Definition admission_selected (i : GoalTaskAdmissionInput) : bool :=
  match ga_domain i with
  | Some domain => forallb (selects_resource (sc_resources (gd_scope domain))) (ga_resources i)
  | None => false
  end.

(** The decision and whether the domain is available. *)
Definition evaluateGoalTaskAdmission (i : GoalTaskAdmissionInput) : PolicyDecision * bool :=
  (scopeKernel {|
     si_operation := "turn.run"; si_user := "agent:" +:+ ga_agentId i; si_process := None;
     si_inGoalEnvelope := admission_envelope i; si_selectedByTask := admission_selected i;
     si_humanKernel := ga_humanKernel i |},
   bool_decide (gd_state <$> ga_domain i = Some PermissionActive)).
End Digests.

(** ** The graph is layered *)

Section Graph.
Context (i : ScopeInput) (Huser : ∃ k id, si_user i = k +:+ ":" +:+ id ∧ (k = "human" ∨ k = "agent")).
Context (Hreg : si_operation i ∈ product_operations).
Let G := scope_graph i.

Definition goal_class (id : string) : Prop := id = "goal-envelope" ∨ id = "goal-task".

Lemma elem_of_goal_classes id : id ∈ goal_classes ↔ goal_class id.
Proof. unfold goal_classes, goal_class. rewrite !elem_of_cons, elem_of_nil. tauto. Qed.

Lemma scope_assigned a b : assigned G a b ↔ ∃ id, goal_class id ∧
  ((a = si_user i ∧ b = "ua:" +:+ id) ∨ (a = "ua:" +:+ id ∧ b = "pc:" +:+ id) ∨
   (a = "goal-request" ∧ b = "oa:" +:+ id) ∨ (a = "oa:" +:+ id ∧ b = "pc:" +:+ id)).
Proof.
  unfold assigned, G, goal_class. fold (edge a b). cbn [assignments scope_graph].
  cbn [goal_classes mbind list_bind app]. rewrite !elem_of_cons, !elem_of_nil, !edge_inj.
  split; [intros H; destruct_or!; try done; first [exists "goal-envelope"; tauto|exists "goal-task"; tauto]|].
  intros (id & [->| ->] & ?); tauto.
Qed.

Lemma scope_declared id k : declared G id k ↔
  (id = si_user i ∧ k = KUser) ∨ (id = "goal-request" ∧ k = KObject) ∨
  ∃ c, goal_class c ∧ ((id = "ua:" +:+ c ∧ k = KUserAttribute) ∨ (id = "oa:" +:+ c ∧ k = KObjectAttribute) ∨
    (id = "pc:" +:+ c ∧ k = KPolicyClass)).
Proof.
  unfold declared, G, goal_class. fold (element k id). cbn [elements scope_graph].
  cbn [goal_classes mbind list_bind app]. rewrite !elem_of_cons, !elem_of_nil, !element_inj. split.
  - intros H. destruct_or!; try tauto; right; right; first [exists "goal-envelope"; tauto|exists "goal-task"; tauto].
  - intros [?|[?|(c & [->| ->] & ?)]]; tauto.
Qed.

Lemma scope_names id k : declared G id k → id ≠ "".
Proof.
  intros H. apply scope_declared in H. destruct Huser as (kd & x & Hu & Hk).
  destruct H as [[-> _]|[[-> _]|(c & _ & [[-> _]|[[-> _]|[-> _]]])]]; [|done..].
  rewrite Hu. by destruct Hk as [->| ->].
Qed.

Lemma scope_layered : layered_policy G.
Proof.
  split.
  - unfold G. cbn [elements scope_graph goal_classes mbind list_bind app fmap list_fmap el_id element].
    destruct Huser as (kd & x & -> & [->| ->]); cbn; repeat constructor; rewrite ?elem_of_cons, ?elem_of_nil;
      intros H; destruct_or?; discriminate.
  - apply scope_names.
  - intros a b (id & Hid & H)%scope_assigned. unfold layered_edge. rewrite !scope_declared.
    destruct H as [[-> ->]|[[-> ->]|[[-> ->]|[-> ->]]]].
    + left. split; [by left|]. right; right. exists id. tauto.
    + right; right. split; [left|]; right; right; exists id; tauto.
    + right; left. split; [right; by left|]. right; right. exists id. tauto.
    + right; right. split; [right|]; right; right; exists id; tauto.
  - intros id k H Hk. apply scope_declared in H. setoid_rewrite scope_assigned.
    destruct H as [[-> _]|[[-> _]|(c & _ & H)]].
    + exists "ua:goal-task", "goal-task". unfold goal_class. tauto.
    + exists "oa:goal-task", "goal-task". unfold goal_class. tauto.
    + destruct H as [[_ ->]|[[_ ->]|[_ ->]]]; by destruct Hk.
  - intros id k H Hk. apply scope_declared in H. setoid_rewrite scope_assigned.
    destruct H as [[_ ->]|[[_ ->]|(c & Hc & H)]]; [by destruct Hk..|].
    destruct H as [[-> ->]|[[-> ->]|[_ ->]]]; [exists ("pc:" +:+ c), c; tauto..|by destruct Hk].
  - unfold G. cbn [operations scope_graph]. unfold registered_operation. rewrite bool_decide_eq_true_2 by done.
    by intros o ->%list_elem_of_singleton.
  - intros a. unfold G at 1. cbn [associations scope_graph]. unfold registered_operation.
    rewrite bool_decide_eq_true_2 by done. intros (id & -> & [Hid _]%elem_of_filterb)%list_elem_of_fmap.
    assert (Hc : goal_class id) by (by apply elem_of_goal_classes).
    rewrite !scope_declared. cbn [assoc_userAttribute assoc_targetAttribute assoc_accessRights].
    split; [right; right; exists id; tauto|]. split; [right; right; exists id; tauto|done].
  - unfold G at 1. cbn [processUsers scope_graph]. destruct (truthy_option _); cbn; intros pu Hpu;
      [apply list_elem_of_singleton in Hpu as ->|by apply elem_of_nil in Hpu].
    apply scope_declared. by left.
  - by intros p ?%elem_of_nil.
Qed.

Lemma scope_allow : effect (evaluateAccess G (scope_request i)) = Allow ↔
  si_inGoalEnvelope i = true ∧ si_selectedByTask i = true.
Proof.
  assert (Hr : runs_as G (scope_request i) (si_user i)).
  { split; [apply scope_declared; by left|]. cbn. split; [done|]. unfold mapped_user. cbn.
    unfold truthy_option at 1. destruct (si_process i) as [q|]; [|by left]. cbn.
    destruct (truthy q) eqn:Hq; cbn; [|by left]. rewrite Hq. cbn.
    rewrite bool_decide_eq_true_2 by done. by right. }
  rewrite (layered_allow G scope_layered _ _ Hr) by (apply scope_declared; auto).
  cbn [operations scope_request req_operation req_target].
  unfold G at 1. cbn [operations scope_graph]. unfold registered_operation.
  rewrite bool_decide_eq_true_2 by done. cbn [find op_id]. rewrite bool_decide_eq_true_2 by done.
  assert (Hassoc : ∀ id, goal_class id → (∃ a, a ∈ associations G ∧ assoc_userAttribute a = "ua:" +:+ id ∧
      assoc_targetAttribute a = "oa:" +:+ id ∧ access_right (si_operation i) ∈ assoc_accessRights a) ↔
    (if bool_decide (id = "goal-envelope") then si_inGoalEnvelope i else si_selectedByTask i) = true).
  { intros id Hid. unfold G. cbn [associations scope_graph]. setoid_rewrite list_elem_of_fmap.
    setoid_rewrite elem_of_filterb. unfold registered_operation. rewrite bool_decide_eq_true_2 by done. split.
    - intros (a & (id' & -> & _ & H) & Hua & _). cbn [assoc_userAttribute] in Hua. by apply (inj (String.append _)) in Hua as ->.
    - intros H. eexists. split; [exists id; split; [reflexivity|split; [|exact H]]|].
      + by apply elem_of_goal_classes.
      + cbn. split_and!; [done|done|]. by left. }
  assert (Henv := Hassoc "goal-envelope" ltac:(by left)). assert (Htask := Hassoc "goal-task" ltac:(by right)).
  cbn in Henv, Htask. rewrite <-Henv, <-Htask. clear Henv Htask Hassoc.
  assert (Hua : ∀ a, a ∈ associations G → ∃ id, goal_class id ∧ assoc_userAttribute a = "ua:" +:+ id ∧
    assoc_targetAttribute a = "oa:" +:+ id).
  { intros a. unfold G. cbn [associations scope_graph]. intros (id & -> & [Hid _]%elem_of_filterb)%list_elem_of_fmap.
    exists id. split; [|done]. by apply elem_of_goal_classes. }
  assert (Hoa : ∀ id pc, goal_class id → assigned G ("oa:" +:+ id) pc ↔ pc = "pc:" +:+ id).
  { intros id pc Hid. rewrite scope_assigned. split; [|intros ->; exists id; tauto].
    destruct Huser as (kd & x & Hu & Hk).
    intros (c & Hc & [[He _]|[[He _]|[[He _]|[He ->]]]]); [|done|done|by apply (inj (String.append _)) in He as ->].
    rewrite Hu in He. by destruct Hk as [->| ->]. }
  split.
  - intros (o & [= <-] & Hg & _). specialize (Hg _ ltac:(by left)).
    assert (Hex : ∀ id, goal_class id → ∃ a, a ∈ associations G ∧ assoc_userAttribute a = "ua:" +:+ id ∧
      assoc_targetAttribute a = "oa:" +:+ id ∧ access_right (si_operation i) ∈ assoc_accessRights a).
    { intros id Hid. destruct (Hg ("oa:" +:+ id) ("pc:" +:+ id)) as (a & Ha & _ & _ & H3 & Har).
      - apply scope_assigned. exists id. tauto.
      - by apply Hoa.
      - destruct (Hua a Ha) as (id' & Hid' & H1 & H2). rewrite H2 in H3. apply Hoa in H3; [|done].
        apply (inj (String.append _)) in H3 as ->. eauto. }
    split; apply Hex; unfold goal_class; auto.
  - intros [He Ht]. eexists. split; [reflexivity|]. split; [|by intros p ?%elem_of_nil].
    intros ar ->%list_elem_of_singleton oa pc H1 H2. apply scope_assigned in H1 as (id & Hid & H1).
    assert (oa = "oa:" +:+ id) as ->.
    { destruct Huser as (kd & x & Hu & Hk). destruct H1 as [[H1 _]|[[H1 _]|[[_ H1]|[H1 _]]]]; try done.
      rewrite Hu in H1. by destruct Hk as [->| ->]. }
    apply Hoa in H2 as ->; [|done].
    assert (∃ a, a ∈ associations G ∧ assoc_userAttribute a = "ua:" +:+ id ∧
      assoc_targetAttribute a = "oa:" +:+ id ∧ access_right (si_operation i) ∈ assoc_accessRights a)
      as (a & Ha & Ha1 & Ha2 & Har) by (by destruct Hid as [->| ->]).
    exists a. rewrite Ha1, Ha2. split_and!; try done; [apply scope_assigned; exists id; tauto..|by apply Hoa].
Qed.
End Graph.

(** The decision on every input; an unregistered operation is denied before the classes are read. *)
Lemma scopeKernel_spec i :
  (∃ k id, si_user i = k +:+ ":" +:+ id ∧ (k = "human" ∨ k = "agent")) →
  effect (scopeKernel i) = Allow ↔
  effect (si_humanKernel i) = Allow ∧ si_operation i ∈ product_operations ∧
  si_inGoalEnvelope i = true ∧ si_selectedByTask i = true.
Proof.
  intros Hu. unfold scopeKernel. destruct (effect (si_humanKernel i)) eqn:He; [|rewrite He; naive_solver].
  destruct (decide (si_operation i ∈ product_operations)) as [Hin|Hout].
  - rewrite scope_allow by done. tauto.
  - split; [|tauto]. rewrite evaluateAccess_allow_spec. intros [_ (op & u & k & Hf & _)].
    cbn [operations scope_graph] in Hf. unfold registered_operation in Hf.
    by rewrite bool_decide_eq_false_2 in Hf.
Qed.

(** A denial inside a well-formed graph is always a missing privilege. *)
Lemma scopeKernel_denial i :
  (∃ k id, si_user i = k +:+ ":" +:+ id ∧ (k = "human" ∨ k = "agent")) →
  effect (si_humanKernel i) = Allow → effect (scopeKernel i) = Deny → si_inGoalEnvelope i = true →
  (reasons (scopeKernel i) ≠ [] ∧ forallb is_missing_privilege (reasons (scopeKernel i)) = true) ↔
  si_operation i ∈ product_operations.
Proof.
  intros Hu He Hd Henv. unfold scopeKernel in *. rewrite He in *.
  pose proof (evaluateAccess_reason_spec (scope_graph i) (scope_request i)) as Hr. rewrite Hd in Hr.
  destruct (decide (si_operation i ∈ product_operations)) as [Hin|Hout].
  - pose proof (layered_wf _ (scope_layered i Hu Hin)) as Hwf.
    split; [done|]. intros _. destruct (reasons _) as [|r [|? ?]]; [done| |by destruct r]. split; [done|].
    destruct r as [id|ar|id|o|m|m]; cbn in *; try done.
    + destruct Hr as (op & u & p & _ & _ & []%elem_of_nil & _).
    + destruct Hr as (_ & -> & Hno). exfalso. cbn in Hno. unfold registered_operation in Hno.
      rewrite bool_decide_eq_true_2 in Hno by done. eapply Hno; [by left|done].
    + destruct Hr as (_ & [Hno|Hno]).
      * exfalso. apply (Hno (si_user i)). split; [apply scope_declared; by left|]. cbn. split; [done|].
        unfold mapped_user. cbn. unfold truthy_option at 1. destruct (si_process i) as [q|]; [|by left]. cbn.
        destruct (truthy q) eqn:Hq; cbn; [|by left]. rewrite Hq. cbn.
        rewrite bool_decide_eq_true_2 by done. by right.
      * exfalso. specialize (Hno KObject). discriminate Hno. apply scope_declared. auto.
  - split; [|done]. intros [_ Hm]. exfalso. destruct (reasons _) as [|r [|? ?]]; [done| |by destruct r].
    destruct r; cbn in *; try done. destruct Hr as (op & u & _ & Hop & _).
    cbn in Hop. unfold registered_operation in Hop. rewrite bool_decide_eq_false_2 in Hop by done.
    by apply elem_of_nil in Hop.
Qed.

Section Claims.
Context (principalDigest : PolicyPrincipal → string) (actionDigest : string → string)
  (resourceDigest : PolicyResource → string) (domainDigest : GoalDomainStatement → string)
  (revisionDigest : GoalTaskAccessInput → option PolicyPermission → string).
Local Notation access :=
  (evaluateGoalTaskAccess principalDigest actionDigest resourceDigest domainDigest revisionDigest).
Local Notation envelope := (in_goal_envelope resourceDigest).
Local Notation selects := (selects_resource resourceDigest).
Local Notation delegated := (delegated_allow principalDigest actionDigest resourceDigest domainDigest).

(** The one exception: a delegated allow of the approved domain. *)
Definition has_delegated_allow (i : GoalTaskAccessInput) : Prop :=
  ∃ domain p ps, gi_domain i = Some domain ∧ gi_permissions i = Some ps ∧ p ∈ ps ∧ delegated i domain p = true.

(** A worker of a Goal is allowed exactly when the responsible human's decision allows, the operation
    is registered, the request lies in the approved Goal envelope, and the resource was selected for the
    Task or a current allow that the delegate wrote inside the approved domain names it: no class
    replaces another.  The coordinator is asked exactly when that allocation is all that is missing,
    and the reported exception is such a delegated allow. *)
Theorem goal_access_needs_every_class i :
  let r := access i in
  let registered := gi_operation i ∈ product_operations in
  let allocated := selects (gi_resources i) (gi_resource i) = true ∨ has_delegated_allow i in
  (effect (gr_kernel r) = Allow ↔
    effect (gi_humanKernel i) = Allow ∧ registered ∧ envelope i = true ∧ allocated) ∧
  (is_Some (gr_escalation r) ↔
    effect (gi_humanKernel i) = Allow ∧ registered ∧ envelope i = true ∧ ¬ allocated) ∧
  (∀ p, gr_permission r = Some p →
    selects (gi_resources i) (gi_resource i) = false ∧
    ∃ domain ps, gi_domain i = Some domain ∧ gi_permissions i = Some ps ∧ p ∈ ps ∧ delegated i domain p = true).
Proof.
  cbn zeta. set (sel := selects (gi_resources i) (gi_resource i)).
  set (perm := selected_permission principalDigest actionDigest resourceDigest domainDigest i).
  assert (Hperm : sel = true ∨ is_Some perm ↔ sel = true ∨ has_delegated_allow i).
  { unfold perm, selected_permission, has_delegated_allow. fold sel. destruct sel; [tauto|].
    destruct (gi_domain i) as [d|]; [|rewrite is_Some_alt; naive_solver].
    destruct (gi_permissions i) as [ps|]; [|rewrite is_Some_alt; naive_solver].
    rewrite find_is_Some. naive_solver. }
  set (si := {| si_operation := gi_operation i;
    si_user := principal_kind (ps_principal (gi_subject i)) +:+ ":" +:+ principal_id (ps_principal (gi_subject i));
    si_process := pp_turnId <$> ps_process (gi_subject i);
    si_inGoalEnvelope := envelope i; si_selectedByTask := sel || bool_decide (is_Some perm);
    si_humanKernel := gi_humanKernel i |}).
  assert (Hu : ∃ k id, si_user si = k +:+ ":" +:+ id ∧ (k = "human" ∨ k = "agent")).
  { do 2 eexists. split; [reflexivity|]. destruct (ps_principal _); auto. }
  assert (Hk := scopeKernel_spec si Hu). assert (Hd := scopeKernel_denial si Hu). cbn in Hk, Hd.
  rewrite orb_true_iff, bool_decide_eq_true, Hperm in Hk.
  change (gr_kernel (access i)) with (scopeKernel si). split; [exact Hk|]. split.
  - cbn [gr_escalation evaluateGoalTaskAccess]. fold sel perm. fold si.
    assert (Hdom : envelope i = true → is_Some (gi_domain i))
      by (unfold in_goal_envelope; destruct (gi_domain i); [by eauto|done]).
    destruct (gi_domain i) as [d|]; [|rewrite is_Some_alt; split; [done|intros (_ & _ & H & _)]; by destruct (Hdom H)].
    destruct (_ && _) eqn:E.
    + split; [intros _|by eauto]. rewrite !andb_true_iff, !negb_true_iff, !bool_decide_eq_true in E.
      rewrite bool_decide_eq_false in E. destruct E as [[[[[[? Hs] Hp] ?] ?] ?] ?].
      split_and!; try done; [by apply Hd|]. rewrite <-Hperm. intros [?|?]; [congruence|done].
    + split; [by intros []|]. intros (Hh & Hr & He & Hna). exfalso.
      assert (effect (scopeKernel si) = Deny) as Hdeny.
      { destruct (effect (scopeKernel si)) eqn:Ek; [|done]. destruct Hna. by apply Hk. }
      destruct (proj2 (Hd Hh Hdeny He) Hr) as [Hne Hall]. rewrite <-Hperm in Hna.
      rewrite He, Hh, Hdeny, Hall in E. rewrite !(bool_decide_eq_true_2 (_ = _)) in E by done.
      rewrite (bool_decide_eq_true_2 (reasons _ ≠ [])) in E by done.
      destruct sel; [tauto|]. rewrite bool_decide_eq_false_2 in E by tauto. done.
  - cbn [gr_permission evaluateGoalTaskAccess]. unfold selected_permission. fold sel.
    intros p Hp. destruct (gi_domain i) as [d|]; [|done]. destruct sel; [done|].
    destruct (gi_permissions i) as [ps|]; [|done]. apply find_Some in Hp as [? ?]. eauto 7.
Qed.
End Claims.
