(* ===== verification/Calendar.v ===== *)
(** * The UTC calendar of the ECMAScript [Date] object

    The part of the language's [Date] that the recurring cadence uses: time values in integer
    milliseconds, the proleptic Gregorian year/month/day decomposition of a time value and the
    inverse construction.  [DayFromYear] and the month table are those of the language
    specification; [YearFromDay] is the computed form of "the largest year that has begun". *)

From S2P Require Import Prelude.
Local Open Scope Z_scope.

Definition msPerDay : Z := 86400000.
Definition maxSafeInteger : Z := 9007199254740991.
(** [Number.isSafeInteger] on an integer-valued number. *)
Definition isSafeInteger (n : Z) : bool := (- maxSafeInteger <=? n) && (n <=? maxSafeInteger).
(** The largest magnitude of a finite time value ([TimeClip]). *)
Definition maxTime : Z := 8640000000000000.

Definition DayFromYear (y : Z) : Z :=
  365 * (y - 1970) + (y - 1969) / 4 - (y - 1901) / 100 + (y - 1601) / 400.

Definition InLeapYear (y : Z) : bool :=
  ((y mod 4 =? 0) && negb (y mod 100 =? 0)) || (y mod 400 =? 0).

Definition DaysInYear (y : Z) : Z := if InLeapYear y then 366 else 365.

Definition YearFromDay (d : Z) : Z :=
  let y := 1970 + 400 * d / 146097 in
  if DayFromYear (y + 1) <=? d then y + 1 else if d <? DayFromYear y then y - 1 else y.

(** First day of a month within its year. *)
Definition MonthStart (leap : bool) (m : Z) : Z :=
  let l := if leap then 1 else 0 in
  match m with
  | 0 => 0 | 1 => 31 | 2 => 59 + l | 3 => 90 + l | 4 => 120 + l | 5 => 151 + l | 6 => 181 + l
  | 7 => 212 + l | 8 => 243 + l | 9 => 273 + l | 10 => 304 + l | 11 => 334 + l | _ => 365 + l
  end.

Definition MonthFromDayInYear (leap : bool) (d : Z) : Z :=
  if d <? MonthStart leap 1 then 0 else if d <? MonthStart leap 2 then 1
  else if d <? MonthStart leap 3 then 2 else if d <? MonthStart leap 4 then 3
  else if d <? MonthStart leap 5 then 4 else if d <? MonthStart leap 6 then 5
  else if d <? MonthStart leap 7 then 6 else if d <? MonthStart leap 8 then 7
  else if d <? MonthStart leap 9 then 8 else if d <? MonthStart leap 10 then 9
  else if d <? MonthStart leap 11 then 10 else 11.

Definition DayOf (t : Z) : Z := t / msPerDay.
Definition TimeInDay (t : Z) : Z := t mod msPerDay.
Definition getUTCFullYear (t : Z) : Z := YearFromDay (DayOf t).
Definition DayInYear (t : Z) : Z := DayOf t - DayFromYear (getUTCFullYear t).
Definition getUTCMonth (t : Z) : Z :=
  MonthFromDayInYear (InLeapYear (getUTCFullYear t)) (DayInYear t).
Definition getUTCDate (t : Z) : Z :=
  DayInYear t - MonthStart (InLeapYear (getUTCFullYear t)) (getUTCMonth t) + 1.
Definition getUTCHours (t : Z) : Z := TimeInDay t / 3600000.
Definition getUTCMinutes (t : Z) : Z := TimeInDay t / 60000 mod 60.
Definition getUTCSeconds (t : Z) : Z := TimeInDay t / 1000 mod 60.
Definition getUTCMilliseconds (t : Z) : Z := TimeInDay t mod 1000.

(** [MakeDay] for a month number in [0..11], [MakeTime] and [MakeDate]. *)
Definition MakeDay (y m d : Z) : Z := DayFromYear y + MonthStart (InLeapYear y) m + d - 1.
Definition MakeTime (h mi s ms : Z) : Z := h * 3600000 + mi * 60000 + s * 1000 + ms.
Definition MakeDate (day time : Z) : Z := day * msPerDay + time.

(** ** Years *)

Lemma DayFromYear_succ y : DayFromYear (y + 1) = DayFromYear y + DaysInYear y.
Proof.
  unfold DaysInYear, InLeapYear, DayFromYear.
  destruct (y mod 4 =? 0) eqn:?, (y mod 100 =? 0) eqn:?, (y mod 400 =? 0) eqn:?;
    bool_to_prop; cbn [negb andb orb]; Z.to_euclidean_division_equations; lia.
Qed.

Lemma DaysInYear_pos y : 365 <= DaysInYear y <= 366.
Proof. unfold DaysInYear. destruct (InLeapYear y); lia. Qed.

Lemma DayFromYear_mono y z : y < z → DayFromYear y + 365 <= DayFromYear z.
Proof.
  intros H. pattern z. apply (Zlt_lower_bound_ind _ (y + 1)); [|lia].
  intros x IH Hx. destruct (decide (x = y + 1)) as [->|Hne].
  - rewrite DayFromYear_succ. pose proof (DaysInYear_pos y). lia.
  - specialize (IH (x - 1) ltac:(lia)). replace x with (x - 1 + 1) by lia.
    rewrite DayFromYear_succ. pose proof (DaysInYear_pos (x - 1)). lia.
Qed.

Lemma YearFromDay_bounds d :
  DayFromYear (YearFromDay d) <= d < DayFromYear (YearFromDay d + 1).
Proof.
  unfold YearFromDay. set (y := 1970 + 400 * d / 146097).
  assert (Hlo : DayFromYear (y - 1) <= d).
  { subst y. unfold DayFromYear. Z.to_euclidean_division_equations. lia. }
  assert (Hhi : d < DayFromYear (y + 2)).
  { subst y. unfold DayFromYear. Z.to_euclidean_division_equations. lia. }
  clearbody y. destruct (DayFromYear (y + 1) <=? d) eqn:E1; bool_to_prop.
  - replace (y + 1 + 1) with (y + 2) by lia. lia.
  - destruct (d <? DayFromYear y) eqn:E2; bool_to_prop; [|lia].
    replace (y - 1 + 1) with y by lia. lia.
Qed.

Lemma YearFromDay_unique d y : DayFromYear y <= d < DayFromYear (y + 1) → YearFromDay d = y.
Proof.
  intros H. pose proof (YearFromDay_bounds d) as Hb.
  destruct (Z.lt_trichotomy (YearFromDay d) y) as [Hlt|[|Hlt]]; [|done|].
  - assert (YearFromDay d + 1 <= y) as Hle by lia.
    destruct (decide (YearFromDay d + 1 = y)) as [<-|]; [lia|].
    pose proof (DayFromYear_mono (YearFromDay d + 1) y). lia.
  - destruct (decide (y + 1 = YearFromDay d)) as [E|]; [rewrite E in H; lia|].
    pose proof (DayFromYear_mono (y + 1) (YearFromDay d)). lia.
Qed.

(** ** Months *)

(** Splits the twelve months of [m]. *)
Ltac month_cases m :=
  let H := fresh in
  assert (m = 0 ∨ m = 1 ∨ m = 2 ∨ m = 3 ∨ m = 4 ∨ m = 5 ∨ m = 6 ∨ m = 7 ∨ m = 8 ∨ m = 9
    ∨ m = 10 ∨ m = 11) as H by lia;
  destruct_or! H; subst m.

(** Evaluates the month table at numerals. *)
Ltac eval_months :=
  repeat match goal with
  | |- context [MonthStart ?l (?a + ?b)] =>
    let v := eval compute in (a + b) in change (MonthStart l (a + b)) with (MonthStart l v)
  | H : context [MonthStart ?l (?a + ?b)] |- _ =>
    let v := eval compute in (a + b) in change (MonthStart l (a + b)) with (MonthStart l v) in H
  end; cbn in *; lia.

(** Splits the comparisons of day [d] with the starts of the months from [m] on. *)
Ltac split_days leap d :=
  let rec go m :=
    lazymatch m with
    | 12 => destruct leap; eval_months
    | _ =>
      let n := eval compute in (m + 1) in
      destruct (d <? MonthStart leap m) eqn:?; bool_to_prop;
        [destruct leap; eval_months|go n]
    end in
  go 1.

Lemma MonthFromDayInYear_bounds (leap : bool) d :
  0 <= d < (if leap then 366 else 365) →
  0 <= MonthFromDayInYear leap d <= 11 ∧
  MonthStart leap (MonthFromDayInYear leap d) <= d
    < MonthStart leap (MonthFromDayInYear leap d + 1).
Proof. intros Hd. unfold MonthFromDayInYear. split_days leap d. Qed.

Lemma MonthStart_step leap m : 0 <= m <= 11 → MonthStart leap m + 28 <= MonthStart leap (m + 1).
Proof. intros Hm. month_cases m; destruct leap; eval_months. Qed.

Lemma MonthFromDayInYear_unique leap d m :
  0 <= m <= 11 → MonthStart leap m <= d < MonthStart leap (m + 1) → MonthFromDayInYear leap d = m.
Proof.
  intros Hm Hd. unfold MonthFromDayInYear.
  month_cases m; split_days leap d.
Qed.

Lemma MonthStart_le (leap : bool) m : 0 <= m <= 11 → 0 <= MonthStart leap m <= (if leap then 338 else 337).
Proof. intros Hm. month_cases m; destruct leap; eval_months. Qed.

(** ** Decomposition of a constructed time value *)

Section Construct.
Context (y mo d h mi s : Z).
Context (Hmo : 0 <= mo <= 11) (Hd : 1 <= d <= 28) (Hh : 0 <= h <= 23) (Hmi : 0 <= mi <= 59)
  (Hs : 0 <= s <= 59).
Let t := MakeDate (MakeDay y mo d) (MakeTime h mi s 0).

Lemma construct_time : DayOf t = MakeDay y mo d ∧ TimeInDay t = MakeTime h mi s 0.
Proof.
  unfold DayOf, TimeInDay, t, MakeDate, msPerDay. generalize (MakeDay y mo d). intros k.
  assert (0 <= MakeTime h mi s 0 < 86400000) by (unfold MakeTime; lia).
  rewrite Z.div_add_l, Z.div_small, Z.add_0_r by lia.
  rewrite Z.add_comm, Z.mod_add, Z.mod_small by lia. done.
Qed.

Lemma construct_year : getUTCFullYear t = y.
Proof.
  unfold getUTCFullYear. rewrite (proj1 construct_time). apply YearFromDay_unique.
  rewrite DayFromYear_succ. unfold MakeDay, DaysInYear.
  pose proof (MonthStart_le (InLeapYear y) mo Hmo). destruct (InLeapYear y); lia.
Qed.

Lemma construct_month : getUTCMonth t = mo.
Proof.
  unfold getUTCMonth, DayInYear. rewrite construct_year, (proj1 construct_time).
  apply MonthFromDayInYear_unique; [done|]. unfold MakeDay.
  pose proof (MonthStart_step (InLeapYear y) mo Hmo). lia.
Qed.

Lemma construct_date : getUTCDate t = d.
Proof.
  unfold getUTCDate, DayInYear. rewrite construct_month, construct_year, (proj1 construct_time).
  unfold MakeDay. lia.
Qed.

Lemma construct_clock :
  getUTCHours t = h ∧ getUTCMinutes t = mi ∧ getUTCSeconds t = s ∧ getUTCMilliseconds t = 0.
Proof.
  unfold getUTCHours, getUTCMinutes, getUTCSeconds, getUTCMilliseconds.
  rewrite (proj2 construct_time). unfold MakeTime.
  Z.to_euclidean_division_equations. lia.
Qed.
End Construct.

(** ** Reconstruction of a decomposed time value *)

Lemma getUTCMonth_bounds t : 0 <= getUTCMonth t <= 11.
Proof.
  unfold getUTCMonth. apply MonthFromDayInYear_bounds. unfold DayInYear, getUTCFullYear.
  pose proof (YearFromDay_bounds (DayOf t)) as H. rewrite DayFromYear_succ in H.
  unfold DaysInYear in H. destruct (InLeapYear _); lia.
Qed.

Lemma MakeDay_getUTC t :
  MakeDay (getUTCFullYear t) (getUTCMonth t) (getUTCDate t) = DayOf t.
Proof. unfold MakeDay, getUTCDate, DayInYear. lia. Qed.

Lemma MakeTime_getUTC t :
  MakeTime (getUTCHours t) (getUTCMinutes t) (getUTCSeconds t) (getUTCMilliseconds t)
  = TimeInDay t.
Proof.
  unfold getUTCHours, getUTCMinutes, getUTCSeconds, getUTCMilliseconds, MakeTime.
  Z.to_euclidean_division_equations. lia.
Qed.

Lemma MakeDate_parts t : MakeDate (DayOf t) (TimeInDay t) = t.
Proof. unfold MakeDate, DayOf, TimeInDay, msPerDay. Z.to_euclidean_division_equations. lia. Qed.

(** ** Months as one increasing index *)

Definition MonthDay (index : Z) : Z :=
  DayFromYear (index / 12) + MonthStart (InLeapYear (index / 12)) (index mod 12).

Lemma MonthDay_step i : MonthDay i + 28 <= MonthDay (i + 1).
Proof.
  unfold MonthDay. destruct (decide (i mod 12 = 11)) as [E|E].
  - assert ((i + 1) / 12 = i / 12 + 1) as -> by (Z.to_euclidean_division_equations; lia).
    assert ((i + 1) mod 12 = 0) as -> by (Z.to_euclidean_division_equations; lia).
    rewrite E, DayFromYear_succ. unfold DaysInYear. destruct (InLeapYear (i / 12)); cbn; lia.
  - assert ((i + 1) / 12 = i / 12) as -> by (Z.to_euclidean_division_equations; lia).
    assert ((i + 1) mod 12 = i mod 12 + 1) as -> by (Z.to_euclidean_division_equations; lia).
    pose proof (MonthStart_step (InLeapYear (i / 12)) (i mod 12)).
    pose proof (Z.mod_pos_bound i 12). lia.
Qed.

Lemma MonthDay_mono i j : i < j → MonthDay i + 28 <= MonthDay j.
Proof.
  intros H. pattern j. apply (Zlt_lower_bound_ind _ (i + 1)); [|lia].
  intros x IH Hx. destruct (decide (x = i + 1)) as [->|Hne]; [apply MonthDay_step|].
  specialize (IH (x - 1) ltac:(lia)). pose proof (MonthDay_step (x - 1)) as Hs.
  replace (x - 1 + 1) with x in Hs by lia. lia.
Qed.
