(* ===== verification/RecurringCadence.v ===== *)
(** * Recurring nominal arithmetic (apps/nanocore/src/lib/recurring-cadence.ts)

    The retained cadence, its nominal successor and the constant-work location of a missed prefix.
    Instants are integer milliseconds.  Sums and products of the source are checked with
    [Number.isSafeInteger] before use: an exact result within the safe range is computed exactly by
    doubles, and one outside it rounds to a value outside it and is rejected, so exact integers give
    the same outcome (also for the floored quotient of two safe integers). *)

From S2P Require Import Prelude Calendar.
Local Open Scope Z_scope.

(** ** Data *)

Record MonthlyUtcSchedule := {
  zone : string;
  dayOfMonth : Z;
  hour : Z;
  minute : Z;
  second : Z;
}.
#[export] Instance MonthlyUtcSchedule_eq_dec : EqDecision MonthlyUtcSchedule.
Proof. solve_decision. Defined.

Record AutomationCadence := {
  intervalSeconds : option Z;
  monthlyUtc : option MonthlyUtcSchedule;
}.

Record RecurringNominalPrefix := { count : Z; last : Z; next : option Z }.

(** [RecurringCadenceExhaustedError] extends [RangeError]; [ZodError] does not. *)
Inductive CadenceError := ZodError | RangeError (message : string) | CadenceExhausted.

Definition is_range_error (e : CadenceError) : bool :=
  match e with ZodError => false | _ => true end.

(** ** The retained schema (apps/nanocore/src/storage/recurring-retained-v1.ts) *)

Definition int_between (lo hi n : Z) : bool := (lo <=? n) && (n <=? hi).

Definition validMonthlyUtc (m : MonthlyUtcSchedule) : bool :=
  bool_decide (zone m = "UTC"%string) && int_between 1 28 (dayOfMonth m)
  && int_between 0 23 (hour m) && int_between 0 59 (minute m) && int_between 0 59 (second m).

(** [requireOneStoredTiming]: no issue when exactly one timing form is present. *)
Definition requireOneStoredTiming (c : AutomationCadence) : bool :=
  negb (eqb (bool_decide (intervalSeconds c = None)) (bool_decide (monthlyUtc c = None))).

Definition parseCadence (c : AutomationCadence) : result CadenceError AutomationCadence :=
  require match intervalSeconds c with
          | Some s => isSafeInteger s && (5 <=? s) | None => true end else ZodError;
  require match monthlyUtc c with Some m => validMonthlyUtc m | None => true end else ZodError;
  require requireOneStoredTiming c else ZodError;
  Ok c.

(** ** Checked dates *)

Definition checkedDate (instant : Z) : result CadenceError Z :=
  if negb (isSafeInteger instant) || negb (Z.abs instant <=? maxTime)
     || (getUTCFullYear instant <? 0) || (9999 <? getUTCFullYear instant)
  then Err (RangeError "Recurring nominal timestamp is outside the supported UTC range.")
  else Ok instant.

Definition intervalStep (seconds : Z) : result CadenceError Z :=
  let step := seconds * 1000 in
  require isSafeInteger step else
    RangeError "Recurring interval exceeds safe integer arithmetic.";
  Ok step.

Definition monthIndex (instant : Z) : result CadenceError Z :=
  date ← checkedDate instant;
  Ok (getUTCFullYear date * 12 + getUTCMonth date).

Definition monthlyInstant (index : Z) (monthly : MonthlyUtcSchedule) : result CadenceError Z :=
  if negb (isSafeInteger index) || (index <? 0) || (120000 <=? index)
  then Err (RangeError "Recurring monthly successor is outside the supported UTC range.")
  else
    checkedDate (MakeDate (MakeDay (index / 12) (index mod 12) (dayOfMonth monthly))
                          (MakeTime (hour monthly) (minute monthly) (second monthly) 0)).

(** ** Nominal rule *)

Definition monthly_matches (monthly : MonthlyUtcSchedule) (date : Z) : bool :=
  (getUTCDate date =? dayOfMonth monthly) && (getUTCHours date =? hour monthly)
  && (getUTCMinutes date =? minute monthly) && (getUTCSeconds date =? second monthly)
  && (getUTCMilliseconds date =? 0).

Definition recurringNominalMatches (cadence : AutomationCadence) (instant : Z)
    : result CadenceError bool :=
  timing ← parseCadence cadence;
  date ← checkedDate instant;
  Ok match monthlyUtc timing with None => true | Some monthly => monthly_matches monthly date end.

(** [catch (error) { if (!(error instanceof RangeError)) throw error; throw new ...Exhausted }] *)
Definition catch_range {A} (r : result CadenceError A) : result CadenceError A :=
  match r with
  | Err e => Err (if is_range_error e then CadenceExhausted else e)
  | Ok a => Ok a
  end.

Definition not_matching : CadenceError :=
  RangeError "Recurring cursor does not match its monthly UTC rule.".

(** [timing.intervalSeconds!]: the schema guarantees the value where the code asserts it. *)
Definition interval_of (timing : AutomationCadence) : Z := default 0 (intervalSeconds timing).

Definition advanceRecurringNominal (cadence : AutomationCadence) (instant : Z)
    : result CadenceError Z :=
  timing ← parseCadence cadence;
  matches ← recurringNominalMatches timing instant;
  require (matches : bool) else not_matching;
  catch_range
    match monthlyUtc timing with
    | None => step ← intervalStep (interval_of timing); checkedDate (instant + step)
    | Some monthly => index ← monthIndex instant; monthlyInstant (index + 1) monthly
    end.

(** [null] when only the successor leaves the calendar; every other error is rethrown. *)
Definition exhausted_to_null (r : result CadenceError Z) : result CadenceError (option Z) :=
  match r with
  | Ok n => Ok (Some n)
  | Err CadenceExhausted => Ok None
  | Err e => Err e
  end.

Definition nextOrNull (cadence : AutomationCadence) (instant : Z)
    : result CadenceError (option Z) :=
  exhausted_to_null (advanceRecurringNominal cadence instant).

(** [onError] is the observer of the exhaustion; it does not change the returned value. *)
Definition nextRecurringNominal (cadence : AutomationCadence) (at_ : Z)
    : result CadenceError (option Z) :=
  exhausted_to_null (advanceRecurringNominal cadence at_).

Definition recurringPrefixThrough (cadence : AutomationCadence) (first through : Z)
    : result CadenceError (option RecurringNominalPrefix) :=
  timing ← parseCadence cadence;
  _ ← checkedDate through;
  matches ← recurringNominalMatches timing first;
  require (matches : bool) else not_matching;
  if through <? first then Ok None
  else
    match monthlyUtc timing with
    | Some monthly =>
      firstMonth ← monthIndex first;
      throughMonth ← monthIndex through;
      probe ← monthlyInstant throughMonth monthly;
      let lastMonth := if through <? probe then throughMonth - 1 else throughMonth in
      l ← monthlyInstant lastMonth monthly;
      n ← nextOrNull timing l;
      Ok (Some {| count := lastMonth - firstMonth + 1; last := l; next := n |})
    | None =>
      if negb (isSafeInteger (interval_of timing * 1000))
      then Ok (Some {| count := 1; last := first; next := None |})
      else
        step ← intervalStep (interval_of timing);
        let c := (through - first) / step + 1 in
        let l := first + (c - 1) * step in
        l' ← checkedDate l;
        n ← nextOrNull timing l;
        Ok (Some {| count := c; last := l'; next := n |})
    end.

(** ** Retained range coverage *)

(** The timestamps are the instants [Date.parse] reads from the schema-checked strings. *)
Record RecurringRange := {
  rg_cadence : AutomationCadence;
  rg_firstScheduledAt : Z;
  rg_lastScheduledAt : Z;
  rg_count : Z;
  rg_snapshotMonthlyUtc : option MonthlyUtcSchedule;
}.

Definition same_monthly (root snapshot : option MonthlyUtcSchedule) : bool :=
  match root, snapshot with
  | None, None => true
  | Some r, Some s =>
    bool_decide (zone r = zone s) && (dayOfMonth r =? dayOfMonth s) && (hour r =? hour s)
    && (minute r =? minute s) && (second r =? second s)
  | _, _ => false
  end.

Definition validateRecurringRangeCoverage (range : RecurringRange) : result CadenceError unit :=
  coverage ← recurringPrefixThrough (rg_cadence range) (rg_firstScheduledAt range)
    (rg_lastScheduledAt range);
  require match coverage with
          | Some p =>
            (last p =? rg_lastScheduledAt range) && (count p =? rg_count range)
            && same_monthly (monthlyUtc (rg_cadence range)) (rg_snapshotMonthlyUtc range)
          | None => false
          end
  else RangeError "Expired recurring range contradicts its exact cadence or snapshot.";
  Ok tt.

(** ** Bounds of the calendar *)

Definition minInstant : Z := -62167219200000.
Definition maxInstant : Z := 253402300799999.

Lemma checkedDate_Ok instant t :
  checkedDate instant = Ok t ↔ t = instant ∧ minInstant <= instant <= maxInstant.
Proof.
  assert (Hy : 0 <= getUTCFullYear instant <= 9999 ↔ minInstant <= instant <= maxInstant).
  { unfold getUTCFullYear, minInstant, maxInstant.
    pose proof (YearFromDay_bounds (DayOf instant)) as Hb.
    assert (H0 : DayFromYear 0 = -719528) by done.
    assert (H1 : DayFromYear 10000 = 2932897) by done.
    assert (Hd : -719528 <= DayOf instant < 2932897 ↔
                 -62167219200000 <= instant <= 253402300799999).
    { unfold DayOf, msPerDay. Z.to_euclidean_division_equations. lia. }
    rewrite <-Hd. set (y := YearFromDay (DayOf instant)) in *. clearbody y. split.
    - intros Hy.
      assert (DayFromYear 0 <= DayFromYear y).
      { destruct (decide (y = 0)) as [E|]; [rewrite E; lia|]. pose proof (DayFromYear_mono 0 y). lia. }
      assert (DayFromYear (y + 1) <= DayFromYear 10000).
      { destruct (decide (y = 9999)) as [E|]; [rewrite E; done|].
        pose proof (DayFromYear_mono (y + 1) 10000). lia. }
      lia.
    - intros Hi. split.
      + destruct (decide (0 <= y)); [done|].
        destruct (decide (y + 1 = 0)) as [E|]; [rewrite E in Hb; lia|].
        pose proof (DayFromYear_mono (y + 1) 0). lia.
      + destruct (decide (y <= 9999)); [done|].
        destruct (decide (y = 10000)) as [->|]; [lia|]. pose proof (DayFromYear_mono 10000 y). lia. }
  unfold checkedDate. destruct (_ || _) eqn:E.
  - split; [done|]. intros [-> Hi]. apply Hy in Hi as Hyy.
    rewrite (proj2 (Z.ltb_ge _ _)), (proj2 (Z.ltb_ge _ _)) in E by lia.
    unfold isSafeInteger, maxSafeInteger, maxTime, minInstant, maxInstant in *.
    rewrite !orb_false_r in E. apply orb_true_iff in E as [E|E]; bool_to_prop.
    + destruct E; bool_to_prop; lia.
    + lia.
  - apply orb_false_iff in E as [E E3]. apply orb_false_iff in E as [_ E2]. bool_to_prop.
    split; [intros [= ->]; split; [done|]; apply Hy; lia|]. by intros [-> _].
Qed.

(** ** Monthly instants *)

Definition month_index (t : Z) : Z := getUTCFullYear t * 12 + getUTCMonth t.

Definition monthly_time (i : Z) (m : MonthlyUtcSchedule) : Z :=
  MakeDate (MakeDay (i / 12) (i mod 12) (dayOfMonth m))
    (MakeTime (hour m) (minute m) (second m) 0).

Lemma month_index_parts t :
  month_index t / 12 = getUTCFullYear t ∧ month_index t mod 12 = getUTCMonth t.
Proof.
  unfold month_index. pose proof (getUTCMonth_bounds t).
  Z.to_euclidean_division_equations. lia.
Qed.

Lemma valid_monthly_bounds m :
  validMonthlyUtc m = true →
  1 <= dayOfMonth m <= 28 ∧ 0 <= hour m <= 23 ∧ 0 <= minute m <= 59 ∧ 0 <= second m <= 59.
Proof. unfold validMonthlyUtc, int_between. intros H. bool_to_prop. lia. Qed.

Section Monthly.
Context (m : MonthlyUtcSchedule) (Hm : validMonthlyUtc m = true).

Lemma month_index_time i : month_index (monthly_time i m) = i.
Proof.
  destruct (valid_monthly_bounds m Hm) as (? & ? & ? & ?).
  pose proof (Z.mod_pos_bound i 12 ltac:(lia)).
  unfold month_index, monthly_time.
  rewrite construct_year, construct_month by lia. pose proof (Z.div_mod i 12). lia.
Qed.

Lemma monthly_matches_time i : monthly_matches m (monthly_time i m) = true.
Proof.
  destruct (valid_monthly_bounds m Hm) as (? & ? & ? & ?).
  pose proof (Z.mod_pos_bound i 12 ltac:(lia)). unfold monthly_matches, monthly_time.
  destruct (construct_clock (i / 12) (i mod 12) (dayOfMonth m) (hour m) (minute m) (second m))
    as (-> & -> & -> & ->); [lia..|]. rewrite construct_date by lia.
  by rewrite !Z.eqb_refl.
Qed.

Lemma monthly_matches_iff t : monthly_matches m t = true ↔ t = monthly_time (month_index t) m.
Proof.
  split; [|intros E; rewrite E; apply monthly_matches_time].
  unfold monthly_matches. intros H. bool_to_prop. unfold monthly_time.
  destruct (month_index_parts t) as [-> ->].
  replace (dayOfMonth m) with (getUTCDate t) by done. rewrite MakeDay_getUTC.
  replace (MakeTime _ _ _ 0) with (TimeInDay t) by (rewrite <-MakeTime_getUTC; congruence).
  by rewrite MakeDate_parts.
Qed.

(** The instant lies in the window of its month. *)
Lemma monthly_time_window i :
  MonthDay i * msPerDay <= monthly_time i m < MonthDay (i + 1) * msPerDay.
Proof.
  destruct (valid_monthly_bounds m Hm) as (? & ? & ? & ?).
  pose proof (MonthDay_step i). unfold monthly_time, MakeDate, MakeDay, MakeTime.
  unfold MonthDay in *. unfold msPerDay. lia.
Qed.

Lemma month_window t :
  MonthDay (month_index t) * msPerDay <= t < MonthDay (month_index t + 1) * msPerDay.
Proof.
  set (i := month_index t).
  assert (Hday : MonthDay i <= DayOf t < MonthDay (i + 1)).
  { destruct (month_index_parts t) as [Hy Hmo]. pose proof (getUTCMonth_bounds t) as Hmb.
    pose proof (YearFromDay_bounds (DayOf t)) as Hyb. fold (getUTCFullYear t) in Hyb.
    rewrite DayFromYear_succ in Hyb. unfold DaysInYear in Hyb.
    destruct (MonthFromDayInYear_bounds (InLeapYear (getUTCFullYear t)) (DayInYear t)) as [_ Hb];
      [unfold DayInYear; destruct (InLeapYear _); lia|].
    fold (getUTCMonth t) in Hb. unfold DayInYear in Hb.
    assert (Hi : MonthDay i = DayFromYear (getUTCFullYear t)
                   + MonthStart (InLeapYear (getUTCFullYear t)) (getUTCMonth t))
      by (unfold MonthDay, i; by rewrite Hy, Hmo).
    split; [lia|]. unfold i, month_index. unfold MonthDay.
    destruct (decide (getUTCMonth t = 11)) as [E|E].
    - replace ((_ + _ + 1) / 12) with (getUTCFullYear t + 1)
        by (rewrite E; Z.to_euclidean_division_equations; lia).
      replace ((_ + _ + 1) mod 12) with 0
        by (rewrite E; Z.to_euclidean_division_equations; lia).
      rewrite DayFromYear_succ. unfold DaysInYear. destruct (InLeapYear _); cbn; lia.
    - replace ((_ + _ + 1) / 12) with (getUTCFullYear t)
        by (Z.to_euclidean_division_equations; lia).
      replace ((_ + _ + 1) mod 12) with (getUTCMonth t + 1)
        by (Z.to_euclidean_division_equations; lia). lia. }
  unfold DayOf, msPerDay in *. Z.to_euclidean_division_equations. lia.
Qed.

Lemma month_index_mono s t : s <= t → month_index s <= month_index t.
Proof.
  intros H. destruct (decide (month_index s <= month_index t)); [done|].
  pose proof (month_window s). pose proof (month_window t).
  destruct (decide (month_index t + 1 = month_index s)) as [E|].
  - rewrite E in *. lia.
  - pose proof (MonthDay_mono (month_index t + 1) (month_index s)). unfold msPerDay in *. lia.
Qed.

Lemma monthly_time_mono i j : i < j → monthly_time i m < monthly_time j m.
Proof.
  intros H. pose proof (monthly_time_window i). pose proof (monthly_time_window j).
  destruct (decide (i + 1 = j)) as [<-|]; [lia|].
  pose proof (MonthDay_mono (i + 1) j). unfold msPerDay in *. lia.
Qed.

Lemma month_index_range t :
  minInstant <= t <= maxInstant ↔ 0 <= month_index t < 120000.
Proof.
  assert (H0 : MonthDay 0 * msPerDay = minInstant) by done.
  assert (H1 : MonthDay 120000 * msPerDay = maxInstant + 1) by done.
  pose proof (month_window t) as Hw. set (i := month_index t) in *. clearbody i.
  assert (Hmono : ∀ a b, a <= b → MonthDay a <= MonthDay b).
  { intros a b Hab. destruct (decide (a = b)) as [->|]; [lia|].
    pose proof (MonthDay_mono a b). lia. }
  unfold msPerDay in *. split.
  - intros Ht. split.
    + destruct (decide (0 <= i)); [done|]. specialize (Hmono (i + 1) 0). lia.
    + destruct (decide (i < 120000)); [done|]. specialize (Hmono 120000 i). lia.
  - intros Hi. pose proof (Hmono 0 i). pose proof (Hmono (i + 1) 120000). lia.
Qed.

Lemma monthlyInstant_Ok i t :
  monthlyInstant i m = Ok t ↔ t = monthly_time i m ∧ 0 <= i < 120000.
Proof.
  unfold monthlyInstant. fold (monthly_time i m). pose proof (month_index_range (monthly_time i m)) as Hr.
  rewrite month_index_time in Hr. destruct (_ || _) eqn:E.
  - split; [done|]. intros [_ Hi]. unfold isSafeInteger, maxSafeInteger in E.
    rewrite (proj2 (Z.leb_le _ _)), (proj2 (Z.leb_le _ _)), (proj2 (Z.ltb_ge _ _)),
      (proj2 (Z.leb_gt _ _)) in E by lia. done.
  - rewrite checkedDate_Ok. rewrite Hr. done.
Qed.

Lemma monthlyInstant_Err i : ¬ (0 <= i < 120000) → ∃ msg, monthlyInstant i m = Err (RangeError msg).
Proof.
  intros Hi. unfold monthlyInstant. destruct (_ || _) eqn:E; [by eexists|].
  bool_to_prop. lia.
Qed.
End Monthly.

(** ** Admitted cadences *)

Definition admitted (c : AutomationCadence) : Prop := parseCadence c = Ok c.

(** The instant is representable and satisfies the rule. *)
Definition nominal (c : AutomationCadence) (t : Z) : Prop := recurringNominalMatches c t = Ok true.

Definition fixed_cadence (s : Z) : AutomationCadence :=
  {| intervalSeconds := Some s; monthlyUtc := None |}.
Definition monthly_cadence (m : MonthlyUtcSchedule) : AutomationCadence :=
  {| intervalSeconds := None; monthlyUtc := Some m |}.

Lemma parseCadence_Ok c c' : parseCadence c = Ok c' → c' = c.
Proof. unfold parseCadence. repeat case_match; congruence. Qed.

Lemma parseCadence_Err c e : parseCadence c = Err e → e = ZodError.
Proof. unfold parseCadence. repeat case_match; congruence. Qed.

Lemma admitted_cases c :
  admitted c ↔
  (∃ s, c = fixed_cadence s ∧ 5 <= s <= maxSafeInteger) ∨
  (∃ m, c = monthly_cadence m ∧ validMonthlyUtc m = true).
Proof.
  unfold admitted, parseCadence, fixed_cadence, monthly_cadence, requireOneStoredTiming.
  destruct c as [[s|] [m|]]; cbn.
  - split; [repeat case_match; done|naive_solver].
  - unfold isSafeInteger, maxSafeInteger. split.
    + repeat case_match; try done. intros _. left. exists s. split; [done|]. bool_to_prop. lia.
    + intros [(s' & [= <-] & Hs)|(? & ? & _)]; [|done].
      by rewrite !(proj2 (Z.leb_le _ _)) by lia.
  - destruct (validMonthlyUtc m) eqn:E; cbn.
    + split; [intros _; right; by exists m|done].
    + split; [done|]. intros [(? & ? & _)|(? & [= <-] & ?)]; congruence.
  - split; [done|naive_solver].
Qed.

Lemma nominal_fixed s t :
  admitted (fixed_cadence s) → nominal (fixed_cadence s) t ↔ minInstant <= t <= maxInstant.
Proof.
  intros Ha. unfold nominal, recurringNominalMatches. rewrite Ha. cbn.
  rewrite bind_Ok. setoid_rewrite checkedDate_Ok. naive_solver.
Qed.

Lemma nominal_monthly m t :
  admitted (monthly_cadence m) →
  nominal (monthly_cadence m) t ↔ t = monthly_time (month_index t) m ∧ 0 <= month_index t < 120000.
Proof.
  intros Ha. assert (Hm : validMonthlyUtc m = true).
  { apply admitted_cases in Ha as [(? & ? & _)|(? & [= <-] & ?)]; done. }
  unfold nominal, recurringNominalMatches. rewrite Ha. cbn. rewrite bind_Ok.
  setoid_rewrite checkedDate_Ok. rewrite <-monthly_matches_iff, <-month_index_range by done.
  split; [intros (? & [-> ?] & [= ?])|intros [H ?]; exists t; rewrite H]; done.
Qed.

Lemma admitted_monthly m : admitted (monthly_cadence m) → validMonthlyUtc m = true.
Proof. intros [(? & ? & _)|(? & [= <-] & ?)]%admitted_cases; done. Qed.

Lemma monthIndex_Ok t i :
  monthIndex t = Ok i ↔ i = month_index t ∧ minInstant <= t <= maxInstant.
Proof.
  unfold monthIndex. rewrite bind_Ok. setoid_rewrite checkedDate_Ok. unfold month_index.
  split; [intros (? & [-> ?] & [= <-])|intros [-> ?]; exists t]; done.
Qed.

(** The step taken at a nominal instant, on the two timing forms. *)
Lemma advance_fixed s t :
  admitted (fixed_cadence s) → nominal (fixed_cadence s) t →
  advanceRecurringNominal (fixed_cadence s) t =
  if t + s * 1000 <=? maxInstant then Ok (t + s * 1000) else Err CadenceExhausted.
Proof.
  intros Ha Hn. unfold advanceRecurringNominal. rewrite Ha. cbn -[checkedDate]. rewrite Hn.
  cbn -[checkedDate]. apply nominal_fixed in Hn; [|done].
  apply admitted_cases in Ha as [(? & [= <-] & Hs)|(? & ? & _)]; [|done].
  unfold intervalStep, interval_of. cbn -[checkedDate].
  destruct (isSafeInteger (s * 1000)) eqn:Es; cbn -[checkedDate].
  - destruct (t + s * 1000 <=? maxInstant) eqn:Et; bool_to_prop.
    + rewrite (proj2 (checkedDate_Ok _ (t + s * 1000))); [done|]. unfold minInstant in *. lia.
    + destruct (checkedDate (t + s * 1000)) as [u|e] eqn:Ec; cbn.
      * apply checkedDate_Ok in Ec. lia.
      * f_equal. unfold checkedDate in Ec. by destruct (_ || _); simplify_eq.
  - rewrite (proj2 (Z.leb_gt _ _)); [done|].
    unfold isSafeInteger in Es. apply andb_false_iff in Es as [Es|Es]; bool_to_prop;
      unfold maxSafeInteger, minInstant, maxInstant in *; lia.
Qed.

Lemma advance_monthly m t :
  admitted (monthly_cadence m) → nominal (monthly_cadence m) t →
  advanceRecurringNominal (monthly_cadence m) t =
  if month_index t + 1 <? 120000 then Ok (monthly_time (month_index t + 1) m)
  else Err CadenceExhausted.
Proof.
  intros Ha Hn. pose proof (admitted_monthly m Ha) as Hm.
  unfold advanceRecurringNominal. rewrite Ha. cbn -[checkedDate monthIndex monthlyInstant].
  rewrite Hn. cbn -[checkedDate monthIndex monthlyInstant].
  apply nominal_monthly in Hn as [_ Hi]; [|done].
  rewrite (proj2 (monthIndex_Ok t (month_index t))); [|split; [done|by apply month_index_range]].
  cbn -[monthlyInstant]. destruct (_ <? 120000) eqn:E; bool_to_prop.
  - rewrite (proj2 (monthlyInstant_Ok m Hm _ (monthly_time (month_index t + 1) m))); [done|].
    split; [done|lia].
  - destruct (monthlyInstant_Err m (month_index t + 1)) as [msg ->]; [lia|done].
Qed.

(** ** The nominal successor *)

(** What advancing from a nominal instant does. *)
Lemma advance_nominal_spec c t :
  admitted c → nominal c t →
  match advanceRecurringNominal c t with
  | Ok u => nominal c u ∧ t < u ∧
    match intervalSeconds c with
    | Some s => u = t + s * 1000
    | None => ∀ v, nominal c v → t < v → u <= v
    end
  | Err e => e = CadenceExhausted ∧
    match intervalSeconds c with
    | Some s => maxInstant < t + s * 1000
    | None => ∀ v, nominal c v → v <= t
    end
  end.
Proof.
  intros Ha Hn. destruct (proj1 (admitted_cases c) Ha) as [(s & -> & Hs)|(m & -> & Hm)].
  - rewrite (advance_fixed s t Ha Hn). cbn [intervalSeconds fixed_cadence].
    destruct (_ <=? _) eqn:E; bool_to_prop; [|split; [done|lia]].
    apply nominal_fixed in Hn; [|done]. split; [apply nominal_fixed; [done|]|]; lia.
  - rewrite (advance_monthly m t Ha Hn). cbn [intervalSeconds monthly_cadence].
    apply nominal_monthly in Hn as [Ht Hi]; [|done].
    assert (Hnext : ∀ v, nominal (monthly_cadence m) v → t < v → month_index t + 1 <= month_index v).
    { intros v [Hv _]%nominal_monthly Htv; [|done].
      pose proof (month_index_mono t v ltac:(lia)).
      destruct (decide (month_index t = month_index v)) as [E|]; [|lia].
      rewrite Ht, Hv, E in Htv. lia. }
    destruct (_ <? _) eqn:E; bool_to_prop.
    + split; [|split].
      * apply nominal_monthly; [done|]. rewrite month_index_time by done. split; [done|lia].
      * rewrite Ht at 1. apply monthly_time_mono; [done|lia].
      * intros v Hv Htv. specialize (Hnext v Hv Htv). apply nominal_monthly in Hv as [-> _]; [|done].
        destruct (decide (month_index t + 1 = month_index v)) as [->|]; [lia|].
        apply Z.lt_le_incl, monthly_time_mono; [done|lia].
    + split; [done|]. intros v Hv. destruct (decide (v <= t)); [done|].
      specialize (Hnext v Hv ltac:(lia)). apply nominal_monthly in Hv as [_ ?]; [lia|done].
Qed.

(** Advancing from a nominal instant of an admitted cadence yields the next nominal instant:
    for a fixed interval exactly one interval later, for a monthly rule the least matching instant
    after it.  The only failure is exhaustion, and it occurs exactly when no successor is
    representable in the four-digit UTC years. *)
Theorem advance_is_nominal_successor c t :
  admitted c → nominal c t →
  match advanceRecurringNominal c t with
  | Ok u => nominal c u ∧ t < u ∧
    match intervalSeconds c with
    | Some s => u = t + s * 1000
    | None => ∀ v, nominal c v → t < v → u <= v
    end
  | Err e => e = CadenceExhausted ∧
    match intervalSeconds c with
    | Some s => maxInstant < t + s * 1000
    | None => ∀ v, nominal c v → v <= t
    end
  end.
Proof. apply advance_nominal_spec. Qed.

(** ** The missed prefix *)

(** The reference computation: [n] single steps of the nominal rule. *)
Fixpoint iterate_advance (n : nat) (c : AutomationCadence) (t : Z) : result CadenceError Z :=
  match n with
  | O => Ok t
  | S n => u ← advanceRecurringNominal c t; iterate_advance n c u
  end.

Lemma iterate_fixed s n t :
  admitted (fixed_cadence s) → nominal (fixed_cadence s) t →
  t + Z.of_nat n * (s * 1000) <= maxInstant →
  iterate_advance n (fixed_cadence s) t = Ok (t + Z.of_nat n * (s * 1000)).
Proof.
  intros Ha. assert (Hs : 5 <= s).
  { apply admitted_cases in Ha as [(? & [= <-] & ?)|(? & ? & _)]; [lia|done]. }
  revert t. induction n as [|n IH]; intros t Hn Hle; [cbn; f_equal; lia|].
  cbn -[Z.of_nat Z.mul advanceRecurringNominal]. rewrite (advance_fixed s t Ha Hn).
  rewrite (proj2 (Z.leb_le _ _)) by nia. cbn -[Z.of_nat Z.mul advanceRecurringNominal].
  rewrite IH; [f_equal; lia| |lia]. apply nominal_fixed; [done|].
  apply nominal_fixed in Hn; [|done]. nia.
Qed.

Lemma iterate_monthly m n t :
  admitted (monthly_cadence m) → nominal (monthly_cadence m) t →
  month_index t + Z.of_nat n < 120000 →
  iterate_advance n (monthly_cadence m) t = Ok (monthly_time (month_index t + Z.of_nat n) m).
Proof.
  intros Ha. pose proof (admitted_monthly m Ha) as Hm.
  revert t. induction n as [|n IH]; intros t Hn Hle.
  - apply nominal_monthly in Hn as [Ht _]; [|done]. cbn -[Z.of_nat monthly_time advanceRecurringNominal]. rewrite Z.add_0_r.
    by rewrite <-Ht.
  - cbn -[Z.of_nat monthly_time advanceRecurringNominal]. rewrite (advance_monthly m t Ha Hn).
    rewrite (proj2 (Z.ltb_lt _ _)) by lia. cbn -[Z.of_nat monthly_time advanceRecurringNominal].
    rewrite IH; [|apply nominal_monthly; [done|]|]; rewrite month_index_time by done.
    + f_equal. f_equal. lia.
    + split; [done|]. apply nominal_monthly in Hn as [_ ?]; [lia|done].
    + lia.
Qed.

(** The next-instant field that goes with a nominal instant. *)
Lemma nextOrNull_nominal c t :
  admitted c → nominal c t →
  ∃ o, nextOrNull c t = Ok o ∧
    advanceRecurringNominal c t = match o with Some u => Ok u | None => Err CadenceExhausted end.
Proof.
  intros Ha Hn. unfold nextOrNull, exhausted_to_null.
  destruct (proj1 (admitted_cases c) Ha) as [(s & -> & _)|(m & -> & _)].
  - rewrite (advance_fixed s t Ha Hn). destruct (_ <=? _); by eexists.
  - rewrite (advance_monthly m t Ha Hn). destruct (_ <? _); by eexists.
Qed.

(** What the closed forms compute: the last covered nominal instant, its position and successor. *)
Record prefix_facts (c : AutomationCadence) (first through : Z) (p : RecurringNominalPrefix)
    : Prop := {
  pf_eq : recurringPrefixThrough c first through = Ok (Some p);
  pf_count : 1 <= count p;
  pf_iterate : iterate_advance (Z.to_nat (count p - 1)) c first = Ok (last p);
  pf_last : last p <= through;
  pf_nominal : nominal c (last p);
  pf_next : advanceRecurringNominal c (last p) =
    match next p with Some u => Ok u | None => Err CadenceExhausted end;
  pf_beyond : ∀ u, next p = Some u → through < u;
}.

Lemma prefix_fixed s first through :
  admitted (fixed_cadence s) → nominal (fixed_cadence s) first → first <= through <= maxInstant →
  let q := (through - first) / (s * 1000) in
  ∃ n, prefix_facts (fixed_cadence s) first through
    {| count := q + 1; last := first + q * (s * 1000); next := n |}.
Proof.
  intros Ha Hn Hle q. pose proof (proj1 (nominal_fixed s first Ha) Hn) as Hr.
  assert (Hs : 5 <= s).
  { apply admitted_cases in Ha as [(? & [= <-] & ?)|(? & ? & _)]; [lia|done]. }
  assert (Hq : q * (s * 1000) <= through - first < (q + 1) * (s * 1000) ∧ 0 <= q).
  { unfold q. pose proof (Z.div_mod (through - first) (s * 1000)).
    pose proof (Z.mod_pos_bound (through - first) (s * 1000)).
    pose proof (Z.div_pos (through - first) (s * 1000)). lia. }
  assert (Hl : nominal (fixed_cadence s) (first + q * (s * 1000))).
  { apply nominal_fixed; [done|]. nia. }
  destruct (nextOrNull_nominal _ _ Ha Hl) as (n & Hnull & Hadv).
  exists n. split; cbn [count last next]; try done; try lia.
  - unfold recurringPrefixThrough. rewrite Ha. cbn -[checkedDate recurringNominalMatches].
    rewrite (proj2 (checkedDate_Ok through through)) by lia.
    cbn -[checkedDate recurringNominalMatches]. rewrite Hn. cbn -[checkedDate].
    rewrite (proj2 (Z.ltb_ge _ _)) by lia. unfold interval_of, intervalStep.
    cbn -[checkedDate nextOrNull].
    destruct (isSafeInteger (s * 1000)) eqn:Es; cbn -[checkedDate nextOrNull].
    + fold q. replace (q + 1 - 1) with q by lia.
      rewrite (proj2 (checkedDate_Ok (first + q * (s * 1000)) _)) by
        (split; [reflexivity|]; by apply nominal_fixed in Hl).
      cbn -[nextOrNull]. by rewrite Hnull.
    + assert (Hbig : maxSafeInteger < s * 1000).
      { unfold isSafeInteger in Es. apply andb_false_iff in Es as [Es|Es]; bool_to_prop;
          unfold maxSafeInteger in *; lia. }
      assert (Hq0 : q = 0).
      { unfold q. apply Z.div_small. unfold minInstant, maxInstant, maxSafeInteger in *. lia. }
      rewrite Hq0 in *. rewrite Z.mul_0_l, Z.add_0_r in *.
      rewrite (advance_fixed s first Ha Hn) in Hadv.
      rewrite (proj2 (Z.leb_gt _ _)) in Hadv by (unfold minInstant, maxInstant, maxSafeInteger in *; lia).
      by destruct n.
  - replace (q + 1 - 1) with q by lia. rewrite iterate_fixed; [|done|done|].
    + f_equal. lia.
    + apply nominal_fixed in Hl; [|done]. lia.
  - intros u ->. rewrite (advance_fixed s _ Ha Hl) in Hadv. destruct (_ <=? _); simplify_eq. lia.
Qed.

Lemma prefix_monthly m first through :
  admitted (monthly_cadence m) → nominal (monthly_cadence m) first →
  first <= through <= maxInstant →
  let k := if through <? monthly_time (month_index through) m then month_index through - 1
           else month_index through in
  ∃ n, prefix_facts (monthly_cadence m) first through
    {| count := k - month_index first + 1; last := monthly_time k m; next := n |}.
Proof.
  intros Ha Hn Hle k. pose proof (admitted_monthly m Ha) as Hm.
  pose proof (proj1 (nominal_monthly m first Ha) Hn) as [Hf Hfi].
  apply month_index_range in Hfi as Hfr.
  assert (Htr : minInstant <= through <= maxInstant) by lia.
  apply month_index_range in Htr as Hti.
  assert (Hk : month_index first <= k < 120000 ∧ monthly_time k m <= through < monthly_time (k + 1) m).
  { pose proof (month_index_mono first through ltac:(lia)) as Hmono.
    pose proof (month_window through) as Hw.
    pose proof (monthly_time_window m Hm (month_index through + 1)) as Hnx.
    pose proof (monthly_time_window m Hm (month_index through - 1)) as Hpv.
    replace (month_index through - 1 + 1) with (month_index through) in Hpv by lia.
    unfold k. destruct (_ <? _) eqn:E; bool_to_prop.
    - replace (month_index through - 1 + 1) with (month_index through) by lia.
      split; [|lia]. destruct (decide (month_index first = month_index through)) as [Eq|]; [|lia].
      rewrite <-Eq, <-Hf in E. lia.
    - split; lia. }
  assert (Hl : nominal (monthly_cadence m) (monthly_time k m)).
  { apply nominal_monthly; [done|]. rewrite month_index_time by done. split; [done|lia]. }
  destruct (nextOrNull_nominal _ _ Ha Hl) as (n & Hnull & Hadv).
  exists n. split; cbn [count last next]; try done; try lia.
  - unfold recurringPrefixThrough. rewrite Ha.
    cbn -[checkedDate recurringNominalMatches monthIndex monthlyInstant nextOrNull].
    rewrite (proj2 (checkedDate_Ok through through)) by lia.
    cbn -[recurringNominalMatches monthIndex monthlyInstant nextOrNull]. rewrite Hn.
    cbn -[monthIndex monthlyInstant nextOrNull]. rewrite (proj2 (Z.ltb_ge _ _)) by lia.
    rewrite (proj2 (monthIndex_Ok first _)) by (split; [reflexivity|done]).
    cbn -[monthIndex monthlyInstant nextOrNull].
    rewrite (proj2 (monthIndex_Ok through _)) by (split; [reflexivity|done]).
    cbn -[monthlyInstant nextOrNull].
    rewrite (proj2 (monthlyInstant_Ok m Hm (month_index through) _)) by (split; [reflexivity|lia]).
    cbn -[monthlyInstant nextOrNull monthly_time]. fold k.
    rewrite (proj2 (monthlyInstant_Ok m Hm k _)) by (split; [reflexivity|lia]).
    cbn -[nextOrNull monthly_time]. by rewrite Hnull.
  - replace (k - month_index first + 1 - 1) with (k - month_index first) by lia.
    rewrite iterate_monthly; [|done|done|lia]. f_equal. f_equal. lia.
  - intros u ->. rewrite (advance_monthly m _ Ha Hl) in Hadv.
    rewrite month_index_time in Hadv by done. destruct Hk as [_ [_ Hk]]. clearbody k.
    destruct (_ <? _); [|done]. by injection Hadv as <-.
Qed.

Lemma prefix_exists c first through :
  admitted c → nominal c first → first <= through <= maxInstant →
  ∃ p, prefix_facts c first through p.
Proof.
  intros Ha Hn Hle. destruct (proj1 (admitted_cases c) Ha) as [(s & -> & _)|(m & -> & _)].
  - destruct (prefix_fixed s first through Ha Hn Hle) as [n H]. eauto.
  - destruct (prefix_monthly m first through Ha Hn Hle) as [n H]. eauto.
Qed.

(** The constant-work prefix equals the stepwise computation: for an admitted cadence, a
    nominal first instant and a representable cutoff it returns a prefix whose last instant is the
    [count - 1]-fold nominal successor of the first, lies at or before the cutoff, and whose next
    instant (absent only on exhaustion) is the successor of the last and lies after the cutoff. *)
Theorem prefix_equals_iteration c first through :
  admitted c → nominal c first → first <= through <= maxInstant →
  ∃ p, recurringPrefixThrough c first through = Ok (Some p) ∧ 1 <= count p ∧
    iterate_advance (Z.to_nat (count p - 1)) c first = Ok (last p) ∧ last p <= through ∧
    advanceRecurringNominal c (last p) =
      match next p with Some u => Ok u | None => Err CadenceExhausted end ∧
    ∀ u, next p = Some u → through < u.
Proof. intros Ha Hn Hle. destruct (prefix_exists c first through Ha Hn Hle) as [p []]. eauto 10. Qed.


Lemma same_monthly_refl o : same_monthly o o = true.
Proof. destruct o; cbn; [|done]. by rewrite bool_decide_true, !Z.eqb_refl. Qed.

Lemma same_monthly_eq a b : same_monthly a b = true → a = b.
Proof.
  destruct a as [[]|], b as [[]|]; cbn; try done. intros H. bool_to_prop. by simplify_eq.
Qed.

Lemma iterate_add n k c t u :
  iterate_advance n c t = Ok u → iterate_advance (n + k) c t = iterate_advance k c u.
Proof.
  revert t. induction n as [|n IH]; intros t; cbn -[advanceRecurringNominal]; [by intros [= ->]|].
  destruct (advanceRecurringNominal c t) as [v|e]; [|done]. cbn -[advanceRecurringNominal]. apply IH.
Qed.

Lemma iterate_nominal n c t u :
  admitted c → nominal c t → iterate_advance n c t = Ok u → nominal c u ∧ t + Z.of_nat n <= u.
Proof.
  intros Ha. revert t. induction n as [|n IH]; intros t Ht; cbn -[advanceRecurringNominal Z.of_nat].
  - intros [= ->]. split; [done|lia].
  - pose proof (advance_nominal_spec c t Ha Ht) as Hs.
    destruct (advanceRecurringNominal c t) as [v|e]; [|done]. destruct Hs as (Hv & Htv & _).
    cbn -[advanceRecurringNominal Z.of_nat]. intros Hu%IH; [|done]. split; [apply Hu|lia].
Qed.

Lemma nominal_range c t : admitted c → nominal c t → minInstant <= t <= maxInstant.
Proof.
  intros Ha Hn. unfold nominal, recurringNominalMatches in Hn. rewrite Ha in Hn. cbn -[checkedDate] in Hn.
  apply bind_Ok in Hn as (d & [-> Hd]%checkedDate_Ok & _). done.
Qed.

(** A prefix is returned only for an admitted cadence, a nominal first instant and an ordered,
    representable cutoff. *)
Lemma prefix_inv c first through p :
  recurringPrefixThrough c first through = Ok (Some p) →
  admitted c ∧ nominal c first ∧ first <= through <= maxInstant.
Proof.
  unfold recurringPrefixThrough. intros (c' & Hc & H)%bind_Ok.
  assert (c' = c) as -> by eauto using parseCadence_Ok.
  apply bind_Ok in H as (d & [_ Hd]%checkedDate_Ok & H).
  apply bind_Ok in H as (b & Hb & H). destruct b; [|done].
  destruct (through <? first) eqn:E; [done|]. bool_to_prop.
  split; [exact Hc|]. split; [exact Hb|lia].
Qed.

(** A retained expired range is accepted exactly when it is what stepping the nominal rule
    produces: the cadence is admitted, the first instant is nominal, the last instant is reached
    from it by [count - 1] single advances, and the snapshot carries the same monthly rule. *)
Theorem range_coverage_exact r :
  validateRecurringRangeCoverage r = Ok tt ↔
  admitted (rg_cadence r) ∧ nominal (rg_cadence r) (rg_firstScheduledAt r) ∧ 1 <= rg_count r ∧
  iterate_advance (Z.to_nat (rg_count r - 1)) (rg_cadence r) (rg_firstScheduledAt r)
    = Ok (rg_lastScheduledAt r) ∧
  rg_snapshotMonthlyUtc r = monthlyUtc (rg_cadence r).
Proof.
  destruct r as [c first lst n snap]. unfold validateRecurringRangeCoverage.
  cbn [rg_cadence rg_firstScheduledAt rg_lastScheduledAt rg_count rg_snapshotMonthlyUtc]. split.
  - intros ([p|] & Hp & H)%bind_Ok; [|done].
    destruct (_ && _) eqn:E; [|done]. bool_to_prop. subst.
    apply prefix_inv in Hp as Hi. destruct Hi as (Ha & Hn & Hle).
    destruct (prefix_exists c first _ Ha Hn Hle) as [p' [Hp' Hc Hit _ _ _ _]].
    rewrite Hp in Hp'. injection Hp' as <-.
    repeat (split; [assumption|]). symmetry. by apply same_monthly_eq.
  - intros (Ha & Hn & Hc & Hit & ->).
    destruct (iterate_nominal _ _ _ _ Ha Hn Hit) as [Hl Hle].
    pose proof (nominal_range c lst Ha Hl) as Hr.
    destruct (prefix_exists c first lst Ha Hn ltac:(lia)) as [p [Hp Hc' Hit' Hlast Hln Hnx Hb]].
    assert (Heq : count p = n).
    { destruct (Z.lt_trichotomy (count p) n) as [Hlt|[?|Hlt]]; [|done|]; exfalso.
      - replace (Z.to_nat (n - 1)) with
          (Z.to_nat (count p - 1) + S (Z.to_nat (n - count p - 1)))%nat in Hit by lia.
        rewrite (iterate_add _ _ _ _ _ Hit') in Hit. cbn -[advanceRecurringNominal] in Hit.
        rewrite Hnx in Hit. destruct (next p) as [u|] eqn:Eu; [|done].
        pose proof (advance_nominal_spec c (last p) Ha Hln) as Hs. rewrite Hnx in Hs.
        destruct Hs as [Hu _]. apply iterate_nominal in Hit as [_ ?]; [|done|done].
        specialize (Hb u eq_refl). lia.
      - replace (Z.to_nat (count p - 1)) with
          (Z.to_nat (n - 1) + Z.to_nat (count p - n))%nat in Hit' by lia.
        rewrite (iterate_add _ _ _ _ _ Hit) in Hit'.
        apply iterate_nominal in Hit' as [_ ?]; [lia|done|done]. }
    subst n. rewrite Hit in Hit'. injection Hit' as Hll.
    rewrite Hp. cbn -[same_monthly]. by rewrite <-Hll, !Z.eqb_refl, same_monthly_refl.
Qed.

(** ** Concrete instances: the 28th of every month at midnight UTC, in early 2024 *)

Definition month_end : AutomationCadence :=
  monthly_cadence {| zone := "UTC"%string; dayOfMonth := 28; hour := 0; minute := 0; second := 0 |}.

Definition jan_28_2024 : Z := 1706400000000.
Definition feb_28_2024 : Z := 1709078400000.

Lemma advance_is_nominal_successor_witness :
  advanceRecurringNominal month_end jan_28_2024 = Ok feb_28_2024 ∧
  ∀ v, nominal month_end v → jan_28_2024 < v → feb_28_2024 <= v.
Proof.
  assert (E : advanceRecurringNominal month_end jan_28_2024 = Ok feb_28_2024) by (vm_compute; reflexivity).
  split; [exact E|].
  pose proof (advance_is_nominal_successor month_end jan_28_2024
    ltac:(vm_compute; reflexivity) ltac:(vm_compute; reflexivity)) as H.
  rewrite E in H. apply H.
Defined.

Lemma prefix_equals_iteration_witness :
  ∃ p, recurringPrefixThrough month_end jan_28_2024 (feb_28_2024 + 5) = Ok (Some p) ∧
    1 <= count p ∧
    iterate_advance (Z.to_nat (count p - 1)) month_end jan_28_2024 = Ok (last p) ∧
    last p <= feb_28_2024 + 5.
Proof.
  destruct (prefix_equals_iteration month_end jan_28_2024 (feb_28_2024 + 5)
    ltac:(vm_compute; reflexivity) ltac:(vm_compute; reflexivity)
    ltac:(unfold jan_28_2024, feb_28_2024, maxInstant; lia)) as (p & H1 & H2 & H3 & H4 & _).
  exists p. auto.
Defined.

(** The two-month range is accepted, and one with a wrong count is refused. *)
Example range_coverage_two_months :
  validateRecurringRangeCoverage
    {| rg_cadence := month_end; rg_firstScheduledAt := jan_28_2024;
       rg_lastScheduledAt := feb_28_2024; rg_count := 2;
       rg_snapshotMonthlyUtc := monthlyUtc month_end |} = Ok tt.
Proof. vm_compute. reflexivity. Qed.

Example range_coverage_wrong_count :
  is_ok (validateRecurringRangeCoverage
    {| rg_cadence := month_end; rg_firstScheduledAt := jan_28_2024;
       rg_lastScheduledAt := feb_28_2024; rg_count := 3;
       rg_snapshotMonthlyUtc := monthlyUtc month_end |}) = false.
Proof. vm_compute. reflexivity. Qed.
