(* ===== verification/TurnLifecycle.v ===== *)
(** * Turn lifecycle: status sets, stop decisions and the waiter

    - the membership records of packages/protocol/src/models/turn-status-sets.ts;
    - the stop decision of apps/nanocore/src/runtime/stop-after-turn.ts;
    - the waiter of apps/nanocore/src/runtime/task-turn-wait.ts as a machine over the timer and the
      event deliveries it can observe, with its promise as part of the state. *)

From S2P Require Import Prelude.

Local Open Scope string_scope.
Local Open Scope list_scope.

(** ** Turn statuses *)

Module TurnStatuses.

Inductive TurnStatus := Pending | Running | Completed | Interrupted | Cancelled | Failed.
#[export] Instance TurnStatus_eq_dec : EqDecision TurnStatus.
Proof. solve_decision. Defined.

Definition SEALED_TURN_TERMINALS (status : TurnStatus) : bool :=
  match status with
  | Pending => false | Running => false | Completed => true
  | Interrupted => true | Cancelled => true | Failed => true
  end.

Definition SETTLED_FOR_WAITERS_TURN_STATUSES (status : TurnStatus) : bool :=
  match status with
  | Pending => false | Running => false | Completed => true
  | Interrupted => true | Cancelled => true | Failed => true
  end.

Definition CHECKPOINT_COLLECTABLE_TURN_STATUSES (status : TurnStatus) : bool :=
  match status with
  | Pending => false | Running => false | Completed => true
  | Interrupted => false | Cancelled => true | Failed => true
  end.

Definition RECOVERY_REWRITABLE_TURN_STATUSES (status : TurnStatus) : bool :=
  match status with
  | Pending => true | Running => true | Completed => false
  | Interrupted => false | Cancelled => false | Failed => false
  end.

Definition isSealedTurnTerminal (s : TurnStatus) : bool := eqb (SEALED_TURN_TERMINALS s) true.
Definition isSettledForWaitersTurnStatus (s : TurnStatus) : bool :=
  eqb (SETTLED_FOR_WAITERS_TURN_STATUSES s) true.
Definition isCheckpointCollectableTurnStatus (s : TurnStatus) : bool :=
  eqb (CHECKPOINT_COLLECTABLE_TURN_STATUSES s) true.
Definition isRecoveryRewritableTurnStatus (s : TurnStatus) : bool :=
  eqb (RECOVERY_REWRITABLE_TURN_STATUSES s) true.

(** The four sets are what the Turn semantics calls them: waiters settle exactly on the sealed
    terminals, recovery may rewrite exactly the unsealed statuses (so a sealed outcome is never
    rewritten), and a checkpoint is collectable exactly on a sealed terminal that recovery cannot
    still own, which is every one but interrupted. *)
Theorem turn_status_sets_agree s :
  isSettledForWaitersTurnStatus s = isSealedTurnTerminal s ∧
  isRecoveryRewritableTurnStatus s = negb (isSealedTurnTerminal s) ∧
  (isCheckpointCollectableTurnStatus s = true ↔
    isSealedTurnTerminal s = true ∧ s ≠ Interrupted).
Proof. destruct s; cbn; naive_solver. Qed.

End TurnStatuses.
Export TurnStatuses.

(** ** Stop decision *)

Module StopAfterTurn.

Inductive StopReason := StopCompleted | StopError | StopAborted | StopLength | StopBudgetExhausted.

Inductive StopAfterTurnOutcome := OContinue | OReview | OBlock | OAbort | OComplete.
#[export] Instance StopAfterTurnOutcome_eq_dec : EqDecision StopAfterTurnOutcome.
Proof. solve_decision. Defined.

Record ShouldStopAfterTurnInput := {
  stopReason : StopReason;
  reviewRequired : bool;
  remainingWorkerIterations : option Z;
}.

Record StopAfterTurnDecision := {
  outcome : StopAfterTurnOutcome;
  shouldStop : bool;
  decidedReason : StopReason;
}.

Definition createDecision (r : StopReason) (o : StopAfterTurnOutcome) : StopAfterTurnDecision :=
  {| outcome := o; shouldStop := bool_decide (o ≠ OContinue); decidedReason := r |}.

Definition shouldStopAfterTurn (input : ShouldStopAfterTurnInput) : StopAfterTurnDecision :=
  match stopReason input with
  | StopCompleted =>
    createDecision (stopReason input) (if reviewRequired input then OReview else OComplete)
  | StopLength =>
    createDecision (stopReason input)
      (if (0 <? default 0 (remainingWorkerIterations input))%Z then OContinue else OBlock)
  | StopAborted => createDecision (stopReason input) OAbort
  | StopError | StopBudgetExhausted => createDecision (stopReason input) OBlock
  end.

Definition stopReasonForTurnStatus (status : TurnStatus) : StopReason :=
  match status with
  | Completed => StopCompleted
  | Interrupted => StopAborted
  | Failed | Cancelled | Pending | Running => StopError
  end.

(** The loop goes on only for a length stop with iterations left, and completes without review
    only for a completed turn whose review is not required; the decision stops exactly when its
    outcome is not to continue.  Projected from a stored turn status the loop never continues, and
    it completes or reviews exactly for a completed turn. *)
Theorem stop_decision_sound input status :
  let d := shouldStopAfterTurn input in
  let p := shouldStopAfterTurn {| stopReason := stopReasonForTurnStatus status;
                                  reviewRequired := reviewRequired input;
                                  remainingWorkerIterations := remainingWorkerIterations input |} in
  (outcome d = OContinue ↔
    stopReason input = StopLength ∧ ∃ n, remainingWorkerIterations input = Some n ∧ (0 < n)%Z) ∧
  (outcome d = OComplete ↔ stopReason input = StopCompleted ∧ reviewRequired input = false) ∧
  (shouldStop d = true ↔ outcome d ≠ OContinue) ∧
  shouldStop p = true ∧
  (outcome p = OComplete ∨ outcome p = OReview ↔ status = Completed).
Proof.
  destruct input as [r rv rem]. cbn. split; [|split; [|split; [|split]]].
  - destruct r; cbn; [destruct rv; naive_solver|naive_solver|naive_solver| |naive_solver].
    destruct (Z.ltb_spec 0 (default 0%Z rem)) as [E|E]; split; try done.
    + intros _. split; [done|]. destruct rem as [n|]; cbn in E; [eauto|lia].
    + intros (_ & n & -> & Hn). cbn in E. lia.
  - destruct r; cbn; repeat case_match; naive_solver.
  - destruct r; cbn; rewrite bool_decide_eq_true; done.
  - destruct status; cbn; apply bool_decide_eq_true; by destruct rv.
  - destruct status; cbn; destruct rv; naive_solver.
Qed.

End StopAfterTurn.

(** ** Waiting for a settled turn *)

Module TurnWait.

(** A turn read model, as far as the waiter looks at it. *)
Record TurnReadModel := { turn_id : string; turn_status : TurnStatus }.

Inductive Promise :=
| PromisePending
| PromiseResolved (turn : TurnReadModel)
| PromiseRejected (reason : string).

(** The variables of the promise executor, the two registrations it holds and its promise. *)
Record WaitState := {
  settled : bool;
  timer_armed : bool;
  subscribed : bool;
  promise : Promise;
}.

(** [resolve] and [reject] have an effect on a pending promise only. *)
Definition settle_promise (p q : Promise) : Promise :=
  match p with PromisePending => q | _ => p end.

Definition timeout_message : string := "Worker turn did not finish within 1800000ms.".

(** The timer callback. *)
Definition on_timeout (s : WaitState) : WaitState :=
  if settled s then s
  else {| settled := true; timer_armed := timer_armed s; subscribed := false;
          promise := settle_promise (promise s) (PromiseRejected timeout_message) |}.

(** [settled = true; clearTimeout(timeout); unsubscribe(); resolve(turn)] *)
Definition settle_with (s : WaitState) (turn : TurnReadModel) : WaitState :=
  {| settled := true; timer_armed := false; subscribed := false;
     promise := settle_promise (promise s) (PromiseResolved turn) |}.

(** The listener: [turn] is what [getTurnById] returns when the event is delivered. *)
Definition on_event (s : WaitState) (event : string) (turn : TurnReadModel) : WaitState :=
  if negb (bool_decide (event = "turn.completed")) && negb (bool_decide (event = "turn.updated"))
  then s
  else if negb (isSettledForWaitersTurnStatus (turn_status turn)) || settled s then s
  else settle_with s turn.

(** The executor after its registrations: the read that closes the window before them. *)
Definition after_subscribe (s : WaitState) (currentTurn : TurnReadModel) : WaitState :=
  if isSettledForWaitersTurnStatus (turn_status currentTurn) && negb (settled s)
  then settle_with s currentTurn
  else s.

Definition waitForWorkerTurnTerminalState (initialTurn currentTurn : TurnReadModel) : WaitState :=
  if isSettledForWaitersTurnStatus (turn_status initialTurn)
  then {| settled := true; timer_armed := false; subscribed := false;
          promise := PromiseResolved initialTurn |}
  else after_subscribe {| settled := false; timer_armed := true; subscribed := true;
                          promise := PromisePending |} currentTurn.

(** What can happen while the promise is awaited.  The timer fires once and only while armed; the
    store delivers only to a subscribed listener. *)
Inductive WaitEvent := TimerFires | Delivers (event : string) (turn : TurnReadModel).

Definition wait_step (s : WaitState) (e : WaitEvent) : WaitState :=
  match e with
  | TimerFires =>
    if timer_armed s
    then on_timeout {| settled := settled s; timer_armed := false; subscribed := subscribed s;
                       promise := promise s |}
    else s
  | Delivers event turn => if subscribed s then on_event s event turn else s
  end.

Definition run (s : WaitState) (es : list WaitEvent) : WaitState := foldl wait_step s es.

(** The specification: the promise settles on the first decisive observation. *)
Definition decisive (e : WaitEvent) : option Promise :=
  match e with
  | TimerFires => Some (PromiseRejected timeout_message)
  | Delivers event turn =>
    if includes ["turn.completed"; "turn.updated"] event
       && isSettledForWaitersTurnStatus (turn_status turn)
    then Some (PromiseResolved turn) else None
  end.

Fixpoint first_decisive (es : list WaitEvent) : Promise :=
  match es with
  | [] => PromisePending
  | e :: es => match decisive e with Some p => p | None => first_decisive es end
  end.

Definition waiting : WaitState :=
  {| settled := false; timer_armed := true; subscribed := true; promise := PromisePending |}.
Definition done_with (p : Promise) : WaitState :=
  {| settled := true; timer_armed := false; subscribed := false; promise := p |}.

Lemma run_done p es : run (done_with p) es = done_with p.
Proof. unfold run. induction es as [|[] es IH]; [done|exact IH..]. Qed.

Lemma step_waiting e :
  wait_step waiting e = match decisive e with Some p => done_with p | None => waiting end.
Proof.
  destruct e as [|event turn]; [done|]. cbn -[includes isSettledForWaitersTurnStatus].
  assert (Hi : includes ["turn.completed"; "turn.updated"] event =
               bool_decide (event = "turn.completed") || bool_decide (event = "turn.updated")).
  { unfold includes. rewrite <-bool_decide_or. apply bool_decide_ext.
    rewrite !elem_of_cons, elem_of_nil. tauto. }
  rewrite Hi. unfold on_event. do 2 case_bool_decide; cbn -[isSettledForWaitersTurnStatus];
    destruct (isSettledForWaitersTurnStatus (turn_status turn)); done.
Qed.

Lemma run_waiting es :
  run waiting es = match first_decisive es with PromisePending => waiting | p => done_with p end.
Proof.
  induction es as [|e es IH]; [done|]. cbn -[waiting wait_step]. rewrite step_waiting.
  destruct (decisive e) as [p|] eqn:E; [|exact IH].
  rewrite run_done. destruct p; try done.
  destruct e; cbn in E; [done|]. by destruct (_ && _).
Qed.

(** The waiter misses no wake-up and settles once: over every interleaving of timer and event
    deliveries the promise is resolved with the turn read first in a settled status (before the
    registrations, right after them, or at the first relevant delivery), or rejected when the timer
    comes first; it is pending exactly while nothing decisive happened, and once it is not pending
    the timer is disarmed, the listener is removed and nothing changes any more. *)
Theorem waiter_settles_on_first_decisive initial current es :
  let s := run (waitForWorkerTurnTerminalState initial current) es in
  promise s =
    (if isSettledForWaitersTurnStatus (turn_status initial) then PromiseResolved initial
     else if isSettledForWaitersTurnStatus (turn_status current) then PromiseResolved current
     else first_decisive es) ∧
  (promise s ≠ PromisePending →
    timer_armed s = false ∧ subscribed s = false ∧ ∀ es', run s es' = s).
Proof.
  cbn zeta. unfold waitForWorkerTurnTerminalState, after_subscribe. cbn [settled negb andb].
  rewrite andb_true_r. fold waiting.
  destruct (isSettledForWaitersTurnStatus (turn_status initial)).
  { fold (done_with (PromiseResolved initial)). rewrite run_done. auto using run_done. }
  destruct (isSettledForWaitersTurnStatus (turn_status current)).
  { change (settle_with waiting current) with (done_with (PromiseResolved current)).
    rewrite run_done. auto using run_done. }
  rewrite run_waiting. destruct (first_decisive es); cbn; auto using run_done. done.
Qed.

End TurnWait.
