(* ===== verification/MutationAdmission.v ===== *)
(** * Workspace mutation admission (nanocore/src/workspace-mutation-admission.ts)

    The process-local gate between ordinary mutations of a workspace and exclusive lifecycle work.
    Objects that the code compares by reference (closures, freeze owners, the release functions of
    admitted mutations and the promises of [close]) are addresses of a small heap.  The callback that
    [tryFreeze] and [tryResumeRecovery] run synchronously may call the gate again: it is the list of
    the operations it performs, and its answer ([None] when it throws).  The serialization of deletion
    requests (a chain of promises) is not part of the model. *)

From S2P Require Import Prelude.

Local Open Scope string_scope.
Local Open Scope list_scope.

Inductive WorkspaceRecoveryFreezeOrigin :=
| OriginTarget (admissionId : string) (revision : Z) (candidateRef : string)
| OriginCapture (captureId : string)
| OriginDeletion (deletionRequestId : string) (revision : Z).
#[export] Instance WorkspaceRecoveryFreezeOrigin_eq_dec : EqDecision WorkspaceRecoveryFreezeOrigin.
Proof. solve_decision. Defined.

Definition blocker := string.
(** The typed failure of an inspection that throws. *)
Definition unavailable : list blocker := ["unavailable"].

Record Bindings := { bi_canonical : option nat; bi_candidate : option nat }.

Record CaptureClosure := {
  cl_owner : option nat;
  cl_origin : option WorkspaceRecoveryFreezeOrigin;
  cl_recovery : option Bindings;
}.

Record WorkspaceMutationGateState := {
  admitted : Z;
  closed : bool;
  captureClosed : option nat;
  waiters : list nat;
}.

(** What a release function of [ownFreeze] or [enter] captured. *)
Record FreezeOwner := { fo_workspace : string; fo_closure : nat; fo_released : bool }.
Record Mutation := { mu_workspace : string; mu_released : bool }.

Record Admission := {
  gates : gmap string WorkspaceMutationGateState;
  closures : gmap nat CaptureClosure;
  owners : gmap nat FreezeOwner;
  mutations : gmap nat Mutation;
  resolved : list nat;
  next : nat;
}.

Inductive exclusion := Ordinary | Capture.
#[export] Instance exclusion_eq_dec : EqDecision exclusion.
Proof. solve_decision. Defined.

Inductive outcome :=
| Done
| Busy
| Blocked (blockers : list blocker)
| Frozen (owner : nat)
| Entered (mutation : nat)
| Refused
| Waiting (promise : nat)
| Throws (message : string).

Definition fresh_gate : WorkspaceMutationGateState :=
  {| admitted := 0; closed := false; captureClosed := None; waiters := [] |}.

(** [this.state(workspaceId)]: a gate that was never used is created open. *)
Definition gate (a : Admission) (ws : string) : WorkspaceMutationGateState := default fresh_gate (gates a !! ws).

Definition set_gate (ws : string) (g : WorkspaceMutationGateState) (a : Admission) : Admission :=
  {| gates := <[ws := g]> (gates a); closures := closures a; owners := owners a;
     mutations := mutations a; resolved := resolved a; next := next a |}.

Definition touch (ws : string) (a : Admission) : Admission := set_gate ws (gate a ws) a.

Definition set_closure (c : nat) (k : CaptureClosure) (a : Admission) : Admission :=
  {| gates := gates a; closures := <[c := k]> (closures a); owners := owners a;
     mutations := mutations a; resolved := resolved a; next := next a |}.

Definition with_capture (c : option nat) (g : WorkspaceMutationGateState) : WorkspaceMutationGateState :=
  {| admitted := admitted g; closed := closed g; captureClosed := c; waiters := waiters g |}.
Definition with_closed (b : bool) (g : WorkspaceMutationGateState) : WorkspaceMutationGateState :=
  {| admitted := admitted g; closed := b; captureClosed := captureClosed g; waiters := waiters g |}.
Definition with_admitted (n : Z) (g : WorkspaceMutationGateState) : WorkspaceMutationGateState :=
  {| admitted := n; closed := closed g; captureClosed := captureClosed g; waiters := waiters g |}.
Definition with_waiters (l : list nat) (g : WorkspaceMutationGateState) : WorkspaceMutationGateState :=
  {| admitted := admitted g; closed := closed g; captureClosed := captureClosed g; waiters := l |}.

(** Installs a new closure object on the gate. *)
Definition install (ws : string) (k : CaptureClosure) (a : Admission) : Admission * nat :=
  let c := next a in
  ({| gates := <[ws := with_capture (Some c) (gate a ws)]> (gates a);
      closures := <[c := k]> (closures a); owners := owners a; mutations := mutations a;
      resolved := resolved a; next := S c |}, c).

Definition isClosed (a : Admission) (ws : string) (e : exclusion) : bool :=
  bool_decide (captureClosed (gate a ws) ≠ None) || (bool_decide (e = Ordinary) && closed (gate a ws)).

Definition ownFreeze (ws : string) (c : nat) (a : Admission) : Admission * outcome :=
  let o := next a in
  let k := default {| cl_owner := None; cl_origin := None; cl_recovery := None |} (closures a !! c) in
  ({| gates := gates a;
      closures := <[c := {| cl_owner := Some o; cl_origin := cl_origin k; cl_recovery := cl_recovery k |}]> (closures a);
      owners := <[o := {| fo_workspace := ws; fo_closure := c; fo_released := false |}]> (owners a);
      mutations := mutations a; resolved := resolved a; next := S o |}, Frozen o).

Definition ownsFreeze (a : Admission) (ws : string) (o : nat) : bool :=
  match gates a !! ws with
  | Some g =>
    negb (closed g) &&
    match captureClosed g with
    | Some c => bool_decide (cl_owner <$> closures a !! c = Some (Some o))
    | None => false
    end
  | None => false
  end.

(** The closure of the gate, when it has one. *)
Definition current_closure (a : Admission) (ws : string) : option (nat * CaptureClosure) :=
  match captureClosed (gate a ws) with
  | Some c => k ← closures a !! c; Some (c, k)
  | None => None
  end.

Definition reopen (ws : string) (which : exclusion) (a : Admission) : Admission * outcome :=
  let a := touch ws a in
  let g := gate a ws in
  if bool_decide (admitted g ≠ 0%Z) then
    (a, Throws "Workspace mutation gate cannot reopen while mutations remain admitted.")
  else (set_gate ws (match which with Capture => with_capture None g | Ordinary => with_closed false g end) a, Done).

(** [owner.release()] *)
Definition release (o : nat) (a : Admission) : Admission * outcome :=
  match owners a !! o with
  | None => (a, Done)
  | Some f =>
    if fo_released f then (a, Done)
    else
      let a := {| gates := gates a; closures := closures a;
        owners := <[o := {| fo_workspace := fo_workspace f; fo_closure := fo_closure f; fo_released := true |}]> (owners a);
        mutations := mutations a; resolved := resolved a; next := next a |} in
      if negb (bool_decide (captureClosed (gate a (fo_workspace f)) = Some (fo_closure f))) then (a, Done)
      else
        match closures a !! fo_closure f with
        | Some k =>
          if bool_decide (is_Some (cl_origin k)) then
            (set_closure (fo_closure f)
               {| cl_owner := None; cl_origin := cl_origin k; cl_recovery := None |} a, Done)
          else reopen (fo_workspace f) Capture a
        | None => (a, Done)
        end
  end.

Definition enter (ws : string) (e : exclusion) (a : Admission) : Admission * outcome :=
  let a := touch ws a in
  if isClosed a ws e then (a, Refused)
  else
    let m := next a in
    let g := gate a ws in
    ({| gates := <[ws := with_admitted (admitted g + 1) g]> (gates a); closures := closures a;
        owners := owners a; mutations := <[m := {| mu_workspace := ws; mu_released := false |}]> (mutations a);
        resolved := resolved a; next := S m |}, Entered m).

(** The release function that [enter] returned. *)
Definition leave (m : nat) (a : Admission) : Admission * outcome :=
  match mutations a !! m with
  | None => (a, Done)
  | Some mu =>
    if mu_released mu then (a, Done)
    else
      let ws := mu_workspace mu in
      let g := gate a ws in
      let n := (admitted g - 1)%Z in
      let g' := with_admitted n g in
      let drained := bool_decide (n = 0%Z) in
      ({| gates := <[ws := if drained then with_waiters [] g' else g']> (gates a); closures := closures a;
          owners := owners a;
          mutations := <[m := {| mu_workspace := ws; mu_released := true |}]> (mutations a);
          resolved := if drained then resolved a ++ waiters g else resolved a; next := next a |}, Done)
  end.

Definition WORKSPACE_MUTATION_LATE_PUBLISHERS : list string := ["worker-turn-closeout"].

Definition enterLatePublisher (ws publisher : string) (a : Admission) : Admission * outcome :=
  if bool_decide (publisher ∈ WORKSPACE_MUTATION_LATE_PUBLISHERS) then enter ws Ordinary a
  else (a, Throws ("Unknown Workspace late publisher: " +:+ publisher +:+ ".")).

(** [close]: the promise is resolved at once on an idle gate, and otherwise joins the waiters. *)
Definition close (ws : string) (a : Admission) : Admission * outcome :=
  let g := with_closed true (gate a ws) in
  let p := next a in
  let idle := bool_decide (admitted g = 0%Z) in
  ({| gates := <[ws := if idle then g else with_waiters (waiters g ++ [p]) g]> (gates a); closures := closures a;
      owners := owners a; mutations := mutations a;
      resolved := if idle then resolved a ++ [p] else resolved a; next := S p |}, Waiting p).

Definition restoreRecoveryClosed (ws : string) (origin : WorkspaceRecoveryFreezeOrigin) (a : Admission)
    : Admission * outcome :=
  ((install ws {| cl_owner := None; cl_origin := Some origin; cl_recovery := None |} a).1, Done).

Definition restoreClosed (ws : string) (which : exclusion) (a : Admission) : Admission * outcome :=
  match which with
  | Capture => ((install ws {| cl_owner := None; cl_origin := None; cl_recovery := None |} a).1, Done)
  | Ordinary => (set_gate ws (with_closed true (gate a ws)) a, Done)
  end.

Definition transferDeletionRecovery (ws : string) (o : nat) (deletionRequestId : string) (deletionRevision : Z)
    (admissionId : string) (revision : Z) (candidateRef : string) (a : Admission) : Admission * outcome :=
  let failed := (a, Throws "Workspace deletion recovery closure changed.") in
  if ownsFreeze a ws o then
    match current_closure a ws with
    | Some (c, k) =>
      if bool_decide (cl_origin k = Some (OriginDeletion deletionRequestId deletionRevision)) then
        (set_closure c {| cl_owner := cl_owner k; cl_origin := Some (OriginTarget admissionId revision candidateRef);
                          cl_recovery := cl_recovery k |} a, Done)
      else failed
    | None => failed
    end
  else failed.

Definition bindRecovery (ws : string) (o : nat) (b : Bindings) (a : Admission) : Admission * outcome :=
  let failed := (a, Throws "Workspace recovery freeze is not current.") in
  if ownsFreeze a ws o then
    match current_closure a ws with
    | Some (c, k) =>
      (set_closure c {| cl_owner := cl_owner k; cl_origin := cl_origin k; cl_recovery := Some b |} a, Done)
    | None => failed
    end
  else failed.

Definition ownsRecoveryOrigin (a : Admission) (ws : string) (o : nat) (origin : WorkspaceRecoveryFreezeOrigin) : bool :=
  ownsFreeze a ws o &&
  match current_closure a ws with
  | Some (_, k) => match cl_origin k with None => true | Some retained => bool_decide (retained = origin) end
  | None => false
  end.

Definition isRecoveryBinding (a : Admission) (ws : string) (o binding : nat) : bool :=
  ownsFreeze a ws o &&
  match current_closure a ws with
  | Some (_, k) =>
    match cl_recovery k with
    | Some b => bool_decide (bi_canonical b = Some binding) || bool_decide (bi_candidate b = Some binding)
    | None => false
    end
  | None => false
  end.

(** ** Operations and histories *)

Inductive op :=
| OpTryFreeze (ws : string) (inner : list op) (answer : option (list blocker))
| OpTryResume (ws : string) (origin : WorkspaceRecoveryFreezeOrigin) (inner : list op)
    (answer : option (list blocker))
| OpTransfer (ws : string) (o : nat) (deletionRequestId : string) (deletionRevision : Z)
    (admissionId : string) (revision : Z) (candidateRef : string)
| OpRestoreRecovery (ws : string) (origin : WorkspaceRecoveryFreezeOrigin)
| OpBind (ws : string) (o : nat) (b : Bindings)
| OpRelease (o : nat)
| OpEnter (ws : string) (e : exclusion)
| OpEnterLatePublisher (ws publisher : string)
| OpLeave (m : nat)
| OpClose (ws : string)
| OpReopen (ws : string) (which : exclusion)
| OpRestoreClosed (ws : string) (which : exclusion).

(** [freezeBlockers]: the answer of the inspection, after the operations it performed. *)
Definition freezeBlockers (answer : option (list blocker)) : list blocker := default unavailable answer.

Section TryFreeze.
Context (run_inner : Admission → Admission).

Definition tryFreeze (ws : string) (answer : option (list blocker)) (a : Admission) : Admission * outcome :=
  let a := touch ws a in
  if isClosed a ws Ordinary || bool_decide (admitted (gate a ws) ≠ 0%Z) then (a, Busy)
  else
    let '(a, c) := install ws {| cl_owner := None; cl_origin := None; cl_recovery := None |} a in
    let a := run_inner a in
    let blockers := freezeBlockers answer in
    if bool_decide (blockers ≠ []) then
      (if bool_decide (captureClosed (gate a ws) = Some c) then set_gate ws (with_capture None (gate a ws)) a else a,
       Blocked blockers)
    else if negb (bool_decide (captureClosed (gate a ws) = Some c)) || closed (gate a ws) then (a, Busy)
    else ownFreeze ws c a.

Definition tryResumeRecovery (ws : string) (origin : WorkspaceRecoveryFreezeOrigin)
    (answer : option (list blocker)) (a : Admission) : Admission * outcome :=
  match gates a !! ws, current_closure a ws with
  | Some g, Some (c, k) =>
    if closed g || bool_decide (admitted g ≠ 0%Z) || bool_decide (cl_owner k ≠ None)
       || negb (bool_decide (cl_origin k = Some origin)) then (a, Busy)
    else
      let a := run_inner a in
      let blockers := freezeBlockers answer in
      if bool_decide (blockers ≠ []) then (a, Blocked blockers)
      else
        let g := gate a ws in
        if negb (bool_decide (captureClosed g = Some c)) || closed g || bool_decide (admitted g ≠ 0%Z)
           || bool_decide (cl_owner <$> closures a !! c ≠ Some None) then (a, Busy)
        else ownFreeze ws c a
  | _, _ => (a, Busy)
  end.
End TryFreeze.

Fixpoint exec (o : op) (a : Admission) : Admission * outcome :=
  match o with
  | OpTryFreeze ws inner answer => tryFreeze (λ a, foldl (λ a o, (exec o a).1) a inner) ws answer a
  | OpTryResume ws origin inner answer =>
    tryResumeRecovery (λ a, foldl (λ a o, (exec o a).1) a inner) ws origin answer a
  | OpTransfer ws o d dr t r cr => transferDeletionRecovery ws o d dr t r cr a
  | OpRestoreRecovery ws origin => restoreRecoveryClosed ws origin a
  | OpBind ws o b => bindRecovery ws o b a
  | OpRelease o => release o a
  | OpEnter ws e => enter ws e a
  | OpEnterLatePublisher ws publisher => enterLatePublisher ws publisher a
  | OpLeave m => leave m a
  | OpClose ws => close ws a
  | OpReopen ws which => reopen ws which a
  | OpRestoreClosed ws which => restoreClosed ws which a
  end.

Definition empty_admission : Admission :=
  {| gates := ∅; closures := ∅; owners := ∅; mutations := ∅; resolved := []; next := 0 |}.

Definition execs (os : list op) (a : Admission) : Admission := foldl (λ a o, (exec o a).1) a os.
Definition history (os : list op) : Admission := execs os empty_admission.

(** ** The invariant of every history *)

(** An admitted mutation of the workspace that has not been released. *)
Definition live (ws : string) (m : nat * Mutation) : Prop := mu_workspace m.2 = ws ∧ mu_released m.2 = false.
#[export] Instance live_dec ws m : Decision (live ws m).
Proof. unfold live. apply _. Defined.

Record admission_ok (a : Admission) : Prop := {
  i_closures : ∀ c k, closures a !! c = Some k → (c < next a)%nat;
  i_current : ∀ ws c, captureClosed (gate a ws) = Some c → is_Some (closures a !! c);
  i_one_gate : ∀ ws ws' c, captureClosed (gate a ws) = Some c → captureClosed (gate a ws') = Some c → ws = ws';
  i_owned : ∀ ws c k o, captureClosed (gate a ws) = Some c → closures a !! c = Some k → cl_owner k = Some o →
    admitted (gate a ws) = 0%Z ∧ owners a !! o = Some {| fo_workspace := ws; fo_closure := c; fo_released := false |};
  i_owner : ∀ o f, owners a !! o = Some f → (o < next a)%nat ∧ (fo_closure f < next a)%nat;
  i_live_owner : ∀ o f k, owners a !! o = Some f → fo_released f = false →
    closures a !! fo_closure f = Some k → cl_owner k = Some o;
  i_mutation : ∀ m mu, mutations a !! m = Some mu → (m < next a)%nat;
  i_count : ∀ ws, admitted (gate a ws) = Z.of_nat (size (filter (live ws) (mutations a)));
  i_waiter : ∀ ws p, p ∈ waiters (gate a ws) → (p < next a)%nat ∧ admitted (gate a ws) ≠ 0%Z;
  i_resolved : ∀ p, p ∈ resolved a → (p < next a)%nat;
}.

(** A promise of [close]: it waits at its own gate only, or it is resolved and the mutations [ms] have left. *)
Definition promise_state (ws : string) (p : nat) (ms : list nat) (a : Admission) : Prop :=
  (p ∉ resolved a ∧ p ∈ waiters (gate a ws) ∧ ∀ ws', p ∈ waiters (gate a ws') → ws' = ws) ∨
  (p ∈ resolved a ∧ (∀ ws', p ∉ waiters (gate a ws')) ∧
   ∀ m, m ∈ ms → ∃ mu, mutations a !! m = Some mu ∧ mu_released mu = true).

Definition tracked (ws : string) (ms : list nat) (a : Admission) : Prop :=
  ∀ m, m ∈ ms → ∃ mu, mutations a !! m = Some mu ∧ mu_workspace mu = ws.

(** What no operation undoes: old closures never come back, a gate keeps refusing while its closure stays,
    a closure without owner and origin is owned only by the call that made it, and releases are final. *)
Record evolves (a a' : Admission) : Prop := {
  e_next : (next a ≤ next a')%nat;
  e_capture : ∀ ws c, (c < next a)%nat → captureClosed (gate a' ws) = Some c →
    captureClosed (gate a ws) = Some c ∧ (admitted (gate a' ws) ≤ admitted (gate a ws))%Z;
  e_closure : ∀ c k, closures a !! c = Some k → cl_owner k = None → cl_origin k = None →
    ∃ k', closures a' !! c = Some k' ∧ cl_owner k' = None ∧ cl_origin k' = None;
  e_released : ∀ o f, owners a !! o = Some f → fo_released f = true → owners a' !! o = Some f;
  e_tracked : ∀ ws ms, tracked ws ms a → tracked ws ms a';
  e_promise : ∀ ws p ms, (p < next a)%nat → tracked ws ms a → promise_state ws p ms a → promise_state ws p ms a';
}.

Definition sound (a a' : Admission) : Prop := admission_ok a → admission_ok a' ∧ evolves a a'.

Lemma evolves_refl a : evolves a a.
Proof. split; eauto. intros. split; [done | lia]. Qed.

Lemma evolves_trans a b c : evolves a b → evolves b c → evolves a c.
Proof.
  intros [n1 c1 k1 r1 t1 p1] [n2 c2 k2 r2 t2 p2]. split; [lia | | | eauto | eauto | ].
  - intros ws cl Hlt Hc. destruct (c2 ws cl) as [Hb Hle2]; [lia | done | ].
    destruct (c1 ws cl) as [Ha Hle1]; [done.. | ]. split; [done | lia].
  - intros cl k Hk Ho Hor. destruct (k1 cl k Hk Ho Hor) as (k' & ? & ? & ?). eauto.
  - intros ws p ms Hlt Ht Hp. apply p2; [lia | eauto | eauto].
Qed.

Lemma sound_refl a : sound a a.
Proof. intros Ha. split; [done | apply evolves_refl]. Qed.
Lemma sound_trans a b c : sound a b → sound b c → sound a c.
Proof. intros Hab Hbc Ha. destruct (Hab Ha) as [Hb E1]. destruct (Hbc Hb) as [Hc E2]. eauto using evolves_trans. Qed.

Lemma gate_insert a ws g ws' : default fresh_gate (<[ws := g]> (gates a) !! ws') = if decide (ws = ws') then g else gate a ws'.
Proof. destruct (decide (ws = ws')) as [<- | Hne]; [by rewrite lookup_insert_eq | by rewrite lookup_insert_ne]. Qed.

Lemma gate_set ws g a ws' : gate (set_gate ws g a) ws' = if decide (ws = ws') then g else gate a ws'.
Proof. apply gate_insert. Qed.
Lemma gate_touch ws a ws' : gate (touch ws a) ws' = gate a ws'.
Proof. unfold touch. rewrite gate_set. by destruct (decide (ws = ws')) as [<- | ]. Qed.

(** Promises and tracked mutations depend on the waiters, the mutations and the resolved promises only. *)
Lemma promise_state_same a a' ws p ms :
  mutations a' = mutations a → resolved a' = resolved a → (∀ ws, waiters (gate a' ws) = waiters (gate a ws)) →
  promise_state ws p ms a → promise_state ws p ms a'.
Proof.
  intros Hm Hr Hw. unfold promise_state. rewrite Hm, Hr, Hw.
  intros [(H1 & H2 & H3) | (H1 & H2 & H3)]; [left | right]; (split; [done | ]).
  - split; [done | ]. intros ws'. rewrite Hw. apply H3.
  - split; [ | done]. intros ws'. rewrite Hw. apply H2.
Qed.

Lemma tracked_same a a' ws ms : mutations a' = mutations a → tracked ws ms a → tracked ws ms a'.
Proof. unfold tracked. by intros ->. Qed.

(** A change of gates only, under which counts and waiters stay and no closure is installed. *)
Lemma sound_gates a a' :
  closures a' = closures a → owners a' = owners a → mutations a' = mutations a → resolved a' = resolved a →
  next a' = next a →
  (∀ ws, admitted (gate a' ws) = admitted (gate a ws) ∧ waiters (gate a' ws) = waiters (gate a ws) ∧
         ∀ c, captureClosed (gate a' ws) = Some c → captureClosed (gate a ws) = Some c) →
  sound a a'.
Proof.
  intros Hc Ho Hm Hr Hn Hg [i1 i2 i3 i4 i5 i6 i7 i8 i9 i10]. split.
  - split; rewrite ?Hc, ?Ho, ?Hm, ?Hr, ?Hn; try done.
    + intros ws c Hcap. eapply i2, (proj2 (proj2 (Hg ws))), Hcap.
    + intros ws ws' c H1 H2. eapply i3; eapply (proj2 (proj2 (Hg _))); eassumption.
    + intros ws c k o Hcap. rewrite (proj1 (Hg ws)). apply i4, (proj2 (proj2 (Hg ws))), Hcap.
    + intros ws. rewrite (proj1 (Hg ws)). apply i8.
    + intros ws p. rewrite (proj1 (Hg ws)), (proj1 (proj2 (Hg ws))). apply i9.
  - split; rewrite ?Hc, ?Ho, ?Hn; try done.
    + intros ws c _ Hcap. rewrite (proj1 (Hg ws)). split; [by apply (proj2 (proj2 (Hg ws))) | lia].
    + eauto.
    + intros ws ms. by apply tracked_same.
    + intros ws p ms _ _. apply promise_state_same; [done.. | ]. intros ws'. apply Hg.
Qed.

Lemma sound_touch ws a : sound a (touch ws a).
Proof. apply sound_gates; try done. intros ws'. by rewrite gate_touch. Qed.

Lemma sound_set_gate ws g a :
  admitted g = admitted (gate a ws) → waiters g = waiters (gate a ws) →
  (captureClosed g = captureClosed (gate a ws) ∨ captureClosed g = None) → sound a (set_gate ws g a).
Proof.
  intros Ha Hw Hc. apply sound_gates; try done. intros ws'. rewrite gate_set.
  destruct (decide (ws = ws')) as [<- | ]; [ | done]. rewrite Ha, Hw. repeat split; try done.
  intros c Hg. destruct Hc as [Hc | Hc]; congruence.
Qed.

Lemma sound_install ws k a : cl_owner k = None → sound a (install ws k a).1.
Proof.
  intros Hk [i1 i2 i3 i4 i5 i6 i7 i8 i9 i10].
  assert (Hfresh : closures a !! next a = None).
  { destruct (closures a !! next a) as [k' | ] eqn:Hn; [ | done]. apply i1 in Hn. lia. }
  assert (Hg : ∀ ws', gate (install ws k a).1 ws' = if decide (ws = ws') then with_capture (Some (next a)) (gate a ws) else gate a ws')
    by (intros ws'; apply gate_insert).
  assert (Ha : ∀ ws', admitted (gate (install ws k a).1 ws') = admitted (gate a ws'))
    by (intros ws'; rewrite Hg; by destruct (decide (ws = ws')) as [<- | ]).
  assert (Hw : ∀ ws', waiters (gate (install ws k a).1 ws') = waiters (gate a ws'))
    by (intros ws'; rewrite Hg; by destruct (decide (ws = ws')) as [<- | ]).
  assert (Hc : ∀ ws' c, captureClosed (gate (install ws k a).1 ws') = Some c →
            (ws = ws' ∧ c = next a) ∨ (c ≠ next a ∧ captureClosed (gate a ws') = Some c)).
  { intros ws' c. rewrite Hg. destruct (decide (ws = ws')) as [<- | Hne]; cbn.
    - intros [= <-]. by left.
    - intros Hcap. right. split; [ | done]. destruct (i2 ws' c Hcap) as [k' Hk']. apply i1 in Hk'. lia. }
  split.
  - split; cbn [install fst closures owners mutations resolved next].
    + intros c k' Hl. destruct (decide (c = next a)) as [-> | Hne]; [lia | ].
      rewrite lookup_insert_ne in Hl by congruence. apply i1 in Hl. lia.
    + intros ws' c [[-> ->] | [Hne Hcap]]%Hc; [rewrite lookup_insert_eq; eauto | ].
      rewrite lookup_insert_ne by congruence. eauto.
    + intros ws1 ws2 c [[-> ->] | [Hne1 H1]]%Hc [[-> E] | [Hne2 H2]]%Hc; try congruence. eauto.
    + intros ws' c k' o [[-> ->] | [Hne Hcap]]%Hc Hl Ho; [rewrite lookup_insert_eq in Hl; congruence | ].
      rewrite lookup_insert_ne in Hl by congruence. rewrite Ha. eauto.
    + intros o f Hf. apply i5 in Hf. lia.
    + intros o f k' Hf Hr Hl. destruct (decide (next a = fo_closure f)) as [E | Hne].
      * apply i5 in Hf. lia.
      * rewrite lookup_insert_ne in Hl by congruence. eauto.
    + intros m mu Hm. apply i7 in Hm. lia.
    + intros ws'. rewrite Ha. apply i8.
    + intros ws' p. rewrite Ha, Hw. intros Hp. destruct (i9 _ _ Hp). split; [lia | done].
    + intros p Hp. apply i10 in Hp. lia.
  - split; cbn [install fst closures owners mutations resolved next]; try done.
    + lia.
    + intros ws' c Hlt Hcap. rewrite Ha. apply Hc in Hcap as [[_ ->] | [_ Hcap]]; [lia | ]. split; [done | lia].
    + intros c k' Hl Ho Hor. exists k'. rewrite lookup_insert_ne; [done | ]. intros <-. congruence.
    + intros ws' p ms _ _. by apply promise_state_same.
Qed.

(** The replacement of the fields of a closure, which gives it no new owner. *)
Lemma sound_set_closure c k k' a :
  closures a !! c = Some k → cl_owner k' = cl_owner k → (cl_owner k = None → cl_origin k = None → cl_origin k' = None) →
  sound a (set_closure c k' a).
Proof.
  intros Hk Ho Hor [i1 i2 i3 i4 i5 i6 i7 i8 i9 i10].
  assert (Hl : ∀ c' k1, <[c := k']> (closures a) !! c' = Some k1 → ∃ k2, closures a !! c' = Some k2 ∧ cl_owner k1 = cl_owner k2).
  { intros c' k1. destruct (decide (c = c')) as [<- | Hne].
    - rewrite lookup_insert_eq. intros [= <-]. eauto.
    - rewrite lookup_insert_ne by done. eauto. }
  split; split; cbn [set_closure closures owners mutations resolved next]; try done; try lia.
  - intros c' k1 (k2 & Hk2 & _)%Hl. eauto.
  - intros ws c' Hcap. destruct (i2 ws c' Hcap). destruct (decide (c = c')) as [<- | Hne];
      [rewrite lookup_insert_eq | rewrite lookup_insert_ne by done]; eauto.
  - intros ws c' k1 o Hcap (k2 & Hk2 & ->)%Hl. eauto.
  - intros o f k1 Hf Hr (k2 & Hk2 & ->)%Hl. eauto.
  - intros c' k1 Hk1 Ho1 Hor1. destruct (decide (c = c')) as [<- | Hne].
    + rewrite lookup_insert_eq. exists k'. simplify_eq. rewrite Ho. auto.
    + rewrite lookup_insert_ne by done. eauto.
Qed.

Lemma sound_own ws c k a :
  captureClosed (gate a ws) = Some c → closures a !! c = Some k → cl_owner k = None → admitted (gate a ws) = 0%Z →
  admission_ok a → admission_ok (ownFreeze ws c a).1.
Proof.
  intros Hcap Hk Hown Hadm [i1 i2 i3 i4 i5 i6 i7 i8 i9 i10]. unfold ownFreeze. rewrite Hk. cbn [default].
  assert (Hno : owners a !! next a = None).
  { destruct (owners a !! next a) as [f | ] eqn:Hf; [ | done]. apply i5 in Hf. lia. }
  split; cbn [fst closures owners mutations resolved next]; change (gate {| gates := gates a; closures := _; owners := _; mutations := _; resolved := _; next := _ |}) with (gate a).
  - intros c' k1 [[<- <-] | [Hne Hl]]%lookup_insert_Some; [apply i1 in Hk | apply i1 in Hl]; lia.
  - intros ws' c' H'. destruct (decide (c = c')) as [<- | Hne];
      [rewrite lookup_insert_eq | rewrite lookup_insert_ne by done]; eauto.
  - done.
  - intros ws' c' k1 o Hcap' [[<- <-] | [Hne Hl]]%lookup_insert_Some Ho; cbn in Ho.
    + injection Ho as <-. rewrite (i3 _ _ _ Hcap' Hcap). by rewrite lookup_insert_eq.
    + destruct (i4 _ _ _ _ Hcap' Hl Ho) as [? Hf]. split; [done | ]. rewrite lookup_insert_ne; [done | congruence].
  - intros o f [[<- <-] | [Hne Hf]]%lookup_insert_Some; cbn; [apply i1 in Hk | apply i5 in Hf]; lia.
  - intros o f k1 [[<- <-] | [Hne Hf]]%lookup_insert_Some Hr; cbn.
    + rewrite lookup_insert_eq. by intros [= <-].
    + intros [[E _] | [_ Hl]]%lookup_insert_Some; [ | by eapply i6]. exfalso. rewrite E in Hk.
      pose proof (i6 _ _ _ Hf Hr Hk). congruence.
  - intros m mu Hm. apply i7 in Hm. lia.
  - done.
  - intros ws' p Hp. apply i9 in Hp. lia.
  - intros p Hp. apply i10 in Hp. lia.
Qed.

(** Giving an owner to a closure does not touch the closures of earlier calls in progress. *)
Lemma evolves_own ws c a b :
  evolves a b → (∀ k, closures a !! c = Some k → cl_origin k ≠ None) → admission_ok b → evolves a (ownFreeze ws c b).1.
Proof.
  intros E Hc Hb. destruct E as [n1 c1 k1 r1 t1 p1].
  split; cbn [ownFreeze fst closures owners mutations resolved next].
  - lia.
  - done.
  - intros c' k Hk Ho Hor. rewrite lookup_insert_ne; [eauto | ]. intros <-. by apply (Hc k).
  - intros o f Hf Hr. rewrite lookup_insert_ne; [eauto | ]. intros <-. apply (r1 _ _ Hf) in Hr.
    apply i_owner in Hr; [lia | done].
  - done.
  - done.
Qed.

Definition retired (f : FreezeOwner) : FreezeOwner :=
  {| fo_workspace := fo_workspace f; fo_closure := fo_closure f; fo_released := true |}.

(** The end of an owner: afterwards no current closure names it. *)
Lemma sound_retire o f a a' :
  owners a !! o = Some f → fo_released f = false → owners a' = <[o := retired f]> (owners a) →
  mutations a' = mutations a → resolved a' = resolved a → next a' = next a →
  (∀ ws, admitted (gate a' ws) = admitted (gate a ws) ∧ waiters (gate a' ws) = waiters (gate a ws) ∧
         ∀ c, captureClosed (gate a' ws) = Some c → captureClosed (gate a ws) = Some c) →
  (∀ c k, closures a !! c = Some k → ∃ k', closures a' !! c = Some k' ∧ cl_origin k' = cl_origin k ∧
     (cl_owner k' = cl_owner k ∨ cl_owner k' = None ∧ c = fo_closure f)) →
  (∀ c, is_Some (closures a' !! c) → is_Some (closures a !! c)) →
  (∀ ws c k, captureClosed (gate a' ws) = Some c → closures a' !! c = Some k → cl_owner k ≠ Some o) →
  sound a a'.
Proof.
  intros Hf Hlive Ho Hm Hr Hn Hg Hkeep Hback Hfree [i1 i2 i3 i4 i5 i6 i7 i8 i9 i10].
  assert (Hold : ∀ c k', closures a' !! c = Some k' → ∃ k, closures a !! c = Some k ∧
            (cl_owner k' = cl_owner k ∨ cl_owner k' = None ∧ c = fo_closure f)).
  { intros c k' Hk'. destruct (Hback c) as [k Hk]; [eauto | ].
    destruct (Hkeep c k Hk) as (k2 & Hk2 & _ & Hw). simplify_eq. eauto. }
  split; split; rewrite ?Hm, ?Hr, ?Hn, ?Ho; try done.
  - intros c k' (k & Hk & _)%Hold. eauto.
  - intros ws c Hc. apply Hg in Hc. destruct (i2 _ _ Hc) as [k Hk]. destruct (Hkeep _ _ Hk) as (k' & ? & _). eauto.
  - intros ws ws' c H1%Hg H2%Hg. eauto.
  - intros ws c k' o' Hc Hk' Ho'. destruct (Hold _ _ Hk') as (k & Hk & [E | [E _]]); [ | congruence].
    rewrite E in Ho'. rewrite (proj1 (Hg ws)).
    destruct (i4 ws c k o' (proj2 (proj2 (Hg ws)) c Hc) Hk Ho') as [Hz Hf']. split; [done | ].
    rewrite lookup_insert_ne; [done | ]. intros <-. eapply Hfree; [done.. | congruence].
  - intros o' f' [[<- <-] | [Hne Hf']]%lookup_insert_Some; [apply (i5 _ _ Hf) | eauto].
  - intros o' f' k' [[<- <-] | [Hne Hf']]%lookup_insert_Some Hr' Hk'; [done | ].
    destruct (Hold _ _ Hk') as (k & Hk & [E | [E Hc]]); [rewrite E; eauto | ].
    rewrite Hc in Hk. pose proof (i6 _ _ _ Hf Hlive Hk). rewrite <- Hc in Hk. pose proof (i6 _ _ _ Hf' Hr' Hk). congruence.
  - intros ws. rewrite (proj1 (Hg ws)). apply i8.
  - intros ws p. rewrite (proj1 (Hg ws)), (proj1 (proj2 (Hg ws))). apply i9.
  - intros ws c _ Hc. rewrite (proj1 (Hg ws)). split; [by apply (proj2 (proj2 (Hg ws))) | lia].
  - intros c k Hk Hn1 Hn2. destruct (Hkeep _ _ Hk) as (k' & Hk' & Eo & [E | [E _]]); exists k'; rewrite Eo, E; auto.
  - intros o' f' Hf' Hr'. rewrite lookup_insert_ne; [done | congruence].
  - intros ws ms. by apply tracked_same.
  - intros ws p ms _ _. apply promise_state_same; [done.. | ]. intros ws'. apply Hg.
Qed.

(** The gate of a live owner, while its closure is the current one, has no admitted mutation. *)
Lemma live_owner_idle a o f k :
  admission_ok a → owners a !! o = Some f → fo_released f = false →
  captureClosed (gate a (fo_workspace f)) = Some (fo_closure f) → closures a !! fo_closure f = Some k →
  cl_owner k = Some o ∧ admitted (gate a (fo_workspace f)) = 0%Z.
Proof.
  intros Ha Hf Hr Hc Hk. pose proof (i_live_owner a Ha _ _ _ Hf Hr Hk) as Ho. split; [done | ].
  apply (i_owned a Ha _ _ _ _ Hc Hk Ho).
Qed.

Lemma sound_release o a : sound a (release o a).1.
Proof.
  intros Ha. revert Ha. unfold release. destruct (owners a !! o) as [f | ] eqn:Hf; [ | apply sound_refl].
  destruct (fo_released f) eqn:Hr; [apply sound_refl | ].
  change (gate {| gates := gates a; closures := _; owners := _; mutations := _; resolved := _; next := _ |}) with (gate a).
  cbn [closures]. intros Ha.
  assert (Hcur : ∀ ws c k, captureClosed (gate a ws) = Some c → closures a !! c = Some k → cl_owner k = Some o →
            captureClosed (gate a (fo_workspace f)) = Some (fo_closure f) ∧ ws = fo_workspace f ∧ c = fo_closure f).
  { intros ws c k Hc Hk Ho. destruct (i_owned a Ha _ _ _ _ Hc Hk Ho) as [_ Hf'].
    rewrite Hf in Hf'. by injection Hf' as ->. }
  case_bool_decide as Hc; cbn [negb]; [ | ].
  - destruct (i_current a Ha _ _ Hc) as [k Hk]. rewrite Hk.
    destruct (live_owner_idle a o f k Ha Hf Hr Hc Hk) as [Ho Hz]. case_bool_decide as Hor.
    + revert Ha. eapply (sound_retire o f); try done.
      * intros c' k1 Hk1. cbn. destruct (decide (fo_closure f = c')) as [<- | Hne].
        -- rewrite lookup_insert_eq. eexists. split; [done | ]. simplify_eq. cbn. auto.
        -- rewrite lookup_insert_ne by done. eauto.
      * intros c'. cbn. destruct (decide (fo_closure f = c')) as [<- | Hne]; [eauto | by rewrite lookup_insert_ne].
      * intros ws c' k1 Hc' Hl. cbn in Hl. apply lookup_insert_Some in Hl as [[<- <-] | [Hne Hk1]]; [done | ]. intros Ho1.
        destruct (Hcur _ _ _ Hc' Hk1 Ho1) as (_ & _ & E). congruence.
    + unfold reopen. rewrite gate_touch, bool_decide_eq_false_2 by (change (¬ admitted (gate a (fo_workspace f)) ≠ 0%Z); rewrite Hz; tauto). cbn [fst].
      revert Ha. eapply (sound_retire o f); try done.
      * intros ws. rewrite gate_set. destruct (decide (fo_workspace f = ws)) as [<- | Hne]; [done | by rewrite gate_touch].
      * intros c' k1 Hk1. eauto.
      * intros ws c' k1. rewrite gate_set. destruct (decide (fo_workspace f = ws)) as [<- | Hne]; [done | ].
        rewrite gate_touch. intros Hc' Hk1 Ho1. destruct (Hcur _ _ _ Hc' Hk1 Ho1) as (_ & ? & _). congruence.
  - revert Ha. eapply (sound_retire o f); try done; [eauto | ].
    intros ws c' k1 Hc' Hk1 Ho1. destruct (Hcur _ _ _ Hc' Hk1 Ho1) as (? & _). done.
Qed.

Lemma live_insert_fresh ws ws' m (ms : gmap nat Mutation) :
  ms !! m = None →
  size (filter (live ws') (<[m := {| mu_workspace := ws; mu_released := false |}]> ms)) =
  (if decide (ws = ws') then 1 else 0) + size (filter (live ws') ms).
Proof.
  intros Hm. destruct (decide (ws = ws')) as [<- | Hne].
  - rewrite map_filter_insert_True by done. rewrite map_size_insert_None; [done | ].
    apply map_lookup_filter_None. by left.
  - rewrite map_filter_insert_not'; [done | by intros [? _] | ]. intros y Hy. congruence.
Qed.

Lemma live_insert_released ws' m mu (ms : gmap nat Mutation) :
  ms !! m = Some mu → mu_released mu = false →
  size (filter (live ws') ms) =
  (if decide (mu_workspace mu = ws') then 1 else 0) +
  size (filter (live ws') (<[m := {| mu_workspace := mu_workspace mu; mu_released := true |}]> ms)).
Proof.
  intros Hm Hr. rewrite map_filter_insert_False by (intros [_ ?]; done).
  rewrite map_filter_delete, map_size_delete, map_lookup_filter, Hm. cbn.
  destruct (decide (mu_workspace mu = ws')) as [<- | Hne].
  - rewrite option_guard_True by done. cbn.
    destruct (size (filter (live (mu_workspace mu)) ms)) eqn:E; [ | lia].
    apply map_size_empty_inv in E. by destruct (map_filter_empty_not_lookup _ _ m mu E).
  - rewrite option_guard_False; [done | ]. by intros [? _].
Qed.

Lemma sound_enter ws e a : sound a (enter ws e a).1.
Proof.
  eapply sound_trans; [apply (sound_touch ws) | ]. unfold enter. set (a1 := touch ws a).
  destruct (isClosed a1 ws e) eqn:Hcl; [apply sound_refl | ].
  assert (Hnone : captureClosed (gate a1 ws) = None).
  { unfold isClosed in Hcl. apply orb_false_iff in Hcl as [Hcl _]. apply bool_decide_eq_false in Hcl.
    by apply dec_stable in Hcl. }
  generalize dependent a1. clear a. intros a _ Hnone [i1 i2 i3 i4 i5 i6 i7 i8 i9 i10]. cbn [fst].
  assert (Hfresh : mutations a !! next a = None).
  { destruct (mutations a !! next a) as [mu | ] eqn:Hm; [ | done]. apply i7 in Hm. lia. }
  match goal with |- admission_ok ?b ∧ _ => set (a' := b) end.
  assert (Hg : ∀ ws', gate a' ws' = if decide (ws = ws') then with_admitted (admitted (gate a ws) + 1) (gate a ws) else gate a ws')
    by (intros ws'; apply gate_insert).
  assert (Hc : ∀ ws', captureClosed (gate a' ws') = captureClosed (gate a ws'))
    by (intros ws'; rewrite Hg; by destruct (decide (ws = ws')) as [<- | ]).
  assert (Hw : ∀ ws', waiters (gate a' ws') = waiters (gate a ws'))
    by (intros ws'; rewrite Hg; by destruct (decide (ws = ws')) as [<- | ]).
  assert (Ha : ∀ ws' c, captureClosed (gate a ws') = Some c → admitted (gate a' ws') = admitted (gate a ws')).
  { intros ws' c. rewrite Hg. destruct (decide (ws = ws')) as [<- | ]; congruence. }
  split; split; cbn [a' closures owners mutations resolved next]; fold a'; try done.
  - intros c k Hk. apply i1 in Hk. lia.
  - intros ws' c. rewrite Hc. eauto.
  - intros ws1 ws2 c. rewrite !Hc. eauto.
  - intros ws' c k o. rewrite Hc. intros Hcap. rewrite (Ha _ _ Hcap). eauto.
  - intros o f Hf. apply i5 in Hf. lia.
  - intros m mu [[<- <-] | [Hne Hm]]%lookup_insert_Some; [lia | ]. apply i7 in Hm. lia.
  - intros ws'. rewrite live_insert_fresh by done. rewrite Nat2Z.inj_add, <- i8, Hg.
    destruct (decide (ws = ws')) as [<- | ]; cbn; lia.
  - intros ws' p. rewrite Hw. intros Hp. destruct (i9 _ _ Hp) as [? Hnz]. split; [lia | ]. rewrite Hg.
    destruct (decide (ws = ws')) as [<- | ]; [cbn | done]. pose proof (i8 ws). lia.
  - intros p Hp. apply i10 in Hp. lia.
  - lia.
  - intros ws' c _. rewrite Hc. intros Hcap. rewrite (Ha _ _ Hcap). split; [done | lia].
  - eauto.
  - intros ws' ms Ht m Hm. destruct (Ht m Hm) as (mu & Hmu & Hws). exists mu. cbn.
    rewrite lookup_insert_ne; [done | congruence].
  - intros ws' p ms _ _ [(H1 & H2 & H3) | (H1 & H2 & H3)]; [left | right]; cbn [a' resolved mutations]; fold a'.
    + rewrite Hw. repeat split; [done.. | ]. intros ws2. rewrite Hw. apply H3.
    + split; [done | ]. split; [intros ws2; rewrite Hw; apply H2 | ].
      intros m Hm. destruct (H3 m Hm) as (mu & Hmu & Hr). exists mu. rewrite lookup_insert_ne; [done | congruence].
Qed.

Lemma live_zero_released ws (ms : gmap nat Mutation) m mu :
  size (filter (live ws) ms) = 0 → ms !! m = Some mu → mu_workspace mu = ws → mu_released mu = true.
Proof.
  intros Hz Hm Hws. apply map_size_empty_inv in Hz. destruct (mu_released mu) eqn:Hr; [done | ].
  by destruct (map_filter_empty_not_lookup _ _ m mu Hz).
Qed.

Lemma sound_leave m a : sound a (leave m a).1.
Proof.
  unfold leave. destruct (mutations a !! m) as [mu | ] eqn:Hm; [ | apply sound_refl].
  destruct (mu_released mu) eqn:Hr; [apply sound_refl | ].
  intros [i1 i2 i3 i4 i5 i6 i7 i8 i9 i10]. cbn [fst]. set (ws := mu_workspace mu).
  match goal with |- admission_ok ?b ∧ _ => set (a' := b) end.
  assert (Hg : ∀ ws', gate a' ws' =
            if decide (ws = ws') then
              if bool_decide (admitted (gate a ws) - 1 = 0)%Z
              then with_waiters [] (with_admitted (admitted (gate a ws) - 1) (gate a ws))
              else with_admitted (admitted (gate a ws) - 1) (gate a ws)
            else gate a ws') by (intros ws'; apply gate_insert).
  assert (Hc : ∀ ws', captureClosed (gate a' ws') = captureClosed (gate a ws')).
  { intros ws'. rewrite Hg. destruct (decide (ws = ws')) as [<- | ]; [ | done]. by case_bool_decide. }
  assert (Ha : ∀ ws', admitted (gate a' ws') = (admitted (gate a ws') - if decide (ws = ws') then 1 else 0)%Z).
  { intros ws'. rewrite Hg. destruct (decide (ws = ws')) as [<- | ]; [ | lia]. by case_bool_decide. }
  assert (Hcnt : ∀ ws', admitted (gate a' ws') = Z.of_nat (size (filter (live ws') (mutations a')))).
  { intros ws'. rewrite Ha, i8. pose proof (live_insert_released ws' m mu (mutations a) Hm Hr) as HL.
    cbn [a' mutations]. fold ws in HL |- *. destruct (decide (ws = ws')); lia. }
  assert (Hpos : (0 < admitted (gate a ws))%Z).
  { rewrite i8. pose proof (live_insert_released ws m mu (mutations a) Hm Hr) as HL.
    fold ws in HL. rewrite decide_True in HL by done. lia. }
  assert (Hw : ∀ ws' p, p ∈ waiters (gate a' ws') → p ∈ waiters (gate a ws') ∧ admitted (gate a' ws') ≠ 0%Z).
  { intros ws' p. rewrite Ha, Hg. destruct (decide (ws = ws')) as [<- | ].
    - case_bool_decide; cbn; [by intros ?%not_elem_of_nil | intros Hp]. done.
    - intros Hp. split; [done | ]. apply i9 in Hp. lia. }
  assert (Hmut : ∀ m' mu', mutations a !! m' = Some mu' → ∃ mu2, mutations a' !! m' = Some mu2 ∧
            mu_workspace mu2 = mu_workspace mu' ∧ (mu_released mu' = true → mu_released mu2 = true)).
  { intros m' mu' Hm'. cbn [a' mutations]. destruct (decide (m = m')) as [<- | Hne].
    - rewrite lookup_insert_eq. simplify_eq. eauto.
    - rewrite lookup_insert_ne by done. eauto. }
  assert (Htr : ∀ ws' ms, tracked ws' ms a → tracked ws' ms a').
  { intros ws' ms Ht m' Hm'. destruct (Ht _ Hm') as (mu' & Hl & Hws). destruct (Hmut _ _ Hl) as (mu2 & ? & ? & _).
    exists mu2. split; congruence. }
  split; split; cbn [a' closures owners resolved next]; fold a'; try done.
  - intros ws' c. rewrite Hc. eauto.
  - intros ws1 ws2 c. rewrite !Hc. eauto.
  - intros ws' c k o. rewrite Hc. intros H1 H2 H3. destruct (i4 _ _ _ _ H1 H2 H3) as [Hz ?]. split; [ | done].
    rewrite Ha, Hz. destruct (decide (ws = ws')) as [<- | ]; [lia | done].
  - intros m' mu' Hl. cbn [a' mutations] in Hl. apply lookup_insert_Some in Hl as [[<- _] | [_ Hl]]; eauto.
  - intros ws' p [Hp Hnz]%Hw. split; [ | done]. apply i9 in Hp. lia.
  - intros p. case_bool_decide; [ | apply i10]. rewrite elem_of_app. intros [Hp | Hp]; [eauto | apply i9 in Hp; lia].
  - intros ws' c _. rewrite Hc, Ha. intros Hcap. split; [done | ]. destruct (decide (ws = ws')); lia.
  - eauto.
  - intros ws' p ms _ Ht [(H1 & H2 & H3) | (H1 & H2 & H3)].
    + destruct (decide (ws = ws' ∧ (admitted (gate a ws) - 1 = 0)%Z)) as [[<- Hz] | Hnot].
      * right. cbn [a' resolved]. rewrite bool_decide_true by done. split; [apply elem_of_app; by right | ].
        split; [intros ws2 [Hp2 Hnz]%Hw | ].
        -- apply H3 in Hp2 as ->. rewrite Ha, decide_True in Hnz by done. lia.
        -- intros m' Hm'. apply Htr in Ht. destruct (Ht _ Hm') as (mu' & Hl & Hws). exists mu'. split; [done | ].
           eapply live_zero_released; [ | exact Hl | exact Hws]. specialize (Hcnt ws).
           rewrite Ha, decide_True in Hcnt by done. lia.
      * left. cbn [a' resolved]. fold a'. split; [ | split].
        -- case_bool_decide; [ | done]. rewrite elem_of_app. intros [? | Hp]; [done | ]. apply H3 in Hp. tauto.
        -- rewrite Hg. destruct (decide (ws = ws')) as [<- | ]; [ | done]. by rewrite bool_decide_false by tauto.
        -- intros ws2 [Hp2 _]%Hw. auto.
    + right. cbn [a' resolved]. fold a'. split; [case_bool_decide; [apply elem_of_app; by left | done] | ].
      split; [intros ws2 [Hp2 _]%Hw; by apply (H2 ws2) | ].
      intros m' Hm'. destruct (H3 _ Hm') as (mu' & Hl & Hrel). destruct (Hmut _ _ Hl) as (mu2 & ? & _ & ?). eauto.
Qed.

Lemma sound_close ws a : sound a (close ws a).1.
Proof.
  intros [i1 i2 i3 i4 i5 i6 i7 i8 i9 i10]. unfold close. cbn [fst].
  match goal with |- admission_ok ?b ∧ _ => set (a' := b) end.
  assert (Hg : ∀ ws', gate a' ws' =
            if decide (ws = ws') then
              if bool_decide (admitted (gate a ws) = 0)%Z then with_closed true (gate a ws)
              else with_waiters (waiters (gate a ws) ++ [next a]) (with_closed true (gate a ws))
            else gate a ws') by (intros ws'; apply gate_insert).
  assert (Hc : ∀ ws', captureClosed (gate a' ws') = captureClosed (gate a ws') ∧ admitted (gate a' ws') = admitted (gate a ws')).
  { intros ws'. rewrite Hg. destruct (decide (ws = ws')) as [<- | ]; [ | done]. by case_bool_decide. }
  assert (Hw : ∀ ws' p, p ∈ waiters (gate a' ws') →
            p ∈ waiters (gate a ws') ∨ (p = next a ∧ admitted (gate a ws') ≠ 0%Z)).
  { intros ws' p. rewrite Hg. destruct (decide (ws = ws')) as [<- | ]; [ | by left]. case_bool_decide; cbn; [by left | ].
    rewrite elem_of_app, list_elem_of_singleton. tauto. }
  assert (Hkeep : ∀ ws' p, p ∈ waiters (gate a ws') → p ∈ waiters (gate a' ws')).
  { intros ws' p. rewrite Hg. destruct (decide (ws = ws')) as [<- | ]; [ | done]. case_bool_decide; cbn; [done | ].
    rewrite elem_of_app. tauto. }
  split; split; cbn [a' closures owners mutations resolved next]; fold a'; try done.
  - intros c k Hk. apply i1 in Hk. lia.
  - intros ws' c. rewrite (proj1 (Hc ws')). eauto.
  - intros ws1 ws2 c. rewrite !(proj1 (Hc _)). eauto.
  - intros ws' c k o. rewrite (proj1 (Hc ws')), (proj2 (Hc ws')). eauto.
  - intros o f Hf. apply i5 in Hf. lia.
  - intros m mu Hm. apply i7 in Hm. lia.
  - intros ws'. rewrite (proj2 (Hc ws')). eauto.
  - intros ws' p Hp. rewrite (proj2 (Hc ws')). apply Hw in Hp as [Hp | [-> Hp]]; [apply i9 in Hp | ]; split; try tauto; lia.
  - intros p. destruct (bool_decide _).
    + rewrite elem_of_app, list_elem_of_singleton. intros [Hp | ->]; [apply i10 in Hp | ]; lia.
    + intros Hp. apply i10 in Hp. lia.
  - lia.
  - intros ws' c _. rewrite (proj1 (Hc ws')), (proj2 (Hc ws')). split; [done | lia].
  - eauto.
  - intros ws' p ms Hlt Ht [(H1 & H2 & H3) | (H1 & H2 & H3)]; [left | right]; cbn [a' resolved mutations]; fold a'.
    + split; [ | split; [by apply Hkeep | ]].
      * destruct (bool_decide _); [ | done]. rewrite elem_of_app, list_elem_of_singleton. intros [? | ->]; [done | lia].
      * intros ws2 [Hp | [-> _]]%Hw; [eauto | lia].
    + split; [destruct (bool_decide _); [apply elem_of_app; by left | done] | ]. split; [ | done].
      intros ws2 [Hp | [-> _]]%Hw; [by apply (H2 ws2) | lia].
Qed.

(** ** Every operation, re-entrant inspections included *)

(** Induction on operations, with the operations of an inspection as smaller ones. *)
Lemma op_nested_ind (P : op → Prop) :
  (∀ ws inner answer, Forall P inner → P (OpTryFreeze ws inner answer)) →
  (∀ ws origin inner answer, Forall P inner → P (OpTryResume ws origin inner answer)) →
  (∀ o, match o with OpTryFreeze _ _ _ | OpTryResume _ _ _ _ => True | _ => P o end) →
  ∀ o, P o.
Proof.
  intros Hf Hr Hb. fix IH 1. intros o. pose proof (Hb o) as Ho. destruct o as [ws inner answer | ws origin inner answer | | | | | | | | | | ]; try exact Ho.
  - apply Hf. induction inner as [ | o l IHl]; constructor; [apply IH | exact IHl].
  - apply Hr. induction inner as [ | o l IHl]; constructor; [apply IH | exact IHl].
Qed.

Lemma sound_fold os a : Forall (λ o, ∀ a, sound a (exec o a).1) os → sound a (foldl (λ a o, (exec o a).1) a os).
Proof.
  intros Hall. revert a. induction Hall as [ | o os Ho _ IH]; intros a; cbn; [apply sound_refl | ].
  eapply sound_trans; [apply Ho | apply IH].
Qed.

Lemma sound_tryFreeze run ws answer a : (∀ a, sound a (run a)) → sound a (tryFreeze run ws answer a).1.
Proof.
  intros Hrun. eapply sound_trans; [apply (sound_touch ws) | ]. unfold tryFreeze. set (a1 := touch ws a). clearbody a1. clear a.
  destruct (isClosed a1 ws Ordinary || _) eqn:Hbusy; [apply sound_refl | ].
  apply orb_false_iff in Hbusy as [_ Hz%bool_decide_eq_false%dec_stable].
  set (k := {| cl_owner := None; cl_origin := None; cl_recovery := None |}).
  pose proof (sound_install ws k a1 eq_refl) as Hin. destruct (install ws k a1) as [a2 c] eqn:Hinst. cbn [fst] in Hin.
  pose proof (sound_trans _ _ _ Hin (Hrun a2)) as Hall. set (a3 := run a2) in *.
  destruct (bool_decide (freezeBlockers answer ≠ [])).
  { eapply sound_trans; [exact Hall | ]. cbn [fst]. case_bool_decide; [ | apply sound_refl].
    apply sound_set_gate; [done | done | by right]. }
  destruct (negb _ || closed (gate a3 ws)) eqn:Hcur; [exact Hall | ].
  apply orb_false_iff in Hcur as [Hcur%negb_false_iff%bool_decide_eq_true _].
  intros Ha1. destruct (Hin Ha1) as [Ha2 _]. destruct (Hrun a2 Ha2) as [Ha3 E23]. fold a3 in Ha3, E23.
  destruct (Hall Ha1) as [_ E13].
  assert (c = next a1 ∧ next a2 = S (next a1) ∧ closures a2 !! c = Some k ∧ admitted (gate a2 ws) = 0%Z) as (Hc & Hn2 & Hk2 & Hz2).
  { unfold install in Hinst. injection Hinst as <- <-. repeat split; [cbn; by rewrite lookup_insert_eq | ].
    unfold gate at 1. cbn [gates]. by rewrite lookup_insert_eq. }
  destruct (e_closure _ _ E23 c k Hk2 eq_refl eq_refl) as (k3 & Hk3 & Ho3 & _).
  assert (Hz3 : admitted (gate a3 ws) = 0%Z).
  { destruct (e_capture _ _ E23 ws c) as [_ Hle]; [lia | done | ]. rewrite (i_count a3 Ha3). rewrite (i_count a3 Ha3) in Hle. lia. }
  assert (Hok : admission_ok (ownFreeze ws c a3).1) by (by eapply sound_own).
  split; [done | ]. apply evolves_own; [done | | done].
  intros k' Hk'. apply (i_closures a1 Ha1) in Hk'. lia.
Qed.

Lemma sound_tryResumeRecovery run ws origin answer a :
  (∀ a, sound a (run a)) → sound a (tryResumeRecovery run ws origin answer a).1.
Proof.
  intros Hrun. unfold tryResumeRecovery. destruct (gates a !! ws) as [g | ]; [ | apply sound_refl].
  destruct (current_closure a ws) as [[c k] | ] eqn:Hcur; [ | apply sound_refl].
  destruct (closed g || _ || _ || _) eqn:Hbusy; [apply sound_refl | ].
  apply orb_false_iff in Hbusy as [_ Hor%negb_false_iff%bool_decide_eq_true].
  pose proof (Hrun a) as Hall. set (a3 := run a) in *.
  destruct (bool_decide (freezeBlockers answer ≠ [])); [exact Hall | ].
  destruct (negb _ || closed (gate a3 ws) || _ || _) eqn:Hbusy; [exact Hall | ].
  apply orb_false_iff in Hbusy as [Hbusy Ho%bool_decide_eq_false%dec_stable].
  apply orb_false_iff in Hbusy as [Hbusy Hz%bool_decide_eq_false%dec_stable].
  apply orb_false_iff in Hbusy as [Hc%negb_false_iff%bool_decide_eq_true _].
  intros Ha. destruct (Hall Ha) as [Ha3 E]. apply fmap_Some in Ho as (k3 & Hk3 & Ho3).
  assert (Hok : admission_ok (ownFreeze ws c a3).1) by (by eapply sound_own).
  split; [done | ]. apply evolves_own; [done | | done].
  intros k' Hk'. unfold current_closure in Hcur. destruct (captureClosed (gate a ws)) as [c0 | ]; [ | done].
  apply bind_Some in Hcur as (k0 & Hk0 & [= -> ->]). congruence.
Qed.

Lemma current_closure_Some a ws c k : current_closure a ws = Some (c, k) → closures a !! c = Some k.
Proof.
  unfold current_closure. destruct (captureClosed (gate a ws)) as [c0 | ]; [ | done].
  by intros (k0 & Hk0 & [= -> ->])%bind_Some.
Qed.

Lemma ownsFreeze_Some a ws o :
  ownsFreeze a ws o = true →
  ∃ c k, captureClosed (gate a ws) = Some c ∧ closures a !! c = Some k ∧ cl_owner k = Some o.
Proof.
  unfold ownsFreeze, gate. destruct (gates a !! ws) as [g | ]; [ | done]. change (default fresh_gate (Some g)) with g.
  intros [_ Ho]%andb_true_iff. destruct (captureClosed g) as [c | ]; [ | done].
  apply bool_decide_eq_true, fmap_Some in Ho as (k & Hk & Ho). by exists c, k.
Qed.

(** A field update of the current closure by its owner. *)
Lemma sound_owner_update ws o c k k' a :
  ownsFreeze a ws o = true → current_closure a ws = Some (c, k) → cl_owner k' = cl_owner k → sound a (set_closure c k' a).
Proof.
  intros Hown Hcur Ho. pose proof (current_closure_Some _ _ _ _ Hcur) as Hk.
  apply (sound_set_closure c k); [done.. | ]. intros Hn. exfalso.
  destruct (ownsFreeze_Some _ _ _ Hown) as (c1 & k1 & H1 & H2 & H3).
  unfold current_closure in Hcur. rewrite H1, H2 in Hcur. injection Hcur as -> ->. congruence.
Qed.

Lemma exec_sound o a : sound a (exec o a).1.
Proof.
  revert o a. apply (op_nested_ind (λ o, ∀ a, sound a (exec o a).1)); [intros ws inner answer IH a | intros ws origin inner answer IH a | intros o; destruct o; try done; intros a];
    cbn [exec].
  - apply sound_tryFreeze. intros a'. by apply sound_fold.
  - apply sound_tryResumeRecovery. intros a'. by apply sound_fold.
  - unfold transferDeletionRecovery. destruct (ownsFreeze a ws o) eqn:Hown; [ | apply sound_refl].
    destruct (current_closure a ws) as [[c k] | ] eqn:Hcur; [ | apply sound_refl].
    case_bool_decide; [ | apply sound_refl]. by eapply sound_owner_update.
  - by apply sound_install.
  - unfold bindRecovery. destruct (ownsFreeze a ws o) eqn:Hown; [ | apply sound_refl].
    destruct (current_closure a ws) as [[c k] | ] eqn:Hcur; [ | apply sound_refl]. by eapply sound_owner_update.
  - apply sound_release.
  - apply sound_enter.
  - unfold enterLatePublisher. case_bool_decide; [apply sound_enter | apply sound_refl].
  - apply sound_leave.
  - apply sound_close.
  - unfold reopen. eapply sound_trans; [apply (sound_touch ws) | ]. case_bool_decide; [apply sound_refl | ].
    apply sound_set_gate; destruct which; auto.
  - destruct which; cbn [restoreClosed fst]; [ | by apply sound_install]. apply sound_set_gate; auto.
Qed.

Lemma execs_sound os a : sound a (execs os a).
Proof. apply sound_fold, Forall_forall. intros o _ a'. apply exec_sound. Qed.

Lemma empty_admission_ok : admission_ok empty_admission.
Proof.
  assert (Hg : ∀ ws, gate empty_admission ws = fresh_gate) by done.
  split; intros *; rewrite ?Hg; try done; by intros ?%not_elem_of_nil.
Qed.

Lemma history_ok os : admission_ok (history os).
Proof. apply execs_sound, empty_admission_ok. Qed.

(** An owner that is released stays so, and owns no freeze. *)
Lemma released_owner_owns_nothing a ws o f :
  admission_ok a → owners a !! o = Some f → fo_released f = true → ownsFreeze a ws o = false.
Proof.
  intros Ha Hf Hr. destruct (ownsFreeze a ws o) eqn:Hown; [ | done].
  destruct (ownsFreeze_Some _ _ _ Hown) as (c & k & H1 & H2 & H3).
  destruct (i_owned a Ha _ _ _ _ H1 H2 H3) as [_ E]. rewrite Hf in E. by injection E as ->.
Qed.

Lemma release_live a o f :
  admission_ok a → owners a !! o = Some f →
  (release o a).2 = Done ∧ ∃ f', owners (release o a).1 !! o = Some f' ∧ fo_released f' = true.
Proof.
  intros Ha Hf. unfold release. rewrite Hf. destruct (fo_released f) eqn:Hr; [eauto | ].
  change (gate {| gates := gates a; closures := _; owners := _; mutations := _; resolved := _; next := _ |}) with (gate a).
  cbn [closures]. case_bool_decide as Hc; cbn [negb]; [ | cbn; rewrite lookup_insert_eq; eauto].
  destruct (i_current a Ha _ _ Hc) as [k Hk]. rewrite Hk.
  destruct (live_owner_idle a o f k Ha Hf Hr Hc Hk) as [Ho Hz].
  case_bool_decide; [cbn; rewrite lookup_insert_eq; eauto | ].
  unfold reopen. rewrite gate_touch.
  rewrite bool_decide_eq_false_2 by (change (¬ admitted (gate a (fo_workspace f)) ≠ 0%Z); rewrite Hz; tauto).
  cbn. rewrite lookup_insert_eq. eauto.
Qed.

(** The gate of a current owner has no outstanding mutation and refuses both kinds of entry. *)
Lemma owned_gate_excludes a ws o :
  admission_ok a → ownsFreeze a ws o = true →
  (∀ m mu, mutations a !! m = Some mu → mu_workspace mu = ws → mu_released mu = true) ∧
  (∀ e, (enter ws e a).2 = Refused).
Proof.
  intros Ha Hown. destruct (ownsFreeze_Some _ _ _ Hown) as (c & k & Hc & Hk & Ho).
  destruct (i_owned a Ha _ _ _ _ Hc Hk Ho) as [Hz _]. split.
  - intros m mu. apply live_zero_released. rewrite (i_count a Ha) in Hz. lia.
  - intros e. unfold enter, isClosed. rewrite gate_touch, Hc. by rewrite bool_decide_eq_true_2.
Qed.

(** C27. Whatever sequence of gate operations led here, re-entrant calls from inspections included, a live
    freeze of a workspace excludes every mutation of it: no admitted mutation is outstanding, both kinds of
    entry are refused, no other owner holds the freeze, its release succeeds, and no later operation ever
    gives that owner a freeze back. *)
Theorem freeze_is_exclusive os ws o :
  ownsFreeze (history os) ws o = true →
  (∀ m mu, mutations (history os) !! m = Some mu → mu_workspace mu = ws → mu_released mu = true) ∧
  (∀ e, (enter ws e (history os)).2 = Refused) ∧
  (∀ o', ownsFreeze (history os) ws o' = true → o' = o) ∧
  (release o (history os)).2 = Done ∧
  (∀ ws' later, ownsFreeze (execs later (release o (history os)).1) ws' o = false).
Proof.
  intros Hown. pose proof (history_ok os) as Ha. set (a := history os) in *. clearbody a.
  destruct (ownsFreeze_Some _ _ _ Hown) as (c & k & Hc & Hk & Ho).
  destruct (i_owned a Ha _ _ _ _ Hc Hk Ho) as [Hz Hf].
  destruct (release_live a o _ Ha Hf) as (Hrel & f' & Hf' & Hr').
  destruct (owned_gate_excludes a ws o Ha Hown) as [Hmut Henter]. split_and!; [done | done | | done | ].
  - intros o' Hown'. destruct (ownsFreeze_Some _ _ _ Hown') as (c' & k' & Hc' & Hk' & Ho'). congruence.
  - intros ws' later. destruct (sound_release o a Ha) as [Hb _].
    destruct (execs_sound later _ Hb) as [Hl E]. eapply released_owner_owns_nothing; [done | | done].
    by apply (e_released _ _ E).
Qed.

Definition freeze_history : list op :=
  [OpEnter "w" Ordinary; OpTryFreeze "w" [] (Some []); OpLeave 0;
   OpTryFreeze "w" [OpEnter "w" Ordinary; OpEnter "v" Capture] (Some [])].

Lemma freeze_is_exclusive_witness :
  ownsFreeze (history freeze_history) "w" 3 = true ∧
  ∀ e, (enter "w" e (history freeze_history)).2 = Refused.
Proof.
  split; [by vm_compute | ].
  apply (freeze_is_exclusive freeze_history "w" 3). by vm_compute.
Defined.

Lemma close_promise_state ws a :
  admission_ok a →
  let ms := (filter (λ m, mu_workspace m.2 = ws) (map_to_list (mutations a))).*1 in
  tracked ws ms a ∧ tracked ws ms (close ws a).1 ∧ promise_state ws (next a) ms (close ws a).1.
Proof.
  intros Ha ms.
  assert (Ht : ∀ m, m ∈ ms → ∃ mu, mutations a !! m = Some mu ∧ mu_workspace mu = ws).
  { intros m ([m' mu] & -> & [Hws Hin]%list_elem_of_filter)%list_elem_of_fmap.
    apply elem_of_map_to_list in Hin. eauto. }
  split; [done | split; [done | ]]. unfold promise_state, close. cbn [fst resolved mutations].
  destruct (decide (admitted (gate a ws) = 0%Z)) as [Hz | Hnz].
  - right. rewrite bool_decide_true by done. split; [apply elem_of_app; right; by left | ]. split.
    + intros ws' Hp. unfold gate at 1 in Hp. cbn [gates] in Hp. rewrite gate_insert in Hp.
      assert (next a ∈ waiters (gate a ws')) as Hp' by (by destruct (decide (ws = ws')) as [<- | ]).
      apply (i_waiter a Ha) in Hp'. lia.
    + intros m Hm. destruct (Ht m Hm) as (mu & Hmu & Hws). exists mu. split; [done | ].
      eapply live_zero_released; [ | done..]. rewrite (i_count a Ha) in Hz. lia.
  - left. rewrite bool_decide_false by done. split; [intros Hp; apply (i_resolved a Ha) in Hp; lia | ].
    split; [unfold gate at 1; cbn [gates]; rewrite gate_insert, decide_True by done; apply elem_of_app; right; by left | ].
    intros ws' Hp. unfold gate at 1 in Hp. cbn [gates] in Hp. rewrite gate_insert in Hp.
    destruct (decide (ws = ws')) as [<- | ]; [done | ]. apply (i_waiter a Ha) in Hp. lia.
Qed.

(** Closing a gate drains it.  The promise of a [close] is never resolved before every mutation that
    was admitted at the time of the call has been released, and it is resolved in every later state
    in which no mutation of the workspace is outstanding. *)
Theorem close_drains os ws later :
  let p := next (history os) in
  let after := execs later (close ws (history os)).1 in
  (close ws (history os)).2 = Waiting p ∧
  (p ∈ resolved after → ∀ m mu, mutations (history os) !! m = Some mu → mu_workspace mu = ws →
     ∃ mu', mutations after !! m = Some mu' ∧ mu_released mu' = true) ∧
  ((∀ m mu, mutations after !! m = Some mu → mu_workspace mu = ws → mu_released mu = true) → p ∈ resolved after).
Proof.
  pose proof (history_ok os) as Ha. set (a := history os) in *. clearbody a. intros p after.
  destruct (close_promise_state ws a Ha) as (Ht & Ht1 & Hp1).
  destruct (sound_close ws a Ha) as [Hb Eb]. destruct (execs_sound later _ Hb) as [Hc Ec]. fold after in Hc, Ec.
  apply (e_promise _ _ Ec) in Hp1; [ | cbn; lia | done].
  split; [done | ]. destruct Hp1 as [(Hno & Hwait & _) | (Hres & _ & Hall)]; split.
  - intros Hres. exfalso. by apply Hno.
  - intros Hdrained. exfalso. apply (i_waiter after Hc) in Hwait as [_ Hnz]. apply Hnz.
    rewrite (i_count after Hc). replace (filter (live ws) (mutations after)) with (∅ : gmap nat Mutation); [done | ].
    symmetry. apply map_empty. intros m. apply map_lookup_filter_None. right. intros mu Hm [Hws Hr].
    specialize (Hdrained m mu Hm Hws). cbn in Hr. congruence.
  - intros _ m mu Hm Hws. apply Hall. apply list_elem_of_fmap. exists (m, mu). split; [done | ].
    apply list_elem_of_filter. split; [done | by apply elem_of_map_to_list].
  - done.
Qed.

(** An inspection that closes the gate while a freeze is being taken: the freeze answers busy and leaves a
    capture exclusion that no owner can release. *)
Example freeze_abandoned_by_close :
  (exec (OpTryFreeze "w" [OpClose "w"] (Some [])) empty_admission).2 = Busy ∧
  isClosed (history [OpTryFreeze "w" [OpClose "w"] (Some []); OpReopen "w" Ordinary]) "w" Capture = true.
Proof. by vm_compute. Qed.
