(* ===== verification/BootReadiness.v ===== *)
(** * Boot phases, readiness and scope admission (nanocore/src/bootstrap/phases.ts and readiness.ts)

    Boot runs its phases in order and projects their outcomes to a readiness snapshot; scopes that failed a
    check are refused one by one.  A phase is given with what its [run] does (an outcome or a thrown
    message); the process signal is the number of phases after which it is aborted.  The failures map
    of one data root keeps insertion order, and a failure has the identity of its object because
    the code compares it by reference. *)

From S2P Require Import Prelude MutationAdmission.

Local Open Scope string_scope.
Local Open Scope list_scope.

(** ** Readiness snapshots *)

Inductive BootSubsystemName := Config | Storage | Policy | Vault | Scheduler | LlmGateway | KnowledgeIndex.
#[export] Instance BootSubsystemName_eq_dec : EqDecision BootSubsystemName.
Proof. solve_decision. Defined.

Inductive ReadinessState := StReady | StDegraded | StFailed.
#[export] Instance ReadinessState_eq_dec : EqDecision ReadinessState.
Proof. solve_decision. Defined.

Record BootReadinessReason := { code : string; message : string; blocks : list string }.
#[export] Instance BootReadinessReason_eq_dec : EqDecision BootReadinessReason.
Proof. solve_decision. Defined.

Record Subsystem := { state : ReadinessState; reasons : list BootReadinessReason }.

Record BootReadinessSnapshot := {
  bootId : string;
  acceptingProductWork : bool;
  overall : ReadinessState;
  subsystems : BootSubsystemName → Subsystem;
}.

Definition BOOT_SUBSYSTEMS : list BootSubsystemName := [Config; Storage; Policy; Vault; Scheduler; LlmGateway; KnowledgeIndex].
Definition critical_subsystem (name : BootSubsystemName) : bool := includes [Config; Storage; Policy] name.

Definition readySubsystem : Subsystem := {| state := StReady; reasons := [] |}.

Definition is_failed (s : Subsystem) : bool := bool_decide (state s = StFailed).
Definition is_ready (s : Subsystem) : bool := bool_decide (state s = StReady).

(** The overrides are a partial map from subsystem names. *)
Definition computeBootReadinessSnapshot (id : string) (overrides : BootSubsystemName → option Subsystem) : BootReadinessSnapshot :=
  let subs name := default readySubsystem (overrides name) in
  let hasCriticalFailure := existsb (λ name, critical_subsystem name && is_failed (subs name)) BOOT_SUBSYSTEMS in
  let hasNonReadySubsystem := existsb (λ name, negb (is_ready (subs name))) BOOT_SUBSYSTEMS in
  {| bootId := id; acceptingProductWork := negb hasCriticalFailure;
     overall := if hasCriticalFailure then StFailed else if hasNonReadySubsystem then StDegraded else StReady;
     subsystems := subs |}.

Definition set_subsystem (subs : BootSubsystemName → Subsystem) (name : BootSubsystemName) (s : Subsystem)
    : BootSubsystemName → Subsystem := λ n, if decide (n = name) then s else subs n.

Definition degrade (s : ReadinessState) : ReadinessState := match s with StFailed => StFailed | _ => StDegraded end.

Definition shutdown_reason : BootReadinessReason :=
  {| code := "shutdown.in_progress"; message := "NanoCore is shutting down."; blocks := ["product_work"] |}.

Definition createShutdownReadinessSnapshot (snapshot : BootReadinessSnapshot) : BootReadinessSnapshot :=
  let scheduler := subsystems snapshot Scheduler in
  {| bootId := bootId snapshot; acceptingProductWork := false; overall := degrade (overall snapshot);
     subsystems := set_subsystem (subsystems snapshot) Scheduler
       {| state := degrade (state scheduler); reasons := reasons scheduler ++ [shutdown_reason] |} |}.

(** ** Phases *)

Inductive BootPhaseOutcome :=
| PhaseOk (informational : list BootReadinessReason)
| PhaseDegraded (reason : BootReadinessReason)
| PhaseFailed (reason : BootReadinessReason).

Record BootPhase := {
  name : string;
  subsystem : BootSubsystemName;
  critical : bool;
  run : result string BootPhaseOutcome;
}.

Record RecordedBootPhaseOutcome := { ro_phase : BootPhase; ro_outcome : BootPhaseOutcome }.

Definition runBootPhase (phase : BootPhase) : BootPhaseOutcome :=
  match run phase with
  | Ok outcome => outcome
  | Err message => PhaseFailed {| code := name phase +:+ ".failed"; message := message; blocks := ["product_work"] |}
  end.

Definition stops (phase : BootPhase) : bool :=
  critical phase && match runBootPhase phase with PhaseFailed _ => true | _ => false end.

(** [aborted_after]: the number of started phases after which the signal is aborted. *)
Fixpoint run_phases (aborted_after : option nat) (phases : list BootPhase) : list RecordedBootPhaseOutcome :=
  match aborted_after with
  | Some O => []
  | _ =>
    match phases with
    | [] => []
    | phase :: rest =>
      {| ro_phase := phase; ro_outcome := runBootPhase phase |}
      :: (if stops phase then [] else run_phases (pred <$> aborted_after) rest)
    end
  end.

Definition readiness_step (subs : BootSubsystemName → option Subsystem) (o : RecordedBootPhaseOutcome)
    : BootSubsystemName → option Subsystem :=
  let name := subsystem (ro_phase o) in
  let put s n := if decide (n = name) then Some s else subs n in
  match ro_outcome o with
  | PhaseOk informational =>
    match subs name with
    | None => put {| state := StReady; reasons := informational |}
    | Some existing => put {| state := state existing; reasons := reasons existing ++ informational |}
    end
  | PhaseDegraded reason => put {| state := StDegraded; reasons := [reason] |}
  | PhaseFailed reason => put {| state := StFailed; reasons := [reason] |}
  end.

Definition readinessSubsystemsForOutcomes (outcomes : list RecordedBootPhaseOutcome) : BootSubsystemName → option Subsystem :=
  foldl readiness_step (λ _, None) outcomes.

(** The signal is tested again after the phases; [aborted] is its state then. *)
Definition runBootPhases (id : string) (phases : list BootPhase) (aborted_after : option nat) (aborted : bool)
    : list RecordedBootPhaseOutcome * BootReadinessSnapshot :=
  let outcomes := run_phases aborted_after phases in
  let readiness := computeBootReadinessSnapshot id (readinessSubsystemsForOutcomes outcomes) in
  (outcomes, if aborted then createShutdownReadinessSnapshot readiness else readiness).

Definition failed_critically (o : RecordedBootPhaseOutcome) : bool :=
  critical (ro_phase o) && match ro_outcome o with PhaseFailed _ => true | _ => false end.

Definition blocks_product (r : BootReadinessReason) : bool := includes (blocks r) "product_work".

Definition formatBootFailureMessage (outcomes : list RecordedBootPhaseOutcome) (snapshot : BootReadinessSnapshot) : string :=
  let blocked :=
    let sub := find (λ n, existsb blocks_product (reasons (subsystems snapshot n))) BOOT_SUBSYSTEMS in
    let reason := sub ≫= λ n, find blocks_product (reasons (subsystems snapshot n)) in
    "NanoCore boot blocked product work" +:+ match reason with Some r => ": " +:+ message r | None => "." end in
  match find failed_critically outcomes with
  | Some o =>
    match ro_outcome o with
    | PhaseFailed reason =>
      String.concat "" ["NanoCore boot failed during critical phase "; String (ascii_of_nat 34) ""; name (ro_phase o);
                        String (ascii_of_nat 34) ": "; message reason]
    | _ => blocked
    end
  | None => blocked
  end.

(** ** Scope admission *)

Inductive Scope := WorkspaceScope | UserScope.
#[export] Instance Scope_eq_dec : EqDecision Scope.
Proof. solve_decision. Defined.
Inductive ScopeCheck := Layout | Database | Records | Recovery | Index | Retired.
#[export] Instance ScopeCheck_eq_dec : EqDecision ScopeCheck.
Proof. solve_decision. Defined.

Record ScopeAdmissionFailure := {
  object : nat;
  scope : Scope;
  scope_id : string;
  check : ScopeCheck;
  requiredFeature : option string;
}.
#[export] Instance ScopeAdmissionFailure_eq_dec : EqDecision ScopeAdmissionFailure.
Proof. solve_decision. Defined.

(** The key [scope:id:authority] or [scope:id:index]. *)
Definition failure_key : Type := Scope * string * bool.
Definition key_of (f : ScopeAdmissionFailure) : failure_key := (scope f, scope_id f, bool_decide (check f = Index)).
Definition authority_key (s : Scope) (id : string) : failure_key := (s, id, false).

Definition scope_failures : Type := list (failure_key * ScopeAdmissionFailure).

Definition map_get (k : failure_key) (m : scope_failures) : option ScopeAdmissionFailure :=
  snd <$> find (λ kf, bool_decide (kf.1 = k)) m.
(** [Map.set] keeps the position of a key that is present. *)
Fixpoint map_set (k : failure_key) (f : ScopeAdmissionFailure) (m : scope_failures) : scope_failures :=
  match m with
  | [] => [(k, f)]
  | (k', f') :: m => if bool_decide (k' = k) then (k, f) :: m else (k', f') :: map_set k f m
  end.
Definition map_delete (k : failure_key) (m : scope_failures) : scope_failures :=
  filterb (λ kf, negb (bool_decide (kf.1 = k))) m.

Definition refuseScope (f : ScopeAdmissionFailure) (m : scope_failures) : scope_failures :=
  if bool_decide (check f = Retired) || bool_decide (map_get (key_of f) m = None) then map_set (key_of f) f m else m.

Definition isScopeAdmitted (m : scope_failures) (s : Scope) (id : string) (captured : option (list ScopeAdmissionFailure)) : bool :=
  match captured with
  | Some l => negb (existsb (λ f, bool_decide (scope f = s) && bool_decide (scope_id f = id) && negb (bool_decide (check f = Index))) l)
  | None => bool_decide (map_get (authority_key s id) m = None)
  end.

Inductive ScopeError := RecoveryNotCurrent | Quarantined (s : Scope) (id : string) (check : ScopeCheck) | InvalidRegistryId.

Definition assertScopeAdmitted (m : scope_failures) (s : Scope) (id : string) (captured : option (list ScopeAdmissionFailure))
    : result ScopeError unit :=
  if isScopeAdmitted m s id captured then Ok tt
  else
    match (match captured with
           | Some l => find (λ f, bool_decide (scope f = s) && bool_decide (scope_id f = id) && negb (bool_decide (check f = Index))) l
           | None => map_get (authority_key s id) m
           end) with
    | Some f => Err (Quarantined s id (check f))
    | None => Ok tt
    end.

(** The same failure object is the same record. *)
Definition settleWorkspaceRecoveryScope (f : ScopeAdmissionFailure) (a : Admission) (freeze : nat) (m : scope_failures)
    : result ScopeError scope_failures :=
  let key := authority_key WorkspaceScope (scope_id f) in
  require negb (negb (bool_decide (scope f = WorkspaceScope)) || negb (bool_decide (check f = Recovery))
                || negb (bool_decide (map_get key m = Some f))
                || negb (ownsFreeze a (scope_id f) freeze)) else RecoveryNotCurrent;
  Ok (map_delete key m).

Definition scopeAdmissionFailures (m : scope_failures) : list ScopeAdmissionFailure := m.*2.

(** The retired rows of the registry; [valid] is the check of [WorkspaceIdSchema], and [object] numbers the
    failures that are created. *)
Fixpoint restoreWorkspaceRetirementAdmission (valid : string → bool) (rows : list string) (object : nat)
    (m : scope_failures) (a : Admission) : result ScopeError (scope_failures * Admission) :=
  match rows with
  | [] => Ok (m, a)
  | id :: rows =>
    require valid id else InvalidRegistryId;
    let f := {| object := object; scope := WorkspaceScope; scope_id := id; check := Retired; requiredFeature := None |} in
    restoreWorkspaceRetirementAdmission valid rows (S object) (refuseScope f m) (restoreClosed id Ordinary a).1
  end.

Definition scope_name (s : Scope) : string := match s with WorkspaceScope => "workspace" | UserScope => "user" end.
Definition check_name (c : ScopeCheck) : string :=
  match c with
  | Layout => "layout" | Database => "database" | Records => "records"
  | Recovery => "recovery" | Index => "index" | Retired => "retired"
  end.

Definition failure_reason (f : ScopeAdmissionFailure) : BootReadinessReason :=
  {| code := if bool_decide (check f = Index) then "storage.index-unavailable" else "storage.scope-quarantined";
     message := String.concat "" ["storage: "; scope_name (scope f); " "; scope_id f; "; check="; check_name (check f);
       "; stage=scope-admission.";
       match requiredFeature f with
       | Some feature => if bool_decide (feature = "") then "" else " requiredFeature=" +:+ feature +:+ "."
       | None => ""
       end];
     blocks := [String.concat "" [scope_name (scope f); ":"; scope_id f; if bool_decide (check f = Index) then ":index" else ""]] |}.

Definition add_reasons (rs : list BootReadinessReason) (s : Subsystem) : Subsystem :=
  match rs with [] => s | _ => {| state := degrade (state s); reasons := reasons s ++ rs |} end.

Definition withScopeAdmissionReadiness (snapshot : BootReadinessSnapshot) (m : scope_failures) : BootReadinessSnapshot :=
  let failures := filterb (λ f,
    negb (bool_decide (check <$> map_get (authority_key (scope f) (scope_id f)) m = Some Retired))) (scopeAdmissionFailures m) in
  match failures with
  | [] => snapshot
  | _ =>
    let index := filterb (λ f, bool_decide (check f = Index)) failures in
    let authority := filterb (λ f, negb (bool_decide (check f = Index))) failures in
    {| bootId := bootId snapshot; acceptingProductWork := acceptingProductWork snapshot; overall := degrade (overall snapshot);
       subsystems := λ n,
         match n with
         | Storage => add_reasons (failure_reason <$> authority) (subsystems snapshot Storage)
         | KnowledgeIndex => add_reasons (failure_reason <$> index) (subsystems snapshot KnowledgeIndex)
         | n => subsystems snapshot n
         end |}
  end.

Inductive VaultHealth := VaultAvailable | VaultLocked | VaultUnavailable.

Definition vault_subsystem (h : VaultHealth) : Subsystem :=
  match h with
  | VaultAvailable => readySubsystem
  | h => {| state := StDegraded;
            reasons := [{| code := match h with VaultLocked => "vault.locked" | _ => "vault.unavailable" end;
                           message := "Vault-dependent operations are unavailable.";
                           blocks := ["vault.read"; "vault.use"; "secret.inject"] |}] |}
  end.

Definition gateway_subsystem (available : bool) : Subsystem :=
  if available then readySubsystem
  else {| state := StDegraded;
          reasons := [{| code := "llm.gateway_unavailable"; message := "Gateway supply is unavailable or degraded.";
                         blocks := ["llm.inference"] |}] |}.

Definition computeCurrentReadiness (snapshot : BootReadinessSnapshot) (vault : VaultHealth) (gateway : bool)
    (m : scope_failures) : BootReadinessSnapshot :=
  let current := computeBootReadinessSnapshot (bootId snapshot)
    (λ n, Some match n with
               | Vault => vault_subsystem vault
               | LlmGateway => gateway_subsystem gateway
               | n => subsystems snapshot n
               end) in
  withScopeAdmissionReadiness
    {| bootId := bootId current; acceptingProductWork := acceptingProductWork snapshot && acceptingProductWork current;
       overall := overall current; subsystems := subsystems current |} m.

(** ** What boot promises *)

(** The state of a subsystem by its last outcome that was not ok. *)
Definition final_state (n : BootSubsystemName) (outcomes : list RecordedBootPhaseOutcome) : ReadinessState :=
  foldl (λ acc o, if bool_decide (subsystem (ro_phase o) = n)
                  then match ro_outcome o with PhaseOk _ => acc | PhaseDegraded _ => StDegraded | PhaseFailed _ => StFailed end
                  else acc) StReady outcomes.

Lemma readiness_final_state n outcomes :
  state (default readySubsystem (readinessSubsystemsForOutcomes outcomes n)) = final_state n outcomes.
Proof.
  unfold readinessSubsystemsForOutcomes, final_state. induction outcomes as [ | o outcomes IH] using rev_ind; [done | ].
  rewrite !foldl_app. cbn [foldl]. rewrite <- IH. set (subs := foldl readiness_step _ outcomes).
  unfold readiness_step. case_bool_decide as Hn.
  - subst n. destruct (ro_outcome o) as [l | r | r].
    + destruct (subs (subsystem (ro_phase o))) as [s | ] eqn:Hs; rewrite decide_True by done; [done | done].
    + by rewrite decide_True.
    + by rewrite decide_True.
  - destruct (ro_outcome o) as [l | r | r]; [destruct (subs (subsystem (ro_phase o))) | | ]; by rewrite decide_False by congruence.
Qed.

Lemma all_subsystems n : n ∈ BOOT_SUBSYSTEMS.
Proof. apply (bool_decide_unpack _). by destruct n. Qed.

Lemma compute_accepting id overrides :
  acceptingProductWork (computeBootReadinessSnapshot id overrides) = true ↔
  ∀ n, critical_subsystem n = true → state (subsystems (computeBootReadinessSnapshot id overrides) n) ≠ StFailed.
Proof.
  cbn [acceptingProductWork computeBootReadinessSnapshot subsystems]. rewrite negb_true_iff, existsb_elem_false. split.
  - intros H n Hn. specialize (H n (all_subsystems n)). rewrite Hn in H. by apply bool_decide_eq_false in H.
  - intros H n _. destruct (critical_subsystem n) eqn:Hn; [ | done]. apply bool_decide_eq_false. by apply H.
Qed.

Lemma compute_failed id overrides :
  overall (computeBootReadinessSnapshot id overrides) = StFailed ↔ acceptingProductWork (computeBootReadinessSnapshot id overrides) = false.
Proof. cbn [overall computeBootReadinessSnapshot acceptingProductWork]. rewrite negb_false_iff. destruct (existsb _ BOOT_SUBSYSTEMS); [done|]. by destruct (existsb _ BOOT_SUBSYSTEMS). Qed.

Lemma compute_ready id overrides :
  overall (computeBootReadinessSnapshot id overrides) = StReady ↔
  ∀ n, state (subsystems (computeBootReadinessSnapshot id overrides) n) = StReady.
Proof.
  cbn [overall computeBootReadinessSnapshot subsystems]. split.
  - destruct (existsb _ BOOT_SUBSYSTEMS); [done|]. destruct (existsb _ BOOT_SUBSYSTEMS) eqn:Er; [done|]. intros _ n.
    rewrite existsb_elem_false in Er. specialize (Er n (all_subsystems n)). by apply negb_false_iff, bool_decide_eq_true in Er.
  - intros H. rewrite (proj2 (existsb_elem_false _ _)).
    + rewrite (proj2 (existsb_elem_false _ _)); [done|]. intros n _. apply negb_false_iff, bool_decide_eq_true, H.
    + intros n _. apply andb_false_iff. right. apply bool_decide_eq_false. by rewrite H.
Qed.

Lemma degrade_failed s : degrade s = StFailed ↔ s = StFailed.
Proof. by destruct s. Qed.

(** The recorded outcomes are those of the phases in order; a phase that stops boot is the last one, and
    without such a phase only the signal leaves phases out. *)
Lemma run_phases_prefix aborted_after phases :
  ro_phase <$> run_phases aborted_after phases = take (length (run_phases aborted_after phases)) phases ∧
  Forall (λ o, ro_outcome o = runBootPhase (ro_phase o)) (run_phases aborted_after phases) ∧
  (∀ pre o post, run_phases aborted_after phases = pre ++ o :: post → stops (ro_phase o) = true → post = []) ∧
  ((length (run_phases aborted_after phases) < length phases)%nat →
   (∃ pre o, run_phases aborted_after phases = pre ++ [o] ∧ stops (ro_phase o) = true) ∨
   aborted_after = Some (length (run_phases aborted_after phases))).
Proof.
  revert aborted_after. induction phases as [ | phase phases IH]; intros aborted_after; cbn [run_phases].
  { destruct aborted_after as [[ | n] | ]; split_and!; try done; try (by intros [ | ? ?]); cbn; lia. }
  set (l := {| ro_phase := phase; ro_outcome := runBootPhase phase |} :: (if stops phase then [] else run_phases (pred <$> aborted_after) phases)).
  assert (aborted_after ≠ Some 0%nat →
    ro_phase <$> l = take (length l) (phase :: phases) ∧ Forall (λ o, ro_outcome o = runBootPhase (ro_phase o)) l ∧
    (∀ pre o post, l = pre ++ o :: post → stops (ro_phase o) = true → post = []) ∧
    ((length l < length (phase :: phases))%nat →
     (∃ pre o, l = pre ++ [o] ∧ stops (ro_phase o) = true) ∨ aborted_after = Some (length l))) as Hgo.
  { intros Hab. subst l. destruct (IH (pred <$> aborted_after)) as (Hk & Hf & Hs & Hl). destruct (stops phase) eqn:Est.
    - split_and!; [done | by repeat constructor | | ].
      + intros [ | x pre] o post [= <- E] _; [done | by destruct pre].
      + intros _. left. by exists [], {| ro_phase := phase; ro_outcome := runBootPhase phase |}.
    - split_and!; [cbn; by rewrite Hk at 1 | by constructor | | ].
      + intros [ | x pre] o post [= <- E] Ho; [cbn in Ho; congruence | by eapply Hs].
      + cbn [length]. intros Hlt. destruct Hl as [(pre & o & -> & Ho)|Ha]; [lia| |].
        * left. by exists ({| ro_phase := phase; ro_outcome := runBootPhase phase |} :: pre), o.
        * right. destruct aborted_after as [[ | n] | ]; [done | | done]. injection Ha as Ha. cbn in *. by rewrite <- Ha at 1. }
  destruct aborted_after as [[ | n] | ]; [ | by apply Hgo | by apply Hgo].
  split_and!; try done; [by intros [ | ? ?] | by right].
Qed.

Lemma stops_outcome o : ro_outcome o = runBootPhase (ro_phase o) → failed_critically o = stops (ro_phase o).
Proof. unfold failed_critically, stops. by intros ->. Qed.

(** Boot stops at a failed critical phase, and its subsystem ends failed. *)
Lemma critical_failure_is_last aborted_after phases pre o post :
  run_phases aborted_after phases = pre ++ o :: post → failed_critically o = true →
  post = [] ∧ final_state (subsystem (ro_phase o)) (run_phases aborted_after phases) = StFailed.
Proof.
  destruct (run_phases_prefix aborted_after phases) as (_ & Hf & Hs & _). intros E Ho.
  assert (post = []) as ->.
  { eapply Hs; [exact E|]. rewrite <- stops_outcome; [done|]. rewrite Forall_forall in Hf. apply Hf. rewrite E. set_solver. }
  split; [done|]. rewrite E. unfold final_state. rewrite foldl_app. cbn. rewrite bool_decide_true by done.
  unfold failed_critically in Ho. by destruct (critical (ro_phase o)), (ro_outcome o).
Qed.

Lemma outcomes_failed id outcomes :
  overall (computeBootReadinessSnapshot id (readinessSubsystemsForOutcomes outcomes)) = StFailed ↔
  ∃ n, critical_subsystem n = true ∧ final_state n outcomes = StFailed.
Proof.
  rewrite compute_failed, <- not_true_iff_false, compute_accepting. cbn [subsystems computeBootReadinessSnapshot]. setoid_rewrite readiness_final_state. split; [|naive_solver].
  intros H. destruct (existsb (λ n, critical_subsystem n && bool_decide (final_state n outcomes = StFailed)) BOOT_SUBSYSTEMS) eqn:E.
  - apply existsb_elem in E as (n & _ & [Hc Hn]%andb_true_iff). exists n. by apply bool_decide_eq_true in Hn.
  - destruct H. intros n Hn Hbad. rewrite existsb_elem_false in E. specialize (E n (all_subsystems n)). by rewrite Hn, bool_decide_true in E.
Qed.

Lemma outcomes_ready id outcomes :
  overall (computeBootReadinessSnapshot id (readinessSubsystemsForOutcomes outcomes)) = StReady ↔ ∀ n, final_state n outcomes = StReady.
Proof. rewrite compute_ready. cbn [subsystems computeBootReadinessSnapshot]. by setoid_rewrite readiness_final_state. Qed.

(** C36. Boot fails closed.  The outcomes are those of the phases in order, nothing runs after a failed critical
    phase, and a phase is left out only behind such a failure or when the signal was aborted before it.
    Every subsystem shows its last outcome that was not ok (a shutdown lowers the scheduler to degraded).
    The snapshot is failed exactly when a critical subsystem ended failed, ready exactly when the process is
    not shutting down and every subsystem ended ready, and admits product work exactly when it is not
    failed and the process is not shutting down; a failed critical phase of a critical subsystem therefore
    always fails it. *)
Theorem boot_fails_closed id phases aborted_after aborted :
  let '(outcomes, snapshot) := runBootPhases id phases aborted_after aborted in
  outcomes = (λ phase, {| ro_phase := phase; ro_outcome := runBootPhase phase |}) <$> take (length outcomes) phases ∧
  (∀ pre o post, outcomes = pre ++ o :: post → failed_critically o = true → post = []) ∧
  ((length outcomes < length phases)%nat →
     (∃ o, o ∈ outcomes ∧ failed_critically o = true) ∨ aborted_after = Some (length outcomes)) ∧
  (∀ n, state (subsystems snapshot n) =
     if aborted && bool_decide (n = Scheduler) then degrade (final_state n outcomes) else final_state n outcomes) ∧
  (overall snapshot = StFailed ↔ ∃ n, critical_subsystem n = true ∧ final_state n outcomes = StFailed) ∧
  (overall snapshot = StReady ↔ aborted = false ∧ ∀ n, final_state n outcomes = StReady) ∧
  (acceptingProductWork snapshot = true ↔ aborted = false ∧ overall snapshot ≠ StFailed) ∧
  (∀ o, o ∈ outcomes → failed_critically o = true → critical_subsystem (subsystem (ro_phase o)) = true →
     acceptingProductWork snapshot = false ∧ overall snapshot = StFailed).
Proof.
  unfold runBootPhases. pose proof (critical_failure_is_last aborted_after phases) as Hlast.
  destruct (run_phases_prefix aborted_after phases) as (Hk & Hf & _ & Hl).
  set (outcomes := run_phases aborted_after phases) in *.
  set (snap := computeBootReadinessSnapshot id (readinessSubsystemsForOutcomes outcomes)).
  assert (Hst : ∀ n, state (subsystems snap n) = final_state n outcomes) by (intros n; apply readiness_final_state).
  pose proof (outcomes_failed id outcomes : overall snap = StFailed ↔ _) as Hfail.
  pose proof (outcomes_ready id outcomes : overall snap = StReady ↔ _) as Hready.
  assert (Hacc : acceptingProductWork snap = true ↔ overall snap ≠ StFailed).
  { unfold snap. rewrite compute_failed. by destruct (acceptingProductWork _). }
  set (final := if aborted then createShutdownReadinessSnapshot snap else snap).
  assert (Hof : overall final = StFailed ↔ overall snap = StFailed) by (destruct aborted; [apply degrade_failed|done]).
  assert (Ha : acceptingProductWork final = true ↔ aborted = false ∧ overall final ≠ StFailed).
  { rewrite Hof. destruct aborted; [split; [done|by intros [? _]]|]. change final with snap. rewrite Hacc. naive_solver. }
  split_and!; try done.
  - rewrite <- Hk, <- list_fmap_compose. clear - Hf. induction Hf as [|[ph oc] l E _ IH]; [done|]. cbn in *. by rewrite <- E, <- IH.
  - intros pre o post E Ho. by destruct (Hlast pre o post E Ho).
  - intros Hlt. destruct (Hl Hlt) as [(pre & o & E & Ho)|Hb]; [left|by right]. exists o. rewrite E. split; [set_solver|].
    rewrite stops_outcome; [done|]. rewrite Forall_forall in Hf. apply Hf. rewrite E. set_solver.
  - intros n. subst final. destruct aborted; cbn [andb]; [|apply Hst]. cbn. unfold set_subsystem. case_decide; case_bool_decide; try done; cbn; by rewrite <- Hst; subst.
  - by rewrite Hof.
  - rewrite <- Hready. subst final. destruct aborted; [|naive_solver]. cbn [overall createShutdownReadinessSnapshot]. by destruct (overall snap); split; [|intros [? _]| |intros [? _]| |intros [? _]].
  - intros o (pre & post & E)%list_elem_of_split Ho Hc. assert (overall final = StFailed) as Hov.
    { apply Hof, Hfail. eexists. split; [exact Hc|]. by destruct (Hlast pre o post E Ho). }
    split; [|done]. apply not_true_is_false. rewrite Ha. naive_solver.
Qed.

(** ** What scope admission promises *)

Lemma map_get_set k f m k' : map_get k' (map_set k f m) = if decide (k = k') then Some f else map_get k' m.
Proof.
  unfold map_get. induction m as [ | [k1 f1] m IH]; cbn.
  - case_bool_decide; by case_decide.
  - case_bool_decide as H1; cbn.
    + subst k1. case_bool_decide; by case_decide.
    + case_bool_decide as H2; [ | exact IH]. case_decide; [congruence | done].
Qed.

Lemma map_get_delete k m k' : map_get k' (map_delete k m) = if decide (k = k') then None else map_get k' m.
Proof.
  unfold map_get, map_delete. induction m as [ | [k1 f1] m IH]; cbn; [by case_decide | ].
  case_bool_decide as H1; cbn.
  - subst k1. rewrite IH. case_decide; [done | ]. by case_bool_decide.
  - case_bool_decide as H2; [ | exact IH]. case_decide; [congruence | done].
Qed.

Inductive scope_op :=
| OpRefuse (f : ScopeAdmissionFailure)
| OpSettle (f : ScopeAdmissionFailure) (a : Admission) (freeze : nat).

Definition scope_step (m : scope_failures) (o : scope_op) : scope_failures :=
  match o with
  | OpRefuse f => refuseScope f m
  | OpSettle f a freeze => match settleWorkspaceRecoveryScope f a freeze m with Ok m => m | Err _ => m end
  end.

Definition retired_at (id : string) (m : scope_failures) : Prop :=
  check <$> map_get (authority_key WorkspaceScope id) m = Some Retired.

Lemma settle_Ok f a freeze m m' :
  settleWorkspaceRecoveryScope f a freeze m = Ok m' →
  scope f = WorkspaceScope ∧ check f = Recovery ∧
  map_get (authority_key WorkspaceScope (scope_id f)) m = Some f ∧
  ownsFreeze a (scope_id f) freeze = true ∧ m' = map_delete (authority_key WorkspaceScope (scope_id f)) m.
Proof.
  unfold settleWorkspaceRecoveryScope. destruct (negb _) eqn:E; [ | done]. intros [= <-]. bool_to_prop.
  repeat match goal with H : _ ∧ _ |- _ => destruct H end. by split_and!.
Qed.

Lemma retired_step id m o : retired_at id m → retired_at id (scope_step m o).
Proof.
  unfold retired_at. intros Hr. destruct o as [f | f a freeze]; cbn [scope_step].
  - unfold refuseScope. destruct (bool_decide (check f = Retired)) eqn:E1; cbn [orb].
    + apply bool_decide_eq_true in E1. rewrite map_get_set. case_decide as Hk; [cbn; by rewrite E1 | done].
    + destruct (bool_decide (map_get (key_of f) m = None)) eqn:E2; [ | done]. apply bool_decide_eq_true in E2.
      clear E1. rewrite map_get_set. case_decide as Hk; [ | done]. exfalso. rewrite Hk in E2. by rewrite E2 in Hr.
  - destruct (settleWorkspaceRecoveryScope f a freeze m) as [m' | ] eqn:Hs; [ | done].
    destruct (settle_Ok _ _ _ _ _ Hs) as (_ & Hc & Hget & _ & ->). rewrite map_get_delete. case_decide as Hk; [ | done].
    rewrite Hk in Hget. rewrite Hget in Hr. cbn in Hr. congruence.
Qed.

Lemma retired_steps id os m : retired_at id m → retired_at id (foldl scope_step m os).
Proof. revert m. induction os as [ | o os IH]; intros m Hr; cbn; [done | ]. by apply IH, retired_step. Qed.

Lemma refuse_retired f m : check f = Retired → scope f = WorkspaceScope → retired_at (scope_id f) (refuseScope f m).
Proof.
  intros Hc Hs. unfold retired_at, refuseScope. rewrite bool_decide_true by done. cbn [orb]. rewrite map_get_set.
  unfold key_of. rewrite Hs, (bool_decide_false (check f = Index)) by congruence. rewrite decide_True by done. cbn. by rewrite Hc.
Qed.

Lemma restore_closed_stays id ws a : closed (gate a ws) = true → closed (gate (restoreClosed id Ordinary a).1 ws) = true.
Proof. cbn [restoreClosed fst]. rewrite gate_set. by destruct (decide (id = ws)). Qed.

Lemma restore_retirement_closed valid rows : ∀ object m a m' a',
  restoreWorkspaceRetirementAdmission valid rows object m a = Ok (m', a') →
  (∀ ws, closed (gate a ws) = true → closed (gate a' ws) = true) ∧ (∀ id, retired_at id m → retired_at id m') ∧
  ∀ id, id ∈ rows → closed (gate a' id) = true ∧ retired_at id m'.
Proof.
  induction rows as [ | id rows IH]; intros object m a m' a' H; cbn in H.
  - injection H as <- <-. split_and!; try done. by intros id ?%not_elem_of_nil.
  - destruct (valid id); [ | done]. destruct (IH _ _ _ _ _ H) as (Hc & Hr & Hin). split_and!.
    + intros ws Hw. by apply Hc, restore_closed_stays.
    + intros id' Hr'. apply Hr. apply (retired_step id' m (OpRefuse _)). exact Hr'.
    + intros id' [-> | Hid]%elem_of_cons; [ | auto]. split.
      * apply Hc. cbn [restoreClosed fst]. by rewrite gate_set, decide_True.
      * apply Hr. by apply (refuse_retired {| object := object; scope := WorkspaceScope; scope_id := id; check := Retired; requiredFeature := None |}).
Qed.

(** A retired workspace stays out.  Once boot has restored the retirement exclusions from the registry, every
    retired workspace is refused after any later refusals and recovery settlements, and its mutation gate
    refuses ordinary entry. *)
Theorem retired_workspace_stays_refused valid rows object m a m' a' :
  restoreWorkspaceRetirementAdmission valid rows object m a = Ok (m', a') →
  ∀ id, id ∈ rows →
    (∀ later, isScopeAdmitted (foldl scope_step m' later) WorkspaceScope id None = false) ∧
    (enter id Ordinary a').2 = Refused.
Proof.
  intros H id Hid. destruct (restore_retirement_closed _ _ _ _ _ _ _ H) as (_ & _ & Hin). destruct (Hin id Hid) as [Hcl Hr].
  split.
  - intros later. pose proof (retired_steps id later m' Hr) as Hl. unfold retired_at in Hl. cbn. apply bool_decide_eq_false.
    intros E. by rewrite E in Hl.
  - unfold enter, isClosed. rewrite gate_touch, Hcl, (bool_decide_true (Ordinary = Ordinary)) by done. by rewrite orb_true_r.
Qed.

Lemma retired_workspace_stays_refused_witness :
  ∃ m' a', restoreWorkspaceRetirementAdmission (λ _, true) ["w"] 0 [] empty_admission = Ok (m', a') ∧
    (enter "w" Ordinary a').2 = Refused.
Proof.
  eexists _, _. split; [reflexivity | ].
  apply (retired_workspace_stays_refused (λ _, true) ["w"] 0 [] empty_admission _ _ eq_refl "w"). by left.
Defined.

(** A recovery diagnosis is cleared only under exclusion.  When settlement succeeds in a process whose gate went
    through any history of operations, the diagnosis was the recorded recovery failure of that workspace, no
    mutation of the workspace is outstanding and none can enter; afterwards exactly that workspace is admitted
    again and every other scope is as before. *)
Theorem settlement_needs_exclusion os f freeze m m' :
  settleWorkspaceRecoveryScope f (history os) freeze m = Ok m' →
  check f = Recovery ∧ map_get (authority_key WorkspaceScope (scope_id f)) m = Some f ∧
  (∀ i mu, mutations (history os) !! i = Some mu → mu_workspace mu = scope_id f → mu_released mu = true) ∧
  (∀ e, (enter (scope_id f) e (history os)).2 = Refused) ∧
  ∀ s id, isScopeAdmitted m' s id None =
    isScopeAdmitted m s id None || (bool_decide (s = WorkspaceScope) && bool_decide (id = scope_id f)).
Proof.
  intros H. destruct (settle_Ok _ _ _ _ _ H) as (Hs & Hc & Hget & Hown & ->).
  destruct (owned_gate_excludes (history os) (scope_id f) freeze (history_ok os) Hown) as [Hmut Henter].
  split_and!; try done. intros s id. cbn. rewrite map_get_delete. unfold authority_key. case_decide as Hk.
  - injection Hk as <- <-. rewrite (bool_decide_true (WorkspaceScope = WorkspaceScope)), (bool_decide_true (scope_id f = scope_id f)) by done.
    by rewrite orb_true_r.
  - destruct (bool_decide (s = WorkspaceScope)) eqn:E1, (bool_decide (id = scope_id f)) eqn:E2; cbn [andb]; rewrite ?orb_false_r; try done.
    bool_to_prop. congruence.
Qed.

Definition recovery_failure : ScopeAdmissionFailure :=
  {| object := 7; scope := WorkspaceScope; scope_id := "w"; check := Recovery; requiredFeature := None |}.

Lemma settlement_needs_exclusion_witness :
  ∃ m', settleWorkspaceRecoveryScope recovery_failure (history freeze_history) 3 (refuseScope recovery_failure []) = Ok m' ∧
    ∀ e, (enter "w" e (history freeze_history)).2 = Refused.
Proof.
  eexists. split; [vm_compute; reflexivity | ].
  apply (settlement_needs_exclusion freeze_history recovery_failure 3 (refuseScope recovery_failure []) []). vm_compute. reflexivity.
Defined.

(** The current diagnosis never reopens product work that the boot snapshot closed, nor hides a failed critical
    subsystem; scope failures other than retired ones never leave it ready. *)
Theorem current_readiness_is_conservative snapshot vault gateway m :
  (acceptingProductWork (computeCurrentReadiness snapshot vault gateway m) = true →
   acceptingProductWork snapshot = true ∧
   ∀ n, critical_subsystem n = true → state (subsystems snapshot n) ≠ StFailed) ∧
  ((∃ kf, kf ∈ m ∧ check <$> map_get (authority_key (scope kf.2) (scope_id kf.2)) m ≠ Some Retired) →
   overall (computeCurrentReadiness snapshot vault gateway m) ≠ StReady).
Proof.
  unfold computeCurrentReadiness, withScopeAdmissionReadiness. set (failures := filterb _ _).
  set (current := computeBootReadinessSnapshot _ _). split.
  - intros Hacc.
    assert (Hb : acceptingProductWork snapshot && acceptingProductWork current = true) by (by destruct failures).
    apply andb_true_iff in Hb as [Hs Hc]. split; [done | ]. intros n Hn.
    pose proof (proj1 (compute_accepting _ _) Hc n Hn) as Hst. by destruct n.
  - intros (kf & Hin & Hr). clearbody current. destruct failures as [ | f l] eqn:Ef; [ | cbn [overall]; by destruct (overall current)].
    exfalso. assert (Hnil : kf.2 ∈ failures); [ | rewrite Ef in Hnil; by apply not_elem_of_nil in Hnil].
    apply elem_of_filterb. split; [by apply list_elem_of_fmap_2 | ]. apply negb_true_iff. by apply bool_decide_eq_false.
Qed.
