(* ===== verification/FileAdmission.v ===== *)
(** * File byte and storage admission (nanocore/src/storage/artifacts/file-admission.ts)

    Reservations of free space on a file system, shared by every writer of the process, and the counter of
    the bytes of one submission.  What the code asks of the operating system and of its injected
    callbacks is a [World] given to each call: the answer of [stat] for a path, the free bytes, and
    the value of each reserve policy, which may also have been collected.  Closures that are compared
    by identity are numbers. *)

From S2P Require Import Prelude.

Local Open Scope list_scope.
Local Open Scope Z_scope.

Inductive FileErrorCode := FileTooLarge | StorageCapacityUnavailable | InvalidFileSize.

Definition MAX_ARTIFACT_FILE_BYTES : Z := 1000000000.
Definition safe_integer (n : Z) : bool := (- (2 ^ 53 - 1) <=? n) && (n <=? 2 ^ 53 - 1).

(** ** The bytes of one submission *)

(** [FileByteAdmission.consume] on the accepted total. *)
Definition consume (acceptedBytes byteLength : Z) : result FileErrorCode Z :=
  require safe_integer byteLength && (0 <=? byteLength) else InvalidFileSize;
  require byteLength <=? MAX_ARTIFACT_FILE_BYTES - acceptedBytes else FileTooLarge;
  Ok (acceptedBytes + byteLength).

(** A sequence of chunks; a refused one leaves the total. *)
Definition consume_all (chunks : list Z) : Z :=
  foldl (λ total n, match consume total n with Ok t => t | Err _ => total end) 0 chunks.

(** ** The world *)

(** An absolute path, innermost segment first. *)
Definition fs_path : Type := list string.

Inductive StatAnswer := Present (device : Z) | Missing | Failing.
Inductive PolicyAnswer := Collected | Unreadable | PolicyValue (bytes : Z).

Record World := {
  stat : fs_path → StatAnswer;
  free : option nat → fs_path → option Z;
  policy : nat → PolicyAnswer;
}.

Record FileStorageAdmission := { root : fs_path; reserveBytes : nat; availableBytes : option nat }.

Inductive priority := Ordinary | Control.
#[export] Instance priority_eq_dec : EqDecision priority.
Proof. solve_decision. Defined.

Record FileWriteCapacity := { stagingBytes : Z; extractionBytes : Z; derivativeBytes : Z; publicationBytes : Z }.

(** An injected source of capacity has pools of its own. *)
Definition PoolKey : Type := option nat * Z.
Record FileCapacityPool := { reservedBytes : Z; policies : list nat }.
Record Reservation := {
  rs_pool : PoolKey;
  rs_admission : FileStorageAdmission;
  rs_priority : priority;
  remainingBytes : Z;
  released : bool;
}.
Record Capacity := { pools : gmap PoolKey FileCapacityPool; reservations : list Reservation }.

Definition empty_capacity : Capacity := {| pools := ∅; reservations := [] |}.
Definition fresh_pool : FileCapacityPool := {| reservedBytes := 0; policies := [] |}.
Definition pool_at (c : Capacity) (k : PoolKey) : FileCapacityPool := default fresh_pool (pools c !! k).

Definition set_pool (k : PoolKey) (p : FileCapacityPool) (c : Capacity) : Capacity :=
  {| pools := <[k := p]> (pools c); reservations := reservations c |}.
Definition set_policies (k : PoolKey) (ps : list nat) (c : Capacity) : Capacity :=
  set_pool k {| reservedBytes := reservedBytes (pool_at c k); policies := ps |} c.
Definition add_reserved (k : PoolKey) (n : Z) (c : Capacity) : Capacity :=
  set_pool k {| reservedBytes := reservedBytes (pool_at c k) + n; policies := policies (pool_at c k) |} c.
Definition set_reservation (i : nat) (r : Reservation) (c : Capacity) : Capacity :=
  {| pools := pools c; reservations := <[i := r]> (reservations c) |}.

(** ** Operations *)

(** The nearest existing ancestor; [None] when [stat] fails or nothing up to the root exists. *)
Fixpoint capacityPath (w : World) (p : fs_path) : option (fs_path * Z) :=
  match stat w p with
  | Present device => Some (p, device)
  | Failing => None
  | Missing => match p with [] => None | _ :: parent => capacityPath w parent end
  end.

(** [this.pool()]: joins the pool of the device and registers the policy once. *)
Definition pool (w : World) (a : FileStorageAdmission) (c : Capacity) : option (Capacity * PoolKey) :=
  match capacityPath w (root a) with
  | None => None
  | Some (_, device) =>
    let k := (availableBytes a, device) in
    let p := pool_at c k in
    Some (set_policies k (if includes (policies p) (reserveBytes a) then policies p
                          else policies p ++ [reserveBytes a]) c, k)
  end.

(** The loop over the policies: the policies that are kept, and the largest reserve. *)
Fixpoint read_policies (w : World) (ps : list nat) (reserve : Z) : list nat * option Z :=
  match ps with
  | [] => ([], Some reserve)
  | q :: ps =>
    match policy w q with
    | Collected => read_policies w ps reserve
    | Unreadable => (q :: ps, None)
    | PolicyValue v =>
      if v <? 0 then (q :: ps, None)
      else let '(kept, r) := read_policies w ps (if reserve <? v then v else reserve) in (q :: kept, r)
    end
  end.

Definition free_bytes (w : World) (a : FileStorageAdmission) : option Z :=
  match availableBytes a with
  | Some source => free w (Some source) (root a)
  | None => match capacityPath w (root a) with Some (p, _) => free w None p | None => None end
  end.

Definition assertCapacity (w : World) (a : FileStorageAdmission) (k : PoolKey) (additional : Z) (pr : priority) (c : Capacity)
    : Capacity * result FileErrorCode unit :=
  let '(kept, reserve) := match pr with
                          | Ordinary => read_policies w (policies (pool_at c k)) 0
                          | Control => (policies (pool_at c k), Some 0)
                          end in
  let c := set_policies k kept c in
  (c, match reserve, free_bytes w a with
      | Some reserve, Some available =>
        if (reserve <? 0) || (available <? 0) || (available <? reserve + reservedBytes (pool_at c k) + additional)
        then Err StorageCapacityUnavailable else Ok tt
      | _, _ => Err StorageCapacityUnavailable
      end).

Definition write_bytes (wr : FileWriteCapacity) : Z :=
  stagingBytes wr + extractionBytes wr + derivativeBytes wr + publicationBytes wr.

(** The new reservation is the last one. *)
Definition reserve (w : World) (a : FileStorageAdmission) (wr : FileWriteCapacity) (pr : priority) (c : Capacity)
    : Capacity * result FileErrorCode nat :=
  if existsb (λ n, n <? 0) [stagingBytes wr; extractionBytes wr; derivativeBytes wr; publicationBytes wr]
  then (c, Err InvalidFileSize)
  else
    let bytes := write_bytes wr in
    match pool w a c with
    | None => (c, Err StorageCapacityUnavailable)
    | Some (c, k) =>
      match assertCapacity w a k bytes pr c with
      | (c, Err _) => (c, Err StorageCapacityUnavailable)
      | (c, Ok _) =>
        let c := add_reserved k bytes c in
        ({| pools := pools c;
            reservations := reservations c ++
              [{| rs_pool := k; rs_admission := a; rs_priority := pr; remainingBytes := bytes; released := false |}] |},
         Ok (length (reservations c)))
      end
    end.

Definition assertAvailable (w : World) (i : nat) (c : Capacity) : Capacity * result FileErrorCode unit :=
  match reservations c !! i with
  | None => (c, Ok tt)
  | Some r =>
    if released r then (c, Err StorageCapacityUnavailable)
    else assertCapacity w (rs_admission r) (rs_pool r) 0 (rs_priority r) c
  end.

Definition with_remaining (n : Z) (r : Reservation) : Reservation :=
  {| rs_pool := rs_pool r; rs_admission := rs_admission r; rs_priority := rs_priority r; remainingBytes := n;
     released := released r |}.

Definition recordWritten (i : nat) (byteLength : Z) (c : Capacity) : Capacity * result FileErrorCode unit :=
  match reservations c !! i with
  | None => (c, Ok tt)
  | Some r =>
    if released r || negb (safe_integer byteLength) || (byteLength <? 0) || (remainingBytes r <? byteLength)
    then (c, Err StorageCapacityUnavailable)
    else (add_reserved (rs_pool r) (- byteLength)
            (set_reservation i (with_remaining (remainingBytes r - byteLength) r) c), Ok tt)
  end.

Definition reduceTo (i : nat) (bytes : Z) (c : Capacity) : Capacity * result FileErrorCode unit :=
  match reservations c !! i with
  | None => (c, Ok tt)
  | Some r =>
    if released r || (bytes <? 0) || (remainingBytes r <? bytes) then (c, Err StorageCapacityUnavailable)
    else (add_reserved (rs_pool r) (- (remainingBytes r - bytes)) (set_reservation i (with_remaining bytes r) c), Ok tt)
  end.

Definition release (i : nat) (c : Capacity) : Capacity :=
  match reservations c !! i with
  | None => c
  | Some r =>
    if released r then c
    else add_reserved (rs_pool r) (- remainingBytes r)
           (set_reservation i {| rs_pool := rs_pool r; rs_admission := rs_admission r; rs_priority := rs_priority r;
                                 remainingBytes := remainingBytes r; released := true |} c)
  end.

(** The constructor registers the policy when the destination can be read. *)
Definition construct (w : World) (a : FileStorageAdmission) (c : Capacity) : Capacity :=
  match pool w a c with Some (c, _) => c | None => c end.
Definition forPath (a : FileStorageAdmission) (p : fs_path) : FileStorageAdmission :=
  {| root := p; reserveBytes := reserveBytes a; availableBytes := availableBytes a |}.

(** ** Accounting *)

(** What a reservation still holds of a pool. *)
Definition share (k : PoolKey) (r : Reservation) : Z :=
  if bool_decide (rs_pool r = k) && negb (released r) then remainingBytes r else 0.
Fixpoint outstanding (k : PoolKey) (rs : list Reservation) : Z :=
  match rs with [] => 0 | r :: rs => share k r + outstanding k rs end.

Record capacity_ok (c : Capacity) : Prop := {
  ca_reserved : ∀ k, reservedBytes (pool_at c k) = outstanding k (reservations c);
  ca_remaining : ∀ i r, reservations c !! i = Some r → 0 <= remainingBytes r;
}.

Lemma pool_at_set k p c k' : pool_at (set_pool k p c) k' = if decide (k = k') then p else pool_at c k'.
Proof.
  unfold pool_at, set_pool. cbn [pools]. destruct (decide (k = k')) as [<- | Hne];
    [by rewrite lookup_insert_eq | by rewrite lookup_insert_ne].
Qed.

Lemma reserved_set_policies k ps c k' : reservedBytes (pool_at (set_policies k ps c) k') = reservedBytes (pool_at c k').
Proof. unfold set_policies. rewrite pool_at_set. by destruct (decide (k = k')) as [<- | ]. Qed.

Lemma reserved_add k n c k' :
  reservedBytes (pool_at (add_reserved k n c) k') = reservedBytes (pool_at c k') + if decide (k = k') then n else 0.
Proof. unfold add_reserved. rewrite pool_at_set. destruct (decide (k = k')) as [<- | ]; cbn; lia. Qed.

Lemma outstanding_app k rs rs' : outstanding k (rs ++ rs') = outstanding k rs + outstanding k rs'.
Proof. induction rs as [ | r rs IH]; cbn [app outstanding]; lia. Qed.

Lemma outstanding_insert k rs i r r' :
  rs !! i = Some r → outstanding k (<[i := r']> rs) = outstanding k rs - share k r + share k r'.
Proof.
  revert i. induction rs as [ | x rs IH]; intros [ | i] H; [done | done | injection H as ->; cbn; lia | ].
  change (share k x + outstanding k (<[i := r']> rs) = share k x + outstanding k rs - share k r + share k r').
  rewrite (IH i H). lia.
Qed.

Lemma outstanding_bounds k rs :
  (∀ i r, rs !! i = Some r → 0 <= remainingBytes r) →
  0 <= outstanding k rs ∧ ∀ i r, rs !! i = Some r → share k r <= outstanding k rs.
Proof.
  induction rs as [ | x rs IH]; intros Hr; cbn [outstanding]; [done | ].
  destruct IH as [IH1 IH2]; [intros i r Hi; by apply (Hr (S i)) | ]. pose proof (Hr 0%nat x eq_refl) as Hx.
  assert (Hs : 0 <= share k x) by (unfold share; destruct (_ && _); lia). split; [lia | ].
  intros [ | i] r Hi; [injection Hi as <-; lia | ]. specialize (IH2 i r Hi). lia.
Qed.

Lemma set_policies_ok k ps c : capacity_ok c → capacity_ok (set_policies k ps c).
Proof. intros [H1 H2]. split; [ | done]. intros k'. by rewrite reserved_set_policies. Qed.

(** Replaces a reservation and moves the difference of its share out of the pool. *)
Lemma replace_ok c i r r' :
  capacity_ok c → reservations c !! i = Some r → rs_pool r' = rs_pool r → 0 <= remainingBytes r' →
  capacity_ok (add_reserved (rs_pool r) (share (rs_pool r) r' - share (rs_pool r) r) (set_reservation i r' c)).
Proof.
  intros [H1 H2] Hi Hp Hr. split.
  - intros k. rewrite reserved_add. change (pool_at (set_reservation i r' c) k) with (pool_at c k). rewrite H1.
    cbn [add_reserved set_pool set_reservation reservations]. rewrite (outstanding_insert _ _ _ _ _ Hi).
    unfold share. rewrite Hp. destruct (decide (rs_pool r = k)) as [<- | Hne]; [lia | ].
    rewrite bool_decide_false by done. cbn. lia.
  - intros j s Hj. cbn in Hj. apply list_lookup_insert_Some in Hj as [(_ & <- & _) | [_ Hj]]; eauto.
Qed.

Lemma assertCapacity_ok w a k n pr c : capacity_ok c → capacity_ok (assertCapacity w a k n pr c).1.
Proof. intros Hc. unfold assertCapacity. destruct (match pr with Ordinary => _ | Control => _ end). cbn. by apply set_policies_ok. Qed.

Lemma assertCapacity_same w a k n pr c :
  reservations (assertCapacity w a k n pr c).1 = reservations c ∧
  ∀ k', reservedBytes (pool_at (assertCapacity w a k n pr c).1 k') = reservedBytes (pool_at c k').
Proof.
  unfold assertCapacity. destruct (match pr with Ordinary => _ | Control => _ end). cbn. split; [done | ].
  intros k'. apply reserved_set_policies.
Qed.

Lemma pool_same w a c c' k :
  pool w a c = Some (c', k) → reservations c' = reservations c ∧ ∀ k', reservedBytes (pool_at c' k') = reservedBytes (pool_at c k').
Proof.
  unfold pool. destruct (capacityPath w (root a)) as [[p device] | ]; [ | done]. intros [= <- <-]. split; [done | ].
  intros k'. apply reserved_set_policies.
Qed.

Lemma same_ok c c' :
  reservations c' = reservations c → (∀ k, reservedBytes (pool_at c' k) = reservedBytes (pool_at c k)) → capacity_ok c → capacity_ok c'.
Proof. intros Hr Hp [H1 H2]. split; [intros k; by rewrite Hp, Hr | by rewrite Hr]. Qed.

Lemma write_bytes_nonneg wr :
  existsb (λ n, n <? 0) [stagingBytes wr; extractionBytes wr; derivativeBytes wr; publicationBytes wr] = false → 0 <= write_bytes wr.
Proof. unfold write_bytes. cbn. intros H. bool_to_prop. lia. Qed.

Lemma grant_ok c k a pr n :
  capacity_ok c → 0 <= n →
  capacity_ok {| pools := pools (add_reserved k n c);
                 reservations := reservations c ++
                   [{| rs_pool := k; rs_admission := a; rs_priority := pr; remainingBytes := n; released := false |}] |}.
Proof.
  intros [H1 H2] Hn. split.
  - intros k'. change (pool_at {| pools := pools (add_reserved k n c); reservations := _ |} k') with (pool_at (add_reserved k n c) k').
    rewrite reserved_add, H1. cbn [reservations]. rewrite outstanding_app. cbn [outstanding]. unfold share. cbn.
    destruct (decide (k = k')) as [<- | Hne]; [rewrite bool_decide_true by done | rewrite bool_decide_false by done]; cbn; lia.
  - intros i r [Hi | [_ Hi]]%lookup_app_Some; [eauto | ]. cbn in *. apply list_lookup_singleton_Some in Hi as [_ <-]. done.
Qed.

Lemma reserve_ok w a wr pr c : capacity_ok c → capacity_ok (reserve w a wr pr c).1.
Proof.
  intros Hc. unfold reserve. destruct (existsb _ _) eqn:E; [done | ]. apply write_bytes_nonneg in E.
  destruct (pool w a c) as [[c1 k] | ] eqn:Hp; [ | done]. destruct (pool_same _ _ _ _ _ Hp) as [R1 P1].
  destruct (assertCapacity w a k (write_bytes wr) pr c1) as [c2 [u | e]] eqn:Ha;
    destruct (assertCapacity_same w a k (write_bytes wr) pr c1) as [R2 P2]; rewrite Ha in R2, P2; cbn [fst] in *;
    (assert (Hc2 : capacity_ok c2) by (eapply (same_ok c); [congruence | intros; by rewrite P2, P1 | done])).
  - exact (grant_ok c2 k a pr (write_bytes wr) Hc2 E).
  - done.
Qed.

Lemma recordWritten_ok i n c : capacity_ok c → capacity_ok (recordWritten i n c).1.
Proof.
  intros Hc. unfold recordWritten. destruct (reservations c !! i) as [r | ] eqn:Hi; [ | done].
  destruct (_ || _) eqn:E; [done | ]. bool_to_prop. cbn [fst].
  replace (- n) with (share (rs_pool r) (with_remaining (remainingBytes r - n) r) - share (rs_pool r) r).
  - apply replace_ok; try done. cbn. lia.
  - unfold share. cbn. rewrite bool_decide_true by done. destruct (released r); [done | ]. cbn. lia.
Qed.

Lemma reduceTo_ok i n c : capacity_ok c → capacity_ok (reduceTo i n c).1.
Proof.
  intros Hc. unfold reduceTo. destruct (reservations c !! i) as [r | ] eqn:Hi; [ | done].
  destruct (_ || _) eqn:E; [done | ]. bool_to_prop. cbn [fst].
  replace (- (remainingBytes r - n)) with (share (rs_pool r) (with_remaining n r) - share (rs_pool r) r).
  - apply replace_ok; try done.
  - unfold share. cbn. rewrite bool_decide_true by done. destruct (released r); [done | ]. cbn. lia.
Qed.

Lemma release_ok i c : capacity_ok c → capacity_ok (release i c).
Proof.
  intros Hc. unfold release. destruct (reservations c !! i) as [r | ] eqn:Hi; [ | done].
  destruct (released r) eqn:Er; [done | ]. set (r' := {| rs_pool := _; rs_admission := _; rs_priority := _; remainingBytes := _; released := true |}).
  replace (- remainingBytes r) with (share (rs_pool r) r' - share (rs_pool r) r).
  - apply replace_ok; try done. exact (ca_remaining c Hc i r Hi).
  - unfold share. cbn. rewrite Er, !bool_decide_true by done. cbn. lia.
Qed.

(** ** Histories *)

Inductive capacity_op :=
| OpConstruct (w : World) (a : FileStorageAdmission)
| OpReserve (w : World) (a : FileStorageAdmission) (wr : FileWriteCapacity) (pr : priority)
| OpAssert (w : World) (i : nat)
| OpRecord (i : nat) (n : Z)
| OpReduce (i : nat) (n : Z)
| OpRelease (i : nat).

Definition capacity_step (c : Capacity) (o : capacity_op) : Capacity :=
  match o with
  | OpConstruct w a => construct w a c
  | OpReserve w a wr pr => (reserve w a wr pr c).1
  | OpAssert w i => (assertAvailable w i c).1
  | OpRecord i n => (recordWritten i n c).1
  | OpReduce i n => (reduceTo i n c).1
  | OpRelease i => release i c
  end.

Definition capacity_history (os : list capacity_op) : Capacity := foldl capacity_step empty_capacity os.

Lemma construct_same w a c :
  reservations (construct w a c) = reservations c ∧ ∀ k, reservedBytes (pool_at (construct w a c) k) = reservedBytes (pool_at c k).
Proof. unfold construct. destruct (pool w a c) as [[c' k] | ] eqn:E; [by eapply pool_same | done]. Qed.

Lemma assertAvailable_same w i c :
  reservations (assertAvailable w i c).1 = reservations c ∧
  ∀ k, reservedBytes (pool_at (assertAvailable w i c).1 k) = reservedBytes (pool_at c k).
Proof.
  unfold assertAvailable. destruct (reservations c !! i) as [r | ]; [ | done]. destruct (released r); [done | ].
  apply assertCapacity_same.
Qed.

Lemma capacity_step_ok c o : capacity_ok c → capacity_ok (capacity_step c o).
Proof.
  intros Hc. destruct o as [w a | w a wr pr | w i | i n | i n | i]; cbn [capacity_step].
  - destruct (construct_same w a c). by eapply (same_ok c).
  - by apply reserve_ok.
  - destruct (assertAvailable_same w i c). by eapply (same_ok c).
  - by apply recordWritten_ok.
  - by apply reduceTo_ok.
  - by apply release_ok.
Qed.

Lemma empty_capacity_ok : capacity_ok empty_capacity.
Proof. split; [done | ]. by intros i r ?. Qed.

Lemma capacity_history_ok os : capacity_ok (capacity_history os).
Proof.
  unfold capacity_history. generalize empty_capacity_ok. generalize empty_capacity as c.
  induction os as [ | o os IH]; intros c Hc; cbn; [done | ]. by apply IH, capacity_step_ok.
Qed.

(** The largest reserve that the live policies ask for; [None] when one cannot be trusted. *)
Definition policy_reserve (w : World) (ps : list nat) : option Z :=
  foldr (λ q acc, match policy w q with
                  | Collected => acc
                  | Unreadable => None
                  | PolicyValue v => if v <? 0 then None else Z.max v <$> acc
                  end) (Some 0) ps.

Lemma read_policies_max w ps : ∀ reserve, 0 <= reserve → (read_policies w ps reserve).2 = Z.max reserve <$> policy_reserve w ps.
Proof.
  induction ps as [ | q ps IH]; intros reserve Hr; cbn [read_policies policy_reserve foldr]; [cbn; by rewrite Z.max_l | ].
  fold (policy_reserve w ps). destruct (policy w q) as [ | | v]; [by apply IH | done | ].
  destruct (v <? 0) eqn:E; [done | ]. bool_to_prop. specialize (IH (if reserve <? v then v else reserve)).
  destruct (read_policies w ps (if reserve <? v then v else reserve)) as [kept r]. cbn [snd] in *. rewrite IH.
  - destruct (policy_reserve w ps) as [m | ]; [ | done]. cbn. f_equal. destruct (reserve <? v) eqn:E'; bool_to_prop; lia.
  - destruct (reserve <? v); lia.
Qed.

Lemma policy_reserve_nonneg w ps m : policy_reserve w ps = Some m → 0 <= m.
Proof.
  revert m. induction ps as [ | q ps IH]; intros m; cbn; [by intros [= <-] | ]. fold (policy_reserve w ps).
  destruct (policy w q) as [ | | v]; [apply IH | done | ]. destruct (v <? 0) eqn:E; [done | ]. bool_to_prop.
  destruct (policy_reserve w ps); [ | done]. intros [= <-]. lia.
Qed.

(** The decision of [assertCapacity]. *)
Definition enough (w : World) (a : FileStorageAdmission) (pr : priority) (ps : list nat) (held additional : Z) : Prop :=
  ∃ floor available,
    match pr with Ordinary => policy_reserve w ps = Some floor | Control => floor = 0 end ∧
    free_bytes w a = Some available ∧ 0 <= available ∧ floor + held + additional <= available.

Lemma assertCapacity_iff w a k n pr c :
  (assertCapacity w a k n pr c).2 = Ok tt ↔ enough w a pr (policies (pool_at c k)) (reservedBytes (pool_at c k)) n.
Proof.
  unfold assertCapacity, enough. pose proof (read_policies_max w (policies (pool_at c k)) 0 ltac:(lia)) as Hm.
  pose proof (policy_reserve_nonneg w (policies (pool_at c k))) as Hpos.
  assert (Hread : match pr with Ordinary => read_policies w (policies (pool_at c k)) 0 | Control => (policies (pool_at c k), Some 0) end.2
                  = match pr with Ordinary => policy_reserve w (policies (pool_at c k)) | Control => Some 0 end).
  { destruct pr; [ | done]. rewrite Hm. destruct (policy_reserve w _) as [m | ] eqn:E; [ | done]. cbn.
    specialize (Hpos m eq_refl). by rewrite Z.max_r. }
  destruct (match pr with Ordinary => read_policies _ _ _ | Control => _ end) as [kept reserve]. cbn [snd] in *. subst reserve.
  rewrite reserved_set_policies. destruct (free_bytes w a) as [available | ].
  2: { destruct (match pr with Ordinary => _ | Control => _ end); split; try done; by intros (? & ? & _ & ? & _). }
  destruct pr; [destruct (policy_reserve w (policies (pool_at c k))) as [floor | ] eqn:E | ].
  - specialize (Hpos floor eq_refl). destruct (_ || _) eqn:Eb; bool_to_prop; split; try done.
    + intros (f & av & [= <-] & [= <-] & H1 & H2). destruct Eb as [Eb | Eb]; [destruct (orb_prop _ _ Eb) | ]; bool_to_prop; lia.
    + intros _. exists floor, available. split_and!; lia || done.
  - split; [done | ]. by intros (f & av & ? & _).
  - destruct (_ || _) eqn:Eb; bool_to_prop; split; try done.
    + intros (f & av & -> & [= <-] & H1 & H2). destruct Eb as [Eb | Eb]; [destruct (orb_prop _ _ Eb) | ]; bool_to_prop; lia.
    + intros _. exists 0, available. split_and!; lia || done.
Qed.

(** The bytes of a submission stay within the file limit: a chunk is counted exactly when it still fits. *)
Theorem submission_bytes_bounded chunks :
  0 <= consume_all chunks <= MAX_ARTIFACT_FILE_BYTES ∧
  ∀ n, consume_all (chunks ++ [n]) =
    if (0 <=? n) && (consume_all chunks + n <=? MAX_ARTIFACT_FILE_BYTES) then consume_all chunks + n else consume_all chunks.
Proof.
  assert (Hstep : ∀ chunks n, 0 <= consume_all chunks <= MAX_ARTIFACT_FILE_BYTES → consume_all (chunks ++ [n]) =
    if (0 <=? n) && (consume_all chunks + n <=? MAX_ARTIFACT_FILE_BYTES) then consume_all chunks + n else consume_all chunks).
  { intros l n Hl. unfold consume_all at 1. rewrite foldl_app. cbn [foldl]. fold (consume_all l). unfold consume, safe_integer.
    unfold MAX_ARTIFACT_FILE_BYTES in *.
    destruct (0 <=? n) eqn:E1; [ | rewrite andb_false_r; done]. rewrite andb_true_r. bool_to_prop.
    rewrite (proj2 (Z.leb_le (- (2 ^ 53 - 1)) n)) by lia. cbn [andb].
    destruct (consume_all l + n <=? 1000000000) eqn:E2; bool_to_prop.
    - rewrite (proj2 (Z.leb_le n (2 ^ 53 - 1))) by lia. by rewrite (proj2 (Z.leb_le _ _)) by lia.
    - destruct (n <=? 2 ^ 53 - 1); [ | done]. by rewrite (proj2 (Z.leb_gt _ _)) by lia. }
  assert (Hb : 0 <= consume_all chunks <= MAX_ARTIFACT_FILE_BYTES).
  { induction chunks as [ | n chunks IH] using rev_ind; [by unfold MAX_ARTIFACT_FILE_BYTES | ].
    rewrite Hstep by done. destruct (_ && _) eqn:E; [ | done]. bool_to_prop. lia. }
  split; [done | ]. intros n. by apply Hstep.
Qed.

(** The decision of a reservation is exact.  In every state that calls can reach, a reservation succeeds
    exactly when no requested size is negative, the destination's device can be read, every live
    policy that applies is trustworthy, and the free bytes cover the largest reserve of those policies, all
    bytes still held by other reservations of the device, and the new request; on success the pool
    accounts for precisely the held bytes plus the request. *)
Theorem reserve_iff_capacity os w a wr pr :
  let c := capacity_history os in
  let bytes := write_bytes wr in
  (is_ok (reserve w a wr pr c).2 = true ↔
   (0 <= stagingBytes wr ∧ 0 <= extractionBytes wr ∧ 0 <= derivativeBytes wr ∧ 0 <= publicationBytes wr) ∧
   ∃ p device, capacityPath w (root a) = Some (p, device) ∧
     enough w a pr (let ps := policies (pool_at c (availableBytes a, device)) in
                    if includes ps (reserveBytes a) then ps else ps ++ [reserveBytes a])
       (outstanding (availableBytes a, device) (reservations c)) bytes) ∧
  ∀ k, reservedBytes (pool_at (reserve w a wr pr c).1 k) =
    outstanding k (reservations c) +
    if is_ok (reserve w a wr pr c).2 && bool_decide (Some k = (λ pd, (availableBytes a, pd.2)) <$> capacityPath w (root a))
    then bytes else 0.
Proof.
  intros c bytes. pose proof (capacity_history_ok os) as Hc. fold c in Hc. clearbody c. unfold reserve. fold bytes.
  assert (Hsizes : existsb (λ n, n <? 0) [stagingBytes wr; extractionBytes wr; derivativeBytes wr; publicationBytes wr] = false ↔
            0 <= stagingBytes wr ∧ 0 <= extractionBytes wr ∧ 0 <= derivativeBytes wr ∧ 0 <= publicationBytes wr).
  { cbn. rewrite !orb_false_iff, !Z.ltb_ge. tauto. }
  destruct (existsb _ _).
  { split; [split; [done | intros [H _]; by apply Hsizes in H] | ]. intros k. cbn. rewrite (ca_reserved c Hc). lia. }
  unfold pool. destruct (capacityPath w (root a)) as [[p device] | ] eqn:Hp.
  2: { split; [split; [done | by intros (_ & ? & ? & ? & _)] | ]. intros k. cbn. rewrite (ca_reserved c Hc). lia. }
  set (k := (availableBytes a, device)). set (ps := if includes _ _ then _ else _). set (c1 := set_policies k ps c).
  pose proof (assertCapacity_iff w a k bytes pr c1) as Hiff. destruct (assertCapacity_same w a k bytes pr c1) as [R2 P2].
  assert (Hps : policies (pool_at c1 k) = ps) by (unfold c1, set_policies; rewrite pool_at_set, decide_True by done; done).
  rewrite Hps in Hiff. unfold c1 in Hiff, P2. setoid_rewrite reserved_set_policies in P2.
  rewrite reserved_set_policies, (ca_reserved c Hc) in Hiff. fold c1 in Hiff, P2.
  destruct (assertCapacity w a k bytes pr c1) as [c2 [[] | e]]; cbn [fst snd is_ok] in *.
  - split; [split; [intros _ | done]; split; [by apply Hsizes | ]; exists p, device; split; [done | by apply Hiff] | ].
    intros k'. change (pool_at {| pools := pools (add_reserved k bytes c2); reservations := _ |} k') with (pool_at (add_reserved k bytes c2) k').
    rewrite reserved_add, P2, (ca_reserved c Hc). cbn. f_equal.
    case_decide as Hk; [subst k'; by rewrite bool_decide_true | rewrite bool_decide_false; [done | intros [= ->]; by apply Hk]].
  - split; [split; [done | ] | ].
    + intros (_ & p' & d' & [= <- <-] & He). by apply Hiff in He.
    + intros k'. rewrite P2, (ca_reserved c Hc). cbn [andb]. lia.
Qed.

(** ** A file system whose only writers hold reservations *)

Definition disk_at (d : gmap PoolKey Z) (k : PoolKey) : Z := default 0 (d !! k).

(** The free bytes that the code reads are those of the disk it writes to, or cannot be read. *)
Definition reads_disk (w : World) (d : gmap PoolKey Z) : Prop :=
  ∀ a p device v, capacityPath w (root a) = Some (p, device) → free_bytes w a = Some v → v = disk_at d (availableBytes a, device).

(** A write of reserved bytes and its [recordWritten] are one step.  In the program the bytes reach the disk
    first: until they are recorded, the reservation counts them a second time, and a check in between
    asks for more room than it needs. *)
Inductive disk_step : Capacity * gmap PoolKey Z → Capacity * gmap PoolKey Z → Prop :=
| DiskReserve w a wr pr c d : reads_disk w d → disk_step (c, d) ((reserve w a wr pr c).1, d)
| DiskConstruct w a c d : disk_step (c, d) (construct w a c, d)
| DiskAssert w i c d : disk_step (c, d) ((assertAvailable w i c).1, d)
| DiskReduce i n c d : disk_step (c, d) ((reduceTo i n c).1, d)
| DiskRelease i c d : disk_step (c, d) (release i c, d)
| DiskWrite i n r c d :
    reservations c !! i = Some r → (recordWritten i n c).2 = Ok tt →
    disk_step (c, d) ((recordWritten i n c).1, <[rs_pool r := disk_at d (rs_pool r) - n]> d)
| DiskFree k n c d : 0 <= n → disk_step (c, d) (c, <[k := disk_at d k + n]> d).

Definition fits (s : Capacity * gmap PoolKey Z) : Prop :=
  capacity_ok s.1 ∧ ∀ k, outstanding k (reservations s.1) <= disk_at s.2 k.

Lemma reserve_outstanding w a wr pr c k :
  capacity_ok c →
  reservations (reserve w a wr pr c).1 = reservations c ∨
  (∃ p device, capacityPath w (root a) = Some (p, device) ∧ 0 <= write_bytes wr ∧
     (∃ floor available, 0 <= floor ∧ free_bytes w a = Some available ∧
        floor + outstanding (availableBytes a, device) (reservations c) + write_bytes wr <= available) ∧
     outstanding k (reservations (reserve w a wr pr c).1) =
       outstanding k (reservations c) + if bool_decide ((availableBytes a, device) = k) then write_bytes wr else 0).
Proof.
  intros Hc. unfold reserve. destruct (existsb _ _) eqn:E; [by left | ]. apply write_bytes_nonneg in E.
  unfold pool. destruct (capacityPath w (root a)) as [[p device] | ] eqn:Hp; [ | by left].
  set (kk := (availableBytes a, device)). set (c1 := set_policies kk _ c).
  pose proof (assertCapacity_iff w a kk (write_bytes wr) pr c1) as Hiff. destruct (assertCapacity_same w a kk (write_bytes wr) pr c1) as [R2 P2].
  destruct (assertCapacity w a kk (write_bytes wr) pr c1) as [c2 [[] | e]]; cbn [fst snd] in *; [right | by left].
  exists p, device. split_and!; try done.
  - destruct (proj1 Hiff eq_refl) as (floor & available & Hfl & Hfree & Hav & Hle).
    unfold c1 in Hle. rewrite reserved_set_policies, (ca_reserved c Hc) in Hle. exists floor, available. split_and!; try done.
    destruct pr; [by eapply policy_reserve_nonneg | lia].
  - cbn [add_reserved set_pool reservations]. rewrite R2, outstanding_app.
    change (reservations c1) with (reservations c). cbn [outstanding]. unfold share. cbn. rewrite andb_true_r. unfold kk. destruct (bool_decide _); lia.
Qed.

Lemma outstanding_replace k c i r r' :
  reservations c !! i = Some r →
  outstanding k (reservations (add_reserved (rs_pool r) (share (rs_pool r) r' - share (rs_pool r) r) (set_reservation i r' c))) =
  outstanding k (reservations c) - share k r + share k r'.
Proof. intros Hi. by apply outstanding_insert. Qed.

Lemma recordWritten_outstanding i n c r k :
  reservations c !! i = Some r → (recordWritten i n c).2 = Ok tt →
  outstanding k (reservations (recordWritten i n c).1) =
  outstanding k (reservations c) - (if bool_decide (rs_pool r = k) then n else 0).
Proof.
  unfold recordWritten. intros Hi. rewrite Hi. destruct (_ || _) eqn:E; [done | ]. intros _. bool_to_prop. cbn [fst].
  cbn [add_reserved set_pool set_reservation reservations]. rewrite (outstanding_insert _ _ _ _ _ Hi). unfold share. cbn.
  destruct (released r); [done | ]. case_bool_decide; cbn; lia.
Qed.

Lemma reduceTo_outstanding i n c k : capacity_ok c → outstanding k (reservations (reduceTo i n c).1) <= outstanding k (reservations c).
Proof.
  intros Hc. unfold reduceTo. destruct (reservations c !! i) as [r | ] eqn:Hi; [ | done]. destruct (_ || _) eqn:E; [done | ].
  bool_to_prop. cbn [fst add_reserved set_pool set_reservation reservations]. rewrite (outstanding_insert _ _ _ _ _ Hi).
  unfold share. cbn. destruct (_ && _); lia.
Qed.

Lemma release_outstanding i c k : capacity_ok c → outstanding k (reservations (release i c)) <= outstanding k (reservations c).
Proof.
  intros Hc. unfold release. destruct (reservations c !! i) as [r | ] eqn:Hi; [ | done]. destruct (released r); [done | ].
  cbn [add_reserved set_pool set_reservation reservations]. rewrite (outstanding_insert _ _ _ _ _ Hi).
  pose proof (ca_remaining c Hc _ _ Hi). unfold share. cbn. rewrite andb_false_r. destruct (_ && _); lia.
Qed.

Lemma disk_step_fits s s' : disk_step s s' → fits s → fits s'.
Proof.
  unfold fits. destruct 1 as [w a wr pr c d Hw | w a c d | w i c d | i n c d | i c d | i n r c d Hi Hok | k n c d Hn]; cbn [fst snd]; intros [Hc Hfit].
  - split; [by apply reserve_ok | ]. intros k. destruct (reserve_outstanding w a wr pr c k Hc) as [-> | H]; [done | ].
    destruct H as (p & device & Hp & Hpos & (floor & available & Hfl & Hfree & Hle) & ->).
    rewrite (Hw _ _ _ _ Hp Hfree) in Hle. case_bool_decide as Hk; [subst k; lia | ]. specialize (Hfit k). lia.
  - destruct (construct_same w a c) as [R P]. split; [by eapply (same_ok c) | by rewrite R].
  - destruct (assertAvailable_same w i c) as [R P]. split; [by eapply (same_ok c) | by rewrite R].
  - split; [by apply reduceTo_ok | ]. intros k. pose proof (reduceTo_outstanding i n c k Hc). specialize (Hfit k). lia.
  - split; [by apply release_ok | ]. intros k. pose proof (release_outstanding i c k Hc). specialize (Hfit k). lia.
  - split; [by apply recordWritten_ok | ]. intros k. rewrite (recordWritten_outstanding i n c r k Hi Hok). unfold disk_at.
    specialize (Hfit k). unfold disk_at in Hfit. case_bool_decide as Hk.
    + subst k. rewrite lookup_insert_eq. cbn. lia.
    + rewrite lookup_insert_ne by done. lia.
  - split; [done | ]. intros k'. specialize (Hfit k'). unfold disk_at in *. destruct (decide (k = k')) as [<- | Hne].
    + rewrite lookup_insert_eq. cbn. lia.
    + by rewrite lookup_insert_ne.
Qed.

(** C28. Reservations never promise more than the disk has.  When writers write only what they recorded
    against a reservation and the code reads the true free space, then after any interleaving of reservations,
    writes, reductions, releases and frees, every reservation that is still held can be written in
    full: its remaining bytes, and those of all reservations of the same file system together, are
    free on the disk. *)
Theorem reserved_writes_fit d c d' :
  (∀ k, 0 <= disk_at d k) → rtc disk_step (empty_capacity, d) (c, d') →
  ∀ i r, reservations c !! i = Some r → released r = false →
    remainingBytes r <= outstanding (rs_pool r) (reservations c) <= disk_at d' (rs_pool r).
Proof.
  intros Hd Hsteps i r Hi Hr.
  assert (Hfits : fits (c, d')).
  { revert Hsteps. generalize (c, d') as s. refine (rtc_ind_r _ _ _ _); [split; [apply empty_capacity_ok | done] | ].
    intros s s' _ Hstep. by apply disk_step_fits. }
  destruct Hfits as [Hc Hfit]. cbn [fst snd] in *. split; [ | apply Hfit].
  destruct (outstanding_bounds (rs_pool r) (reservations c) (ca_remaining c Hc)) as [_ Hsh]. specialize (Hsh i r Hi).
  unfold share in Hsh. by rewrite Hr, bool_decide_true in Hsh.
Qed.

Module CapacityDemo.
Definition world : World :=
  {| stat := λ _, Present 1; free := λ source _, match source with None => Some 100 | Some _ => None end;
     policy := λ _, PolicyValue 5 |}.
Definition admission : FileStorageAdmission := {| root := ["data"%string]; reserveBytes := 0; availableBytes := None |}.
Definition writes (n : Z) : FileWriteCapacity :=
  {| stagingBytes := n; extractionBytes := 0; derivativeBytes := 0; publicationBytes := 0 |}.
Definition disk : gmap PoolKey Z := {[(None, 1) := 100]}.
Definition reserved : Capacity := (reserve world admission (writes 40) Ordinary empty_capacity).1.
Definition written : Capacity := (recordWritten 0 10 reserved).1.

(** 40 of 100 bytes with a floor of 5 leave room for 55 more, and not for 56. *)
Example second_reservation :
  (reserve world admission (writes 55) Ordinary reserved).2 = Ok 1%nat ∧
  (reserve world admission (writes 56) Ordinary reserved).2 = Err StorageCapacityUnavailable ∧
  (reserve world admission (writes 60) Control reserved).2 = Ok 1%nat.
Proof. by vm_compute. Qed.

Lemma reads : reads_disk world disk.
Proof.
  intros a p device v Hp. unfold free_bytes. assert (capacityPath world (root a) = Some (root a, 1)) as E by (by destruct (root a)).
  rewrite E in Hp. injection Hp as <- <-. rewrite E. destruct (availableBytes a); cbn; [done | ]. by intros [= <-].
Qed.
End CapacityDemo.

Lemma reserved_writes_fit_witness :
  ∃ r, reservations CapacityDemo.written !! 0%nat = Some r ∧ remainingBytes r = 30 ∧
    remainingBytes r <= outstanding (rs_pool r) (reservations CapacityDemo.written) <=
      disk_at (<[(None, 1) := 90]> CapacityDemo.disk) (rs_pool r).
Proof.
  eexists. split; [vm_compute; reflexivity | ]. split; [reflexivity | ].
  apply (reserved_writes_fit CapacityDemo.disk CapacityDemo.written (<[(None, 1) := 90]> CapacityDemo.disk)) with (i := 0%nat).
  - intros k. unfold disk_at, CapacityDemo.disk. destruct (decide ((None, 1) = k)) as [<- | Hne].
    + by rewrite lookup_singleton_eq.
    + by rewrite lookup_singleton_ne.
  - eapply rtc_l.
    + apply (DiskReserve CapacityDemo.world CapacityDemo.admission (CapacityDemo.writes 40) Ordinary). exact CapacityDemo.reads.
    + eapply rtc_once.
      apply (DiskWrite 0 10 {| rs_pool := (None, 1); rs_admission := CapacityDemo.admission; rs_priority := Ordinary;
                               remainingBytes := 40; released := false |} CapacityDemo.reserved CapacityDemo.disk).
      * vm_compute. reflexivity.
      * vm_compute. reflexivity.
  - vm_compute. reflexivity.
  - reflexivity.
Defined.
