(* ===== verification/JsValue.v ===== *)
(** * JavaScript texts, numbers and JSON

    The part of the language the components share: strings as lists of UTF-16 code units, numbers as
    IEEE 754 binary64 values (the standard library's [spec_float]), the data values the code encodes
    or compares, [JSON.parse], [Number::toString] and [isDeepStrictEqual].

    [json_parse] is a lexer automaton over code units followed by a push-down parser over tokens;
    both are structural in their input, so no fuel is needed. *)

From Stdlib Require Import SpecFloat.
From S2P Require Import Prelude.

Local Open Scope string_scope.
Local Open Scope list_scope.
Local Open Scope Z_scope.

(** ** Strings *)

Abbreviation jsstr := (list Z).

Definition cu (a : ascii) : Z := Z.of_N (N_of_ascii a).
Definition js (s : string) : jsstr := cu <$> String.list_ascii_of_string s.

Definition QUOTE : Z := 34.
Definition BACKSLASH : Z := 92.

Definition in_range (lo hi c : Z) : bool := (lo <=? c) && (c <=? hi).
Definition is_digit (c : Z) : bool := in_range 48 57 c.
Definition is_upper (c : Z) : bool := in_range 65 90 c.
Definition is_lower (c : Z) : bool := in_range 97 122 c.
Definition is_high_surrogate (c : Z) : bool := in_range 55296 56319 c.
Definition is_low_surrogate (c : Z) : bool := in_range 56320 57343 c.

(** [Buffer.byteLength(s, 'utf8')]; an unpaired surrogate is written as U+FFFD, three bytes. *)
Fixpoint utf8_length (s : jsstr) : Z :=
  match s with
  | [] => 0
  | c :: r =>
    if c <? 128 then 1 + utf8_length r
    else if c <? 2048 then 2 + utf8_length r
    else if is_high_surrogate c then
      match r with
      | d :: r' => if is_low_surrogate d then 4 + utf8_length r' else 3 + utf8_length r
      | [] => 3
      end
    else 3 + utf8_length r
  end.

(** [/[\uD800-\uDFFF]/u.test(s)]: with the [u] flag only unpaired surrogates match. *)
Fixpoint has_lone_surrogate (s : jsstr) : bool :=
  match s with
  | [] => false
  | c :: r =>
    if is_high_surrogate c then
      match r with
      | d :: r' => if is_low_surrogate d then has_lone_surrogate r' else true
      | [] => true
      end
    else if is_low_surrogate c then true
    else has_lone_surrogate r
  end.

(** The default order of [Array.prototype.sort] on strings: lexicographic by code unit. *)
Fixpoint str_cmp (a b : jsstr) : Z :=
  match a, b with
  | [], [] => 0
  | [], _ => -1
  | _, [] => 1
  | x :: a, y :: b => if x <? y then -1 else if y <? x then 1 else str_cmp a b
  end.

(** White space and line terminators, the code units [String.prototype.trim] removes. *)
Definition is_js_space (c : Z) : bool :=
  in_range 9 13 c || (c =? 32) || (c =? 160) || (c =? 5760) || in_range 8192 8202 c
  || (c =? 8232) || (c =? 8233) || (c =? 8239) || (c =? 8287) || (c =? 12288) || (c =? 65279).

(** [s.trim() === ''] *)
Definition is_blank (s : jsstr) : bool := forallb is_js_space s.

Fixpoint span (p : Z → bool) (s : jsstr) : jsstr * jsstr :=
  match s with
  | [] => ([], [])
  | c :: r => if p c then let '(a, b) := span p r in (c :: a, b) else ([], s)
  end.

(** [s.startsWith(p)] *)
Fixpoint starts_with (p s : jsstr) : bool :=
  match p, s with
  | [], _ => true
  | x :: p, y :: s => (x =? y) && starts_with p s
  | _, [] => false
  end.

(** [s.includes(p)] *)
Fixpoint contains (p s : jsstr) : bool :=
  starts_with p s || match s with [] => false | _ :: s => contains p s end.

Lemma starts_with_iff p : ∀ s, starts_with p s = true ↔ ∃ z, s = p ++ z.
Proof.
  induction p as [|x p IH]; intros s; cbn [starts_with app]; [split; [by exists s|done]|].
  destruct s as [|y s]; [split; [done|by intros [z E]]|]. rewrite andb_true_iff, Z.eqb_eq, IH. split.
  - intros [-> [z ->]]. by exists z.
  - intros [z [= -> ->]]. split; [done|by exists z].
Qed.

Lemma contains_iff p s : contains p s = true ↔ ∃ a z, s = a ++ p ++ z.
Proof.
  induction s as [|c s IH]; cbn [contains]; rewrite orb_true_iff, starts_with_iff.
  - split; [intros [[z E]|]; [by exists [], z|done]|]. intros (a & z & E). symmetry in E.
    apply app_eq_nil in E as [-> E]. left. exists z. by rewrite E.
  - rewrite IH. split.
    + intros [[z E]|(a & z & ->)]; [by exists [], z|by exists (c :: a), z].
    + intros ([|x a] & z & E); [left; by exists z|right]. cbn in E. injection E as -> ->. by exists a, z.
Qed.

(** [s.split('/')] *)
Fixpoint split_slash (s : jsstr) : list jsstr :=
  match s with
  | [] => [[]]
  | c :: r =>
    if c =? cu "/" then [] :: split_slash r
    else match split_slash r with seg :: segs => (c :: seg) :: segs | [] => [[c]] end
  end.

(** [segments.join('/')] *)
Fixpoint join_slash (l : list jsstr) : jsstr :=
  match l with
  | [] => []
  | [s] => s
  | s :: l => s ++ js "/" ++ join_slash l
  end.

(** ** Numbers *)

Definition prec : Z := 53.
Definition emax : Z := 1024.

(** The Number value of [m * 10^e]: the nearest double, ties to even, overflowing to infinity. *)
Definition decimal_magnitude (m : positive) (e : Z) : spec_float :=
  if 0 <=? e then binary_normalize prec emax (Zpos m * 10 ^ e) 0 false
  else match 10 ^ (- e) with
       | Zpos d => SFdiv prec emax (S754_finite false m 0) (S754_finite false d 0)
       | _ => S754_nan
       end.

Definition number_of_decimal (neg : bool) (m e : Z) : spec_float :=
  match m with
  | Zpos p => let f := decimal_magnitude p e in if neg then SFopp f else f
  | _ => S754_zero neg
  end.

(** [Number.isFinite] *)
Definition is_finite_number (f : spec_float) : bool :=
  match f with S754_zero _ | S754_finite _ _ _ => true | _ => false end.

#[export] Instance spec_float_eq_dec : EqDecision spec_float.
Proof. solve_decision. Defined.

Definition number_of_int (z : Z) : spec_float := number_of_decimal false z 0.

(** [Number.isInteger(value)], with the integer. *)
Definition number_integer (value : spec_float) : option Z :=
  match value with
  | S754_zero _ => Some 0
  | S754_finite neg m e =>
    if (0 <=? e) || (Zpos m mod 2 ^ (- e) =? 0)
    then Some (if neg then - Z.shiftl (Zpos m) e else Z.shiftl (Zpos m) e)
    else None
  | _ => None
  end.

Definition digits_value (ds : jsstr) : Z := foldl (λ a c, a * 10 + (c - 48)) 0 ds.

(** The JSON number grammar (an optional minus, an integer without leading zeros, an optional
    fraction, an optional exponent), part by part; every part returns what it read and the rest. *)
Definition read_sign (s : jsstr) : bool * jsstr :=
  match s with
  | c :: r => if c =? cu "-" then (true, r) else (false, s)
  | [] => (false, s)
  end.

Definition read_int (s : jsstr) : option (jsstr * jsstr) :=
  match s with
  | c :: r =>
    if c =? 48 then Some ([c], r)
    else if is_digit c then Some (span is_digit s) else None
  | [] => None
  end.

Definition read_frac (s : jsstr) : option (jsstr * jsstr) :=
  match s with
  | c :: r =>
    if c =? cu "." then
      match span is_digit r with ([], _) => None | (ds, r') => Some (ds, r') end
    else Some ([], s)
  | [] => Some ([], s)
  end.

Definition read_exp (s : jsstr) : option (Z * jsstr) :=
  match s with
  | c :: r =>
    if (c =? cu "e") || (c =? cu "E") then
      let '(neg, r') :=
        match r with
        | d :: r' => if d =? cu "-" then (true, r') else if d =? cu "+" then (false, r') else (false, r)
        | [] => (false, r)
        end in
      match span is_digit r' with
      | ([], _) => None
      | (ds, r'') => Some (if (neg : bool) then - digits_value ds else digits_value ds, r'')
      end
    else Some (0, s)
  | [] => Some (0, s)
  end.

(** [Number(text)] of a text of that grammar, [None] for other texts. *)
Definition number_value (s : jsstr) : option spec_float :=
  let '(neg, s1) := read_sign s in
  '(ip, s2) ← read_int s1;
  '(fp, s3) ← read_frac s2;
  '(ex, s4) ← read_exp s3;
  match s4 with
  | [] => Some (number_of_decimal neg (digits_value (ip ++ fp)) (ex - Z.of_nat (length fp)))
  | _ => None
  end.

(** *** [Number::toString] *)

Fixpoint digits (k : nat) (z : Z) : jsstr :=
  match k with O => [] | S k => digits k (z / 10) ++ [48 + z mod 10] end.

Definition small_text (z : Z) : jsstr :=
  if z <? 10 then digits 1 z else if z <? 100 then digits 2 z else digits 3 z.

(** [int_digits fuel z]: the decimal digits of [z]; the number of bits is enough fuel. *)
Fixpoint int_digits (fuel : nat) (z : Z) : jsstr :=
  match fuel with
  | O => []
  | S fuel => (if z <? 10 then [] else int_digits fuel (z / 10)) ++ [48 + z mod 10]
  end.

(** The text of an integer below 1e21 in magnitude. *)
Definition int_text (z : Z) : jsstr :=
  (if z <? 0 then js "-" else []) ++ int_digits (Z.to_nat (Z.log2 (Z.abs z)) + 1) (Z.abs z).

(** The text of [s * 10^(n-k)], where [s] has [k] digits. *)
Definition format_number (neg : bool) (s : Z) (k : nat) (n : Z) : jsstr :=
  let ds := digits k s in
  let kz := Z.of_nat k in
  let sign := if neg then js "-" else [] in
  let e := n - 1 in
  let exponent := js "e" ++ (if e <? 0 then js "-" else js "+") ++ small_text (Z.abs e) in
  sign ++
  (if (kz <=? n) && (n <=? 21) then ds ++ replicate (Z.to_nat (n - kz)) 48
   else if (0 <? n) && (n <=? 21) then take (Z.to_nat n) ds ++ js "." ++ drop (Z.to_nat n) ds
   else if (-6 <? n) && (n <=? 0) then js "0." ++ replicate (Z.to_nat (- n)) 48 ++ ds
   else if (k =? 1)%nat then ds ++ exponent
   else take 1 ds ++ js "." ++ drop 1 ds ++ exponent).

Section Shortest.
Context (neg : bool) (m : positive) (e : Z).

(** The magnitude [nu / de]. *)
Definition num_den : Z * Z := if 0 <=? e then (Zpos m * 2 ^ e, 1) else (Zpos m, 2 ^ (- e)).

Definition below_pow10 (n : Z) : bool :=
  let '(nu, de) := num_den in
  if 0 <=? n then nu <? de * 10 ^ n else nu * 10 ^ (- n) <? de.

(** The [n] with [10^(n-1) <= nu/de < 10^n], near its estimate. *)
Definition decimal_exponent : option Z :=
  let '(nu, de) := num_den in
  let est := (Z.log2 nu - Z.log2 de) * 30103 / 100000 in
  find (λ n, below_pow10 n && negb (below_pow10 (n - 1))) [est - 1; est; est + 1; est + 2].

(** The [k] digits on both sides of the magnitude, the closer ones first, each with its exponent: above
    [99..9] comes the next power of ten. *)
Definition candidates (n : Z) (k : nat) : list (Z * Z) :=
  let '(nu, de) := num_den in
  let j := Z.of_nat k - n in
  let '(nu', de') := if 0 <=? j then (nu * 10 ^ j, de) else (nu, de * 10 ^ (- j)) in
  let lo := nu' / de' in
  let up := if lo + 1 <? 10 ^ Z.of_nat k then (lo + 1, n) else (10 ^ (Z.of_nat k - 1), n + 1) in
  let twice := 2 * (nu' - lo * de') in
  if (twice <? de') || ((twice =? de') && Z.even lo) then [(lo, n); up] else [up; (lo, n)].

(** The fewest digits whose text has this Number value, the closest such text first. *)
Fixpoint shortest (n : Z) (k : nat) (more : nat) : option jsstr :=
  match find (λ t, bool_decide (number_value t = Some (S754_finite neg m e)))
             ((λ c, format_number neg c.1 k c.2) <$> candidates n k) with
  | Some t => Some t
  | None => match more with O => None | S more => shortest n (S k) more end
  end.
End Shortest.

(** [JSON.stringify] of a finite number.  Seventeen digits identify every double. *)
Definition number_text (f : spec_float) : option jsstr :=
  match f with
  | S754_zero _ => Some (js "0")
  | S754_finite neg m e => n ← decimal_exponent m e; shortest neg m e n 1 16
  | _ => None
  end.

Example number_text_tenth : number_text (decimal_magnitude 1 (-1)) = Some (js "0.1").
Proof. vm_compute. reflexivity. Qed.
Example number_text_asymmetric :
  number_text (S754_finite false 4503599627370496 (-96)) = Some (js "5.684341886080802e-14").
Proof. vm_compute. reflexivity. Qed.
Example number_text_max :
  number_text (S754_finite true 9007199254740991 971) = Some (js "-1.7976931348623157e+308").
Proof. vm_compute. reflexivity. Qed.
Example number_text_below_tenth_power :
  number_text (decimal_magnitude 1 (-6)) = Some (js "0.000001") ∧ number_text (decimal_magnitude 1 (-7)) = Some (js "1e-7") ∧
  number_text (decimal_magnitude 1 23) = Some (js "1e+23") ∧ number_text (decimal_magnitude 1 21) = Some (js "1e+21") ∧
  number_text (decimal_magnitude 1 20) = Some (js "100000000000000000000") ∧
  number_text (S754_finite false 1 (-1074)) = Some (js "5e-324").
Proof. vm_compute. done. Qed.
Example number_text_int : number_text (decimal_magnitude 1800000 0) = Some (js "1800000").
Proof. vm_compute. reflexivity. Qed.

(** ** Data values *)

(** [JExotic] stands for what is not plain data: functions, symbols, big integers, class instances,
    arrays with holes or named members, cyclic structures. *)
Inductive jsval :=
| JUndef
| JExotic
| JNull
| JBool (b : bool)
| JNum (f : spec_float)
| JStr (s : jsstr)
| JArr (l : list jsval)
| JObj (members : list (jsstr * jsval)).

Section JsvalInd.
Context (P : jsval → Prop).
Context (Hundef : P JUndef) (Hexotic : P JExotic) (Hnull : P JNull) (Hbool : ∀ b, P (JBool b))
  (Hnum : ∀ f, P (JNum f)) (Hstr : ∀ s, P (JStr s))
  (Harr : ∀ l, Forall P l → P (JArr l))
  (Hobj : ∀ ms, Forall (λ kv, P kv.2) ms → P (JObj ms)).

Fixpoint jsval_rect' (v : jsval) : P v :=
  match v with
  | JUndef => Hundef
  | JExotic => Hexotic
  | JNull => Hnull
  | JBool b => Hbool b
  | JNum f => Hnum f
  | JStr s => Hstr s
  | JArr l => Harr l
      ((fix go l : Forall P l :=
          match l with [] => Forall_nil_2 _ | v :: l => Forall_cons_2 _ _ _ (jsval_rect' v) (go l) end) l)
  | JObj ms => Hobj ms
      ((fix go ms : Forall (λ kv, P kv.2) ms :=
          match ms with
          | [] => Forall_nil_2 _
          | kv :: ms => Forall_cons_2 _ _ _ (jsval_rect' kv.2) (go ms)
          end) ms)
  end.
End JsvalInd.

Definition lookup_member {A} (k : jsstr) (ms : list (jsstr * A)) : option A :=
  snd <$> find (λ kv, bool_decide (kv.1 = k)) ms.

(** Reading a property of a data value that is not [null] or [undefined]; the values that are not
    records have none of the properties the sources ask for. *)
Definition js_get (k : string) (v : jsval) : jsval :=
  match v with JObj ms => default JUndef (lookup_member (js k) ms) | _ => JUndef end.

(** [isRecord] and its private copies: an object that is not an array. *)
Definition isRecord (v : jsval) : bool := match v with JObj _ => true | _ => false end.

(** Defining a property: an existing key keeps its position and takes the new value.  Enumeration
    order (integer-like keys first) is not represented: no client observes it. *)
Fixpoint put_member {A} (k : jsstr) (v : A) (ms : list (jsstr * A)) : list (jsstr * A) :=
  match ms with
  | [] => [(k, v)]
  | kv :: ms => if bool_decide (kv.1 = k) then (k, v) :: ms else kv :: put_member k v ms
  end.

(** ** [JSON.parse] *)

Inductive token :=
| TLBrace | TRBrace | TLBracket | TRBracket | TColon | TComma
| TTrue | TFalse | TNull
| TNum (f : spec_float)
| TStr (s : jsstr).

(** Accumulators are reversed. *)
Inductive lexstate :=
| LStart
| LStr (acc : jsstr)
| LEsc (acc : jsstr)
| LUni (acc : jsstr) (left : nat) (value : Z)
| LNum (acc : jsstr)
| LWord (acc : jsstr).

Definition is_json_space (c : Z) : bool := (c =? 32) || (c =? 9) || (c =? 10) || (c =? 13).

Definition is_number_char (c : Z) : bool :=
  is_digit c || (c =? cu ".") || (c =? cu "e") || (c =? cu "E") || (c =? cu "+") || (c =? cu "-").

Definition hex_value (c : Z) : option Z :=
  if is_digit c then Some (c - 48)
  else if in_range 97 102 c then Some (c - 87)
  else if in_range 65 70 c then Some (c - 55)
  else None.

(** The unit an escape of one letter stands for. *)
Definition simple_escape (c : Z) : option Z :=
  if (c =? QUOTE) || (c =? BACKSLASH) || (c =? cu "/") then Some c
  else if c =? cu "b" then Some 8
  else if c =? cu "f" then Some 12
  else if c =? cu "n" then Some 10
  else if c =? cu "r" then Some 13
  else if c =? cu "t" then Some 9
  else None.

Definition lex_start (c : Z) : option (list token * lexstate) :=
  if is_json_space c then Some ([], LStart)
  else if c =? cu "{" then Some ([TLBrace], LStart)
  else if c =? cu "}" then Some ([TRBrace], LStart)
  else if c =? cu "[" then Some ([TLBracket], LStart)
  else if c =? cu "]" then Some ([TRBracket], LStart)
  else if c =? cu ":" then Some ([TColon], LStart)
  else if c =? cu "," then Some ([TComma], LStart)
  else if c =? QUOTE then Some ([], LStr [])
  else if (c =? cu "-") || is_digit c then Some ([], LNum [c])
  else if is_lower c then Some ([], LWord [c])
  else None.

Definition word_token (w : jsstr) : option token :=
  if bool_decide (w = js "true") then Some TTrue
  else if bool_decide (w = js "false") then Some TFalse
  else if bool_decide (w = js "null") then Some TNull
  else None.

(** What is pending at the end of a number or a word. *)
Definition lex_flush (st : lexstate) : option (list token) :=
  match st with
  | LStart => Some []
  | LNum acc => f ← number_value (rev acc); Some [TNum f]
  | LWord acc => t ← word_token (rev acc); Some [t]
  | _ => None
  end.

Definition lex_step (st : lexstate) (c : Z) : option (list token * lexstate) :=
  match st with
  | LStart => lex_start c
  | LStr acc =>
    if c =? QUOTE then Some ([TStr (rev acc)], LStart)
    else if c =? BACKSLASH then Some ([], LEsc acc)
    else if c <? 32 then None
    else Some ([], LStr (c :: acc))
  | LEsc acc =>
    if c =? cu "u" then Some ([], LUni acc 4 0)
    else x ← simple_escape c; Some ([], LStr (x :: acc))
  | LUni acc n value =>
    h ← hex_value c;
    let value' := value * 16 + h in
    match n with
    | S (S n) => Some ([], LUni acc (S n) value')
    | _ => Some ([], LStr (value' :: acc))
    end
  | LNum acc =>
    if is_number_char c then Some ([], LNum (c :: acc))
    else ts ← lex_flush st; '(ts', st') ← lex_start c; Some (ts ++ ts', st')
  | LWord acc =>
    if is_lower c then Some ([], LWord (c :: acc))
    else ts ← lex_flush st; '(ts', st') ← lex_start c; Some (ts ++ ts', st')
  end.

Fixpoint lex (st : lexstate) (s : jsstr) : option (list token) :=
  match s with
  | [] => lex_flush st
  | c :: s => '(ts, st') ← lex_step st c; rest ← lex st' s; Some (ts ++ rest)
  end.

(** Open containers: an array with its elements (reversed), an object between members, an object
    whose member [key] awaits its value. *)
Inductive frame :=
| FArr (acc : list jsval)
| FObj (members : list (jsstr * jsval))
| FKey (members : list (jsstr * jsval)) (key : jsstr).

Inductive mode := MValue | MFirstElem | MFirstKey | MKey | MColon | MAfter | MDone (v : jsval).

Definition deliver (stack : list frame) (v : jsval) : option (list frame * mode) :=
  match stack with
  | [] => Some ([], MDone v)
  | FArr acc :: stack => Some (FArr (v :: acc) :: stack, MAfter)
  | FKey members key :: stack => Some (FObj (put_member key v members) :: stack, MAfter)
  | FObj _ :: _ => None
  end.

Definition value_step (stack : list frame) (t : token) : option (list frame * mode) :=
  match t with
  | TTrue => deliver stack (JBool true)
  | TFalse => deliver stack (JBool false)
  | TNull => deliver stack JNull
  | TNum f => deliver stack (JNum f)
  | TStr s => deliver stack (JStr s)
  | TLBracket => Some (FArr [] :: stack, MFirstElem)
  | TLBrace => Some (FObj [] :: stack, MFirstKey)
  | _ => None
  end.

Definition parse_step (st : list frame * mode) (t : token) : option (list frame * mode) :=
  let '(stack, m) := st in
  match m, t, stack with
  | MFirstElem, TRBracket, FArr acc :: stack => deliver stack (JArr (rev acc))
  | (MValue | MFirstElem), _, _ => value_step stack t
  | MFirstKey, TRBrace, FObj members :: stack => deliver stack (JObj members)
  | (MFirstKey | MKey), TStr k, FObj members :: stack => Some (FKey members k :: stack, MColon)
  | MColon, TColon, _ => Some (stack, MValue)
  | MAfter, TComma, FArr _ :: _ => Some (stack, MValue)
  | MAfter, TComma, FObj _ :: _ => Some (stack, MKey)
  | MAfter, TRBracket, FArr acc :: stack => deliver stack (JArr (rev acc))
  | MAfter, TRBrace, FObj members :: stack => deliver stack (JObj members)
  | _, _, _ => None
  end.

Fixpoint parse_tokens (st : list frame * mode) (ts : list token) : option (list frame * mode) :=
  match ts with
  | [] => Some st
  | t :: ts => st' ← parse_step st t; parse_tokens st' ts
  end.

(** [None] is a thrown [SyntaxError]. *)
Definition json_parse (s : jsstr) : option jsval :=
  ts ← lex LStart s;
  st ← parse_tokens ([], MValue) ts;
  match st with
  | ([], MDone v) => Some v
  | _ => None
  end.

(** ** [isDeepStrictEqual] on data values: [Object.is] on primitives, the same keys in any order. *)

Section DeepEqual.
Context (deep_equal : jsval → jsval → bool).

Fixpoint deep_equal_list (l1 l2 : list jsval) : bool :=
  match l1, l2 with
  | [], [] => true
  | v :: l1, w :: l2 => deep_equal v w && deep_equal_list l1 l2
  | _, _ => false
  end.

Fixpoint deep_equal_members (ms1 ms2 : list (jsstr * jsval)) : bool :=
  match ms1 with
  | [] => true
  | (k, v) :: ms1 =>
    match lookup_member k ms2 with
    | Some w => deep_equal v w && deep_equal_members ms1 ms2
    | None => false
    end
  end.
End DeepEqual.

Fixpoint deep_equal (a b : jsval) {struct a} : bool :=
  match a, b with
  | JUndef, JUndef => true
  | JNull, JNull => true
  | JBool x, JBool y => eqb x y
  | JNum f, JNum g => bool_decide (f = g)
  | JStr s, JStr t => bool_decide (s = t)
  | JArr l1, JArr l2 => deep_equal_list deep_equal l1 l2
  | JObj ms1, JObj ms2 =>
    bool_decide (length ms1 = length ms2) && deep_equal_members deep_equal ms1 ms2
  | _, _ => false
  end.

Definition sample_text : jsstr :=
  js "{" ++ [QUOTE] ++ js "a" ++ [QUOTE] ++ js ": [1, -2.5e3, true, null], "
  ++ [QUOTE] ++ js "b" ++ [QUOTE] ++ js ":" ++ [QUOTE] ++ js "x\u0041\n" ++ [QUOTE] ++ js "}".

Example json_parse_sample :
  json_parse sample_text =
  Some (JObj [(js "a", JArr [JNum (number_of_decimal false 1 0);
                             JNum (number_of_decimal true 2500 0); JBool true; JNull]);
              (js "b", JStr (js "xA" ++ [10]))]).
Proof. vm_compute. reflexivity. Qed.
