(* ===== verification/NumberText.v ===== *)
(** * The texts of numbers are complete

    [number_text] searches for the fewest digits that read back to a double.  This file shows that the search
    finds a text for every double: reading rounds to the nearest double ([decimal_near]), the text of digits
    and an exponent reads as the decimal they stand for ([format_reads]), and seventeen digits come close
    enough to any double to round to it ([number_text_total]). *)

From Stdlib Require Import SpecFloat.
From S2P Require Import Prelude JsValue.

Local Open Scope string_scope.
Local Open Scope list_scope.
Local Open Scope Z_scope.

Local Abbreviation fexp := (SpecFloat.fexp prec emax).
Local Abbreviation emin := (SpecFloat.emin prec emax).

(** ** Rounding *)

(** A value [V] in a cell of width [u]: [m] cells below it, whether it is in the upper half, and whether it
    is off the start and the middle of the cell. *)
Record in_cell (V u : Z) (mrs : shr_record) : Prop := {
  cell_m : 0 <= shr_m mrs;
  cell_lo : shr_m mrs * u <= V;
  cell_hi : V < (shr_m mrs + 1) * u;
  cell_r : shr_r mrs = true ↔ (2 * shr_m mrs + 1) * u <= 2 * V;
  cell_s : shr_s mrs = false ↔ 2 * V = (2 * shr_m mrs + Z.b2z (shr_r mrs)) * u;
}.

Lemma shr_1_cell V u mrs : 0 < u → in_cell V u mrs → in_cell V (2 * u) (shr_1 mrs).
Proof.
  intros Hu [H0 H1 H2 H3 H4]. destruct mrs as [m r s]. cbn [shr_m shr_r shr_s] in *.
  assert (∃ m' b, m = 2 * m' + Z.b2z b ∧ 0 <= m' ∧ shr_1 {| shr_m := m; shr_r := r; shr_s := s |} = {| shr_m := m'; shr_r := b; shr_s := r || s |})
    as (m' & b & -> & Hm' & ->).
  { destruct m as [|[p|p|]|p]; [exists 0, false|exists (Zpos p), true|exists (Zpos p), false|exists 0, true|]; try (split; [cbn; lia|split; [lia|done]]). cbn in H0. lia. }
  split; cbn [shr_m shr_r shr_s]; [done|destruct b; cbn [Z.b2z] in *; nia|destruct b; cbn [Z.b2z] in *; nia| |].
  - destruct b; cbn [Z.b2z] in *; (split; [|]); intros; try done; nia.
  - rewrite orb_false_iff, H4. destruct b; cbn [Z.b2z] in *; destruct r; cbn [Z.b2z] in *.
    + split; [by intros []|]. intros E. assert ((2 * (2 * m' + 1) + 1) * u <= 2 * V) by (by apply H3). nia.
    + split; [intros [_ E]; nia|]. intros E. split; [done|nia].
    + split; [by intros []|]. intros E. assert ((2 * (2 * m' + 0) + 1) * u <= 2 * V) by (by apply H3). nia.
    + split; [intros [_ E]; nia|]. intros E. split; [done|nia].
Qed.

Lemma iter_cell V p : ∀ u mrs, 0 < u → in_cell V u mrs → in_cell V (u * 2 ^ Zpos p) (SpecFloat.iter_pos shr_1 p mrs).
Proof.
  induction p as [p IH|p IH|]; intros u mrs Hu H; cbn [SpecFloat.iter_pos].
  - assert (u * 2 ^ Zpos p~1 = ((2 * u) * 2 ^ Zpos p) * 2 ^ Zpos p) as ->.
    { replace (Zpos p~1) with (Zpos p + Zpos p + 1) by lia. rewrite !Z.pow_add_r by lia. ring. }
    apply IH; [nia|]. apply IH; [lia|]. by apply shr_1_cell.
  - assert (u * 2 ^ Zpos p~0 = (u * 2 ^ Zpos p) * 2 ^ Zpos p) as ->.
    { replace (Zpos p~0) with (Zpos p + Zpos p) by lia. rewrite Z.pow_add_r by lia. ring. }
    apply IH; [nia|]. by apply IH.
  - rewrite Z.pow_1_r, Z.mul_comm. by apply shr_1_cell.
Qed.

Lemma shr_cell V u mrs e n : 0 < u → 0 <= n → in_cell V u mrs → in_cell V (u * 2 ^ n) (shr mrs e n).1 ∧ (shr mrs e n).2 = e + n.
Proof.
  intros Hu Hn H. destruct n as [|p|p]; [|by split; [apply iter_cell|]|lia]. cbn. rewrite Z.mul_1_r. split; [done|lia].
Qed.

(** A value near the boundary of two cells rounds to it. *)
Lemma round_near V u mrs m : 0 < u → in_cell V u mrs → 2 * Z.abs (V - m * u) < u →
  round_nearest_even (shr_m mrs) (loc_of_shr_record mrs) = m.
Proof.
  intros Hu [H0 H1 H2 H3 H4] Hn. destruct mrs as [q r s]. cbn [shr_m shr_r shr_s] in *.
  assert (q = m ∨ q = m - 1) as [->| ->] by nia.
  - destruct r; [|by destruct s]. assert ((2 * m + 1) * u <= 2 * V) by (by apply H3). nia.
  - destruct r.
    + destruct s; cbn; [lia|]. assert (2 * V = (2 * (m - 1) + 1) * u) by (by apply H4). nia.
    + assert (¬ (2 * (m - 1) + 1) * u <= 2 * V) by (intros ?%H3; done). nia.
Qed.

(** *** Binary digits *)

Lemma digits2_bounds p : 2 ^ (Zpos (digits2_pos p) - 1) <= Zpos p < 2 ^ Zpos (digits2_pos p).
Proof.
  induction p as [p IH|p IH|]; cbn [digits2_pos]; [| |done];
    rewrite Pos2Z.inj_succ; replace (Z.succ (Zpos (digits2_pos p)) - 1) with (Z.succ (Zpos (digits2_pos p) - 1)) by lia;
    rewrite !Z.pow_succ_r by lia; lia.
Qed.

Lemma digits2_unique p d : 2 ^ (d - 1) <= Zpos p < 2 ^ d → Zpos (digits2_pos p) = d.
Proof.
  intros [H1 H2]. pose proof (digits2_bounds p) as [H3 H4].
  assert (0 < d) by (destruct (Z.lt_ge_cases 0 d); [done|]; assert (2 ^ d <= 2 ^ 0) by (destruct (decide (d = 0)) as [->|]; [done|rewrite Z.pow_neg_r by lia; lia]); cbn in *; lia).
  assert (d - 1 < Zpos (digits2_pos p)) by (apply (Z.pow_lt_mono_r_iff 2); lia).
  assert (Zpos (digits2_pos p) - 1 < d) by (apply (Z.pow_lt_mono_r_iff 2); lia). lia.
Qed.

Lemma fexp_mono a b : a <= b → fexp a <= fexp b.
Proof. unfold SpecFloat.fexp. lia. Qed.

(** *** A decimal near a double *)

Section Near.
Context (m : positive) (e : Z) (Hb : bounded prec emax m e = true).

Lemma bounded_facts : fexp (Zpos (digits2_pos m) + e) = e ∧ e <= emax - prec ∧ Zpos m < 2 ^ 53 ∧ emin <= e ∧ (emin < e → 2 ^ 52 <= Zpos m).
Proof.
  unfold bounded, canonical_mantissa in Hb. apply andb_true_iff in Hb as [H1%Z.eqb_eq H2%Z.leb_le].
  pose proof (digits2_bounds m) as [H3 H4]. unfold SpecFloat.fexp in H1 |- *. split; [done|]. split; [done|].
  assert (Zpos (digits2_pos m) <= 53) by (unfold prec in *; lia). split; [|split; [lia|]].
  - eapply Z.lt_le_trans; [exact H4|]. by apply Z.pow_le_mono_r.
  - intros He. assert (Zpos (digits2_pos m) = 53) as E by (unfold prec in *; lia). by rewrite E in H3.
Qed.

(** [V / (D * 2^S)] is the value that is rounded, [D * 2^(t + S)] a cell of the exponent [t]. *)
Context (V D S : Z) (HD : 0 < D).
Definition cell (t : Z) : Z := D * 2 ^ (t + S).

Lemma cell_pos t : - S <= t → 0 < cell t.
Proof. intros. unfold cell. assert (0 < 2 ^ (t + S)) by (apply Z.pow_pos_nonneg; lia). nia. Qed.
Lemma cell_shift t n : - S <= t → 0 <= n → cell (t + n) = cell t * 2 ^ n.
Proof. intros. unfold cell. replace (t + n + S) with ((t + S) + n) by lia. rewrite Z.pow_add_r by lia. ring. Qed.
Lemma cell_succ t : - S <= t → cell (t + 1) = 2 * cell t.
Proof. intros. rewrite cell_shift by lia. ring. Qed.

Context (HS : - S <= emin) (Hnear : 2 ^ 54 * Z.abs (V - Zpos m * cell e) < Zpos m * cell e).

Lemma round_aux_near sx q ex l :
  emin <= ex → in_cell V (cell ex) (shr_record_of_loc q l) → ex <= fexp (Zdigits2 q + ex) →
  binary_round_aux prec emax sx q ex l = S754_finite sx m e.
Proof.
  intros Hex Hc Hle. destruct bounded_facts as (Hf & Hmax & Hm & He & Hm52).
  unfold binary_round_aux, shr_fexp. set (t := fexp (Zdigits2 q + ex)) in *.
  assert (0 < cell ex) as Hcex by (apply cell_pos; lia). assert (0 < cell e) as Hce by (apply cell_pos; lia).
  destruct (shr_cell V (cell ex) (shr_record_of_loc q l) ex (t - ex) Hcex ltac:(lia) Hc) as [H1 H2].
  rewrite <-cell_shift in H1 by lia. replace (ex + (t - ex)) with t in H1, H2 by lia.
  destruct (shr (shr_record_of_loc q l) ex (t - ex)) as [mrs e1]. cbn [fst snd] in H1, H2. subst e1.
  assert (0 <= q ∧ shr_m (shr_record_of_loc q l) = q) as [Hq Hqm] by (destruct Hc; destruct l as [|[]]; done).
  assert (V < cell ex * 2 ^ Zdigits2 q ∧ (0 < q → cell ex * 2 ^ (Zdigits2 q - 1) <= V)) as [Hup Hdown].
  { destruct Hc as [_ Hlo Hhi _ _]. rewrite Hqm in Hlo, Hhi. destruct q as [|p|p]; [cbn; lia| |lia]. cbn [Zdigits2].
    pose proof (digits2_bounds p) as [Ha Hb']. split; [nia|intros _; nia]. }
  destruct (Z.lt_trichotomy t e) as [Hlt|[Heq|Hgt]].
  - assert (2 ^ 52 <= Zpos m) as H52 by (apply Hm52; unfold t, SpecFloat.fexp in *; lia).
    assert (V < cell t * 2 ^ 53) as HV.
    { eapply Z.lt_le_trans; [exact Hup|]. assert (Zdigits2 q + ex <= t + 53) by (unfold t, SpecFloat.fexp, prec; lia).
      assert (0 <= Zdigits2 q) by (by destruct q). rewrite <-!cell_shift by (lia || unfold t, SpecFloat.fexp in *; lia). unfold cell.
      apply Z.mul_le_mono_nonneg_l; [lia|]. apply Z.pow_le_mono_r; lia. }
    assert (- S <= t) as HtS by (unfold t, SpecFloat.fexp; lia).
    assert (t = e - 1) as Ht.
    { destruct (Z.lt_ge_cases t (e - 1)) as [Hlt2|]; [exfalso|lia].
      assert (cell t * 4 <= cell e) by (replace e with (t + (e - t)) by lia; rewrite cell_shift by lia; apply Z.mul_le_mono_nonneg_l;
        [apply Z.lt_le_incl, cell_pos; lia|]; change 4 with (2 ^ 2); apply Z.pow_le_mono_r; lia).
      change (2 ^ 53) with 9007199254740992 in *. change (2 ^ 54) with 18014398509481984 in *. change (2 ^ 52) with 4503599627370496 in *. nia. }
    assert (cell e = 2 * cell t) as Ecell by (rewrite <-cell_succ by lia; f_equal; lia).
    assert (Zpos m = 2 ^ 52) as Em.
    { change (2 ^ 53) with 9007199254740992 in *. change (2 ^ 54) with 18014398509481984 in *. change (2 ^ 52) with 4503599627370496 in *. nia. }
    rewrite (round_near V (cell t) mrs (2 ^ 53)); [|by apply cell_pos|done|].
    + assert (fexp (Zdigits2 (2 ^ 53) + t) - t = 1) as ->.
      { change (Zdigits2 (2 ^ 53)) with 54. unfold SpecFloat.fexp in *. unfold prec in *. lia. }
      change (shr (shr_record_of_loc (2 ^ 53) loc_Exact) t 1) with ({| shr_m := 2 ^ 52; shr_r := false; shr_s := false |}, t + 1).
      cbn [shr_m]. change (2 ^ 52) with (Zpos 4503599627370496) in Em |- *. injection Em as ->.
      replace (t + 1) with e by lia. by rewrite (proj2 (Z.leb_le _ _)).
    + change (2 ^ 53) with 9007199254740992 in *. change (2 ^ 54) with 18014398509481984 in *. change (2 ^ 52) with 4503599627370496 in *. nia.
  - rewrite Heq in *. rewrite (round_near V (cell e) mrs (Zpos m)); [|done|done|].
    + cbn [Zdigits2 shr_record_of_loc]. rewrite Hf, Z.sub_diag. cbn [shr shr_m]. by rewrite (proj2 (Z.leb_le _ _)).
    + change (2 ^ 53) with 9007199254740992 in *. change (2 ^ 54) with 18014398509481984 in *. nia.
  - exfalso. assert (t = Zdigits2 q + ex - 53) as Ht by (unfold t, SpecFloat.fexp, prec in *; lia).
    assert (0 < q) as Hq0 by (destruct q; [cbn in Ht; lia|done|lia]). specialize (Hdown Hq0).
    assert (cell e * 2 ^ 53 <= V).
    { etrans; [|exact Hdown]. assert (0 < Zdigits2 q) by (by destruct q). rewrite <-!cell_shift by lia. unfold cell.
      apply Z.mul_le_mono_nonneg_l; [lia|]. apply Z.pow_le_mono_r; lia. }
    change (2 ^ 53) with 9007199254740992 in *. change (2 ^ 54) with 18014398509481984 in *. nia.
Qed.
End Near.

(** *** Reading a decimal *)

(** The numerator and the denominator of [d * 10^j]. *)
Definition decimal_ratio (d : positive) (j : Z) : Z * Z :=
  if 0 <=? j then (Zpos d * 10 ^ j, 1) else (Zpos d, 10 ^ (- j)).

(** The decimal is closer to the double than a quarter of the unit of its last digit. *)
Definition near (m : positive) (e : Z) (ratio : Z * Z) : Prop :=
  2 ^ 54 * Z.abs (ratio.1 * (num_den m e).2 - (num_den m e).1 * ratio.2) < (num_den m e).1 * ratio.2.

Lemma near_scaled m e N D : emin <= e → near m e (N, D) →
  2 ^ 54 * Z.abs (N * 2 ^ (- emin) - Zpos m * cell D (- emin) e) < Zpos m * cell D (- emin) e.
Proof.
  unfold near, num_den, cell. cbn [fst snd]. intros He H. destruct (0 <=? e) eqn:E; bool_to_prop; cbn [fst snd] in H.
  - rewrite Z.pow_add_r by (unfold SpecFloat.emin, prec, emax; lia). set (c := 2 ^ (- emin)) in *.
    assert (0 < c) by (by vm_compute). assert (N * c - Zpos m * (D * (2 ^ e * c)) = (N * 1 - Zpos m * 2 ^ e * D) * c) as -> by ring.
    rewrite Z.abs_mul, (Z.abs_eq c) by lia. nia.
  - assert (2 ^ (- emin) = 2 ^ (- e) * 2 ^ (e + - emin)) as -> by (rewrite <-Z.pow_add_r by lia; f_equal; lia). set (c := 2 ^ (e + - emin)).
    assert (0 < c) by (apply Z.pow_pos_nonneg; lia).
    assert (N * (2 ^ (- e) * c) - Zpos m * (D * c) = (N * 2 ^ (- e) - Zpos m * D) * c) as -> by ring.
    rewrite Z.abs_mul, (Z.abs_eq c) by lia. nia.
Qed.

Lemma iter_xO p k : Zpos (Pos.iter xO p k) = Zpos p * 2 ^ Zpos k.
Proof.
  induction k as [|k IH] using Pos.peano_ind; [cbn; lia|].
  rewrite Pos.iter_succ, Pos2Z.inj_succ, Z.pow_succ_r by lia. rewrite Pos2Z.inj_xO, IH. lia.
Qed.

Lemma integer_near m e p : bounded prec emax m e = true → near m e (Zpos p, 1) →
  binary_normalize prec emax (Zpos p) 0 false = S754_finite false m e.
Proof.
  intros Hb Hn. destruct (bounded_facts m e Hb) as (_ & _ & _ & He & _). apply near_scaled in Hn; [|done].
  unfold binary_normalize, binary_round. rewrite Z.add_0_r. set (d := Zpos (digits2_pos p)).
  assert (∃ mz ez, shl_align p 0 (fexp d) = (mz, ez) ∧ emin <= ez <= fexp d ∧ ez <= 0 ∧ Zpos mz = Zpos p * 2 ^ (- ez)) as (mz & ez & -> & Hez & Hez0 & Hmz).
  { unfold shl_align. rewrite Z.sub_0_r. assert (emin <= fexp d) by (unfold SpecFloat.fexp; lia). destruct (fexp d) as [|k|k] eqn:Ed.
    - exists p, 0. split_and!; try done. cbn. lia.
    - exists p, 0. split_and!; try done. cbn. lia.
    - eexists _, _. split; [done|]. split; [lia|]. split; [lia|]. apply iter_xO. }
  apply (round_aux_near m e Hb (Zpos p * 2 ^ (- emin)) 1 (- emin) ltac:(lia)); [lia|done|lia| |].
  - cbn [shr_record_of_loc]. unfold cell. assert (2 ^ (- emin) = 2 ^ (- ez) * 2 ^ (ez + - emin)) as -> by (rewrite <-Z.pow_add_r by lia; f_equal; lia).
    set (c := 2 ^ (ez + - emin)). assert (0 < c) by (apply Z.pow_pos_nonneg; lia).
    split; cbn [shr_m shr_r shr_s Z.b2z]; [lia|nia|nia| |]; (split; [|]); intros; try done; nia.
  - cbn [Zdigits2]. assert (Zpos (digits2_pos mz) = d - ez) as ->; [|replace (d - ez + ez) with d by lia; lia].
    apply digits2_unique. rewrite Hmz. pose proof (digits2_bounds p) as [H1 H2]. fold d in H1, H2.
    replace (d - ez - 1) with ((d - 1) + - ez) by lia. replace (d - ez) with (d + - ez) by lia.
    rewrite !Z.pow_add_r by lia. assert (0 < 2 ^ (- ez)) by (apply Z.pow_pos_nonneg; lia). nia.
Qed.

Lemma quotient_near m e p d : bounded prec emax m e = true → near m e (Zpos p, Zpos d) → Z.even (Zpos d) = true →
  SFdiv prec emax (S754_finite false p 0) (S754_finite false d 0) = S754_finite false m e.
Proof.
  intros Hb Hn Heven. destruct (bounded_facts m e Hb) as (_ & _ & _ & He & _). apply near_scaled in Hn; [|done].
  unfold SFdiv, SFdiv_core_binary. rewrite !Z.add_0_r, Z.sub_0_r. cbn [Zdigits2].
  set (d1 := Zpos (digits2_pos p)). set (d2 := Zpos (digits2_pos d)). set (ex := Z.min (fexp (d1 - d2)) 0).
  assert (emin <= ex <= 0) as Hex by (unfold ex, SpecFloat.fexp, SpecFloat.emin, prec, emax; lia).
  assert (match 0 - ex with Z0 => Zpos p | Zpos _ => Z.shiftl (Zpos p) (0 - ex) | Zneg _ => 0 end = Zpos p * 2 ^ (- ex)) as ->.
  { replace (0 - ex) with (- ex) by lia. destruct (- ex) as [|k|k] eqn:E; [cbn; lia|by rewrite Z.shiftl_mul_pow2|lia]. }
  pose proof (Z_div_mod (Zpos p * 2 ^ (- ex)) (Zpos d) ltac:(lia)) as Hdm. destruct (Z.div_eucl _ _) as [q r]. destruct Hdm as [Eq Hr].
  cbn [xorb]. assert (0 < 2 ^ (- ex)) as Hp2 by (apply Z.pow_pos_nonneg; lia). assert (0 <= q) as Hq by nia.
  apply (round_aux_near m e Hb (Zpos p * 2 ^ (- emin)) (Zpos d) (- emin) ltac:(lia)); [lia|done|lia| |].
  - unfold cell. assert (2 ^ (- emin) = 2 ^ (- ex) * 2 ^ (ex + - emin)) as -> by (rewrite <-Z.pow_add_r by lia; f_equal; lia).
    set (c := 2 ^ (ex + - emin)). assert (0 < c) by (apply Z.pow_pos_nonneg; lia). rewrite Z.mul_assoc, Eq.
    replace ((Zpos d * q + r) * c) with (q * (Zpos d * c) + r * c) by ring.
    assert (0 <= r * c < Zpos d * c ∧ (r = 0 ↔ r * c = 0) ∧ (2 * r ?= Zpos d) = (2 * (r * c) ?= Zpos d * c)) as (Ha & H0 & Hcmp).
    { split; [nia|]. split; [nia|]. replace (2 * (r * c)) with (2 * r * c) by ring. apply Zmult_compare_compat_r. lia. }
    unfold new_location. rewrite Heven. unfold new_location_even. rewrite Hcmp. destruct (r =? 0) eqn:Er; bool_to_prop.
    + apply H0 in Er. rewrite Er. cbn [shr_record_of_loc]. split; cbn [shr_m shr_r shr_s Z.b2z]; lia.
    + assert (r * c ≠ 0) as Hne by (by intros ?%H0). clear H0 Hcmp Eq Hr Er. revert Ha Hne. generalize (r * c) as a, (Zpos d * c) as b. intros a b Ha Hne.
      destruct (2 * a ?= b) eqn:Ec; [apply Z.compare_eq_iff in Ec|change (2 * a < b) in Ec|apply Z.compare_gt_iff in Ec];
        cbn [shr_record_of_loc]; (split; cbn [shr_m shr_r shr_s Z.b2z]; [lia|nia|nia|split; intros; first [done|nia|exfalso; nia]|split; intros; first [done|nia|exfalso; nia]]).
  - assert (d1 - d2 <= Zdigits2 q + ex) as Hle; [|pose proof (fexp_mono _ _ Hle); unfold ex in *; lia].
    destruct (Z.le_gt_cases (d1 - d2 - ex) 0) as [|Hpos]; [assert (0 <= Zdigits2 q) by (by destruct q); lia|].
    pose proof (digits2_bounds p) as [P1 _]. pose proof (digits2_bounds d) as [_ P2]. fold d1 in P1. fold d2 in P2.
    assert (2 ^ (d1 - d2 - ex - 1) <= q) as Hq2.
    { assert (2 ^ (d1 - d2 - ex - 1) * Zpos d < (q + 1) * Zpos d) as Hlt; [|nia].
      assert (2 ^ (d1 - d2 - ex - 1) * 2 ^ d2 = 2 ^ (d1 - 1) * 2 ^ (- ex)) as E by (rewrite <-!Z.pow_add_r by lia; f_equal; lia).
      assert (0 < 2 ^ (d1 - d2 - ex - 1)) by (apply Z.pow_pos_nonneg; lia). nia. }
    destruct q as [|q|q]; [assert (0 < 2 ^ (d1 - d2 - ex - 1)) by (apply Z.pow_pos_nonneg; lia); lia| |lia]. cbn [Zdigits2].
    pose proof (digits2_bounds q) as [_ Q2]. assert (d1 - d2 - ex - 1 < Zpos (digits2_pos q)) by (apply (Z.pow_lt_mono_r_iff 2); lia). lia.
Qed.

(** A decimal near a double reads as the double. *)
Lemma decimal_near m e d j : bounded prec emax m e = true → near m e (decimal_ratio d j) → decimal_magnitude d j = S754_finite false m e.
Proof.
  intros Hb. unfold decimal_ratio, decimal_magnitude. destruct (0 <=? j) eqn:E; bool_to_prop.
  - assert (0 < 10 ^ j) by (apply Z.pow_pos_nonneg; lia). destruct (Zpos d * 10 ^ j) as [|p|p] eqn:Ep; [nia| |nia]. by apply integer_near.
  - assert (0 < 10 ^ (- j)) by (apply Z.pow_pos_nonneg; lia). destruct (10 ^ (- j)) as [|p|p] eqn:Ep; [lia| |lia].
    intros Hn. apply quotient_near; [done..|]. rewrite <-Ep. rewrite Z.even_pow by lia. done.
Qed.

(** ** Reading a text *)

Definition all_digits (s : jsstr) : Prop := Forall (λ c, is_digit c = true) s.
(** A text that does not go on with a digit. *)
Definition stops (s : jsstr) : Prop := match s with [] => True | c :: _ => is_digit c = false end.

Lemma span_reads a b : all_digits a → stops b → span is_digit (a ++ b) = (a, b).
Proof.
  intros Ha Hb. induction Ha as [|c a Hc _ IH]; cbn [app span].
  - destruct b as [|c b]; [done|]. cbn in Hb |- *. by rewrite Hb.
  - by rewrite Hc, IH.
Qed.

Lemma digits_length k z : length (digits k z) = k.
Proof. revert z. induction k as [|k IH]; intros z; [done|]. cbn [digits]. rewrite length_app, IH. cbn. lia. Qed.

Lemma digits_all k z : all_digits (digits k z).
Proof.
  revert z. induction k as [|k IH]; intros z; cbn [digits]; [constructor|]. apply Forall_app. split; [apply IH|].
  apply Forall_singleton. pose proof (Z.mod_pos_bound z 10). unfold is_digit, in_range. apply andb_true_iff. split; apply Z.leb_le; lia.
Qed.

Lemma digits_value_snoc a c : digits_value (a ++ [c]) = digits_value a * 10 + (c - 48).
Proof. unfold digits_value. by rewrite foldl_app. Qed.

Lemma digits_value_app a b : digits_value (a ++ b) = digits_value a * 10 ^ Z.of_nat (length b) + digits_value b.
Proof.
  induction b as [|c b IH] using rev_ind; [rewrite app_nil_r; cbn; lia|].
  rewrite (assoc_L app), !digits_value_snoc, IH, length_app, Nat2Z.inj_add, Z.pow_add_r by lia. cbn [length]. change (10 ^ Z.of_nat 1) with 10. ring.
Qed.

Lemma digits_value_of k : ∀ z, 0 <= z < 10 ^ Z.of_nat k → digits_value (digits k z) = z.
Proof.
  induction k as [|k IH]; intros z Hz; cbn [digits]; [cbn in *; lia|]. rewrite digits_value_snoc.
  rewrite Nat2Z.inj_succ, Z.pow_succ_r in Hz by lia. rewrite IH; [|split; [apply Z.div_pos; lia|apply Z.div_lt_upper_bound; lia]].
  pose proof (Z.div_mod z 10). lia.
Qed.

Lemma digits_value_zeros n : digits_value (replicate n 48) = 0.
Proof. induction n as [|n IH]; [done|]. rewrite replicate_S_end, digits_value_snoc, IH. done. Qed.

Lemma zeros_all n : all_digits (replicate n 48).
Proof. by apply Forall_replicate. Qed.

(** The first digit is not a zero. *)
Lemma digits_head k : ∀ z, (0 < k)%nat → 10 ^ (Z.of_nat k - 1) <= z < 10 ^ Z.of_nat k → ∃ c r, digits k z = c :: r ∧ c ≠ 48 ∧ is_digit c = true.
Proof.
  induction k as [|k IH]; intros z Hk Hz; [lia|]. rewrite Nat2Z.inj_succ in Hz. replace (Z.succ (Z.of_nat k) - 1) with (Z.of_nat k) in Hz by lia.
  rewrite Z.pow_succ_r in Hz by lia. cbn [digits]. destruct k as [|k].
  - cbn [digits app]. eexists _, _. split; [done|]. change (Z.of_nat 0) with 0 in Hz. rewrite Z.pow_0_r in Hz. rewrite Z.mod_small by lia.
    split; [lia|]. unfold is_digit, in_range. apply andb_true_iff. split; apply Z.leb_le; lia.
  - destruct (IH (z / 10)) as (c & r & -> & Hc); [lia| |by eexists _, _].
    rewrite Nat2Z.inj_succ in Hz |- *. replace (Z.succ (Z.of_nat k) - 1) with (Z.of_nat k) by lia. rewrite !Z.pow_succ_r in * by lia.
    split; [apply Z.div_le_lower_bound; lia|apply Z.div_lt_upper_bound; lia].
Qed.

Lemma small_text_reads z : 0 <= z < 1000 → all_digits (small_text z) ∧ small_text z ≠ [] ∧ digits_value (small_text z) = z.
Proof.
  intros Hz. unfold small_text. destruct (z <? 10) eqn:E1; [|destruct (z <? 100) eqn:E2]; bool_to_prop;
    (split; [apply digits_all|split; [intros E%(f_equal length); rewrite digits_length in E; done|apply digits_value_of; cbn; lia]]).
Qed.

(** *** Part by part *)

Lemma read_sign_reads (neg : bool) s : (∃ c r, s = c :: r ∧ is_digit c = true) → read_sign ((if neg then js "-" else []) ++ s) = (neg, s).
Proof.
  intros (c & r & -> & Hc). destruct neg; [done|]. unfold is_digit, in_range in Hc. bool_to_prop. cbn [app read_sign].
  assert ((c =? 45) = false) as E by (apply Z.eqb_neq; lia). change (cu "-") with 45 in *. by rewrite E.
Qed.

Lemma read_int_reads a b c r : a = c :: r → c ≠ 48 → all_digits a → stops b → read_int (a ++ b) = Some (a, b).
Proof.
  intros -> Hc Ha Hb. cbn [app read_int]. rewrite (proj2 (Z.eqb_neq _ _)) by done. pose proof (Forall_inv Ha) as Hd. cbn beta in Hd. rewrite Hd.
  change (c :: r ++ b) with ((c :: r) ++ b). by rewrite span_reads.
Qed.

Lemma read_frac_reads a b : a ≠ [] → all_digits a → stops b → read_frac (js "." ++ a ++ b) = Some (a, b).
Proof. intros Hne Ha Hb. change (js ".") with [cu "."]. cbn [app read_frac]. rewrite Z.eqb_refl, span_reads by done. by destruct a. Qed.

Definition exponent_text (x : Z) : jsstr := js "e" ++ (if x <? 0 then js "-" else js "+") ++ small_text (Z.abs x).

Lemma read_exp_reads x : -1000 < x < 1000 → read_exp (exponent_text x) = Some (x, []).
Proof.
  intros Hx. destruct (small_text_reads (Z.abs x)) as (Ha & Hne & Hv); [lia|]. unfold exponent_text. change (js "e") with [cu "e"]. cbn [app read_exp].
  rewrite Z.eqb_refl. cbn [orb]. pose proof (span_reads (small_text (Z.abs x)) [] Ha I) as Hs. rewrite app_nil_r in Hs.
  destruct (x <? 0) eqn:E; bool_to_prop.
  - change (js "-") with [cu "-"]. cbn [app]. rewrite Z.eqb_refl, Hs. destruct (small_text (Z.abs x)) as [|c r]; [done|]. do 2 f_equal. lia.
  - change (js "+") with [cu "+"]. cbn [app]. change (cu "+" =? cu "-") with false. rewrite Z.eqb_refl, Hs.
    destruct (small_text (Z.abs x)) as [|c r]; [done|]. do 2 f_equal. lia.
Qed.

Lemma exponent_stops x : stops (exponent_text x) ∧ read_frac (exponent_text x) = Some ([], exponent_text x).
Proof. done. Qed.

(** The text of digits and an exponent reads as the decimal they stand for. *)
Lemma format_reads neg s k n : (0 < k <= 17)%nat → -900 < n < 900 → 10 ^ (Z.of_nat k - 1) <= s < 10 ^ Z.of_nat k →
  number_value (format_number neg s k n) = Some (number_of_decimal neg s (n - Z.of_nat k)).
Proof.
  intros Hk Hn Hs. assert (0 < s) as Hpos by (assert (0 < 10 ^ (Z.of_nat k - 1)) by (apply Z.pow_pos_nonneg; lia); lia).
  destruct (digits_head k s) as (c & r & Ed & Hc & Hcd); [lia|done|]. pose proof (digits_all k s) as Ha. pose proof (digits_length k s) as Hl.
  pose proof (digits_value_of k s ltac:(lia)) as Hv. unfold format_number. fold (exponent_text (n - 1)).
  set (ds := digits k s) in *. clearbody ds. unfold number_value.
  destruct ((Z.of_nat k <=? n) && (n <=? 21)) eqn:C1; [|destruct ((0 <? n) && (n <=? 21)) eqn:C2;
    [|destruct ((-6 <? n) && (n <=? 0)) eqn:C3; [|destruct (k =? 1)%nat eqn:C4; [apply Nat.eqb_eq in C4|apply Nat.eqb_neq in C4]]]]; bool_to_prop.
  - rewrite read_sign_reads by (rewrite Ed; by eexists _, _).
    assert (all_digits (ds ++ replicate (Z.to_nat (n - Z.of_nat k)) 48)) as Hall by (apply Forall_app; split; [done|apply zeros_all]).
    rewrite <-(app_nil_r (ds ++ replicate _ _)). rewrite (read_int_reads _ [] c (r ++ replicate (Z.to_nat (n - Z.of_nat k)) 48)); [|by rewrite Ed|done..].
    cbn [mbind option_bind read_frac read_exp]. rewrite app_nil_r, digits_value_app, Hv, digits_value_zeros, length_replicate, Z2Nat.id by lia.
    cbn [length]. f_equal. rewrite Z.add_0_r. replace (0 - Z.of_nat 0) with 0 by lia.
    assert (0 < 10 ^ (n - Z.of_nat k)) by (apply Z.pow_pos_nonneg; lia). unfold number_of_decimal.
    destruct s as [|p|p]; [lia| |lia]. destruct (Zpos p * 10 ^ (n - Z.of_nat k)) as [|p'|p'] eqn:E; [nia| |nia].
    assert (decimal_magnitude p' 0 = decimal_magnitude p (n - Z.of_nat k)) as ->; [|done].
    unfold decimal_magnitude. rewrite (proj2 (Z.leb_le 0 (n - Z.of_nat k))) by lia. cbn [Z.leb Z.compare]. f_equal. rewrite E. lia.
  - assert (∃ r', take (Z.to_nat n) ds = c :: r') as [r' Et] by (rewrite Ed; destruct (Z.to_nat n) as [|w] eqn:Ew; [lia|by eexists]).
    rewrite read_sign_reads by (rewrite Et; by eexists _, _).
    rewrite (read_int_reads _ _ c r'); [|done|done|by apply Forall_take|done]. cbn [mbind option_bind].
    rewrite <-(app_nil_r (drop _ ds)). rewrite read_frac_reads; [| |by apply Forall_drop|done].
    2:{ intros E%(f_equal length). rewrite length_drop, Hl in E. cbn in E. lia. }
    cbn [mbind option_bind read_exp]. rewrite take_drop, Hv, length_drop, Hl. do 2 f_equal. lia.
  - rewrite read_sign_reads by (by eexists _, _). change (js "0.") with ([48] ++ js "."). rewrite <-(assoc_L app).
    change (read_int ([48] ++ js "." ++ ?x)) with (Some ([48], js "." ++ x)). cbn [mbind option_bind].
    rewrite <-(app_nil_r (replicate _ 48 ++ ds)). rewrite read_frac_reads; [| |apply Forall_app; split; [apply zeros_all|done]|done].
    2:{ rewrite Ed. intros E%(f_equal length). rewrite length_app in E. cbn in E. lia. }
    cbn [mbind option_bind read_exp]. rewrite digits_value_app, digits_value_app, digits_value_zeros, Hv, length_app, length_replicate, Hl.
    change (digits_value [48]) with 0. f_equal. f_equal; lia.
  - rewrite read_sign_reads by (rewrite Ed; by eexists _, _). rewrite (read_int_reads _ _ c r) by done. cbn [mbind option_bind].
    destruct (exponent_stops (n - 1)) as [_ ->]. cbn [mbind option_bind]. rewrite read_exp_reads by lia. cbn [mbind option_bind].
    rewrite app_nil_r, Hv. do 2 f_equal. cbn [length]. lia.
  - assert (take 1 ds = [c]) as -> by (by rewrite Ed). rewrite read_sign_reads by (by eexists _, _).
    rewrite (read_int_reads [c] _ c []); [|done|done|by constructor|done]. cbn [mbind option_bind].
    rewrite read_frac_reads; [| |by apply Forall_drop|done].
    2:{ intros E%(f_equal length). rewrite length_drop, Hl in E. cbn in E. lia. }
    cbn [mbind option_bind]. rewrite read_exp_reads by lia. cbn [mbind option_bind].
    assert ([c] ++ drop 1 ds = ds) as -> by (by rewrite Ed). rewrite Hv, length_drop, Hl. do 2 f_equal. lia.
Qed.

(** ** Seventeen digits *)

(** Ratios with positive denominators. *)
Definition ratio_le (a b : Z * Z) : bool := a.1 * b.2 <=? b.1 * a.2.
Definition power (base x : Z) : Z * Z := if 0 <=? x then (base ^ x, 1) else (1, base ^ (- x)).

Lemma power_pos base x : 0 < base → 0 < (power base x).1 ∧ 0 < (power base x).2.
Proof. intros Hb. unfold power. destruct (0 <=? x) eqn:E; bool_to_prop; cbn [fst snd]; split; try lia; apply Z.pow_pos_nonneg; lia. Qed.

Lemma ratio_le_trans a b c : 0 < a.2 → 0 < b.2 → 0 < c.2 → ratio_le a b = true → ratio_le b c = true → ratio_le a c = true.
Proof.
  destruct a as [a1 a2], b as [b1 b2], c as [c1 c2]. unfold ratio_le. cbn [fst snd]. rewrite !Z.leb_le. intros Ha Hb Hc H1 H2.
  apply (Z.mul_le_mono_pos_l _ _ b2); [done|]. assert (a1 * b2 * c2 <= b1 * a2 * c2) by nia. assert (b1 * c2 * a2 <= c1 * b2 * a2) by nia. nia.
Qed.

Definition estimate (x : Z) : Z := x * 30103 / 100000.

(** The estimate of the decimal exponent from the binary one is at most two off, for all doubles. *)
Lemma estimates : forallb (λ i, let x := Z.of_nat i - 1074 in
  ratio_le (power 10 (estimate x - 2)) (power 2 x) && ratio_le (power 2 (x + 1)) (power 10 (estimate x + 2))) (seq 0 2098) = true.
Proof. vm_compute. reflexivity. Qed.

Lemma estimate_bounds x : -1074 <= x <= 1023 →
  ratio_le (power 10 (estimate x - 2)) (power 2 x) = true ∧ ratio_le (power 2 (x + 1)) (power 10 (estimate x + 2)) = true.
Proof.
  intros Hx. pose proof estimates as H. rewrite forallb_elem in H. specialize (H (Z.to_nat (x + 1074))).
  cbv zeta in H. rewrite Z2Nat.id in H by lia. replace (x + 1074 - 1074) with x in H by lia. apply andb_true_iff, H, elem_of_seq. lia.
Qed.

Section Doubles.
Context (m : positive) (e : Z) (Hb : bounded prec emax m e = true).

Lemma num_den_pos : 0 < (num_den m e).1 ∧ 0 < (num_den m e).2.
Proof.
  unfold num_den. destruct (0 <=? e) eqn:E; bool_to_prop; cbn [fst snd].
  - assert (0 < 2 ^ e) by (apply Z.pow_pos_nonneg; lia). nia.
  - split; [done|]. apply Z.pow_pos_nonneg; lia.
Qed.

Lemma below_ratio n : below_pow10 m e n = negb (ratio_le (power 10 n) (num_den m e)).
Proof.
  unfold below_pow10, ratio_le, power. destruct (num_den m e) as [nu de]. cbn [fst snd]. destruct (0 <=? n); cbn [fst snd];
    rewrite <-Z.ltb_antisym; f_equal; lia.
Qed.

(** The binary exponent of a double. *)
Lemma binary_exponent : let x := Z.log2 (num_den m e).1 - Z.log2 (num_den m e).2 in
  -1074 <= x <= 1023 ∧ ratio_le (power 2 x) (num_den m e) = true ∧ ratio_le (power 2 (x + 1)) (num_den m e) = false.
Proof.
  destruct (bounded_facts m e Hb) as (_ & Hmax & Hm & He & _). pose proof (Z.log2_spec (Zpos m) ltac:(lia)) as [L1 L2].
  assert (0 <= Z.log2 (Zpos m)) as L0 by apply Z.log2_nonneg.
  assert (Z.log2 (Zpos m) < 53) as L3 by (apply (Z.pow_lt_mono_r_iff 2); [lia|lia|]; lia).
  change emin with (-1074) in He. change (emax - prec) with 971 in Hmax. cbv zeta.
  assert (Z.log2 (num_den m e).1 - Z.log2 (num_den m e).2 = Z.log2 (Zpos m) + e) as ->.
  { unfold num_den. destruct (0 <=? e) eqn:E; bool_to_prop; cbn [fst snd].
    - rewrite Z.log2_mul_pow2 by lia. change (Z.log2 1) with 0. lia.
    - rewrite Z.log2_pow2 by lia. lia. }
  set (l := Z.log2 (Zpos m)) in *. split; [lia|]. rewrite Z.pow_succ_r in L2 by lia. unfold num_den, power, ratio_le.
  destruct (0 <=? e) eqn:E; bool_to_prop; cbn [fst snd].
  - rewrite (proj2 (Z.leb_le 0 (l + e))), (proj2 (Z.leb_le 0 (l + e + 1))) by lia. cbn [fst snd]. rewrite Z.leb_le, Z.leb_gt.
    replace (l + e + 1) with (Z.succ l + e) by lia. rewrite !Z.pow_add_r, Z.pow_succ_r by lia. assert (0 < 2 ^ e) by (apply Z.pow_pos_nonneg; lia). nia.
  - split.
    + destruct (0 <=? l + e) eqn:F; bool_to_prop; cbn [fst snd]; apply Z.leb_le.
      * rewrite <-Z.pow_add_r by lia. replace (l + e + - e) with l by lia. lia.
      * assert (2 ^ l * 2 ^ (- (l + e)) = 2 ^ (- e)) by (rewrite <-Z.pow_add_r by lia; f_equal; lia).
        assert (0 < 2 ^ (- (l + e))) by (apply Z.pow_pos_nonneg; lia). nia.
    + destruct (0 <=? l + e + 1) eqn:F; bool_to_prop; cbn [fst snd]; apply Z.leb_gt.
      * rewrite <-Z.pow_add_r by lia. replace (l + e + 1 + - e) with (Z.succ l) by lia. rewrite Z.pow_succ_r by lia. lia.
      * assert (2 * 2 ^ l * 2 ^ (- (l + e + 1)) = 2 ^ (- e)) by (rewrite <-Z.pow_succ_r, <-Z.pow_add_r by lia; f_equal; lia).
        assert (0 < 2 ^ (- (l + e + 1))) by (apply Z.pow_pos_nonneg; lia). nia.
Qed.

Lemma decimal_exponent_total : ∃ n, decimal_exponent m e = Some n ∧ -400 < n < 400 ∧ below_pow10 m e n = true ∧ below_pow10 m e (n - 1) = false.
Proof.
  destruct binary_exponent as (Hx & Hlo & Hhi). destruct num_den_pos as [Hnu Hde].
  unfold decimal_exponent. destruct (num_den m e) as [nu de] eqn:End. cbn [fst snd] in *. set (x := Z.log2 nu - Z.log2 de) in *.
  fold (estimate x). destruct (estimate_bounds x Hx) as [E1 E2]. set (est := estimate x) in *.
  assert (-330 < est < 330) as Hest by (unfold est, estimate; assert (-100000 * 330 < x * 30103 - 100000) by lia; pose proof (Z.div_mod (x * 30103) 100000); pose proof (Z.mod_pos_bound (x * 30103) 100000); lia).
  assert (below_pow10 m e (est - 2) = false) as B1.
  { rewrite below_ratio, End. apply negb_false_iff. eapply ratio_le_trans; [..|exact E1|exact Hlo]; apply power_pos || done; lia. }
  assert (below_pow10 m e (est + 2) = true) as B2.
  { destruct (below_pow10 m e (est + 2)) eqn:B; [done|]. exfalso. rewrite below_ratio, End in B. apply negb_false_iff in B.
    assert (ratio_le (power 2 (x + 1)) (nu, de) = true) as Hc by (eapply ratio_le_trans; [..|exact E2|exact B]; apply power_pos || done; lia).
    congruence. }
  cbn [find]. replace (est - 1 - 1) with (est - 2) by lia. rewrite B1. cbn [negb]. rewrite andb_true_r.
  destruct (below_pow10 m e (est - 1)) eqn:C1.
  { exists (est - 1). replace (est - 1 - 1) with (est - 2) by lia. split_and!; done || lia. }
  rewrite andb_true_r. destruct (below_pow10 m e est) eqn:C2.
  { exists est. split_and!; done || lia. }
  replace (est + 1 - 1) with est by lia. rewrite C2, andb_true_r. destruct (below_pow10 m e (est + 1)) eqn:C3.
  { exists (est + 1). replace (est + 1 - 1) with est by lia. split_and!; done || lia. }
  replace (est + 2 - 1) with (est + 1) by lia. rewrite C3, B2. exists (est + 2). replace (est + 2 - 1) with (est + 1) by lia. split_and!; done || lia.
Qed.
(** The closest seventeen digits, as they are scaled for the comparison. *)
Definition scaled (n : Z) : Z * Z :=
  let j := 17 - n in if 0 <=? j then ((num_den m e).1 * 10 ^ j, (num_den m e).2) else ((num_den m e).1, (num_den m e).2 * 10 ^ (- j)).

Lemma scaled_digits n : below_pow10 m e n = true → below_pow10 m e (n - 1) = false →
  0 < (scaled n).2 ∧ 10 ^ 16 * (scaled n).2 <= (scaled n).1 < 10 ^ 17 * (scaled n).2.
Proof.
  destruct num_den_pos as [Hnu Hde]. unfold below_pow10, scaled. destruct (num_den m e) as [nu de]. cbn [fst snd] in *. intros H1 H2.
  assert (∀ x, (if 0 <=? x then nu <? de * 10 ^ x else nu * 10 ^ (- x) <? de) = (nu * (power 10 x).2 <? de * (power 10 x).1)) as Hp.
  { intros x. unfold power. destruct (0 <=? x); cbn [fst snd]; f_equal; lia. }
  rewrite Hp in H1, H2. apply Z.ltb_lt in H1. apply Z.ltb_ge in H2. clear Hp.
  unfold power in H1, H2. destruct (0 <=? 17 - n) eqn:J; bool_to_prop; cbn [fst snd].
  - split; [done|]. destruct (0 <=? n) eqn:N1; bool_to_prop; cbn [fst snd] in H1.
    + assert (10 ^ 17 = 10 ^ n * 10 ^ (17 - n)) as -> by (rewrite <-Z.pow_add_r by lia; f_equal; lia).
      assert (0 < 10 ^ (17 - n)) by (apply Z.pow_pos_nonneg; lia). split; [|nia].
      destruct (0 <=? n - 1) eqn:N2; bool_to_prop; cbn [fst snd] in H2.
      * assert (10 ^ 16 = 10 ^ (n - 1) * 10 ^ (17 - n)) as -> by (rewrite <-Z.pow_add_r by lia; f_equal; lia). nia.
      * assert (n = 0) as -> by lia. change (10 ^ (17 - 0)) with (10 ^ 16 * 10) in *. change (10 ^ (- (0 - 1))) with 10 in *. nia.
    + assert (10 ^ (17 - n) = 10 ^ 17 * 10 ^ (- n)) as E by (rewrite <-Z.pow_add_r by lia; f_equal; lia). rewrite (proj2 (Z.leb_gt 0 (n - 1))) in H2 by lia.
      cbn [fst snd] in H2. assert (10 ^ (- (n - 1)) = 10 * 10 ^ (- n)) as E2 by (rewrite <-Z.pow_succ_r by lia; f_equal; lia).
      rewrite E2 in H2. rewrite E. change (10 ^ 17) with (10 * 10 ^ 16). set (c := 10 ^ (- n)) in *. set (k := 10 ^ 16) in *. assert (0 < k) by done. nia.
  - rewrite (proj2 (Z.leb_le 0 n)), (proj2 (Z.leb_le 0 (n - 1))) in * by lia. cbn [fst snd] in *.
    assert (10 ^ n = 10 ^ 17 * 10 ^ (- (17 - n))) as E1 by (rewrite <-Z.pow_add_r by lia; f_equal; lia).
    assert (10 ^ (n - 1) = 10 ^ 16 * 10 ^ (- (17 - n))) as E2 by (rewrite <-Z.pow_add_r by lia; f_equal; lia).
    rewrite E1 in H1. rewrite E2 in H2. assert (0 < 10 ^ (- (17 - n))) by (apply Z.pow_pos_nonneg; lia). nia.
Qed.

Lemma near_scale c N D : 0 < c → near m e (c * N, c * D) → near m e (N, D).
Proof.
  unfold near. cbn [fst snd]. destruct (num_den m e) as [nu de]. cbn [fst snd]. intros Hc H.
  replace (c * N * de - nu * (c * D)) with (c * (N * de - nu * D)) in H by ring. rewrite Z.abs_mul, (Z.abs_eq c) in H by lia. nia.
Qed.

(** Digits within half a unit of the scaled double are near it. *)
Lemma digits_near n w : 0 < (scaled n).2 → 10 ^ 16 * (scaled n).2 <= (scaled n).1 → 2 * Z.abs (Zpos w * (scaled n).2 - (scaled n).1) <= (scaled n).2 →
  near m e (decimal_ratio w (n - 17)).
Proof.
  unfold scaled, decimal_ratio, near. destruct (num_den m e) as [nu de]. cbn [fst snd]. intros H0 H1 H2.
  assert (∀ a N D, 0 < D → 10 ^ 16 * D <= N → 2 * Z.abs (a * D - N) <= D → 2 ^ 54 * Z.abs (a * D - N) < N) as Hn.
  { intros a N D HD HN Ha. change (2 ^ 54) with 18014398509481984. change (10 ^ 16) with 10000000000000000 in HN. lia. }
  destruct (0 <=? 17 - n) eqn:J; bool_to_prop; cbn [fst snd] in *.
  - destruct (0 <=? n - 17) eqn:K; bool_to_prop; cbn [fst snd].
    + assert (n = 17) as -> by lia. change (17 - 17) with 0 in *. rewrite Z.pow_0_r, !Z.mul_1_r in *. by apply Hn.
    + replace (- (n - 17)) with (17 - n) by lia. by apply Hn.
  - rewrite (proj2 (Z.leb_le 0 (n - 17))) by lia. cbn [fst snd]. replace (n - 17) with (- (17 - n)) by lia. rewrite !Z.mul_1_r.
    replace (Zpos w * 10 ^ (- (17 - n)) * de) with (Zpos w * (de * 10 ^ (- (17 - n)))) by ring. by apply Hn.
Qed.

(** The next power of ten, above [99..9]. *)
Lemma decimal_carry n p q : Zpos p = 10 ^ 16 → Zpos q = 10 ^ 17 → near m e (decimal_ratio q (n - 17)) → near m e (decimal_ratio p (n + 1 - 17)).
Proof.
  intros Hp Hq. unfold decimal_ratio. rewrite Hp, Hq. destruct (Z.lt_trichotomy n 16) as [H|[->|H]].
  - rewrite (proj2 (Z.leb_gt 0 (n - 17))), (proj2 (Z.leb_gt 0 (n + 1 - 17))) by lia. intros Hn. apply (near_scale 10); [done|].
    replace (10 * 10 ^ (- (n + 1 - 17))) with (10 ^ (- (n - 17))) by (rewrite <-Z.pow_succ_r by lia; f_equal; lia). exact Hn.
  - intros Hn. apply (near_scale 10); [done|]. exact Hn.
  - rewrite (proj2 (Z.leb_le 0 (n + 1 - 17))) by lia. destruct (Z.le_gt_cases 17 n) as [H17|]; [|lia].
    rewrite (proj2 (Z.leb_le 0 (n - 17))) by lia. replace (10 ^ 17 * 10 ^ (n - 17)) with (10 ^ 16 * 10 ^ (n + 1 - 17)); [done|].
    replace (n + 1 - 17) with (Z.succ (n - 17)) by lia. rewrite Z.pow_succ_r by lia. change (10 ^ 17) with (10 * 10 ^ 16). ring.
Qed.

(** The first candidate of seventeen digits reads as the double. *)
Lemma seventeen_digits neg n : -400 < n < 400 → below_pow10 m e n = true → below_pow10 m e (n - 1) = false →
  ∃ s n' rest, candidates m e n 17 = (s, n') :: rest ∧ number_value (format_number neg s 17 n') = Some (S754_finite neg m e).
Proof.
  intros Hn B1 B2. destruct (scaled_digits n B1 B2) as (Hd & Hlo & Hhi).
  assert (∀ s n', 10 ^ 16 <= s < 10 ^ 17 → n' = n ∨ n' = n + 1 → (∀ w, s = Zpos w → near m e (decimal_ratio w (n' - 17))) →
    number_value (format_number neg s 17 n') = Some (S754_finite neg m e)) as Hread.
  { intros s n' Hs Hn' Hw. rewrite format_reads; [|lia|lia|done]. change (Z.of_nat 17) with 17. destruct s as [|w|w]; [cbn in Hs; lia| |lia].
    unfold number_of_decimal. rewrite (decimal_near m e w (n' - 17) Hb) by (by apply Hw). by destruct neg. }
  unfold candidates. change (Z.of_nat 17) with 17. unfold scaled in Hd, Hlo, Hhi. destruct (num_den m e) as [nu de] eqn:End. cbn [fst snd] in Hd, Hlo, Hhi.
  assert (∃ nu' de', (if 0 <=? 17 - n then (nu * 10 ^ (17 - n), de) else (nu, de * 10 ^ (- (17 - n)))) = (nu', de') ∧ scaled n = (nu', de')) as (nu' & de' & E & Es).
  { unfold scaled. rewrite End. cbn [fst snd]. destruct (0 <=? 17 - n); by eexists _, _. }
  rewrite E in Hd, Hlo, Hhi |- *. cbn [fst snd] in Hd, Hlo, Hhi. set (lo := nu' / de').
  pose proof (Z.div_mod nu' de' ltac:(lia)) as Hdm. pose proof (Z.mod_pos_bound nu' de' Hd) as Hmod. fold lo in Hdm.
  assert (10 ^ 16 <= lo < 10 ^ 17) as Hlo' by (split; [apply Z.div_le_lower_bound; lia|apply Z.div_lt_upper_bound; lia]).
  destruct ((2 * (nu' - lo * de') <? de') || ((2 * (nu' - lo * de') =? de') && Z.even lo)) eqn:C.
  - eexists _, _, _. split; [done|]. apply Hread; [done|by left|]. intros w Hw. apply digits_near; rewrite Es; cbn [fst snd]; [done|done|].
    rewrite <-Hw. apply orb_true_iff in C as [C|C]; bool_to_prop; nia.
  - assert (de' <= 2 * (nu' - lo * de')) as Hup by (apply orb_false_iff in C as [C _]; bool_to_prop; lia).
    assert (∀ w, lo + 1 = Zpos w → near m e (decimal_ratio w (n - 17))) as Hnear.
    { intros w Hw. apply digits_near; rewrite Es; cbn [fst snd]; [done|done|]. rewrite <-Hw. nia. }
    destruct (lo + 1 <? 10 ^ 17) eqn:L; bool_to_prop; (eexists _, _, _; split; [done|]).
    + apply Hread; [lia|by left|done].
    + change (10 ^ (17 - 1)) with (10 ^ 16). apply Hread; [split; [lia|done]|by right|]. intros w Hw.
      assert (lo + 1 = 10 ^ 17) as El by lia. apply (decimal_carry n w 100000000000000000); [done|done|]. by apply Hnear.
Qed.

Lemma shortest_total neg n : ∀ more k i, (i <= more)%nat →
  (∃ s n' rest, candidates m e n (k + i) = (s, n') :: rest ∧ number_value (format_number neg s (k + i) n') = Some (S754_finite neg m e)) →
  is_Some (shortest neg m e n k more).
Proof.
  induction more as [|more IH]; intros k i Hi (s & n' & rest & Hc & Hv); cbn [shortest];
    destruct (find _ _) as [t|] eqn:F; try (by eexists).
  - assert (i = 0)%nat as -> by lia. rewrite Nat.add_0_r in Hc, Hv. rewrite Hc in F. cbn [fmap list_fmap find fst snd] in F. by rewrite bool_decide_eq_true_2 in F.
  - destruct i as [|i].
    + rewrite Nat.add_0_r in Hc, Hv. rewrite Hc in F. cbn [fmap list_fmap find fst snd] in F. by rewrite bool_decide_eq_true_2 in F.
    + apply (IH (S k) i); [lia|]. replace (S k + i)%nat with (k + S i)%nat by lia. by exists s, n', rest.
Qed.
End Doubles.

(** Every finite double has a text. *)
Theorem number_text_total f : is_finite_number f = true → valid_binary prec emax f = true → is_Some (number_text f).
Proof.
  destruct f as [b|b| |neg m e]; try done. intros _ Hb. cbn [number_text valid_binary] in *.
  destruct (decimal_exponent_total m e Hb) as (n & -> & Hn & B1 & B2). cbn [mbind option_bind].
  apply (shortest_total m e neg n 16 1 16); [lia|]. by apply seventeen_digits.
Qed.
