(* ===== verification/CanonicalJson.v ===== *)
(** * Canonical JSON (packages/protocol/src/common/canonical-json.ts)

    The recursive encoder shared by [canonicalJsonText] and [canonicalIdentifierName], and what makes
    its text usable as an identity: it parses back to the canonical form of the value, and two values
    have the same text exactly when they have the same canonical form. *)

From Stdlib Require Import SpecFloat.
From S2P Require Import Prelude JsValue NumberText.

Local Open Scope string_scope.
Local Open Scope list_scope.
Local Open Scope Z_scope.

(** ** The encoder *)

(** The three [TypeError]s the encoder distinguishes by message. *)
Inductive CanonicalError := InvalidUnicode | NotFiniteJson | NotPlain.

Definition hex_digit (d : Z) : Z := if d <? 10 then 48 + d else 87 + d.

(** [JSON.stringify] of one code unit of a well-formed string. *)
Definition escape_unit (c : Z) : jsstr :=
  if (c =? QUOTE) || (c =? BACKSLASH) then [BACKSLASH; c]
  else if c =? 8 then [BACKSLASH; cu "b"]
  else if c =? 12 then [BACKSLASH; cu "f"]
  else if c =? 10 then [BACKSLASH; cu "n"]
  else if c =? 13 then [BACKSLASH; cu "r"]
  else if c =? 9 then [BACKSLASH; cu "t"]
  else if c <? 32 then [BACKSLASH; cu "u"; 48; 48; hex_digit (c / 16); hex_digit (c mod 16)]
  else [c].

Definition quote_string (s : jsstr) : jsstr := [QUOTE] ++ flat_map escape_unit s ++ [QUOTE].

Definition encode_string (s : jsstr) : result CanonicalError jsstr :=
  if has_lone_surrogate s then Err InvalidUnicode else Ok (quote_string s).

(** [entries.join(sep)] *)
Definition join {A} (sep : list A) (parts : list (list A)) : list A :=
  match parts with
  | [] => []
  | p :: ps => p ++ flat_map (λ q, sep ++ q) ps
  end.

(** A member with its key, whether its value is [undefined], and the encoding of the value. *)
Definition encoded_member : Type := jsstr * bool * result CanonicalError jsstr.

Definition member_cmp (a b : encoded_member) : Z := str_cmp a.1.1 b.1.1.

(** The loop over the sorted keys. *)
Fixpoint encode_members (omitUndefinedMembers : bool) (ms : list encoded_member)
    : result CanonicalError (list jsstr) :=
  match ms with
  | [] => Ok []
  | (key, undefined, member) :: ms =>
    encodedKey ← encode_string key;
    if undefined && omitUndefinedMembers then encode_members omitUndefinedMembers ms
    else
      text ← member;
      entries ← encode_members omitUndefinedMembers ms;
      Ok ((encodedKey ++ js ":" ++ text) :: entries)
  end.

Definition is_undefined (v : jsval) : bool := match v with JUndef => true | _ => false end.

Section EncodeList.
Context (encode : jsval → result CanonicalError jsstr).

Fixpoint encode_list (l : list jsval) : result CanonicalError (list jsstr) :=
  match l with
  | [] => Ok []
  | v :: l => t ← encode v; ts ← encode_list l; Ok (t :: ts)
  end.
End EncodeList.

Fixpoint encode (omitUndefinedMembers : bool) (value : jsval) : result CanonicalError jsstr :=
  match value with
  | JNull => Ok (js "null")
  | JStr s => encode_string s
  | JBool b => Ok (if b then js "true" else js "false")
  | JNum f =>
    match number_text f with
    | Some t => Ok t
    | None => Err NotFiniteJson
    end
  | JUndef => Err NotFiniteJson
  | JExotic => Err NotPlain
  | JArr l =>
    entries ← encode_list (encode omitUndefinedMembers) l;
    Ok (js "[" ++ join (js ",") entries ++ js "]")
  | JObj ms =>
    entries ← encode_members omitUndefinedMembers
      (js_sort member_cmp ((λ kv, (kv.1, is_undefined kv.2, encode omitUndefinedMembers kv.2)) <$> ms));
    Ok (js "{" ++ join (js ",") entries ++ js "}")
  end.

Definition canonicalJsonText (value : jsval) : result CanonicalError jsstr := encode true value.
Definition canonicalIdentifierName (name : jsval) : result CanonicalError jsstr := encode false name.

(** ** Canonical forms *)

Definition key_cmp (a b : jsstr * jsval) : Z := str_cmp a.1 b.1.

Definition keep_defined (kv : jsstr * jsval) : bool := negb (is_undefined kv.2).

(** Sorted keys, no [undefined] members, positive zero. *)
Fixpoint canon (v : jsval) : jsval :=
  match v with
  | JNum (S754_zero _) => JNum (S754_zero false)
  | JArr l => JArr (canon <$> l)
  | JObj ms => JObj (filterb keep_defined (js_sort key_cmp ((λ kv, (kv.1, canon kv.2)) <$> ms)))
  | _ => v
  end.

Definition wf_str (s : jsstr) : Prop := Forall (λ c, 0 <= c < 65536) s.

(** Values as the language has them: units in range, one member per key. *)
Inductive wf_value : jsval → Prop :=
| wf_undef : wf_value JUndef
| wf_exotic : wf_value JExotic
| wf_null : wf_value JNull
| wf_bool b : wf_value (JBool b)
| wf_num f : wf_value (JNum f)
| wf_string s : wf_str s → wf_value (JStr s)
| wf_arr l : Forall wf_value l → wf_value (JArr l)
| wf_obj ms :
    NoDup ms.*1 → Forall (λ kv, wf_str kv.1 ∧ wf_value kv.2) ms → wf_value (JObj ms).

(** ** The order of strings *)

Lemma str_cmp_refl a : str_cmp a a = 0.
Proof. induction a as [|x a IH]; cbn; [done|]. by rewrite Z.ltb_irrefl. Qed.

Lemma str_cmp_eq a b : str_cmp a b = 0 → a = b.
Proof.
  revert b. induction a as [|x a IH]; intros [|y b]; cbn; try done.
  destruct (x <? y) eqn:E1; [done|]. destruct (y <? x) eqn:E2; [done|]. bool_to_prop.
  intros H%IH. f_equal; [lia|done].
Qed.

Lemma str_cmp_antisym a b : str_cmp a b <= 0 ↔ 0 <= str_cmp b a.
Proof.
  revert b. induction a as [|x a IH]; intros [|y b]; cbn; try lia.
  destruct (x <? y) eqn:E1, (y <? x) eqn:E2; bool_to_prop; try lia. apply IH.
Qed.

Lemma str_cmp_trans a b c : str_cmp a b <= 0 → str_cmp b c <= 0 → str_cmp a c <= 0.
Proof.
  revert b c. induction a as [|x a IH]; intros [|y b] [|z c]; cbn; try lia.
  destruct (x <? y) eqn:E1, (y <? x) eqn:E2, (y <? z) eqn:E3, (z <? y) eqn:E4,
    (x <? z) eqn:E5, (z <? x) eqn:E6; bool_to_prop; try lia.
  apply IH.
Qed.

Section KeyedSort.
Context {A : Type} (key : A → jsstr).

Definition keyed_cmp (a b : A) : Z := str_cmp (key a) (key b).

Lemma keyed_total a b : cmp_le keyed_cmp a b ∨ cmp_le keyed_cmp b a.
Proof.
  unfold cmp_le, keyed_cmp. destruct (Z_le_gt_dec (str_cmp (key a) (key b)) 0); [by left|].
  right. apply str_cmp_antisym. lia.
Qed.

Lemma keyed_trans : Transitive (cmp_le keyed_cmp).
Proof. intros a b c. apply str_cmp_trans. Qed.

Lemma keyed_sorted l : StronglySorted (cmp_le keyed_cmp) (js_sort keyed_cmp l).
Proof. apply js_sort_sorted; [apply keyed_total|apply keyed_trans]. Qed.

(** Sorted lists with the same elements and distinct keys are equal. *)
Lemma keyed_sorted_unique l1 l2 :
  NoDup (key <$> l1) → l1 ≡ₚ l2 →
  StronglySorted (cmp_le keyed_cmp) l1 → StronglySorted (cmp_le keyed_cmp) l2 → l1 = l2.
Proof.
  intros Hnd Hp Hs1 Hs2. apply (StronglySorted_unique_strong (cmp_le keyed_cmp)); try done.
  intros x y Hx Hy Hxy Hyx. rewrite <-Hp in Hy.
  assert (Hk : key x = key y).
  { apply str_cmp_eq. unfold cmp_le, keyed_cmp in *. apply str_cmp_antisym in Hyx. lia. }
  apply list_elem_of_lookup in Hx as [i Hi], Hy as [j Hj].
  assert (i = j).
  { eapply NoDup_lookup; [exact Hnd|rewrite list_lookup_fmap, Hi; done|].
    rewrite list_lookup_fmap, Hj. cbn. by rewrite Hk. }
  congruence.
Qed.
End KeyedSort.

Lemma filterb_sorted {A} (R : A → A → Prop) p (l : list A) :
  StronglySorted R l → StronglySorted R (filterb p l).
Proof.
  induction 1 as [|x l Hs IH Hall]; cbn; [constructor|]. destruct (p x); [|done].
  constructor; [done|]. apply Forall_forall. intros y [Hy _]%elem_of_filterb.
  by eapply Forall_forall in Hall.
Qed.

Lemma filterb_sublist {A} (p : A → bool) (l : list A) : sublist (filterb p l) l.
Proof. induction l; cbn; [constructor|]. destruct (p _); by constructor. Qed.

Lemma filterb_Forall {A} (P : A → Prop) p (l : list A) : Forall P l → Forall P (filterb p l).
Proof. induction 1; cbn; [constructor|]. destruct (p _); [by constructor|done]. Qed.

(** A projection that carries the key commutes with the sort. *)
Lemma js_sort_fmap {A B} (f : A → B) (cmpA : A → A → Z) (cmpB : B → B → Z) l :
  (∀ x y, cmpA x y = cmpB (f x) (f y)) → f <$> js_sort cmpA l = js_sort cmpB (f <$> l).
Proof.
  intros Hf. induction l as [|x l IH]; [done|].
  change (js_sort cmpA (x :: l)) with (insert_stable cmpA x (js_sort cmpA l)).
  change (f <$> x :: l) with (f x :: (f <$> l)).
  change (js_sort cmpB (f x :: (f <$> l))) with (insert_stable cmpB (f x) (js_sort cmpB (f <$> l))).
  rewrite <-IH. generalize (js_sort cmpA l) as k. induction k as [|y k IHk]; [done|]. cbn.
  rewrite Hf. destruct (_ <=? 0); [done|]. cbn. by rewrite IHk.
Qed.

(** ** Number texts *)

Lemma span_spec p s : s = (span p s).1 ++ (span p s).2 ∧ Forall (λ c, p c = true) (span p s).1.
Proof.
  induction s as [|c s [IH1 IH2]]; cbn; [done|]. destruct (p c) eqn:E; [|done].
  destruct (span p s) as [a b]; cbn in *. split; [by rewrite IH1|by constructor].
Qed.

Lemma digit_number_char c : is_digit c = true → is_number_char c = true.
Proof. intros H. unfold is_number_char. by rewrite H. Qed.

Lemma span_digits s a b :
  span is_digit s = (a, b) → s = a ++ b ∧ Forall (λ c, is_number_char c = true) a.
Proof.
  intros E. destruct (span_spec is_digit s) as [H1 H2]. rewrite E in H1, H2. split; [done|].
  eapply Forall_impl; [exact H2|]. intros c. apply digit_number_char.
Qed.

Lemma read_int_spec s a b :
  read_int s = Some (a, b) →
  s = a ++ b ∧ Forall (λ c, is_number_char c = true) a ∧ ∃ c r, a = c :: r ∧ is_digit c = true.
Proof.
  unfold read_int. destruct s as [|c r]; [done|]. destruct (c =? 48) eqn:E.
  - intros [= <- <-]. apply Z.eqb_eq in E as ->. split; [done|]. split; [by repeat constructor|by exists 48, []].
  - destruct (is_digit c) eqn:D; [|done]. intros [= H]. cbn in H. rewrite D in H.
    destruct (span is_digit r) as [x y] eqn:Es. injection H as <- <-.
    apply span_digits in Es as [-> Hx]. split; [done|].
    split; [constructor; [by apply digit_number_char|done]|by exists c, x].
Qed.

Lemma read_frac_spec s a b :
  read_frac s = Some (a, b) → ∃ t, s = t ++ b ∧ Forall (λ c, is_number_char c = true) t.
Proof.
  unfold read_frac. destruct s as [|c r]; [intros [= <- <-]; by exists []|].
  destruct (c =? cu ".") eqn:E; [|intros [= <- <-]; by exists []].
  destruct (span is_digit r) as [x y] eqn:Es. apply span_digits in Es as [-> Hx].
  destruct x as [|d x]; [done|]. intros [= <- <-]. exists (c :: d :: x). split; [done|].
  constructor; [|done]. unfold is_number_char. rewrite E. by rewrite orb_true_r.
Qed.

Lemma read_exp_spec s z b :
  read_exp s = Some (z, b) → ∃ t, s = t ++ b ∧ Forall (λ c, is_number_char c = true) t.
Proof.
  unfold read_exp. destruct s as [|c r]; [intros [= <- <-]; by exists []|].
  destruct (_ || _) eqn:E; [|intros [= <- <-]; by exists []].
  assert (Hc : is_number_char c = true).
  { unfold is_number_char. apply orb_true_iff in E as [->| ->]; by rewrite ?orb_true_r. }
  set (q := match r with [] => _ | _ => _ end).
  assert (Hq : ∃ t, r = t ++ q.2 ∧ Forall (λ c, is_number_char c = true) t).
  { subst q. destruct r as [|d r]; [by exists []|].
    destruct (d =? cu "-") eqn:Ed; [|destruct (d =? cu "+") eqn:Ed'].
    - exists [d]. split; [done|]. repeat constructor. unfold is_number_char. by rewrite Ed, orb_true_r.
    - exists [d]. split; [done|]. repeat constructor. unfold is_number_char. by rewrite Ed', !orb_true_r.
    - by exists []. }
  destruct q as [neg r'], Hq as (t & -> & Ht). cbn.
  destruct (span is_digit r') as [x y] eqn:Es. apply span_digits in Es as [-> Hx].
  destruct x as [|d x]; [done|]. intros [= _ <-]. exists (c :: t ++ d :: x). cbn.
  split; [by rewrite <-app_assoc|]. constructor; [done|]. by apply Forall_app.
Qed.

(** A text with a Number value starts like a number and has only number characters. *)
Lemma number_value_chars s f :
  number_value s = Some f →
  Forall (λ c, is_number_char c = true) s ∧
  ∃ c r, s = c :: r ∧ ((c =? cu "-") || is_digit c) = true.
Proof.
  unfold number_value. destruct (read_sign s) as [neg s1] eqn:Es.
  intros ([a s2] & Hi & H)%bind_Some. apply bind_Some in H as ([b s3] & Hf & H).
  apply bind_Some in H as ([z s4] & He & H). destruct s4; [|done].
  apply read_int_spec in Hi as (-> & Ha & d & r & -> & Hd).
  apply read_frac_spec in Hf as (tf & -> & Hf). apply read_exp_spec in He as (te & -> & He).
  rewrite app_nil_r in *.
  assert (Hall : Forall (λ c, is_number_char c = true) ((d :: r) ++ tf ++ te)).
  { by rewrite !Forall_app. }
  destruct s as [|c s]; [done|]. cbn in Es. destruct (c =? cu "-") eqn:Ec.
  - injection Es as <- ->. split; [|by exists c, ((d :: r) ++ tf ++ te); rewrite Ec].
    constructor; [|done]. unfold is_number_char. by rewrite Ec, orb_true_r.
  - assert (c :: s = (d :: r) ++ tf ++ te) as -> by (apply (f_equal snd) in Es; exact Es). split; [done|].
    exists d, (r ++ tf ++ te). split; [done|]. by rewrite Hd, orb_true_r.
Qed.

Definition canon_number (f : spec_float) : spec_float :=
  match f with S754_zero _ => S754_zero false | _ => f end.

Lemma shortest_value neg m e n k more t :
  shortest neg m e n k more = Some t → number_value t = Some (S754_finite neg m e).
Proof.
  revert k. induction more as [|more IH]; intros k; cbn;
    destruct (find _ _) as [u|] eqn:E; try done; try apply IH;
    intros [= <-]; apply find_Some in E as [_ E]; by apply bool_decide_eq_true in E.
Qed.

Lemma number_text_value f t :
  number_text f = Some t → number_value t = Some (canon_number f).
Proof.
  destruct f as [b|b| |neg m e]; cbn -[shortest decimal_exponent]; try done.
  - intros [= <-]. reflexivity.
  - intros (n & _ & H)%bind_Some. by apply shortest_value in H.
Qed.

(** ** Lexing encoded texts *)

(** What may follow a value in an encoded text. *)
Definition delimiter (s : jsstr) : Prop :=
  match s with
  | [] => True
  | c :: _ => is_number_char c = false ∧ is_lower c = false
  end.

Lemma lex_num_acc acc s rest :
  Forall (λ c, is_number_char c = true) s →
  lex (LNum acc) (s ++ rest) = lex (LNum (rev s ++ acc)) rest.
Proof.
  revert acc. induction s as [|c s IH]; intros acc; [done|]. intros [Hc Hs]%Forall_cons. cbn.
  rewrite Hc. cbn. rewrite IH by done. rewrite <-app_assoc. cbn.
  by destruct (lex _ rest).
Qed.

Lemma lex_after_number acc f rest :
  number_value (rev acc) = Some f → delimiter rest →
  lex (LNum acc) rest = (λ ts, TNum f :: ts) <$> lex LStart rest.
Proof.
  intros Hf Hd. destruct rest as [|c rest]; cbn; [by rewrite Hf|]. destruct Hd as [Hn _].
  rewrite Hn. cbn. rewrite Hf. cbn. destruct (lex_start c) as [[ts st]|]; [|done]. cbn.
  by destruct (lex st rest).
Qed.

Lemma lex_number t f rest :
  number_value t = Some f → delimiter rest →
  lex LStart (t ++ rest) = (λ ts, TNum f :: ts) <$> lex LStart rest.
Proof.
  intros Hf Hd. destruct (number_value_chars t f Hf) as (Hall & c & r & -> & Hc).
  apply Forall_cons in Hall as [_ Hall]. rewrite <-app_comm_cons. cbn [lex lex_step].
  assert (Hs : lex_start c = Some ([], LNum [c])).
  { unfold lex_start. rewrite Hc. apply orb_true_iff in Hc as [->%Z.eqb_eq|Hc]; [done|].
    unfold is_digit, in_range in Hc. bool_to_prop.
    unfold is_json_space, QUOTE. rewrite !(proj2 (Z.eqb_neq _ _)) by (unfold cu; cbn; lia). done. }
  rewrite Hs. cbn [mbind option_bind]. rewrite lex_num_acc by done.
  rewrite (lex_after_number _ f); [|by rewrite rev_app_distr, rev_involutive|done].
  cbn. by destruct (lex LStart rest).
Qed.

Lemma lex_after_word acc t rest :
  word_token (rev acc) = Some t → delimiter rest →
  lex (LWord acc) rest = (λ ts, t :: ts) <$> lex LStart rest.
Proof.
  intros Hf Hd. destruct rest as [|c rest]; cbn; [by rewrite Hf|]. destruct Hd as [_ Hn].
  rewrite Hn. cbn. rewrite Hf. cbn. destruct (lex_start c) as [[ts st]|]; [|done]. cbn.
  by destruct (lex st rest).
Qed.

Lemma lex_word_acc acc s rest :
  Forall (λ c, is_lower c = true) s → lex (LWord acc) (s ++ rest) = lex (LWord (rev s ++ acc)) rest.
Proof.
  revert acc. induction s as [|c s IH]; intros acc; [done|]. intros [Hc Hs]%Forall_cons. cbn.
  rewrite Hc. cbn. rewrite IH by done. rewrite <-app_assoc. cbn. by destruct (lex _ rest).
Qed.

Lemma lex_word w t rest :
  w ∈ [js "true"; js "false"; js "null"] → word_token w = Some t → delimiter rest →
  lex LStart (w ++ rest) = (λ ts, t :: ts) <$> lex LStart rest.
Proof.
  intros Hw Ht Hd.
  assert (∃ c r, w = c :: r ∧ lex_start c = Some ([], LWord [c]) ∧
                 Forall (λ c, is_lower c = true) r) as (c & r & -> & Hs & Hr).
  { rewrite !elem_of_cons, elem_of_nil in Hw. destruct Hw as [->|[->|[->|[]]]];
      eexists _, _; (split; [reflexivity|]); (split; [reflexivity|]); by repeat constructor. }
  rewrite <-app_comm_cons. cbn [lex lex_step]. rewrite Hs. cbn [mbind option_bind].
  rewrite lex_word_acc by done.
  rewrite (lex_after_word _ t); [|by rewrite rev_app_distr, rev_involutive|done].
  cbn. by destruct (lex LStart rest).
Qed.

Lemma lex_silent st c st' rest :
  lex_step st c = Some ([], st') → lex st (c :: rest) = lex st' rest.
Proof. intros H. cbn [lex]. rewrite H. cbn. by destruct (lex st' rest). Qed.

(** Strings: every escape is undone. *)
Lemma lex_escape acc c rest :
  0 <= c < 65536 → lex (LStr acc) (escape_unit c ++ rest) = lex (LStr (c :: acc)) rest.
Proof.
  intros Hc. unfold escape_unit, QUOTE, BACKSLASH.
  destruct (_ || _) eqn:E1.
  { apply orb_true_iff in E1 as [->%Z.eqb_eq| ->%Z.eqb_eq]; cbn [app]; by do 2 erewrite lex_silent by reflexivity. }
  apply orb_false_iff in E1 as [Eq%Z.eqb_neq Eb%Z.eqb_neq].
  do 5 (destruct (c =? _) eqn:E; [apply Z.eqb_eq in E as ->; cbn [app];
    by do 2 erewrite lex_silent by reflexivity|clear E]).
  destruct (c <? 32) eqn:E; bool_to_prop.
  - assert (Hex : ∀ d, 0 <= d < 16 → hex_value (hex_digit d) = Some d).
    { intros d Hd. unfold hex_digit, hex_value, is_digit, in_range. destruct (d <? 10) eqn:Ed; bool_to_prop.
      - rewrite !(proj2 (Z.leb_le _ _)) by lia. cbn. f_equal. lia.
      - rewrite (proj2 (Z.leb_le 48 _)), (proj2 (Z.leb_gt _ 57)) by lia. cbn.
        rewrite !(proj2 (Z.leb_le _ _)) by lia. cbn. f_equal. lia. }
    assert (Hq : 0 <= c / 16 < 16 ∧ 0 <= c mod 16 < 16) by (Z.to_euclidean_division_equations; lia).
    cbn [app].
    rewrite (lex_silent _ _ (LEsc acc)), (lex_silent _ _ (LUni acc 4 0)),
      (lex_silent _ _ (LUni acc 3 0)), (lex_silent _ _ (LUni acc 2 0)) by reflexivity.
    rewrite (lex_silent _ _ (LUni acc 1 (c / 16))); [|cbn [lex_step]; rewrite Hex by lia; reflexivity].
    apply lex_silent. cbn [lex_step]. rewrite Hex by lia. cbn [mbind option_bind].
    do 4 f_equal. Z.to_euclidean_division_equations; lia.
  - apply lex_silent. cbn [lex_step]. unfold QUOTE, BACKSLASH.
    by rewrite !(proj2 (Z.eqb_neq _ _)), (proj2 (Z.ltb_ge _ _)) by done.
Qed.

Lemma lex_string s rest :
  wf_str s → lex LStart (quote_string s ++ rest) = (λ ts, TStr s :: ts) <$> lex LStart rest.
Proof.
  intros Hs. unfold quote_string. rewrite <-!app_assoc.
  assert (H : ∀ acc, lex (LStr acc) (flat_map escape_unit s ++ [QUOTE] ++ rest)
                     = (λ ts, TStr (rev acc ++ s) :: ts) <$> lex LStart rest).
  { induction Hs as [|c s Hc Hs IH]; intros acc; cbn [flat_map].
    - cbn. rewrite app_nil_r. by destruct (lex LStart rest).
    - rewrite <-app_assoc, lex_escape, IH by done. cbn. by rewrite <-app_assoc. }
  change ([QUOTE] ++ ?s) with (QUOTE :: s) at 1.
  rewrite (lex_silent _ _ (LStr [])) by reflexivity. apply H.
Qed.

Lemma lex_punctuation c t rest :
  lex_start c = Some ([t], LStart) → lex LStart (c :: rest) = (λ ts, t :: ts) <$> lex LStart rest.
Proof. intros H. cbn. rewrite H. cbn. by destruct (lex LStart rest). Qed.

(** ** Parsing encoded tokens *)

Fixpoint toks (v : jsval) : list token :=
  match v with
  | JUndef | JExotic => []
  | JNull => [TNull]
  | JBool b => [if b then TTrue else TFalse]
  | JNum f => [TNum f]
  | JStr s => [TStr s]
  | JArr l => TLBracket :: join [TComma] (toks <$> l) ++ [TRBracket]
  | JObj ms =>
    TLBrace :: join [TComma] ((λ kv, TStr kv.1 :: TColon :: toks kv.2) <$> ms) ++ [TRBrace]
  end.

(** JSON values: no [undefined], one member per key. *)
Inductive plain : jsval → Prop :=
| plain_null : plain JNull
| plain_bool b : plain (JBool b)
| plain_num f : plain (JNum f)
| plain_str s : plain (JStr s)
| plain_arr l : Forall plain l → plain (JArr l)
| plain_obj ms : NoDup ms.*1 → Forall (λ kv, plain kv.2) ms → plain (JObj ms).

Definition parses (v : jsval) : Prop :=
  ∀ stack m rest, m = MValue ∨ m = MFirstElem →
  parse_tokens (stack, m) (toks v ++ rest) = st ← deliver stack v; parse_tokens st rest.

Lemma put_member_fresh {A} k (v : A) ms : k ∉ ms.*1 → put_member k v ms = ms ++ [(k, v)].
Proof.
  induction ms as [|[k' v'] ms IH]; cbn; [done|]. rewrite not_elem_of_cons. intros [Hk Hn].
  rewrite bool_decide_eq_false_2 by congruence. by rewrite IH.
Qed.

Lemma parse_elems stack rest l acc :
  Forall parses l →
  parse_tokens (FArr acc :: stack, MAfter)
    (flat_map (λ q, [TComma] ++ q) (toks <$> l) ++ TRBracket :: rest)
  = st ← deliver stack (JArr (rev acc ++ l)); parse_tokens st rest.
Proof.
  intros Hl. revert acc. induction Hl as [|v l Hv Hl IH]; intros acc.
  - cbn. by rewrite app_nil_r.
  - rewrite fmap_cons. cbn [flat_map]. rewrite <-!app_assoc. cbn [app parse_tokens parse_step].
    cbn [mbind option_bind]. rewrite (Hv (FArr acc :: stack) MValue) by auto.
    cbn [deliver mbind option_bind]. rewrite IH. cbn. by rewrite <-app_assoc.
Qed.

Lemma parse_members stack rest ms acc :
  NoDup (acc.*1 ++ ms.*1) → Forall (λ kv, parses kv.2) ms →
  parse_tokens (FObj acc :: stack, MAfter)
    (flat_map (λ q, [TComma] ++ q) ((λ kv, TStr kv.1 :: TColon :: toks kv.2) <$> ms)
     ++ TRBrace :: rest)
  = st ← deliver stack (JObj (acc ++ ms)); parse_tokens st rest.
Proof.
  intros Hnd Hms. revert acc Hnd. induction Hms as [|[k v] ms Hv Hms IH]; intros acc Hnd.
  - cbn. by rewrite app_nil_r.
  - rewrite fmap_cons. cbn [flat_map]. rewrite <-!app_assoc. cbn -[parse_tokens toks flat_map].
    cbn [parse_tokens parse_step mbind option_bind].
    rewrite (Hv (FKey acc k :: stack) MValue) by auto. cbn [deliver mbind option_bind].
    assert (k ∉ acc.*1).
    { intros Hk. apply NoDup_app in Hnd as (_ & Hd & _). apply (Hd k Hk). left. }
    rewrite put_member_fresh, IH by (rewrite ?fmap_app, <-?app_assoc; done).
    by rewrite <-app_assoc.
Qed.

Lemma plain_parses v : plain v → parses v.
Proof.
  induction v as [| | |b| | |l IH|ms IH] using jsval_rect'; inversion 1 as [| | | |? Hl|? Hnd Hms];
    subst; intros stack m rest Hm; try (by destruct Hm as [-> | ->]).
  - destruct b; by destruct Hm as [-> | ->].
  - assert (Hp : Forall parses l).
    { apply Forall_forall. intros v Hv. rewrite !Forall_forall in *. auto. }
    assert (Hs : parse_tokens (stack, m) (toks (JArr l) ++ rest) =
                 parse_tokens (FArr [] :: stack, MFirstElem)
                   (join [TComma] (toks <$> l) ++ TRBracket :: rest)).
    { cbn [toks app]. rewrite <-app_assoc. by destruct Hm as [-> | ->]. }
    rewrite Hs. destruct Hp as [|v l Hv Hl']; [done|]. rewrite fmap_cons. cbn [join].
    rewrite <-app_assoc, (Hv (FArr [] :: stack) MFirstElem) by auto.
    cbn [deliver mbind option_bind]. by rewrite parse_elems.
  - assert (Hp : Forall (λ kv, parses kv.2) ms).
    { apply Forall_forall. intros v Hv. rewrite !Forall_forall in *. auto. }
    assert (Hs : parse_tokens (stack, m) (toks (JObj ms) ++ rest) =
                 parse_tokens (FObj [] :: stack, MFirstKey)
                   (join [TComma] ((λ kv, TStr kv.1 :: TColon :: toks kv.2) <$> ms)
                    ++ TRBrace :: rest)).
    { cbn [toks app]. rewrite <-app_assoc. by destruct Hm as [-> | ->]. }
    rewrite Hs. destruct Hp as [|[k v] ms Hv Hl']; [done|]. rewrite fmap_cons. cbn [join].
    rewrite <-app_assoc. cbn [app fst snd]. cbn [parse_tokens parse_step mbind option_bind].
    rewrite (Hv (FKey [] k :: stack) MValue) by auto.
    cbn [deliver mbind option_bind put_member]. by rewrite parse_members.
Qed.

(** ** Encoded texts are read back *)

Definition lexes (t : jsstr) (ts : list token) : Prop :=
  ∀ rest, delimiter rest → lex LStart (t ++ rest) = (λ r, ts ++ r) <$> lex LStart rest.

Lemma lexes_app t1 ts1 t2 ts2 :
  lexes t1 ts1 → lexes t2 ts2 → (∀ rest, delimiter rest → delimiter (t2 ++ rest)) →
  lexes (t1 ++ t2) (ts1 ++ ts2).
Proof.
  intros H1 H2 Hd rest Hr. rewrite <-app_assoc, H1, H2 by auto.
  destruct (lex LStart rest); cbn; [|done]. by rewrite <-app_assoc.
Qed.

(** Punctuation may be followed by anything. *)
Lemma lexes_cons c t ts tk :
  lex_start c = Some ([tk], LStart) → lexes t ts → lexes (c :: t) (tk :: ts).
Proof.
  intros Hc Ht rest Hr. rewrite <-app_comm_cons, (lex_punctuation _ tk), Ht by done.
  by destruct (lex LStart rest).
Qed.

Lemma lexes_nil : lexes [] [].
Proof. intros rest _. cbn. by destruct (lex LStart rest). Qed.

Lemma lexes_join texts tss :
  Forall2 lexes texts tss → lexes (join (js ",") texts) (join [TComma] tss).
Proof.
  intros Hf. destruct Hf as [|t ts texts tss Ht Hf]; [apply lexes_nil|]. cbn [join].
  assert (Hd : ∀ l rest, delimiter rest → delimiter (flat_map (λ q, js "," ++ q) l ++ rest)).
  { intros [|] rest Hr; [done|]. cbn. done. }
  apply lexes_app; [done| |apply Hd]. clear Ht.
  induction Hf as [|u us texts tss Hu Hf IH]; cbn [flat_map]; [apply lexes_nil|].
  apply lexes_app; [|done|apply Hd]. by apply lexes_cons.
Qed.

Lemma lexes_enclosed c d tc td t ts :
  lex_start c = Some ([tc], LStart) → lex_start d = Some ([td], LStart) → delimiter [d] →
  lexes t ts → lexes ([c] ++ t ++ [d]) (tc :: ts ++ [td]).
Proof.
  intros Hc Hd Hdel Ht. apply lexes_cons; [done|]. apply lexes_app; [done| |done].
  apply lexes_cons; [done|]. apply lexes_nil.
Qed.

Lemma encode_string_Ok s t : encode_string s = Ok t → t = quote_string s.
Proof. unfold encode_string. destruct (has_lone_surrogate s); congruence. Qed.

Lemma canon_undefined v : is_undefined (canon v) = is_undefined v.
Proof. by destruct v as [| | | |[]| | |]. Qed.

(** What the induction establishes of one value. *)
Definition read_back (omit : bool) (v : jsval) : Prop :=
  ∀ t, encode omit v = Ok t → plain (canon v) ∧ lexes t (toks (canon v)).

Lemma encode_list_read_back omit l ts :
  Forall (read_back omit) l → encode_list (encode omit) l = Ok ts →
  Forall plain (canon <$> l) ∧ Forall2 lexes ts (toks <$> (canon <$> l)).
Proof.
  intros Hl. revert ts. induction Hl as [|v l Hv Hl IH]; cbn; intros ts H.
  - injection H as <-. split; constructor.
  - apply bind_Ok in H as (t & Ht & (us & Hus & [= <-])%bind_Ok).
    destruct (Hv t Ht), (IH us Hus). split; by constructor.
Qed.

Definition triple (omit : bool) (kv : jsstr * jsval) : encoded_member :=
  (kv.1, is_undefined kv.2, encode omit kv.2).
Definition canon_member (kv : jsstr * jsval) : jsstr * jsval := (kv.1, canon kv.2).
Definition member_toks (kv : jsstr * jsval) : list token := TStr kv.1 :: TColon :: toks kv.2.

Lemma encode_members_read_back omit ms entries :
  Forall (λ kv, wf_str kv.1 ∧ read_back omit kv.2) ms →
  encode_members omit (triple omit <$> ms) = Ok entries →
  let ms' := filterb keep_defined (canon_member <$> ms) in
  Forall (λ kv, plain kv.2) ms' ∧ Forall2 lexes entries (member_toks <$> ms').
Proof.
  intros Hms. revert entries. induction Hms as [|[k v] ms [Hk Hv] Hms IH]; intros entries H.
  - injection H as <-. split; constructor.
  - assert (Hkd : keep_defined (canon_member (k, v)) = negb (is_undefined v)).
    { unfold keep_defined. cbn. by rewrite canon_undefined. }
    rewrite fmap_cons. cbn [filterb]. rewrite Hkd. cbn [fmap list_fmap triple encode_members fst snd] in H.
    apply bind_Ok in H as (kt & Hkt & H). apply encode_string_Ok in Hkt as ->.
    destruct (is_undefined v) eqn:Eu.
    + destruct v; try done. destruct omit; [by apply IH|]. by cbn in H.
    + cbn [andb negb] in *. apply bind_Ok in H as (t & Ht & (es & Hes & [=])%bind_Ok). subst entries.
      destruct (Hv t Ht) as [Hp Hl]. destruct (IH es Hes) as [Hps Hls].
      split; [by constructor|]. rewrite fmap_cons. constructor; [|exact Hls].
      apply (lexes_app (quote_string k) [TStr k]); [intros rest Hr; by apply lex_string| |].
      * by apply lexes_cons.
      * by intros rest Hr.
Qed.

Lemma encode_read_back omit v : wf_value v → read_back omit v.
Proof.
  induction v as [| | |b|f|s|l IH|ms IH] using jsval_rect'; intros Hwf t Ht.
  - done.
  - done.
  - injection Ht as <-. split; [constructor|]. intros rest Hr. apply lex_word; [set_solver|done..].
  - injection Ht as <-. split; [constructor|]. intros rest Hr.
    destruct b; apply lex_word; try done; set_solver.
  - cbn in Ht. destruct (number_text f) as [u|] eqn:Ef; [|done]. injection Ht as ->.
    apply number_text_value in Ef.
    assert (canon (JNum f) = JNum (canon_number f)) as -> by (by destruct f).
    split; [constructor|]. intros rest Hr. by apply lex_number.
  - apply encode_string_Ok in Ht as ->. split; [constructor|]. intros rest Hr.
    apply lex_string. by inversion Hwf.
  - inversion Hwf as [| | | | | |? Hl|]; subst. cbn in Ht.
    apply bind_Ok in Ht as (ts & Hts & [= <-]).
    apply encode_list_read_back in Hts as [Hp Hls].
    2:{ apply Forall_forall. intros v Hv. rewrite !Forall_forall in *. auto. }
    split; [by constructor|]. cbn [canon toks]. by apply lexes_enclosed, lexes_join.
  - inversion Hwf as [| | | | | | |? Hnd Hms]; subst. cbn in Ht.
    apply bind_Ok in Ht as (es & Hes & [= <-]).
    change (λ kv : jsstr * jsval, (kv.1, is_undefined kv.2, encode omit kv.2)) with (triple omit) in Hes.
    rewrite <-(js_sort_fmap (triple omit) key_cmp) in Hes by done.
    apply encode_members_read_back in Hes as [Hp Hls].
    2:{ rewrite js_sort_perm. apply Forall_forall. intros kv Hkv. rewrite !Forall_forall in *.
        split; [by apply Hms|]. apply IH; [done|]. by apply Hms. }
    cbn [canon]. change (λ kv : jsstr * jsval, (kv.1, canon kv.2)) with canon_member.
    rewrite <-(js_sort_fmap canon_member key_cmp key_cmp) by done.
    split; [|by apply lexes_enclosed, lexes_join].
    constructor; [|done]. eapply sublist_NoDup; [|apply fmap_sublist, filterb_sublist].
    rewrite <-list_fmap_compose. rewrite js_sort_perm. done.
Qed.

Lemma encode_roundtrip omit v t :
  wf_value v → encode omit v = Ok t → json_parse t = Some (canon v) ∧ plain (canon v).
Proof.
  intros Hwf Ht. destruct (encode_read_back omit v Hwf t Ht) as [Hp Hl]. split; [|done].
  specialize (Hl [] I). rewrite app_nil_r in Hl. unfold json_parse. rewrite Hl. cbn [lex lex_flush].
  cbn -[parse_tokens]. rewrite (plain_parses _ Hp) by auto. done.
Qed.

(** ** The canonical form has the same text *)

Lemma canon_number_text f : number_text (canon_number f) = number_text f.
Proof. by destruct f. Qed.

Lemma encode_members_canon omit ms entries :
  Forall (λ kv, ∀ t, encode omit kv.2 = Ok t → encode omit (canon kv.2) = Ok t) ms →
  encode_members omit (triple omit <$> ms) = Ok entries →
  encode_members omit (triple omit <$> filterb keep_defined (canon_member <$> ms)) = Ok entries.
Proof.
  intros Hms. revert entries. induction Hms as [|[k v] ms Hv Hms IH]; intros entries H; [done|].
  assert (Hkd : keep_defined (canon_member (k, v)) = negb (is_undefined v)).
  { unfold keep_defined. cbn. by rewrite canon_undefined. }
  rewrite fmap_cons. cbn [filterb]. rewrite Hkd.
  cbn [fmap list_fmap triple encode_members fst snd] in H.
  apply bind_Ok in H as (kt & Hkt & H). destruct (is_undefined v) eqn:Eu.
  - destruct v; try done. destruct omit; [by apply IH|]. by cbn in H.
  - cbn [andb negb] in *. apply bind_Ok in H as (t & Ht & (es & Hes & [=])%bind_Ok). subst entries.
    specialize (Hv t Ht). cbn [snd] in Hv.
    cbn [fmap list_fmap triple encode_members fst snd canon_member].
    rewrite canon_undefined, Eu, Hkt, Hv. cbn [mbind result_bind andb]. by rewrite (IH es Hes).
Qed.

Lemma canon_members_sorted ms :
  StronglySorted (cmp_le key_cmp) (filterb keep_defined (js_sort key_cmp (canon_member <$> ms))).
Proof. apply filterb_sorted, (keyed_sorted fst). Qed.

Lemma encode_canon omit v t : encode omit v = Ok t → encode omit (canon v) = Ok t.
Proof.
  revert t. induction v as [| | |b|f|s|l IH|ms IH] using jsval_rect'; intros t Ht; try done.
  - assert (canon (JNum f) = JNum (canon_number f)) as -> by (by destruct f).
    cbn [encode] in *. by rewrite canon_number_text.
  - cbn in *. apply bind_Ok in Ht as (ts & Hts & [= <-]).
    assert (encode_list (encode omit) (canon <$> l) = Ok ts) as ->; [|done].
    revert ts Hts. induction IH as [|v l Hv Hl IHl]; cbn; intros ts H; [done|].
    apply bind_Ok in H as (u & Hu & (us & Hus & [= <-])%bind_Ok).
    by rewrite (Hv u Hu), (IHl us Hus).
  - cbn in Ht. apply bind_Ok in Ht as (es & Hes & [= <-]). cbn [canon].
    change (λ kv : jsstr * jsval, (kv.1, canon kv.2)) with canon_member.
    change (λ kv : jsstr * jsval, (kv.1, is_undefined kv.2, encode omit kv.2)) with (triple omit) in Hes.
    cbn [encode].
    change (λ kv : jsstr * jsval, (kv.1, is_undefined kv.2, encode omit kv.2)) with (triple omit).
    rewrite <-(js_sort_fmap (triple omit) key_cmp member_cmp) in Hes |- * by done.
    rewrite (js_sort_id key_cmp (filterb _ _)) by apply canon_members_sorted.
    rewrite <-(js_sort_fmap canon_member key_cmp key_cmp) by done.
    rewrite (encode_members_canon omit _ es); [done| |done]. by rewrite js_sort_perm.
Qed.

(** ** Deep equality of canonical forms is equality *)

(** Canonical forms: plain, with sorted members, at every level. *)
Inductive canonical : jsval → Prop :=
| canonical_null : canonical JNull
| canonical_bool b : canonical (JBool b)
| canonical_num f : canonical (JNum f)
| canonical_str s : canonical (JStr s)
| canonical_arr l : Forall canonical l → canonical (JArr l)
| canonical_obj ms :
    NoDup ms.*1 → StronglySorted (cmp_le key_cmp) ms → Forall (λ kv, canonical kv.2) ms →
    canonical (JObj ms).

Lemma canon_canonical v : plain (canon v) → canonical (canon v).
Proof.
  induction v as [| | |b|f|s|l IH|ms IH] using jsval_rect'; try by (inversion 1; constructor).
  - intros _. destruct f; constructor.
  - cbn. inversion 1 as [| | | |? Hl|]; subst. constructor.
    apply Forall_fmap. rewrite Forall_fmap in Hl. rewrite Forall_forall in *. intros v Hv. by apply IH, Hl.
  - cbn [canon]. change (λ kv : jsstr * jsval, (kv.1, canon kv.2)) with canon_member.
    inversion 1 as [| | | | |? Hnd Hms]; subst.
    constructor; [done|apply canon_members_sorted|].
    rewrite Forall_forall in *. intros kv Hkv. specialize (Hms kv Hkv).
    apply elem_of_filterb in Hkv as [Hkv _]. rewrite js_sort_perm in Hkv.
    apply list_elem_of_fmap in Hkv as (kv' & -> & Hin). by apply (IH kv').
Qed.

Lemma lookup_member_Some {A} k (ms : list (jsstr * A)) v : lookup_member k ms = Some v → (k, v) ∈ ms.
Proof.
  unfold lookup_member. intros ([k' v'] & [Hin Hk]%find_Some & ->)%fmap_Some.
  apply bool_decide_eq_true in Hk. cbn in Hk. by subst.
Qed.

Lemma lookup_member_elem {A} k (ms : list (jsstr * A)) v :
  NoDup ms.*1 → (k, v) ∈ ms → lookup_member k ms = Some v.
Proof.
  unfold lookup_member. induction ms as [|[k' v'] ms IH]; cbn; [by intros ? ?%elem_of_nil|].
  intros [Hk Hnd]%NoDup_cons [[= <- <-]|Hin]%elem_of_cons.
  - by rewrite bool_decide_eq_true_2.
  - rewrite bool_decide_eq_false_2; [by apply IH|]. intros ->. apply Hk.
    by apply (list_elem_of_fmap_2 fst) in Hin.
Qed.

Lemma deep_equal_members_spec ms1 ms2 :
  NoDup ms2.*1 →
  deep_equal_members deep_equal ms1 ms2 = true ↔
  ∀ k v, (k, v) ∈ ms1 → ∃ w, (k, w) ∈ ms2 ∧ deep_equal v w = true.
Proof.
  intros Hnd. induction ms1 as [|[k v] ms1 IH]; cbn.
  - split; [by intros _ k v ?%elem_of_nil|done].
  - split.
    + destruct (lookup_member k ms2) as [w|] eqn:E; [|done]. intros H. bool_to_prop.
      intros k' v' [[= -> ->]|Hin]%elem_of_cons; [|by apply IH].
      exists w. split; [by apply lookup_member_Some|done].
    + intros H. destruct (H k v) as (w & Hw & Hd); [left|].
      rewrite (lookup_member_elem _ _ _ Hnd Hw), Hd. cbn. apply IH. intros k' v' Hin. apply H. by right.
Qed.

Lemma deep_equal_canonical v w : canonical v → canonical w → deep_equal v w = true ↔ v = w.
Proof.
  intros Hv. revert w. induction v as [| | |b|f|s|l IH|ms IH] using jsval_rect'; intros w Hw;
    try by inversion Hv.
  - destruct w; cbn; try done.
  - destruct w; cbn; try done. rewrite eqb_true_iff. naive_solver.
  - destruct w; cbn; try done. rewrite bool_decide_eq_true. naive_solver.
  - destruct w; cbn; try done. rewrite bool_decide_eq_true. naive_solver.
  - destruct w as [| | | | | |l2|]; cbn; try done.
    inversion Hv as [| | | |? Hl|]; inversion Hw as [| | | |? Hl2|]; subst. clear Hv Hw.
    assert (deep_equal_list deep_equal l l2 = true ↔ l = l2) as ->; [|split; congruence].
    revert l2 Hl2. induction IH as [|v l Hv Hl' IHl]; intros [|w l2] Hl2; cbn; try done.
    apply Forall_cons in Hl as [Hcv Hl], Hl2 as [Hcw Hl2].
    rewrite andb_true_iff, Hv, IHl by done. split; [intros [-> ->]; done|by intros [= -> ->]].
  - destruct w as [| | | | | | |ms2]; cbn [deep_equal]; try done.
    inversion Hv as [| | | | |? Hnd Hs Hms]; inversion Hw as [| | | | |? Hnd2 Hs2 Hms2]; subst.
    rewrite andb_true_iff, bool_decide_eq_true, deep_equal_members_spec by done.
    rewrite Forall_forall in IH, Hms, Hms2. split.
    + intros [Hlen Hall]. f_equal. apply (keyed_sorted_unique fst); try done.
      apply submseteq_length_Permutation; [|lia]. apply NoDup_submseteq; [by eapply NoDup_fmap_1|].
      intros [k v] Hin. destruct (Hall k v Hin) as (w & Hw' & Hd).
      apply (IH (k, v) Hin) in Hd; [by subst|by apply (Hms (k, v))|by apply (Hms2 (k, w))].
    + intros [= <-]. split; [done|]. intros k v Hin. exists v. split; [done|].
      apply (IH (k, v) Hin); [by apply (Hms (k, v))|by apply (Hms (k, v))|done].
Qed.

(** ** The contract of the canonical text *)

(** Data that JSON can express: no lone surrogate in a string or a key, finite numbers, [undefined] only as a
    member of an object, nothing exotic. *)
Fixpoint json_data (v : jsval) : bool :=
  match v with
  | JNull | JBool _ => true
  | JNum f => is_finite_number f
  | JStr s => negb (has_lone_surrogate s)
  | JUndef | JExotic => false
  | JArr l => forallb json_data l
  | JObj ms => forallb (λ kv, negb (has_lone_surrogate kv.1) && (is_undefined kv.2 || json_data kv.2)) ms
  end.

(** Every number is a double, as the language has them. *)
Fixpoint doubles (v : jsval) : bool :=
  match v with
  | JNum f => valid_binary prec emax f
  | JArr l => forallb doubles l
  | JObj ms => forallb (λ kv, doubles kv.2) ms
  | _ => true
  end.

Definition member_data (kv : jsstr * jsval) : bool := negb (has_lone_surrogate kv.1) && (is_undefined kv.2 || json_data kv.2).

Lemma encode_string_total s : (∃ t, encode_string s = Ok t) ↔ has_lone_surrogate s = false.
Proof. unfold encode_string. destruct (has_lone_surrogate s); [split; [by intros [t [=]]|done]|]. split; [done|by eexists]. Qed.

Lemma encode_members_total ms :
  Forall (λ kv, (∃ t, encode true kv.2 = Ok t) ↔ json_data kv.2 = true) ms →
  (∃ es, encode_members true (triple true <$> ms) = Ok es) ↔ forallb member_data ms = true.
Proof.
  induction 1 as [|[k v] ms Hv _ IH]; [split; [done|by eexists]|]. cbn [snd] in Hv.
  cbn [fmap list_fmap triple encode_members fst snd forallb member_data]. rewrite andb_true_iff, <-IH, andb_true_r.
  unfold member_data. cbn [fst snd]. pose proof (encode_string_total k) as Hk. destruct (encode_string k) as [kt|err]; cbn [mbind result_bind].
  - rewrite (proj1 Hk) by eauto. cbn [negb andb]. destruct (is_undefined v); cbn [orb]; [naive_solver|]. rewrite <-Hv.
    setoid_rewrite bind_Ok. setoid_rewrite bind_Ok. split; [intros (es & t & Ht & es' & Hes & _); eauto|].
    intros [[t Ht] [es Hes]]. by eexists _, t; split; [|exists es].
  - split; [by intros [es [=]]|]. intros [H _]. exfalso. destruct (has_lone_surrogate k); [done|]. destruct (proj2 Hk eq_refl) as [t [=]].
Qed.

(** Data has a text, and only data has one. *)
Lemma encode_total v : doubles v = true → (∃ t, encode true v = Ok t) ↔ json_data v = true.
Proof.
  induction v as [| | |b|f|s|l IH|ms IH] using jsval_rect'; intros Hd; try (cbn; split; [by intros [t [=]]|by eauto]).
  - cbn [encode json_data doubles] in *. split.
    + intros [t Ht]. destruct f; try done.
    + intros Hf. destruct (number_text_total f Hf Hd) as [t ->]. by eexists.
  - cbn [encode json_data]. rewrite encode_string_total. by destruct (has_lone_surrogate s).
  - cbn [encode json_data doubles] in *. setoid_rewrite bind_Ok.
    assert ((∃ ts, encode_list (encode true) l = Ok ts) ↔ forallb json_data l = true) as <-; [|naive_solver].
    induction IH as [|v l Hv _ IHl]; [split; [done|by eexists]|]. cbn [forallb encode_list] in *. apply andb_true_iff in Hd as [Hd1 Hd2].
    rewrite andb_true_iff, <-Hv, <-IHl by done. setoid_rewrite bind_Ok. setoid_rewrite bind_Ok.
    split; [intros (x & t & Ht & ts & Hts & _); eauto|]. intros [[t Ht] [ts Hts]]. by eexists _, t; split; [|exists ts].
  - cbn [encode json_data doubles] in *. change (λ kv : jsstr * jsval, (kv.1, is_undefined kv.2, encode true kv.2)) with (triple true).
    change (λ kv : jsstr * jsval, negb _ && _) with member_data. rewrite <-(js_sort_fmap (triple true) key_cmp) by done. setoid_rewrite bind_Ok.
    rewrite forallb_elem in Hd. assert (forallb member_data ms = forallb member_data (js_sort key_cmp ms)) as ->.
    { apply eq_bool_prop_intro. rewrite !Is_true_true, !forallb_elem. by setoid_rewrite js_sort_perm. }
    rewrite <-encode_members_total; [naive_solver|]. rewrite js_sort_perm. rewrite Forall_forall in IH |- *. intros kv Hkv. apply IH; [done|]. by apply Hd.
Qed.

(** C38. A value whose numbers are doubles has a canonical text exactly when it is data that JSON can express:
    finite numbers, strings and keys without lone surrogates, [undefined] only as a member of an object.
    The text parses back to the canonical form of the value: members sorted by key, [undefined] members
    left out, negative zero as zero, everything else unchanged. *)
Theorem canonical_text_roundtrip v :
  wf_value v →
  (doubles v = true → (∃ t, canonicalJsonText v = Ok t) ↔ json_data v = true) ∧
  ∀ t, canonicalJsonText v = Ok t → json_parse t = Some (canon v).
Proof. intros Hwf. split; [apply encode_total|]. intros t Ht. by apply (encode_roundtrip true). Qed.

Lemma canonical_text_eq omit v w t u :
  wf_value v → wf_value w → encode omit v = Ok t → encode omit w = Ok u → t = u ↔ canon v = canon w.
Proof.
  intros Hv Hw Ht Hu. split.
  - intros <-. apply encode_roundtrip in Ht as [Ht _], Hu as [Hu _]; [|done..]. congruence.
  - intros Hc. apply encode_canon in Ht, Hu. rewrite Hc, Hu in Ht. congruence.
Qed.

(** Comparing canonical texts and comparing the values they parse to are the same test. *)
Lemma canonical_text_deep_equal omit v w t u :
  wf_value v → wf_value w → encode omit v = Ok t → encode omit w = Ok u →
  match json_parse t, json_parse u with
  | Some a, Some b => deep_equal a b
  | _, _ => false
  end = bool_decide (t = u).
Proof.
  intros Hv Hw Ht Hu.
  pose proof (encode_roundtrip omit v t Hv Ht) as [-> Hpv].
  pose proof (encode_roundtrip omit w u Hw Hu) as [-> Hpw].
  apply eq_bool_prop_intro. rewrite !Is_true_true, bool_decide_eq_true.
  rewrite deep_equal_canonical by (by apply canon_canonical).
  symmetry. by eapply canonical_text_eq.
Qed.

(** Canonical texts are identities: two values with texts have the same text exactly when they
    have the same canonical form, and exactly when [isDeepStrictEqual] accepts the values parsed from
    the texts; so a comparison of texts and a comparison of parsed texts never disagree. *)
Theorem canonical_text_identifies v w t u :
  wf_value v → wf_value w → canonicalJsonText v = Ok t → canonicalJsonText w = Ok u →
  (t = u ↔ canon v = canon w) ∧
  (t = u ↔ ∃ a b, json_parse t = Some a ∧ json_parse u = Some b ∧ deep_equal a b = true).
Proof.
  intros Hv Hw Ht Hu. split; [by eapply canonical_text_eq|].
  pose proof (canonical_text_deep_equal true v w t u Hv Hw Ht Hu) as H. split.
  - intros Heq. rewrite (bool_decide_eq_true_2 _ Heq) in H.
    destruct (json_parse t) as [a|], (json_parse u) as [b|]; try done. by exists a, b.
  - intros (a & b & Ha & Hb & Hd). rewrite Ha, Hb, Hd in H. symmetry in H.
    by apply bool_decide_eq_true in H.
Qed.

(** No member anywhere in the value is [undefined]. *)
Fixpoint fully_defined (v : jsval) : bool :=
  match v with
  | JArr l => forallb fully_defined l
  | JObj ms => forallb (λ kv, negb (is_undefined kv.2) && fully_defined kv.2) ms
  | _ => true
  end.

Lemma encode_members_strict ms entries :
  Forall (λ kv, ∀ t, encode false kv.2 = Ok t ↔ encode true kv.2 = Ok t ∧ fully_defined kv.2 = true) ms →
  encode_members false (triple false <$> ms) = Ok entries ↔
  encode_members true (triple true <$> ms) = Ok entries ∧
  forallb (λ kv, negb (is_undefined kv.2) && fully_defined kv.2) ms = true.
Proof.
  intros Hms. revert entries. induction Hms as [|[k v] ms Hv Hms IH]; intros entries; [naive_solver|].
  cbn [fmap list_fmap triple encode_members fst snd forallb]. rewrite andb_false_r, andb_true_r.
  destruct (encode_string k) as [kt|]; cbn [mbind result_bind]; [|naive_solver].
  cbn [snd] in Hv. destruct (is_undefined v) eqn:Eu; cbn [negb andb].
  - destruct v; try done. cbn. naive_solver.
  - rewrite !bind_Ok, !andb_true_iff. setoid_rewrite bind_Ok. setoid_rewrite Hv. setoid_rewrite IH.
    naive_solver.
Qed.

(** The identifier encoding is the strict variant: it gives a text exactly when the canonical
    text exists and no member at any depth is [undefined], and then it is the same text. *)
Theorem identifier_name_strict v t :
  canonicalIdentifierName v = Ok t ↔ canonicalJsonText v = Ok t ∧ fully_defined v = true.
Proof.
  unfold canonicalIdentifierName, canonicalJsonText. revert t.
  induction v as [| | |b|f|s|l IH|ms IH] using jsval_rect'; intros t; try (cbn; naive_solver).
  - cbn. rewrite !bind_Ok.
    assert (H : ∀ ts, encode_list (encode false) l = Ok ts ↔
                      encode_list (encode true) l = Ok ts ∧ forallb fully_defined l = true).
    { clear t. induction IH as [|v l Hv Hl IHl]; intros ts; cbn; [naive_solver|].
      rewrite !bind_Ok, andb_true_iff. setoid_rewrite bind_Ok. setoid_rewrite Hv. setoid_rewrite IHl.
      naive_solver. }
    setoid_rewrite H. naive_solver.
  - cbn [encode fully_defined]. rewrite !bind_Ok.
    change (λ kv : jsstr * jsval, (kv.1, is_undefined kv.2, encode true kv.2)) with (triple true).
    change (λ kv : jsstr * jsval, (kv.1, is_undefined kv.2, encode false kv.2)) with (triple false).
    rewrite <-(js_sort_fmap (triple true) key_cmp), <-(js_sort_fmap (triple false) key_cmp) by done.
    setoid_rewrite encode_members_strict; [|by rewrite js_sort_perm].
    assert (Hf : forallb (λ kv, negb (is_undefined kv.2) && fully_defined kv.2) (js_sort key_cmp ms) =
                 forallb (λ kv, negb (is_undefined kv.2) && fully_defined kv.2) ms).
    { apply eq_bool_prop_intro. rewrite !Is_true_true, !forallb_elem. by setoid_rewrite js_sort_perm. }
    rewrite Hf. naive_solver.
Qed.

(** ** Concrete instances *)

(** The object [{ b: 1, 10: [true], 9: undefined }] and the same members in another order. *)
Definition demo_value : jsval :=
  JObj [(js "b", JNum (number_of_decimal false 1 0)); (js "10", JArr [JBool true]); (js "9", JUndef)].
Definition demo_reordered : jsval :=
  JObj [(js "10", JArr [JBool true]); (js "b", JNum (number_of_decimal false 1 0))].

Definition demo_text : jsstr :=
  js "{" ++ [QUOTE] ++ js "10" ++ [QUOTE] ++ js ":[true]," ++ [QUOTE] ++ js "b" ++ [QUOTE] ++ js ":1}".

Lemma demo_value_wf : wf_value demo_value.
Proof.
  constructor; [by apply (bool_decide_unpack _); vm_compute|].
  repeat constructor; vm_compute; done.
Qed.

Lemma demo_reordered_wf : wf_value demo_reordered.
Proof.
  constructor; [by apply (bool_decide_unpack _); vm_compute|].
  repeat constructor; vm_compute; done.
Qed.

Lemma canonical_text_roundtrip_witness :
  (∃ t, canonicalJsonText demo_value = Ok t) ∧ json_parse demo_text = Some demo_reordered.
Proof.
  destruct (canonical_text_roundtrip demo_value demo_value_wf) as [He Hp]. split.
  - apply He; vm_compute; reflexivity.
  - rewrite (Hp demo_text ltac:(vm_compute; reflexivity)). vm_compute. reflexivity.
Defined.

Lemma canonical_text_identifies_witness :
  canonicalJsonText demo_value = canonicalJsonText demo_reordered ∧
  canon demo_value = canon demo_reordered.
Proof.
  assert (H1 : canonicalJsonText demo_value = Ok demo_text) by (vm_compute; reflexivity).
  assert (H2 : canonicalJsonText demo_reordered = Ok demo_text) by (vm_compute; reflexivity).
  split; [rewrite H1, H2; reflexivity|].
  apply (canonical_text_identifies demo_value demo_reordered demo_text demo_text demo_value_wf
    demo_reordered_wf H1 H2). reflexivity.
Defined.
