(* ===== verification/AutomationScan.v ===== *)
(** * Selection of recurring work (nanocore/src/storage/automation-scanner-selection.ts)

    Which pending occurrences and live nominal instants of the due schedules a scan takes, in which order,
    and which expired cursors it advances.  Timestamps are instants in milliseconds ([Date.parse] of the
    retained text) and identifiers are not empty (the plan schema); the observer of exhausted cadences does
    not change what is returned. *)

From S2P Require Import Prelude Calendar RecurringCadence JsValue CanonicalJson.

Local Open Scope list_scope.
Local Open Scope Z_scope.

Definition RECURRING_DEADLINE_MS : Z := 600000.
Definition SCAN_LIMIT : nat := 128.

Record ScanOccurrence := { oc_id : jsstr; oc_workspaceId : jsstr; oc_scheduleId : jsstr; oc_scheduledAt : Z }.
Record ScanSchedule := { sc_id : jsstr; sc_workspaceId : jsstr; sc_cadence : AutomationCadence; nextScheduledAt : option Z }.

Record AutomationScanPlan := {
  pending : list ScanOccurrence;
  due : list ScanSchedule;
  stale : list ScanOccurrence;
  expired : list ScanSchedule;
  pendingSchedules : list ScanSchedule;
}.

Record Candidate := { scheduleId : jsstr; at_ : Z; occurrenceId : option jsstr }.

Definition candidate_cmp (a b : Candidate) : Z :=
  if at_ a - at_ b =? 0 then str_cmp (scheduleId a) (scheduleId b) else at_ a - at_ b.

(** The loop over the live instants of one schedule; at most [fuel] of them. *)
Fixpoint live_instants (fuel : nat) (c : AutomationCadence) (now : Z) (at_ : option Z) : result CadenceError (list Z) :=
  match fuel, at_ with
  | S fuel, Some t =>
    if t <=? now then
      n ← nextRecurringNominal c t;
      rest ← live_instants fuel c now n;
      Ok (t :: rest)
    else Ok []
  | _, _ => Ok []
  end.

Definition due_instants (s : ScanSchedule) (next_ now : Z) : result CadenceError (list Z) :=
  coverage ← recurringPrefixThrough (sc_cadence s) next_ (now - RECURRING_DEADLINE_MS);
  live_instants SCAN_LIMIT (sc_cadence s) now (match coverage with Some p => next p | None => Some next_ end).

(** [Date.parse(null)] is not a number: the prefix refuses it after the cadence and the cutoff. *)
Definition invalid_cursor (s : ScanSchedule) (now : Z) : result CadenceError (list Z) :=
  _ ← parseCadence (sc_cadence s);
  _ ← checkedDate (now - RECURRING_DEADLINE_MS);
  Err (RangeError "Recurring nominal timestamp is outside the supported UTC range.").

Fixpoint due_candidates (admittedIds : list jsstr) (now : Z) (l : list ScanSchedule) : result CadenceError (list Candidate) :=
  match l with
  | [] => Ok []
  | s :: rest =>
    if includes admittedIds (sc_workspaceId s) then
      instants ← (match nextScheduledAt s with
                  | Some n => due_instants s n now
                  | None => invalid_cursor s now
                  end);
      others ← due_candidates admittedIds now rest;
      Ok (((λ t, {| scheduleId := sc_id s; at_ := t; occurrenceId := None |}) <$> instants) ++ others)
    else due_candidates admittedIds now rest
  end.

Definition pending_candidates (admittedIds : list jsstr) (l : list ScanOccurrence) : list Candidate :=
  (λ o, {| scheduleId := oc_scheduleId o; at_ := oc_scheduledAt o; occurrenceId := Some (oc_id o) |})
  <$> filterb (λ o, includes admittedIds (oc_workspaceId o)) l.

Definition with_next (n : option Z) (s : ScanSchedule) : ScanSchedule :=
  {| sc_id := sc_id s; sc_workspaceId := sc_workspaceId s; sc_cadence := sc_cadence s; nextScheduledAt := n |}.

(** [account]: moves a cursor past the instants whose deadline has passed. *)
Definition account (now : Z) (s : ScanSchedule) : result CadenceError ScanSchedule :=
  match nextScheduledAt s with
  | None => Ok s
  | Some first =>
    if now - RECURRING_DEADLINE_MS <? first then Ok s
    else
      coverage ← recurringPrefixThrough (sc_cadence s) first (now - RECURRING_DEADLINE_MS);
      match coverage with
      | None => Ok s
      | Some p => n ← nextRecurringNominal (sc_cadence s) (last p); Ok (with_next n s)
      end
  end.

Definition is_expired (now : Z) (s : ScanSchedule) : bool :=
  match nextScheduledAt s with Some n => n <=? now - RECURRING_DEADLINE_MS | None => false end.

(** The map of schedules and the number of expired ranges after the selected candidates; a candidate whose
    schedule is not in the map cannot be produced by [due_candidates] (the source would throw). *)
Fixpoint publish (now : Z) (selected : list Candidate) (schedules : gmap jsstr ScanSchedule) (ranges : nat)
    : result CadenceError (gmap jsstr ScanSchedule * nat) :=
  match selected with
  | [] => Ok (schedules, ranges)
  | c :: rest =>
    match occurrenceId c, schedules !! scheduleId c with
    | None, Some s =>
      let ranges := if is_expired now s then S ranges else ranges in
      s' ← account now s;
      n ← nextRecurringNominal (sc_cadence s') (at_ c);
      publish now rest (<[sc_id s' := with_next n s']> schedules) ranges
    | Some _, _ => publish now rest schedules ranges
    | None, None => Err (RangeError "undefined schedule")
    end
  end.

Definition cursor_cmp (a b : ScanSchedule) : Z :=
  let x := default 0 (nextScheduledAt a) in
  let y := default 0 (nextScheduledAt b) in
  if x - y =? 0 then str_cmp (sc_id a) (sc_id b) else x - y.

Definition schedule_map (plan : AutomationScanPlan) : gmap jsstr ScanSchedule :=
  foldl (λ m s, <[sc_id s := s]> m) ∅ (pendingSchedules plan ++ due plan ++ expired plan).

(** The final accounting of the expired cursors only updates the local map; its errors still surface. *)
Fixpoint account_all (now : Z) (l : list ScanSchedule) : result CadenceError unit :=
  match l with
  | [] => Ok tt
  | s :: l => _ ← account now s; account_all now l
  end.

Record ScanSelection := { selected : list Candidate; sel_stale : list jsstr; sel_expired : list jsstr }.

Definition selectAutomationScan (plan : AutomationScanPlan) (now : Z) (workspaceIds : list jsstr)
    : result CadenceError ScanSelection :=
  dues ← due_candidates workspaceIds now (due plan);
  let candidates := js_sort candidate_cmp (pending_candidates workspaceIds (pending plan) ++ dues) in
  let sel := take SCAN_LIMIT candidates in
  published ← publish now sel (schedule_map plan) 0;
  let '(schedules, ranges) := published in
  let remaining := filterb (is_expired now) (omap (λ s, schedules !! sc_id s) (expired plan)) in
  let chosen := filterb (λ s, includes workspaceIds (sc_workspaceId s))
                  (take (SCAN_LIMIT - ranges) (js_sort cursor_cmp remaining)) in
  _ ← account_all now chosen;
  Ok {| selected := sel;
        sel_stale := oc_id <$> filterb (λ o, includes workspaceIds (oc_workspaceId o)) (stale plan);
        sel_expired := sc_id <$> chosen |}.

(** ** Live instants *)

(** An instant the nominal rule reaches from the cursor and whose deadline has not passed. *)
Definition live (now : Z) (s : ScanSchedule) (t : Z) : Prop :=
  ∃ first k, nextScheduledAt s = Some first ∧ iterate_advance k (sc_cadence s) first = Ok t ∧
    now - RECURRING_DEADLINE_MS < t <= now.

(** What the plan schema and the retained rows give: an admitted cadence and a nominal cursor. *)
Definition sound_schedule (s : ScanSchedule) : Prop :=
  admitted (sc_cadence s) ∧ ∀ t, nextScheduledAt s = Some t → nominal (sc_cadence s) t.

Lemma nextRecurringNominal_nominal c t :
  admitted c → nominal c t →
  ∃ o, nextRecurringNominal c t = Ok o ∧ (∀ u, o = Some u → nominal c u ∧ t < u) ∧
    advanceRecurringNominal c t = match o with Some u => Ok u | None => Err CadenceExhausted end.
Proof.
  intros Ha Hn. destruct (nextOrNull_nominal c t Ha Hn) as (o & Ho & Hadv). exists o. split; [exact Ho|].
  split; [|done]. intros u ->. pose proof (advance_nominal_spec c t Ha Hn) as Hs. rewrite Hadv in Hs. tauto.
Qed.

Section Live.
Context (c : AutomationCadence) (Ha : admitted c).

Lemma iterate_step k t o :
  advanceRecurringNominal c t = match o with Some u => Ok u | None => Err CadenceExhausted end →
  iterate_advance (S k) c t = match o with Some u => iterate_advance k c u | None => Err CadenceExhausted end.
Proof. intros H. cbn -[advanceRecurringNominal]. rewrite H. by destruct o. Qed.

Lemma live_instants_spec now fuel o :
  (∀ u, o = Some u → nominal c u) →
  ∃ l, live_instants fuel c now o = Ok l ∧ (length l <= fuel)%nat ∧
    (∀ t, t ∈ l → t <= now ∧ ∃ u k, o = Some u ∧ iterate_advance k c u = Ok t) ∧
    (∀ u k t, o = Some u → iterate_advance k c u = Ok t → t <= now →
      t ∈ l ∨ (length l = fuel ∧ ∀ x, x ∈ l → x < t)).
Proof.
  revert o. induction fuel as [|fuel IH]; intros o Hn.
  { exists []. split; [done|]. split; [cbn; lia|]. split; [by intros ? ?%not_elem_of_nil|]. right.
    split; [done|]. by intros ? ?%not_elem_of_nil. }
  destruct o as [t|]; [|exists []; split; [done|]; split; [cbn; lia|]; split; [by intros ? ?%not_elem_of_nil|done]].
  specialize (Hn t eq_refl). cbn -[nextRecurringNominal]. destruct (t <=? now) eqn:Et; bool_to_prop.
  2:{ exists []. split; [done|]. split; [cbn; lia|]. split; [by intros ? ?%not_elem_of_nil|]. intros u k v [= <-] Hk Hv.
      apply iterate_nominal in Hk as [_ ?]; [lia|done|done]. }
  destruct (nextRecurringNominal_nominal c t Ha Hn) as (o & -> & Ho & Hadv).
  cbn. destruct (IH o (λ u Hu, proj1 (Ho u Hu))) as (l & -> & Hlen & Hs & Hc). cbn.
  exists (t :: l). split; [done|]. split; [cbn; lia|]. split.
  - intros v [->|(Hv & u & k & Hu & Hk)%Hs]%elem_of_cons.
    + split; [done|]. by exists t, 0%nat.
    + split; [done|]. exists t, (S k). split; [done|]. by rewrite (iterate_step k t o Hadv), Hu.
  - intros u k v [= <-] Hk Hv. destruct k as [|k].
    + injection Hk as <-. left. by left.
    + rewrite (iterate_step k t o Hadv) in Hk. destruct o as [u|]; [|done].
      destruct (Hc u k v eq_refl Hk Hv) as [?|[Hl Hx]]; [left; by right|]. right. split; [cbn; lia|].
      intros x [->|?]%elem_of_cons; [|auto]. destruct (Ho u eq_refl) as [Hu ?].
      apply iterate_nominal in Hk as [_ ?]; [lia|done|done].
Qed.

Lemma prefix_none first through :
  nominal c first → minInstant <= through <= maxInstant → through < first →
  recurringPrefixThrough c first through = Ok None.
Proof.
  intros Hn Hr Hlt. unfold recurringPrefixThrough. rewrite Ha. cbn -[checkedDate recurringNominalMatches].
  rewrite (proj2 (checkedDate_Ok through through)) by done. cbn -[recurringNominalMatches]. rewrite Hn.
  cbn. by rewrite (proj2 (Z.ltb_lt _ _)).
Qed.

(** The instant from which the live loop starts: the first one after the cutoff. *)
Lemma loop_start first through :
  nominal c first → minInstant <= through <= maxInstant →
  ∃ coverage, recurringPrefixThrough c first through = Ok coverage ∧
    let o := match coverage with Some p => next p | None => Some first end in
    (∀ u, o = Some u → nominal c u ∧ through < u) ∧
    ∀ t, through < t →
      ((∃ k, iterate_advance k c first = Ok t) ↔ ∃ u k, o = Some u ∧ iterate_advance k c u = Ok t).
Proof.
  intros Hn Hr. destruct (decide (through < first)) as [Hlt|Hge].
  - exists None. split; [by apply prefix_none|]. cbv zeta. split; [by intros u [= <-]|].
    intros t _. split; [intros [k Hk]; eauto|]. intros (u & k & [= <-] & Hk). eauto.
  - destruct (prefix_exists c first through Ha Hn ltac:(lia)) as [p [Hp Hc Hit Hl Hln Hnx Hb]].
    exists (Some p). split; [done|]. cbv zeta.
    pose proof (advance_nominal_spec c (last p) Ha Hln) as Hs. rewrite Hnx in Hs. split.
    + intros u Hu. split; [|by apply Hb]. rewrite Hu in Hs. apply Hs.
    + intros t Ht. split.
      * intros [k Hk]. destruct (decide (k <= Z.to_nat (count p - 1))%nat) as [Hle|Hgt].
        { exfalso. replace (Z.to_nat (count p - 1)) with (k + (Z.to_nat (count p - 1) - k))%nat in Hit by lia.
          destruct (iterate_nominal _ _ _ _ Ha Hn Hk) as [Htn _].
          rewrite (iterate_add _ _ _ _ _ Hk) in Hit. apply iterate_nominal in Hit as [_ ?]; [lia|done|done]. }
        replace k with (Z.to_nat (count p - 1) + S (k - Z.to_nat (count p - 1) - 1))%nat in Hk by lia.
        rewrite (iterate_add _ _ _ _ _ Hit), (iterate_step _ _ _ Hnx) in Hk.
        destruct (next p) as [u|]; [eauto|done].
      * intros (u & k & Hu & Hk). exists (Z.to_nat (count p - 1) + S k)%nat.
        by rewrite (iterate_add _ _ _ _ _ Hit), (iterate_step _ _ _ Hnx), Hu.
Qed.
End Live.

(** The cutoff of the deadlines is a four-digit UTC year. *)
Definition representable (now : Z) : Prop := minInstant <= now - RECURRING_DEADLINE_MS <= maxInstant.

Lemma due_instants_spec s first now :
  sound_schedule s → nextScheduledAt s = Some first → representable now →
  ∃ l, due_instants s first now = Ok l ∧ (length l <= SCAN_LIMIT)%nat ∧
    (∀ t, t ∈ l → live now s t) ∧
    (∀ t, live now s t → t ∈ l ∨ (length l = SCAN_LIMIT ∧ ∀ x, x ∈ l → x < t)).
Proof.
  intros [Ha Hn] Hf Hr. destruct (loop_start _ Ha first _ (Hn _ Hf) Hr) as (cov & Hcov & Hu & Hiff).
  unfold due_instants. rewrite Hcov. cbn -[live_instants SCAN_LIMIT].
  destruct (live_instants_spec _ Ha now SCAN_LIMIT _ (λ u E, proj1 (Hu u E))) as (l & Hl & Hlen & Hs & Hc).
  exists l. split; [exact Hl|]. split; [done|]. split.
  - intros t (Ht & u & k & Eu & Hk)%Hs. destruct (Hu u Eu) as [Hun Hlt].
    apply (iterate_nominal _ _ _ _ Ha Hun) in Hk as Hx. destruct Hx as [_ Hx].
    destruct (proj2 (Hiff t ltac:(lia))) as [k' Hk']; [eauto|].
    exists first, k'. split; [done|]. split; [done|lia].
  - intros t (f & k & Ef & Hk & Hlo & Hhi). rewrite Hf in Ef. injection Ef as <-.
    destruct (proj1 (Hiff t Hlo)) as (u & k' & Eu & Hk'); [eauto|]. eauto.
Qed.

(** ** The candidates of the due schedules *)

Definition live_candidate (s : ScanSchedule) (t : Z) : Candidate := {| scheduleId := sc_id s; at_ := t; occurrenceId := None |}.

Lemma due_candidates_spec admittedIds now l :
  representable now → Forall (λ s, sound_schedule s ∧ nextScheduledAt s ≠ None) l →
  ∃ cs, due_candidates admittedIds now l = Ok cs ∧
    (∀ c, c ∈ cs → ∃ s t, s ∈ l ∧ sc_workspaceId s ∈ admittedIds ∧ live now s t ∧ c = live_candidate s t) ∧
    (∀ s t, s ∈ l → sc_workspaceId s ∈ admittedIds → live now s t →
      live_candidate s t ∈ cs ∨
      ∃ before, before ⊆+ cs ∧ length before = SCAN_LIMIT ∧ ∀ x, x ∈ before → at_ x < t).
Proof.
  intros Hr. induction 1 as [|s l [Hs Hnx] _ IH].
  { exists []. split; [done|]. split; [by intros ? ?%not_elem_of_nil|by intros ? ? ?%not_elem_of_nil]. }
  destruct IH as (cs & IHeq & IHs & IHc). cbn -[due_instants].
  destruct (includes admittedIds (sc_workspaceId s)) eqn:Ei; unfold includes in Ei.
  2:{ apply bool_decide_eq_false in Ei. exists cs. split; [done|]. split.
      - intros c (s' & t & ? & ?)%IHs. exists s', t. split; [by right|done].
      - intros s' t [->|?]%elem_of_cons; [done|eauto]. }
  apply bool_decide_eq_true in Ei. destruct (nextScheduledAt s) as [first|] eqn:Ef; [|done].
  destruct (due_instants_spec s first now Hs Ef Hr) as (js & -> & _ & His & Hic). cbn.
  rewrite IHeq. cbn. exists ((live_candidate s <$> js) ++ cs). split; [done|]. split.
  - intros c [(t & -> & Ht)%list_elem_of_fmap|(s' & t & ? & ?)%IHs]%elem_of_app.
    + exists s, t. split; [by left|]. eauto.
    + exists s', t. split; [by right|done].
  - intros s' t [->|Hin]%elem_of_cons Hw Hlive.
    + destruct (Hic t Hlive) as [?|[Hlen Hx]].
      { left. apply elem_of_app. left. by apply list_elem_of_fmap_2. }
      right. exists (live_candidate s <$> js). split; [by apply submseteq_inserts_r|].
      split; [by rewrite length_fmap|]. intros x (u & -> & Hu)%list_elem_of_fmap. by apply Hx.
    + destruct (IHc s' t Hin Hw Hlive) as [?|(b & Hb & ?)].
      { left. apply elem_of_app. by right. }
      right. exists b. split; [by apply submseteq_inserts_l|done].
Qed.

(** ** The order of the scan *)

Lemma candidate_total a b : cmp_le candidate_cmp a b ∨ cmp_le candidate_cmp b a.
Proof.
  unfold cmp_le, candidate_cmp. pose proof (str_cmp_antisym (scheduleId b) (scheduleId a)).
  destruct (at_ a - at_ b =? 0) eqn:E1, (at_ b - at_ a =? 0) eqn:E2; bool_to_prop; lia.
Qed.

Lemma candidate_trans a b c : cmp_le candidate_cmp a b → cmp_le candidate_cmp b c → cmp_le candidate_cmp a c.
Proof.
  unfold cmp_le, candidate_cmp. pose proof (str_cmp_trans (scheduleId a) (scheduleId b) (scheduleId c)).
  destruct (at_ a - at_ b =? 0) eqn:E1, (at_ b - at_ c =? 0) eqn:E2, (at_ a - at_ c =? 0) eqn:E3; bool_to_prop; lia.
Qed.

Lemma candidate_cmp_at a b : cmp_le candidate_cmp a b → at_ a <= at_ b.
Proof. unfold cmp_le, candidate_cmp. destruct (_ =? 0) eqn:E; bool_to_prop; lia. Qed.

Lemma candidate_cmp_lt a b : at_ a < at_ b → cmp_le candidate_cmp a b.
Proof. unfold cmp_le, candidate_cmp. intros. destruct (_ =? 0) eqn:E; bool_to_prop; lia. Qed.

Lemma filter_Forall_id {A} (P : A → Prop) `{!∀ x, Decision (P x)} l : Forall P l → filter P l = l.
Proof. induction 1; [done|]. rewrite filter_cons_True by done. by f_equal. Qed.

(** The scan takes the first candidates in scan order. *)
Definition take_first (l : list Candidate) : list Candidate := take SCAN_LIMIT (js_sort candidate_cmp l).

Lemma sorted_candidates l : StronglySorted (cmp_le candidate_cmp) (js_sort candidate_cmp l).
Proof. apply js_sort_sorted; [exact candidate_total|exact candidate_trans]. Qed.

Lemma take_drop_ordered l x y :
  x ∈ take_first l → y ∈ drop SCAN_LIMIT (js_sort candidate_cmp l) → cmp_le candidate_cmp x y.
Proof.
  pose proof (sorted_candidates l) as Hs. unfold take_first.
  rewrite <-(take_drop SCAN_LIMIT (js_sort candidate_cmp l)) in Hs. intros Hx Hy.
  by eapply StronglySorted_app_1_elem_of.
Qed.

Lemma take_first_length l : length (take_first l) = Nat.min SCAN_LIMIT (length l).
Proof. unfold take_first. rewrite length_take. by rewrite (Permutation_length (js_sort_perm candidate_cmp l)). Qed.

(** A candidate that was not taken comes after all that were. *)
Lemma take_first_earliest l x :
  x ∈ l → x ∈ take_first l ∨ (length (take_first l) = SCAN_LIMIT ∧ ∀ y, y ∈ take_first l → cmp_le candidate_cmp y x).
Proof.
  intros Hx. rewrite <-(js_sort_perm candidate_cmp l), <-(take_drop SCAN_LIMIT (js_sort candidate_cmp l)) in Hx.
  apply elem_of_app in Hx as [Hx|Hx]; [by left|right]. split; [|intros y Hy; by eapply take_drop_ordered].
  unfold take_first. rewrite length_take. destruct (decide (SCAN_LIMIT <= length (js_sort candidate_cmp l))%nat); [lia|].
  rewrite drop_ge in Hx by lia. by apply not_elem_of_nil in Hx.
Qed.

(** Enough earlier candidates fill the scan with earlier ones. *)
Lemma take_first_filled l before t :
  before ⊆+ l → length before = SCAN_LIMIT → (∀ x, x ∈ before → at_ x < t) →
  length (take_first l) = SCAN_LIMIT ∧ ∀ y, y ∈ take_first l → at_ y < t.
Proof.
  intros Hsub Hlen Hlt. assert (Hfull : length (take_first l) = SCAN_LIMIT).
  { rewrite take_first_length. apply submseteq_length in Hsub. lia. }
  split; [done|]. intros y Hy. destruct (decide (at_ y < t)) as [|Hge]; [done|exfalso].
  set (P := λ x : Candidate, at_ x < t).
  assert (Hdrop : filter P (drop SCAN_LIMIT (js_sort candidate_cmp l)) = []).
  { apply elem_of_nil_inv. intros x [Hp Hx]%list_elem_of_filter.
    pose proof (candidate_cmp_at y x (take_drop_ordered l y x Hy Hx)). unfold P in Hp. lia. }
  assert (Hb : (length before <= length (filter P (take_first l)))%nat).
  { assert (E : filter P l ≡ₚ filter P (take_first l)).
    { rewrite <-(js_sort_perm candidate_cmp l), <-(take_drop SCAN_LIMIT (js_sort candidate_cmp l)) at 1.
      rewrite filter_app, Hdrop, app_nil_r. done. }
    rewrite <-E. apply submseteq_Permutation in Hsub as [k ->]. rewrite filter_app, length_app.
    rewrite (filter_Forall_id P before) by (by apply Forall_forall). lia. }
  assert (length (filter P (take_first l)) < length (take_first l))%nat; [|lia].
  by apply (length_filter_lt P _ y).
Qed.

(** ** The cursors during the scan *)

Definition all_schedules (plan : AutomationScanPlan) : list ScanSchedule :=
  pendingSchedules plan ++ due plan ++ expired plan.

(** The plan is a projection of retained rows: cursors are nominal, the due ones are present, and the rows of
    one schedule agree on what a scan does not change. *)
Record coherent_plan (plan : AutomationScanPlan) : Prop := {
  cp_sound : Forall sound_schedule (all_schedules plan);
  cp_due : Forall (λ s, nextScheduledAt s ≠ None) (due plan);
  cp_same : ∀ s s', s ∈ all_schedules plan → s' ∈ all_schedules plan → sc_id s = sc_id s' →
    sc_cadence s = sc_cadence s' ∧ sc_workspaceId s = sc_workspaceId s';
}.

(** A cursor position of the row [s0]. *)
Definition position_of (s0 s : ScanSchedule) : Prop :=
  sc_id s = sc_id s0 ∧ sc_workspaceId s = sc_workspaceId s0 ∧ sc_cadence s = sc_cadence s0.

Record tracks (l : list ScanSchedule) (m : gmap jsstr ScanSchedule) : Prop := {
  tr_row : ∀ id s, m !! id = Some s → sound_schedule s ∧ ∃ s0, s0 ∈ l ∧ sc_id s0 = id ∧ position_of s0 s;
  tr_all : ∀ s, s ∈ l → is_Some (m !! sc_id s);
}.

Lemma tracks_insert l m s :
  tracks l m → sound_schedule s → (∃ s0, s0 ∈ l ∧ position_of s0 s) → tracks l (<[sc_id s := s]> m).
Proof.
  intros [Hr Ha] Hs (s0 & Hin & Hp). split.
  - intros id s' [[<- <-]|[_ H]]%lookup_insert_Some; [|eauto]. split; [done|]. exists s0.
    split; [done|]. split; [|done]. symmetry. apply Hp.
  - intros s' Hs'. destruct (decide (sc_id s = sc_id s')) as [->|];
      [rewrite lookup_insert_eq; eauto|rewrite lookup_insert_ne by done; eauto].
Qed.

Lemma schedule_map_tracks plan : coherent_plan plan → tracks (all_schedules plan) (schedule_map plan).
Proof.
  intros [Hs _ _]. unfold schedule_map. fold (all_schedules plan). revert Hs.
  induction (all_schedules plan) as [|s l IH] using rev_ind; intros Hs.
  - cbn. split; [intros id s'; by rewrite lookup_empty|by intros ? ?%not_elem_of_nil].
  - apply Forall_app in Hs as [Hl [Hs _]%Forall_cons]. destruct (IH Hl) as [Hr Ha].
    rewrite foldl_app. cbn. split.
    + intros id s' [[<- <-]|[_ H]]%lookup_insert_Some.
      * split; [done|]. exists s. split; [apply elem_of_app; right; by left|done].
      * destruct (Hr id s' H) as (? & s0 & ? & ?). split; [done|]. exists s0.
        split; [apply elem_of_app; by left|done].
    + intros s' [Hin|Hin%list_elem_of_singleton]%elem_of_app; [|subst s'; rewrite lookup_insert_eq; eauto].
      destruct (decide (sc_id s = sc_id s')) as [->|];
        [rewrite lookup_insert_eq; eauto|rewrite lookup_insert_ne by done; eauto].
Qed.

(** Accounting keeps the row and moves the cursor to the first instant after the cutoff. *)
Lemma account_spec now s :
  representable now → sound_schedule s →
  ∃ s', account now s = Ok s' ∧ sound_schedule s' ∧ position_of s s' ∧ is_expired now s' = false.
Proof.
  intros Hr [Ha Hn]. unfold account, is_expired.
  destruct (nextScheduledAt s) as [first|] eqn:Ef; [|exists s; rewrite Ef; repeat split; [done| |done..]; congruence].
  destruct (_ <? first) eqn:El; bool_to_prop.
  { exists s. rewrite Ef. split; [done|]. split; [by split; [|rewrite Ef]|]. split; [done|]. apply Z.leb_gt. lia. }
  unfold representable in Hr.
  destruct (prefix_exists _ first (now - RECURRING_DEADLINE_MS) Ha (Hn _ eq_refl) ltac:(lia)) as [p [Hp _ _ _ Hl Hnx Hb]].
  rewrite Hp. cbn -[nextRecurringNominal].
  destruct (nextRecurringNominal_nominal _ _ Ha Hl) as (o & -> & Ho & Hadv). cbn. eexists. split; [done|].
  rewrite Hnx in Hadv. assert (o = next p) as -> by (by destruct o, (next p); simplify_eq). split; [|split; [done|]].
  - split; [done|]. intros t Ht. by apply Ho.
  - cbn. destruct (next p) as [u|]; [|done]. apply Z.leb_gt. by apply Hb.
Qed.

Section Publish.
Context (now : Z) (l : list ScanSchedule) (Hr : representable now).

(** A candidate is publishable when it is an occurrence or a live nominal instant of a tracked row. *)
Definition publishable (c : Candidate) : Prop :=
  occurrenceId c = None →
  now - RECURRING_DEADLINE_MS < at_ c ∧ (∃ s, s ∈ l ∧ sc_id s = scheduleId c) ∧
  ∀ s, s ∈ l → sc_id s = scheduleId c → nominal (sc_cadence s) (at_ c).

Definition advanced (m : gmap jsstr ScanSchedule) (id : jsstr) : Prop := ∀ s, m !! id = Some s → is_expired now s = false.

(** Publishing one live candidate moves its cursor past the cutoff. *)
Lemma publish_step c m :
  tracks l m → publishable c → occurrenceId c = None →
  ∃ s s' n, m !! scheduleId c = Some s ∧ account now s = Ok s' ∧ nextRecurringNominal (sc_cadence s') (at_ c) = Ok n ∧
    sc_id s' = scheduleId c ∧ tracks l (<[sc_id s' := with_next n s']> m) ∧ is_expired now (with_next n s') = false.
Proof.
  intros Hm Hc Eo. destruct (Hc Eo) as (Hlive & (s1 & Hs1 & Hid) & Hnom).
  destruct (tr_all _ _ Hm s1 Hs1) as [s Hs]. rewrite Hid in Hs.
  destruct (tr_row _ _ Hm _ _ Hs) as (Hsound & s0 & Hs0 & Hid0 & Hi & Hw & Hcd).
  destruct (account_spec now s Hr Hsound) as (s' & Hacc & Hs' & (Hi' & Hw' & Hcd') & _).
  assert (Hat : nominal (sc_cadence s') (at_ c)) by (rewrite Hcd', Hcd; auto).
  destruct (nextRecurringNominal_nominal _ _ (proj1 Hs') Hat) as (o & Hn & Ho & _).
  exists s, s', o. split_and!; [done..|congruence| |].
  - apply (tracks_insert _ _ (with_next o s') Hm).
    + split; [apply Hs'|]. intros t Ht. by apply Ho.
    + exists s0. split; [done|]. split_and!; cbn; congruence.
  - unfold is_expired. cbn. destruct o as [u|]; [|done]. apply Z.leb_gt. destruct (Ho u eq_refl). lia.
Qed.

Lemma publish_total cs m n :
  tracks l m → Forall publishable cs →
  ∃ m' n', publish now cs m n = Ok (m', n') ∧ tracks l m' ∧
    (∀ id, advanced m id → advanced m' id) ∧
    (∀ c, c ∈ cs → occurrenceId c = None → advanced m' (scheduleId c)).
Proof.
  intros Hm Hc. revert m n Hm. induction Hc as [|c cs Hc _ IH]; intros m n Hm.
  { exists m, n. split_and!; [done..|]. by intros ? ?%not_elem_of_nil. }
  cbn -[account nextRecurringNominal publish]. destruct (occurrenceId c) as [o|] eqn:Eo.
  { destruct (IH m n Hm) as (m' & n' & E & Ht & Hk & Hadv). exists m', n'. cbn. rewrite Eo. split_and!; [done..|].
    intros c' [->|?]%elem_of_cons; [congruence|auto]. }
  destruct (publish_step c m Hm Hc Eo) as (s & s' & o & Hs & Hacc & Hn & Hid & Ht & Hx).
  cbn -[account nextRecurringNominal]. rewrite Eo, Hs, Hacc. cbn -[nextRecurringNominal]. rewrite Hn.
  cbn -[publish]. destruct (IH _ (if is_expired now s then S n else n) Ht) as (m' & n' & E & Ht' & Hk & Hadv).
  assert (Hnew : advanced (<[sc_id s' := with_next o s']> m) (scheduleId c)).
  { intros s2. rewrite <-Hid, lookup_insert_eq. by intros [= <-]. }
  exists m', n'. split_and!; [done..| |].
  - intros id Ha. apply Hk. intros s2 [[<- <-]|[_ H]]%lookup_insert_Some; [done|eauto].
  - intros c' [->|?]%elem_of_cons; [|auto]. intros _. by apply Hk.
Qed.
End Publish.

Lemma account_all_total now l :
  representable now → Forall sound_schedule l → account_all now l = Ok tt.
Proof.
  intros Hr. induction 1 as [|s l Hs _ IH]; [done|]. cbn -[account].
  by destruct (account_spec now s Hr Hs) as (? & -> & _).
Qed.

(** ** The selection *)

Lemma elem_of_take_first c l : c ∈ take_first l → c ∈ l.
Proof. intros (i & H & _)%elem_of_take. apply list_elem_of_lookup_2 in H. by rewrite js_sort_perm in H. Qed.

(** What a scan may take: a pending occurrence or a live instant of a due schedule, in an admitted workspace. *)
Definition offered (plan : AutomationScanPlan) (now : Z) (workspaceIds : list jsstr) (c : Candidate) : Prop :=
  (∃ o, o ∈ pending plan ∧ oc_workspaceId o ∈ workspaceIds ∧
     c = {| scheduleId := oc_scheduleId o; at_ := oc_scheduledAt o; occurrenceId := Some (oc_id o) |}) ∨
  ∃ s t, s ∈ due plan ∧ sc_workspaceId s ∈ workspaceIds ∧ live now s t ∧ c = live_candidate s t.

Lemma elem_of_pending ids l c :
  c ∈ pending_candidates ids l ↔ ∃ o, o ∈ l ∧ oc_workspaceId o ∈ ids ∧
     c = {| scheduleId := oc_scheduleId o; at_ := oc_scheduledAt o; occurrenceId := Some (oc_id o) |}.
Proof.
  unfold pending_candidates. rewrite list_elem_of_fmap. setoid_rewrite elem_of_filterb. unfold includes.
  split; [intros (o & -> & ? & ?%bool_decide_eq_true)|intros (o & ? & ? & ->)]; exists o; [done|].
  split; [done|]. split; [done|]. by apply bool_decide_eq_true.
Qed.

Section Selection.
Context (plan : AutomationScanPlan) (now : Z) (workspaceIds : list jsstr).
Context (Hplan : coherent_plan plan) (Hr : representable now).

Lemma due_sound : Forall (λ s, sound_schedule s ∧ nextScheduledAt s ≠ None) (due plan).
Proof.
  destruct Hplan as [Hs Hd _]. apply Forall_forall. intros s Hin. rewrite Forall_forall in Hs, Hd.
  split; [|by apply Hd]. apply Hs. unfold all_schedules. apply elem_of_app. right. apply elem_of_app. by left.
Qed.

Lemma offered_publishable c : offered plan now workspaceIds c → publishable now (all_schedules plan) c.
Proof.
  intros [(o & _ & _ & ->)|(s & t & Hs & _ & (first & k & Hf & Hk & Hlo & _) & ->)]; [done|]. intros _. cbn.
  assert (Hin : s ∈ all_schedules plan) by (apply elem_of_app; right; apply elem_of_app; by left).
  split; [done|]. split; [by exists s|]. intros s' Hs' Hid.
  destruct (cp_same _ Hplan s' s Hs' Hin Hid) as [-> _].
  pose proof due_sound as Hd. rewrite Forall_forall in Hd. destruct (Hd s Hs) as [[Ha Hn] _].
  by apply (iterate_nominal _ _ _ _ Ha (Hn _ Hf) Hk).
Qed.

(** The first candidates of a list that covers the offered ones are the first offered ones. *)
Lemma covering_selection cands c :
  (∀ s t, s ∈ due plan → sc_workspaceId s ∈ workspaceIds → live now s t →
     live_candidate s t ∈ cands ∨
     ∃ before, before ⊆+ cands ∧ length before = SCAN_LIMIT ∧ ∀ x, x ∈ before → at_ x < t) →
  (∀ c, c ∈ pending_candidates workspaceIds (pending plan) → c ∈ cands) →
  offered plan now workspaceIds c →
  c ∈ take_first cands ∨
  (length (take_first cands) = SCAN_LIMIT ∧ ∀ y, y ∈ take_first cands → candidate_cmp y c <= 0).
Proof.
  intros Hdue Hpen [Ho%elem_of_pending|(s & t & Hs & Hw & Hl & ->)].
  { by apply take_first_earliest, Hpen. }
  destruct (Hdue s t Hs Hw Hl) as [Hin|(b & Hb & Hlen & Hlt)]; [by apply take_first_earliest|]. right.
  destruct (take_first_filled _ _ _ Hb Hlen Hlt) as [? Hy]. split; [done|]. intros y ?.
  by apply candidate_cmp_lt, Hy.
Qed.

(** The expired cursors that are left after the publications. *)
Lemma remaining_rows m s :
  tracks (all_schedules plan) m → s ∈ filterb (is_expired now) (omap (λ s, m !! sc_id s) (expired plan)) →
  is_expired now s = true ∧ sound_schedule s ∧ m !! sc_id s = Some s ∧
  ∃ s0, s0 ∈ expired plan ∧ position_of s0 s.
Proof.
  intros Hm [(s1 & Hs1 & Hlk)%list_elem_of_omap Hx]%elem_of_filterb.
  destruct (tr_row _ _ Hm _ _ Hlk) as (Hs & s0 & Hs0 & Hid & Hpos).
  assert (Hin : s1 ∈ all_schedules plan) by (apply elem_of_app; right; apply elem_of_app; by right).
  destruct (cp_same _ Hplan s0 s1 Hs0 Hin Hid) as [Hc Hw]. destruct Hpos as (Hi & Hw' & Hc').
  assert (Hi1 : sc_id s = sc_id s1) by congruence. split_and!; [done|done|by rewrite Hi1|].
  exists s1. split; [done|]. split_and!; congruence.
Qed.
End Selection.

(** C33. A scan of a coherent plan returns, and it takes the globally earliest work: at most 128 candidates,
    in scan order (instant, then schedule), each a pending occurrence or a live instant of a due schedule in an
    admitted workspace; and a candidate on offer is left out only when the scan is full of candidates that come
    before it, although each schedule contributes at most 128 instants.  The expired cursors it accounts are
    rows of the plan's expired list in admitted workspaces, none of them published by the same scan. *)
Theorem scan_takes_earliest_work plan now workspaceIds :
  coherent_plan plan → representable now →
  ∃ r, selectAutomationScan plan now workspaceIds = Ok r ∧
    (length (selected r) <= SCAN_LIMIT)%nat ∧
    StronglySorted (cmp_le candidate_cmp) (selected r) ∧
    (∀ c, c ∈ selected r → offered plan now workspaceIds c) ∧
    (∀ c, offered plan now workspaceIds c →
       c ∈ selected r ∨
       (length (selected r) = SCAN_LIMIT ∧ ∀ y, y ∈ selected r → candidate_cmp y c <= 0)) ∧
    (∀ id, id ∈ sel_expired r →
       (∃ s, s ∈ expired plan ∧ sc_id s = id ∧ sc_workspaceId s ∈ workspaceIds) ∧
       ∀ c, c ∈ selected r → scheduleId c = id → occurrenceId c ≠ None).
Proof.
  intros Hp Hr.
  destruct (due_candidates_spec workspaceIds now (due plan) Hr (due_sound plan Hp)) as (cs & Hcs & Hs & Hc).
  set (cands := pending_candidates workspaceIds (pending plan) ++ cs).
  assert (Hoff : ∀ c, c ∈ take_first cands → offered plan now workspaceIds c).
  { intros c [Hin%elem_of_pending|Hin%Hs]%elem_of_take_first%elem_of_app; [by left|by right]. }
  destruct (publish_total now (all_schedules plan) Hr (take_first cands) (schedule_map plan) 0) as (m & n & Hpub & Hm & _ & Hadv).
  { by apply schedule_map_tracks. }
  { apply Forall_forall. intros c Hin. by eapply offered_publishable, Hoff. }
  set (remaining := filterb (is_expired now) (omap (λ s, m !! sc_id s) (expired plan))).
  set (chosen := filterb (λ s, includes workspaceIds (sc_workspaceId s)) (take (SCAN_LIMIT - n) (js_sort cursor_cmp remaining))).
  assert (Hch : ∀ s, s ∈ chosen → sc_workspaceId s ∈ workspaceIds ∧ s ∈ remaining).
  { intros s [(i & Hi & _)%elem_of_take Hw]%elem_of_filterb. apply list_elem_of_lookup_2 in Hi.
    rewrite js_sort_perm in Hi. split; [by apply bool_decide_eq_true in Hw|done]. }
  exists {| selected := take_first cands;
            sel_stale := oc_id <$> filterb (λ o, includes workspaceIds (oc_workspaceId o)) (stale plan);
            sel_expired := sc_id <$> chosen |}.
  split.
  { unfold selectAutomationScan. rewrite Hcs. cbn -[publish account_all take_first SCAN_LIMIT schedule_map].
    fold cands. fold (take_first cands). rewrite Hpub. cbn -[account_all SCAN_LIMIT]. fold remaining. fold chosen.
    rewrite account_all_total; [done|done|]. apply Forall_forall. intros s [_ Hrem]%Hch.
    by apply (remaining_rows plan now Hp m). }
  cbn [selected sel_expired]. split_and!.
  - rewrite take_first_length. lia.
  - pose proof (sorted_candidates cands) as Hsort.
    rewrite <-(take_drop SCAN_LIMIT (js_sort candidate_cmp cands)) in Hsort. by apply StronglySorted_app_1_l in Hsort.
  - exact Hoff.
  - intros c. apply covering_selection; unfold cands.
    + intros s t H1 H2 H3. destruct (Hc s t H1 H2 H3) as [?|(b & Hb & ?)]; [left; apply elem_of_app; by right|].
      right. exists b. split; [by apply submseteq_inserts_l|done].
    + intros c' ?. apply elem_of_app. by left.
  - intros id (s & -> & [Hw Hrem]%Hch)%list_elem_of_fmap.
    destruct (remaining_rows plan now Hp m s Hm Hrem) as (Hx & _ & Hlk & s0 & Hs0 & Hi & Hw' & _). split.
    + exists s0. split_and!; [done..|congruence].
    + intros c Hin Hid Hnone. rewrite <-Hid in Hlk. pose proof (Hadv c Hin Hnone s Hlk). congruence.
Qed.

(** ** A concrete scan: a five-minute schedule whose cursor is fifteen minutes behind *)

Definition five_minutes : ScanSchedule :=
  {| sc_id := js "sched_a"; sc_workspaceId := js "ws_1"; sc_cadence := fixed_cadence 300;
     nextScheduledAt := Some (jan_28_2024 - 900000) |}.

Definition late_plan : AutomationScanPlan :=
  {| pending := []; due := [five_minutes]; stale := []; expired := [five_minutes]; pendingSchedules := [] |}.

(** The two instants whose deadline has passed are skipped; the two live ones are taken. *)
Example late_scan :
  selectAutomationScan late_plan jan_28_2024 [js "ws_1"] =
  Ok {| selected := [live_candidate five_minutes (jan_28_2024 - 300000); live_candidate five_minutes jan_28_2024];
        sel_stale := []; sel_expired := [] |}.
Proof. vm_compute. reflexivity. Qed.

Lemma late_plan_coherent : coherent_plan late_plan.
Proof.
  assert (Hs : sound_schedule five_minutes).
  { split; [vm_compute; reflexivity|]. intros t [= <-]. vm_compute. reflexivity. }
  split.
  - repeat constructor; apply Hs.
  - repeat constructor. done.
  - intros s s' [->|[->|[]%elem_of_nil]%elem_of_cons]%elem_of_cons [->|[->|[]%elem_of_nil]%elem_of_cons]%elem_of_cons _; done.
Qed.

Lemma scan_takes_earliest_work_witness :
  ∃ r, selectAutomationScan late_plan jan_28_2024 [js "ws_1"] = Ok r ∧ (length (selected r) <= SCAN_LIMIT)%nat.
Proof.
  destruct (scan_takes_earliest_work late_plan jan_28_2024 [js "ws_1"] late_plan_coherent) as (r & H1 & H2 & _).
  - unfold representable, minInstant, maxInstant, RECURRING_DEADLINE_MS, jan_28_2024. lia.
  - exact (ex_intro _ r (conj H1 H2)).
Defined.
