(* ===== verification/LogicalModels.v ===== *)
(** * Logical models and their supply (nanocore/src/llm/logical-models.ts)

    A logical model is a name with an ordered chain of private provider routes.  The effective metadata of a
    native model (authored leaves over a pinned catalog), the contract of one route, the contract the logical
    model advertises, the availability of each member and of the transcription chain, and the check that every
    configured model has a known context.  With the registry of providers and the capability matrix of a profile
    (providers/registry.ts, providers/profile-capabilities.ts) and the subscription family of a profile
    (packages/config-schema/src/provider-subscription.ts).

    Identifiers and vendors are ASCII text, so that [toLowerCase] is the ASCII one.  Limits are integers (the
    provider schema and the catalog); rates are doubles.  The optional objects of metadata (modalities, limit,
    cost) are flattened to their leaves: the code only reads leaves through them.  The catalog snapshot, the
    probe of local backends, the subscription accounts and the presence of credentials are parameters. *)

From Stdlib Require Import SpecFloat.
From S2P Require Import Prelude Calendar JsValue CanonicalJson.

Local Open Scope list_scope.
Local Open Scope Z_scope.

(** ** Profiles *)

Inductive ProviderKind := KDirect | KLlmGateway | KLocal | KOauth | KCustom.
#[export] Instance ProviderKind_eq_dec : EqDecision ProviderKind.
Proof. solve_decision. Defined.

Inductive ReadinessStatus := RReady | RDegraded | RBlocked | RDisabled | RUnknown.

Inductive ReasoningOption := OToggle | OEffort (values : list jsstr) | OBudgetTokens.

Record ModelMetadata := {
  md_family : option jsstr;
  md_attachment : option bool;
  md_reasoning : option bool;
  md_reasoning_options : option (list ReasoningOption);
  md_tool_call : option bool;
  md_temperature : option bool;
  md_input : option (list jsstr);
  md_output : option (list jsstr);
  md_context : option Z;
  md_output_limit : option Z;
  md_cost_input : option spec_float;
  md_cost_output : option spec_float;
  md_cost_cache_read : option spec_float;
  md_cost_cache_write : option spec_float;
}.

Inductive MetadataSource := UpstreamSnapshot | DeploymentExtension | ProfileOverride.

Record ProviderProfile := {
  pr_id : jsstr;
  pr_vendor : option jsstr;
  pr_kind : ProviderKind;
  pr_models : list jsstr;
  pr_readiness : option ReadinessStatus;
  pr_secretRef : option jsstr;
  pr_baseUrl : option jsstr;
  pr_modelMetadata : option (gmap jsstr ModelMetadata);
  pr_modelMetadataSources : option (gmap jsstr (gmap jsstr MetadataSource));
  pr_localBackend : option jsstr;
  pr_accountSlotId : option jsstr;
}.

Inductive SubscriptionFamily := OpenAiCodex | Xai.
#[export] Instance SubscriptionFamily_eq_dec : EqDecision SubscriptionFamily.
Proof. solve_decision. Defined.
Definition family_text (f : SubscriptionFamily) : jsstr := match f with OpenAiCodex => js "openai-codex" | Xai => js "xai" end.

Inductive ModelError :=
| ConflictingFamilies
| ContextManagementMissing (id : jsstr)
| ContextExceedsRoute (id : jsstr)
| UnknownContext (profile model : jsstr).

(** ** The registry: a map by id, in insertion order *)

Fixpoint registry_set (p : ProviderProfile) (l : list ProviderProfile) : list ProviderProfile :=
  match l with
  | [] => [p]
  | q :: l => if bool_decide (pr_id q = pr_id p) then p :: l else q :: registry_set p l
  end.

Definition ProviderRegistry (profiles : list ProviderProfile) : list ProviderProfile :=
  foldl (λ l p, registry_set p l) [] profiles.

Definition registry_get (l : list ProviderProfile) (id : jsstr) : option ProviderProfile :=
  find (λ p, bool_decide (pr_id p = id)) l.

(** ** Profile capabilities *)

Definition lower (c : Z) : Z := if is_upper c then c + 32 else c.

Fixpoint trim_start (s : jsstr) : jsstr :=
  match s with c :: r => if is_js_space c then trim_start r else s | [] => [] end.
Definition trim (s : jsstr) : jsstr := reverse (trim_start (reverse (trim_start s))).

Definition normalizeProviderId (id : jsstr) : jsstr :=
  (λ c, if c =? cu "-" then cu "_" else c) <$> (lower <$> trim id).

Definition family_of (normalized : jsstr) : option SubscriptionFamily :=
  if bool_decide (normalized = js "openai_codex") then Some OpenAiCodex
  else if bool_decide (normalized = js "xai") then Some Xai else None.

Definition resolveProviderSubscriptionFamily (p : ProviderProfile) : result ModelError (option SubscriptionFamily) :=
  let idFamily := family_of (normalizeProviderId (pr_id p)) in
  let vendorFamily := v ← pr_vendor p; family_of (normalizeProviderId v) in
  match vendorFamily, idFamily with
  | Some v, Some i => if bool_decide (v = i) then Ok (Some v) else Err ConflictingFamilies
  | Some v, None => Ok (Some v)
  | None, o => Ok o
  end.

(** [resolveSubscriptionFamily]: a conflict is no family. *)
Definition resolveSubscriptionFamily (p : ProviderProfile) : option SubscriptionFamily :=
  match resolveProviderSubscriptionFamily p with Ok o => o | Err _ => None end.

Definition truthy_text (o : option jsstr) : option jsstr := match o with Some [] => None | o => o end.

Definition providerRequiresCredentials (p : ProviderProfile) : bool :=
  bool_decide (pr_kind p = KDirect) || bool_decide (pr_kind p = KLlmGateway)
  || match truthy_text (pr_secretRef p) with Some _ => true | None => false end.

Inductive EndpointSupport := Native | Bridged | Unsupported.
#[export] Instance EndpointSupport_eq_dec : EqDecision EndpointSupport.
Proof. solve_decision. Defined.
Record GatewayCapabilities := { chatCompletions : EndpointSupport; responses : EndpointSupport }.

Definition gatewayCapabilitiesForProfile (p : ProviderProfile) : result ModelError GatewayCapabilities :=
  let vendorId := normalizeProviderId <$> pr_vendor p in
  let profileId := normalizeProviderId (pr_id p) in
  family ← resolveProviderSubscriptionFamily p;
  Ok (if bool_decide (profileId = js "openai") || bool_decide (vendorId = Some (js "openai"))
      then {| chatCompletions := Native; responses := Native |}
      else match family with
           | Some _ => {| chatCompletions := Bridged; responses := Native |}
           | None => {| chatCompletions := Native; responses := Bridged |}
           end).

Definition isProviderProfileDispatchable (p : ProviderProfile) : bool :=
  match pr_readiness p with None | Some RReady | Some RDegraded => true | _ => false end.

(** ** Effective metadata *)

Definition pickLeaf {T} (authored inherited : option T) : option T :=
  match authored with Some v => Some v | None => inherited end.

Definition not_budget (o : ReasoningOption) : bool := match o with OBudgetTokens => false | _ => true end.

Definition no_metadata : ModelMetadata :=
  {| md_family := None; md_attachment := None; md_reasoning := None; md_reasoning_options := None; md_tool_call := None;
     md_temperature := None; md_input := None; md_output := None; md_context := None; md_output_limit := None;
     md_cost_input := None; md_cost_output := None; md_cost_cache_read := None; md_cost_cache_write := None |}.

(** The merge of every leaf; an absent object has no leaves. *)
Definition merge_metadata (authored catalogModel : ModelMetadata) : ModelMetadata :=
  {| md_family := pickLeaf (md_family authored) (md_family catalogModel);
     md_attachment := pickLeaf (md_attachment authored) (md_attachment catalogModel);
     md_reasoning := pickLeaf (md_reasoning authored) (md_reasoning catalogModel);
     md_reasoning_options :=
       pickLeaf (md_reasoning_options authored) (filterb not_budget <$> md_reasoning_options catalogModel);
     md_tool_call := pickLeaf (md_tool_call authored) (md_tool_call catalogModel);
     md_temperature := pickLeaf (md_temperature authored) (md_temperature catalogModel);
     md_input := pickLeaf (md_input authored) (md_input catalogModel);
     md_output := pickLeaf (md_output authored) (md_output catalogModel);
     md_context := pickLeaf (md_context authored) (md_context catalogModel);
     md_output_limit := pickLeaf (md_output_limit authored) (md_output_limit catalogModel);
     md_cost_input := pickLeaf (md_cost_input authored) (md_cost_input catalogModel);
     md_cost_output := pickLeaf (md_cost_output authored) (md_cost_output catalogModel);
     md_cost_cache_read := pickLeaf (md_cost_cache_read authored) (md_cost_cache_read catalogModel);
     md_cost_cache_write := pickLeaf (md_cost_cache_write authored) (md_cost_cache_write catalogModel) |}.

Definition first_defined {A} (l : list (option A)) : option A := head (omap id l).

(** [candidate.replaceAll('_', '-')] *)
Definition hyphenated (s : jsstr) : jsstr := (λ c, if c =? cu "_" then cu "-" else c) <$> s.

(** [modelId.slice(0, modelId.indexOf('/'))], when there is a slash. *)
Definition model_namespace (modelId : jsstr) : option jsstr :=
  if includes modelId (cu "/") then Some (span (λ c, negb (c =? cu "/")) modelId).1 else None.

Section Supply.
(** The pinned snapshot: a provider by key, then a model by id. *)
Context (catalog : jsstr → option (jsstr → option ModelMetadata)).

Definition catalog_candidates (p : ProviderProfile) (modelNamespace : option jsstr) : list jsstr :=
  omap truthy_text
    [(λ f, match f with OpenAiCodex => js "openai" | Xai => js "xai" end) <$> resolveSubscriptionFamily p;
     pr_vendor p; Some (pr_id p); modelNamespace]
  ≫= λ c, [c; hyphenated c].

Definition providerCatalog (p : ProviderProfile) (modelNamespace : option jsstr) : option (jsstr → option ModelMetadata) :=
  first_defined (catalog <$> catalog_candidates p modelNamespace).

Definition lookupCatalogModel (p : ProviderProfile) (modelId : jsstr) : option ModelMetadata :=
  let modelNamespace := model_namespace modelId in
  let provider := providerCatalog p modelNamespace in
  let candidates :=
    [modelId]
    ++ match truthy_text modelNamespace with Some n => [drop (S (length n)) modelId] | None => [] end
    ++ match resolveSubscriptionFamily p with
       | Some f => if starts_with (family_text f ++ js "/") modelId
                   then [drop (S (length (family_text f))) modelId] else []
       | None => []
       end in
  first_defined ((λ c, models ← provider; models c) <$> candidates).

Definition authored_metadata (p : ProviderProfile) (nativeId : jsstr) : option ModelMetadata :=
  m ← pr_modelMetadata p; m !! nativeId.

Definition resolveEffectiveModelMetadata (p : ProviderProfile) (nativeId : jsstr) : ModelMetadata :=
  merge_metadata (default no_metadata (authored_metadata p nativeId)) (default no_metadata (lookupCatalogModel p nativeId)).

(** ** The contract of one route *)

Definition REASONING_EFFORT_LEVELS : list jsstr :=
  [js "none"; js "minimal"; js "low"; js "medium"; js "high"; js "xhigh"; js "max"].

Definition option_admits (level : jsstr) (o : ReasoningOption) : bool :=
  match o with
  | OToggle => bool_decide (level = js "none")
  | OEffort values => includes values level
  | OBudgetTokens => false
  end.

Record ModelContract := {
  mc_capabilities : list jsstr;
  mc_contextLimit : option Z;
  mc_modelFamilyId : option jsstr;
  mc_outputLimit : option Z;
  mc_inputModalities : option (list jsstr);
  mc_reasoning : option bool;
  mc_reasoningEffortLevels : list jsstr;
}.

Definition flag (b : option bool) (name : string) : list jsstr := match b with Some true => [js name] | _ => [] end.

(** The insertions into the capability set, in order; the set keeps the first of equal ones. *)
Definition capability_insertions (m : ModelMetadata) (e : GatewayCapabilities) : list jsstr :=
  ((λ x, js "input:" ++ x) <$> default [] (md_input m)) ++ ((λ x, js "output:" ++ x) <$> default [] (md_output m))
  ++ flag (md_attachment m) "attachment" ++ flag (md_reasoning m) "reasoning" ++ flag (md_tool_call m) "tool-calling"
  ++ flag (md_temperature m) "temperature"
  ++ (if bool_decide (chatCompletions e = Unsupported) then [] else [js "chat-completions"])
  ++ (if bool_decide (responses e = Unsupported) then [] else [js "responses"]).

Definition effort_levels (m : ModelMetadata) : list jsstr :=
  filterb (λ level, existsb (option_admits level) (default [] (md_reasoning_options m))) REASONING_EFFORT_LEVELS.

Definition modelContract (p : ProviderProfile) (modelId : jsstr) : result ModelError ModelContract :=
  let m := resolveEffectiveModelMetadata p modelId in
  endpoints ← gatewayCapabilitiesForProfile p;
  Ok {| mc_capabilities := js_sort str_cmp (dedup (capability_insertions m endpoints));
        mc_contextLimit := md_context m;
        mc_modelFamilyId := f ← md_family m; if is_blank f then None else Some f;
        mc_outputLimit := md_output_limit m;
        mc_inputModalities := md_input m;
        mc_reasoning := md_reasoning m;
        mc_reasoningEffortLevels := effort_levels m |}.

(** ** Diagnostics with the source of each leaf *)

Definition present {A} (o : option A) : bool := match o with Some _ => true | None => false end.

(** [authored] tells whether the profile's own metadata has the leaf. *)
Definition leaf_source (p : ProviderProfile) (nativeId path : jsstr) (authored : bool) : MetadataSource :=
  match sources ← pr_modelMetadataSources p; leaves ← sources !! nativeId; leaves !! path with
  | Some source => source
  | None => if present (pr_modelMetadata p) && negb (present (pr_modelMetadataSources p)) && authored
            then ProfileOverride else UpstreamSnapshot
  end.

Definition leaf {T U} (p : ProviderProfile) (nativeId : jsstr) (path : string) (get : ModelMetadata → option U) (value : option T)
    : option T * option MetadataSource :=
  (value, _ ← value; Some (leaf_source p nativeId (js path) (present (m ← authored_metadata p nativeId; get m)))).

Record ModelDiagnostic := {
  dg_context : option Z * option MetadataSource;
  dg_output : option Z * option MetadataSource;
  dg_inputModalities : option (list jsstr) * option MetadataSource;
  dg_outputModalities : option (list jsstr) * option MetadataSource;
  dg_reasoning : option bool * option MetadataSource;
  dg_reasoningEffortLevels : option (list jsstr) * option MetadataSource;
  dg_cost_input : option spec_float * option MetadataSource;
  dg_cost_output : option spec_float * option MetadataSource;
  dg_cost_cache_read : option spec_float * option MetadataSource;
  dg_cost_cache_write : option spec_float * option MetadataSource;
}.

Definition resolveProviderModelDiagnostic (p : ProviderProfile) (nativeId : jsstr) : result ModelError ModelDiagnostic :=
  let m := resolveEffectiveModelMetadata p nativeId in
  efforts ← (match md_reasoning_options m, md_reasoning m with
             | None, _ => Ok None
             | Some _, Some false => Ok (Some [])
             | Some _, _ => c ← modelContract p nativeId; Ok (Some (mc_reasoningEffortLevels c))
             end);
  Ok {| dg_context := leaf p nativeId "limit.context" md_context (md_context m);
        dg_output := leaf p nativeId "limit.output" md_output_limit (md_output_limit m);
        dg_inputModalities := leaf p nativeId "modalities.input" md_input (md_input m);
        dg_outputModalities := leaf p nativeId "modalities.output" md_output (md_output m);
        dg_reasoning := leaf p nativeId "reasoning" md_reasoning (md_reasoning m);
        dg_reasoningEffortLevels := leaf p nativeId "reasoning_options" md_reasoning_options efforts;
        dg_cost_input := leaf p nativeId "cost.input" md_cost_input (md_cost_input m);
        dg_cost_output := leaf p nativeId "cost.output" md_cost_output (md_cost_output m);
        dg_cost_cache_read := leaf p nativeId "cost.cache_read" md_cost_cache_read (md_cost_cache_read m);
        dg_cost_cache_write := leaf p nativeId "cost.cache_write" md_cost_cache_write (md_cost_cache_write m) |}.

(** ** The common contract *)

Definition minimumKnownLimit (limits : list (option Z)) : option Z :=
  match omap id limits with [] => None | x :: l => Some (foldl Z.min x l) end.

Definition intersectCapabilities (sets : list (list jsstr)) : list jsstr :=
  match sets with
  | [] => []
  | first :: rest => filterb (λ c, forallb (λ s, includes s c) rest) first
  end.

(** ** Availability of a member *)

(** [probe] answers for a supervised local backend: [None] when it is available. *)
Context (probe : jsstr → jsstr → option jsstr).
(** The subscription accounts and the credential presence test, when the process has them. *)
Context (accounts : option (SubscriptionFamily → jsstr → option jsstr)) (configured : option (option jsstr → bool)).

(** [undefined] is no local backend; [null] an available one. *)
Definition localSupplyReason (p : ProviderProfile) (providerModel : jsstr) : option (option jsstr) :=
  backendId ← truthy_text (pr_localBackend p); Some (probe backendId providerModel).

Definition afterLocalSupply (local : option (option jsstr)) (otherwise : option jsstr) : option jsstr :=
  match local with None => otherwise | Some reason => reason end.

Definition credentialUnavailableReason (p : ProviderProfile) : option jsstr :=
  match pr_kind p, resolveSubscriptionFamily p, truthy_text (pr_accountSlotId p) with
  | KOauth, Some family, Some slot => match accounts with Some reason => reason family slot | None => None end
  | _, _, _ =>
    match configured with
    | Some present => if providerRequiresCredentials p && negb (present (pr_secretRef p))
                      then Some (js "provider_api_key_missing") else None
    | None => None
    end
  end.

Record RouteMember := { rm_id : jsstr; rm_providerProfileId : jsstr; rm_providerModel : jsstr }.
Record ResolvedRoute := { rt_member : RouteMember; available : bool; unavailableReason : option jsstr }.

Definition resolved (member : RouteMember) (reason : option jsstr) : ResolvedRoute :=
  {| rt_member := member; available := bool_decide (reason = None); unavailableReason := reason |}.

(** The reasons both chains share, then [supplied]. *)
Definition member_reason (providers : list ProviderProfile) (member : RouteMember) (supplied : ProviderProfile → option jsstr)
    : option jsstr :=
  match registry_get providers (rm_providerProfileId member) with
  | None => Some (js "provider_profile_absent")
  | Some p =>
    if negb (includes (pr_models p) (rm_providerModel member)) then Some (js "provider_model_delisted")
    else if negb (isProviderProfileDispatchable p) then Some (js "provider_not_dispatchable")
    else afterLocalSupply (localSupplyReason p (rm_providerModel member)) (supplied p)
  end.

Definition resolve_route (providers : list ProviderProfile) (member : RouteMember) : ResolvedRoute :=
  resolved member (member_reason providers member credentialUnavailableReason).

(** ** The logical models *)

Record LogicalModelConfig := {
  lm_id : jsstr;
  lm_displayName : jsstr;
  lm_autoFailover : option bool;
  lm_compactThreshold : option Z;
  lm_routes : list RouteMember;
}.

Record GatewayConfig := {
  gw_enabled : bool;
  gw_defaultLogicalModelId : option jsstr;
  gw_logicalModels : list LogicalModelConfig;
  gw_transcription : option (option bool * list RouteMember);
}.

Record ModelParameters := { contextWindow : Z; maxOutputTokens : Z; inputModalities : list jsstr; mp_reasoning : bool }.

Record ResolvedLogicalModel := {
  rl_id : jsstr;
  rl_displayName : jsstr;
  rl_capabilities : list jsstr;
  rl_compactThreshold : Z;
  rl_context : option Z;
  rl_output : option Z;
  rl_inputModalities : option (list jsstr);
  rl_reasoning : option bool;
  rl_modelFamilyId : option jsstr;
  rl_modelParameters : option ModelParameters;
  rl_reasoningEffortLevels : option (list jsstr);
  rl_autoFailover : bool;
  rl_routes : list ResolvedRoute;
}.

Definition route_contract (providers : list ProviderProfile) (member : RouteMember) : result ModelError (option ModelContract) :=
  match registry_get providers (rm_providerProfileId member) with
  | Some p => if includes (pr_models p) (rm_providerModel member)
              then c ← modelContract p (rm_providerModel member); Ok (Some c) else Ok None
  | None => Ok None
  end.

(** The threshold fits the context of the route, together with the output where that is known. *)
Definition threshold_fits (threshold : Z) (c : ModelContract) : bool :=
  match mc_contextLimit c with
  | None => false
  | Some context =>
    (threshold <=? context) && match mc_outputLimit c with Some output => threshold + output <=? context | None => true end
  end.

Definition positive_int (n : Z) : bool := (0 <? n) && isSafeInteger n.
Definition MODALITIES : list jsstr := [js "audio"; js "image"; js "pdf"; js "text"; js "video"].

(** [AgentEnvironmentLlmModelParametersSchema.safeParse] *)
Definition parse_parameters (context output : option Z) (modalities : option (list jsstr)) (reasoning : bool) : option ModelParameters :=
  match context, output, modalities with
  | Some c, Some o, Some m =>
    if positive_int c && positive_int o && forallb (includes MODALITIES) m
    then Some {| contextWindow := c; maxOutputTokens := o; inputModalities := m; mp_reasoning := reasoning |} else None
  | _, _, _ => None
  end.

Definition is_true (o : option bool) : bool := match o with Some true => true | _ => false end.
Definition nonempty_all {A} (p : A → bool) (l : list A) : bool := match l with [] => false | _ => forallb p l end.

Definition common_modalities (contracts : list ModelContract) : option (list jsstr) :=
  if nonempty_all (λ c, negb (bool_decide (mc_inputModalities c = None))) contracts
  then Some (intersectCapabilities (omap mc_inputModalities contracts)) else None.

Definition common_family (contracts : list ModelContract) : option jsstr :=
  match mc_modelFamilyId <$> contracts with
  | Some f :: families => if forallb (λ g, bool_decide (g = Some f)) families then Some f else None
  | _ => None
  end.

(** The contracts of the members that are available now. *)
Definition available_contracts (authored : list (option ModelContract)) (routes : list ResolvedRoute) : list ModelContract :=
  omap (λ cr, if available cr.2 then cr.1 else None) (zip authored routes).

Definition common_efforts (contracts : list ModelContract) : option (list jsstr) :=
  if nonempty_all (λ c, is_true (mc_reasoning c)) contracts
  then Some (filterb (λ level, forallb (λ c, includes (mc_reasoningEffortLevels c) level) contracts) REASONING_EFFORT_LEVELS)
  else None.

Definition resolve_model (providers : list ProviderProfile) (lm : LogicalModelConfig) : result ModelError ResolvedLogicalModel :=
  authored ← mapM (route_contract providers) (lm_routes lm);
  match lm_compactThreshold lm with
  | None => Err (ContextManagementMissing (lm_id lm))
  | Some threshold =>
    let contracts := omap id authored in
    require forallb (threshold_fits threshold) contracts else ContextExceedsRoute (lm_id lm);
    let context := minimumKnownLimit (mc_contextLimit <$> contracts) in
    let output := minimumKnownLimit (mc_outputLimit <$> contracts) in
    let modalities := common_modalities contracts in
    let routes := resolve_route providers <$> lm_routes lm in
    Ok {| rl_id := lm_id lm; rl_displayName := lm_displayName lm;
          rl_capabilities := intersectCapabilities (mc_capabilities <$> contracts);
          rl_compactThreshold := threshold; rl_context := context; rl_output := output;
          rl_inputModalities := modalities;
          rl_reasoning := if nonempty_all (λ c, negb (bool_decide (mc_reasoning c = None))) contracts
                          then Some (forallb (λ c, is_true (mc_reasoning c)) contracts) else None;
          rl_modelFamilyId := common_family contracts;
          rl_modelParameters := parse_parameters context output modalities (nonempty_all (λ c, is_true (mc_reasoning c)) contracts);
          rl_reasoningEffortLevels := common_efforts (available_contracts authored routes);
          rl_autoFailover := default true (lm_autoFailover lm);
          rl_routes := routes |}
  end.

Definition resolveLogicalModelCatalog (config : GatewayConfig) (providers : list ProviderProfile)
    : result ModelError (list ResolvedLogicalModel) :=
  if negb (gw_enabled config) then Ok [] else mapM (resolve_model providers) (gw_logicalModels config).

Definition resolveLogicalModel (config : GatewayConfig) (providers : list ProviderProfile) (logicalModelId : option jsstr)
    : result ModelError (option ResolvedLogicalModel) :=
  let selected := match logicalModelId with Some i => Some i | None => gw_defaultLogicalModelId config end in
  match truthy_text selected with
  | None => Ok None
  | Some selectedId =>
    models ← resolveLogicalModelCatalog config providers;
    Ok (find (λ m, bool_decide (rl_id m = selectedId)) models)
  end.

(** ** Transcription *)

(** The closed reasons; any other credential reason counts as available. *)
Definition credentialReason (p : ProviderProfile) : option jsstr :=
  reason ← credentialUnavailableReason p;
  if includes [js "provider_api_key_missing"; js "subscription_vault_unavailable"; js "subscription_account_absent";
               js "subscription_account_logged_out"; js "subscription_account_integrity_unavailable"] reason
  then Some reason else None.

Definition transcription_supply (checkCredentials : bool) (p : ProviderProfile) : option jsstr :=
  match truthy_text (pr_baseUrl p) with
  | Some _ => if checkCredentials then credentialReason p else None
  | None => Some (js "provider_base_url_missing")
  end.

Definition resolveTranscriptionMember (member : RouteMember) (gatewayEnabled : bool) (providers : list ProviderProfile)
    (checkCredentials : bool) : ResolvedRoute :=
  if negb gatewayEnabled then resolved member (Some (js "gateway_disabled"))
  else resolved member (member_reason providers member (transcription_supply checkCredentials)).

Inductive ResolvedTranscriptionRoute := NotConfigured | Configured (autoFailover : bool) (routes : list ResolvedRoute).

Definition resolveTranscriptionRoute (config : GatewayConfig) (providers : list ProviderProfile) (checkCredentials : bool)
    : ResolvedTranscriptionRoute :=
  match gw_transcription config with
  | None => NotConfigured
  | Some (autoFailover, routes) =>
    Configured (default true autoFailover)
      ((λ member, resolveTranscriptionMember member (gw_enabled config) providers checkCredentials) <$> routes)
  end.

(** ** Known contexts *)

Definition hasKnownContext (m : ModelMetadata) : bool := match md_context m with Some c => 0 <? c | None => false end.

(** [`${providerProfileId}\0${providerModel}`] *)
Definition route_key (profile model : jsstr) : jsstr := profile ++ [0] ++ model.
Definition member_key (m : RouteMember) : jsstr := route_key (rm_providerProfileId m) (rm_providerModel m).

Definition transcriptionOnlyModelKeys (gateway : option GatewayConfig) : list jsstr :=
  match gateway with
  | None => []
  | Some g =>
    let chat := member_key <$> (gw_logicalModels g ≫= lm_routes) in
    filterb (λ key, negb (includes chat key)) (member_key <$> match gw_transcription g with Some t => t.2 | None => [] end)
  end.

Fixpoint check_models (exempt : list jsstr) (p : ProviderProfile) (models : list jsstr) : result ModelError unit :=
  match models with
  | [] => Ok tt
  | modelId :: models =>
    if includes exempt (route_key (pr_id p) modelId) then check_models exempt p models
    else require hasKnownContext (resolveEffectiveModelMetadata p modelId) else UnknownContext (pr_id p) modelId;
         check_models exempt p models
  end.

Definition speech_backend (p : ProviderProfile) : bool := bool_decide (pr_localBackend p = Some (js "sherpa-onnx-asr")).

Fixpoint check_profiles (exempt : list jsstr) (providers : list ProviderProfile) : result ModelError unit :=
  match providers with
  | [] => Ok tt
  | p :: providers =>
    if speech_backend p then check_profiles exempt providers
    else _ ← check_models exempt p (pr_models p); check_profiles exempt providers
  end.

Definition assertConfiguredModelsHaveKnownContext (providers : list ProviderProfile) (gateway : option GatewayConfig)
    : result ModelError unit := check_profiles (transcriptionOnlyModelKeys gateway) providers.
End Supply.

(** ** Adapter rates *)

Definition knownRate (value : option spec_float) : option spec_float :=
  match value with
  | Some (S754_zero s) => Some (S754_zero s)
  | Some (S754_finite false m e) => Some (S754_finite false m e)
  | _ => None
  end.

Record AdapterCostRates := {
  rate_input : option spec_float; rate_output : option spec_float;
  rate_cacheRead : option spec_float; rate_cacheWrite : option spec_float;
}.
Definition no_rates : AdapterCostRates := {| rate_input := None; rate_output := None; rate_cacheRead := None; rate_cacheWrite := None |}.

Definition mergeAdapterCostRates (inherited : option AdapterCostRates) (m : ModelMetadata) : bool * AdapterCostRates :=
  let i := default no_rates inherited in
  let rates := {|
    rate_input := pickLeaf (knownRate (md_cost_input m)) (knownRate (rate_input i));
    rate_output := pickLeaf (knownRate (md_cost_output m)) (knownRate (rate_output i));
    rate_cacheRead := pickLeaf (knownRate (md_cost_cache_read m)) (knownRate (rate_cacheRead i));
    rate_cacheWrite := pickLeaf (knownRate (md_cost_cache_write m)) (knownRate (rate_cacheWrite i)) |} in
  (present (rate_input rates) && present (rate_output rates) && present (rate_cacheRead rates) && present (rate_cacheWrite rates),
   rates).

Definition hasCompleteCostRates (m : ModelMetadata) (inherited : option AdapterCostRates) : bool :=
  (mergeAdapterCostRates inherited m).1.

(** ** What the folds and filters keep *)

Lemma foldl_min_le l x : foldl Z.min x l <= x ∧ ∀ y, y ∈ l → foldl Z.min x l <= y.
Proof.
  revert x. induction l as [|z l IH]; intros x; cbn; [split; [lia|by intros ? ?%not_elem_of_nil]|].
  destruct (IH (Z.min x z)) as [H1 H2]. split; [lia|]. intros y [->|?]%elem_of_cons; [lia|auto].
Qed.

Lemma minimumKnownLimit_le limits n x : minimumKnownLimit limits = Some n → Some x ∈ limits → n <= x.
Proof.
  unfold minimumKnownLimit. intros H Hin. assert (Hx : x ∈ omap id limits) by (apply list_elem_of_omap; by exists (Some x)).
  destruct (omap id limits) as [|y l]; [done|]. injection H as <-. destruct (foldl_min_le l y) as [H1 H2].
  apply elem_of_cons in Hx as [->|?]; [done|auto].
Qed.

Lemma elem_of_intersect sets c :
  c ∈ intersectCapabilities sets ↔ sets ≠ [] ∧ ∀ s, s ∈ sets → c ∈ s.
Proof.
  destruct sets as [|first rest]; cbn; [split; [by intros ?%not_elem_of_nil|by intros []]|].
  rewrite elem_of_filterb, forallb_forall. unfold includes. setoid_rewrite bool_decide_eq_true.
  setoid_rewrite <-list_elem_of_In. split.
  - intros [Hf Hr]. split; [done|]. intros s [->|?]%elem_of_cons; auto.
  - intros [_ H]. split; [apply H; by left|]. intros s Hs. apply H. by right.
Qed.

Lemma nonempty_all_spec {A} (p : A → bool) l : nonempty_all p l = true → ∀ x, x ∈ l → p x = true.
Proof. destruct l; [done|]. cbn [nonempty_all]. rewrite forallb_forall. intros H x Hx. apply H. by apply list_elem_of_In. Qed.

Section Resolution.
Context (catalog : jsstr → option (jsstr → option ModelMetadata)) (probe : jsstr → jsstr → option jsstr).
Context (accounts : option (SubscriptionFamily → jsstr → option jsstr)) (configured : option (option jsstr → bool)).
Notation contract_of := (modelContract catalog).
Notation model_of := (resolve_model catalog probe accounts configured).

(** What a logical model advertises holds of a member's contract. *)
Record serves (m : ResolvedLogicalModel) (k : ModelContract) : Prop := {
  sv_threshold : threshold_fits (rl_compactThreshold m) k = true;
  sv_capabilities : ∀ c, c ∈ rl_capabilities m → c ∈ mc_capabilities k;
  sv_context : ∀ n, rl_context m = Some n → ∃ l, mc_contextLimit k = Some l ∧ n <= l;
  sv_output : ∀ n l, rl_output m = Some n → mc_outputLimit k = Some l → n <= l;
  sv_modalities : ∀ ms, rl_inputModalities m = Some ms →
    ∃ l, mc_inputModalities k = Some l ∧ ∀ x, x ∈ ms → x ∈ l;
  sv_reasoning : rl_reasoning m = Some true → mc_reasoning k = Some true;
  sv_family : ∀ f, rl_modelFamilyId m = Some f → mc_modelFamilyId k = Some f;
  sv_parameters : ∀ ps, rl_modelParameters m = Some ps →
    (∃ l, mc_contextLimit k = Some l ∧ contextWindow ps <= l) ∧
    (∀ l, mc_outputLimit k = Some l → maxOutputTokens ps <= l) ∧
    (mp_reasoning ps = true → mc_reasoning k = Some true) ∧
    ∃ l, mc_inputModalities k = Some l ∧ ∀ x, x ∈ inputModalities ps → x ∈ l;
}.

Lemma resolve_model_inv providers lm m :
  model_of providers lm = Ok m →
  ∃ authored threshold, mapM (route_contract catalog providers) (lm_routes lm) = Ok authored ∧
    lm_compactThreshold lm = Some threshold ∧ forallb (threshold_fits threshold) (omap id authored) = true ∧
    rl_compactThreshold m = threshold ∧ rl_capabilities m = intersectCapabilities (mc_capabilities <$> omap id authored) ∧
    rl_context m = minimumKnownLimit (mc_contextLimit <$> omap id authored) ∧
    rl_output m = minimumKnownLimit (mc_outputLimit <$> omap id authored) ∧
    rl_inputModalities m = common_modalities (omap id authored) ∧
    rl_reasoning m = (if nonempty_all (λ c, negb (bool_decide (mc_reasoning c = None))) (omap id authored)
                      then Some (forallb (λ c, is_true (mc_reasoning c)) (omap id authored)) else None) ∧
    rl_modelFamilyId m = common_family (omap id authored) ∧
    rl_modelParameters m = parse_parameters (rl_context m) (rl_output m) (rl_inputModalities m)
                             (nonempty_all (λ c, is_true (mc_reasoning c)) (omap id authored)) ∧
    rl_routes m = resolve_route probe accounts configured providers <$> lm_routes lm ∧
    rl_reasoningEffortLevels m = common_efforts (available_contracts authored (rl_routes m)).
Proof.
  unfold resolve_model. intros (authored & Ha & H)%bind_Ok. destruct (lm_compactThreshold lm) as [threshold|] eqn:Et; [|done].
  destruct (forallb _ _) eqn:Ef; [|done]. injection H as <-. exists authored, threshold. split_and!; done.
Qed.

Lemma is_true_Some o : is_true o = true → o = Some true.
Proof. by destruct o as [[]|]. Qed.

(** The contract is common to every contract that entered it. *)
Lemma contract_is_common m contracts k :
  forallb (threshold_fits (rl_compactThreshold m)) contracts = true →
  rl_capabilities m = intersectCapabilities (mc_capabilities <$> contracts) →
  rl_context m = minimumKnownLimit (mc_contextLimit <$> contracts) →
  rl_output m = minimumKnownLimit (mc_outputLimit <$> contracts) →
  rl_inputModalities m = common_modalities contracts →
  rl_reasoning m = (if nonempty_all (λ c, negb (bool_decide (mc_reasoning c = None))) contracts
                    then Some (forallb (λ c, is_true (mc_reasoning c)) contracts) else None) →
  rl_modelFamilyId m = common_family contracts →
  rl_modelParameters m = parse_parameters (rl_context m) (rl_output m) (rl_inputModalities m)
                           (nonempty_all (λ c, is_true (mc_reasoning c)) contracts) →
  k ∈ contracts → serves m k.
Proof.
  intros Ht Hcap Hctx Hout Hmod Hrea Hfam Hpar Hk.
  assert (Hfit : threshold_fits (rl_compactThreshold m) k = true).
  { rewrite forallb_forall in Ht. by apply Ht, list_elem_of_In. }
  assert (Hc : ∀ n, rl_context m = Some n → ∃ l, mc_contextLimit k = Some l ∧ n <= l).
  { intros n Hn. unfold threshold_fits in Hfit. destruct (mc_contextLimit k) as [l|] eqn:El; [|done]. exists l. split; [done|].
    rewrite Hctx in Hn. apply (minimumKnownLimit_le _ _ _ Hn). rewrite <-El. by apply list_elem_of_fmap_2. }
  assert (Ho : ∀ n l, rl_output m = Some n → mc_outputLimit k = Some l → n <= l).
  { intros n l Hn Hl. rewrite Hout in Hn. apply (minimumKnownLimit_le _ _ _ Hn). rewrite <-Hl. by apply list_elem_of_fmap_2. }
  assert (Hm : ∀ ms, rl_inputModalities m = Some ms → ∃ l, mc_inputModalities k = Some l ∧ ∀ x, x ∈ ms → x ∈ l).
  { intros ms Hms. rewrite Hmod in Hms. clear - Hms Hk. unfold common_modalities in Hms. destruct (nonempty_all _ _) eqn:En; [|done].
    injection Hms as <-. pose proof (nonempty_all_spec _ _ En k Hk) as Hne. apply negb_true_iff, bool_decide_eq_false in Hne.
    destruct (mc_inputModalities k) as [l|] eqn:El; [|done]. exists l. split; [done|].
    intros x [_ Hx]%elem_of_intersect. apply Hx, list_elem_of_omap. by exists k. }
  assert (Hnr : ∀ b, nonempty_all (λ c, is_true (mc_reasoning c)) contracts = b → b = true → mc_reasoning k = Some true).
  { intros b <- Hb. by apply is_true_Some, (nonempty_all_spec _ _ Hb). }
  split; try done.
  - intros c Hin. rewrite Hcap in Hin. apply elem_of_intersect in Hin as [_ Hin]. apply Hin. by apply list_elem_of_fmap_2.
  - rewrite Hrea. destruct (nonempty_all _ _); [|done]. intros [= Hr]. rewrite forallb_forall in Hr.
    by apply is_true_Some, Hr, list_elem_of_In.
  - intros f Hf. rewrite Hfam in Hf. clear - Hf Hk. unfold common_family in Hf. destruct contracts as [|k0 ks]; [done|]. cbn in Hf.
    destruct (mc_modelFamilyId k0) as [g|] eqn:Eg; [|done]. destruct (forallb _ _) eqn:Ef; [|done]. injection Hf as <-.
    apply elem_of_cons in Hk as [->|Hk]; [done|]. rewrite forallb_forall in Ef.
    apply (bool_decide_eq_true_1 (mc_modelFamilyId k = Some g)), Ef, list_elem_of_In. by apply list_elem_of_fmap_2.
  - intros ps Hps. rewrite Hpar in Hps. unfold parse_parameters in Hps.
    destruct (rl_context m) as [n|]; [|done]. destruct (rl_output m) as [o|]; [|done].
    destruct (rl_inputModalities m) as [ms|]; [|done]. destruct (_ && _); [|done]. injection Hps as <-. cbn.
    split_and!; [by apply Hc|intros l Hl; by apply Ho|by apply Hnr|by apply Hm].
Qed.

(** What an available member is. *)
Lemma available_member providers member :
  available (resolve_route probe accounts configured providers member) = true →
  ∃ p, registry_get providers (rm_providerProfileId member) = Some p ∧ rm_providerModel member ∈ pr_models p ∧
    isProviderProfileDispatchable p = true.
Proof.
  unfold resolve_route, resolved. cbn. rewrite bool_decide_eq_true. unfold member_reason.
  destruct (registry_get _ _) as [p|]; [|done]. destruct (includes _ _) eqn:Ei; [|done].
  destruct (isProviderProfileDispatchable p) eqn:Ed; [|done]. intros _. exists p. split; [done|]. split; [|done].
  by apply bool_decide_eq_true in Ei.
Qed.

Lemma available_contracts_in authored members providers member k :
  Forall2 (λ r c, route_contract catalog providers r = Ok c) members authored → member ∈ members →
  route_contract catalog providers member = Ok (Some k) →
  available (resolve_route probe accounts configured providers member) = true →
  k ∈ available_contracts authored (resolve_route probe accounts configured providers <$> members).
Proof.
  intros Hf Hin Hr Ha. induction Hf as [|r c rs cs Hc Hf IH]; [by apply not_elem_of_nil in Hin|].
  unfold available_contracts in *. cbn [fmap list_fmap zip zip_with omap list_omap].
  apply elem_of_cons in Hin as [->|Hin].
  - rewrite Hr in Hc. injection Hc as <-. cbn [fst snd]. rewrite Ha. by left.
  - specialize (IH Hin). destruct (if available _ then _ else _); [by right|done].
Qed.

(** Failover never leaves the advertised contract: in a resolved catalog every member that is available for
    dispatch belongs to a registered profile that lists the model and may be dispatched, and its own contract
    serves what the logical model advertises: the compaction threshold fits its context together with its output,
    it has every advertised capability and input modality, at least the advertised limits, the advertised family,
    and reasons at every advertised effort level.  Nothing common is withheld: a capability that every listed
    member has is advertised. *)
Theorem failover_keeps_the_contract config providers models m member :
  resolveLogicalModelCatalog catalog probe accounts configured config providers = Ok models → m ∈ models →
  resolve_route probe accounts configured providers member ∈ rl_routes m →
  available (resolve_route probe accounts configured providers member) = true →
  ∃ p k, registry_get providers (rm_providerProfileId member) = Some p ∧ rm_providerModel member ∈ pr_models p ∧
    isProviderProfileDispatchable p = true ∧ contract_of p (rm_providerModel member) = Ok k ∧ serves m k ∧
    (∀ levels, rl_reasoningEffortLevels m = Some levels →
       mc_reasoning k = Some true ∧ ∀ l, l ∈ levels → l ∈ mc_reasoningEffortLevels k) ∧
    (∀ c, (∀ r q k', r ∈ rl_routes m → registry_get providers (rm_providerProfileId (rt_member r)) = Some q →
             rm_providerModel (rt_member r) ∈ pr_models q → contract_of q (rm_providerModel (rt_member r)) = Ok k' →
             c ∈ mc_capabilities k') → c ∈ rl_capabilities m).
Proof.
  intros Hcat Hm Hroute Hav. unfold resolveLogicalModelCatalog in Hcat.
  destruct (gw_enabled config); [|injection Hcat as <-; by apply not_elem_of_nil in Hm]. cbn [negb] in Hcat.
  apply mapM_result_Ok in Hcat. apply list_elem_of_lookup in Hm as [i Hi].
  destruct (Forall2_lookup_r _ _ _ _ _ Hcat Hi) as (lm & _ & Hlm).
  destruct (resolve_model_inv _ _ _ Hlm) as (authored & threshold & Ha & _ & Hfit & <- & Hcap & Hctx & Hout & Hmod & Hrea & Hfam & Hpar & Hrt & Heff).
  apply mapM_result_Ok in Ha. rewrite Hrt in Hroute, Heff. apply list_elem_of_fmap in Hroute as (member' & Hme & Hin).
  assert (member' = member) as -> by (by apply (f_equal rt_member) in Hme).
  destruct (available_member _ _ Hav) as (p & Hp & Hl & Hd).
  apply list_elem_of_lookup in Hin as [j Hj]. destruct (Forall2_lookup_l _ _ _ _ _ Ha Hj) as (o & Ho & Hro).
  pose proof Hro as Hk. unfold route_contract in Hk. rewrite Hp in Hk. unfold includes in Hk. rewrite bool_decide_true in Hk by done.
  apply bind_Ok in Hk as (k & Hk & [= <-]). apply list_elem_of_lookup_2 in Ho as Hino, Hj.
  assert (Hkin : k ∈ omap id authored) by (apply list_elem_of_omap; by exists (Some k)).
  exists p, k. split_and!; [done..| | |].
  - by apply (contract_is_common m (omap id authored)).
  - intros levels Hlv. rewrite Heff in Hlv. unfold common_efforts in Hlv.
    pose proof (available_contracts_in _ _ _ _ _ Ha Hj Hro Hav) as Hav'.
    clear - Hlv Hav'. destruct (nonempty_all _ _) eqn:En; [|done].
    match type of Hlv with Some ?x = Some _ => assert (levels = x) as -> by congruence end. split; [by apply is_true_Some, (nonempty_all_spec _ _ En)|].
    intros l [_ Hl']%elem_of_filterb. rewrite forallb_forall in Hl'.
    apply (bool_decide_eq_true_1 (l ∈ mc_reasoningEffortLevels k)), Hl'. by apply list_elem_of_In.
  - intros c Hc. rewrite Hcap. apply elem_of_intersect. split; [intros E; apply fmap_nil_inv in E; rewrite E in Hkin; by apply not_elem_of_nil in Hkin|].
    intros s (k' & -> & Hk')%list_elem_of_fmap. apply list_elem_of_omap in Hk' as ([k2|] & Hk2 & [= ->]).
    apply list_elem_of_lookup in Hk2 as [n Hn]. destruct (Forall2_lookup_r _ _ _ _ _ Ha Hn) as (r & Hr & Hrk).
    unfold route_contract in Hrk. destruct (registry_get providers (rm_providerProfileId r)) as [q|] eqn:Eq; [|done].
    destruct (includes (pr_models q) (rm_providerModel r)) eqn:Ei; [|done]. apply bind_Ok in Hrk as (k3 & Hk3 & [= ->]).
    apply (Hc (resolve_route probe accounts configured providers r) q k'); try done.
    + rewrite Hrt. apply list_elem_of_fmap_2. by apply list_elem_of_lookup_2 in Hr.
    + by apply bool_decide_eq_true in Ei.
Qed.
End Resolution.

(** ** Configured models have a known context *)

Section KnownContext.
Context (catalog : jsstr → option (jsstr → option ModelMetadata)).
Notation metadata := (resolveEffectiveModelMetadata catalog).

Definition context_required (gateway : option GatewayConfig) (p : ProviderProfile) (modelId : jsstr) : Prop :=
  speech_backend p = false ∧ modelId ∈ pr_models p ∧ route_key (pr_id p) modelId ∉ transcriptionOnlyModelKeys gateway.

Lemma check_models_Ok exempt p models :
  check_models catalog exempt p models = Ok tt ↔
  ∀ modelId, modelId ∈ models → route_key (pr_id p) modelId ∉ exempt → hasKnownContext (metadata p modelId) = true.
Proof.
  induction models as [|x models IH]; cbn [check_models]; [split; [by intros _ ? ?%not_elem_of_nil|done]|].
  unfold includes. setoid_rewrite elem_of_cons. destruct (bool_decide _) eqn:E.
  - rewrite IH. apply bool_decide_eq_true in E. split; [intros H y [->|?]; [done|eauto]|eauto].
  - apply bool_decide_eq_false in E. destruct (hasKnownContext (metadata p x)) eqn:Ek; cbn.
    + rewrite IH. split; [intros H y [->|?]; [done|eauto]|eauto].
    + split; [done|]. intros H. rewrite H in Ek; [done|by left|done].
Qed.

(** The start-up check passes exactly when every listed model that a chat route may name has a known positive
    context; only the models of the speech backend and those of the transcription chain alone are exempt. *)
Theorem known_context_check_is_exact providers gateway :
  assertConfiguredModelsHaveKnownContext catalog providers gateway = Ok tt ↔
  ∀ p modelId, p ∈ providers → context_required gateway p modelId →
    ∃ n, md_context (metadata p modelId) = Some n ∧ 0 < n.
Proof.
  assert (Hk : ∀ m, hasKnownContext m = true ↔ ∃ n, md_context m = Some n ∧ 0 < n).
  { intros m. unfold hasKnownContext. destruct (md_context m) as [n|]; rewrite ?Z.ltb_lt;
      split; [by eauto|by intros (? & [= <-] & ?)|done|by intros (? & ? & _)]. }
  unfold assertConfiguredModelsHaveKnownContext. setoid_rewrite <-Hk. unfold context_required.
  generalize (transcriptionOnlyModelKeys gateway) as exempt. intros exempt.
  induction providers as [|p providers IH]; cbn [check_profiles]; [split; [by intros _ ? ? ?%not_elem_of_nil|done]|].
  setoid_rewrite elem_of_cons. destruct (speech_backend p) eqn:Es.
  - rewrite IH. split; [intros H q x [->|?] (? & ? & ?); [congruence|eauto]|eauto].
  - rewrite bind_Ok. setoid_rewrite IH. split.
    + intros ([] & Hc & H) q x [->|?]; [|eauto]. intros (_ & ? & ?). by apply (proj1 (check_models_Ok exempt p _) Hc).
    + intros H. exists tt. split; [|eauto]. apply check_models_Ok. intros x Hx He. apply (H p); [by left|done].
Qed.
End KnownContext.

(** ** Transcription supply *)

(** A speech member is available exactly when the gateway is enabled, its profile is registered, lists the model and
    may be dispatched, and either its local backend answers that it is available or, without one, the profile has a
    base URL and no credential reason of the closed set. *)
Theorem transcription_available_iff probe accounts configured member enabled providers :
  available (resolveTranscriptionMember probe accounts configured member enabled providers true) = true ↔
  enabled = true ∧ ∃ p, registry_get providers (rm_providerProfileId member) = Some p ∧
    rm_providerModel member ∈ pr_models p ∧ isProviderProfileDispatchable p = true ∧
    match truthy_text (pr_localBackend p) with
    | Some backend => probe backend (rm_providerModel member) = None
    | None => is_Some (truthy_text (pr_baseUrl p)) ∧ credentialReason accounts configured p = None
    end.
Proof.
  unfold resolveTranscriptionMember, resolved. destruct enabled; cbn; [|split; [done|by intros []]].
  rewrite bool_decide_eq_true. unfold member_reason, localSupplyReason, afterLocalSupply, transcription_supply, includes.
  destruct (registry_get _ _) as [p|]; [|split; [done|by intros (_ & ? & ? & _)]].
  destruct (bool_decide (rm_providerModel member ∈ pr_models p)) eqn:El; cbn [negb].
  2:{ apply bool_decide_eq_false in El. split; [done|]. by intros (_ & ? & [= <-] & ? & _). }
  apply bool_decide_eq_true in El. destruct (isProviderProfileDispatchable p) eqn:Ed; cbn [negb].
  2:{ split; [done|]. intros (_ & ? & [= <-] & _ & ? & _). congruence. }
  destruct (truthy_text (pr_localBackend p)) as [b|] eqn:Eb; cbn [mbind option_bind].
  - split; [intros H; split; [done|]; exists p; rewrite Eb; done|]. intros (_ & q & [= <-] & _ & _ & H). by rewrite Eb in H.
  - destruct (truthy_text (pr_baseUrl p)) as [u|] eqn:Eu.
    + split; [intros H; split; [done|]; exists p; rewrite Eb, Eu; split_and!; eauto|].
      intros (_ & q & [= <-] & _ & _ & H). by rewrite Eb in H; destruct H.
    + split; [done|]. intros (_ & q & [= <-] & _ & _ & H). rewrite Eb, Eu in H. by destruct H as [[? ?] _].
Qed.

(** The rates are complete exactly when each leaf is known, and a known authored or catalog leaf wins. *)
Theorem adapter_rates_complete_iff inherited m :
  hasCompleteCostRates m inherited = true ↔
  let i := default no_rates inherited in
  ∀ own inh, (own, inh) ∈ [(md_cost_input m, rate_input i); (md_cost_output m, rate_output i);
                           (md_cost_cache_read m, rate_cacheRead i); (md_cost_cache_write m, rate_cacheWrite i)] →
    is_Some (knownRate own) ∨ is_Some (knownRate inh).
Proof.
  assert (Hp : ∀ own inh, present (pickLeaf (knownRate own) (knownRate inh)) = true ↔
                          is_Some (knownRate own) ∨ is_Some (knownRate inh)).
  { intros own inh. unfold present, pickLeaf. destruct (knownRate own), (knownRate inh); cbn; split; eauto; try done.
    by intros [[? ?]|[? ?]]. }
  unfold hasCompleteCostRates, mergeAdapterCostRates. cbn [fst]. rewrite !andb_true_iff.
  cbn [rate_input rate_output rate_cacheRead rate_cacheWrite]. rewrite !Hp. cbv zeta. setoid_rewrite elem_of_cons.
  setoid_rewrite elem_of_cons. setoid_rewrite elem_of_cons. setoid_rewrite list_elem_of_singleton. split.
  - intros (((H1 & H2) & H3) & H4) own inh [[= -> ->]|[[= -> ->]|[[= -> ->]|[= -> ->]]]]; done.
  - intros H. split_and!; apply H; auto.
Qed.

(** ** A concrete catalog: two profiles behind one logical model *)

Module ModelDemo.
Definition entry (context output : Z) (levels : list jsstr) : ModelMetadata :=
  {| md_family := Some (js "gpt"); md_attachment := None; md_reasoning := Some true;
     md_reasoning_options := Some [OEffort levels]; md_tool_call := Some true; md_temperature := None;
     md_input := Some [js "text"; js "image"]; md_output := None; md_context := Some context; md_output_limit := Some output;
     md_cost_input := None; md_cost_output := None; md_cost_cache_read := None; md_cost_cache_write := None |}.
Definition profile (id : string) (m : ModelMetadata) (status : ReadinessStatus) : ProviderProfile :=
  {| pr_id := js id; pr_vendor := None; pr_kind := KCustom; pr_models := [js "m1"]; pr_readiness := Some status;
     pr_secretRef := None; pr_baseUrl := None; pr_modelMetadata := Some {[js "m1" := m]}; pr_modelMetadataSources := None;
     pr_localBackend := None; pr_accountSlotId := None |}.
Definition providers : list ProviderProfile :=
  ProviderRegistry [profile "alpha" (entry 100 20 [js "low"; js "high"]) RReady; profile "beta" (entry 80 10 [js "high"]) RBlocked].
Definition member (id : string) : RouteMember := {| rm_id := js id; rm_providerProfileId := js id; rm_providerModel := js "m1" |}.
Definition config : GatewayConfig :=
  {| gw_enabled := true; gw_defaultLogicalModelId := None; gw_transcription := None;
     gw_logicalModels := [{| lm_id := js "chat"; lm_displayName := js "Chat"; lm_autoFailover := None;
                             lm_compactThreshold := Some 60; lm_routes := [member "alpha"; member "beta"] |}] |}.
Definition catalog : jsstr → option (jsstr → option ModelMetadata) := λ _, None.
Definition probe : jsstr → jsstr → option jsstr := λ _ _, None.
Definition models : list ResolvedLogicalModel :=
  match resolveLogicalModelCatalog catalog probe None None config providers with Ok l => l | Err _ => [] end.

(** The limits are the least of both members; the effort levels those of the available one. *)
Example chat_model :
  (λ m, (rl_context m, rl_output m, rl_reasoningEffortLevels m, available <$> rl_routes m)) <$> models =
  [(Some 80, Some 10, Some [js "low"; js "high"], [true; false])].
Proof. vm_compute. reflexivity. Qed.
End ModelDemo.

Lemma failover_keeps_the_contract_witness :
  ∃ m k, m ∈ ModelDemo.models ∧ modelContract ModelDemo.catalog (ModelDemo.profile "alpha" (ModelDemo.entry 100 20 [js "low"; js "high"]) RReady) (js "m1") = Ok k ∧
    serves m k.
Proof.
  assert (Hm : ∃ m, ModelDemo.models = [m]) by (eexists; vm_compute; reflexivity). destruct Hm as [m Hm].
  assert (Hcat : resolveLogicalModelCatalog ModelDemo.catalog ModelDemo.probe None None ModelDemo.config ModelDemo.providers
                 = Ok ModelDemo.models) by (vm_compute; reflexivity).
  assert (Hin : m ∈ ModelDemo.models) by (rewrite Hm; by left).
  assert (Hav : available (resolve_route ModelDemo.probe None None ModelDemo.providers (ModelDemo.member "alpha")) = true)
    by (vm_compute; reflexivity).
  assert (Hr : resolve_route ModelDemo.probe None None ModelDemo.providers (ModelDemo.member "alpha") ∈ rl_routes m).
  { assert (head ModelDemo.models = Some m) as E by (by rewrite Hm). vm_compute in E. injection E as <-. vm_compute. by left. }
  destruct (failover_keeps_the_contract ModelDemo.catalog ModelDemo.probe None None ModelDemo.config ModelDemo.providers
              ModelDemo.models m (ModelDemo.member "alpha") Hcat Hin Hr Hav) as (p & k & Hp & _ & _ & Hk & Hs & _).
  exists m, k. split; [exact Hin|]. split; [|exact Hs].
  assert (Ep : registry_get ModelDemo.providers (js "alpha") =
               Some (ModelDemo.profile "alpha" (ModelDemo.entry 100 20 [js "low"; js "high"]) RReady)) by (vm_compute; reflexivity).
  assert (E : Some p = Some (ModelDemo.profile "alpha" (ModelDemo.entry 100 20 [js "low"; js "high"]) RReady))
    by (rewrite <-Ep; symmetry; exact Hp).
  injection E as <-. exact Hk.
Defined.
