(* ===== verification/WorkerControl.v ===== *)
(** * Worker-control sequences

    - [Durable]: the SQLite recorder of apps/nanocore/src/runtime/worker-control-sequences.ts, over
      the table [worker_control_sequence_fingerprints] as a list of rows in insertion order;
    - [SequenceRecorder]: what a recorder promises (the interface of
      apps/nanocore/src/runtime/worker-control-gateway.ts, with its contract as a law);
    - [Gateway]: the process-local sequence state of the same file, which is a client of the
      recorder, with the transactions around a request, their rollback and the crash of the process:
      its theorems are proved against the interface.  The requests are those that the gateway itself
      sequences; a gateway that is given native publishers ([publishHeartbeat], [publishControlOperation],
      [publishFinalStatus]) hands them to the database worker, which is not modelled. *)

From S2P Require Import Prelude JsValue CanonicalJson.

Local Open Scope string_scope.
Local Open Scope list_scope.
Local Open Scope Z_scope.

(** ** Shared vocabulary *)

Record WorkerControlLineage := {
  workspaceId : string;
  threadId : string;
  turnId : string;
  agentSessionId : string;
  packageSnapshotId : string;
  requestId : option string;
}.

Record RecorderInput := {
  in_lineage : WorkerControlLineage;
  in_operation : string;
  in_sequence : Z;
  in_fingerprint : jsstr;
}.

Inductive RecorderResult :=
| RecAccepted (duplicate : bool) (nextExpectedSequence : Z)
| RecConflict (operation : string) (sequence : Z)
| RecStale (operation : string) (sequence : Z).

(** One operation stream of one worker session: the columns every query selects by. *)
Record Stream := { st_session : string; st_package : string; st_operation : string }.
#[export] Instance Stream_eq_dec : EqDecision Stream.
Proof. solve_decision. Defined.

Definition stream_of (lineage : WorkerControlLineage) (operation : string) : Stream :=
  {| st_session := agentSessionId lineage; st_package := packageSnapshotId lineage;
     st_operation := operation |}.

Definition input_stream (i : RecorderInput) : Stream := stream_of (in_lineage i) (in_operation i).

(** [isDeepStrictEqual(JSON.parse(existing), JSON.parse(input))], false when parsing throws. *)
Definition same_content (existing input : jsstr) : bool :=
  match json_parse existing, json_parse input with
  | Some a, Some b => deep_equal a b
  | _, _ => false
  end.

(** ** Greatest element *)

Definition max_option (o : option Z) (z : Z) : option Z :=
  Some (match o with Some h => Z.max h z | None => z end).

Definition greatest (l : list Z) : option Z := foldl max_option None l.

Lemma greatest_from l o z :
  foldl max_option o l = Some z ↔
  (o = Some z ∨ z ∈ l) ∧ (∀ h, o = Some h → h <= z) ∧ ∀ x, x ∈ l → x <= z.
Proof.
  revert o. induction l as [|y l IH]; intros o; cbn.
  - split.
    + intros ->. split; [by left|]. split; [intros h [= ->]; lia|by intros x ?%elem_of_nil].
    + by intros ([->|[]%elem_of_nil] & _).
  - rewrite IH. unfold max_option. setoid_rewrite elem_of_cons. split.
    + intros (Hz & Hh & Hl). specialize (Hh _ eq_refl).
      destruct o as [h|]; cbn in *; (split; [|split]).
      * destruct Hz as [[= <-]|]; [|by right; right].
        destruct (Z.max_spec h y) as [[_ ->]|[_ ->]]; [by right; left|by left].
      * intros h' [= <-]. lia.
      * intros x [->|Hx]; [lia|by apply Hl].
      * destruct Hz as [[= <-]|]; [by right; left|by right; right].
      * done.
      * intros x [->|Hx]; [lia|by apply Hl].
    + intros (Hz & Hh & Hl). specialize (Hl y (or_introl eq_refl)) as Hy.
      destruct o as [h|]; cbn.
      * specialize (Hh h eq_refl). split; [|split].
        -- destruct Hz as [[= ->]|[->|]]; [left; f_equal; lia|left; f_equal; lia|by right].
        -- intros h' [= <-]. lia.
        -- intros x Hx. apply Hl. by right.
      * split; [|split].
        -- destruct Hz as [|[->|]]; [done|by left|by right].
        -- by intros h' [= <-].
        -- intros x Hx. apply Hl. by right.
Qed.

Lemma greatest_Some l z : greatest l = Some z ↔ z ∈ l ∧ ∀ x, x ∈ l → x <= z.
Proof.
  unfold greatest. rewrite greatest_from. split; [|by intros [? ?]; split; [right|]].
  by intros ([?|?] & _ & ?).
Qed.

Lemma greatest_None l : greatest l = None ↔ l = [].
Proof.
  split; [|by intros ->]. unfold greatest. destruct l as [|x l]; [done|]. cbn.
  assert (H : ∀ o, is_Some o → is_Some (foldl max_option o l)).
  { induction l as [|y l IH]; cbn; [done|]. intros o _. apply IH. by eexists. }
  destruct (H (max_option None x)) as [z ->]; [by eexists|done].
Qed.

(** The greatest element depends only on the elements. *)
Lemma greatest_ext l k : (∀ x, x ∈ l ↔ x ∈ k) → greatest l = greatest k.
Proof.
  intros H. destruct (greatest l) as [z|] eqn:El.
  - symmetry. apply greatest_Some. apply greatest_Some in El as [Hz Hl].
    split; [by apply H|]. intros x Hx. by apply Hl, H.
  - apply greatest_None in El as ->. symmetry. apply greatest_None.
    destruct k as [|x k]; [done|]. exfalso. apply (elem_of_nil x), H. left.
Qed.

(** ** What a recorder promises *)

Definition keys_of {A} (m : gmap Z A) : list Z := (map_to_list m).*1.

Definition highest {A} (m : gmap Z A) : option Z := greatest (keys_of m).

Definition next_expected (o : option Z) : Z := match o with None => 0 | Some h => h + 1 end.

(** The contract on one stream, a finite map from sequences to fingerprints: an accepted sequence
    answers replays from its content, an older unknown sequence is stale, any other is recorded. *)
Definition recorder_spec (i : RecorderInput) (m : gmap Z jsstr) : RecorderResult * gmap Z jsstr :=
  match m !! in_sequence i with
  | Some existing =>
    if same_content existing (in_fingerprint i)
    then (RecAccepted true (next_expected (highest m)), m)
    else (RecConflict (in_operation i) (in_sequence i), m)
  | None =>
    if match highest m with Some h => in_sequence i <? h | None => false end
    then (RecStale (in_operation i) (in_sequence i), m)
    else
      let m' := <[in_sequence i := in_fingerprint i]> m in
      (RecAccepted false (next_expected (highest m')), m')
  end.

Class SequenceRecorder (D : Type) := {
  rec_accept : D → RecorderInput → result string (D * RecorderResult);
  (** The content of a stream, and the consistency the promise depends on. *)
  rec_stream : D → Stream → gmap Z jsstr;
  rec_ok : D → Prop;
  rec_accept_law : ∀ d i, rec_ok d →
    ∃ d' r, rec_accept d i = Ok (d', r) ∧ rec_ok d' ∧
      (r, rec_stream d' (input_stream i)) = recorder_spec i (rec_stream d (input_stream i)) ∧
      ∀ s, s ≠ input_stream i → rec_stream d' s = rec_stream d s;
}.

Lemma elem_of_keys {A} (m : gmap Z A) k : k ∈ keys_of m ↔ is_Some (m !! k).
Proof.
  unfold keys_of. rewrite list_elem_of_fmap. split.
  - intros ([k' v] & -> & H%elem_of_map_to_list). by exists v.
  - intros [v H]. exists (k, v). split; [done|]. by apply elem_of_map_to_list.
Qed.

Lemma highest_Some {A} (m : gmap Z A) z :
  highest m = Some z ↔ is_Some (m !! z) ∧ ∀ k, is_Some (m !! k) → k <= z.
Proof. unfold highest. rewrite greatest_Some. setoid_rewrite elem_of_keys. done. Qed.

Lemma highest_None {A} (m : gmap Z A) : highest m = None ↔ m = ∅.
Proof.
  unfold highest. rewrite greatest_None. split.
  - intros H. apply map_empty. intros k. destruct (m !! k) eqn:E; [|done]. exfalso.
    apply (not_elem_of_nil k). rewrite <-H. apply elem_of_keys. by rewrite E.
  - intros ->. unfold keys_of. by rewrite map_to_list_empty.
Qed.

(** ** The SQLite recorder *)

Module Durable.

Record FingerprintRow := {
  row_lineage : WorkerControlLineage;
  row_operation : string;
  row_sequence : Z;
  row_fingerprint : jsstr;
  row_accepted_at : string;
}.

(** The table, in insertion order, and the clock the next insertion reads. *)
Record CoreDb := { rows : list FingerprintRow; clock : nat → string }.

Definition row_stream (r : FingerprintRow) : Stream := stream_of (row_lineage r) (row_operation r).

(** [WHERE agent_session_id = ? AND package_snapshot_id = ? AND operation = ?] *)
Definition in_stream (s : Stream) (r : FingerprintRow) : bool := bool_decide (row_stream r = s).

Definition select_existing (db : CoreDb) (i : RecorderInput) : option FingerprintRow :=
  find (λ r, in_stream (input_stream i) r && (row_sequence r =? in_sequence i)) (rows db).

(** [SELECT MAX(sequence)]; SQL's maximum of no rows is [NULL]. *)
Definition highestAcceptedSequence (db : CoreDb) (i : RecorderInput) : option Z :=
  greatest (row_sequence <$> filterb (in_stream (input_stream i)) (rows db)).

Definition nextExpectedSequence (db : CoreDb) (i : RecorderInput) : Z :=
  match highestAcceptedSequence db i with None => 0 | Some h => h + 1 end.

(** [INSERT]; a row with the same primary key makes SQLite throw. *)
Definition insert_row (db : CoreDb) (i : RecorderInput) : result string CoreDb :=
  require match select_existing db i with None => true | Some _ => false end
  else "SQLITE_CONSTRAINT_PRIMARYKEY";
  Ok {| rows := rows db ++ [{| row_lineage := in_lineage i; row_operation := in_operation i;
                               row_sequence := in_sequence i; row_fingerprint := in_fingerprint i;
                               row_accepted_at := clock db (length (rows db)) |}];
        clock := clock db |}.

Definition acceptWorkerControlSequence (db : CoreDb) (i : RecorderInput)
    : result string (CoreDb * RecorderResult) :=
  match select_existing db i with
  | Some existing =>
    if negb (same_content (row_fingerprint existing) (in_fingerprint i))
    then Ok (db, RecConflict (in_operation i) (in_sequence i))
    else Ok (db, RecAccepted true (nextExpectedSequence db i))
  | None =>
    if match highestAcceptedSequence db i with
       | Some highest => in_sequence i <? highest
       | None => false
       end
    then Ok (db, RecStale (in_operation i) (in_sequence i))
    else
      db' ← insert_row db i;
      Ok (db', RecAccepted false (nextExpectedSequence db' i))
  end.

(** The content of one stream, and the primary key as an invariant. *)
Definition stream_map (db : CoreDb) (s : Stream) : gmap Z jsstr :=
  list_to_map ((λ r, (row_sequence r, row_fingerprint r)) <$> filterb (in_stream s) (rows db)).

Definition primary_key (r : FingerprintRow) : Stream * Z := (row_stream r, row_sequence r).

Definition db_ok (db : CoreDb) : Prop := NoDup (primary_key <$> rows db).

Lemma stream_rows_NoDup l s :
  NoDup (primary_key <$> l) → NoDup (row_sequence <$> filterb (in_stream s) l).
Proof.
  induction l as [|r l IH]; cbn; [constructor|]. intros [Hr Hnd]%NoDup_cons.
  destruct (in_stream s r) eqn:E; [|by apply IH]. cbn. constructor; [|by apply IH].
  intros (r' & Heq & [Hin Hs]%elem_of_filterb)%list_elem_of_fmap. apply Hr.
  apply list_elem_of_fmap. exists r'. split; [|done]. unfold primary_key.
  apply bool_decide_eq_true in E, Hs. congruence.
Qed.

Lemma stream_map_lookup db s z fp :
  db_ok db →
  stream_map db s !! z = Some fp ↔
  ∃ r, r ∈ rows db ∧ row_stream r = s ∧ row_sequence r = z ∧ row_fingerprint r = fp.
Proof.
  intros Hok. unfold stream_map. rewrite <-elem_of_list_to_map.
  2:{ rewrite <-list_fmap_compose. by apply stream_rows_NoDup. }
  rewrite list_elem_of_fmap. setoid_rewrite elem_of_filterb. unfold in_stream.
  setoid_rewrite bool_decide_eq_true. split.
  - intros (r & [= -> ->] & Hin & Hs). eauto 10.
  - intros (r & Hin & Hs & <- & <-). exists r. eauto.
Qed.

Lemma select_existing_spec db i :
  db_ok db →
  stream_map db (input_stream i) !! in_sequence i = row_fingerprint <$> select_existing db i.
Proof.
  intros Hok. unfold select_existing. destruct (find _ _) as [r|] eqn:E; cbn.
  - apply find_Some in E as [Hin H]. bool_to_prop. unfold in_stream in *. bool_to_prop.
    apply stream_map_lookup; [done|]. by exists r.
  - apply eq_None_not_Some. intros (fp & (r & Hin & Hs & Hz & _)%stream_map_lookup); [|done].
    apply (proj1 (find_None _ _)) with r in E; [|done]. unfold in_stream in E.
    rewrite bool_decide_eq_true_2, Hz, Z.eqb_refl in E by done. done.
Qed.

Lemma highest_spec db i :
  db_ok db → highestAcceptedSequence db i = highest (stream_map db (input_stream i)).
Proof.
  intros Hok. unfold highestAcceptedSequence, highest. apply greatest_ext. intros z.
  rewrite elem_of_keys, list_elem_of_fmap. setoid_rewrite elem_of_filterb. unfold in_stream.
  setoid_rewrite bool_decide_eq_true. split.
  - intros (r & -> & Hin & Hs). exists (row_fingerprint r). apply stream_map_lookup; [done|]. by exists r.
  - intros (fp & (r & Hin & Hs & <- & _)%stream_map_lookup); [|done]. by exists r.
Qed.

Lemma insert_row_spec db i :
  db_ok db → select_existing db i = None →
  ∃ db', insert_row db i = Ok db' ∧ db_ok db' ∧
    stream_map db' (input_stream i) =
      <[in_sequence i := in_fingerprint i]> (stream_map db (input_stream i)) ∧
    ∀ s, s ≠ input_stream i → stream_map db' s = stream_map db s.
Proof.
  intros Hok Hn. unfold insert_row. rewrite Hn. cbn [negb]. eexists. split; [done|].
  match goal with |- db_ok ?d ∧ _ => set (db' := d) end.
  assert (Hok' : db_ok db').
  { unfold db_ok, db'. cbn [rows]. rewrite fmap_app. apply NoDup_app. split; [done|].
    split; [|apply NoDup_singleton]. intros k (r & -> & Hr)%list_elem_of_fmap.
    rewrite list_fmap_singleton, list_elem_of_singleton. intros Hk. unfold select_existing in Hn.
    apply (proj1 (find_None _ _)) with r in Hn; [|done].
    pose proof (f_equal fst Hk : row_stream r = input_stream i) as Hs.
    pose proof (f_equal snd Hk : row_sequence r = in_sequence i) as Hz. unfold in_stream in Hn.
    rewrite bool_decide_eq_true_2, Hz, Z.eqb_refl in Hn by done. done. }
  split; [done|]. split.
  - apply map_eq. intros z. apply option_eq. intros fp. rewrite stream_map_lookup by done.
    rewrite lookup_insert_Some, stream_map_lookup by done. cbn [rows db'].
    setoid_rewrite elem_of_app. setoid_rewrite list_elem_of_singleton. split.
    + intros (r & [Hin| ->] & Hs & Hz & Hf); [|by left].
      right. split; [|by exists r]. intros Heq. unfold select_existing in Hn.
      apply (proj1 (find_None _ _)) with r in Hn; [|done]. unfold in_stream in Hn.
      rewrite bool_decide_eq_true_2, Hz, Heq, Z.eqb_refl in Hn by done. done.
    + intros [[<- <-]|[_ (r & Hin & Hr)]]; [|exists r; auto]. eexists. split; [by right|]. done.
  - intros s Hs. unfold stream_map, db'. cbn [rows]. f_equal. f_equal.
    assert (Happ : ∀ l x, in_stream s x = false → filterb (in_stream s) (l ++ [x]) = filterb (in_stream s) l).
    { intros l x Hx. induction l as [|y l IH]; cbn; [by rewrite Hx|]. by rewrite IH. }
    apply Happ. unfold in_stream. apply bool_decide_eq_false. by intros <-.
Qed.

Lemma accept_refines db i :
  db_ok db →
  ∃ db' r, acceptWorkerControlSequence db i = Ok (db', r) ∧ db_ok db' ∧
    (r, stream_map db' (input_stream i)) = recorder_spec i (stream_map db (input_stream i)) ∧
    ∀ s, s ≠ input_stream i → stream_map db' s = stream_map db s.
Proof.
  intros Hok. unfold acceptWorkerControlSequence, recorder_spec, nextExpectedSequence.
  rewrite select_existing_spec by done.
  destruct (select_existing db i) as [row|] eqn:E; cbn [fmap option_fmap option_map].
  - destruct (same_content _ _); cbn; eexists _, _; (split; [done|]); (split; [done|]);
      (split; [|done]); [by rewrite highest_spec|done].
  - rewrite highest_spec by done. destruct (match highest _ with Some _ => _ | None => _ end).
    { eexists _, _. by repeat (split; [done|]). }
    destruct (insert_row_spec db i Hok E) as (db' & -> & Hok' & Hm & Hframe). cbn.
    eexists _, _. split; [done|]. split; [done|]. split; [|done].
    rewrite highest_spec, Hm by done. done.
Qed.

#[export] Instance durable_recorder : SequenceRecorder CoreDb := {
  rec_accept := acceptWorkerControlSequence;
  rec_stream := stream_map;
  rec_ok := db_ok;
  rec_accept_law := accept_refines;
}.

(** C37. The SQLite recorder implements the stream contract: on a table that satisfies its primary
    key it never fails, keeps the key, answers as the contract says on the abstract content of the
    stream, leaves that content unchanged except for a fresh acceptance, and touches no other
    stream. *)
Theorem durable_recorder_refines_contract db i :
  db_ok db →
  ∃ db' r, acceptWorkerControlSequence db i = Ok (db', r) ∧ db_ok db' ∧
    (r, stream_map db' (input_stream i)) = recorder_spec i (stream_map db (input_stream i)) ∧
    ∀ s, s ≠ input_stream i → stream_map db' s = stream_map db s.
Proof. apply accept_refines. Qed.

(** Acceptance order: within a stream rows are inserted with strictly increasing sequences. *)
Definition ordered (db : CoreDb) : Prop :=
  ∀ s, StronglySorted Z.lt (row_sequence <$> filterb (in_stream s) (rows db)).

Lemma StronglySorted_snoc (l : list Z) z :
  StronglySorted Z.lt l → (∀ x, x ∈ l → x < z) → StronglySorted Z.lt (l ++ [z]).
Proof.
  induction 1 as [|y l Hs IH Hall]; intros Hz; cbn; [repeat constructor|].
  constructor; [apply IH; intros x Hx; apply Hz; by right|].
  apply Forall_app. split; [done|]. repeat constructor. apply Hz. left.
Qed.


Lemma accept_ordered db i db' r :
  db_ok db → ordered db → acceptWorkerControlSequence db i = Ok (db', r) → ordered db'.
Proof.
  intros Hok Ho. unfold acceptWorkerControlSequence.
  destruct (select_existing db i) as [row|] eqn:E; [destruct (negb _); by intros [= <- <-]|].
  destruct (match highestAcceptedSequence db i with Some _ => _ | None => _ end) eqn:Eh;
    [by intros [= <- <-]|].
  intros (db1 & Hins & [= <- <-])%bind_Ok. unfold insert_row in Hins. rewrite E in Hins.
  injection Hins as <-. intros s. cbn [rows]. rewrite filterb_app, fmap_app. cbn [filterb].
  destruct (in_stream s _) eqn:Es; [|cbn; by rewrite app_nil_r].
  apply StronglySorted_snoc; [done|]. cbn [row_sequence].
  assert (s = input_stream i) as -> by (symmetry; by apply bool_decide_eq_true in Es).
  intros x Hx. destruct (highestAcceptedSequence db i) as [h|] eqn:Hh.
  - bool_to_prop. apply greatest_Some in Hh as [Hhin Hle]. specialize (Hle x Hx).
    assert (x ≠ in_sequence i); [|lia]. intros ->.
    apply list_elem_of_fmap in Hx as (row & Hz & [Hin Hs]%elem_of_filterb).
    unfold select_existing in E. apply (proj1 (find_None _ _)) with row in E; [|done].
    by rewrite Hs, <-Hz, Z.eqb_refl in E.
  - apply greatest_None in Hh. rewrite Hh in Hx. by apply elem_of_nil in Hx.
Qed.

Fixpoint run_accepts (db : CoreDb) (inputs : list RecorderInput)
    : result string (CoreDb * list RecorderResult) :=
  match inputs with
  | [] => Ok (db, [])
  | i :: inputs =>
    '(db', r) ← acceptWorkerControlSequence db i;
    '(db'', rs) ← run_accepts db' inputs;
    Ok (db'', r :: rs)
  end.

Lemma run_accepts_ok db inputs :
  db_ok db → ordered db →
  ∃ db' rs, run_accepts db inputs = Ok (db', rs) ∧ db_ok db' ∧ ordered db'.
Proof.
  revert db. induction inputs as [|i inputs IH]; intros db Hok Ho; [by exists db, []|]. cbn.
  destruct (accept_refines db i Hok) as (db1 & r & Hacc & Hok1 & _). rewrite Hacc. cbn.
  destruct (IH db1 Hok1) as (db2 & rs & -> & Hok2 & Ho2); [exact (accept_ordered db i db1 r Hok Ho Hacc)|].
  by exists db2, (r :: rs).
Qed.

(** Whatever requests arrive, in whatever order and over whatever streams, the recorder never
    fails, every (stream, sequence) pair is bound to one row for ever, and the accepted sequences of
    each stream are strictly increasing in acceptance order. *)
Theorem durable_history_is_ordered clk inputs :
  ∃ db rs, run_accepts {| rows := []; clock := clk |} inputs = Ok (db, rs) ∧
    NoDup (primary_key <$> rows db) ∧
    ∀ s, StronglySorted Z.lt (row_sequence <$> filterb (in_stream s) (rows db)).
Proof. apply run_accepts_ok; [constructor|]. intros s. constructor. Qed.

End Durable.

(** ** The process-local gateway *)

Module Gateway.

(** The sequence part of [WorkerControlSessionState]. *)
Record SessionState := {
  operationFingerprintsBySequence : gmap string (gmap Z jsstr);
  highestOperationSequenceByOperation : gmap string Z;
}.

(** [WorkerControlGatewayError] by code, and the [TypeError] of the canonical encoder. *)
Inductive GatewayError :=
| SequenceConflict (operation : string) (sequence : Z)
| SequenceStale (operation : string) (sequence : Z)
| FingerprintError (e : CanonicalError)
| StorageError (message : string).

Record Acceptance := { duplicate : bool; nextSequence : Z }.

(** [const copy = { ...payload }; delete copy.authorization; delete copy.onAuthenticated] *)
Definition without_transport (ms : list (jsstr * jsval)) : list (jsstr * jsval) :=
  filterb (λ kv, negb (bool_decide (kv.1 = js "authorization"))
                 && negb (bool_decide (kv.1 = js "onAuthenticated"))) ms.

Definition sequencedControlFingerprint (payload : jsval) : result CanonicalError jsstr :=
  match payload with
  | JObj ms => canonicalJsonText (JObj (without_transport ms))
  | _ => canonicalJsonText payload
  end.

Definition nextExpectedOperationSequence (state : SessionState) (operation : string) : Z :=
  match highestOperationSequenceByOperation state !! operation with
  | None => 0
  | Some highest => highest + 1
  end.

(** [state.operationFingerprintsBySequence.get(operation)], created empty on first use. *)
Definition ensure_operation (state : SessionState) (operation : string) : SessionState :=
  match operationFingerprintsBySequence state !! operation with
  | Some _ => state
  | None =>
    {| operationFingerprintsBySequence := <[operation := ∅]> (operationFingerprintsBySequence state);
       highestOperationSequenceByOperation := highestOperationSequenceByOperation state |}
  end.

Definition fingerprints_of (state : SessionState) (operation : string) : gmap Z jsstr :=
  default ∅ (operationFingerprintsBySequence state !! operation).

(** [fingerprints.set(sequence, fingerprint)] and the new high-watermark. *)
Definition publish (state : SessionState) (operation : string) (sequence : Z) (fingerprint : jsstr)
    : SessionState :=
  {| operationFingerprintsBySequence :=
       <[operation := <[sequence := fingerprint]> (fingerprints_of state operation)]>
         (operationFingerprintsBySequence state);
     highestOperationSequenceByOperation :=
       <[operation := match highestOperationSequenceByOperation state !! operation with
                      | None => sequence
                      | Some highest => Z.max highest sequence
                      end]> (highestOperationSequenceByOperation state) |}.

Section Client.
Context {D : Type} `{!SequenceRecorder D}.

(** [sequenceRecorder?.accept(...)]: without a recorder there is nothing durable. *)
Definition recorder_accept (recorder : option D) (i : RecorderInput)
    : result string (option D * option RecorderResult) :=
  match recorder with
  | None => Ok (None, None)
  | Some d => '(d', r) ← rec_accept d i; Ok (Some d', Some r)
  end.

(** Session and recorder are mutated before an error is thrown, so both are returned with it. *)
Definition acceptSequencedControlOperation (state : SessionState) (operation : string)
    (sequence : Z) (payload : jsval) (lineage : WorkerControlLineage) (recorder : option D)
    : SessionState * option D * result GatewayError Acceptance :=
  let state := ensure_operation state operation in
  let fingerprints := fingerprints_of state operation in
  match sequencedControlFingerprint payload with
  | Err e => (state, recorder, Err (FingerprintError e))
  | Ok fingerprint =>
    match fingerprints !! sequence with
    | Some existing =>
      if negb (bool_decide (existing = fingerprint))
      then (state, recorder, Err (SequenceConflict operation sequence))
      else (state, recorder,
            Ok {| duplicate := true; nextSequence := nextExpectedOperationSequence state operation |})
    | None =>
      if match highestOperationSequenceByOperation state !! operation with
         | Some highest => sequence <? highest
         | None => false
         end
      then (state, recorder, Err (SequenceStale operation sequence))
      else
        match recorder_accept recorder {| in_lineage := lineage; in_operation := operation;
                in_sequence := sequence; in_fingerprint := fingerprint |} with
        | Err message => (state, recorder, Err (StorageError message))
        | Ok (recorder', durable) =>
          match durable with
          | Some (RecConflict op sq) => (state, recorder', Err (SequenceConflict op sq))
          | Some (RecStale op sq) => (state, recorder', Err (SequenceStale op sq))
          | Some (RecAccepted dup next) =>
            (publish state operation sequence fingerprint, recorder',
             Ok {| duplicate := dup; nextSequence := next |})
          | None =>
            let state' := publish state operation sequence fingerprint in
            (state', recorder',
             Ok {| duplicate := false;
                   nextSequence := nextExpectedOperationSequence state' operation |})
          end
        end
    end
  end.

Definition rollbackSequencedControlOperation (state : SessionState) (operation : string)
    (sequence : Z) : SessionState :=
  match delete sequence <$> operationFingerprintsBySequence state !! operation with
  | None =>
    {| operationFingerprintsBySequence := delete operation (operationFingerprintsBySequence state);
       highestOperationSequenceByOperation :=
         delete operation (highestOperationSequenceByOperation state) |}
  | Some fingerprints =>
    match highest fingerprints with
    | None =>
      {| operationFingerprintsBySequence := delete operation (operationFingerprintsBySequence state);
         highestOperationSequenceByOperation :=
           delete operation (highestOperationSequenceByOperation state) |}
    | Some h =>
      {| operationFingerprintsBySequence :=
           <[operation := fingerprints]> (operationFingerprintsBySequence state);
         highestOperationSequenceByOperation :=
           <[operation := h]> (highestOperationSequenceByOperation state) |}
    end
  end.

(** *** Consistency of the session with the recorder *)

Context (lineage : WorkerControlLineage).

Definition recorded (d : D) (operation : string) (sequence : Z) : option jsstr :=
  rec_stream d (stream_of lineage operation) !! sequence.

(** Every local fingerprint is backed by a durable one with the same content. *)
Definition cache_ok (state : SessionState) (d : D) : Prop :=
  ∀ operation sequence fp, fingerprints_of state operation !! sequence = Some fp →
    ∃ old, recorded d operation sequence = Some old ∧ same_content old fp = true.

Lemma fingerprints_ensure state op op' :
  fingerprints_of (ensure_operation state op) op' = fingerprints_of state op'.
Proof.
  unfold ensure_operation, fingerprints_of. destruct (_ !! op) eqn:E; [done|]. cbn.
  destruct (decide (op = op')) as [<-|]; [by rewrite lookup_insert_eq, E|by rewrite lookup_insert_ne].
Qed.

Lemma fingerprints_publish state op seq fp op' :
  fingerprints_of (publish state op seq fp) op' =
  if decide (op = op') then <[seq := fp]> (fingerprints_of state op) else fingerprints_of state op'.
Proof.
  unfold publish, fingerprints_of. cbn.
  destruct (decide (op = op')) as [<-|]; [by rewrite lookup_insert_eq|by rewrite lookup_insert_ne].
Qed.

Lemma wf_without_transport ms : wf_value (JObj ms) → wf_value (JObj (without_transport ms)).
Proof.
  inversion 1 as [| | | | | | |? Hnd Hms]; subst. constructor.
  - eapply sublist_NoDup; [exact Hnd|]. apply fmap_sublist, filterb_sublist.
  - by apply filterb_Forall.
Qed.

(** A fingerprint has the same content as itself, so a fresh acceptance can be replayed. *)
Lemma fingerprint_same payload fp :
  wf_value payload → sequencedControlFingerprint payload = Ok fp → same_content fp fp = true.
Proof.
  intros Hwf Hfp. unfold same_content.
  assert (∃ v, wf_value v ∧ canonicalJsonText v = Ok fp) as (v & Hv & Ht).
  { destruct payload; try (by eauto). eexists. split; [by apply wf_without_transport|done]. }
  pose proof (canonical_text_deep_equal true v v fp fp Hv Hv Ht Ht) as H.
  by rewrite bool_decide_eq_true_2 in H.
Qed.

(** What one acceptance does to the recorder and the session. *)
Record accept_facts (state state' : SessionState) (d d' : D) (op : string) (seq : Z) (fp : jsstr)
    (res : result GatewayError Acceptance) : Prop := {
  af_ok : rec_ok d';
  af_cache : cache_ok state' d';
  af_keeps : ∀ o s old, recorded d o s = Some old → recorded d' o s = Some old;
  af_result :
    match res with
    | Ok a => (∃ old, recorded d' op seq = Some old ∧ same_content old fp = true) ∧
              (duplicate a = false ↔ recorded d op seq = None)
    | Err _ => (∀ o s, recorded d' o s = recorded d o s) ∧
               ∀ o, fingerprints_of state' o = fingerprints_of state o
    end;
}.

Lemma cache_ok_publish state d op seq fp :
  cache_ok state d → (∃ old, recorded d op seq = Some old ∧ same_content old fp = true) →
  cache_ok (publish state op seq fp) d.
Proof.
  intros Hc Hr o s f. rewrite fingerprints_publish. destruct (decide (op = o)) as [<-|]; [|apply Hc].
  intros [[<- <-]|[_ H]]%lookup_insert_Some; [done|by apply Hc].
Qed.

Lemma recorder_step d op seq fp :
  rec_ok d → same_content fp fp = true →
  ∃ d' r, rec_accept d {| in_lineage := lineage; in_operation := op; in_sequence := seq;
                          in_fingerprint := fp |} = Ok (d', r) ∧ rec_ok d' ∧
    (∀ o s old, recorded d o s = Some old → recorded d' o s = Some old) ∧
    match r with
    | RecAccepted dup _ => (∃ old, recorded d' op seq = Some old ∧ same_content old fp = true) ∧
        (dup = false ↔ recorded d op seq = None)
    | _ => ∀ o s, recorded d' o s = recorded d o s
    end.
Proof.
  intros Hok Hself. set (i := {| in_lineage := lineage; in_operation := op |}).
  destruct (rec_accept_law d i Hok) as (d' & r & Hacc & Hok' & Hspec & Hframe).
  exists d', r. split; [done|]. split; [done|]. unfold recorder_spec in Hspec. unfold recorded.
  change (input_stream i) with (stream_of lineage op) in *. cbn [in_sequence in_fingerprint i] in Hspec.
  assert (Hsame : rec_stream d' (stream_of lineage op) = rec_stream d (stream_of lineage op) →
                  ∀ o s, rec_stream d' (stream_of lineage o) !! s = rec_stream d (stream_of lineage o) !! s).
  { intros H o s. destruct (decide (stream_of lineage o = stream_of lineage op)) as [->|Hne];
      [by rewrite H|by rewrite Hframe]. }
  destruct (rec_stream d (stream_of lineage op) !! seq) as [old|] eqn:E.
  - destruct (same_content old fp) eqn:Es; injection Hspec as -> Hm; pose proof (Hsame Hm) as Hall;
      (split; [intros o s x Hx; by rewrite Hall|]); [|done].
    split; [|done]. exists old. by rewrite Hall.
  - destruct (match highest _ with Some _ => _ | None => _ end).
    { injection Hspec as -> Hm. pose proof (Hsame Hm) as Hall.
      split; [intros o s x Hx; by rewrite Hall|done]. }
    injection Hspec as -> Hm. split.
    + intros o s x Hx. destruct (decide (stream_of lineage o = stream_of lineage op)) as [Ho|Hne];
        [|by rewrite Hframe]. rewrite Ho in *. rewrite Hm.
      rewrite lookup_insert_ne; [done|]. intros <-. congruence.
    + split; [|done]. exists fp. by rewrite Hm, lookup_insert_eq.
Qed.

Lemma accept_step state d op seq payload fp :
  rec_ok d → cache_ok state d → wf_value payload → sequencedControlFingerprint payload = Ok fp →
  ∃ state' d' res,
    acceptSequencedControlOperation state op seq payload lineage (Some d) = (state', Some d', res) ∧
    accept_facts state state' d d' op seq fp res.
Proof.
  intros Hok Hc Hwf Hfp. unfold acceptSequencedControlOperation. rewrite Hfp.
  assert (Hce : cache_ok (ensure_operation state op) d).
  { intros o s f. rewrite fingerprints_ensure. apply Hc. }
  assert (Hkeep : ∀ e, accept_facts state (ensure_operation state op) d d op seq fp (Err e)).
  { intros e. split; try done. split; [done|]. intros o. apply fingerprints_ensure. }
  destruct (fingerprints_of (ensure_operation state op) op !! seq) as [existing|] eqn:El.
  - destruct (decide (existing = fp)) as [->|Hne].
    + rewrite bool_decide_eq_true_2 by done. cbn [negb]. eexists _, _, _. split; [done|].
      destruct (Hce _ _ _ El) as (old & Hold & Hs). split; try done.
      split; [by exists old|]. cbn. by rewrite Hold.
    + rewrite bool_decide_eq_false_2 by done. eexists _, _, _. split; [done|]. apply Hkeep.
  - destruct (match _ !! op with Some _ => _ | None => _ end); [eexists _, _, _; eauto|].
    cbn [recorder_accept].
    destruct (recorder_step d op seq fp Hok) as (d' & r & -> & Hok' & Hmono & Hr);
      [by eapply fingerprint_same|]. cbn.
    assert (Hrej : (∀ o s, recorded d' o s = recorded d o s) →
      ∀ e, accept_facts state (ensure_operation state op) d d' op seq fp (Err e)).
    { intros Hsame e. split; try done.
      - intros o s f Hf. rewrite Hsame. by apply Hce.
      - split; [done|]. intros o. apply fingerprints_ensure. }
    destruct r as [dup next|op' sq|op' sq]; [|eexists _, _, _; split; [done|]; by apply Hrej..].
    destruct Hr as [Hrec Hdup]. eexists _, _, _. split; [done|]. split; try done.
    apply cache_ok_publish; [|done]. intros o s f Hf.
    destruct (Hce _ _ _ Hf) as (old & Hold & Hs). exists old. split; [by apply Hmono|done].
Qed.

(** *** Rollback *)

(** The high-watermark of an operation is the greatest sequence its map holds. *)
Definition watermark_ok (state : SessionState) : Prop :=
  ∀ op, highestOperationSequenceByOperation state !! op = highest (fingerprints_of state op).

Lemma highest_insert (m : gmap Z jsstr) z fp :
  highest (<[z := fp]> m) = max_option (highest m) z.
Proof.
  unfold max_option. apply highest_Some. split.
  - destruct (highest m) as [h|] eqn:E; [|rewrite lookup_insert_eq; by eexists].
    apply highest_Some in E as [Hh _]. destruct (Z.max_spec h z) as [[_ ->]|[_ ->]].
    + rewrite lookup_insert_eq. by eexists.
    + destruct (decide (z = h)) as [->|]; [rewrite lookup_insert_eq; by eexists|].
      by rewrite lookup_insert_ne.
  - intros k Hk. destruct (decide (z = k)) as [<-|Hne].
    + destruct (highest m); lia.
    + rewrite lookup_insert_ne in Hk by done. destruct (highest m) as [h|] eqn:E.
      * apply highest_Some in E as [_ Hle]. specialize (Hle k Hk). lia.
      * apply highest_None in E as ->. rewrite lookup_empty in Hk. by destruct Hk.
Qed.

Lemma watermark_publish state op seq fp :
  watermark_ok state → watermark_ok (publish state op seq fp).
Proof.
  intros Hw op'. rewrite fingerprints_publish. unfold publish. cbn.
  destruct (decide (op = op')) as [<-|Hne].
  - rewrite lookup_insert_eq, highest_insert, <-Hw. unfold max_option. by destruct (_ !! op).
  - by rewrite lookup_insert_ne, Hw.
Qed.

Lemma watermark_ensure state op : watermark_ok state → watermark_ok (ensure_operation state op).
Proof.
  intros Hw op'. rewrite fingerprints_ensure, <-Hw. unfold ensure_operation. by destruct (_ !! op).
Qed.

(** The rollback removes the sequence and leaves the greatest one that remains as the watermark. *)
Lemma rollback_fingerprints state op seq o :
  fingerprints_of (rollbackSequencedControlOperation state op seq) o =
  if decide (op = o) then delete seq (fingerprints_of state op) else fingerprints_of state o.
Proof.
  unfold rollbackSequencedControlOperation, fingerprints_of.
  destruct (operationFingerprintsBySequence state !! op) as [m|] eqn:E; cbn [fmap option_fmap option_map].
  - destruct (highest (delete seq m)) as [h|] eqn:Eh; cbn [operationFingerprintsBySequence].
    + case_decide as H; [subst o; by rewrite lookup_insert_eq|by rewrite lookup_insert_ne].
    + apply highest_None in Eh. case_decide as H; [subst o; rewrite lookup_delete_eq; cbn; by rewrite Eh|by rewrite lookup_delete_ne].
  - cbn [operationFingerprintsBySequence]. case_decide as H; [subst o; rewrite lookup_delete_eq; cbn; by rewrite delete_empty|by rewrite lookup_delete_ne].
Qed.

Lemma rollback_highest state op seq o :
  highestOperationSequenceByOperation (rollbackSequencedControlOperation state op seq) !! o =
  if decide (op = o) then highest (delete seq (fingerprints_of state op)) else highestOperationSequenceByOperation state !! o.
Proof.
  unfold rollbackSequencedControlOperation, fingerprints_of.
  destruct (operationFingerprintsBySequence state !! op) as [m|] eqn:E; cbn [fmap option_fmap option_map default from_option].
  - destruct (highest (delete seq m)) as [h|] eqn:Eh; cbn [highestOperationSequenceByOperation].
    + case_decide as H; [subst o; by rewrite lookup_insert_eq|by rewrite lookup_insert_ne].
    + case_decide as H; [subst o; by rewrite lookup_delete_eq|by rewrite lookup_delete_ne].
  - cbn [highestOperationSequenceByOperation]. case_decide as H; [subst o; rewrite lookup_delete_eq, delete_empty; by vm_compute|by rewrite lookup_delete_ne].
Qed.

Lemma watermark_rollback state op seq : watermark_ok state → watermark_ok (rollbackSequencedControlOperation state op seq).
Proof. intros Hw o. rewrite rollback_highest, rollback_fingerprints. case_decide; [done|apply Hw]. Qed.

(** What an acceptance does to the session: nothing that can be seen, or one new fingerprint. *)
Lemma accept_session state op seq payload recorder state' recorder' res :
  acceptSequencedControlOperation state op seq payload lineage recorder = (state', recorder', res) →
  (state' = ensure_operation state op ∧
   match res with Ok a => duplicate a = true ∧ is_Some (fingerprints_of state op !! seq) ∧ recorder' = recorder | Err _ => True end) ∨
  ∃ fp a, sequencedControlFingerprint payload = Ok fp ∧ res = Ok a ∧ fingerprints_of state op !! seq = None ∧
          state' = publish (ensure_operation state op) op seq fp.
Proof.
  unfold acceptSequencedControlOperation. destruct (sequencedControlFingerprint payload) as [fp|]; [|intros [= <- _ <-]; by left].
  rewrite fingerprints_ensure. destruct (fingerprints_of state op !! seq) as [old|] eqn:E.
  - destruct (negb _); intros [= <- <- <-]; left; by split_and!.
  - destruct (match _ !! op with Some _ => _ | None => _ end); [intros [= <- _ <-]; by left|].
    destruct (recorder_accept _ _) as [[r' [[dup next|?|?]|]]|]; intros [= <- _ <-]; first [by left|right; by eexists _, _].
Qed.

Lemma accept_watermark state op seq payload recorder state' recorder' res :
  acceptSequencedControlOperation state op seq payload lineage recorder = (state', recorder', res) → watermark_ok state → watermark_ok state'.
Proof.
  intros [[-> _]|(fp & a & _ & _ & _ & ->)]%accept_session Hw; [by apply watermark_ensure|by apply watermark_publish, watermark_ensure].
Qed.

(** Rolling back a failed publication undoes it: after a successful acceptance of a sequence the
    session did not hold, the rollback restores every fingerprint and every high-watermark. *)
Lemma rollback_restores state op seq payload recorder state' recorder' res :
  watermark_ok state → fingerprints_of state op !! seq = None →
  acceptSequencedControlOperation state op seq payload lineage recorder = (state', recorder', res) →
  ∀ o, fingerprints_of (rollbackSequencedControlOperation state' op seq) o = fingerprints_of state o ∧
    highestOperationSequenceByOperation (rollbackSequencedControlOperation state' op seq) !! o = highestOperationSequenceByOperation state !! o.
Proof.
  intros Hw Hn Hacc o. pose proof (watermark_rollback _ op seq (accept_watermark _ _ _ _ _ _ _ _ Hacc Hw)) as Hw'.
  assert (fingerprints_of (rollbackSequencedControlOperation state' op seq) o = fingerprints_of state o) as E.
  { rewrite rollback_fingerprints. apply accept_session in Hacc as [[-> _]|(fp & a & _ & _ & _ & ->)].
    - rewrite !fingerprints_ensure. case_decide as H; [subst o; by rewrite delete_id|done].
    - destruct (decide (op = o)) as [<-|Hne].
      + by rewrite fingerprints_publish, decide_True, fingerprints_ensure, delete_insert_id by done.
      + by rewrite fingerprints_publish, decide_False, fingerprints_ensure by done. }
  split; [done|]. by rewrite Hw', Hw, E.
Qed.

(** An acceptance sees the session through its fingerprints and watermarks only. *)
Lemma accept_congruence state1 state2 op seq payload recorder :
  (∀ o, fingerprints_of state1 o = fingerprints_of state2 o ∧
        highestOperationSequenceByOperation state1 !! o = highestOperationSequenceByOperation state2 !! o) →
  (acceptSequencedControlOperation state1 op seq payload lineage recorder).2 =
  (acceptSequencedControlOperation state2 op seq payload lineage recorder).2.
Proof.
  intros He. unfold acceptSequencedControlOperation. destruct (sequencedControlFingerprint payload) as [fp|]; [|done].
  assert (∀ st, highestOperationSequenceByOperation (ensure_operation st op) !! op = highestOperationSequenceByOperation st !! op) as Hh
    by (intros st; unfold ensure_operation; by destruct (operationFingerprintsBySequence st !! op)).
  rewrite !fingerprints_ensure, !Hh, (proj1 (He op)), (proj2 (He op)).
  assert (nextExpectedOperationSequence (ensure_operation state1 op) op = nextExpectedOperationSequence (ensure_operation state2 op) op) as Hnext
    by (unfold nextExpectedOperationSequence; by rewrite !Hh, (proj2 (He op))).
  destruct (_ !! seq); [destruct (negb _); cbn; by rewrite ?Hnext|]. destruct (match _ !! op with Some _ => _ | None => _ end); [done|].
  destruct (recorder_accept _ _) as [[r' [[dup next|?|?]|]]|]; try done. cbn. do 2 f_equal.
  unfold nextExpectedOperationSequence, publish. cbn. by rewrite !lookup_insert_eq, !Hh, (proj2 (He op)).
Qed.

(** *** Requests with what follows the acceptance

    An accepted request is projected, recorded and reported, and any of that can throw.  A heartbeat and a
    final status then take their acceptance back in the session ([recordHeartbeat], [recordFinalStatus]); if
    the caller has configured a transaction around them, the recorder is rolled back with it.  The other
    operations take nothing back.  A final status also appends a canonical event, which counts as what
    follows. *)

Inductive Downstream := DsDone | DsThrows | DsCrash.

Inductive RequestFailure := NotAccepted (e : GatewayError) | DownstreamFailed.

(** [runHeartbeatTransaction] and [runFinalStatusTransaction] are configured. *)
Context (heartbeat_transaction final_transaction : bool).

Definition transactional (operation : string) : bool :=
  if bool_decide (operation = "heartbeat") then heartbeat_transaction
  else if bool_decide (operation = "final_status") then final_transaction
  else false.

(** The recorder after a request that threw or was lost. *)
Definition undone {R} (operation : string) (before after : R) : R := if transactional operation then before else after.

(** The session after a request that threw; [had]: it held the sequence before. *)
Definition taken_back (operation : string) (sequence : Z) (had : bool) (res : result GatewayError Acceptance) (state : SessionState)
    : SessionState :=
  if bool_decide (operation = "heartbeat") then
    match res with
    | Ok a => if duplicate a then state else rollbackSequencedControlOperation state operation sequence
    | Err _ => state
    end
  else if bool_decide (operation = "final_status") then
    if had then state else rollbackSequencedControlOperation state operation sequence
  else state.

Definition fresh_session : SessionState :=
  {| operationFingerprintsBySequence := ∅; highestOperationSequenceByOperation := ∅ |}.

(** [None]: the process was lost before the answer. *)
Definition handle_request (operation : string) (sequence : Z) (payload : jsval) (downstream : Downstream)
    (state : SessionState) (recorder : option D) : SessionState * option D * option (result RequestFailure Acceptance) :=
  let had := bool_decide (is_Some (fingerprints_of state operation !! sequence)) in
  let '(state', recorder', res) := acceptSequencedControlOperation state operation sequence payload lineage recorder in
  match downstream, res with
  | DsCrash, _ => (fresh_session, undone operation recorder recorder', None)
  | DsDone, Ok a => (state', recorder', Some (Ok a))
  | _, Ok a => (taken_back operation sequence had res state', undone operation recorder recorder', Some (Err DownstreamFailed))
  | _, Err e => (taken_back operation sequence had res state', undone operation recorder recorder', Some (Err (NotAccepted e)))
  end.

(** *** Histories of requests and restarts *)

Inductive GatewayEvent :=
| Request (operation : string) (sequence : Z) (payload : jsval) (downstream : Downstream)
| Restart.

(** The answers, newest first; a restart loses the session and keeps the recorder. *)
Definition Log : Type := list (string * Z * option (result RequestFailure Acceptance)).

Fixpoint run_gateway (state : SessionState) (recorder : option D) (log : Log)
    (events : list GatewayEvent) : SessionState * option D * Log :=
  match events with
  | [] => (state, recorder, log)
  | Restart :: events => run_gateway fresh_session recorder log events
  | Request op seq payload downstream :: events =>
    let '(state', recorder', res) := handle_request op seq payload downstream state recorder in
    run_gateway state' recorder' ((op, seq, res) :: log) events
  end.

(** The (operation, sequence) pairs whose request was carried out to its end as a new one. *)
Definition fresh_accepts (log : Log) : list (string * Z) :=
  omap (λ entry, match entry.2 with
                 | Some (Ok a) => if duplicate a then None else Some entry.1
                 | _ => None
                 end) log.

Definition wf_event (e : GatewayEvent) : Prop :=
  match e with Request _ _ payload _ => wf_value payload | Restart => True end.

Lemma cache_ok_fresh d : cache_ok fresh_session d.
Proof. intros o s f. unfold fingerprints_of. cbn. by rewrite lookup_empty. Qed.

Lemma watermark_fresh : watermark_ok fresh_session.
Proof. intros o. unfold fingerprints_of, fresh_session. cbn. rewrite !lookup_empty. by vm_compute. Qed.

Definition log_recorded (d0 d : D) (log : Log) : Prop :=
  NoDup (fresh_accepts log) ∧
  ∀ op seq, (op, seq) ∈ fresh_accepts log →
    recorded d0 op seq = None ∧ is_Some (recorded d op seq).

(** What one request does to session and recorder. *)
Record request_facts (state state' : SessionState) (d d' : D) (op : string) (seq : Z)
    (answer : option (result RequestFailure Acceptance)) : Prop := {
  rq_ok : rec_ok d';
  rq_cache : cache_ok state' d';
  rq_watermark : watermark_ok state';
  rq_keeps : ∀ o s old, recorded d o s = Some old → recorded d' o s = Some old;
  rq_fresh : ∀ a, answer = Some (Ok a) → duplicate a = false → recorded d op seq = None ∧ is_Some (recorded d' op seq);
}.

(** Fewer fingerprints are backed too. *)
Lemma cache_ok_taken_back state op seq had res d : cache_ok state d → cache_ok (taken_back op seq had res state) d.
Proof.
  intros Hc. assert (cache_ok (rollbackSequencedControlOperation state op seq) d) as Hr.
  { intros o s f. rewrite rollback_fingerprints. case_decide as H; [subst o|apply Hc]. intros [_ Hf]%lookup_delete_Some. by apply Hc. }
  unfold taken_back. by repeat case_match.
Qed.

Lemma watermark_taken_back state op seq had res : watermark_ok state → watermark_ok (taken_back op seq had res state).
Proof. intros Hw. pose proof (watermark_rollback state op seq Hw). unfold taken_back. by repeat case_match. Qed.

(** The session of a failed request is backed by the recorder as it was before. *)
Lemma taken_back_before state op seq payload d state' d' res fp :
  cache_ok state d → accept_facts state state' d d' op seq fp res → sequencedControlFingerprint payload = Ok fp →
  acceptSequencedControlOperation state op seq payload lineage (Some d) = (state', Some d', res) → transactional op = true →
  cache_ok (taken_back op seq (bool_decide (is_Some (fingerprints_of state op !! seq))) res state') d.
Proof.
  intros Hc Haf Hfp Hacc Htx. pose proof (af_result _ _ _ _ _ _ _ _ Haf) as Hres. pose proof (af_keeps _ _ _ _ _ _ _ _ Haf) as Hkeep.
  apply accept_session in Hacc as [[-> Hr]|(fp' & a & Hfp' & -> & Hn & ->)].
  { apply cache_ok_taken_back. intros o s f. rewrite fingerprints_ensure. apply Hc. }
  rewrite Hfp in Hfp'. injection Hfp' as <-. rewrite Hn, bool_decide_false by (by intros [? ?]).
  assert (cache_ok (rollbackSequencedControlOperation (publish (ensure_operation state op) op seq fp) op seq) d) as Hrb.
  { intros o s f. rewrite rollback_fingerprints. destruct (decide (op = o)) as [<-|Hne].
    - rewrite fingerprints_publish, decide_True, fingerprints_ensure, delete_insert_id by done. apply Hc.
    - rewrite fingerprints_publish, decide_False, fingerprints_ensure by done. apply Hc. }
  unfold transactional in Htx. unfold taken_back. repeat case_bool_decide; try done.
  destruct (duplicate a) eqn:Ed; [|done]. destruct Hres as [(old & Hold & Hs) Hdup].
  apply cache_ok_publish; [intros o s f; rewrite fingerprints_ensure; apply Hc|].
  destruct (recorded d op seq) as [x|] eqn:Ex; [|by specialize (proj2 Hdup eq_refl)].
  apply Hkeep in Ex. exists x. split; [done|]. congruence.
Qed.

Lemma request_step state d op seq payload downstream :
  rec_ok d → cache_ok state d → watermark_ok state → wf_value payload →
  ∃ state' d' answer, handle_request op seq payload downstream state (Some d) = (state', Some d', answer) ∧
    request_facts state state' d d' op seq answer.
Proof.
  intros Hok Hc Hw Hwf. unfold handle_request. set (had := bool_decide _).
  destruct (sequencedControlFingerprint payload) as [fp|e] eqn:Hfp.
  - destruct (accept_step state d op seq payload fp Hok Hc Hwf Hfp) as (state' & d' & res & Hacc & Haf). rewrite Hacc.
    pose proof (accept_watermark _ _ _ _ _ _ _ _ Hacc Hw) as Hw'. pose proof (taken_back_before _ _ _ _ _ _ _ _ _ Hc Haf Hfp Hacc) as Hback.
    destruct Haf as [Hok' Hc' Hkeep Hres]. fold had in Hback.
    assert (∀ st ans, watermark_ok st → cache_ok st (undone op d d') → (∀ a, ans ≠ Some (Ok a)) → request_facts state st d (undone op d d') op seq ans) as Hfail.
    { intros st ans Hst Hcst Hans. split; try done.
      - unfold undone. by destruct (transactional op).
      - unfold undone. destruct (transactional op); auto.
      - intros a ->. by destruct (Hans a). }
    assert (cache_ok (taken_back op seq had res state') (undone op d d')) as Htb.
    { unfold undone. destruct (transactional op); [by apply Hback|by apply cache_ok_taken_back]. }
    assert (undone op (Some d) (Some d') = Some (undone op d d')) as -> by (unfold undone; by destruct (transactional op)).
    destruct downstream.
    + destruct res as [a|e]; eexists _, _, _; (split; [done|]); [|apply Hfail; [by apply watermark_taken_back|done|done]].
      split; try done. intros b [= <-] Hd. destruct Hres as [(old & Hold & _) Hdup]. split; [by apply Hdup|by eexists].
    + destruct res as [a|e]; eexists _, _, _; (split; [done|]); (apply Hfail; [by apply watermark_taken_back|done|done]).
    + eexists _, _, _. split; [done|]. apply Hfail; [apply watermark_fresh|apply cache_ok_fresh|done].
  - assert (acceptSequencedControlOperation state op seq payload lineage (Some d) = (ensure_operation state op, Some d, Err (FingerprintError e))) as ->
      by (unfold acceptSequencedControlOperation; by rewrite Hfp).
    assert (undone op (Some d) (Some d) = Some d) as -> by (unfold undone; by destruct (transactional op)).
    assert (cache_ok (ensure_operation state op) d) by (intros o s f; rewrite fingerprints_ensure; apply Hc).
    destruct downstream; eexists _, _, _; (split; [done|]); split; try done;
      first [apply cache_ok_fresh|apply watermark_fresh|by apply cache_ok_taken_back|by apply watermark_taken_back, watermark_ensure].
Qed.

Lemma run_gateway_facts d0 events : ∀ state d log,
  rec_ok d → cache_ok state d → watermark_ok state → Forall wf_event events →
  (∀ o s old, recorded d0 o s = Some old → recorded d o s = Some old) → log_recorded d0 d log →
  ∃ state' d' log', run_gateway state (Some d) log events = (state', Some d', log') ∧
    rec_ok d' ∧ cache_ok state' d' ∧ watermark_ok state' ∧ log_recorded d0 d' log'.
Proof.
  induction events as [|[op seq payload downstream|] events IH]; intros state d log Hok Hc Hw Hwf Hmono Hlog; cbn [run_gateway].
  - eauto 10.
  - apply Forall_cons in Hwf as [Hp Hwf].
    destruct (request_step state d op seq payload downstream Hok Hc Hw Hp) as (state' & d' & answer & -> & [Hok' Hc' Hw' Hkeep Hfr]).
    apply IH; [done|done|done|done|by auto|]. destruct Hlog as [Hnd Hrec]. unfold log_recorded. cbn [fresh_accepts omap list_omap snd fst].
    assert (∀ o s, (o, s) ∈ fresh_accepts log → recorded d0 o s = None ∧ is_Some (recorded d' o s)) as Hold.
    { intros o s [? [x Hx]]%Hrec. split; [done|]. exists x. by apply Hkeep. }
    destruct answer as [[a|]|]; [|done..]. destruct (duplicate a) eqn:Ea; [done|].
    destruct (Hfr a eq_refl Ea) as [Hn Hs]. split.
    + constructor; [|done]. intros [_ [x Hx]]%Hrec. congruence.
    + intros o s [[= -> ->]|Hin]%elem_of_cons; [|by apply Hold]. split; [|done].
      destruct (recorded d0 op seq) eqn:E0; [|done]. apply Hmono in E0. congruence.
  - apply Forall_cons in Hwf as [_ Hwf]. by apply IH.
Qed.

(** A new request that throws inside its transaction is undone, and an exact retry is answered alike. *)
Lemma throw_leaves_no_trace state d op seq payload a back recorder :
  watermark_ok state → transactional op = true →
  (acceptSequencedControlOperation state op seq payload lineage (Some d)).2 = Ok a → duplicate a = false →
  handle_request op seq payload DsThrows state (Some d) = (back, recorder, Some (Err DownstreamFailed)) →
  recorder = Some d ∧ (handle_request op seq payload DsDone back recorder).2 = Some (Ok a).
Proof.
  intros Hw Htx Hacc Hd. unfold handle_request at 1. destruct (acceptSequencedControlOperation state _ _ _ _ _) as [[state1 d1] res] eqn:E.
  cbn in Hacc. subst res. assert (fingerprints_of state op !! seq = None) as Hn.
  { destruct (accept_session _ _ _ _ _ _ _ _ E) as [[_ [? _]]|(? & ? & _ & _ & ? & _)]; [congruence|done]. }
  rewrite Hn, (bool_decide_false (is_Some None)) by (by intros [? ?]).
  assert (taken_back op seq false (Ok a) state1 = rollbackSequencedControlOperation state1 op seq) as ->.
  { unfold taken_back, transactional in *. rewrite Hd. by repeat case_bool_decide. }
  unfold undone. rewrite Htx. intros [= <- <-]. split; [done|].
  pose proof (accept_congruence _ _ op seq payload (Some d) (rollback_restores _ _ _ _ _ _ _ _ Hw Hn E)) as Hc. rewrite E in Hc.
  unfold handle_request. destruct (acceptSequencedControlOperation (rollbackSequencedControlOperation state1 op seq) op seq payload lineage (Some d)) as [[? ?] r].
  cbn in Hc. by subst r.
Qed.

(** C13. Over every history of requests on one worker session, in which what follows an acceptance may be done,
    may throw (the session and, inside a transaction, the recorder are then rolled back) or may be cut off
    by the loss of the process, and of restarts: each (operation, sequence) is carried out to its end as a
    new one at most once, never when it was recorded before the history began, and it is durably recorded
    from then on; for any recorder that keeps its promise.  A request that threw inside its transaction has
    left no trace: the recorder is as it was, and an exact retry is answered as the first attempt was. *)
Theorem gateway_accepts_at_most_once d events :
  rec_ok d → Forall wf_event events →
  ∃ state' d' log', run_gateway fresh_session (Some d) [] events = (state', Some d', log') ∧
    NoDup (fresh_accepts log') ∧
    (∀ op seq, (op, seq) ∈ fresh_accepts log' → recorded d op seq = None ∧ is_Some (recorded d' op seq)) ∧
    ∀ op seq payload a back recorder,
      transactional op = true → (acceptSequencedControlOperation state' op seq payload lineage (Some d')).2 = Ok a → duplicate a = false →
      handle_request op seq payload DsThrows state' (Some d') = (back, recorder, Some (Err DownstreamFailed)) →
      recorder = Some d' ∧ (handle_request op seq payload DsDone back recorder).2 = Some (Ok a).
Proof.
  intros Hok Hwf.
  destruct (run_gateway_facts d events fresh_session d [] Hok) as (state' & d' & log' & H & _ & _ & Hw & Hnd & Hrec);
    [apply cache_ok_fresh|apply watermark_fresh|done|done|split; [constructor|by intros op seq ?%elem_of_nil]|].
  exists state', d', log'. split_and!; [done..|]. intros op seq payload a back recorder. by apply throw_leaves_no_trace.
Qed.

End Client.
End Gateway.

(** ** Concrete instances *)

Module Demo.
Import Durable Gateway.

Definition lineage : WorkerControlLineage := {|
  workspaceId := "w"; threadId := "t"; turnId := "n"; agentSessionId := "s";
  packageSnapshotId := "p"; requestId := None |}.

Definition empty_db : CoreDb := {| rows := []; clock := λ _, "1970-01-01T00:00:00.000Z" |}.

Definition payload (n : Z) : jsval := JObj [(js "n", JNum (number_of_decimal false n 0))].

Lemma payload_wf n : wf_value (payload n).
Proof.
  constructor; [apply NoDup_singleton|]. repeat constructor; vm_compute; done.
Qed.

Lemma durable_recorder_refines_contract_witness :
  db_ok empty_db ∧
  ∃ db' r, acceptWorkerControlSequence empty_db
    {| in_lineage := lineage; in_operation := "heartbeat"; in_sequence := 7;
       in_fingerprint := js "{}" |} = Ok (db', r) ∧ r = RecAccepted false 8.
Proof.
  assert (Hok : db_ok empty_db) by constructor. split; [exact Hok|].
  destruct (durable_recorder_refines_contract empty_db
    {| in_lineage := lineage; in_operation := "heartbeat"; in_sequence := 7;
       in_fingerprint := js "{}" |} Hok) as (db' & r & H & _ & Hs & _).
  exists db', r. split; [exact H|]. vm_compute in H. injection H as _ <-. reflexivity.
Defined.

Definition history : list GatewayEvent :=
  [Request "artifact_notice" 0 (payload 1) DsDone; Request "artifact_notice" 1 (payload 2) DsDone; Restart;
   Request "artifact_notice" 1 (payload 2) DsDone; Request "heartbeat" 4 (payload 3) DsThrows;
   Request "heartbeat" 4 (payload 3) DsDone; Request "final_status" 5 (payload 4) DsCrash].

Lemma gateway_accepts_at_most_once_witness :
  Forall wf_event history ∧
  ∃ state d log, run_gateway lineage true true fresh_session (Some empty_db) [] history = (state, Some d, log) ∧
    fresh_accepts log = [("heartbeat", 4); ("artifact_notice", 1); ("artifact_notice", 0)] ∧ NoDup (fresh_accepts log).
Proof.
  assert (Hwf : Forall wf_event history)
    by (repeat (apply Forall_cons_2; [first [exact I | apply payload_wf]|]); apply Forall_nil_2).
  assert (Hok : rec_ok empty_db) by (cbn; constructor). split; [exact Hwf|].
  destruct (gateway_accepts_at_most_once lineage true true empty_db history Hok Hwf)
    as (state & d & log & H & Hnd & _).
  exists state, d, log. split; [exact H|]. split; [|exact Hnd].
  apply (f_equal (λ x, fresh_accepts x.2)) in H. cbn [snd] in H. rewrite <-H. vm_compute. reflexivity.
Defined.

(** Without a transaction the recorder keeps a sequence whose request threw: the retry is a duplicate, and what
    follows the acceptance is not done again. *)
Example retry_without_transaction :
  (run_gateway lineage false false fresh_session (Some empty_db) []
     [Request "heartbeat" 4 (payload 3) DsThrows; Request "heartbeat" 4 (payload 3) DsDone]).2 =
  [("heartbeat", 4, Some (Ok {| duplicate := true; nextSequence := 5 |})); ("heartbeat", 4, Some (Err DownstreamFailed))].
Proof. vm_compute. reflexivity. Qed.

(** After a restart the session answers by its own high-watermark first: an exact retry of an
    accepted sequence is refused as stale once a later one was seen, although the recorder holds it
    with identical content and would answer it as a duplicate. *)
Example restart_replay_is_refused :
  let '(_, recorder, log) := run_gateway lineage true true fresh_session (Some empty_db) []
    (take 4 history ++ [Request "artifact_notice" 0 (payload 1) DsDone]) in
  head log = Some ("artifact_notice", 0, Some (Err (NotAccepted (SequenceStale "artifact_notice" 0)))) ∧
  match recorder, sequencedControlFingerprint (payload 1) with
  | Some db, Ok fp =>
    snd <$> acceptWorkerControlSequence db
      {| in_lineage := lineage; in_operation := "artifact_notice"; in_sequence := 0;
         in_fingerprint := fp |} = Ok (RecAccepted true 2)
  | _, _ => False
  end.
Proof. vm_compute. split; reflexivity. Qed.

End Demo.
