(* ===== verification/LightAppKernel.v ===== *)
(** * Light-app kernel: errors, limits, admitted schema and native names

    - the typed failure of apps/nanocore/src/generative-kernel/errors.ts;
    - the limits of packages/app-api-schemas/src/light-apps.ts the modelled code reads;
    - the admitted schema data;
    - identifier quoting and native names (apps/nanocore/src/generative-kernel/native.ts) and operand
      resolution (apps/nanocore/src/generative-kernel/app-model.ts).

    Names, ids and SQL texts are JavaScript strings (lists of code units). *)

From Stdlib Require Import SpecFloat.
From S2P Require Import Prelude JsValue.

Local Open Scope string_scope.
Local Open Scope list_scope.
Local Open Scope Z_scope.

(** ** Failures *)

Inductive KernelErrorCode :=
| validation_failed | conflict | schema_stale | not_found | access_denied | limit_exceeded
| unsupported_operation | unavailable | idempotency_key_conflict | recovery_required.

Record KernelErrorDetails := {
  dt_path : option jsstr;
  dt_limit : option string;
  dt_maximum : option Z;
  dt_status : option Z;
  dt_expectedRevision : option Z;
  dt_currentRevision : option Z;
}.

Definition no_details : KernelErrorDetails :=
  {| dt_path := None; dt_limit := None; dt_maximum := None; dt_status := None;
     dt_expectedRevision := None; dt_currentRevision := None |}.

Record KernelCommandError := {
  ke_code : KernelErrorCode;
  ke_message : jsstr;
  ke_expectedRevision : option Z;
  ke_currentRevision : option Z;
  ke_status : Z;
  ke_path : option jsstr;
  ke_limit : option string;
  ke_maximum : option Z;
}.

Definition status_of_code (code : KernelErrorCode) : Z :=
  match code with
  | validation_failed => 400 | conflict => 409 | schema_stale => 409 | not_found => 404
  | access_denied => 403 | limit_exceeded => 400 | unsupported_operation => 400
  | unavailable => 503 | idempotency_key_conflict => 409 | recovery_required => 409
  end.

(** [new KernelCommandError(code, message, details)] *)
Definition kernel_error (code : KernelErrorCode) (message : jsstr) (details : KernelErrorDetails)
    : KernelCommandError :=
  {| ke_code := code;
     ke_message := message;
     ke_expectedRevision := dt_expectedRevision details;
     ke_currentRevision := dt_currentRevision details;
     ke_status := default (status_of_code code) (dt_status details);
     ke_path := dt_path details;
     ke_limit := dt_limit details;
     ke_maximum := dt_maximum details |}.

Definition at_path (path : jsstr) : KernelErrorDetails :=
  {| dt_path := Some path; dt_limit := None; dt_maximum := None; dt_status := None;
     dt_expectedRevision := None; dt_currentRevision := None |}.

Definition over_limit (limit : string) (maximum : Z) : KernelErrorDetails :=
  {| dt_path := None; dt_limit := Some limit; dt_maximum := Some maximum; dt_status := None;
     dt_expectedRevision := None; dt_currentRevision := None |}.

(** ** Limits of [LIGHT_APP_CAPABILITIES] *)

Definition maxFilterBytes : Z := 2048.
Definition maxPredicates : Z := 32.
Definition maxGroupingDepth : nat := 4.
Definition maxSchemaBytes : Z := 262144.
Definition maxCollections : nat := 16.
Definition maxFields : nat := 64.
Definition maxIndexes : nat := 8.
Definition maxIndexFields : nat := 4.
Definition maxTextBytes : Z := 4096.
Definition maxSelectValues : nat := 100.
Definition maxNameLength : nat := 63.

(** ** Native names *)

(** [value.replaceAll(c, r)] for a one-unit pattern. *)
Definition replace_all (c : Z) (r value : jsstr) : jsstr :=
  flat_map (λ x, if x =? c then r else [x]) value.

Definition quoteIdent (value : jsstr) : jsstr :=
  [QUOTE] ++ replace_all QUOTE [QUOTE; QUOTE] value ++ [QUOTE].

Definition collectionTableName (collectionId : jsstr) : jsstr :=
  js "c_" ++ replace_all (cu "-") [] collectionId.

Definition fieldColumnName (fieldId : jsstr) : jsstr :=
  js "f_" ++ replace_all (cu "-") [] fieldId.

(** ** Admitted schema *)

Inductive FieldType := FText | FNumber | FBool | FDate | FSelect | FRelation.
#[export] Instance FieldType_eq_dec : EqDecision FieldType.
Proof. solve_decision. Defined.

(** The options of the six field types, as far as the modelled code reads them. *)
Record FieldOptions := {
  opt_max_length : option Z;
  opt_onlyInt : option bool;
  opt_min : option spec_float;
  opt_max : option spec_float;
  opt_values : option (list jsstr);
  opt_collection : option jsstr;
}.
#[export] Instance FieldOptions_eq_dec : EqDecision FieldOptions.
Proof. solve_decision. Defined.

Definition no_options : FieldOptions :=
  {| opt_max_length := None; opt_onlyInt := None; opt_min := None; opt_max := None;
     opt_values := None; opt_collection := None |}.

Record AdmittedField := {
  fd_id : jsstr;
  fd_name : jsstr;
  fd_type : FieldType;
  fd_required : bool;
  fd_description : jsstr;
  fd_unit : option jsstr;
  fd_namespace : option jsstr;
  fd_options : option FieldOptions;
}.

Record AdmittedIndex := { ix_fields : list jsstr; ix_unique : bool }.
#[export] Instance AdmittedIndex_eq_dec : EqDecision AdmittedIndex.
Proof. solve_decision. Defined.

Record AdmittedCollection := {
  cl_id : jsstr;
  cl_name : jsstr;
  cl_description : jsstr;
  cl_fields : list AdmittedField;
  cl_indexes : list AdmittedIndex;
}.

Record AdmittedSchema := {
  sm_appId : jsstr;
  sm_schemaRevision : Z;
  sm_title : jsstr;
  sm_purpose : jsstr;
  sm_references : list jsstr;
  sm_collections : list AdmittedCollection;
}.

Definition resolveCollection (schema : AdmittedSchema) (selector : jsstr)
    : result KernelCommandError AdmittedCollection :=
  match find (λ c, bool_decide (cl_id c = selector) || bool_decide (cl_name c = selector))
             (sm_collections schema) with
  | None => Err (kernel_error not_found (js "Collection not found.") no_details)
  | Some c => Ok c
  end.

(** A resolved operand: its column and its declared type. *)
Record Column := { col_sql : jsstr; col_type : FieldType }.

(** [columnFor]; [path] is the request part the failure names. *)
Definition columnFor (collection : AdmittedCollection) (path operand : jsstr)
    : result KernelCommandError Column :=
  if includes [js "id"; js "created"; js "updated"; js "revision"] operand
  then Ok {| col_sql := quoteIdent operand;
             col_type := if bool_decide (operand = js "revision") then FNumber else FText |}
  else
    match find (λ f, bool_decide (fd_name f = operand)) (cl_fields collection) with
    | None => Err (kernel_error validation_failed (js "Unknown field: " ++ operand ++ js ".")
                     (at_path path))
    | Some field => Ok {| col_sql := quoteIdent (fieldColumnName (fd_id field));
                          col_type := fd_type field |}
    end.

(** ** Quoting is reversible *)

(** How SQLite reads a quoted identifier: up to the first quote that is not doubled. *)
Fixpoint read_quoted (s : jsstr) : option (jsstr * jsstr) :=
  match s with
  | [] => None
  | c :: r =>
    if c =? QUOTE then
      match r with
      | d :: r' =>
        if d =? QUOTE then '(v, rest) ← read_quoted r'; Some (c :: v, rest) else Some ([], r)
      | [] => Some ([], [])
      end
    else '(v, rest) ← read_quoted r; Some (c :: v, rest)
  end.

Lemma read_quoted_quoteIdent v rest :
  (∀ r, rest ≠ QUOTE :: r) →
  read_quoted (replace_all QUOTE [QUOTE; QUOTE] v ++ QUOTE :: rest) = Some (v, rest).
Proof.
  intros Hr. induction v as [|c v IH]; cbn -[Z.eqb].
  - rewrite Z.eqb_refl. destruct rest as [|d rest]; [done|].
    destruct (d =? QUOTE) eqn:E; [|done]. apply Z.eqb_eq in E as ->. by destruct (Hr rest).
  - destruct (c =? QUOTE) eqn:E.
    + apply Z.eqb_eq in E as ->. cbn -[Z.eqb]. rewrite !Z.eqb_refl.
      change (flat_map _ v) with (replace_all QUOTE [QUOTE; QUOTE] v). by rewrite IH.
    + cbn -[Z.eqb]. rewrite E.
      change (flat_map _ v) with (replace_all QUOTE [QUOTE; QUOTE] v). by rewrite IH.
Qed.
