(* ===== verification/RecordFilter.v ===== *)
(** * Record filters (apps/nanocore/src/generative-kernel/filter.ts)

    The tokenizer, the recursive-descent compiler to parameterized SQL and the record-id constraint
    test.  The compiler's closure variables ([index], [predicates], [params]) are an explicit state;
    [index] is represented by the tokens that remain.

    Fuel: the tokenizer consumes at least one code unit per round and the loops of the parser at
    least one token, so the length of the text (of the tokens) is enough; the theorems below show
    that [OutOfFuel] is never returned. *)

From Stdlib Require Import SpecFloat.
From S2P Require Import Prelude JsValue LightAppKernel.

Local Open Scope string_scope.
Local Open Scope list_scope.
Local Open Scope Z_scope.

(** ** Tokens *)

Inductive FToken :=
| TkIdent (value : jsstr)
| TkOp (value : jsstr)
| TkAnd
| TkOr
| TkLparen
| TkRparen
| TkString (value : jsstr)
| TkNumber (value : spec_float)
| TkBoolean (value : bool)
| TkNull.

#[export] Instance FToken_eq_dec : EqDecision FToken.
Proof. solve_decision. Defined.

Inductive FilterError := Rejected (e : KernelCommandError) | OutOfFuel.

Definition invalid (message : jsstr) : FilterError :=
  Rejected (kernel_error validation_failed message (at_path (js "filter"))).

Definition is_ident_char (c : Z) : bool := is_upper c || is_lower c || is_digit c || (c =? cu "_").
Definition is_ident_start (c : Z) : bool := is_upper c || is_lower c || (c =? cu "_").

(** The scan of a string literal after its opening quote: a backslash skips two units, a quote ends
    it; the result is what was passed over and the rest. *)
Fixpoint scan_string (s : jsstr) : jsstr * jsstr :=
  match s with
  | [] => ([], [])
  | c :: r =>
    if c =? BACKSLASH then
      match r with
      | d :: r' => let '(a, b) := scan_string r' in (c :: d :: a, b)
      | [] => ([c], [])
      end
    else if c =? QUOTE then ([c], r)
    else let '(a, b) := scan_string r in (c :: a, b)
  end.

(** One round of the loop at [ch :: r]: the token, if any, and the rest.  [JSON.parse] of a text that
    starts with a quote is a string or throws. *)
Definition lex_token (ch : Z) (r : jsstr) : result FilterError (option FToken * jsstr) :=
  let s := ch :: r in
  if (ch =? 32) || (ch =? 9) || (ch =? 10) then Ok (None, r)
  else if ch =? cu "(" then Ok (Some TkLparen, r)
  else if ch =? cu ")" then Ok (Some TkRparen, r)
  else if (ch =? 39) || (ch =? 96) then Err (invalid (js "Single-quoted strings are unsupported."))
  else if ch =? QUOTE then
    let '(body, rest) := scan_string r in
    match json_parse (QUOTE :: body) with
    | Some (JStr value) => Ok (Some (TkString value), rest)
    | _ => Err (invalid (js "Invalid JSON string literal."))
    end
  else if starts_with (js "&&") s then Ok (Some TkAnd, drop 2 s)
  else if starts_with (js "||") s then Ok (Some TkOr, drop 2 s)
  else if starts_with (js ">=") s || starts_with (js "<=") s || starts_with (js "!=") s
  then Ok (Some (TkOp (take 2 s)), drop 2 s)
  else if (ch =? cu "=") || (ch =? cu ">") || (ch =? cu "<") then Ok (Some (TkOp [ch]), r)
  else if (ch =? cu "/") || (ch =? cu "@") then Err (invalid (js "Unsupported filter syntax."))
  else if (ch =? cu "-") || is_digit ch then
    let '(number, rest) := span is_number_char s in
    match number_value number with
    | None => Err (invalid (js "Filter numbers must be JSON numbers."))
    | Some value =>
      if is_finite_number value then Ok (Some (TkNumber value), rest)
      else Err (invalid (js "Filter numbers must be finite."))
    end
  else
    let '(ident, rest) := span is_ident_char s in
    match ident with
    | [] => Err (invalid (js "Unsupported filter syntax at " ++ [ch] ++ js "."))
    | first :: _ =>
      if negb (is_ident_start first) then Err (invalid (js "Filter identifiers must start with a letter."))
      else if bool_decide (ident = js "true") then Ok (Some (TkBoolean true), rest)
      else if bool_decide (ident = js "false") then Ok (Some (TkBoolean false), rest)
      else if bool_decide (ident = js "null") then Ok (Some TkNull, rest)
      else Ok (Some (TkIdent ident), rest)
    end.

Fixpoint tokenize_loop (fuel : nat) (s : jsstr) : result FilterError (list FToken) :=
  match s with
  | [] => Ok []
  | ch :: r =>
    match fuel with
    | O => Err OutOfFuel
    | S fuel =>
      '(t, rest) ← lex_token ch r;
      ts ← tokenize_loop fuel rest;
      Ok (match t with Some t => t :: ts | None => ts end)
    end
  end.

Definition tokenize (filter : jsstr) : result FilterError (list FToken) :=
  tokenize_loop (length filter) filter.

(** ** Compilation *)

Inductive SqlParam := PInt (z : Z) | PStr (s : jsstr) | PNum (f : spec_float) | PNull.

Record CompiledFilter := { cf_sql : jsstr; cf_params : list SqlParam }.

Record PState := { remaining : list FToken; predicates : Z; params : list SqlParam }.

(** Parsers over the closure variables. *)
Definition parser (A : Type) : Type := PState → result FilterError (A * PState).

Definition pbind {A B} (m : parser A) (k : A → parser B) : parser B :=
  λ st, match m st with Ok (a, st') => k a st' | Err e => Err e end.
Definition pret {A} (a : A) : parser A := λ st, Ok (a, st).
Definition pfail {A} (e : FilterError) : parser A := λ _, Err e.

Declare Scope parser_scope.
Delimit Scope parser_scope with parser.
Notation "x <- m ;; k" := (pbind m (λ x, k))
  (at level 100, m at next level, right associativity) : parser_scope.
Local Open Scope parser_scope.

Definition peek : parser (option FToken) := λ st, Ok (head (remaining st), st).

Definition take : parser FToken := λ st,
  match remaining st with
  | [] => Err (invalid (js "Unexpected end of filter."))
  | t :: ts => Ok (t, {| remaining := ts; predicates := predicates st; params := params st |})
  end.

Definition push (p : SqlParam) : parser unit := λ st,
  Ok (tt, {| remaining := remaining st; predicates := predicates st; params := params st ++ [p] |}).

Definition count_predicate : parser Z := λ st,
  let n := predicates st + 1 in
  Ok (n, {| remaining := remaining st; predicates := n; params := params st |}).

(** [throw] of a failure from an operand resolver. *)
Definition plift {A} (r : result KernelCommandError A) : parser A := λ st,
  match r with Ok a => Ok (a, st) | Err e => Err (Rejected e) end.

Definition sqlOperator (op : jsstr) : result KernelCommandError jsstr :=
  if includes [js "="; js "!="; js ">"; js ">="; js "<"; js "<="] op then Ok op
  else Err (kernel_error validation_failed (js "Unsupported filter operator: " ++ op ++ js ".")
              (at_path (js "filter"))).

Definition is_ordering (op : jsstr) : bool := includes [js ">"; js ">="; js "<"; js "<="] op.

Definition peek_is (t : FToken) (o : option FToken) : bool := bool_decide (o = Some t).

Section Compile.
Context (columnFor : jsstr → result KernelCommandError Column).

(** A comparison with a bound value; [!=] and the orderings exclude [NULL] explicitly. *)
Definition bound_comparison (column : Column) (op : jsstr) (value : SqlParam) : parser jsstr :=
  if bool_decide (op = js "!=") || is_ordering op then
    _ <- push value;;
    sql <- plift (sqlOperator op);;
    pret (js "(" ++ col_sql column ++ js " IS NOT NULL AND " ++ col_sql column ++ js " " ++ sql
          ++ js " ?)")
  else
    _ <- push value;;
    sql <- plift (sqlOperator op);;
    pret (col_sql column ++ js " " ++ sql ++ js " ?").

(** The boolean branch excludes [NULL] for [!=] only. *)
Definition boolean_comparison (column : Column) (op : jsstr) (value : bool) : parser jsstr :=
  let v := PInt (if value then 1 else 0) in
  if bool_decide (op = js "!=") then
    _ <- push v;;
    sql <- plift (sqlOperator op);;
    pret (js "(" ++ col_sql column ++ js " IS NOT NULL AND " ++ col_sql column ++ js " " ++ sql
          ++ js " ?)")
  else
    _ <- push v;;
    sql <- plift (sqlOperator op);;
    pret (col_sql column ++ js " " ++ sql ++ js " ?").

Definition compare_with (column : Column) (ident op : jsstr) (literal : FToken) : parser jsstr :=
  match literal with
  | TkIdent _ => pfail (invalid (js "Field-to-field comparisons are unavailable."))
  | TkNull =>
    if bool_decide (op = js "=") then pret (col_sql column ++ js " IS NULL")
    else if bool_decide (op = js "!=") then pret (col_sql column ++ js " IS NOT NULL")
    else pfail (invalid (js "Ordered comparisons to null are rejected."))
  | _ =>
    if is_ordering op && negb (includes [FText; FNumber; FDate] (col_type column))
       && negb (includes [js "created"; js "updated"; js "id"; js "revision"] ident)
    then pfail (invalid (js "Ordering operators apply only to text, number, or date."))
    else
      match literal with
      | TkBoolean b => boolean_comparison column op b
      | TkString s => bound_comparison column op (PStr s)
      | TkNumber f => bound_comparison column op (PNum f)
      | _ => bound_comparison column op PNull
      end
  end.

Definition parseComparison : parser jsstr :=
  n <- count_predicate;;
  if maxPredicates <? n then
    pfail (Rejected (kernel_error limit_exceeded (js "Filter exceeds 32 predicates.")
                       (over_limit "predicates" maxPredicates)))
  else
    identToken <- take;;
    match identToken with
    | TkIdent ident =>
      opToken <- take;;
      match opToken with
      | TkOp op =>
        literal <- take;;
        column <- plift (columnFor ident);;
        compare_with column ident op literal
      | _ => pfail (invalid (js "Filter comparisons require an operator."))
      end
    | _ => pfail (invalid (js "Filter comparisons require a field identifier."))
    end.

(** [parsePrimary]; [parseInner] is [parseOr(depth + 1)]. *)
Definition parsePrimary (parseInner : parser jsstr) : parser jsstr :=
  t <- peek;;
  if peek_is TkLparen t then
    _ <- take;;
    inner <- parseInner;;
    close <- take;;
    if bool_decide (close = TkRparen) then pret (js "(" ++ inner ++ js ")")
    else pfail (invalid (js "Filter is missing a closing parenthesis."))
  else parseComparison.

(** The [while (peek()?.kind === sep)] loops, [(expr OP item)] from the left. *)
Fixpoint parse_loop (fuel : nat) (sep : FToken) (word : jsstr) (item : parser jsstr) (expr : jsstr)
    : parser jsstr :=
  t <- peek;;
  if peek_is sep t then
    match fuel with
    | O => pfail OutOfFuel
    | S fuel =>
      _ <- take;;
      next <- item;;
      parse_loop fuel sep word item (js "(" ++ expr ++ word ++ next ++ js ")")
    end
  else pret expr.

Definition parseAnd (fuel : nat) (parseInner : parser jsstr) : parser jsstr :=
  expr <- parsePrimary parseInner;;
  parse_loop fuel TkAnd (js " AND ") (parsePrimary parseInner) expr.

(** [parseOr(depth)] with [levels] = 5 - depth nesting levels left: at depth five it throws. *)
Fixpoint parseOr (fuel : nat) (levels : nat) : parser jsstr :=
  match levels with
  | O => pfail (invalid (js "Filter grouping exceeds depth four."))
  | S levels =>
    expr <- parseAnd fuel (parseOr fuel levels);;
    parse_loop fuel TkOr (js " OR ") (parseAnd fuel (parseOr fuel levels)) expr
  end.

Definition compile_tokens (tokens : list FToken) : result FilterError CompiledFilter :=
  '(sql, st) ← parseOr (length tokens) maxGroupingDepth
                 {| remaining := tokens; predicates := 0; params := [] |};
  require match remaining st with [] => true | _ => false end else
    invalid (js "Filter contains trailing tokens.");
  Ok {| cf_sql := sql; cf_params := params st |}.

Definition compileRecordFilter (filter : option jsstr)
    : result FilterError (option CompiledFilter) :=
  match filter with
  | None => Ok None
  | Some filter =>
    if is_blank filter then Ok None
    else
      require utf8_length filter <=? maxFilterBytes else
        Rejected (kernel_error limit_exceeded (js "Filter exceeds 2 KiB.")
                    (over_limit "filterBytes" maxFilterBytes));
      tokens ← tokenize filter;
      compiled ← compile_tokens tokens;
      Ok (Some compiled)
  end.
End Compile.

(** ** The record-id constraint *)

(** [comparisons]: the tokens between the [&&]s. *)
Fixpoint split_and (tokens : list FToken) : list (list FToken) :=
  match tokens with
  | [] => [[]]
  | t :: ts =>
    match split_and ts with
    | seg :: segs => if bool_decide (t = TkAnd) then [] :: seg :: segs else (t :: seg) :: segs
    | [] => []
    end
  end.

Definition is_id_equality (recordId : jsstr) (comparison : list FToken) : bool :=
  bool_decide (comparison = [TkIdent (js "id"); TkOp (js "="); TkString recordId]).

Definition filterConstrainsRecordId (filter recordId : jsstr) : result FilterError bool :=
  tokens ← tokenize filter;
  Ok (if existsb (λ t, bool_decide (t ∈ [TkOr; TkLparen; TkRparen])) tokens then false
      else existsb (is_id_equality recordId) (split_and tokens)).

(** ** Fuel is enough *)

Lemma span_length p s : (length (span p s).2 <= length s)%nat.
Proof.
  induction s as [|c s IH]; cbn; [lia|]. destruct (p c); cbn; [|lia].
  destruct (span p s); cbn in *. lia.
Qed.

Lemma scan_string_length s : (length (scan_string s).2 <= length s)%nat.
Proof.
  induction s as [s IH] using (induction_ltof1 _ (@length Z)). unfold ltof in IH.
  destruct s as [|c r]; cbn; [lia|]. destruct (c =? BACKSLASH).
  - destruct r as [|d r']; cbn; [lia|]. specialize (IH r' ltac:(cbn; lia)).
    destruct (scan_string r'); cbn in *. lia.
  - destruct (c =? QUOTE); cbn; [lia|]. specialize (IH r ltac:(cbn; lia)).
    destruct (scan_string r); cbn in *. lia.
Qed.

(** A number or identifier run that starts with a matching unit consumes it. *)
Lemma span_progress p c r a b : p c = true → span p (c :: r) = (a, b) → (length b <= length r)%nat.
Proof.
  intros Hc. cbn. rewrite Hc. pose proof (span_length p r) as H. destruct (span p r) as [x y].
  intros [= <- <-]. exact H.
Qed.

Lemma lex_token_progress ch r t rest :
  lex_token ch r = Ok (t, rest) → (length rest <= length r)%nat.
Proof.
  unfold lex_token. cbn zeta.
  repeat match goal with
  | |- (if ?b then _ else _) = _ → _ => destruct b eqn:?
  | |- Ok (_, r) = Ok _ → _ => intros [= _ <-]; lia
  | |- Err _ = Ok _ → _ => done
  end.
  - pose proof (scan_string_length r). destruct (scan_string r) as [body rest'].
    destruct (json_parse _) as [[]|]; try done. by intros [= _ <-].
  - intros [= _ <-]. rewrite ?length_drop; cbn; lia.
  - intros [= _ <-]. rewrite ?length_drop; cbn; lia.
  - intros [= _ <-]. rewrite ?length_drop; cbn; lia.
  - destruct (span is_number_char (ch :: r)) as [number rest'] eqn:Es.
    destruct (number_value number); [|done]. destruct (is_finite_number _); [|done].
    intros [= _ <-]. eapply span_progress; [|exact Es].
    unfold is_number_char. destruct (is_digit ch); [done|].
    rewrite orb_false_r in *. match goal with H : (ch =? cu "-") = true |- _ => rewrite H end.
    by rewrite orb_true_r.
  - destruct (span is_ident_char (ch :: r)) as [ident rest'] eqn:Es.
    destruct ident as [|first ident]; [done|].
    assert (length rest' <= length r)%nat.
    { eapply span_progress; [|exact Es]. cbn in Es. by destruct (is_ident_char ch). }
    repeat case_match; try done; by intros [= _ <-].
Qed.

Lemma tokenize_loop_fuel fuel s :
  (length s <= fuel)%nat → tokenize_loop fuel s ≠ Err OutOfFuel.
Proof.
  revert s. induction fuel as [|fuel IH]; intros [|ch r] Hl; cbn in *; try done; [lia|].
  destruct (lex_token ch r) as [[t rest]|e] eqn:E; cbn.
  - apply lex_token_progress in E. specialize (IH rest ltac:(lia)).
    by destruct (tokenize_loop fuel rest) as [|[]].
  - intros [= ->]. revert E. unfold lex_token, invalid. cbn zeta.
    repeat case_match; congruence.
Qed.

(** ** The grammar and its SQL, declaratively *)

(** The filters the code reads; the place of a literal takes any token here, as in the code, and
    [documented] below singles out the filters with the documented literals. *)
Inductive Filter :=
| FCmp (ident op : jsstr) (literal : FToken)
| FAnd (a b : Filter)
| FOr (a b : Filter)
| FGroup (a : Filter).

(** The token sequence of a filter. *)
Fixpoint unparse (f : Filter) : list FToken :=
  match f with
  | FCmp ident op literal => [TkIdent ident; TkOp op; literal]
  | FAnd a b => unparse a ++ TkAnd :: unparse b
  | FOr a b => unparse a ++ TkOr :: unparse b
  | FGroup a => TkLparen :: unparse a ++ [TkRparen]
  end.

(** Precedence and associativity: [&&] binds more tightly, both chain to the left. *)
Inductive Level := LPrimary | LAnd | LOr.

Fixpoint shape (lvl : Level) (f : Filter) : bool :=
  match f, lvl with
  | FCmp _ _ _, _ => true
  | FGroup a, _ => shape LOr a
  | FAnd a b, (LAnd | LOr) => shape LAnd a && shape LPrimary b
  | FOr a b, LOr => shape LOr a && shape LAnd b
  | _, _ => false
  end.

Fixpoint comparisons (f : Filter) : Z :=
  match f with
  | FCmp _ _ _ => 1
  | FAnd a b | FOr a b => comparisons a + comparisons b
  | FGroup a => comparisons a
  end.

(** Nesting of parentheses. *)
Fixpoint group_depth (f : Filter) : nat :=
  match f with
  | FCmp _ _ _ => 0
  | FAnd a b | FOr a b => Nat.max (group_depth a) (group_depth b)
  | FGroup a => S (group_depth a)
  end.

(** The bound value of a literal token. *)
Definition literal_param (literal : FToken) : SqlParam :=
  match literal with
  | TkBoolean b => PInt (if b then 1 else 0)
  | TkString s => PStr s
  | TkNumber f => PNum f
  | _ => PNull
  end.

(** Whether the comparison excludes [NULL] explicitly. *)
Definition null_guarded (op : jsstr) (literal : FToken) : bool :=
  bool_decide (op = js "!=")
  || is_ordering op && negb (match literal with TkBoolean _ => true | _ => false end).

Definition comparison_sql (sql op : jsstr) (literal : FToken) : jsstr :=
  match literal with
  | TkNull => if bool_decide (op = js "=") then sql ++ js " IS NULL" else sql ++ js " IS NOT NULL"
  | _ =>
    if null_guarded op literal
    then js "(" ++ sql ++ js " IS NOT NULL AND " ++ sql ++ js " " ++ op ++ js " ?)"
    else sql ++ js " " ++ op ++ js " ?"
  end.

Definition comparison_params (literal : FToken) : list SqlParam :=
  match literal with TkNull => [] | _ => [literal_param literal] end.

(** What a comparison must satisfy. *)
Definition admissible (column : Column) (ident op : jsstr) (literal : FToken) : Prop :=
  op ∈ [js "="; js "!="; js ">"; js ">="; js "<"; js "<="] ∧
  (∀ other, literal ≠ TkIdent other) ∧
  (literal = TkNull → op = js "=" ∨ op = js "!=") ∧
  (is_ordering op = true → literal ≠ TkNull →
    col_type column ∈ [FText; FNumber; FDate] ∨
    ident ∈ [js "created"; js "updated"; js "id"; js "revision"]).

Section Sound.
Context (columnFor : jsstr → result KernelCommandError Column).

Inductive renders : Filter → jsstr → list SqlParam → Prop :=
| renders_cmp ident op literal column :
    columnFor ident = Ok column → admissible column ident op literal →
    renders (FCmp ident op literal) (comparison_sql (col_sql column) op literal)
      (comparison_params literal)
| renders_and a b sa sb pa pb :
    renders a sa pa → renders b sb pb →
    renders (FAnd a b) (js "(" ++ sa ++ js " AND " ++ sb ++ js ")") (pa ++ pb)
| renders_or a b sa sb pa pb :
    renders a sa pa → renders b sb pb →
    renders (FOr a b) (js "(" ++ sa ++ js " OR " ++ sb ++ js ")") (pa ++ pb)
| renders_group a sa pa :
    renders a sa pa → renders (FGroup a) (js "(" ++ sa ++ js ")") pa.

(** A successful parse at a level consumed exactly one filter and emitted its rendering. *)
Record parsed (lvl : Level) (levels : nat) (st st' : PState) (sql : jsstr) (f : Filter) : Prop := {
  pd_shape : shape lvl f = true;
  pd_tokens : remaining st = unparse f ++ remaining st';
  pd_sql : ∃ ps, renders f sql ps ∧ params st' = params st ++ ps;
  pd_count : predicates st' = predicates st + comparisons f;
  pd_bound : predicates st' <= maxPredicates;
  pd_depth : (group_depth f <= levels)%nat;
}.

Definition sound (lvl : Level) (levels : nat) (m : parser jsstr) : Prop :=
  ∀ st sql st', m st = Ok (sql, st') → ∃ f, parsed lvl levels st st' sql f.

Lemma pbind_Ok {A B} (m : parser A) (k : A → parser B) st b st' :
  pbind m k st = Ok (b, st') ↔ ∃ a st1, m st = Ok (a, st1) ∧ k a st1 = Ok (b, st').
Proof. unfold pbind. destruct (m st) as [[a st1]|]; naive_solver. Qed.

Lemma take_Ok st t st' :
  take st = Ok (t, st') →
  remaining st = t :: remaining st' ∧ predicates st' = predicates st ∧ params st' = params st.
Proof. unfold take. destruct (remaining st); [done|]. by intros [= <- <-]. Qed.

Lemma plift_Ok {A} (r : result KernelCommandError A) st a st' :
  plift r st = Ok (a, st') ↔ r = Ok a ∧ st' = st.
Proof. unfold plift. destruct r; naive_solver. Qed.

(** Pushes the value, then writes the comparison; used by both value branches. *)
Lemma guarded_comparison column op v (guard : bool) st sql st' :
  (if guard then
     _ <- push v;;
     s <- plift (sqlOperator op);;
     pret (js "(" ++ col_sql column ++ js " IS NOT NULL AND " ++ col_sql column ++ js " " ++ s
           ++ js " ?)")
   else
     _ <- push v;;
     s <- plift (sqlOperator op);;
     pret (col_sql column ++ js " " ++ s ++ js " ?")) st = Ok (sql, st') →
  op ∈ [js "="; js "!="; js ">"; js ">="; js "<"; js "<="] ∧
  sql = (if guard
         then js "(" ++ col_sql column ++ js " IS NOT NULL AND " ++ col_sql column ++ js " " ++ op
              ++ js " ?)"
         else col_sql column ++ js " " ++ op ++ js " ?") ∧
  remaining st' = remaining st ∧ predicates st' = predicates st ∧ params st' = params st ++ [v].
Proof.
  assert (Hop : ∀ s, sqlOperator op = Ok s →
    s = op ∧ op ∈ [js "="; js "!="; js ">"; js ">="; js "<"; js "<="]).
  { intros s. unfold sqlOperator, includes. case_bool_decide; [|done]. by intros [= <-]. }
  destruct guard; intros (u & st1 & [= _ <-] & (s & st2 & [Hs ->]%plift_Ok & [= <- <-])%pbind_Ok)%pbind_Ok;
    apply Hop in Hs as [-> ?]; done.
Qed.

Lemma compare_with_sound column ident op literal st sql st' :
  compare_with column ident op literal st = Ok (sql, st') →
  admissible column ident op literal ∧ sql = comparison_sql (col_sql column) op literal ∧
  remaining st' = remaining st ∧ predicates st' = predicates st ∧
  params st' = params st ++ comparison_params literal.
Proof.
  destruct (decide (literal = TkNull)) as [->|Hnn].
  { cbn. case_bool_decide as He; [intros [= <- <-]|case_bool_decide as Hne; [intros [= <- <-]|done]];
      rewrite app_nil_r; subst op; repeat split; try done; try set_solver; auto. }
  destruct (match literal with TkIdent _ => true | _ => false end) eqn:Hid; [by destruct literal|].
  intros H.
  assert (Hord : is_ordering op = true → col_type column ∈ [FText; FNumber; FDate] ∨
            ident ∈ [js "created"; js "updated"; js "id"; js "revision"]).
  { intros Ho. destruct literal; try done; cbn in H; rewrite Ho in H; cbn in H;
      unfold includes in H; do 2 case_bool_decide; auto; done. }
  assert (Hbody : ∃ guard, guard = null_guarded op literal ∧
    (if guard then
       _ <- push (literal_param literal);;
       s <- plift (sqlOperator op);;
       pret (js "(" ++ col_sql column ++ js " IS NOT NULL AND " ++ col_sql column ++ js " " ++ s
             ++ js " ?)")
     else
       _ <- push (literal_param literal);;
       s <- plift (sqlOperator op);;
       pret (col_sql column ++ js " " ++ s ++ js " ?")) st = Ok (sql, st')).
  { exists (null_guarded op literal). split; [done|]. unfold null_guarded.
    destruct literal; try done; cbn in H; destruct (is_ordering op && _ && _) in H; try done;
      cbn [negb andb literal_param]; rewrite ?andb_true_r, ?andb_false_r, ?orb_false_r; exact H. }
  destruct Hbody as (guard & Hg & Hb). apply guarded_comparison in Hb as (Hop & -> & Hrest).
  split.
  { split; [done|]. split; [by intros other ->|]. split; [by intros ->|]. auto. }
  rewrite Hg. destruct literal; done.
Qed.

Lemma parseComparison_sound levels : sound LPrimary levels (parseComparison columnFor).
Proof.
  intros st sql st' H. unfold parseComparison in H.
  apply pbind_Ok in H as (n & st1 & [= <- <-] & H).
  destruct (maxPredicates <? predicates st + 1) eqn:En; [done|]. bool_to_prop.
  apply pbind_Ok in H as (t1 & st2 & (E1 & P1 & Q1)%take_Ok & H). destruct t1; try done.
  apply pbind_Ok in H as (t2 & st3 & (E2 & P2 & Q2)%take_Ok & H). destruct t2; try done.
  apply pbind_Ok in H as (lit & st4 & (E3 & P3 & Q3)%take_Ok & H).
  apply pbind_Ok in H as (column & st5 & [Hc ->]%plift_Ok & H).
  apply compare_with_sound in H as (Hadm & -> & Hr & Hp & Hq). cbn in *.
  eexists (FCmp _ _ lit). split; cbn [shape unparse comparisons group_depth]; try done; try lia.
  - by rewrite E1, E2, E3, Hr.
  - eexists. split; [by constructor|]. congruence.
Qed.

(** The inner parser of a level: one level less, and none at the deepest level. *)
Definition inner_ok (levels : nat) (inner : parser jsstr) : Prop :=
  match levels with
  | O => ∀ st sql st', inner st ≠ Ok (sql, st')
  | S levels => sound LOr levels inner
  end.

Lemma parsePrimary_sound levels inner :
  inner_ok levels inner → sound LPrimary levels (parsePrimary columnFor inner).
Proof.
  intros Hi st sql st' H. unfold parsePrimary in H.
  apply pbind_Ok in H as (t & st1 & [= <- <-] & H).
  destruct (peek_is TkLparen _) eqn:Ep; [|by eapply parseComparison_sound].
  apply pbind_Ok in H as (t1 & st2 & (E1 & P1 & Q1)%take_Ok & H).
  apply pbind_Ok in H as (s & st3 & Hin & H). destruct levels as [|levels]; [by apply Hi in Hin|].
  apply Hi in Hin as (f & [Hsh Htk (ps & Hr & Hq) Hcount Hb Hd]).
  apply pbind_Ok in H as (t2 & st4 & (E2 & P2 & Q2)%take_Ok & H).
  case_bool_decide as Hc; [|done]. injection H as <- <-. subst t2.
  unfold peek_is in Ep. bool_to_prop. rewrite E1 in Ep. injection Ep as ->.
  exists (FGroup f). split; cbn [shape unparse comparisons group_depth]; try done; try lia.
  - rewrite E1, Htk, E2. cbn. by rewrite <-app_assoc.
  - exists ps. split; [by constructor|]. congruence.
Qed.

(** The loops keep the left operand and append an operator and an item per round. *)
Lemma parse_loop_sound acc_lvl item_lvl levels sep word item (con : Filter → Filter → Filter) :
  (∀ a b, shape acc_lvl (con a b) = shape acc_lvl a && shape item_lvl b) →
  (∀ a b, unparse (con a b) = unparse a ++ sep :: unparse b) →
  (∀ a b, comparisons (con a b) = comparisons a + comparisons b) →
  (∀ a b, group_depth (con a b) = Nat.max (group_depth a) (group_depth b)) →
  (∀ a b sa sb pa pb, renders a sa pa → renders b sb pb →
    renders (con a b) (js "(" ++ sa ++ word ++ sb ++ js ")") (pa ++ pb)) →
  sound item_lvl levels item →
  ∀ fuel expr st0 st f0 sql st', parsed acc_lvl levels st0 st expr f0 →
    parse_loop fuel sep word item expr st = Ok (sql, st') →
    ∃ f, parsed acc_lvl levels st0 st' sql f.
Proof.
  intros Hsh Hun Hcnt Hdp Hren Hitem fuel. induction fuel as [|fuel IH]; intros expr st0 st f0 sql st' H0 H;
    cbn [parse_loop] in H; apply pbind_Ok in H as (t & st1 & [= <- <-] & H);
    destruct (peek_is sep _) eqn:Ep; try done; try (injection H as <- <-; by exists f0).
  apply pbind_Ok in H as (t1 & st2 & (E1 & P1 & Q1)%take_Ok & H).
  unfold peek_is in Ep. bool_to_prop. rewrite E1 in Ep. injection Ep as ->.
  apply pbind_Ok in H as (next & st3 & Hnext & H).
  apply Hitem in Hnext as (g & [Gs Gt (gp & Gr & Gq) Gc Gb Gd]).
  destruct H0 as [Fs Ft (fp & Fr & Fq) Fc Fb Fd].
  eapply (IH _ st0 st3 (con f0 g)); [|exact H].
  split; rewrite ?Hsh, ?Hun, ?Hcnt, ?Hdp; try lia.
  - by rewrite Fs, Gs.
  - rewrite Ft, E1, Gt. by rewrite <-app_assoc.
  - exists (fp ++ gp). split; [by apply Hren|]. rewrite Gq, Q1, Fq. by rewrite <-app_assoc.
Qed.

Lemma parseAnd_sound fuel levels inner :
  inner_ok levels inner → sound LAnd levels (parseAnd columnFor fuel inner).
Proof.
  intros Hi st sql st' H. unfold parseAnd in H.
  apply pbind_Ok in H as (expr & st1 & Hp & H).
  pose proof (parsePrimary_sound levels inner Hi) as Hprim.
  apply Hprim in Hp as (f0 & []).
  eapply (parse_loop_sound LAnd LPrimary levels TkAnd (js " AND ") _ FAnd);
    [done|done|done|done|by intros; constructor|exact Hprim| |exact H].
  split; try done. by destruct f0.
Qed.

Lemma parseOr_sound fuel levels : sound LOr levels (parseOr columnFor fuel (S levels)).
Proof.
  induction levels as [|levels IH]; intros st sql st' H; cbn [parseOr] in H;
    apply pbind_Ok in H as (expr & st1 & Hp & H).
  - assert (Hand : sound LAnd 0 (parseAnd columnFor fuel (parseOr columnFor fuel 0))).
    { apply parseAnd_sound. by intros ???. }
    apply Hand in Hp as (f0 & []).
    eapply (parse_loop_sound LOr LAnd 0 TkOr (js " OR ") _ FOr);
      [done|done|done|done|by intros; constructor|exact Hand| |exact H].
    split; try done. by destruct f0.
  - assert (Hand : sound LAnd (S levels) (parseAnd columnFor fuel (parseOr columnFor fuel (S levels)))).
    { by apply parseAnd_sound. }
    apply Hand in Hp as (f0 & []).
    eapply (parse_loop_sound LOr LAnd (S levels) TkOr (js " OR ") _ FOr);
      [done|done|done|done|by intros; constructor|exact Hand| |exact H].
    split; try done. by destruct f0.
Qed.

Lemma compile_tokens_sound tokens c :
  compile_tokens columnFor tokens = Ok c →
  ∃ f, tokens = unparse f ∧ shape LOr f = true ∧ renders f (cf_sql c) (cf_params c) ∧
    comparisons f <= 32 ∧ (group_depth f <= 3)%nat.
Proof.
  unfold compile_tokens. intros ([sql st] & H & Hc)%bind_Ok.
  apply (parseOr_sound (length tokens) 3) in H as (f & [Hs Ht (ps & Hr & Hp) Hn Hb Hd]).
  destruct (remaining st) eqn:Er; [|done]. injection Hc as <-. cbn in *.
  exists f. rewrite app_nil_r in Ht. subst ps. split; [done|]. split; [done|]. split; [done|].
  unfold maxPredicates in Hb. split; [lia|done].
Qed.
(** *** Every filter within the limits is compiled *)

(** The state after a filter with these parameters. *)
Definition after (f : Filter) (rest : list FToken) (ps : list SqlParam) (st : PState) : PState :=
  {| remaining := rest; predicates := predicates st + comparisons f; params := params st ++ ps |}.

(** What may follow a filter at a level, so that its loops end there. *)
Definition follows (lvl : Level) (rest : list FToken) : Prop :=
  match lvl with LPrimary => True | LAnd => head rest ≠ Some TkAnd | LOr => head rest ≠ Some TkAnd ∧ head rest ≠ Some TkOr end.

Lemma guarded_comparison_complete column op v (guard : bool) st :
  op ∈ [js "="; js "!="; js ">"; js ">="; js "<"; js "<="] →
  (if guard then
     _ <- push v;;
     s <- plift (sqlOperator op);;
     pret (js "(" ++ col_sql column ++ js " IS NOT NULL AND " ++ col_sql column ++ js " " ++ s
           ++ js " ?)")
   else
     _ <- push v;;
     s <- plift (sqlOperator op);;
     pret (col_sql column ++ js " " ++ s ++ js " ?")) st =
  Ok (if guard
      then js "(" ++ col_sql column ++ js " IS NOT NULL AND " ++ col_sql column ++ js " " ++ op
           ++ js " ?)"
      else col_sql column ++ js " " ++ op ++ js " ?",
      {| remaining := remaining st; predicates := predicates st; params := params st ++ [v] |}).
Proof.
  intros Hop. unfold pbind, push, plift, sqlOperator, includes. rewrite bool_decide_true by done. by destruct guard.
Qed.

Lemma compare_with_complete column ident op literal st :
  admissible column ident op literal →
  compare_with column ident op literal st =
  Ok (comparison_sql (col_sql column) op literal,
      {| remaining := remaining st; predicates := predicates st; params := params st ++ comparison_params literal |}).
Proof.
  intros (Hop & Hid & Hnull & Hord).
  assert (literal ≠ TkNull → is_ordering op && negb (includes [FText; FNumber; FDate] (col_type column))
            && negb (includes [js "created"; js "updated"; js "id"; js "revision"] ident) = false) as Hg.
  { intros Hn. destruct (is_ordering op) eqn:Eo; [|done]. unfold includes.
    destruct (Hord eq_refl Hn) as [H|H]; rewrite (bool_decide_true _ H); cbn; [done|by rewrite andb_false_r]. }
  destruct literal; try (by destruct (Hid value));
    try (cbn [compare_with comparison_params comparison_sql]; rewrite Hg by done; unfold boolean_comparison, bound_comparison;
         rewrite guarded_comparison_complete by done; unfold null_guarded; cbn [negb];
         by rewrite ?andb_true_r, ?andb_false_r, ?orb_false_r).
  cbn. rewrite app_nil_r. destruct st, (Hnull eq_refl) as [-> | ->]; done.
Qed.

(** [m] compiles every filter of a level within [levels] groups. *)
Definition complete (lvl : Level) (levels fuel : nat) (m : parser jsstr) : Prop :=
  ∀ f sql ps rest st, shape lvl f = true → renders f sql ps → (group_depth f <= levels)%nat → (length (unparse f) <= fuel)%nat →
    follows lvl rest → remaining st = unparse f ++ rest → predicates st + comparisons f <= maxPredicates →
    m st = Ok (sql, after f rest ps st).

Lemma comparison_complete ident op literal sql ps rest st :
  renders (FCmp ident op literal) sql ps → remaining st = TkIdent ident :: TkOp op :: literal :: rest → predicates st + 1 <= maxPredicates →
  parseComparison columnFor st = Ok (sql, after (FCmp ident op literal) rest ps st).
Proof.
  intros Hr Hrem Hc. inversion Hr as [? ? ? column Hcol Hadm| | |]; subst. unfold parseComparison, count_predicate, take.
  cbn [pbind remaining predicates params]. unfold pbind. cbn [remaining predicates params]. rewrite (proj2 (Z.ltb_ge _ _)) by lia.
  rewrite Hrem. cbn [remaining predicates params]. unfold plift. rewrite Hcol. by rewrite compare_with_complete.
Qed.

Lemma comparisons_pos f : 1 <= comparisons f.
Proof. induction f; cbn; lia. Qed.

Lemma primary_complete levels fuel inner :
  (∀ l, levels = S l → complete LOr l fuel inner) → complete LPrimary levels fuel (parsePrimary columnFor inner).
Proof.
  intros Hi f sql ps rest st Hs Hr Hd Hf _ Hrem Hc. unfold parsePrimary, pbind, peek. cbn [fst]. destruct f as [ident op lit| | |a]; try done.
  - rewrite Hrem. cbn. by apply comparison_complete.
  - assert (peek_is TkLparen (head (remaining st)) = true) as -> by (rewrite Hrem; unfold peek_is; by rewrite bool_decide_true).
    destruct levels as [|levels]; [cbn in Hd; lia|]. unfold take. rewrite Hrem. cbn [unparse app].
    inversion Hr as [| | |? sa pa Ha]; subst. cbn [unparse comparisons group_depth length] in *. rewrite length_app in Hf.
    rewrite (Hi levels eq_refl a sa ps (TkRparen :: rest)); [|done|done|lia|lia|done| |done].
    + done.
    + cbn [remaining]. by rewrite <-app_assoc.
Qed.

Lemma loop_step left sep word item expr st ts next st' :
  remaining st = sep :: ts → item {| remaining := ts; predicates := predicates st; params := params st |} = Ok (next, st') →
  parse_loop (S left) sep word item expr st = parse_loop left sep word item (js "(" ++ expr ++ word ++ next ++ js ")") st'.
Proof.
  intros Hr Hi. cbn [parse_loop]. unfold pbind at 1, peek, peek_is. rewrite Hr. cbn [head]. rewrite bool_decide_true by done.
  unfold pbind at 1, take. rewrite Hr. unfold pbind at 1. by rewrite Hi.
Qed.

(** A chain that has been read up to here is the accumulator of the loop. *)
Lemma loop_complete acc_lvl item_lvl levels fuel sep word item (con : Filter → Filter → Filter) start :
  sep = TkAnd ∨ sep = TkOr →
  (∀ f, shape acc_lvl f = true → shape item_lvl f = true ∨ ∃ a b, f = con a b ∧ shape acc_lvl a = true ∧ shape item_lvl b = true) →
  (∀ a b, unparse (con a b) = unparse a ++ sep :: unparse b) →
  (∀ a b, comparisons (con a b) = comparisons a + comparisons b) →
  (∀ a b, group_depth (con a b) = Nat.max (group_depth a) (group_depth b)) →
  (∀ a b s p, renders (con a b) s p → ∃ sa sb pa pb, renders a sa pa ∧ renders b sb pb ∧ s = js "(" ++ sa ++ word ++ sb ++ js ")" ∧ p = pa ++ pb) →
  (∀ rest, follows item_lvl (sep :: rest)) → (∀ rest, follows acc_lvl rest → follows item_lvl rest) →
  (∀ rest, follows acc_lvl rest → head rest ≠ Some sep) →
  complete item_lvl levels fuel item →
  (∀ st sql st', item st = Ok (sql, st') → start st = parse_loop fuel sep word item sql st') →
  ∀ n f sql ps rest st, (length (unparse f) <= n)%nat → shape acc_lvl f = true → renders f sql ps → (group_depth f <= levels)%nat → (length (unparse f) <= fuel)%nat →
    follows item_lvl rest → remaining st = unparse f ++ rest → predicates st + comparisons f <= maxPredicates →
    ∃ left, (fuel <= left + length (unparse f))%nat ∧ start st = parse_loop left sep word item sql (after f rest ps st).
Proof.
  intros Hsep Hsh Hun Hcnt Hdp Hren Hfs Hfw Hfe Hitem Hstart n. induction n as [|n IH]; intros f sql ps rest st Hn Hs Hr Hd Hf Hfo Hrem Hc.
  { destruct f; cbn in Hn; rewrite ?length_app in Hn; cbn in Hn; lia. }
  destruct (Hsh f Hs) as [Hi|(a & b & -> & Ha & Hb)].
  - exists fuel. split; [lia|]. apply Hstart. by apply Hitem.
  - rewrite Hun, Hcnt, Hdp in *. rewrite length_app in Hn, Hf. cbn [length] in Hn, Hf. destruct (Hren _ _ _ _ Hr) as (sa & sb & pa & pb & Hra & Hrb & -> & ->).
    pose proof (comparisons_pos b).
    destruct (IH a sa pa (sep :: unparse b ++ rest) st) as (left & Hl & E); [lia|done|done|lia|lia|by apply Hfs|by rewrite Hrem, <-app_assoc|lia|].
    destruct left as [|left]; [lia|]. exists left. split; [rewrite length_app; cbn; lia|]. rewrite E.
    rewrite (loop_step left sep word item sa _ (unparse b ++ rest) sb (after b rest pb (after a (sep :: unparse b ++ rest) pa st))); [|done|].
    2:{ rewrite (Hitem b sb pb rest); [done|done|done|lia|lia|done|done|cbn; lia]. }
    f_equal. unfold after. cbn. f_equal; [rewrite Hcnt; lia|by rewrite <-app_assoc].
Qed.

Lemma loop_ends left sep word item expr st : head (remaining st) ≠ Some sep → parse_loop left sep word item expr st = Ok (expr, st).
Proof. intros H. destruct left; cbn [parse_loop]; unfold pbind, peek, peek_is; by rewrite bool_decide_false. Qed.

Lemma and_complete levels fuel inner :
  (∀ l, levels = S l → complete LOr l fuel inner) → complete LAnd levels fuel (parseAnd columnFor fuel inner).
Proof.
  intros Hi f sql ps rest st Hs Hr Hd Hf Hfo Hrem Hc.
  destruct (loop_complete LAnd LPrimary levels fuel TkAnd (js " AND ") (parsePrimary columnFor inner) FAnd (parseAnd columnFor fuel inner))
    with (n := length (unparse f)) (f := f) (sql := sql) (ps := ps) (rest := rest) (st := st) as (left & _ & ->); try done; auto.
  - intros g. destruct g as [| a b| |]; cbn; auto. intros [? ?]%andb_true_iff. right. by exists a, b.
  - intros a b x y H. inversion H; subst. by eexists _, _, _, _.
  - by apply primary_complete.
  - intros st0 x st1 E. unfold parseAnd, pbind. by rewrite E.
  - by apply loop_ends.
Qed.

Lemma or_complete fuel levels : complete LOr levels fuel (parseOr columnFor fuel (S levels)).
Proof.
  induction levels as [levels IH] using lt_wf_ind. intros f sql ps rest st Hs Hr Hd Hf Hfo Hrem Hc.
  assert (complete LAnd levels fuel (parseAnd columnFor fuel (parseOr columnFor fuel levels))) as Hand.
  { apply and_complete. intros l ->. apply IH. lia. }
  destruct (loop_complete LOr LAnd levels fuel TkOr (js " OR ") (parseAnd columnFor fuel (parseOr columnFor fuel levels)) FOr (parseOr columnFor fuel (S levels)))
    with (n := length (unparse f)) (f := f) (sql := sql) (ps := ps) (rest := rest) (st := st) as (left & _ & ->); try done; auto.
  - intros g. destruct g as [| a b|a b|]; cbn; auto. intros [? ?]%andb_true_iff. right. by exists a, b.
  - intros a b x y H. inversion H; subst. by eexists _, _, _, _.
  - by intros x [? ?].
  - by intros x [? ?].
  - intros st0 x st1 E. cbn [parseOr]. unfold pbind at 1. by rewrite E.
  - apply Hfo.
  - apply loop_ends. apply Hfo.
Qed.

Lemma compile_tokens_complete f sql ps :
  shape LOr f = true → renders f sql ps → comparisons f <= 32 → (group_depth f <= 3)%nat →
  compile_tokens columnFor (unparse f) = Ok {| cf_sql := sql; cf_params := ps |}.
Proof.
  intros Hs Hr Hc Hd. unfold compile_tokens. unfold maxGroupingDepth.
  rewrite (or_complete (length (unparse f)) 3 f sql ps []); [done|done|done|done|done|done|cbn; by rewrite app_nil_r|cbn; unfold maxPredicates; lia].
Qed.

(** The documented literals. *)
Definition is_literal (t : FToken) : bool :=
  match t with TkString _ | TkNumber _ | TkBoolean _ | TkNull => true | _ => false end.
Fixpoint documented (f : Filter) : bool :=
  match f with
  | FCmp _ _ literal => is_literal literal
  | FAnd a b | FOr a b => documented a && documented b
  | FGroup a => documented a
  end.

(** A filter outside the documented grammar binds [NULL], and only such a filter does. *)
Lemma documented_params f sql ps : renders f sql ps → documented f = true ↔ PNull ∉ ps.
Proof.
  induction 1 as [ident op literal column Hc (_ & Hid & _)|a b sa sb pa pb _ IHa _ IHb|a b sa sb pa pb _ IHa _ IHb|a sa pa _ IH]; cbn [documented].
  - destruct literal; cbn; try (by destruct (Hid value)); set_solver.
  - rewrite andb_true_iff, IHa, IHb. set_solver.
  - rewrite andb_true_iff, IHa, IHb. set_solver.
  - done.
Qed.
End Sound.

(** ** The parser never runs out of fuel *)

Section Fuel.
Context (columnFor : jsstr → result KernelCommandError Column) (fuel : nat).

(** On inputs within the fuel: no exhaustion, and the tokens left are no more than before. *)
Definition within {A} (m : parser A) : Prop :=
  ∀ st, (length (remaining st) <= fuel)%nat →
    match m st with
    | Ok (_, st') => (length (remaining st') <= length (remaining st))%nat
    | Err e => e ≠ OutOfFuel
    end.

Lemma within_bind {A B} (m : parser A) (k : A → parser B) :
  within m → (∀ a, within (k a)) → within (pbind m k).
Proof.
  intros Hm Hk st Hst. unfold pbind. specialize (Hm st Hst). destruct (m st) as [[a st1]|e]; [|done].
  specialize (Hk a st1 ltac:(lia)). destruct (k a st1) as [[b st2]|e]; [lia|done].
Qed.

Lemma within_pret {A} (a : A) : within (pret a).
Proof. intros st _. cbn. lia. Qed.
Lemma within_pfail {A} e : e ≠ OutOfFuel → within (@pfail A e).
Proof. by intros He st _. Qed.
Lemma within_invalid {A} msg : within (@pfail A (invalid msg)).
Proof. by apply within_pfail. Qed.
Lemma within_peek : within peek.
Proof. intros st _. cbn. lia. Qed.
Lemma within_take : within take.
Proof. intros st _. unfold take. destruct (remaining st) eqn:E; [done|]. cbn. lia. Qed.
Lemma within_push p : within (push p).
Proof. intros st _. cbn. lia. Qed.
Lemma within_count : within count_predicate.
Proof. intros st _. cbn. lia. Qed.
Lemma within_plift {A} (r : result KernelCommandError A) : within (plift r).
Proof. intros st _. destruct r; cbn; [lia|done]. Qed.

Create HintDb fuel discriminated.
Hint Resolve within_bind within_pret within_invalid within_peek within_take within_push
  within_count within_plift : fuel.

Ltac within_tac :=
  repeat first
    [ progress intros
    | assumption
    | apply within_bind
    | match goal with |- within (match ?x with _ => _ end) => destruct x end
    | solve [eauto with fuel]
    | apply within_pfail; discriminate ].

Lemma within_comparison : within (parseComparison columnFor).
Proof.
  unfold parseComparison, compare_with, boolean_comparison, bound_comparison. within_tac.
Qed.

Lemma within_primary inner : within inner → within (parsePrimary columnFor inner).
Proof. intros Hi. unfold parsePrimary. pose proof within_comparison. within_tac. Qed.

(** Every round takes the separator first, so the fuel left stays above the tokens left. *)
Lemma within_loop n sep word item expr :
  within item →
  ∀ st, (length (remaining st) <= n)%nat → (length (remaining st) <= fuel)%nat →
    match parse_loop n sep word item expr st with
    | Ok (_, st') => (length (remaining st') <= length (remaining st))%nat
    | Err e => e ≠ OutOfFuel
    end.
Proof.
  intros Hi. revert expr. induction n as [|n IH]; intros expr st Hn Hf; cbn [parse_loop];
    unfold pbind at 1; cbn [peek].
  - destruct (remaining st) eqn:Er; [|cbn in Hn; lia]. unfold peek_is.
    rewrite bool_decide_eq_false_2 by done. cbn. rewrite ?Er. cbn. lia.
  - destruct (peek_is sep _) eqn:E; [|cbn; lia]. unfold pbind at 1. unfold take.
    destruct (remaining st) as [|t ts] eqn:Er; [done|]. cbn in Hn, Hf. unfold pbind.
    match goal with |- context [item ?x] => set (st1 := x) end.
    specialize (Hi st1 ltac:(cbn; lia)). destruct (item st1) as [[next st2]|e]; [|done].
    cbn in Hi. specialize (IH (js "(" ++ expr ++ word ++ next ++ js ")") st2 ltac:(lia) ltac:(lia)).
    destruct (parse_loop n sep word item _ st2) as [[? st3]|]; [cbn; lia|done].
Qed.

Lemma within_and inner : within inner → within (parseAnd columnFor fuel inner).
Proof.
  intros Hi. unfold parseAnd. apply within_bind; [by apply within_primary|]. intros expr st Hst.
  apply within_loop; try done. by apply within_primary.
Qed.

Lemma within_or levels : within (parseOr columnFor fuel levels).
Proof.
  induction levels as [|levels IH]; cbn [parseOr]; [apply within_invalid|].
  apply within_bind; [by apply within_and|]. intros expr st Hst.
  apply within_loop; try done. by apply within_and.
Qed.
End Fuel.

Lemma compile_tokens_total columnFor tokens : compile_tokens columnFor tokens ≠ Err OutOfFuel.
Proof.
  unfold compile_tokens.
  pose proof (within_or columnFor (length tokens) maxGroupingDepth
    {| remaining := tokens; predicates := 0; params := [] |} (Nat.le_refl _)) as Hp.
  destruct (parseOr _ _ _ _) as [[sql st]|e]; cbn [mbind result_bind]; [|by intros [= ->]].
  by destruct (remaining st).
Qed.

Lemma tokenize_total filter : tokenize filter ≠ Err OutOfFuel.
Proof. by apply tokenize_loop_fuel. Qed.

Lemma compile_total columnFor filter :
  compileRecordFilter columnFor filter ≠ Err OutOfFuel.
Proof.
  unfold compileRecordFilter. destruct filter as [filter|]; [|done]. destruct (is_blank filter); [done|].
  destruct (utf8_length filter <=? maxFilterBytes); [|done].
  pose proof (tokenize_total filter) as Ht.
  destruct (tokenize filter) as [tokens|e]; cbn [mbind result_bind]; [|by intros [= ->]].
  pose proof (compile_tokens_total columnFor tokens) as Hc.
  destruct (compile_tokens columnFor tokens) as [c|e]; cbn [mbind result_bind]; [done|].
  by intros [= ->].
Qed.

(** ** Literal values do not reach the SQL text *)

(** The skeleton of a token: its kind, with the value of a literal forgotten. *)
Definition erase_token (t : FToken) : FToken :=
  match t with
  | TkString _ => TkString []
  | TkNumber _ => TkNumber (S754_zero false)
  | TkBoolean _ => TkBoolean false
  | _ => t
  end.

Definition erase_param (p : SqlParam) : SqlParam :=
  match p with
  | PInt _ => PInt 0
  | PStr _ => PStr []
  | PNum _ => PNum (S754_zero false)
  | PNull => PNull
  end.

Definition erase_state (st : PState) : PState :=
  {| remaining := erase_token <$> remaining st; predicates := predicates st;
     params := erase_param <$> params st |}.

Definition erase_result {A B} (f : A → B) (r : result FilterError (A * PState))
    : result FilterError (B * PState) :=
  match r with Ok (a, st) => Ok (f a, erase_state st) | Err e => Err e end.

(** Erasing the input erases the outcome: [m'] is [m] on erased data. *)
Definition simulates {A B} (f : A → B) (m : parser A) (m' : parser B) : Prop :=
  ∀ st, m' (erase_state st) = erase_result f (m st).

Lemma simulates_bind {A B C D} (f : A → C) (g : B → D) m m' (k : A → parser B) (k' : C → parser D) :
  simulates f m m' → (∀ a, simulates g (k a) (k' (f a))) → simulates g (pbind m k) (pbind m' k').
Proof.
  intros Hm Hk st. unfold pbind. rewrite Hm. destruct (m st) as [[a st1]|e]; cbn; [apply Hk|done].
Qed.

Lemma simulates_pret {A B} (f : A → B) a : simulates f (pret a) (pret (f a)).
Proof. by intros st. Qed.
Lemma simulates_pfail {A B} (f : A → B) e : simulates f (pfail e) (pfail e).
Proof. by intros st. Qed.
Lemma simulates_peek : simulates (fmap erase_token) peek peek.
Proof. intros st. unfold peek. cbn. by destruct (remaining st). Qed.
Lemma simulates_take : simulates erase_token take take.
Proof. intros st. unfold take. cbn. by destruct (remaining st). Qed.
Lemma simulates_push p : simulates id (push p) (push (erase_param p)).
Proof. intros st. unfold push, erase_result, erase_state. cbn. by rewrite fmap_app. Qed.
Lemma simulates_count : simulates id count_predicate count_predicate.
Proof. by intros st. Qed.
Lemma simulates_plift {A} (r : result KernelCommandError A) : simulates id (plift r) (plift r).
Proof. intros st. by destruct r. Qed.

Lemma peek_is_erase sep o :
  erase_token sep = sep → (∀ t, erase_token t = sep → t = sep) →
  peek_is sep (erase_token <$> o) = peek_is sep o.
Proof.
  intros Hs Hi. apply bool_decide_ext. destruct o as [t|]; cbn; [|done]. split.
  - by intros [= ?%Hi]; subst.
  - by intros [= ->]; rewrite Hs.
Qed.

Section Erase.
Context (columnFor : jsstr → result KernelCommandError Column).

(** Both comparison branches push the value and write a text that does not mention it. *)
Lemma simulates_guarded (guard : bool) column op v :
  simulates id
    (if guard then
       _ <- push v;;
       s <- plift (sqlOperator op);;
       pret (js "(" ++ col_sql column ++ js " IS NOT NULL AND " ++ col_sql column ++ js " " ++ s
             ++ js " ?)")
     else
       _ <- push v;;
       s <- plift (sqlOperator op);;
       pret (col_sql column ++ js " " ++ s ++ js " ?"))
    (if guard then
       _ <- push (erase_param v);;
       s <- plift (sqlOperator op);;
       pret (js "(" ++ col_sql column ++ js " IS NOT NULL AND " ++ col_sql column ++ js " " ++ s
             ++ js " ?)")
     else
       _ <- push (erase_param v);;
       s <- plift (sqlOperator op);;
       pret (col_sql column ++ js " " ++ s ++ js " ?")).
Proof.
  destruct guard; (eapply simulates_bind; [apply simulates_push|]; intros _;
    eapply simulates_bind; [apply simulates_plift|]; intros s; apply (simulates_pret id)).
Qed.

Lemma simulates_compare column ident op literal :
  simulates id (compare_with column ident op literal)
    (compare_with column ident op (erase_token literal)).
Proof.
  unfold compare_with. destruct literal; cbn [erase_token]; try apply simulates_pfail;
    repeat case_match; try apply simulates_pfail; try apply (simulates_pret id);
    first [ apply (simulates_guarded _ column op PNull)
          | apply (simulates_guarded _ column op (PStr _))
          | apply (simulates_guarded _ column op (PNum _))
          | apply (simulates_guarded _ column op (PInt _)) ].
Qed.

Lemma simulates_comparison :
  simulates id (parseComparison columnFor) (parseComparison columnFor).
Proof.
  unfold parseComparison. eapply simulates_bind; [apply simulates_count|]. intros n. cbn.
  destruct (maxPredicates <? n); [apply simulates_pfail|].
  eapply simulates_bind; [apply simulates_take|]. intros t1.
  destruct t1; cbn; try apply simulates_pfail.
  eapply simulates_bind; [apply simulates_take|]. intros t2.
  destruct t2; cbn; try apply simulates_pfail.
  eapply simulates_bind; [apply simulates_take|]. intros literal.
  eapply simulates_bind; [apply simulates_plift|]. intros column. apply simulates_compare.
Qed.

Lemma simulates_primary inner :
  simulates id inner inner → simulates id (parsePrimary columnFor inner) (parsePrimary columnFor inner).
Proof.
  intros Hi. unfold parsePrimary. eapply simulates_bind; [apply simulates_peek|]. intros t.
  rewrite peek_is_erase by (done || by intros []).
  destruct (peek_is TkLparen t); [|apply simulates_comparison].
  eapply simulates_bind; [apply simulates_take|]. intros t1.
  eapply simulates_bind; [exact Hi|]. intros s.
  eapply simulates_bind; [apply simulates_take|]. intros t2.
  assert (bool_decide (erase_token t2 = TkRparen) = bool_decide (t2 = TkRparen)) as ->.
  { apply bool_decide_ext. by destruct t2. }
  case_bool_decide; [apply (simulates_pret id)|apply simulates_pfail].
Qed.

Lemma simulates_loop fuel sep word item expr :
  erase_token sep = sep → (∀ t, erase_token t = sep → t = sep) → simulates id item item →
  simulates id (parse_loop fuel sep word item expr) (parse_loop fuel sep word item expr).
Proof.
  intros Hs Hsi Hi. revert expr. induction fuel as [|fuel IH]; intros expr; cbn [parse_loop];
    (eapply simulates_bind; [apply simulates_peek|]; intros t; rewrite peek_is_erase by done;
     destruct (peek_is sep t); [|apply (simulates_pret id)]).
  - apply simulates_pfail.
  - eapply simulates_bind; [apply simulates_take|]. intros t1.
    eapply simulates_bind; [exact Hi|]. intros next. apply IH.
Qed.

Lemma simulates_and fuel inner :
  simulates id inner inner → simulates id (parseAnd columnFor fuel inner) (parseAnd columnFor fuel inner).
Proof.
  intros Hi. unfold parseAnd. eapply simulates_bind; [by apply simulates_primary|]. intros expr.
  apply simulates_loop; [done|by intros []|by apply simulates_primary].
Qed.

Lemma simulates_or fuel levels :
  simulates id (parseOr columnFor fuel levels) (parseOr columnFor fuel levels).
Proof.
  induction levels as [|levels IH]; cbn [parseOr]; [apply simulates_pfail|].
  eapply simulates_bind; [by apply simulates_and|]. intros expr.
  apply simulates_loop; [done|by intros []|by apply simulates_and].
Qed.

Lemma compile_tokens_erase tokens :
  compile_tokens columnFor (erase_token <$> tokens) =
  (λ c, {| cf_sql := cf_sql c; cf_params := erase_param <$> cf_params c |}) <$>
    compile_tokens columnFor tokens.
Proof.
  unfold compile_tokens. rewrite length_fmap.
  change {| remaining := erase_token <$> tokens; predicates := 0; params := [] |}
    with (erase_state {| remaining := tokens; predicates := 0; params := [] |}).
  rewrite simulates_or. destruct (parseOr _ _ _ _) as [[sql st]|e]; [|done].
  cbn [erase_result mbind result_bind erase_state remaining]. by destruct (remaining st).
Qed.
End Erase.

(** ** Placeholders *)

Definition count_unit (c : Z) (s : jsstr) : Z := Z.of_nat (length (filterb (λ x, x =? c) s)).

Lemma count_unit_app c s t : count_unit c (s ++ t) = count_unit c s + count_unit c t.
Proof.
  unfold count_unit. induction s as [|x s IH]; cbn; [done|].
  destruct (x =? c); cbn [length]; rewrite ?Nat2Z.inj_succ; lia.
Qed.

Definition PLACEHOLDER : Z := cu "?".

Lemma operator_no_placeholder op :
  op ∈ [js "="; js "!="; js ">"; js ">="; js "<"; js "<="] → count_unit PLACEHOLDER op = 0.
Proof.
  intros H. rewrite !elem_of_cons, elem_of_nil in H.
  destruct H as [->|[->|[->|[->|[->|[->|[]]]]]]]; reflexivity.
Qed.

Lemma renders_placeholders columnFor f sql ps :
  (∀ ident column, columnFor ident = Ok column → count_unit PLACEHOLDER (col_sql column) = 0) →
  renders columnFor f sql ps → count_unit PLACEHOLDER sql = Z.of_nat (length ps).
Proof.
  intros Hcol Hr. induction Hr as [ident op literal column Hc (Hop & _)|a b sa sb pa pb _ IHa _ IHb
    |a b sa sb pa pb _ IHa _ IHb|a sa pa _ IHa].
  - apply Hcol in Hc. apply operator_no_placeholder in Hop.
    assert (Hv : ∀ lit, lit ≠ TkNull → count_unit PLACEHOLDER (comparison_sql (col_sql column) op lit) = 1
                        ∧ length (comparison_params lit) = 1%nat).
    { intros lit Hl. split; [|by destruct lit]. unfold comparison_sql.
      destruct lit; try done; destruct (null_guarded _ _); rewrite !count_unit_app, ?Hc, ?Hop; reflexivity. }
    destruct (decide (literal = TkNull)) as [->|Hl].
    + cbn [comparison_sql comparison_params]. case_bool_decide; rewrite count_unit_app, Hc; reflexivity.
    + destruct (Hv literal Hl) as [-> ->]. done.
  - rewrite !count_unit_app, length_app, IHa, IHb, Nat2Z.inj_add.
    change (count_unit PLACEHOLDER (js "(")) with 0. change (count_unit PLACEHOLDER (js ")")) with 0.
    change (count_unit PLACEHOLDER (js " AND ")) with 0. lia.
  - rewrite !count_unit_app, length_app, IHa, IHb, Nat2Z.inj_add.
    change (count_unit PLACEHOLDER (js "(")) with 0. change (count_unit PLACEHOLDER (js ")")) with 0.
    change (count_unit PLACEHOLDER (js " OR ")) with 0. lia.
  - rewrite !count_unit_app, IHa.
    change (count_unit PLACEHOLDER (js "(")) with 0. change (count_unit PLACEHOLDER (js ")")) with 0. lia.
Qed.

Lemma compile_inv columnFor filter c :
  compileRecordFilter columnFor (Some filter) = Ok (Some c) →
  utf8_length filter <= maxFilterBytes ∧
  ∃ tokens, tokenize filter = Ok tokens ∧ compile_tokens columnFor tokens = Ok c.
Proof.
  unfold compileRecordFilter. destruct (is_blank filter); [done|].
  destruct (utf8_length filter <=? maxFilterBytes) eqn:E; [|done]. bool_to_prop.
  intros (tokens & Ht & (c' & Hc & [= <-])%bind_Ok)%bind_Ok. eauto.
Qed.

(** ** Satisfaction *)

(** Three-valued conjunction and disjunction of SQL; [None] is [NULL]. *)
Definition and3 (a b : option bool) : option bool :=
  match a, b with
  | Some false, _ | _, Some false => Some false
  | Some true, Some true => Some true
  | _, _ => None
  end.
Definition or3 (a b : option bool) : option bool :=
  match a, b with
  | Some true, _ | _, Some true => Some true
  | Some false, Some false => Some false
  | _, _ => None
  end.

(** The value of a filter on a row, from the values of its comparisons on the row. *)
Fixpoint eval (atom : jsstr → jsstr → FToken → option bool) (f : Filter) : option bool :=
  match f with
  | FCmp ident op literal => atom ident op literal
  | FAnd a b => and3 (eval atom a) (eval atom b)
  | FOr a b => or3 (eval atom a) (eval atom b)
  | FGroup a => eval atom a
  end.

Lemma and3_true a b : and3 a b = Some true → a = Some true ∧ b = Some true.
Proof. by destruct a as [[]|], b as [[]|]. Qed.

Lemma split_and_cons ts : ∃ seg segs, split_and ts = seg :: segs.
Proof.
  induction ts as [|t ts (seg & segs & IH)]; cbn; [by eexists _, _|]. rewrite IH.
  case_bool_decide; by eexists _, _.
Qed.

Lemma split_and_app xs ys : split_and (xs ++ TkAnd :: ys) = split_and xs ++ split_and ys.
Proof.
  destruct (split_and_cons ys) as (yseg & ysegs & Hy).
  induction xs as [|x xs IH]; cbn [app split_and].
  - rewrite Hy. by rewrite bool_decide_eq_true_2.
  - rewrite IH. destruct (split_and_cons xs) as (seg & segs & ->). cbn [app].
    by case_bool_decide.
Qed.

Definition ungrouped (t : FToken) : bool := negb (bool_decide (t ∈ [TkOr; TkLparen; TkRparen])).

(** Without [||] and parentheses, an id equality between the [&&]s is a conjunct. *)
Lemma id_equality_conjunct atom row_id rid f :
  shape LOr f = true → forallb ungrouped (unparse f) = true →
  (∀ v, atom (js "id") (js "=") (TkString v) = Some true → row_id = v) →
  existsb (is_id_equality rid) (split_and (unparse f)) = true →
  eval atom f = Some true → row_id = rid.
Proof.
  intros Hs Hu Hatom. revert Hs Hu. induction f as [ident op literal|a IHa b IHb|a IHa b IHb|a IHa]; intros Hs Hu Hex Hev.
  - cbn [unparse eval] in *. apply existsb_elem in Hex as (seg & Hin & Hid).
    unfold is_id_equality in Hid. apply bool_decide_eq_true in Hid as ->.
    destruct (decide (literal = TkAnd)) as [->|Hl].
    + change (split_and _) with [[TkIdent ident; TkOp op]; []] in Hin.
      rewrite !elem_of_cons, elem_of_nil in Hin. by destruct Hin as [Hin|[Hin|[]]].
    + assert (Hsp : split_and [TkIdent ident; TkOp op; literal] = [[TkIdent ident; TkOp op; literal]]).
      { cbn [split_and]. rewrite (bool_decide_eq_false_2 _ Hl). done. }
      rewrite Hsp, list_elem_of_singleton in Hin. injection Hin as <- <- <-. by apply Hatom.
  - cbn [unparse eval] in *. rewrite split_and_app, existsb_app in Hex.
    rewrite forallb_app in Hu. cbn [forallb] in Hu. bool_to_prop.
    apply and3_true in Hev as [Ha Hb].
    assert (Hup : ∀ g l, shape l g = true → l = LAnd ∨ l = LPrimary → shape LOr g = true).
    { intros g l Hg [-> | ->]; by destruct g. }
    cbn in Hs. bool_to_prop. destruct Hex as [Hex|Hex]; [apply IHa|apply IHb]; eauto.
  - cbn [unparse] in Hu. rewrite forallb_app in Hu. cbn in Hu. bool_to_prop. done.
  - cbn in Hu. done.
Qed.

(** ** Main theorems *)

(** C32. A text compiles exactly when it is not blank and within 2 KiB, and its tokens are those of a filter
    that can be rendered: [&&] binds more tightly than [||], both chain to the left, there are at most 32
    comparisons and three levels of nested parentheses, every identifier resolves, and every operator is
    admissible for its column and literal.  The SQL and the parameters are that filter's rendering.  The
    place of a literal takes any token but an identifier, more than the documented strings, numbers,
    booleans and [null]: exactly the filters with such a token bind a [NULL] parameter.  Nothing is returned
    only for a blank text, everything else is refused with a kernel failure, and compilation always
    terminates. *)
Theorem compiled_filter_is_rendering columnFor filter :
  let accepted f sql ps :=
    utf8_length filter <= 2048 ∧ tokenize filter = Ok (unparse f) ∧ shape LOr f = true ∧ renders columnFor f sql ps ∧
    comparisons f <= 32 ∧ (group_depth f <= 3)%nat in
  match compileRecordFilter columnFor (Some filter) with
  | Ok (Some c) =>
    is_blank filter = false ∧
    ∃ f, accepted f (cf_sql c) (cf_params c) ∧ (documented f = true ↔ PNull ∉ cf_params c)
  | Ok None => is_blank filter = true
  | Err OutOfFuel => False
  | Err (Rejected _) => is_blank filter = false ∧ ∀ f sql ps, ¬ accepted f sql ps
  end.
Proof.
  cbv zeta. pose proof (compile_total columnFor (Some filter)) as Htot.
  destruct (is_blank filter) eqn:Eb; [unfold compileRecordFilter; by rewrite Eb|].
  destruct (compileRecordFilter columnFor (Some filter)) as [[c|]|[e|]] eqn:E; try done.
  - apply compile_inv in E as (Hb & tokens & Ht & Hc). split; [done|].
    apply compile_tokens_sound in Hc as (f & -> & Hs & Hr & Hn & Hd). exists f. split; [by split_and!|]. by eapply documented_params.
  - unfold compileRecordFilter in E. rewrite Eb in E. destruct (utf8_length filter <=? maxFilterBytes); [|done].
    by apply bind_Ok in E as (? & _ & (? & _ & ?)%bind_Ok).
  - split; [done|]. intros f sql ps (Hl & Ht & Hs & Hr & Hn & Hd). unfold compileRecordFilter in E. rewrite Eb in E.
    rewrite (proj2 (Z.leb_le _ _)) in E by done. rewrite Ht in E. cbn [mbind result_bind] in E.
    by rewrite (compile_tokens_complete _ f sql ps Hs Hr Hn Hd) in E.
Qed.

(** Values are bound, never spliced: two texts whose tokens differ only in the values of their
    literals compile to the same SQL text, or fail with the same failure; the SQL is independent of
    every string, number and boolean the caller supplies. *)
Theorem sql_independent_of_literals columnFor tokens1 tokens2 :
  erase_token <$> tokens1 = erase_token <$> tokens2 →
  cf_sql <$> compile_tokens columnFor tokens1 = cf_sql <$> compile_tokens columnFor tokens2.
Proof.
  intros He. pose proof (compile_tokens_erase columnFor tokens1) as H1.
  pose proof (compile_tokens_erase columnFor tokens2) as H2. rewrite He, H2 in H1.
  destruct (compile_tokens columnFor tokens1), (compile_tokens columnFor tokens2);
    cbn in *; congruence.
Qed.

(** Every placeholder has its parameter: when no column text contains a question mark, a
    compiled filter has as many placeholders as parameters. *)
Theorem placeholders_match_params columnFor filter c :
  (∀ ident column, columnFor ident = Ok column → count_unit PLACEHOLDER (col_sql column) = 0) →
  compileRecordFilter columnFor (Some filter) = Ok (Some c) →
  count_unit PLACEHOLDER (cf_sql c) = Z.of_nat (length (cf_params c)).
Proof.
  intros Hcol H. apply compile_inv in H as (_ & tokens & _ & Hc).
  apply compile_tokens_sound in Hc as (f & _ & _ & Hr & _). by eapply renders_placeholders.
Qed.

(** The record-id test is sound: if it accepts a text that compiles, then on every row on which
    the compiled filter is true (in SQL's three-valued logic, whatever its other comparisons say)
    the row's id is the given record id. *)
Theorem record_id_constraint_sound columnFor filter rid c :
  filterConstrainsRecordId filter rid = Ok true →
  compileRecordFilter columnFor (Some filter) = Ok (Some c) →
  ∃ f, tokenize filter = Ok (unparse f) ∧ renders columnFor f (cf_sql c) (cf_params c) ∧
    ∀ atom row_id, (∀ v, atom (js "id") (js "=") (TkString v) = Some true → row_id = v) →
      eval atom f = Some true → row_id = rid.
Proof.
  intros Hid H. apply compile_inv in H as (_ & tokens & Ht & Hc).
  apply compile_tokens_sound in Hc as (f & -> & Hs & Hr & _). exists f. split; [done|].
  split; [done|]. intros atom row_id Hatom Hev. unfold filterConstrainsRecordId in Hid.
  rewrite Ht in Hid. cbn [mbind result_bind] in Hid.
  destruct (existsb _ (unparse f)) eqn:Eg; [done|]. injection Hid as Hid.
  eapply id_equality_conjunct; try done. apply forallb_elem. intros t Hin.
  unfold ungrouped. by rewrite (proj1 (existsb_elem_false _ _) Eg t Hin).
Qed.

(** Operands resolve to quoted identifiers only: the column text of an admitted operand is a
    quoted identifier that SQLite reads back as that name, whatever follows it, so no field id or
    metadata name can end the quoting early. *)
Theorem columns_are_quoted_identifiers collection path operand column :
  columnFor collection path operand = Ok column →
  ∃ name, (operand = name ∨ ∃ field, field ∈ cl_fields collection ∧ name = fieldColumnName (fd_id field)) ∧
    ∀ rest, (∀ r, rest ≠ QUOTE :: r) →
      ∃ body, col_sql column ++ rest = QUOTE :: body ∧ read_quoted body = Some (name, rest).
Proof.
  assert (Hq : ∀ name rest, (∀ r, rest ≠ QUOTE :: r) →
    ∃ body, quoteIdent name ++ rest = QUOTE :: body ∧ read_quoted body = Some (name, rest)).
  { intros name rest Hr. exists (replace_all QUOTE [QUOTE; QUOTE] name ++ QUOTE :: rest).
    split; [unfold quoteIdent; by rewrite <-!app_assoc|by apply read_quoted_quoteIdent]. }
  unfold columnFor. destruct (includes _ operand).
  - intros [= <-]. exists operand. split; [by left|apply Hq].
  - destruct (find _ _) as [field|] eqn:Ef; [|done]. intros [= <-]. apply find_Some in Ef as [Hin _].
    exists (fieldColumnName (fd_id field)). split; [right; by exists field|apply Hq].
Qed.

(** ** Concrete instances *)

Module FilterDemo.

Definition people : AdmittedCollection := {|
  cl_id := js "c0"; cl_name := js "people"; cl_description := [];
  cl_fields := [{| fd_id := js "a-1"; fd_name := js "name"; fd_type := FText; fd_required := false;
                   fd_description := []; fd_unit := None; fd_namespace := None;
                   fd_options := None |};
                {| fd_id := js "a-2"; fd_name := js "active"; fd_type := FBool; fd_required := false;
                   fd_description := []; fd_unit := None; fd_namespace := None;
                   fd_options := None |}];
  cl_indexes := [] |}.

Definition column (operand : jsstr) : result KernelCommandError Column :=
  columnFor people (js "filter") operand.

Definition quoted (s : string) : jsstr := [QUOTE] ++ js s ++ [QUOTE].

(** [id = "r1" && (active = true || name != null)] *)
Definition grouped_text : jsstr :=
  js "id = " ++ quoted "r1" ++ js " && (active = true || name != null)".

Example grouped_sql :
  compileRecordFilter column (Some grouped_text) =
  Ok (Some {| cf_sql := js "(" ++ quoted "id" ++ js " = ? AND ((" ++ quoted "f_a2" ++ js " = ? OR "
                        ++ quoted "f_a1" ++ js " IS NOT NULL)))";
              cf_params := [PStr (js "r1"); PInt 1] |}).
Proof. vm_compute. reflexivity. Qed.

(** A field id cannot contain a question mark in this collection. *)
Lemma column_no_placeholder ident col :
  column ident = Ok col → count_unit PLACEHOLDER (col_sql col) = 0.
Proof.
  unfold column, columnFor, includes. case_bool_decide as Hm.
  - intros [= <-]. rewrite !elem_of_cons, elem_of_nil in Hm.
    destruct Hm as [->|[->|[->|[->|[]]]]]; reflexivity.
  - cbn [cl_fields people find fd_name]. do 2 (case_bool_decide; [intros [= <-]; reflexivity|]). done.
Qed.

Lemma placeholders_match_params_witness :
  ∃ c, compileRecordFilter column (Some grouped_text) = Ok (Some c) ∧
    count_unit PLACEHOLDER (cf_sql c) = Z.of_nat (length (cf_params c)).
Proof.
  eexists. split; [vm_compute; reflexivity|].
  apply (placeholders_match_params column grouped_text _ column_no_placeholder).
  vm_compute. reflexivity.
Defined.

Lemma sql_independent_of_literals_witness :
  cf_sql <$> compile_tokens column [TkIdent (js "name"); TkOp (js "="); TkString (js "x")] =
  cf_sql <$> compile_tokens column [TkIdent (js "name"); TkOp (js "="); TkString (js "1; DROP TABLE c_0")].
Proof. apply (sql_independent_of_literals column). reflexivity. Defined.

(** [id = "r1" && active = true] *)
Definition id_text : jsstr := js "id = " ++ quoted "r1" ++ js " && active = true".

Lemma record_id_constraint_sound_witness :
  filterConstrainsRecordId id_text (js "r1") = Ok true ∧
  ∃ f, tokenize id_text = Ok (unparse f) ∧
    ∀ row_id : jsstr,
      eval (λ ident op literal,
              match literal with
              | TkString v => if bool_decide (ident = js "id") then Some (bool_decide (row_id = v)) else None
              | _ => Some true
              end) f = Some true → row_id = js "r1".
Proof.
  assert (H1 : filterConstrainsRecordId id_text (js "r1") = Ok true) by (vm_compute; reflexivity).
  split; [exact H1|].
  assert (H2 : ∃ c, compileRecordFilter column (Some id_text) = Ok (Some c))
    by (eexists; vm_compute; reflexivity).
  destruct H2 as [c H2].
  destruct (record_id_constraint_sound column id_text (js "r1") c H1 H2) as (f & Ht & _ & Hf).
  exists f. split; [exact Ht|]. intros row_id. apply (Hf _ row_id).
  intros v. cbn [bool_decide decide]. rewrite bool_decide_eq_true_2 by reflexivity.
  intros [= Hb]. by apply bool_decide_eq_true in Hb.
Defined.

Lemma columns_are_quoted_identifiers_witness :
  ∃ c name, columnFor people (js "filter") (js "name") = Ok c ∧
    ∃ body, col_sql c ++ js " = ?" = QUOTE :: body ∧ read_quoted body = Some (name, js " = ?").
Proof.
  assert (H : ∃ c, columnFor people (js "filter") (js "name") = Ok c) by (eexists; vm_compute; reflexivity).
  destruct H as [c H].
  destruct (columns_are_quoted_identifiers people (js "filter") (js "name") c H) as (name & _ & Hr).
  exists c, name. split; [exact H|]. apply Hr. intros r. discriminate.
Defined.

(** A token that is not a literal is accepted in literal position: the comparison is compiled with a
    [NULL] parameter, which no row satisfies. *)
Example operator_accepted_as_literal :
  compileRecordFilter column (Some (js "name = (")) =
  Ok (Some {| cf_sql := quoted "f_a1" ++ js " = ?"; cf_params := [PNull] |}).
Proof. vm_compute. reflexivity. Qed.

(** Three nested parentheses compile, four are refused. *)
Example three_groups_accepted :
  is_ok (compileRecordFilter column (Some (js "(((active = true)))"))) = true.
Proof. vm_compute. reflexivity. Qed.
Example four_groups_refused :
  compileRecordFilter column (Some (js "((((active = true))))")) =
  Err (invalid (js "Filter grouping exceeds depth four.")).
Proof. vm_compute. reflexivity. Qed.

End FilterDemo.
