(* ===== verification/TurnTimeline.v ===== *)
(** * Turn timeline (packages/worker-shim/src/turn-timeline.ts)

    The bounded in-memory recorder of one Turn: recording, freezing and sealing.  The clock is an
    input: every operation that reads [performance.now()] takes the elapsed number it reads.  The
    signal names of the platform ([node:os] constants) are a parameter.

    The sealing loop drops one entry per round, so the number of entries is enough fuel. *)

From Stdlib Require Import SpecFloat.
From S2P Require Import Prelude JsValue CanonicalJson.

Local Open Scope string_scope.
Local Open Scope list_scope.
Local Open Scope Z_scope.

(** ** Vocabulary *)

Definition TURN_TIMELINE_LABELS : list string :=
  ["turn_start"; "native_accepted"; "native_first"; "native_last"; "transcript"; "heartbeat";
   "reconnect"; "interrupt"; "terminal"; "host_exit"; "native_stop"; "loopback_drain"; "sealed"].

Definition TURN_TIMELINE_BYTES : Z := 4096.
Definition MAX_ENTRIES : nat := 48.

Definition REASONS : list string :=
  ["attempt"; "accepted"; "rejected"; "completed"; "failed"; "interrupted"; "proved"; "unknown"].

Record TurnLifecycleFact := {
  f_label : string;
  f_reason : option string;
  f_count : option spec_float;
  f_durationMs : option spec_float;
  (** [null] and [undefined] are treated alike. *)
  f_code : option spec_float;
  f_signal : option string;
}.

Record Entry := {
  e_label : string;
  e_ms : Z;
  e_reason : option string;
  e_count : option Z;
  e_durationMs : option Z;
  e_code : option Z;
  e_signal : option string;
  e_delivered : option Z;
  e_failed : option Z;
}.

Definition bare_entry (label : string) (ms : Z) : Entry :=
  {| e_label := label; e_ms := ms; e_reason := None; e_count := None; e_durationMs := None;
     e_code := None; e_signal := None; e_delivered := None; e_failed := None |}.

Definition COUNT_LIMIT : Z := 1000000000.

(** [Number.isFinite(value) && value >= 0 ? Math.min(1_000_000_000, Math.floor(value)) : undefined] *)
Definition boundedNumber (value : spec_float) : option Z :=
  match value with
  | S754_zero _ => Some 0
  | S754_finite false m e => Some (Z.min COUNT_LIMIT (Z.shiftl (Zpos m) e))
  | _ => None
  end.

(** ** The recorder *)

Record TurnTimeline := {
  startedAt : jsstr;
  entries : list Entry;
  dropped : Z;
  sealed : bool;
  hostExitSeen : bool;
  nativeCount : Z;
  lastNativeMs : Z;
  enqueued : Z;
  delivered : Z;
  failed : Z;
  longestWait : Z;
}.

Definition new_timeline (startedAt : jsstr) : TurnTimeline :=
  {| startedAt := startedAt; entries := [bare_entry "turn_start" 0]; dropped := 0; sealed := false;
     hostExitSeen := false; nativeCount := 0; lastNativeMs := 0; enqueued := 0; delivered := 0;
     failed := 0; longestWait := 0 |}.

Definition with_entries (t : TurnTimeline) (es : list Entry) (d : Z) : TurnTimeline :=
  {| startedAt := startedAt t; entries := es; dropped := d; sealed := sealed t;
     hostExitSeen := hostExitSeen t; nativeCount := nativeCount t; lastNativeMs := lastNativeMs t;
     enqueued := enqueued t; delivered := delivered t; failed := failed t;
     longestWait := longestWait t |}.

(** [splice(i, 1)] *)
Definition splice1 {A} (i : nat) (l : list A) : list A := take i l ++ drop (S i) l.

Definition append (t : TurnTimeline) (entry : Entry) : TurnTimeline :=
  let t := if (length (entries t) =? MAX_ENTRIES)%nat
           then with_entries t (splice1 (MAX_ENTRIES / 2) (entries t)) (dropped t + 1)
           else t in
  with_entries t (entries t ++ [entry]) (dropped t).

Definition count_native (t : TurnTimeline) (ms : Z) : TurnTimeline :=
  {| startedAt := startedAt t; entries := entries t; dropped := dropped t; sealed := sealed t;
     hostExitSeen := hostExitSeen t; nativeCount := Z.min COUNT_LIMIT (nativeCount t + 1);
     lastNativeMs := ms; enqueued := enqueued t; delivered := delivered t; failed := failed t;
     longestWait := longestWait t |}.

Definition count_enqueue (t : TurnTimeline) : TurnTimeline :=
  {| startedAt := startedAt t; entries := entries t; dropped := dropped t; sealed := sealed t;
     hostExitSeen := hostExitSeen t; nativeCount := nativeCount t; lastNativeMs := lastNativeMs t;
     enqueued := Z.min COUNT_LIMIT (enqueued t + 1); delivered := delivered t; failed := failed t;
     longestWait := longestWait t |}.

Definition count_transcript (t : TurnTimeline) (ok : bool) (wait : Z) : TurnTimeline :=
  {| startedAt := startedAt t; entries := entries t; dropped := dropped t; sealed := sealed t;
     hostExitSeen := hostExitSeen t; nativeCount := nativeCount t; lastNativeMs := lastNativeMs t;
     enqueued := enqueued t;
     delivered := if ok then Z.min COUNT_LIMIT (delivered t + 1) else delivered t;
     failed := if ok then failed t else Z.min COUNT_LIMIT (failed t + 1);
     longestWait := Z.max (longestWait t) wait |}.

Definition see_host_exit (t : TurnTimeline) : TurnTimeline :=
  {| startedAt := startedAt t; entries := entries t; dropped := dropped t; sealed := sealed t;
     hostExitSeen := true; nativeCount := nativeCount t; lastNativeMs := lastNativeMs t;
     enqueued := enqueued t; delivered := delivered t; failed := failed t;
     longestWait := longestWait t |}.

Definition seal_flag (t : TurnTimeline) : TurnTimeline :=
  {| startedAt := startedAt t; entries := entries t; dropped := dropped t; sealed := true;
     hostExitSeen := hostExitSeen t; nativeCount := nativeCount t; lastNativeMs := lastNativeMs t;
     enqueued := enqueued t; delivered := delivered t; failed := failed t;
     longestWait := longestWait t |}.

Section Recorder.
Context (known_signal : string → bool).

(** The entry copied from an admitted fact: closed, bounded fields only. *)
Definition fact_entry (fact : TurnLifecycleFact) (ms : Z) : Entry :=
  {| e_label := f_label fact;
     e_ms := ms;
     e_reason := match f_reason fact with
                 | Some r => if includes REASONS r then Some r else None
                 | None => None
                 end;
     e_count := f_count fact ≫= boundedNumber;
     e_durationMs := f_durationMs fact ≫= boundedNumber;
     e_code := match f_code fact ≫= number_integer with
               | Some c => if Z.abs c <=? 65535 then Some c else None
               | None => None
               end;
     e_signal := match f_signal fact with
                 | Some s => if known_signal s then Some s else None
                 | None => None
                 end;
     e_delivered := None;
     e_failed := None |}.

(** [elapsed] is [performance.now() - this.start]. *)
Definition record (t : TurnTimeline) (fact : TurnLifecycleFact) (elapsed : spec_float)
    : TurnTimeline :=
  if sealed t then t
  else
    let label := f_label fact in
    let ms := default 0 (boundedNumber elapsed) in
    if bool_decide (label = "native_event") then
      let t := if nativeCount t =? 0 then append t (bare_entry "native_first" ms) else t in
      count_native t ms
    else if bool_decide (label = "transcript_enqueue") then count_enqueue t
    else if bool_decide (label = "transcript_delivered") || bool_decide (label = "transcript_failed")
    then
      count_transcript t (bool_decide (label = "transcript_delivered"))
        (default 0 (boundedNumber (default (S754_zero false) (f_durationMs fact))))
    else if negb (includes TURN_TIMELINE_LABELS label) then t
    else if bool_decide (label = "host_exit") && hostExitSeen t then t
    else
      let t := if bool_decide (label = "host_exit") then see_host_exit t else t in
      append t (fact_entry fact ms).

Definition plain_fact (label : string) (count duration : option spec_float) : TurnLifecycleFact :=
  {| f_label := label; f_reason := None; f_count := count; f_durationMs := duration; f_code := None;
     f_signal := None |}.

(** [this.entries.at(-1)], updated in place. *)
Definition update_last (f : Entry → Entry) (l : list Entry) : list Entry :=
  alter f (pred (length l)) l.

Definition summarize (t : TurnTimeline) : TurnTimeline :=
  with_entries t
    (update_last (λ e,
       {| e_label := e_label e; e_ms := e_ms e; e_reason := e_reason e; e_count := e_count e;
          e_durationMs := e_durationMs e; e_code := e_code e; e_signal := e_signal e;
          e_delivered := Some (delivered t); e_failed := Some (failed t) |}) (entries t))
    (dropped t).

Definition entry_cmp (a b : Entry) : Z := e_ms a - e_ms b.

Definition freeze (t : TurnTimeline) (elapsed1 elapsed2 : spec_float) : TurnTimeline :=
  if sealed t then t
  else
    let t :=
      if 0 <? nativeCount t then
        let t := append t {| e_label := "native_last"; e_ms := lastNativeMs t; e_reason := None;
                             e_count := Some (nativeCount t); e_durationMs := None; e_code := None;
                             e_signal := None; e_delivered := None; e_failed := None |} in
        with_entries t (js_sort entry_cmp (entries t)) (dropped t)
      else t in
    let t := record t (plain_fact "transcript" (Some (number_of_int (enqueued t)))
                         (Some (number_of_int (longestWait t)))) elapsed1 in
    let t := summarize t in
    let t := record t (plain_fact "sealed" None None) elapsed2 in
    seal_flag t.
End Recorder.

(** ** Serialization *)

Definition member (key : string) (text : jsstr) : jsstr := quote_string (js key) ++ js ":" ++ text.

(** Absent members are left out; the order is the order of assignment. *)
Definition entry_text (e : Entry) : jsstr :=
  let optional {A} (key : string) (text : A → jsstr) (v : option A) : list jsstr :=
    match v with Some x => [member key (text x)] | None => [] end in
  js "{" ++ join (js ",")
    ([member "label" (quote_string (js (e_label e))); member "ms" (int_text (e_ms e))]
     ++ optional "reason" (λ s, quote_string (js s)) (e_reason e)
     ++ optional "count" int_text (e_count e)
     ++ optional "durationMs" int_text (e_durationMs e)
     ++ optional "code" int_text (e_code e)
     ++ optional "signal" (λ s, quote_string (js s)) (e_signal e)
     ++ optional "delivered" int_text (e_delivered e)
     ++ optional "failed" int_text (e_failed e))
  ++ js "}".

Definition serialize (t : TurnTimeline) : jsstr :=
  js "{" ++ join (js ",")
    [member "startedAt" (quote_string (startedAt t));
     member "entries" (js "[" ++ join (js ",") (entry_text <$> entries t) ++ js "]");
     member "dropped" (int_text (dropped t))]
  ++ js "}".

(** [Buffer.byteLength(JSON.stringify({ timeline: value }))] *)
Definition enclosed_bytes (value : jsstr) : Z :=
  utf8_length (js "{" ++ member "timeline" (quote_string value) ++ js "}").

(** The loop of [seal]. *)
Fixpoint seal_loop (fuel : nat) (t : TurnTimeline) : TurnTimeline :=
  if (TURN_TIMELINE_BYTES <? enclosed_bytes (serialize t)) && (2 <? length (entries t))%nat then
    match fuel with
    | O => t
    | S fuel => seal_loop fuel (with_entries t (splice1 1 (entries t)) (dropped t + 1))
    end
  else t.

Definition seal (known_signal : string → bool) (t : TurnTimeline) (elapsed1 elapsed2 : spec_float)
    : jsstr * TurnTimeline :=
  let t := freeze known_signal t elapsed1 elapsed2 in
  let t := seal_loop (length (entries t)) t in
  (serialize t, t).

Example entry_text_example :
  entry_text {| e_label := "host_exit"; e_ms := 12; e_reason := Some "failed"; e_count := None;
                e_durationMs := None; e_code := Some (-9); e_signal := Some "SIGKILL";
                e_delivered := None; e_failed := Some 0 |} =
  js "{" ++ member "label" (quote_string (js "host_exit")) ++ js "," ++ member "ms" (js "12")
  ++ js "," ++ member "reason" (quote_string (js "failed")) ++ js "," ++ member "code" (js "-9")
  ++ js "," ++ member "signal" (quote_string (js "SIGKILL")) ++ js "," ++ member "failed" (js "0")
  ++ js "}".
Proof. vm_compute. reflexivity. Qed.

(** ** The invariant of the recorder *)

(** Projections of an updated recorder. *)
Ltac simpl_timeline :=
  cbn [with_entries entries dropped nativeCount lastNativeMs enqueued delivered failed longestWait
       sealed startedAt hostExitSeen].

Definition in_count (z : Z) : Prop := 0 <= z <= COUNT_LIMIT.

Section Invariant.
Context (known_signal : string → bool).

Record wf_entry (e : Entry) : Prop := {
  we_label : e_label e ∈ TURN_TIMELINE_LABELS;
  we_ms : in_count (e_ms e);
  we_reason : ∀ r, e_reason e = Some r → r ∈ REASONS;
  we_count : ∀ z, e_count e = Some z → in_count z;
  we_duration : ∀ z, e_durationMs e = Some z → in_count z;
  we_code : ∀ z, e_code e = Some z → Z.abs z <= 65535;
  we_signal : ∀ s, e_signal e = Some s → known_signal s = true;
  we_delivered : ∀ z, e_delivered e = Some z → in_count z;
  we_failed : ∀ z, e_failed e = Some z → in_count z;
}.

(** The first observation is the turn start, entries and counters are bounded. *)
Record timeline_ok (t : TurnTimeline) : Prop := {
  to_head : head (entries t) = Some (bare_entry "turn_start" 0);
  to_length : (length (entries t) <= MAX_ENTRIES)%nat;
  to_entries : Forall wf_entry (entries t);
  to_native : in_count (nativeCount t);
  to_last : in_count (lastNativeMs t);
  to_enqueued : in_count (enqueued t);
  to_delivered : in_count (delivered t);
  to_failed : in_count (failed t);
  to_wait : in_count (longestWait t);
  to_dropped : 0 <= dropped t;
}.

Lemma boundedNumber_range v z : boundedNumber v = Some z → in_count z.
Proof.
  unfold in_count, COUNT_LIMIT. destruct v as [| | |[] m e]; cbn [boundedNumber]; try done; intros [= <-]; [lia|].
  assert (0 <= Z.shiftl (Zpos m) e) by (by apply Z.shiftl_nonneg). unfold COUNT_LIMIT. lia.
Qed.

Lemma default_bounded v : in_count (default 0 (boundedNumber v)).
Proof.
  destruct (boundedNumber v) eqn:E; cbn; [by apply boundedNumber_range in E|].
  unfold in_count, COUNT_LIMIT. lia.
Qed.

Lemma wf_bare label ms : label ∈ TURN_TIMELINE_LABELS → in_count ms → wf_entry (bare_entry label ms).
Proof. by split. Qed.

Lemma wf_fact_entry fact ms :
  f_label fact ∈ TURN_TIMELINE_LABELS → in_count ms → wf_entry (fact_entry known_signal fact ms).
Proof.
  intros Hl Hm. split; cbn; try done.
  - intros r. destruct (f_reason fact) as [r'|]; [|done]. unfold includes. case_bool_decide; [|done].
    by intros [= <-].
  - intros z (v & _ & H)%bind_Some. by apply boundedNumber_range in H.
  - intros z (v & _ & H)%bind_Some. by apply boundedNumber_range in H.
  - intros z. destruct (_ ≫= _) as [c|]; [|done]. destruct (Z.abs c <=? 65535) eqn:E; [|done].
    intros [= <-]. by bool_to_prop.
  - intros s. destruct (f_signal fact) as [s'|]; [|done]. destruct (known_signal s') eqn:E; [|done].
    by intros [= <-].
Qed.

Lemma Forall_splice1 {A} (P : A → Prop) i (l : list A) : Forall P l → Forall P (splice1 i l).
Proof. intros H. apply Forall_app. split; [by apply Forall_take|by apply Forall_drop]. Qed.

Lemma length_splice1 {A} i (l : list A) : (i < length l)%nat → length (splice1 i l) = pred (length l).
Proof. intros H. unfold splice1. rewrite length_app, length_take, length_drop. lia. Qed.

Lemma head_splice1 {A} i (l : list A) : (0 < i)%nat → head (splice1 i l) = head l ∨ l = [].
Proof. intros Hi. destruct i as [|i]; [lia|]. destruct l; [by right|by left]. Qed.

Lemma head_app {A} (l k : list A) x : head l = Some x → head (l ++ k) = Some x.
Proof. by destruct l. Qed.

Lemma append_ok t e : timeline_ok t → wf_entry e → timeline_ok (append t e).
Proof.
  intros [Hh Hl He ? ? ? ? ? ? Hd] Hw. unfold append. destruct (_ =? MAX_ENTRIES)%nat eqn:E.
  - apply Nat.eqb_eq in E. split; simpl_timeline; try done.
    + apply head_app. destruct (head_splice1 (MAX_ENTRIES / 2) (entries t)) as [H|H];
        [cbn; lia|exact (eq_trans H Hh)|]. by rewrite H in Hh.
    + rewrite length_app, length_splice1 by (rewrite E; apply Nat.ltb_lt; reflexivity).
      rewrite E. apply Nat.leb_le. reflexivity.
    + apply Forall_app. split; [by apply Forall_splice1|by constructor].
    + lia.
  - apply Nat.eqb_neq in E. split; simpl_timeline; try done.
    + by apply head_app.
    + rewrite length_app. cbn. lia.
    + apply Forall_app. split; [done|by constructor].
Qed.

Lemma count_step z : in_count z → in_count (Z.min COUNT_LIMIT (z + 1)).
Proof. unfold in_count, COUNT_LIMIT. lia. Qed.

Lemma record_ok t fact elapsed : timeline_ok t → timeline_ok (record known_signal t fact elapsed).
Proof.
  intros Hok. unfold record. destruct (sealed t); [done|]. cbn zeta.
  pose proof (default_bounded elapsed) as Hms. set (ms := default 0 (boundedNumber elapsed)) in *.
  case_bool_decide.
  { assert (Ht : timeline_ok (if nativeCount t =? 0 then append t (bare_entry "native_first" ms) else t)).
    { destruct (nativeCount t =? 0); [|done]. apply append_ok; [done|]. apply wf_bare; [|done].
      unfold TURN_TIMELINE_LABELS. set_solver. }
    destruct Ht. split; cbn; auto using count_step. }
  case_bool_decide.
  { destruct Hok. split; cbn; auto using count_step. }
  destruct (_ || _).
  { pose proof (default_bounded (default (S754_zero false) (f_durationMs fact))) as Hw.
    destruct Hok. split; cbn; try done; try (destruct (bool_decide _); auto using count_step).
    unfold in_count in *. lia. }
  unfold includes. case_bool_decide as Hl; [|done]. cbn [negb].
  destruct (_ && _); [done|]. apply append_ok; [|by apply wf_fact_entry].
  case_bool_decide; [|done]. destruct Hok. by split.
Qed.

Lemma js_sort_head x l :
  Forall (cmp_le entry_cmp x) l → js_sort entry_cmp (x :: l) = x :: js_sort entry_cmp l.
Proof.
  intros H. change (js_sort entry_cmp (x :: l)) with (insert_stable entry_cmp x (js_sort entry_cmp l)).
  apply insert_stable_head. by rewrite js_sort_perm.
Qed.

Lemma sort_ok t :
  timeline_ok t → timeline_ok (with_entries t (js_sort entry_cmp (entries t)) (dropped t)).
Proof.
  intros [Hh Hl He ? ? ? ? ? ? ?]. split; simpl_timeline; try done.
  - destruct (entries t) as [|x l]; [done|]. injection Hh as ->. rewrite js_sort_head; [done|].
    apply Forall_cons in He as [_ He]. eapply Forall_impl; [exact He|]. intros e [_ Hm _ _ _ _ _ _ _].
    unfold cmp_le, entry_cmp, in_count in *. cbn. lia.
  - by rewrite js_sort_perm.
  - by rewrite js_sort_perm.
Qed.

Lemma Forall_alter' {A} (P : A → Prop) f i (l : list A) :
  Forall P l → (∀ x, P x → P (f x)) → Forall P (alter f i l).
Proof.
  intros Hl Hf. apply Forall_lookup. intros j x. destruct (decide (i = j)) as [<-|Hne].
  - rewrite list_lookup_alter_eq. intros (y & Hy & ->)%fmap_Some. apply Hf. by eapply Forall_lookup.
  - rewrite list_lookup_alter_ne by done. intros Hx. by eapply Forall_lookup.
Qed.

(** Updating the last of at least two entries keeps the first. *)
Lemma summarize_ok t : timeline_ok t → (1 < length (entries t))%nat → timeline_ok (summarize t).
Proof.
  intros [Hh Hl He ? ? ? ? ? ? ?] Hlen. unfold summarize, update_last.
  split; simpl_timeline; try done.
  - destruct (entries t) as [|x [|y l]]; cbn in *; try done. lia.
  - by rewrite length_alter.
  - apply Forall_alter'; [done|]. intros e []. split; cbn; try done; by intros z [= <-].
Qed.

Lemma append_length t e : (1 <= length (entries t))%nat → (1 < length (entries (append t e)))%nat.
Proof.
  intros H. unfold append. destruct (_ =? MAX_ENTRIES)%nat eqn:E.
  - apply Nat.eqb_eq in E. simpl_timeline.
    rewrite length_app, length_splice1 by (rewrite E; apply Nat.ltb_lt; reflexivity).
    rewrite E. apply Nat.ltb_lt. reflexivity.
  - simpl_timeline. rewrite length_app. cbn. lia.
Qed.

Lemma record_appends t label count duration elapsed :
  timeline_ok t → sealed t = false → label ∈ ["transcript"; "sealed"] →
  (1 < length (entries (record known_signal t (plain_fact label count duration) elapsed)))%nat.
Proof.
  intros Hok Hs Hl.
  assert (Hlen : (1 <= length (entries t))%nat).
  { destruct Hok as [Hh _ _]. destruct (entries t); [done|]. cbn. lia. }
  rewrite !elem_of_cons, elem_of_nil in Hl. unfold record. rewrite Hs.
  destruct Hl as [->|[->|[]]]; cbn -[append MAX_ENTRIES]; by apply append_length.
Qed.

Lemma freeze_ok t e1 e2 : timeline_ok t → timeline_ok (freeze known_signal t e1 e2).
Proof.
  intros Hok. unfold freeze. destruct (sealed t) eqn:Es; [done|]. cbn zeta.
  match goal with |- timeline_ok (seal_flag (record _ (summarize (record _ ?x _ _)) _ _)) => set (t1 := x) end.
  assert (H1 : timeline_ok t1 ∧ sealed t1 = false).
  { subst t1. destruct (0 <? nativeCount t) eqn:En; [|done]. split.
    - apply sort_ok, append_ok; [done|]. destruct Hok. split; cbn; try done.
      + unfold TURN_TIMELINE_LABELS. set_solver.
      + by intros z [= <-].
    - unfold append. by destruct (_ =? _)%nat. }
  destruct H1 as [Hok1 Hs1].
  match goal with |- timeline_ok (seal_flag (record _ (summarize ?x) _ _)) => set (t2 := x) end.
  assert (H2 : timeline_ok t2) by (by apply record_ok).
  assert (Hlen : (1 < length (entries t2))%nat) by (apply record_appends; [done|done|set_solver]).
  assert (H4 : timeline_ok (record known_signal (summarize t2) (plain_fact "sealed" None None) e2))
    by (apply record_ok; by apply summarize_ok).
  destruct H4. by split.
Qed.

Lemma drop_second_ok t :
  timeline_ok t → (2 < length (entries t))%nat →
  timeline_ok (with_entries t (splice1 1 (entries t)) (dropped t + 1)).
Proof.
  intros [Hh Hl He ? ? ? ? ? ? ?] Hlen. split; simpl_timeline; try done.
  - destruct (head_splice1 1 (entries t)) as [H|H]; [lia|exact (eq_trans H Hh)|]. by rewrite H in Hh.
  - rewrite length_splice1 by lia. lia.
  - by apply Forall_splice1.
  - lia.
Qed.

(** The loop ends: it leaves at most two entries or a value within the budget. *)
Lemma seal_loop_ok fuel t :
  timeline_ok t → (length (entries t) <= fuel)%nat →
  timeline_ok (seal_loop fuel t) ∧
  (dropped (seal_loop fuel t) + Z.of_nat (length (entries (seal_loop fuel t)))
     = dropped t + Z.of_nat (length (entries t))) ∧
  (enclosed_bytes (serialize (seal_loop fuel t)) <= TURN_TIMELINE_BYTES ∨
   (length (entries (seal_loop fuel t)) <= 2)%nat).
Proof.
  revert t. induction fuel as [|fuel IH]; intros t Hok Hl; cbn [seal_loop];
    destruct (_ && _) eqn:E.
  - bool_to_prop. match goal with H : (2 <? _)%nat = true |- _ => apply Nat.ltb_lt in H end. lia.
  - split; [done|]. split; [done|]. apply andb_false_iff in E as [E|E].
    + left. by bool_to_prop.
    + right. by apply Nat.ltb_ge in E.
  - apply andb_true_iff in E as [_ E%Nat.ltb_lt].
    destruct (IH (with_entries t (splice1 1 (entries t)) (dropped t + 1))) as (H1 & H2 & H3);
      [by apply drop_second_ok|cbn [with_entries entries]; rewrite length_splice1; lia|].
    split; [done|]. split; [|done]. rewrite H2. cbn [with_entries entries dropped].
    rewrite length_splice1 by lia. lia.
  - split; [done|]. split; [done|]. apply andb_false_iff in E as [E|E].
    + left. by bool_to_prop.
    + right. by apply Nat.ltb_ge in E.
Qed.
End Invariant.

(** ** Bytes *)

Definition printable (s : jsstr) : Prop := Forall (λ c, 32 <= c < 127) s.

(** Printable and at most [n] units long. *)
Definition fits (n : nat) (s : jsstr) : Prop := printable s ∧ (length s <= n)%nat.

Lemma fits_app n k s t : fits n s → fits k t → fits (n + k) (s ++ t).
Proof. intros [Hs Hn] [Ht Hk]. split; [by apply Forall_app|]. rewrite length_app. lia. Qed.

Lemma fits_le n k s : fits n s → (n <= k)%nat → fits k s.
Proof. intros [? ?] ?. split; [done|lia]. Qed.

(** Concrete texts are checked by evaluation. *)
Definition fitsb (n : nat) (s : jsstr) : bool :=
  (length s <=? n)%nat && forallb (λ c, (32 <=? c) && (c <? 127)) s.

Lemma fits_check n s : fitsb n s = true → fits n s.
Proof.
  unfold fitsb. intros [Hn%Nat.leb_le Hs]%andb_true_iff. split; [|done]. apply Forall_forall.
  intros c Hc. apply (proj1 (forallb_elem _ _) Hs) in Hc. bool_to_prop. lia.
Qed.

Ltac concrete := apply fits_check; vm_compute; reflexivity.

Lemma printable_escape c : 32 <= c < 127 → fits 2 (escape_unit c).
Proof.
  intros Hc. unfold escape_unit, QUOTE, BACKSLASH.
  destruct (_ || _); [split; [repeat constructor; lia|cbn; lia]|].
  rewrite !(proj2 (Z.eqb_neq _ _)), (proj2 (Z.ltb_ge _ _)) by lia.
  split; [repeat constructor; lia|cbn; lia].
Qed.

Lemma fits_quote n s : fits n s → fits (2 * n + 2) (quote_string s).
Proof.
  intros [Hs Hn]. unfold quote_string.
  assert (H : fits (2 * length s) (flat_map escape_unit s)).
  { clear Hn. induction Hs as [|c s Hc Hs IH]; cbn [flat_map]; [by split; [constructor|]|].
    eapply fits_le; [apply fits_app; [by apply printable_escape|exact IH]|]. cbn. lia. }
  eapply fits_le; [apply fits_app; [|apply fits_app; [exact H|]]|]; [| |].
  - instantiate (1 := 1%nat). concrete.
  - instantiate (1 := 1%nat). concrete.
  - lia.
Qed.

(** Members with a literal key. *)
Lemma fits_member key k n t :
  fits k (quote_string (js key)) → fits n t → fits (k + 1 + n) (member key t).
Proof.
  intros Hk Ht. unfold member. eapply fits_le; [apply fits_app; [exact Hk|apply (fits_app 1)]|];
    [concrete|exact Ht|lia].
Qed.

(** A joined list costs the parts and a separator each. *)
Definition total (parts : list jsstr) : nat := sum_list_with (λ p, S (length p)) parts.

Lemma total_cons p ps : total (p :: ps) = (S (length p) + total ps)%nat.
Proof. reflexivity. Qed.
Lemma total_nil : total [] = 0%nat.
Proof. reflexivity. Qed.

Lemma fits_join parts : Forall printable parts → fits (total parts) (join (js ",") parts).
Proof.
  intros Hp. destruct Hp as [|p ps Hp Hps]; [by split; [constructor|]|]. cbn [join].
  assert (H : fits (total ps) (flat_map (λ q, js "," ++ q) ps)).
  { clear Hp. induction Hps as [|q ps Hq Hps IH]; [by split; [constructor|]|]. cbn [flat_map].
    eapply fits_le; [apply fits_app; [|exact IH]|]; [split|];
      [apply Forall_app; split; [apply (fits_check 1); vm_compute; reflexivity|exact Hq]|reflexivity|].
    unfold total. cbn. lia. }
  eapply fits_le; [apply fits_app; [split; [exact Hp|reflexivity]|exact H]|]. unfold total. cbn. lia.
Qed.

Lemma total_app a b : total (a ++ b) = (total a + total b)%nat.
Proof. unfold total. induction a; cbn; lia. Qed.

Lemma int_digits_fits fuel z k :
  0 <= z < 10 ^ Z.of_nat k → (1 <= k)%nat → fits k (int_digits fuel z).
Proof.
  revert z k. induction fuel as [|fuel IH]; intros z k Hz Hk; cbn [int_digits];
    [split; [constructor|cbn; lia]|].
  assert (Hd : fits 1 [48 + z mod 10]).
  { pose proof (Z.mod_pos_bound z 10). split; [repeat constructor; lia|done]. }
  destruct (z <? 10) eqn:E; [by eapply fits_le|]. bool_to_prop.
  destruct k as [|[|k]]; [lia|cbn in Hz; lia|].
  eapply fits_le; [apply fits_app; [apply (IH (z / 10) (S k)); [|lia]|exact Hd]|lia].
  rewrite Nat2Z.inj_succ, Z.pow_succ_r in Hz by lia. split; [apply Z.div_pos; lia|].
  apply Z.div_lt_upper_bound; lia.
Qed.

Lemma int_text_fits z k :
  Z.abs z < 10 ^ Z.of_nat k → (1 <= k)%nat → fits (S k) (int_text z).
Proof.
  intros Hz Hk. unfold int_text. apply (fits_app 1); [|apply int_digits_fits; [lia|done]].
  destruct (z <? 0); concrete.
Qed.

Lemma count_text_fits z : in_count z → fits 11 (int_text z).
Proof. unfold in_count, COUNT_LIMIT. intros H. apply int_text_fits; [cbn; lia|lia]. Qed.

Section Budget.
Context (known_signal : string → bool).
(** Platform signal names are short printable words. *)
Context (Hsignal : ∀ s, known_signal s = true → fits 16 (js s)).

Lemma label_fits l : l ∈ TURN_TIMELINE_LABELS → fits 15 (js l).
Proof.
  intros H. apply fits_check.
  by apply (proj1 (forallb_elem (λ x, fitsb 15 (js x)) TURN_TIMELINE_LABELS) ltac:(vm_compute; reflexivity)).
Qed.

Lemma reason_fits r : r ∈ REASONS → fits 11 (js r).
Proof.
  intros H. apply fits_check.
  by apply (proj1 (forallb_elem (λ x, fitsb 11 (js x)) REASONS) ltac:(vm_compute; reflexivity)).
Qed.

(** An optional member contributes at most its bound. *)
Lemma optional_total {A} key (text : A → jsstr) (v : option A) k n :
  fits k (quote_string (js key)) → (∀ x, v = Some x → fits n (text x)) →
  Forall printable (match v with Some x => [member key (text x)] | None => [] end) ∧
  (total (match v with Some x => [member key (text x)] | None => [] end) <= k + n + 2)%nat.
Proof.
  intros Hk Hn. destruct v as [x|]; [|split; [constructor|cbn; lia]].
  destruct (fits_member key k n (text x) Hk (Hn x eq_refl)) as [Hp Hl].
  split; [apply Forall_singleton; exact Hp|]. rewrite total_cons, total_nil. lia.
Qed.

Lemma entry_text_fits e : wf_entry known_signal e → fits 280 (entry_text e).
Proof.
  intros [Hlab Hms Hre Hco Hdu Hcd Hsi Hde Hfa]. unfold entry_text. cbn zeta.
  pose proof (fits_member "label" 7 32 _ ltac:(concrete) (fits_quote 15 _ (label_fits _ Hlab))) as [P1 L1].
  pose proof (fits_member "ms" 4 11 _ ltac:(concrete) (count_text_fits _ Hms)) as [P2 L2].
  pose proof (optional_total "reason" (λ s, quote_string (js s)) (e_reason e) 8 24
    ltac:(concrete) (λ x Hx, fits_quote 11 _ (reason_fits x (Hre x Hx)))) as [P3 L3].
  pose proof (optional_total "count" int_text (e_count e) 7 11
    ltac:(concrete) (λ x Hx, count_text_fits x (Hco x Hx))) as [P4 L4].
  pose proof (optional_total "durationMs" int_text (e_durationMs e) 12 11
    ltac:(concrete) (λ x Hx, count_text_fits x (Hdu x Hx))) as [P5 L5].
  assert (Hcode : ∀ x, e_code e = Some x → fits 11 (int_text x)).
  { intros x Hx. apply (int_text_fits _ 10); [specialize (Hcd x Hx); cbn; lia|lia]. }
  pose proof (optional_total "code" int_text (e_code e) 6 11 ltac:(concrete) Hcode) as [P6 L6].
  pose proof (optional_total "signal" (λ s, quote_string (js s)) (e_signal e) 8 34
    ltac:(concrete) (λ x Hx, fits_quote 16 _ (Hsignal x (Hsi x Hx)))) as [P7 L7].
  pose proof (optional_total "delivered" int_text (e_delivered e) 11 11
    ltac:(concrete) (λ x Hx, count_text_fits x (Hde x Hx))) as [P8 L8].
  pose proof (optional_total "failed" int_text (e_failed e) 8 11
    ltac:(concrete) (λ x Hx, count_text_fits x (Hfa x Hx))) as [P9 L9].
  eapply fits_le; [apply (fits_app 1); [concrete|apply fits_app; [apply fits_join|]]|].
  - rewrite !Forall_app. repeat (split; [|done || split]); try done.
    apply Forall_cons. split; [exact P1|]. apply Forall_singleton. exact P2.
  - instantiate (1 := 1%nat). concrete.
  - rewrite !total_app, !total_cons, total_nil. lia.
Qed.
Lemma utf8_printable s : printable s → utf8_length s = Z.of_nat (length s).
Proof.
  induction 1 as [|c s Hc Hs IH]; [done|]. cbn [utf8_length length].
  rewrite (proj2 (Z.ltb_lt _ _)) by lia. rewrite IH. lia.
Qed.

Lemma entries_fit es :
  Forall (wf_entry known_signal) es → (length es <= 2)%nat →
  fits 562 (join (js ",") (entry_text <$> es)).
Proof.
  intros He Hl.
  assert (H : Forall printable (entry_text <$> es) ∧ (total (entry_text <$> es) <= 281 * length es)%nat).
  { clear Hl. induction He as [|e es Hw He [IH1 IH2]]; [split; [constructor|done]|].
    destruct (entry_text_fits e Hw) as [Hp Hn]. rewrite fmap_cons, total_cons. cbn [length].
    split; [by constructor|lia]. }
  destruct H as [Hp Ht]. eapply fits_le; [by apply fits_join|]. lia.
Qed.

(** With at most two entries the sealed value is far below the budget. *)
Lemma small_timeline_fits t :
  timeline_ok known_signal t → fits 27 (startedAt t) → dropped t < 10 ^ 16 →
  (length (entries t) <= 2)%nat → enclosed_bytes (serialize t) <= TURN_TIMELINE_BYTES.
Proof.
  intros [_ _ He _ _ _ _ _ _ Hd] Hs Hdr Hl.
  assert (Hser : fits 700 (serialize t)).
  { unfold serialize.
    destruct (fits_member "startedAt" 11 56 _ ltac:(concrete) (fits_quote 27 _ Hs)) as [P1 L1].
    assert (Hent : fits 564 (js "[" ++ join (js ",") (entry_text <$> entries t) ++ js "]")).
    { eapply fits_le; [apply (fits_app 1); [concrete|apply fits_app; [by apply entries_fit|]]|];
        [instantiate (1 := 1%nat); concrete|lia]. }
    destruct (fits_member "entries" 9 564 _ ltac:(concrete) Hent) as [P2 L2].
    destruct (fits_member "dropped" 9 17 _ ltac:(concrete) (int_text_fits (dropped t) 16
      ltac:(change (Z.of_nat 16) with 16; lia) ltac:(lia))) as [P3 L3].
    eapply fits_le; [apply (fits_app 1); [concrete|apply fits_app; [apply fits_join|]]|].
    - apply Forall_cons. split; [exact P1|]. apply Forall_cons. split; [exact P2|].
      apply Forall_singleton. exact P3.
    - instantiate (1 := 1%nat). concrete.
    - rewrite !total_cons, total_nil. lia. }
  assert (Henc : fits 1500 (js "{" ++ member "timeline" (quote_string (serialize t)) ++ js "}")).
  { eapply fits_le; [apply (fits_app 1); [concrete|apply fits_app;
      [apply (fits_member _ 10); [concrete|apply fits_quote, Hser]|]]|];
      [instantiate (1 := 1%nat); concrete|lia]. }
  unfold enclosed_bytes. destruct Henc as [Hp Hn]. rewrite utf8_printable by done.
  unfold TURN_TIMELINE_BYTES. lia.
Qed.

End Budget.

(** ** Runs *)

Definition run (known_signal : string → bool) (t : TurnTimeline)
    (facts : list (TurnLifecycleFact * spec_float)) : TurnTimeline :=
  foldl (λ t f, record known_signal t f.1 f.2) t facts.

Lemma new_timeline_ok known_signal at_ : timeline_ok known_signal (new_timeline at_).
Proof.
  split; cbn; try done; try (unfold in_count, COUNT_LIMIT; lia); [unfold MAX_ENTRIES; lia|].
  apply Forall_singleton, wf_bare; [unfold TURN_TIMELINE_LABELS; set_solver|].
  unfold in_count, COUNT_LIMIT. lia.
Qed.

Lemma run_ok known_signal facts : ∀ t,
  timeline_ok known_signal t → timeline_ok known_signal (run known_signal t facts).
Proof.
  induction facts as [|f facts IH]; intros t Hok; [done|]. apply IH, record_ok, Hok.
Qed.

Lemma run_sealed known_signal facts t : sealed t = true → run known_signal t facts = t.
Proof.
  intros Hs. induction facts as [|f facts IH]; [done|]. cbn. unfold record. by rewrite Hs.
Qed.

(** The recorder is bounded for every Turn: whatever is reported and whatever the clock reads,
    it holds at most 48 entries, the first of which is the turn start, every stored field is of its
    closed vocabulary or within its numeric bound, and once frozen nothing changes it. *)
Theorem timeline_is_bounded known_signal at_ facts e1 e2 later :
  let t := run known_signal (new_timeline at_) facts in
  let frozen := freeze known_signal t e1 e2 in
  timeline_ok known_signal t ∧ timeline_ok known_signal frozen ∧
  sealed frozen = true ∧ run known_signal frozen later = frozen ∧
  freeze known_signal frozen e1 e2 = frozen.
Proof.
  cbn zeta. set (t := run known_signal (new_timeline at_) facts).
  assert (Hok : timeline_ok known_signal t) by apply run_ok, new_timeline_ok.
  assert (Hs : sealed (freeze known_signal t e1 e2) = true).
  { unfold freeze. destruct (sealed t) eqn:E; [done|]. done. }
  split; [done|]. split; [by apply freeze_ok|]. split; [done|].
  split; [by apply run_sealed|]. unfold freeze at 1. by rewrite Hs.
Qed.

(** Freezing drops at most three entries more. *)
Lemma append_dropped t e : dropped t <= dropped (append t e) <= dropped t + 1.
Proof. unfold append. destruct (_ =? _)%nat; simpl_timeline; lia. Qed.

Lemma record_dropped known_signal t fact e :
  dropped t <= dropped (record known_signal t fact e) <= dropped t + 1.
Proof.
  unfold record. destruct (sealed t); [lia|]. cbn zeta. repeat case_match; simpl_timeline;
    try (cbn [count_native count_enqueue count_transcript dropped]; lia);
    match goal with |- context [append ?t ?e] => pose proof (append_dropped t e) end;
    cbn [count_native see_host_exit dropped] in *; lia.
Qed.

Lemma startedAt_record known_signal t fact e : startedAt (record known_signal t fact e) = startedAt t.
Proof. unfold record, append. repeat case_match; done. Qed.

Lemma freeze_dropped known_signal t e1 e2 :
  dropped (freeze known_signal t e1 e2) <= dropped t + 3 ∧
  startedAt (freeze known_signal t e1 e2) = startedAt t.
Proof.
  unfold freeze. destruct (sealed t); [split; [lia|done]|]. cbn zeta.
  match goal with |- context [summarize (record _ ?x _ _)] => set (t1 := x) end.
  assert (H1 : dropped t1 <= dropped t + 1 ∧ startedAt t1 = startedAt t).
  { subst t1. destruct (0 <? nativeCount t); [|split; [lia|done]].
    match goal with |- context [append t ?e] => pose proof (append_dropped t e) end.
    simpl_timeline. split; [lia|]. unfold append. by destruct (_ =? _)%nat. }
  match goal with |- context [summarize ?x] => set (t2 := x) end.
  assert (H2 : dropped t2 <= dropped t1 + 1 ∧ startedAt t2 = startedAt t1).
  { split; [apply record_dropped|apply startedAt_record]. }
  pose proof (record_dropped known_signal (summarize t2) (plain_fact "sealed" None None) e2) as H3.
  pose proof (startedAt_record known_signal (summarize t2) (plain_fact "sealed" None None) e2) as H4.
  unfold seal_flag. simpl_timeline. cbn [summarize with_entries dropped startedAt] in H3, H4.
  split; [lia|]. rewrite H4. cbn [summarize with_entries startedAt]. destruct H2 as [_ ->]. apply H1.
Qed.

(** C40. Sealing always fits the diagnostics budget: for a recorder in its invariant, printable
    platform signal names and fewer than 10^15 dropped entries, the sealing loop terminates with a
    value whose enclosing key/value encoding is at most 4096 bytes, still starts with the turn
    start, and accounts for every entry it dropped. *)
Theorem seal_fits_budget known_signal t e1 e2 :
  (∀ s, known_signal s = true → fits 16 (js s)) →
  timeline_ok known_signal t → fits 27 (startedAt t) → dropped t < 10 ^ 15 →
  let '(value, sealedT) := seal known_signal t e1 e2 in
  let frozen := freeze known_signal t e1 e2 in
  value = serialize sealedT ∧ enclosed_bytes value <= 4096 ∧
  head (entries sealedT) = Some (bare_entry "turn_start" 0) ∧
  dropped sealedT + Z.of_nat (length (entries sealedT))
    = dropped frozen + Z.of_nat (length (entries frozen)).
Proof.
  intros Hsig Hok Hst Hdr. unfold seal. cbn zeta.
  pose proof (freeze_ok known_signal t e1 e2 Hok) as Hf.
  destruct (freeze_dropped known_signal t e1 e2) as [Hfd Hfs].
  set (frozen := freeze known_signal t e1 e2) in *.
  destruct (seal_loop_ok known_signal (length (entries frozen)) frozen Hf (Nat.le_refl _))
    as (Hl & Hacc & Hend).
  assert (Hstart : ∀ fuel u, startedAt (seal_loop fuel u) = startedAt u).
  { induction fuel as [|fuel IH]; intros u; cbn [seal_loop]; destruct (_ && _); try done. rewrite IH. done. }
  set (final := seal_loop (length (entries frozen)) frozen) in *.
  split; [done|]. split; [|split; [by destruct Hl|done]].
  destruct Hend as [Hend|Hend]; [done|].
  apply (small_timeline_fits known_signal); try done.
  - unfold final. by rewrite Hstart, Hfs.
  - destruct Hf as [_ Hlen _ _ _ _ _ _ _ _]. unfold MAX_ENTRIES in Hlen. lia.
Qed.

(** A Turn with two native events, a failed exit with a signal and one delivered transcript. *)
Definition demo_signal (s : string) : bool := bool_decide (s = "SIGKILL").

Definition demo_facts : list (TurnLifecycleFact * spec_float) :=
  [(plain_fact "native_event" None None, number_of_int 5);
   (plain_fact "native_event" None None, number_of_int 9);
   ({| f_label := "host_exit"; f_reason := Some "failed"; f_count := None; f_durationMs := None;
       f_code := Some (number_of_int 137); f_signal := Some "SIGKILL" |}, number_of_int 12);
   (plain_fact "transcript_enqueue" None None, number_of_int 13);
   (plain_fact "transcript_delivered" None (Some (number_of_int 4)), number_of_int 17)].

Definition demo_timeline : TurnTimeline :=
  run demo_signal (new_timeline (js "2024-01-01T00:00:00.000Z")) demo_facts.

Lemma seal_fits_budget_witness :
  enclosed_bytes (seal demo_signal demo_timeline (number_of_int 20) (number_of_int 21)).1 <= 4096.
Proof.
  pose proof (seal_fits_budget demo_signal demo_timeline (number_of_int 20) (number_of_int 21)) as H.
  destruct (seal _ _ _ _) as [value sealedT]. apply H.
  - intros s Hs. unfold demo_signal in Hs. apply bool_decide_eq_true_1 in Hs as ->.
    apply fits_check. vm_compute. reflexivity.
  - apply run_ok, new_timeline_ok.
  - apply fits_check. vm_compute. reflexivity.
  - vm_compute. reflexivity.
Defined.
