(* ===== verification/Sha1.v ===== *)
(** * SHA-1 over JavaScript 32-bit integers (packages/protocol/src/common/entity-id.ts, [sha1])

    The code computes on signed 32-bit words with JavaScript's bitwise operators; the reference
    below is the hash of FIPS 180-4 on unsigned words.  The main result is that the two agree on
    every input.  The loops run over the fixed index ranges of the source. *)

From S2P Require Import Prelude.

Local Open Scope list_scope.
Local Open Scope Z_scope.

(** ** JavaScript's 32-bit operators *)

Definition to_uint32 (z : Z) : Z := z mod 2 ^ 32.
Definition to_int32 (z : Z) : Z :=
  let u := to_uint32 z in if u <? 2 ^ 31 then u else u - 2 ^ 32.

Definition js_shl (a k : Z) : Z := to_int32 (Z.shiftl (to_int32 a) k).
Definition js_shru (a k : Z) : Z := Z.shiftr (to_uint32 a) k.
Definition js_and (a b : Z) : Z := Z.land (to_int32 a) (to_int32 b).
Definition js_or (a b : Z) : Z := Z.lor (to_int32 a) (to_int32 b).
Definition js_xor (a b : Z) : Z := Z.lxor (to_int32 a) (to_int32 b).
Definition js_not (a : Z) : Z := Z.lnot (to_int32 a).

(** ** The code *)

Definition rotate (word bits : Z) : Z := js_or (js_shl word bits) (js_shru word (32 - bits)).

(** [DataView.setBigUint64], [setInt32] and [getInt32], big endian. *)
Definition byte_at (z : Z) (i : nat) : Z := Z.shiftr z (8 * Z.of_nat i) mod 256.
Definition be_bytes (k : nat) (z : Z) : list Z := byte_at z <$> rev (seq 0 k).
Definition be_value (bs : list Z) : Z := foldl (λ a b, a * 256 + b) 0 bs.
Definition getInt32 (bytes : list Z) (offset : nat) : Z :=
  to_int32 (be_value (take 4 (drop offset bytes))).

(** The padded copy: the input, [0x80], zeros and the bit length in the last eight bytes. *)
Definition padded_length (n : nat) : nat := ((n + 9 + 63) / 64 * 64)%nat.
Definition padded (input : list Z) : list Z :=
  let n := padded_length (length input) in
  take (n - 8) (input ++ [128] ++ replicate n 0) ++ be_bytes 8 (Z.of_nat (length input) * 8).

Definition word (words : list Z) (i : nat) : Z := nth i words 0.

(** The schedule: sixteen words of the block and the sixty-four derived ones. *)
Definition schedule_words (bytes : list Z) (offset : nat) : list Z :=
  foldl (λ words index,
    words ++ [rotate (js_xor (js_xor (js_xor (word words (index - 3)) (word words (index - 8)))
                                     (word words (index - 14))) (word words (index - 16))) 1])
    ((λ index, getInt32 bytes (offset + index * 4)) <$> seq 0 16) (seq 16 64).

Record Registers := { ra : Z; rb : Z; rc : Z; rd : Z; re : Z }.

Definition round_f (index : nat) (b c d : Z) : Z :=
  if (index <? 20)%nat then js_or (js_and b c) (js_and (js_not b) d)
  else if (index <? 40)%nat then js_xor (js_xor b c) d
  else if (index <? 60)%nat then js_or (js_or (js_and b c) (js_and b d)) (js_and c d)
  else js_xor (js_xor b c) d.

Definition round_k (index : nat) : Z :=
  if (index <? 20)%nat then 0x5a827999
  else if (index <? 40)%nat then 0x6ed9eba1
  else if (index <? 60)%nat then 0x8f1bbcdc
  else 0xca62c1d6.

Definition round (words : list Z) (r : Registers) (index : nat) : Registers :=
  let next := to_int32 (rotate (ra r) 5 + round_f index (rb r) (rc r) (rd r) + re r
                        + round_k index + word words index) in
  {| ra := next; rb := ra r; rc := rotate (rb r) 30; rd := rc r; re := rd r |}.

Definition add_registers (s r : Registers) : Registers :=
  {| ra := to_int32 (ra s + ra r); rb := to_int32 (rb s + rb r); rc := to_int32 (rc s + rc r);
     rd := to_int32 (rd s + rd r); re := to_int32 (re s + re r) |}.

Definition block (bytes : list Z) (state : Registers) (offset : nat) : Registers :=
  add_registers state (foldl (round (schedule_words bytes offset)) state (seq 0 80)).

Definition initial_state : Registers :=
  {| ra := 0x67452301; rb := 0xefcdab89; rc := 0x98badcfe; rd := 0x10325476; re := 0xc3d2e1f0 |}.

Definition registers_list (r : Registers) : list Z := [ra r; rb r; rc r; rd r; re r].

Definition sha1 (input : list Z) : list Z :=
  let bytes := padded input in
  let state := foldl (block bytes) initial_state
                 ((λ i, i * 64)%nat <$> seq 0 (length bytes / 64)) in
  registers_list state ≫= be_bytes 4.

(** ** The reference: FIPS 180-4 on unsigned words *)

Module Fips.
Definition ROTL (n x : Z) : Z := Z.lor (Z.shiftl x n mod 2 ^ 32) (Z.shiftr x (32 - n)).
Definition lnot32 (x : Z) : Z := 2 ^ 32 - 1 - x.
Definition Ch (x y z : Z) : Z := Z.lxor (Z.land x y) (Z.land (lnot32 x) z).
Definition Parity (x y z : Z) : Z := Z.lxor (Z.lxor x y) z.
Definition Maj (x y z : Z) : Z := Z.lxor (Z.lxor (Z.land x y) (Z.land x z)) (Z.land y z).

Definition f (t : nat) : Z → Z → Z → Z :=
  if (t <? 20)%nat then Ch else if (t <? 40)%nat then Parity else if (t <? 60)%nat then Maj
  else Parity.

(** The message, a one bit, the least number of zeros that leaves eight bytes of a block, and the
    length in bits. *)
Definition pad (message : list Z) : list Z :=
  message ++ [128] ++ replicate (Z.to_nat ((55 - Z.of_nat (length message)) mod 64)) 0
  ++ be_bytes 8 (Z.of_nat (length message) * 8).

Definition message_schedule (bytes : list Z) (offset : nat) : list Z :=
  foldl (λ W t, W ++ [ROTL 1 (Z.lxor (Z.lxor (Z.lxor (word W (t - 3)) (word W (t - 8)))
                                            (word W (t - 14))) (word W (t - 16)))])
    ((λ t, be_value (take 4 (drop (offset + t * 4) bytes))) <$> seq 0 16) (seq 16 64).

Definition step (W : list Z) (r : Registers) (t : nat) : Registers :=
  {| ra := (ROTL 5 (ra r) + f t (rb r) (rc r) (rd r) + re r + round_k t + word W t) mod 2 ^ 32;
     rb := ra r; rc := ROTL 30 (rb r); rd := rc r; re := rd r |}.

Definition add (s r : Registers) : Registers :=
  {| ra := (ra s + ra r) mod 2 ^ 32; rb := (rb s + rb r) mod 2 ^ 32; rc := (rc s + rc r) mod 2 ^ 32;
     rd := (rd s + rd r) mod 2 ^ 32; re := (re s + re r) mod 2 ^ 32 |}.

Definition digest_block (bytes : list Z) (H : Registers) (offset : nat) : Registers :=
  add H (foldl (step (message_schedule bytes offset)) H (seq 0 80)).

Definition SHA1 (message : list Z) : list Z :=
  let bytes := pad message in
  let H := foldl (digest_block bytes) initial_state
             ((λ i, i * 64)%nat <$> seq 0 (length bytes / 64)) in
  registers_list H ≫= be_bytes 4.
End Fips.

(** SHA-1 of the empty message and of "abc". *)
Example sha1_empty : be_value (sha1 []) = 0xda39a3ee5e6b4b0d3255bfef95601890afd80709.
Proof. vm_compute. reflexivity. Qed.
Example sha1_abc : be_value (sha1 [97; 98; 99]) = 0xa9993e364706816aba3e25717850c26c9cd0d89d.
Proof. vm_compute. reflexivity. Qed.
Example fips_abc : Fips.SHA1 [97; 98; 99] = sha1 [97; 98; 99].
Proof. vm_compute. reflexivity. Qed.

(** ** Signed and unsigned words *)

Lemma mod_land a b n : 0 <= n → Z.land a b mod 2 ^ n = Z.land (a mod 2 ^ n) (b mod 2 ^ n).
Proof.
  intros Hn. apply Z.bits_inj'. intros i Hi. rewrite Z.land_spec, !Z.testbit_mod_pow2, Z.land_spec by lia.
  by destruct (i <? n), (Z.testbit a i), (Z.testbit b i).
Qed.

Lemma mod_lor a b n : 0 <= n → Z.lor a b mod 2 ^ n = Z.lor (a mod 2 ^ n) (b mod 2 ^ n).
Proof.
  intros Hn. apply Z.bits_inj'. intros i Hi. rewrite Z.lor_spec, !Z.testbit_mod_pow2, Z.lor_spec by lia.
  by destruct (i <? n), (Z.testbit a i), (Z.testbit b i).
Qed.

Lemma mod_lxor a b n : 0 <= n → Z.lxor a b mod 2 ^ n = Z.lxor (a mod 2 ^ n) (b mod 2 ^ n).
Proof.
  intros Hn. apply Z.bits_inj'. intros i Hi. rewrite Z.lxor_spec, !Z.testbit_mod_pow2, Z.lxor_spec by lia.
  by destruct (i <? n), (Z.testbit a i), (Z.testbit b i).
Qed.

Lemma uint32_range z : 0 <= to_uint32 z < 2 ^ 32.
Proof. apply Z.mod_pos_bound. lia. Qed.

Lemma uint32_int32 z : to_uint32 (to_int32 z) = to_uint32 z.
Proof.
  unfold to_int32, to_uint32. cbn zeta. destruct (_ <? _); [by rewrite Zmod_mod|].
  replace (z mod 2 ^ 32 - 2 ^ 32) with (z mod 2 ^ 32 + (-1) * 2 ^ 32) by lia.
  by rewrite Z_mod_plus_full, Zmod_mod.
Qed.

Lemma uint32_idem z : to_uint32 (to_uint32 z) = to_uint32 z.
Proof. apply Zmod_mod. Qed.

Lemma uint32_small z : 0 <= z < 2 ^ 32 → to_uint32 z = z.
Proof. apply Z.mod_small. Qed.

Lemma uint32_and a b : to_uint32 (js_and a b) = Z.land (to_uint32 a) (to_uint32 b).
Proof. unfold js_and, to_uint32 at 1. rewrite mod_land by lia. f_equal; apply uint32_int32. Qed.
Lemma uint32_or a b : to_uint32 (js_or a b) = Z.lor (to_uint32 a) (to_uint32 b).
Proof. unfold js_or, to_uint32 at 1. rewrite mod_lor by lia. f_equal; apply uint32_int32. Qed.
Lemma uint32_xor a b : to_uint32 (js_xor a b) = Z.lxor (to_uint32 a) (to_uint32 b).
Proof. unfold js_xor, to_uint32 at 1. rewrite mod_lxor by lia. f_equal; apply uint32_int32. Qed.

Lemma uint32_not a : to_uint32 (js_not a) = Fips.lnot32 (to_uint32 a).
Proof.
  rewrite <-(uint32_int32 a). unfold js_not, Fips.lnot32. generalize (to_int32 a) as z. intros z.
  unfold to_uint32, Z.lnot. Z.to_euclidean_division_equations. lia.
Qed.

Lemma uint32_shl a k : 0 <= k → to_uint32 (js_shl a k) = Z.shiftl (to_uint32 a) k mod 2 ^ 32.
Proof.
  intros Hk. unfold js_shl. rewrite uint32_int32, <-(uint32_int32 a). unfold to_uint32.
  rewrite !Z.shiftl_mul_pow2 by done. by rewrite Zmult_mod_idemp_l.
Qed.

Lemma uint32_rotate w n : 0 <= n <= 32 → to_uint32 (rotate w n) = Fips.ROTL n (to_uint32 w).
Proof.
  intros Hn. unfold rotate, Fips.ROTL, js_shru. rewrite uint32_or, uint32_shl by lia. f_equal.
  apply uint32_small. pose proof (uint32_range w). rewrite Z.shiftr_div_pow2 by lia. split.
  - apply Z.div_pos; lia.
  - apply Z.div_lt_upper_bound; [lia|]. nia.
Qed.

#[local] Hint Rewrite uint32_and uint32_or uint32_xor uint32_not uint32_int32 uint32_idem : word32.

Lemma lor_disjoint a b : Z.land a b = 0 → Z.lor a b = Z.lxor a b.
Proof. intros H. by rewrite (Z.lxor_lor a b). Qed.

(** The selection written with [|] is the one of the standard, written with exclusive or. *)
Lemma uint32_choose b c d :
  to_uint32 (js_or (js_and b c) (js_and (js_not b) d))
  = Fips.Ch (to_uint32 b) (to_uint32 c) (to_uint32 d).
Proof.
  autorewrite with word32. unfold Fips.Ch. apply lor_disjoint.
  replace (Fips.lnot32 (to_uint32 b)) with (Z.lnot (to_uint32 b) mod 2 ^ 32); cycle 1.
  { pose proof (uint32_range b). unfold Fips.lnot32, Z.lnot. Z.to_euclidean_division_equations. lia. }
  apply Z.bits_inj'. intros i Hi. rewrite !Z.land_spec, Z.testbit_mod_pow2, Z.lnot_spec, Z.bits_0 by lia.
  by destruct (Z.testbit (to_uint32 b) i), (Z.testbit (to_uint32 c) i), (i <? 32).
Qed.

Lemma uint32_majority b c d :
  to_uint32 (js_or (js_or (js_and b c) (js_and b d)) (js_and c d))
  = Fips.Maj (to_uint32 b) (to_uint32 c) (to_uint32 d).
Proof.
  autorewrite with word32. unfold Fips.Maj. apply Z.bits_inj'. intros i Hi.
  rewrite !Z.lor_spec, !Z.lxor_spec, !Z.land_spec.
  by destruct (Z.testbit (to_uint32 b) i), (Z.testbit (to_uint32 c) i), (Z.testbit (to_uint32 d) i).
Qed.

Lemma uint32_round_f t b c d :
  to_uint32 (round_f t b c d) = Fips.f t (to_uint32 b) (to_uint32 c) (to_uint32 d).
Proof.
  unfold round_f, Fips.f.
  repeat destruct (_ <? _)%nat; auto using uint32_choose, uint32_majority;
    by autorewrite with word32.
Qed.

Lemma uint32_add a b : to_uint32 (a + b) = to_uint32 (to_uint32 a + to_uint32 b).
Proof. unfold to_uint32. by rewrite Zplus_mod. Qed.

(** ** The simulation *)

Definition unsigned (r : Registers) : Registers :=
  {| ra := to_uint32 (ra r); rb := to_uint32 (rb r); rc := to_uint32 (rc r);
     rd := to_uint32 (rd r); re := to_uint32 (re r) |}.

Lemma foldl_simulation {A B C} (h : A → B) (f : A → C → A) (g : B → C → B) l :
  (∀ s x, h (f s x) = g (h s) x) → ∀ s, h (foldl f s l) = foldl g (h s) l.
Proof. intros H. induction l as [|x l IH]; intros s; [done|]. cbn. by rewrite IH, H. Qed.

Lemma word_unsigned ws i : word (to_uint32 <$> ws) i = to_uint32 (word ws i).
Proof. unfold word. change 0 with (to_uint32 0) at 1. apply map_nth. Qed.

Lemma sum_mod a b c k d :
  to_uint32 (a + b + c + k + d)
  = (to_uint32 a + to_uint32 b + to_uint32 c + k + to_uint32 d) mod 2 ^ 32.
Proof.
  unfold to_uint32. rewrite (Z.mod_eq a), (Z.mod_eq b), (Z.mod_eq c), (Z.mod_eq d) by lia.
  rewrite <-(Z_mod_plus_full (a + b + c + k + d)
               (- (a / 2 ^ 32 + b / 2 ^ 32 + c / 2 ^ 32 + d / 2 ^ 32)) (2 ^ 32)).
  f_equal. ring.
Qed.

Lemma step_simulation ws r t :
  unsigned (round ws r t) = Fips.step (to_uint32 <$> ws) (unsigned r) t.
Proof.
  unfold unsigned, round, Fips.step. cbn [ra rb rc rd re].
  rewrite uint32_int32, word_unsigned, uint32_rotate, <-(uint32_rotate (ra r)), <-uint32_round_f by lia.
  f_equal. apply sum_mod.
Qed.

Lemma add_simulation s r : unsigned (add_registers s r) = Fips.add (unsigned s) (unsigned r).
Proof.
  unfold unsigned, add_registers, Fips.add. cbn [ra rb rc rd re].
  rewrite !uint32_int32. f_equal; apply uint32_add.
Qed.

(** ** Padding and the schedule *)

Definition bytes_ok (l : list Z) : Prop := Forall (λ b, 0 <= b < 256) l.

Lemma be_value_snoc l b : be_value (l ++ [b]) = be_value l * 256 + b.
Proof. unfold be_value. by rewrite foldl_app. Qed.

Lemma be_value_range l : bytes_ok l → 0 <= be_value l < 256 ^ Z.of_nat (length l).
Proof.
  induction l as [|b l IH] using rev_ind; [done|]. intros [Hl Hb]%Forall_app.
  apply Forall_cons in Hb as [Hb _]. specialize (IH Hl). rewrite be_value_snoc, length_app.
  replace (Z.of_nat (length l + length [b])) with (Z.succ (Z.of_nat (length l))) by (cbn; lia).
  rewrite Z.pow_succ_r by lia. lia.
Qed.

Lemma be_bytes_ok k z : bytes_ok (be_bytes k z).
Proof. apply Forall_fmap, Forall_true. intros i. apply Z.mod_pos_bound. lia. Qed.

Lemma length_be_bytes k z : length (be_bytes k z) = k.
Proof. unfold be_bytes. by rewrite length_fmap, length_rev, length_seq. Qed.

Lemma block_word bytes offset :
  bytes_ok bytes → to_uint32 (getInt32 bytes offset) = be_value (take 4 (drop offset bytes)).
Proof.
  intros Hb. unfold getInt32. rewrite uint32_int32. apply uint32_small.
  assert (Ht : bytes_ok (take 4 (drop offset bytes))) by by apply Forall_take, Forall_drop.
  pose proof (be_value_range _ Ht) as Hr. pose proof (length_take (drop offset bytes) 4) as Hl.
  assert (256 ^ Z.of_nat (length (take 4 (drop offset bytes))) <= 256 ^ 4); [|lia].
  apply Z.pow_le_mono_r; lia.
Qed.

Lemma schedule_simulation bytes offset :
  bytes_ok bytes →
  to_uint32 <$> schedule_words bytes offset = Fips.message_schedule bytes offset.
Proof.
  intros Hb. unfold schedule_words, Fips.message_schedule.
  rewrite (foldl_simulation (fmap to_uint32) _
    (λ W t, W ++ [Fips.ROTL 1 (Z.lxor (Z.lxor (Z.lxor (word W (t - 3)) (word W (t - 8)))
                                            (word W (t - 14))) (word W (t - 16)))])).
  - f_equal. rewrite <-list_fmap_compose. apply list_fmap_ext. intros i x _. by apply block_word.
  - intros ws t. rewrite fmap_app. f_equal. cbn [fmap list_fmap]. f_equal.
    rewrite uint32_rotate, !word_unsigned by lia. by autorewrite with word32.
Qed.

Lemma block_simulation bytes s offset :
  bytes_ok bytes → unsigned (block bytes s offset) = Fips.digest_block bytes (unsigned s) offset.
Proof.
  intros Hb. unfold block, Fips.digest_block. rewrite add_simulation. f_equal.
  rewrite <-schedule_simulation by done. apply foldl_simulation. intros r t. apply step_simulation.
Qed.

(** The rounded-up buffer of the code is the padding of the standard. *)
Lemma padded_pad input : padded input = Fips.pad input.
Proof.
  unfold padded, Fips.pad. cbn zeta. set (n := length input).
  set (k := Z.to_nat ((55 - Z.of_nat n) mod 64)).
  assert (Hn : (padded_length n - 8 = n + 1 + k)%nat).
  { unfold padded_length, k. pose proof (Nat.div_mod_eq (n + 9 + 63) 64).
    pose proof (Nat.mod_upper_bound (n + 9 + 63) 64). Z.to_euclidean_division_equations. lia. }
  rewrite Hn, !app_assoc. f_equal. rewrite take_app. f_equal.
  - apply take_ge. rewrite length_app. fold n. cbn. lia.
  - rewrite length_app. fold n. cbn [length]. replace (n + 1 + k - (n + 1))%nat with k by lia.
    rewrite take_replicate. f_equal. unfold padded_length in *. lia.
Qed.

Lemma pad_ok input : bytes_ok input → bytes_ok (Fips.pad input).
Proof.
  intros Hi. unfold Fips.pad, bytes_ok. rewrite !Forall_app. split; [done|].
  split; [by apply Forall_singleton|]. split; [|apply be_bytes_ok].
  apply Forall_replicate. lia.
Qed.

Lemma byte_at_uint32 z i : (i < 4)%nat → byte_at (to_uint32 z) i = byte_at z i.
Proof.
  intros Hi. unfold byte_at, to_uint32. rewrite !Z.shiftr_div_pow2 by lia.
  apply Z.bits_inj'. intros j Hj. change 256 with (2 ^ 8). rewrite !Z.testbit_mod_pow2 by lia.
  rewrite <-!Z.shiftr_div_pow2, !Z.shiftr_spec, Z.testbit_mod_pow2 by lia.
  destruct (j <? 8) eqn:E; [|done]. bool_to_prop. cbn. rewrite (proj2 (Z.ltb_lt _ _)) by lia. done.
Qed.

Lemma be_bytes_uint32 z : be_bytes 4 (to_uint32 z) = be_bytes 4 z.
Proof. unfold be_bytes. cbn. by rewrite !byte_at_uint32 by lia. Qed.

Lemma registers_bytes r : registers_list r ≫= be_bytes 4 = registers_list (unsigned r) ≫= be_bytes 4.
Proof.
  unfold registers_list, unsigned. cbn [mbind list_bind ra rb rc rd re]. by rewrite !be_bytes_uint32.
Qed.

Lemma unsigned_initial : unsigned initial_state = initial_state.
Proof. reflexivity. Qed.

(** The synchronous SHA-1 of the entity identifiers, computed on JavaScript's signed 32-bit
    words in a rounded-up buffer, is the FIPS 180-4 hash on unsigned words, for every input of
    bytes. *)
Theorem sha1_is_fips input : bytes_ok input → sha1 input = Fips.SHA1 input.
Proof.
  intros Hi. unfold sha1, Fips.SHA1. cbn zeta. rewrite padded_pad, registers_bytes. do 2 f_equal.
  rewrite <-unsigned_initial at 2. apply foldl_simulation. intros s offset.
  by apply block_simulation, pad_ok.
Qed.

Lemma sha1_is_fips_witness :
  be_value (Fips.SHA1 [97; 98; 99]) = 0xa9993e364706816aba3e25717850c26c9cd0d89d.
Proof.
  rewrite <-(sha1_is_fips [97; 98; 99]).
  - vm_compute. reflexivity.
  - repeat constructor; lia.
Defined.

Lemma sha1_bytes input : bytes_ok (sha1 input) ∧ length (sha1 input) = 20%nat.
Proof.
  unfold sha1, registers_list. cbn [mbind list_bind]. unfold bytes_ok.
  rewrite !length_app, !length_be_bytes. split; [|reflexivity].
  rewrite !Forall_app. repeat split; try apply be_bytes_ok; constructor.
Qed.
