(* ===== verification/EntityId.v ===== *)
(** * Entity identifiers (packages/protocol/src/common/entity-id.ts and
    apps/nanocore/src/generative-kernel/uuid.ts)

    Prefixed UUIDs: version 7 from a millisecond clock and random bytes, version 5 from a canonical
    JSON name.  The clock and the random bytes are arguments; the hash of [node:crypto] that the
    light-app identities use is a parameter. *)

From S2P Require Import Prelude JsValue CanonicalJson Sha1.

Local Open Scope string_scope.
Local Open Scope list_scope.
Local Open Scope Z_scope.

(** ** Kinds *)

Definition ENTITY_KINDS : list string :=
  ["usr"; "ws"; "th"; "tu"; "it"; "ar"; "mat"; "mrev"; "arev"; "kr"; "as"; "auto"; "occ"; "range";
   "auth"; "acct"; "verif"; "tok"; "nhtok"; "inv"; "cap"; "pd"; "use"; "aud"; "dep"; "kb"; "ks";
   "ko"; "kc"; "kf"; "krt"; "attempt"; "wst"; "vault"; "grant"; "vu"; "cand"; "col"; "fld"; "pres";
   "wsexp"; "wsbak"; "drb"].

Definition DERIVED_NAMESPACES : list (string * string) :=
  [("occ", "fc01b827-9017-53dc-b41b-387a2110d905"); ("tok", "e87fb49e-00c1-53f3-adbd-a5cf0de72bcc");
   ("ws", "41710f31-94f8-5e51-9589-1744ce75680d"); ("th", "1ea1147f-0d1a-5ae4-ba03-7ba2cd6a0eea");
   ("tu", "946f39c9-520d-5df2-985f-afaf05790c9d"); ("it", "585ca877-60b4-584f-a217-02b4aea5c651");
   ("ar", "fbb6ef57-8026-536c-aa29-0892c321c113"); ("mat", "68a8d824-718c-5c44-831a-3292e9846783");
   ("mrev", "c027bad1-40fa-5b1e-a480-421753232801"); ("arev", "59bffd58-b464-5c91-917f-a066bc9ce605");
   ("kr", "5e78300b-9458-5519-b104-d47e32923804"); ("cap", "b447467a-3e9c-5e36-b988-7b4961a0d817");
   ("aud", "c3d8713d-557b-5bf8-aa9c-a28bf50775d4"); ("pd", "bcf1702a-4e6a-59c6-86ac-75352a8fc41d");
   ("krt", "32a06e66-912c-53a4-b9d2-85b0a9edfe0b"); ("wsexp", "d8e266d0-77a0-5e91-b599-de82740626ff")].

Definition has_kind (kind : string) : bool := includes ENTITY_KINDS kind.

(** [DERIVED_NAMESPACES[kind]], when it is an own property. *)
Definition derived_namespace (kind : string) : option string :=
  snd <$> find (λ kn, bool_decide (kn.1 = kind)) DERIVED_NAMESPACES.

Inductive EntityIdError := UnknownKind | TimestampRange | NoDerivation | NotCanonical (e : CanonicalError).

(** ** The canonical pattern

    The regular expressions are sequences of single-character classes, anchored at both ends. *)

Definition lit (c d : Z) : bool := d =? c.
Definition is_hex (c : Z) : bool := is_digit c || in_range 97 102 c.
Definition is_variant (c : Z) : bool := includes (js "89ab") c.
Definition is_version (c : Z) : bool := includes (js "57") c.

Fixpoint matches_classes (ps : list (Z → bool)) (s : jsstr) : bool :=
  match ps, s with
  | [], [] => true
  | p :: ps, c :: s => p c && matches_classes ps s
  | _, _ => false
  end.

Definition uuid_classes (version : Z → bool) : list (Z → bool) :=
  replicate 8 is_hex ++ [lit (cu "-")] ++ replicate 4 is_hex ++ [lit (cu "-")]
  ++ [version] ++ replicate 3 is_hex ++ [lit (cu "-")] ++ [is_variant] ++ replicate 3 is_hex
  ++ [lit (cu "-")] ++ replicate 12 is_hex.

Definition entityIdPattern (kind : string) : result EntityIdError (list (Z → bool)) :=
  if negb (has_kind kind) then Err UnknownKind
  else
    let version := match derived_namespace kind with
                   | Some _ => is_version
                   | None => lit (cu "7")
                   end in
    Ok ((lit <$> js kind ++ js "_") ++ uuid_classes version).

Definition isEntityId (kind : string) (value : jsval) : bool :=
  has_kind kind &&
  match value with
  | JStr s => match entityIdPattern kind with Ok p => matches_classes p s | Err _ => false end
  | _ => false
  end.

(** ** UUID text *)

(** [byte.toString(16).padStart(2, '0')] *)
Definition hex2 (b : Z) : jsstr := [hex_digit (b / 16); hex_digit (b mod 16)].

(** [s.slice(a, b)] within the string. *)
Definition slice (a b : nat) (s : jsstr) : jsstr := take (b - a) (drop a s).

Definition formatUuid (bytes : list Z) : jsstr :=
  let hex := bytes ≫= hex2 in
  slice 0 8 hex ++ js "-" ++ slice 8 12 hex ++ js "-" ++ slice 12 16 hex ++ js "-" ++ slice 16 20 hex
  ++ js "-" ++ drop 20 hex.

(** [bytes[i] = (bytes[i]! & mask) | bits] *)
Definition set_bits (i : nat) (mask bits : Z) (bytes : list Z) : list Z :=
  alter (λ b, Z.lor (Z.land b mask) bits) i bytes.

(** The loop that stores the 48-bit timestamp, [index] from 5 down to 0. *)
Definition put_timestamp (milliseconds : Z) (bytes : list Z) : list Z :=
  (foldl (λ '(bytes, timestamp) index,
            (<[index := Z.land timestamp 255]> bytes, Z.shiftr timestamp 8))
     (bytes, milliseconds) [5; 4; 3; 2; 1; 0]%nat).1.

(** [milliseconds] is [date.getTime()], [None] for an invalid date; [random] are the sixteen bytes of
    [getRandomValues]. *)
Definition allocateEntityId (kind : string) (milliseconds : option Z) (random : list Z)
    : result EntityIdError jsstr :=
  if negb (has_kind kind) then Err UnknownKind
  else
    match milliseconds with
    | None => Err TimestampRange
    | Some ms =>
      if (ms <? 0) || (0xffffffffffff <? ms) then Err TimestampRange
      else
        let bytes := put_timestamp ms random in
        let bytes := set_bits 6 0x0f 0x70 bytes in
        let bytes := set_bits 8 0x3f 0x80 bytes in
        Ok (js kind ++ js "_" ++ formatUuid bytes)
    end.

(** ** Derived identifiers *)

(** UTF-8, an unpaired surrogate as U+FFFD. *)
Definition utf8_point (p : Z) : list Z :=
  if p <? 0x80 then [p]
  else if p <? 0x800 then [0xc0 + p / 64; 0x80 + p mod 64]
  else if p <? 0x10000 then [0xe0 + p / 4096; 0x80 + p / 64 mod 64; 0x80 + p mod 64]
  else [0xf0 + p / 262144; 0x80 + p / 4096 mod 64; 0x80 + p / 64 mod 64; 0x80 + p mod 64].

Fixpoint utf8_encode (s : jsstr) : list Z :=
  match s with
  | [] => []
  | c :: r =>
    if is_high_surrogate c then
      match r with
      | d :: r' =>
        if is_low_surrogate d
        then utf8_point (0x10000 + (c - 0xd800) * 1024 + (d - 0xdc00)) ++ utf8_encode r'
        else utf8_point 0xfffd ++ utf8_encode r
      | [] => utf8_point 0xfffd
      end
    else if is_low_surrogate c then utf8_point 0xfffd ++ utf8_encode r
    else utf8_point c ++ utf8_encode r
  end.

Definition hex_byte (s : jsstr) : Z :=
  match s with
  | [a; b] => default 0 (hex_value a) * 16 + default 0 (hex_value b)
  | _ => 0
  end.

(** [Number.parseInt(namespace.slice(index * 2, index * 2 + 2), 16)] for the sixteen bytes. *)
Definition namespace_bytes (namespace : string) : list Z :=
  let hex := filterb (λ c, negb (c =? cu "-")) (js namespace) in
  (λ index, hex_byte (slice (index * 2) (index * 2 + 2) hex)) <$> seq 0 16.

Definition deriveEntityId (kind : string) (name : jsval) : result EntityIdError jsstr :=
  match derived_namespace kind with
  | None => Err NoDerivation
  | Some namespace =>
    match canonicalIdentifierName name with
    | Err e => Err (NotCanonical e)
    | Ok text =>
      let input := namespace_bytes namespace ++ utf8_encode text in
      let bytes := take 16 (sha1 input) in
      let bytes := set_bits 6 0x0f 0x50 bytes in
      let bytes := set_bits 8 0x3f 0x80 bytes in
      Ok (js kind ++ js "_" ++ formatUuid bytes)
    end
  end.

(** ** Light-app identities ([uuid.ts]) *)

(** [Buffer.from(value.replaceAll('-', ''), 'hex')] on canonical UUID text. *)
Definition uuidBytes (value : jsstr) : list Z :=
  let hex := filterb (λ c, negb (c =? cu "-")) value in
  (λ index, hex_byte (slice (index * 2) (index * 2 + 2) hex)) <$> seq 0 (length hex / 2).

Definition URL_NAMESPACE : list Z := uuidBytes (js "6ba7b8119dad11d180b400c04fd430c8").

Section LightAppIds.
(** [createHash('sha1').update(a).update(b).digest()] on the concatenated bytes. *)
Context (sha1_digest : list Z → list Z).

Definition uuidv5 (name : jsstr) (namespace : list Z) : jsstr :=
  let hash := sha1_digest (namespace ++ utf8_encode name) in
  let hash := set_bits 6 0x0f 0x50 hash in
  let hash := set_bits 8 0x3f 0x80 hash in
  formatUuid (take 16 hash).

Definition allocateAppId (workspaceId requestId : jsstr) : jsstr :=
  uuidv5 (js "openkit:kernel.apps.create:" ++ workspaceId ++ js ":" ++ requestId) URL_NAMESPACE.

Inductive AllocationKind := Create | Batch.

Definition allocateRecordId (appId requestId : jsstr) (entryIndex : Z) (kind : AllocationKind)
    : jsstr :=
  let name := match kind with
              | Batch => js "kernel.records.batch:" ++ requestId ++ js ":" ++ int_text entryIndex
              | Create => js "kernel.records.create:" ++ requestId ++ js ":" ++ int_text entryIndex
              end in
  uuidv5 name (uuidBytes appId).
End LightAppIds.

(** Vectors of the repository's tests. *)
Example derive_occurrence :
  deriveEntityId "occ" (JArr [JStr (js "auto_01890f3e-0000-7000-8000-000000000001");
                              JStr (js "2026-10-16T00:00:00.000Z")])
  = Ok (js "occ_704590bf-947f-5c92-897f-41a8bc16fa85").
Proof. vm_compute. reflexivity. Qed.
Example derive_export :
  deriveEntityId "wsexp" (JArr [JStr (js "delete"); JStr (js "0190f4c8-0000-4000-8000-000000000001")])
  = Ok (js "wsexp_bff02f51-45bb-5e8f-9adb-4e4a3a55159a").
Proof. vm_compute. reflexivity. Qed.
Example allocate_epoch :
  allocateEntityId "ws" (Some 1) (replicate 16 255) = Ok (js "ws_00000000-0001-7fff-bfff-ffffffffffff").
Proof. vm_compute. reflexivity. Qed.

(** ** Hexadecimal text *)

Lemma hex_digit_hex d : 0 <= d < 16 → is_hex (hex_digit d) = true.
Proof.
  intros Hd. unfold is_hex, hex_digit, is_digit, in_range.
  destruct (d <? 10) eqn:E; bool_to_prop; apply orb_true_iff; [left|right]; apply andb_true_iff;
    split; apply Z.leb_le; lia.
Qed.

Lemma hex_digit_lt d e : 0 <= d → d < e → e < 16 → hex_digit d < hex_digit e.
Proof. intros. unfold hex_digit. destruct (d <? 10) eqn:?, (e <? 10) eqn:?; bool_to_prop; lia. Qed.

(** A statement about a byte that holds for all 256 of them. *)
Lemma byte_check (p : Z → bool) b :
  forallb (λ i, p (Z.of_nat i)) (seq 0 256) = true → 0 <= b < 256 → p b = true.
Proof.
  intros H Hb. rewrite forallb_elem in H. specialize (H (Z.to_nat b)).
  rewrite Z2Nat.id in H by lia. apply H, elem_of_seq. lia.
Qed.

(** The masks leave a byte with a fixed high digit. *)
Definition masked_high (mask bits : Z) (ok : Z → bool) (b : Z) : bool :=
  let c := Z.lor (Z.land b mask) bits in (0 <=? c) && (c <? 256) && ok (hex_digit (c / 16)).

Lemma masked mask bits ok b :
  forallb (λ i, masked_high mask bits ok (Z.of_nat i)) (seq 0 256) = true → 0 <= b < 256 →
  0 <= Z.lor (Z.land b mask) bits < 256 ∧ ok (hex_digit (Z.lor (Z.land b mask) bits / 16)) = true.
Proof.
  intros H Hb. apply (byte_check (masked_high mask bits ok) b) in H; [|done].
  unfold masked_high in H. cbn zeta in H. bool_to_prop. auto.
Qed.

Lemma matches_lit p ps s : matches_classes ((lit <$> p) ++ ps) (p ++ s) = matches_classes ps s.
Proof.
  induction p as [|c p IH]; [done|]. cbn. unfold lit at 1. rewrite Z.eqb_refl. apply IH.
Qed.

Lemma uuid_matches version bytes b6 b8 :
  length bytes = 16%nat → bytes_ok bytes → bytes !! 6%nat = Some b6 → bytes !! 8%nat = Some b8 →
  version (hex_digit (b6 / 16)) = true → is_variant (hex_digit (b8 / 16)) = true →
  matches_classes (uuid_classes version) (formatUuid bytes) = true.
Proof.
  intros Hl Hb H6 H8 Hv Hr.
  do 16 (destruct bytes as [|? bytes]; [discriminate Hl|]). destruct bytes; [|discriminate Hl].
  cbn in H6, H8. injection H6 as ->. injection H8 as ->.
  repeat match goal with
  | H : bytes_ok (_ :: _) |- _ => apply Forall_cons in H as [? H]
  | H : Forall _ (_ :: _) |- _ => apply Forall_cons in H as [? H]
  end.
  assert (Hx : ∀ b, 0 <= b < 256 → is_hex (hex_digit (b / 16)) = true ∧ is_hex (hex_digit (b mod 16)) = true).
  { intros b Hb'. split; apply hex_digit_hex; Z.to_euclidean_division_equations; lia. }
  cbn -[Z.div Z.modulo hex_digit is_hex is_variant]. unfold lit.
  rewrite !Z.eqb_refl, Hv, Hr. rewrite !andb_true_iff. repeat split; try (by apply Hx).
Qed.

(** ** The order of hexadecimal text *)

Lemma str_cmp_app_same p a b : str_cmp (p ++ a) (p ++ b) = str_cmp a b.
Proof. induction p as [|c p IH]; [done|]. cbn. by rewrite !Z.ltb_irrefl. Qed.

Lemma str_cmp_app_lt a b x y :
  length a = length b → str_cmp a b < 0 → str_cmp (a ++ x) (b ++ y) < 0.
Proof.
  revert b. induction a as [|c a IH]; intros [|d b]; cbn; try done; try lia. intros Hl.
  destruct (c <? d); [lia|]. destruct (d <? c); [lia|]. apply IH. lia.
Qed.

Lemma be_value_cons b l : be_value (b :: l) = b * 256 ^ Z.of_nat (length l) + be_value l.
Proof.
  induction l as [|c l IH] using rev_ind; [unfold be_value; cbn; lia|].
  rewrite app_comm_cons, !be_value_snoc, IH, length_app. cbn [length].
  replace (Z.of_nat (length l + 1)) with (Z.succ (Z.of_nat (length l))) by lia.
  rewrite Z.pow_succ_r by lia. lia.
Qed.

Lemma be_value_app l k : be_value (l ++ k) = be_value l * 256 ^ Z.of_nat (length k) + be_value k.
Proof.
  induction l as [|b l IH]; [done|]. rewrite <-app_comm_cons, !be_value_cons, IH, length_app.
  rewrite Nat2Z.inj_add, Z.pow_add_r by lia. ring.
Qed.

Lemma hex_order l k :
  bytes_ok l → bytes_ok k → length l = length k →
  (be_value l < be_value k → str_cmp (l ≫= hex2) (k ≫= hex2) < 0) ∧
  (be_value l = be_value k → l = k).
Proof.
  intros Hl. revert k. induction Hl as [|b l Hb Hl IH]; intros [|c k] Hk Hlen; try discriminate Hlen.
  { split; [unfold be_value; cbn; lia|done]. }
  apply Forall_cons in Hk as [Hc Hk]. injection Hlen as Hlen.
  destruct (IH k Hk Hlen) as [IH1 IH2]. rewrite !be_value_cons, Hlen.
  pose proof (be_value_range l Hl) as Rl. pose proof (be_value_range k Hk) as Rk. rewrite Hlen in Rl.
  assert (Hhi : b < c ∨ b = c ∨ c < b) by lia. cbn [mbind list_bind].
  destruct Hhi as [Hlt|[->|Hgt]]; [|split|].
  - split; [intros _|intros; nia]. apply str_cmp_app_lt; [done|]. cbn -[Z.div Z.modulo].
    assert (b / 16 < c / 16 ∨ b / 16 = c / 16 ∧ b mod 16 < c mod 16) as [H|[H1 H2]]
      by (Z.to_euclidean_division_equations; lia).
    + rewrite (proj2 (Z.ltb_lt _ _)); [lia|].
      apply hex_digit_lt; Z.to_euclidean_division_equations; lia.
    + rewrite H1, Z.ltb_irrefl. rewrite (proj2 (Z.ltb_lt _ _)); [lia|].
      apply hex_digit_lt; Z.to_euclidean_division_equations; lia.
  - intros H. change (list_bind ?A ?B ?f) with (@mbind list list_bind A B f).
    rewrite str_cmp_app_same. apply IH1. lia.
  - intros H. f_equal. apply IH2. lia.
  - split; intros; nia.
Qed.

(** ** Allocation *)

(** What the sixteen bytes of an allocated identifier are. *)
Record stamped (ms : Z) (bytes : list Z) : Prop := {
  st_parts : ∃ hi lo rest, bytes = hi ++ lo ++ rest ∧ length hi = 4%nat ∧ length lo = 2%nat ∧
                           be_value (hi ++ lo) = ms;
  st_ok : bytes_ok bytes;
  st_length : length bytes = 16%nat;
  st_version : ∃ b, bytes !! 6%nat = Some b ∧ hex_digit (b / 16) = cu "7";
  st_variant : ∃ b, bytes !! 8%nat = Some b ∧ is_variant (hex_digit (b / 16)) = true;
}.

Definition entropy (random : list Z) : Prop := length random = 16%nat ∧ bytes_ok random.

Lemma timestamp_bytes ms :
  0 <= ms < 2 ^ 48 →
  be_value [ms / 2 ^ 40 mod 256; ms / 2 ^ 32 mod 256; ms / 2 ^ 24 mod 256; ms / 2 ^ 16 mod 256;
            ms / 2 ^ 8 mod 256; ms mod 256] = ms.
Proof. intros H. unfold be_value. cbn -[Z.div Z.modulo]. Z.to_euclidean_division_equations. lia. Qed.

Lemma put_timestamp_bytes ms b0 b1 b2 b3 b4 b5 rest :
  put_timestamp ms ([b0; b1; b2; b3; b4; b5] ++ rest)
  = [ms / 2 ^ 40 mod 256; ms / 2 ^ 32 mod 256; ms / 2 ^ 24 mod 256; ms / 2 ^ 16 mod 256;
     ms / 2 ^ 8 mod 256; ms mod 256] ++ rest.
Proof.
  unfold put_timestamp. cbn -[Z.land Z.shiftr Z.div Z.modulo].
  change 255 with (Z.ones 8). rewrite !Z.land_ones, !Z.shiftr_shiftr, !Z.shiftr_div_pow2 by lia.
  reflexivity.
Qed.

Lemma stamped_bytes ms random :
  0 <= ms < 2 ^ 48 → entropy random →
  stamped ms (set_bits 8 0x3f 0x80 (set_bits 6 0x0f 0x70 (put_timestamp ms random))).
Proof.
  intros Hms [Hl Hb].
  do 16 (destruct random as [|? random]; [discriminate Hl|]). destruct random; [|discriminate Hl].
  repeat match goal with
  | H : bytes_ok (_ :: _) |- _ => apply Forall_cons in H as [? H]
  | H : Forall _ (_ :: _) |- _ => apply Forall_cons in H as [? H]
  end.
  pose proof (put_timestamp_bytes ms z z0 z1 z2 z3 z4 [z5; z6; z7; z8; z9; z10; z11; z12; z13; z14])
    as Hp. cbn [app] in Hp. rewrite Hp. clear Hp.
  destruct (masked 0x0f 0x70 (lit (cu "7")) z5 ltac:(vm_compute; reflexivity) ltac:(done)) as [M1 V1].
  destruct (masked 0x3f 0x80 is_variant z7 ltac:(vm_compute; reflexivity) ltac:(done)) as [M2 V2].
  unfold set_bits. cbn -[Z.land Z.lor Z.div Z.modulo Z.pow be_value is_variant hex_digit].
  split.
  - exists [ms / 2 ^ 40 mod 256; ms / 2 ^ 32 mod 256; ms / 2 ^ 24 mod 256; ms / 2 ^ 16 mod 256],
      [ms / 2 ^ 8 mod 256; ms mod 256]. eexists. split; [reflexivity|].
    split; [done|]. split; [done|]. by apply timestamp_bytes.
  - repeat (apply Forall_cons; split); try done; try apply Z.mod_pos_bound; try lia.
  - reflexivity.
  - eexists. split; [reflexivity|]. by apply Z.eqb_eq in V1.
  - eexists. split; [reflexivity|]. done.
Qed.

Lemma formatUuid_prefix hi lo rest :
  length hi = 4%nat → length lo = 2%nat →
  ∃ tail, formatUuid (hi ++ lo ++ rest) = (hi ≫= hex2) ++ js "-" ++ (lo ≫= hex2) ++ tail.
Proof.
  intros Hh Hl.
  do 4 (destruct hi as [|? hi]; [discriminate Hh|]). destruct hi; [|discriminate Hh].
  do 2 (destruct lo as [|? lo]; [discriminate Hl|]). destruct lo; [|discriminate Hl].
  eexists. reflexivity.
Qed.

Lemma stamped_order ms ms' bytes bytes' :
  stamped ms bytes → stamped ms' bytes' → ms < ms' →
  str_cmp (formatUuid bytes) (formatUuid bytes') < 0.
Proof.
  intros [(hi & lo & rest & -> & Hh & Hl & Hv) Hok _ _ _]
         [(hi' & lo' & rest' & -> & Hh' & Hl' & Hv') Hok' _ _ _] Hlt.
  unfold bytes_ok in Hok, Hok'. rewrite !Forall_app in Hok, Hok'.
  destruct Hok as (Bh & Bl & _), Hok' as (Bh' & Bl' & _).
  destruct (formatUuid_prefix hi lo rest Hh Hl) as [tl ->].
  destruct (formatUuid_prefix hi' lo' rest' Hh' Hl') as [tl' ->].
  rewrite be_value_app in Hv, Hv'. rewrite Hl in Hv. rewrite Hl' in Hv'.
  change (256 ^ Z.of_nat 2) with 65536 in *.
  pose proof (be_value_range lo Bl) as R. pose proof (be_value_range lo' Bl') as R'.
  rewrite Hl in R. rewrite Hl' in R'. change (256 ^ Z.of_nat 2) with 65536 in *.
  destruct (hex_order hi hi' Bh Bh' ltac:(congruence)) as [O1 O2].
  destruct (hex_order lo lo' Bl Bl' ltac:(congruence)) as [O3 _].
  assert (Hx : ∀ l k, length l = length k → length (l ≫= hex2) = length (k ≫= hex2)).
  { induction l as [|x l IH]; intros [|y k] E; try discriminate E; [done|]. cbn. f_equal. f_equal.
    apply IH. by injection E. }
  assert (be_value hi < be_value hi' ∨ be_value hi = be_value hi' ∧ be_value lo < be_value lo')
    as [H|[H1 H2]] by lia.
  - apply str_cmp_app_lt; [apply Hx; congruence|auto].
  - rewrite (O2 H1), !str_cmp_app_same. apply str_cmp_app_lt; [apply Hx; congruence|auto].
Qed.

Lemma allocate_Ok kind ms random id :
  entropy random → allocateEntityId kind (Some ms) random = Ok id →
  has_kind kind = true ∧ 0 <= ms < 2 ^ 48 ∧
  ∃ bytes, stamped ms bytes ∧ id = js kind ++ js "_" ++ formatUuid bytes.
Proof.
  intros He. unfold allocateEntityId. destruct (has_kind kind) eqn:K; [|done]. cbn [negb].
  destruct ((ms <? 0) || (0xffffffffffff <? ms)) eqn:E; [done|]. intros [= <-]. bool_to_prop.
  split; [done|]. assert (0 <= ms < 2 ^ 48) by lia. split; [done|].
  eexists. split; [by apply stamped_bytes|reflexivity].
Qed.

Lemma stamped_id kind ms bytes :
  has_kind kind = true → stamped ms bytes →
  isEntityId kind (JStr (js kind ++ js "_" ++ formatUuid bytes)) = true.
Proof.
  intros Hk [_ Hb Hl (b6 & H6 & V6) (b8 & H8 & V8)]. unfold isEntityId, entityIdPattern.
  rewrite Hk. cbn [negb andb]. cbn zeta. rewrite app_assoc, matches_lit.
  apply (uuid_matches _ bytes b6 b8); try done. rewrite V6. by destruct (derived_namespace kind).
Qed.

(** Allocation succeeds exactly for a known kind and an unsigned 48-bit time; what it returns is
    canonical text of that kind, and identifiers of a kind sort by their creation millisecond
    whatever the random bytes are. *)
Theorem allocated_ids_sort_by_time kind ms random :
  entropy random →
  (is_ok (allocateEntityId kind (Some ms) random) = true ↔
   kind ∈ ENTITY_KINDS ∧ 0 <= ms < 2 ^ 48) ∧
  ∀ id, allocateEntityId kind (Some ms) random = Ok id →
    isEntityId kind (JStr id) = true ∧
    ∀ ms' random' id', entropy random' → allocateEntityId kind (Some ms') random' = Ok id' →
      ms < ms' → str_cmp id id' < 0.
Proof.
  intros He. split.
  - unfold allocateEntityId, has_kind, includes. case_bool_decide; cbn [negb]; [|naive_solver].
    destruct ((ms <? 0) || (0xffffffffffff <? ms)) eqn:E; cbn; bool_to_prop.
    + split; [done|]. intros [_ ?]. destruct E; bool_to_prop; lia.
    + split; [|done]. intros _. split; [done|lia].
  - intros id Hid. apply allocate_Ok in Hid as (Hk & _ & bytes & Hs & ->); [|done].
    split; [by eapply stamped_id|]. intros ms' random' id' He' Hid' Hlt.
    apply allocate_Ok in Hid' as (_ & _ & bytes' & Hs' & ->); [|done].
    rewrite !app_assoc, str_cmp_app_same. by eapply stamped_order.
Qed.

Lemma allocated_ids_sort_by_time_witness :
  is_ok (allocateEntityId "col" (Some 1700000000000) (replicate 16 7)) = true.
Proof.
  apply (allocated_ids_sort_by_time "col" 1700000000000 (replicate 16 7)).
  - split; [done|]. repeat constructor; lia.
  - split; [|lia]. refine (bool_decide_eq_true_1 ("col" ∈ ENTITY_KINDS) _).
    vm_compute. reflexivity.
Defined.

(** ** Derivation *)

Lemma derived_is_kind kind ns : derived_namespace kind = Some ns → has_kind kind = true.
Proof.
  unfold derived_namespace. destruct (find _ _) as [[k n]|] eqn:E; [|done]. intros _.
  apply find_Some in E as [E1 E2]. cbn in E2. bool_to_prop. subst k.
  assert (H : forallb (λ kn, has_kind kn.1) DERIVED_NAMESPACES = true) by (vm_compute; reflexivity).
  rewrite forallb_elem in H. apply (H _ E1).
Qed.

Lemma digest_id kind ns digest :
  derived_namespace kind = Some ns → bytes_ok digest → length digest = 16%nat →
  isEntityId kind (JStr (js kind ++ js "_" ++
    formatUuid (set_bits 8 0x3f 0x80 (set_bits 6 0x0f 0x50 digest)))) = true.
Proof.
  intros Hn Hb Hl. unfold isEntityId, entityIdPattern. rewrite (derived_is_kind _ _ Hn), Hn.
  cbn [negb andb]. cbn zeta. rewrite app_assoc, matches_lit.
  do 16 (destruct digest as [|? digest]; [discriminate Hl|]). destruct digest; [|discriminate Hl].
  repeat match goal with
  | H : bytes_ok (_ :: _) |- _ => apply Forall_cons in H as [? H]
  | H : Forall _ (_ :: _) |- _ => apply Forall_cons in H as [? H]
  end.
  destruct (masked 0x0f 0x50 is_version z5 ltac:(vm_compute; reflexivity) ltac:(done)) as [M1 V1].
  destruct (masked 0x3f 0x80 is_variant z7 ltac:(vm_compute; reflexivity) ltac:(done)) as [M2 V2].
  eapply uuid_matches; [reflexivity| |reflexivity|reflexivity|exact V1|exact V2].
  repeat (apply Forall_cons; split); done.
Qed.

Lemma derive_Ok kind name id :
  deriveEntityId kind name = Ok id →
  ∃ ns text, derived_namespace kind = Some ns ∧ canonicalIdentifierName name = Ok text ∧
    id = js kind ++ js "_" ++ formatUuid (set_bits 8 0x3f 0x80 (set_bits 6 0x0f 0x50
           (take 16 (sha1 (namespace_bytes ns ++ utf8_encode text))))).
Proof.
  unfold deriveEntityId. destruct (derived_namespace kind) as [ns|] eqn:E; [|done].
  destruct (canonicalIdentifierName name) as [text|] eqn:C; [|done]. intros H. apply Ok_inj in H.
  exists ns, text. split; [done|]. split; [done|]. symmetry. exact H.
Qed.

(** A derived identifier is canonical text of its kind, and names with the same canonical form
    (members reordered, negative zero) derive the same identifier; the derivation fails only for
    a kind without a namespace or a name outside the canonical domain. *)
Theorem derived_ids_name_the_value kind name name' id :
  wf_value name → wf_value name' → deriveEntityId kind name = Ok id →
  isEntityId kind (JStr id) = true ∧
  (∀ text', canonicalIdentifierName name' = Ok text' →
     ∃ id', deriveEntityId kind name' = Ok id' ∧ (canon name = canon name' → id = id')).
Proof.
  intros Hw Hw' Hd. apply derive_Ok in Hd as (ns & text & Hn & Ht & ->). split.
  - pose proof (sha1_bytes (namespace_bytes ns ++ utf8_encode text)) as [Hb Hl].
    apply (digest_id _ ns); [done|by apply Forall_take|rewrite length_take, Hl; reflexivity].
  - intros text' Ht'. unfold deriveEntityId. rewrite Hn, Ht'. eexists. split; [reflexivity|].
    intros Hc. by rewrite (proj2 (canonical_text_eq false name name' text text' Hw Hw' Ht Ht') Hc).
Qed.

(** [{ b: 2, a: 0 }] and [{ a: -0, b: 2 }]. *)
Definition demo_name : jsval := JObj [(js "b", JNum (number_of_decimal false 2 0)); (js "a", JNum (SpecFloat.S754_zero false))].
Definition demo_name_reordered : jsval :=
  JObj [(js "a", JNum (SpecFloat.S754_zero true)); (js "b", JNum (number_of_decimal false 2 0))].

Lemma demo_name_wf : wf_value demo_name ∧ wf_value demo_name_reordered.
Proof.
  split; (constructor; [by apply (bool_decide_unpack _); vm_compute|]);
    repeat constructor; vm_compute; done.
Qed.

Lemma derived_ids_name_the_value_witness :
  ∃ id, deriveEntityId "tu" demo_name = Ok id ∧ deriveEntityId "tu" demo_name_reordered = Ok id.
Proof.
  destruct (deriveEntityId "tu" demo_name) as [id|] eqn:E; [|vm_compute in E; discriminate E].
  exists id. split; [reflexivity|]. destruct demo_name_wf as [W1 W2].
  destruct (canonicalIdentifierName demo_name_reordered) as [text|] eqn:C;
    [|vm_compute in C; discriminate C].
  destruct (derived_ids_name_the_value "tu" demo_name demo_name_reordered id W1 W2 E) as [_ H].
  destruct (H text C) as (id' & H1 & H2). rewrite H1, H2; reflexivity.
Defined.

(** The retained namespaces are what their comment says they are: each is the UUIDv5, by the
    standard SHA-1, of [openkit:entity-kind:] and its prefix in the URL namespace. *)
Theorem namespaces_are_uuidv5 kind ns :
  (kind, ns) ∈ DERIVED_NAMESPACES →
  uuidv5 Fips.SHA1 (js "openkit:entity-kind:" ++ js kind) URL_NAMESPACE = js ns.
Proof.
  intros H.
  assert (A : forallb (λ kn, bool_decide (uuidv5 Fips.SHA1 (js "openkit:entity-kind:" ++ js kn.1)
                                            URL_NAMESPACE = js kn.2)) DERIVED_NAMESPACES = true)
    by (vm_compute; reflexivity).
  rewrite forallb_elem in A. exact (bool_decide_eq_true_1 _ (A (kind, ns) H)).
Qed.

Lemma namespaces_are_uuidv5_witness :
  uuidv5 Fips.SHA1 (js "openkit:entity-kind:th") URL_NAMESPACE
  = js "1ea1147f-0d1a-5ae4-ba03-7ba2cd6a0eea".
Proof.
  apply (namespaces_are_uuidv5 "th" "1ea1147f-0d1a-5ae4-ba03-7ba2cd6a0eea").
  unfold DERIVED_NAMESPACES. set_solver.
Defined.
