(* ===== verification/Utf8.v ===== *)
(** * Uniqueness of byte encodings

    UTF-8 text and big-endian integers determine what they encode; used where the program hashes or
    signs a framed sequence of them. *)

From S2P Require Import Prelude JsValue CanonicalJson Sha1 EntityId.

Local Open Scope list_scope.
Local Open Scope Z_scope.

(** [lia] with quotients and remainders. *)
Local Ltac Zify.zify_post_hook ::= Z.to_euclidean_division_equations.

(** A string of UTF-16 code units. *)
Definition code_units (s : jsstr) : Prop := Forall (λ c, 0 <= c < 65536) s.
#[export] Instance code_units_dec s : Decision (code_units s).
Proof. unfold code_units. apply _. Defined.

Lemma utf8_point_head p :
  0 <= p < 0x110000 → ∃ b r, utf8_point p = b :: r ∧
  ((p < 0x80 ∧ b < 0x80 ∧ length r = 0%nat) ∨ (0x80 <= p < 0x800 ∧ 0xc0 <= b < 0xe0 ∧ length r = 1%nat) ∨
   (0x800 <= p < 0x10000 ∧ 0xe0 <= b < 0xf0 ∧ length r = 2%nat) ∨ (0x10000 <= p ∧ 0xf0 <= b ∧ length r = 3%nat)).
Proof.
  intros Hp. unfold utf8_point.
  destruct (p <? 0x80) eqn:E1; bool_to_prop; [eexists _, _; split; [done | ]; left; cbn; lia | ].
  destruct (p <? 0x800) eqn:E2; bool_to_prop; [eexists _, _; split; [done | ]; right; left; cbn; lia | ].
  destruct (p <? 0x10000) eqn:E3; bool_to_prop; eexists _, _; (split; [done | ]); right; right; [left | right]; cbn; lia.
Qed.

(** UTF-8 is a prefix code. *)
Lemma utf8_point_prefix p q l k :
  0 <= p < 0x110000 → 0 <= q < 0x110000 → utf8_point p ++ l = utf8_point q ++ k → p = q ∧ l = k.
Proof.
  intros Hp Hq E. destruct (utf8_point_head p Hp) as (b & r & Ep & Cp), (utf8_point_head q Hq) as (b' & r' & Eq & Cq).
  pose proof E as E0. rewrite Ep, Eq in E0. cbn in E0. injection E0 as -> Er.
  assert (Hlen : length r = length r') by lia. apply app_inj_1 in Er as [-> ->]; [ | done].
  split; [ | done]. unfold utf8_point in Ep, Eq.
  destruct (p <? 0x80) eqn:E1, (q <? 0x80) eqn:F1; bool_to_prop; try lia.
  { injection Ep as -> <-. by injection Eq as ->. }
  destruct (p <? 0x800) eqn:E2, (q <? 0x800) eqn:F2; bool_to_prop; try lia.
  { injection Ep as <- <-. injection Eq as ? ?. lia. }
  destruct (p <? 0x10000) eqn:E3, (q <? 0x10000) eqn:F3; bool_to_prop; try lia.
  - injection Ep as <- <-. injection Eq as ? ? ?. lia.
  - injection Ep as <- <-. injection Eq as ? ? ? ?. lia.
Qed.

(** The code points of a string without unpaired surrogates. *)
Fixpoint code_points (s : jsstr) : list Z :=
  match s with
  | [] => []
  | c :: r =>
    if is_high_surrogate c then
      match r with
      | d :: r' => (0x10000 + (c - 0xd800) * 1024 + (d - 0xdc00)) :: code_points r'
      | [] => []
      end
    else c :: code_points r
  end.

Lemma string_pair_ind (P : jsstr → Prop) :
  P [] → (∀ c, P [c]) → (∀ c d r, P r → P (d :: r) → P (c :: d :: r)) → ∀ s, P s.
Proof.
  intros H0 H1 H2 s. cut (P s ∧ ∀ c, P (c :: s)); [tauto | ]. induction s as [ | d s [IH IHc]]; [auto | ].
  split; [apply IHc | ]. intros c. apply H2; [done | apply IHc].
Qed.

Lemma utf8_encode_points s :
  code_units s → has_lone_surrogate s = false →
  utf8_encode s = code_points s ≫= utf8_point ∧ Forall (λ p, 0 <= p < 0x110000) (code_points s).
Proof.
  induction s as [ | c | c d r IH1 IH2] using string_pair_ind; intros Hu Hl; [by split | | ].
  - cbn [utf8_encode code_points has_lone_surrogate mbind list_bind] in *. apply Forall_cons in Hu as [Hc _]. destruct (is_high_surrogate c) eqn:Eh; [done | ].
    destruct (is_low_surrogate c) eqn:El; [done | ]. split; [done | ]. repeat constructor; lia.
  - apply Forall_cons in Hu as [Hc Hu]. cbn [has_lone_surrogate utf8_encode code_points] in *.
    destruct (is_high_surrogate c) eqn:Eh.
    + destruct (is_low_surrogate d) eqn:El; [ | done]. apply Forall_cons in Hu as [Hd Hu].
      destruct (IH1 Hu Hl) as [-> Hf]. split; [done | ]. constructor; [ | done].
      unfold is_high_surrogate, is_low_surrogate, in_range in *. bool_to_prop. lia.
    + destruct (is_low_surrogate c) eqn:El; [done | ]. destruct (IH2 Hu Hl) as [E Hf].
      split; [ | constructor; [lia | exact Hf]].
      change (c :: (if is_high_surrogate d then _ else _)) with (c :: code_points (d :: r)). cbn [mbind list_bind].
      f_equal. exact E.
Qed.

Lemma points_concat_inj ps qs :
  Forall (λ p, 0 <= p < 0x110000) ps → Forall (λ p, 0 <= p < 0x110000) qs →
  ps ≫= utf8_point = qs ≫= utf8_point → ps = qs.
Proof.
  intros Hps. revert qs. induction Hps as [ | p ps Hp _ IH]; intros qs [ | q qs' Hq Hqs] E; cbn in E; [done | | | ].
  - destruct (utf8_point_head q Hq) as (b & r & Eq & _). by rewrite Eq in E.
  - destruct (utf8_point_head p Hp) as (b & r & Ep & _). by rewrite Ep in E.
  - apply utf8_point_prefix in E as [-> E]; [ | done..]. f_equal. by apply IH.
Qed.

Lemma code_points_inj s t :
  code_units s → code_units t → has_lone_surrogate s = false → has_lone_surrogate t = false →
  code_points s = code_points t → s = t.
Proof.
  revert t. induction s as [ | c | c d r IH1 IH2] using string_pair_ind; intros t Hs Ht Ls Lt E.
  - destruct t as [ | c' [ | d' t]]; cbn in *; [done | | ]; destruct (is_high_surrogate c'); done.
  - apply Forall_cons in Hs as [Hc _]. cbn in Ls, E. destruct (is_high_surrogate c) eqn:Eh; [done | ].
    destruct t as [ | c' t]; [done | ]. apply Forall_cons in Ht as [Hc' Ht]. cbn in Lt, E.
    destruct (is_high_surrogate c') eqn:Eh'.
    + destruct t as [ | d' t]; [done | ]. destruct (is_low_surrogate d') eqn:El'; [ | done]. injection E as E _.
      unfold is_high_surrogate, is_low_surrogate, in_range in *. bool_to_prop. lia.
    + injection E as -> E. f_equal. destruct t as [ | c2 [ | d2 t]]; cbn in *; [done | | ].
      * destruct (is_low_surrogate c'); [done | ]. by destruct (is_high_surrogate c2).
      * destruct (is_low_surrogate c'); [done | ]. by destruct (is_high_surrogate c2).
  - apply Forall_cons in Hs as [Hc Hs]. cbn [has_lone_surrogate code_points] in Ls, E.
    destruct t as [ | c' t]; [by destruct (is_high_surrogate c) | ]. apply Forall_cons in Ht as [Hc' Ht].
    cbn [has_lone_surrogate code_points] in Lt, E.
    destruct (is_high_surrogate c) eqn:Eh.
    + destruct (is_low_surrogate d) eqn:El; [ | done]. destruct (is_high_surrogate c') eqn:Eh'.
      * destruct t as [ | d' t]; [done | ]. destruct (is_low_surrogate d') eqn:El'; [ | done].
        apply Forall_cons in Hs as [Hd Hs]. apply Forall_cons in Ht as [Hd' Ht]. injection E as Ep E.
        unfold is_high_surrogate, is_low_surrogate, in_range in Eh, El, Eh', El'. bool_to_prop.
        assert (c = c' ∧ d = d') as [-> ->] by lia. do 2 f_equal. by apply IH1.
      * injection E as E _. unfold is_high_surrogate, is_low_surrogate, in_range in Eh, El. bool_to_prop. lia.
    + destruct (is_low_surrogate c) eqn:El; [done | ].
      change (c :: (if is_high_surrogate d then _ else _)) with (c :: code_points (d :: r)) in E.
      destruct (is_high_surrogate c') eqn:Eh'.
      * destruct t as [ | d' t]; [done | ]. destruct (is_low_surrogate d') eqn:El'; [ | done]. injection E as E _.
        unfold is_high_surrogate, is_low_surrogate, in_range in Eh', El'. bool_to_prop. lia.
      * destruct (is_low_surrogate c'); [done | ]. injection E as -> E. f_equal. by apply IH2.
Qed.

(** Distinct well-formed strings have distinct UTF-8 bytes. *)
Lemma utf8_encode_inj s t :
  code_units s → code_units t → has_lone_surrogate s = false → has_lone_surrogate t = false →
  utf8_encode s = utf8_encode t → s = t.
Proof.
  intros Hs Ht Ls Lt E. destruct (utf8_encode_points s Hs Ls) as [Es Fs], (utf8_encode_points t Ht Lt) as [Et Ft].
  rewrite Es, Et in E. apply code_points_inj; [done.. | ]. by apply points_concat_inj.
Qed.

(** ** Big-endian integers *)

Lemma byte_at_S z i : byte_at z (S i) = byte_at (z / 256) i.
Proof.
  unfold byte_at. f_equal. change 256 with (2 ^ 8). rewrite <- Z.shiftr_div_pow2, Z.shiftr_shiftr by lia. f_equal. lia.
Qed.

Lemma be_bytes_S k z : be_bytes (S k) z = be_bytes k (z / 256) ++ [z mod 256].
Proof.
  unfold be_bytes. change (seq 0 (S k)) with (0%nat :: seq 1 k). cbn [rev]. rewrite fmap_app. f_equal.
  rewrite <- seq_shift, <- map_rev. change (map S (rev (seq 0 k))) with (S <$> rev (seq 0 k)).
  rewrite <- list_fmap_compose. apply list_fmap_ext. intros i x _. apply byte_at_S.
Qed.

Lemma be_value_be_bytes k z : be_value (be_bytes k z) = z mod 256 ^ Z.of_nat k.
Proof.
  revert z. induction k as [ | k IH]; intros z; [by rewrite Z.mod_1_r | ].
  rewrite be_bytes_S, be_value_snoc, IH. rewrite Nat2Z.inj_succ, Z.pow_succ_r by lia.
  rewrite (Z.rem_mul_r z 256) by lia. lia.
Qed.

(** Integers in range are determined by their bytes. *)
Lemma be_bytes_inj k z z' :
  0 <= z < 256 ^ Z.of_nat k → 0 <= z' < 256 ^ Z.of_nat k → be_bytes k z = be_bytes k z' → z = z'.
Proof.
  intros Hz Hz' E. apply (f_equal be_value) in E. rewrite !be_value_be_bytes in E. by rewrite !Z.mod_small in E.
Qed.
