(* ===== verification/ObjectReference.v ===== *)
(** * Scope-qualified references and their URIs (packages/protocol/src/common/object-reference.ts)

    The closed grammar of logical scopes, the references they qualify and the canonical [openkit:] URI of a
    reference: formatting, parsing, and the percent encoding of ECMAScript they use.  The references of a light
    app ([meaningReferenceSchema], packages/app-api-schemas/src/light-apps.ts) are admitted with the same
    parser. *)

From S2P Require Import Prelude Calendar JsValue CanonicalJson Sha1 EntityId Utf8.

Local Open Scope list_scope.
Local Open Scope Z_scope.

(** ** Scopes *)

Inductive Family := FPage | FRaw | FSkill | FArtifact | FMaterial | FInput | FRetrievalTrace.
#[export] Instance Family_eq_dec : EqDecision Family.
Proof. solve_decision. Defined.

(** [raw] and [material] tell the two families of a form apart. *)
Inductive ReferenceScope :=
| UserKnowledge (raw : bool) (userId knowledgeBaseId : jsstr)
| WorkspaceKnowledge (raw : bool) (workspaceId knowledgeBaseId : jsstr)
| ServerKnowledge (raw : bool) (knowledgeBaseId : jsstr)
| ServerSkill
| WorkspaceSkill (workspaceId : jsstr)
| WorkspaceObject (material : bool) (workspaceId : jsstr)
| TurnInput (workspaceId threadId turnId : jsstr)
| ThreadTrace (workspaceId threadId : jsstr)
| TurnTrace (workspaceId threadId turnId : jsstr).

Definition scope_family (s : ReferenceScope) : Family :=
  match s with
  | UserKnowledge raw _ _ | WorkspaceKnowledge raw _ _ | ServerKnowledge raw _ => if raw then FRaw else FPage
  | ServerSkill | WorkspaceSkill _ => FSkill
  | WorkspaceObject material _ => if material then FMaterial else FArtifact
  | TurnInput _ _ _ => FInput
  | ThreadTrace _ _ | TurnTrace _ _ _ => FRetrievalTrace
  end.

Definition isUserId (v : jsstr) : bool := isEntityId "usr" (JStr v).
Definition isWorkspaceId (v : jsstr) : bool := isEntityId "ws" (JStr v).
Definition isKnowledgeBaseId (v : jsstr) : bool := isEntityId "kb" (JStr v).
Definition isThreadId (v : jsstr) : bool := isEntityId "th" (JStr v).
Definition isTurnId (v : jsstr) : bool := isEntityId "tu" (JStr v).

Definition eqs (a : jsstr) (b : string) : bool := bool_decide (a = js b).

(** A segment that is empty or a dot segment. *)
Definition bad_segment (s : jsstr) : bool := bool_decide (s = []) || eqs s "." || eqs s "..".

(** The chain of conditions on the segments; a family that matches none of its forms matches none of the later
    ones either. *)
Definition parse_scope_parts (parts : list jsstr) : option ReferenceScope :=
  if existsb bad_segment parts then None
  else
    match parts with
    | family :: kind :: rest =>
      if eqs family "page" || eqs family "raw" then
        match rest with
        | [a] => if eqs kind "server" && isKnowledgeBaseId a then Some (ServerKnowledge (eqs family "raw") a) else None
        | [a; b] =>
          if eqs kind "user" && isUserId a && isKnowledgeBaseId b then Some (UserKnowledge (eqs family "raw") a b)
          else if eqs kind "workspace" && isWorkspaceId a && isKnowledgeBaseId b
          then Some (WorkspaceKnowledge (eqs family "raw") a b)
          else None
        | _ => None
        end
      else if eqs family "skill" then
        match rest with
        | [] => if eqs kind "server" then Some ServerSkill else None
        | [a] => if eqs kind "workspace" && isWorkspaceId a then Some (WorkspaceSkill a) else None
        | _ => None
        end
      else if eqs family "artifact" || eqs family "material" then
        match rest with
        | [a] => if eqs kind "workspace" && isWorkspaceId a then Some (WorkspaceObject (eqs family "material") a) else None
        | _ => None
        end
      else if eqs family "input" then
        match rest with
        | [a; b; c] =>
          if eqs kind "turn" && isWorkspaceId a && isThreadId b && isTurnId c then Some (TurnInput a b c) else None
        | _ => None
        end
      else if eqs family "retrieval-trace" then
        match rest with
        | [a; b] => if eqs kind "thread" && isWorkspaceId a && isThreadId b then Some (ThreadTrace a b) else None
        | [a; b; c] =>
          if eqs kind "turn" && isWorkspaceId a && isThreadId b && isTurnId c then Some (TurnTrace a b c) else None
        | _ => None
        end
      else None
    | _ => None
    end.

Definition parseReferenceScope (value : jsstr) : option ReferenceScope := parse_scope_parts (split_slash value).

(** ** References *)

Record ScopeQualifiedReference := { scopeId : jsstr; objectId : jsstr }.
#[export] Instance ScopeQualifiedReference_eq_dec : EqDecision ScopeQualifiedReference.
Proof. solve_decision. Defined.

(** [[\p{Cc}\\]]: the control characters and the backslash. *)
Definition unsafe_char (c : Z) : bool := (c <? 32) || in_range 127 159 c || (c =? BACKSLASH).

Definition isSafeObjectPath (value : jsstr) : bool :=
  negb (existsb unsafe_char value || has_lone_surrogate value) && negb (existsb bad_segment (split_slash value)).

Definition lower_alnum (c : Z) : bool := is_lower c || is_digit c.

(** [(?:-[a-z0-9]+)*] to the end, [started] inside a group that has a character. *)
Fixpoint kebab_tail (started : bool) (s : jsstr) : bool :=
  match s with
  | [] => started
  | c :: r => if c =? cu "-" then started && kebab_tail false r else lower_alnum c && kebab_tail true r
  end.

(** [/^[a-z][a-z0-9]*(?:-[a-z0-9]+)*(?![\s\S])/] *)
Definition skill_name (s : jsstr) : bool :=
  match s with c :: r => is_lower c && kebab_tail true r | [] => false end.

(** Zero or decimal digits without a leading zero, and the number they denote is a safe integer (digits beyond
    the safe range round to a number beyond it). *)
Definition ordinal_text (s : jsstr) : bool :=
  match s with
  | [] => false
  | c :: r => ((c =? 48) && bool_decide (r = []) || in_range 49 57 c && forallb is_digit r) && isSafeInteger (digits_value s)
  end.

(** The selector of each family. *)
Definition selector_ok (family : Family) (objectId : jsstr) : bool :=
  match family with
  | FSkill => skill_name objectId
  | FArtifact => negb (includes objectId (cu "/")) && isEntityId "ar" (JStr objectId)
  | FMaterial => negb (includes objectId (cu "/")) && isEntityId "mat" (JStr objectId)
  | FRaw => isSafeObjectPath objectId
  | FInput => ordinal_text objectId
  | FPage | FRetrievalTrace => true
  end.

Definition reference_family (r : ScopeQualifiedReference) : option Family := scope_family <$> parseReferenceScope (scopeId r).

Definition ScopeQualifiedReferenceSchema (r : ScopeQualifiedReference) : bool :=
  match reference_family r with
  | Some family => negb (bool_decide (objectId r = [])) && selector_ok family (objectId r)
  | None => false
  end.

(** The references of one family: [SkillReferenceSchema], [PageReferenceSchema], [RawContentReferenceSchema],
    [ArtifactReferenceSchema], [MaterialReferenceSchema] and [TurnInputReferenceSchema] are its instances. *)
Definition family_reference (family : Family) (r : ScopeQualifiedReference) : bool :=
  ScopeQualifiedReferenceSchema r && bool_decide (reference_family r = Some family).

Definition RetrievalTraceReferenceSchema (r : ScopeQualifiedReference) : bool :=
  family_reference FRetrievalTrace r && isEntityId "krt" (JStr (objectId r)).

(** ** Percent encoding *)

Definition upper_hex (d : Z) : Z := if d <? 10 then 48 + d else 55 + d.
Definition percent (b : Z) : jsstr := [cu "%"; upper_hex (b / 16); upper_hex (b mod 16)].

Definition uri_mark (c : Z) : bool := includes (js "-_.!~*'()") c.
Definition uri_unreserved (c : Z) : bool := is_upper c || is_lower c || is_digit c || uri_mark c.

(** [None] is the [URIError] of an unpaired surrogate. *)
Fixpoint encodeURIComponent (s : jsstr) : option jsstr :=
  match s with
  | [] => Some []
  | c :: r =>
    if uri_unreserved c then (cons c) <$> encodeURIComponent r
    else if is_high_surrogate c then
      match r with
      | d :: r' =>
        if is_low_surrogate d
        then (app (utf8_point (0x10000 + (c - 0xd800) * 1024 + (d - 0xdc00)) ≫= percent)) <$> encodeURIComponent r'
        else None
      | [] => None
      end
    else if is_low_surrogate c then None
    else (app (utf8_point c ≫= percent)) <$> encodeURIComponent r
  end.

(** [.replace(/[!'()*]/g, …)] *)
Definition escape_marks (s : jsstr) : jsstr := s ≫= λ c, if includes (js "!'()*") c then percent c else [c].

Definition encode_segment (s : jsstr) : option jsstr := escape_marks <$> encodeURIComponent s.

(** What percent text stands for, before the octets are read as UTF-8. *)
Inductive uri_item := Literal (c : Z) | Octet (b : Z).

Fixpoint unescape (s : jsstr) : option (list uri_item) :=
  match s with
  | [] => Some []
  | c :: r =>
    if c =? cu "%" then
      match r with
      | h :: l :: r' =>
        match hex_value h, hex_value l with
        | Some x, Some y => (cons (Octet (16 * x + y))) <$> unescape r'
        | _, _ => None
        end
      | _ => None
      end
    else (cons (Literal c)) <$> unescape r
  end.

Definition point_units (p : Z) : jsstr :=
  if p <? 0x10000 then [p] else [0xd800 + (p - 0x10000) / 1024; 0xdc00 + (p - 0x10000) mod 1024].

(** A scalar value in its shortest form. *)
Definition scalar_ok (least p : Z) : bool := (least <=? p) && (p <? 0x110000) && negb (in_range 0xd800 0xdfff p).

(** [need] more octets of a scalar value of which [acc] was read and which must be at least [least]. *)
Fixpoint assemble_octets (need : nat) (acc least : Z) (l : list uri_item) : option jsstr :=
  match l with
  | [] => match need with O => Some [] | S _ => None end
  | Literal c :: l => match need with O => (cons c) <$> assemble_octets 0 0 0 l | S _ => None end
  | Octet b :: l =>
    match need with
    | S need =>
      if in_range 0x80 0xbf b then
        let p := acc * 64 + (b - 0x80) in
        match need with
        | O => if scalar_ok least p then (app (point_units p)) <$> assemble_octets 0 0 0 l else None
        | S _ => assemble_octets need p least l
        end
      else None
    | O =>
      if b <? 0x80 then (cons b) <$> assemble_octets 0 0 0 l
      else if in_range 0xc0 0xdf b then assemble_octets 1 (b - 0xc0) 0x80 l
      else if in_range 0xe0 0xef b then assemble_octets 2 (b - 0xe0) 0x800 l
      else if in_range 0xf0 0xf7 b then assemble_octets 3 (b - 0xf0) 0x10000 l
      else None
    end
  end.

Definition decodeURIComponent (s : jsstr) : option jsstr := unescape s ≫= assemble_octets 0 0 0.

(** ** URIs *)

Inductive ReferenceError := ZodError | TypeError (message : string) | URIError.
#[export] Instance ReferenceError_eq_dec : EqDecision ReferenceError.
Proof. solve_decision. Defined.

(** [contentDigestPattern] *)
Definition content_digest (s : jsstr) : bool := matches_classes ((lit <$> js "sha256:") ++ replicate 64 is_hex) s.

Definition formatReferenceUri (r : ScopeQualifiedReference) (contentDigest : option jsstr) : result ReferenceError jsstr :=
  require ScopeQualifiedReferenceSchema r else ZodError;
  require negb (bool_decide (reference_family r = Some FRetrievalTrace)) || RetrievalTraceReferenceSchema r else ZodError;
  require isSafeObjectPath (objectId r) else TypeError "Invalid reference object path.";
  require match contentDigest with Some d => content_digest d | None => true end
    else TypeError "Invalid reference content digest.";
  require negb (bool_decide (reference_family r = Some FSkill) && bool_decide (contentDigest = None))
    else TypeError "A Skill reference requires its exact version digest.";
  match mapM encode_segment (split_slash (objectId r)) with
  | None => Err URIError
  | Some path =>
    Ok (js "openkit:" ++ scopeId r ++ js "/" ++ join_slash path
        ++ match contentDigest with Some d => js "@" ++ d | None => [] end)
  end.

Definition has_separator (s : jsstr) : bool := includes s (cu "/") || includes s BACKSLASH.

(** Decodes a segment once and refuses an encoded separator. *)
Definition decode_segment (s : jsstr) : option jsstr :=
  decoded ← decodeURIComponent s;
  if has_separator decoded then None else Some decoded.

(** [[2, 3, 4, 5].find(...)] *)
Definition scope_length (parts : list jsstr) : option nat :=
  head (filterb (λ n, match parseReferenceScope (join_slash (take n parts)) with Some _ => true | None => false end)
          [2; 3; 4; 5]%nat).

Definition parse_path (uri path : jsstr) (contentDigest : option jsstr)
    : option (ScopeQualifiedReference * option jsstr) :=
  let parts := split_slash path in
  n ← scope_length parts;
  segments ← mapM decode_segment (drop n parts);
  let reference := {| scopeId := join_slash (take n parts); objectId := join_slash segments |} in
  if bool_decide (formatReferenceUri reference contentDigest = Ok uri) then Some (reference, contentDigest) else None.

Definition parseReferenceUri (uri : jsstr) : option (ScopeQualifiedReference * option jsstr) :=
  if negb (starts_with (js "openkit:") uri) then None
  else
    let '(path, pin) := span (λ c, negb (c =? cu "@")) (drop 8 uri) in
    match pin with
    | [] => parse_path uri path None
    | _ :: contentDigest => if content_digest contentDigest then parse_path uri path (Some contentDigest) else None
    end.

Definition ReferenceUriSchema (uri : jsstr) : bool := match parseReferenceUri uri with Some _ => true | None => false end.

(** [meaningReferenceSchema]: an exact pinned Knowledge or Skill target. *)
Definition meaningReferenceSchema (uri : jsstr) : bool :=
  match parseReferenceUri uri with
  | Some (reference, Some digest) =>
    negb (bool_decide (digest = [])) &&
    match reference_family reference with
    | Some FPage | Some FRaw | Some FSkill => true
    | _ => false
    end
  | _ => false
  end.

(** ** Splitting and joining *)

Definition slash_free (s : jsstr) : Prop := cu "/" ∉ s.

Lemma split_slash_nonempty s : split_slash s ≠ [].
Proof. destruct s as [|c r]; [done|]. cbn. destruct (c =? _); [done|]. by destruct (split_slash r). Qed.

Lemma join_split s : join_slash (split_slash s) = s.
Proof.
  induction s as [|c r IH]; [done|]. cbn -[cu]. pose proof (split_slash_nonempty r).
  destruct (c =? cu "/") eqn:E; bool_to_prop; destruct (split_slash r) as [|seg segs]; try done.
  - cbn -[cu] in *. by rewrite IH, E.
  - destruct segs; cbn -[cu] in *; by rewrite <-IH.
Qed.

Lemma split_slash_free s : Forall slash_free (split_slash s).
Proof.
  unfold slash_free. induction s as [|c r IH]; [by repeat constructor; apply not_elem_of_nil|]. cbn -[cu].
  destruct (c =? cu "/") eqn:E; bool_to_prop; [constructor; [apply not_elem_of_nil|done]|].
  destruct (split_slash r) as [|seg segs]; [by repeat constructor; intros ?%list_elem_of_singleton|].
  apply Forall_cons in IH as [? ?]. constructor; [|done]. by intros [?|?]%elem_of_cons.
Qed.

Lemma split_app_slash a b : slash_free a → split_slash (a ++ js "/" ++ b) = a :: split_slash b.
Proof.
  intros Ha. induction a as [|c a IH]; [done|]. apply not_elem_of_cons in Ha as [Hc Ha].
  change ((c :: a) ++ js "/" ++ b) with (c :: (a ++ js "/" ++ b)). cbn [split_slash].
  rewrite (proj2 (Z.eqb_neq _ _)) by done. by rewrite IH.
Qed.

Lemma split_slash_id s : slash_free s → split_slash s = [s].
Proof.
  induction s as [|c s IH]; [done|]. intros [Hc Hs]%not_elem_of_cons. cbn -[cu].
  rewrite (proj2 (Z.eqb_neq _ _)) by done. by rewrite IH.
Qed.

Lemma split_join l : l ≠ [] → Forall slash_free l → split_slash (join_slash l) = l.
Proof.
  intros Hne Hl. induction Hl as [|s l Hs Hl IH]; [done|]. destruct l as [|t l]; [by apply split_slash_id|].
  change (join_slash (s :: t :: l)) with (s ++ js "/" ++ join_slash (t :: l)).
  rewrite split_app_slash by done. by rewrite IH.
Qed.

Lemma join_app l k : l ≠ [] → k ≠ [] → join_slash (l ++ k) = join_slash l ++ js "/" ++ join_slash k.
Proof.
  intros Hl Hk. induction l as [|s l IH]; [done|]. destruct l as [|t l]; [by destruct k|].
  change (join_slash ((s :: t :: l) ++ k)) with (s ++ js "/" ++ join_slash ((t :: l) ++ k)).
  change (join_slash (s :: t :: l)) with (s ++ js "/" ++ join_slash (t :: l)).
  rewrite IH by done. by rewrite <-!app_assoc.
Qed.

Lemma elem_of_join c l : c ∈ join_slash l → c = cu "/" ∨ ∃ s, s ∈ l ∧ c ∈ s.
Proof.
  induction l as [|s l IH]; [by intros ?%not_elem_of_nil|]. destruct l as [|t l]; [intros ?; right; exists s; split; [by left|done]|].
  change (join_slash (s :: t :: l)) with (s ++ js "/" ++ join_slash (t :: l)).
  intros [Hs|[Hc|Hc]%elem_of_app]%elem_of_app.
  - right. exists s. split; [by left|done].
  - left. by apply list_elem_of_singleton in Hc.
  - destruct (IH Hc) as [?|(u & ? & ?)]; [by left|]. right. exists u. split; [by right|done].
Qed.

(** ** Identifiers and scopes *)

(** The characters of identifiers and of the words of the grammar. *)
Definition plain (c : Z) : bool := is_lower c || is_digit c || (c =? cu "-") || (c =? cu "_").

Lemma plain_not c : plain c = true → c ≠ cu "/" ∧ c ≠ cu "@" ∧ c ≠ cu ".".
Proof.
  unfold plain, is_lower, is_digit, in_range. intros H. repeat split; intros ->; vm_compute in H; discriminate.
Qed.

Lemma matches_plain ps s :
  Forall (λ p : Z → bool, ∀ c, p c = true → plain c = true) ps → matches_classes ps s = true → Forall (λ c, plain c = true) s.
Proof.
  intros Hp. revert s. induction Hp as [|p ps Hp _ IH]; intros [|c s]; cbn; try done.
  intros [? ?]%andb_true_iff. constructor; auto.
Qed.

Lemma lit_plain c : plain c = true → ∀ d, lit c d = true → plain d = true.
Proof. intros H d. unfold lit. intros ->%Z.eqb_eq. done. Qed.

Lemma hex_plain c : is_hex c = true → plain c = true.
Proof.
  unfold is_hex, plain, is_lower, is_digit, in_range. rewrite !orb_true_iff, !andb_true_iff, !Z.leb_le. lia.
Qed.

Lemma id_plain kind v :
  forallb plain (js kind) = true → isEntityId kind (JStr v) = true → Forall (λ c, plain c = true) v ∧ v ≠ [].
Proof.
  intros Hk H. unfold isEntityId in H. apply andb_true_iff in H as [Hh H].
  unfold entityIdPattern in H. rewrite Hh in H. cbn [negb] in H. split.
  - refine (matches_plain _ v _ H). apply Forall_app. split.
    { apply Forall_fmap, Forall_app. rewrite forallb_forall in Hk. split.
      - apply Forall_forall. intros c Hc. exact (lit_plain c (Hk c (proj1 (list_elem_of_In _ _) Hc))).
      - repeat constructor. exact (lit_plain (cu "_") eq_refl). }
    assert (Hhex : ∀ n, Forall (λ p : Z → bool, ∀ c, p c = true → plain c = true) (replicate n is_hex)).
    { intros n. apply Forall_replicate. apply hex_plain. }
    assert (Hd : ∀ c, lit (cu "-") c = true → plain c = true) by exact (lit_plain (cu "-") eq_refl).
    assert (Hin : ∀ t c, forallb plain (js t) = true → includes (js t) c = true → plain c = true).
    { intros t c Ht Hc%bool_decide_eq_true. rewrite forallb_forall in Ht. by apply Ht, list_elem_of_In. }
    unfold uuid_classes. repeat (apply Forall_app; split); try apply Hhex; repeat constructor; try apply Hd.
    + destruct (derived_namespace kind); [|exact (lit_plain (cu "7") eq_refl)]. intros c. by apply (Hin "57").
    + intros c. by apply (Hin "89ab").
  - intros ->. by destruct (js kind).
Qed.

(** The segments of a scope, and when its identifiers are of their kinds. *)
Definition scope_parts (s : ReferenceScope) : list jsstr :=
  match s with
  | UserKnowledge raw u kb => [js (if raw then "raw" else "page"); js "user"; u; kb]
  | WorkspaceKnowledge raw ws kb => [js (if raw then "raw" else "page"); js "workspace"; ws; kb]
  | ServerKnowledge raw kb => [js (if raw then "raw" else "page"); js "server"; kb]
  | ServerSkill => [js "skill"; js "server"]
  | WorkspaceSkill ws => [js "skill"; js "workspace"; ws]
  | WorkspaceObject material ws => [js (if material then "material" else "artifact"); js "workspace"; ws]
  | TurnInput ws th tu => [js "input"; js "turn"; ws; th; tu]
  | ThreadTrace ws th => [js "retrieval-trace"; js "thread"; ws; th]
  | TurnTrace ws th tu => [js "retrieval-trace"; js "turn"; ws; th; tu]
  end.

Definition scope_ids_ok (s : ReferenceScope) : bool :=
  match s with
  | UserKnowledge _ u kb => isUserId u && isKnowledgeBaseId kb
  | WorkspaceKnowledge _ ws kb => isWorkspaceId ws && isKnowledgeBaseId kb
  | ServerKnowledge _ kb => isKnowledgeBaseId kb
  | ServerSkill => true
  | WorkspaceSkill ws | WorkspaceObject _ ws => isWorkspaceId ws
  | ThreadTrace ws th => isWorkspaceId ws && isThreadId th
  | TurnInput ws th tu | TurnTrace ws th tu => isWorkspaceId ws && isThreadId th && isTurnId tu
  end.

Definition plain_segment (s : jsstr) : Prop := Forall (λ c, plain c = true) s ∧ s ≠ [].

Lemma word_plain w : forallb plain (js w) = true → negb (bool_decide (js w = [])) = true → plain_segment (js w).
Proof.
  intros H Hn. split; [|by apply negb_true_iff, bool_decide_eq_false in Hn].
  apply Forall_forall. intros c Hc. rewrite forallb_forall in H. by apply H, list_elem_of_In.
Qed.

Lemma scope_parts_plain s : scope_ids_ok s = true → Forall plain_segment (scope_parts s).
Proof.
  intros H. destruct s as [[]| []| []| | |[]| | |]; cbn [scope_ids_ok scope_parts] in *;
    unfold isUserId, isWorkspaceId, isKnowledgeBaseId, isThreadId, isTurnId in H; rewrite ?andb_true_iff in H;
    repeat match goal with |- Forall _ (_ :: _) => constructor | |- Forall _ [] => constructor end;
    first [apply word_plain; vm_compute; reflexivity|eapply id_plain; [|intuition eassumption]; reflexivity].
Qed.

Lemma bad_segment_plain s : plain_segment s → bad_segment s = false.
Proof.
  intros [Hp Hn]. unfold bad_segment, eqs. rewrite (bool_decide_false (s = [])) by done.
  rewrite !bool_decide_false; [done|intros ->..]; apply Forall_inv in Hp; by vm_compute in Hp.
Qed.

Local Ltac compute_words := repeat
  match goal with |- context [eqs (js ?a) ?b] => let v := eval vm_compute in (eqs (js a) b) in change (eqs (js a) b) with v end.

Lemma parse_scope_print s : scope_ids_ok s = true → parse_scope_parts (scope_parts s) = Some s.
Proof.
  intros H. unfold parse_scope_parts.
  replace (existsb bad_segment (scope_parts s)) with false.
  2:{ symmetry. pose proof (scope_parts_plain s H) as Hp. induction Hp as [|x l Hx _ IH]; [done|].
      cbn. by rewrite bad_segment_plain, IH. }
  destruct s as [[]| []| []| | |[]| | |]; cbn [scope_parts scope_ids_ok] in *; compute_words; cbn [andb orb];
    rewrite ?andb_assoc; rewrite ?H; done.
Qed.

Lemma eqs_true a b : eqs a b = true → a = js b.
Proof. apply bool_decide_eq_true. Qed.

(** Splits the conditions of the chain that led to a result. *)
Local Ltac chain H :=
  repeat match type of H with
  | (if ?b then _ else _) = Some _ => let E := fresh "E" in destruct b eqn:E
  | match ?x with [] => _ | _ => _ end = Some _ => destruct x
  end; try discriminate H; injection H as <-.

Lemma parse_scope_inv parts s : parse_scope_parts parts = Some s → parts = scope_parts s ∧ scope_ids_ok s = true.
Proof.
  unfold parse_scope_parts. intros H. destruct (existsb bad_segment parts); [done|]. chain H;
    cbn [scope_parts scope_ids_ok]; rewrite ?andb_true_iff in *;
    repeat match goal with E : _ ∧ _ |- _ => destruct E end;
    repeat match goal with
    | E : eqs ?x _ = true |- _ => apply eqs_true in E; subst x
    | E : eqs (js _) _ = false |- _ => clear E
    | E : eqs ?x _ || eqs ?x _ = true |- _ =>
      apply orb_true_iff in E as [E|E]; apply eqs_true in E; subst x
    end; compute_words; (split; [reflexivity|]); rewrite ?andb_true_iff; auto.
Qed.

(** No scope is a proper prefix of another. *)
Lemma scope_prefix_free s t n : scope_parts t = take n (scope_parts s) → scope_parts t = scope_parts s.
Proof.
  intros H. assert (Hw : take 2 (scope_parts t) = take 2 (scope_parts s)).
  { rewrite H, take_take. destruct (decide (2 <= n)%nat); [by rewrite Nat.min_l|].
    assert (length (scope_parts t) < 2)%nat by (rewrite H, length_take; lia). destruct t; cbn in *; lia. }
  assert (Hl : length (scope_parts t) = length (scope_parts s)).
  { destruct s as [[]| []| []| | |[]| | |], t as [[]| []| []| | |[]| | |]; first [reflexivity|discriminate Hw]. }
  rewrite H in Hl |- *. rewrite length_take in Hl. apply take_ge. lia.
Qed.

Lemma scope_length_bounds s : (2 <= length (scope_parts s) <= 5)%nat.
Proof. destruct s; cbn; lia. Qed.

Lemma plain_slash_free s : plain_segment s → slash_free s.
Proof. intros [Hp _] Hin. rewrite Forall_forall in Hp. by destruct (plain_not _ (Hp _ Hin)). Qed.

(** The search finds the scope at the front of its path. *)
Lemma scope_length_print s rest :
  scope_ids_ok s = true → scope_length (scope_parts s ++ rest) = Some (length (scope_parts s)).
Proof.
  intros H. pose proof (scope_length_bounds s) as Hb. pose proof (scope_parts_plain s H) as Hp.
  set (ok := λ n, match parseReferenceScope (join_slash (take n (scope_parts s ++ rest))) with Some _ => true | None => false end).
  assert (Hlt : ∀ n, (2 <= n < length (scope_parts s))%nat → ok n = false).
  { intros n Hn. unfold ok, parseReferenceScope. rewrite take_app_le by lia. rewrite split_join.
    - destruct (parse_scope_parts _) as [t|] eqn:E; [|done]. apply parse_scope_inv in E as [E _]. symmetry in E.
      apply scope_prefix_free in E as E'. rewrite E' in E. apply (f_equal length) in E. rewrite length_take in E. lia.
    - intros E. apply (f_equal length) in E. rewrite length_take in E. cbn in E. lia.
    - apply Forall_take. eapply Forall_impl; [exact Hp|apply plain_slash_free]. }
  assert (Heq : ok (length (scope_parts s)) = true).
  { unfold ok, parseReferenceScope. rewrite take_app_length, split_join; [by rewrite parse_scope_print|by destruct s|].
    eapply Forall_impl; [exact Hp|apply plain_slash_free]. }
  unfold scope_length. fold ok. destruct (length (scope_parts s)) as [|[|[|[|[|[|n]]]]]]; try lia; cbn [filterb];
    rewrite ?Heq, ?(Hlt 2%nat), ?(Hlt 3%nat), ?(Hlt 4%nat) by lia; rewrite ?Heq; done.
Qed.

(** ** Percent encoding is decoded *)

Section Percent.

(** [lia] with quotients and remainders. *)
Local Ltac Zify.zify_post_hook ::= Z.to_euclidean_division_equations.

Definition is_byte (b : Z) : Prop := 0 <= b < 256.
Definition scalar (p : Z) : Prop := 0 <= p < 0x110000 ∧ ¬ 0xd800 <= p <= 0xdfff.

(** What an encoded segment consists of. *)
Definition uri_char (c : Z) : Prop := c ≠ cu "/" ∧ c ≠ cu "@".

Lemma hex_value_upper d : 0 <= d < 16 → hex_value (upper_hex d) = Some d.
Proof.
  intros Hd. unfold hex_value, upper_hex, is_digit, in_range.
  destruct (d <? 10) eqn:E; bool_to_prop.
  - rewrite (proj2 (Z.leb_le _ _)), (proj2 (Z.leb_le _ _)) by lia. cbn. f_equal. lia.
  - rewrite (proj2 (Z.leb_gt (55 + d) 57)), (proj2 (Z.leb_gt 97 (55 + d))), andb_false_r by lia. cbn.
    rewrite (proj2 (Z.leb_le _ _)), (proj2 (Z.leb_le _ _)) by lia. cbn. f_equal. lia.
Qed.

Lemma unescape_percent b r : is_byte b → unescape (percent b ++ r) = cons (Octet b) <$> unescape r.
Proof.
  intros Hb. unfold is_byte in Hb. unfold percent. cbn -[upper_hex hex_value Z.div Z.modulo].
  rewrite !hex_value_upper by lia. do 3 f_equal. lia.
Qed.

Lemma unescape_percents bs r : Forall is_byte bs → unescape ((bs ≫= percent) ++ r) = app (Octet <$> bs) <$> unescape r.
Proof.
  intros Hb. induction Hb as [|b bs Hb _ IH]; cbn [mbind list_bind app]; [by destruct (unescape r)|].
  rewrite <-app_assoc, unescape_percent by done. rewrite IH. by destruct (unescape r).
Qed.

Lemma scalar_decides least p : scalar p → least <= p → scalar_ok least p = true.
Proof.
  intros [Hp Hs] Hl. unfold scalar_ok, in_range. rewrite !andb_true_iff, negb_true_iff, andb_false_iff, Z.leb_le, Z.ltb_lt, !Z.leb_gt. lia.
Qed.

Local Ltac in_bounds := unfold in_range;
  repeat first [rewrite (proj2 (Z.leb_le _ _)) by lia|rewrite (proj2 (Z.leb_gt _ _)) by lia|rewrite (proj2 (Z.ltb_ge _ _)) by lia
               |rewrite (proj2 (Z.ltb_lt _ _)) by lia]; cbn [andb].

Lemma assemble_point p l :
  scalar p → assemble_octets 0 0 0 ((Octet <$> utf8_point p) ++ l) = app (point_units p) <$> assemble_octets 0 0 0 l.
Proof.
  intros Hp. pose proof Hp as [Hr Hs]. unfold utf8_point.
  destruct (p <? 0x80) eqn:E1; bool_to_prop.
  { cbn -[Z.ltb]. unfold point_units. by in_bounds. }
  destruct (p <? 0x800) eqn:E2; bool_to_prop.
  { cbn -[Z.ltb Z.div Z.modulo in_range scalar_ok point_units Z.sub Z.mul Z.add]. in_bounds.
    replace ((192 + p / 64 - 192) * 64 + (128 + p mod 64 - 128)) with p by lia. by rewrite scalar_decides. }
  destruct (p <? 0x10000) eqn:E3; bool_to_prop.
  { cbn -[Z.ltb Z.div Z.modulo in_range scalar_ok point_units Z.sub Z.mul Z.add]. in_bounds.
    replace (((224 + p / 4096 - 224) * 64 + (128 + p / 64 mod 64 - 128)) * 64 + (128 + p mod 64 - 128)) with p by lia.
    by rewrite scalar_decides. }
  cbn -[Z.ltb Z.div Z.modulo in_range scalar_ok point_units Z.sub Z.mul Z.add]. in_bounds.
  replace ((((240 + p / 262144 - 240) * 64 + (128 + p / 4096 mod 64 - 128)) * 64 + (128 + p / 64 mod 64 - 128)) * 64
           + (128 + p mod 64 - 128)) with p by lia. by rewrite scalar_decides.
Qed.

Lemma utf8_bytes p : 0 <= p < 0x110000 → Forall is_byte (utf8_point p).
Proof.
  intros Hp. unfold utf8_point, is_byte.
  destruct (p <? 0x80) eqn:E1; [|destruct (p <? 0x800) eqn:E2; [|destruct (p <? 0x10000) eqn:E3]]; bool_to_prop;
    repeat constructor; lia.
Qed.

Lemma decode_point p r :
  scalar p → decodeURIComponent ((utf8_point p ≫= percent) ++ r) = app (point_units p) <$> decodeURIComponent r.
Proof.
  intros Hp. unfold decodeURIComponent. rewrite unescape_percents by (apply utf8_bytes, Hp).
  destruct (unescape r) as [l|]; [|done]. cbn [fmap option_fmap option_map mbind option_bind]. by apply assemble_point.
Qed.

Lemma decode_literal c r : c ≠ cu "%" → decodeURIComponent (c :: r) = cons c <$> decodeURIComponent r.
Proof.
  intros Hc. unfold decodeURIComponent. cbn [unescape]. rewrite (proj2 (Z.eqb_neq _ _)) by done. by destruct (unescape r).
Qed.
End Percent.

Definition marks : jsstr := js "!'()*".

Lemma escape_marks_app a b : escape_marks (a ++ b) = escape_marks a ++ escape_marks b.
Proof. unfold escape_marks. by rewrite bind_app. Qed.

Lemma upper_hex_char d : 0 <= d < 16 → includes marks (upper_hex d) = false ∧ uri_char (upper_hex d).
Proof.
  intros Hd. unfold upper_hex, uri_char, includes. change (cu "/") with 47. change (cu "@") with 64.
  change marks with [33; 39; 40; 41; 42]. rewrite bool_decide_eq_false, !not_elem_of_cons, elem_of_nil.
  destruct (d <? 10) eqn:E; bool_to_prop; repeat split; lia.
Qed.

Lemma percent_chars b : is_byte b → Forall (λ c, includes marks c = false ∧ uri_char c) (percent b).
Proof.
  intros Hb. unfold percent, is_byte in *. constructor; [by vm_compute|].
  constructor; [|constructor; [|constructor]]; apply upper_hex_char; Z.to_euclidean_division_equations; lia.
Qed.

Lemma percents_chars bs : Forall is_byte bs → Forall (λ c, includes marks c = false ∧ uri_char c) (bs ≫= percent).
Proof. intros Hb. apply Forall_bind. eapply Forall_impl; [exact Hb|apply percent_chars]. Qed.

Lemma escape_marks_id e : Forall (λ c, includes marks c = false ∧ uri_char c) e → escape_marks e = e.
Proof.
  intros He. induction He as [|c e [Hc _] _ IH]; [done|]. unfold escape_marks in *. cbn [mbind list_bind].
  unfold marks in Hc. rewrite Hc, IH. done.
Qed.

Lemma unreserved_ascii c : uri_unreserved c = true → 0 <= c < 128 ∧ uri_char c ∧ c ≠ cu "%".
Proof.
  unfold uri_unreserved, uri_mark, is_upper, is_lower, is_digit, in_range, uri_char, includes.
  change (js "-_.!~*'()") with [45; 95; 46; 33; 126; 42; 39; 40; 41].
  change (cu "/") with 47. change (cu "@") with 64. change (cu "%") with 37.
  rewrite !orb_true_iff, !andb_true_iff, !Z.leb_le, bool_decide_eq_true, !elem_of_cons, elem_of_nil. lia.
Qed.

(** [f] encodes [t]: it has no separator of the grammar and is decoded in front of any text. *)
Definition encodes (f t : jsstr) : Prop :=
  Forall uri_char f ∧ ∀ r, decodeURIComponent (f ++ r) = app t <$> decodeURIComponent r.

(** An unreserved character survives, as itself or as an escape. *)
Lemma encodes_unreserved c : uri_unreserved c = true → encodes (escape_marks [c]) [c].
Proof.
  intros (Hb & Hu & Hp)%unreserved_ascii. unfold escape_marks. cbn [mbind list_bind]. rewrite app_nil_r.
  destruct (includes (js "!'()*") c).
  - split.
    + eapply Forall_impl; [apply percent_chars; unfold is_byte; lia|]. by intros ? [_ ?].
    + intros r. pose proof (decode_point c r) as H. unfold utf8_point, point_units in H.
      rewrite (proj2 (Z.ltb_lt c 0x80)), (proj2 (Z.ltb_lt c 0x10000)) in H by lia. cbn [mbind list_bind] in H.
      rewrite app_nil_r in H. apply H. split; lia.
  - split; [apply Forall_singleton, Hu|]. intros r. by apply decode_literal.
Qed.

Lemma encodes_point q : scalar q → encodes (escape_marks (utf8_point q ≫= percent)) (point_units q).
Proof.
  intros Hq. assert (He : Forall (λ c, includes marks c = false ∧ uri_char c) (utf8_point q ≫= percent))
    by apply percents_chars, utf8_bytes, Hq.
  rewrite escape_marks_id by done. split; [|intros r; by apply decode_point].
  eapply Forall_impl; [exact He|by intros ? [_ ?]].
Qed.

Definition encoded_as (o : option jsstr) (s : jsstr) : Prop :=
  ∃ e, escape_marks <$> o = Some e ∧ Forall uri_char e ∧ decodeURIComponent e = Some s.

Lemma encoded_step f t o s : encodes (escape_marks f) t → encoded_as o s → encoded_as (app f <$> o) (t ++ s).
Proof.
  intros [Hf Hd] (e & He & Hc & Hr). destruct o as [x|]; [|done]. injection He as <-.
  exists (escape_marks (f ++ x)). split; [done|]. rewrite escape_marks_app. split; [by apply Forall_app|].
  by rewrite Hd, Hr.
Qed.

(** One character that is not half of a pair. *)
Lemma encoded_unit c o s :
  0 <= c < 65536 → is_high_surrogate c = false → is_low_surrogate c = false → encoded_as o s →
  encoded_as (if uri_unreserved c then cons c <$> o else app (utf8_point c ≫= percent) <$> o) (c :: s).
Proof.
  intros Hc Eh El Ho. destruct (uri_unreserved c) eqn:Eu.
  - apply (encoded_step [c] [c]); [by apply encodes_unreserved|done].
  - assert (Hq : scalar c) by (unfold scalar, is_high_surrogate, is_low_surrogate, in_range in *; bool_to_prop; lia).
    pose proof (encodes_point c Hq) as He. unfold point_units in He. rewrite (proj2 (Z.ltb_lt _ _)) in He by lia.
    by apply (encoded_step _ [c]).
Qed.

Lemma encoded_pair c d o s :
  is_high_surrogate c = true → is_low_surrogate d = true → encoded_as o s →
  encoded_as (app (utf8_point (0x10000 + (c - 0xd800) * 1024 + (d - 0xdc00)) ≫= percent) <$> o) (c :: d :: s).
Proof.
  intros Eh El Ho. unfold is_high_surrogate, is_low_surrogate, in_range in Eh, El. bool_to_prop.
  set (q := 0x10000 + (c - 0xd800) * 1024 + (d - 0xdc00)).
  assert (Hq : scalar q) by (unfold scalar, q; lia). pose proof (encodes_point q Hq) as He.
  replace (point_units q) with [c; d] in He; [by apply (encoded_step _ [c; d])|].
  unfold point_units. rewrite (proj2 (Z.ltb_ge _ _)) by (unfold q; lia). unfold q.
  f_equal; [|f_equal]; Z.to_euclidean_division_equations; lia.
Qed.

Lemma high_reserved c : is_high_surrogate c = true → uri_unreserved c = false.
Proof.
  intros H. destruct (uri_unreserved c) eqn:E; [|done]. apply unreserved_ascii in E as [Hb _].
  unfold is_high_surrogate, in_range in H. bool_to_prop. lia.
Qed.

(** Encoding a segment of well-formed text succeeds, decoding gives the segment back, and no separator of the
    grammar appears in the result. *)
Lemma encode_segment_spec s : code_units s → has_lone_surrogate s = false → encoded_as (encodeURIComponent s) s.
Proof.
  induction s as [|c|c d r IH1 IH2] using string_pair_ind; intros Hu Hl; [by exists []| |];
    apply Forall_cons in Hu as [Hc Hu].
  - cbn [has_lone_surrogate encodeURIComponent] in *. destruct (is_high_surrogate c) eqn:Eh; [done|].
    destruct (is_low_surrogate c) eqn:El; [done|]. apply (encoded_unit c (Some []) []); [done..|by exists []].
  - remember (d :: r) as dr eqn:Edr. cbn [has_lone_surrogate encodeURIComponent] in *.
    destruct (is_high_surrogate c) eqn:Eh.
    + rewrite (high_reserved c Eh). rewrite Edr in *. destruct (is_low_surrogate d) eqn:Ed; [|done].
      apply Forall_cons in Hu as [Hd Hu]. apply encoded_pair; auto.
    + destruct (is_low_surrogate c) eqn:El; [done|]. apply encoded_unit; auto.
Qed.

(** ** URIs *)

Lemma starts_with_app a b : starts_with a (a ++ b) = true.
Proof. induction a as [|c a IH]; [by destruct b|]. cbn. by rewrite Z.eqb_refl. Qed.

Lemma span_until a b c :
  c ∉ a → (b = [] ∨ ∃ r, b = c :: r) → span (λ x, negb (x =? c)) (a ++ b) = (a, b).
Proof.
  intros Ha Hb. induction a as [|x a IH].
  - destruct Hb as [->|[r ->]]; [done|]. cbn. by rewrite Z.eqb_refl.
  - apply not_elem_of_cons in Ha as [Hx Ha]. cbn. rewrite (proj2 (Z.eqb_neq _ _)) by done. cbn. by rewrite IH.
Qed.

Lemma split_Forall (P : Z → Prop) s : Forall P s → Forall (Forall P) (split_slash s).
Proof.
  induction 1 as [|c s Hc Hs IH]; [by repeat constructor|]. cbn [split_slash].
  destruct (c =? cu "/"); [by constructor|]. destruct (split_slash s) as [|seg segs]; [by repeat constructor|].
  apply Forall_cons in IH as [? ?]. by repeat constructor.
Qed.

Lemma not_slash c : in_range 0xd800 0xdfff c = true → (c =? cu "/") = false.
Proof. unfold in_range. intros H. bool_to_prop. change (cu "/") with 47. apply Z.eqb_neq. lia. Qed.

(** Splitting at slashes does not break a surrogate pair. *)
Lemma split_surrogates s : has_lone_surrogate s = false → Forall (λ seg, has_lone_surrogate seg = false) (split_slash s).
Proof.
  induction s as [|c|c d r IH1 IH2] using string_pair_ind; intros Hl; [by repeat constructor| |].
  - cbn [split_slash]. destruct (c =? cu "/"); repeat constructor. done.
  - remember (d :: r) as dr eqn:Edr. cbn [has_lone_surrogate split_slash] in *.
    destruct (is_high_surrogate c) eqn:Eh.
    + rewrite Edr in *. destruct (is_low_surrogate d) eqn:Ed; [|done]. cbn [split_slash].
      rewrite !not_slash by (unfold is_high_surrogate, is_low_surrogate, in_range in *; bool_to_prop; apply andb_true_iff; rewrite !Z.leb_le; lia).
      pose proof (IH1 Hl) as H. pose proof (split_slash_nonempty r). destruct (split_slash r) as [|seg segs]; [done|].
      apply Forall_cons in H as [Hs Hss]. constructor; [|done]. cbn [has_lone_surrogate]. by rewrite Eh, Ed.
    + destruct (is_low_surrogate c) eqn:El; [done|]. specialize (IH2 Hl).
      destruct (c =? cu "/"); [by constructor|]. pose proof (split_slash_nonempty dr).
      destruct (split_slash dr) as [|seg segs]; [done|]. apply Forall_cons in IH2 as [Hs Hss].
      constructor; [|done]. cbn [has_lone_surrogate]. by rewrite Eh, El.
Qed.

Lemma safe_path_segments s :
  code_units s → isSafeObjectPath s = true →
  ∃ path, mapM encode_segment (split_slash s) = Some path ∧
    Forall (Forall uri_char) path ∧ mapM decode_segment path = Some (split_slash s).
Proof.
  intros Hu H. unfold isSafeObjectPath in H. apply andb_true_iff in H as [H _].
  apply negb_true_iff, orb_false_iff in H as [Hc Hl].
  pose proof (split_Forall _ _ Hu) as H1. pose proof (split_surrogates _ Hl) as H2. pose proof (split_slash_free s) as H3.
  assert (H4 : Forall (Forall (λ c, unsafe_char c = false)) (split_slash s)).
  { apply split_Forall, Forall_forall. intros c Hin. apply not_true_iff_false. intros Hx.
    assert (existsb unsafe_char s = true); [|congruence]. apply existsb_exists. exists c. split; [by apply list_elem_of_In|done]. }
  cut (∃ path, Forall2 (λ x y, encode_segment x = Some y) (split_slash s) path ∧ Forall (Forall uri_char) path ∧
               Forall2 (λ x y, decode_segment x = Some y) path (split_slash s)).
  { intros (path & He & ? & Hd). exists path. split; [by apply mapM_Some_2|]. split; [done|by apply mapM_Some_2]. }
  clear Hu Hc Hl. induction (split_slash s) as [|seg segs IH]; [by exists []|].
  apply Forall_cons in H1 as [U1 H1], H2 as [U2 H2], H3 as [U3 H3], H4 as [U4 H4].
  destruct (IH H1 H2 H3 H4) as (path & Hp & Hcs & Hd). destruct (encode_segment_spec seg U1 U2) as (e & He & Hec & Hed).
  exists (e :: path). split; [by constructor|]. split; [by constructor|]. constructor; [|done].
  unfold decode_segment. rewrite Hed. cbn [mbind option_bind].
  replace (has_separator seg) with false; [done|]. symmetry. unfold has_separator, includes.
  rewrite bool_decide_false by exact U3. rewrite bool_decide_false; [done|]. intros Hin.
  rewrite Forall_forall in U4. specialize (U4 _ Hin). by vm_compute in U4.
Qed.

Lemma reference_scope r family :
  reference_family r = Some family →
  ∃ sc, scope_family sc = family ∧ scope_ids_ok sc = true ∧ scopeId r = join_slash (scope_parts sc).
Proof.
  unfold reference_family, parseReferenceScope. destruct (parse_scope_parts _) as [sc|] eqn:E; [|done].
  intros [= <-]. apply parse_scope_inv in E as [E Hok]. exists sc. split; [done|]. split; [done|].
  by rewrite <-E, join_split.
Qed.

Lemma uri_path_no_pin sc path :
  scope_ids_ok sc = true → Forall (Forall uri_char) path → cu "@" ∉ join_slash (scope_parts sc ++ path).
Proof.
  intros Hok Hp [?|(seg & [Hs|Hs]%elem_of_app & Hc)]%elem_of_join; [done| |].
  - pose proof (scope_parts_plain sc Hok) as Hpl. rewrite Forall_forall in Hpl. destruct (Hpl _ Hs) as [Hx _].
    rewrite Forall_forall in Hx. by destruct (plain_not _ (Hx _ Hc)) as (_ & ? & _).
  - rewrite Forall_forall in Hp. specialize (Hp _ Hs). rewrite Forall_forall in Hp. by destruct (Hp _ Hc).
Qed.

(** The path of a formatted URI parses to its reference. *)
Lemma parse_path_format r d uri sc path :
  formatReferenceUri r d = Ok uri → scope_ids_ok sc = true → scopeId r = join_slash (scope_parts sc) →
  Forall (Forall uri_char) path → mapM decode_segment path = Some (split_slash (objectId r)) → path ≠ [] →
  parse_path uri (join_slash (scope_parts sc ++ path)) d = Some (r, d).
Proof.
  intros Hf Hok Hs Hp Hd Hne. unfold parse_path. rewrite split_join.
  - rewrite scope_length_print by done. cbn [mbind option_bind]. rewrite drop_app_length, Hd. cbn [mbind option_bind].
    rewrite take_app_length, <-Hs, join_split. destruct r as [a b]. cbn [scopeId objectId]. by rewrite bool_decide_true.
  - destruct sc; done.
  - apply Forall_app. split.
    + eapply Forall_impl; [by apply scope_parts_plain|apply plain_slash_free].
    + eapply Forall_impl; [exact Hp|]. intros seg Hseg Hin. rewrite Forall_forall in Hseg. by destruct (Hseg _ Hin).
Qed.

Definition pin (d : option jsstr) : jsstr := match d with Some d => js "@" ++ d | None => [] end.

(** The pin is cut off at the first at sign. *)
Lemma parse_uri_pin text d :
  cu "@" ∉ text → match d with Some d => content_digest d | None => true end = true →
  parseReferenceUri (js "openkit:" ++ text ++ pin d) = parse_path (js "openkit:" ++ text ++ pin d) text d.
Proof.
  intros Ht Hd. unfold parseReferenceUri. rewrite starts_with_app. cbn [negb].
  replace (drop 8 (js "openkit:" ++ text ++ pin d)) with (text ++ pin d) by done.
  rewrite span_until; [|done|destruct d; [right; by eexists|by left]]. destruct d as [d|]; [|done].
  cbn [pin]. change (js "@" ++ d) with (cu "@" :: d). cbv iota. by rewrite Hd.
Qed.

Lemma parse_path_sound uri path o r d : parse_path uri path o = Some (r, d) → formatReferenceUri r d = Ok uri.
Proof.
  unfold parse_path. destruct (scope_length _) as [n|]; [|done]. cbn [mbind option_bind].
  destruct (mapM decode_segment _) as [segs|]; [|done]. cbn [mbind option_bind].
  destruct (bool_decide _) eqn:E; [|done]. intros [= <- <-]. by apply bool_decide_eq_true in E.
Qed.

(** The URI parser is the inverse of the formatter: on text of UTF-16 code units a URI parses to a reference and
    digest exactly when that reference and digest format to this URI.  So every formatted reference reads back
    unchanged, and every accepted URI is the only one of its reference. *)
Theorem reference_uri_roundtrip uri r d :
  code_units (objectId r) → parseReferenceUri uri = Some (r, d) ↔ formatReferenceUri r d = Ok uri.
Proof.
  intros Hu. split.
  - unfold parseReferenceUri. destruct (negb _); [done|]. destruct (span _ _) as [path [|c pin]]; [apply parse_path_sound|].
    destruct (content_digest pin); [apply parse_path_sound|done].
  - intros Hf. pose proof Hf as Hg. unfold formatReferenceUri in Hg.
    destruct (ScopeQualifiedReferenceSchema r) eqn:Hs; [|done]. destruct (negb _ || _); [|done].
    destruct (isSafeObjectPath (objectId r)) eqn:Hsafe; [|done].
    destruct (match d with Some _ => _ | None => _ end) eqn:Hdig; [|done]. destruct (negb (_ && _)); [|done].
    unfold ScopeQualifiedReferenceSchema in Hs. destruct (reference_family r) as [family|] eqn:Hfam; [|done].
    destruct (reference_scope r family Hfam) as (sc & _ & Hok & Hsc).
    destruct (safe_path_segments _ Hu Hsafe) as (path & Hpath & Hchars & Hdec). rewrite Hpath in Hg.
    match type of Hg with Ok ?x = Ok _ => assert (uri = x) as -> by congruence end. clear Hg.
    assert (Hne : path ≠ []).
    { intros ->. cbn in Hdec. injection Hdec as E. by apply (split_slash_nonempty (objectId r)). }
    assert (E : js "openkit:" ++ scopeId r ++ js "/" ++ join_slash path ++ pin d
                = js "openkit:" ++ join_slash (scope_parts sc ++ path) ++ pin d).
    { rewrite join_app, Hsc by (by destruct sc). by rewrite <-!app_assoc. }
    change (match d with Some d0 => js "@" ++ d0 | None => [] end) with (pin d) in *.
    rewrite E in Hf |- *. rewrite parse_uri_pin by (done || by apply uri_path_no_pin).
    by apply (parse_path_format r d _ sc path).
Qed.

(** A light app names its references by canonical URIs: two accepted texts of one pinned target are the same text. *)
Theorem meaning_reference_is_canonical uri :
  meaningReferenceSchema uri = true →
  ∃ r d family, formatReferenceUri r (Some d) = Ok uri ∧ reference_family r = Some family ∧
    family ∈ [FPage; FRaw; FSkill] ∧ content_digest d = true.
Proof.
  unfold meaningReferenceSchema. destruct (parseReferenceUri uri) as [[r [d|]]|] eqn:E; [|done..].
  intros [_ H]%andb_true_iff. destruct (reference_family r) as [family|] eqn:Ef; [|done].
  assert (Hf : formatReferenceUri r (Some d) = Ok uri).
  { unfold parseReferenceUri in E. destruct (negb _); [done|]. destruct (span _ _) as [path [|c p]]; [|destruct (content_digest p); [|done]];
      by apply parse_path_sound in E. }
  exists r, d, family. split; [done|]. split; [done|]. split.
  - destruct family; try done; repeat constructor.
  - unfold formatReferenceUri in Hf. destruct (ScopeQualifiedReferenceSchema r); [|done]. destruct (negb _ || _); [|done].
    destruct (isSafeObjectPath _); [|done]. by destruct (content_digest d).
Qed.

(** ** A concrete reference: a page of a workspace notebook, with text outside ASCII *)

Module ReferenceDemo.
Definition uuid : jsstr := js "0190a1b2-c3d4-7e5f-8a6b-0123456789ab".
Definition digest : jsstr := js "sha256:" ++ replicate 64 (cu "a").
Definition page : ScopeQualifiedReference :=
  {| scopeId := js "page/workspace/ws_" ++ uuid ++ js "/kb_" ++ uuid;
     objectId := js "notes/" ++ [233; 32; 0xd83d; 0xde00] ++ js "(1)" |}.
Definition page_text : jsstr :=
  js "openkit:page/workspace/ws_" ++ uuid ++ js "/kb_" ++ uuid ++ js "/notes/%C3%A9%20%F0%9F%98%80%281%29@" ++ digest.

Example page_uri : formatReferenceUri page (Some digest) = Ok page_text.
Proof. vm_compute. reflexivity. Qed.

(** A lower-case escape, an escaped letter and an unescaped mark are refused. *)
Example noncanonical_uris :
  parseReferenceUri (js "openkit:page/server/kb_" ++ uuid ++ js "/a%c3%a9") = None ∧
  parseReferenceUri (js "openkit:page/server/kb_" ++ uuid ++ js "/%61") = None ∧
  parseReferenceUri (js "openkit:page/server/kb_" ++ uuid ++ js "/a(1)") = None ∧
  is_Some (parseReferenceUri (js "openkit:page/server/kb_" ++ uuid ++ js "/a%281%29")).
Proof. split_and!; [vm_compute; reflexivity..|]. apply (bool_decide_unpack _). vm_compute. done. Qed.
End ReferenceDemo.

Lemma reference_uri_roundtrip_witness :
  code_units (objectId ReferenceDemo.page) ∧
  parseReferenceUri ReferenceDemo.page_text = Some (ReferenceDemo.page, Some ReferenceDemo.digest).
Proof.
  assert (H : code_units (objectId ReferenceDemo.page)) by (apply (bool_decide_unpack _); by vm_compute).
  split; [exact H|]. apply (reference_uri_roundtrip ReferenceDemo.page_text ReferenceDemo.page (Some ReferenceDemo.digest) H).
  vm_compute. reflexivity.
Defined.
