(* ===== verification/SnapshotChain.v ===== *)
(** * Workspace snapshot chain (nanocore/src/runtime/workspace-snapshot-chain.ts and
    workspace-collect-wire.ts)

    The durable cursor of a work slot (accepted base, captured head, accepted commit) and the table of
    collection receipts.  A JSON column is represented by the value that was serialised into it; every
    read applies the schema checks again.  Tables are values: [cursors] by primary key, [collections] in
    rowid order, [reviews] owned by another component.  A transaction that throws leaves the tables as
    they were.  The SHA-256 digest of [node:crypto] is a parameter. *)

From S2P Require Import Prelude JsValue CanonicalJson Sha1 EntityId.

Local Open Scope string_scope.
Local Open Scope list_scope.
Local Open Scope Z_scope.

(** ** Data *)

Record WorkspaceSnapshotPair := { tree : jsstr; manifest : jsstr }.
#[export] Instance WorkspaceSnapshotPair_eq_dec : EqDecision WorkspaceSnapshotPair.
Proof. solve_decision. Defined.

Record WorkspaceCollectionIdentity := {
  workspaceId : jsstr;
  storageRef : jsstr;
  scopeDigest : jsstr;
  workSlot : jsstr;
  attachmentGeneration : Z;
  sandboxId : jsstr;
  collectionId : jsstr;
  agentSessionId : jsstr;
  threadId : jsstr;
  turnId : jsstr;
  packageSnapshotId : jsstr;
}.
#[export] Instance WorkspaceCollectionIdentity_eq_dec : EqDecision WorkspaceCollectionIdentity.
Proof. solve_decision. Defined.

Inductive Outcome := Candidate | Empty | NoNewHead | OtherOutcome (name : jsstr).
#[export] Instance Outcome_eq_dec : EqDecision Outcome.
Proof. solve_decision. Defined.

(** The members of a collection result that the code reads or writes; [None] is an absent member, and
    [evidence] holds the additive ones that the readers pass through. *)
Record CollectionResult := {
  outcome : Outcome;
  sha256 : option jsstr;
  byteLength : option Z;
  r_head : option WorkspaceSnapshotPair;
  previousHead : option WorkspaceSnapshotPair;
  acceptedBase : option WorkspaceSnapshotPair;
  unstable : option bool;
  credentialCheck : option jsstr;
  collectedAt : option Z;
  acceptedCommit : option (option jsstr);
  pendingEarlierLinks : option (list jsstr);
  evidence : list (jsstr * jsstr);
}.
#[export] Instance CollectionResult_eq_dec : EqDecision CollectionResult.
Proof. solve_decision. Defined.

Record WorkspaceSnapshotCursor := {
  cu_acceptedBase : WorkspaceSnapshotPair;
  cu_head : WorkspaceSnapshotPair;
  cu_acceptedCommit : option jsstr;
}.

Record WorkspaceCollectionReceipt := {
  re_identity : WorkspaceCollectionIdentity;
  re_result : CollectionResult;
  re_candidate : option (list Z);
  re_isLink : bool;
}.

(** ** Tables *)

Record CursorRow := {
  accepted_base_json : option WorkspaceSnapshotPair;
  head_json : option WorkspaceSnapshotPair;
  baseline_identity_json : WorkspaceCollectionIdentity;
  accepted_commit : option jsstr;
  cursor_version : Z;
}.

Record CollectionRow := {
  identity_json : WorkspaceCollectionIdentity;
  result_json : CollectionResult;
  candidate : option (list Z);
  is_link : Z;
  change_set_id : option jsstr;
  collection_version : Z;
}.

Record ReviewRow := { rv_workspace_id : jsstr; rv_change_set_id : jsstr; rv_pending : bool }.

Definition slot_key : Type := jsstr * jsstr * jsstr.

Record WorkspaceDb := {
  cursors : gmap slot_key CursorRow;
  collections : list CollectionRow;
  reviews : list ReviewRow;
}.

Inductive ChainError :=
| CollectionError (cause : string)
| ZodError (message : string)
| PlainError (message : string)
| OperationError (code message : string) (status : Z)
| UnsupportedFormat
| UniqueConstraint
| PreservedRefusal (cause : ChainError).

Definition slot_of (i : WorkspaceCollectionIdentity) : slot_key := (workspaceId i, storageRef i, workSlot i).
Definition collection_key (i : WorkspaceCollectionIdentity) : slot_key * jsstr := (slot_of i, collectionId i).

(** ** Schemas *)

Definition hex_text (n : nat) (s : jsstr) : bool := matches_classes (replicate n is_hex) s.
Definition sha256_text (s : jsstr) : bool := matches_classes ((lit <$> js "sha256:") ++ replicate 64 is_hex) s.
Definition commit_text (s : jsstr) : bool := hex_text 40 s || hex_text 64 s.

Definition pair_ok (p : WorkspaceSnapshotPair) : bool := hex_text 40 (tree p) && hex_text 40 (manifest p).

Definition nonempty (s : jsstr) : bool := match s with [] => false | _ => true end.

Definition identity_ok (i : WorkspaceCollectionIdentity) : bool :=
  isEntityId "ws" (JStr (workspaceId i)) && isEntityId "wst" (JStr (storageRef i)) && sha256_text (scopeDigest i)
  && nonempty (workSlot i) && (0 <? attachmentGeneration i) && nonempty (sandboxId i) && nonempty (collectionId i)
  && isEntityId "as" (JStr (agentSessionId i)) && isEntityId "th" (JStr (threadId i))
  && isEntityId "tu" (JStr (turnId i)) && nonempty (packageSnapshotId i).

(** [StoredWorkspaceSnapshotPairV1Schema.parse] *)
Definition parse_pair (p : option WorkspaceSnapshotPair) : result ChainError WorkspaceSnapshotPair :=
  match p with
  | Some p => if pair_ok p then Ok p else Err (ZodError "pair")
  | None => Err (ZodError "pair")
  end.

(** [WorkspaceCollectionIdentitySchema.parse] *)
Definition parse_identity (i : WorkspaceCollectionIdentity) : result ChainError WorkspaceCollectionIdentity :=
  if identity_ok i then Ok i else Err (ZodError "identity").

Definition optional_pair_ok (p : option WorkspaceSnapshotPair) : bool := match p with Some p => pair_ok p | None => false end.

Definition MAX_CANDIDATE_BYTES : Z := 256 * 1024 * 1024.

Definition StoredCaptureObservationV1Schema (r : CollectionResult) : bool :=
  bool_decide (is_Some (unstable r)) &&
  match outcome r with
  | Candidate =>
    match sha256 r with Some d => sha256_text d | None => false end
    && match byteLength r with Some n => (0 <? n) && (n <=? MAX_CANDIDATE_BYTES) | None => false end
    && optional_pair_ok (r_head r) && optional_pair_ok (previousHead r) && optional_pair_ok (acceptedBase r)
  | Empty => optional_pair_ok (r_head r) && optional_pair_ok (previousHead r) && optional_pair_ok (acceptedBase r)
  | NoNewHead => true
  | OtherOutcome _ => false
  end.

Definition StoredCollectionResultSchema (r : CollectionResult) : bool :=
  StoredCaptureObservationV1Schema r
  && bool_decide (credentialCheck r = Some (js "passed"))
  && bool_decide (is_Some (collectedAt r))
  && match acceptedCommit r with Some (Some c) => commit_text c | Some None => true | None => false end
  && match pendingEarlierLinks r with Some l => forallb nonempty l | None => false end.

Definition sameWorkspaceSnapshot (left right : WorkspaceSnapshotPair) : bool :=
  bool_decide (tree left = tree right) && bool_decide (manifest left = manifest right).

Definition RETAINED_FORMAT_VERSION : Z := 1.
Definition readRetainedV1 {A} (version : Z) (k : result ChainError A) : result ChainError A :=
  if version =? RETAINED_FORMAT_VERSION then k else Err UnsupportedFormat.

(** ** Readers *)

Definition readWorkspaceSnapshotCursor (db : WorkspaceDb) (k : slot_key)
    : result ChainError (option WorkspaceSnapshotCursor) :=
  match cursors db !! k with
  | None => Ok None
  | Some row =>
    readRetainedV1 (cursor_version row)
      match accepted_base_json row, head_json row with
      | Some base, Some head =>
        base ← parse_pair (Some base);
        head ← parse_pair (Some head);
        require match accepted_commit row with Some c => commit_text c | None => true end else ZodError "commit";
        Ok (Some {| cu_acceptedBase := base; cu_head := head; cu_acceptedCommit := accepted_commit row |})
      | None, None => Ok None
      | _, _ => Err (ZodError "Workspace snapshot cursor is partially initialized.")
      end
  end.

Definition has_key (i : WorkspaceCollectionIdentity) (row : CollectionRow) : bool :=
  bool_decide (collection_key (identity_json row) = collection_key i).

Definition collection_row (db : WorkspaceDb) (i : WorkspaceCollectionIdentity) : option CollectionRow :=
  find (has_key i) (collections db).

Definition unstable_observation (r : CollectionResult) : bool :=
  bool_decide (outcome r = NoNewHead) && bool_decide (unstable r = Some true).

Section Digest.
(** [createHash('sha256').update(bytes).digest('hex')] behind the [sha256:] prefix. *)
Context (digest : list Z → jsstr).

Definition candidate_agrees (r : CollectionResult) (bytes : option (list Z)) : bool :=
  match outcome r with
  | Candidate =>
    match bytes with
    | Some b => bool_decide (byteLength r = Some (Z.of_nat (length b))) && bool_decide (sha256 r = Some (digest b))
    | None => false
    end
  | _ => bool_decide (bytes = None)
  end.

(** The committed row, validated against the requested identity. *)
Definition validate_row (i : WorkspaceCollectionIdentity) (row : CollectionRow)
    : result ChainError WorkspaceCollectionReceipt :=
  readRetainedV1 (collection_version row) (
    stored ← parse_identity (identity_json row);
    requested ← parse_identity i;
    require bool_decide (stored = requested)
      else ZodError "Workspace collection identity conflicts with its committed receipt.";
    let r := result_json row in
    require StoredCollectionResultSchema r else ZodError "result";
    require is_link row =? (if bool_decide (outcome r = NoNewHead) && bool_decide (unstable r = Some false) then 0 else 1)
      else ZodError "Workspace collection link evidence is invalid.";
    require negb (unstable_observation r)
            || (optional_pair_ok (r_head r) && optional_pair_ok (previousHead r) && optional_pair_ok (acceptedBase r))
      else ZodError "pair";
    require candidate_agrees r (candidate row)
      else ZodError "Workspace collection committed candidate identity is invalid.";
    Ok {| re_identity := stored; re_result := r; re_candidate := candidate row; re_isLink := is_link row =? 1 |}).

Definition readWorkspaceCollection (db : WorkspaceDb) (i : WorkspaceCollectionIdentity)
    : result ChainError (option WorkspaceCollectionReceipt) :=
  match collection_row db i with
  | None => Ok None
  | Some row => receipt ← validate_row i row; Ok (Some receipt)
  end.

(** ** Initialization *)

Definition authorizeWorkspaceBaselineInitialization (db : WorkspaceDb) (i : WorkspaceCollectionIdentity)
    : result ChainError WorkspaceDb :=
  match cursors db !! slot_of i with
  | Some row => readRetainedV1 (cursor_version row) (Ok db)
  | None =>
    Ok {| cursors := <[slot_of i := {| accepted_base_json := None; head_json := None; baseline_identity_json := i;
                                       accepted_commit := None; cursor_version := RETAINED_FORMAT_VERSION |}]> (cursors db);
          collections := collections db; reviews := reviews db |}
  end.

Definition requireWorkspaceBaselineInitialization (db : WorkspaceDb) (i : WorkspaceCollectionIdentity)
    : result ChainError unit :=
  match cursors db !! slot_of i with
  | None => Err (CollectionError "accepted_base_unknown")
  | Some row =>
    readRetainedV1 (cursor_version row) (
      require identity_ok (baseline_identity_json row) else CollectionError "accepted_base_unknown";
      requested ← parse_identity i;
      require bool_decide (baseline_identity_json row = requested) else CollectionError "accepted_base_unknown";
      Ok tt)
  end.

(** An UPDATE of the cursor row of a slot. *)
Definition update_cursor (k : slot_key) (f : CursorRow → CursorRow) (db : WorkspaceDb) : WorkspaceDb :=
  {| cursors := alter f k (cursors db); collections := collections db; reviews := reviews db |}.

Definition acceptWorkspaceBaseline (db : WorkspaceDb) (i : WorkspaceCollectionIdentity)
    (head : WorkspaceSnapshotPair) (expectedTree commit : option jsstr) : result ChainError WorkspaceDb :=
  pair ← parse_pair (Some head);
  require match expectedTree with
          | None => match commit with Some c => commit_text c | None => false end
          | Some t => hex_text 40 t
          end else CollectionError "baseline_source_unavailable";
  require match expectedTree with Some t => bool_decide (tree pair = t) | None => true end
    else CollectionError "baseline_mismatch";
  _ ← requireWorkspaceBaselineInitialization db i;
  cursor ← readWorkspaceSnapshotCursor db (slot_of i);
  match cursor with
  | Some c =>
    require sameWorkspaceSnapshot (cu_acceptedBase c) pair
      else PlainError "Workspace baseline identity conflicts with the retained cursor.";
    Ok db
  | None =>
    Ok (update_cursor (slot_of i) (λ row,
          {| accepted_base_json := Some pair; head_json := Some pair;
             baseline_identity_json := baseline_identity_json row; accepted_commit := commit;
             cursor_version := cursor_version row |}) db)
  end.

(** ** Capture *)

(** [{ ...result, ...candidateIdentity }] *)
Definition with_candidate_identity (r : CollectionResult) (bytes : option (list Z)) : CollectionResult :=
  match bytes with
  | None => r
  | Some b =>
    {| outcome := outcome r; sha256 := Some (digest b); byteLength := Some (Z.of_nat (length b)); r_head := r_head r;
       previousHead := previousHead r; acceptedBase := acceptedBase r; unstable := unstable r;
       credentialCheck := credentialCheck r; collectedAt := collectedAt r; acceptedCommit := acceptedCommit r;
       pendingEarlierLinks := pendingEarlierLinks r; evidence := evidence r |}
  end.

(** The members that the first durable capture freezes. *)
Definition with_capture_facts (r : CollectionResult) (at_ : option Z) (commit : option (option jsstr))
    (links : option (list jsstr)) : CollectionResult :=
  {| outcome := outcome r; sha256 := sha256 r; byteLength := byteLength r; r_head := r_head r;
     previousHead := previousHead r; acceptedBase := acceptedBase r; unstable := unstable r;
     credentialCheck := Some (js "passed"); collectedAt := at_; acceptedCommit := commit;
     pendingEarlierLinks := links; evidence := evidence r |}.

Definition with_pairs (r : CollectionResult) (previous head base : option WorkspaceSnapshotPair) : CollectionResult :=
  {| outcome := outcome r; sha256 := sha256 r; byteLength := byteLength r; r_head := head;
     previousHead := previous; acceptedBase := base; unstable := unstable r;
     credentialCheck := credentialCheck r; collectedAt := collectedAt r; acceptedCommit := acceptedCommit r;
     pendingEarlierLinks := pendingEarlierLinks r; evidence := evidence r |}.

(** What a replay of [r] would have stored, given the facts of the committed receipt. *)
Definition replayed (r : CollectionResult) (bytes : option (list Z)) (known : CollectionResult) : CollectionResult :=
  let checked := with_capture_facts (with_candidate_identity r bytes) (collectedAt known) (acceptedCommit known)
                   (pendingEarlierLinks known) in
  if unstable_observation r then with_pairs checked (previousHead known) (r_head known) (acceptedBase known)
  else checked.

(** The pending reviews of earlier collections of the slot, in rowid order. *)
Definition pending_links (db : WorkspaceDb) (k : slot_key) : result ChainError (list jsstr) :=
  let rows := filterb (λ c, bool_decide (slot_of (identity_json c) = k)) (collections db) in
  let joined := rows ≫= λ c,
    (λ _, c) <$> filterb (λ r, rv_pending r && bool_decide (rv_workspace_id r = workspaceId (identity_json c))
                               && bool_decide (Some (rv_change_set_id r) = change_set_id c)) (reviews db) in
  mapM (λ c, readRetainedV1 (collection_version c) (Ok (collectionId (identity_json c)))) joined.

(** The guards on a changed capture; the new head. *)
Definition advance (cursor : WorkspaceSnapshotCursor) (r : CollectionResult) (bytes : option (list Z))
    : result ChainError WorkspaceSnapshotPair :=
  previous ← parse_pair (previousHead r);
  accepted ← parse_pair (acceptedBase r);
  head ← parse_pair (r_head r);
  require sameWorkspaceSnapshot previous (cu_head cursor) else CollectionError "previous_head_mismatch";
  require sameWorkspaceSnapshot accepted (cu_acceptedBase cursor) else CollectionError "accepted_base_unknown";
  require negb (sameWorkspaceSnapshot head previous) else PlainError "Changed workspace collection has no new head.";
  require negb (bool_decide (outcome r = Empty)
                && (negb (sameWorkspaceSnapshot head accepted) || negb (bool_decide (bytes = None))))
    else PlainError "Empty workspace candidate disagrees with the accepted base.";
  require negb (bool_decide (outcome r = Candidate)
                && (match bytes with None | Some [] => true | _ => false end || sameWorkspaceSnapshot head accepted))
    else PlainError "Workspace candidate is empty or contradicts its accepted base.";
  Ok head.

Definition is_changed (r : CollectionResult) : bool :=
  bool_decide (outcome r = Candidate) || bool_decide (outcome r = Empty).

(** The result that a first capture stores. *)
Definition stored_result (now : Z) (cursor : WorkspaceSnapshotCursor) (r : CollectionResult) (bytes : option (list Z))
    (links : list jsstr) : CollectionResult :=
  let checked := with_capture_facts (with_candidate_identity r bytes) (Some now)
                   (Some (cu_acceptedCommit cursor)) (Some links) in
  if unstable_observation r
  then with_pairs checked (Some (cu_head cursor)) (Some (cu_head cursor)) (Some (cu_acceptedBase cursor))
  else checked.

Definition capture_receipt (i : WorkspaceCollectionIdentity) (stored : CollectionResult) (bytes : option (list Z))
    (isLink : bool) : WorkspaceCollectionReceipt :=
  {| re_identity := i; re_result := stored; re_candidate := bytes; re_isLink := isLink |}.

Definition capture_row (receipt : WorkspaceCollectionReceipt) : CollectionRow :=
  {| identity_json := re_identity receipt; result_json := re_result receipt; candidate := re_candidate receipt;
     is_link := if re_isLink receipt then 1 else 0; change_set_id := None;
     collection_version := RETAINED_FORMAT_VERSION |}.

Definition with_head (head : WorkspaceSnapshotPair) (row : CursorRow) : CursorRow :=
  {| accepted_base_json := accepted_base_json row; head_json := Some head;
     baseline_identity_json := baseline_identity_json row; accepted_commit := accepted_commit row;
     cursor_version := cursor_version row |}.

Definition insert_collection (row : CollectionRow) (db : WorkspaceDb) : WorkspaceDb :=
  {| cursors := cursors db; collections := collections db ++ [row]; reviews := reviews db |}.

(** The byte identity that the result states is not that of the candidate. *)
Definition contradicts_bytes (r : CollectionResult) (bytes : option (list Z)) : bool :=
  bool_decide (outcome r = Candidate)
  && (bool_decide (byteLength r ≠ None ∧ byteLength r ≠ (Z.of_nat ∘ length) <$> bytes)
      || bool_decide (sha256 r ≠ None ∧ sha256 r ≠ digest <$> bytes)).

(** The body of the capture transaction; [now] is [new Date()]. *)
Definition capture_body (now : Z) (db : WorkspaceDb) (i : WorkspaceCollectionIdentity) (r : CollectionResult)
    (bytes : option (list Z)) : result ChainError (WorkspaceDb * WorkspaceCollectionReceipt) :=
  require negb (contradicts_bytes r bytes)
    else PlainError "Workspace collection candidate identity disagrees with its bytes.";
  known ← readWorkspaceCollection db i;
  match known with
  | Some receipt =>
    require bool_decide (re_result receipt = replayed r bytes (re_result receipt))
            && bool_decide (re_candidate receipt = bytes)
      else PlainError "Workspace collection replay disagrees with its committed bytes.";
    Ok (db, receipt)
  | None =>
    cursor ← readWorkspaceSnapshotCursor db (slot_of i);
    match cursor with
    | None => Err (CollectionError "accepted_base_unknown")
    | Some cursor =>
      let changed := is_changed r in
      let observation := unstable_observation r in
      require changed || bool_decide (outcome r = NoNewHead)
        else PlainError "Failed workspace collection cannot advance its cursor.";
      head ← (if changed then advance cursor r bytes
              else if negb (bool_decide (bytes = None)) || bool_decide (unstable r = None) then
                Err (PlainError "Unchanged workspace collection carries invalid candidate or stability.")
              else Ok (cu_head cursor));
      links ← (if bool_decide (outcome r = Candidate) then pending_links db (slot_of i) else Ok []);
      let receipt := capture_receipt i (stored_result now cursor r bytes links) bytes (changed || observation) in
      let inserted := insert_collection (capture_row receipt) db in
      Ok (if changed then update_cursor (slot_of i) (with_head head) inserted else inserted, receipt)
    end
  end.

(** [preserved] is the identity and the bytes of the retained source, when the capture has one. *)
Definition acceptWorkspaceCapture (now : Z) (db : WorkspaceDb) (i : WorkspaceCollectionIdentity) (r : CollectionResult)
    (bytes : option (list Z)) (preserved : option (WorkspaceCollectionIdentity * list Z))
    : result ChainError (WorkspaceDb * WorkspaceCollectionReceipt) :=
  require match preserved with
          | Some (pi, pb) => bool_decide (pi = i) && bool_decide (Some pb = bytes)
          | None => true
          end else PlainError "Preserved Workspace capture contradicts its publication.";
  match capture_body now db i r bytes with
  | Ok x => Ok x
  | Err e => Err (match preserved with Some _ => PreservedRefusal e | None => e end)
  end.

(** ** Reviews *)

Definition with_change_set (changeSetId : jsstr) (row : CollectionRow) : CollectionRow :=
  {| identity_json := identity_json row; result_json := result_json row; candidate := candidate row;
     is_link := is_link row; change_set_id := Some changeSetId; collection_version := collection_version row |}.

Definition linkWorkspaceSnapshotReview (db : WorkspaceDb) (i : WorkspaceCollectionIdentity) (changeSetId : jsstr)
    : result ChainError WorkspaceDb :=
  receipt ← readWorkspaceCollection db i;
  require match receipt with Some r => bool_decide (re_candidate r ≠ None) | None => false end
    else PlainError "Workspace review has no committed candidate.";
  let linked := collection_row db i ≫= change_set_id in
  require bool_decide (linked = None) || bool_decide (linked = Some changeSetId)
    else PlainError "Workspace collection review identity conflicts.";
  require negb (existsb (λ row, negb (has_key i row) && bool_decide (workspaceId (identity_json row) = workspaceId i)
                                && bool_decide (change_set_id row = Some changeSetId)) (collections db))
    else UniqueConstraint;
  Ok {| cursors := cursors db;
        collections := (λ row, if has_key i row then with_change_set changeSetId row else row) <$> collections db;
        reviews := reviews db |}.

Definition workspaceReviewCollection (db : WorkspaceDb) (ws changeSetId : jsstr)
    : result ChainError (option WorkspaceCollectionReceipt) :=
  match find (λ row, bool_decide (workspaceId (identity_json row) = ws)
                     && bool_decide (change_set_id row = Some changeSetId)) (collections db) with
  | None => Ok None
  | Some row =>
    readRetainedV1 (collection_version row) (
      i ← parse_identity (identity_json row);
      readWorkspaceCollection db i)
  end.

Definition workspaceSnapshotReviewIsStale (db : WorkspaceDb) (ws changeSetId : jsstr) : result ChainError bool :=
  receipt ← workspaceReviewCollection db ws changeSetId;
  match receipt with
  | None => Ok false
  | Some receipt =>
    cursor ← readWorkspaceSnapshotCursor db (slot_of (re_identity receipt));
    match cursor with
    | None => Ok true
    | Some cursor =>
      base ← parse_pair (acceptedBase (re_result receipt));
      Ok (negb (sameWorkspaceSnapshot (cu_acceptedBase cursor) base))
    end
  end.

Definition acceptAppliedWorkspaceSnapshot (db : WorkspaceDb) (ws changeSetId : jsstr) (commit : option jsstr)
    : result ChainError WorkspaceDb :=
  receipt ← workspaceReviewCollection db ws changeSetId;
  match receipt with
  | None => Ok db
  | Some receipt =>
    cursor ← readWorkspaceSnapshotCursor db (slot_of (re_identity receipt));
    head ← parse_pair (r_head (re_result receipt));
    if match cursor with Some c => sameWorkspaceSnapshot (cu_acceptedBase c) head | None => false end then Ok db
    else
      stale ← workspaceSnapshotReviewIsStale db ws changeSetId;
      require negb stale
        else OperationError "workspace_sync_review_failed" "Workspace snapshot accepted base changed during apply." 404;
      Ok (update_cursor (ws, storageRef (re_identity receipt), workSlot (re_identity receipt)) (λ row,
            {| accepted_base_json := Some head; head_json := head_json row;
               baseline_identity_json := baseline_identity_json row; accepted_commit := commit;
               cursor_version := cursor_version row |}) db)
  end.

Definition readWorkspaceBaselineIdentity (db : WorkspaceDb) (k : slot_key)
    : result ChainError (option WorkspaceCollectionIdentity) :=
  match cursors db !! k with
  | None => Ok None
  | Some row => readRetainedV1 (cursor_version row) (i ← parse_identity (baseline_identity_json row); Ok (Some i))
  end.

(** ** Histories *)

Inductive chain_op :=
| Authorize (i : WorkspaceCollectionIdentity)
| Baseline (i : WorkspaceCollectionIdentity) (head : WorkspaceSnapshotPair) (expectedTree commit : option jsstr)
| Capture (now : Z) (i : WorkspaceCollectionIdentity) (r : CollectionResult) (bytes : option (list Z))
    (preserved : option (WorkspaceCollectionIdentity * list Z))
| LinkReview (i : WorkspaceCollectionIdentity) (changeSetId : jsstr)
| Applied (ws changeSetId : jsstr) (commit : option jsstr)
| ReviewsChange (rows : list ReviewRow).

(** A refused operation leaves the tables as they were. *)
Definition settle {E} (db : WorkspaceDb) (r : result E WorkspaceDb) : WorkspaceDb :=
  match r with Ok db' => db' | Err _ => db end.

Definition chain_step (db : WorkspaceDb) (o : chain_op) : WorkspaceDb :=
  match o with
  | Authorize i => settle db (authorizeWorkspaceBaselineInitialization db i)
  | Baseline i head expectedTree commit => settle db (acceptWorkspaceBaseline db i head expectedTree commit)
  | Capture now i r bytes preserved => settle db (fst <$> acceptWorkspaceCapture now db i r bytes preserved)
  | LinkReview i changeSetId => settle db (linkWorkspaceSnapshotReview db i changeSetId)
  | Applied ws changeSetId commit => settle db (acceptAppliedWorkspaceSnapshot db ws changeSetId commit)
  | ReviewsChange rows => {| cursors := cursors db; collections := collections db; reviews := rows |}
  end.

Definition empty_db : WorkspaceDb := {| cursors := ∅; collections := []; reviews := [] |}.
Definition chain_history (os : list chain_op) : WorkspaceDb := foldl chain_step empty_db os.

(** ** The chain of a slot *)

Definition links (db : WorkspaceDb) (k : slot_key) : list CollectionRow :=
  filterb (λ row, bool_decide (slot_of (identity_json row) = k) && (is_link row =? 1)) (collections db).

(** The head reached from [start] when every link continues at the head of the link before it. *)
Definition chain_end (start : WorkspaceSnapshotPair) (rows : list CollectionRow) : option WorkspaceSnapshotPair :=
  foldl (λ acc row, h ← acc; if bool_decide (previousHead (result_json row) = Some h) then r_head (result_json row) else None)
        (Some start) rows.

(** The accepted base is the baseline or the head of a reviewed candidate of the slot. *)
Definition base_origin (db : WorkspaceDb) (k : slot_key) (start base : WorkspaceSnapshotPair) : Prop :=
  base = start ∨
  ∃ row, row ∈ collections db ∧ slot_of (identity_json row) = k ∧ outcome (result_json row) = Candidate ∧
    change_set_id row ≠ None ∧ r_head (result_json row) = Some base.

Record row_ok (row : CollectionRow) : Prop := {
  ro_version : collection_version row = RETAINED_FORMAT_VERSION;
  ro_reviewed : change_set_id row ≠ None → identity_ok (identity_json row) = true ∧ candidate row ≠ None;
}.

Inductive slot_ok (db : WorkspaceDb) (k : slot_key) : option CursorRow → Prop :=
| slot_absent : links db k = [] → slot_ok db k None
| slot_authorized row :
    accepted_base_json row = None → head_json row = None → cursor_version row = RETAINED_FORMAT_VERSION →
    links db k = [] → slot_ok db k (Some row)
| slot_initialized row start base head :
    accepted_base_json row = Some base → head_json row = Some head → cursor_version row = RETAINED_FORMAT_VERSION →
    pair_ok base = true → pair_ok head = true → chain_end start (links db k) = Some head → base_origin db k start base →
    slot_ok db k (Some row).

Record chain_ok (db : WorkspaceDb) : Prop := {
  co_rows : ∀ row, row ∈ collections db → row_ok row;
  co_unique : NoDup ((collection_key ∘ identity_json) <$> collections db);
  co_slots : ∀ k, slot_ok db k (cursors db !! k);
}.

Lemma same_snapshot_eq p q : sameWorkspaceSnapshot p q = true ↔ p = q.
Proof.
  unfold sameWorkspaceSnapshot. rewrite andb_true_iff, !bool_decide_eq_true. destruct p, q; cbn. split; [by intros [-> ->] | by intros [= -> ->]].
Qed.

Lemma parse_pair_Ok p q : parse_pair p = Ok q ↔ p = Some q ∧ pair_ok q = true.
Proof.
  destruct p as [p | ]; cbn; [ | by split; [ | intros [? _]]]. destruct (pair_ok p) eqn:E; split.
  - by intros [= <-].
  - by intros [[= <-] _].
  - done.
  - intros [[= <-] ?]. congruence.
Qed.

Lemma parse_identity_Ok i j : parse_identity i = Ok j ↔ i = j ∧ identity_ok i = true.
Proof. unfold parse_identity. destruct (identity_ok i); split; [by intros [= <-] | by intros [<- _] | done | by intros [_ ?]]. Qed.

Lemma retained_Ok {A} v (k : result ChainError A) x : readRetainedV1 v k = Ok x ↔ v = RETAINED_FORMAT_VERSION ∧ k = Ok x.
Proof. unfold readRetainedV1. destruct (Z.eqb_spec v RETAINED_FORMAT_VERSION); split; [done | by intros [_ ?] | done | by intros [? _]]. Qed.

Lemma cursor_read db k c :
  readWorkspaceSnapshotCursor db k = Ok (Some c) →
  ∃ row, cursors db !! k = Some row ∧ accepted_base_json row = Some (cu_acceptedBase c) ∧
    head_json row = Some (cu_head c) ∧ accepted_commit row = cu_acceptedCommit c ∧
    pair_ok (cu_acceptedBase c) = true ∧ pair_ok (cu_head c) = true ∧
    match cu_acceptedCommit c with Some t => commit_text t | None => true end = true.
Proof.
  unfold readWorkspaceSnapshotCursor. destruct (cursors db !! k) as [row | ]; [ | done].
  intros [_ H]%retained_Ok. exists row. destruct (accepted_base_json row) as [b | ], (head_json row) as [h | ]; try done.
  apply bind_Ok in H as (b' & [[= <-] Hb]%parse_pair_Ok & H). apply bind_Ok in H as (h' & [[= <-] Hh]%parse_pair_Ok & H).
  destruct (match accepted_commit row with Some _ => _ | None => _ end) eqn:Hc; [ | done]. by injection H as <-.
Qed.

Lemma cursor_unread db k :
  chain_ok db → readWorkspaceSnapshotCursor db k = Ok None →
  links db k = [] ∧ ∀ row, cursors db !! k = Some row → accepted_base_json row = None ∧ head_json row = None.
Proof.
  intros Hdb. pose proof (co_slots db Hdb k) as Hk. unfold readWorkspaceSnapshotCursor.
  destruct Hk as [Hl | row Hb Hh Hv Hl | row start base head Hb Hh Hv Pb Ph Hc Ho].
  - done.
  - intros _. split; [done | ]. by intros ? [= <-].
  - intros [_ H]%retained_Ok. rewrite Hb, Hh in H. apply bind_Ok in H as (b' & _ & H).
    apply bind_Ok in H as (h' & _ & H). by destruct (match accepted_commit row with Some _ => _ | None => _ end).
Qed.

Lemma chain_end_snoc start rows row head :
  chain_end start rows = previousHead (result_json row) → previousHead (result_json row) ≠ None →
  r_head (result_json row) = Some head → chain_end start (rows ++ [row]) = Some head.
Proof.
  unfold chain_end. rewrite foldl_app. cbn. intros -> Hn Hh. destruct (previousHead (result_json row)) as [h | ]; [ | done].
  cbn. by rewrite bool_decide_true.
Qed.

Lemma links_same db db' k : collections db' = collections db → links db' k = links db k.
Proof. unfold links. by intros ->. Qed.

Lemma base_origin_mono db db' k start base :
  (∀ row, row ∈ collections db → change_set_id row ≠ None → row ∈ collections db') →
  base_origin db k start base → base_origin db' k start base.
Proof. intros H [? | (row & Hr & ? & ? & Hc & ?)]; [by left | right]. exists row. auto. Qed.

(** Slots other than the updated one keep their state. *)
Lemma slot_ok_same db db' k r :
  links db' k = links db k → (∀ start base, base_origin db k start base → base_origin db' k start base) →
  slot_ok db k r → slot_ok db' k r.
Proof.
  intros Hl Ho []; [constructor 1 | constructor 2 | econstructor 3]; eauto; congruence.
Qed.

Lemma slot_ok_tables db db' k r : collections db' = collections db → slot_ok db k r → slot_ok db' k r.
Proof.
  intros Hc. apply slot_ok_same; [by apply links_same | ]. intros start base. apply base_origin_mono. by rewrite Hc.
Qed.

(** A change of cursor rows only. *)
Lemma chain_ok_cursors db cs rv :
  chain_ok db → (∀ k, slot_ok db k (cs !! k)) →
  chain_ok {| cursors := cs; collections := collections db; reviews := rv |}.
Proof. intros [H1 H2 H3] Hk. split; [done.. | ]. intros k. by eapply slot_ok_tables; [ | apply Hk]. Qed.

Lemma chain_ok_update db k f :
  chain_ok db → (∀ row, cursors db !! k = Some row → slot_ok db k (Some (f row))) → chain_ok (update_cursor k f db).
Proof.
  intros Hdb Hf. apply chain_ok_cursors; [done | ]. intros k'. destruct (decide (k = k')) as [<- | Hne].
  - rewrite lookup_alter_eq. pose proof (co_slots db Hdb k) as Hk. destruct (cursors db !! k) as [row | ]; cbn; [ | done].
    by apply Hf.
  - rewrite lookup_alter_ne by done. apply (co_slots db Hdb).
Qed.

Lemma authorize_ok db i db' : chain_ok db → authorizeWorkspaceBaselineInitialization db i = Ok db' → chain_ok db'.
Proof.
  intros Hdb. unfold authorizeWorkspaceBaselineInitialization. destruct (cursors db !! slot_of i) as [row | ] eqn:Hk.
  - by intros [_ [= <-]]%retained_Ok.
  - intros [= <-]. apply chain_ok_cursors; [done | ]. intros k. destruct (decide (slot_of i = k)) as [<- | Hne].
    + rewrite lookup_insert_eq. constructor 2; try done. pose proof (co_slots db Hdb (slot_of i)) as Hs.
      rewrite Hk in Hs. by inversion Hs.
    + rewrite lookup_insert_ne by done. apply (co_slots db Hdb).
Qed.

Lemma slot_version db k row : chain_ok db → cursors db !! k = Some row → cursor_version row = RETAINED_FORMAT_VERSION.
Proof. intros Hdb Hk. pose proof (co_slots db Hdb k) as Hs. rewrite Hk in Hs. by inversion Hs. Qed.

Lemma baseline_ok db i head et commit db' :
  chain_ok db → acceptWorkspaceBaseline db i head et commit = Ok db' → chain_ok db'.
Proof.
  intros Hdb. unfold acceptWorkspaceBaseline. intros H. apply bind_Ok in H as (pair & [[= <-] Hp]%parse_pair_Ok & H).
  destruct (match et with Some _ => _ | None => _ end); [ | done].
  destruct (match et with Some _ => _ | None => _ end); [ | done].
  apply bind_Ok in H as (u & _ & H). apply bind_Ok in H as (cursor & Hc & H). destruct cursor as [c | ].
  - destruct (sameWorkspaceSnapshot _ _); by simplify_eq.
  - injection H as <-. destruct (cursor_unread _ _ Hdb Hc) as [Hl Hrow]. apply chain_ok_update; [done | ].
    intros row Hk. eapply (slot_initialized _ _ _ head head head); cbn; try done.
    + by eapply slot_version.
    + by rewrite Hl.
    + by left.
Qed.

Lemma validate_row_Ok i row receipt :
  validate_row i row = Ok receipt →
  identity_json row = i ∧ identity_ok i = true ∧ StoredCollectionResultSchema (result_json row) = true ∧
  candidate_agrees (result_json row) (candidate row) = true ∧
  receipt = {| re_identity := i; re_result := result_json row; re_candidate := candidate row; re_isLink := is_link row =? 1 |}.
Proof.
  unfold validate_row. intros [_ H]%retained_Ok. apply bind_Ok in H as (j & [<- Hok]%parse_identity_Ok & H).
  apply bind_Ok in H as (j & [<- Hok']%parse_identity_Ok & H). case_bool_decide as E; [ | done]. subst i.
  destruct (StoredCollectionResultSchema (result_json row)); [ | done].
  destruct (is_link row =? _); [ | done]. destruct (negb _ || _); [ | done].
  destruct (candidate_agrees _ _); [ | done]. injection H as <-. by split_and!.
Qed.

Lemma collection_read db i receipt :
  readWorkspaceCollection db i = Ok (Some receipt) →
  ∃ row, collection_row db i = Some row ∧ row ∈ collections db ∧ validate_row i row = Ok receipt.
Proof.
  unfold readWorkspaceCollection. destruct (collection_row db i) as [row | ] eqn:Hr; [ | done].
  intros (r & Hv & [= <-])%bind_Ok. exists row. split; [done | ]. split; [apply (find_Some _ _ _ Hr) | done].
Qed.

Lemma collection_unread db i : readWorkspaceCollection db i = Ok None → collection_row db i = None.
Proof.
  unfold readWorkspaceCollection. destruct (collection_row db i) as [row | ]; [ | done]. by intros (r & _ & ?)%bind_Ok.
Qed.

Lemma unique_row db row row' :
  chain_ok db → row ∈ collections db → row' ∈ collections db →
  collection_key (identity_json row) = collection_key (identity_json row') → row = row'.
Proof.
  intros Hdb Hr Hr' Hk. apply list_elem_of_lookup in Hr as [n Hn], Hr' as [m Hm].
  assert (n = m) as <-; [ | congruence]. eapply NoDup_lookup; [apply (co_unique db Hdb) | | ].
  - rewrite list_lookup_fmap, Hn. done.
  - rewrite list_lookup_fmap, Hm. cbn. by rewrite Hk.
Qed.

Lemma collection_row_found db row i :
  chain_ok db → row ∈ collections db → collection_key (identity_json row) = collection_key i → collection_row db i = Some row.
Proof.
  intros Hdb Hr Hk. destruct (collection_row db i) as [row' | ] eqn:Hf.
  - apply find_Some in Hf as [Hr' Hkey%bool_decide_eq_true]. f_equal. eapply unique_row; [done.. | congruence].
  - pose proof (proj1 (find_None _ _) Hf row Hr) as Hn. apply bool_decide_eq_false in Hn. congruence.
Qed.

(** The two ways a capture succeeds: the replay of a committed one, and the first commit. *)
Lemma capture_body_Ok now db i r bytes db' receipt :
  capture_body now db i r bytes = Ok (db', receipt) →
  (db' = db ∧ readWorkspaceCollection db i = Ok (Some receipt) ∧
   re_result receipt = replayed r bytes (re_result receipt) ∧ re_candidate receipt = bytes) ∨
  (∃ cursor head lks,
     collection_row db i = None ∧ readWorkspaceSnapshotCursor db (slot_of i) = Ok (Some cursor) ∧
     (if is_changed r then advance cursor r bytes = Ok head
      else outcome r = NoNewHead ∧ bytes = None ∧ unstable r ≠ None) ∧
     (if bool_decide (outcome r = Candidate) then pending_links db (slot_of i) = Ok lks else lks = []) ∧
     receipt = capture_receipt i (stored_result now cursor r bytes lks) bytes (is_changed r || unstable_observation r) ∧
     db' = (if is_changed r then update_cursor (slot_of i) (with_head head) (insert_collection (capture_row receipt) db)
            else insert_collection (capture_row receipt) db)).
Proof.
  unfold capture_body. destruct (negb _); [ | done]. intros H. apply bind_Ok in H as (known & Hk & H).
  destruct known as [known | ].
  - left. destruct (bool_decide (re_result known = _)) eqn:E1; [ | done]. destruct (bool_decide (re_candidate known = _)) eqn:E2; [ | done].
    cbn in H. injection H as <- <-. by bool_to_prop.
  - right. apply collection_unread in Hk. apply bind_Ok in H as ([cursor | ] & Hc & H); [ | done].
    destruct (is_changed r || bool_decide (outcome r = NoNewHead)) eqn:Ho; [ | done].
    apply bind_Ok in H as (head & Hh & H). apply bind_Ok in H as (lks & Hl & H). injection H as <- <-.
    exists cursor, head, lks. split_and!; try done.
    + destruct (is_changed r); [done | ]. cbn in Ho. apply bool_decide_eq_true in Ho.
      destruct (negb _ || _) eqn:E; [done | ]. bool_to_prop. done.
    + destruct (bool_decide (outcome r = Candidate)); [done | by injection Hl].
Qed.

Lemma advance_Ok cursor r bytes head :
  advance cursor r bytes = Ok head →
  previousHead r = Some (cu_head cursor) ∧ acceptedBase r = Some (cu_acceptedBase cursor) ∧ r_head r = Some head ∧
  pair_ok head = true ∧ (outcome r = Empty → head = cu_acceptedBase cursor ∧ bytes = None) ∧
  (outcome r = Candidate → head ≠ cu_acceptedBase cursor ∧ ∃ b l, bytes = Some (b :: l)) ∧ head ≠ cu_head cursor.
Proof.
  unfold advance. intros H. apply bind_Ok in H as (p & [Hp Hp']%parse_pair_Ok & H).
  apply bind_Ok in H as (a & [Ha Ha']%parse_pair_Ok & H). apply bind_Ok in H as (h & [Hh Hh']%parse_pair_Ok & H).
  destruct (sameWorkspaceSnapshot p _) eqn:E1; [ | done]. destruct (sameWorkspaceSnapshot a _) eqn:E2; [ | done].
  apply same_snapshot_eq in E1 as ->. apply same_snapshot_eq in E2 as ->.
  destruct (sameWorkspaceSnapshot h _) eqn:E3; [done | ]. cbn [negb] in H.
  destruct (negb _) eqn:E4 in H; [ | done]. destruct (negb _) eqn:E5 in H; [ | done]. injection H as ->.
  apply negb_true_iff in E4, E5. split_and!; try done.
  - intros Ho. rewrite bool_decide_true in E4 by done. cbn in E4. bool_to_prop. split; [by apply same_snapshot_eq | done].
  - intros Ho. rewrite bool_decide_true in E5 by done. cbn in E5. bool_to_prop. split.
    + intros E. apply same_snapshot_eq in E. congruence.
    + destruct bytes as [[ | b l] | ]; try done. eauto.
  - intros E. apply same_snapshot_eq in E. congruence.
Qed.

Lemma links_insert row db k :
  links (insert_collection row db) k =
  links db k ++ if bool_decide (slot_of (identity_json row) = k) && (is_link row =? 1) then [row] else [].
Proof. unfold links. cbn [insert_collection collections]. rewrite filterb_app. cbn. by destruct (_ && _). Qed.

(** A new receipt extends the chain of its slot by one link, or is not a link. *)
Lemma capture_slot_ok db k row crow head :
  slot_ok db k (Some crow) → head_json crow ≠ None → slot_of (identity_json row) = k → pair_ok head = true →
  (if is_link row =? 1 then previousHead (result_json row) = head_json crow ∧ r_head (result_json row) = Some head
   else head_json crow = Some head) →
  slot_ok (insert_collection row db) k (Some (with_head head crow)).
Proof.
  intros Hs Hn Hk Hp Hrow. inversion Hs as [ | ? ? Hh | ? start base h Hb Hh Hv Pb Ph Hc Ho]; subst; [congruence | ].
  eapply (slot_initialized _ _ _ start base head); try done.
  - rewrite links_insert, bool_decide_true by done. cbn [andb].
    destruct (is_link row =? 1); [ | rewrite app_nil_r; congruence]. destruct Hrow as [Hprev Hhead].
    apply chain_end_snoc; [congruence | congruence | done].
  - eapply base_origin_mono; [ | done]. intros r Hr _. apply elem_of_app. by left.
Qed.

Lemma other_slot_ok db row k k' r :
  slot_of (identity_json row) = k → k ≠ k' → slot_ok db k' r → slot_ok (insert_collection row db) k' r.
Proof.
  intros Hk Hne. apply slot_ok_same.
  - rewrite links_insert, bool_decide_false by congruence. apply app_nil_r.
  - intros start base. apply base_origin_mono. intros r' Hr _. apply elem_of_app. by left.
Qed.

Lemma insert_rows_ok db i receipt :
  chain_ok db → collection_row db i = None → re_identity receipt = i →
  (∀ row, row ∈ collections (insert_collection (capture_row receipt) db) → row_ok row) ∧
  NoDup ((collection_key ∘ identity_json) <$> collections (insert_collection (capture_row receipt) db)).
Proof.
  intros Hdb Hn Hi. cbn [insert_collection collections]. split.
  - intros row [Hr | ->%list_elem_of_singleton]%elem_of_app; [by apply (co_rows db Hdb) | by split].
  - rewrite fmap_app. apply NoDup_app. split; [apply (co_unique db Hdb) | ]. split; [ | apply NoDup_singleton].
    intros key (row & -> & Hr)%list_elem_of_fmap. cbn. rewrite Hi. rewrite list_elem_of_singleton. intros E.
    pose proof (proj1 (find_None _ _) Hn row Hr) as Hf. by apply bool_decide_eq_false in Hf.
Qed.

Lemma with_head_same crow h : head_json crow = Some h → with_head h crow = crow.
Proof. intros E. unfold with_head. rewrite <- E. by destruct crow. Qed.

Lemma capture_body_ok now db i r bytes db' receipt :
  chain_ok db → capture_body now db i r bytes = Ok (db', receipt) → chain_ok db'.
Proof.
  intros Hdb [(-> & _) | (cursor & head & lks & Hn & Hc & Hr & _ & -> & ->)]%capture_body_Ok; [done | ].
  set (receipt := capture_receipt _ _ _ _). destruct (insert_rows_ok db i receipt Hdb Hn eq_refl) as [Hrows Huniq].
  destruct (cursor_read _ _ _ Hc) as (crow & Hk & Hbase & Hhead & _ & Pb & Ph & _).
  pose proof (co_slots db Hdb (slot_of i)) as Hs. rewrite Hk in Hs.
  assert (Hnew : slot_ok (insert_collection (capture_row receipt) db) (slot_of i)
            (Some (with_head (if is_changed r then head else cu_head cursor) crow))).
  { apply capture_slot_ok; [done | congruence | done | | ].
    - destruct (is_changed r); [apply (advance_Ok _ _ _ _ Hr) | done].
    - unfold receipt, capture_row, capture_receipt, stored_result. cbn [is_link re_isLink result_json re_result].
      rewrite Hhead. destruct (is_changed r) eqn:Hch; cbn [orb].
      + assert (unstable_observation r = false) as ->.
        { unfold unstable_observation. unfold is_changed in Hch. destruct (outcome r); cbn in *; done. }
        apply advance_Ok in Hr as (H1 & _ & H3 & _). by destruct bytes.
      + destruct (unstable_observation r); done. }
  assert (Hall : ∀ k, slot_ok (insert_collection (capture_row receipt) db) k
            ((if is_changed r then alter (with_head head) (slot_of i) (cursors db) else cursors db) !! k)).
  { intros k. destruct (decide (slot_of i = k)) as [<- | Hne].
    - destruct (is_changed r); rewrite ?lookup_alter_eq, Hk; cbn; [done | ]. by rewrite with_head_same in Hnew.
    - replace (_ !! k) with (cursors db !! k) by (destruct (is_changed r); [by rewrite lookup_alter_ne | done]).
      by eapply other_slot_ok; [ | | apply (co_slots db Hdb)]. }
  destruct (is_changed r); split; try done. intros k. by eapply slot_ok_tables; [ | apply Hall].
Qed.

Lemma filterb_fmap_same {A} (p : A → bool) (f : A → A) l :
  (∀ x, p (f x) = p x) → filterb p (f <$> l) = f <$> filterb p l.
Proof. intros Hf. induction l as [ | x l IH]; cbn; [done | ]. rewrite Hf, IH. by destruct (p x). Qed.

Lemma find_fmap_same {A} (p : A → bool) (f : A → A) l x :
  (∀ x, p (f x) = p x) → find p l = Some x → find p (f <$> l) = Some (f x).
Proof.
  intros Hf. induction l as [ | y l IH]; cbn; [done | ]. rewrite Hf. destruct (p y); [by intros [= ->] | exact IH].
Qed.

Lemma find_app_l {A} (p : A → bool) l l' x : find p l = Some x → find p (l ++ l') = Some x.
Proof. induction l as [ | y l IH]; cbn; [done | ]. by destruct (p y). Qed.

(** Rows that differ at most in their review. *)
Definition same_evidence (row row' : CollectionRow) : Prop :=
  identity_json row' = identity_json row ∧ result_json row' = result_json row ∧ candidate row' = candidate row ∧
  is_link row' = is_link row ∧ collection_version row' = collection_version row ∧
  (change_set_id row ≠ None → change_set_id row' ≠ None).

Lemma chain_end_evidence f start rows :
  (∀ row, same_evidence row (f row)) → chain_end start (f <$> rows) = chain_end start rows.
Proof.
  intros Hf. unfold chain_end. generalize (Some start) as acc. induction rows as [ | row rows IH]; intros acc; cbn; [done | ].
  destruct (Hf row) as (_ & -> & _). apply IH.
Qed.

Lemma slot_ok_evidence f db db' k r :
  collections db' = f <$> collections db → (∀ row, same_evidence row (f row)) → slot_ok db k r → slot_ok db' k r.
Proof.
  intros Hc Hf.
  assert (Hl : links db' k = f <$> links db k).
  { unfold links. rewrite Hc. apply filterb_fmap_same. intros row. by destruct (Hf row) as (-> & _ & _ & -> & _). }
  assert (Ho : ∀ start base, base_origin db k start base → base_origin db' k start base).
  { intros start base [? | (row & Hr & Hk & Hout & Hcs & Hh)]; [by left | right]. exists (f row).
    destruct (Hf row) as (-> & -> & _ & _ & _ & Hn). split; [ | auto]. rewrite Hc. by apply list_elem_of_fmap_2. }
  intros []; [constructor 1 | constructor 2 | econstructor 3]; eauto; rewrite Hl; try (by rewrite chain_end_evidence);
    match goal with H : links db k = [] |- _ => by rewrite H end.
Qed.

Lemma link_evidence i cs row : same_evidence row (if has_key i row then with_change_set cs row else row).
Proof. unfold same_evidence. by destruct (has_key i row). Qed.

Lemma link_ok db i cs db' : chain_ok db → linkWorkspaceSnapshotReview db i cs = Ok db' → chain_ok db'.
Proof.
  intros Hdb. unfold linkWorkspaceSnapshotReview. intros H. apply bind_Ok in H as ([receipt | ] & Hread & H); [ | done].
  destruct (bool_decide (re_candidate receipt ≠ None)) eqn:Hcand; [ | done]. apply bool_decide_eq_true in Hcand.
  destruct (_ || _); [ | done]. destruct (negb _); [ | done]. injection H as <-.
  destruct (collection_read _ _ _ Hread) as (row0 & _ & Hr0 & Hv).
  destruct (validate_row_Ok _ _ _ Hv) as (Hid & Hok & _ & _ & ->). cbn in Hcand. split; cbn [collections cursors].
  - intros row (row1 & -> & Hr1)%list_elem_of_fmap. pose proof (co_rows db Hdb _ Hr1) as [Hver Hrev].
    destruct (has_key i row1) eqn:Hkey; [ | by split]. apply bool_decide_eq_true in Hkey.
    assert (row1 = row0) as -> by (eapply unique_row; [done.. | congruence]). split; [done | ]. intros _. cbn. by rewrite Hid.
  - replace (_ <$> _) with ((collection_key ∘ identity_json) <$> collections db); [apply (co_unique db Hdb) | ].
    rewrite <- list_fmap_compose. apply list_fmap_ext. intros n row _. cbn. by destruct (has_key i row).
  - intros k. eapply (slot_ok_evidence (λ row, if has_key i row then with_change_set cs row else row) db);
      [done | intros row; apply link_evidence | apply (co_slots db Hdb)].
Qed.

(** The receipt behind a review is the validated content of the reviewed row. *)
Lemma review_collection_Ok db ws cs receipt :
  chain_ok db → workspaceReviewCollection db ws cs = Ok (Some receipt) →
  ∃ row, row ∈ collections db ∧ workspaceId (re_identity receipt) = ws ∧ re_identity receipt = identity_json row ∧
    change_set_id row = Some cs ∧ re_result receipt = result_json row ∧ outcome (result_json row) = Candidate ∧
    StoredCollectionResultSchema (result_json row) = true.
Proof.
  intros Hdb. unfold workspaceReviewCollection. destruct (find _ _) as [row | ] eqn:Hf; [ | done].
  apply find_Some in Hf as [Hr Hrow]. bool_to_prop. intros [_ H']%retained_Ok.
  apply bind_Ok in H' as (i & [<- Hi]%parse_identity_Ok & Hread).
  destruct (collection_read _ _ _ Hread) as (row' & Hfind & Hr' & Hv).
  rewrite (collection_row_found db row) in Hfind by done. injection Hfind as <-.
  destruct (validate_row_Ok _ _ _ Hv) as (_ & _ & Hschema & Hagree & ->). exists row. split_and!; try done.
  destruct (co_rows db Hdb _ Hr) as [_ Hrev]. destruct (Hrev ltac:(congruence)) as [_ Hcand].
  unfold candidate_agrees in Hagree. destruct (outcome (result_json row)); try done; by apply bool_decide_eq_true in Hagree.
Qed.

Lemma applied_ok db ws cs commit db' : chain_ok db → acceptAppliedWorkspaceSnapshot db ws cs commit = Ok db' → chain_ok db'.
Proof.
  intros Hdb. unfold acceptAppliedWorkspaceSnapshot. intros H. apply bind_Ok in H as ([receipt | ] & Hrev & H); [ | by injection H as <-].
  destruct (review_collection_Ok _ _ _ _ Hdb Hrev) as (row & Hr & Hws & Hid & Hcs & Hres & Hout & _).
  apply bind_Ok in H as (cursor & Hc & H). apply bind_Ok in H as (head & [Hh Ph]%parse_pair_Ok & H).
  destruct (match cursor with Some _ => _ | None => _ end); [by injection H as <- | ].
  apply bind_Ok in H as (stale & Hst & H). destruct stale; [done | ]. injection H as <-.
  rewrite <- Hws. apply (chain_ok_update db (slot_of (re_identity receipt))); [done | ]. intros crow Hk.
  pose proof (co_slots db Hdb (slot_of (re_identity receipt))) as Hs. rewrite Hk in Hs.
  inversion Hs as [ | ? Hb0 _ _ Hl | ? start base h Hb Hhd Hv Pb Phd Hch Ho]; subst.
  - exfalso. destruct cursor as [c | ].
    + destruct (cursor_read _ _ _ Hc) as (crow' & Hk' & ? & _). congruence.
    + unfold workspaceSnapshotReviewIsStale in Hst. rewrite Hrev in Hst. cbn in Hst. rewrite Hc in Hst. done.
  - eapply (slot_initialized _ _ _ start head h); try done. right. exists row. rewrite <- Hid, <- Hres. split_and!; try done; congruence.
Qed.

Lemma chain_step_ok db o : chain_ok db → chain_ok (chain_step db o).
Proof.
  intros Hdb. destruct o as [i | i head et commit | now i r bytes preserved | i cs | ws cs commit | rows]; cbn [chain_step].
  - destruct (authorizeWorkspaceBaselineInitialization db i) eqn:E; [by eapply authorize_ok | done].
  - destruct (acceptWorkspaceBaseline db i head et commit) eqn:E; [by eapply baseline_ok | done].
  - unfold acceptWorkspaceCapture. destruct (match preserved with Some _ => _ | None => _ end); [ | done].
    destruct (capture_body now db i r bytes) as [[db' receipt] | ] eqn:E; cbn; [by eapply capture_body_ok | done].
  - destruct (linkWorkspaceSnapshotReview db i cs) eqn:E; [by eapply link_ok | done].
  - destruct (acceptAppliedWorkspaceSnapshot db ws cs commit) eqn:E; [by eapply applied_ok | done].
  - apply chain_ok_cursors; [done | apply (co_slots db Hdb)].
Qed.

Lemma chain_steps_ok os db : chain_ok db → chain_ok (foldl chain_step db os).
Proof. revert db. induction os as [ | o os IH]; intros db Hdb; cbn; [done | ]. by apply IH, chain_step_ok. Qed.

Lemma empty_db_ok : chain_ok empty_db.
Proof.
  split; [by intros row ?%not_elem_of_nil | apply NoDup_nil_2 | ]. intros k. by constructor 1.
Qed.

Lemma chain_history_ok os : chain_ok (chain_history os).
Proof. apply chain_steps_ok, empty_db_ok. Qed.

(** C10. Whatever baselines, captures, review links and applications were attempted, the links of an
    initialized slot form one contiguous chain that ends at the cursor's head: each starts at the head of
    the one before it.  The accepted base is where the chain starts or the head of a committed
    candidate whose review was linked; a slot that was never initialized has no link. *)
Theorem captured_chain_is_contiguous os k :
  match cursors (chain_history os) !! k with
  | Some row =>
    match accepted_base_json row, head_json row with
    | Some base, Some head =>
      ∃ start, chain_end start (links (chain_history os) k) = Some head ∧ base_origin (chain_history os) k start base
    | None, None => links (chain_history os) k = []
    | _, _ => False
    end
  | None => links (chain_history os) k = []
  end.
Proof.
  pose proof (co_slots _ (chain_history_ok os) k) as Hs.
  destruct Hs as [Hl | row Hb Hh _ Hl | row start base head Hb Hh _ _ _ Hc Ho]; rewrite ?Hb, ?Hh; eauto.
Qed.

(** ** Replay *)

Lemma collection_row_step db o i row :
  chain_ok db → collection_row db i = Some row → ∃ row', collection_row (chain_step db o) i = Some row' ∧ same_evidence row row'.
Proof.
  intros Hdb Hrow. assert (Hsame : same_evidence row row) by done.
  assert (Hold : ∀ db', collections db' = collections db → ∃ row', collection_row db' i = Some row' ∧ same_evidence row row').
  { intros db' E. exists row. unfold collection_row. by rewrite E. }
  destruct o as [j | j head et commit | now j r bytes preserved | j cs | ws cs commit | rows]; cbn [chain_step].
  - apply Hold. unfold authorizeWorkspaceBaselineInitialization, readRetainedV1.
    destruct (cursors db !! slot_of j); [by destruct (_ =? _) | done].
  - apply Hold. destruct (acceptWorkspaceBaseline db j head et commit) as [db' | ] eqn:E; [ | done]. cbn.
    unfold acceptWorkspaceBaseline in E. apply bind_Ok in E as (pair & _ & E).
    destruct (match et with Some _ => _ | None => _ end); [ | done]. destruct (match et with Some _ => _ | None => _ end); [ | done].
    apply bind_Ok in E as (? & _ & E). apply bind_Ok in E as ([c | ] & _ & E); [ | by injection E as <-].
    destruct (sameWorkspaceSnapshot _ _); by simplify_eq.
  - unfold acceptWorkspaceCapture. destruct (match preserved with Some _ => _ | None => _ end); [ | by apply Hold].
    destruct (capture_body now db j r bytes) as [[db' receipt] | ] eqn:E; cbn; [ | by apply Hold].
    apply capture_body_Ok in E as [(-> & _) | (cursor & head & lks & _ & _ & _ & _ & _ & ->)]; [by apply Hold | ].
    exists row. split; [ | done]. unfold collection_row in *.
    replace (collections _) with (collections db ++ [capture_row receipt]) by (by destruct (is_changed r)).
    by apply find_app_l.
  - destruct (linkWorkspaceSnapshotReview db j cs) as [db' | ] eqn:E; [ | by apply Hold]. cbn.
    unfold linkWorkspaceSnapshotReview in E. apply bind_Ok in E as (? & _ & E). destruct (match x with Some _ => _ | None => _ end); [ | done].
    destruct (_ || _); [ | done]. destruct (negb _); [ | done]. injection E as <-.
    exists (if has_key j row then with_change_set cs row else row). split; [ | apply link_evidence].
    unfold collection_row in *. cbn [collections].
    apply (find_fmap_same (has_key i) (λ row, if has_key j row then with_change_set cs row else row)); [ | done].
    intros row'. by destruct (has_key j row').
  - apply Hold. destruct (acceptAppliedWorkspaceSnapshot db ws cs commit) as [db' | ] eqn:E; [ | done]. cbn.
    unfold acceptAppliedWorkspaceSnapshot in E. apply bind_Ok in E as ([receipt | ] & _ & E); [ | by injection E as <-].
    apply bind_Ok in E as (? & _ & E). apply bind_Ok in E as (? & _ & E).
    destruct (match x with Some _ => _ | None => _ end); [by injection E as <- | ].
    apply bind_Ok in E as (stale & _ & E). destruct stale; [done | ]. by injection E as <-.
  - by apply Hold.
Qed.

Lemma validate_row_evidence i row row' : same_evidence row row' → validate_row i row' = validate_row i row.
Proof. intros (E1 & E2 & E3 & E4 & E5 & _). unfold validate_row. by rewrite E1, E2, E3, E4, E5. Qed.

Lemma committed_forever db i receipt os :
  chain_ok db → readWorkspaceCollection db i = Ok (Some receipt) →
  readWorkspaceCollection (foldl chain_step db os) i = Ok (Some receipt).
Proof.
  revert db. induction os as [ | o os IH]; intros db Hdb Hread; cbn; [done | ]. apply IH; [by apply chain_step_ok | ].
  destruct (collection_read _ _ _ Hread) as (row & Hrow & _ & Hv).
  destruct (collection_row_step db o i row Hdb Hrow) as (row' & Hrow' & Hsame).
  unfold readWorkspaceCollection. by rewrite Hrow', (validate_row_evidence _ _ _ Hsame), Hv.
Qed.

Lemma replayed_stored now cursor r bytes lks :
  let stored := stored_result now cursor r bytes lks in stored = replayed r bytes stored.
Proof. unfold stored_result, replayed. by destruct (unstable_observation r). Qed.

Lemma capture_replays now db i r bytes receipt :
  readWorkspaceCollection db i = Ok (Some receipt) → re_result receipt = replayed r bytes (re_result receipt) →
  re_candidate receipt = bytes → contradicts_bytes r bytes = false →
  capture_body now db i r bytes = Ok (db, receipt).
Proof.
  intros Hread Hres Hc Hb. unfold capture_body. rewrite Hb, Hread. cbn [negb mbind result_bind].
  by rewrite !bool_decide_true by done.
Qed.

Lemma capture_body_bytes now db i r bytes x : capture_body now db i r bytes = Ok x → contradicts_bytes r bytes = false.
Proof. unfold capture_body. by destruct (contradicts_bytes r bytes). Qed.

(** The links that a candidate records are identifiers of reviewed collections. *)
Lemma pending_links_nonempty db k lks : chain_ok db → pending_links db k = Ok lks → forallb nonempty lks = true.
Proof.
  intros Hdb Hp. apply forallb_elem. intros c Hc. unfold pending_links in Hp. apply mapM_result_Ok in Hp.
  apply list_elem_of_lookup in Hc as [n Hn]. eapply Forall2_lookup_r in Hn as (row & Hrow & Hf); [ | done].
  apply retained_Ok in Hf as [_ [= <-]]. apply list_elem_of_lookup_2, list_elem_of_bind in Hrow as (row' & Hj & Hrow').
  apply list_elem_of_fmap in Hj as (rv & -> & [_ Hrv]%elem_of_filterb). apply elem_of_filterb in Hrow' as [Hin _].
  bool_to_prop. destruct (co_rows db Hdb _ Hin) as [_ Hrev]. destruct (Hrev ltac:(congruence)) as [Hok _].
  unfold identity_ok in Hok. by bool_to_prop.
Qed.

(** Exposes the checks of a stored result, with the text patterns kept folded. *)
Ltac read_stored :=
  unfold StoredCollectionResultSchema, StoredCaptureObservationV1Schema, unstable_observation, candidate_agrees;
  cbn -[sha256_text pair_ok commit_text js nonempty forallb Z.leb Z.ltb Z.of_nat MAX_CANDIDATE_BYTES].

Ltac decide_all :=
  repeat match goal with
  | |- context [bool_decide ?P] => first [rewrite (bool_decide_true P) by (done || eauto) | rewrite (bool_decide_false P) by done]
  end; cbn [andb orb negb].

Section Replay.
(** A SHA-256 digest is 64 lowercase hexadecimal digits. *)
Context (digest_text : ∀ bytes, sha256_text (digest bytes) = true).

(** What a first capture commits passes every check of the reader. *)
Lemma stored_row_reads now db i r bytes cursor head lks :
  chain_ok db → identity_ok i = true → unstable r ≠ None →
  (∀ b, bytes = Some b → Z.of_nat (length b) <= MAX_CANDIDATE_BYTES) →
  readWorkspaceSnapshotCursor db (slot_of i) = Ok (Some cursor) →
  (if is_changed r then advance cursor r bytes = Ok head else outcome r = NoNewHead ∧ bytes = None ∧ unstable r ≠ None) →
  (if bool_decide (outcome r = Candidate) then pending_links db (slot_of i) = Ok lks else lks = []) →
  let receipt := capture_receipt i (stored_result now cursor r bytes lks) bytes (is_changed r || unstable_observation r) in
  validate_row i (capture_row receipt) = Ok receipt.
Proof.
  intros Hdb Hi Hu Hlen Hc Hr Hl.
  destruct (cursor_read _ _ _ Hc) as (crow & _ & _ & _ & _ & Pb & Ph & Pc).
  assert (Hlks : forallb nonempty lks = true).
  { destruct (bool_decide (outcome r = Candidate)); [by eapply pending_links_nonempty | by rewrite Hl]. }
  destruct (unstable r) as [u | ] eqn:Eu; [ | done]. unfold validate_row, readRetainedV1, capture_row, capture_receipt.
  cbn [collection_version re_identity re_result re_candidate re_isLink identity_json result_json candidate is_link].
  rewrite Z.eqb_refl. unfold parse_identity. rewrite Hi. cbn [mbind result_bind]. rewrite bool_decide_true by done.
  assert (Hobs : unstable_observation r = match outcome r with NoNewHead => u | _ => false end).
  { unfold unstable_observation. rewrite Eu. by destruct (outcome r), u. }
  unfold is_changed in *. destruct (outcome r) as [ | | | n] eqn:Eo; cbn in Hr, Hl.
  - apply advance_Ok in Hr as (H1 & H2 & H3 & P3 & _ & H5 & _). destruct (H5 Eo) as (_ & b & l & ->).
    specialize (Hlen _ eq_refl). unfold stored_result. rewrite Hobs. read_stored.
    read_stored.
    rewrite Eo, Eu, H1, H2, H3. read_stored. rewrite digest_text, P3, Pb, Ph, Hlks, Pc.
    change (length (b :: l)) with (S (length l)) in Hlen. rewrite (proj2 (Z.leb_le _ _) Hlen). by decide_all.
  - apply advance_Ok in Hr as (H1 & H2 & H3 & P3 & H4 & _). destruct (H4 Eo) as [-> ->].
    unfold stored_result. rewrite Hobs. read_stored.
    read_stored.
    rewrite Eo, Eu, H1, H2, H3. read_stored. rewrite P3, Ph, Hlks, Pc. by decide_all.
  - destruct Hr as (_ & -> & _). unfold stored_result. rewrite Hobs. destruct u.
    + read_stored.
      rewrite Eo, Eu. read_stored. rewrite Pb, Ph, Hlks, Pc. by decide_all.
    + read_stored.
      rewrite Eo, Eu. read_stored. rewrite Hlks, Pc. by decide_all.
  - by destruct Hr.
Qed.

Lemma fresh_capture_reads db i receipt f (changed : bool) :
  chain_ok (if changed then update_cursor (slot_of i) f (insert_collection (capture_row receipt) db)
            else insert_collection (capture_row receipt) db) →
  re_identity receipt = i → validate_row i (capture_row receipt) = Ok receipt →
  readWorkspaceCollection (if changed then update_cursor (slot_of i) f (insert_collection (capture_row receipt) db)
                           else insert_collection (capture_row receipt) db) i = Ok (Some receipt).
Proof.
  intros Hok Hi Hv. unfold readWorkspaceCollection.
  rewrite (collection_row_found _ (capture_row receipt)); [by rewrite Hv | done | | by rewrite <- Hi].
  destruct changed; cbn; apply elem_of_app; right; by left.
Qed.

(** A capture is committed once and for all.  When a capture with a valid identity, a stability flag
    and at most 256 MiB of candidate bytes is accepted, its receipt can be read back after any later
    operations, and submitting the same capture again, at any later time, returns that very receipt and
    changes nothing. *)
Theorem capture_is_committed_once os now i r bytes preserved db' receipt later now' :
  identity_ok i = true → unstable r ≠ None →
  (∀ b, bytes = Some b → Z.of_nat (length b) <= MAX_CANDIDATE_BYTES) →
  acceptWorkspaceCapture now (chain_history os) i r bytes preserved = Ok (db', receipt) →
  let db := foldl chain_step db' later in
  readWorkspaceCollection db i = Ok (Some receipt) ∧
  acceptWorkspaceCapture now' db i r bytes preserved = Ok (db, receipt).
Proof.
  intros Hi Hu Hlen Hacc db. pose proof (chain_history_ok os) as H0. unfold acceptWorkspaceCapture in *.
  destruct (match preserved with Some _ => _ | None => _ end); [ | done].
  destruct (capture_body now (chain_history os) i r bytes) as [[? ?] | ] eqn:E; [ | done]. injection Hacc as -> ->.
  pose proof (capture_body_bytes _ _ _ _ _ _ E) as Hb. pose proof (capture_body_ok _ _ _ _ _ _ _ H0 E) as Hdb'.
  assert (Hread : readWorkspaceCollection db' i = Ok (Some receipt) ∧
                  re_result receipt = replayed r bytes (re_result receipt) ∧ re_candidate receipt = bytes).
  { apply capture_body_Ok in E as [(-> & H1 & H2 & H3) | (cursor & head & lks & Hn & Hc & Hr & Hl & -> & ->)]; [done | ].
    split; [ | split; [apply replayed_stored | done]].
    apply fresh_capture_reads; [done | done | by apply (stored_row_reads now (chain_history os) i r bytes cursor head lks)]. }
  destruct Hread as (Hread & Hres & Hcand). pose proof (committed_forever _ _ _ later Hdb' Hread) as Hfor.
  split; [done | ]. by rewrite (capture_replays now' db i r bytes receipt).
Qed.
End Replay.

(** ** Application *)

Definition with_base (head : WorkspaceSnapshotPair) (commit : option jsstr) (row : CursorRow) : CursorRow :=
  {| accepted_base_json := Some head; head_json := head_json row; baseline_identity_json := baseline_identity_json row;
     accepted_commit := commit; cursor_version := cursor_version row |}.

(** Applying a review is a compare-and-set on the accepted base of its slot.  With the reviewed
    receipt and a readable cursor: nothing happens when the base already is the captured head; the
    base becomes that head, with the new commit, when it still is the base the candidate was made
    against; every other base refuses the application.  The captured head, the other slots, the
    receipts and the reviews are not touched. *)
Theorem apply_is_compare_and_set os ws cs commit receipt c :
  workspaceReviewCollection (chain_history os) ws cs = Ok (Some receipt) →
  readWorkspaceSnapshotCursor (chain_history os) (slot_of (re_identity receipt)) = Ok (Some c) →
  ∃ head base, r_head (re_result receipt) = Some head ∧ acceptedBase (re_result receipt) = Some base ∧
    acceptAppliedWorkspaceSnapshot (chain_history os) ws cs commit =
      (if bool_decide (cu_acceptedBase c = head) then Ok (chain_history os)
       else if bool_decide (cu_acceptedBase c = base)
       then Ok (update_cursor (slot_of (re_identity receipt)) (with_base head commit) (chain_history os))
       else Err (OperationError "workspace_sync_review_failed" "Workspace snapshot accepted base changed during apply." 404)).
Proof.
  intros Hrev Hc. pose proof (chain_history_ok os) as H0.
  destruct (review_collection_Ok _ _ _ _ H0 Hrev) as (row & Hr & Hws & Hid & Hcs & Hres & Hout & Hschema).
  assert (Hpairs : optional_pair_ok (r_head (re_result receipt)) = true ∧ optional_pair_ok (acceptedBase (re_result receipt)) = true).
  { rewrite Hres. unfold StoredCollectionResultSchema, StoredCaptureObservationV1Schema in Hschema. rewrite Hout in Hschema.
    by bool_to_prop. }
  destruct Hpairs as [Ph Pb]. destruct (r_head (re_result receipt)) as [head | ] eqn:Eh; [ | done].
  destruct (acceptedBase (re_result receipt)) as [base | ] eqn:Eb; [ | done]. cbn in Ph, Pb.
  exists head, base. split_and!; [done.. | ]. unfold acceptAppliedWorkspaceSnapshot. rewrite Hrev. cbn [mbind result_bind].
  rewrite Hc. cbn [mbind result_bind]. rewrite Eh. unfold parse_pair at 1. rewrite Ph. cbn [mbind result_bind].
  destruct (sameWorkspaceSnapshot (cu_acceptedBase c) head) eqn:E1.
  { apply same_snapshot_eq in E1. by rewrite bool_decide_true. }
  rewrite (bool_decide_false (cu_acceptedBase c = head)) by (intros E; apply same_snapshot_eq in E; congruence).
  unfold workspaceSnapshotReviewIsStale. rewrite Hrev. cbn [mbind result_bind]. rewrite Hc. cbn [mbind result_bind].
  rewrite Eb. unfold parse_pair. rewrite Pb. cbn [mbind result_bind negb].
  destruct (sameWorkspaceSnapshot (cu_acceptedBase c) base) eqn:E2; cbn [negb].
  - apply same_snapshot_eq in E2. rewrite bool_decide_true by done. by rewrite <- Hws.
  - rewrite bool_decide_false by (intros E; apply same_snapshot_eq in E; congruence). done.
Qed.
End Digest.

Module ChainDemo.
Definition uuid : string := "0190a1b2-c3d4-7e5f-8a6b-0123456789ab".
Definition id (kind : string) : jsstr := js (kind +:+ "_" +:+ uuid).
(** A stand-in for the digest with the text form of SHA-256. *)
Definition toy_digest (bytes : list Z) : jsstr := js "sha256:" ++ replicate 64 (hex_digit (Z.of_nat (length bytes) mod 16)).
Definition pair_of (c : ascii) : WorkspaceSnapshotPair := {| tree := replicate 40 (cu c); manifest := replicate 40 (cu c) |}.
Definition identity (collection : string) : WorkspaceCollectionIdentity :=
  {| workspaceId := id "ws"; storageRef := id "wst"; scopeDigest := toy_digest []; workSlot := js "slot";
     attachmentGeneration := 1; sandboxId := js "sandbox"; collectionId := js collection; agentSessionId := id "as";
     threadId := id "th"; turnId := id "tu"; packageSnapshotId := js "package" |}.
Definition candidate_result (previous head base : ascii) : CollectionResult :=
  {| outcome := Candidate; sha256 := None; byteLength := None; r_head := Some (pair_of head);
     previousHead := Some (pair_of previous); acceptedBase := Some (pair_of base); unstable := Some false;
     credentialCheck := None; collectedAt := None; acceptedCommit := None; pendingEarlierLinks := None; evidence := [] |}.
(** Two captures on one baseline, both under review. *)
Definition demo : list chain_op :=
  [Authorize (identity "base"); Baseline (identity "base") (pair_of "a") (Some (replicate 40 (cu "a"))) None;
   Capture 5 (identity "one") (candidate_result "a" "b" "a") (Some [1; 2]) None;
   LinkReview (identity "one") (js "review-1");
   ReviewsChange [{| rv_workspace_id := id "ws"; rv_change_set_id := js "review-1"; rv_pending := true |}];
   Capture 6 (identity "two") (candidate_result "b" "c" "a") (Some [3]) None;
   LinkReview (identity "two") (js "review-2")].
Definition demo_db : WorkspaceDb := chain_history toy_digest demo.
Definition demo_slot : slot_key := slot_of (identity "base").

Lemma toy_digest_text bytes : sha256_text (toy_digest bytes) = true.
Proof.
  unfold toy_digest. set (n := Z.of_nat (length bytes) mod 16).
  assert (Hn : 0 <= n < 16) by (apply Z.mod_pos_bound; lia). pose proof (hex_digit_hex n Hn) as Hh.
  unfold sha256_text. generalize dependent (hex_digit n). intros d Hd. cbn -[is_hex]. by rewrite !Hd.
Qed.

(** The pending earlier review is recorded by the second capture, and the head is two links further. *)
Example demo_chain :
  (pendingEarlierLinks ∘ result_json <$> collections demo_db) = [Some []; Some [js "one"]] ∧
  chain_end (pair_of "a") (links demo_db demo_slot) = Some (pair_of "c").
Proof. by vm_compute. Qed.

(** Applying the first review makes the second one stale. *)
Example demo_apply :
  match acceptAppliedWorkspaceSnapshot toy_digest demo_db (id "ws") (js "review-1") None with
  | Ok db => match workspaceSnapshotReviewIsStale toy_digest db (id "ws") (js "review-2") with Ok b => b | Err _ => false end
             && negb (is_ok (acceptAppliedWorkspaceSnapshot toy_digest db (id "ws") (js "review-2") None))
             && is_ok (acceptAppliedWorkspaceSnapshot toy_digest db (id "ws") (js "review-1") None)
  | Err _ => false
  end = true.
Proof. by vm_compute. Qed.
End ChainDemo.

Lemma capture_is_committed_once_witness :
  match acceptWorkspaceCapture ChainDemo.toy_digest 7 (chain_history ChainDemo.toy_digest ChainDemo.demo) (ChainDemo.identity "three")
          (ChainDemo.candidate_result "c" "d" "a") (Some [4]) None with
  | Ok (db, receipt) =>
    acceptWorkspaceCapture ChainDemo.toy_digest 8 db (ChainDemo.identity "three")
      (ChainDemo.candidate_result "c" "d" "a") (Some [4]) None = Ok (db, receipt)
  | Err _ => False
  end.
Proof.
  assert (Hok : is_ok (acceptWorkspaceCapture ChainDemo.toy_digest 7 (chain_history ChainDemo.toy_digest ChainDemo.demo) (ChainDemo.identity "three")
          (ChainDemo.candidate_result "c" "d" "a") (Some [4]) None) = true) by (vm_compute; reflexivity).
  destruct (acceptWorkspaceCapture ChainDemo.toy_digest 7 (chain_history ChainDemo.toy_digest ChainDemo.demo) (ChainDemo.identity "three")
          (ChainDemo.candidate_result "c" "d" "a") (Some [4]) None) as [[db receipt] | e] eqn:E; [ | discriminate Hok].
  apply (capture_is_committed_once ChainDemo.toy_digest ChainDemo.toy_digest_text ChainDemo.demo 7
           (ChainDemo.identity "three") (ChainDemo.candidate_result "c" "d" "a") (Some [4]) None db receipt [] 8).
  - by vm_compute.
  - done.
  - intros b [= <-]. done.
  - exact E.
Defined.

Lemma apply_is_compare_and_set_witness :
  ∃ head base,
    acceptAppliedWorkspaceSnapshot ChainDemo.toy_digest (chain_history ChainDemo.toy_digest ChainDemo.demo) (ChainDemo.id "ws") (js "review-1") None =
      (if bool_decide (ChainDemo.pair_of "a" = head) then Ok (chain_history ChainDemo.toy_digest ChainDemo.demo)
       else if bool_decide (ChainDemo.pair_of "a" = base)
       then Ok (update_cursor ChainDemo.demo_slot (with_base head None) (chain_history ChainDemo.toy_digest ChainDemo.demo))
       else Err (OperationError "workspace_sync_review_failed" "Workspace snapshot accepted base changed during apply." 404)).
Proof.
  assert (Hslot : match workspaceReviewCollection ChainDemo.toy_digest (chain_history ChainDemo.toy_digest ChainDemo.demo) (ChainDemo.id "ws") (js "review-1") with
                  | Ok (Some r) => bool_decide (slot_of (re_identity r) = ChainDemo.demo_slot)
                  | _ => false
                  end = true) by (vm_compute; reflexivity).
  destruct (workspaceReviewCollection ChainDemo.toy_digest (chain_history ChainDemo.toy_digest ChainDemo.demo) (ChainDemo.id "ws") (js "review-1"))
    as [[receipt | ] | e] eqn:E; [ | discriminate Hslot | discriminate Hslot]. apply bool_decide_eq_true in Hslot.
  destruct (apply_is_compare_and_set ChainDemo.toy_digest ChainDemo.demo (ChainDemo.id "ws") (js "review-1") None receipt
    {| cu_acceptedBase := ChainDemo.pair_of "a"; cu_head := ChainDemo.pair_of "c"; cu_acceptedCommit := None |})
    as (head & base & _ & _ & Happ).
  - exact E.
  - rewrite Hslot. vm_compute. reflexivity.
  - exists head, base. rewrite <- Hslot. exact Happ.
Defined.
