(* ===== verification/TreeDigest.v ===== *)
(** * Resource tree digest (packages/config-schema/src/tree-digest.ts)

    The admission, the order and the byte framing behind the [openkit-tree-v1] digest, and the walk of a
    file-system tree that feeds it.  A file system is a tree of nodes; SHA-256 and Unicode
    normalization are parameters. *)

From S2P Require Import Prelude JsValue CanonicalJson Sha1 EntityId Utf8.

Local Open Scope string_scope.
Local Open Scope list_scope.
Local Open Scope Z_scope.

Definition TREE_DOMAIN : list Z := js "openkit-tree-v1".
Definition GIT_SEGMENT : jsstr := js ".git".
Definition MAX_UTF8_PATH_BYTES : Z := 4096.

Inductive EntryKind := Directory | PlainFile | ExecutableFile.
#[export] Instance EntryKind_eq_dec : EqDecision EntryKind.
Proof. solve_decision. Defined.
Definition kind_byte (k : EntryKind) : Z := match k with Directory => 0 | PlainFile => 1 | ExecutableFile => 2 end.

Record OpenKitTreeEntry := { content : option (list Z); kind : EntryKind; path : jsstr }.
#[export] Instance OpenKitTreeEntry_eq_dec : EqDecision OpenKitTreeEntry.
Proof. solve_decision. Defined.

Record OpenKitTreeBounds := { maxBytes : Z; maxEntries : Z; maxDepth : option Z }.
Definition DEFAULT_BOUNDS : OpenKitTreeBounds :=
  {| maxBytes := 16 * 1024 * 1024; maxEntries := 1024; maxDepth := Some 32 |}.
Definition depth_bound (b : OpenKitTreeBounds) : Z := default 32 (maxDepth b).

Inductive TreeError :=
| TooManyEntries (bound : Z)
| DuplicatePath (path : jsstr)
| DirectoryContent (path : jsstr)
| TooManyBytes (bound : Z)
| Backslash
| NotRelative
| IllFormed
| NotNfc
| TooDeep (bound : Z)
| DotSegment
| GitPath
| SymbolicLink (relative : jsstr)
| NotRegular (relative : jsstr)
| OutOfRange.

Section Tree.
Context (nfc : jsstr → jsstr) (hash : list Z → jsstr).

(** [bytes.toString('utf8') !== path] holds exactly when the path has an unpaired surrogate. *)
Definition validateTreePath (p : jsstr) (depth : Z) : result TreeError unit :=
  if (Z.of_nat (length p) =? 0) || bool_decide (head p = Some (cu "/")) || includes p BACKSLASH || includes p 0 then
    Err (if includes p BACKSLASH then Backslash else NotRelative)
  else if includes (utf8_encode p) 0 || (MAX_UTF8_PATH_BYTES <? Z.of_nat (length (utf8_encode p))) || has_lone_surrogate p
  then Err IllFormed
  else if negb (bool_decide (nfc p = p)) then Err NotNfc
  else
    let segments := split_slash p in
    if depth <? Z.of_nat (length segments) then Err (TooDeep depth)
    else
      (fix each segs :=
         match segs with
         | [] => Ok tt
         | seg :: segs =>
           if (Z.of_nat (length seg) =? 0) || bool_decide (seg = js ".") || bool_decide (seg = js "..") then Err DotSegment
           else if bool_decide (seg = GIT_SEGMENT) then Err GitPath
           else each segs
         end) segments.

(** The callback of [entries.map], with its running set of paths and total of file bytes. *)
Fixpoint admit_entries (b : OpenKitTreeBounds) (seen : list jsstr) (fileBytes : Z) (entries : list OpenKitTreeEntry)
    : result TreeError (list OpenKitTreeEntry) :=
  match entries with
  | [] => Ok []
  | e :: rest =>
    _ ← validateTreePath (path e) (depth_bound b);
    require negb (includes seen (path e)) else DuplicatePath (path e);
    match kind e with
    | Directory =>
      require match content e with Some (_ :: _) => false | _ => true end else DirectoryContent (path e);
      rest' ← admit_entries b (path e :: seen) fileBytes rest;
      Ok ({| content := None; kind := Directory; path := path e |} :: rest')
    | k =>
      let bytes := default [] (content e) in
      let total := fileBytes + Z.of_nat (length bytes) in
      require total <=? maxBytes b else TooManyBytes (maxBytes b);
      rest' ← admit_entries b (path e :: seen) total rest;
      Ok ({| content := Some bytes; kind := k; path := path e |} :: rest')
    end
  end.

(** [Buffer.compare] of the UTF-8 bytes. *)
Definition compareUtf8 (left right : jsstr) : Z := str_cmp (utf8_encode left) (utf8_encode right).

Definition normalizeTreeEntries (entries : list OpenKitTreeEntry) (b : OpenKitTreeBounds)
    : result TreeError (list OpenKitTreeEntry) :=
  if maxEntries b <? Z.of_nat (length entries) then Err (TooManyEntries (maxEntries b))
  else
    normalized ← admit_entries b [] 0 entries;
    Ok (js_sort (λ left right, compareUtf8 (path left) (path right)) normalized).

(** [writeUInt32BE] and [writeBigUInt64BE] throw outside their range. *)
Definition u32 (value : Z) : result TreeError (list Z) :=
  if (0 <=? value) && (value <? 2 ^ 32) then Ok (be_bytes 4 value) else Err OutOfRange.
Definition u64 (value : Z) : result TreeError (list Z) :=
  if (0 <=? value) && (value <? 2 ^ 64) then Ok (be_bytes 8 value) else Err OutOfRange.

Definition frame_entry (e : OpenKitTreeEntry) : result TreeError (list Z) :=
  let pathBytes := utf8_encode (path e) in
  let bytes := match kind e with Directory => [] | _ => default [] (content e) end in
  pathLength ← u32 (Z.of_nat (length pathBytes));
  contentLength ← u64 (Z.of_nat (length bytes));
  Ok (pathLength ++ pathBytes ++ [kind_byte (kind e)] ++ contentLength ++ bytes).

(** The bytes that are hashed. *)
Definition frame_tree (entries : list OpenKitTreeEntry) : result TreeError (list Z) :=
  count ← u32 (Z.of_nat (length entries));
  frames ← mapM frame_entry entries;
  Ok (TREE_DOMAIN ++ [0] ++ count ++ concat frames).

Definition hashNormalizedTree (entries : list OpenKitTreeEntry) : result TreeError jsstr :=
  bytes ← frame_tree entries;
  Ok (js "sha256:" ++ hash bytes).

Definition hashOpenKitTreeEntries (entries : list OpenKitTreeEntry) (b : OpenKitTreeBounds) : result TreeError jsstr :=
  normalized ← normalizeTreeEntries entries b;
  hashNormalizedTree normalized.

(** ** The walk of a file system *)

(** [lstatSync]: what the walk sees at a path. *)
Inductive FsNode :=
| FsLink
| FsDir (children : list (jsstr * FsNode))
| FsFile (mode : Z) (bytes : list Z)
| FsOther.

Definition child_path (relative name : jsstr) : jsstr := match relative with [] => name | _ => relative ++ js "/" ++ name end.

(** The results of the children, visited in the order of their names; the first failure ends the walk. *)
Fixpoint sequence_walk (l : list (jsstr * result TreeError (list OpenKitTreeEntry))) : result TreeError (list OpenKitTreeEntry) :=
  match l with
  | [] => Ok []
  | (_, r) :: l => entries ← r; rest ← sequence_walk l; Ok (entries ++ rest)
  end.

(** The executable bits [0o111] are 73. *)
Fixpoint walkTree (node : FsNode) (relative : jsstr) (b : OpenKitTreeBounds) : result TreeError (list OpenKitTreeEntry) :=
  match node with
  | FsLink => Err (SymbolicLink (match relative with [] => js "." | _ => relative end))
  | FsDir children =>
    let self := match relative with [] => [] | _ => [{| content := None; kind := Directory; path := relative |}] end in
    let depth := match relative with [] => 0 | _ => Z.of_nat (length (split_slash relative)) end in
    if depth_bound b <? depth then Err (TooDeep (depth_bound b))
    else
      let walked := (fix each l :=
        match l with
        | [] => []
        | (name, child) :: l =>
          if bool_decide (name = GIT_SEGMENT) then each l
          else (name, walkTree child (child_path relative name) b) :: each l
        end) children in
      below ← sequence_walk (js_sort (λ x y, str_cmp x.1 y.1) walked);
      Ok (self ++ below)
  | FsFile mode bytes =>
    Ok [{| content := Some bytes; kind := if Z.land mode 73 =? 0 then PlainFile else ExecutableFile; path := relative |}]
  | FsOther => Err (NotRegular relative)
  end.

Definition collectBoundedTree (root : FsNode) (b : OpenKitTreeBounds) : result TreeError (list OpenKitTreeEntry) :=
  collected ← walkTree root [] b;
  normalizeTreeEntries collected b.

Definition digestOpenKitTree (root : FsNode) (b : OpenKitTreeBounds) : result TreeError (jsstr * list OpenKitTreeEntry) :=
  entries ← collectBoundedTree root b;
  digest ← hashNormalizedTree entries;
  Ok (digest, entries).

(** ** Admission does not depend on the order of the entries *)

Definition normal_entry (e : OpenKitTreeEntry) : OpenKitTreeEntry :=
  {| content := match kind e with Directory => None | _ => Some (default [] (content e)) end; kind := kind e; path := path e |}.

Definition is_file (e : OpenKitTreeEntry) : bool := negb (bool_decide (kind e = Directory)).
Definition file_size (e : OpenKitTreeEntry) : Z :=
  match kind e with Directory => 0 | _ => Z.of_nat (length (default [] (content e))) end.
Fixpoint total_size (l : list OpenKitTreeEntry) : Z := match l with [] => 0 | e :: l => file_size e + total_size l end.

Definition entry_admissible (b : OpenKitTreeBounds) (e : OpenKitTreeEntry) : Prop :=
  validateTreePath (path e) (depth_bound b) = Ok tt ∧
  (kind e = Directory → match content e with Some (_ :: _) => False | _ => True end).

Record admissible (b : OpenKitTreeBounds) (seen : list jsstr) (fileBytes : Z) (l : list OpenKitTreeEntry) : Prop := {
  ad_entries : Forall (entry_admissible b) l;
  ad_distinct : NoDup (path <$> l);
  ad_fresh : ∀ p, p ∈ path <$> l → p ∉ seen;
  ad_bytes : Exists (λ e, is_file e = true) l → fileBytes + total_size l <= maxBytes b;
}.

Lemma total_size_nonneg l : 0 <= total_size l.
Proof. induction l as [ | e l IH]; cbn [total_size]; [lia | ]. unfold file_size. destruct (kind e); lia. Qed.

Lemma total_size_no_file l : ¬ Exists (λ e, is_file e = true) l → total_size l = 0.
Proof.
  induction l as [ | e l IH]; intros Hn; cbn; [done | ]. rewrite IH by (intros H; apply Hn; by right).
  unfold file_size. destruct (kind e) eqn:E; [done | | ]; exfalso; apply Hn; left; unfold is_file; by rewrite E.
Qed.

Lemma validate_unit p d u : validateTreePath p d = Ok u → validateTreePath p d = Ok tt.
Proof. by destruct u. Qed.

Lemma admit_entries_spec b l : ∀ seen fileBytes n,
  admit_entries b seen fileBytes l = Ok n ↔ admissible b seen fileBytes l ∧ n = normal_entry <$> l.
Proof.
  induction l as [ | e l IH]; intros seen fileBytes n; cbn [admit_entries].
  { split; [intros [= <-] | by intros [_ ->]]. split; [ | done]. split; [constructor.. | | ].
    - by intros p ?%not_elem_of_nil.
    - by intros ?%Exists_nil. }
  rewrite bind_Ok. split.
  - intros ([] & Hv & H). destruct (includes seen (path e)) eqn:Hs; [done | ]. cbn [negb] in H. apply bool_decide_eq_false in Hs.
    assert (Hstep : ∃ rest total, admit_entries b (path e :: seen) total l = Ok rest ∧ n = normal_entry e :: rest ∧
              total = fileBytes + file_size e ∧ (is_file e = true → total <= maxBytes b) ∧
              (kind e = Directory → match content e with Some (_ :: _) => False | _ => True end)).
    { unfold normal_entry, file_size, is_file. destruct (kind e).
      - destruct (match content e with Some (_ :: _) => false | _ => true end) eqn:Ec; [ | done].
        apply bind_Ok in H as (rest & Hr & [= <-]). exists rest, fileBytes. split_and!; try done; [lia | ].
        intros _. by destruct (content e) as [[ | ] | ].
      - destruct (_ <=? _) eqn:Et in H; [ | done]. bool_to_prop. apply bind_Ok in H as (rest & Hr & [= <-]).
        eexists rest, _. split_and!; done.
      - destruct (_ <=? _) eqn:Et in H; [ | done]. bool_to_prop. apply bind_Ok in H as (rest & Hr & [= <-]).
        eexists rest, _. split_and!; done. }
    destruct Hstep as (rest & total & Hr & -> & -> & Hb & Hd). apply IH in Hr as [[A1 A2 A3 A4] ->].
    split; [ | done]. split.
    + constructor; [by split | done].
    + cbn. constructor; [ | done]. intros Hin. apply (A3 (path e) Hin). by left.
    + intros p. cbn. rewrite elem_of_cons. intros [-> | Hp]; [done | ]. intros Hseen. apply (A3 p Hp). by right.
    + intros Hex. cbn. destruct (decide (Exists (λ e, is_file e = true) l)) as [Hl | Hl]; [specialize (A4 Hl); lia | ].
      rewrite (total_size_no_file l Hl). apply Exists_cons in Hex as [Hf | ?]; [specialize (Hb Hf); lia | done].
  - intros [[A1 A2 A3 A4] ->]. apply Forall_cons in A1 as [[Hv Hd] A1]. cbn in A2. apply NoDup_cons in A2 as [Hn A2].
    exists tt. split; [done | ].
    assert (Hs : includes seen (path e) = false) by (apply bool_decide_eq_false; apply A3; by left). rewrite Hs. cbn [negb].
    assert (Hrest : ∀ total, total = fileBytes + file_size e → admit_entries b (path e :: seen) total l = Ok (normal_entry <$> l)).
    { intros total ->. apply IH. split; [ | done]. split; [done.. | | ].
      - intros p Hp. rewrite not_elem_of_cons. split; [ | apply A3; by right]. intros ->. done.
      - intros Hex. cbn in A4. specialize (A4 (Exists_cons_tl _ Hex)). lia. }
    pose proof (total_size_nonneg l) as Hpos.
    assert (Hfile : is_file e = true → fileBytes + file_size e <= maxBytes b).
    { intros Hf. specialize (A4 ltac:(by left)). cbn [total_size] in A4. lia. }
    cbn [fmap list_fmap]. unfold normal_entry at 1. unfold file_size in Hrest, Hfile. unfold is_file in Hfile.
    destruct (kind e) eqn:Ek.
    + replace (match content e with Some (_ :: _) => false | _ => true end) with true
        by (specialize (Hd eq_refl); by destruct (content e) as [[ | ] | ]).
      rewrite (Hrest fileBytes) by lia. done.
    + rewrite (proj2 (Z.leb_le _ _)) by (by apply Hfile). by rewrite Hrest.
    + rewrite (proj2 (Z.leb_le _ _)) by (by apply Hfile). by rewrite Hrest.
Qed.

Lemma total_size_perm l k : l ≡ₚ k → total_size l = total_size k.
Proof. induction 1; cbn; lia. Qed.

Lemma admissible_perm b seen fileBytes l k : l ≡ₚ k → admissible b seen fileBytes l → admissible b seen fileBytes k.
Proof.
  intros Hp [A1 A2 A3 A4]. split.
  - by rewrite <- Hp.
  - by rewrite <- Hp.
  - intros p. rewrite <- Hp. apply A3.
  - intros Hex. rewrite <- (total_size_perm l k Hp). apply A4. by rewrite Hp.
Qed.

(** ** The framing determines the tree *)

Record entry_ok (e : OpenKitTreeEntry) : Prop := {
  eo_units : code_units (path e);
  eo_text : has_lone_surrogate (path e) = false;
  eo_content : content e = match kind e with Directory => None | _ => Some (default [] (content e)) end;
}.

Lemma kind_byte_inj k k' : kind_byte k = kind_byte k' → k = k'.
Proof. by destruct k, k'. Qed.

Lemma u32_Ok z l : u32 z = Ok l ↔ 0 <= z < 2 ^ 32 ∧ l = be_bytes 4 z.
Proof. unfold u32. destruct ((0 <=? z) && (z <? 2 ^ 32)) eqn:E; bool_to_prop; split; [by intros [= <-] | by intros [_ ->] | done | ]. intros [? _]. lia. Qed.

Lemma u64_Ok z l : u64 z = Ok l ↔ 0 <= z < 2 ^ 64 ∧ l = be_bytes 8 z.
Proof. unfold u64. destruct ((0 <=? z) && (z <? 2 ^ 64)) eqn:E; bool_to_prop; split; [by intros [= <-] | by intros [_ ->] | done | ]. intros [? _]. lia. Qed.

Lemma u32_defined z : 0 <= z < 2 ^ 32 → u32 z = Ok (be_bytes 4 z).
Proof. intros H. by apply u32_Ok. Qed.
Lemma u64_defined z : 0 <= z < 2 ^ 64 → u64 z = Ok (be_bytes 8 z).
Proof. intros H. by apply u64_Ok. Qed.

(** A length prefix splits what follows it. *)
Lemma counted_prefix k n n' (l l' r r' : list Z) :
  length l = n → length l' = n' → Z.of_nat n < 256 ^ Z.of_nat k → Z.of_nat n' < 256 ^ Z.of_nat k →
  be_bytes k (Z.of_nat n) ++ l ++ r = be_bytes k (Z.of_nat n') ++ l' ++ r' → l = l' ∧ r = r'.
Proof.
  intros Hl Hl' Hn Hn' E. apply app_inj_1 in E as [Eb E]; [ | by rewrite !length_be_bytes].
  apply be_bytes_inj in Eb; [ | lia | lia]. apply app_inj_1 in E; [done | lia].
Qed.

Lemma frame_entry_prefix e e' a a' l l' :
  entry_ok e → entry_ok e' → frame_entry e = Ok a → frame_entry e' = Ok a' → a ++ l = a' ++ l' → e = e' ∧ l = l'.
Proof.
  intros He He' Ha Ha' E. unfold frame_entry in Ha, Ha'.
  apply bind_Ok in Ha as (pl & [Hp ->]%u32_Ok & Ha). apply bind_Ok in Ha as (cl & [Hc ->]%u64_Ok & <-%Ok_inj).
  apply bind_Ok in Ha' as (pl & [Hp' ->]%u32_Ok & Ha'). apply bind_Ok in Ha' as (cl & [Hc' ->]%u64_Ok & <-%Ok_inj).
  rewrite <- !app_assoc in E. apply counted_prefix in E as [Ep E]; [ | done | done | lia | lia].
  apply app_inj_1 in E as [Ek E]; [ | done]. injection Ek as Ek. apply kind_byte_inj in Ek.
  apply counted_prefix in E as [Ec ->]; [ | done | done | lia | lia]. split; [ | done].
  apply utf8_encode_inj in Ep; try apply He; try apply He'.
  pose proof (eo_content e He) as Hk. pose proof (eo_content e' He') as Hk'.
  destruct e as [c k p], e' as [c' k' p']; cbn in *. subst k' p'. destruct k; congruence.
Qed.

Lemma frames_inj l l' fs fs' :
  Forall entry_ok l → Forall entry_ok l' → length l = length l' → mapM frame_entry l = Ok fs → mapM frame_entry l' = Ok fs' →
  concat fs = concat fs' → l = l'.
Proof.
  rewrite !mapM_result_Ok. intros Hl. revert l' fs fs'. induction Hl as [ | e l He _ IH]; intros l' fs fs' Hl' Hlen Hf Hf' E.
  - by destruct l'.
  - destruct l' as [ | e' l']; [done | ]. apply Forall_cons in Hl' as [He' Hl'].
    inversion Hf as [ | ? a ? fs1 Ha Hfs]; subst. inversion Hf' as [ | ? a' ? fs2 Ha' Hfs']; subst. cbn in E.
    apply (frame_entry_prefix e e') in E as [-> E]; [ | done..]. f_equal. eapply IH; [done | by injection Hlen | done..].
Qed.

Lemma frame_tree_inj l l' f f' :
  Forall entry_ok l → Forall entry_ok l' → frame_tree l = Ok f → frame_tree l' = Ok f' → f = f' → l = l'.
Proof.
  intros Hl Hl' Hf Hf' ->. unfold frame_tree in Hf, Hf'.
  apply bind_Ok in Hf as (c & [Hc ->]%u32_Ok & Hf). apply bind_Ok in Hf as (fs & Hfs & <-%Ok_inj).
  apply bind_Ok in Hf' as (c & [Hc' ->]%u32_Ok & Hf'). apply bind_Ok in Hf' as (fs' & Hfs' & E%Ok_inj).
  apply app_inv_head, app_inv_head in E. apply app_inj_1 in E as [Eb E]; [ | by rewrite !length_be_bytes].
  apply be_bytes_inj in Eb; [ | lia | lia]. eapply frames_inj; [done | done | lia | done | done | congruence].
Qed.

Lemma validate_text p d : validateTreePath p d = Ok tt → has_lone_surrogate p = false.
Proof.
  unfold validateTreePath. destruct (_ || includes p 0); [done | ]. destruct (_ || has_lone_surrogate p) eqn:E; [done | ].
  by bool_to_prop.
Qed.

Lemma normal_entry_ok b e : code_units (path e) → entry_admissible b e → entry_ok (normal_entry e).
Proof.
  intros Hu [Hv _]. split; [done | by eapply validate_text | ]. unfold normal_entry. cbn. by destruct (kind e).
Qed.

Lemma normalized_ok l b n :
  Forall (λ e, code_units (path e)) l → normalizeTreeEntries l b = Ok n →
  admissible b [] 0 l ∧ n = js_sort (keyed_cmp (utf8_encode ∘ path)) (normal_entry <$> l) ∧ n ≡ₚ normal_entry <$> l ∧ Forall entry_ok n.
Proof.
  intros Hu. unfold normalizeTreeEntries. destruct (_ <? _); [done | ]. intros (m & [Ha ->]%admit_entries_spec & [= <-])%bind_Ok.
  assert (Hp : js_sort (keyed_cmp (utf8_encode ∘ path)) (normal_entry <$> l) ≡ₚ normal_entry <$> l) by apply js_sort_perm.
  split_and!; try done. rewrite Hp. apply Forall_fmap. apply Forall_forall. intros e He. cbn.
  destruct Ha as [A1 _ _ _]. rewrite Forall_forall in A1, Hu. eapply normal_entry_ok; eauto.
Qed.

Lemma normalized_distinct l b :
  Forall (λ e, code_units (path e)) l → admissible b [] 0 l → NoDup ((utf8_encode ∘ path) <$> (normal_entry <$> l)).
Proof.
  intros Hu [A1 A2 _ _]. rewrite <- list_fmap_compose.
  replace (((utf8_encode ∘ path) ∘ normal_entry) <$> l) with (utf8_encode <$> (path <$> l)) by by rewrite <- list_fmap_compose.
  apply NoDup_fmap_2_strong; [ | done]. intros p q Hp Hq E.
  apply list_elem_of_fmap in Hp as (e & -> & He), Hq as (e' & -> & He').
  rewrite Forall_forall in A1, Hu. destruct (A1 _ He) as [V _], (A1 _ He') as [V' _].
  apply utf8_encode_inj; eauto using validate_text.
Qed.

(** Permuted inputs are admitted alike and normalized to the same list. *)
Lemma normalize_perm l k b n :
  Forall (λ e, code_units (path e)) l → l ≡ₚ k → normalizeTreeEntries l b = Ok n → normalizeTreeEntries k b = Ok n.
Proof.
  intros Hu Hp Hn. destruct (normalized_ok _ _ _ Hu Hn) as (Ha & -> & Hpn & _). revert Hn. unfold normalizeTreeEntries.
  rewrite (Permutation_length Hp). destruct (_ <? _); [done | ]. intros _. apply bind_Ok. exists (normal_entry <$> k). split.
  - apply admit_entries_spec. split; [by eapply admissible_perm | done].
  - f_equal. apply (keyed_sorted_unique (utf8_encode ∘ path)).
    + change (NoDup ((utf8_encode ∘ path) <$> js_sort (keyed_cmp (utf8_encode ∘ path)) (normal_entry <$> k))).
      rewrite (js_sort_perm _ (normal_entry <$> k)), <- Hp. by eapply normalized_distinct.
    + rewrite !js_sort_perm. by rewrite Hp.
    + apply keyed_sorted.
    + apply keyed_sorted.
Qed.

(** C35. The framed bytes identify the tree.  For two admitted inventories the bytes that are hashed are
    equal exactly when the inventories hold the same entries (same path, kind and content), in any
    order; so equal digests of different trees would be a collision of the hash itself. *)
Theorem tree_framing_identifies_the_tree l k b b' n m f g :
  Forall (λ e, code_units (path e)) l → Forall (λ e, code_units (path e)) k →
  normalizeTreeEntries l b = Ok n → normalizeTreeEntries k b' = Ok m →
  frame_tree n = Ok f → frame_tree m = Ok g →
  f = g ↔ normal_entry <$> l ≡ₚ normal_entry <$> k.
Proof.
  intros Hl Hk Hn Hm Hf Hg. destruct (normalized_ok _ _ _ Hl Hn) as (Al & En & Pn & On).
  destruct (normalized_ok _ _ _ Hk Hm) as (Ak & Em & Pm & Om). split.
  - intros E. rewrite <- Pn, <- Pm. by rewrite (frame_tree_inj n m f g).
  - intros Hp. enough (n = m) by congruence. apply (keyed_sorted_unique (utf8_encode ∘ path)).
    + rewrite Pn. by eapply normalized_distinct.
    + by rewrite Pn, Pm.
    + rewrite En. apply keyed_sorted.
    + rewrite Em. apply keyed_sorted.
Qed.

Lemma validate_length p d : validateTreePath p d = Ok tt → Z.of_nat (length (utf8_encode p)) <= MAX_UTF8_PATH_BYTES.
Proof.
  unfold validateTreePath. destruct (_ || includes p 0); [done | ]. destruct (_ || has_lone_surrogate p) eqn:E; [done | ].
  by bool_to_prop.
Qed.

Lemma file_size_le e l : e ∈ l → file_size e <= total_size l.
Proof.
  induction l as [ | x l IH]; [by intros ?%not_elem_of_nil | ]. cbn [total_size]. pose proof (total_size_nonneg l).
  intros [-> | He]%elem_of_cons; [lia | ]. specialize (IH He). unfold file_size at 2. destruct (kind x); lia.
Qed.

Lemma frame_entry_defined b l e :
  maxBytes b < 2 ^ 64 → admissible b [] 0 l → e ∈ l → is_ok (frame_entry (normal_entry e)) = true.
Proof.
  intros Hb [A1 _ _ A4] He. rewrite Forall_forall in A1. destruct (A1 _ He) as [Hv _]. apply validate_length in Hv.
  unfold MAX_UTF8_PATH_BYTES in Hv.
  unfold frame_entry. cbn [normal_entry path kind content].
  rewrite u32_defined by lia. cbn [mbind result_bind].
  assert (Hs : match kind e with Directory => 0 | _ => Z.of_nat (length (default [] (content e))) end < 2 ^ 64).
  { destruct (kind e) eqn:Ek; [lia | | ]; assert (Hf : is_file e = true) by (unfold is_file; by rewrite Ek);
      pose proof (A4 (proj2 (Exists_exists _ _) (ex_intro _ e (conj He Hf)))); pose proof (file_size_le e l He) as Hle;
      unfold file_size in Hle; rewrite Ek in Hle; lia. }
  rewrite u64_defined; [done | ]. destruct (kind e); cbn -[Z.pow] in *; lia.
Qed.

Lemma mapM_defined {A B E} (f : A → result E B) l : (∀ x, x ∈ l → is_ok (f x) = true) → ∃ k, mapM f l = Ok k.
Proof.
  induction l as [ | x l IH]; intros H; [by exists [] | ]. cbn.
  pose proof (H x ltac:(by left)) as Hx. destruct (f x) as [y | ]; [ | done].
  destruct IH as [k ->]; [intros z Hz; apply H; by right | ]. by exists (y :: k).
Qed.

(** Every admitted inventory has a digest, and any permutation of it has the same one: with bounds
    below the widths of the length fields, hashing never fails after admission. *)
Theorem tree_digest_order_independent l b n :
  Forall (λ e, code_units (path e)) l → maxEntries b < 2 ^ 32 → maxBytes b < 2 ^ 64 →
  normalizeTreeEntries l b = Ok n →
  ∃ d, ∀ k, l ≡ₚ k → hashOpenKitTreeEntries k b = Ok d.
Proof.
  intros Hl He Hb Hn. destruct (normalized_ok _ _ _ Hl Hn) as (Al & En & Pn & On).
  assert (Hlen : Z.of_nat (length n) < 2 ^ 32).
  { rewrite Pn, length_fmap. revert Hn. unfold normalizeTreeEntries. destruct (_ <? _) eqn:E; [done | ]. bool_to_prop. lia. }
  destruct (mapM_defined frame_entry n) as [fs Hfs].
  { intros e Hin. rewrite Pn in Hin. apply list_elem_of_fmap in Hin as (e0 & -> & He0). by eapply frame_entry_defined. }
  eexists. intros k Hp. unfold hashOpenKitTreeEntries. rewrite (normalize_perm l k b n) by done. cbn [mbind result_bind].
  unfold hashNormalizedTree, frame_tree. rewrite u32_defined by lia.
  cbn [mbind result_bind]. rewrite Hfs. done.
Qed.

(** ** The walk reaches everything except repository administration *)

Fixpoint fs_lookup (node : FsNode) (segments : list jsstr) : option FsNode :=
  match segments with
  | [] => Some node
  | name :: rest =>
    match node with
    | FsDir children => c ← find (λ nc, bool_decide (nc.1 = name)) children; fs_lookup c.2 rest
    | _ => None
    end
  end.

(** Names of one directory are distinct and not empty. *)
Fixpoint fs_ok (node : FsNode) : Prop :=
  match node with
  | FsDir children =>
    NoDup children.*1 ∧
    (fix each l := match l with [] => True | (name, child) :: l => name ≠ [] ∧ fs_ok child ∧ each l end) children
  | _ => True
  end.

Definition path_of (relative : jsstr) (segments : list jsstr) : jsstr := foldl child_path relative segments.

Definition entry_at (node : FsNode) (p : jsstr) : option OpenKitTreeEntry :=
  match node with
  | FsDir _ => Some {| content := None; kind := Directory; path := p |}
  | FsFile mode bytes =>
    Some {| content := Some bytes; kind := if Z.land mode 73 =? 0 then PlainFile else ExecutableFile; path := p |}
  | _ => None
  end.

Lemma FsNode_nested_ind (P : FsNode → Prop) :
  P FsLink → (∀ children, Forall (λ nc, P nc.2) children → P (FsDir children)) →
  (∀ mode bytes, P (FsFile mode bytes)) → P FsOther → ∀ node, P node.
Proof.
  intros Hl Hd Hf Ho. fix IH 1. intros [ | children | mode bytes | ]; [exact Hl | | apply Hf | exact Ho].
  apply Hd. induction children as [ | [name child] l IHl]; constructor; [apply IH | exact IHl].
Qed.

Lemma sequence_walk_Ok l out :
  sequence_walk l = Ok out →
  (∀ e, e ∈ out ↔ ∃ name r, (name, Ok r) ∈ l ∧ e ∈ r) ∧ ∀ name r, (name, r) ∈ l → is_ok r = true.
Proof.
  revert out. induction l as [ | [name r] l IH]; intros out H; cbn in H.
  - injection H as <-. split; [ | by intros ? ? ?%not_elem_of_nil]. intros e. split; [by intros ?%not_elem_of_nil | ].
    by intros (? & ? & ?%not_elem_of_nil & _).
  - apply bind_Ok in H as (es & -> & H). apply bind_Ok in H as (rest & Hr & [= <-]). destruct (IH _ Hr) as [Hm Hok]. split.
    + intros e. rewrite elem_of_app, Hm. split.
      * intros [He | (n & r & Hin & He)]; [exists name, es; split; [by left | done] | exists n, r; split; [by right | done]].
      * intros (n & r & [[= -> ->] | Hin]%elem_of_cons & He); [by left | right; eauto].
    + intros n r [[= -> ->] | Hin]%elem_of_cons; [done | eauto].
Qed.

Definition walk_children (relative : jsstr) (b : OpenKitTreeBounds) : list (jsstr * FsNode) → _ :=
  fix each l :=
    match l with
    | [] => []
    | (name, child) :: l =>
      if bool_decide (name = GIT_SEGMENT) then each l
      else (name, walkTree child (child_path relative name) b) :: each l
    end.

Lemma walk_children_elem relative b children name r :
  (name, r) ∈ walk_children relative b children ↔
  ∃ child, (name, child) ∈ children ∧ name ≠ GIT_SEGMENT ∧ r = walkTree child (child_path relative name) b.
Proof.
  induction children as [ | [n c] l IH]; cbn.
  - split; [by intros ?%not_elem_of_nil | by intros (? & ?%not_elem_of_nil & _)].
  - case_bool_decide as Hg.
    + rewrite IH. split; intros (child & Hin & Hn & ->); exists child; (split; [ | done]); [by right | ].
      apply elem_of_cons in Hin as [[= -> ->] | Hin]; [done | done].
    + rewrite elem_of_cons, IH. split.
      * intros [[= -> ->] | (child & Hin & Hn & ->)]; [exists c; split; [by left | done] | exists child; split; [by right | done]].
      * intros (child & [[= -> ->] | Hin]%elem_of_cons & Hn & ->); [by left | right; eauto].
Qed.

Lemma fs_ok_dir children :
  fs_ok (FsDir children) → NoDup children.*1 ∧ ∀ name child, (name, child) ∈ children → name ≠ [] ∧ fs_ok child.
Proof.
  intros [Hn Hall]. split; [done | ]. clear Hn. induction children as [ | [n c] l IH]; intros name child Hin.
  - by apply not_elem_of_nil in Hin.
  - destruct Hall as (H1 & H2 & H3). apply elem_of_cons in Hin as [[= -> ->] | Hin]; [done | by apply IH].
Qed.

Lemma find_child (children : list (jsstr * FsNode)) name child :
  NoDup children.*1 → find (λ nc, bool_decide (nc.1 = name)) children = Some (name, child) ↔ (name, child) ∈ children.
Proof.
  intros Hn. split; [by intros [? _]%find_Some | ]. intros Hin.
  destruct (find (λ nc, bool_decide (nc.1 = name)) children) as [[n c] | ] eqn:Hf.
  - apply find_Some in Hf as [Hin' E%bool_decide_eq_true]. cbn in E. subst n. f_equal.
    by apply (NoDup_fmap_elem fst children).
  - pose proof (proj1 (find_None _ _) Hf _ Hin) as E. by apply bool_decide_eq_false in E.
Qed.

(** The entries below a directory, by their segments. *)
Definition reached (node : FsNode) (relative : jsstr) (segments : list jsstr) (e : OpenKitTreeEntry) : Prop :=
  GIT_SEGMENT ∉ segments ∧ ∃ nd, fs_lookup node segments = Some nd ∧ entry_at nd (path_of relative segments) = Some e.

Lemma reached_child children relative name rest e :
  NoDup children.*1 →
  reached (FsDir children) relative (name :: rest) e ↔
  ∃ child, (name, child) ∈ children ∧ name ≠ GIT_SEGMENT ∧ reached child (child_path relative name) rest e.
Proof.
  intros Hn. unfold reached. rewrite not_elem_of_cons. cbn [fs_lookup path_of foldl]. split.
  - intros ([Hg Hr] & nd & Hl & He). apply bind_Some in Hl as ([n c] & Hf & Hl). pose proof Hf as Hf'.
    apply find_Some in Hf' as [Hin E%bool_decide_eq_true]. cbn in E, Hl. subst n. exists c. split_and!; eauto.
  - intros (child & Hin & Hg & Hr & nd & Hl & He). split; [split; congruence | ]. exists nd. split; [ | done].
    rewrite (proj2 (find_child children name child Hn) Hin). done.
Qed.

Lemma child_path_nonempty relative name : name ≠ [] → child_path relative name ≠ [].
Proof. by destruct relative. Qed.

Lemma walk_dir children relative b entries :
  walkTree (FsDir children) relative b = Ok entries →
  ∃ below, sequence_walk (js_sort (λ x y, str_cmp x.1 y.1) (walk_children relative b children)) = Ok below ∧
    entries = match relative with [] => [] | _ => [{| content := None; kind := Directory; path := relative |}] end ++ below.
Proof. cbn [walkTree]. destruct (_ <? _); [done | ]. intros (below & Hb & [= <-])%bind_Ok. by exists below. Qed.

Lemma walk_dir_below children relative b below e :
  fs_ok (FsDir children) →
  Forall (λ nc, ∀ relative entries, relative ≠ [] → fs_ok nc.2 → walkTree nc.2 relative b = Ok entries →
            ∀ e, e ∈ entries ↔ ∃ segments, reached nc.2 relative segments e) children →
  sequence_walk (js_sort (λ x y, str_cmp x.1 y.1) (walk_children relative b children)) = Ok below →
  e ∈ below ↔ ∃ segments, segments ≠ [] ∧ reached (FsDir children) relative segments e.
Proof.
  intros Hok IH Hs. destruct (fs_ok_dir _ Hok) as [Hn Hall]. destruct (sequence_walk_Ok _ _ Hs) as [Hm Hr].
  rewrite Forall_forall in IH. rewrite Hm. split.
  - intros (name & r & Hin & He). rewrite js_sort_perm in Hin. apply walk_children_elem in Hin as (child & Hin & Hg & Hw).
    destruct (Hall _ _ Hin) as [Hne Hc].
    apply (IH _ Hin _ r (child_path_nonempty relative name Hne) Hc (eq_sym Hw)) in He as [rest Hreach].
    exists (name :: rest). split; [done | ]. apply reached_child; eauto.
  - intros ([ | name rest] & Hseg & Hreach); [done | ]. apply reached_child in Hreach as (child & Hin & Hg & Hreach); [ | done].
    destruct (Hall _ _ Hin) as [Hne Hc].
    assert (Hel : (name, walkTree child (child_path relative name) b) ∈
                  js_sort (λ x y, str_cmp x.1 y.1) (walk_children relative b children)).
    { rewrite js_sort_perm. apply walk_children_elem. eauto. }
    pose proof (Hr _ _ Hel) as Hisok. destruct (walkTree child (child_path relative name) b) as [r | ] eqn:Hw; [ | done].
    exists name, r. split; [done | ]. eapply (IH _ Hin); [by apply child_path_nonempty | done | exact Hw | eauto].
Qed.

Lemma walk_reaches node b : ∀ relative entries,
  relative ≠ [] → fs_ok node → walkTree node relative b = Ok entries →
  ∀ e, e ∈ entries ↔ ∃ segments, reached node relative segments e.
Proof.
  induction node as [ | children IH | mode bytes | ] using FsNode_nested_ind; intros relative entries Hrel Hok Hw e; try done.
  - destruct (walk_dir _ _ _ _ Hw) as (below & Hs & ->). rewrite elem_of_app, (walk_dir_below _ _ _ _ _ Hok IH Hs).
    split.
    + intros [He | (segs & _ & Hr)]; [ | eauto]. exists []. split; [apply not_elem_of_nil | ]. eexists. split; [done | ].
      destruct relative; [done | ]. by apply list_elem_of_singleton in He as ->.
    + intros ([ | name rest] & Hr); [left | right; by exists (name :: rest)]. destruct Hr as (_ & nd & [= <-] & [= <-]).
      destruct relative; [done | ]. by left.
  - cbn in Hw. injection Hw as <-. rewrite list_elem_of_singleton. split.
    + intros ->. exists []. split; [apply not_elem_of_nil | ]. by eexists.
    + intros ([ | name rest] & _ & nd & Hl & He); [ | done]. injection Hl as <-. by injection He as <-.
Qed.

(** A successful walk of a directory collects exactly what is below it: one entry for every directory
    and regular file that can be reached without entering a [.git] segment, with its path, kind and
    bytes, and nothing else. *)
Theorem walk_collects_the_tree children b entries :
  fs_ok (FsDir children) → walkTree (FsDir children) [] b = Ok entries →
  ∀ e, e ∈ entries ↔ ∃ segments, segments ≠ [] ∧ reached (FsDir children) [] segments e.
Proof.
  intros Hok Hw e. destruct (walk_dir _ _ _ _ Hw) as (below & Hs & ->). cbn [app]. apply (walk_dir_below children [] b); try done.
  apply Forall_forall. intros nc _ relative entries Hrel Hc Hwc. by apply (walk_reaches nc.2 b).
Qed.
End Tree.

Module TreeDemo.
Definition plain (p : string) (bytes : list Z) : OpenKitTreeEntry :=
  {| content := Some bytes; kind := PlainFile; path := js p |}.
Definition dir (p : string) : OpenKitTreeEntry := {| content := None; kind := Directory; path := js p |}.
Definition entries : list OpenKitTreeEntry := [plain "src/main.ts" [1; 2]; dir "src"; plain "README" []].
Definition reordered : list OpenKitTreeEntry := [dir "src"; plain "README" []; plain "src/main.ts" [1; 2]].
Definition same : jsstr → jsstr := λ s, s.
Definition frame_of (l : list OpenKitTreeEntry) : list Z :=
  match normalizeTreeEntries same l DEFAULT_BOUNDS with
  | Ok n => match frame_tree n with Ok f => f | Err _ => [] end
  | Err _ => []
  end.
Definition normalized (l : list OpenKitTreeEntry) : list OpenKitTreeEntry :=
  match normalizeTreeEntries same l DEFAULT_BOUNDS with Ok n => n | Err _ => [] end.
Definition repository : list (jsstr * FsNode) :=
  [(js "src", FsDir [(js "main.ts", FsFile 420 [1; 2]); (js "link", FsDir [])]);
   (js ".git", FsDir [(js "HEAD", FsLink)]); (js "run", FsFile 493 [7])].

Example walk_skips_git :
  match walkTree (FsDir repository) [] DEFAULT_BOUNDS with Ok l => path <$> l | Err _ => [] end
  = [js "run"; js "src"; js "src/link"; js "src/main.ts"].
Proof. by vm_compute. Qed.
End TreeDemo.

Lemma tree_framing_identifies_the_tree_witness :
  TreeDemo.frame_of TreeDemo.entries = TreeDemo.frame_of TreeDemo.reordered.
Proof.
  apply (tree_framing_identifies_the_tree TreeDemo.same TreeDemo.entries TreeDemo.reordered DEFAULT_BOUNDS DEFAULT_BOUNDS
           (TreeDemo.normalized TreeDemo.entries) (TreeDemo.normalized TreeDemo.reordered)).
  - apply (bool_decide_unpack _). by vm_compute.
  - apply (bool_decide_unpack _). by vm_compute.
  - by vm_compute.
  - by vm_compute.
  - by vm_compute.
  - by vm_compute.
  - unfold TreeDemo.entries, TreeDemo.reordered. cbn [fmap list_fmap].
    etransitivity; [apply perm_swap | ]. apply perm_skip, perm_swap.
Defined.

Lemma tree_digest_order_independent_witness :
  ∃ d, ∀ k, TreeDemo.entries ≡ₚ k → hashOpenKitTreeEntries TreeDemo.same (λ bytes, bytes) k DEFAULT_BOUNDS = Ok d.
Proof.
  apply (tree_digest_order_independent TreeDemo.same (λ bytes, bytes) TreeDemo.entries DEFAULT_BOUNDS
           (TreeDemo.normalized TreeDemo.entries)).
  - apply (bool_decide_unpack _). by vm_compute.
  - done.
  - done.
  - by vm_compute.
Defined.

Lemma walk_collects_the_tree_witness :
  ∃ entries, walkTree (FsDir TreeDemo.repository) [] DEFAULT_BOUNDS = Ok entries ∧
    ∀ e, e ∈ entries ↔ ∃ segments, segments ≠ [] ∧ reached (FsDir TreeDemo.repository) [] segments e.
Proof.
  destruct (walkTree (FsDir TreeDemo.repository) [] DEFAULT_BOUNDS) as [entries | e] eqn:E; [ | by vm_compute in E].
  exists entries. split; [done | ].
  apply (walk_collects_the_tree TreeDemo.repository DEFAULT_BOUNDS entries).
  - cbn [fs_ok TreeDemo.repository]. repeat split; try done; apply (bool_decide_unpack _); by vm_compute.
  - exact E.
Defined.
