(* ===== verification/MoveMapping.v ===== *)
(** * Workspace move account mapping (nanocore/src/storage/workspace-move-mapping.ts)

    The validation of the explicit account mapping of a workspace move: which source accounts map to which
    target accounts, under supplied account facts.  A refusal names a reason and the position of the
    field; positions are constructors instead of their text. *)

From S2P Require Import Prelude JsValue CanonicalJson Sha1 EntityId.

Local Open Scope string_scope.
Local Open Scope list_scope.
Local Open Scope Z_scope.

Record WorkspaceMoveMemberMapping := { sourceAccountId : jsstr; targetAccountId : jsstr }.
#[export] Instance WorkspaceMoveMemberMapping_eq_dec : EqDecision WorkspaceMoveMemberMapping.
Proof. solve_decision. Defined.

Record MoveManifest := {
  sourceDeploymentId : jsstr;
  mv_workspaceId : jsstr;
  backupId : jsstr;
  ownerId : jsstr;
  memberIds : list jsstr;
}.

Record TargetAccount := { accountId : jsstr; active_status : bool }.

Record WorkspaceMoveMappingInput := {
  mv_manifest : MoveManifest;
  manifestDigest : jsstr;
  importingAdministratorId : jsstr;
  targetOwnerId : option jsstr;
  memberMappings : list WorkspaceMoveMemberMapping;
  targetAccounts : list TargetAccount;
}.

Inductive WorkspaceMoveMappingRefusalReason :=
| InvalidAccountIdentity
| DuplicateSourceAccountMapping
| NonInjectiveAccountMapping
| UnknownSourceAccount
| TargetOwnerUnavailable
| TargetMemberUnavailable.

Inductive RefusalField := AtAdministrator | AtOwner | AtSource (index : nat) | AtTarget (index : nat).
Definition WorkspaceMoveMappingRefusal : Type := WorkspaceMoveMappingRefusalReason * RefusalField.

Inductive WorkspaceMoveMappingReport :=
| Ready (resolvedTargetOwnerId : jsstr) (mappings : list WorkspaceMoveMemberMapping) (droppedSourceMemberIds : list jsstr)
| Refused (refusals : list WorkspaceMoveMappingRefusal).

Inductive MoveError := InvalidProvenance.

Definition is_account (value : jsstr) : bool := isEntityId "usr" (JStr value).

Definition digest_text (s : jsstr) : bool := matches_classes ((lit <$> js "sha256:") ++ replicate 64 is_hex) s.

(** [assertProvenance] *)
Definition provenance_ok (input : WorkspaceMoveMappingInput) : bool :=
  let manifest := mv_manifest input in
  isEntityId "dep" (JStr (sourceDeploymentId manifest)) && isEntityId "ws" (JStr (mv_workspaceId manifest))
  && isEntityId "wsbak" (JStr (backupId manifest)) && digest_text (manifestDigest input)
  && is_account (ownerId manifest) && forallb is_account (memberIds manifest)
  && bool_decide (length (dedup (memberIds manifest)) = length (memberIds manifest)).

(** The map [active]: an account is usable when it has a fact and no fact contradicts it. *)
Definition active_accounts (facts : list TargetAccount) : gmap jsstr bool :=
  foldl (λ m fact, <[accountId fact := active_status fact && default true (m !! accountId fact)]> m) ∅ facts.

Definition is_active (m : gmap jsstr bool) (account : jsstr) : bool := default false (m !! account).

Definition checkIdentity (value : jsstr) (field : RefusalField) : list WorkspaceMoveMappingRefusal :=
  if is_account value then [] else [(InvalidAccountIdentity, field)].

Definition resolved_owner (input : WorkspaceMoveMappingInput) : jsstr :=
  default (importingAdministratorId input) (targetOwnerId input).

Definition owner_refusals (m : gmap jsstr bool) (input : WorkspaceMoveMappingInput) : list WorkspaceMoveMappingRefusal :=
  checkIdentity (importingAdministratorId input) AtAdministrator ++
  if bool_decide (is_Some (targetOwnerId input)) || is_account (importingAdministratorId input) then
    checkIdentity (resolved_owner input) AtOwner ++
    if is_account (resolved_owner input) && negb (is_active m (resolved_owner input))
    then [(TargetOwnerUnavailable, AtOwner)] else []
  else [].

(** The first loop over the mappings, with the set [mappedSources]. *)
Fixpoint member_refusals (m : gmap jsstr bool) (sources mapped : list jsstr) (index : nat)
    (entries : list WorkspaceMoveMemberMapping) : list WorkspaceMoveMappingRefusal * list jsstr :=
  match entries with
  | [] => ([], mapped)
  | e :: rest =>
    let s := sourceAccountId e in
    let source_check := checkIdentity s (AtSource index) ++
      (if is_account s then
         if includes mapped s then [(DuplicateSourceAccountMapping, AtSource index)]
         else if negb (includes sources s) then [(UnknownSourceAccount, AtSource index)] else []
       else []) in
    let mapped := if is_account s then set_add s mapped else mapped in
    let target_check := checkIdentity (targetAccountId e) (AtTarget index) ++
      (if is_account (targetAccountId e) && negb (is_active m (targetAccountId e))
       then [(TargetMemberUnavailable, AtTarget index)] else []) in
    let '(below, mapped) := member_refusals m sources mapped (S index) rest in
    (source_check ++ target_check ++ below, mapped)
  end.

(** The second loop: a target that already belongs to another source. *)
Fixpoint collision_refusals (targets : gmap jsstr jsstr) (index : nat) (entries : list WorkspaceMoveMemberMapping)
    : list WorkspaceMoveMappingRefusal :=
  match entries with
  | [] => []
  | e :: rest =>
    match targets !! targetAccountId e with
    | Some source =>
      if bool_decide (source ≠ sourceAccountId e)
      then (NonInjectiveAccountMapping, AtTarget index) :: collision_refusals targets (S index) rest
      else collision_refusals (<[targetAccountId e := sourceAccountId e]> targets) (S index) rest
    | None => collision_refusals (<[targetAccountId e := sourceAccountId e]> targets) (S index) rest
    end
  end.

Definition source_cmp (left right : WorkspaceMoveMemberMapping) : Z := str_cmp (sourceAccountId left) (sourceAccountId right).

Definition validateWorkspaceMoveMapping (input : WorkspaceMoveMappingInput) : result MoveError WorkspaceMoveMappingReport :=
  require provenance_ok input else InvalidProvenance;
  let manifest := mv_manifest input in
  let active := active_accounts (targetAccounts input) in
  let sources := dedup (ownerId manifest :: memberIds manifest) in
  let '(members, mapped) := member_refusals active sources [] 0 (memberMappings input) in
  let refusals := owner_refusals active input ++ members in
  let refusals :=
    match refusals with
    | [] => collision_refusals {[resolved_owner input := ownerId manifest]} 0 (memberMappings input)
    | _ => refusals
    end in
  Ok (match refusals with
      | [] => Ready (resolved_owner input) (js_sort source_cmp (memberMappings input))
                (js_sort str_cmp (filterb (λ id, negb (includes mapped id)) (memberIds manifest)))
      | _ => Refused refusals
      end).

(** ** Specification *)

(** Every fact about the account says that it is active, and there is one. *)
Definition usable (facts : list TargetAccount) (account : jsstr) : Prop :=
  (∃ f, f ∈ facts ∧ accountId f = account) ∧ ∀ f, f ∈ facts → accountId f = account → active_status f = true.

(** The pairs that must not send two sources to one target: the owner's and the explicit ones. *)
Definition account_pairs (input : WorkspaceMoveMappingInput) : list (jsstr * jsstr) :=
  (ownerId (mv_manifest input), resolved_owner input)
  :: ((λ e, (sourceAccountId e, targetAccountId e)) <$> memberMappings input).

Record mapping_ok (input : WorkspaceMoveMappingInput) : Prop := {
  mo_administrator : is_account (importingAdministratorId input) = true;
  mo_owner : is_account (resolved_owner input) = true ∧ usable (targetAccounts input) (resolved_owner input);
  mo_sources : ∀ e, e ∈ memberMappings input → is_account (sourceAccountId e) = true ∧
    sourceAccountId e ∈ ownerId (mv_manifest input) :: memberIds (mv_manifest input);
  mo_functional : NoDup (sourceAccountId <$> memberMappings input);
  mo_targets : ∀ e, e ∈ memberMappings input → is_account (targetAccountId e) = true ∧
    usable (targetAccounts input) (targetAccountId e);
  mo_injective : ∀ s s' t, (s, t) ∈ account_pairs input → (s', t) ∈ account_pairs input → s = s';
}.

Lemma active_snoc facts f :
  active_accounts (facts ++ [f]) =
  <[accountId f := active_status f && default true (active_accounts facts !! accountId f)]> (active_accounts facts).
Proof. unfold active_accounts. by rewrite foldl_app. Qed.

(** The map knows exactly the accounts with a fact. *)
Lemma active_domain facts account :
  is_Some (active_accounts facts !! account) ↔ ∃ f, f ∈ facts ∧ accountId f = account.
Proof.
  induction facts as [ | f facts IH] using rev_ind.
  - split; [by intros [? ?] | by intros (f & ?%not_elem_of_nil & _)].
  - rewrite active_snoc, lookup_insert_is_Some, IH. setoid_rewrite elem_of_app. setoid_rewrite list_elem_of_singleton. split.
    + intros [E | [_ (g & ? & ?)]]; [exists f; auto | exists g; auto].
    + intros (g & [Hg | ->] & Ha); [ | by left]. destruct (decide (accountId f = account)); [by left | right; eauto].
Qed.

Lemma active_spec facts account : is_active (active_accounts facts) account = true ↔ usable facts account.
Proof.
  unfold usable. rewrite <- active_domain. unfold is_active. induction facts as [ | f facts IH] using rev_ind.
  - split; [done | by intros [[? ?] _]].
  - rewrite active_snoc. setoid_rewrite elem_of_app. setoid_rewrite list_elem_of_singleton.
    destruct (decide (accountId f = account)) as [<- | Hne].
    + rewrite lookup_insert_eq. cbn [from_option id]. rewrite andb_true_iff. pose proof (active_domain facts (accountId f)) as Hd.
      destruct (active_accounts facts !! accountId f) as [v | ]; cbn [from_option id] in *; split.
      * intros [Hs ->]. split; [done | ]. intros g [Hg | ->]; [apply IH; done | done].
      * intros [_ Hall]. split; [auto | ]. apply IH. split; [done | auto].
      * intros [Hs _]. split; [done | ]. intros g [Hg | ->] Ha; [ | done]. exfalso.
        destruct (proj2 Hd) as [? ?]; [eauto | done].
      * intros [_ Hall]. auto.
    + rewrite lookup_insert_ne by done. rewrite IH. split; intros [Hs Hall]; (split; [done | ]); intros g.
      * intros [Hg | ->] Ha; [auto | done].
      * intros Hg. apply Hall. auto.
Qed.

Lemma checkIdentity_nil v f : checkIdentity v f = [] ↔ is_account v = true.
Proof. unfold checkIdentity. by destruct (is_account v). Qed.

Lemma owner_refusals_nil facts input :
  owner_refusals (active_accounts facts) input = [] ↔
  is_account (importingAdministratorId input) = true ∧ is_account (resolved_owner input) = true ∧ usable facts (resolved_owner input).
Proof.
  unfold owner_refusals. rewrite app_nil, checkIdentity_nil, <- active_spec.
  destruct (is_account (importingAdministratorId input)); [ | by split; intros [? _]]. rewrite orb_true_r, app_nil, checkIdentity_nil.
  destruct (is_account (resolved_owner input)); [ | by split; intros (_ & ? & _)]. cbn.
  destruct (is_active _ _); cbn; split; try done; by intros (_ & _ & ?).
Qed.

(** What the first loop accepts. *)
Definition entry_valid (m : gmap jsstr bool) (sources : list jsstr) (e : WorkspaceMoveMemberMapping) : Prop :=
  is_account (sourceAccountId e) = true ∧ sourceAccountId e ∈ sources ∧
  is_account (targetAccountId e) = true ∧ is_active m (targetAccountId e) = true.

Lemma member_refusals_nil m sources l : ∀ mapped index,
  (member_refusals m sources mapped index l).1 = [] ↔
  Forall (entry_valid m sources) l ∧ NoDup (sourceAccountId <$> l) ∧ ∀ s, s ∈ sourceAccountId <$> l → s ∉ mapped.
Proof.
  induction l as [ | e l IH]; intros mapped index; cbn [member_refusals].
  { split; [intros _ | done]. split_and!; [constructor.. | ]. by intros s ?%not_elem_of_nil. }
  set (mapped' := if is_account (sourceAccountId e) then set_add (sourceAccountId e) mapped else mapped).
  specialize (IH mapped' (S index)). destruct (member_refusals m sources mapped' (S index) l) as [below final]. cbn [fst] in *.
  rewrite !app_nil, !checkIdentity_nil, IH. cbn [fmap list_fmap]. rewrite Forall_cons, NoDup_cons.
  unfold entry_valid at 2. destruct (is_account (sourceAccountId e)) eqn:Es; [ | split; [by intros [[? _] _] | by intros ([(? & _) _] & _)]].
  destruct (is_account (targetAccountId e)) eqn:Et; [ | split; [by intros (_ & [? _] & _) | by intros ([(_ & _ & ? & _) _] & _)]].
  cbn [andb].
  assert (Hm : ∀ s, s ∈ mapped' ↔ s = sourceAccountId e ∨ s ∈ mapped).
  { intros s. unfold mapped'. rewrite elem_of_set_add. tauto. }
  assert (Hfresh : (∀ s, s ∈ sourceAccountId <$> l → s ∉ mapped') ↔
                   sourceAccountId e ∉ sourceAccountId <$> l ∧ ∀ s, s ∈ sourceAccountId <$> l → s ∉ mapped).
  { split.
    - intros H. split; [intros Hin; apply (H _ Hin), Hm; by left | ]. intros s Hs Hin. apply (H s Hs), Hm. by right.
    - intros [H1 H2] s Hs [-> | Hin]%Hm; [done | by apply (H2 s)]. }
  rewrite Hfresh. setoid_rewrite elem_of_cons. unfold includes. case_bool_decide as Hi.
  - split; [by intros [[_ ?] _] | ]. intros (_ & _ & H). exfalso. by apply (H (sourceAccountId e)); [left | ].
  - case_bool_decide as Hs; cbn [negb]; [ | split; [by intros [[_ ?] _] | ]; by intros ([(_ & ? & _) _] & _)].
    destruct (is_active m (targetAccountId e)); cbn [negb]; [ | split; [by intros (_ & [_ ?] & _) | by intros ([(_ & _ & _ & ?) _] & _)]].
    split.
    + intros (_ & _ & HF & HN & Hne & Hin). split_and!; try done. intros s [-> | Hs']; [done | auto].
    + intros ([_ HF] & [Hne HN] & Hin). split_and!; try done. intros s Hs'. auto.
Qed.

Lemma member_refusals_mapped m sources l : ∀ mapped index s,
  Forall (entry_valid m sources) l →
  s ∈ (member_refusals m sources mapped index l).2 ↔ s ∈ mapped ∨ s ∈ sourceAccountId <$> l.
Proof.
  induction l as [ | e l IH]; intros mapped index s Hv; cbn [member_refusals].
  { cbn. rewrite elem_of_nil. tauto. }
  apply Forall_cons in Hv as [He Hv]. rewrite (proj1 He).
  specialize (IH (set_add (sourceAccountId e) mapped) (S index) s Hv).
  destruct (member_refusals m sources _ (S index) l) as [below final]. cbn [snd] in *. rewrite IH, elem_of_set_add.
  cbn [fmap list_fmap]. rewrite elem_of_cons. tauto.
Qed.

Lemma collision_refusals_nil l : ∀ targets index,
  collision_refusals targets index l = [] ↔
  (∀ e s, e ∈ l → targets !! targetAccountId e = Some s → s = sourceAccountId e) ∧
  (∀ e e', e ∈ l → e' ∈ l → targetAccountId e = targetAccountId e' → sourceAccountId e = sourceAccountId e').
Proof.
  induction l as [ | e l IH]; intros targets index; cbn [collision_refusals].
  { split; [intros _ | done]. split; intros *; by intros ?%not_elem_of_nil. }
  assert (Hstep : (∀ s, targets !! targetAccountId e = Some s → s = sourceAccountId e) →
    collision_refusals (<[targetAccountId e := sourceAccountId e]> targets) (S index) l = [] ↔
    (∀ e' s, e' ∈ e :: l → targets !! targetAccountId e' = Some s → s = sourceAccountId e') ∧
    (∀ e1 e2, e1 ∈ e :: l → e2 ∈ e :: l → targetAccountId e1 = targetAccountId e2 → sourceAccountId e1 = sourceAccountId e2)).
  { intros Hcur. rewrite IH. setoid_rewrite elem_of_cons. split.
    - intros [H1 H2].
      assert (Hhd : ∀ e', e' ∈ l → targetAccountId e = targetAccountId e' → sourceAccountId e = sourceAccountId e').
      { intros e' He' Et. apply (H1 e'); [done | ]. by rewrite Et, lookup_insert_eq. }
      split.
      + intros e' s [-> | He'] Hl; [auto | ]. destruct (decide (targetAccountId e = targetAccountId e')) as [Et | Hn].
        * rewrite <- (Hhd e' He' Et). apply Hcur. by rewrite Et.
        * apply (H1 e'); [done | ]. by rewrite lookup_insert_ne.
      + intros e1 e2 [-> | He1] [-> | He2] Et; [done | auto | symmetry; auto | auto].
    - intros [H1 H2]. split; [ | intros e1 e2 ? ?; apply H2; auto]. intros e' s He' Hl.
      destruct (decide (targetAccountId e = targetAccountId e')) as [Et | Hn].
      + rewrite Et, lookup_insert_eq in Hl. injection Hl as <-. apply H2; auto.
      + rewrite lookup_insert_ne in Hl by done. apply H1; auto. }
  destruct (targets !! targetAccountId e) as [source | ] eqn:Hl; [ | apply Hstep; intros s E; discriminate E].
  case_bool_decide as Hs; [ | apply Hstep; intros s E; injection E as <-; apply dec_stable; tauto].
  split; [done | ]. intros [H1 _]. exfalso. apply Hs. apply (H1 e); [by left | done].
Qed.

(** The refusals of the two loops and of the owner are empty exactly for a valid mapping. *)
Lemma no_refusals_iff input :
  let active := active_accounts (targetAccounts input) in
  let sources := dedup (ownerId (mv_manifest input) :: memberIds (mv_manifest input)) in
  (owner_refusals active input = [] ∧ (member_refusals active sources [] 0 (memberMappings input)).1 = [] ∧
   collision_refusals {[resolved_owner input := ownerId (mv_manifest input)]} 0 (memberMappings input) = []) ↔ mapping_ok input.
Proof.
  intros active sources. unfold active. rewrite (owner_refusals_nil (targetAccounts input)), member_refusals_nil, collision_refusals_nil.
  rewrite Forall_forall. unfold entry_valid. split.
  - intros ((Ha & Ho & Hu) & (Hv & Hn & _) & H1 & H2). split; [done | done | | done | | ].
    + intros e He. destruct (Hv e He) as (? & Hs & _). split; [done | ]. unfold sources in Hs. by rewrite elem_of_dedup in Hs.
    + intros e He. destruct (Hv e He) as (_ & _ & ? & ?). split; [done | by apply active_spec].
    + assert (Hmix : ∀ e t, e ∈ memberMappings input → targetAccountId e = t → t = resolved_owner input →
                ownerId (mv_manifest input) = sourceAccountId e).
      { intros e t He <- Et. apply (H1 e); [done | ]. by rewrite Et, lookup_singleton_eq. }
      intros s s' t. unfold account_pairs. rewrite !elem_of_cons, !list_elem_of_fmap.
      intros [E | (e & E & He)] [E' | (e' & E' & He')]; injection E as -> Et; injection E' as -> Et'; [done | | symmetry | ].
      * apply (Hmix e' t); congruence.
      * apply (Hmix e t); congruence.
      * apply H2; congruence.
  - intros [Ha [Ho Hu] Hs Hn Ht Hi].
    assert (Hpair : ∀ e, e ∈ memberMappings input → (sourceAccountId e, targetAccountId e) ∈ account_pairs input).
    { intros e He. unfold account_pairs. right. apply list_elem_of_fmap. by exists e. }
    split_and!; try done.
    + intros e He. destruct (Hs e He), (Ht e He) as [? Hue]. split_and!; [done | unfold sources; by rewrite elem_of_dedup | done | by apply active_spec].
    + by intros s _ ?%not_elem_of_nil.
    + intros e s He Hl. apply lookup_singleton_Some in Hl as [Er <-]. apply (Hi _ _ (targetAccountId e)); [ | auto].
      rewrite <- Er. by left.
    + intros e e' He He' Et. apply (Hi _ _ (targetAccountId e)); [auto | ]. rewrite Et. auto.
Qed.

Lemma filterb_ext {A} (p q : A → bool) l : (∀ x, p x = q x) → filterb p l = filterb q l.
Proof. intros H. induction l as [ | x l IH]; cbn; [done | ]. by rewrite H, IH. Qed.

Lemma validate_ready_iff input o maps dropped :
  validateWorkspaceMoveMapping input = Ok (Ready o maps dropped) ↔
  provenance_ok input = true ∧ mapping_ok input ∧ o = resolved_owner input ∧
  maps = js_sort source_cmp (memberMappings input) ∧
  dropped = js_sort str_cmp (filterb (λ id, negb (includes (sourceAccountId <$> memberMappings input) id)) (memberIds (mv_manifest input))).
Proof.
  unfold validateWorkspaceMoveMapping. destruct (provenance_ok input); [ | split; [done | by intros [? _]]].
  pose proof (no_refusals_iff input) as Hno. cbn zeta in Hno.
  set (active := active_accounts _) in *. set (sources := dedup _) in *.
  pose proof (member_refusals_nil active sources (memberMappings input) [] 0) as Hnil.
  pose proof (member_refusals_mapped active sources (memberMappings input) [] 0) as Hmapped.
  destruct (member_refusals active sources [] 0 (memberMappings input)) as [members mapped]. cbn [fst snd] in *.
  destruct (owner_refusals active input) as [ | r owners]; cbn [app];
    [ | split; [done | ]; intros (_ & Hok & _); by apply Hno in Hok as [? _]].
  destruct members as [ | r members]; [ | split; [done | ]; intros (_ & Hok & _); by apply Hno in Hok as (_ & ? & _)].
  destruct (collision_refusals _ _ _); [ | split; [done | ]; intros (_ & Hok & _); by apply Hno in Hok as (_ & _ & ?)].
  assert (Heq : filterb (λ id, negb (includes mapped id)) (memberIds (mv_manifest input)) =
                filterb (λ id, negb (includes (sourceAccountId <$> memberMappings input) id)) (memberIds (mv_manifest input))).
  { destruct (proj1 Hnil eq_refl) as [Hv _]. apply filterb_ext. intros x. f_equal. unfold includes. apply bool_decide_ext.
    rewrite (Hmapped x Hv), elem_of_nil. tauto. }
  rewrite Heq. split.
  - intros [= <- <- <-]. split_and!; try done. by apply Hno.
  - by intros (_ & _ & -> & -> & ->).
Qed.

(** A mapping is valid in any order of its entries. *)
Lemma mapping_ok_perm input input' :
  mv_manifest input' = mv_manifest input → importingAdministratorId input' = importingAdministratorId input →
  targetOwnerId input' = targetOwnerId input → targetAccounts input' = targetAccounts input →
  memberMappings input ≡ₚ memberMappings input' → mapping_ok input → mapping_ok input'.
Proof.
  intros Em Ea Eo Et Hp [H1 H2 H3 H4 H5 H6].
  assert (Er : resolved_owner input' = resolved_owner input) by (unfold resolved_owner; by rewrite Ea, Eo).
  assert (Hpairs : account_pairs input' ≡ₚ account_pairs input).
  { unfold account_pairs. rewrite Em, Er. apply perm_skip. by rewrite Hp. }
  split; rewrite ?Em, ?Ea, ?Er, ?Et; try done.
  - intros e He. apply H3. by rewrite Hp.
  - by rewrite <- Hp.
  - intros e He. apply H5. by rewrite Hp.
  - intros s s' t. rewrite !Hpairs. apply H6.
Qed.

(** With valid provenance, a report is ready exactly when the mapping is valid: the administrator and
    the owner are canonical account identifiers, the owner and every target are known active accounts,
    every source is a distinct account of the manifest, and no two sources (the owner included) share a
    target.  A ready report lists the given pairs ordered by source, drops exactly the members
    that were not mapped, and does not depend on the order in which the mappings were given. *)
Theorem move_mapping_ready_iff_valid input :
  provenance_ok input = true →
  (mapping_ok input ↔ ∃ maps dropped, validateWorkspaceMoveMapping input = Ok (Ready (resolved_owner input) maps dropped)) ∧
  ∀ o maps dropped, validateWorkspaceMoveMapping input = Ok (Ready o maps dropped) →
    o = resolved_owner input ∧ maps ≡ₚ memberMappings input ∧ StronglySorted (cmp_le source_cmp) maps ∧
    (∀ id, id ∈ dropped ↔ id ∈ memberIds (mv_manifest input) ∧ id ∉ sourceAccountId <$> memberMappings input) ∧
    ∀ reordered, memberMappings input ≡ₚ reordered →
      validateWorkspaceMoveMapping
        {| mv_manifest := mv_manifest input; manifestDigest := manifestDigest input;
           importingAdministratorId := importingAdministratorId input; targetOwnerId := targetOwnerId input;
           memberMappings := reordered; targetAccounts := targetAccounts input |} = Ok (Ready o maps dropped).
Proof.
  intros Hprov. split.
  { split.
    - intros Hok. eexists _, _. by apply validate_ready_iff.
    - intros (maps & dropped & Hv). by apply validate_ready_iff in Hv as (_ & ? & _). }
  intros o maps dropped Hv. apply validate_ready_iff in Hv as (_ & Hok & -> & -> & ->). split_and!; try done.
  - apply js_sort_perm.
  - apply (keyed_sorted sourceAccountId).
  - intros id. rewrite js_sort_perm, elem_of_filterb, negb_true_iff. unfold includes. by rewrite bool_decide_eq_false.
  - intros reordered Hp. apply validate_ready_iff. cbn [memberMappings mv_manifest]. split_and!; try done.
    + by eapply (mapping_ok_perm input).
    + apply (keyed_sorted_unique sourceAccountId).
      * change (NoDup (sourceAccountId <$> js_sort source_cmp (memberMappings input))). rewrite js_sort_perm. apply mo_functional, Hok.
      * rewrite !js_sort_perm. done.
      * apply (keyed_sorted sourceAccountId).
      * apply (keyed_sorted sourceAccountId).
    + f_equal. apply filterb_ext. intros x. f_equal. unfold includes. apply bool_decide_ext. by rewrite Hp.
Qed.

Module MoveDemo.
Definition uuid (n : string) : string := "0190a1b2-c3d4-7e5f-8a6b-01234567890" +:+ n.
Definition account (n : string) : jsstr := js ("usr_" +:+ uuid n).
Definition input : WorkspaceMoveMappingInput :=
  {| mv_manifest := {| sourceDeploymentId := js ("dep_" +:+ uuid "1"); mv_workspaceId := js ("ws_" +:+ uuid "1");
                       backupId := js ("wsbak_" +:+ uuid "1"); ownerId := account "1"; memberIds := [account "3"; account "2"] |};
     manifestDigest := js "sha256:" ++ replicate 64 (cu "0"); importingAdministratorId := account "a"; targetOwnerId := None;
     memberMappings := [{| sourceAccountId := account "2"; targetAccountId := account "b" |}];
     targetAccounts := [{| accountId := account "a"; active_status := true |}; {| accountId := account "b"; active_status := true |}] |}.

Example demo_ready :
  validateWorkspaceMoveMapping input = Ok (Ready (account "a") (memberMappings input) [account "3"]).
Proof. by vm_compute. Qed.
End MoveDemo.

Lemma move_mapping_ready_iff_valid_witness :
  provenance_ok MoveDemo.input = true ∧ mapping_ok MoveDemo.input.
Proof.
  assert (Hp : provenance_ok MoveDemo.input = true) by (by vm_compute). split; [exact Hp | ].
  apply (move_mapping_ready_iff_valid MoveDemo.input Hp). eexists _, _. vm_compute. reflexivity.
Defined.
