(* ===== verification/SchemaAdmission.v ===== *)
(** * Light-app schema admission (apps/nanocore/src/generative-kernel/schema.ts and the authored
    schema of packages/app-api-schemas/src/light-apps.ts)

    The decoded proposal is the record [SchemaInput]; what its type does not say (names, limits,
    options, distinctness) is the boolean [schema_input_ok], the refinements of the Zod schema.  The
    encoded size of the proposal and the first Zod issue are parameters, and the identifiers that
    [allocateEntityId] returns are a supply indexed by the number of calls. *)

From Stdlib Require Import SpecFloat.
From S2P Require Import Prelude ObjectReference JsValue CanonicalJson EntityId LightAppKernel.

Local Open Scope string_scope.
Local Open Scope list_scope.
Local Open Scope Z_scope.

(** ** Authored schemas *)

Record FieldInput := {
  fi_id : option jsstr;
  fi_name : jsstr;
  fi_type : FieldType;
  fi_required : bool;
  fi_description : jsstr;
  fi_unit : option jsstr;
  fi_namespace : option jsstr;
  fi_options : option FieldOptions;
}.

Record CollectionInput := {
  ci_id : option jsstr;
  ci_name : jsstr;
  ci_description : jsstr;
  ci_fields : list FieldInput;
  ci_indexes : list AdmittedIndex;
}.

Record SchemaInput := {
  si_title : jsstr;
  si_purpose : jsstr;
  si_references : option (list jsstr);
  si_collections : list CollectionInput;
}.

#[export] Instance FieldInput_eq_dec : EqDecision FieldInput.
Proof. solve_decision. Defined.
#[export] Instance CollectionInput_eq_dec : EqDecision CollectionInput.
Proof. solve_decision. Defined.
#[export] Instance SchemaInput_eq_dec : EqDecision SchemaInput.
Proof. solve_decision. Defined.

(** ** Refinements of the authored schema *)

Definition is_name_char (c : Z) : bool := is_lower c || is_digit c || (c =? cu "_").

(** [/^[a-z][a-z0-9_]*$/], at most [maxNameLength] units. *)
Definition name_ok (name : jsstr) : bool :=
  (length name <=? maxNameLength)%nat &&
  match name with c :: r => is_lower c && forallb is_name_char r | [] => false end.

Definition LIGHT_APP_RESERVED_FIELD_NAMES : list jsstr :=
  [js "id"; js "created"; js "updated"; js "revision"].

Definition nonempty (s : jsstr) : bool := negb (bool_decide (s = [])).

(** [new Set(l).size === l.length] *)
Definition all_distinct (l : list jsstr) : bool := (length (dedup l) =? length l)%nat.

Definition absent {A} (o : option A) : bool := match o with None => true | Some _ => false end.
Definition absent_or {A} (p : A → bool) (o : option A) : bool :=
  match o with None => true | Some a => p a end.

(** The strict option objects: members of another type are unknown keys. *)
Definition text_options_ok (o : FieldOptions) : bool :=
  absent_or (λ max, (1 <=? max) && (max <=? maxTextBytes)) (opt_max_length o) &&
  absent (opt_onlyInt o) && absent (opt_min o) && absent (opt_max o) && absent (opt_values o) &&
  absent (opt_collection o).

Definition number_options_ok (o : FieldOptions) : bool :=
  absent_or is_finite_number (opt_min o) && absent_or is_finite_number (opt_max o) &&
  absent (opt_max_length o) && absent (opt_values o) && absent (opt_collection o).

Definition select_options_ok (o : FieldOptions) : bool :=
  match opt_values o with
  | Some values =>
    forallb nonempty values && (1 <=? length values)%nat && (length values <=? maxSelectValues)%nat &&
    all_distinct values
  | None => false
  end &&
  absent (opt_max_length o) && absent (opt_onlyInt o) && absent (opt_min o) && absent (opt_max o) &&
  absent (opt_collection o).

Definition relation_options_ok (o : FieldOptions) : bool :=
  match opt_collection o with Some c => nonempty c | None => false end &&
  absent (opt_max_length o) && absent (opt_onlyInt o) && absent (opt_min o) && absent (opt_max o) &&
  absent (opt_values o).

Definition options_ok (type : FieldType) (options : option FieldOptions) : bool :=
  match type with
  | FText => text_options_ok (default no_options options)
  | FNumber => number_options_ok (default no_options options)
  | FBool | FDate => absent options
  | FSelect => match options with Some o => select_options_ok o | None => false end
  | FRelation => match options with Some o => relation_options_ok o | None => false end
  end.

Definition field_input_ok (f : FieldInput) : bool :=
  absent_or (λ id, isEntityId "fld" (JStr id)) (fi_id f) &&
  name_ok (fi_name f) && absent_or nonempty (fi_unit f) && absent_or nonempty (fi_namespace f) &&
  negb (includes LIGHT_APP_RESERVED_FIELD_NAMES (fi_name f)) &&
  options_ok (fi_type f) (fi_options f).

Definition index_input_ok (i : AdmittedIndex) : bool :=
  forallb nonempty (ix_fields i) && (1 <=? length (ix_fields i))%nat &&
  (length (ix_fields i) <=? maxIndexFields)%nat.

(** [.map((x) => x.id).filter(Boolean)] *)
Definition present_ids (ids : list (option jsstr)) : list jsstr :=
  filterb nonempty (omap id ids).

Definition collection_input_ok (c : CollectionInput) : bool :=
  absent_or (λ id, isEntityId "col" (JStr id)) (ci_id c) &&
  name_ok (ci_name c) &&
  (1 <=? length (ci_fields c))%nat && (length (ci_fields c) <=? maxFields)%nat &&
  forallb field_input_ok (ci_fields c) &&
  (length (ci_indexes c) <=? maxIndexes)%nat && forallb index_input_ok (ci_indexes c) &&
  all_distinct (fi_name <$> ci_fields c) &&
  all_distinct (present_ids (fi_id <$> ci_fields c)).

Definition schema_input_ok (s : SchemaInput) : bool :=
  nonempty (si_title s) && absent_or (forallb meaningReferenceSchema) (si_references s) &&
  (1 <=? length (si_collections s))%nat && (length (si_collections s) <=? maxCollections)%nat &&
  forallb collection_input_ok (si_collections s) &&
  all_distinct (ci_name <$> si_collections s) &&
  all_distinct (present_ids (ci_id <$> si_collections s)).

(** ** Failures and the supply of identifiers *)

Section Admission.

Inductive AdmissionError :=
| Refused (e : KernelCommandError)
(** The final [parse] of the assembled definition throws a [ZodError]. *)
| InvalidDefinition
(** A property of [undefined] is read. *)
| TypeFailure.

Definition refuse {A} (code : KernelErrorCode) (message : jsstr) (details : KernelErrorDetails)
    : result AdmissionError A := Err (Refused (kernel_error code message details)).

(** [fresh n kind]: what the [n]-th call of [allocateEntityId] returns. *)
Context (fresh : nat → string → jsstr).

Definition admission (A : Type) : Type := nat → result AdmissionError (A * nat).

Definition abind {A B} (m : admission A) (k : A → admission B) : admission B :=
  λ n, match m n with Ok (a, n) => k a n | Err e => Err e end.
Definition aret {A} (a : A) : admission A := λ n, Ok (a, n).
Definition alift {A} (r : result AdmissionError A) : admission A :=
  λ n, match r with Ok a => Ok (a, n) | Err e => Err e end.
Definition allocate (kind : string) : admission jsstr := λ n, Ok (fresh n kind, S n).

(** [array.map] with an effectful callback. *)
Fixpoint amap {A B} (f : A → admission B) (l : list A) : admission (list B) :=
  match l with
  | [] => aret []
  | x :: l => abind (f x) (λ y, abind (amap f l) (λ ys, aret (y :: ys)))
  end.

(** ** Identity resolution *)

(** A requested identifier that is not [undefined] and not empty. *)
Definition requested (requestedId : option jsstr) : option jsstr :=
  match requestedId with Some (c :: r) => Some (c :: r) | _ => None end.

Definition resolveEntityId (requestedId : option jsstr) (name : jsstr) (existing : option SchemaInput)
    : admission jsstr :=
  let previous := existing ≫= λ e,
    find (λ c, bool_decide (ci_id c = requestedId) || bool_decide (ci_name c = name))
         (si_collections e) in
  match previous, requested requestedId with
  | Some _, None =>
    alift (refuse unsupported_operation (js "Existing collection IDs cannot be omitted.") no_details)
  | _, Some id =>
    if match existing with
       | Some e => existsb (λ c, bool_decide (ci_id c = Some id)) (si_collections e)
       | None => false
       end
    then aret id
    else alift (refuse validation_failed (js "New collection IDs must be omitted.")
                  (at_path (js "collections." ++ name ++ js ".id")))
  | None, None => allocate "col"
  end.

Definition resolveFieldId (requestedId : option jsstr) (name collectionId : jsstr)
    (existing : option SchemaInput) : admission jsstr :=
  let previousCollection := existing ≫= λ e,
    find (λ c, bool_decide (ci_id c = Some collectionId)) (si_collections e) in
  match previousCollection, requested requestedId with
  | Some p, None =>
    match find (λ f, bool_decide (fi_name f = name)) (ci_fields p) with
    | Some _ =>
      alift (refuse unsupported_operation (js "Existing field IDs cannot be omitted.") no_details)
    | None => allocate "fld"
    end
  | _, Some id =>
    if match previousCollection with
       | Some p => existsb (λ f, bool_decide (fi_id f = Some id)) (ci_fields p)
       | None => false
       end
    then aret id
    else alift (refuse validation_failed (js "New field IDs must be omitted.")
                  (at_path (js "collections." ++ collectionId ++ js ".fields." ++ name ++ js ".id")))
  | None, None => allocate "fld"
  end.

Definition resolveSelector (selector : jsstr) (ids : gmap jsstr jsstr) (label : string)
    : result AdmissionError jsstr :=
  match requested (ids !! selector) with
  | Some resolved => Ok resolved
  | None => refuse validation_failed (js "Unknown " ++ js label ++ js " selector: " ++ selector ++ js ".")
              (at_path (js "schema"))
  end.

(** ** Evolution *)

(** [JSON.stringify(index)]; parsed indexes have their members in schema order. *)
Definition indexKey (index : AdmittedIndex) : jsstr :=
  js "{" ++ quote_string (js "fields") ++ js ":[" ++ join (js ",") (quote_string <$> ix_fields index)
  ++ js "]," ++ quote_string (js "unique") ++ js ":"
  ++ (if ix_unique index then js "true" else js "false") ++ js "}".

(** The checks of one surviving field against its previous declaration. *)
Definition check_surviving_field (match_ : CollectionInput) (previousField : FieldInput)
    : result AdmissionError unit :=
  match find (λ f, bool_decide (fi_id f = fi_id previousField)) (ci_fields match_) with
  | None => Ok tt
  | Some nextField =>
    if negb (bool_decide (fi_type nextField = fi_type previousField))
       || negb (Bool.eqb (fi_required nextField) (fi_required previousField))
    then refuse unsupported_operation (js "Changing field type or requiredness is unavailable.") no_details
    else if negb (bool_decide (fi_options nextField = fi_options previousField))
    then refuse unsupported_operation (js "Changing field options is unavailable.") no_details
    else Ok tt
  end.

Definition check_new_field (previous : CollectionInput) (field : FieldInput)
    : result AdmissionError unit :=
  if negb (existsb (λ prior, bool_decide (fi_id prior = fi_id field)) (ci_fields previous))
     && fi_required field
  then refuse unsupported_operation (js "New fields must be optional.") no_details
  else Ok tt.

(** A [for] loop whose body only throws. *)
Fixpoint check_all {A} (check : A → result AdmissionError unit) (l : list A)
    : result AdmissionError unit :=
  match l with
  | [] => Ok tt
  | x :: l => _ ← check x; check_all check l
  end.

Definition survives (match_ : CollectionInput) (index : AdmittedIndex) : bool :=
  forallb (λ id, includes (fi_id <$> ci_fields match_) (Some id)) (ix_fields index).

Definition check_previous (next : SchemaInput) (previous : CollectionInput)
    : result AdmissionError unit :=
  match find (λ c, bool_decide (ci_id c = ci_id previous)) (si_collections next) with
  | None => refuse unsupported_operation (js "Removing collections is unavailable.") no_details
  | Some match_ =>
    _ ← check_all (check_surviving_field match_) (ci_fields previous);
    let previousKeys := js_sort str_cmp (indexKey <$> filterb (survives match_) (ci_indexes previous)) in
    let nextKeys := js_sort str_cmp (indexKey <$> ci_indexes match_) in
    if negb (bool_decide (previousKeys = nextKeys))
    then refuse unsupported_operation
           (js "Surviving indexes cannot change; removing a field removes only its dependent indexes.")
           no_details
    else check_all (check_new_field previous) (ci_fields match_)
  end.

Definition assertSafeSchemaEvolution (next existing : SchemaInput) : result AdmissionError unit :=
  check_all (check_previous next) (si_collections existing).

(** ** Admission *)

(** [ids.set(name, id); ids.set(id, id)] *)
Definition set_id (name id : jsstr) (ids : gmap jsstr jsstr) : gmap jsstr jsstr :=
  <[id := id]> (<[name := id]> ids).

(** [...(value ? { key: value } : {})] *)
Definition keep_text (value : option jsstr) : option jsstr := requested value.

Definition resolve_options (field : FieldInput) (collectionIds : gmap jsstr jsstr)
    : result AdmissionError (option FieldOptions) :=
  match fi_type field with
  | FRelation =>
    match fi_options field ≫= opt_collection with
    | Some selector =>
      target ← resolveSelector selector collectionIds "relation collection";
      Ok (Some {| opt_max_length := None; opt_onlyInt := None; opt_min := None; opt_max := None;
                  opt_values := None; opt_collection := Some target |})
    | None => Err TypeFailure
    end
  | _ => Ok (fi_options field)
  end.

Definition admit_field (existing : option SchemaInput) (collectionIds : gmap jsstr jsstr)
    (collectionId : jsstr) (field : FieldInput) : admission FieldInput :=
  abind (resolveFieldId (fi_id field) (fi_name field) collectionId existing) (λ fieldId,
  abind (alift (resolve_options field collectionIds)) (λ options,
  aret {| fi_id := Some fieldId; fi_name := fi_name field; fi_type := fi_type field;
          fi_required := fi_required field; fi_description := fi_description field;
          fi_unit := keep_text (fi_unit field); fi_namespace := keep_text (fi_namespace field);
          fi_options := options |})).

(** The map the field loop has filled when the indexes are resolved. *)
Definition field_ids (fields : list FieldInput) : gmap jsstr jsstr :=
  foldl (λ ids f, set_id (fi_name f) (default [] (fi_id f)) ids) ∅ fields.

Definition admit_index (fieldIds : gmap jsstr jsstr) (index : AdmittedIndex)
    : result AdmissionError AdmittedIndex :=
  fields ← mapM (λ selector, resolveSelector selector fieldIds "index field") (ix_fields index);
  Ok {| ix_fields := fields; ix_unique := ix_unique index |}.

Definition admit_collection (existing : option SchemaInput) (collectionIds : gmap jsstr jsstr)
    (entry : CollectionInput * jsstr) : admission CollectionInput :=
  let '(collection, collectionId) := entry in
  abind (amap (admit_field existing collectionIds collectionId) (ci_fields collection)) (λ fields,
  abind (alift (mapM (admit_index (field_ids fields)) (ci_indexes collection))) (λ indexes,
  aret {| ci_id := Some collectionId; ci_name := ci_name collection;
          ci_description := ci_description collection; ci_fields := fields;
          ci_indexes := indexes |})).

Definition identify (existing : option SchemaInput) (collection : CollectionInput)
    : admission (CollectionInput * jsstr) :=
  abind (resolveEntityId (ci_id collection) (ci_name collection) existing)
    (λ collectionId, aret (collection, collectionId)).

Definition collection_ids (entries : list (CollectionInput * jsstr)) : gmap jsstr jsstr :=
  foldl (λ ids e, set_id (ci_name e.1) e.2 ids) ∅ entries.

(** [Buffer.byteLength(JSON.stringify(candidate))] and the first issue of a failed [safeParse]:
    its message and its path. *)
Context (encoded_bytes : SchemaInput → Z) (first_issue : SchemaInput → jsstr * jsstr).

Definition assemble (candidate : SchemaInput) (existing : option SchemaInput)
    : admission SchemaInput :=
  abind (amap (identify existing) (si_collections candidate)) (λ entries,
  abind (amap (admit_collection existing (collection_ids entries)) entries) (λ collections,
  aret {| si_title := si_title candidate; si_purpose := si_purpose candidate;
          si_references := Some (dedup (default [] (si_references candidate)));
          si_collections := collections |})).

Definition admitLightAppDefinition (candidate : SchemaInput) (existing : option SchemaInput)
    : result AdmissionError SchemaInput :=
  if maxSchemaBytes <? encoded_bytes candidate then
    refuse limit_exceeded (js "Schema exceeds 256 KiB.") (over_limit "schemaBytes" maxSchemaBytes)
  else if negb (schema_input_ok candidate) then
    let '(message, path) := first_issue candidate in
    refuse validation_failed message (at_path path)
  else
    '(admitted, _) ← assemble candidate existing 0%nat;
    if negb (schema_input_ok admitted) then Err InvalidDefinition
    else
      match existing with
      | Some e => _ ← assertSafeSchemaEvolution admitted e; Ok admitted
      | None => Ok admitted
      end.

(** ** The admitted document *)

Context (uuid_ok : jsstr → bool).

Definition admitted_field (f : FieldInput) : option AdmittedField :=
  id ← fi_id f;
  Some {| fd_id := id; fd_name := fi_name f; fd_type := fi_type f; fd_required := fi_required f;
          fd_description := fi_description f; fd_unit := fi_unit f; fd_namespace := fi_namespace f;
          fd_options := fi_options f |}.

Definition admitted_collection (c : CollectionInput) : option AdmittedCollection :=
  id ← ci_id c;
  fields ← mapM admitted_field (ci_fields c);
  if forallb (λ i, forallb (λ f, isEntityId "fld" (JStr f)) (ix_fields i)) (ci_indexes c)
  then Some {| cl_id := id; cl_name := ci_name c; cl_description := ci_description c;
               cl_fields := fields; cl_indexes := ci_indexes c |}
  else None.

(** The admitted schemas of a field and a collection, which check less than the authored ones. *)
Definition admitted_field_ok (f : FieldInput) : bool :=
  match fi_id f with Some id => isEntityId "fld" (JStr id) | None => false end &&
  name_ok (fi_name f) && absent_or nonempty (fi_unit f) && absent_or nonempty (fi_namespace f).
Definition admitted_index_ok (i : AdmittedIndex) : bool :=
  (1 <=? length (ix_fields i))%nat && (length (ix_fields i) <=? maxIndexFields)%nat.
Definition admitted_collection_ok (c : CollectionInput) : bool :=
  match ci_id c with Some id => isEntityId "col" (JStr id) | None => false end &&
  name_ok (ci_name c) &&
  (1 <=? length (ci_fields c))%nat && (length (ci_fields c) <=? maxFields)%nat &&
  forallb admitted_field_ok (ci_fields c) && forallb admitted_index_ok (ci_indexes c).

(** [LightAppAdmittedSchemaSchema.parse({ ...definition, appId, schemaRevision })] *)
Definition parseAdmittedSchema (definition : SchemaInput) (appId : jsstr) (schemaRevision : Z)
    : result AdmissionError AdmittedSchema :=
  match si_references definition, mapM admitted_collection (si_collections definition) with
  | Some references, Some collections =>
    if uuid_ok appId && (0 <? schemaRevision) && nonempty (si_title definition) && forallb meaningReferenceSchema references &&
       (1 <=? length collections)%nat && (length collections <=? maxCollections)%nat &&
       forallb admitted_collection_ok (si_collections definition) then
      Ok {| sm_appId := appId; sm_schemaRevision := schemaRevision; sm_title := si_title definition;
            sm_purpose := si_purpose definition; sm_references := references;
            sm_collections := collections |}
    else Err InvalidDefinition
  | _, _ => Err InvalidDefinition
  end.

Definition admitLightAppSchema (candidate : SchemaInput) (appId : jsstr) (schemaRevision : Z)
    (existing : option SchemaInput) : result AdmissionError AdmittedSchema :=
  definition ← admitLightAppDefinition candidate existing; parseAdmittedSchema definition appId schemaRevision.
End Admission.

(** ** Index keys are identities *)

(** Reads one escaped unit. *)
Definition undigit (a : Z) : Z := if a <? 58 then a - 48 else a - 87.
Definition unescape (s : jsstr) : option (Z * jsstr) :=
  match s with
  | h :: r =>
    if h =? BACKSLASH then
      match r with
      | k :: r =>
        if k =? cu "b" then Some (8, r) else if k =? cu "f" then Some (12, r)
        else if k =? cu "n" then Some (10, r) else if k =? cu "r" then Some (13, r)
        else if k =? cu "t" then Some (9, r)
        else if k =? cu "u" then
          match r with _ :: _ :: a :: b :: r => Some (undigit a * 16 + undigit b, r) | _ => None end
        else Some (k, r)
      | [] => None
      end
    else Some (h, r)
  | [] => None
  end.

Lemma undigit_hex d : undigit (hex_digit d) = d.
Proof.
  unfold undigit, hex_digit. destruct (d <? 10) eqn:E; bool_to_prop.
  - rewrite (proj2 (Z.ltb_lt _ _)); lia.
  - rewrite (proj2 (Z.ltb_ge _ _)); lia.
Qed.

Lemma unescape_escape c x : unescape (escape_unit c ++ x) = Some (c, x).
Proof.
  unfold escape_unit.
  destruct ((c =? QUOTE) || (c =? BACKSLASH)) eqn:E1.
  { apply orb_true_iff in E1 as [E1|E1]; bool_to_prop; subst; reflexivity. }
  apply orb_false_iff in E1 as [Hq Hb]. apply Z.eqb_neq in Hq, Hb.
  repeat match goal with
  | |- context [if c =? ?n then _ else _] =>
    let E := fresh "E" in destruct (c =? n) eqn:E; [bool_to_prop; subst; reflexivity|]
  end.
  destruct (c <? 32); cbn -[Z.div Z.modulo hex_digit undigit].
  - rewrite !undigit_hex. do 2 f_equal. rewrite (Z.div_mod c 16) at 3; lia.
  - rewrite (proj2 (Z.eqb_neq c BACKSLASH)) by done. reflexivity.
Qed.

Lemma escape_unit_inv c d x y : escape_unit c ++ x = escape_unit d ++ y → c = d ∧ x = y.
Proof.
  intros H. pose proof (unescape_escape c x) as H1. pose proof (unescape_escape d y) as H2.
  rewrite H in H1. split; congruence.
Qed.

Lemma escape_unit_head c : ∃ h t, escape_unit c = h :: t ∧ h ≠ QUOTE.
Proof.
  unfold escape_unit. repeat case_match; eexists _, _; (split; [reflexivity|]); bool_to_prop;
    unfold QUOTE, BACKSLASH in *; try lia; done.
Qed.

Lemma quote_body_inv s t x y :
  flat_map escape_unit s ++ QUOTE :: x = flat_map escape_unit t ++ QUOTE :: y → s = t ∧ x = y.
Proof.
  revert t. induction s as [|c s IH]; intros [|d t]; cbn [flat_map app].
  - intros [= ->]. done.
  - destruct (escape_unit_head d) as (h & k & -> & Hh). cbn. intros [= Hq _]. by destruct Hh.
  - destruct (escape_unit_head c) as (h & k & -> & Hh). cbn. intros [= Hq _]. by destruct Hh.
  - rewrite <-!app_assoc. intros [-> H]%escape_unit_inv. apply IH in H as [-> ->]. done.
Qed.

Lemma quote_string_inv s t x y :
  quote_string s ++ x = quote_string t ++ y → s = t ∧ x = y.
Proof.
  unfold quote_string. rewrite <-!app_assoc. cbn [app]. intros [= H]. by apply quote_body_inv in H.
Qed.

(** A separated list of quoted strings up to its bracket. *)
Lemma quoted_tail_inv l k x y :
  flat_map (λ q, js "," ++ q) (quote_string <$> l) ++ js "]" ++ x
  = flat_map (λ q, js "," ++ q) (quote_string <$> k) ++ js "]" ++ y → l = k ∧ x = y.
Proof.
  revert k. induction l as [|s l IH]; intros [|t k]; cbn [flat_map fmap list_fmap].
  - cbn. intros [= ->]. done.
  - cbn. discriminate.
  - cbn. discriminate.
  - rewrite <-!app_assoc. intros H. apply (app_inv_head (js ",")) in H.
    apply quote_string_inv in H as [-> H]. apply IH in H as [-> ->]. done.
Qed.

Lemma quoted_list_inv l k x y :
  join (js ",") (quote_string <$> l) ++ js "]" ++ x
  = join (js ",") (quote_string <$> k) ++ js "]" ++ y → l = k ∧ x = y.
Proof.
  destruct l as [|s l], k as [|t k]; cbn [join fmap list_fmap].
  - cbn. intros [= ->]. done.
  - cbn. discriminate.
  - cbn. discriminate.
  - rewrite <-!app_assoc. intros [-> H]%quote_string_inv. apply quoted_tail_inv in H as [-> ->]. done.
Qed.

#[export] Instance indexKey_inj : Inj (=) (=) indexKey.
Proof.
  intros [l u] [k v] H. unfold indexKey in H. cbn [ix_fields ix_unique] in H.
  do 3 (apply app_inv_head in H).
  replace (js "],") with (js "]" ++ js ",") in H by reflexivity. rewrite <-!app_assoc in H.
  apply quoted_list_inv in H as [-> H]. do 3 (apply app_inv_head in H).
  destruct u, v; done.
Qed.

(** Sorting texts makes permuted lists equal. *)
Lemma js_sort_perm_eq l k : js_sort str_cmp l = js_sort str_cmp k ↔ l ≡ₚ k.
Proof.
  split; intros H.
  - by rewrite <-(js_sort_perm str_cmp l), H, js_sort_perm.
  - apply (StronglySorted_unique_strong (cmp_le str_cmp)).
    + intros x y _ _ Hx Hy. apply str_cmp_eq. unfold cmp_le in *. apply str_cmp_antisym in Hy. lia.
    + apply (keyed_sorted id).
    + apply (keyed_sorted id).
    + by rewrite !js_sort_perm.
Qed.

Lemma fmap_perm_inj {A B} (f : A → B) `{!Inj (=) (=) f} l k : f <$> l ≡ₚ f <$> k ↔ l ≡ₚ k.
Proof.
  split; [|by intros ->]. intros H. apply Permutation_map_inv in H as (m & Hm & Hp).
  apply list_fmap_eq_inj in Hm; [|done]. by subst.
Qed.

Lemma sorted_keys_eq (l k : list AdmittedIndex) :
  js_sort str_cmp (indexKey <$> l) = js_sort str_cmp (indexKey <$> k) ↔ l ≡ₚ k.
Proof. rewrite js_sort_perm_eq. apply (fmap_perm_inj indexKey). Qed.

(** ** What a safe evolution is *)

(** A collection after an evolution, against the collection it was. *)
Record safe_collection (previous next : CollectionInput) : Prop := {
  sc_surviving : ∀ f g, f ∈ ci_fields previous → g ∈ ci_fields next → fi_id g = fi_id f →
    fi_type g = fi_type f ∧ fi_required g = fi_required f ∧ fi_options g = fi_options f;
  sc_new : ∀ g, g ∈ ci_fields next → (∀ f, f ∈ ci_fields previous → fi_id f ≠ fi_id g) →
    fi_required g = false;
  sc_indexes : ci_indexes next ≡ₚ
    filterb (λ i, forallb (λ id, includes (fi_id <$> ci_fields next) (Some id)) (ix_fields i))
      (ci_indexes previous);
}.

(** No collection is lost and every collection evolves safely. *)
Definition safe_evolution (next existing : SchemaInput) : Prop :=
  ∀ previous, previous ∈ si_collections existing →
    ∃ c, c ∈ si_collections next ∧ ci_id c = ci_id previous ∧ safe_collection previous c.

(** Identifiers are unique: of the collections, and of the fields of a collection. *)
Record unique_ids (s : SchemaInput) : Prop := {
  ui_collections : NoDup (ci_id <$> si_collections s);
  ui_fields : ∀ c, c ∈ si_collections s → NoDup (fi_id <$> ci_fields c);
}.

Lemma find_unique {A B} `{EqDecision B} (f : A → B) l x :
  NoDup (f <$> l) → x ∈ l → find (λ y, bool_decide (f y = f x)) l = Some x.
Proof.
  intros Hn Hx. destruct (find _ l) as [y|] eqn:E.
  - apply find_Some in E as [Hy E]. bool_to_prop. f_equal. by eapply NoDup_fmap_elem.
  - rewrite find_None in E. specialize (E x Hx). bool_to_prop. done.
Qed.

Lemma check_all_Ok {A} (check : A → result AdmissionError unit) l :
  check_all check l = Ok tt ↔ ∀ x, x ∈ l → check x = Ok tt.
Proof.
  induction l as [|x l IH]; cbn; [split; [intros _ x Hx; inversion Hx|done]|].
  destruct (check x) as [[]|] eqn:E; cbn; [rewrite IH|]; split.
  - intros H y [->|Hy]%elem_of_cons; auto.
  - intros H y Hy. apply H. by right.
  - done.
  - intros H. rewrite H in E; [done|left].
Qed.

Lemma check_surviving_Ok next f :
  NoDup (fi_id <$> ci_fields next) →
  check_surviving_field next f = Ok tt ↔
  ∀ g, g ∈ ci_fields next → fi_id g = fi_id f →
    fi_type g = fi_type f ∧ fi_required g = fi_required f ∧ fi_options g = fi_options f.
Proof.
  intros Hn. unfold check_surviving_field. destruct (find _ _) as [g|] eqn:E.
  - apply find_Some in E as [Hg E]. bool_to_prop.
    assert (Hu : ∀ h, h ∈ ci_fields next → fi_id h = fi_id f → h = g).
    { intros h Hh He. eapply (NoDup_fmap_elem fi_id); [exact Hn|done|done|congruence]. }
    split.
    + intros H h Hh He. rewrite (Hu h Hh He) in *. case_bool_decide as Ht; [|done].
      destruct (Bool.eqb _ _) eqn:Er; [|done]. cbn in H. case_bool_decide as Ho; [|done].
      apply eqb_prop in Er. done.
    + intros H. destruct (H g Hg E) as (Ht & Hr & Ho).
      rewrite (bool_decide_eq_true_2 _ Ht), (bool_decide_eq_true_2 _ Ho), Hr, eqb_reflx. done.
  - rewrite find_None in E. split; [|done]. intros _ g Hg He. specialize (E g Hg). by bool_to_prop.
Qed.

Lemma check_new_Ok previous g :
  check_new_field previous g = Ok tt ↔
  ((∀ f, f ∈ ci_fields previous → fi_id f ≠ fi_id g) → fi_required g = false).
Proof.
  unfold check_new_field. destruct (existsb _ _) eqn:E; cbn [negb andb].
  - split; [|done]. intros _ H. apply existsb_elem in E as (f & Hf & E). bool_to_prop.
    by destruct (H f Hf).
  - rewrite existsb_elem_false in E. destruct (fi_required g); [|done].
    split; [done|]. intros H. exfalso. discriminate H. intros f Hf He. specialize (E f Hf).
    by bool_to_prop.
Qed.

Lemma check_previous_Ok next previous :
  unique_ids next →
  check_previous next previous = Ok tt ↔
  ∃ c, c ∈ si_collections next ∧ ci_id c = ci_id previous ∧ safe_collection previous c.
Proof.
  intros [Uc Uf]. unfold check_previous. destruct (find _ _) as [c|] eqn:E; cycle 1.
  { split; [done|]. intros (c & Hc & He & _). rewrite find_None in E. specialize (E c Hc).
    by bool_to_prop. }
  apply find_Some in E as [Hc E]. bool_to_prop.
  assert (Hsafe : safe_collection previous c ↔
    check_all (check_surviving_field c) (ci_fields previous) = Ok tt ∧
    js_sort str_cmp (indexKey <$> filterb (survives c) (ci_indexes previous))
      = js_sort str_cmp (indexKey <$> ci_indexes c) ∧
    check_all (check_new_field previous) (ci_fields c) = Ok tt).
  { rewrite !check_all_Ok, sorted_keys_eq. setoid_rewrite check_new_Ok.
    setoid_rewrite check_surviving_Ok; [|by apply Uf]. split.
    - intros [H1 H2 H3]. split; [intros f Hf g Hg; by apply H1|]. split; [by symmetry|done].
    - intros (H1 & H2 & H3). split; [intros f g Hf Hg; by apply H1|done|by symmetry]. }
  assert (Hone : (∃ c', c' ∈ si_collections next ∧ ci_id c' = ci_id previous ∧
                        safe_collection previous c') ↔ safe_collection previous c).
  { split; [|by exists c]. intros (c' & Hc' & He & Hs).
    by rewrite (NoDup_fmap_elem ci_id _ c c' Uc Hc Hc' ltac:(congruence)). }
  rewrite Hone, Hsafe. destruct (check_all (check_surviving_field c) _) as [[]|] eqn:K; cbn;
    [|naive_solver].
  case_bool_decide; cbn; [|naive_solver]. naive_solver.
Qed.

Lemma evolution_Ok next existing :
  unique_ids next → assertSafeSchemaEvolution next existing = Ok tt ↔ safe_evolution next existing.
Proof.
  intros Hu. unfold assertSafeSchemaEvolution, safe_evolution. rewrite check_all_Ok.
  by setoid_rewrite (check_previous_Ok next _ Hu).
Qed.

(** ** Distinct identifiers and selector maps *)

Lemma all_distinct_NoDup l : all_distinct l = true → NoDup l.
Proof.
  unfold all_distinct. intros H%Nat.eqb_eq. by apply dedup_length_NoDup.
Qed.

Lemma present_all os :
  Forall (λ o, ∃ s, o = Some s ∧ nonempty s = true) os → Some <$> present_ids os = os.
Proof.
  unfold present_ids. induction 1 as [|o os (s & -> & Hs) _ IH]; [done|]. cbn. rewrite Hs. cbn.
  f_equal. exact IH.
Qed.

Lemma present_NoDup os :
  Forall (λ o, ∃ s, o = Some s ∧ nonempty s = true) os → all_distinct (present_ids os) = true → NoDup os.
Proof.
  intros Hf Hd. rewrite <-(present_all os Hf). apply NoDup_fmap; [apply _|]. by apply all_distinct_NoDup.
Qed.

Section IdMaps.
Context {A : Type} (name_of id_of : A → jsstr).

Definition id_map (m : gmap jsstr jsstr) (l : list A) : gmap jsstr jsstr :=
  foldl (λ ids x, set_id (name_of x) (id_of x) ids) m l.

Lemma id_map_value l : ∀ m k v,
  id_map m l !! k = Some v → m !! k = Some v ∨ ∃ x, x ∈ l ∧ v = id_of x.
Proof.
  induction l as [|x l IH]; intros m k v; cbn; [by left|]. intros H.
  apply IH in H as [H|(y & Hy & ->)]; [|right; exists y; split; [by right|done]].
  unfold set_id in H. rewrite !lookup_insert_Some in H.
  destruct H as [[_ <-]|(_ & [[_ <-]|[_ H]])]; [right|right|by left];
    (exists x; split; [left|done]).
Qed.

Lemma id_map_keep k l : ∀ m,
  (∀ y, y ∈ l → name_of y ≠ k) → m !! k = Some k → id_map m l !! k = Some k.
Proof.
  induction l as [|x l IH]; intros m Hn Hm; cbn; [done|]. apply IH.
  { intros y Hy. apply Hn. by right. }
  unfold set_id. destruct (decide (id_of x = k)) as [->|Hk]; [by rewrite lookup_insert_eq|].
  rewrite !lookup_insert_ne; [done|apply Hn; left|done].
Qed.

Lemma id_map_self x l : ∀ m,
  x ∈ l → (∀ y, y ∈ l → name_of y ≠ id_of x) → id_map m l !! id_of x = Some (id_of x).
Proof.
  induction l as [|y l IH]; intros m Hx Hn; [inversion Hx|]. cbn.
  apply elem_of_cons in Hx as [->|Hx].
  - apply id_map_keep; [intros z Hz; apply Hn; by right|]. unfold set_id. by rewrite lookup_insert_eq.
  - apply IH; [done|]. intros z Hz. apply Hn. by right.
Qed.
End IdMaps.

Lemma requested_Some o id : requested o = Some id ↔ o = Some id ∧ nonempty id = true.
Proof.
  destruct o as [[|c r]|]; cbn; split; try done.
  - by intros [[= <-] ?].
  - by intros [= <-].
  - by intros [[= <-] _].
  - by intros [? _].
Qed.

Lemma resolveSelector_Ok selector ids label id :
  resolveSelector selector ids label = Ok id ↔ ids !! selector = Some id ∧ nonempty id = true.
Proof.
  unfold resolveSelector, refuse. rewrite <-requested_Some. destruct (requested _); split; congruence.
Qed.

(** Entity identifiers are not empty and never valid names. *)
Lemma matches_lookup ps s i p :
  matches_classes ps s = true → ps !! i = Some p → ∃ c, s !! i = Some c ∧ p c = true.
Proof.
  revert s i. induction ps as [|q ps IH]; intros [|c s] i H Hi; try done.
  cbn in H. bool_to_prop. destruct i as [|i].
  - injection Hi as <-. by exists c.
  - cbn. by apply IH.
Qed.

Definition schema_kind (kind : string) : Prop := kind = "col" ∨ kind = "fld".

Lemma entity_dash kind id :
  schema_kind kind → isEntityId kind (JStr id) = true → id !! 12%nat = Some (cu "-").
Proof.
  intros Hk. unfold isEntityId. destruct (has_kind kind) eqn:K; [|done]. cbn [andb].
  unfold entityIdPattern. rewrite K. cbn [negb]. cbn zeta. intros H.
  apply (matches_lookup _ _ 12 (lit (cu "-"))) in H as (c & Hc & H); [|by destruct Hk as [->| ->]].
  unfold lit in H. apply Z.eqb_eq in H as ->. done.
Qed.

Lemma entity_nonempty kind id :
  schema_kind kind → isEntityId kind (JStr id) = true → nonempty id = true.
Proof.
  intros Hk H. apply entity_dash in H; [|done]. destruct id; [done|]. reflexivity.
Qed.

Lemma entity_not_name kind id name :
  schema_kind kind → isEntityId kind (JStr id) = true → name_ok name = true → name ≠ id.
Proof.
  intros Hk H Hn ->. apply entity_dash in H; [|done]. unfold name_ok in Hn. bool_to_prop.
  destruct id as [|c r]; [done|]. bool_to_prop. cbn in H.
  assert (Hc : cu "-" ∈ r) by (eapply list_elem_of_lookup_2; exact H).
  match goal with Hf : forallb is_name_char r = true |- _ => rewrite forallb_elem in Hf; specialize (Hf _ Hc) end.
  done.
Qed.

(** ** The assembled definition *)

Lemma abind_Ok {A B} (m : admission A) (k : A → admission B) n b n' :
  abind m k n = Ok (b, n') ↔ ∃ a n1, m n = Ok (a, n1) ∧ k a n1 = Ok (b, n').
Proof. unfold abind. destruct (m n) as [[a n1]|]; naive_solver. Qed.

Lemma alift_Ok {A} (r : result AdmissionError A) n a n' :
  alift r n = Ok (a, n') ↔ r = Ok a ∧ n' = n.
Proof. unfold alift. destruct r; naive_solver. Qed.

Lemma aret_Ok {A} (x : A) n a n' : aret x n = Ok (a, n') ↔ a = x ∧ n' = n.
Proof. unfold aret. naive_solver. Qed.

Lemma amap_Ok {A B} (f : A → admission B) l : ∀ n ks n',
  amap f l n = Ok (ks, n') → Forall2 (λ x y, ∃ a b, f x a = Ok (y, b)) l ks.
Proof.
  induction l as [|x l IH]; intros n ks n'; cbn.
  - intros [-> _]%aret_Ok. constructor.
  - intros (y & n1 & Hy & H)%abind_Ok. apply abind_Ok in H as (ys & n2 & Hys & H).
    apply aret_Ok in H as [-> _]. constructor; eauto.
Qed.

(** A map whose calls neither fail nor allocate. *)
Lemma amap_pure {A B} (f : A → admission B) (g : A → B) l n :
  (∀ x, x ∈ l → f x n = Ok (g x, n)) → amap f l n = Ok (g <$> l, n).
Proof.
  induction l as [|x l IH]; intros H; [done|]. cbn. apply abind_Ok. exists (g x), n.
  split; [apply H; left|]. apply abind_Ok. exists (g <$> l), n. split; [|done].
  apply IH. intros y Hy. apply H. by right.
Qed.

(** Every identity is assigned, and every selector is the identity of a declared target. *)
Record closed (s : SchemaInput) : Prop := {
  cs_collections : ∀ c, c ∈ si_collections s → is_Some (ci_id c);
  cs_fields : ∀ c f, c ∈ si_collections s → f ∈ ci_fields c → is_Some (fi_id f);
  cs_relations : ∀ c f, c ∈ si_collections s → f ∈ ci_fields c → fi_type f = FRelation →
    ∃ target, fi_options f ≫= opt_collection = Some target ∧
              Some target ∈ (ci_id <$> si_collections s);
  cs_indexes : ∀ c i id, c ∈ si_collections s → i ∈ ci_indexes c → id ∈ ix_fields i →
    Some id ∈ (fi_id <$> ci_fields c);
}.

(** The authored content that admission leaves alone. *)
Definition field_content (f : FieldInput) : jsstr * FieldType * bool * jsstr :=
  (fi_name f, fi_type f, fi_required f, fi_description f).
Definition collection_content (c : CollectionInput) :=
  (ci_name c, ci_description c, field_content <$> ci_fields c,
   (λ i, (ix_unique i, length (ix_fields i))) <$> ci_indexes c).

Lemma Forall2_fmap_eq {A B C} (R : A → B → Prop) (f : A → C) (g : B → C) l k :
  Forall2 R l k → (∀ x y, R x y → f x = g y) → f <$> l = g <$> k.
Proof. intros HF H. induction HF as [|x y l k Hxy _ IH]; [done|]. cbn. f_equal; [auto|exact IH]. Qed.

Section Assembled.
Context (fresh : nat → string → jsstr).

Lemma admit_field_Ok existing ids cid f n f' n' :
  admit_field fresh existing ids cid f n = Ok (f', n') →
  is_Some (fi_id f') ∧ field_content f = field_content f' ∧ resolve_options f ids = Ok (fi_options f').
Proof.
  unfold admit_field. intros (id & n1 & _ & H)%abind_Ok.
  apply abind_Ok in H as (o & n2 & Ho & H). apply alift_Ok in Ho as [Ho _].
  apply aret_Ok in H as [-> _]. cbn. split; [done|]. split; [done|]. done.
Qed.

Lemma resolve_options_relation f ids o :
  resolve_options f ids = Ok o → fi_type f = FRelation →
  ∃ target, o ≫= opt_collection = Some target ∧ ∃ selector, ids !! selector = Some target.
Proof.
  unfold resolve_options. intros H Ht. rewrite Ht in H. destruct (_ ≫= _) as [sel|]; [|done].
  apply bind_Ok in H as (t & Ht' & [= <-]). apply resolveSelector_Ok in Ht' as [Ht' _].
  exists t. split; [done|]. by exists sel.
Qed.

Lemma field_ids_value fields k v :
  (∀ f, f ∈ fields → is_Some (fi_id f)) →
  field_ids fields !! k = Some v → Some v ∈ (fi_id <$> fields).
Proof.
  intros Hs H. apply (id_map_value fi_name (λ f, default [] (fi_id f))) in H as [H|(f & Hf & ->)];
    [done|]. destruct (Hs f Hf) as [id Hid]. apply list_elem_of_fmap. exists f. by rewrite Hid.
Qed.

Lemma admit_index_Ok ids i i' :
  admit_index ids i = Ok i' →
  ix_unique i' = ix_unique i ∧ length (ix_fields i') = length (ix_fields i) ∧
  ∀ id, id ∈ ix_fields i' → ∃ selector, ids !! selector = Some id.
Proof.
  unfold admit_index. intros (fs & Hfs & [= <-])%bind_Ok. apply mapM_result_Ok in Hfs. cbn.
  split; [done|]. split; [symmetry; by eapply Forall2_length|]. intros id Hid.
  apply list_elem_of_lookup in Hid as [j Hj].
  destruct (Forall2_lookup_r _ _ _ _ _ Hfs Hj) as (sel & _ & Hsel).
  apply resolveSelector_Ok in Hsel as [Hsel _]. by exists sel.
Qed.

Lemma Forall2_elem_r {A B} (R : A → B → Prop) l k y : Forall2 R l k → y ∈ k → ∃ x, x ∈ l ∧ R x y.
Proof.
  intros HF [j Hj]%list_elem_of_lookup. destruct (Forall2_lookup_r _ _ _ _ _ HF Hj) as (x & Hx & HR).
  exists x. split; [by eapply list_elem_of_lookup_2|done].
Qed.

Lemma admit_collection_Ok existing ids e n c n' :
  admit_collection fresh existing ids e n = Ok (c, n') →
  ci_id c = Some e.2 ∧ collection_content e.1 = collection_content c ∧
  (∀ f, f ∈ ci_fields c → is_Some (fi_id f)) ∧
  (∀ f, f ∈ ci_fields c → fi_type f = FRelation →
     ∃ target, fi_options f ≫= opt_collection = Some target ∧
               ∃ selector, ids !! selector = Some target) ∧
  (∀ i id, i ∈ ci_indexes c → id ∈ ix_fields i → Some id ∈ (fi_id <$> ci_fields c)).
Proof.
  destruct e as [col cid]. cbn [admit_collection fst snd].
  intros (fields & n1 & Hf & H)%abind_Ok. apply abind_Ok in H as (indexes & n2 & Hi & H).
  apply alift_Ok in Hi as [Hi _]. apply aret_Ok in H as [-> _]. cbn.
  apply amap_Ok in Hf. apply mapM_result_Ok in Hi.
  assert (Hs : ∀ f, f ∈ fields → is_Some (fi_id f)).
  { intros f Hin. destruct (Forall2_elem_r _ _ _ _ Hf Hin) as (x & _ & a & b & Hx).
    by apply admit_field_Ok in Hx as (? & _). }
  split; [done|]. split; [|split; [done|split]].
  - unfold collection_content. cbn. f_equal; [f_equal|].
    + eapply Forall2_fmap_eq; [exact Hf|]. intros x y (a & b & H). by apply admit_field_Ok in H as (_ & ? & _).
    + eapply Forall2_fmap_eq; [exact Hi|]. intros x y H. cbn beta.
      apply admit_index_Ok in H as (-> & -> & _). done.
  - intros f Hin Ht. destruct (Forall2_elem_r _ _ _ _ Hf Hin) as (x & _ & a & b & Hx).
    apply admit_field_Ok in Hx as (_ & Hc & Ho). injection Hc as _ Ht' _ _.
    eapply resolve_options_relation; [exact Ho|congruence].
  - intros i id Hii Hid. destruct (Forall2_elem_r _ _ _ _ Hi Hii) as (x & _ & Hx).
    apply admit_index_Ok in Hx as (_ & _ & Hx). destruct (Hx id Hid) as [sel Hsel].
    by eapply field_ids_value.
Qed.

Lemma assemble_Ok cand existing n next n' :
  assemble fresh cand existing n = Ok (next, n') →
  closed next ∧ si_title next = si_title cand ∧ si_purpose next = si_purpose cand ∧
  si_references next = Some (dedup (default [] (si_references cand))) ∧
  collection_content <$> si_collections cand = collection_content <$> si_collections next.
Proof.
  unfold assemble. intros (entries & n1 & He & H)%abind_Ok.
  apply abind_Ok in H as (cs & n2 & Hc & H). apply aret_Ok in H as [-> _]. cbn.
  apply amap_Ok in He, Hc.
  assert (Hids : entries.*2 = (λ c, default [] (ci_id c)) <$> cs).
  { eapply Forall2_fmap_eq; [exact Hc|]. intros e c (a & b & H).
    apply admit_collection_Ok in H as (-> & _). done. }
  assert (Hc' : ∀ c, c ∈ cs → ∃ e, e ∈ entries ∧ ∃ a b,
            admit_collection fresh existing (collection_ids entries) e a = Ok (c, b)).
  { intros c Hin. by apply (Forall2_elem_r _ _ _ _ Hc). }
  split; [|repeat (split; [done|])].
  - split; cbn.
    + intros c Hin. destruct (Hc' c Hin) as (e & _ & a & b & H).
      apply admit_collection_Ok in H as (-> & _). done.
    + intros c f Hin. destruct (Hc' c Hin) as (e & _ & a & b & H).
      apply admit_collection_Ok in H as (_ & _ & H & _). apply H.
    + intros c f Hin Hf Ht. destruct (Hc' c Hin) as (e & _ & a & b & H).
      apply admit_collection_Ok in H as (_ & _ & _ & H & _).
      destruct (H f Hf Ht) as (target & Ho & sel & Hsel). exists target. split; [done|].
      apply (id_map_value (λ e, ci_name e.1) snd) in Hsel as [Hsel|(e' & He' & ->)]; [done|].
      destruct (list_elem_of_lookup_1 _ _ He') as [j Hj].
      destruct (Forall2_lookup_l _ _ _ _ _ Hc Hj) as (c' & Hj' & a' & b' & H').
      apply admit_collection_Ok in H' as (Hid & _). apply list_elem_of_fmap. exists c'.
      split; [done|]. by eapply list_elem_of_lookup_2.
    + intros c i id Hin. destruct (Hc' c Hin) as (e & _ & a & b & H).
      apply admit_collection_Ok in H as (_ & _ & _ & _ & H). apply H.
  - trans (collection_content ∘ fst <$> entries).
    + eapply Forall2_fmap_eq; [exact He|]. intros c e (a & b & H).
      unfold identify in H. apply abind_Ok in H as (id & n3 & _ & H). by apply aret_Ok in H as [-> _].
    + eapply Forall2_fmap_eq; [exact Hc|]. intros e c (a & b & H).
      by apply admit_collection_Ok in H as (_ & ? & _).
Qed.
End Assembled.

(** ** Identities *)

(** A requested identity is kept and was admitted before; without one, the name is new. *)
Definition kept_identity (existing : option SchemaInput) (c c' : CollectionInput) : Prop :=
  match requested (ci_id c) with
  | Some id => ci_id c' = Some id ∧
               ∃ e p, existing = Some e ∧ p ∈ si_collections e ∧ ci_id p = Some id
  | None => ∀ e p, existing = Some e → p ∈ si_collections e → ci_name p ≠ ci_name c
  end.

Section Identities.
Context (fresh : nat → string → jsstr).

Lemma identify_kept existing c n e n' c' :
  identify fresh existing c n = Ok (e, n') → ci_id c' = Some e.2 → kept_identity existing c c'.
Proof.
  unfold identify. intros (id & n1 & H & H')%abind_Ok Hc. apply aret_Ok in H' as [-> _]. cbn in Hc.
  unfold kept_identity. unfold resolveEntityId in H. cbn zeta in H.
  destruct (requested (ci_id c)) as [rid|] eqn:R.
  - assert (Hrid : id = rid ∧ match existing with
        | Some e => existsb (λ c, bool_decide (ci_id c = Some rid)) (si_collections e)
        | None => false end = true).
    { destruct (existing ≫= _); destruct (match existing with Some _ => _ | None => _ end) eqn:E;
        try (by apply alift_Ok in H as [? _]); apply aret_Ok in H as [-> _]; done. }
    destruct Hrid as [-> He]. split; [done|]. destruct existing as [e|]; [|done].
    apply existsb_elem in He as (p & Hp & Hid). bool_to_prop. by exists e, p.
  - intros e p -> Hp Hname. cbn [mbind option_bind] in H.
    destruct (find _ (si_collections e)) as [q|] eqn:F; [by apply alift_Ok in H as [? _]|].
    rewrite find_None in F. specialize (F p Hp). bool_to_prop. done.
Qed.

Lemma assemble_identities cand existing n next n' :
  assemble fresh cand existing n = Ok (next, n') →
  Forall2 (kept_identity existing) (si_collections cand) (si_collections next).
Proof.
  unfold assemble. intros (entries & n1 & He & H)%abind_Ok.
  apply abind_Ok in H as (cs & n2 & Hc & H). apply aret_Ok in H as [-> _]. cbn.
  apply amap_Ok in He, Hc. revert cs Hc.
  generalize (collection_ids entries) as ids. intros ids cs Hc. revert cs Hc.
  induction He as [|c e l es (a & b & He) _ IH]; intros cs Hc; inversion Hc as [|? c' ? cs' Hx Hr]; subst;
    [constructor|]. destruct Hx as (a' & b' & Hx). apply admit_collection_Ok in Hx as (Hid & _).
  constructor; [by eapply identify_kept|]. by apply IH.
Qed.
End Identities.

Section Claims.
Context (fresh : nat → string → jsstr)
  (encoded_bytes : SchemaInput → Z) (first_issue : SchemaInput → jsstr * jsstr).

Notation admission_of := (admitLightAppDefinition fresh encoded_bytes first_issue).
Notation ok := schema_input_ok.

(** What the refinements say of one collection and one field. *)
Lemma ok_collection s c : ok s = true → c ∈ si_collections s → collection_input_ok c = true.
Proof.
  unfold schema_input_ok. intros H Hc. bool_to_prop.
  match goal with Hf : forallb collection_input_ok _ = true |- _ => rewrite forallb_elem in Hf; auto end.
Qed.

Lemma ok_field c f : collection_input_ok c = true → f ∈ ci_fields c → field_input_ok f = true.
Proof.
  unfold collection_input_ok. intros H Hc. bool_to_prop.
  match goal with Hf : forallb field_input_ok _ = true |- _ => rewrite forallb_elem in Hf; auto end.
Qed.

Lemma ok_collection_id c id :
  collection_input_ok c = true → ci_id c = Some id → isEntityId "col" (JStr id) = true.
Proof. unfold collection_input_ok. intros H Hc. rewrite Hc in H. by bool_to_prop. Qed.

Lemma ok_field_id f id :
  field_input_ok f = true → fi_id f = Some id → isEntityId "fld" (JStr id) = true.
Proof. unfold field_input_ok. intros H Hc. rewrite Hc in H. by bool_to_prop. Qed.

Lemma closed_unique s : ok s = true → closed s → unique_ids s.
Proof.
  intros Hok [Hc Hf _ _]. split.
  - apply present_NoDup; [|unfold schema_input_ok in Hok; by bool_to_prop].
    apply Forall_fmap, Forall_forall. intros c Hin. cbn. destruct (Hc c Hin) as [id Hid].
    exists id. split; [done|]. eapply (entity_nonempty "col"); [by left|].
    eapply ok_collection_id; [by eapply ok_collection|done].
  - intros c Hin. pose proof (ok_collection s c Hok Hin) as Hcok.
    apply present_NoDup; [|unfold collection_input_ok in Hcok; by bool_to_prop].
    apply Forall_fmap, Forall_forall. intros f Hfin. cbn. destruct (Hf c f Hin Hfin) as [id Hid].
    exists id. split; [done|]. eapply (entity_nonempty "fld"); [by right|].
    eapply ok_field_id; [by eapply ok_field|done].
Qed.

Lemma admit_Ok cand existing next :
  admission_of cand existing = Ok next →
  encoded_bytes cand <= maxSchemaBytes ∧ ok cand = true ∧ ok next = true ∧
  (∃ n, assemble fresh cand existing 0%nat = Ok (next, n)) ∧
  ∀ e, existing = Some e → assertSafeSchemaEvolution next e = Ok tt.
Proof.
  unfold admitLightAppDefinition. destruct (_ <? _) eqn:B; [done|]. bool_to_prop.
  destruct (ok cand); [|by destruct (first_issue cand)]. cbn [negb].
  intros ([d n] & Ha & H)%bind_Ok. cbn beta iota in H. destruct (ok d) eqn:D; [|done]. cbn [negb] in H.
  destruct existing as [e|].
  - apply bind_Ok in H as ([] & Hs & [= <-]). naive_solver.
  - injection H as <-. naive_solver.
Qed.

(** C29. Admission against an existing definition accepts exactly the safe evolutions: when the
    proposal is well formed and its identities and selectors resolve to a well-formed definition,
    that definition is admitted if and only if no collection is lost, surviving fields keep their
    type, requiredness and options, new fields of old collections are optional, and each old
    collection keeps exactly the indexes whose fields all survive. *)
Theorem admission_is_safe_evolution cand existing next n :
  encoded_bytes cand <= maxSchemaBytes → ok cand = true →
  assemble fresh cand (Some existing) 0%nat = Ok (next, n) → ok next = true →
  admission_of cand (Some existing) = Ok next ↔ safe_evolution next existing.
Proof.
  intros Hb Hc Ha Hn. destruct (assemble_Ok fresh _ _ _ _ _ Ha) as (Hclosed & _).
  rewrite <-evolution_Ok by (by apply closed_unique).
  unfold admitLightAppDefinition. rewrite (proj2 (Z.ltb_ge _ _)) by lia. rewrite Hc, Ha. cbn.
  rewrite Hn. cbn. destruct (assertSafeSchemaEvolution next existing) as [[]|]; cbn; split; congruence.
Qed.

(** An admitted definition is closed: every collection and field has an identity, identities
    are unique, relation targets are declared collections and index fields declared fields of
    their collection; the authored content is unchanged, requested identities are kept and are
    identities of the previous definition, and a proposal without an identity never takes the name
    of an existing collection. *)
Theorem admitted_definition_is_closed cand existing next :
  admission_of cand existing = Ok next →
  closed next ∧ unique_ids next ∧
  collection_content <$> si_collections cand = collection_content <$> si_collections next ∧
  Forall2 (kept_identity existing) (si_collections cand) (si_collections next).
Proof.
  intros (_ & _ & Hn & (n & Ha) & _)%admit_Ok.
  pose proof (assemble_identities fresh _ _ _ _ _ Ha) as Hi.
  apply assemble_Ok in Ha as (Hc & _ & _ & _ & Hcc). auto using closed_unique.
Qed.

(** *** Admitting a definition again *)

Lemma dedup_NoDup (l : list jsstr) : NoDup l → dedup l = l.
Proof.
  unfold dedup. assert (H : ∀ s, NoDup (s ++ l) → foldl (λ s x, set_add x s) s l = s ++ l); [|by apply (H [])].
  induction l as [|x l IH]; intros s Hn; cbn; [by rewrite app_nil_r|].
  assert (Hx : x ∉ s) by (apply NoDup_app in Hn as (_ & Hn & _); intros Hx; apply (Hn x Hx); left).
  unfold set_add at 2. rewrite bool_decide_eq_false_2 by done.
  rewrite IH; rewrite <-app_assoc; done.
Qed.

Lemma evolution_refl s : unique_ids s → closed s → safe_evolution s s.
Proof.
  intros [_ Uf] [_ _ _ Hi] c Hc. exists c. split; [done|]. split; [done|]. split.
  - intros f g Hf Hg He. by rewrite (NoDup_fmap_elem fi_id _ g f (Uf c Hc) Hg Hf He).
  - intros g Hg Hn. by destruct (Hn g Hg).
  - rewrite filterb_all; [done|]. intros i Hin. apply forallb_elem. intros id Hid.
    unfold includes. apply bool_decide_eq_true_2. eauto.
Qed.

Section Readmission.
Context (s : SchemaInput) (Hok : ok s = true) (Hclosed : closed s).

Let entry (c : CollectionInput) : CollectionInput * jsstr := (c, default [] (ci_id c)).

Lemma entry_id c : c ∈ si_collections s → ci_id c = Some (entry c).2 ∧ isEntityId "col" (JStr (entry c).2) = true.
Proof.
  intros Hc. destruct (cs_collections _ Hclosed c Hc) as [id Hid]. cbn. rewrite Hid. split; [done|].
  eapply ok_collection_id; [by eapply ok_collection|done].
Qed.

Lemma requested_entity kind id :
  schema_kind kind → isEntityId kind (JStr id) = true → requested (Some id) = Some id.
Proof. intros Hk H. apply requested_Some. split; [done|]. by eapply entity_nonempty. Qed.

Lemma identify_again c n : c ∈ si_collections s → identify fresh (Some s) c n = Ok (entry c, n).
Proof.
  intros Hc. destruct (entry_id c Hc) as [Hid He]. unfold identify. apply abind_Ok.
  exists (entry c).2, n. split; [|done]. unfold resolveEntityId. cbn zeta. rewrite Hid.
  rewrite (requested_entity "col") by (done || by left).
  assert (Hx : existsb (λ c0, bool_decide (ci_id c0 = Some (entry c).2)) (si_collections s) = true).
  { apply existsb_elem. exists c. split; [done|]. by apply bool_decide_eq_true_2. }
  rewrite Hx. by destruct (Some s ≫= _).
Qed.

Lemma collection_ids_again c :
  c ∈ si_collections s →
  collection_ids (entry <$> si_collections s) !! (entry c).2 = Some (entry c).2.
Proof.
  intros Hc. apply (id_map_self (λ e, ci_name e.1) snd (entry c)).
  - apply list_elem_of_fmap. by exists c.
  - intros e (c' & -> & Hc')%list_elem_of_fmap. cbn [entry fst].
    eapply (entity_not_name "col"); [by left|by apply entry_id|].
    pose proof (ok_collection s c' Hok Hc') as H. unfold collection_input_ok in H. by bool_to_prop.
Qed.

Lemma keep_text_again o : absent_or nonempty o = true → keep_text o = o.
Proof. destruct o as [t|]; [|done]. intros H. by apply requested_Some. Qed.

Lemma resolve_options_again c f :
  c ∈ si_collections s → f ∈ ci_fields c →
  resolve_options f (collection_ids (entry <$> si_collections s)) = Ok (fi_options f).
Proof.
  intros Hc Hf. unfold resolve_options. destruct (fi_type f) eqn:T; try done.
  destruct (cs_relations _ Hclosed c f Hc Hf T) as (target & Ho & Ht). rewrite Ho.
  apply list_elem_of_fmap in Ht as (c' & Hid & Hc'). destruct (entry_id c' Hc') as [Hid' He].
  assert (target = (entry c').2) as -> by congruence.
  assert (Hr : resolveSelector (entry c').2 (collection_ids (entry <$> si_collections s))
                 "relation collection" = Ok (entry c').2).
  { apply resolveSelector_Ok. split; [by apply collection_ids_again|].
    eapply (entity_nonempty "col"); [by left|done]. }
  rewrite Hr. cbn [mbind result_bind].
  pose proof (ok_field c f (ok_collection s c Hok Hc) Hf) as H. unfold field_input_ok in H.
  rewrite T in H. destruct (fi_options f) as [o|]; [|by bool_to_prop]. cbn [options_ok] in H.
  unfold relation_options_ok in H. cbn in Ho. bool_to_prop. destruct o as [o1 o2 o3 o4 o5 o6]. cbn in *.
  subst o6. destruct o1, o2, o3, o4, o5; try discriminate. done.
Qed.

Lemma admit_field_again c f n :
  c ∈ si_collections s → f ∈ ci_fields c →
  admit_field fresh (Some s) (collection_ids (entry <$> si_collections s)) (entry c).2 f n = Ok (f, n).
Proof.
  intros Hc Hf. pose proof (ok_field c f (ok_collection s c Hok Hc) Hf) as Hfok.
  destruct (cs_fields _ Hclosed c f Hc Hf) as [fid Hfid]. destruct (entry_id c Hc) as [Hid _].
  pose proof (ok_field_id f fid Hfok Hfid) as He.
  unfold admit_field. apply abind_Ok. exists fid, n. split.
  - unfold resolveFieldId. cbn zeta. cbn [mbind option_bind]. rewrite <-Hid.
    rewrite (find_unique ci_id) by (done || by apply closed_unique). rewrite Hfid.
    rewrite (requested_entity "fld") by (done || by right).
    assert (Hx : existsb (λ f0, bool_decide (fi_id f0 = Some fid)) (ci_fields c) = true).
    { apply existsb_elem. exists f. split; [done|]. by apply bool_decide_eq_true_2. }
    rewrite Hx. done.
  - apply abind_Ok. exists (fi_options f), n.
    rewrite (resolve_options_again c) by done. split; [done|]. unfold field_input_ok in Hfok.
    bool_to_prop. rewrite !keep_text_again, <-Hfid by done. by destruct f.
Qed.

Lemma admit_index_again c i :
  c ∈ si_collections s → i ∈ ci_indexes c → admit_index (field_ids (ci_fields c)) i = Ok i.
Proof.
  intros Hc Hi. unfold admit_index.
  assert (Hm : mapM (λ sel, resolveSelector sel (field_ids (ci_fields c)) "index field") (ix_fields i)
               = Ok (ix_fields i)).
  { apply mapM_result_Ok, Forall2_same_length_lookup_2; [done|]. intros j x y Hx Hy.
    rewrite Hx in Hy. injection Hy as <-.
    pose proof (cs_indexes _ Hclosed c i x Hc Hi ltac:(by eapply list_elem_of_lookup_2)) as Hx'.
    apply list_elem_of_fmap in Hx' as (f & Hid & Hf). symmetry in Hid.
    pose proof (ok_field c f (ok_collection s c Hok Hc) Hf) as Hfok.
    pose proof (ok_field_id f x Hfok Hid) as He.
    apply resolveSelector_Ok. split; [|eapply (entity_nonempty "fld"); [by right|done]].
    pose proof (id_map_self fi_name (λ f, default [] (fi_id f)) f (ci_fields c) ∅ Hf) as H.
    cbn beta in H. rewrite Hid in H. apply H. intros g Hg.
    eapply (entity_not_name "fld"); [by right|done|].
    pose proof (ok_field c g (ok_collection s c Hok Hc) Hg) as Hgok. unfold field_input_ok in Hgok.
    by bool_to_prop. }
  rewrite Hm. by destruct i.
Qed.

Lemma admit_collection_again c n :
  c ∈ si_collections s →
  admit_collection fresh (Some s) (collection_ids (entry <$> si_collections s)) (entry c) n = Ok (c, n).
Proof.
  intros Hc. unfold admit_collection. unfold entry at 2. apply abind_Ok. exists (ci_fields c), n. split.
  - rewrite (amap_pure _ id); [by rewrite list_fmap_id|]. intros f Hf. by apply admit_field_again.
  - apply abind_Ok. exists (ci_indexes c), n. split.
    + apply alift_Ok. split; [|done]. apply mapM_result_Ok, Forall2_same_length_lookup_2; [done|].
      intros j x y Hx Hy. rewrite Hx in Hy. injection Hy as <-. apply (admit_index_again c); [done|].
      by eapply list_elem_of_lookup_2.
    + apply aret_Ok. split; [|done]. destruct (entry_id c Hc) as [Hid _]. unfold entry in Hid.
      cbn in Hid. rewrite <-Hid. by destruct c.
Qed.

Lemma assemble_again refs n :
  si_references s = Some refs → NoDup refs → assemble fresh s (Some s) n = Ok (s, n).
Proof.
  intros Hr Hn. unfold assemble. apply abind_Ok. exists (entry <$> si_collections s), n. split.
  { apply amap_pure. intros c Hc. by apply identify_again. }
  apply abind_Ok. exists (si_collections s), n. split.
  - rewrite (amap_pure _ fst).
    + do 2 f_equal. rewrite <-list_fmap_compose. apply list_fmap_id.
    + intros e (c & -> & Hc)%list_elem_of_fmap. by apply admit_collection_again.
  - apply aret_Ok. split; [|done]. rewrite Hr. change (default [] (Some refs)) with refs.
    rewrite dedup_NoDup, <-Hr by done. by destruct s.
Qed.
End Readmission.

(** Admission is idempotent: an admitted definition proposed again as its own update, within
    the size limit, is admitted unchanged and allocates no identity. *)
Theorem readmission_is_identity cand existing next :
  admission_of cand existing = Ok next → encoded_bytes next <= maxSchemaBytes →
  admission_of next (Some next) = Ok next ∧ assemble fresh next (Some next) 0%nat = Ok (next, 0%nat).
Proof.
  intros (_ & _ & Hn & (n & Ha) & _)%admit_Ok Hb.
  apply assemble_Ok in Ha as (Hc & _ & _ & Hr & _).
  assert (Ha : assemble fresh next (Some next) 0%nat = Ok (next, 0%nat))
    by (eapply assemble_again; [done|done|exact Hr|apply NoDup_dedup]).
  split; [|done]. pose proof (closed_unique next Hn Hc) as Hu.
  unfold admitLightAppDefinition. rewrite (proj2 (Z.ltb_ge _ _)) by lia. rewrite Hn, Ha. cbn.
  rewrite Hn. cbn. rewrite (proj2 (evolution_Ok next next Hu)); [done|]. by apply evolution_refl.
Qed.
End Claims.

(** ** A concrete evolution *)

Module AdmissionDemo.

Definition fresh (n : nat) (kind : string) : jsstr :=
  js kind ++ js "_01890f3e-0000-7000-8000-0000000000" ++ hex2 (Z.of_nat n).
Definition admission_of : SchemaInput → option SchemaInput → result AdmissionError SchemaInput :=
  admitLightAppDefinition fresh (λ _, 1000) (λ _, ([], [])).

Definition field (id : option jsstr) (name : string) (type : FieldType) (required : bool)
    (options : option FieldOptions) : FieldInput :=
  {| fi_id := id; fi_name := js name; fi_type := type; fi_required := required; fi_description := [];
     fi_unit := None; fi_namespace := None; fi_options := options |}.

Definition relation (collection : jsstr) : option FieldOptions :=
  Some {| opt_max_length := None; opt_onlyInt := None; opt_min := None; opt_max := None;
          opt_values := None; opt_collection := Some collection |}.

(** One collection with a self relation, selected by name, and two indexes. *)
Definition first_proposal : SchemaInput :=
  {| si_title := js "Staff"; si_purpose := []; si_references := None;
     si_collections :=
       [{| ci_id := None; ci_name := js "people"; ci_description := [];
           ci_fields := [field None "name" FText true None;
                         field None "boss" FRelation false (relation (js "people"))];
           ci_indexes := [{| ix_fields := [js "name"]; ix_unique := true |};
                          {| ix_fields := [js "boss"; js "name"]; ix_unique := false |}] |}] |}.

Definition result_or {E A} (r : result E A) (d : A) : A := match r with Ok a => a | Err _ => d end.

Definition first_definition : SchemaInput := result_or (admission_of first_proposal None) first_proposal.

(** The update renames a field, drops the relation with its index and adds an optional field and a
    collection. *)
Definition people_id : option jsstr := Some (fresh 0 "col").
Definition second_proposal : SchemaInput :=
  {| si_title := js "Staff"; si_purpose := []; si_references := None;
     si_collections :=
       [{| ci_id := people_id; ci_name := js "people"; ci_description := [];
           ci_fields := [field (Some (fresh 1 "fld")) "full_name" FText true None;
                         field None "age" FNumber false None];
           ci_indexes := [{| ix_fields := [js "full_name"]; ix_unique := true |}] |};
        {| ci_id := None; ci_name := js "rooms"; ci_description := [];
           ci_fields := [field None "owner" FRelation true (relation (js "people"))];
           ci_indexes := [] |}] |}.

Definition update_fresh (n : nat) (kind : string) : jsstr := fresh (n + 16) kind.
Definition update : SchemaInput → option SchemaInput → result AdmissionError SchemaInput :=
  admitLightAppDefinition update_fresh (λ _, 1000) (λ _, ([], [])).
Definition second_definition : SchemaInput :=
  result_or (update second_proposal (Some first_definition)) second_proposal.

(** Making the surviving field optional is refused. *)
Definition unsafe_proposal : SchemaInput :=
  {| si_title := js "Staff"; si_purpose := []; si_references := None;
     si_collections :=
       [{| ci_id := people_id; ci_name := js "people"; ci_description := [];
           ci_fields := [field (Some (fresh 1 "fld")) "name" FText false None];
           ci_indexes := [{| ix_fields := [js "name"]; ix_unique := true |}] |}] |}.

Example unsafe_refused :
  update unsafe_proposal (Some first_definition)
  = refuse unsupported_operation (js "Changing field type or requiredness is unavailable.") no_details.
Proof. vm_compute. reflexivity. Qed.

Lemma first_admitted : admission_of first_proposal None = Ok first_definition.
Proof. vm_compute. reflexivity. Qed.
Lemma second_admitted : update second_proposal (Some first_definition) = Ok second_definition.
Proof. vm_compute. reflexivity. Qed.

Lemma admission_is_safe_evolution_witness : safe_evolution second_definition first_definition.
Proof.
  apply (admission_is_safe_evolution update_fresh (λ _, 1000) (λ _, ([], []))
           second_proposal first_definition second_definition 3%nat).
  - vm_compute. discriminate.
  - vm_compute. reflexivity.
  - vm_compute. reflexivity.
  - vm_compute. reflexivity.
  - exact second_admitted.
Defined.

Lemma admitted_definition_is_closed_witness : closed second_definition.
Proof.
  apply (admitted_definition_is_closed update_fresh (λ _, 1000) (λ _, ([], []))
           second_proposal (Some first_definition)).
  exact second_admitted.
Defined.

Lemma readmission_is_identity_witness :
  admission_of first_definition (Some first_definition) = Ok first_definition.
Proof.
  apply (readmission_is_identity fresh (λ _, 1000) (λ _, ([], [])) first_proposal None).
  - exact first_admitted.
  - vm_compute. discriminate.
Defined.
End AdmissionDemo.
