(* ===== verification/FieldValues.v ===== *)
(** * Light-app field values (apps/nanocore/src/generative-kernel/values.ts and the value parts of
    app-model.ts)

    Normalization of one value against its admitted field, and its encoding as a SQLite parameter.
    [Date] parsing and printing are those of ECMAScript on the calendar of Calendar.v. *)

From Stdlib Require Import SpecFloat.
From S2P Require Import Prelude JsValue NumberText CanonicalJson Calendar LightAppKernel.

Local Open Scope string_scope.
Local Open Scope list_scope.
Local Open Scope Z_scope.

(** A command fails with a typed failure, with an error of the SQLite driver (its code), or because a
    property of [undefined] is read. *)
Inductive CommandFailure :=
| Failed (e : KernelCommandError)
| NativeFailure (code : string)
| TypeFailed.

Definition fail {A} (code : KernelErrorCode) (message : jsstr) (details : KernelErrorDetails)
    : result CommandFailure A := Err (Failed (kernel_error code message details)).

(** ** Dates *)

Definition dash : Z := 45.
Definition colon : Z := 58.

(** [/^\d{4}-\d{2}-\d{2}T\d{2}:\d{2}:\d{2}\.\d{3}Z$/], with the seven numbers of a match. *)
Record DateParts := { dp_year : Z; dp_month : Z; dp_day : Z; dp_hour : Z; dp_minute : Z; dp_second : Z;
                      dp_ms : Z }.

Definition all_digits (s : jsstr) : bool := forallb is_digit s.

Definition date_parts (s : jsstr) : option DateParts :=
  match s with
  | [y1; y2; y3; y4; d1; m1; m2; d2; a1; a2; t; h1; h2; c1; n1; n2; c2; s1; s2; p; f1; f2; f3; z] =>
    if all_digits [y1; y2; y3; y4; m1; m2; a1; a2; h1; h2; n1; n2; s1; s2; f1; f2; f3]
       && (d1 =? dash) && (d2 =? dash) && (t =? cu "T") && (c1 =? colon) && (c2 =? colon)
       && (p =? cu ".") && (z =? cu "Z")
    then Some {| dp_year := digits_value [y1; y2; y3; y4]; dp_month := digits_value [m1; m2];
                 dp_day := digits_value [a1; a2]; dp_hour := digits_value [h1; h2];
                 dp_minute := digits_value [n1; n2]; dp_second := digits_value [s1; s2];
                 dp_ms := digits_value [f1; f2; f3] |}
    else None
  | _ => None
  end.

(** [new Date(value).getTime()] for a value of that form, [None] for NaN: the elements are checked for
    their range only, a day beyond the month runs into the next one. *)
Definition date_value (d : DateParts) : option Z :=
  if (1 <=? dp_month d) && (dp_month d <=? 12) && (1 <=? dp_day d) && (dp_day d <=? 31)
     && (dp_minute d <=? 59) && (dp_second d <=? 59)
     && ((dp_hour d <=? 23)
         || (dp_hour d =? 24) && (dp_minute d =? 0) && (dp_second d =? 0) && (dp_ms d =? 0))
  then Some (MakeDate (MakeDay (dp_year d) (dp_month d - 1) (dp_day d))
                      (MakeTime (dp_hour d) (dp_minute d) (dp_second d) (dp_ms d)))
  else None.

(** [Date.prototype.toISOString] *)
Definition year_text (y : Z) : jsstr :=
  if in_range 0 9999 y then digits 4 y
  else (if y <? 0 then js "-" else js "+") ++ digits 6 (Z.abs y).

Definition toISOString (t : Z) : jsstr :=
  year_text (getUTCFullYear t) ++ js "-" ++ digits 2 (getUTCMonth t + 1) ++ js "-"
  ++ digits 2 (getUTCDate t) ++ js "T" ++ digits 2 (getUTCHours t) ++ js ":"
  ++ digits 2 (getUTCMinutes t) ++ js ":" ++ digits 2 (getUTCSeconds t) ++ js "."
  ++ digits 3 (getUTCMilliseconds t) ++ js "Z".

Definition isCanonicalUtcDate (value : jsstr) : bool :=
  match date_parts value ≫= date_value with
  | Some t => bool_decide (toISOString t = value)
  | None => false
  end.

(** ** Normalization *)

Definition is_safe_number (f : spec_float) : bool :=
  match number_integer f with Some z => isSafeInteger z | None => false end.

Definition field_message (name : jsstr) (rest : string) : jsstr := js "Field " ++ name ++ js rest.

Definition refuse_field {A} (field : AdmittedField) (rest : string) : result CommandFailure A :=
  fail validation_failed (field_message (fd_name field) rest) (at_path (fd_name field)).

Definition normalizeLightAppFieldValue (field : AdmittedField) (value : jsval)
    : result CommandFailure jsval :=
  match fd_type field with
  | FText =>
    match value with
    | JStr s =>
      let max := default maxTextBytes (fd_options field ≫= opt_max_length) in
      if max <? utf8_length s then
        fail limit_exceeded (field_message (fd_name field) " exceeds text limit.")
          {| dt_path := Some (fd_name field); dt_limit := Some "textBytes"; dt_maximum := Some max;
             dt_status := None; dt_expectedRevision := None; dt_currentRevision := None |}
      else Ok value
    | _ => refuse_field field " must be text."
    end
  | FNumber =>
    match value with
    | JNum f =>
      if negb (is_finite_number f) then refuse_field field " must be a finite number."
      else
        let options := default no_options (fd_options field) in
        if default false (opt_onlyInt options) && negb (is_safe_number f)
        then refuse_field field " must be a safe integer."
        else if match opt_min options with Some m => SFltb f m | None => false end
        then refuse_field field " is below minimum."
        else if match opt_max options with Some m => SFltb m f | None => false end
        then refuse_field field " is above maximum."
        else Ok value
    | _ => refuse_field field " must be a finite number."
    end
  | FBool => match value with JBool _ => Ok value | _ => refuse_field field " must be boolean." end
  | FDate =>
    match value with
    | JStr s => if isCanonicalUtcDate s then Ok value
                else refuse_field field " must be a canonical UTC date."
    | _ => refuse_field field " must be a canonical UTC date."
    end
  | FSelect =>
    match fd_options field ≫= opt_values with
    | None => Err TypeFailed
    | Some values =>
      match value with
      | JStr s => if includes values s then Ok value
                  else refuse_field field " must be an admitted select value."
      | _ => refuse_field field " must be an admitted select value."
      end
    end
  | FRelation => match value with JStr _ => Ok value | _ => refuse_field field " must be a record id." end
  end.

(** ** SQLite parameters *)

Definition encodeSqlValue (type : FieldType) (value : jsval) : result CommandFailure jsval :=
  match value with
  | JNull => Ok JNull
  | _ =>
    match type with
    | FBool =>
      match value with
      | JBool b => Ok (JNum (number_of_int (if b then 1 else 0)))
      | _ => fail validation_failed (js "Boolean fields require a boolean value.") (at_path (js "data"))
      end
    | _ => Ok value
    end
  end.

(** [decodeSqlValue]; what SQLite returns is null, a number or text, and an integer column with the
    check of a boolean field holds no text. *)
Definition decodeSqlValue (type : FieldType) (value : jsval) : jsval :=
  match value with
  | JNull | JUndef => JNull
  | _ =>
    match type with
    | FBool => match value with
               | JNum f => JBool (SFeqb f (number_of_int 1))
               | _ => JBool false
               end
    | _ => value
    end
  end.

(** ** Canonical dates are the printed instants *)

Lemma MonthStart_step31 leap m : 0 <= m <= 11 → MonthStart leap (m + 1) <= MonthStart leap m + 31.
Proof. intros Hm. month_cases m; destruct leap; eval_months. Qed.

Lemma getUTCDate_bounds t : 1 <= getUTCDate t <= 31.
Proof.
  unfold getUTCDate, getUTCMonth. set (leap := InLeapYear (getUTCFullYear t)).
  assert (Hd : 0 <= DayInYear t < (if leap then 366 else 365)).
  { unfold DayInYear, leap, getUTCFullYear. pose proof (YearFromDay_bounds (DayOf t)) as H.
    rewrite DayFromYear_succ in H. unfold DaysInYear in H. destruct (InLeapYear _); lia. }
  apply MonthFromDayInYear_bounds in Hd as [Hm Hd].
  pose proof (MonthStart_step31 leap _ Hm). lia.
Qed.

Lemma time_bounds t :
  0 <= getUTCHours t <= 23 ∧ 0 <= getUTCMinutes t <= 59 ∧ 0 <= getUTCSeconds t <= 59 ∧
  0 <= getUTCMilliseconds t <= 999.
Proof.
  unfold getUTCHours, getUTCMinutes, getUTCSeconds, getUTCMilliseconds, TimeInDay, msPerDay.
  Z.to_euclidean_division_equations. lia.
Qed.

Lemma is_digit_mod x : is_digit (48 + x mod 10) = true.
Proof.
  pose proof (Z.mod_pos_bound x 10). unfold is_digit, in_range. apply andb_true_iff.
  split; apply Z.leb_le; lia.
Qed.

Lemma date_parts_print t :
  0 <= getUTCFullYear t <= 9999 → date_parts (toISOString t) ≫= date_value = Some t.
Proof.
  intros Hy. unfold toISOString, year_text, in_range.
  rewrite (proj2 (Z.leb_le 0 _)), (proj2 (Z.leb_le _ 9999)) by lia. cbn [andb].
  pose proof (getUTCMonth_bounds t) as Hm. pose proof (getUTCDate_bounds t) as Hd.
  destruct (time_bounds t) as (Hh & Hn & Hs & Hf).
  pose proof (digits_value_of 4 (getUTCFullYear t) ltac:(cbn; lia)) as V1.
  pose proof (digits_value_of 2 (getUTCMonth t + 1) ltac:(cbn; lia)) as V2.
  pose proof (digits_value_of 2 (getUTCDate t) ltac:(cbn; lia)) as V3.
  pose proof (digits_value_of 2 (getUTCHours t) ltac:(cbn; lia)) as V4.
  pose proof (digits_value_of 2 (getUTCMinutes t) ltac:(cbn; lia)) as V5.
  pose proof (digits_value_of 2 (getUTCSeconds t) ltac:(cbn; lia)) as V6.
  pose proof (digits_value_of 3 (getUTCMilliseconds t) ltac:(cbn; lia)) as V7.
  cbn [digits app] in V1, V2, V3, V4, V5, V6, V7 |- *.
  cbn [js String.list_ascii_of_string fmap list_fmap app].
  unfold date_parts. cbn [all_digits forallb]. rewrite !is_digit_mod.
  change (cu "-") with dash. change (cu ":") with colon. rewrite !Z.eqb_refl. cbn [andb].
  cbn [mbind option_bind]. unfold date_value. cbn [dp_year dp_month dp_day dp_hour dp_minute dp_second dp_ms].
  rewrite V1, V2, V3, V4, V5, V6, V7.
  rewrite !(proj2 (Z.leb_le _ _)) by lia. cbn [andb orb]. f_equal.
  rewrite Z.add_simpl_r, MakeDay_getUTC, MakeTime_getUTC. apply MakeDate_parts.
Qed.

Lemma year_text_length y : length (year_text y) = 4%nat → in_range 0 9999 y = true.
Proof. unfold year_text. destruct (in_range 0 9999 y); [done|]. destruct (y <? 0); cbn; discriminate. Qed.

Lemma date_parts_length s d : date_parts s = Some d → length s = 24%nat.
Proof. unfold date_parts. do 25 (destruct s as [|? s]; [try discriminate|]); try discriminate. reflexivity. Qed.

(** A text is a canonical date exactly when it is the printed form of an instant of the years 0 to
    9999. *)
Lemma canonical_date_iff s :
  isCanonicalUtcDate s = true ↔ ∃ t, 0 <= getUTCFullYear t <= 9999 ∧ s = toISOString t.
Proof.
  unfold isCanonicalUtcDate. split.
  - destruct (date_parts s) as [d|] eqn:P; [|done]. cbn [mbind option_bind].
    destruct (date_value d) as [t|]; [|done]. intros Ht. bool_to_prop. exists t. split; [|done].
    apply date_parts_length in P. rewrite <-Ht in P. unfold toISOString in P.
    rewrite !length_app in P. cbn in P.
    assert (Hl : length (year_text (getUTCFullYear t)) = 4%nat) by lia.
    apply year_text_length in Hl. unfold in_range in Hl. bool_to_prop. lia.
  - intros (t & Hy & ->). rewrite date_parts_print by done. by apply bool_decide_eq_true_2.
Qed.

Example leap_day : isCanonicalUtcDate (js "2024-02-29T23:59:59.999Z") = true.
Proof. vm_compute. reflexivity. Qed.
Example no_leap_day : isCanonicalUtcDate (js "2023-02-29T00:00:00.000Z") = false.
Proof. vm_compute. reflexivity. Qed.
Example end_of_day : isCanonicalUtcDate (js "2023-12-31T24:00:00.000Z") = false.
Proof. vm_compute. reflexivity. Qed.

(** ** The contract of a field *)

Definition field_contract (field : AdmittedField) (v : jsval) : Prop :=
  match fd_type field, v with
  | FText, JStr s => utf8_length s <= default maxTextBytes (fd_options field ≫= opt_max_length)
  | FNumber, JNum f =>
    is_finite_number f = true ∧
    (fd_options field ≫= opt_onlyInt = Some true → ∃ z, number_integer f = Some z ∧ isSafeInteger z = true) ∧
    (∀ m, fd_options field ≫= opt_min = Some m → SFltb f m = false) ∧
    (∀ m, fd_options field ≫= opt_max = Some m → SFltb m f = false)
  | FBool, JBool _ => True
  | FDate, JStr s => ∃ t, 0 <= getUTCFullYear t <= 9999 ∧ s = toISOString t
  | FSelect, JStr s => ∃ values, fd_options field ≫= opt_values = Some values ∧ s ∈ values
  | FRelation, JStr _ => True
  | _, _ => False
  end.

Lemma fail_not_Ok {A} code message details (a : A) : fail code message details ≠ Ok a.
Proof. done. Qed.

Lemma default_options {A} (f : FieldOptions → option A) (o : option FieldOptions) :
  f no_options = None → f (default no_options o) = o ≫= f.
Proof. destruct o; done. Qed.

Lemma normalize_number field f w :
  fd_type field = FNumber →
  normalizeLightAppFieldValue field (JNum f) = Ok w ↔ w = JNum f ∧ field_contract field (JNum f).
Proof.
  intros Ht. unfold normalizeLightAppFieldValue, field_contract. rewrite Ht. cbn zeta.
  rewrite (default_options opt_onlyInt), (default_options opt_min), (default_options opt_max) by done.
  destruct (is_finite_number f); cbn [negb]; [|split; [done|naive_solver]].
  assert (Hi : default false (fd_options field ≫= opt_onlyInt) && negb (is_safe_number f) = false ↔
    (fd_options field ≫= opt_onlyInt = Some true → ∃ z, number_integer f = Some z ∧ isSafeInteger z = true)).
  { unfold is_safe_number. destruct (fd_options field ≫= opt_onlyInt) as [[]|]; cbn; [|naive_solver..].
    destruct (number_integer f) as [z|]; [destruct (isSafeInteger z) eqn:E|]; cbn; naive_solver. }
  destruct (default false _ && _).
  { split; [done|]. intros (_ & _ & H & _). apply Hi in H. done. }
  destruct (fd_options field ≫= opt_min) as [lo|]; [destruct (SFltb f lo) eqn:E1|].
  { split; [done|]. intros (_ & _ & _ & H & _). by rewrite H in E1. }
  all: destruct (fd_options field ≫= opt_max) as [hi|]; [destruct (SFltb hi f) eqn:E2|].
  all: try (split; [done|]; intros (_ & _ & _ & _ & H); by rewrite H in E2).
  all: split; [intros [= <-]; split; [done|]; split; [done|]; split; [by apply Hi|]; naive_solver|naive_solver].
Qed.

Lemma normalize_iff field v w :
  normalizeLightAppFieldValue field v = Ok w ↔ w = v ∧ field_contract field v.
Proof.
  destruct (fd_type field) eqn:Ht, v; try (by apply normalize_number);
    unfold normalizeLightAppFieldValue, field_contract; rewrite Ht; cbn zeta;
    try (split; [done|by intros [_ []]]); try naive_solver.
  - destruct (_ <? _) eqn:E; bool_to_prop; [|naive_solver]. split; [done|]. intros [_ H]. lia.
  - rewrite <-canonical_date_iff. destruct (isCanonicalUtcDate s); naive_solver.
  - destruct (_ ≫= _); split; try done; by intros [_ []].
  - destruct (_ ≫= _); split; try done; by intros [_ []].
  - destruct (_ ≫= _); split; try done; by intros [_ []].
  - destruct (_ ≫= _); split; try done; by intros [_ []].
  - destruct (_ ≫= _); split; try done; by intros [_ []].
  - destruct (_ ≫= _) as [vs|]; [|split; [done|naive_solver]]. unfold includes.
    case_bool_decide; naive_solver.
  - destruct (_ ≫= _); split; try done; by intros [_ []].
  - destruct (_ ≫= _); split; try done; by intros [_ []].
Qed.

Lemma sql_roundtrip field v :
  field_contract field v →
  ∃ p, encodeSqlValue (fd_type field) v = Ok p ∧ p ≠ JNull ∧ decodeSqlValue (fd_type field) p = v.
Proof.
  unfold field_contract.
  destruct (fd_type field), v; try done; intros _; eexists; (split; [reflexivity|]); (split; [done|]);
    try reflexivity.
  destruct b; vm_compute; reflexivity.
Qed.

(** C39. A value is accepted exactly when it meets the contract of its field (text within its byte
    limit, a finite number within its options, a printed UTC instant, an admitted choice, a record
    id), it is returned unchanged, and what is bound to SQLite for it decodes back to it. *)
Theorem normalization_is_the_contract field v w :
  (normalizeLightAppFieldValue field v = Ok w ↔ w = v ∧ field_contract field v) ∧
  (normalizeLightAppFieldValue field v = Ok w →
   ∃ p, encodeSqlValue (fd_type field) w = Ok p ∧ decodeSqlValue (fd_type field) p = v).
Proof.
  split; [apply normalize_iff|]. intros [-> Hc]%normalize_iff.
  destruct (sql_roundtrip field v Hc) as (p & ? & _ & ?). by exists p.
Qed.

Definition demo_date_field : AdmittedField :=
  {| fd_id := js "fld_1"; fd_name := js "due"; fd_type := FDate; fd_required := true;
     fd_description := []; fd_unit := None; fd_namespace := None; fd_options := None |}.

Lemma normalization_is_the_contract_witness :
  field_contract demo_date_field (JStr (js "2024-02-29T23:59:59.999Z")).
Proof.
  apply (normalization_is_the_contract demo_date_field (JStr (js "2024-02-29T23:59:59.999Z"))
           (JStr (js "2024-02-29T23:59:59.999Z"))).
  vm_compute. reflexivity.
Defined.
