(* ===== verification/RecordStore.v ===== *)
(** * Light-app records (apps/nanocore/src/generative-kernel/native-command-worker.ts and
    app-model.ts)

    One app database as tables of rows, and the record commands on it: create, update and batch, with
    the checks before each write, the projections and the audit events.  A command that throws leaves
    the database as it was, since it runs in a savepoint of its caller; so a command is a function
    from a database to a failure or a result with the next database.

    Parameters: the clock, the encoded size of a value, the constraints SQLite checks on a row beyond
    its primary key (checks, unique indexes, foreign keys) and whether a row is in a compiled source
    query.  Bound values are stored as they are, which the engine does for well-formed strings and for
    numbers other than negative zero. *)

From Stdlib Require Import SpecFloat.
From S2P Require Import Prelude ObjectReference JsValue CanonicalJson Sha1 EntityId LightAppKernel RecordFilter SchemaAdmission FieldValues.

Local Open Scope string_scope.
Local Open Scope list_scope.
Local Open Scope Z_scope.

(** ** The database *)

(** One native row: the system columns and the field columns. *)
Record RecordRow := {
  row_revision : Z;
  row_created : jsstr;
  row_updated : jsstr;
  row_creator : jsstr;
  row_last_mutator : jsstr;
  row_create_request : jsstr;
  row_last_request : jsstr;
  row_write_schema_revision : Z;
  row_fields : gmap jsstr jsval;
}.

Inductive Lifecycle := Active | Retired.
#[export] Instance Lifecycle_eq_dec : EqDecision Lifecycle.
Proof. solve_decision. Defined.

(** The stored schema text is kept as the schema it parses to. *)
Record AppMetadataRow := {
  md_appId : jsstr;
  md_workspaceId : jsstr;
  md_title : jsstr;
  md_purpose : jsstr;
  md_appRevision : Z;
  md_schemaRevision : Z;
  md_schemaDigest : jsstr;
  md_schema : AdmittedSchema;
  md_lifecycle : Lifecycle;
  md_kernelFormatVersion : Z;
}.

(** The category and outcome of these events are constants, the workspace is that of the database. *)
Record AuditEvent := {
  au_actor : jsstr;
  au_requestId : jsstr;
  au_threadId : option jsstr;
  au_turnId : option jsstr;
  au_itemId : option jsstr;
  au_action : string;
  au_resource : jsstr;
  au_resourceRevision : Z;
  au_summary : jsstr;
}.

Notation Table := (gmap jsstr RecordRow).

Record AppDb := {
  db_appId : jsstr;
  db_metadata : option AppMetadataRow;
  db_tables : gmap jsstr Table;
  db_audit : list AuditEvent;
}.

Definition with_tables (db : AppDb) (tables : gmap jsstr Table) : AppDb :=
  {| db_appId := db_appId db; db_metadata := db_metadata db; db_tables := tables;
     db_audit := db_audit db |}.

(** The trusted context of a command: the actor as JSON text, the request and the executing Turn. *)
Record CommandContext := {
  cx_actor : jsstr;
  cx_requestId : jsstr;
  cx_execution : option (jsstr * jsstr);
}.

Definition maxRecords : Z := 10000.
Definition maxDataObjectBytes : Z := 16384.

(** ** Reading *)

Definition readMetadata (db : AppDb) : result CommandFailure AppMetadataRow :=
  match db_metadata db with
  | Some row => Ok row
  | None => fail unavailable (js "App authority is incomplete.") no_details
  end.

Definition requireCurrentSchema (metadata : AppMetadataRow) (schemaRevision : Z)
    : result CommandFailure AdmittedSchema :=
  if md_schemaRevision metadata =? schemaRevision then Ok (md_schema metadata)
  else fail schema_stale (js "Schema revision is stale.")
         {| dt_path := Some (js "schemaRevision"); dt_limit := None; dt_maximum := None;
            dt_status := None; dt_expectedRevision := Some schemaRevision;
            dt_currentRevision := Some (md_schemaRevision metadata) |}.

Definition assertWritable (metadata : AppMetadataRow) : result CommandFailure unit :=
  match md_lifecycle metadata with
  | Active => Ok tt
  | Retired => fail unsupported_operation (js "Retired apps reject writes.") no_details
  end.

Definition lift_kernel {A} (r : result KernelCommandError A) : result CommandFailure A :=
  match r with Ok a => Ok a | Err e => Err (Failed e) end.

(** A statement on a table that does not exist fails in the driver. *)
Definition table_of (db : AppDb) (collectionId : jsstr) : result CommandFailure Table :=
  match db_tables db !! collectionTableName collectionId with
  | Some t => Ok t
  | None => Err (NativeFailure "SQLITE_ERROR")
  end.

Definition readRecordRow (db : AppDb) (collection : AdmittedCollection) (recordId : jsstr)
    : result CommandFailure RecordRow :=
  t ← table_of db (cl_id collection);
  match t !! recordId with
  | Some row => Ok row
  | None => fail not_found (js "Record not found.") no_details
  end.

Record LightAppRecord := {
  lr_id : jsstr;
  lr_collectionId : jsstr;
  lr_collectionName : jsstr;
  lr_revision : Z;
  lr_schemaRevision : Z;
  lr_created : jsstr;
  lr_updated : jsstr;
  lr_data : list (jsstr * jsval);
}.

(** [row[fieldColumnName(field.id)]] *)
Definition field_value (row : RecordRow) (field : AdmittedField) : jsval :=
  decodeSqlValue (fd_type field) (default JUndef (row_fields row !! fieldColumnName (fd_id field))).

Definition projectRecord (collection : AdmittedCollection) (schemaRevision : Z) (recordId : jsstr)
    (row : RecordRow) (fields : option (list jsstr)) : LightAppRecord :=
  {| lr_id := recordId; lr_collectionId := cl_id collection; lr_collectionName := cl_name collection;
     lr_revision := row_revision row; lr_schemaRevision := schemaRevision;
     lr_created := row_created row; lr_updated := row_updated row;
     lr_data := foldl (λ data field,
         if match fields with Some names => negb (includes names (fd_name field)) | None => false end
         then data else put_member (fd_name field) (field_value row field) data)
       [] (cl_fields collection) |}.

Fixpoint split_comma (s : jsstr) : list jsstr :=
  match s with
  | [] => [[]]
  | c :: r =>
    if c =? cu "," then [] :: split_comma r
    else match split_comma r with w :: ws => (c :: w) :: ws | [] => [[c]] end
  end.

Fixpoint drop_spaces (s : jsstr) : jsstr :=
  match s with c :: r => if is_js_space c then drop_spaces r else s | [] => [] end.
Definition trim (s : jsstr) : jsstr := rev (drop_spaces (rev (drop_spaces s))).

Definition parseFields (collection : AdmittedCollection) (fields : option jsstr)
    : result CommandFailure (option (list jsstr)) :=
  match fields with
  | None => Ok None
  | Some text =>
    if bool_decide (trim text = []) then Ok None
    else
      let names := filterb (λ n, negb (bool_decide (n = []))) (trim <$> split_comma text) in
      match find (λ n, negb (includes (fd_name <$> cl_fields collection) n)) names with
      | Some name => fail validation_failed (js "Unknown field: " ++ name ++ js ".")
                       (at_path (js "fields"))
      | None => Ok (Some (dedup names))
      end
  end.

Definition readProjectedRecord (db : AppDb) (collection : AdmittedCollection) (schemaRevision : Z)
    (recordId : jsstr) (fields : option jsstr) : result CommandFailure LightAppRecord :=
  row ← readRecordRow db collection recordId;
  names ← parseFields collection fields;
  Ok (projectRecord collection schemaRevision recordId row names).

(** The first collection whose table holds the record. *)
Fixpoint replay_in (db : AppDb) (schemaRevision : Z) (recordId : jsstr)
    (collections : list AdmittedCollection) : result CommandFailure LightAppRecord :=
  match collections with
  | [] => fail recovery_required (js "Named record authority is missing.") no_details
  | collection :: rest =>
    t ← table_of db (cl_id collection);
    match t !! recordId with
    | Some row => Ok (projectRecord collection schemaRevision recordId row None)
    | None => replay_in db schemaRevision recordId rest
    end
  end.

Definition replayNamedRecord (db : AppDb) (recordId : jsstr) : result CommandFailure LightAppRecord :=
  metadata ← readMetadata db;
  replay_in db (sm_schemaRevision (md_schema metadata)) recordId (sm_collections (md_schema metadata)).

(** ** Caller data

    The batch bodies reach the commands as unknown JSON, so the data of a record may be any value:
    [Object.keys] and [Object.hasOwn] are those of JavaScript, where numbers and booleans have no keys,
    and arrays and strings have their indexes and [length]. *)

Definition indexed (l : list jsval) : list (jsstr * jsval) := imap (λ i v, (int_text (Z.of_nat i), v)) l.

Definition object_keys (data : jsval) : option (list jsstr) :=
  match data with
  | JObj ms => Some ms.*1
  | JArr l => Some (indexed l).*1
  | JStr s => Some (indexed ((λ c, JStr [c]) <$> s)).*1
  | JNum _ | JBool _ => Some []
  | JNull | JUndef | JExotic => None
  end.

Definition own_property (data : jsval) (key : jsstr) : option jsval :=
  match data with
  | JObj ms => lookup_member key ms
  | JArr l => if bool_decide (key = js "length") then Some (JNum (number_of_int (Z.of_nat (length l))))
              else lookup_member key (indexed l)
  | JStr s => if bool_decide (key = js "length") then Some (JNum (number_of_int (Z.of_nat (length s))))
              else lookup_member key (indexed ((λ c, JStr [c]) <$> s))
  | _ => None
  end.

(** [error instanceof KernelCommandError ? ... : ...] of [mapAppSqliteError], after the busy test. *)
Definition mapAppSqliteError (is_busy : string → bool) (error : CommandFailure) : CommandFailure :=
  match error with
  | Failed e => Failed e
  | NativeFailure code =>
    if is_busy code then Failed (kernel_error unavailable (js "App database is busy.") no_details)
    else if bool_decide (code = "SQLITE_CONSTRAINT_UNIQUE") || bool_decide (code = "SQLITE_CONSTRAINT_PRIMARYKEY")
    then Failed (kernel_error conflict (js "Record uniqueness conflict.") no_details)
    else if String.prefix "SQLITE_CONSTRAINT" code
    then Failed (kernel_error validation_failed (js "Record failed a native constraint.")
                   (at_path (js "data")))
    else error
  | TypeFailed => error
  end.

(** [decodeURIComponent] of ObjectReference on the selectors of batch URLs *)

Example decode_euro : decodeURIComponent (js "a%E2%82%AC%2f") = Some (js "a" ++ [0x20ac] ++ js "/").
Proof. vm_compute. reflexivity. Qed.
Example decode_overlong : decodeURIComponent (js "%C0%AF") = None.
Proof. vm_compute. reflexivity. Qed.

Section Store.
Context (json_bytes : jsval → Z).
Context (native_constraint : AdmittedCollection → gmap jsstr Table → jsstr → RecordRow → option string).
Context (source_matches : AppDb → AdmittedCollection → jsstr → CompiledFilter → bool).
Context (sha1_digest : list Z → list Z).

(** ** Validation *)

Definition coerceFieldValue (db : AppDb) (schema : AdmittedSchema) (field : AdmittedField)
    (value : jsval) (pendingCreatedIds : gset jsstr) : result CommandFailure jsval :=
  canonical ← normalizeLightAppFieldValue field value;
  match fd_type field, canonical with
  | FRelation, JStr recordId =>
    if bool_decide (recordId ∈ pendingCreatedIds)
    then fail validation_failed (js "Batch relations cannot target records created in the same batch.")
           (at_path (js "requests"))
    else
      match fd_options field ≫= opt_collection with
      | None => Err TypeFailed
      | Some targetId =>
        match find (λ c, bool_decide (cl_id c = targetId)) (sm_collections schema) with
        | None => fail validation_failed
                    (field_message (fd_name field) " has an unknown relation target.") (at_path (js "data"))
        | Some target =>
          t ← table_of db (cl_id target);
          match t !! recordId with
          | Some _ => Ok (JStr recordId)
          | None => refuse_field field " references a missing record."
          end
        end
      end
  | _, _ => Ok canonical
  end.

Fixpoint validate_fields (db : AppDb) (schema : AdmittedSchema) (data : jsval) (create : bool)
    (pendingCreatedIds : gset jsstr) (fields : list AdmittedField)
    : result CommandFailure (gmap jsstr jsval) :=
  match fields with
  | [] => Ok ∅
  | field :: fields =>
    value ← match own_property data (fd_name field) with
            | None =>
              if create && fd_required field then refuse_field field " is required." else Ok None
            | Some JNull =>
              if fd_required field then refuse_field field " cannot be null." else Ok (Some JNull)
            | Some value =>
              v ← coerceFieldValue db schema field value pendingCreatedIds; Ok (Some v)
            end;
    values ← validate_fields db schema data create pendingCreatedIds fields;
    Ok (match value with Some v => <[fd_name field := v]> values | None => values end)
  end.

Definition too_large {A} : result CommandFailure A :=
  fail limit_exceeded (js "Record data exceeds 16 KiB.") (over_limit "dataObjectBytes" maxDataObjectBytes).

Definition validateRecordData (db : AppDb) (collection : AdmittedCollection) (schema : AdmittedSchema)
    (data : jsval) (create : bool) (pendingCreatedIds : gset jsstr)
    : result CommandFailure (gmap jsstr jsval) :=
  if maxDataObjectBytes <? json_bytes data then too_large
  else
    match object_keys data with
    | None => Err TypeFailed
    | Some keys =>
      match find (λ k, negb (includes (fd_name <$> cl_fields collection) k)) keys with
      | Some key => fail validation_failed (js "Unknown field: " ++ key ++ js ".") (at_path key)
      | None => validate_fields db schema data create pendingCreatedIds (cl_fields collection)
      end
    end.

Fixpoint count_records (db : AppDb) (collections : list AdmittedCollection)
    : result CommandFailure Z :=
  match collections with
  | [] => Ok 0
  | c :: collections =>
    t ← table_of db (cl_id c);
    total ← count_records db collections;
    Ok (Z.of_nat (size t) + total)
  end.

Definition assertRecordCeiling (db : AppDb) (schema : AdmittedSchema) (additional : Z)
    : result CommandFailure unit :=
  total ← count_records db (sm_collections schema);
  if maxRecords <? total + additional
  then fail limit_exceeded (js "App record limit exceeded.") (over_limit "records" maxRecords)
  else Ok tt.

(** ** Writing *)

(** The columns bound for the fields: [encodeSqlValue(field.type, values[field.name] ?? null)]. *)
Fixpoint encode_columns (values : gmap jsstr jsval) (fields : list AdmittedField)
    (columns : gmap jsstr jsval) : result CommandFailure (gmap jsstr jsval) :=
  match fields with
  | [] => Ok columns
  | field :: fields =>
    p ← encodeSqlValue (fd_type field) (default JNull (values !! fd_name field));
    encode_columns values fields (<[fieldColumnName (fd_id field) := p]> columns)
  end.

(** The table write of one row, after the native constraints.  The statements name quoted tables and
    columns and bind values; a table is found by its native name.  A bound value is kept as it is: what the
    engine makes of a string with a lone surrogate and of a negative zero is not modelled. *)
Definition write_row (db : AppDb) (collection : AdmittedCollection) (t : Table) (recordId : jsstr)
    (row : RecordRow) : result CommandFailure AppDb :=
  match native_constraint collection (db_tables db) recordId row with
  | Some code => Err (NativeFailure code)
  | None => Ok (with_tables db
                  (<[collectionTableName (cl_id collection) := <[recordId := row]> t]> (db_tables db)))
  end.

Definition insertRecordRow (db : AppDb) (now : jsstr) (collection : AdmittedCollection)
    (schema : AdmittedSchema) (recordId : jsstr) (data : jsval) (actor requestId : jsstr)
    (pendingCreatedIds : gset jsstr) : result CommandFailure AppDb :=
  values ← validateRecordData db collection schema data true pendingCreatedIds;
  t ← table_of db (cl_id collection);
  columns ← encode_columns values (cl_fields collection) ∅;
  match t !! recordId with
  | Some _ => Err (NativeFailure "SQLITE_CONSTRAINT_PRIMARYKEY")
  | None =>
    write_row db collection t recordId
      {| row_revision := 1; row_created := now; row_updated := now; row_creator := actor;
         row_last_mutator := actor; row_create_request := requestId; row_last_request := requestId;
         row_write_schema_revision := sm_schemaRevision schema; row_fields := columns |}
  end.

(** [`${action}. ${facts.join('; ')}.`] *)
Definition record_fact (r : LightAppRecord) : jsstr :=
  js "collection " ++ lr_collectionId r ++ js ", record " ++ lr_id r ++ js ", record revision "
  ++ int_text (lr_revision r).

Definition audit_summary (action : string) (schemaRevision : Z) (collectionIds : list jsstr)
    (records : list jsstr) : jsstr :=
  js action ++ js ". "
  ++ join (js "; ") ([js "Schema revision " ++ int_text schemaRevision]
       ++ match collectionIds with [] => [] | _ => [js "collections " ++ join (js ", ") collectionIds] end
       ++ records)
  ++ js ".".

Definition recordKernelAudit (db : AppDb) (context : CommandContext) (action : string)
    (resource : jsstr) (resourceRevision schemaRevision : Z) (collectionIds : list jsstr)
    (records : list jsstr) (itemId : option jsstr) : AppDb :=
  {| db_appId := db_appId db; db_metadata := db_metadata db; db_tables := db_tables db;
     db_audit := db_audit db ++
       [{| au_actor := cx_actor context; au_requestId := cx_requestId context;
           au_threadId := fst <$> cx_execution context; au_turnId := snd <$> cx_execution context;
           au_itemId := itemId; au_action := action; au_resource := resource;
           au_resourceRevision := resourceRevision;
           au_summary := audit_summary action schemaRevision collectionIds records |}] |}.

Record UpdateBody := {
  ub_schemaRevision : Z;
  (** Unchecked JSON in a batch; a number that is not an integer never equals a revision. *)
  ub_expectedRecordRevision : jsval;
  ub_data : jsval;
}.

(** [presentationId] and [actionName] of a lineage are not read here. *)
Record Lineage := { ln_itemId : jsstr; ln_sourceFilter : option jsstr }.

Definition is_revision (revision : Z) (expected : jsval) : bool :=
  match expected with JNum f => bool_decide (number_integer f = Some revision) | _ => false end.

(** The expected revision as error metadata. *)
Definition revision_detail (expected : jsval) : option Z :=
  match expected with JNum f => number_integer f | _ => None end.

Definition check_source (db : AppDb) (collection : AdmittedCollection) (recordId : jsstr)
    (lineage : option Lineage) : result CommandFailure unit :=
  match lineage ≫= ln_sourceFilter with
  | None | Some [] => Ok tt
  | Some filter =>
    match compileRecordFilter (columnFor collection (js "filter")) (Some filter) with
    | Err (Rejected e) => Err (Failed e)
    | Err OutOfFuel => Err TypeFailed
    | Ok None => Ok tt
    | Ok (Some compiled) =>
      if source_matches db collection recordId compiled then Ok tt
      else fail validation_failed (js "Record is no longer a member of the bound source query.")
             (at_path (js "filter"))
    end
  end.

(** The fields of the row after the update, for the size check. *)
Definition merged_data (collection : AdmittedCollection) (current : RecordRow) (data : jsval)
    (values : gmap jsstr jsval) : list (jsstr * jsval) :=
  foldl (λ merged field,
    put_member (fd_name field)
      (match own_property data (fd_name field) with
       | Some _ => default JUndef (values !! fd_name field)
       | None => field_value current field
       end) merged) [] (cl_fields collection).

Definition assigned_fields (collection : AdmittedCollection) (data : jsval) : list AdmittedField :=
  filterb (λ f, match own_property data (fd_name f) with Some _ => true | None => false end)
    (cl_fields collection).

(** The row was read before, so the [UPDATE] changes exactly one row. *)
Definition applyRecordUpdate (db : AppDb) (now : jsstr) (context : CommandContext)
    (collectionSelector recordId : jsstr) (body : UpdateBody) (audit : bool)
    (lineage : option Lineage) : result CommandFailure AppDb :=
  metadata ← readMetadata db;
  _ ← assertWritable metadata;
  schema ← requireCurrentSchema metadata (ub_schemaRevision body);
  collection ← lift_kernel (resolveCollection schema collectionSelector);
  current ← readRecordRow db collection recordId;
  if negb (is_revision (row_revision current) (ub_expectedRecordRevision body)) then
    fail conflict (js "Record revision is stale.")
      {| dt_path := Some (js "expectedRecordRevision"); dt_limit := None; dt_maximum := None;
         dt_status := None; dt_expectedRevision := revision_detail (ub_expectedRecordRevision body);
         dt_currentRevision := Some (row_revision current) |}
  else
    _ ← check_source db collection recordId lineage;
    values ← validateRecordData db collection schema (ub_data body) false ∅;
    if maxDataObjectBytes <? json_bytes (JObj (merged_data collection current (ub_data body) values))
    then too_large
    else
      columns ← encode_columns values (assigned_fields collection (ub_data body)) (row_fields current);
      t ← table_of db (cl_id collection);
      db ← write_row db collection t recordId
             {| row_revision := row_revision current + 1; row_created := row_created current;
                row_updated := now; row_creator := row_creator current;
                row_last_mutator := cx_actor context;
                row_create_request := row_create_request current;
                row_last_request := cx_requestId context;
                row_write_schema_revision := sm_schemaRevision schema; row_fields := columns |};
      Ok (if audit then
            recordKernelAudit db context "kernel.records.update"
              (js "light-app:" ++ db_appId db ++ js ":record:" ++ recordId) (row_revision current + 1)
              (sm_schemaRevision schema) []
              [js "collection " ++ cl_id collection ++ js ", record " ++ recordId
               ++ js ", record revision " ++ int_text (row_revision current + 1)]
              (ln_itemId <$> lineage)
          else db).

(** ** Commands *)

Definition createRecord (db : AppDb) (now : jsstr) (context : CommandContext)
    (collectionSelector : jsstr) (schemaRevision : Z) (data : jsval)
    : result CommandFailure (LightAppRecord * AppDb) :=
  let recordId := allocateRecordId sha1_digest (db_appId db) (cx_requestId context) 0 Create in
  metadata ← readMetadata db;
  _ ← assertWritable metadata;
  schema ← requireCurrentSchema metadata schemaRevision;
  collection ← lift_kernel (resolveCollection schema collectionSelector);
  _ ← assertRecordCeiling db schema 1;
  db ← insertRecordRow db now collection schema recordId data (cx_actor context)
         (cx_requestId context) ∅;
  record ← readProjectedRecord db collection (sm_schemaRevision schema) recordId None;
  Ok (record, recordKernelAudit db context "kernel.records.create"
                (js "light-app:" ++ db_appId db ++ js ":record:" ++ recordId) 1
                (sm_schemaRevision schema) [] [record_fact record] None).

Definition updateRecord (db : AppDb) (now : jsstr) (context : CommandContext)
    (collectionSelector recordId : jsstr) (body : UpdateBody) (lineage : option Lineage)
    : result CommandFailure (LightAppRecord * AppDb) :=
  db ← applyRecordUpdate db now context collectionSelector recordId body true lineage;
  metadata ← readMetadata db;
  collection ← lift_kernel (resolveCollection (md_schema metadata) collectionSelector);
  record ← readProjectedRecord db collection (ub_schemaRevision body) recordId None;
  Ok (record, db).

Definition stale_app {A} (metadata : AppMetadataRow) (expectedAppRevision : Z)
    : result CommandFailure A :=
  fail conflict (js "App revision is stale.")
    {| dt_path := Some (js "expectedAppRevision"); dt_limit := None; dt_maximum := None;
       dt_status := None; dt_expectedRevision := Some expectedAppRevision;
       dt_currentRevision := Some (md_appRevision metadata) |}.

Definition retireApp (db : AppDb) (context : CommandContext) (expectedAppRevision : Z)
    : result CommandFailure AppDb :=
  metadata ← readMetadata db;
  _ ← assertWritable metadata;
  if negb (md_appRevision metadata =? expectedAppRevision) then stale_app metadata expectedAppRevision
  else
    let next := {| md_appId := md_appId metadata; md_workspaceId := md_workspaceId metadata;
                   md_title := md_title metadata; md_purpose := md_purpose metadata;
                   md_appRevision := md_appRevision metadata + 1;
                   md_schemaRevision := md_schemaRevision metadata;
                   md_schemaDigest := md_schemaDigest metadata; md_schema := md_schema metadata;
                   md_lifecycle := Retired;
                   md_kernelFormatVersion := md_kernelFormatVersion metadata |} in
    Ok (recordKernelAudit
          {| db_appId := db_appId db; db_metadata := Some next; db_tables := db_tables db;
             db_audit := db_audit db |}
          context "kernel.apps.retire" (js "light-app:" ++ db_appId db)
          (md_appRevision metadata + 1) (md_schemaRevision metadata) [] [] None).

(** ** Batches *)

Inductive BatchMethod := POST | PATCH.

Record BatchEntry := { be_method : BatchMethod; be_url : jsstr; be_body : jsval }.

Inductive ParsedBatchEntry :=
| ParsedPost (collection : AdmittedCollection) (data : jsval)
| ParsedPatch (collection : AdmittedCollection) (recordId : jsstr) (expectedRecordRevision data : jsval).

Definition is_slash (c : Z) : bool := c =? cu "/".

(** [/^\/api\/collections\/([^/]+)\/records$/] and
    [/^\/api\/collections\/([^/]+)\/records\/([^/]+)$/], with their groups. *)
Definition url_selector (url : jsstr) : option (jsstr * jsstr) :=
  if starts_with (js "/api/collections/") url then
    let '(selector, rest) := span (λ c, negb (is_slash c)) (drop 17 url) in
    match selector with [] => None | _ => Some (selector, rest) end
  else None.

Definition match_post (url : jsstr) : option jsstr :=
  '(selector, rest) ← url_selector url;
  if bool_decide (rest = js "/records") then Some selector else None.

Definition match_patch (url : jsstr) : option (jsstr * jsstr) :=
  '(selector, rest) ← url_selector url;
  if starts_with (js "/records/") rest then
    let recordId := drop 9 rest in
    if negb (bool_decide (recordId = [])) && forallb (λ c, negb (is_slash c)) recordId
    then Some (selector, recordId) else None
  else None.

(** [parsedBody[key]] of an object or array body that is not [undefined]. *)
Definition body_member (body : jsval) (key : string) : option jsval :=
  match body with
  | JObj ms => match lookup_member (js key) ms with Some JUndef | None => None | Some v => Some v end
  | _ => None
  end.

Definition batch_failure {A} (message : string) : result CommandFailure A :=
  fail validation_failed (js message) (at_path (js "requests")).

Definition batch_collection (schema : AdmittedSchema) (selector : jsstr)
    : result CommandFailure AdmittedCollection :=
  match decodeURIComponent selector with
  | Some s => lift_kernel (resolveCollection schema s)
  | None => Err TypeFailed
  end.

Definition parse_entry (schema : AdmittedSchema) (entry : BatchEntry)
    : result CommandFailure ParsedBatchEntry :=
  match be_method entry with
  | POST =>
    match match_post (be_url entry) with
    | None => batch_failure "Unsupported batch create URL."
    | Some selector =>
      match body_member (be_body entry) "data" with
      | None => batch_failure "Batch create bodies require data."
      | Some data =>
        collection ← batch_collection schema selector;
        Ok (ParsedPost collection data)
      end
    end
  | PATCH =>
    match match_patch (be_url entry) with
    | None => batch_failure "Unsupported batch update URL."
    | Some (selector, recordId) =>
      match body_member (be_body entry) "data", body_member (be_body entry) "expectedRecordRevision" with
      | Some data, Some expected =>
        collection ← batch_collection schema selector;
        Ok (ParsedPatch collection recordId expected data)
      | _, _ => batch_failure "Batch update bodies require data and expectedRecordRevision."
      end
    end
  end.

Definition parseBatchEntries (schema : AdmittedSchema) (requests : list BatchEntry)
    : result CommandFailure (list ParsedBatchEntry) := mapM (parse_entry schema) requests.

Definition is_post (entry : ParsedBatchEntry) : bool :=
  match entry with ParsedPost _ _ => true | ParsedPatch _ _ _ _ => false end.

(** The sets and the ids the loop collects. *)
Record BatchState := {
  bs_updateTargets : gset jsstr;
  bs_createdIds : gset jsstr;
  bs_resultIds : list jsstr;
}.

Definition batch_step (context : CommandContext) (schema : AdmittedSchema) (now : jsstr) (index : Z)
    (entry : ParsedBatchEntry) (st : BatchState * AppDb) : result CommandFailure (BatchState * AppDb) :=
  let '(st, db) := st in
  match entry with
  | ParsedPost collection data =>
    let recordId := allocateRecordId sha1_digest (db_appId db) (cx_requestId context) index Batch in
    let createdIds := {[recordId]} ∪ bs_createdIds st in
    db ← insertRecordRow db now collection schema recordId data (cx_actor context)
           (cx_requestId context) createdIds;
    Ok ({| bs_updateTargets := bs_updateTargets st; bs_createdIds := createdIds;
           bs_resultIds := bs_resultIds st ++ [recordId] |}, db)
  | ParsedPatch collection recordId expected data =>
    if bool_decide (recordId ∈ bs_updateTargets st) || bool_decide (recordId ∈ bs_createdIds st)
    then batch_failure "Batch update targets must be unique existing records."
    else
      db ← applyRecordUpdate db now context (cl_id collection) recordId
             {| ub_schemaRevision := sm_schemaRevision schema; ub_expectedRecordRevision := expected;
                ub_data := data |} false None;
      Ok ({| bs_updateTargets := {[recordId]} ∪ bs_updateTargets st;
             bs_createdIds := bs_createdIds st; bs_resultIds := bs_resultIds st ++ [recordId] |}, db)
  end.

Fixpoint batch_loop (context : CommandContext) (schema : AdmittedSchema) (clock : Z → jsstr)
    (index : Z) (entries : list ParsedBatchEntry) (st : BatchState * AppDb)
    : result CommandFailure (BatchState * AppDb) :=
  match entries with
  | [] => Ok st
  | entry :: entries =>
    st ← batch_step context schema (clock index) index entry st;
    batch_loop context schema clock (index + 1) entries st
  end.

(** The catalog item of the response is read from the metadata and is left out. *)
Definition executeBatch (db : AppDb) (clock : Z → jsstr) (context : CommandContext)
    (schemaRevision : Z) (requests : list BatchEntry)
    : result CommandFailure (list LightAppRecord * AppDb) :=
  metadata ← readMetadata db;
  _ ← assertWritable metadata;
  schema ← requireCurrentSchema metadata schemaRevision;
  parsed ← parseBatchEntries schema requests;
  _ ← assertRecordCeiling db schema (Z.of_nat (length (filterb is_post parsed)));
  '(st, db) ← batch_loop context schema clock 0 parsed
                ({| bs_updateTargets := ∅; bs_createdIds := ∅; bs_resultIds := [] |}, db);
  items ← mapM (replayNamedRecord db) (bs_resultIds st);
  Ok (items, recordKernelAudit db context "kernel.records.batch" (js "light-app:" ++ db_appId db)
               (sm_schemaRevision schema) (sm_schemaRevision schema) [] (record_fact <$> items) None).
End Store.

(** ** Stored values *)

(** A relation value names a record of its target collection. *)
Definition relation_ok (tables : gmap jsstr Table) (schema : AdmittedSchema) (f : AdmittedField)
    (v : jsval) : Prop :=
  fd_type f = FRelation → ∀ rid, v = JStr rid →
    ∃ target t, fd_options f ≫= opt_collection = Some (cl_id target) ∧
      target ∈ sm_collections schema ∧
      tables !! collectionTableName (cl_id target) = Some t ∧ is_Some (t !! rid).

(** A column holds null, if the field is optional, or an accepted value with its target. *)
Definition stored_ok (tables : gmap jsstr Table) (schema : AdmittedSchema) (f : AdmittedField)
    (p : jsval) : Prop :=
  (p = JNull ∧ fd_required f = false) ∨
  ∃ v, field_contract f v ∧ encodeSqlValue (fd_type f) v = Ok p ∧ relation_ok tables schema f v.

Definition row_ok (tables : gmap jsstr Table) (schema : AdmittedSchema) (c : AdmittedCollection)
    (row : RecordRow) : Prop :=
  1 <= row_revision row ∧
  ∀ f, f ∈ cl_fields c →
    ∃ p, row_fields row !! fieldColumnName (fd_id f) = Some p ∧ stored_ok tables schema f p.

(** Native names are distinct, as the identifiers of an admitted schema make them. *)
Record schema_wf (s : AdmittedSchema) : Prop := {
  sw_tables : NoDup ((λ c, collectionTableName (cl_id c)) <$> sm_collections s);
  sw_columns : ∀ c, c ∈ sm_collections s → NoDup ((λ f, fieldColumnName (fd_id f)) <$> cl_fields c);
  sw_names : ∀ c, c ∈ sm_collections s → NoDup (fd_name <$> cl_fields c);
}.

Definition tables_ok (tables : gmap jsstr Table) (schema : AdmittedSchema) : Prop :=
  ∀ c, c ∈ sm_collections schema → ∃ t, tables !! collectionTableName (cl_id c) = Some t ∧
    ∀ rid row, t !! rid = Some row → row_ok tables schema c row.

(** No record disappears. *)
Definition tables_grow (tables tables' : gmap jsstr Table) : Prop :=
  ∀ name t rid, tables !! name = Some t → is_Some (t !! rid) →
    ∃ t', tables' !! name = Some t' ∧ is_Some (t' !! rid).

Lemma stored_grow tables tables' schema f p :
  tables_grow tables tables' → stored_ok tables schema f p → stored_ok tables' schema f p.
Proof.
  intros Hg [H|(v & Hc & He & Hr)]; [by left|right]. exists v. split; [done|]. split; [done|].
  intros Ht rid Hv. destruct (Hr Ht rid Hv) as (target & t & Ho & Hin & Hl & Hs).
  destruct (Hg _ _ _ Hl Hs) as (t' & Hl' & Hs'). by exists target, t'.
Qed.

Lemma row_grow tables tables' schema c row :
  tables_grow tables tables' → row_ok tables schema c row → row_ok tables' schema c row.
Proof.
  intros Hg [Hr Hf]. split; [done|]. intros f Hin. destruct (Hf f Hin) as (p & Hp & Hs).
  exists p. split; [done|]. by eapply stored_grow.
Qed.

(** Storing a row that is ok keeps all tables ok. *)
Lemma write_tables_ok tables schema c t rid row :
  schema_wf schema → tables_ok tables schema → c ∈ sm_collections schema →
  tables !! collectionTableName (cl_id c) = Some t → row_ok tables schema c row →
  let tables' := <[collectionTableName (cl_id c) := <[rid := row]> t]> tables in
  tables_ok tables' schema ∧ tables_grow tables tables'.
Proof.
  intros Hwf Hok Hc Ht Hrow tables'.
  assert (Hg : tables_grow tables tables').
  { intros name u r Hu Hs. unfold tables'. destruct (decide (name = collectionTableName (cl_id c))) as [->|Hn].
    - rewrite lookup_insert_eq. eexists. split; [done|]. rewrite Ht in Hu. injection Hu as <-.
      destruct (decide (r = rid)) as [->|Hr]; [by rewrite lookup_insert_eq|by rewrite lookup_insert_ne].
    - exists u. by rewrite lookup_insert_ne. }
  split; [|done]. intros d Hd. unfold tables'.
  destruct (decide (collectionTableName (cl_id d) = collectionTableName (cl_id c))) as [E|Hn].
  - assert (d = c) as ->.
    { apply list_elem_of_lookup in Hd as [i Hi], Hc as [j Hj].
      assert (i = j); [|congruence].
      eapply (NoDup_lookup _ i j (collectionTableName (cl_id c))); [apply (sw_tables _ Hwf)| |];
        rewrite list_lookup_fmap; [rewrite Hi|rewrite Hj]; cbn [fmap option_fmap option_map];
        [by rewrite E|reflexivity]. }
    rewrite lookup_insert_eq. eexists. split; [done|]. intros r row' Hr. eapply row_grow; [exact Hg|].
    destruct (decide (r = rid)) as [->|Hne].
    + rewrite lookup_insert_eq in Hr. by injection Hr as <-.
    + rewrite lookup_insert_ne in Hr by done. destruct (Hok c Hc) as (u & Hu & H).
      rewrite Ht in Hu. injection Hu as <-. by eapply H.
  - rewrite lookup_insert_ne by done. destruct (Hok d Hd) as (u & Hu & H). exists u. split; [done|].
    intros r row' Hr. eapply row_grow; [exact Hg|]. by eapply H.
Qed.

(** ** What validation establishes *)

Section StoreProofs.
Context (json_bytes : jsval → Z).
Context (native_constraint : AdmittedCollection → gmap jsstr Table → jsstr → RecordRow → option string).
Context (source_matches : AppDb → AdmittedCollection → jsstr → CompiledFilter → bool).
Context (sha1_digest : list Z → list Z).

Lemma table_of_Ok db id t : table_of db id = Ok t ↔ db_tables db !! collectionTableName id = Some t.
Proof. unfold table_of. destruct (_ !! _); split; congruence. Qed.

Lemma coerce_Ok db schema f v pend w :
  coerceFieldValue db schema f v pend = Ok w →
  w = v ∧ field_contract f v ∧ relation_ok (db_tables db) schema f v ∧
  (fd_type f = FRelation → ∀ rid, v = JStr rid → rid ∉ pend).
Proof.
  unfold coerceFieldValue. intros (u & Hu & H)%bind_Ok. apply normalize_iff in Hu as [-> Hc].
  unfold relation_ok. destruct (fd_type f) eqn:T; try (injection H as <-; naive_solver).
  destruct v as [| | | | |rid| |]; try (unfold field_contract in Hc; rewrite T in Hc; done).
  case_bool_decide as Hp; [done|]. destruct (_ ≫= _) as [tid|] eqn:O; [|done].
  destruct (find _ _) as [target|] eqn:F; [|done]. apply find_Some in F as [Fin Fid]. bool_to_prop.
  apply bind_Ok in H as (t & Ht & H). apply table_of_Ok in Ht.
  destruct (t !! rid) as [row|] eqn:R; [|done]. injection H as <-.
  split; [done|]. split; [done|]. split; [|naive_solver]. intros _ r [= <-].
  exists target, t. split; [congruence|]. split; [done|]. split; [done|]. by rewrite R.
Qed.

(** What validation establishes of one field of the data. *)
Definition checked_field (tables : gmap jsstr Table) (schema : AdmittedSchema) (create : bool)
    (pend : gset jsstr) (f : AdmittedField) (o : option jsval) : Prop :=
  match o with
  | None => create = true → fd_required f = false
  | Some JNull => fd_required f = false
  | Some v => field_contract f v ∧ relation_ok tables schema f v ∧
              (fd_type f = FRelation → ∀ rid, v = JStr rid → rid ∉ pend)
  end.

Lemma validate_fields_Ok db schema data create pend fields : ∀ values,
  NoDup (fd_name <$> fields) → validate_fields db schema data create pend fields = Ok values →
  (∀ k, k ∉ (fd_name <$> fields) → values !! k = None) ∧
  ∀ f, f ∈ fields → values !! fd_name f = own_property data (fd_name f) ∧
    checked_field (db_tables db) schema create pend f (own_property data (fd_name f)).
Proof.
  induction fields as [|g fields IH]; intros values Hn; cbn [validate_fields].
  { intros [= <-]. split; [done|]. intros f Hf. inversion Hf. }
  cbn [fmap list_fmap] in Hn. apply NoDup_cons in Hn as [Hg Hn].
  intros (o & Ho & H)%bind_Ok. apply bind_Ok in H as (vs & Hvs & [= <-]).
  destruct (IH vs Hn Hvs) as [IH1 IH2].
  assert (Hstep : o = own_property data (fd_name g) ∧
    checked_field (db_tables db) schema create pend g (own_property data (fd_name g))).
  { unfold checked_field. destruct (own_property data (fd_name g)) as [v|].
    - destruct v as [| | | | | | |]; try (apply bind_Ok in Ho as (w & Hw & [= <-]);
        apply coerce_Ok in Hw as (-> & ? & ? & ?); done).
      destruct (fd_required g); [done|]. by injection Ho as <-.
    - destruct create, (fd_required g); cbn in Ho; try done; by injection Ho as <-. }
  destruct Hstep as [-> Hck]. split.
  - intros k Hk. cbn in Hk. apply not_elem_of_cons in Hk as [Hne Hk].
    destruct (own_property data (fd_name g)); [rewrite lookup_insert_ne by done|]; auto.
  - intros f [->|Hf]%elem_of_cons.
    + split; [|done]. destruct (own_property data (fd_name g)); [by rewrite lookup_insert_eq|].
      by apply IH1.
    + destruct (IH2 f Hf) as [E C]. split; [|done]. rewrite <-E.
      destruct (own_property data (fd_name g)); [|done]. rewrite lookup_insert_ne; [done|].
      intros He. apply Hg. rewrite He. by apply list_elem_of_fmap_2.
Qed.

Lemma validate_Ok db c schema data create pend values :
  NoDup (fd_name <$> cl_fields c) →
  validateRecordData json_bytes db c schema data create pend = Ok values →
  ∀ f, f ∈ cl_fields c → values !! fd_name f = own_property data (fd_name f) ∧
    checked_field (db_tables db) schema create pend f (own_property data (fd_name f)).
Proof.
  intros Hn. unfold validateRecordData. destruct (_ <? _); [done|].
  destruct (object_keys data); [|done]. destruct (find _ _); [done|].
  intros H. by apply validate_fields_Ok in H as [_ H].
Qed.

Lemma encode_columns_Ok values fields : ∀ columns columns',
  NoDup ((λ f, fieldColumnName (fd_id f)) <$> fields) →
  encode_columns values fields columns = Ok columns' →
  (∀ k, k ∉ ((λ f, fieldColumnName (fd_id f)) <$> fields) → columns' !! k = columns !! k) ∧
  ∀ f, f ∈ fields → ∃ p, columns' !! fieldColumnName (fd_id f) = Some p ∧
    encodeSqlValue (fd_type f) (default JNull (values !! fd_name f)) = Ok p.
Proof.
  induction fields as [|g fields IH]; intros columns columns' Hn; cbn [encode_columns].
  { intros [= <-]. split; [done|]. intros f Hf. inversion Hf. }
  cbn [fmap list_fmap] in Hn. apply NoDup_cons in Hn as [Hg Hn].
  intros (p & Hp & H)%bind_Ok. destruct (IH _ _ Hn H) as [IH1 IH2]. split.
  - intros k [Hne Hk]%not_elem_of_cons. rewrite IH1 by done. by rewrite lookup_insert_ne.
  - intros f [->|Hf]%elem_of_cons; [|by apply IH2]. exists p. split; [|done].
    rewrite IH1 by done. by rewrite lookup_insert_eq.
Qed.

(** An encoded checked field is a stored value. *)
Lemma checked_stored tables schema pend f o p :
  checked_field tables schema true pend f o →
  encodeSqlValue (fd_type f) (default JNull o) = Ok p → stored_ok tables schema f p.
Proof.
  unfold checked_field, stored_ok. destruct o as [v|]; cbn [default from_option id]; intros Hc Hp.
  - assert (Hv : (v = JNull ∧ fd_required f = false) ∨ (field_contract f v ∧ relation_ok tables schema f v)).
    { destruct v; try (right; destruct Hc as (? & ? & _); done). by left. }
    destruct Hv as [[-> Hr]|[H1 H2]]; [left|right; by exists v].
    split; [by injection Hp as <-|done].
  - left. split; [by injection Hp as <-|auto].
Qed.

(** ** Preservation *)

Lemma write_row_Ok db c t rid row db' :
  write_row native_constraint db c t rid row = Ok db' →
  db' = with_tables db (<[collectionTableName (cl_id c) := <[rid := row]> t]> (db_tables db)).
Proof. unfold write_row. destruct (native_constraint _ _ _ _); [done|]. by intros [= <-]. Qed.

(** An insertion adds one row that is ok. *)
Lemma insert_Ok db now c schema rid data actor req pend db' :
  schema_wf schema → c ∈ sm_collections schema →
  insertRecordRow json_bytes native_constraint db now c schema rid data actor req pend = Ok db' →
  ∃ t row, db_tables db !! collectionTableName (cl_id c) = Some t ∧ t !! rid = None ∧
    row_ok (db_tables db) schema c row ∧ row_revision row = 1 ∧ row_created row = now ∧
    row_updated row = now ∧
    (∀ f, f ∈ cl_fields c → ∃ p, row_fields row !! fieldColumnName (fd_id f) = Some p ∧
       encodeSqlValue (fd_type f) (default JNull (own_property data (fd_name f))) = Ok p ∧
       checked_field (db_tables db) schema true pend f (own_property data (fd_name f))) ∧
    db' = with_tables db (<[collectionTableName (cl_id c) := <[rid := row]> t]> (db_tables db)).
Proof.
  intros Hwf Hc. unfold insertRecordRow. intros (values & Hv & H)%bind_Ok.
  apply bind_Ok in H as (t & Ht & H). apply table_of_Ok in Ht.
  apply bind_Ok in H as (columns & Hcol & H). destruct (t !! rid) eqn:R; [done|].
  match type of H with write_row _ _ _ _ _ ?r = _ => exists t, r end. apply write_row_Ok in H as ->.
  pose proof (validate_Ok _ _ _ _ _ _ _ (sw_names _ Hwf c Hc) Hv) as Hval.
  destruct (encode_columns_Ok _ _ _ _ (sw_columns _ Hwf c Hc) Hcol) as [_ Henc].
  assert (Hf : ∀ f, f ∈ cl_fields c → ∃ p, columns !! fieldColumnName (fd_id f) = Some p ∧
       encodeSqlValue (fd_type f) (default JNull (own_property data (fd_name f))) = Ok p ∧
       checked_field (db_tables db) schema true pend f (own_property data (fd_name f))).
  { intros f Hin. destruct (Hval f Hin) as [E Hck]. destruct (Henc f Hin) as (p & Hp & He).
    exists p. rewrite <-E at 1. auto. }
  split; [done|]. split; [done|]. split; [|cbn; auto 10].
  split; [cbn; lia|]. intros f Hin. destruct (Hf f Hin) as (p & Hp & He & Hck).
  exists p. split; [done|]. by eapply checked_stored.
Qed.

(** An update replaces one row by one that is ok. *)
Lemma update_Ok db now ctx sel rid body audit lineage db' metadata :
  db_metadata db = Some metadata → schema_wf (md_schema metadata) →
  tables_ok (db_tables db) (md_schema metadata) →
  applyRecordUpdate json_bytes native_constraint source_matches db now ctx sel rid body audit lineage
    = Ok db' →
  ∃ c t current row,
    resolveCollection (md_schema metadata) sel = Ok c ∧ c ∈ sm_collections (md_schema metadata) ∧
    db_tables db !! collectionTableName (cl_id c) = Some t ∧ t !! rid = Some current ∧
    md_lifecycle metadata = Active ∧ md_schemaRevision metadata = ub_schemaRevision body ∧
    is_revision (row_revision current) (ub_expectedRecordRevision body) = true ∧
    row_revision row = row_revision current + 1 ∧ row_created row = row_created current ∧
    row_updated row = now ∧
    (∀ f, f ∈ cl_fields c →
       match own_property (ub_data body) (fd_name f) with
       | None => row_fields row !! fieldColumnName (fd_id f)
                 = row_fields current !! fieldColumnName (fd_id f)
       | Some v => ∃ p, row_fields row !! fieldColumnName (fd_id f) = Some p ∧
                        encodeSqlValue (fd_type f) v = Ok p ∧
                        checked_field (db_tables db) (md_schema metadata) false ∅ f (Some v)
       end) ∧
    row_ok (db_tables db) (md_schema metadata) c row ∧
    db_tables db' = <[collectionTableName (cl_id c) := <[rid := row]> t]> (db_tables db) ∧
    db_metadata db' = db_metadata db ∧ db_appId db' = db_appId db.
Proof.
  intros Hmd Hwf Htok. unfold applyRecordUpdate, readMetadata. rewrite Hmd. cbn [mbind result_bind].
  intros ([] & Hw & H)%bind_Ok. unfold assertWritable in Hw. destruct (md_lifecycle metadata) eqn:L; [|done].
  apply bind_Ok in H as (schema & Hs & H). unfold requireCurrentSchema in Hs.
  destruct (_ =? _) eqn:Erev in Hs; [|done]. injection Hs as <-. bool_to_prop.
  apply bind_Ok in H as (c & Hc & H). unfold lift_kernel in Hc.
  destruct (resolveCollection _ sel) as [c'|] eqn:Hres; [|done]. injection Hc as ->.
  assert (Hin : c ∈ sm_collections (md_schema metadata)).
  { unfold resolveCollection in Hres. destruct (find _ _) eqn:F; [|done]. injection Hres as ->.
    by apply find_Some in F as [? _]. }
  apply bind_Ok in H as (current & Hcur & H). unfold readRecordRow in Hcur.
  apply bind_Ok in Hcur as (t & Ht & Hcur). apply table_of_Ok in Ht.
  destruct (t !! rid) as [cur|] eqn:R; [|done]. injection Hcur as ->.
  destruct (is_revision _ _) eqn:Hrev; [|done]. cbn [negb] in H.
  apply bind_Ok in H as ([] & _ & H). apply bind_Ok in H as (values & Hv & H).
  destruct (_ <? _) in H; [done|]. apply bind_Ok in H as (columns & Hcol & H).
  apply bind_Ok in H as (t' & Ht' & H). apply table_of_Ok in Ht'. rewrite Ht in Ht'.
  injection Ht' as <-. apply bind_Ok in H as (db1 & Hdb & [= <-]). apply write_row_Ok in Hdb.
  pose proof (validate_Ok _ _ _ _ _ _ _ (sw_names _ Hwf c Hin) Hv) as Hval.
  assert (Hnd : NoDup ((λ f, fieldColumnName (fd_id f)) <$> assigned_fields c (ub_data body))).
  { eapply sublist_NoDup; [by apply (sw_columns _ Hwf c Hin)|]. apply fmap_sublist, filterb_sublist. }
  destruct (encode_columns_Ok _ _ _ _ Hnd Hcol) as [Hkeep Henc].
  set (row := {| row_revision := row_revision current + 1; row_created := row_created current;
                 row_updated := now; row_creator := row_creator current;
                 row_last_mutator := cx_actor ctx; row_create_request := row_create_request current;
                 row_last_request := cx_requestId ctx;
                 row_write_schema_revision := sm_schemaRevision (md_schema metadata);
                 row_fields := columns |}) in *.
  assert (Hf : ∀ f, f ∈ cl_fields c →
       match own_property (ub_data body) (fd_name f) with
       | None => columns !! fieldColumnName (fd_id f) = row_fields current !! fieldColumnName (fd_id f)
       | Some v => ∃ p, columns !! fieldColumnName (fd_id f) = Some p ∧
                        encodeSqlValue (fd_type f) v = Ok p ∧
                        checked_field (db_tables db) (md_schema metadata) false ∅ f (Some v)
       end).
  { intros f Hfin. destruct (Hval f Hfin) as [E Hck].
    destruct (own_property (ub_data body) (fd_name f)) as [v|] eqn:O.
    - destruct (Henc f) as (p & Hp & He).
      { apply elem_of_filterb. by rewrite O. }
      exists p. rewrite E in He. auto.
    - apply Hkeep. intros (g & Hg & Hgin)%list_elem_of_fmap. apply elem_of_filterb in Hgin as [Hgin Hgo].
      assert (Heq : g = f); [|by rewrite Heq, O in Hgo].
      apply (NoDup_fmap_elem (λ f, fieldColumnName (fd_id f)) (cl_fields c)); try done.
      by apply (sw_columns _ Hwf c). }
  exists c, t, current, row. repeat (split; [done|]). split; [|subst db1; by destruct audit].
  destruct (Htok c Hin) as (t0 & Ht0 & Hrows). rewrite Ht in Ht0. injection Ht0 as <-.
  destruct (Hrows rid current R) as [Hpos Hcols]. split; [cbn; lia|]. intros f Hfin. cbn [row row_fields].
  specialize (Hf f Hfin). destruct (own_property (ub_data body) (fd_name f)) as [v|].
  - destruct Hf as (p & Hp & He & Hck). exists p. split; [done|].
    by eapply (checked_stored _ _ ∅ f (Some v)).
  - rewrite Hf. by apply Hcols.
Qed.

(** ** The number of records *)

Lemma count_same db db' collections n :
  (∀ c, c ∈ collections → db_tables db' !! collectionTableName (cl_id c)
                          = db_tables db !! collectionTableName (cl_id c)) →
  count_records db collections = Ok n → count_records db' collections = Ok n.
Proof.
  revert n. induction collections as [|c cs IH]; intros n He; [done|]. cbn.
  unfold table_of. rewrite (He c) by left. destruct (_ !! _); [|done]. cbn.
  intros (k & Hk & H)%bind_Ok. rewrite (IH k); [done| |done]. intros d Hd. apply He. by right.
Qed.

(** Replacing the table of one collection changes the count by the change of its size. *)
Lemma count_write db db' collections c t t' n :
  NoDup ((λ c, collectionTableName (cl_id c)) <$> collections) → c ∈ collections →
  db_tables db !! collectionTableName (cl_id c) = Some t →
  db_tables db' = <[collectionTableName (cl_id c) := t']> (db_tables db) →
  count_records db collections = Ok n →
  count_records db' collections = Ok (n - Z.of_nat (size t) + Z.of_nat (size t')).
Proof.
  intros Hn Hc Ht Hdb. revert n. induction collections as [|d cs IH]; intros n; [inversion Hc|].
  cbn [fmap list_fmap] in Hn. apply NoDup_cons in Hn as [Hd Hn]. cbn [count_records].
  intros (u & Hu & H)%bind_Ok. apply table_of_Ok in Hu. apply bind_Ok in H as (k & Hk & [= <-]).
  apply elem_of_cons in Hc as [->|Hc].
  - rewrite Ht in Hu. injection Hu as <-. unfold table_of. rewrite Hdb, lookup_insert_eq. cbn [mbind result_bind].
    rewrite (count_same db db' cs k); [cbn; f_equal; lia| |done].
    intros e He. rewrite Hdb, lookup_insert_ne; [done|]. intros E. apply Hd.
    apply list_elem_of_fmap. by exists e.
  - assert (Hne : collectionTableName (cl_id d) ≠ collectionTableName (cl_id c)).
    { intros E. apply Hd. apply list_elem_of_fmap. by exists c. }
    unfold table_of. rewrite Hdb, lookup_insert_ne by done. rewrite Hu. cbn [mbind result_bind].
    rewrite (IH Hn Hc k Hk). cbn. f_equal. lia.
Qed.

(** ** The invariant of an app database *)

Record store_ok (db : AppDb) (metadata : AppMetadataRow) : Prop := {
  so_metadata : db_metadata db = Some metadata;
  so_tables : tables_ok (db_tables db) (md_schema metadata);
  so_ceiling : ∃ n, count_records db (sm_collections (md_schema metadata)) = Ok n ∧ n <= maxRecords;
}.

Lemma insert_preserves db now c metadata rid data actor req pend db' n :
  schema_wf (md_schema metadata) → c ∈ sm_collections (md_schema metadata) →
  db_metadata db = Some metadata → tables_ok (db_tables db) (md_schema metadata) →
  count_records db (sm_collections (md_schema metadata)) = Ok n →
  insertRecordRow json_bytes native_constraint db now c (md_schema metadata) rid data actor req pend
    = Ok db' →
  db_metadata db' = Some metadata ∧ tables_ok (db_tables db') (md_schema metadata) ∧
  count_records db' (sm_collections (md_schema metadata)) = Ok (n + 1).
Proof.
  intros Hwf Hc Hm Ht Hn H.
  apply insert_Ok in H as (t & row & Hl & Hr & Hrow & _ & _ & _ & _ & ->); [|done..].
  destruct (write_tables_ok _ _ c t rid row Hwf Ht Hc Hl Hrow) as [Ht' _].
  split; [done|]. split; [done|].
  erewrite (count_write db _ _ c t (<[rid := row]> t) n (sw_tables _ Hwf) Hc Hl); [|reflexivity|exact Hn].
  rewrite map_size_insert_None by done. f_equal. lia.
Qed.

Lemma update_preserves db now ctx sel rid body audit lineage db' metadata n :
  schema_wf (md_schema metadata) →
  db_metadata db = Some metadata → tables_ok (db_tables db) (md_schema metadata) →
  count_records db (sm_collections (md_schema metadata)) = Ok n →
  applyRecordUpdate json_bytes native_constraint source_matches db now ctx sel rid body audit lineage
    = Ok db' →
  db_metadata db' = Some metadata ∧ tables_ok (db_tables db') (md_schema metadata) ∧
  count_records db' (sm_collections (md_schema metadata)) = Ok n.
Proof.
  intros Hwf Hm Ht Hn H.
  eapply update_Ok in H as (c & t & current & row & _ & Hc & Hl & Hr & _ & _ & _ & _ & _ & _ & _ & Hrow &
    Hdb & Hmd & _); [|done..].
  destruct (write_tables_ok _ _ c t rid row Hwf Ht Hc Hl Hrow) as [Ht' _].
  split; [congruence|]. rewrite Hdb. split; [done|].
  rewrite (count_write db db' _ c t (<[rid := row]> t) n (sw_tables _ Hwf) Hc Hl Hdb Hn).
  rewrite map_size_insert_Some by done. f_equal. lia.
Qed.

(** An audit event does not touch the tables. *)
Lemma audit_store db ctx action resource rev srev ids recs item metadata :
  store_ok db metadata →
  store_ok (recordKernelAudit db ctx action resource rev srev ids recs item) metadata.
Proof.
  intros [Hm Ht (n & Hn & Hle)]. split; [done|done|]. exists n. split; [|done].
  apply (count_same db); [done|exact Hn].
Qed.

(** ** The commands preserve it *)

Lemma ceiling_Ok db schema k n :
  count_records db (sm_collections schema) = Ok n → assertRecordCeiling db schema k = Ok tt →
  n + k <= maxRecords.
Proof.
  intros Hn. unfold assertRecordCeiling. rewrite Hn. cbn. destruct (_ <? _) eqn:E; [done|].
  bool_to_prop. lia.
Qed.

Lemma resolve_elem schema sel c : resolveCollection schema sel = Ok c → c ∈ sm_collections schema.
Proof.
  unfold resolveCollection. destruct (find _ _) eqn:F; [|done]. intros [= ->].
  by apply find_Some in F as [? _].
Qed.

Lemma lift_kernel_Ok {A} (r : result KernelCommandError A) a : lift_kernel r = Ok a ↔ r = Ok a.
Proof. unfold lift_kernel. destruct r; split; congruence. Qed.

Lemma require_schema metadata rev schema :
  requireCurrentSchema metadata rev = Ok schema →
  schema = md_schema metadata ∧ rev = md_schemaRevision metadata.
Proof. unfold requireCurrentSchema. destruct (_ =? _) eqn:E; [|done]. bool_to_prop. by intros [= <-]. Qed.

Lemma create_preserves db now ctx sel rev data record db' metadata :
  schema_wf (md_schema metadata) → store_ok db metadata →
  createRecord json_bytes native_constraint sha1_digest db now ctx sel rev data = Ok (record, db') →
  store_ok db' metadata.
Proof.
  intros Hwf [Hm Ht (n & Hn & Hle)]. unfold createRecord, readMetadata. rewrite Hm. cbn [mbind result_bind].
  intros ([] & _ & H)%bind_Ok. apply bind_Ok in H as (schema & Hs & H).
  apply require_schema in Hs as [-> _]. apply bind_Ok in H as (c & Hc & H).
  apply lift_kernel_Ok, resolve_elem in Hc. apply bind_Ok in H as ([] & Hceil & H).
  apply bind_Ok in H as (db1 & Hins & H). apply bind_Ok in H as (r & _ & [= <- <-]).
  eapply insert_preserves in Hins as (Hm1 & Ht1 & Hn1); [|done..].
  pose proof (ceiling_Ok _ _ _ _ Hn Hceil). apply audit_store. split; [done|done|]. exists (n + 1).
  split; [done|lia].
Qed.

Lemma updateRecord_preserves db now ctx sel rid body lineage record db' metadata :
  schema_wf (md_schema metadata) → store_ok db metadata →
  updateRecord json_bytes native_constraint source_matches db now ctx sel rid body lineage
    = Ok (record, db') →
  store_ok db' metadata.
Proof.
  intros Hwf [Hm Ht (n & Hn & Hle)]. unfold updateRecord. intros (db1 & Hu & H)%bind_Ok.
  apply bind_Ok in H as (m & _ & H). apply bind_Ok in H as (c & _ & H).
  apply bind_Ok in H as (r & _ & [= <- <-]).
  eapply update_preserves in Hu as (Hm1 & Ht1 & Hn1); [|done..]. split; [done|done|]. by exists n.
Qed.

Lemma parse_entry_elem schema e p :
  parse_entry schema e = Ok p →
  match p with ParsedPost c _ => c | ParsedPatch c _ _ _ => c end ∈ sm_collections schema.
Proof.
  unfold parse_entry, batch_collection. destruct (be_method e).
  - destruct (match_post _); [|done]. destruct (body_member _ _); [|done].
    intros (c & Hc & [= <-])%bind_Ok. destruct (decodeURIComponent _); [|done].
    by apply lift_kernel_Ok, resolve_elem in Hc.
  - destruct (match_patch _) as [[sel rid]|]; [|done]. repeat (destruct (body_member _ _); [|done]).
    intros (c & Hc & [= <-])%bind_Ok. destruct (decodeURIComponent _); [|done].
    by apply lift_kernel_Ok, resolve_elem in Hc.
Qed.

Lemma batch_preserves ctx clock metadata entries : ∀ index st db st' db' n,
  schema_wf (md_schema metadata) →
  (∀ p, p ∈ entries → match p with ParsedPost c _ => c | ParsedPatch c _ _ _ => c end
                      ∈ sm_collections (md_schema metadata)) →
  db_metadata db = Some metadata → tables_ok (db_tables db) (md_schema metadata) →
  count_records db (sm_collections (md_schema metadata)) = Ok n →
  batch_loop json_bytes native_constraint source_matches sha1_digest ctx (md_schema metadata) clock
    index entries (st, db) = Ok (st', db') →
  db_metadata db' = Some metadata ∧ tables_ok (db_tables db') (md_schema metadata) ∧
  count_records db' (sm_collections (md_schema metadata))
    = Ok (n + Z.of_nat (length (filterb is_post entries))).
Proof.
  induction entries as [|e entries IH]; intros index st db st' db' n Hwf He Hm Ht Hn; cbn [batch_loop].
  { intros [= <- <-]. cbn. rewrite Z.add_0_r. done. }
  intros ([st1 db1] & Hs & H)%bind_Ok. unfold batch_step in Hs.
  assert (He' : ∀ p, p ∈ entries → match p with ParsedPost c _ => c | ParsedPatch c _ _ _ => c end
                      ∈ sm_collections (md_schema metadata)) by (intros p Hp; apply He; by right).
  destruct e as [c data|c rid expected data].
  - cbn zeta in Hs. apply bind_Ok in Hs as (db2 & Hins & [= <- <-]).
    eapply insert_preserves in Hins as (Hm1 & Ht1 & Hn1); [|done|apply (He (ParsedPost c data)); left|done..].
    eapply IH in H as (? & ? & Hc); [|done..]. split; [done|]. split; [done|]. rewrite Hc.
    cbn [filterb is_post length]. f_equal. lia.
  - destruct (_ || _); [done|]. apply bind_Ok in Hs as (db2 & Hu & [= <- <-]).
    eapply update_preserves in Hu as (Hm1 & Ht1 & Hn1); [|done..].
    eapply IH in H as (? & ? & Hc); [|done..]. done.
Qed.

Lemma executeBatch_preserves db clock ctx rev requests items db' metadata :
  schema_wf (md_schema metadata) → store_ok db metadata →
  executeBatch json_bytes native_constraint source_matches sha1_digest db clock ctx rev requests
    = Ok (items, db') →
  store_ok db' metadata.
Proof.
  intros Hwf [Hm Ht (n & Hn & Hle)]. unfold executeBatch, readMetadata at 1. rewrite Hm. cbn [mbind result_bind].
  intros ([] & _ & H)%bind_Ok. apply bind_Ok in H as (schema & Hs & H).
  apply require_schema in Hs as [-> _]. apply bind_Ok in H as (parsed & Hp & H).
  apply bind_Ok in H as ([] & Hceil & H). apply bind_Ok in H as ([st db1] & Hloop & H).
  apply bind_Ok in H as (rs & _ & [= <- <-]). apply mapM_result_Ok in Hp.
  assert (Hel : ∀ p, p ∈ parsed → match p with ParsedPost c _ => c | ParsedPatch c _ _ _ => c end
                      ∈ sm_collections (md_schema metadata)).
  { intros p (i & Hi)%list_elem_of_lookup. destruct (Forall2_lookup_r _ _ _ _ _ Hp Hi) as (e & _ & Hpe).
    by apply parse_entry_elem in Hpe. }
  eapply batch_preserves in Hloop as (Hm1 & Ht1 & Hn1); [|done..].
  pose proof (ceiling_Ok _ _ _ _ Hn Hceil). apply audit_store. split; [done|done|].
  eexists. split; [exact Hn1|lia].
Qed.

(** One committed command; a command that fails rolls back and is no step. *)
Inductive command_step (db : AppDb) : AppDb → Prop :=
| step_create now ctx sel rev data record db' :
    createRecord json_bytes native_constraint sha1_digest db now ctx sel rev data = Ok (record, db') →
    command_step db db'
| step_update now ctx sel rid body lineage record db' :
    updateRecord json_bytes native_constraint source_matches db now ctx sel rid body lineage
      = Ok (record, db') →
    command_step db db'
| step_batch clock ctx rev requests items db' :
    executeBatch json_bytes native_constraint source_matches sha1_digest db clock ctx rev requests
      = Ok (items, db') →
    command_step db db'
| step_retire ctx expected db' :
    retireApp db ctx expected = Ok db' →
    command_step db db'.

Lemma retire_preserves db ctx expected db' metadata :
  store_ok db metadata → retireApp db ctx expected = Ok db' →
  ∃ metadata', store_ok db' metadata' ∧ md_schema metadata' = md_schema metadata.
Proof.
  intros [Hm Ht (n & Hn & Hle)]. unfold retireApp, readMetadata. rewrite Hm. cbn [mbind result_bind].
  intros ([] & _ & H)%bind_Ok. destruct (negb _); [done|]. injection H as <-.
  eexists. split; [apply audit_store; split; [reflexivity|done|]|done].
  exists n. split; [|done]. apply (count_same db); [done|exact Hn].
Qed.

Lemma step_preserves db db' metadata :
  schema_wf (md_schema metadata) → store_ok db metadata → command_step db db' →
  ∃ metadata', store_ok db' metadata' ∧ md_schema metadata' = md_schema metadata.
Proof.
  intros Hwf Hok Hstep. destruct Hstep.
  - exists metadata. eauto using create_preserves.
  - exists metadata. eauto using updateRecord_preserves.
  - exists metadata. eauto using executeBatch_preserves.
  - by eapply retire_preserves.
Qed.

(** Every reachable app database is consistent: over any history of committed creates, updates,
    batches and retirement, whatever the caller data, every collection keeps its table, every row
    has a positive revision and in each field column either null of an optional field or an
    accepted value, every relation names a record of its target collection, and the app holds at
    most 10,000 records. *)
Theorem commands_preserve_store db db' metadata :
  schema_wf (md_schema metadata) → store_ok db metadata → rtc command_step db db' →
  ∃ metadata', store_ok db' metadata' ∧ md_schema metadata' = md_schema metadata.
Proof.
  intros Hwf Hok Hsteps. revert metadata Hwf Hok.
  induction Hsteps as [db|db db1 db' Hstep _ IH]; intros metadata Hwf Hok; [by exists metadata|].
  destruct (step_preserves _ _ _ Hwf Hok Hstep) as (m1 & Hok1 & Hs1).
  destruct (IH m1 ltac:(by rewrite Hs1) Hok1) as (m2 & Hok2 & Hs2). exists m2. split; [done|congruence].
Qed.

(** ** Written values read back *)

Lemma checked_decode tables schema create pend f v p :
  checked_field tables schema create pend f (Some v) → encodeSqlValue (fd_type f) v = Ok p →
  decodeSqlValue (fd_type f) p = v.
Proof.
  intros Hc Hp.
  assert (Hv : v = JNull ∨ field_contract f v).
  { unfold checked_field in Hc. destruct v; try (right; by destruct Hc as (? & _)). by left. }
  destruct Hv as [->|Hv]; [by injection Hp as <-|].
  destruct (sql_roundtrip f v Hv) as (q & Hq & _ & Hd). congruence.
Qed.

Lemma project_data {A} (key : A → jsstr) (val : A → jsval) l : ∀ acc,
  NoDup (acc.*1 ++ (key <$> l)) →
  foldl (λ data x, put_member (key x) (val x) data) acc l = acc ++ ((λ x, (key x, val x)) <$> l).
Proof.
  induction l as [|x l IH]; intros acc Hn; cbn; [by rewrite app_nil_r|].
  cbn [fmap list_fmap] in Hn.
  assert (Hx : key x ∉ acc.*1) by (apply NoDup_app in Hn as (_ & H & _); intros Hx; apply (H _ Hx); left).
  rewrite put_member_fresh by done. rewrite IH; [by rewrite <-app_assoc|].
  rewrite fmap_app, <-app_assoc. exact Hn.
Qed.

(** C31. A record update is a compare-and-set on the revision: when it commits, the row it replaced had
    exactly the expected revision and the app was active with the expected schema, the revision
    grew by one, the named fields read back as the caller's values and the others are unchanged,
    every other row of every table is unchanged, and a second update with the same expected revision
    fails with a conflict; so no update is lost. *)
Theorem update_is_compare_and_set db now ctx sel rid body audit lineage db' metadata :
  db_metadata db = Some metadata → schema_wf (md_schema metadata) →
  tables_ok (db_tables db) (md_schema metadata) →
  applyRecordUpdate json_bytes native_constraint source_matches db now ctx sel rid body audit lineage
    = Ok db' →
  ∃ c t current row,
    resolveCollection (md_schema metadata) sel = Ok c ∧
    db_tables db !! collectionTableName (cl_id c) = Some t ∧ t !! rid = Some current ∧
    db_tables db' = <[collectionTableName (cl_id c) := <[rid := row]> t]> (db_tables db) ∧
    md_lifecycle metadata = Active ∧ md_schemaRevision metadata = ub_schemaRevision body ∧
    is_revision (row_revision current) (ub_expectedRecordRevision body) = true ∧
    row_revision row = row_revision current + 1 ∧ row_created row = row_created current ∧
    (∀ f, f ∈ cl_fields c →
       field_value row f = default (field_value current f) (own_property (ub_data body) (fd_name f))) ∧
    ∀ now2 ctx2 body2 audit2 lineage2,
      ub_schemaRevision body2 = ub_schemaRevision body →
      ub_expectedRecordRevision body2 = ub_expectedRecordRevision body →
      ∃ e, applyRecordUpdate json_bytes native_constraint source_matches db' now2 ctx2 sel rid body2
             audit2 lineage2 = Err (Failed e) ∧ ke_code e = conflict.
Proof.
  intros Hm Hwf Ht H. eapply update_Ok in H as (c & t & current & row & Hres & Hc & Hl & Hr & HL & Hsr & Hrev & Hnext &
    Hcr & _ & Hf & _ & Hdb & Hmd & _); [|done..].
  exists c, t, current, row. repeat (split; [done|]). split.
  - intros f Hin. specialize (Hf f Hin). unfold field_value.
    destruct (own_property (ub_data body) (fd_name f)) as [v|]; cbn [default from_option id].
    + destruct Hf as (p & -> & He & Hck). by eapply checked_decode.
    + by rewrite Hf.
  - intros now2 ctx2 body2 audit2 lineage2 Hs2 He2. unfold applyRecordUpdate, readMetadata.
    rewrite Hmd, Hm. cbn [mbind result_bind]. unfold assertWritable. rewrite HL. cbn [mbind result_bind].
    unfold requireCurrentSchema. rewrite Hs2, Hsr, Z.eqb_refl. cbn [mbind result_bind].
    rewrite Hres. cbn [lift_kernel mbind result_bind]. unfold readRecordRow, table_of.
    rewrite Hdb, lookup_insert_eq. cbn [mbind result_bind]. rewrite lookup_insert_eq. cbn [mbind result_bind].
    rewrite He2, Hnext.
    assert (is_revision (row_revision current + 1) (ub_expectedRecordRevision body) = false) as ->.
    { unfold is_revision in *. destruct (ub_expectedRecordRevision body); try done. bool_to_prop.
      apply bool_decide_eq_false_2. rewrite Hrev. intros [= E]. lia. }
    cbn [negb]. eexists. split; reflexivity.
Qed.

(** A created record reads back: creation allocates the identity of its request, the returned
    record has revision one and for every field the caller's value or null, the database returns
    the same record for that identity, and repeating the request never creates a second record in
    the collection. *)
Theorem created_record_reads_back db now ctx sel rev data record db' metadata :
  schema_wf (md_schema metadata) → store_ok db metadata →
  createRecord json_bytes native_constraint sha1_digest db now ctx sel rev data = Ok (record, db') →
  let rid := allocateRecordId sha1_digest (db_appId db) (cx_requestId ctx) 0 Create in
  ∃ c, resolveCollection (md_schema metadata) sel = Ok c ∧
    record = {| lr_id := rid; lr_collectionId := cl_id c; lr_collectionName := cl_name c;
                lr_revision := 1; lr_schemaRevision := sm_schemaRevision (md_schema metadata);
                lr_created := now; lr_updated := now;
                lr_data := (λ f, (fd_name f, default JNull (own_property data (fd_name f))))
                           <$> cl_fields c |} ∧
    readProjectedRecord db' c (sm_schemaRevision (md_schema metadata)) rid None = Ok record ∧
    ∀ now2 ctx2 rev2 data2, cx_requestId ctx2 = cx_requestId ctx →
      is_ok (createRecord json_bytes native_constraint sha1_digest db' now2 ctx2 sel rev2 data2) = false.
Proof.
  intros Hwf Hok H rid. pose proof (create_preserves _ _ _ _ _ _ _ _ _ Hwf Hok H) as Hok'.
  destruct Hok as [Hm Ht _]. revert H. unfold createRecord at 1, readMetadata. rewrite Hm. cbn [mbind result_bind].
  intros ([] & _ & H)%bind_Ok. apply bind_Ok in H as (schema & Hs & H).
  apply require_schema in Hs as [-> _]. apply bind_Ok in H as (c & Hres & H).
  apply lift_kernel_Ok in Hres. pose proof (resolve_elem _ _ _ Hres) as Hc.
  apply bind_Ok in H as ([] & _ & H). apply bind_Ok in H as (db1 & Hins & H).
  apply bind_Ok in H as (r & Hread & [= <- <-]). fold rid in Hins, Hread.
  apply insert_Ok in Hins as (t & row & Hl & Hr & _ & Hrev & Hcr & Hup & Hf & ->); [|done..].
  set (tables' := <[collectionTableName (cl_id c) := <[rid := row]> t]> (db_tables db)) in *.
  assert (Hrow : ∀ d : AppDb, db_tables d = tables' → readRecordRow d c rid = Ok row).
  { intros d Hd. unfold readRecordRow, table_of. rewrite Hd. unfold tables'. rewrite lookup_insert_eq.
    cbn [mbind result_bind]. by rewrite lookup_insert_eq. }
  assert (Hproj : ∀ d : AppDb, db_tables d = tables' →
    readProjectedRecord d c (sm_schemaRevision (md_schema metadata)) rid None
    = Ok (projectRecord c (sm_schemaRevision (md_schema metadata)) rid row None)).
  { intros d Hd. unfold readProjectedRecord. by rewrite (Hrow d Hd). }
  rewrite Hproj in Hread by done. injection Hread as <-.
  exists c. split; [done|]. split; [|split; [by apply Hproj|]].
  - unfold projectRecord. rewrite Hrev, Hcr, Hup. f_equal.
    rewrite (project_data fd_name (field_value row)) by (by apply (sw_names _ Hwf)). cbn [app].
    apply list_fmap_ext. intros i f Hi. f_equal. apply list_elem_of_lookup_2 in Hi.
    destruct (Hf f Hi) as (p & Hp & He & Hck). unfold field_value. rewrite Hp.
    destruct (own_property data (fd_name f)) as [v|]; cbn [default from_option id] in *.
    + by eapply checked_decode.
    + by injection He as <-.
  - intros now2 ctx2 rev2 data2 Hreq. destruct (createRecord _ _ _ _ _ ctx2 _ _ _) as [[r2 db2]|] eqn:E; [|done].
    exfalso. unfold createRecord, readMetadata in E. rewrite (so_metadata _ _ Hok') in E. cbn [mbind result_bind] in E.
    apply bind_Ok in E as ([] & _ & E). apply bind_Ok in E as (schema & Hs & E).
    apply require_schema in Hs as [-> _]. apply bind_Ok in E as (c2 & Hres2 & E).
    apply lift_kernel_Ok in Hres2. rewrite Hres in Hres2. injection Hres2 as <-.
    apply bind_Ok in E as ([] & _ & E). apply bind_Ok in E as (db3 & Hins2 & _).
    apply insert_Ok in Hins2 as (t2 & row2 & Hl2 & Hr2 & _); [|done..]. cbn [recordKernelAudit db_tables with_tables] in Hl2.
    unfold tables' in Hl2. rewrite lookup_insert_eq in Hl2. injection Hl2 as <-.
    rewrite Hreq in Hr2. cbn [recordKernelAudit with_tables db_appId] in Hr2. fold rid in Hr2.
    by rewrite lookup_insert_eq in Hr2.
Qed.
End StoreProofs.

(** ** Admitted schemas have distinct native names *)

(** A class accepts only the dash, or never the dash. *)
Definition dash_or_not (p : Z → bool) : Prop :=
  (∀ c, p c = true → c = cu "-") ∨ (∀ c, p c = true → c ≠ cu "-").

Lemma strip_inj ps : ∀ a b,
  Forall dash_or_not ps → matches_classes ps a = true → matches_classes ps b = true →
  replace_all (cu "-") [] a = replace_all (cu "-") [] b → a = b.
Proof.
  unfold replace_all. induction ps as [|p ps IH]; intros [|c a] [|d b] HF Ha Hb Hs; try done.
  apply Forall_cons in HF as [[Hp|Hp] HF]; cbn [matches_classes] in Ha, Hb; bool_to_prop;
    cbn [flat_map] in Hs.
  - rewrite (Hp c), (Hp d) in * by done. rewrite Z.eqb_refl in Hs. f_equal. by apply IH.
  - rewrite !(proj2 (Z.eqb_neq _ _)) in Hs by auto. injection Hs as -> Hs. f_equal. by apply IH.
Qed.

Lemma dash_lit x : dash_or_not (lit x).
Proof.
  unfold dash_or_not, lit. destruct (decide (x = cu "-")) as [->|Hn]; [left|right]; intros c H;
    apply Z.eqb_eq in H; congruence.
Qed.

Lemma dash_never p : p (cu "-") = false → dash_or_not p.
Proof. intros H. right. intros c Hc ->. congruence. Qed.

Lemma entity_classes kind id :
  schema_kind kind → isEntityId kind (JStr id) = true →
  matches_classes ((lit <$> js kind ++ js "_") ++ uuid_classes (lit (cu "7"))) id = true.
Proof. by intros [-> | ->]. Qed.

Lemma entity_dashes kind : Forall dash_or_not ((lit <$> js kind ++ js "_") ++ uuid_classes (lit (cu "7"))).
Proof.
  apply Forall_app. split; [apply Forall_fmap, Forall_true; intros x; apply dash_lit|].
  unfold uuid_classes. repeat (apply Forall_app; split);
    try (apply Forall_replicate; by apply dash_never); apply Forall_singleton;
    first [apply dash_lit|by apply dash_never].
Qed.

Lemma native_name_inj kind a b :
  schema_kind kind → isEntityId kind (JStr a) = true → isEntityId kind (JStr b) = true →
  replace_all (cu "-") [] a = replace_all (cu "-") [] b → a = b.
Proof.
  intros Hk Ha Hb. apply entity_classes in Ha, Hb; [|done..]. eapply strip_inj; [|exact Ha|exact Hb]. apply entity_dashes.
Qed.

Lemma NoDup_fmap_on {A B} (f : A → B) (P : A → Prop) l :
  (∀ x y, P x → P y → f x = f y → x = y) → Forall P l → NoDup l → NoDup (f <$> l).
Proof.
  intros Hinj HP Hn. induction Hn as [|x l Hx Hn IH]; [constructor|]. apply Forall_cons in HP as [Px HP].
  cbn. constructor; [|auto]. intros (y & Hy & Hin)%list_elem_of_fmap. apply Hx.
  rewrite Forall_forall in HP. by rewrite (Hinj x y Px (HP y Hin) Hy).
Qed.

Lemma admitted_field_Some f g : admitted_field f = Some g → fi_id f = Some (fd_id g) ∧ fi_name f = fd_name g.
Proof. unfold admitted_field. destruct (fi_id f); [|done]. by intros [= <-]. Qed.

Lemma admitted_collection_Some c d :
  admitted_collection c = Some d →
  ci_id c = Some (cl_id d) ∧ Forall2 (λ f g, admitted_field f = Some g) (ci_fields c) (cl_fields d).
Proof.
  unfold admitted_collection. destruct (ci_id c) as [id|]; [|done]. cbn.
  destruct (mapM admitted_field (ci_fields c)) as [fs|] eqn:E; [|done]. cbn. destruct (forallb _ _); [|done].
  intros [= <-]. split; [done|]. by apply mapM_Some.
Qed.

(** The schema of an admitted definition satisfies what the store relies on. *)
Lemma parsed_schema_wf uuid_ok next appId revision s :
  schema_input_ok next = true → closed next → parseAdmittedSchema uuid_ok next appId revision = Ok s → schema_wf s.
Proof.
  intros Hok Hclosed. unfold parseAdmittedSchema. destruct (closed_unique _ Hok Hclosed) as [Uc Uf].
  destruct (si_references next); [|done]. destruct (mapM admitted_collection _) as [cs|] eqn:E; [|done].
  destruct (_ && forallb admitted_collection_ok _); [|done]. intros [= <-]. apply mapM_Some in E.
  assert (Hc : ∀ d, d ∈ cs → ∃ c, c ∈ si_collections next ∧ admitted_collection c = Some d)
    by (intros d Hd; by apply (Forall2_elem_r _ _ _ _ E)).
  assert (Hids : ci_id <$> si_collections next = Some <$> (cl_id <$> cs)).
  { rewrite <-list_fmap_compose. eapply Forall2_fmap_eq; [exact E|]. intros c d H.
    by apply admitted_collection_Some in H as [? _]. }
  split; cbn [sm_collections].
  - change (λ c, collectionTableName (cl_id c)) with (collectionTableName ∘ cl_id).
    rewrite list_fmap_compose.
    apply (NoDup_fmap_on _ (λ id, isEntityId "col" (JStr id) = true)).
    + intros a b Pa Pb H. apply (app_inv_head (js "c_")) in H. eapply (native_name_inj "col"); [by left|done..].
    + apply Forall_fmap, Forall_forall. intros d Hd. cbn. destruct (Hc d Hd) as (c & Hin & Hcd).
      apply admitted_collection_Some in Hcd as [Hid _]. eapply ok_collection_id; [by eapply ok_collection|done].
    + rewrite Hids in Uc. by apply NoDup_fmap_1 in Uc.
  - intros d Hd. destruct (Hc d Hd) as (c & Hin & Hcd). apply admitted_collection_Some in Hcd as [_ Hf].
    change (λ f, fieldColumnName (fd_id f)) with (fieldColumnName ∘ fd_id). rewrite list_fmap_compose.
    apply (NoDup_fmap_on _ (λ id, isEntityId "fld" (JStr id) = true)).
    + intros a b Pa Pb H. apply (app_inv_head (js "f_")) in H. eapply (native_name_inj "fld"); [by right|done..].
    + apply Forall_fmap, Forall_forall. intros g Hg. cbn. destruct (Forall2_elem_r _ _ _ _ Hf Hg) as (f & Hfin & Hfg).
      apply admitted_field_Some in Hfg as [Hid _]. eapply ok_field_id; [|done].
      eapply ok_field; [by eapply ok_collection|done].
    + specialize (Uf c Hin). assert (Hfi : fi_id <$> ci_fields c = Some <$> (fd_id <$> cl_fields d)).
      { rewrite <-list_fmap_compose. eapply Forall2_fmap_eq; [exact Hf|]. intros f g H.
        by apply admitted_field_Some in H as [? _]. }
      rewrite Hfi in Uf. by apply NoDup_fmap_1 in Uf.
  - intros d Hd. destruct (Hc d Hd) as (c & Hin & Hcd). apply admitted_collection_Some in Hcd as [_ Hf].
    assert (Hn : fi_name <$> ci_fields c = fd_name <$> cl_fields d).
    { eapply Forall2_fmap_eq; [exact Hf|]. intros f g H. by apply admitted_field_Some in H as [_ ?]. }
    rewrite <-Hn. apply all_distinct_NoDup. pose proof (ok_collection _ _ Hok Hin) as H.
    unfold collection_input_ok in H. by bool_to_prop.
Qed.

Lemma admitted_schema_wf fresh encoded_bytes first_issue uuid_ok cand appId revision existing s :
  admitLightAppSchema fresh encoded_bytes first_issue uuid_ok cand appId revision existing = Ok s →
  schema_wf s.
Proof.
  unfold admitLightAppSchema. intros (next & Ha & H)%bind_Ok. apply admit_Ok in Ha as (_ & _ & Hok & (n & Has) & _).
  apply assemble_Ok in Has as (Hclosed & _). by eapply parsed_schema_wf.
Qed.

(** ** A concrete app *)

Module StoreDemo.

Definition field (id name : string) (type : FieldType) (required : bool) (options : option FieldOptions)
    : AdmittedField :=
  {| fd_id := js id; fd_name := js name; fd_type := type; fd_required := required;
     fd_description := []; fd_unit := None; fd_namespace := None; fd_options := options |}.

Definition people_id : jsstr := js "col_01890f3e-0000-7000-8000-000000000000".

Definition people : AdmittedCollection :=
  {| cl_id := people_id; cl_name := js "people"; cl_description := [];
     cl_fields :=
       [field "fld_01890f3e-0000-7000-8000-000000000001" "nick" FText false None;
        field "fld_01890f3e-0000-7000-8000-000000000002" "boss" FRelation false
          (Some {| opt_max_length := None; opt_onlyInt := None; opt_min := None; opt_max := None;
                   opt_values := None; opt_collection := Some people_id |})];
     cl_indexes := [] |}.

Definition schema : AdmittedSchema :=
  {| sm_appId := js "6ba7b811-9dad-11d1-80b4-00c04fd430c8"; sm_schemaRevision := 1;
     sm_title := js "Staff"; sm_purpose := []; sm_references := []; sm_collections := [people] |}.

Definition metadata : AppMetadataRow :=
  {| md_appId := sm_appId schema; md_workspaceId := js "ws"; md_title := js "Staff"; md_purpose := [];
     md_appRevision := 1; md_schemaRevision := 1; md_schemaDigest := []; md_schema := schema;
     md_lifecycle := Active; md_kernelFormatVersion := 2 |}.

Definition empty_app : AppDb :=
  {| db_appId := sm_appId schema; db_metadata := Some metadata;
     db_tables := {[collectionTableName people_id := ∅]}; db_audit := [] |}.

Definition ctx (request : string) : CommandContext :=
  {| cx_actor := js "{}"; cx_requestId := js request; cx_execution := None |}.
Definition now : jsstr := js "2024-01-01T00:00:00.000Z".

Definition small : jsval → Z := λ _, 10.
Definition unconstrained : AdmittedCollection → gmap jsstr Table → jsstr → RecordRow → option string :=
  λ _ _ _ _, None.
Definition in_source : AppDb → AdmittedCollection → jsstr → CompiledFilter → bool := λ _ _ _ _, true.

Definition ada : jsval := JObj [(js "nick", JStr (js "ada"))].
Definition create (db : AppDb) (request : string) (data : jsval) :=
  createRecord small unconstrained sha1 db now (ctx request) (js "people") 1 data.
Definition first_id : jsstr := allocateRecordId sha1 (sm_appId schema) (js "r1") 0 Create.

Definition db_after {A} (r : result CommandFailure (A * AppDb)) : AppDb :=
  match r with Ok (_, db) => db | Err _ => empty_app end.
Definition one_app : AppDb := db_after (create empty_app "r1" ada).

Definition update_body (expected : Z) (data : jsval) : UpdateBody :=
  {| ub_schemaRevision := 1; ub_expectedRecordRevision := JNum (number_of_int expected);
     ub_data := data |}.
Definition update (db : AppDb) (expected : Z) (data : jsval) :=
  applyRecordUpdate small unconstrained in_source db now (ctx "r2") (js "people") first_id
    (update_body expected data) true None.

Lemma schema_is_wf : schema_wf schema.
Proof.
  split.
  - apply (bool_decide_unpack _). vm_compute. done.
  - intros c Hc. apply list_elem_of_singleton in Hc as ->. apply (bool_decide_unpack _). vm_compute. done.
  - intros c Hc. apply list_elem_of_singleton in Hc as ->. apply (bool_decide_unpack _). vm_compute. done.
Qed.

Lemma empty_is_ok : store_ok empty_app metadata.
Proof.
  split; [done| |].
  - intros c Hc. apply list_elem_of_singleton in Hc as ->. exists ∅. split; [done|]. intros rid row H.
    by rewrite lookup_empty in H.
  - exists 0. split; [done|]. vm_compute. discriminate.
Qed.

Lemma one_created : is_ok (create empty_app "r1" ada) = true.
Proof. vm_compute. reflexivity. Qed.

Lemma create_one : ∃ record, create empty_app "r1" ada = Ok (record, one_app).
Proof.
  pose proof one_created as H. unfold one_app. destruct (create empty_app "r1" ada) as [[r d]|]; [|done].
  by exists r.
Qed.

Lemma commands_preserve_store_witness :
  ∃ metadata', store_ok one_app metadata' ∧ md_schema metadata' = schema.
Proof.
  apply (commands_preserve_store small unconstrained in_source sha1 empty_app one_app metadata
           schema_is_wf empty_is_ok).
  destruct create_one as [record H]. eapply rtc_once, step_create. exact H.
Defined.

Lemma created_record_reads_back_witness :
  is_ok (create one_app "r1" (JObj [])) = false.
Proof.
  destruct create_one as [record H].
  destruct (created_record_reads_back small unconstrained in_source sha1 empty_app now (ctx "r1") (js "people") 1
              ada record one_app metadata schema_is_wf empty_is_ok H) as (c & _ & _ & _ & Hagain).
  unfold create. exact (Hagain now (ctx "r1") 1 (JObj []) eq_refl).
Defined.

Lemma one_updated : is_ok (update one_app 1 (JObj [(js "nick", JNull)])) = true.
Proof. vm_compute. reflexivity. Qed.

Lemma update_is_compare_and_set_witness :
  ∃ db', update one_app 1 (JObj [(js "nick", JNull)]) = Ok db' ∧
    ∃ e, update db' 1 (JObj []) = Err (Failed e) ∧ ke_code e = conflict.
Proof.
  pose proof one_updated as H.
  destruct (update one_app 1 (JObj [(js "nick", JNull)])) as [db'|] eqn:E; [|discriminate H].
  exists db'. split; [reflexivity|]. unfold update in E |- *.
  assert (Hok : store_ok one_app metadata).
  { destruct create_one as [record Hc].
    eapply create_preserves; [exact in_source|exact schema_is_wf|exact empty_is_ok|exact Hc]. }
  destruct (update_is_compare_and_set small unconstrained in_source sha1 one_app now (ctx "r2") (js "people")
              first_id (update_body 1 (JObj [(js "nick", JNull)])) true None db' metadata (so_metadata _ _ Hok) schema_is_wf (so_tables _ _ Hok) E)
    as (c & t & cur & row & _ & _ & _ & _ & _ & _ & _ & _ & _ & _ & Hstale).
  exact (Hstale now (ctx "r2") (update_body 1 (JObj [])) true None eq_refl eq_refl).
Defined.

(** A batch update may name a record that the same batch created: only creations look at the created
    ids. *)
Definition batch_first : jsstr := allocateRecordId sha1 (sm_appId schema) (js "b1") 0 Batch.
Definition linking_batch : list BatchEntry :=
  [{| be_method := POST; be_url := js "/api/collections/people/records";
      be_body := JObj [(js "data", JObj [])] |};
   {| be_method := PATCH; be_url := js "/api/collections/people/records/" ++ first_id;
      be_body := JObj [(js "expectedRecordRevision", JNum (number_of_int 1));
                       (js "data", JObj [(js "boss", JStr batch_first)])] |}].

Example batch_update_links_created_record :
  is_ok (executeBatch small unconstrained in_source sha1 one_app (λ _, now) (ctx "b1") 1 linking_batch)
  = true.
Proof. vm_compute. reflexivity. Qed.

(** A batch body whose data is not an object is taken as an object without members. *)
Example batch_accepts_number_as_data :
  is_ok (executeBatch small unconstrained in_source sha1 one_app (λ _, now) (ctx "b2") 1
           [{| be_method := POST; be_url := js "/api/collections/people/records";
               be_body := JObj [(js "data", JNum (number_of_int 7))] |}]) = true.
Proof. vm_compute. reflexivity. Qed.
End StoreDemo.
