(* ===== verification/CommandInput.v ===== *)
(** * Command input hashing and request keys
    (nanocore/src/storage/control-store-input.ts, nanocore/src/storage/command-request-records.ts)

    [stableJson] is the text that [commandInputHash] digests: object members sorted by key, members
    that are [undefined] dropped, everything else as [JSON.stringify] writes it.  The digest of
    node:crypto is a parameter.  [commandRequestKey] is the key of the idempotency ledger. *)

From Stdlib Require Import SpecFloat.
From S2P Require Import Prelude JsValue CanonicalJson EntityId.

Local Open Scope string_scope.
Local Open Scope list_scope.
Local Open Scope Z_scope.

(** ** [JSON.stringify] of scalars *)

Definition hex4 (c : Z) : jsstr :=
  [hex_digit (c / 4096); hex_digit (c / 256 mod 16); hex_digit (c / 16 mod 16); hex_digit (c mod 16)].

(** A surrogate that is not half of a pair is escaped; everything else is as in a well-formed string. *)
Fixpoint stringify_units (s : jsstr) : jsstr :=
  match s with
  | [] => []
  | c :: s' =>
    if is_high_surrogate c then
      match s' with
      | d :: s'' =>
        if is_low_surrogate d then c :: d :: stringify_units s''
        else [BACKSLASH; cu "u"] ++ hex4 c ++ stringify_units s'
      | [] => [BACKSLASH; cu "u"] ++ hex4 c
      end
    else if is_low_surrogate c then [BACKSLASH; cu "u"] ++ hex4 c ++ stringify_units s'
    else escape_unit c ++ stringify_units s'
  end.

Definition stringify_string (s : jsstr) : jsstr := [QUOTE] ++ stringify_units s ++ [QUOTE].

(** A number that is not finite is [null]. *)
Definition stringify_number (f : spec_float) : option jsstr :=
  if is_finite_number f then number_text f else Some (js "null").

(** ** The stable text *)

Definition stable_member : Type := jsstr * bool * option jsstr.
Definition stable_cmp (a b : stable_member) : Z := str_cmp a.1.1 b.1.1.
Definition stable_defined (m : stable_member) : bool := negb m.1.2.
Definition stable_text (m : stable_member) : option jsstr :=
  t ← m.2; Some (stringify_string m.1.1 ++ js ":" ++ t).

(** [None] for values outside plain data (functions, symbols, big integers, cyclic structures). *)
Fixpoint stableJson (value : jsval) : option jsstr :=
  match value with
  | JUndef | JNull => Some (js "null")
  | JExotic => None
  | JBool b => Some (if b then js "true" else js "false")
  | JNum f => stringify_number f
  | JStr s => Some (stringify_string s)
  | JArr l => ts ← mapM stableJson l; Some (js "[" ++ join (js ",") ts ++ js "]")
  | JObj ms =>
    ts ← mapM stable_text
      (js_sort stable_cmp
        (filterb stable_defined ((λ kv, (kv.1, is_undefined kv.2, stableJson kv.2)) <$> ms)));
    Some (js "{" ++ join (js ",") ts ++ js "}")
  end.

Example stable_sorts_and_drops :
  stableJson (JObj [(js "b", JArr [JUndef; JBool true]); (js "c", JUndef); (js "a", JNull)]) =
  Some (js "{" ++ stringify_string (js "a") ++ js ":null," ++ stringify_string (js "b") ++ js ":[null,true]}").
Proof. vm_compute. reflexivity. Qed.

Section Hash.
(** [createHash('sha256').update(text).digest('hex')] *)
Context (sha256 : jsstr → jsstr).

Definition commandInputHash (input : jsval) : option jsstr :=
  t ← stableJson input; Some (js "sha256:" ++ sha256 t).
End Hash.

(** ** Agreement with the canonical encoder *)

Lemma stringify_well_formed s : has_lone_surrogate s = false → stringify_units s = flat_map escape_unit s.
Proof.
  enough (∀ n s, (length s <= n)%nat → has_lone_surrogate s = false → stringify_units s = flat_map escape_unit s) by eauto.
  clear s. induction n as [|n IH]; intros s Hn.
  { destruct s; [done|cbn in Hn; lia]. }
  destruct s as [|c s]; [done|]. cbn in Hn |- *.
  destruct (is_high_surrogate c) eqn:Hh.
  - destruct s as [|d s]; [done|]. destruct (is_low_surrogate d) eqn:Hl; [|done]. intros H.
    cbn in Hn |- *. rewrite IH by (done || lia).
    unfold escape_unit, is_high_surrogate, is_low_surrogate, in_range, QUOTE, BACKSLASH in *. bool_to_prop.
    repeat (rewrite (proj2 (Z.eqb_neq _ _)) by lia). by repeat (rewrite (proj2 (Z.ltb_ge _ _)) by lia).
  - destruct (is_low_surrogate c) eqn:Hl; [done|]. intros H. by rewrite IH by (done || lia).
Qed.

Lemma stringify_canonical s t : encode_string s = Ok t → stringify_string s = t.
Proof.
  unfold encode_string, stringify_string, quote_string. destruct (has_lone_surrogate s) eqn:E; [done|].
  intros [= <-]. by rewrite stringify_well_formed.
Qed.

Lemma number_text_finite f t : number_text f = Some t → is_finite_number f = true.
Proof. by destruct f. Qed.

Definition stable_of (kv : jsstr * jsval) : stable_member := (kv.1, is_undefined kv.2, stableJson kv.2).

Lemma encode_list_stable (l : list jsval) ts :
  Forall (λ v, ∀ t, encode true v = Ok t → stableJson v = Some t) l →
  encode_list (encode true) l = Ok ts → mapM stableJson l = Some ts.
Proof.
  intros H. revert ts. induction H as [|v l Hv _ IH]; intros ts; cbn; [by intros [= <-]|].
  intros (t & Ht & (us & Hus & [= <-])%bind_Ok)%bind_Ok. rewrite (Hv _ Ht). cbn. by rewrite (IH _ Hus).
Qed.

Lemma encode_members_stable ms entries :
  Forall (λ kv, ∀ t, encode true kv.2 = Ok t → stableJson kv.2 = Some t) ms →
  encode_members true (triple true <$> ms) = Ok entries →
  mapM stable_text (filterb stable_defined (stable_of <$> ms)) = Some entries.
Proof.
  intros H He. apply mapM_Some. revert entries He.
  induction H as [|[k v] ms Hv _ IH]; intros entries; [intros [= <-]; constructor|].
  rewrite fmap_cons. cbn [encode_members triple fst snd].
  intros (ek & Hk & He)%bind_Ok. rewrite fmap_cons. unfold stable_of at 1. cbn [filterb stable_defined fst snd].
  destruct (is_undefined v) eqn:U; cbn [negb andb] in He |- *; [by apply IH|].
  apply bind_Ok in He as (t & Ht & (es & Hes & [= <-])%bind_Ok).
  constructor; [|by apply IH]. unfold stable_text. cbn [fst snd] in Hv |- *. rewrite (Hv _ Ht). cbn [mbind option_bind].
  by rewrite (stringify_canonical _ _ Hk).
Qed.

Lemma js_sort_filterb {A} (cmp : A → A → Z) p (l : list A) :
  (∀ x y, cmp_le cmp x y ∨ cmp_le cmp y x) → Transitive (cmp_le cmp) →
  js_sort cmp (filterb p l) = filterb p (js_sort cmp l).
Proof.
  intros Htot Htr. induction l as [|x l IH]; [done|]. cbn. fold (js_sort cmp l).
  assert (∀ l', StronglySorted (cmp_le cmp) l' →
    filterb p (insert_stable cmp x l') = if p x then insert_stable cmp x (filterb p l') else filterb p l') as Hi.
  { induction 1 as [|y l' Hs IHs Hall]; cbn; [by destruct (p x)|].
    destruct (cmp x y <=? 0) eqn:E; cbn.
    - destruct (p x) eqn:Px, (p y) eqn:Py; cbn; rewrite ?E; try done.
      rewrite insert_stable_head; [done|]. apply filterb_Forall. eapply Forall_impl; [exact Hall|].
      intros z Hz. apply Htr with y; [|done]. unfold cmp_le. by apply Z.leb_le.
    - rewrite IHs. destruct (p x), (p y); cbn; by rewrite ?E. }
  rewrite Hi by (by apply js_sort_sorted). destruct (p x); by rewrite <-IH.
Qed.

Lemma stable_cmp_total x y : cmp_le stable_cmp x y ∨ cmp_le stable_cmp y x.
Proof. apply (keyed_total (λ m : stable_member, m.1.1)). Qed.

(** Where the canonical encoder is defined the stable text is the canonical text. *)
Lemma stable_is_canonical v : ∀ t, canonicalJsonText v = Ok t → stableJson v = Some t.
Proof.
  unfold canonicalJsonText. induction v as [ | | |b|f|s|l IH|ms IH] using jsval_rect'; intros t;
    cbn [encode stableJson]; try (by intros [= <-]); try done.
  - destruct (number_text f) eqn:E; [|done]. intros [= <-]. unfold stringify_number.
    by rewrite (number_text_finite _ _ E).
  - intros H. by rewrite (stringify_canonical _ _ H).
  - intros (ts & Hts & [= <-])%bind_Ok. by rewrite (encode_list_stable _ _ IH Hts).
  - intros (es & Hes & [= <-])%bind_Ok. fold (triple true) in Hes. fold stable_of.
    rewrite <-(js_sort_fmap (triple true) key_cmp member_cmp) in Hes by done.
    rewrite js_sort_filterb; [|exact stable_cmp_total|exact (keyed_trans (λ m : stable_member, m.1.1))].
    rewrite <-(js_sort_fmap stable_of key_cmp stable_cmp) by done.
    rewrite (encode_members_stable _ es); [done| |done]. by rewrite js_sort_perm.
Qed.

(** ** Request keys *)

Definition CommandRequestScope : Type := list (jsstr * jsstr).

Definition scope_cmp (a b : jsstr * jsstr) : Z := str_cmp a.1 b.1.
Definition scope_entry (kv : jsstr * jsstr) : jsstr := kv.1 ++ cu "=" :: kv.2.

Definition commandRequestScopeKey (scope : CommandRequestScope) : jsstr :=
  join [cu "&"] (scope_entry <$> js_sort scope_cmp scope).

Definition commandRequestKey (command requestId : jsstr) (scope : CommandRequestScope) : jsstr :=
  command ++ cu "|" :: requestId ++ cu "|" :: commandRequestScopeKey scope.

Definition COMMAND_REQUEST_RETENTION_MS : Z := 7 * 24 * 60 * 60 * 1000.

(** On instants: the text is the ISO text of the sum. *)
Definition commandRequestExpiresAt (createdAt : Z) : Z := createdAt + COMMAND_REQUEST_RETENTION_MS.

(** Property names without separators, values without the member separator. *)
Definition plain_scope (scope : CommandRequestScope) : Prop :=
  Forall (λ kv, cu "=" ∉ kv.1 ∧ cu "&" ∉ kv.1 ∧ cu "&" ∉ kv.2) scope.

Lemma separator_splits (c : Z) a b r q : c ∉ a → c ∉ b → a ++ c :: r = b ++ c :: q → a = b ∧ r = q.
Proof.
  revert b. induction a as [|x a IH]; intros [|y b] Ha Hb; cbn.
  - by intros [= ->].
  - intros [= -> _]. by destruct Hb; left.
  - intros [= -> _]. by destruct Ha; left.
  - intros [= -> E]. destruct (IH b) as [-> ->]; [set_solver|set_solver|done|done].
Qed.

Lemma join_splits (c : Z) l k :
  Forall (λ p, p ≠ [] ∧ c ∉ p) l → Forall (λ p, p ≠ [] ∧ c ∉ p) k → join [c] l = join [c] k → l = k.
Proof.
  assert (∀ p ps, join [c] (p :: ps) = p ++ match ps with [] => [] | _ => c :: join [c] ps end) as Hj.
  { intros p [|q ps]; [done|]. cbn. by rewrite ?(assoc (++)). }
  intros Hl. revert k. induction Hl as [|p l [Hp Hc] Hl IH]; intros k [|q k' [Hq Hd] Hk]; [done| | |].
  - rewrite Hj. destruct q; [done|]. by intros [=].
  - rewrite Hj. destruct p; [done|]. by intros [=].
  - rewrite !Hj. destruct l as [|p' l], k' as [|q' k'].
    + rewrite !app_nil_r. by intros ->.
    + rewrite app_nil_r. intros ->. destruct Hc. set_solver.
    + rewrite app_nil_r. intros <-. destruct Hd. set_solver.
    + intros [-> E]%separator_splits; [|done|done]. f_equal. by apply IH.
Qed.

Lemma scope_entries_inj l k :
  plain_scope l → plain_scope k → scope_entry <$> l = scope_entry <$> k → l = k.
Proof.
  intros Hl. revert k. induction Hl as [|[a v] l (Ha & _ & _) _ IH]; intros k Hk;
    destruct Hk as [|[b w] k (Hb & _ & _) Hk]; [done|done|done|].
  rewrite !fmap_cons. intros E. injection E as E1 E2. cbn [fst snd] in Ha, Hb, E1.
  destruct (separator_splits _ _ _ _ _ Ha Hb E1) as [Ea Ev]. cbn in Ea, Ev. subst. f_equal. by apply IH.
Qed.

Lemma scope_key_inj l k : plain_scope l → plain_scope k → commandRequestScopeKey l = commandRequestScopeKey k → l ≡ₚ k.
Proof.
  intros Hl Hk E. rewrite <-(js_sort_perm scope_cmp l), <-(js_sort_perm scope_cmp k).
  assert (∀ l, plain_scope l → Forall (λ p, p ≠ [] ∧ cu "&" ∉ p) (scope_entry <$> js_sort scope_cmp l)) as Hs.
  { intros m Hm. rewrite Forall_fmap, (js_sort_perm scope_cmp m). eapply Forall_impl; [exact Hm|].
    intros [a v] (_ & Ha & Hv). unfold scope_entry. cbn. split; [by destruct a|]. set_solver by vm_compute. }
  apply join_splits in E; [|by apply Hs|by apply Hs].
  apply scope_entries_inj in E as ->; [done| |]; unfold plain_scope; by rewrite js_sort_perm.
Qed.

(** Two commands share a ledger key only when they are the same command with the same request id in the
    same scope. *)
Lemma command_request_key_inj c c' r r' s s' :
  cu "|" ∉ c → cu "|" ∉ c' → cu "|" ∉ r → cu "|" ∉ r' → plain_scope s → plain_scope s' →
  commandRequestKey c r s = commandRequestKey c' r' s' → c = c' ∧ r = r' ∧ s ≡ₚ s'.
Proof.
  intros Hc Hc' Hr Hr' Hs Hs' [-> [-> E]%separator_splits]%separator_splits; [|done..].
  split_and!; [done|done|]. by apply scope_key_inj.
Qed.
