(* ===== verification/SchedulerStore.v ===== *)
(** * The scheduler tables of the Core database
    (nanocore/src/storage/schema/scheduler-admission-entries.ts, scheduler-execution-attempts.ts,
    nanocore/src/storage/execution-attempt-codecs.ts, packages/protocol/src/common/retained-format.ts)

    Rows of a table are a list in rowid order.  A JSON column holds the value its text parses to; a
    timestamp is the instant of its ISO text, whose order is the order of the texts.  The three phases
    and dispositions are closed types, which the CHECK constraints of the table enforce.  An UPDATE or
    INSERT that breaks a unique index throws, and every command runs inside a savepoint, so that an
    operation either returns the next database or leaves it as it was. *)

From S2P Require Import Prelude JsValue EntityId.

Local Open Scope string_scope.
Local Open Scope list_scope.
Local Open Scope Z_scope.

(** ** Admission entries *)

Inductive SchedulerAdmissionStatus := Queued | AdmittedEntry | Denied | Cancelled | Expired.
Inductive SchedulerAdmissionDenialReason := QueueFull | AuthorityDenied | InvalidRequest.
#[export] Instance SchedulerAdmissionStatus_eq_dec : EqDecision SchedulerAdmissionStatus.
Proof. solve_decision. Defined.
#[export] Instance SchedulerAdmissionDenialReason_eq_dec : EqDecision SchedulerAdmissionDenialReason.
Proof. solve_decision. Defined.

Record AdmissionRow := {
  schemaVersion : Z;
  queueEntryId : jsstr;
  backendId : jsstr;
  inputHash : jsstr;
  requestId : option jsstr;
  triggerActorJson : jsval;
  serverAdminTokenId : option jsstr;
  workspaceCwd : option jsstr;
  workspaceRootsJson : jsval;
  workspaceId : jsstr;
  threadId : jsstr;
  turnId : jsstr;
  turnInput : jsstr;
  workerStorageChoiceJson : option jsval;
  requestedAgentId : jsstr;
  profileRef : option jsstr;
  modelId : option jsstr;
  reasoningEffort : option jsstr;
  enqueuedAt : Z;
  status : SchedulerAdmissionStatus;
  denialReason : option SchedulerAdmissionDenialReason;
}.

Definition set_status (s : SchedulerAdmissionStatus) (d : option SchedulerAdmissionDenialReason) (r : AdmissionRow) : AdmissionRow :=
  {| schemaVersion := schemaVersion r; queueEntryId := queueEntryId r; backendId := backendId r;
     inputHash := inputHash r; requestId := requestId r; triggerActorJson := triggerActorJson r;
     serverAdminTokenId := serverAdminTokenId r; workspaceCwd := workspaceCwd r;
     workspaceRootsJson := workspaceRootsJson r; workspaceId := workspaceId r; threadId := threadId r;
     turnId := turnId r; turnInput := turnInput r; workerStorageChoiceJson := workerStorageChoiceJson r;
     requestedAgentId := requestedAgentId r; profileRef := profileRef r; modelId := modelId r;
     reasoningEffort := reasoningEffort r; enqueuedAt := enqueuedAt r; status := s; denialReason := d |}.

(** ** Execution attempts *)

Inductive SchedulerExecutionAttemptPhase := Open | Closing | Closed.
Inductive SchedulerExecutionDisposition := NotAccepted | Accepted | Unknown.
#[export] Instance SchedulerExecutionAttemptPhase_eq_dec : EqDecision SchedulerExecutionAttemptPhase.
Proof. solve_decision. Defined.
#[export] Instance SchedulerExecutionDisposition_eq_dec : EqDecision SchedulerExecutionDisposition.
Proof. solve_decision. Defined.

(** The columns no statement ever assigns after the INSERT. *)
Record AttemptOwner := {
  ao_schemaVersion : Z;
  attemptId : jsstr;
  ao_queueEntryId : jsstr;
  ao_backendId : jsstr;
  ao_workspaceId : jsstr;
  ao_threadId : jsstr;
  ao_turnId : jsstr;
  preparationInputJson : jsstr;
  createdAt : Z;
}.

Inductive RecoveryState := AwaitingReconnect | NeedsEvidence.
#[export] Instance RecoveryState_eq_dec : EqDecision RecoveryState.
Proof. solve_decision. Defined.

(** Adapter-private liveness and credential columns. *)
Record NativeProof := {
  sessionCompatibilityKey : option jsstr;
  heartbeatTimeoutMs : Z;
  heartbeatDeadline : option Z;
  startupDeadline : option Z;
  lastAcceptedHeartbeatAt : option Z;
  lastWorkerSequence : option Z;
  recoveryState : option RecoveryState;
  recoveryDeadline : option Z;
  workerProcessKeyHash : option jsstr;
  workerControlTokenHash : option jsstr;
  workerInferenceTokenHash : option jsstr;
  workerCapabilityTokenHash : option jsstr;
}.

Record AttemptRow := {
  owner : AttemptOwner;
  agentSessionId : option jsstr;
  inputRef : option jsstr;
  bindingRef : option jsstr;
  phase : SchedulerExecutionAttemptPhase;
  disposition : SchedulerExecutionDisposition;
  operationId : option jsstr;
  deadline : option Z;
  terminalCause : option jsstr;
  outcomeRef : option jsstr;
  fenceRef : option jsstr;
  updatedAt : Z;
  native : NativeProof;
}.

(** The defaults of the columns an INSERT leaves out. *)
Definition no_proof : NativeProof := {|
  sessionCompatibilityKey := None; heartbeatTimeoutMs := 30000; heartbeatDeadline := None;
  startupDeadline := None; lastAcceptedHeartbeatAt := None; lastWorkerSequence := None;
  recoveryState := None; recoveryDeadline := None; workerProcessKeyHash := None;
  workerControlTokenHash := None; workerInferenceTokenHash := None; workerCapabilityTokenHash := None |}.

(** ** Recurring occurrences, as far as a retry reads them *)

Record OccurrenceRow := {
  occ_id : jsstr;
  occ_scheduleId : jsstr;
  occ_workspaceId : jsstr;
  occ_queueEntryId : option jsstr;
  occ_accepted : bool;
}.

Record CoreDb := {
  entries : list AdmissionRow;
  attempts : list AttemptRow;
  occurrences : list OccurrenceRow;
}.

Definition with_entries (l : list AdmissionRow) (db : CoreDb) : CoreDb :=
  {| entries := l; attempts := attempts db; occurrences := occurrences db |}.
Definition with_attempts (l : list AttemptRow) (db : CoreDb) : CoreDb :=
  {| entries := entries db; attempts := l; occurrences := occurrences db |}.

(** ** Errors *)

Inductive HeartbeatRejection := AttemptNotLive | SequenceStale | AttemptChanged | ReconnectRequired.
Inductive SchedulerError :=
| SchedulerAdmissionTransitionError (message : jsstr) (reason : SchedulerAdmissionDenialReason)
| ExecutionAttemptRefusal (message : jsstr)
| NanoHostAttemptHeartbeatRejectedError (reason : HeartbeatRejection) (message : jsstr)
| ControlProductPreconditionError
| PlainError (message : jsstr)
| ZodRefusal
| RetainedFormatRefusal
| ConstraintViolation.

(** ** SQL *)

Definition update_where {A} (p : A → bool) (f : A → A) (rows : list A) : list A :=
  (λ r, if p r then f r else r) <$> rows.
Definition changes {A} (p : A → bool) (rows : list A) : nat := length (filterb p rows).

Definition is_live (r : AttemptRow) : bool := bool_decide (phase r ≠ Closed).
Definition at_id (r : AttemptRow) : jsstr := attemptId (owner r).
Definition at_turn (r : AttemptRow) : jsstr := ao_turnId (owner r).
Definition at_thread (r : AttemptRow) : jsstr * jsstr := (ao_workspaceId (owner r), ao_threadId (owner r)).

(** The primary key and the three partial unique indexes. *)
Record attempts_unique (rows : list AttemptRow) : Prop := {
  unique_attempt : NoDup (at_id <$> rows);
  unique_live_turn : NoDup (at_turn <$> filterb is_live rows);
  unique_live_thread : NoDup (at_thread <$> filterb is_live rows);
  unique_live_session : NoDup (omap agentSessionId (filterb is_live rows));
}.
#[export] Instance attempts_unique_dec rows : Decision (attempts_unique rows).
Proof.
  refine (cast_if_and4 (decide (NoDup (at_id <$> rows))) (decide (NoDup (at_turn <$> filterb is_live rows)))
    (decide (NoDup (at_thread <$> filterb is_live rows))) (decide (NoDup (omap agentSessionId (filterb is_live rows)))));
    abstract (first [by constructor|by intros []]).
Defined.

(** A statement that leaves the attempt table at [rows]. *)
Definition store_attempts (rows : list AttemptRow) (db : CoreDb) : result SchedulerError CoreDb :=
  if decide (attempts_unique rows) then Ok (with_attempts rows db) else Err ConstraintViolation.

(** The primary key of the admission table. *)
Definition store_entry (row : AdmissionRow) (db : CoreDb) : result SchedulerError CoreDb :=
  if bool_decide (queueEntryId row ∈ queueEntryId <$> entries db) then Err ConstraintViolation
  else Ok (with_entries (entries db ++ [row]) db).

(** ** Retained rows *)

Definition RETAINED_FORMAT_VERSION : Z := 1.
Definition writeRetainedV1 : Z := RETAINED_FORMAT_VERSION.
Definition readRetainedV1 {A} (version : Z) (decode : result SchedulerError A) : result SchedulerError A :=
  if bool_decide (version = RETAINED_FORMAT_VERSION) then decode else Err RetainedFormatRefusal.

Definition nonempty (s : jsstr) : bool := negb (bool_decide (s = [])).
Definition nullable (p : jsstr → bool) (o : option jsstr) : bool :=
  match o with Some s => p s | None => true end.
Definition is_id (kind : string) (s : jsstr) : bool := isEntityId kind (JStr s).

(** [SchedulerExecutionAttemptSchema]; the timestamps are instants and the enumerations closed types. *)
Definition SchedulerExecutionAttemptSchema (r : AttemptRow) : bool :=
  is_id "attempt" (at_id r) && nonempty (ao_queueEntryId (owner r)) && nonempty (ao_backendId (owner r)) &&
  is_id "ws" (ao_workspaceId (owner r)) && is_id "th" (ao_threadId (owner r)) && is_id "tu" (at_turn r) &&
  nullable (is_id "as") (agentSessionId r) && nullable nonempty (inputRef r) && nullable nonempty (bindingRef r) &&
  nullable nonempty (operationId r).

Definition decode_attempt (r : AttemptRow) : result SchedulerError AttemptRow :=
  readRetainedV1 (ao_schemaVersion (owner r))
    (if SchedulerExecutionAttemptSchema r then Ok r else Err ZodRefusal).

(** [SELECT ... WHERE attempt_id = ?]; [readRetainedV1(undefined)] refuses a missing row. *)
Definition get_attempt (db : CoreDb) (id : jsstr) : option AttemptRow :=
  find (λ r, bool_decide (at_id r = id)) (attempts db).

Definition requireSchedulerExecutionAttempt (db : CoreDb) (id : jsstr) : result SchedulerError AttemptRow :=
  match get_attempt db id with Some r => decode_attempt r | None => Err RetainedFormatRefusal end.
