(* ===== verification/SchedulerRecords.v ===== *)
(** * The scheduler admission queue (nanocore/src/scheduler-records.ts)

    Admission entries are accepted into a bounded FIFO queue, denied, retried, cancelled, listed in
    bounded pages and selected for dispatch.  The digest of node:crypto behind [commandInputHash] is a
    parameter. *)

From Stdlib Require Import SpecFloat.
From S2P Require Import Prelude JsValue CanonicalJson Calendar EntityId CommandInput SchedulerStore.

Local Open Scope string_scope.
Local Open Scope list_scope.
Local Open Scope Z_scope.

(** ** Actors (packages/protocol/src/models/actor.ts) *)

Inductive ActorKind := AgentActor | IntegrationActor | SystemActor | AutomationActor.
Inductive ActorRef :=
| UserActor (id : jsstr)
| ResponsibleActor (kind : ActorKind) (id : jsstr) (responsibleUserId : option jsstr).
#[export] Instance ActorKind_eq_dec : EqDecision ActorKind.
Proof. solve_decision. Defined.
#[export] Instance ActorRef_eq_dec : EqDecision ActorRef.
Proof. solve_decision. Defined.

Definition kind_text (k : ActorKind) : jsstr :=
  match k with
  | AgentActor => js "agent" | IntegrationActor => js "integration" | SystemActor => js "system"
  | AutomationActor => js "automation"
  end.
Definition kind_of_text (s : jsstr) : option ActorKind :=
  find (λ k, bool_decide (kind_text k = s)) [AgentActor; IntegrationActor; SystemActor; AutomationActor].

Definition members_of (v : jsval) : option (list (jsstr * jsval)) :=
  match v with JObj ms => Some ms | _ => None end.
Definition member (k : string) (ms : list (jsstr * jsval)) : jsval := default JUndef (lookup_member (js k) ms).
Definition string_member (k : string) (ms : list (jsstr * jsval)) : option jsstr :=
  match member k ms with JStr s => Some s | _ => None end.

(** A nullable member that satisfies a string schema: absent and [undefined] are refused. *)
Definition nullable_member (p : jsstr → bool) (k : string) (ms : list (jsstr * jsval)) : option (option jsstr) :=
  match member k ms with
  | JNull => Some None
  | JStr s => if p s then Some (Some s) else None
  | _ => None
  end.

Definition only_keys (allowed : list string) (ms : list (jsstr * jsval)) : bool :=
  forallb (λ kv, includes (js <$> allowed) kv.1) ms.

(** [ActorRefSchema] (strict) and [StoredSchedulerActorV1Schema] (which strips additions). *)
Definition parse_actor (strict : bool) (v : jsval) : option ActorRef :=
  ms ← members_of v;
  kind ← string_member "kind" ms;
  id ← string_member "id" ms;
  if bool_decide (kind = js "user") then
    if is_id "usr" id && (negb strict || only_keys ["kind"; "id"] ms) then Some (UserActor id) else None
  else
    k ← kind_of_text kind;
    r ← nullable_member (is_id "usr") "responsibleUserId" ms;
    if (match k with AutomationActor => is_id "auto" id | _ => nonempty id end) &&
       (negb strict || only_keys ["kind"; "id"; "responsibleUserId"] ms)
    then Some (ResponsibleActor k id r) else None.

Definition or_null (o : option jsstr) : jsval := match o with Some s => JStr s | None => JNull end.

Definition actor_json (a : ActorRef) : jsval :=
  match a with
  | UserActor id => JObj [(js "kind", JStr (js "user")); (js "id", JStr id)]
  | ResponsibleActor k id r =>
    JObj [(js "kind", JStr (kind_text k)); (js "id", JStr id); (js "responsibleUserId", or_null r)]
  end.

(** ** Storage choices *)

Inductive StoragePurpose := WorkPurpose | IndependentReview.
Inductive SchedulerWorkerStorageChoice :=
| Fresh (goalId taskId : option jsstr)
| Selected (adjudicatedThreadIds : option (list jsstr)) (expectedRevision : spec_float) (goalId : option jsstr)
    (purpose : StoragePurpose) (reuseWorkSlotRef : option jsstr) (storageRef : jsstr) (taskId : option jsstr).

Definition is_alnum (c : Z) : bool := is_digit c || is_upper c || is_lower c.
Definition isSchedulerStorageIdentity (s : jsstr) : bool :=
  (Z.of_nat (length s) <=? 128) &&
  match s with
  | c :: rest => is_alnum c && forallb (λ c, is_alnum c || includes (js "._-") c) rest
  | [] => false
  end.
Definition isNonemptyString (s : jsstr) : bool := (0 <? Z.of_nat (length s)) && (Z.of_nat (length s) <=? 512).

Definition strings_of (l : list jsval) : option (list jsstr) :=
  mapM (λ v, match v with JStr s => Some s | _ => None end) l.

Definition storage_fields : list string :=
  ["adjudicatedThreadIds"; "expectedRevision"; "goalId"; "kind"; "purpose"; "reuseWorkSlotRef"; "storageRef"; "taskId"].

Definition purpose_text (p : StoragePurpose) : jsstr :=
  match p with WorkPurpose => js "work" | IndependentReview => js "independent-review" end.
Definition purpose_of (v : jsval) : option StoragePurpose :=
  match v with
  | JStr s => find (λ p, bool_decide (purpose_text p = s)) [WorkPurpose; IndependentReview]
  | _ => None
  end.

(** [Number.isSafeInteger(value) && value >= 1] *)
Definition is_revision (v : jsval) : option spec_float :=
  match v with
  | JNum f => z ← number_integer f; if isSafeInteger z && (1 <=? z) then Some f else None
  | _ => None
  end.

(** [undefined], or a storage identity. *)
Definition optional_identity (v : jsval) : option (option jsstr) :=
  match v with
  | JUndef => Some None
  | JStr s => if isSchedulerStorageIdentity s then Some (Some s) else None
  | _ => None
  end.

Definition adjudicated (v : jsval) : option (option (list jsstr)) :=
  match v with
  | JUndef => Some None
  | JArr l =>
    ids ← strings_of l;
    if (Z.of_nat (length ids) <=? 1000) && forallb isNonemptyString ids && bool_decide (NoDup ids)
    then Some (Some ids) else None
  | _ => None
  end.

Definition no_required_features (v : jsval) : bool :=
  match v with JUndef | JArr [] => true | _ => false end.

Definition parse_fresh (retained : bool) (ms : list (jsstr * jsval)) : option SchedulerWorkerStorageChoice :=
  if bool_decide (string_member "kind" ms = Some (js "fresh")) && (retained || bool_decide (length ms = 3%nat)) then
    goalId ← nullable_member isNonemptyString "goalId" ms;
    taskId ← nullable_member isNonemptyString "taskId" ms;
    Some (Fresh goalId taskId)
  else None.

Definition parse_selected (retained : bool) (ms : list (jsstr * jsval)) : option SchedulerWorkerStorageChoice :=
  if bool_decide (string_member "kind" ms = Some (js "selected")) && (retained || only_keys storage_fields ms) then
    expectedRevision ← is_revision (member "expectedRevision" ms);
    purpose ← purpose_of (member "purpose" ms);
    storageRef ← string_member "storageRef" ms;
    if isSchedulerStorageIdentity storageRef then
      reuse ← optional_identity (member "reuseWorkSlotRef" ms);
      goalId ← nullable_member isNonemptyString "goalId" ms;
      taskId ← nullable_member isNonemptyString "taskId" ms;
      ids ← adjudicated (member "adjudicatedThreadIds" ms);
      Some (Selected ids expectedRevision goalId purpose reuse storageRef taskId)
    else None
  else None.

Definition parseSchedulerWorkerStorageChoice (input : jsval) (retained : bool)
    : result SchedulerError SchedulerWorkerStorageChoice :=
  match input with
  | JObj ms =>
    if negb (no_required_features (member "requiredFeatures" ms)) then Err ZodRefusal
    else match parse_fresh retained ms with
         | Some c => Ok c
         | None => match parse_selected retained ms with Some c => Ok c | None => Err ZodRefusal end
         end
  | _ => Err ZodRefusal
  end.

Definition optional_member (k : string) (v : option jsval) : list (jsstr * jsval) :=
  match v with Some v => [(js k, v)] | None => [] end.

(** [JSON.stringify(storageChoice)], as the value it parses to. *)
Definition choice_json (c : SchedulerWorkerStorageChoice) : jsval :=
  match c with
  | Fresh goalId taskId =>
    JObj [(js "goalId", or_null goalId); (js "kind", JStr (js "fresh")); (js "taskId", or_null taskId)]
  | Selected ids rev goalId purpose reuse storageRef taskId =>
    JObj (optional_member "adjudicatedThreadIds" (JArr ∘ fmap JStr <$> ids) ++
          [(js "expectedRevision", JNum rev); (js "goalId", or_null goalId); (js "kind", JStr (js "selected"));
           (js "purpose", JStr (purpose_text purpose))] ++
          optional_member "reuseWorkSlotRef" (JStr <$> reuse) ++
          [(js "storageRef", JStr storageRef); (js "taskId", or_null taskId)])
  end.

(** ** Workspace roots *)

Inductive RootAccess := ReadOnly | ReadWrite.
Inductive DirSource := HostDir | MaterializedDir.
Inductive StoredSchedulerWorkspaceRootV1 :=
| DirRoot (id : jsstr) (sourceKind : DirSource) (sourcePath : jsstr) (sourceCommit : option jsstr)
    (workerPath : jsstr) (access : RootAccess)
| RemoteGitRoot (id sourceCommit workerPath : jsstr) (access : RootAccess).

Definition access_of (v : jsval) : option RootAccess :=
  match v with
  | JStr s => if bool_decide (s = js "read-only") then Some ReadOnly
              else if bool_decide (s = js "read-write") then Some ReadWrite else None
  | _ => None
  end.
Definition dir_source_of (s : jsstr) : option DirSource :=
  if bool_decide (s = js "host-dir") then Some HostDir
  else if bool_decide (s = js "materialized-dir") then Some MaterializedDir else None.
Definition nonempty_member (k : string) (ms : list (jsstr * jsval)) : option jsstr :=
  s ← string_member k ms; if nonempty s then Some s else None.
Definition optional_string (v : jsval) : option (option jsstr) :=
  match v with JUndef => Some None | JStr s => Some (Some s) | _ => None end.
Definition is_commit (s : jsstr) : bool :=
  (bool_decide (length s = 40%nat) || bool_decide (length s = 64%nat)) && forallb is_hex s.

Definition parse_root (v : jsval) : option StoredSchedulerWorkspaceRootV1 :=
  ms ← members_of v;
  sourceKind ← string_member "sourceKind" ms;
  id ← nonempty_member "id" ms;
  workerPath ← nonempty_member "workerPath" ms;
  access ← access_of (member "access" ms);
  if bool_decide (sourceKind = js "remote-git") then
    commit ← string_member "sourceCommit" ms;
    if is_commit commit then Some (RemoteGitRoot id commit workerPath access) else None
  else
    k ← dir_source_of sourceKind;
    path ← nonempty_member "sourcePath" ms;
    commit ← optional_string (member "sourceCommit" ms);
    Some (DirRoot id k path commit workerPath access).

Definition parse_roots (v : jsval) : option (list StoredSchedulerWorkspaceRootV1) :=
  match v with JArr l => mapM parse_root l | _ => None end.

(** ** Decoded entries *)

Definition REASONING_EFFORT_LEVELS : list string := ["none"; "minimal"; "low"; "medium"; "high"; "xhigh"; "max"].
Definition is_effort (s : jsstr) : bool := includes (js <$> REASONING_EFFORT_LEVELS) s.

(** The decoded record: the row with its JSON columns read. *)
Record SchedulerAdmissionEntryRecord := {
  row : AdmissionRow;
  triggerActor : ActorRef;
  workspaceRoots : list StoredSchedulerWorkspaceRootV1;
  workerStorageChoice : option SchedulerWorkerStorageChoice;
}.

Definition lift {A} (o : option A) : result SchedulerError A :=
  match o with Some a => Ok a | None => Err ZodRefusal end.

Definition read_choice (o : option jsval) (retained : bool) : result SchedulerError (option SchedulerWorkerStorageChoice) :=
  match o with
  | Some v => c ← parseSchedulerWorkerStorageChoice v retained; Ok (Some c)
  | None => Ok None
  end.

Definition mapSchedulerAdmissionEntryRow (r : AdmissionRow) : result SchedulerError SchedulerAdmissionEntryRecord :=
  readRetainedV1 (schemaVersion r)
    (actor ← lift (parse_actor false (triggerActorJson r));
     roots ← lift (parse_roots (workspaceRootsJson r));
     choice ← read_choice (workerStorageChoiceJson r) true;
     if nullable is_effort (reasoningEffort r)
     then Ok {| row := r; triggerActor := actor; workspaceRoots := roots; workerStorageChoice := choice |}
     else Err ZodRefusal).

Definition get_entry (db : CoreDb) (id : jsstr) : option AdmissionRow :=
  find (λ r, bool_decide (queueEntryId r = id)) (entries db).

Definition not_found (id : jsstr) : SchedulerError :=
  SchedulerAdmissionTransitionError (js "Scheduler admission entry not found: " ++ id) InvalidRequest.

Definition requireSchedulerAdmissionEntry (db : CoreDb) (id : jsstr) (ownership : option jsstr)
    : result SchedulerError SchedulerAdmissionEntryRecord :=
  match get_entry db id with
  | Some r =>
    if match ownership with Some ws => bool_decide (workspaceId r = ws) | None => true end
    then mapSchedulerAdmissionEntryRow r else Err (not_found id)
  | None => Err (not_found id)
  end.

(** ** Creation *)

Record CreateSchedulerAdmissionEntryInput := {
  in_backendId : jsstr;
  in_queueEntryId : jsstr;
  in_requestId : option jsstr;
  in_triggerActor : jsval;
  in_serverAdminTokenId : option jsstr;
  in_workspaceCwd : option jsstr;
  in_workspaceRoots : option (list jsval);
  in_workspaceId : jsstr;
  in_threadId : jsstr;
  in_turnId : jsstr;
  in_turnInput : jsstr;
  in_workerStorageChoice : option jsval;
  in_requestedAgentId : jsstr;
  in_profileRef : option jsstr;
  in_modelId : option jsstr;
  in_reasoningEffort : option jsstr;
}.

Definition parse_effort (o : option jsstr) : result SchedulerError (option jsstr) :=
  if nullable is_effort o then Ok o else Err ZodRefusal.

Definition roots_json (i : CreateSchedulerAdmissionEntryInput) : jsval := JArr (default [] (in_workspaceRoots i)).

Section Queue.
Context (sha256 : jsstr → jsstr).

Definition QUEUE_BOUND : nat := 20.

(** The object whose stable text is hashed. *)
Definition hashed_input (i : CreateSchedulerAdmissionEntryInput) (actor : ActorRef)
    (choice : option SchedulerWorkerStorageChoice) (effort : option jsstr) : jsval :=
  JObj [(js "backendId", JStr (in_backendId i)); (js "requestId", or_null (in_requestId i));
        (js "workspaceId", JStr (in_workspaceId i)); (js "threadId", JStr (in_threadId i));
        (js "turnId", JStr (in_turnId i)); (js "turnInput", JStr (in_turnInput i));
        (js "workerStorageChoice", match choice with Some c => choice_json c | None => JNull end);
        (js "requestedAgentId", JStr (in_requestedAgentId i)); (js "profileRef", or_null (in_profileRef i));
        (js "modelId", or_null (in_modelId i)); (js "reasoningEffort", or_null effort);
        (js "triggerActor", actor_json actor); (js "serverAdminTokenId", or_null (in_serverAdminTokenId i));
        (js "workspaceCwd", or_null (in_workspaceCwd i)); (js "workspaceRoots", roots_json i)].

Definition schedulerAdmissionInputHash (i : CreateSchedulerAdmissionEntryInput) : result SchedulerError jsstr :=
  choice ← read_choice (in_workerStorageChoice i) false;
  effort ← parse_effort (in_reasoningEffort i);
  actor ← lift (parse_actor true (in_triggerActor i));
  lift (commandInputHash sha256 (hashed_input i actor choice effort)).

Definition is_queued (r : AdmissionRow) : bool := bool_decide (status r = Queued).
Definition queued_count (db : CoreDb) : nat := changes is_queued (entries db).

Definition queue_full : SchedulerError :=
  SchedulerAdmissionTransitionError (js "Scheduler admission queue is full.") QueueFull.

Definition new_row (i : CreateSchedulerAdmissionEntryInput) (hash : jsstr) (actor : ActorRef)
    (choice : option SchedulerWorkerStorageChoice) (effort : option jsstr) (timestamp : Z) : AdmissionRow := {|
  schemaVersion := writeRetainedV1; queueEntryId := in_queueEntryId i; backendId := in_backendId i;
  inputHash := hash; requestId := in_requestId i; triggerActorJson := actor_json actor;
  serverAdminTokenId := in_serverAdminTokenId i; workspaceCwd := in_workspaceCwd i;
  workspaceRootsJson := roots_json i; workspaceId := in_workspaceId i; threadId := in_threadId i;
  turnId := in_turnId i; turnInput := in_turnInput i; workerStorageChoiceJson := choice_json <$> choice;
  requestedAgentId := in_requestedAgentId i; profileRef := in_profileRef i; modelId := in_modelId i;
  reasoningEffort := effort; enqueuedAt := timestamp; status := Queued; denialReason := None |}.

(** [{ ...input, triggerActor, workerStorageChoice: storageChoice }] *)
Definition with_parsed (i : CreateSchedulerAdmissionEntryInput) (actor : ActorRef)
    (choice : option SchedulerWorkerStorageChoice) : CreateSchedulerAdmissionEntryInput := {|
  in_backendId := in_backendId i; in_queueEntryId := in_queueEntryId i; in_requestId := in_requestId i;
  in_triggerActor := actor_json actor; in_serverAdminTokenId := in_serverAdminTokenId i;
  in_workspaceCwd := in_workspaceCwd i; in_workspaceRoots := in_workspaceRoots i;
  in_workspaceId := in_workspaceId i; in_threadId := in_threadId i; in_turnId := in_turnId i;
  in_turnInput := in_turnInput i; in_workerStorageChoice := choice_json <$> choice;
  in_requestedAgentId := in_requestedAgentId i; in_profileRef := in_profileRef i; in_modelId := in_modelId i;
  in_reasoningEffort := in_reasoningEffort i |}.

Definition createSchedulerAdmissionEntry (i : CreateSchedulerAdmissionEntryInput) (timestamp : Z) (db : CoreDb)
    : result SchedulerError (CoreDb * SchedulerAdmissionEntryRecord) :=
  actor ← lift (parse_actor true (in_triggerActor i));
  choice ← read_choice (in_workerStorageChoice i) false;
  if bool_decide (in_backendId i = []) then
    Err (SchedulerAdmissionTransitionError (js "Configured backend identity is required.") InvalidRequest)
  else
    hash ← schedulerAdmissionInputHash (with_parsed i actor choice);
    match find (λ r, bool_decide (queueEntryId r = in_queueEntryId i) || bool_decide (turnId r = in_turnId i)) (entries db) with
    | Some existing =>
      entry ← mapSchedulerAdmissionEntryRow existing;
      if bool_decide (queueEntryId (row entry) ≠ in_queueEntryId i) || bool_decide (inputHash (row entry) ≠ hash)
      then Err (SchedulerAdmissionTransitionError (js "Scheduler admission request conflicts with its retained input.") InvalidRequest)
      else Ok (db, entry)
    | None =>
      if (QUEUE_BOUND <=? queued_count db)%nat then Err queue_full
      else
        effort ← parse_effort (in_reasoningEffort i);
        db ← store_entry (new_row i hash actor choice effort timestamp) db;
        entry ← requireSchedulerAdmissionEntry db (in_queueEntryId i) None;
        Ok (db, entry)
    end.

(** ** Transitions *)

Definition set_entry (id : jsstr) (p : AdmissionRow → bool) (f : AdmissionRow → AdmissionRow) (db : CoreDb) : CoreDb * nat :=
  let q r := bool_decide (queueEntryId r = id) && p r in
  (with_entries (update_where q f (entries db)) db, changes q (entries db)).

Definition denySchedulerAdmissionEntry (id : jsstr) (reason : SchedulerAdmissionDenialReason) (db : CoreDb)
    : result SchedulerError (CoreDb * SchedulerAdmissionEntryRecord) :=
  entry ← requireSchedulerAdmissionEntry db id None;
  if bool_decide (status (row entry) ≠ Queued)
  then Err (PlainError (js "Scheduler admission entry " ++ id ++ js " is not queued."))
  else
    let db := (set_entry id (λ _, true) (set_status Denied (Some reason)) db).1 in
    entry ← requireSchedulerAdmissionEntry db id None;
    Ok (db, entry).

(** Another accepted occurrence of the same series is waiting in the queue. *)
Definition series_waiting (db : CoreDb) (e : AdmissionRow) : bool :=
  existsb (λ source,
    bool_decide (occ_queueEntryId source = Some (queueEntryId e)) &&
    bool_decide (occ_workspaceId source = workspaceId e) && occ_accepted source &&
    existsb (λ waiting,
      bool_decide (occ_scheduleId waiting = occ_scheduleId source) &&
      bool_decide (occ_workspaceId waiting = occ_workspaceId source) &&
      negb (bool_decide (occ_id waiting = occ_id source)) && occ_accepted waiting &&
      existsb (λ queued,
        bool_decide (occ_queueEntryId waiting = Some (queueEntryId queued)) &&
        bool_decide (workspaceId queued = occ_workspaceId source) && is_queued queued) (entries db))
      (occurrences db))
    (occurrences db).

Definition retryDeniedSchedulerAdmissionEntry (id ws : jsstr) (db : CoreDb)
    : result SchedulerError (CoreDb * SchedulerAdmissionEntryRecord) :=
  entry ← requireSchedulerAdmissionEntry db id (Some ws);
  if bool_decide (status (row entry) ≠ Denied) then
    Err (SchedulerAdmissionTransitionError (js "Scheduler admission entry " ++ id ++ js " is not denied.") InvalidRequest)
  else if series_waiting db (row entry) then
    Err (SchedulerAdmissionTransitionError (js "The recurring schedule already has a queued occurrence.") QueueFull)
  else if (QUEUE_BOUND <=? queued_count db)%nat then Err queue_full
  else
    let '(db, n) := set_entry id (λ r, bool_decide (workspaceId r = workspaceId (row entry)) && bool_decide (status r = Denied))
                      (set_status Queued None) db in
    if bool_decide (n ≠ 1%nat) then
      Err (SchedulerAdmissionTransitionError (js "Scheduler admission entry could not be retried: " ++ id) InvalidRequest)
    else entry ← requireSchedulerAdmissionEntry db id (Some ws); Ok (db, entry).

Definition cancelSchedulerAdmissionEntry (id ws : jsstr) (db : CoreDb)
    : result SchedulerError (CoreDb * SchedulerAdmissionEntryRecord) :=
  entry ← requireSchedulerAdmissionEntry db id (Some ws);
  if negb (bool_decide (status (row entry) = Queued) || bool_decide (status (row entry) = Denied)) then
    Err (SchedulerAdmissionTransitionError (js "Scheduler admission entry " ++ id ++ js " cannot be cancelled.") InvalidRequest)
  else
    let '(db, n) := set_entry id (λ r, bool_decide (workspaceId r = workspaceId (row entry)) && bool_decide (status r = status (row entry)))
                      (set_status Cancelled None) db in
    if bool_decide (n ≠ 1%nat) then
      Err (SchedulerAdmissionTransitionError (js "Scheduler admission entry could not be cancelled: " ++ id) InvalidRequest)
    else entry ← requireSchedulerAdmissionEntry db id (Some ws); Ok (db, entry).
End Queue.

(** ** Listing and selection *)

Definition listQueuedSchedulerAdmissionEntries (db : CoreDb) : result SchedulerError (list SchedulerAdmissionEntryRecord) :=
  mapM mapSchedulerAdmissionEntryRow (filterb is_queued (entries db)).

(** The order [enqueued_at, queue_entry_id] of a keyset page. *)
Definition page_cmp (a b : AdmissionRow) : Z :=
  if enqueuedAt a <? enqueuedAt b then -1 else if enqueuedAt b <? enqueuedAt a then 1
  else str_cmp (queueEntryId a) (queueEntryId b).

Definition PAGE_LIMIT : nat := 128.

Definition page_matches (ws : jsstr) (statuses : list SchedulerAdmissionStatus) (r : AdmissionRow) : bool :=
  bool_decide (workspaceId r = ws) && includes statuses (status r).

Definition after_cursor (after : option AdmissionRow) (r : AdmissionRow) : bool :=
  match after with
  | None => true
  | Some a => (enqueuedAt a <? enqueuedAt r) ||
              ((enqueuedAt r =? enqueuedAt a) && (0 <? str_cmp (queueEntryId r) (queueEntryId a)))
  end.

Definition page_select (db : CoreDb) (ws : jsstr) (statuses : list SchedulerAdmissionStatus) (after : option AdmissionRow)
    : list AdmissionRow :=
  take PAGE_LIMIT (js_sort page_cmp (filterb (after_cursor after) (filterb (page_matches ws statuses) (entries db)))).

(** The pages of the generator, in order.  A page is never empty, so the fuel of one unit per row is enough. *)
Fixpoint admission_pages (fuel : nat) (db : CoreDb) (ws : jsstr) (statuses : list SchedulerAdmissionStatus)
    (after : option AdmissionRow) : result SchedulerError (list (list SchedulerAdmissionEntryRecord)) :=
  match fuel with
  | O => Ok []
  | S fuel =>
    match List.rev (page_select db ws statuses after) with
    | [] => Ok []
    | final :: _ =>
      page ← mapM mapSchedulerAdmissionEntryRow (page_select db ws statuses after);
      rest ← admission_pages fuel db ws statuses (Some final);
      Ok (page :: rest)
    end
  end.

Definition readSchedulerAdmissionPagesForWorkspace (db : CoreDb) (ws : jsstr) (statuses : list SchedulerAdmissionStatus)
    : result SchedulerError (list (list SchedulerAdmissionEntryRecord)) :=
  if bool_decide (statuses = []) then Ok []
  else admission_pages (S (length (entries db))) db ws statuses None.

Definition listSchedulerAdmissionEntriesForWorkspace (db : CoreDb) (ws : jsstr) (statuses : list SchedulerAdmissionStatus)
    : result SchedulerError (list SchedulerAdmissionEntryRecord) :=
  pages ← readSchedulerAdmissionPagesForWorkspace db ws statuses; Ok (List.concat pages).

(** A live attempt of the same Turn or Thread. *)
Definition excluded (db : CoreDb) (r : AdmissionRow) : bool :=
  existsb (λ a, is_live a && (bool_decide (at_turn a = turnId r) || bool_decide (at_thread a = (workspaceId r, threadId r))))
    (attempts db).

Definition findNextDispatchableSchedulerAdmissionEntry (db : CoreDb) (unpublished : list jsstr)
    : result SchedulerError (option SchedulerAdmissionEntryRecord) :=
  queue ← listQueuedSchedulerAdmissionEntries db;
  Ok (find (λ e, negb (includes unpublished (queueEntryId (row e))) && negb (excluded db (row e))) queue).

Definition same_lineage (ws th tu : jsstr) (r : AdmissionRow) : bool :=
  bool_decide (workspaceId r = ws) && bool_decide (threadId r = th) && bool_decide (turnId r = tu).

Definition findSchedulerAdmissionForTurn (db : CoreDb) (ws th tu : jsstr)
    : result SchedulerError (option SchedulerAdmissionEntryRecord) :=
  match find (λ r, same_lineage ws th tu r && includes [Queued; AdmittedEntry] (status r)) (entries db) with
  | Some r => e ← mapSchedulerAdmissionEntryRow r; Ok (Some e)
  | None => Ok None
  end.

Record SchedulerExecutionLineage := {
  ln_workspaceId : jsstr;
  ln_threadId : jsstr;
  ln_turnId : jsstr;
  ln_agentSessionId : jsstr;
  ln_packageSnapshotId : jsstr;
}.

(** Closed busy refusals contain no execution. *)
Definition isSchedulerExecutionBusyRefusal (a : AttemptRow) : bool :=
  bool_decide (phase a = Closed) && bool_decide (disposition a = NotAccepted) && bool_decide (operationId a = None) &&
  bool_decide (terminalCause a = Some (js "backend-busy")).

Definition attempt_in_lineage (l : SchedulerExecutionLineage) (a : AttemptRow) : bool :=
  bool_decide (ao_workspaceId (owner a) = ln_workspaceId l) && bool_decide (ao_threadId (owner a) = ln_threadId l) &&
  bool_decide (at_turn a = ln_turnId l) && bool_decide (agentSessionId a = Some (ln_agentSessionId l)) &&
  bool_decide (inputRef a = Some (ln_packageSnapshotId l)) && negb (isSchedulerExecutionBusyRefusal a).

(** The admission of an attempt: same queue entry and same lineage. *)
Definition owns_attempt (a : AttemptRow) (r : AdmissionRow) : bool :=
  bool_decide (queueEntryId r = ao_queueEntryId (owner a)) &&
  same_lineage (ao_workspaceId (owner a)) (ao_threadId (owner a)) (at_turn a) r.

Definition admissions_of (db : CoreDb) (l : list AttemptRow) : list AdmissionRow :=
  a ← l; filterb (owns_attempt a) (entries db).

Definition findSchedulerAdmissionForWorkerLineage (db : CoreDb) (l : SchedulerExecutionLineage)
    : result SchedulerError (option SchedulerAdmissionEntryRecord) :=
  match admissions_of db (filterb (attempt_in_lineage l) (attempts db)) with
  | [r] => e ← mapSchedulerAdmissionEntryRow r; Ok (Some e)
  | _ => Ok None
  end.

Definition requireSchedulerExecutionAttemptAdmissionContext (db : CoreDb) (id : jsstr)
    : result SchedulerError SchedulerAdmissionEntryRecord :=
  match admissions_of db (filterb (λ a, bool_decide (at_id a = id)) (attempts db)) with
  | r :: _ => mapSchedulerAdmissionEntryRow r
  | [] => Err (PlainError (js "Execution attempt has no exact admission owner."))
  end.

(** ** Parsed values survive storage *)

Lemma kind_text_inj k : kind_of_text (kind_text k) = Some k.
Proof. by destruct k. Qed.
Lemma kind_text_not_user k : kind_text k ≠ js "user".
Proof. by destruct k. Qed.
Lemma kind_of_text_Some s k : kind_of_text s = Some k → s = kind_text k.
Proof. intros [_ H]%find_Some. by apply bool_decide_eq_true_1 in H. Qed.

Definition actor_valid (a : ActorRef) : bool :=
  match a with
  | UserActor id => is_id "usr" id
  | ResponsibleActor k id r =>
    (match k with AutomationActor => is_id "auto" id | _ => nonempty id end) && nullable (is_id "usr") r
  end.

Lemma nullable_member_valid p k ms r : nullable_member p k ms = Some r → nullable p r = true.
Proof. unfold nullable_member. destruct (member k ms); try done; [by intros [= <-]|]. destruct (p s) eqn:E; [|done]. by intros [= <-]. Qed.

Lemma parse_actor_valid strict v a : parse_actor strict v = Some a → actor_valid a = true.
Proof.
  unfold parse_actor. intros (ms & _ & (kind & _ & (id & _ & H)%bind_Some)%bind_Some)%bind_Some.
  case_bool_decide.
  - destruct (is_id "usr" id) eqn:E; [|done]. cbn [andb] in H. destruct (_ || _); [|done]. by injection H as <-.
  - apply bind_Some in H as (k & _ & (r & Hr%nullable_member_valid & H)%bind_Some).
    destruct (_ && _) eqn:E; [|done]. injection H as <-. cbn. apply andb_true_iff in E as [-> _]. done.
Qed.

Lemma or_null_member p k ms r :
  member k ms = or_null r → nullable p r = true → nullable_member p k ms = Some r.
Proof. unfold nullable_member. intros ->. destruct r as [s|]; cbn; [|done]. by intros ->. Qed.

(** An accepted actor is written and read back unchanged, by the strict and by the retained reader. *)
Lemma actor_roundtrip strict a : actor_valid a = true → parse_actor strict (actor_json a) = Some a.
Proof.
  destruct a as [id|k id r]; cbn [actor_valid].
  - intros H. unfold parse_actor, actor_json.
    change (members_of _) with (Some [(js "kind", JStr (js "user")); (js "id", JStr id)]). cbn [mbind option_bind].
    change (string_member "kind" _) with (Some (js "user")). cbn [mbind option_bind].
    change (string_member "id" _) with (Some id). cbn [mbind option_bind].
    rewrite bool_decide_eq_true_2 by done. rewrite H. by destruct strict.
  - intros [Hid Hr]%andb_true_iff. unfold parse_actor, actor_json. cbn [members_of mbind option_bind].
    change (string_member "kind" _) with (Some (kind_text k)). cbn [mbind option_bind].
    change (string_member "id" _) with (Some id). cbn [mbind option_bind].
    rewrite bool_decide_eq_false_2 by apply kind_text_not_user. rewrite kind_text_inj. cbn [mbind option_bind].
    rewrite (or_null_member _ _ _ r) by done. cbn [mbind option_bind]. rewrite Hid. by destruct strict.
Qed.

Definition ids_valid (ids : list jsstr) : bool :=
  (Z.of_nat (length ids) <=? 1000) && forallb isNonemptyString ids && bool_decide (NoDup ids).

Definition choice_valid (c : SchedulerWorkerStorageChoice) : bool :=
  match c with
  | Fresh goalId taskId => nullable isNonemptyString goalId && nullable isNonemptyString taskId
  | Selected ids rev goalId _ reuse storageRef taskId =>
    match ids with Some l => ids_valid l | None => true end &&
    bool_decide (is_revision (JNum rev) ≠ None) && nullable isNonemptyString goalId &&
    nullable isSchedulerStorageIdentity reuse && isSchedulerStorageIdentity storageRef &&
    nullable isNonemptyString taskId
  end.

Lemma strings_of_JStr l : strings_of (JStr <$> l) = Some l.
Proof. apply mapM_Some. induction l; by constructor. Qed.
Lemma purpose_roundtrip p : purpose_of (JStr (purpose_text p)) = Some p.
Proof. by destruct p. Qed.
Lemma is_revision_same v f : is_revision v = Some f → v = JNum f.
Proof. destruct v; try done. cbn. intros (z & _ & H)%bind_Some. destruct (_ && _); [|done]. by injection H as <-. Qed.

Lemma optional_identity_valid v r : optional_identity v = Some r → nullable isSchedulerStorageIdentity r = true.
Proof. destruct v as [| | | | |s| |]; try done; cbn; [by intros [= <-]|]. destruct (isSchedulerStorageIdentity s) eqn:E; [|done]. by intros [= <-]. Qed.
Lemma adjudicated_valid v o : adjudicated v = Some o → match o with Some l => ids_valid l | None => true end = true.
Proof.
  destruct v; try done; [by intros [= <-]|]. intros (ids & _ & H)%bind_Some. fold (ids_valid ids) in H.
  destruct (ids_valid ids) eqn:E; [|done]. by injection H as <-.
Qed.

Lemma parse_choice_valid v retained c : parseSchedulerWorkerStorageChoice v retained = Ok c → choice_valid c = true.
Proof.
  destruct v as [| | | | | | |ms]; try done. cbn. destruct (no_required_features _); [|done]. cbn [negb].
  destruct (parse_fresh retained ms) as [c'|] eqn:F.
  - intros [= <-]. unfold parse_fresh in F. destruct (_ && _); [|done].
    apply bind_Some in F as (g & Hg%nullable_member_valid & (t & Ht%nullable_member_valid & [= <-])%bind_Some).
    cbn. by rewrite Hg, Ht.
  - destruct (parse_selected retained ms) as [c'|] eqn:P; [|done]. intros [= <-]. clear F.
    unfold parse_selected in P. destruct (_ && _); [|done].
    apply bind_Some in P as (rev & Hrev & (p & _ & (sref & _ & P)%bind_Some)%bind_Some).
    destruct (isSchedulerStorageIdentity sref) eqn:Hs; [|done].
    apply bind_Some in P as (re & Hre%optional_identity_valid & (g & Hg%nullable_member_valid & P)%bind_Some).
    apply bind_Some in P as (t & Ht%nullable_member_valid & (ids & Hids%adjudicated_valid & [= <-])%bind_Some).
    pose proof (is_revision_same _ _ Hrev) as Hf. rewrite Hf in Hrev. cbn [choice_valid].
    rewrite Hids, Hg, Hre, Hs, Ht, bool_decide_eq_true_2; [done|]. by rewrite Hrev.
Qed.

(** The members of a written selection, by name. *)
Record selected_members (ms : list (jsstr * jsval)) (ids : option (list jsstr)) (rev : spec_float)
    (goalId : option jsstr) (p : StoragePurpose) (reuse : option jsstr) (storageRef : jsstr) (taskId : option jsstr) : Prop := {
  sm_features : member "requiredFeatures" ms = JUndef;
  sm_kind : string_member "kind" ms = Some (js "selected");
  sm_keys : only_keys storage_fields ms = true;
  sm_rev : member "expectedRevision" ms = JNum rev;
  sm_purpose : member "purpose" ms = JStr (purpose_text p);
  sm_storage : string_member "storageRef" ms = Some storageRef;
  sm_reuse : member "reuseWorkSlotRef" ms = match reuse with Some s => JStr s | None => JUndef end;
  sm_goal : member "goalId" ms = or_null goalId;
  sm_task : member "taskId" ms = or_null taskId;
  sm_ids : member "adjudicatedThreadIds" ms = match ids with Some l => JArr (JStr <$> l) | None => JUndef end;
}.

Lemma selected_parses retained ms ids rev g p reuse sref t :
  selected_members ms ids rev g p reuse sref t → choice_valid (Selected ids rev g p reuse sref t) = true →
  parseSchedulerWorkerStorageChoice (JObj ms) retained = Ok (Selected ids rev g p reuse sref t).
Proof.
  intros M H. cbn [choice_valid] in H. repeat (apply andb_true_iff in H as [H ?]).
  unfold parseSchedulerWorkerStorageChoice. rewrite (sm_features _ _ _ _ _ _ _ _ M). cbn [no_required_features negb].
  assert (parse_fresh retained ms = None) as ->.
  { unfold parse_fresh. by rewrite (sm_kind _ _ _ _ _ _ _ _ M), bool_decide_eq_false_2. }
  unfold parse_selected. rewrite (sm_kind _ _ _ _ _ _ _ _ M), bool_decide_eq_true_2 by done.
  rewrite (sm_keys _ _ _ _ _ _ _ _ M), orb_true_r. cbn [andb].
  rewrite (sm_rev _ _ _ _ _ _ _ _ M). destruct (is_revision (JNum rev)) as [f|] eqn:Hf; [|by bool_to_prop].
  pose proof (is_revision_same _ _ Hf) as [= <-]. cbn [mbind option_bind].
  rewrite (sm_purpose _ _ _ _ _ _ _ _ M), purpose_roundtrip. cbn [mbind option_bind].
  rewrite (sm_storage _ _ _ _ _ _ _ _ M). cbn [mbind option_bind].
  replace (isSchedulerStorageIdentity sref) with true.
  rewrite (sm_reuse _ _ _ _ _ _ _ _ M).
  assert (optional_identity (match reuse with Some s => JStr s | None => JUndef end) = Some reuse) as ->.
  { destruct reuse as [s|]; [|done]. cbn [nullable optional_identity] in *. by replace (isSchedulerStorageIdentity s) with true. }
  cbn [mbind option_bind].
  rewrite (or_null_member _ "goalId" _ g), (or_null_member _ "taskId" _ t) by (first [exact (sm_goal _ _ _ _ _ _ _ _ M)|exact (sm_task _ _ _ _ _ _ _ _ M)|done]).
  cbn [mbind option_bind].
  rewrite (sm_ids _ _ _ _ _ _ _ _ M). destruct ids as [l|]; [|done]. cbn [adjudicated].
  rewrite strings_of_JStr. cbn [mbind option_bind]. fold (ids_valid l). by rewrite H.
Qed.

(** An accepted choice is written and read back unchanged, by the exact and by the retained reader. *)
Lemma choice_roundtrip retained c :
  choice_valid c = true → parseSchedulerWorkerStorageChoice (choice_json c) retained = Ok c.
Proof.
  destruct c as [g t|ids rev g p reuse sref t].
  - intros [Hg Ht]%andb_true_iff. unfold choice_json, parseSchedulerWorkerStorageChoice.
    change (member "requiredFeatures" _) with JUndef. cbn [no_required_features negb]. unfold parse_fresh.
    change (string_member "kind" _) with (Some (js "fresh")). rewrite bool_decide_eq_true_2 by done.
    rewrite (bool_decide_eq_true_2 (length _ = _)), orb_true_r by done. cbn [andb].
    by rewrite (or_null_member _ "goalId" _ g), (or_null_member _ "taskId" _ t) by done.
  - intros H. unfold choice_json. apply selected_parses; [|done]. clear H.
    destruct ids as [l|], reuse as [s|]; by constructor.
Qed.

(** ** Idempotent admission *)

Record entries_ok (db : CoreDb) : Prop := {
  ok_entry_ids : NoDup (queueEntryId <$> entries db);
  ok_entry_turns : NoDup (turnId <$> entries db);
}.

Lemma mapRow_row r e : mapSchedulerAdmissionEntryRow r = Ok e → row e = r.
Proof.
  unfold mapSchedulerAdmissionEntryRow, readRetainedV1. case_bool_decide as Hv; [|done].
  intros (a & _ & (rs & _ & (c & _ & H)%bind_Ok)%bind_Ok)%bind_Ok. destruct (nullable _ _); [|done]. by injection H as <-.
Qed.

Lemma require_entry db id ws e :
  requireSchedulerAdmissionEntry db id ws = Ok e →
  get_entry db id = Some (row e) ∧ mapSchedulerAdmissionEntryRow (row e) = Ok e ∧
  match ws with Some w => workspaceId (row e) = w | None => True end.
Proof.
  unfold requireSchedulerAdmissionEntry. destruct (get_entry db id) as [r|]; [|done].
  destruct (match ws with Some _ => _ | None => _ end) eqn:W; [|done]. intros H.
  pose proof (mapRow_row _ _ H) as <-. split_and!; [done|done|]. destruct ws; [|done]. by bool_to_prop.
Qed.

Lemma get_entry_Some db id r : get_entry db id = Some r → r ∈ entries db ∧ queueEntryId r = id.
Proof. intros [? H]%find_Some. by bool_to_prop. Qed.

Lemma find_app {A} (p : A → bool) l k : find p (l ++ k) = match find p l with Some x => Some x | None => find p k end.
Proof. induction l as [|x l IH]; [done|]. cbn. by destruct (p x). Qed.

Definition same_entry (i : CreateSchedulerAdmissionEntryInput) (r : AdmissionRow) : bool :=
  bool_decide (queueEntryId r = in_queueEntryId i) || bool_decide (turnId r = in_turnId i).

(** What a creation that succeeds has done. *)
Inductive created (sha256 : jsstr → jsstr) (i : CreateSchedulerAdmissionEntryInput) (t : Z) (db : CoreDb)
    : CoreDb → SchedulerAdmissionEntryRecord → Prop :=
| created_replay e actor choice :
    parse_actor true (in_triggerActor i) = Some actor → read_choice (in_workerStorageChoice i) false = Ok choice →
    find (same_entry i) (entries db) = Some (row e) → mapSchedulerAdmissionEntryRow (row e) = Ok e →
    queueEntryId (row e) = in_queueEntryId i →
    schedulerAdmissionInputHash sha256 (with_parsed i actor choice) = Ok (inputHash (row e)) →
    created sha256 i t db db e
| created_new e actor choice effort hash :
    parse_actor true (in_triggerActor i) = Some actor → read_choice (in_workerStorageChoice i) false = Ok choice →
    parse_effort (in_reasoningEffort i) = Ok effort →
    find (same_entry i) (entries db) = None → (queued_count db < QUEUE_BOUND)%nat →
    schedulerAdmissionInputHash sha256 (with_parsed i actor choice) = Ok hash →
    row e = new_row i hash actor choice effort t → mapSchedulerAdmissionEntryRow (row e) = Ok e →
    created sha256 i t db (with_entries (entries db ++ [row e]) db) e.

Lemma create_spec sha256 i t db db' e :
  createSchedulerAdmissionEntry sha256 i t db = Ok (db', e) → in_backendId i ≠ [] ∧ created sha256 i t db db' e.
Proof.
  unfold createSchedulerAdmissionEntry. intros (actor & Ha & (choice & Hc & H)%bind_Ok)%bind_Ok.
  unfold lift in Ha. destruct (parse_actor true (in_triggerActor i)) as [a|] eqn:Pa; [|done]. injection Ha as ->.
  case_bool_decide as Hb; [done|]. split; [done|]. apply bind_Ok in H as (hash & Hh & H). fold (same_entry i) in H.
  destruct (find (same_entry i) (entries db)) as [r|] eqn:F.
  - apply bind_Ok in H as (e' & He & H). pose proof (mapRow_row _ _ He) as <-.
    destruct (_ || _) eqn:D; [done|]. injection H as <- <-. apply orb_false_iff in D as [D1 D2].
    apply bool_decide_eq_false_1, dec_stable in D1, D2. subst hash. by eapply created_replay.
  - destruct (QUEUE_BOUND <=? queued_count db)%nat eqn:Q; [done|]. apply Nat.leb_gt in Q.
    apply bind_Ok in H as (effort & He & H). apply bind_Ok in H as (db1 & Hs & (e' & Hr & [= <- <-])%bind_Ok).
    unfold store_entry in Hs. case_bool_decide as Hin; [done|]. injection Hs as <-.
    apply require_entry in Hr as (Hg & Hm & _).
    assert (row e' = new_row i hash actor choice effort t) as E.
    { unfold get_entry in Hg. cbn [entries with_entries] in Hg. rewrite find_app in Hg.
      destruct (find (λ r, bool_decide (queueEntryId r = _)) (entries db)) as [r|] eqn:F'.
      - apply find_Some in F' as [Hr Hq]. bool_to_prop. exfalso.
        pose proof (proj1 (find_None _ _) F r Hr) as N. unfold same_entry in N. bool_to_prop. done.
      - cbn in Hg. rewrite bool_decide_eq_true_2 in Hg by done. by injection Hg as <-. }
    rewrite <-E. by eapply created_new.
Qed.

(** The entry that a repeated creation returns. *)
Record replayable (sha256 : jsstr → jsstr) (i : CreateSchedulerAdmissionEntryInput) (db : CoreDb)
    (e : SchedulerAdmissionEntryRecord) (actor : ActorRef) (choice : option SchedulerWorkerStorageChoice) : Prop := {
  rp_actor : parse_actor true (in_triggerActor i) = Some actor;
  rp_choice : read_choice (in_workerStorageChoice i) false = Ok choice;
  rp_found : find (same_entry i) (entries db) = Some (row e);
  rp_decodes : mapSchedulerAdmissionEntryRow (row e) = Ok e;
  rp_id : queueEntryId (row e) = in_queueEntryId i;
  rp_hash : schedulerAdmissionInputHash sha256 (with_parsed i actor choice) = Ok (inputHash (row e));
}.

Lemma created_replayable sha256 i t db db' e :
  created sha256 i t db db' e → ∃ actor choice, replayable sha256 i db' e actor choice.
Proof.
  intros [e' actor choice ?? F ???|e' actor choice effort hash ??? F ? Hh E Hm]; exists actor, choice; [by constructor|].
  constructor; try done; [|by rewrite E|by rewrite E].
  cbn [entries with_entries]. rewrite find_app, F, E. cbn [find]. unfold same_entry at 1. by rewrite bool_decide_eq_true_2.
Qed.

Lemma replay_runs sha256 i t db e actor choice :
  in_backendId i ≠ [] → replayable sha256 i db e actor choice →
  createSchedulerAdmissionEntry sha256 i t db = Ok (db, e).
Proof.
  intros Hb [Ha Hc F Hm Hq Hh]. unfold createSchedulerAdmissionEntry. rewrite Ha. cbn [lift mbind result_bind].
  rewrite Hc. cbn [mbind result_bind]. rewrite bool_decide_eq_false_2 by done. rewrite Hh. cbn [mbind result_bind].
  fold (same_entry i). rewrite F, Hm. cbn [mbind result_bind]. by rewrite !bool_decide_eq_false_2 by naive_solver.
Qed.

Lemma created_entries_ok sha256 i t db db' e : entries_ok db → created sha256 i t db db' e → entries_ok db'.
Proof.
  intros [H1 H2] [|e' ? ? ? ? ? ? ? F ? ? E ?]; [done|].
  pose proof (proj1 (find_None _ _) F) as N. unfold same_entry in N.
  assert (∀ r, r ∈ entries db → queueEntryId r ≠ in_queueEntryId i ∧ turnId r ≠ in_turnId i) as N'.
  { intros r Hr. specialize (N r Hr). by bool_to_prop. }
  split; cbn [entries with_entries]; rewrite fmap_app, E; apply NoDup_app; (split_and!; [done| |apply NoDup_singleton]);
    intros x (r & -> & Hr)%list_elem_of_fmap Hx%list_elem_of_singleton; by destruct (N' r Hr).
Qed.

(** Creating a queue entry is idempotent: it keeps the ids and Turns of the table unique and the queue
    within its bound (or as long as it was), the same request repeated at any later time returns the same
    entry and changes nothing, and another request under the same entry id either returns that entry
    unchanged or is refused. *)
Theorem admission_is_idempotent sha256 i t db db' e :
  entries_ok db → createSchedulerAdmissionEntry sha256 i t db = Ok (db', e) →
  entries_ok db' ∧
  (queued_count db' <= Nat.max (queued_count db) QUEUE_BOUND)%nat ∧
  (∀ t', createSchedulerAdmissionEntry sha256 i t' db' = Ok (db', e)) ∧
  (∀ i' t' db'' e', in_queueEntryId i' = in_queueEntryId i →
     createSchedulerAdmissionEntry sha256 i' t' db' = Ok (db'', e') → db'' = db' ∧ e' = e).
Proof.
  intros Hok [Hb H]%create_spec. pose proof (created_entries_ok _ _ _ _ _ _ Hok H) as Hok'.
  destruct (created_replayable _ _ _ _ _ _ H) as (actor & choice & R).
  split_and!; [done| | |].
  - destruct H as [|e' ? ? ? ? ? ? ? ? Q ? E ?]; [lia|]. unfold queued_count, changes in *. cbn [entries with_entries].
    rewrite filterb_app, length_app, E. change (length (filterb is_queued [_])) with 1%nat. lia.
  - intros t'. by eapply replay_runs.
  - intros i' t' db'' e' Hq [_ H2]%create_spec. destruct (find_Some _ _ _ (rp_found _ _ _ _ _ _ R)) as [He _].
    destruct H2 as [e' ? ? ? ? F2 Hm2 Hq2 ?|e' ? ? ? ? ? ? ? F2 ? ? ? ?].
    + split; [done|]. apply find_Some in F2 as [He2 _].
      assert (row e' = row e) as E.
      { eapply NoDup_fmap_elem; [apply Hok'|done|done|]. rewrite Hq2, Hq. symmetry. apply R. }
      rewrite E, (rp_decodes _ _ _ _ _ _ R) in Hm2. by injection Hm2.
    + pose proof (proj1 (find_None _ _) F2 _ He) as N. unfold same_entry in N. bool_to_prop.
      destruct R as [_ _ _ _ Rid _]. congruence.
Qed.

(** ** Bounded pages *)

(** The rows past a row of a list sorted by the keyset are the rest of the list. *)
Lemma keyset_rest {A} (after : A → A → bool) pre c post :
  (∀ x, x ∈ pre → after c x = false) → after c c = false → (∀ y, y ∈ post → after c y = true) →
  filterb (after c) (pre ++ c :: post) = post.
Proof.
  intros Hp Hc Hq. rewrite filterb_app. cbn. rewrite Hc, (proj2 (filterb_nil _ _) Hp). by apply filterb_all.
Qed.

Lemma page_cmp_total a b : cmp_le page_cmp a b ∨ cmp_le page_cmp b a.
Proof.
  unfold cmp_le, page_cmp. destruct (_ <? _) eqn:E1, (enqueuedAt b <? enqueuedAt a) eqn:E2; bool_to_prop; try lia.
  apply (keyed_total queueEntryId).
Qed.
Lemma page_cmp_trans : Transitive (cmp_le page_cmp).
Proof.
  intros a b c. unfold cmp_le, page_cmp.
  destruct (enqueuedAt a <? enqueuedAt b) eqn:E1, (enqueuedAt b <? enqueuedAt a) eqn:E2,
    (enqueuedAt b <? enqueuedAt c) eqn:E3, (enqueuedAt c <? enqueuedAt b) eqn:E4,
    (enqueuedAt a <? enqueuedAt c) eqn:E5, (enqueuedAt c <? enqueuedAt a) eqn:E6; bool_to_prop; try lia.
  apply str_cmp_trans.
Qed.

Lemma after_is_strict a r : queueEntryId a ≠ queueEntryId r → after_cursor (Some a) r = (page_cmp a r <=? 0).
Proof.
  intros Hne. apply eq_true_iff_eq. unfold after_cursor, page_cmp.
  assert (str_cmp (queueEntryId a) (queueEntryId r) ≠ 0) by (by intros ?%str_cmp_eq).
  assert (str_cmp (queueEntryId r) (queueEntryId a) ≠ 0) by (intros ?%str_cmp_eq; congruence).
  pose proof (str_cmp_antisym (queueEntryId a) (queueEntryId r)) as A1.
  pose proof (str_cmp_antisym (queueEntryId r) (queueEntryId a)) as A2.
  rewrite orb_true_iff, andb_true_iff, !Z.ltb_lt, Z.eqb_eq, Z.leb_le.
  destruct (enqueuedAt a <? enqueuedAt r) eqn:E1, (enqueuedAt r <? enqueuedAt a) eqn:E2; bool_to_prop; lia.
Qed.
Lemma after_irrefl a : after_cursor (Some a) a = false.
Proof. unfold after_cursor. rewrite Z.ltb_irrefl, Z.eqb_refl, str_cmp_refl. done. Qed.

Lemma page_cmp_antisym a b : page_cmp a b <= 0 → page_cmp b a <= 0 → queueEntryId a = queueEntryId b.
Proof.
  unfold page_cmp. destruct (enqueuedAt a <? enqueuedAt b) eqn:E1, (enqueuedAt b <? enqueuedAt a) eqn:E2; bool_to_prop; try lia.
  intros H1 H2%str_cmp_antisym. apply str_cmp_eq. lia.
Qed.

Lemma StronglySorted_middle {A} (R : A → A → Prop) pre c post :
  StronglySorted R (pre ++ c :: post) → Forall (λ x, R x c) pre ∧ Forall (R c) post.
Proof.
  induction pre as [|x pre IH]; cbn; intros H; inversion H as [|? ? Hs Hall]; subst; [done|].
  destruct (IH Hs). split; [|done]. constructor; [|done]. rewrite Forall_app, Forall_cons in Hall. tauto.
Qed.

Section Pages.
Context (db : CoreDb) (ws : jsstr) (statuses : list SchedulerAdmissionStatus).
Context (Hok : entries_ok db).

Definition page_matching : list AdmissionRow := js_sort page_cmp (filterb (page_matches ws statuses) (entries db)).

Lemma matching_ids : NoDup (queueEntryId <$> page_matching).
Proof.
  unfold page_matching. rewrite js_sort_perm. eapply sublist_NoDup; [exact (ok_entry_ids _ Hok)|]. apply fmap_sublist, filterb_sublist.
Qed.

Lemma page_select_matching after : page_select db ws statuses after = take PAGE_LIMIT (filterb (after_cursor after) page_matching).
Proof. unfold page_select, page_matching. by rewrite js_sort_filterb by (exact page_cmp_total || exact page_cmp_trans). Qed.

Lemma rest_after pre c post : page_matching = pre ++ c :: post → filterb (after_cursor (Some c)) page_matching = post.
Proof.
  intros E. pose proof matching_ids as Hn. pose proof (js_sort_sorted _ page_cmp_total page_cmp_trans
    (filterb (page_matches ws statuses) (entries db))) as Hs. fold page_matching in Hs.
  rewrite E in Hs, Hn |- *. rewrite fmap_app, fmap_cons in Hn. apply StronglySorted_middle in Hs as [Hp Hq].
  apply NoDup_app in Hn as (_ & Hd & [Hc _]%NoDup_cons).
  assert (∀ y, y ∈ post → queueEntryId c ≠ queueEntryId y) as Hcy.
  { intros y Hy Ey. apply Hc. rewrite Ey. by apply list_elem_of_fmap_2. }
  assert (∀ x, x ∈ pre → queueEntryId c ≠ queueEntryId x) as Hcx.
  { intros x Hx Ex. apply (Hd (queueEntryId x)); [by apply list_elem_of_fmap_2|]. rewrite <-Ex. left. }
  apply (keyset_rest (λ c, after_cursor (Some c))); [|apply after_irrefl|].
  - intros x Hx. rewrite after_is_strict by auto. apply Z.leb_gt. destruct (Z_lt_le_dec 0 (page_cmp c x)); [done|].
    exfalso. apply (Hcx x Hx). apply page_cmp_antisym; [done|]. rewrite Forall_forall in Hp. by apply Hp.
  - intros y Hy. rewrite after_is_strict by auto. apply Z.leb_le. rewrite Forall_forall in Hq. by apply Hq.
Qed.

Lemma mapM_app_result {E A B} (f : A → result E B) l k :
  mapM f (l ++ k) = (x ← mapM f l; y ← mapM f k; Ok (x ++ y)).
Proof.
  induction l as [|a l IH]; cbn; [by destruct (mapM f k)|]. destruct (f a); [|done]. cbn. rewrite IH.
  destruct (mapM f l); [|done]. cbn. by destruct (mapM f k).
Qed.

Lemma pages_read fuel after :
  (length (filterb (after_cursor after) page_matching) < fuel)%nat →
  (∃ pre, page_matching = pre ++ filterb (after_cursor after) page_matching) →
  (pages ← admission_pages fuel db ws statuses after; Ok (List.concat pages)) =
  mapM mapSchedulerAdmissionEntryRow (filterb (after_cursor after) page_matching).
Proof.
  revert after. induction fuel as [|fuel IH]; intros after Hf [pre Epre]; [lia|]. cbn [admission_pages].
  rewrite page_select_matching. set (rest := filterb (after_cursor after) page_matching) in *.
  destruct (List.rev (take PAGE_LIMIT rest)) as [|c rpage] eqn:Er.
  - apply (f_equal (@List.rev _)) in Er. rewrite List.rev_involutive in Er. cbn in Er.
    destruct rest as [|r rest']; [done|]. by cbn in Er.
  - apply (f_equal (@List.rev _)) in Er. rewrite List.rev_involutive in Er. cbn [List.rev] in Er.
    set (page := List.rev rpage) in *. pose proof (take_drop PAGE_LIMIT rest) as Et. rewrite Er in Et.
    assert (filterb (after_cursor (Some c)) page_matching = drop PAGE_LIMIT rest) as Ec.
    { apply (rest_after (pre ++ page)). rewrite Epre, <-Et at 1. by rewrite <-!(assoc (++)). }
    specialize (IH (Some c)). rewrite Ec in IH.
    transitivity (p ← mapM mapSchedulerAdmissionEntryRow (page ++ [c]);
                  q ← mapM mapSchedulerAdmissionEntryRow (drop PAGE_LIMIT rest); Ok (p ++ q)).
    + rewrite Er. destruct (mapM _ (page ++ [c])) as [p|]; [|done]. cbn [mbind result_bind].
      assert (length rest = (length page + 1 + length (drop PAGE_LIMIT rest))%nat) as El.
      { rewrite <-Et at 1. by rewrite !length_app. }
      rewrite <-IH; [|lia|].
      * by destruct (admission_pages fuel db ws statuses (Some c)).
      * exists (pre ++ page ++ [c]). rewrite Epre, <-Et at 1. by rewrite <-!(assoc (++)).
    + by rewrite <-mapM_app_result, Et.
Qed.

(** The bounded keyset pages of a Workspace's admissions, read until one is empty, are together exactly
    the page_matching rows in the order of enqueue time and id, each once; a row that cannot be decoded fails the
    listing as it would fail the single query. *)
Theorem admission_pages_are_the_query :
  listSchedulerAdmissionEntriesForWorkspace db ws statuses =
  mapM mapSchedulerAdmissionEntryRow (js_sort page_cmp (filterb (page_matches ws statuses) (entries db))).
Proof.
  fold page_matching. unfold listSchedulerAdmissionEntriesForWorkspace, readSchedulerAdmissionPagesForWorkspace.
  case_bool_decide as Hs.
  - unfold page_matching. rewrite (proj2 (filterb_nil _ _)); [done|]. intros r _. unfold page_matches, includes.
    rewrite Hs, (bool_decide_eq_false_2 (_ ∈ [])), andb_false_r; [done|]. apply not_elem_of_nil.
  - assert (filterb (after_cursor None) page_matching = page_matching) as E by (by apply filterb_all).
    rewrite pages_read; [by rewrite E| |by exists []; rewrite E].
    rewrite E. unfold page_matching. rewrite js_sort_perm. pose proof (sublist_length _ _ (filterb_sublist (page_matches ws statuses) (entries db))). lia.
Qed.
End Pages.

(** ** Dispatch order *)

Definition eligible (db : CoreDb) (unpublished : list jsstr) (r : AdmissionRow) : Prop :=
  queueEntryId r ∉ unpublished ∧ excluded db r = false.

Lemma find_split {A} (p : A → bool) l :
  match find p l with
  | Some x => ∃ pre post, l = pre ++ x :: post ∧ p x = true ∧ Forall (λ y, p y = false) pre
  | None => Forall (λ y, p y = false) l
  end.
Proof.
  induction l as [|y l IH]; cbn; [done|]. destruct (p y) eqn:E; [by exists [], l|].
  destruct (find p l) as [x|]; [|by constructor].
  destruct IH as (pre & post & -> & Hx & Hp). exists (y :: pre), post. split_and!; [done|done|by constructor].
Qed.

Lemma mapM_rows l es : mapM mapSchedulerAdmissionEntryRow l = Ok es → row <$> es = l.
Proof.
  rewrite mapM_result_Ok. induction 1 as [|r e l es H _ IH]; [done|]. rewrite fmap_cons, IH. by rewrite (mapRow_row _ _ H).
Qed.

Lemma ineligible db unpublished e :
  negb (includes unpublished (queueEntryId (row e))) && negb (excluded db (row e)) = true ↔ eligible db unpublished (row e).
Proof. unfold eligible, includes. by rewrite andb_true_iff, !negb_true_iff, bool_decide_eq_false. Qed.

(** The selected entry is the oldest queued one that is published and whose Turn and Thread are free. *)
Lemma next_dispatchable db unpublished o :
  findNextDispatchableSchedulerAdmissionEntry db unpublished = Ok o →
  match o with
  | Some e => ∃ pre post, filterb is_queued (entries db) = pre ++ row e :: post ∧
      mapSchedulerAdmissionEntryRow (row e) = Ok e ∧ eligible db unpublished (row e) ∧
      Forall (λ r, ¬ eligible db unpublished r) pre
  | None => ∀ r, r ∈ entries db → status r = Queued → ¬ eligible db unpublished r
  end.
Proof.
  unfold findNextDispatchableSchedulerAdmissionEntry. intros (es & Hes & [= <-])%bind_Ok.
  pose proof (mapM_rows _ _ Hes) as Hr. pose proof (find_split (λ e, negb (includes unpublished (queueEntryId (row e))) && negb (excluded db (row e))) es) as H.
  destruct (find _ es) as [e|].
  - destruct H as (pre & post & E & He & Hp). exists (row <$> pre), (row <$> post).
    rewrite <-Hr, E, fmap_app, fmap_cons. split_and!; [done| |by apply ineligible|].
    + apply mapM_result_Ok in Hes. rewrite E in Hes. apply Forall2_app_inv_r in Hes as (? & ? & _ & Hes & _).
      apply Forall2_cons_inv_r in Hes as (? & ? & Hm & _). by rewrite (mapRow_row _ _ Hm).
    + rewrite Forall_fmap. eapply Forall_impl; [exact Hp|]. intros e' He' Hel%ineligible. congruence.
  - intros r Hr' Hq Hel. assert (r ∈ row <$> es) as (e & -> & He)%list_elem_of_fmap.
    { rewrite Hr. apply elem_of_filterb. split; [done|]. unfold is_queued. by rewrite bool_decide_eq_true_2. }
    rewrite Forall_forall in H. apply ineligible in Hel. by rewrite H in Hel.
Qed.

Lemma set_status_keys s d r : queueEntryId (set_status s d r) = queueEntryId r ∧ turnId (set_status s d r) = turnId r.
Proof. done. Qed.

Lemma update_where_keys {A K} (key : A → K) p f (l : list A) :
  (∀ r, key (f r) = key r) → key <$> update_where p f l = key <$> l.
Proof. intros H. unfold update_where. rewrite <-list_fmap_compose. apply list_fmap_ext. intros _ r _. cbn. by destruct (p r). Qed.

Lemma status_update_ok p s d db : entries_ok db → entries_ok (with_entries (update_where p (set_status s d) (entries db)) db).
Proof. intros [H1 H2]. split; cbn [entries with_entries]; by rewrite update_where_keys. Qed.

Lemma elem_of_update_where {A} p (f : A → A) l r :
  r ∈ update_where p f l ↔ ∃ r0, r0 ∈ l ∧ r = if p r0 then f r0 else r0.
Proof. unfold update_where. rewrite list_elem_of_fmap. naive_solver. Qed.
