(* ===== verification/CommandReceipts.v ===== *)
(** * Command receipts
    (nanocore/src/storage/command-request-codecs.ts, nanocore/src/storage/command-request-records.ts,
    nanocore/src/storage/control-store-admission-codecs.ts, nanocore/src/storage/control-store-admission.ts,
    nanocore/src/storage/scoped-notebook-sql-codecs.ts, nanocore/src/storage/catalog-command-receipt-codecs.ts)

    The idempotency ledger of one scoped database: which owner a request scope selects, what a receipt
    may point to, and how receipts are written, read and pruned.  A JSON column holds the value its text
    parses to, the text being the one [JSON.stringify] writes; timestamps are instants.  Whether a
    judgement annotation of another table carries a request id is the argument [judged] of the
    statements that ask. *)

From Stdlib Require Import SpecFloat.
From S2P Require Import Prelude JsValue EntityId CommandInput SchedulerStore SchedulerRecords.

Local Open Scope string_scope.
Local Open Scope list_scope.
Local Open Scope Z_scope.

Inductive CommandError :=
| CommandFailure (message : jsstr)
| ReceiptSchemaRefusal
| ReceiptFormatRefusal
| ReceiptRecoveryRequired
| ControlProductPrecondition
| IdempotencyKeyConflictError.

Definition fail {A} (message : string) : result CommandError A := Err (CommandFailure (js message)).

(** ** Owners *)

Inductive CommandRequestOwner :=
| OwnerCore
| OwnerUser (userId : jsstr)
| OwnerWorkspace (workspaceId : jsstr)
| OwnerApp (workspaceId appId : jsstr).
#[export] Instance CommandRequestOwner_eq_dec : EqDecision CommandRequestOwner.
Proof. solve_decision. Defined.

Definition scope_get (k : string) (scope : CommandRequestScope) : option jsstr := lookup_member (js k) scope.

Definition commandRequestOwner (scope : CommandRequestScope) : result CommandError CommandRequestOwner :=
  let refused := fail "Command request scope must name exactly one Core, User, Workspace, or App owner." in
  match scope_get "coreId" scope, scope_get "userId" scope, scope_get "workspaceId" scope, scope_get "appId" scope with
  | Some c, None, None, None => if bool_decide (c = js "server") then Ok OwnerCore else refused
  | None, Some u, None, None => if nonempty u then Ok (OwnerUser u) else refused
  | None, None, Some w, Some a => if nonempty w && nonempty a then Ok (OwnerApp w a) else refused
  | None, None, Some w, None => if nonempty w then Ok (OwnerWorkspace w) else refused
  | _, _, _, _ => refused
  end.

(** ** Partitions of the command names *)

Definition CONTROL_ADMISSION_COMMANDS : list string :=
  ["thread.create"; "thread.update"; "thread.archive"; "turn.start"; "task.start"; "turn.input.submit";
   "conversation.submit"; "turn.interrupt"].
Definition CONTROL_NATIVE_RECEIPT_COMMANDS : list string := CONTROL_ADMISSION_COMMANDS ++
  ["vault.server-mcp-secret-create"; "vault.server-mcp-secret-rotate"; "vault.server-mcp-secret-revoke";
   "vault.server-mcp-grant-create"; "vault.server-mcp-grant-revoke"; "vault.server-mcp-grant-narrow";
   "approval.respond"; "user_input.answer"; "pending_request.withdraw"; "artifact.submit"; "artifact.review.select";
   "artifact.review.decide"; "goal.create"; "goal.intent.revise"; "goal.card.create"; "goal.card.edit";
   "goal.card.cancel"; "goal.plan.propose"; "goal.plan.approve"; "goal.cancel"; "goal.completion.accept";
   "knowledge.maintain"; "knowledge.tell"; "knowledge.server.maintain"; "knowledge.server.tell"; "material.create";
   "material.save"; "material.bind"; "material.unbind"; "material.exclude"; "material.restore";
   "material.range-correct"; "worker.recovery.retry"; "generative-ui.publish"; "evaluation.candidate-set-create";
   "evaluation.candidate-set-select"; "workspace.invitation.create"; "workspace.invitation.accept";
   "workspace.invitation.decline"; "workspace.invitation.revoke"; "workspace.member.remove"; "workspace.leave";
   "workspace.ownership.transfer"; "workspace.access.recover"; "workspace.delete"; "workspace_sync.recovery.decide"].
Definition CONTROL_NATIVE_WORKSPACE_KNOWLEDGE_COMMANDS : list string :=
  ["knowledge.schema.apply"; "knowledge.notebook.update"; "knowledge.notebook.restore"; "knowledge.notebook.create";
   "knowledge.notebook.delete"; "knowledge.proposal.draft"; "knowledge.proposal.decide"; "knowledge.proposal.reverse";
   "knowledge.package.import"; "knowledge.source.register"].
Definition CONTROL_NATIVE_CORE_LIFECYCLE_COMMANDS : list string := ["user.disable"].
Definition SCOPED_NOTEBOOK_USER_RECEIPTS : list string :=
  ["knowledge.notebook.update"; "knowledge.notebook.restore"; "knowledge.notebook.delete"; "knowledge.proposal.decide"].
Definition SCOPED_NOTEBOOK_SERVER_RECEIPTS : list string := ["knowledge.notebook.update"; "knowledge.proposal.decide"].
Definition CATALOG_COMMAND_RECEIPTS : list string :=
  ["catalog.skill-candidate-submit"; "catalog.skill-candidate-decide"; "catalog.skill-candidate-withdraw"].

Definition named (names : list string) (command : jsstr) : bool := existsb (λ n, bool_decide (js n = command)) names.

Inductive ReceiptScope := ScopeCore | ScopeWorkspace | ScopeUser.

Definition isControlNativeReceiptCommand (command : jsstr) (scope : ReceiptScope) : bool :=
  match scope with
  | ScopeUser => named SCOPED_NOTEBOOK_USER_RECEIPTS command
  | ScopeCore => named CONTROL_NATIVE_RECEIPT_COMMANDS command ||
      (named CONTROL_NATIVE_CORE_LIFECYCLE_COMMANDS command || named SCOPED_NOTEBOOK_SERVER_RECEIPTS command)
  | ScopeWorkspace => named CONTROL_NATIVE_RECEIPT_COMMANDS command ||
      (named CONTROL_NATIVE_WORKSPACE_KNOWLEDGE_COMMANDS command || named CATALOG_COMMAND_RECEIPTS command)
  end.

(** ** Responses *)

Inductive Downstream := DownstreamTask (turnId : jsstr) | DownstreamGoal (goalId turnId : jsstr).
#[export] Instance Downstream_eq_dec : EqDecision Downstream.
Proof. solve_decision. Defined.

Record ConversationCommandReceiptMetadata := {
  targetRef : jsstr;
  logicalModelId : option jsstr;
  receivingWorkspaceId : jsstr;
  receivingThreadId : jsstr;
  downstream : option Downstream;
  resultKind : jsstr;
  status200 : bool;
}.
#[export] Instance ConversationMetadata_eq_dec : EqDecision ConversationCommandReceiptMetadata.
Proof. solve_decision. Defined.

Definition RESULT_KINDS : list string :=
  ["knowledge-answer"; "provider-answer"; "clarification"; "task-handoff"; "goal-handoff"; "worker-turn";
   "goal-intent"; "goal-steering"; "refused"].

Definition parse_downstream (strict : bool) (v : jsval) : option (option Downstream) :=
  match v with
  | JNull => Some None
  | JObj ms =>
    kind ← string_member "kind" ms;
    turn ← string_member "turnId" ms;
    if negb (is_id "tu" turn) then None
    else if bool_decide (kind = js "task") then
      if negb strict || only_keys ["kind"; "turnId"] ms then Some (Some (DownstreamTask turn)) else None
    else if bool_decide (kind = js "goal") then
      goal ← nonempty_member "goalId" ms;
      if negb strict || only_keys ["kind"; "goalId"; "turnId"] ms then Some (Some (DownstreamGoal goal turn)) else None
    else None
  | _ => None
  end.

Definition parse_status (v : jsval) : option bool :=
  match v with
  | JNum f => if bool_decide (number_integer f = Some 200) then Some true
              else if bool_decide (number_integer f = Some 202) then Some false else None
  | _ => None
  end.

Definition metadata_keys : list string :=
  ["targetRef"; "logicalModelId"; "receivingWorkspaceId"; "receivingThreadId"; "downstream"; "resultKind"; "status"].

Definition is_result_kind (s : jsstr) : bool := named RESULT_KINDS s.

(** [StoredConversationMetadataV1Schema] (strict) and its reader, which strips additions. *)
Definition parse_metadata (strict : bool) (v : jsval) : option ConversationCommandReceiptMetadata :=
  ms ← members_of v;
  if strict && negb (only_keys metadata_keys ms) then None
  else
    target ← nonempty_member "targetRef" ms;
    model ← nullable_member nonempty "logicalModelId" ms;
    ws ← string_member "receivingWorkspaceId" ms;
    th ← string_member "receivingThreadId" ms;
    down ← parse_downstream strict (member "downstream" ms);
    kind ← string_member "resultKind" ms;
    st ← parse_status (member "status" ms);
    if is_id "ws" ws && is_id "th" th && is_result_kind kind then
      Some {| targetRef := target; logicalModelId := model; receivingWorkspaceId := ws; receivingThreadId := th;
              downstream := down; resultKind := kind; status200 := st |}
    else None.

Definition downstream_json (d : option Downstream) : jsval :=
  match d with
  | None => JNull
  | Some (DownstreamTask t) => JObj [(js "kind", JStr (js "task")); (js "turnId", JStr t)]
  | Some (DownstreamGoal g t) => JObj [(js "kind", JStr (js "goal")); (js "goalId", JStr g); (js "turnId", JStr t)]
  end.

Definition metadata_json (m : ConversationCommandReceiptMetadata) : jsval :=
  JObj [(js "targetRef", JStr (targetRef m)); (js "logicalModelId", or_null (logicalModelId m));
        (js "receivingWorkspaceId", JStr (receivingWorkspaceId m)); (js "receivingThreadId", JStr (receivingThreadId m));
        (js "downstream", downstream_json (downstream m)); (js "resultKind", JStr (resultKind m));
        (js "status", JNum (number_of_int (if status200 m then 200 else 202)))].

(** A response as its producer gives it: [rs_others] are the names of further own properties. *)
Record CommandRequestResponse := {
  rs_kind : jsstr;
  rs_id : jsstr;
  rs_metadata : option jsval;
  rs_others : list jsstr;
}.

(** A normalized response. *)
Record NormalResponse := {
  nr_kind : jsstr;
  nr_id : jsstr;
  nr_metadata : option ConversationCommandReceiptMetadata;
}.
#[export] Instance NormalResponse_eq_dec : EqDecision NormalResponse.
Proof. solve_decision. Defined.

Definition COMMAND_RESPONSE_ID_SCHEMAS : list (string * option string) :=
  [("workspace", Some "ws"); ("workspace_invitation", Some "inv"); ("workspace_member", None);
   ("workspace_recovery", Some "ws"); ("workspace_deletion", None); ("user", Some "usr"); ("knowledge", None);
   ("knowledge_notebook_revision", None); ("knowledge_schema_report", None); ("knowledge_source", Some "ks");
   ("thread", Some "th"); ("turn", Some "tu"); ("approval", None); ("pending_request", None); ("git_push_record", None);
   ("artifact", Some "ar"); ("artifact_review", Some "arev"); ("evaluation_candidate_set", None);
   ("evaluation_judgement", None); ("workspace_sync_review", None); ("knowledge_proposal", None);
   ("knowledge_proposal_review", Some "kr"); ("light_app_definition", None); ("light_app_catalog", Some "ws");
   ("skill_version", None); ("skill_catalog", Some "ws"); ("skill_candidate", Some "cand"); ("goal", None);
   ("goal_plan", None); ("goal_review", None); ("pending_user_turn", None); ("steering_terminal_outcome", None);
   ("material", Some "mat"); ("material_revision", Some "mrev"); ("thread_material_binding", Some "mat");
   ("light_app", None); ("light_app_record", None); ("light_app_batch", None); ("generative_presentation", Some "pres");
   ("worker_environment", Some "wst"); ("catalog_mcp", None); ("vault_reference", Some "vault"); ("vault_grant", Some "grant")].

Definition id_schema (kind : jsstr) : option (option string) :=
  snd <$> find (λ e, bool_decide (js e.1 = kind)) COMMAND_RESPONSE_ID_SCHEMAS.

Definition normalizeCommandRequestResponse (command : jsstr) (r : CommandRequestResponse) : result CommandError NormalResponse :=
  if negb (bool_decide (rs_others r = [])) then fail "Command receipt response contains unsupported fields."
  else match id_schema (rs_kind r) with
       | None => fail "Command receipt response kind is unsupported."
       | Some schema =>
         if match schema with Some kind => is_id kind (rs_id r) | None => true end then
           match rs_metadata r with
           | None => Ok {| nr_kind := rs_kind r; nr_id := rs_id r; nr_metadata := None |}
           | Some m =>
             if bool_decide (command ≠ js "conversation.submit")
             then fail "Only conversation.submit may store extra command receipt metadata."
             else match parse_metadata true m with
                  | Some m => Ok {| nr_kind := rs_kind r; nr_id := rs_id r; nr_metadata := Some m |}
                  | None => fail "conversation.submit command receipt metadata is invalid."
                  end
           end
         else Err ReceiptSchemaRefusal
       end.

Definition readConversationMetadata (json : jsval) : result CommandError ConversationCommandReceiptMetadata :=
  match parse_metadata false json with
  | Some m => Ok m
  | None => fail "conversation.submit command receipt metadata is invalid."
  end.

(** ** Rows *)

Record CommandRequestRow := {
  cq_schemaVersion : option Z;
  cq_key : jsstr;
  cq_command : jsstr;
  cq_requestId : jsstr;
  cq_scopeJson : jsval;
  cq_inputHash : jsstr;
  cq_responseKind : jsstr;
  cq_responseId : jsstr;
  cq_responseJson : option jsval;
  cq_createdAt : Z;
  cq_expiresAt : Z;
}.

Record CommandRequestRecord := {
  rc_key : jsstr;
  rc_command : jsstr;
  rc_requestId : jsstr;
  rc_scope : CommandRequestScope;
  rc_inputHash : jsstr;
  rc_response : NormalResponse;
  rc_createdAt : Z;
  rc_expiresAt : Z;
}.

(** An open scoped database; [cd_writer] is whether the connection belongs to the database worker, in a
    transaction and not read-only. *)
Record CommandRequestDb := {
  cd_owner : CommandRequestOwner;
  cd_writer : bool;
  cd_rows : list CommandRequestRow;
}.
Definition with_rows (rows : list CommandRequestRow) (db : CommandRequestDb) : CommandRequestDb :=
  {| cd_owner := cd_owner db; cd_writer := cd_writer db; cd_rows := rows |}.

Definition is_app (o : CommandRequestOwner) : bool := match o with OwnerApp _ _ => true | _ => false end.
Definition receipt_scope (o : CommandRequestOwner) : option ReceiptScope :=
  match o with
  | OwnerCore => Some ScopeCore | OwnerUser _ => Some ScopeUser | OwnerWorkspace _ => Some ScopeWorkspace
  | OwnerApp _ _ => None
  end.

Definition scope_json (scope : CommandRequestScope) : jsval := JObj (prod_map id JStr <$> scope).
Definition parseStoredCommandScope (v : jsval) : result CommandError CommandRequestScope :=
  match v with
  | JObj ms =>
    match mapM (λ kv, match kv.2 with JStr s => Some (kv.1, s) | _ => None end) ms with
    | Some scope => Ok scope
    | None => Err ReceiptSchemaRefusal
    end
  | _ => Err ReceiptSchemaRefusal
  end.

Definition raw_response (r : NormalResponse) : CommandRequestResponse :=
  {| rs_kind := nr_kind r; rs_id := nr_id r; rs_metadata := metadata_json <$> nr_metadata r; rs_others := [] |}.

Definition decodeCommandRequestPayloadV1 (r : CommandRequestRow) : result CommandError CommandRequestRecord :=
  scope ← parseStoredCommandScope (cq_scopeJson r);
  metadata ← match cq_responseJson r with
             | None => Ok None
             | Some j => m ← readConversationMetadata j; Ok (Some m)
             end;
  response ← normalizeCommandRequestResponse (cq_command r)
    {| rs_kind := cq_responseKind r; rs_id := cq_responseId r; rs_metadata := metadata_json <$> metadata; rs_others := [] |};
  Ok {| rc_key := cq_key r; rc_command := cq_command r; rc_requestId := cq_requestId r; rc_scope := scope;
        rc_inputHash := cq_inputHash r; rc_response := response; rc_createdAt := cq_createdAt r; rc_expiresAt := cq_expiresAt r |}.

Definition retained_row (r : CommandRequestRow) : bool := bool_decide (cq_schemaVersion r = Some RETAINED_FORMAT_VERSION).

Definition mapCommandRequestRow (r : CommandRequestRow) : result CommandError CommandRequestRecord :=
  if retained_row r then decodeCommandRequestPayloadV1 r else Err ReceiptFormatRefusal.

(** The owning database selects the versioned row or the native App row. *)
Definition decode_row (o : CommandRequestOwner) (r : CommandRequestRow) : result CommandError CommandRequestRecord :=
  if is_app o then decodeCommandRequestPayloadV1 r else mapCommandRequestRow r.

Definition assertCommandRequestDbOwner (db : CommandRequestDb) (scope : CommandRequestScope) : result CommandError () :=
  owner ← commandRequestOwner scope;
  if bool_decide (owner = cd_owner db) then Ok () else fail "Command request scope does not match its owning database.".

Definition row_of (db : CommandRequestDb) (key : jsstr) : option CommandRequestRow :=
  find (λ r, bool_decide (cq_key r = key)) (cd_rows db).

Definition getCommandRequestRecordFromDb (db : CommandRequestDb) (key : jsstr) (referenceTime : Z)
    : result CommandError (option CommandRequestRecord) :=
  match row_of db key with
  | None => Ok None
  | Some r =>
    record ← decode_row (cd_owner db) r;
    _ ← assertCommandRequestDbOwner db (rc_scope record);
    if rc_expiresAt record <=? referenceTime then
      if is_app (cd_owner db) then Err ReceiptRecoveryRequired else Ok None
    else Ok (Some record)
  end.

(** [commandRequestValues], with the response column chosen by the writer. *)
Definition commandRequestValues (o : CommandRequestOwner) (r : CommandRequestRecord) (responseJson : option jsval) : CommandRequestRow :=
  {| cq_schemaVersion := if is_app o then None else Some writeRetainedV1; cq_key := rc_key r; cq_command := rc_command r;
     cq_requestId := rc_requestId r; cq_scopeJson := scope_json (rc_scope r); cq_inputHash := rc_inputHash r;
     cq_responseKind := nr_kind (rc_response r); cq_responseId := nr_id (rc_response r); cq_responseJson := responseJson;
     cq_createdAt := rc_createdAt r; cq_expiresAt := rc_expiresAt r |}.

(** The row an earlier write of the same receipt left: its descriptive additions are kept. *)
Definition same_receipt (previous : CommandRequestRow) (r : CommandRequestRecord) (response : NormalResponse) : bool :=
  bool_decide (cq_command previous = rc_command r) && bool_decide (cq_inputHash previous = rc_inputHash r) &&
  match parseStoredCommandScope (cq_scopeJson previous) with Ok s => bool_decide (s = rc_scope r) | Err _ => false end &&
  bool_decide (cq_responseKind previous = nr_kind response) && bool_decide (cq_responseId previous = nr_id response).

Definition writeCommandRequestRecordInDb (db : CommandRequestDb) (r : CommandRequestRecord) : result CommandError CommandRequestDb :=
  response ← normalizeCommandRequestResponse (rc_command r) (raw_response (rc_response r));
  let current := metadata_json <$> nr_metadata response in
  let previous := row_of db (rc_key r) in
  if match previous with Some p => negb (is_app (cd_owner db)) && negb (retained_row p) | None => false end
  then Err ReceiptFormatRefusal
  else
    responseJson ←
      match previous with
      | Some p =>
        match cq_responseJson p with
        | Some j =>
          if same_receipt p r response then
            retained ← decode_row (cd_owner db) p;
            Ok (if bool_decide (rc_response retained = response) then Some j else current)
          else Ok current
        | None => Ok current
        end
      | None => Ok current
      end;
    Ok (with_rows (filterb (λ q, negb (bool_decide (cq_key q = rc_key r))) (cd_rows db) ++
                   [commandRequestValues (cd_owner db) r responseJson]) db).

(** ** Pruning *)

Section Judged.
(** [judged workspace request]: some review, revision or candidate set is annotated with the request. *)
Context (judged : jsval → jsstr → bool).

Definition json_member (k : string) (v : jsval) : jsval := match v with JObj ms => member k ms | _ => JUndef end.

(** [CONTROL_NATIVE_EVALUATION_RECEIPT_SQL] *)
Definition native_evaluation_row (r : CommandRequestRow) : bool :=
  bool_decide (cq_command r = js "evaluation.judgement-add") && bool_decide (cq_responseKind r = js "evaluation_judgement") &&
  bool_decide (cq_responseId r = cq_requestId r) && judged (json_member "workspaceId" (cq_scopeJson r)) (cq_requestId r).

Definition native_commands (s : ReceiptScope) (catalogMaintenance : bool) : list string :=
  match s with
  | ScopeWorkspace => CONTROL_NATIVE_RECEIPT_COMMANDS ++ CONTROL_NATIVE_WORKSPACE_KNOWLEDGE_COMMANDS ++
                      (if catalogMaintenance then [] else CATALOG_COMMAND_RECEIPTS)
  | ScopeUser => SCOPED_NOTEBOOK_USER_RECEIPTS
  | ScopeCore => CONTROL_NATIVE_RECEIPT_COMMANDS ++ CONTROL_NATIVE_CORE_LIFECYCLE_COMMANDS ++ SCOPED_NOTEBOOK_SERVER_RECEIPTS
  end.

(** The WHERE clause of the maintenance DELETE. *)
Definition prunable (s : ReceiptScope) (catalogMaintenance : bool) (referenceTime : Z) (r : CommandRequestRow) : bool :=
  (cq_expiresAt r <=? referenceTime) && negb (named (native_commands s catalogMaintenance) (cq_command r)) &&
  match s with ScopeWorkspace => negb (native_evaluation_row r) | _ => true end.

Definition pruneCommandRequestRecords (db : CommandRequestDb) (referenceTime : Z) (catalogMaintenance : bool) : CommandRequestDb :=
  match receipt_scope (cd_owner db) with
  | None => db
  | Some s => with_rows (filterb (negb ∘ prunable s catalogMaintenance referenceTime) (cd_rows db)) db
  end.

Definition is_null (v : jsval) : bool := match v with JUndef | JNull => true | _ => false end.
Definition is_text (v : jsval) (s : jsstr) : bool := match v with JStr t => bool_decide (t = s) | _ => false end.

(** The WHERE clause of the native DELETE. *)
Definition native_prunable (o : CommandRequestOwner) (referenceTime : Z) (r : CommandRequestRow) : bool :=
  let get k := json_member k (cq_scopeJson r) in
  retained_row r && (cq_expiresAt r <=? referenceTime) &&
  match o with
  | OwnerUser u => named SCOPED_NOTEBOOK_USER_RECEIPTS (cq_command r) && is_text (get "userId") u &&
      is_null (get "coreId") && is_null (get "workspaceId") && is_null (get "appId")
  | OwnerCore => named (native_commands ScopeCore false) (cq_command r) && is_text (get "coreId") (js "server") &&
      is_null (get "workspaceId") && is_null (get "userId") && is_null (get "appId")
  | OwnerWorkspace w => (named (native_commands ScopeWorkspace false) (cq_command r) || native_evaluation_row r) &&
      is_text (get "workspaceId") w && is_null (get "coreId") && is_null (get "userId") && is_null (get "appId")
  | OwnerApp _ _ => false
  end.

(** [assertControlProductWriter] *)
Definition not_writer {A} : result CommandError A := Err ControlProductPrecondition.

Definition pruneControlAdmissionReceipts (db : CommandRequestDb) (referenceTime : Z) : result CommandError CommandRequestDb :=
  if cd_writer db then Ok (with_rows (filterb (negb ∘ native_prunable (cd_owner db) referenceTime) (cd_rows db)) db)
  else not_writer.

(** ** Recording *)

Definition nativeEvaluationReceipt (db : CommandRequestDb) (r : CommandRequestRecord) : bool :=
  match cd_owner db with
  | OwnerWorkspace w =>
    bool_decide (rc_command r = js "evaluation.judgement-add") &&
    (existsb (λ q, bool_decide (cq_key q = rc_key r) && native_evaluation_row q) (cd_rows db) || judged (JStr w) (rc_requestId r))
  | _ => false
  end.

Definition native_receipt (db : CommandRequestDb) (r : CommandRequestRecord) : bool :=
  match receipt_scope (cd_owner db) with
  | Some s => isControlNativeReceiptCommand (rc_command r) s || nativeEvaluationReceipt db r
  | None => false
  end.

Definition recordCommandRequestRecordInDb (db : CommandRequestDb) (r : CommandRequestRecord) (now : Z)
    : result CommandError CommandRequestDb :=
  _ ← assertCommandRequestDbOwner db (rc_scope r);
  if is_app (cd_owner db) && negb (cd_writer db) then not_writer
  else if native_receipt db r then fail "Native admission receipts belong to the database worker."
  else db ← writeCommandRequestRecordInDb db r; Ok (pruneCommandRequestRecords db now false).

Definition recordControlCommandRequestRecordInDb (db : CommandRequestDb) (r : CommandRequestRecord)
    : result CommandError CommandRequestDb :=
  if negb (cd_writer db) then not_writer
  else
    _ ← assertCommandRequestDbOwner db (rc_scope r);
    if negb (native_receipt db r) then fail "The command has no native receipt owner."
    else db ← writeCommandRequestRecordInDb db r; pruneControlAdmissionReceipts db (rc_createdAt r).
End Judged.

(** ** Receipts survive storage *)

Lemma downstream_parses strict d v : parse_downstream strict (downstream_json d) = Some v → v = d.
Proof.
  destruct d as [[t|g t]|]; cbn [downstream_json parse_downstream].
  - change (string_member "kind" _) with (Some (js "task")). change (string_member "turnId" _) with (Some t).
    cbn [mbind option_bind]. destruct (negb (is_id "tu" t)); [done|]. rewrite bool_decide_eq_true_2 by done.
    destruct (_ || _); [|done]. by intros [= <-].
  - change (string_member "kind" _) with (Some (js "goal")). change (string_member "turnId" _) with (Some t).
    cbn [mbind option_bind]. destruct (negb (is_id "tu" t)); [done|].
    rewrite bool_decide_eq_false_2, bool_decide_eq_true_2 by done. unfold nonempty_member.
    change (string_member "goalId" _) with (Some g). cbn [mbind option_bind]. destruct (nonempty g); [|done]. cbn [mbind option_bind].
    destruct (_ || _); [|done]. by intros [= <-].
  - by intros [= <-].
Qed.

Lemma status_parses (b v : bool) : parse_status (JNum (number_of_int (if b then 200 else 202))) = Some v → v = b.
Proof. destruct b; vm_compute; by intros [= <-]. Qed.

(** What is written is what is read. *)
Lemma metadata_parses strict m v : parse_metadata strict (metadata_json m) = Some v → v = m.
Proof.
  unfold parse_metadata, metadata_json. cbn [members_of mbind option_bind]. destruct (strict && _); [done|].
  set (ms := [_; _; _; _; _; _; _]).
  intros (t & Ht & (mo & Hmo & (ws & Hws & (th & Hth & (d & Hd & (k & Hk & (st & Hst & H)%bind_Some)%bind_Some)%bind_Some)%bind_Some)%bind_Some)%bind_Some)%bind_Some.
  destruct (_ && _ && _); [|done]. injection H as <-.
  unfold nonempty_member in Ht. change (string_member "targetRef" ms) with (Some (targetRef m)) in Ht.
  cbn [mbind option_bind] in Ht. destruct (nonempty (targetRef m)); [|done]. injection Ht as <-.
  unfold nullable_member in Hmo. change (member "logicalModelId" ms) with (or_null (logicalModelId m)) in Hmo.
  change (string_member "receivingWorkspaceId" ms) with (Some (receivingWorkspaceId m)) in Hws. injection Hws as <-.
  change (string_member "receivingThreadId" ms) with (Some (receivingThreadId m)) in Hth. injection Hth as <-.
  change (member "downstream" ms) with (downstream_json (downstream m)) in Hd. apply downstream_parses in Hd as ->.
  change (string_member "resultKind" ms) with (Some (resultKind m)) in Hk. injection Hk as <-.
  change (member "status" ms) with (JNum (number_of_int (if status200 m then 200 else 202))) in Hst. apply status_parses in Hst as ->.
  assert (mo = logicalModelId m) as ->.
  { destruct (logicalModelId m) as [s|]; cbn in Hmo; [destruct (nonempty s); [|done]|]; by injection Hmo as <-. }
  by destruct m.
Qed.

Lemma downstream_strict v d : parse_downstream true v = Some d → parse_downstream false v = Some d.
Proof.
  destruct v as [| | | | | | |ms]; try done. cbn [parse_downstream].
  intros (k & -> & (t & -> & H)%bind_Some)%bind_Some. cbn [mbind option_bind]. destruct (negb (is_id "tu" t)); [done|].
  destruct (bool_decide (k = js "task")); [by destruct (negb true || _)|]. destruct (bool_decide (k = js "goal")); [|done].
  apply bind_Some in H as (g & -> & H). cbn [mbind option_bind]. by destruct (negb true || _).
Qed.

(** The reader accepts what the writer's schema accepts. *)
Lemma metadata_strict v m : parse_metadata true v = Some m → parse_metadata false v = Some m.
Proof.
  unfold parse_metadata. intros (ms & -> & H)%bind_Some. cbn [mbind option_bind andb]. destruct (true && _); [done|].
  apply bind_Some in H as (? & -> & (? & -> & (? & -> & (? & -> & (d & ->%downstream_strict & H)%bind_Some)%bind_Some)%bind_Some)%bind_Some).
  exact H.
Qed.

Lemma normalize_kind c r n :
  normalizeCommandRequestResponse c r = Ok n →
  nr_kind n = rs_kind r ∧ nr_id n = rs_id r ∧
  match rs_metadata r with
  | Some m => c = js "conversation.submit" ∧ ∃ v, parse_metadata true m = Some v ∧ nr_metadata n = Some v
  | None => nr_metadata n = None
  end.
Proof.
  unfold normalizeCommandRequestResponse. destruct (negb _); [done|]. destruct (id_schema _) as [schema|]; [|done].
  destruct (match schema with Some _ => _ | None => _ end); [|done]. destruct (rs_metadata r) as [m|]; [|by intros [= <-]].
  case_bool_decide as C; [done|]. destruct (parse_metadata true m) as [v|]; [|done].
  intros [= <-]. split_and!; eauto.
Qed.

Lemma normalize_raw c n n' : normalizeCommandRequestResponse c (raw_response n) = Ok n' → n' = n.
Proof.
  intros (Hk & Hi & Hm)%normalize_kind. destruct n as [k i m], n' as [k' i' m'].
  cbn [nr_kind nr_id nr_metadata rs_kind rs_id rs_metadata raw_response] in *. subst. f_equal.
  destruct m as [m|]; cbn [fmap option_fmap option_map] in Hm; [|done]. destruct Hm as (_ & v & Hv%metadata_parses & ->). by subst v.
Qed.

Lemma scope_parses s : parseStoredCommandScope (scope_json s) = Ok s.
Proof.
  unfold parseStoredCommandScope, scope_json.
  assert (mapM (λ kv : jsstr * jsval, match kv.2 with JStr s => Some (kv.1, s) | _ => None end) (prod_map id JStr <$> s) = Some s) as ->; [|done].
  apply mapM_Some. induction s as [|[k v] s IH]; [constructor|]. rewrite fmap_cons. by constructor.
Qed.

(** ** The ledger as its clients see it *)

(** A ledger of receipts: [ledger_holds l k r] says that the row of key [k] decodes to the receipt [r] of the
    ledger's own scope.  A receipt that has not expired is found, and stays where it is while other
    receipts are written. *)
Class ReceiptLedger (L : Type) := {
  ledger_get : L → jsstr → Z → result CommandError (L * option CommandRequestRecord);
  ledger_record : L → CommandRequestRecord → Z → result CommandError L;
  ledger_commit : L → CommandRequestRecord → result CommandError L;
  ledger_holds : L → jsstr → CommandRequestRecord → Prop;
  get_finds l k r t : ledger_holds l k r → t < rc_expiresAt r → ∃ l', ledger_get l k t = Ok (l', Some r);
  get_sound l k r t l' : ledger_get l k t = Ok (l', Some r) → ledger_holds l k r ∧ t < rc_expiresAt r;
  get_keeps l k t l' o k0 r0 : ledger_get l k t = Ok (l', o) → ledger_holds l k0 r0 → t < rc_expiresAt r0 → ledger_holds l' k0 r0;
  record_holds l r t l' : ledger_record l r t = Ok l' → t < rc_expiresAt r → ledger_holds l' (rc_key r) r;
  record_keeps l r t l' k0 r0 : ledger_record l r t = Ok l' → ledger_holds l k0 r0 → rc_key r ≠ k0 → t < rc_expiresAt r0 →
    ledger_holds l' k0 r0;
  commit_holds l r l' : ledger_commit l r = Ok l' → rc_createdAt r < rc_expiresAt r → ledger_holds l' (rc_key r) r;
  commit_keeps l r l' k0 r0 : ledger_commit l r = Ok l' → ledger_holds l k0 r0 → rc_key r ≠ k0 → rc_createdAt r < rc_expiresAt r0 →
    ledger_holds l' k0 r0;
}.

(** ** An open database is a ledger *)

Section OpenDb.
Context (judged : jsval → jsstr → bool).

Record holds (db : CommandRequestDb) (k : jsstr) (r : CommandRequestRecord) : Prop := {
  hold_row : ∃ q, row_of db k = Some q ∧ decode_row (cd_owner db) q = Ok r;
  hold_owner : assertCommandRequestDbOwner db (rc_scope r) = Ok ();
}.

Lemma decode_payload q r : decodeCommandRequestPayloadV1 q = Ok r → rc_key r = cq_key q ∧ rc_expiresAt r = cq_expiresAt q.
Proof. unfold decodeCommandRequestPayloadV1. intros (s & _ & (m & _ & (n & _ & [= <-])%bind_Ok)%bind_Ok)%bind_Ok. done. Qed.

Lemma decode_fields o q r : decode_row o q = Ok r → rc_key r = cq_key q ∧ rc_expiresAt r = cq_expiresAt q.
Proof. unfold decode_row, mapCommandRequestRow. destruct (is_app o); [apply decode_payload|]. destruct (retained_row q); [apply decode_payload|done]. Qed.

Definition get_from_db (db : CommandRequestDb) (k : jsstr) (t : Z) : result CommandError (CommandRequestDb * option CommandRequestRecord) :=
  o ← getCommandRequestRecordFromDb db k t; Ok (db, o).

Lemma get_holds db k r t : holds db k r → t < rc_expiresAt r → getCommandRequestRecordFromDb db k t = Ok (Some r).
Proof.
  intros [(q & Hq & Hd) Ho] Ht. unfold getCommandRequestRecordFromDb. rewrite Hq, Hd. cbn [mbind result_bind].
  rewrite Ho. cbn [mbind result_bind]. by rewrite (proj2 (Z.leb_gt _ _) Ht).
Qed.

Lemma holds_get db k r t : getCommandRequestRecordFromDb db k t = Ok (Some r) → holds db k r ∧ t < rc_expiresAt r.
Proof.
  unfold getCommandRequestRecordFromDb. destruct (row_of db k) as [q|] eqn:Q; [|done].
  intros (r' & Hd & ([] & Ho & H)%bind_Ok)%bind_Ok. destruct (_ <=? t) eqn:T; [by destruct (is_app _)|].
  injection H as ->. split; [|by apply Z.leb_gt]. split; [eauto|done].
Qed.

(** Deleting rows that do not include the one of the key leaves it. *)
Lemma find_filterb {A} (p keep : A → bool) l x : find p l = Some x → keep x = true → find p (filterb keep l) = Some x.
Proof.
  induction l as [|y l IH]; [done|]. cbn. destruct (p y) eqn:P.
  - intros [= ->] ->. cbn. by rewrite P.
  - intros F K. destruct (keep y); cbn; rewrite ?P; auto.
Qed.

Lemma holds_filter db k r keep :
  holds db k r → (∀ q, cq_key q = k → cq_expiresAt q = rc_expiresAt r → keep q = true) → holds (with_rows (filterb keep (cd_rows db)) db) k r.
Proof.
  intros [(q & Hq & Hd) Ho] Hk. split; [|done]. exists q. split; [|done]. apply find_filterb; [done|].
  pose proof (decode_fields _ _ _ Hd) as [_ E]. apply find_Some in Hq as [_ Eq]. apply bool_decide_eq_true_1 in Eq. by apply Hk.
Qed.

Lemma prune_holds db k r t c : holds db k r → t < rc_expiresAt r → holds (pruneCommandRequestRecords judged db t c) k r.
Proof.
  intros H Ht. unfold pruneCommandRequestRecords. destruct (receipt_scope _) as [s|]; [|done].
  apply holds_filter; [done|]. intros q _ E. unfold prunable. cbn. rewrite E, (proj2 (Z.leb_gt _ _) Ht). done.
Qed.

Lemma native_prune_holds db k r t db' :
  pruneControlAdmissionReceipts judged db t = Ok db' → holds db k r → t < rc_expiresAt r → holds db' k r.
Proof.
  unfold pruneControlAdmissionReceipts. destruct (cd_writer db); [|done]. intros [= <-] H Ht.
  apply holds_filter; [done|]. intros q _ E. unfold native_prunable. cbn. rewrite E, (proj2 (Z.leb_gt _ _) Ht), andb_false_r. done.
Qed.

Lemma app_find {A} (p : A → bool) l x : find p (l ++ [x]) = match find p l with Some y => Some y | None => if p x then Some x else None end.
Proof. induction l as [|y l IH]; [done|]. cbn. by destruct (p y). Qed.

Lemma filterb_find_None {A} (p keep : A → bool) l : (∀ x, p x = true → keep x = false) → find p (filterb keep l) = None.
Proof. intros H. induction l as [|y l IH]; [done|]. cbn. destruct (keep y) eqn:K; [|done]. cbn. destruct (p y) eqn:P; [|done]. by rewrite H in K. Qed.

(** The response column reads back as the metadata of the response. *)
Definition reads_as (j : option jsval) (n : NormalResponse) : Prop :=
  match j with None => nr_metadata n = None | Some v => ∃ m, parse_metadata false v = Some m ∧ nr_metadata n = Some m end.

Lemma current_reads c n : normalizeCommandRequestResponse c (raw_response n) = Ok n → reads_as (metadata_json <$> nr_metadata n) n.
Proof.
  intros (_ & _ & H)%normalize_kind. cbn [rs_metadata raw_response] in H.
  destruct (nr_metadata n) as [m|] eqn:M; cbn [fmap option_fmap option_map] in H |- *; [|done].
  unfold reads_as. rewrite M. destruct H as (_ & v & Hv & E). exists v. split; [by apply metadata_strict|done].
Qed.

Lemma retained_reads o q r v : decode_row o q = Ok r → cq_responseJson q = Some v → reads_as (Some v) (rc_response r).
Proof.
  assert (decodeCommandRequestPayloadV1 q = Ok r → cq_responseJson q = Some v → reads_as (Some v) (rc_response r)) as H.
  { unfold decodeCommandRequestPayloadV1. intros H E. rewrite E in H. apply bind_Ok in H as (s & _ & (mo & Hm & (n & Hn & [= <-])%bind_Ok)%bind_Ok).
    apply bind_Ok in Hm as (m & Hm & [= <-]). unfold readConversationMetadata in Hm. destruct (parse_metadata false v) as [m'|] eqn:P; [|done].
    injection Hm as ->. apply normalize_kind in Hn as (_ & _ & Hn). cbn [rs_metadata fmap option_fmap option_map] in Hn.
    destruct Hn as (_ & w & Hw%metadata_parses & E2).
    subst w. exists m. done. }
  unfold decode_row, mapCommandRequestRow. destruct (is_app o); [done|]. by destruct (retained_row q).
Qed.

Lemma written_decodes o r j n :
  normalizeCommandRequestResponse (rc_command r) (raw_response (rc_response r)) = Ok n → n = rc_response r → reads_as j n →
  decode_row o (commandRequestValues o r j) = Ok r.
Proof.
  intros Hn -> Hj. assert (decodeCommandRequestPayloadV1 (commandRequestValues o r j) = Ok r) as H.
  { unfold decodeCommandRequestPayloadV1, commandRequestValues. cbn [cq_scopeJson cq_responseJson cq_command cq_responseKind cq_responseId cq_key cq_requestId cq_inputHash cq_createdAt cq_expiresAt].
    rewrite scope_parses. cbn [mbind result_bind].
    assert (match j with None => Ok None | Some v => m ← readConversationMetadata v; Ok (Some m) end = Ok (nr_metadata (rc_response r))) as ->.
    { destruct j as [v|]; cbn in Hj; [|by rewrite Hj]. destruct Hj as (m & Hp & ->). unfold readConversationMetadata. by rewrite Hp. }
    cbn [mbind result_bind]. fold (raw_response (rc_response r)). rewrite Hn. cbn [mbind result_bind]. by destruct r. }
  unfold decode_row, mapCommandRequestRow, retained_row. destruct (is_app o) eqn:A; [done|].
  rewrite bool_decide_eq_true_2; [done|]. unfold commandRequestValues. cbn. by rewrite A.
Qed.

(** The row a write leaves decodes to the receipt written. *)
Lemma write_holds db r db' :
  writeCommandRequestRecordInDb db r = Ok db' → assertCommandRequestDbOwner db (rc_scope r) = Ok () → holds db' (rc_key r) r.
Proof.
  unfold writeCommandRequestRecordInDb. intros (n & Hn & H)%bind_Ok Ho. pose proof (normalize_raw _ _ _ Hn) as ->. cbv zeta in H.
  destruct (match row_of db (rc_key r) with Some _ => _ | None => _ end); [done|].
  apply bind_Ok in H as (j & Hj & [= <-]). split; [|done].
  exists (commandRequestValues (cd_owner db) r j). split.
  - unfold row_of. cbn [cd_rows with_rows]. rewrite app_find, filterb_find_None.
    + by rewrite bool_decide_eq_true_2.
    + intros q E. bool_to_prop. rewrite bool_decide_eq_true_2; done.
  - apply written_decodes with (rc_response r); [done|done|]. destruct (row_of db (rc_key r)) as [p|]; [|injection Hj as <-; by apply current_reads with (rc_command r)].
    destruct (cq_responseJson p) as [v|] eqn:V; [|injection Hj as <-; by apply current_reads with (rc_command r)].
    destruct (same_receipt p r (rc_response r)); [|injection Hj as <-; by apply current_reads with (rc_command r)].
    apply bind_Ok in Hj as (q & Hq & [= <-]). case_bool_decide as E; [|by apply current_reads with (rc_command r)].
    rewrite <-E. by apply (retained_reads (cd_owner db) p).
Qed.

Lemma write_keeps db r db' k r0 :
  writeCommandRequestRecordInDb db r = Ok db' → holds db k r0 → rc_key r ≠ k → holds db' k r0.
Proof.
  unfold writeCommandRequestRecordInDb. intros (n & _ & H)%bind_Ok Hh Hk. cbv zeta in H.
  destruct (match row_of db (rc_key r) with Some _ => _ | None => _ end); [done|]. apply bind_Ok in H as (j & _ & [= <-]).
  destruct (holds_filter _ _ _ (λ q, negb (bool_decide (cq_key q = rc_key r))) Hh) as [(q & Hq & Hd) Ho].
  { intros q E _. rewrite bool_decide_eq_false_2; [done|congruence]. }
  split; [|done]. exists q. split; [|done]. unfold row_of in Hq |- *. cbn [cd_rows with_rows] in Hq |- *. by rewrite app_find, Hq.
Qed.

Lemma write_owner db r db' : writeCommandRequestRecordInDb db r = Ok db' → cd_owner db' = cd_owner db ∧ cd_writer db' = cd_writer db.
Proof.
  unfold writeCommandRequestRecordInDb. intros (n & _ & H)%bind_Ok. cbv zeta in H.
  destruct (match row_of db (rc_key r) with Some _ => _ | None => _ end); [done|]. by apply bind_Ok in H as (j & _ & [= <-]).
Qed.

Lemma record_spec db r t db' :
  recordCommandRequestRecordInDb judged db r t = Ok db' →
  ∃ db1, writeCommandRequestRecordInDb db r = Ok db1 ∧ assertCommandRequestDbOwner db (rc_scope r) = Ok () ∧
    db' = pruneCommandRequestRecords judged db1 t false.
Proof.
  unfold recordCommandRequestRecordInDb. intros ([] & Ho & H)%bind_Ok. destruct (_ && _); [done|]. destruct (native_receipt _ _ _); [done|].
  apply bind_Ok in H as (db1 & Hw & [= <-]). eauto.
Qed.

Lemma control_spec db r db' :
  recordControlCommandRequestRecordInDb judged db r = Ok db' →
  ∃ db1, writeCommandRequestRecordInDb db r = Ok db1 ∧ assertCommandRequestDbOwner db (rc_scope r) = Ok () ∧
    pruneControlAdmissionReceipts judged db1 (rc_createdAt r) = Ok db'.
Proof.
  unfold recordControlCommandRequestRecordInDb. destruct (negb (cd_writer db)); [done|]. intros ([] & Ho & H)%bind_Ok.
  destruct (negb _); [done|]. apply bind_Ok in H as (db1 & Hw & H). eauto.
Qed.

#[refine] Instance db_ledger : ReceiptLedger CommandRequestDb := {
  ledger_get := get_from_db;
  ledger_record := recordCommandRequestRecordInDb judged;
  ledger_commit := recordControlCommandRequestRecordInDb judged;
  ledger_holds := holds;
}.
Proof.
  - intros db k r t H Ht. exists db. unfold get_from_db. by rewrite (get_holds _ _ _ _ H Ht).
  - intros db k r t db' (o & H & [= <- ->])%bind_Ok. by apply holds_get.
  - intros db k t db' o k0 r0 (o' & H & [= <- _])%bind_Ok Hh _. done.
  - intros db r t db' (db1 & Hw & Ho & ->)%record_spec Ht. apply prune_holds; [|done]. by eapply write_holds.
  - intros db r t db' k0 r0 (db1 & Hw & Ho & ->)%record_spec Hh Hk Ht. apply prune_holds; [|done]. by eapply write_keeps.
  - intros db r db' (db1 & Hw & Ho & Hp)%control_spec Ht. eapply native_prune_holds; [done| |done]. by eapply write_holds.
  - intros db r db' k0 r0 (db1 & Hw & Ho & Hp)%control_spec Hh Hk Ht. eapply native_prune_holds; [done| |done]. by eapply write_keeps.
Defined.

(** ** Maintenance partitions *)

Lemma named_app l k c : named (l ++ k) c = named l c || named k c.
Proof. apply existsb_app. Qed.

Lemma native_named s c : isControlNativeReceiptCommand c s = named (native_commands s false) c.
Proof. destruct s; unfold isControlNativeReceiptCommand, native_commands; by rewrite ?named_app. Qed.

(** No row is deleted by both maintenance paths, and the ordinary path never deletes a receipt of a native command. *)
Lemma prunes_disjoint o s t t' r :
  receipt_scope o = Some s → prunable judged s false t r = true →
  isControlNativeReceiptCommand (cq_command r) s = false ∧ native_prunable judged o t' r = false.
Proof.
  intros Hs H. unfold prunable in H. rewrite !andb_true_iff, negb_true_iff in H. destruct H as [[_ N] E].
  split; [by rewrite native_named|]. unfold native_prunable. destruct (retained_row r && _); [|done]. cbn [andb].
  destruct o as [|u|w|w a]; try done; injection Hs as <-.
  - by rewrite N.
  - cbn [native_commands] in N. by rewrite N.
  - rewrite N. apply negb_true_iff in E. by rewrite E.
Qed.
End OpenDb.

(** ** The in-memory ledger (nanocore/src/lib/store.ts) *)

Definition MemoryLedger : Type := gmap jsstr CommandRequestRecord.

Definition pruneExpiredCommandRequests (m : MemoryLedger) (now : Z) : MemoryLedger :=
  filter (λ kv, now < rc_expiresAt kv.2) m.
Definition memory_get (m : MemoryLedger) (k : jsstr) (now : Z) : result CommandError (MemoryLedger * option CommandRequestRecord) :=
  let m := pruneExpiredCommandRequests m now in Ok (m, m !! k).
Definition memory_record (m : MemoryLedger) (r : CommandRequestRecord) : result CommandError MemoryLedger :=
  response ← normalizeCommandRequestResponse (rc_command r) (raw_response (rc_response r)); Ok (<[rc_key r := r]> m).

#[refine] Instance memory_ledger : ReceiptLedger MemoryLedger := {
  ledger_get := memory_get;
  ledger_record m r _ := memory_record m r;
  ledger_commit := memory_record;
  ledger_holds m k r := m !! k = Some r;
}.
Proof.
  - intros m k r t H Ht. eexists. unfold memory_get. f_equal. f_equal. by apply map_lookup_filter_Some.
  - intros m k r t m' [= _ H]. by apply map_lookup_filter_Some in H.
  - intros m k t m' o k0 r0 [= <- _] H Ht. by apply map_lookup_filter_Some.
  - intros m r t m' (n & _ & [= <-])%bind_Ok _. apply lookup_insert_eq.
  - intros m r t m' k0 r0 (n & _ & [= <-])%bind_Ok H Hk _. etrans; [by apply lookup_insert_ne|done].
  - intros m r m' (n & _ & [= <-])%bind_Ok _. apply lookup_insert_eq.
  - intros m r m' k0 r0 (n & _ & [= <-])%bind_Ok H Hk _. etrans; [by apply lookup_insert_ne|done].
Defined.
