(* ===== verification/IdempotentCommand.v ===== *)
(** * Idempotent commands (nanocore/src/runtime/idempotent-command.ts)

    [runIdempotentCommand] runs as a sequence of segments between its [await]s, and the segments of
    different calls interleave.  A call looks up its receipt, joins the call in flight under its key or
    becomes that call, executes, records its receipt and leaves the in-flight map.  The in-flight maps are
    those of the code: one per [WeakMap] instance (the routes, the Worker MCP routes and the Goal owner have
    their own) and per store in it, so that a call joins only the calls that share its map.  The calls are
    those whose receipts are in one ledger, which is any [ReceiptLedger]; the producer, the replay callback and the clock are the environment, so that the
    steps below quantify over what they do.  A synchronous transaction that the code runs in the same
    segment as its lookup is a step of its own here: the runs of the model include those of the code. *)

From S2P Require Import Prelude JsValue EntityId CommandInput SchedulerStore SchedulerRecords CommandReceipts.

Local Open Scope string_scope.
Local Open Scope list_scope.
Local Open Scope Z_scope.

Definition APP_NATIVE_COMMANDS : list string :=
  ["kernel.apps.create"; "kernel.schema.update"; "kernel.apps.retire"; "kernel.records.create"; "kernel.records.update";
   "kernel.records.batch"; "kernel.format.upgrade"; "kernel.snapshots.rollback"].

(** ** Receipts of conversation commands *)

Record ConversationWorkerReceiptLineage := {
  cw_actorId : jsstr;
  cw_workspaceId : jsstr;
  cw_receivingThreadId : jsstr;
  cw_requestId : jsstr;
  cw_requestInputHash : jsstr;
  cw_turnId : jsstr;
}.

Definition owns_worker_turn (l : ConversationWorkerReceiptLineage) (r : CommandRequestRecord) : bool :=
  bool_decide (rc_command r = js "conversation.submit") && bool_decide (rc_requestId r = cw_requestId l) &&
  bool_decide (rc_inputHash r = cw_requestInputHash l) && bool_decide (scope_get "actorId" (rc_scope r) = Some (cw_actorId l)) &&
  bool_decide (scope_get "workspaceId" (rc_scope r) = Some (cw_workspaceId l)) &&
  bool_decide (nr_kind (rc_response r) = js "turn") && bool_decide (nr_id (rc_response r) = cw_turnId l) &&
  match nr_metadata (rc_response r) with
  | Some m =>
    bool_decide (receivingWorkspaceId m = cw_workspaceId l) && bool_decide (receivingThreadId m = cw_receivingThreadId l) &&
    bool_decide (resultKind m = js "worker-turn") && negb (status200 m) &&
    bool_decide (downstream m = Some (DownstreamTask (cw_turnId l)))
  | None => false
  end.

(** Over the receipts [listCommandRequests] returns for the Workspace. *)
Definition findExactConversationWorkerOwnerReceipt (receipts : list CommandRequestRecord) (l : ConversationWorkerReceiptLineage)
    : option CommandRequestRecord :=
  match filterb (owns_worker_turn l) receipts with [r] => Some r | _ => None end.

Definition conversationTaskThreadId (actor : ActorRef) (ws th req : jsstr) : result EntityIdError jsstr :=
  deriveEntityId "th" (JArr [actor_json actor; JStr ws; JStr th; JStr req]).
Definition conversationTaskTurnId (actor : ActorRef) (ws th receiving req : jsstr) : result EntityIdError jsstr :=
  deriveEntityId "tu" (JArr [actor_json actor; JStr ws; JStr th; JStr receiving; JStr req]).

(** An owner receipt is the only one of its lineage. *)
Lemma exact_receipt_unique receipts l r :
  findExactConversationWorkerOwnerReceipt receipts l = Some r →
  r ∈ receipts ∧ owns_worker_turn l r = true ∧ ∀ r', r' ∈ receipts → owns_worker_turn l r' = true → r' = r.
Proof.
  unfold findExactConversationWorkerOwnerReceipt. destruct (filterb _ _) as [|x [|]] eqn:E; try done. intros [= <-].
  assert (x ∈ filterb (owns_worker_turn l) receipts) as [Hin Ho]%elem_of_filterb by (rewrite E; left). split_and!; [done|done|].
  intros r' Hr' Ho'. assert (r' ∈ filterb (owns_worker_turn l) receipts) as H by (by apply elem_of_filterb). rewrite E in H.
  by apply list_elem_of_singleton in H.
Qed.

Inductive TransactionKind := WorkspaceTransaction | CoreTransaction | AppTransaction.

Section Machine.
Context {T : Type} (sha256 : jsstr → jsstr).

(** ** Options *)

(** [op_store] and [op_inflightCommands] are the identities of the store and of the [WeakMap]. *)
Record IdempotentCommandOptions := {
  op_store : nat;
  op_inflightCommands : nat;
  op_command : jsstr;
  op_requestId : jsstr;
  op_scope : CommandRequestScope;
  op_input : jsval;
  op_responseKind : jsstr;
  op_conversationMetadata : option (T → jsval);
  op_responseId : T → jsstr;
  op_transaction : option TransactionKind;
  op_hasDb : bool;
  op_asyncExecute : bool;
  op_userReceiptDb : bool;
  op_hasDataRoot : bool;
}.

Definition is_missing {A} (o : option A) : bool := match o with None => true | Some _ => false end.

(** The judgement targets whose receipts the database worker owns. *)
Definition native_judgement (input : jsval) : bool :=
  match json_member "kind" (json_member "target" (json_member "judgement" input)) with
  | JStr k => named ["artifact-version"; "material-range"; "candidate-set"] k
  | _ => false
  end.

Definition workerOwned (o : IdempotentCommandOptions) : bool :=
  let core := scope_get "coreId" (op_scope o) in
  let user := scope_get "userId" (op_scope o) in
  let workspace := scope_get "workspaceId" (op_scope o) in
  let app := scope_get "appId" (op_scope o) in
  (negb (is_missing app) && named APP_NATIVE_COMMANDS (op_command o)) ||
  (op_hasDataRoot o && negb (is_missing user) && is_missing core && is_missing workspace && is_missing app &&
   isControlNativeReceiptCommand (op_command o) ScopeUser) ||
  (op_hasDataRoot o &&
   (isControlNativeReceiptCommand (op_command o) (if is_missing workspace then ScopeCore else ScopeWorkspace) ||
    (bool_decide (op_command o = js "evaluation.judgement-add") && native_judgement (op_input o))) &&
   (bool_decide (core = Some (js "server")) || negb (is_missing workspace)) && is_missing user && is_missing app).

Definition transaction_text (k : TransactionKind) : string * string :=
  match k with
  | WorkspaceTransaction => ("workspaceTransaction requires an open Workspace database.",
                             "workspaceTransaction commands must execute synchronously.")
  | CoreTransaction => ("coreTransaction requires an open Core database.", "coreTransaction commands must execute synchronously.")
  | AppTransaction => ("appTransaction requires an open App database.", "appTransaction commands must execute synchronously.")
  end.

(** The checks before the first lookup, and the hash of the input. *)
Definition preflight (o : IdempotentCommandOptions) : result CommandError jsstr :=
  if negb (is_missing (op_conversationMetadata o)) && bool_decide (op_command o ≠ js "conversation.submit")
  then fail "Only conversation.submit may store extra command receipt metadata."
  else
    _ ← match op_transaction o with
        | Some k => if negb (op_hasDb o) then fail (transaction_text k).1
                    else if op_asyncExecute o then fail (transaction_text k).2 else Ok ()
        | None => Ok ()
        end;
    match commandInputHash sha256 (op_input o) with Some h => Ok h | None => Err ReceiptSchemaRefusal end.

Definition key_of (o : IdempotentCommandOptions) : jsstr := commandRequestKey (op_command o) (op_requestId o) (op_scope o).

(** The in-flight map of the call, and its place there. *)
Definition map_of (o : IdempotentCommandOptions) : nat * nat := (op_inflightCommands o, op_store o).
Definition slot_of (o : IdempotentCommandOptions) : nat * nat * jsstr := (map_of o, key_of o).

(** The facts of the receipt, fixed when execution begins. *)
Record IdempotentCommandReceipt := { rt_inputHash : jsstr; rt_createdAt : Z }.

Definition receipt_record (o : IdempotentCommandOptions) (rt : IdempotentCommandReceipt) (response : NormalResponse)
    : CommandRequestRecord :=
  {| rc_key := key_of o; rc_command := op_command o; rc_requestId := op_requestId o; rc_scope := op_scope o;
     rc_inputHash := rt_inputHash rt; rc_response := response; rc_createdAt := rt_createdAt rt;
     rc_expiresAt := commandRequestExpiresAt (rt_createdAt rt) |}.

(** ** Calls *)

Inductive CallState :=
| Waiting
| Replaying (record : CommandRequestRecord)
| Executing (receipt : IdempotentCommandReceipt) (committed : bool)
| Produced (receipt : IdempotentCommandReceipt) (committed : bool) (value : T)
| Settled (out : result CommandError T)
| Joined (owner : nat)
| Returned (out : result CommandError T).

Record Call := { c_options : IdempotentCommandOptions; c_hash : jsstr; c_state : CallState }.

Context {L : Type} `{ReceiptLedger L}.

Record Process := {
  calls : gmap nat Call;
  inflight : gmap (nat * nat * jsstr) (jsstr * nat);
  ledger : L;
  now : Z;
}.

Definition with_state (c : nat) (s : CallState) (p : Process) : Process :=
  {| calls := alter (λ call, {| c_options := c_options call; c_hash := c_hash call; c_state := s |}) c (calls p);
     inflight := inflight p; ledger := ledger p; now := now p |}.
Definition with_ledger (l : L) (p : Process) : Process :=
  {| calls := calls p; inflight := inflight p; ledger := l; now := now p |}.
Definition with_inflight (m : gmap (nat * nat * jsstr) (jsstr * nat)) (p : Process) : Process :=
  {| calls := calls p; inflight := m; ledger := ledger p; now := now p |}.

(** ** Segments *)

Definition start_call (c : nat) (o : IdempotentCommandOptions) (p : Process) : Process :=
  let call := match preflight o with
              | Ok h => {| c_options := o; c_hash := h; c_state := Waiting |}
              | Err e => {| c_options := o; c_hash := []; c_state := Returned (Err e) |}
              end in
  {| calls := <[c := call]> (calls p); inflight := inflight p; ledger := ledger p; now := now p |}.

(** From the lookup to the in-flight map.  The second component says whether this call begins to execute. *)
Definition resume_call (c : nat) (call : Call) (p : Process) : Process * bool :=
  let o := c_options call in
  let key := key_of o in
  match ledger_get (ledger p) key (now p) with
  | Err e => (with_state c (Returned (Err e)) p, false)
  | Ok (l, Some record) =>
    let p := with_ledger l p in
    if bool_decide (rc_inputHash record ≠ c_hash call) then (with_state c (Returned (Err IdempotencyKeyConflictError)) p, false)
    else (with_state c (Replaying record) p, false)
  | Ok (l, None) =>
    let p := with_ledger l p in
    if workerOwned o && negb (is_missing (op_transaction o))
    then (with_state c (Returned (fail "Native product commands must commit their whole tuple in the database worker.")) p, false)
    else match inflight p !! slot_of o with
         | Some (h, owner) =>
           if bool_decide (h ≠ c_hash call) then (with_state c (Returned (Err IdempotencyKeyConflictError)) p, false)
           else (with_state c (Joined owner) p, false)
         | None =>
           let rt := {| rt_inputHash := c_hash call; rt_createdAt := now p |} in
           (with_inflight (<[slot_of o := (c_hash call, c)]> (inflight p)) (with_state c (Executing rt false) p), true)
         end
  end.

(** A producer that owns its receipt commits it before it returns. *)
Definition owns_receipt (o : IdempotentCommandOptions) : bool := workerOwned o || op_userReceiptDb o.

Definition write_receipt (o : IdempotentCommandOptions) (rt : IdempotentCommandReceipt) (v : T) (l : L) (t : Z)
    : result CommandError (L * option CommandRequestRecord) :=
  response ← normalizeCommandRequestResponse (op_command o)
    {| rs_kind := op_responseKind o; rs_id := op_responseId o v; rs_metadata := (λ f, f v) <$> op_conversationMetadata o; rs_others := [] |};
  let record := receipt_record o rt response in
  l ← ledger_record l record t; Ok (l, Some record).

(** The ledger it leaves and the receipt it wrote, if any. *)
Definition recordResult (o : IdempotentCommandOptions) (rt : IdempotentCommandReceipt) (v : T) (l : L) (t : Z)
    : result CommandError (L * option CommandRequestRecord) :=
  if owns_receipt o then
    got ← ledger_get l (key_of o) t;
    match got.2 with
    | Some committed =>
      if bool_decide (rc_inputHash committed ≠ rt_inputHash rt) then Err IdempotencyKeyConflictError
      else if bool_decide (nr_kind (rc_response committed) ≠ op_responseKind o) ||
              bool_decide (nr_id (rc_response committed) ≠ op_responseId o v)
      then (if workerOwned o then fail "Native product result differs from its original committed receipt."
            else fail "User command result differs from its original committed receipt.")
      else Ok (got.1, None)
    | None =>
      if workerOwned o then fail "Native product command returned without its original committed receipt."
      else write_receipt o rt v got.1 t
    end
  else write_receipt o rt v l t.

(** The receipt of a produced value, and what the shared promise settles to. *)
Definition record_call (c : nat) (o : IdempotentCommandOptions) (rt : IdempotentCommandReceipt) (v : T) (p : Process)
    : Process * option CommandRequestRecord :=
  match recordResult o rt v (ledger p) (now p) with
  | Ok (l, written) => (with_state c (Settled (Ok v)) (with_ledger l p), written)
  | Err e => (with_state c (Settled (Err e)) p, None)
  end.

Definition settle_call (c : nat) (o : IdempotentCommandOptions) (out : result CommandError T) (p : Process) : Process :=
  let p := with_state c (Returned out) p in
  match inflight p !! slot_of o with
  | Some (_, owner) => if bool_decide (owner = c) then with_inflight (delete (slot_of o) (inflight p)) p else p
  | None => p
  end.

(** ** Runs *)

Inductive Label :=
| Silent
| Began (c : nat) (map : nat * nat) (key : jsstr)
| Wrote (c : nat) (record : CommandRequestRecord)
| Restarted.

Definition began (c : nat) (o : IdempotentCommandOptions) (b : bool) : Label := if b then Began c (map_of o) (key_of o) else Silent.
Definition wrote (c : nat) (o : option CommandRequestRecord) : Label := match o with Some r => Wrote c r | None => Silent end.

Definition call_at (p : Process) (c : nat) (o : IdempotentCommandOptions) (h : jsstr) (s : CallState) : Prop :=
  calls p !! c = Some {| c_options := o; c_hash := h; c_state := s |}.

Inductive step : Process → Label → Process → Prop :=
| s_start c o p : calls p !! c = None → step p Silent (start_call c o p)
| s_resume c o h p : call_at p c o h Waiting →
    let out := resume_call c {| c_options := o; c_hash := h; c_state := Waiting |} p in
    step p (began c o out.2) out.1
| s_pause_refused c o h e p : call_at p c o h Waiting → step p Silent (with_state c (Returned (Err e)) p)
| s_replay c o h r out p : call_at p c o h (Replaying r) → step p Silent (with_state c (Returned out) p)
| s_commit c o h rt response l p : call_at p c o h (Executing rt false) → owns_receipt o = true → op_transaction o = None →
    ledger_commit (ledger p) (receipt_record o rt response) = Ok l →
    step p (Wrote c (receipt_record o rt response)) (with_state c (Executing rt true) (with_ledger l p))
| s_produce c o h rt b v p : call_at p c o h (Executing rt b) → op_transaction o = None →
    step p Silent (with_state c (Produced rt b v) p)
| s_fail c o h rt b e p : call_at p c o h (Executing rt b) → step p Silent (with_state c (Settled (Err e)) p)
| s_record c o h rt b v p : call_at p c o h (Produced rt b v) →
    let out := record_call c o rt v p in step p (wrote c out.2) out.1
| s_record_refused c o h rt b v e p : call_at p c o h (Produced rt b v) → step p Silent (with_state c (Settled (Err e)) p)
| s_transaction c o h rt b v p : call_at p c o h (Executing rt b) → op_transaction o ≠ None →
    let out := record_call c o rt v p in step p (wrote c out.2) out.1
| s_settle c o h out p : call_at p c o h (Settled out) → step p Silent (settle_call c o out p)
| s_join c o h owner o' h' out p : call_at p c o h (Joined owner) →
    call_at p owner o' h' (Settled out) ∨ call_at p owner o' h' (Returned out) →
    step p Silent (with_state c (Returned out) p)
| s_clock t p : now p <= t → step p Silent {| calls := calls p; inflight := inflight p; ledger := ledger p; now := t |}
| s_restart p : step p Restarted {| calls := ∅; inflight := ∅; ledger := ledger p; now := now p |}.

Inductive run : Process → list Label → Process → Prop :=
| run_nil p : run p [] p
| run_cons p l p1 ls p2 : step p l p1 → run p1 ls p2 → run p (l :: ls) p2.

Definition idle (l : L) (t : Z) : Process := {| calls := ∅; inflight := ∅; ledger := l; now := t |}.

(** ** The invariant *)

Definition in_flight (s : CallState) : bool :=
  match s with Executing _ _ | Produced _ _ _ | Settled _ => true | _ => false end.
Definition is_returned (s : CallState) : bool := match s with Returned _ => true | _ => false end.
Definition receipt_of (s : CallState) : option (IdempotentCommandReceipt * bool) :=
  match s with Executing rt b | Produced rt b _ => Some (rt, b) | _ => None end.
Definition is_produced (s : CallState) : bool := match s with Produced _ _ _ => true | _ => false end.
Definition uncommitted (s : CallState) : bool := match receipt_of s with Some (_, b) => negb b | None => false end.
Definition joined_to (s : CallState) : option nat := match s with Joined owner => Some owner | _ => None end.

Record inv (p : Process) : Prop := {
  inv_map k h c : inflight p !! k = Some (h, c) → ∃ o s, call_at p c o h s ∧ in_flight s = true ∧ slot_of o = k;
  inv_call c o h s : call_at p c o h s → in_flight s = true → inflight p !! slot_of o = Some (h, c);
  inv_receipt c o h s rt b : call_at p c o h s → receipt_of s = Some (rt, b) →
    rt_inputHash rt = h ∧ rt_createdAt rt <= now p ∧ (b = true → owns_receipt o = true) ∧
    (b = true ∨ is_produced s = true → op_transaction o = None);
  inv_join c o h s owner : call_at p c o h s → joined_to s = Some owner →
    ∃ o' s', call_at p owner o' h s' ∧ slot_of o' = slot_of o ∧ in_flight s' || is_returned s' = true;
}.

Lemma call_at_fun p c o h s o' h' s' : call_at p c o h s → call_at p c o' h' s' → o' = o ∧ h' = h ∧ s' = s.
Proof. unfold call_at. intros -> [= -> -> ->]. done. Qed.

Lemma call_at_with_state p c s c' o h s' :
  call_at (with_state c s p) c' o h s' ↔ (c' = c ∧ s' = s ∧ ∃ s0, call_at p c o h s0) ∨ (c' ≠ c ∧ call_at p c' o h s').
Proof.
  unfold call_at, with_state. cbn [calls]. destruct (decide (c' = c)) as [->|Hne].
  - rewrite lookup_alter_eq. destruct (calls p !! c) as [[o0 h0 s0]|]; cbn; [|naive_solver]. split.
    + intros [= -> -> ->]. left. eauto.
    + intros [(_ & -> & s1 & [= -> -> ->])|[]]; done.
  - rewrite lookup_alter_ne by done. naive_solver.
Qed.

Lemma idle_inv l t : inv (idle l t).
Proof. split; unfold call_at; cbn; intros; by simplify_map_eq. Qed.

(** A call that changes state without entering or leaving the in-flight map. *)
Record quiet (o : IdempotentCommandOptions) (s s' : CallState) : Prop := {
  q_inflight : in_flight s' = in_flight s;
  q_receipt rt b : receipt_of s' = Some (rt, b) → ∃ b0, receipt_of s = Some (rt, b0) ∧
    (b = true → b0 = true ∨ owns_receipt o = true ∧ op_transaction o = None) ∧ (is_produced s' = true → op_transaction o = None);
  q_join : joined_to s' = None;
  q_returned : is_returned s = false;
}.

Lemma inv_quiet p c o h s s' l : inv p → call_at p c o h s → quiet o s s' → inv (with_state c s' (with_ledger l p)).
Proof.
  intros [I1 I2 I3 I4] Hc [Q1 Q2 Q3 Q4]. split.
  - intros k h' c' (o' & s0 & H0 & F & K)%I1. destruct (decide (c' = c)) as [->|Hne].
    + destruct (call_at_fun _ _ _ _ _ _ _ _ Hc H0) as (-> & -> & ->). exists o, s'. split_and!; [|by rewrite Q1|done].
      apply call_at_with_state. left. eauto.
    + exists o', s0. split_and!; [|done..]. apply call_at_with_state. by right.
  - intros c' o' h' s0 [(-> & -> & s1 & H0)|[Hne H0]]%call_at_with_state F; [|by eapply I2].
    destruct (call_at_fun _ _ _ _ _ _ _ _ Hc H0) as (-> & -> & ->). rewrite Q1 in F. by eapply I2.
  - intros c' o' h' s0 rt b [(-> & -> & s1 & H0)|[Hne H0]]%call_at_with_state R; [|by eapply I3].
    destruct (call_at_fun _ _ _ _ _ _ _ _ Hc H0) as (-> & -> & ->). destruct (Q2 _ _ R) as (b0 & R0 & Hb & Hp).
    destruct (I3 _ _ _ _ _ _ Hc R0) as (E1 & E2 & E3 & E4). split_and!; [done|done| |]; naive_solver.
  - intros c' o' h' s0 owner [(-> & -> & s1 & H0)|[Hne H0]]%call_at_with_state J; [congruence|].
    destruct (I4 _ _ _ _ _ H0 J) as (o2 & s2 & H2 & K & F). destruct (decide (owner = c)) as [->|Hno].
    + destruct (call_at_fun _ _ _ _ _ _ _ _ Hc H2) as (-> & -> & ->). exists o, s'. split_and!; [|done|].
      * apply call_at_with_state. left. eauto.
      * rewrite Q4, orb_false_r in F. by rewrite Q1, F.
    + exists o2, s2. split_and!; [|done..]. apply call_at_with_state. by right.
Qed.

Lemma inv_ledger p l : inv p → inv (with_ledger l p).
Proof. by intros []. Qed.
Lemma with_ledger_same p : with_ledger (ledger p) p = p.
Proof. by destruct p. Qed.

Lemma inv_quiet' p c o h s s' : inv p → call_at p c o h s → quiet o s s' → inv (with_state c s' p).
Proof. intros. rewrite <-(with_ledger_same p). by eapply inv_quiet. Qed.

Ltac quiet_step := constructor; [done|cbn; try done; naive_solver|done|done].

Lemma inv_begin p c o h l :
  inv p → call_at p c o h Waiting → inflight p !! slot_of o = None →
  inv (with_inflight (<[slot_of o := (h, c)]> (inflight p))
         (with_state c (Executing {| rt_inputHash := h; rt_createdAt := now p |} false) (with_ledger l p))).
Proof.
  intros [I1 I2 I3 I4] Hc Hn. set (s := Executing _ false).
  assert (∀ c' o' h' s', call_at p c' o' h' s' → in_flight s' = true → slot_of o' ≠ slot_of o) as Hfree.
  { intros c' o' h' s' H' F E. pose proof (I2 _ _ _ _ H' F) as M. rewrite E in M. congruence. }
  split; cbn [inflight with_inflight now].
  - intros k h' c'. destruct (decide (k = slot_of o)) as [->|Hk].
    + rewrite lookup_insert_eq. intros [= <- <-]. exists o, s. split_and!; [|done..]. apply call_at_with_state. left. eauto.
    + rewrite lookup_insert_ne by done. intros (o' & s' & H' & F & K)%I1. exists o', s'. split_and!; [|done..].
      apply call_at_with_state. right. split; [|done]. intros ->.
      destruct (call_at_fun _ _ _ _ _ _ _ _ Hc H') as (_ & _ & ->). done.
  - intros c' o' h' s' [(-> & -> & s1 & H0)|[Hne H0]]%call_at_with_state F.
    + destruct (call_at_fun _ _ _ _ _ _ _ _ Hc H0) as (-> & -> & _). apply lookup_insert_eq.
    + rewrite lookup_insert_ne; [by eapply I2|]. intros E. by eapply Hfree.
  - intros c' o' h' s' rt b [(-> & -> & s1 & H0)|[Hne H0]]%call_at_with_state R; [|by eapply I3].
    destruct (call_at_fun _ _ _ _ _ _ _ _ Hc H0) as (-> & -> & _). injection R as <- <-. split_and!; [done|cbn; lia|done|]. by intros [].
  - intros c' o' h' s' owner [(-> & -> & s1 & H0)|[Hne H0]]%call_at_with_state J; [done|].
    destruct (I4 _ _ _ _ _ H0 J) as (o2 & s2 & H2 & K & F). exists o2, s2. split_and!; [|done..]. apply call_at_with_state. right.
    split; [|done]. intros ->. destruct (call_at_fun _ _ _ _ _ _ _ _ Hc H2) as (_ & _ & ->). done.
Qed.

Lemma inv_joined p c o h l owner :
  inv p → call_at p c o h Waiting → inflight p !! slot_of o = Some (h, owner) → inv (with_state c (Joined owner) (with_ledger l p)).
Proof.
  intros I Hc Hm. pose proof I as [I1 I2 I3 I4]. destruct (I1 _ _ _ Hm) as (ow & sw & Hw & Fw & Kw).
  assert (owner ≠ c) as Hoc by (intros ->; by destruct (call_at_fun _ _ _ _ _ _ _ _ Hc Hw) as (_ & _ & ->)).
  split.
  - intros k h' c' (o' & s' & H' & F & K)%I1. exists o', s'. split_and!; [|done..]. apply call_at_with_state. right.
    split; [|done]. intros ->. by destruct (call_at_fun _ _ _ _ _ _ _ _ Hc H') as (_ & _ & ->).
  - intros c' o' h' s' [(-> & -> & s1 & H0)|[Hne H0]]%call_at_with_state F; [done|by eapply I2].
  - intros c' o' h' s' rt b [(-> & -> & s1 & H0)|[Hne H0]]%call_at_with_state R; [done|by eapply I3].
  - intros c' o' h' s' w [(-> & -> & s1 & H0)|[Hne H0]]%call_at_with_state J.
    + destruct (call_at_fun _ _ _ _ _ _ _ _ Hc H0) as (-> & -> & _). injection J as <-. exists ow, sw.
      split_and!; [|done|by rewrite Fw]. apply call_at_with_state. by right.
    + destruct (I4 _ _ _ _ _ H0 J) as (o2 & s2 & H2 & K & F). exists o2, s2. split_and!; [|done..]. apply call_at_with_state. right.
      split; [|done]. intros ->. by destruct (call_at_fun _ _ _ _ _ _ _ _ Hc H2) as (_ & _ & ->).
Qed.

Lemma inv_settle p c o h out : inv p → call_at p c o h (Settled out) → inv (settle_call c o out p).
Proof.
  intros [I1 I2 I3 I4] Hc. pose proof (I2 _ _ _ _ Hc eq_refl) as Hm.
  unfold settle_call. cbn [inflight with_state]. rewrite Hm, bool_decide_eq_true_2 by done.
  split; cbn [inflight with_inflight now].
  - intros k h' c' [Hk M]%lookup_delete_Some. destruct (I1 _ _ _ M) as (o' & s' & H' & F & K). exists o', s'.
    split_and!; [|done..]. apply call_at_with_state. right. split; [|done]. intros ->.
    destruct (call_at_fun _ _ _ _ _ _ _ _ Hc H') as (-> & _ & _). congruence.
  - intros c' o' h' s' [(-> & -> & s1 & H0)|[Hne H0]]%call_at_with_state F; [done|].
    apply lookup_delete_Some. pose proof (I2 _ _ _ _ H0 F) as M. split; [|done]. intros E. rewrite <-E in M. congruence.
  - intros c' o' h' s' rt b [(-> & -> & s1 & H0)|[Hne H0]]%call_at_with_state R; [done|by eapply I3].
  - intros c' o' h' s' w [(-> & -> & s1 & H0)|[Hne H0]]%call_at_with_state J; [done|].
    destruct (I4 _ _ _ _ _ H0 J) as (o2 & s2 & H2 & K & F). destruct (decide (w = c)) as [->|Hw].
    + destruct (call_at_fun _ _ _ _ _ _ _ _ Hc H2) as (-> & -> & ->). exists o, (Returned out).
      split_and!; [|done|done]. apply call_at_with_state. left. eauto.
    + exists o2, s2. split_and!; [|done..]. apply call_at_with_state. by right.
Qed.

Lemma inv_start p c o : inv p → calls p !! c = None → inv (start_call c o p).
Proof.
  intros [I1 I2 I3 I4] Hc.
  assert (∀ c' o' h' s', call_at p c' o' h' s' → call_at (start_call c o p) c' o' h' s') as Hold.
  { unfold call_at, start_call. cbn. intros c' o' h' s' H'. rewrite lookup_insert_ne; [done|]. intros ->. congruence. }
  assert (∀ c' o' h' s', call_at (start_call c o p) c' o' h' s' →
    call_at p c' o' h' s' ∨ (in_flight s' = false ∧ receipt_of s' = None ∧ joined_to s' = None)) as Hnew.
  { unfold call_at, start_call. cbn. intros c' o' h' s'. destruct (decide (c' = c)) as [->|Hne].
    - rewrite lookup_insert_eq. destruct (preflight o); intros [= _ _ <-]; by right.
    - rewrite lookup_insert_ne by done. by left. }
  split.
  - intros k h' c' (o' & s' & H' & F & K)%I1. exists o', s'. auto.
  - intros c' o' h' s' [H'|(F & _)]%Hnew F'; [by eapply I2|congruence].
  - intros c' o' h' s' rt b [H'|(_ & R & _)]%Hnew R'; [by eapply I3|congruence].
  - intros c' o' h' s' w [H'|(_ & _ & J)]%Hnew J'; [|congruence].
    destruct (I4 _ _ _ _ _ H' J') as (o2 & s2 & H2 & K & F). exists o2, s2. auto.
Qed.

Lemma inv_resume p c o h :
  inv p → call_at p c o h Waiting → inv (resume_call c {| c_options := o; c_hash := h; c_state := Waiting |} p).1.
Proof.
  intros I Hc. unfold resume_call. cbn [c_options c_hash].
  destruct (ledger_get _ _ _) as [[l [r|]]|e]; [| |eapply inv_quiet'; [done|done|quiet_step]].
  - case_bool_decide; cbn [fst]; (eapply inv_quiet; [done|done|quiet_step]).
  - destruct (_ && _); [cbn [fst]; eapply inv_quiet; [done|done|quiet_step]|]. cbn [inflight with_ledger].
    destruct (inflight p !! slot_of o) as [[h' w]|] eqn:M; [|exact (inv_begin p c o h l I Hc M)].
    case_bool_decide as E; cbn [fst]; [eapply inv_quiet; [done|done|quiet_step]|]. subst h'. by apply inv_joined with o h.
Qed.

Lemma inv_record p c o h s rt v :
  inv p → call_at p c o h s → in_flight s = true → inv (record_call c o rt v p).1.
Proof.
  intros I Hc F. unfold record_call. destruct (recordResult _ _ _ _ _) as [[l w]|e]; cbn [fst];
    [eapply inv_quiet|eapply inv_quiet']; try done; (constructor; [by rewrite F|done|done|by destruct s]).
Qed.

Lemma inv_step p lab p' : inv p → step p lab p' → inv p'.
Proof.
  intros I St. destruct St as [c o p Hc|c o h p Hc|c o h e p Hc|c o h r out p Hc|c o h rt resp l p Hc Ho Ht Hl|c o h rt b v p Hc Ht
    |c o h rt b e p Hc|c o h rt b v p Hc|c o h rt b v e p Hc|c o h rt b v p Hc Ht|c o h out p Hc|c o h w o' h' out p Hc Hw|t p Ht|p].
  - by apply inv_start.
  - by apply inv_resume.
  - eapply inv_quiet'; [done|done|quiet_step].
  - eapply inv_quiet'; [done|done|quiet_step].
  - eapply inv_quiet; [done|done|]. constructor; [done| |done|done]. cbn. intros rt' b [= <- <-]. exists false. by auto.
  - eapply inv_quiet'; [done|done|]. constructor; [done| |done|done]. cbn. intros rt' b' [= <- <-]. exists b. split_and!; by auto.
  - eapply inv_quiet'; [done|done|quiet_step].
  - by eapply inv_record.
  - eapply inv_quiet'; [done|done|quiet_step].
  - by eapply inv_record.
  - by eapply inv_settle.
  - eapply inv_quiet'; [done|done|quiet_step].
  - destruct I as [I1 I2 I3 I4]. split; [exact I1|exact I2| |exact I4]. intros c o h s rt b Hc R.
    destruct (I3 _ _ _ _ _ _ Hc R) as (? & ? & ? & ?). cbn [now]. split_and!; [done|lia|done|done].
  - apply idle_inv.
Qed.

(** ** A retained receipt *)

(** The receipt is in the ledger and no call may write its key any more. *)
Record kept (k : jsstr) (r : CommandRequestRecord) (p : Process) : Prop := {
  kept_row : ledger_holds (ledger p) k r;
  kept_calls c o h s : call_at p c o h s → key_of o = k → uncommitted s = false;
}.

Lemma write_receipt_spec o rt v l t l' w :
  write_receipt o rt v l t = Ok (l', w) → ∃ record, w = Some record ∧ ledger_record l record t = Ok l' ∧ rc_key record = key_of o.
Proof. unfold write_receipt. intros (n & _ & (l1 & Hl & [= <- <-])%bind_Ok)%bind_Ok. eauto. Qed.

(** Recording keeps the live receipts of other keys. *)
Lemma record_other o rt v l t l' w k r :
  recordResult o rt v l t = Ok (l', w) → key_of o ≠ k → ledger_holds l k r → t < rc_expiresAt r → ledger_holds l' k r.
Proof.
  intros Hr Hk Hh Ht. unfold recordResult in Hr. destruct (owns_receipt o).
  - apply bind_Ok in Hr as ([l1 [r1|]] & Hg & Hr); cbn [fst snd] in Hr; pose proof (get_keeps _ _ _ _ _ _ _ Hg Hh Ht) as H1.
    + case_bool_decide; [done|]. destruct (_ || _); [by destruct (workerOwned o)|]. by injection Hr as <- _.
    + destruct (workerOwned o); [done|]. apply write_receipt_spec in Hr as (rec & _ & Hl & E).
      eapply record_keeps; [done..| |done]. congruence.
  - apply write_receipt_spec in Hr as (rec & _ & Hl & E). eapply record_keeps; [done..| |done]. congruence.
Qed.

(** A producer that owns its receipt does not write it again while it is live. *)
Lemma record_own o rt v l t l' w r :
  recordResult o rt v l t = Ok (l', w) → owns_receipt o = true → ledger_holds l (key_of o) r → t < rc_expiresAt r →
  w = None ∧ ledger_holds l' (key_of o) r.
Proof.
  intros Hr Ho Hh Ht. unfold recordResult in Hr. rewrite Ho in Hr. destruct (get_finds _ _ _ _ Hh Ht) as [l1 Hg].
  rewrite Hg in Hr. cbn [mbind result_bind fst snd] in Hr. case_bool_decide; [done|].
  destruct (_ || _); [by destruct (workerOwned o)|]. injection Hr as <- <-. split; [done|]. by eapply get_keeps.
Qed.

Lemma kept_move k r p c s l :
  kept k r p → uncommitted s = false → ledger_holds l k r → kept k r (with_state c s (with_ledger l p)).
Proof.
  intros [K1 K2] U Hl. split; [done|]. intros c' o' h' s' [(-> & -> & _)|[_ H']]%call_at_with_state E; [done|by eapply K2].
Qed.
Lemma kept_move' k r p c s : kept k r p → uncommitted s = false → kept k r (with_state c s p).
Proof. intros K U. rewrite <-(with_ledger_same p). apply kept_move; [done..|]. apply K. Qed.

Lemma kept_produced k r p c o h s s' l :
  kept k r p → call_at p c o h s → uncommitted s' = uncommitted s → ledger_holds l k r → kept k r (with_state c s' (with_ledger l p)).
Proof.
  intros [K1 K2] Hc U Hl. split; [done|]. intros c' o' h' s0 [(-> & -> & s1 & H0)|[_ H']]%call_at_with_state E; [|by eapply K2].
  destruct (call_at_fun _ _ _ _ _ _ _ _ Hc H0) as (-> & _ & _). rewrite U. by eapply K2.
Qed.

(** A lookup under the key of a live receipt does not begin. *)
Lemma kept_resume k r p c o h :
  kept k r p → call_at p c o h Waiting → now p < rc_expiresAt r →
  let out := resume_call c {| c_options := o; c_hash := h; c_state := Waiting |} p in
  kept k r out.1 ∧ (key_of o = k → out.2 = false).
Proof.
  intros K Hc Ht. unfold resume_call. cbn [c_options c_hash].
  destruct (ledger_get (ledger p) (key_of o) (now p)) as [[l [r1|]]|e] eqn:G;
    [pose proof (get_keeps _ _ _ _ _ _ _ G (kept_row _ _ _ K) Ht) as Hl..|].
  - case_bool_decide; cbn [fst snd]; (split; [by apply kept_move|done]).
  - assert (key_of o ≠ k) as Hk.
    { intros E. destruct (get_finds _ _ _ _ (kept_row _ _ _ K) Ht) as [l1 G1]. rewrite E in G. congruence. }
    destruct (_ && _); [cbn [fst snd]; split; [by apply kept_move|done]|]. cbn [inflight with_ledger].
    destruct (inflight p !! slot_of o) as [[h' w]|].
    + case_bool_decide; cbn [fst snd]; (split; [by apply kept_move|done]).
    + cbn [fst snd]. split; [|done]. split; [done|]. intros c' o' h' s' [(-> & -> & s1 & H0)|[_ H']]%call_at_with_state E; [|by eapply K].
      destruct (call_at_fun _ _ _ _ _ _ _ _ Hc H0) as (-> & _ & _). done.
  - cbn [fst snd]. split; [by apply kept_move'|done].
Qed.

Lemma held_resume k r p c o h :
  ledger_holds (ledger p) k r → call_at p c o h Waiting → now p < rc_expiresAt r →
  let out := resume_call c {| c_options := o; c_hash := h; c_state := Waiting |} p in
  ledger_holds (ledger out.1) k r ∧ (key_of o = k → out.2 = false).
Proof.
  intros Hh Hc Ht. unfold resume_call. cbn [c_options c_hash].
  destruct (ledger_get (ledger p) (key_of o) (now p)) as [[l [r1|]]|e] eqn:G;
    [pose proof (get_keeps _ _ _ _ _ _ _ G Hh Ht) as Hl..|done].
  - by case_bool_decide.
  - assert (key_of o ≠ k) as Hk.
    { intros E. destruct (get_finds _ _ _ _ Hh Ht) as [l1 G1]. rewrite E in G. congruence. }
    by repeat case_match.
Qed.

Lemma kept_record k r p c o h s rt v :
  inv p → kept k r p → call_at p c o h s → receipt_of s ≠ None → (op_transaction o ≠ None ∨ is_produced s = true) →
  now p < rc_expiresAt r → kept k r (record_call c o rt v p).1.
Proof.
  intros I K Hc R Hm Ht. unfold record_call. destruct (recordResult o rt v (ledger p) (now p)) as [[l w]|e] eqn:E; cbn [fst]; [|by apply kept_move'].
  apply kept_move; [done|done|]. destruct (decide (key_of o = k)) as [Ek|Ek]; [|by eapply record_other; [..|apply K|]].
  subst k. pose proof (kept_calls _ _ _ K _ _ _ _ Hc eq_refl) as U. unfold uncommitted in U.
  destruct (receipt_of s) as [[rt' b]|] eqn:R'; [|done]. apply negb_false_iff in U. subst b.
  destruct (inv_receipt _ I _ _ _ _ _ _ Hc R') as (_ & _ & Ho & _). by eapply record_own; [..|apply K|]; auto.
Qed.

Lemma now_resume c call p : now (resume_call c call p).1 = now p.
Proof. unfold resume_call. repeat case_match; done. Qed.
Lemma now_record c o rt v p : now (record_call c o rt v p).1 = now p.
Proof. unfold record_call. repeat case_match; done. Qed.

Lemma kept_step k r p lab p' :
  inv p → kept k r p → step p lab p' → now p' < rc_expiresAt r → kept k r p' ∧ (∀ c m, lab ≠ Began c m k).
Proof.
  intros I K St Ht. destruct St as [c o p Hc|c o h p Hc|c o h e p Hc|c o h r' out p Hc|c o h rt resp l p Hc Ho Htr Hl|c o h rt b v p Hc Htr
    |c o h rt b e p Hc|c o h rt b v p Hc|c o h rt b v e p Hc|c o h rt b v p Hc Htr|c o h out p Hc|c o h w o' h' out p Hc Hw|t p Hle|p].
  - split; [|done]. split; [apply K|]. unfold call_at, start_call. cbn. intros c' o' h' s'. destruct (decide (c' = c)) as [->|Hne].
    + rewrite lookup_insert_eq. by destruct (preflight o); intros [= _ _ <-].
    + rewrite lookup_insert_ne by done. apply K.
  - subst out. rewrite now_resume in Ht. destruct (kept_resume _ _ _ _ _ _ K Hc Ht) as [K' Hb]. split; [exact K'|]. intros c' m E. unfold began in E.
    destruct ((resume_call _ _ p).2) eqn:B; [|done]. injection E as _ _ E. specialize (Hb E). cbv zeta in Hb. congruence.
  - split; [by apply kept_move'|done].
  - split; [by apply kept_move'|done].
  - split; [|done]. apply kept_move; [done|done|]. assert (key_of o ≠ k) as Hk.
    { intros E. by pose proof (kept_calls _ _ _ K _ _ _ _ Hc E). }
    eapply commit_keeps; [exact Hl|apply K|done|]. destruct (inv_receipt _ I _ _ _ _ _ _ Hc eq_refl) as (_ & Hcr & _). cbn in Ht |- *. lia.
  - split; [|done]. rewrite <-(with_ledger_same p). eapply kept_produced; [done|done|done|apply K].
  - split; [by apply kept_move'|done].
  - subst out. rewrite now_record in Ht.
    split; [eapply kept_record; [done|done|done|done|by right|done]|]. intros c'. by destruct ((record_call _ _ _ _ _).2).
  - split; [by apply kept_move'|done].
  - subst out. rewrite now_record in Ht.
    split; [eapply kept_record; [done|done|done|done|by left|done]|]. intros c'. by destruct ((record_call _ _ _ _ _).2).
  - split; [|done]. unfold settle_call. assert (kept k r (with_state c (Returned out) p)) as K' by (by apply kept_move').
    repeat case_match; try done; destruct K'; by split.
  - split; [by apply kept_move'|done].
  - split; [|done]. by destruct K.
  - split; [|done]. split; [apply K|]. unfold call_at. cbn. intros c' o' h' s' E. by rewrite lookup_empty in E.
Qed.

(** A call in flight is the only one in its place. *)
Lemma only_call p c o h s c' o' h' s' :
  inv p → call_at p c o h s → in_flight s = true → call_at p c' o' h' s' → in_flight s' = true → slot_of o' = slot_of o → c' = c.
Proof.
  intros I H1 F1 H2 F2 E. pose proof (inv_call _ I _ _ _ _ H1 F1) as M1. pose proof (inv_call _ I _ _ _ _ H2 F2) as M2.
  rewrite E in M2. congruence.
Qed.

Lemma uncommitted_in_flight s : uncommitted s = true → in_flight s = true.
Proof. by destruct s. Qed.

(** The calls in flight under the key are all in one map. *)
Definition one_map (k : jsstr) (p : Process) : Prop :=
  ∃ m, ∀ c o h s, call_at p c o h s → in_flight s = true → key_of o = k → map_of o = m.

(** Writing the receipt of the call in flight then leaves no other writer of its key. *)
Lemma written_kept p c o h s s' l r :
  inv p → one_map (key_of o) p → call_at p c o h s → in_flight s = true → uncommitted s' = false → ledger_holds l (key_of o) r →
  kept (key_of o) r (with_state c s' (with_ledger l p)).
Proof.
  intros I [m M] Hc F U Hl. split; [done|]. intros c' o' h' s0 [(-> & -> & _)|[Hne H']]%call_at_with_state E; [done|].
  destruct (uncommitted s0) eqn:U0; [|done]. apply uncommitted_in_flight in U0. destruct Hne.
  eapply only_call; [done|exact Hc|done|exact H'|done|]. unfold slot_of. by rewrite E, (M _ _ _ _ Hc F), (M _ _ _ _ H' U0).
Qed.

Lemma record_wrote o rt v l t l' r :
  recordResult o rt v l t = Ok (l', Some r) → t < rc_expiresAt r → rc_key r = key_of o ∧ ledger_holds l' (key_of o) r.
Proof.
  assert (∀ l0, write_receipt o rt v l0 t = Ok (l', Some r) → t < rc_expiresAt r → rc_key r = key_of o ∧ ledger_holds l' (key_of o) r) as Hw.
  { intros l0 (rec & [= <-] & Hl & E)%write_receipt_spec Ht. split; [done|]. rewrite <-E. by eapply record_holds. }
  unfold recordResult. destruct (owns_receipt o); [|by apply Hw]. intros ([l1 [r1|]] & _ & H1)%bind_Ok; cbn [fst snd] in H1.
  - case_bool_decide; [done|]. destruct (_ || _); by destruct (workerOwned o).
  - destruct (workerOwned o); [done|]. by eapply Hw.
Qed.

Lemma record_wrote_key o rt v l t l' r : recordResult o rt v l t = Ok (l', Some r) → rc_key r = key_of o.
Proof.
  unfold recordResult. intros R. destruct (owns_receipt o); [|by apply write_receipt_spec in R as (rec & [= <-] & _ & E)].
  apply bind_Ok in R as ([l1 [r1|]] & _ & R); cbn [fst snd] in R.
  - case_bool_decide; [done|]. destruct (_ || _); by destruct (workerOwned o).
  - destruct (workerOwned o); [done|]. by apply write_receipt_spec in R as (rec & [= <-] & _ & E).
Qed.

(** A record step that wrote nothing found its receipt. *)
Lemma record_silent o rt v l t l' k r :
  recordResult o rt v l t = Ok (l', None) → ledger_holds l k r → t < rc_expiresAt r → ledger_holds l' k r.
Proof.
  unfold recordResult. intros R Hh Ht. destruct (owns_receipt o); [|by apply write_receipt_spec in R as (rec & ? & _)].
  apply bind_Ok in R as ([l1 [r1|]] & Hg & R); cbn [fst snd] in R.
  - case_bool_decide; [done|]. destruct (_ || _); [by destruct (workerOwned o)|]. injection R as <-. by eapply get_keeps.
  - destruct (workerOwned o); [done|]. by apply write_receipt_spec in R as (rec & ? & _).
Qed.

(** A written receipt is in the ledger. *)
Lemma wrote_holds p c r p' : step p (Wrote c r) p' → now p' < rc_expiresAt r → ledger_holds (ledger p') (rc_key r) r.
Proof.
  assert (∀ c o rt v w, (record_call c o rt v p).2 = Some w → now p < rc_expiresAt w →
    ledger_holds (ledger (record_call c o rt v p).1) (rc_key w) w) as Hrec.
  { intros c0 o rt v w E Ht. unfold record_call in *. destruct (recordResult _ _ _ _ _) as [[l w']|e] eqn:R; [|done].
    cbn in E. subst w'. by destruct (record_wrote _ _ _ _ _ _ _ R Ht) as [-> Hh]. }
  intros St Ht. remember (Wrote c r) as lab eqn:El. destruct St; try done.
  - unfold began in El. by destruct (out.2).
  - injection El as <- <-. cbn [ledger with_state with_ledger]. apply (commit_holds _ _ _ H3). cbn.
    unfold commandRequestExpiresAt, COMMAND_REQUEST_RETENTION_MS. lia.
  - subst out. rewrite now_record in Ht. destruct ((record_call c0 o rt v p).2) as [w|] eqn:E; [|done]. injection El as <- <-. by eapply Hrec.
  - subst out. rewrite now_record in Ht. destruct ((record_call c0 o rt v p).2) as [w|] eqn:E; [|done]. injection El as <- <-. by eapply Hrec.
Qed.

Lemma wrote_kept p c r p' :
  inv p → one_map (rc_key r) p → step p (Wrote c r) p' → now p' < rc_expiresAt r → kept (rc_key r) r p'.
Proof.
  assert (∀ c o h s rt v w, inv p → one_map (rc_key w) p → call_at p c o h s → in_flight s = true → (record_call c o rt v p).2 = Some w →
    now p < rc_expiresAt w → kept (rc_key w) w (record_call c o rt v p).1) as Hrec.
  { intros c0 o h s rt v w I M Hc F E Ht. unfold record_call in *. destruct (recordResult _ _ _ _ _) as [[l w']|e] eqn:R; [|done].
    cbn in E. subst w'. destruct (record_wrote _ _ _ _ _ _ _ R Ht) as [Ek Hh]. rewrite Ek in M |- *. by eapply written_kept. }
  intros I M St Ht. remember (Wrote c r) as lab eqn:El. destruct St; try done.
  - unfold began in El. by destruct (out.2).
  - injection El as <- <-. assert (rc_createdAt (receipt_record o rt response) < rc_expiresAt (receipt_record o rt response)) as Hlt.
    { cbn. unfold commandRequestExpiresAt, COMMAND_REQUEST_RETENTION_MS. lia. }
    pose proof (commit_holds _ _ _ H3 Hlt) as Hh. by eapply (written_kept p _ o h (Executing rt false)).
  - subst out. rewrite now_record in Ht. destruct ((record_call c0 o rt v p).2) as [w|] eqn:E; [|done]. injection El as <- <-. by eapply Hrec.
  - subst out. rewrite now_record in Ht. destruct ((record_call c0 o rt v p).2) as [w|] eqn:E; [|done]. injection El as <- <-. by eapply Hrec.
Qed.

Lemma now_step p lab p' : step p lab p' → now p <= now p'.
Proof.
  intros St. destruct St; try (cbn; lia).
  - subst out. rewrite now_resume. lia.
  - subst out. rewrite now_record. lia.
  - subst out. rewrite now_record. lia.
  - unfold settle_call. repeat case_match; cbn; lia.
Qed.

Lemma run_inv p ls p' : run p ls p' → inv p → inv p'.
Proof. induction 1; [done|]. intros I. eauto using inv_step. Qed.
Lemma run_now p ls p' : run p ls p' → now p <= now p'.
Proof. induction 1 as [|p l p1 ls p2 St _ IH]; [lia|]. pose proof (now_step _ _ _ St). lia. Qed.

Lemma run_kept k r p ls p' : run p ls p' → inv p → kept k r p → now p' < rc_expiresAt r → kept k r p' ∧ ∀ c m, Began c m k ∉ ls.
Proof.
  induction 1 as [p|p l p1 ls p2 St Hr IH]; intros I K Ht; [split; [done|set_solver]|].
  pose proof (run_now _ _ _ Hr). destruct (kept_step _ _ _ _ _ I K St ltac:(lia)) as [K1 Hl].
  destruct (IH (inv_step _ _ _ I St) K1 Ht) as [K2 Hls]. split; [done|]. intros c m [E|Hin]%elem_of_cons; [by apply (Hl c m)|by apply (Hls c m)].
Qed.

Lemma run_app p ls ks p' : run p (ls ++ ks) p' ↔ ∃ p1, run p ls p1 ∧ run p1 ks p'.
Proof.
  revert p. induction ls as [|l ls IH]; intros p; cbn.
  - split; [intros Hr; exists p; split; [constructor|done]|]. intros (p1 & H1 & H2). by inversion H1; subst.
  - split.
    + intros Hr. inversion Hr as [|? ? p1 ? ? St Hr']; subst. apply IH in Hr' as (p2 & H1 & H2). exists p2. split; [by econstructor|done].
    + intros (p2 & H1 & H2). inversion H1 as [|? ? p1 ? ? St Hr']; subst. econstructor; [done|]. apply IH. eauto.
Qed.

(** ** Calls in flight began *)

Lemma in_flight_step p lab p' c o h s :
  step p lab p' → call_at p' c o h s → in_flight s = true →
  lab = Began c (map_of o) (key_of o) ∨ ∃ s0, call_at p c o h s0 ∧ in_flight s0 = true.
Proof.
  assert (∀ c1 o1 h1 s1 s2 l, call_at p c1 o1 h1 s1 → in_flight s2 = false ∨ in_flight s1 = true →
    call_at (with_state c1 s2 (with_ledger l p)) c o h s → in_flight s = true → ∃ s0, call_at p c o h s0 ∧ in_flight s0 = true) as Hmove.
  { intros c1 o1 h1 s1 s2 l Ha Hf [(-> & -> & s3 & Hb)|[_ Hb]]%call_at_with_state F; [|by exists s].
    destruct (call_at_fun _ _ _ _ _ _ _ _ Ha Hb) as (-> & -> & _). exists s1. split; [done|]. destruct Hf; congruence. }
  assert (∀ c1 o1 h1 s1 s2, call_at p c1 o1 h1 s1 → in_flight s2 = false ∨ in_flight s1 = true →
    call_at (with_state c1 s2 p) c o h s → in_flight s = true → ∃ s0, call_at p c o h s0 ∧ in_flight s0 = true) as Hmove'.
  { intros c1 o1 h1 s1 s2. rewrite <-(with_ledger_same p) at 2. apply Hmove. }
  intros St Hc F. destruct St as [c1 o1 p Hn|c1 o1 h1 p Ha|c1 o1 h1 e p Ha|c1 o1 h1 r' out p Ha|c1 o1 h1 rt resp l p Ha Ho Htr Hl|c1 o1 h1 rt b v p Ha Htr
    |c1 o1 h1 rt b e p Ha|c1 o1 h1 rt b v p Ha|c1 o1 h1 rt b v e p Ha|c1 o1 h1 rt b v p Ha Htr|c1 o1 h1 out p Ha|c1 o1 h1 w o' h' out p Ha Hw|t p Hle|p];
    try (right; eapply Hmove'; [exact Ha| |exact Hc|exact F]; by auto); try (right; eapply Hmove; [exact Ha| |exact Hc|exact F]; by auto).
  - right. exists s. split; [|done]. unfold call_at, start_call in Hc |- *. cbn in Hc. destruct (decide (c = c1)) as [->|Hne].
    + rewrite lookup_insert_eq in Hc. destruct (preflight o1); injection Hc as <- <- <-; done.
    + by rewrite lookup_insert_ne in Hc.
  - subst out. unfold resume_call in Hc |- *. cbn [c_options c_hash] in Hc |- *.
    repeat case_match; cbn [fst snd] in Hc |- *; try (right; eapply Hmove'; [exact Ha| |exact Hc|exact F]; by auto); try (right; eapply Hmove; [exact Ha| |exact Hc|exact F]; by auto).
    apply call_at_with_state in Hc as [(-> & _ & s3 & Hb)|[_ Hb]]; [left|right; by exists s].
    by destruct (call_at_fun _ _ _ _ _ _ _ _ Ha Hb) as (-> & _ & _).
  - subst out. unfold record_call in Hc. right. destruct (recordResult _ _ _ _ _) as [[l w]|e]; cbn [fst] in Hc; eauto.
  - subst out. unfold record_call in Hc. right. destruct (recordResult _ _ _ _ _) as [[l w]|e]; cbn [fst] in Hc; eauto.
  - right. assert (call_at (with_state c1 (Returned out) p) c o h s) as Hc'; [|by eauto].
    unfold settle_call in Hc. by repeat case_match.
  - right. by exists s.
  - unfold call_at in Hc. cbn in Hc. by rewrite lookup_empty in Hc.
Qed.

Lemma in_flight_began p ls p' c o h s :
  run p ls p' → call_at p' c o h s → in_flight s = true →
  Began c (map_of o) (key_of o) ∈ ls ∨ ∃ s0, call_at p c o h s0 ∧ in_flight s0 = true.
Proof.
  intros Hr. revert c o h s. induction Hr as [p|p lab p1 ls p2 St Hr IH]; intros c o h s Hc F; [right; eauto|].
  destruct (IH _ _ _ _ Hc F) as [Hin|(s0 & H0 & F0)]; [left; by right|].
  destruct (in_flight_step _ _ _ _ _ _ _ St H0 F0) as [<-|?]; [left; left|by right].
Qed.

(** ** A receipt that another map's call may replace *)

(** A live receipt stays, or a receipt written under its key takes its place. *)
Lemma held_step k r p lab p' :
  inv p → ledger_holds (ledger p) k r → step p lab p' → now p' < rc_expiresAt r →
  (∀ c r', lab = Wrote c r' → rc_key r' = k → now p' < rc_expiresAt r') →
  (∃ r', ledger_holds (ledger p') k r' ∧ (r' = r ∨ ∃ c, lab = Wrote c r' ∧ rc_key r' = k)) ∧ (∀ c m, lab ≠ Began c m k).
Proof.
  assert (∀ c o rt v, ledger_holds (ledger p) k r → now p < rc_expiresAt r →
    (∀ c' r', wrote c (record_call c o rt v p).2 = Wrote c' r' → rc_key r' = k → now p < rc_expiresAt r') →
    ∃ r', ledger_holds (ledger (record_call c o rt v p).1) k r' ∧
      (r' = r ∨ ∃ c', wrote c (record_call c o rt v p).2 = Wrote c' r' ∧ rc_key r' = k)) as Hrec.
  { intros c o rt v Hh Ht Hw. unfold record_call in *. destruct (recordResult o rt v (ledger p) (now p)) as [[l w]|e] eqn:R; cbn [fst snd] in *; [|by eauto].
    destruct (decide (key_of o = k)) as [Ek|Ek]; [|exists r; split; [by eapply record_other|by left]]. subst k.
    destruct w as [w|]; cbn [wrote] in *.
    - assert (rc_key w = key_of o) as Ekw by (by eapply record_wrote_key). pose proof (Hw _ _ eq_refl Ekw) as Hlive.
      destruct (record_wrote _ _ _ _ _ _ _ R Hlive) as [_ Hn]. exists w. split; [done|]. right. eauto.
    - exists r. split; [|by left]. by eapply record_silent. }
  intros I Hh St Ht Hw. destruct St as [c o p Hc|c o h p Hc|c o h e p Hc|c o h r' out p Hc|c o h rt resp l p Hc Ho Htr Hl|c o h rt b v p Hc Htr
    |c o h rt b e p Hc|c o h rt b v p Hc|c o h rt b v e p Hc|c o h rt b v p Hc Htr|c o h out p Hc|c o h w o' h' out p Hc Hwt|t p Hle|p];
    try (split; [exists r; by auto|done]).
  - subst out. rewrite now_resume in Ht. destruct (held_resume _ _ _ _ _ _ Hh Hc Ht) as [H' Hb].
    split; [exists r; by auto|]. intros c' m E. unfold began in E. destruct ((resume_call _ _ p).2) eqn:B; [|done]. injection E as _ _ E. specialize (Hb E). cbv zeta in Hb. congruence.
  - split; [|done]. cbn [ledger with_state with_ledger]. destruct (decide (key_of o = k)) as [Ek|Ek].
    + exists (receipt_record o rt resp). split; [|right; by exists c]. subst k. apply (commit_holds _ _ _ Hl). cbn.
      unfold commandRequestExpiresAt, COMMAND_REQUEST_RETENTION_MS. lia.
    + exists r. split; [|by left]. eapply commit_keeps; [exact Hl|done|done|].
      destruct (inv_receipt _ I _ _ _ _ _ _ Hc eq_refl) as (_ & Hcr & _). cbn in Ht |- *. lia.
  - subst out. rewrite now_record in Ht, Hw. split; [by apply Hrec|]. intros c' m. by destruct ((record_call _ _ _ _ _).2).
  - subst out. rewrite now_record in Ht, Hw. split; [by apply Hrec|]. intros c' m. by destruct ((record_call _ _ _ _ _).2).
  - split; [|done]. exists r. split; [|by left]. unfold settle_call. by repeat case_match.
Qed.

Lemma run_held k r p ls p' :
  run p ls p' → inv p → ledger_holds (ledger p) k r → now p' < rc_expiresAt r →
  (∀ c r', Wrote c r' ∈ ls → rc_key r' = k → now p' < rc_expiresAt r') →
  (∃ r', ledger_holds (ledger p') k r' ∧ (r' = r ∨ ∃ c, Wrote c r' ∈ ls)) ∧ ∀ c m, Began c m k ∉ ls.
Proof.
  intros Hr. revert r. induction Hr as [p|p lab p1 ls p2 St Hr IH]; intros r I Hh Ht Hw; [split; [eauto|set_solver]|].
  pose proof (run_now _ _ _ Hr) as Hn. destruct (held_step k r _ _ _ I Hh St ltac:(lia)) as [(r1 & H1 & Hr1) Hl].
  { intros c r' -> Hk. pose proof (Hw c r' ltac:(left) Hk). lia. }
  assert (now p2 < rc_expiresAt r1) as Ht1 by (destruct Hr1 as [->|(c & -> & Hk)]; [done|by apply (Hw c); [left|]]).
  destruct (IH r1 (inv_step _ _ _ I St) H1 Ht1) as [(r2 & H2 & Hr2) Hls].
  { intros c r' Hin. apply (Hw c). by right. }
  split.
  - exists r2. split; [done|]. destruct Hr2 as [->|(c & Hin)]; [|right; exists c; by right].
    destruct Hr1 as [->|(c & -> & _)]; [by left|]. right. exists c. left.
  - intros c m [E|Hin]%elem_of_cons; [by apply (Hl c m)|by apply (Hls c m)].
Qed.

(** C3. Once a receipt is in the ledger, no command with its key begins to execute before the receipt expires,
    whatever other calls, failures and restarts of the process come between; a later call under the key
    replays the receipt or is refused.  The receipt itself stays when the calls under its key share an
    in-flight map.  A call under the key that another map let in before the receipt was written may still
    replace it; then no command with the key begins while the receipts written under it are live. *)
Theorem retained_receipt_prevents_execution l0 t0 before c r after p :
  run (idle l0 t0) (before ++ Wrote c r :: after) p → now p < rc_expiresAt r →
  ((∃ m, ∀ c' m', Began c' m' (rc_key r) ∈ before → m' = m) →
     ledger_holds (ledger p) (rc_key r) r ∧ ∀ c' m, Began c' m (rc_key r) ∉ after) ∧
  ((∀ c' r', Wrote c' r' ∈ after → rc_key r' = rc_key r → now p < rc_expiresAt r') →
     (∃ r', ledger_holds (ledger p) (rc_key r) r' ∧ (r' = r ∨ ∃ c', Wrote c' r' ∈ after)) ∧
     ∀ c' m, Began c' m (rc_key r) ∉ after).
Proof.
  intros (p1 & H1 & Hr)%run_app Ht. inversion Hr as [|? ? p2 ? ? St Hr']; subst.
  pose proof (run_inv _ _ _ H1 (idle_inv _ _)) as I1. pose proof (run_now _ _ _ Hr'). pose proof (inv_step _ _ _ I1 St) as I2. split.
  - intros [m Hm]. assert (one_map (rc_key r) p1) as M.
    { exists m. intros c1 o1 h1 s1 Hc F E. destruct (in_flight_began _ _ _ _ _ _ _ H1 Hc F) as [Hin|(s0 & Hs & _)].
      - rewrite E in Hin. by apply Hm in Hin.
      - unfold call_at in Hs. cbn in Hs. by rewrite lookup_empty in Hs. }
    pose proof (wrote_kept _ _ _ _ I1 M St ltac:(lia)) as K.
    destruct (run_kept _ _ _ _ _ Hr' I2 K Ht) as [K' Hb]. split; [apply K'|done].
  - intros Hw. apply (run_held _ _ _ _ _ Hr' I2); [|done|done]. by eapply wrote_holds; [..|lia].
Qed.

(** ** One execution at a time *)

Definition begun (c : nat) (k : nat * nat * jsstr) (p : Process) : Prop :=
  ∃ o h s, call_at p c o h s ∧ slot_of o = k ∧ in_flight s || is_returned s = true.

(** A call in flight stays in flight or returns. *)
Lemma begun_move c k p c0 o0 h0 s0 s l :
  begun c k p → call_at p c0 o0 h0 s0 → is_returned s0 = false → (in_flight s0 = true → in_flight s || is_returned s = true) →
  begun c k (with_state c0 s (with_ledger l p)).
Proof.
  intros (o & h & s1 & Hc & Hk & F) H0 R Hs. destruct (decide (c = c0)) as [->|Hne].
  - destruct (call_at_fun _ _ _ _ _ _ _ _ H0 Hc) as (-> & -> & ->). exists o0, h0, s. split_and!; [|done|].
    + apply call_at_with_state. left. eauto.
    + apply Hs. by rewrite R, orb_false_r in F.
  - exists o, h, s1. split_and!; [|done..]. apply call_at_with_state. by right.
Qed.
Lemma begun_move' c k p c0 o0 h0 s0 s :
  begun c k p → call_at p c0 o0 h0 s0 → is_returned s0 = false → (in_flight s0 = true → in_flight s || is_returned s = true) →
  begun c k (with_state c0 s p).
Proof. intros. rewrite <-(with_ledger_same p). by eapply begun_move. Qed.

Lemma begun_record c k p c0 o0 h0 s0 rt v :
  begun c k p → call_at p c0 o0 h0 s0 → is_returned s0 = false → begun c k (record_call c0 o0 rt v p).1.
Proof.
  intros B H0 R. unfold record_call. destruct (recordResult _ _ _ _ _) as [[l w]|e]; cbn [fst]; [by eapply begun_move|by eapply begun_move'].
Qed.

Lemma begun_step c k p lab p' : begun c k p → step p lab p' → lab ≠ Restarted → begun c k p'.
Proof.
  intros B St Hl. destruct St; try done; try (by eapply begun_move'); try (by eapply begun_move); try (by eapply begun_record).
  - destruct B as (o0 & h & s & Hc & Hk & F). exists o0, h, s. split_and!; [|done..]. unfold call_at, start_call in *. cbn.
    rewrite lookup_insert_ne; [done|]. intros ->. congruence.
  - subst out. unfold resume_call. cbn [c_options c_hash].
    repeat case_match; cbn [fst]; try (by eapply begun_move'); try (by eapply begun_move).
  - unfold settle_call. assert (begun c k (with_state c0 (Returned out) p)) as B' by (by eapply begun_move').
    repeat case_match; try done; destruct B' as (o1 & h1 & s1 & H1); by exists o1, h1, s1.
Qed.

Lemma run_begun c k p ls p' : run p ls p' → begun c k p → Restarted ∉ ls → begun c k p'.
Proof.
  induction 1 as [|p l p1 ls p2 St _ IH]; intros B Hn; [done|]. apply IH; [|set_solver]. eapply begun_step; [done..|]. set_solver.
Qed.

(** What a step that begins a call found and left. *)
Lemma began_step c m k p p' : step p (Began c m k) p' →
  inflight p !! (m, k) = None ∧ ∃ o h s', call_at p c o h Waiting ∧ slot_of o = (m, k) ∧ call_at p' c o h s' ∧ in_flight s' = true ∧
    ∀ c0 o0 h0 s0, c0 ≠ c → call_at p c0 o0 h0 s0 → call_at p' c0 o0 h0 s0.
Proof.
  intros St. remember (Began c m k) as lab eqn:El. destruct St; try done; try (by unfold wrote in El; destruct (out.2)).
  unfold began in El. destruct (out.2) eqn:B; [|done]. injection El as -> <- <-. subst out. unfold resume_call in B |- *.
  cbn [c_options c_hash] in B |- *. repeat (case_match; try done). cbn [fst]. split; [done|].
  exists o, h, (Executing {| rt_inputHash := h; rt_createdAt := now p |} false). split_and!; [done|done| |done|].
  - unfold call_at, with_inflight. cbn [calls]. apply call_at_with_state. left. eauto.
  - intros c1 o1 h1 s1 Hne H'. apply call_at_with_state. by right.
Qed.

(** C15. Within one life of the process, the calls that share an in-flight map (one [WeakMap] instance and one
    store in it) run a command at most once at a time under its key.  When a second call of the map
    begins under a key, every earlier call of the map that began there has returned its outcome; two calls
    in flight in one map under one key are the same call; and a call that joins another waits for one of its
    own map, with its own key and its own input hash.  Calls of different maps are not kept apart:
    [two_maps_run_together] is such a run. *)
Theorem one_execution_at_a_time l0 t0 before c m k between c' p :
  run (idle l0 t0) (before ++ Began c m k :: between ++ [Began c' m k]) p → Restarted ∉ between →
  (∃ o h out, call_at p c o h (Returned out) ∧ map_of o = m ∧ key_of o = k) ∧
  (∀ c1 o1 h1 s1 c2 o2 h2 s2, call_at p c1 o1 h1 s1 → call_at p c2 o2 h2 s2 → in_flight s1 = true → in_flight s2 = true →
     map_of o1 = map_of o2 → key_of o1 = key_of o2 → c1 = c2) ∧
  (∀ c1 o1 h1 w, call_at p c1 o1 h1 (Joined w) → ∃ o2 s2, call_at p w o2 h1 s2 ∧ map_of o2 = map_of o1 ∧ key_of o2 = key_of o1).
Proof.
  intros (p1 & H1 & Hr)%run_app Hn. inversion Hr as [|? ? p2 ? ? St Hr']; subst. apply run_app in Hr' as (p3 & H3 & Hlast).
  inversion Hlast as [|? ? p4 ? ? St' Hnil]; subst. inversion Hnil; subst.
  pose proof (run_inv _ _ _ H1 (idle_inv _ _)) as I1. pose proof (inv_step _ _ _ I1 St) as I2.
  pose proof (run_inv _ _ _ H3 I2) as I3. pose proof (inv_step _ _ _ I3 St') as I4. split_and!.
  - destruct (began_step _ _ _ _ _ St) as (_ & o & h & s & _ & Hk & Hc & F & _).
    destruct (run_begun c (m, k) _ _ _ H3) as (o3 & h3 & s3 & Hc3 & Hk3 & F3); [exists o, h, s; by rewrite F|done|].
    destruct (began_step _ _ _ _ _ St') as (M & o4 & h4 & s4 & Hw & _ & _ & _ & Hother).
    destruct (in_flight s3) eqn:F3'.
    + pose proof (inv_call _ I3 _ _ _ _ Hc3 F3') as M'. congruence.
    + destruct s3 as [| | | | | |out]; try done. injection Hk3 as Hm3 Hk3. exists o3, h3, out. split_and!; [|done|done]. apply Hother; [|done].
      intros ->. by destruct (call_at_fun _ _ _ _ _ _ _ _ Hw Hc3) as (_ & _ & [=]).
  - intros c1 o1 h1 s1 c2 o2 h2 s2 Hc1 Hc2 F1 F2 Em Ek. eapply (only_call p c2 o2 h2 s2 c1); [done..|]. unfold slot_of. congruence.
  - intros c1 o1 h1 w Hc1. destruct (inv_join _ I4 _ _ _ _ _ Hc1 eq_refl) as (o2 & s2 & H2 & E & _).
    exists o2, s2. split_and!; [done|exact (f_equal fst E)|exact (f_equal snd E)].
Qed.
End Machine.

(** ** Runs over a Workspace database *)

Module CommandDemo.
Definition workspace : jsstr := js "ws_01890f3e-0000-7000-8000-000000000002".
Definition options_in (instance : nat) : IdempotentCommandOptions (T := jsstr) := {|
  op_store := 0; op_inflightCommands := instance; op_command := js "workspace.rename"; op_requestId := js "0190f4c8-0000-4000-8000-000000000001";
  op_scope := [(js "workspaceId", workspace)]; op_input := JObj [(js "name", JStr (js "Lab"))];
  op_responseKind := js "workspace"; op_conversationMetadata := None; op_responseId := id; op_transaction := None;
  op_hasDb := true; op_asyncExecute := false; op_userReceiptDb := false; op_hasDataRoot := true |}.
Definition options : IdempotentCommandOptions (T := jsstr) := options_in 0.
Definition demo_map : nat * nat := (0%nat, 0%nat).
Definition digest (s : jsstr) : jsstr := s.
Definition hash : jsstr := match preflight digest options with Ok h => h | Err _ => [] end.
Definition db : CommandRequestDb := {| cd_owner := OwnerWorkspace workspace; cd_writer := false; cd_rows := [] |}.
#[local] Instance ledger_of_db : ReceiptLedger CommandRequestDb := db_ledger (λ _ _, false).
Definition call (s : CallState (T := jsstr)) : Call := {| c_options := options; c_hash := hash; c_state := s |}.
Definition receipt : IdempotentCommandReceipt := {| rt_inputHash := hash; rt_createdAt := 1000 |}.

#[local] Notation DemoProcess := (Process (T := jsstr) (L := CommandRequestDb)).
Definition p0 : DemoProcess := idle db 1000.
Definition p1 : DemoProcess := start_call digest 0 options p0.
Definition p2 : DemoProcess := (resume_call 0 (call Waiting) p1).1.
Definition p3 : DemoProcess := with_state 0 (Produced receipt false workspace) p2.
Definition p4 : DemoProcess := (record_call 0 options receipt workspace p3).1.
Definition p5 : DemoProcess := settle_call 0 options (Ok workspace) p4.
Definition p6 : DemoProcess := start_call digest 1 options p5.
Definition p7 : DemoProcess := (resume_call 1 (call Waiting) p6).1.
Definition written : CommandRequestRecord :=
  receipt_record options receipt {| nr_kind := js "workspace"; nr_id := workspace; nr_metadata := None |}.

Lemma began_label : began 0 options (resume_call 0 (call Waiting) p1).2 = Began 0 demo_map (key_of options).
Proof. vm_compute. reflexivity. Qed.
Lemma wrote_label : wrote 0 (record_call 0 options receipt workspace p3).2 = Wrote 0 written.
Proof. vm_compute. reflexivity. Qed.
Lemma replay_label : began 1 options (resume_call 1 (call Waiting) p6).2 = Silent.
Proof. vm_compute. reflexivity. Qed.

Lemma written_run : run digest p0 ([Silent; Began 0 demo_map (key_of options); Silent] ++ Wrote 0 written :: [Silent; Silent; Silent]) p7.
Proof.
  rewrite <-began_label, <-wrote_label.
  apply (run_cons _ _ _ p1); [apply s_start; vm_compute; reflexivity|].
  apply (run_cons _ _ _ p2); [apply (s_resume _ 0 options hash); vm_compute; reflexivity|].
  apply (run_cons _ _ _ p3); [apply (s_produce _ 0 options hash); vm_compute; reflexivity|].
  apply (run_cons _ _ _ p4); [apply (s_record _ 0 options hash receipt false); vm_compute; reflexivity|].
  apply (run_cons _ _ _ p5); [apply (s_settle _ 0 options hash); vm_compute; reflexivity|].
  apply (run_cons _ _ _ p6); [apply s_start; vm_compute; reflexivity|].
  apply (run_cons _ _ _ p7); [rewrite <-replay_label; apply (s_resume _ 1 options hash); vm_compute; reflexivity|]. apply run_nil.
Qed.

(** The second call finds the receipt and replays it. *)
Lemma retained_receipt_prevents_execution_witness :
  ledger_holds (ledger p7) (rc_key written) written ∧ call_at p7 1 options hash (Replaying written).
Proof.
  split.
  - refine (proj1 (proj1 (retained_receipt_prevents_execution digest db 1000 _ 0 written _ p7 written_run _) _)); [vm_compute; reflexivity|].
    exists demo_map. intros c' m' Hin. repeat (apply elem_of_cons in Hin as [[=]|Hin]; [done..|]). by apply elem_of_nil in Hin.
  - vm_compute. reflexivity.
Defined.

Definition f3 : DemoProcess := with_state 0 (Settled (Err ReceiptSchemaRefusal)) p2.
Definition f4 : DemoProcess := settle_call 0 options (Err ReceiptSchemaRefusal) f3.
Definition f5 : DemoProcess := start_call digest 1 options f4.
Definition f6 : DemoProcess := (resume_call 1 (call Waiting) f5).1.

Lemma retry_label : began 1 options (resume_call 1 (call Waiting) f5).2 = Began 1 demo_map (key_of options).
Proof. vm_compute. reflexivity. Qed.

Lemma retry_run : run digest p0 ([Silent] ++ Began 0 demo_map (key_of options) :: [Silent; Silent; Silent] ++ [Began 1 demo_map (key_of options)]) f6.
Proof.
  rewrite <-began_label, <-retry_label.
  apply (run_cons _ _ _ p1); [apply s_start; vm_compute; reflexivity|].
  apply (run_cons _ _ _ p2); [apply (s_resume _ 0 options hash); vm_compute; reflexivity|].
  apply (run_cons _ _ _ f3); [apply (s_fail _ 0 options hash receipt false); vm_compute; reflexivity|].
  apply (run_cons _ _ _ f4); [apply (s_settle _ 0 options hash); vm_compute; reflexivity|].
  apply (run_cons _ _ _ f5); [apply s_start; vm_compute; reflexivity|].
  apply (run_cons _ _ _ f6); [apply (s_resume _ 1 options hash); vm_compute; reflexivity|]. apply run_nil.
Qed.

(** A call that failed is retried: the second one executes after the first has returned. *)
Lemma one_execution_at_a_time_witness : ∃ o h out, call_at f6 0 o h (Returned out) ∧ map_of o = demo_map ∧ key_of o = key_of options.
Proof.
  refine (proj1 (one_execution_at_a_time digest db 1000 _ 0 demo_map _ _ 1 f6 retry_run _)).
  intros Hin. repeat (apply elem_of_cons in Hin as [Hin|Hin]; [discriminate Hin|]). by apply elem_of_nil in Hin.
Defined.

Definition other : Call := {| c_options := options_in 1; c_hash := hash; c_state := Waiting |}.
Definition g3 : DemoProcess := start_call digest 1 (options_in 1) p2.
Definition g4 : DemoProcess := (resume_call 1 other g3).1.

Lemma other_label : began 1 (options_in 1) (resume_call 1 other g3).2 = Began 1 (1%nat, 0%nat) (key_of options).
Proof. vm_compute. reflexivity. Qed.

(** Two [WeakMap] instances let the same command in: both calls execute. *)
Example two_maps_run_together :
  run digest p0 [Silent; Began 0 demo_map (key_of options); Silent; Began 1 (1%nat, 0%nat) (key_of options)] g4 ∧
  call_at g4 0 options hash (Executing receipt false) ∧ call_at g4 1 (options_in 1) hash (Executing receipt false).
Proof.
  split; [|split; vm_compute; reflexivity]. rewrite <-began_label, <-other_label.
  apply (run_cons _ _ _ p1); [apply s_start; vm_compute; reflexivity|].
  apply (run_cons _ _ _ p2); [apply (s_resume _ 0 options hash); vm_compute; reflexivity|].
  apply (run_cons _ _ _ g3); [apply s_start; vm_compute; reflexivity|].
  apply (run_cons _ _ _ g4); [apply (s_resume _ 1 (options_in 1) hash); vm_compute; reflexivity|]. apply run_nil.
Qed.
End CommandDemo.
