(* ===== verification/ExecutionAttempts.v ===== *)
(** * Execution attempts (nanocore/src/runtime/execution-attempt-records.ts,
    nanocore/src/runtime/execution-attempts.ts, nanocore/src/runtime/execution-backend.ts)

    One attempt owns the execution of one admitted queue entry, from its acquisition until a proved
    release.  Current authority ([currentSchedulerAdmissionWorkspaceAuthority]) depends on the rest of
    the Core database: it is the argument [authorized] of the operations that ask for it.  The clock, a
    new attempt id and the digest of node:crypto are arguments too. *)

From S2P Require Import Prelude JsValue EntityId CommandInput SchedulerStore SchedulerRecords.

Local Open Scope string_scope.
Local Open Scope list_scope.
Local Open Scope Z_scope.

Definition EXECUTION_ATTEMPT_BUDGET_MS : Z := 7200000.

(** ** Backend values *)

Record ExecutionBackendCorrelation := {
  cr_attemptId : jsstr;
  cr_backendId : jsstr;
  cr_bindingRef : option jsstr;
  cr_inputRef : option jsstr;
  cr_operationId : jsstr;
}.

Inductive ExecutionState := ExecPending | ExecRunning | ExecTerminal | ExecUnknown.

Record ExecutionBackendObservation := {
  ob_correlation : ExecutionBackendCorrelation;
  ob_disposition : SchedulerExecutionDisposition;
  ob_execution : ExecutionState;
  ob_fenceRef : option jsstr;
  ob_outcomeRef : option jsstr;
}.

Record ExecutionReleaseProof := {
  terminalHandoff : bool;
  output : bool;
  evidence : bool;
  outsideWorkspaceCollection : bool;
  integrationDrain : bool;
  routesRevoked : bool;
}.

Definition correlation_json (c : ExecutionBackendCorrelation) : jsval :=
  JObj [(js "attemptId", JStr (cr_attemptId c)); (js "backendId", JStr (cr_backendId c));
        (js "bindingRef", or_null (cr_bindingRef c)); (js "inputRef", or_null (cr_inputRef c));
        (js "operationId", JStr (cr_operationId c))].

(** ** Rows and statements *)

Definition refuse {A} (message : string) : result SchedulerError A := Err (ExecutionAttemptRefusal (js message)).

Definition with_session (s : option jsstr) (t : Z) (r : AttemptRow) : AttemptRow :=
  {| owner := owner r; agentSessionId := s; inputRef := inputRef r; bindingRef := bindingRef r; phase := phase r;
     disposition := disposition r; operationId := operationId r; deadline := deadline r; terminalCause := terminalCause r;
     outcomeRef := outcomeRef r; fenceRef := fenceRef r; updatedAt := t; native := native r |}.
Definition with_input (i b : option jsstr) (t : Z) (r : AttemptRow) : AttemptRow :=
  {| owner := owner r; agentSessionId := agentSessionId r; inputRef := i; bindingRef := b; phase := phase r;
     disposition := disposition r; operationId := operationId r; deadline := deadline r; terminalCause := terminalCause r;
     outcomeRef := outcomeRef r; fenceRef := fenceRef r; updatedAt := t; native := native r |}.
Definition with_operation (o : option jsstr) (d : SchedulerExecutionDisposition) (dl : option Z) (t : Z) (r : AttemptRow) : AttemptRow :=
  {| owner := owner r; agentSessionId := agentSessionId r; inputRef := inputRef r; bindingRef := bindingRef r; phase := phase r;
     disposition := d; operationId := o; deadline := dl; terminalCause := terminalCause r;
     outcomeRef := outcomeRef r; fenceRef := fenceRef r; updatedAt := t; native := native r |}.
Definition with_closure (p : SchedulerExecutionAttemptPhase) (d : SchedulerExecutionDisposition)
    (cause outcome fence : option jsstr) (t : Z) (r : AttemptRow) : AttemptRow :=
  {| owner := owner r; agentSessionId := agentSessionId r; inputRef := inputRef r; bindingRef := bindingRef r; phase := p;
     disposition := d; operationId := operationId r; deadline := deadline r; terminalCause := cause;
     outcomeRef := outcome; fenceRef := fence; updatedAt := t; native := native r |}.

(** [COALESCE(column, value)] *)
Definition coalesce (column value : option jsstr) : option jsstr := match column with Some s => Some s | None => value end.

(** An UPDATE of the attempt with this id. *)
Definition set_attempt (id : jsstr) (p : AttemptRow → bool) (f : AttemptRow → AttemptRow) (db : CoreDb)
    : result SchedulerError (CoreDb * nat) :=
  let q r := bool_decide (at_id r = id) && p r in
  db' ← store_attempts (update_where q f (attempts db)) db;
  Ok (db', changes q (attempts db)).

(** An UPDATE that must have found its row, and the row it leaves. *)
Definition commit (id : jsstr) (p : AttemptRow → bool) (f : AttemptRow → AttemptRow) (lost : string) (db : CoreDb)
    : result SchedulerError (CoreDb * AttemptRow) :=
  out ← set_attempt id p f db;
  if bool_decide (out.2 ≠ 1%nat) then refuse lost
  else a ← requireSchedulerExecutionAttempt out.1 id; Ok (out.1, a).

Definition is_open (r : AttemptRow) : bool := bool_decide (phase r = Open).

(** ** Operations *)

Definition new_attempt (e : AdmissionRow) (id preparation : jsstr) (timestamp : Z) : AttemptRow := {|
  owner := {| ao_schemaVersion := writeRetainedV1; attemptId := id; ao_queueEntryId := queueEntryId e;
              ao_backendId := backendId e; ao_workspaceId := workspaceId e; ao_threadId := threadId e;
              ao_turnId := turnId e; preparationInputJson := preparation; createdAt := timestamp |};
  agentSessionId := None; inputRef := None; bindingRef := None; phase := Open; disposition := NotAccepted;
  operationId := None; deadline := None; terminalCause := None; outcomeRef := None; fenceRef := None;
  updatedAt := timestamp; native := no_proof |}.

Section Operations.
Context (authorized : SchedulerAdmissionEntryRecord → bool).

Definition createSchedulerExecutionAttempt (q expectedBackend id preparation : jsstr) (timestamp : Z) (db : CoreDb)
    : result SchedulerError (CoreDb * AttemptRow) :=
  entry ← requireSchedulerAdmissionEntry db q None;
  if bool_decide (status (row entry) ≠ Queued) || bool_decide (backendId (row entry) ≠ expectedBackend) ||
     negb (authorized entry)
  then refuse "The exact queued admission is no longer dispatchable."
  else
    db ← store_attempts (attempts db ++ [new_attempt (row entry) id preparation timestamp]) db;
    let '(db, n) := set_entry q is_queued (λ r, set_status AdmittedEntry (denialReason r) r) db in
    if bool_decide (n ≠ 1%nat) then refuse "Admission ownership changed before preparation."
    else a ← requireSchedulerExecutionAttempt db id; Ok (db, a).

Definition bindSchedulerExecutionAttemptSession (id session : jsstr) (timestamp : Z) (db : CoreDb)
    : result SchedulerError (CoreDb * AttemptRow) :=
  a ← requireSchedulerExecutionAttempt db id;
  if bool_decide (phase a ≠ Open) ||
     (bool_decide (agentSessionId a ≠ None) && bool_decide (agentSessionId a ≠ Some session))
  then refuse "Attempt AgentSession ownership changed."
  else commit (at_id a) (λ r, is_open r && bool_decide (agentSessionId r = agentSessionId a))
         (with_session (Some session) timestamp) "Attempt lost its AgentSession binding race." db.

(** A reference already set that differs: JavaScript's [a && a !== b]. *)
Definition differs (have : option jsstr) (want : jsstr) : bool :=
  match have with Some s => nonempty s && bool_decide (s ≠ want) | None => false end.

Definition truthy (o : option jsstr) : bool := match o with Some s => nonempty s | None => false end.

Definition finalizeSchedulerExecutionAttemptInput (id input binding : jsstr) (timestamp : Z) (db : CoreDb)
    : result SchedulerError (CoreDb * AttemptRow) :=
  a ← requireSchedulerExecutionAttempt db id;
  if bool_decide (phase a ≠ Open) || negb (truthy (agentSessionId a)) || differs (inputRef a) input ||
     differs (bindingRef a) binding
  then refuse "Finalized attempt input contradicts its owner."
  else commit (at_id a)
         (λ r, is_open r && bool_decide (inputRef r = inputRef a) && bool_decide (bindingRef r = bindingRef a))
         (with_input (Some input) (Some binding) timestamp) "Finalized input lost its attempt ownership race." db.

Definition recordSchedulerExecutionOperation (id operation : jsstr) (submission : bool) (timestamp : Z) (db : CoreDb)
    : result SchedulerError (CoreDb * AttemptRow) :=
  if negb (nonempty operation) then refuse "Backend operation identity is required before an effect."
  else
    a ← requireSchedulerExecutionAttempt db id;
    entry ← requireSchedulerAdmissionEntry db (ao_queueEntryId (owner a)) None;
    if bool_decide (phase a ≠ Open) || negb (authorized entry)
    then refuse "Execution authority was revoked before the operation."
    else if submission && (negb (truthy (agentSessionId a)) || negb (truthy (inputRef a)) || negb (truthy (bindingRef a)))
    then refuse "Submission has no finalized package or assigned binding."
    else if bool_decide (disposition a = Unknown)
    then refuse "An unknown operation must be inspected or fenced before another effect."
    else if submission && bool_decide (deadline a ≠ None)
    then refuse "This attempt already owns a possible submission."
    else
      commit (at_id a)
        (λ r, is_open r && bool_decide (operationId r = operationId a) && bool_decide (deadline r = deadline a))
        (with_operation (Some operation) Unknown
           (if submission then Some (timestamp + EXECUTION_ATTEMPT_BUDGET_MS) else deadline a) timestamp)
        "Operation intent lost its attempt ownership race." db.

Definition schedulerExecutionCorrelation (a : AttemptRow) : result SchedulerError ExecutionBackendCorrelation :=
  match operationId a with
  | Some o =>
    if nonempty o then
      Ok {| cr_attemptId := at_id a; cr_backendId := ao_backendId (owner a); cr_bindingRef := bindingRef a;
            cr_inputRef := inputRef a; cr_operationId := o |}
    else refuse "Attempt has no outstanding operation identity."
  | None => refuse "Attempt has no outstanding operation identity."
  end.

(** Two references that are both present and different. *)
Definition contradicts (have seen : option jsstr) : bool :=
  match have, seen with Some a, Some b => bool_decide (a ≠ b) | _, _ => false end.

Definition stale_observation (a : AttemptRow) (o : ExecutionBackendObservation) : bool :=
  bool_decide (ao_backendId (owner a) ≠ cr_backendId (ob_correlation o)) ||
  bool_decide (bindingRef a ≠ cr_bindingRef (ob_correlation o)) ||
  bool_decide (inputRef a ≠ cr_inputRef (ob_correlation o)) ||
  bool_decide (operationId a ≠ Some (cr_operationId (ob_correlation o))) ||
  negb (nullable nonempty (ob_outcomeRef o)) || negb (nullable nonempty (ob_fenceRef o)) ||
  contradicts (outcomeRef a) (ob_outcomeRef o) || contradicts (fenceRef a) (ob_fenceRef o).

(** Uncertainty does not erase definite acceptance. *)
Definition merged_disposition (have seen : SchedulerExecutionDisposition) : SchedulerExecutionDisposition :=
  match have, seen with Accepted, Unknown => Accepted | _, _ => seen end.

Definition acceptSchedulerExecutionObservation (o : option ExecutionBackendObservation) (now : Z) (db : CoreDb)
    : result SchedulerError (CoreDb * option AttemptRow) :=
  match o with
  | None => Ok (db, None)
  | Some o =>
    match get_attempt db (cr_attemptId (ob_correlation o)) with
    | None => Ok (db, None)
    | Some found =>
      a ← decode_attempt found;
      if stale_observation a o then Ok (db, None)
      else
        let d := merged_disposition (disposition a) (ob_disposition o) in
        if bool_decide (disposition a = Accepted) && bool_decide (d = NotAccepted) then Ok (db, None)
        else if bool_decide (phase a = Closed) then Ok (db, Some a)
        else
          out ← set_attempt (at_id a) (λ r, bool_decide (phase r = phase a) && bool_decide (operationId r = operationId a))
            (λ r, with_closure (phase r) d (terminalCause r) (coalesce (outcomeRef r) (ob_outcomeRef o))
                    (coalesce (fenceRef r) (ob_fenceRef o)) now r) db;
          a ← requireSchedulerExecutionAttempt out.1 (at_id a);
          Ok (out.1, Some a)
    end
  end.

Definition markSchedulerExecutionAttemptClosing (id cause : jsstr) (outcome : option jsstr) (timestamp : Z) (db : CoreDb)
    : result SchedulerError (CoreDb * AttemptRow) :=
  _ ← requireSchedulerExecutionAttempt db id;
  out ← set_attempt id is_live
    (λ r, with_closure Closing (disposition r) (coalesce (terminalCause r) (Some cause)) (coalesce (outcomeRef r) outcome)
            (fenceRef r) timestamp r) db;
  a ← requireSchedulerExecutionAttempt out.1 id;
  Ok (out.1, a).

Definition closeSchedulerExecutionAttemptWithoutEffects (id : jsstr) (noOutstandingEffects : bool) (cause : jsstr)
    (requeue : bool) (timestamp : Z) (db : CoreDb) : result SchedulerError (CoreDb * AttemptRow) :=
  a ← requireSchedulerExecutionAttempt db id;
  if negb noOutstandingEffects then refuse "Attempt closure requires definite whole-attempt no-effect proof."
  else if bool_decide (phase a = Closed) then Ok (db, a)
  else if bool_decide (disposition a = Accepted) then refuse "Accepted effects require the proved release fence."
  else
    _ ← (if requeue then requireSchedulerAdmissionEntry db (ao_queueEntryId (owner a)) None ≫= λ _, Ok () else Ok ());
    out ← set_attempt (at_id a) is_live
      (λ r, with_closure Closed NotAccepted (coalesce (terminalCause r) (Some cause)) (outcomeRef r) (fenceRef r) timestamp r) db;
    let db := if requeue
              then (set_entry (ao_queueEntryId (owner a)) (λ r, bool_decide (status r = AdmittedEntry))
                      (λ r, set_status Queued (denialReason r) r) out.1).1
              else out.1 in
    a ← requireSchedulerExecutionAttempt db (at_id a);
    Ok (db, a).

Definition proof_complete (p : ExecutionReleaseProof) : bool :=
  terminalHandoff p && output p && evidence p && outsideWorkspaceCollection p && integrationDrain p && routesRevoked p.

Section Fence.
Context (sha256 : jsstr → jsstr).

Definition closeSchedulerExecutionAttemptWithFence (c : ExecutionBackendCorrelation) (proof : ExecutionReleaseProof)
    (fence : jsstr) (timestamp : Z) (db : CoreDb) : result SchedulerError (CoreDb * AttemptRow) :=
  a ← requireSchedulerExecutionAttempt db (cr_attemptId c);
  own ← schedulerExecutionCorrelation a;
  if bool_decide (commandInputHash sha256 (correlation_json own) ≠ commandInputHash sha256 (correlation_json c)) ||
     negb (nonempty fence) || (bool_decide (fenceRef a ≠ None) && bool_decide (fenceRef a ≠ Some fence)) ||
     negb (proof_complete proof)
  then refuse "Attempt release has unresolved handoff or fencing proof."
  else if bool_decide (phase a = Closed) then Ok (db, a)
  else if bool_decide (phase a ≠ Closing) then refuse "Attempt release has no revoked owner."
  else commit (at_id a) (λ r, bool_decide (phase r = Closing) && bool_decide (operationId r = operationId a))
         (λ r, with_closure Closed (disposition r) (terminalCause r) (outcomeRef r) (Some fence) timestamp r)
         "Release proof lost its attempt ownership race." db.
End Fence.
End Operations.

(** ** Listing *)

Definition of_turn (ws th tu : jsstr) (a : AttemptRow) : bool :=
  bool_decide (at_thread a = (ws, th)) && bool_decide (at_turn a = tu).

(** Rows with their rowids. *)
Definition with_rowid (rows : list AttemptRow) : list (nat * AttemptRow) := imap pair rows.

Definition after_rowid (after : option nat) (r : nat * AttemptRow) : bool :=
  match after with Some n => (n <? r.1)%nat | None => true end.

Fixpoint attempt_pages (fuel : nat) (db : CoreDb) (ws th tu : jsstr) (after : option nat)
    : result SchedulerError (list (list AttemptRow)) :=
  match fuel with
  | O => Ok []
  | S fuel =>
    let rows := take PAGE_LIMIT (filterb (after_rowid after) (filterb (of_turn ws th tu ∘ snd) (with_rowid (attempts db)))) in
    match List.rev rows with
    | [] => Ok []
    | final :: _ =>
      page ← mapM (decode_attempt ∘ snd) rows;
      rest ← attempt_pages fuel db ws th tu (Some final.1);
      Ok (page :: rest)
    end
  end.

Definition readSchedulerExecutionAttemptPagesForTurn (db : CoreDb) (ws th tu : jsstr)
    : result SchedulerError (list (list AttemptRow)) :=
  attempt_pages (S (length (attempts db))) db ws th tu None.

Definition listSchedulerExecutionAttemptsForTurn (db : CoreDb) (ws th tu : jsstr) : result SchedulerError (list AttemptRow) :=
  pages ← readSchedulerExecutionAttemptPagesForTurn db ws th tu; Ok (List.concat pages).

Definition listSchedulerExecutionAttemptsByTurnId (db : CoreDb) (tu : jsstr) : result SchedulerError (list AttemptRow) :=
  mapM decode_attempt (filterb (λ a, bool_decide (at_turn a = tu)) (attempts db)).

Definition listOpenSchedulerExecutionAttempts (db : CoreDb) : result SchedulerError (list AttemptRow) :=
  mapM decode_attempt (filterb is_live (attempts db)).

(** ** Terminal Turns *)

Definition terminal_statuses : list jsstr := js <$> ["completed"; "interrupted"; "cancelled"; "failed"].

(** Each close-out is its own command: a failure leaves the ones before it. *)
Fixpoint mark_all (tu st : jsstr) (timestamp : Z) (l : list AttemptRow) (db : CoreDb) : CoreDb * result SchedulerError unit :=
  match l with
  | [] => (db, Ok ())
  | a :: l =>
    if bool_decide (phase a = Closed) then mark_all tu st timestamp l db
    else match markSchedulerExecutionAttemptClosing (at_id a) (js "turn-" ++ st)
                 (Some (js "turn:" ++ tu ++ js ":" ++ st)) timestamp db with
         | Ok (db, _) => mark_all tu st timestamp l db
         | Err e => (db, Err e)
         end
  end.

Definition markSchedulerAttemptForTerminalTurn (ws th tu st : jsstr) (timestamp : Z) (db : CoreDb)
    : CoreDb * result SchedulerError unit :=
  if negb (includes terminal_statuses st) then (db, Ok ())
  else match listSchedulerExecutionAttemptsForTurn db ws th tu with
       | Ok l => mark_all tu st timestamp l db
       | Err e => (db, Err e)
       end.

(** ** The lifecycle of a row *)

Definition phase_rank (p : SchedulerExecutionAttemptPhase) : Z := match p with Open => 0 | Closing => 1 | Closed => 2 end.

(** What a command may do to the liveness and credential columns: a worker sequence never goes back, and the
    startup deadline, the process key and the route tokens are written once. *)
Record native_history (p q : NativeProof) : Prop := {
  nv_sequence : match lastWorkerSequence p with
                | Some s => match lastWorkerSequence q with Some s' => s <= s' | None => False end
                | None => True
                end;
  nv_timeout : heartbeatTimeoutMs q = heartbeatTimeoutMs p;
  nv_startup : startupDeadline p ≠ None → startupDeadline q = startupDeadline p;
  nv_key : workerProcessKeyHash p ≠ None → workerProcessKeyHash q = workerProcessKeyHash p;
  nv_control : workerControlTokenHash p ≠ None → workerControlTokenHash q = workerControlTokenHash p;
  nv_inference : workerInferenceTokenHash p ≠ None → workerInferenceTokenHash q = workerInferenceTokenHash p;
  nv_capability : workerCapabilityTokenHash p ≠ None → workerCapabilityTokenHash q = workerCapabilityTokenHash p;
}.

Lemma native_same p : native_history p p.
Proof. constructor; try done. destruct (lastWorkerSequence p); [lia|done]. Qed.
#[export] Hint Resolve native_same : openkit.

(** What one command may do to an attempt. *)
Record lifecycle (a b : AttemptRow) : Prop := {
  lc_owner : owner b = owner a;
  lc_closed : phase a = Closed → b = a;
  lc_forward : phase_rank (phase a) <= phase_rank (phase b);
  lc_session : agentSessionId a ≠ None → agentSessionId b = agentSessionId a;
  lc_input : inputRef a ≠ None → inputRef b = inputRef a;
  lc_binding : bindingRef a ≠ None → bindingRef b = bindingRef a;
  lc_deadline : deadline a ≠ None → deadline b = deadline a;
  lc_cause : terminalCause a ≠ None → terminalCause b = terminalCause a;
  lc_outcome : outcomeRef a ≠ None → outcomeRef b = outcomeRef a;
  lc_fence : fenceRef a ≠ None → fenceRef b = fenceRef a;
  (** A revoked attempt gains no session, input, operation or deadline. *)
  lc_revoked : phase a ≠ Open →
    agentSessionId b = agentSessionId a ∧ inputRef b = inputRef a ∧ bindingRef b = bindingRef a ∧
    operationId b = operationId a ∧ deadline b = deadline a;
  (** A new operation replaces only one whose outcome is known. *)
  lc_operation : operationId b = operationId a ∨
    (phase a = Open ∧ phase b = Open ∧ disposition a ≠ Unknown ∧ disposition b = Unknown);
  lc_accepted : disposition a = Accepted → disposition b ≠ NotAccepted;
  lc_revocation : phase b ≠ Open → phase a ≠ Open ∨ terminalCause b ≠ None;
  lc_unrevoked : phase b = Open → terminalCause b = terminalCause a;
  (** Exclusion is released by a no-effect proof or by a fence. *)
  lc_release : phase b = Closed → phase a ≠ Closed →
    (disposition a ≠ Accepted ∧ disposition b = NotAccepted) ∨
    (phase a = Closing ∧ is_Some (operationId a) ∧ is_Some (fenceRef b) ∧ disposition b = disposition a);
  (** An operation once recorded stays recorded, and without one nothing is accepted. *)
  lc_noop : operationId b = None → operationId a = None ∧ (disposition a = NotAccepted → disposition b = NotAccepted);
  lc_native : native_history (native a) (native b);
}.

Lemma lifecycle_refl a : lifecycle a a.
Proof. constructor; first [done|lia|congruence|by left|by right|apply native_same|auto]. Qed.
#[export] Hint Resolve lifecycle_refl : openkit.

Definition fresh_attempt (a : AttemptRow) : Prop :=
  phase a = Open ∧ disposition a = NotAccepted ∧ operationId a = None ∧ deadline a = None ∧ terminalCause a = None ∧
  agentSessionId a = None ∧ inputRef a = None ∧ bindingRef a = None ∧ outcomeRef a = None ∧ fenceRef a = None.

(** Rows are never removed or reordered; what is added is fresh. *)
Definition evolves (db db' : CoreDb) : Prop :=
  ∃ l new, attempts db' = l ++ new ∧ Forall2 lifecycle (attempts db) l ∧ Forall fresh_attempt new.

Lemma evolves_same_db db : evolves db db.
Proof. exists (attempts db), []. rewrite app_nil_r. split_and!; [done| |done]. apply Forall_Forall2_diag, Forall_true. auto with openkit. Qed.

Lemma evolves_same db db' : attempts db' = attempts db → evolves db db'.
Proof. destruct (evolves_same_db db) as (l & new & H). intros E. exists l, new. by rewrite E. Qed.

Lemma get_attempt_Some db id a : get_attempt db id = Some a → a ∈ attempts db ∧ at_id a = id.
Proof. intros [? H]%find_Some. by bool_to_prop. Qed.

Lemma get_attempt_unique db a : attempts_unique (attempts db) → a ∈ attempts db → get_attempt db (at_id a) = Some a.
Proof.
  intros Hu Ha. unfold get_attempt. destruct (find _ _) as [b|] eqn:F.
  - apply find_Some in F as [Hb E]. cbv beta in E. bool_to_prop. f_equal. by eapply NoDup_fmap_elem; [apply Hu|..].
  - pose proof (proj1 (find_None _ _) F a Ha) as N. cbv beta in N. bool_to_prop. done.
Qed.

Lemma require_attempt db id a :
  requireSchedulerExecutionAttempt db id = Ok a →
  get_attempt db id = Some a ∧ SchedulerExecutionAttemptSchema a = true ∧ at_id a = id ∧ a ∈ attempts db.
Proof.
  unfold requireSchedulerExecutionAttempt, decode_attempt, readRetainedV1.
  destruct (get_attempt db id) as [r|] eqn:G; [|done]. case_bool_decide as Hv; [|done].
  destruct (SchedulerExecutionAttemptSchema r) eqn:S; [|done]. intros [= <-].
  destruct (get_attempt_Some _ _ _ G). done.
Qed.

(** What an UPDATE by id leaves. *)
Lemma set_attempt_spec id p f db db' n :
  set_attempt id p f db = Ok (db', n) →
  attempts_unique (attempts db') ∧ entries db' = entries db ∧ occurrences db' = occurrences db ∧
  attempts db' = update_where (λ r, bool_decide (at_id r = id) && p r) f (attempts db) ∧
  n = changes (λ r, bool_decide (at_id r = id) && p r) (attempts db).
Proof.
  unfold set_attempt, store_attempts. intros (db1 & H & [= <- <-])%bind_Ok.
  destruct (decide _) as [Hu|]; [|done]. by injection H as <-.
Qed.

Lemma Forall2_update_where {A} (R : A → A → Prop) (p : A → bool) (f : A → A) (l : list A) :
  (∀ r, r ∈ l → R r (if p r then f r else r)) → Forall2 R l (update_where p f l).
Proof.
  induction l as [|r l IH]; intros H; [constructor|]. unfold update_where. rewrite fmap_cons.
  constructor; [apply H; left|]. apply IH. intros r' Hr'. apply H. by right.
Qed.

(** ** The invariant of the two tables *)

(** The exclusion a live attempt holds belongs to an admitted entry with its lineage. *)
Definition linked (db : CoreDb) : Prop :=
  ∀ a, a ∈ attempts db → is_live a = true → ∃ r, r ∈ entries db ∧ owns_attempt a r = true ∧ status r = AdmittedEntry.

Record db_ok (db : CoreDb) : Prop := {
  ok_attempts : attempts_unique (attempts db);
  ok_entries : entries_ok db;
  ok_linked : linked db;
  ok_causes : ∀ a, a ∈ attempts db → phase a = Open ↔ terminalCause a = None;
  ok_noop : ∀ a, a ∈ attempts db → operationId a = None → disposition a = NotAccepted;
}.

(** A command that only moves attempts. *)
Record advances (db db' : CoreDb) : Prop := {
  adv_rows : Forall2 lifecycle (attempts db) (attempts db');
  adv_unique : attempts_unique (attempts db');
  adv_entries : entries db' = entries db;
  adv_occurrences : occurrences db' = occurrences db;
}.

Lemma advances_evolves db db' : advances db db' → evolves db db'.
Proof. intros H. exists (attempts db'), []. rewrite app_nil_r. split_and!; [done|apply H|done]. Qed.

Lemma advances_refl db : attempts_unique (attempts db) → advances db db.
Proof. intros H. split; [|done..]. apply Forall_Forall2_diag, Forall_true. auto with openkit. Qed.

Lemma lifecycle_live a b : lifecycle a b → is_live b = true → is_live a = true.
Proof.
  intros H. unfold is_live. rewrite !bool_decide_eq_true. intros Hb Ha. apply Hb. by rewrite (lc_closed _ _ H Ha).
Qed.

Lemma owner_owns a b r : owner b = owner a → owns_attempt b r = owns_attempt a r.
Proof. unfold owns_attempt, at_turn. by intros ->. Qed.

Lemma rows_causes l l' :
  Forall2 lifecycle l l' → (∀ a, a ∈ l → phase a = Open ↔ terminalCause a = None) →
  ∀ b, b ∈ l' → phase b = Open ↔ terminalCause b = None.
Proof.
  intros H Hc b Hb. apply list_elem_of_lookup in Hb as [i Hi].
  destruct (Forall2_lookup_r _ _ _ _ _ H Hi) as (a & Ha & L). specialize (Hc a (list_elem_of_lookup_2 _ _ _ Ha)). split.
  - intros P. rewrite (lc_unrevoked _ _ L P). apply Hc. pose proof (lc_forward _ _ L) as F. rewrite P in F.
    by destruct (phase a).
  - intros C. destruct (phase b) eqn:P; [done|exfalso..]; (destruct (lc_revocation _ _ L ltac:(congruence)) as [Ho|]; [|done]);
      (destruct (terminalCause a) eqn:T; [rewrite (lc_cause _ _ L) in C; congruence|]); by apply Ho, Hc.
Qed.

Lemma rows_noop l l' :
  Forall2 lifecycle l l' → (∀ a, a ∈ l → operationId a = None → disposition a = NotAccepted) →
  ∀ b, b ∈ l' → operationId b = None → disposition b = NotAccepted.
Proof.
  intros H Hn b [i Hi]%list_elem_of_lookup O. destruct (Forall2_lookup_r _ _ _ _ _ H Hi) as (a & Ha%list_elem_of_lookup_2 & L).
  destruct (lc_noop _ _ L O) as [Oa D]. auto.
Qed.

Lemma rows_linked l l' (es es' : list AdmissionRow) :
  Forall2 lifecycle l l' →
  (∀ a, a ∈ l → is_live a = true → ∃ r, r ∈ es ∧ owns_attempt a r = true ∧ status r = AdmittedEntry) →
  (∀ a b r, a ∈ l → b ∈ l' → lifecycle a b → is_live b = true → r ∈ es → owns_attempt a r = true → status r = AdmittedEntry → r ∈ es') →
  ∀ b, b ∈ l' → is_live b = true → ∃ r, r ∈ es' ∧ owns_attempt b r = true ∧ status r = AdmittedEntry.
Proof.
  intros H Hl Hk b Hb Hlive. pose proof Hb as [i Hi]%list_elem_of_lookup.
  destruct (Forall2_lookup_r _ _ _ _ _ H Hi) as (a & Ha%list_elem_of_lookup_2 & L).
  destruct (Hl a Ha (lifecycle_live _ _ L Hlive)) as (r & Hr & Ho & Hs). exists r.
  split_and!; [by eapply Hk| |done]. by rewrite (owner_owns a b r (lc_owner _ _ L)).
Qed.

Lemma advances_ok db db' : db_ok db → advances db db' → db_ok db'.
Proof.
  intros [Hu He Hl Hc Hn] [H Hu' Ee _]. split; [done| | | |by eapply rows_noop].
  - destruct He as [He1 He2]. split; by rewrite Ee.
  - unfold linked. rewrite Ee. eapply rows_linked; [done|done|]. by intros.
  - by eapply rows_causes.
Qed.

Section OneRow.
Context (db : CoreDb) (Hu : attempts_unique (attempts db)) (a : AttemptRow) (Ha : a ∈ attempts db).

(** An UPDATE by the id of [a] that passes its guards moves [a] along the lifecycle and no other row. *)
Lemma set_attempt_advances p f db' n :
  set_attempt (at_id a) p f db = Ok (db', n) → (p a = true → lifecycle a (f a)) →
  advances db db'.
Proof.
  intros (Hu' & He & Ho & E & _)%set_attempt_spec Hf. split; [|done..]. rewrite E.
  apply Forall2_update_where. intros r Hr. case_bool_decide as Hid; [|apply lifecycle_refl]. cbn.
  assert (r = a) as -> by (by eapply NoDup_fmap_elem; [apply Hu|..]).
  destruct (p a) eqn:P; [auto|apply lifecycle_refl].
Qed.

Lemma commit_advances p f lost db' b :
  commit (at_id a) p f lost db = Ok (db', b) → (p a = true → lifecycle a (f a)) → advances db db'.
Proof.
  unfold commit. intros ([db1 n] & H & Hc)%bind_Ok Hf. case_bool_decide; [done|].
  apply bind_Ok in Hc as (c & _ & [= <- <-]). by eapply set_attempt_advances.
Qed.
End OneRow.

(** ** The operations move along the lifecycle *)

Ltac lifecycle_step :=
  constructor; cbn; first [done|lia|congruence|by left|by right|apply native_same|by auto|idtac].

Lemma differs_false have want : nullable nonempty have = true → differs have want = false → have ≠ None → Some want = have.
Proof. destruct have as [s|]; [|done]. cbn. intros -> H _. cbn in H. apply bool_decide_eq_false_1, dec_stable in H. congruence. Qed.

Lemma schema_refs a :
  SchedulerExecutionAttemptSchema a = true →
  nullable nonempty (inputRef a) = true ∧ nullable nonempty (bindingRef a) = true ∧ nullable nonempty (operationId a) = true.
Proof. unfold SchedulerExecutionAttemptSchema. rewrite !andb_true_iff. tauto. Qed.

Section Lifecycle.
Context (authorized : SchedulerAdmissionEntryRecord → bool) (db : CoreDb) (Hok : db_ok db).

Lemma bind_advances id session t db' b :
  bindSchedulerExecutionAttemptSession id session t db = Ok (db', b) → advances db db'.
Proof.
  intros (a & (_ & _ & _ & Ha)%require_attempt & H)%bind_Ok. destruct (_ || _) eqn:G; [done|]. bool_to_prop.
  apply dec_stable in H0. eapply commit_advances; [apply Hok|done|exact H|]. intros _. lifecycle_step.
  destruct H1 as [H1|H1]; bool_to_prop; apply dec_stable in H1; by intros.
Qed.

Lemma finalize_advances id i b t db' c :
  finalizeSchedulerExecutionAttemptInput id i b t db = Ok (db', c) → advances db db'.
Proof.
  intros (a & (_ & (Si & Sb & _)%schema_refs & _ & Ha)%require_attempt & H)%bind_Ok.
  destruct (_ || _ || _ || _) eqn:G; [done|]. apply orb_false_iff in G as [[[G _]%orb_false_iff G2]%orb_false_iff G3].
  bool_to_prop. apply dec_stable in G. eapply commit_advances; [apply Hok|done|exact H|]. intros _. lifecycle_step.
  - by apply differs_false.
  - by apply differs_false.
Qed.

Lemma record_advances id op submission t db' c :
  recordSchedulerExecutionOperation authorized id op submission t db = Ok (db', c) → advances db db'.
Proof.
  unfold recordSchedulerExecutionOperation. destruct (negb _); [done|].
  intros (a & (_ & _ & _ & Ha)%require_attempt & (e & _ & H)%bind_Ok)%bind_Ok.
  destruct (bool_decide (phase a ≠ Open) || _) eqn:G; [done|]. apply orb_false_iff in G as [G _].
  destruct (submission && _); [done|]. case_bool_decide as D; [done|].
  destruct (submission && bool_decide _) eqn:S; [done|]. bool_to_prop. apply dec_stable in G.
  eapply commit_advances; [apply Hok|done|exact H|]. intros _. lifecycle_step.
  - intros Hd. destruct submission; [|done]. destruct S as [|S]; [done|]. bool_to_prop. by apply dec_stable in S.
Qed.

Lemma decode_same r a : decode_attempt r = Ok a → a = r.
Proof.
  unfold decode_attempt, readRetainedV1. case_bool_decide; [|done].
  destruct (SchedulerExecutionAttemptSchema r); [|done]. by intros [= ->].
Qed.

Lemma coalesce_keeps o v : o ≠ None → coalesce o v = o.
Proof. by destruct o. Qed.

Lemma observe_advances o t db' c : acceptSchedulerExecutionObservation o t db = Ok (db', c) → advances db db'.
Proof.
  assert (advances db db) as Hrefl by apply advances_refl, Hok.
  destruct o as [o|]; cbn; [|by intros [= <- _]]. destruct (get_attempt db _) as [r|] eqn:G; [|by intros [= <- _]].
  apply get_attempt_Some in G as [Hr _]. intros (a & Hd & H)%bind_Ok.
  pose proof (decode_same _ _ Hd) as ->.
  destruct (stale_observation r o) eqn:St; [by injection H as <- _|].
  assert (operationId r ≠ None) as Hop.
  { unfold stale_observation in St. rewrite !orb_false_iff in St. destruct_and!. bool_to_prop. naive_solver. }
  destruct (bool_decide _ && bool_decide _) eqn:D; [by injection H as <- _|].
  case_bool_decide as P; [by injection H as <- _|].
  apply bind_Ok in H as ([db1 n] & Hs & (a' & _ & [= <- _])%bind_Ok).
  eapply set_attempt_advances; [apply Hok|done|exact Hs|]. intros _. lifecycle_step; try apply coalesce_keeps.
  - intros A M. bool_to_prop. destruct D as [D|D]; bool_to_prop; congruence.
Qed.

Lemma closing_advances id cause outcome t db' c :
  markSchedulerExecutionAttemptClosing id cause outcome t db = Ok (db', c) → advances db db'.
Proof.
  intros (a & (_ & _ & <- & Ha)%require_attempt & ([db1 n] & Hs & (b & _ & [= <- _])%bind_Ok)%bind_Ok)%bind_Ok.
  eapply set_attempt_advances; [apply Hok|done|exact Hs|]. intros Hl. unfold is_live in Hl. bool_to_prop.
  lifecycle_step; try apply coalesce_keeps.
  - by destruct (phase a).
  - right. by destruct (terminalCause a).
Qed.

Context (sha256 : jsstr → jsstr).

Lemma fence_advances cr proof fence t db' c :
  closeSchedulerExecutionAttemptWithFence sha256 cr proof fence t db = Ok (db', c) → advances db db'.
Proof.
  intros (a & (_ & _ & _ & Ha)%require_attempt & (own & Hown & H)%bind_Ok)%bind_Ok.
  destruct (_ || _ || _ || _) eqn:G; [done|]. apply orb_false_iff in G as [[_ G]%orb_false_iff _].
  case_bool_decide as P; [by injection H as <- _; apply advances_refl, Hok|].
  case_bool_decide as Q; [done|]. eapply commit_advances; [apply Hok|done|exact H|].
  intros _. assert (is_Some (operationId a)).
  { unfold schedulerExecutionCorrelation in Hown. by destruct (operationId a). }
  lifecycle_step.
  - by rewrite Q.
  - intros F. bool_to_prop. destruct G as [G|G]; bool_to_prop; apply dec_stable in G; congruence.
  - left. congruence.
Qed.
End Lifecycle.

Lemma update_where_untouched {A} p (f : A → A) l r : r ∈ l → p r = false → r ∈ update_where p f l.
Proof. intros Hr Hp. apply elem_of_update_where. exists r. by rewrite Hp. Qed.

Lemma queued_not_admitted r : status r = AdmittedEntry → is_queued r = false.
Proof. unfold is_queued. intros ->. done. Qed.

Lemma create_evolves authorized db q be id prep t db' b :
  db_ok db → createSchedulerExecutionAttempt authorized q be id prep t db = Ok (db', b) → evolves db db' ∧ db_ok db'.
Proof.
  intros [Hu He Hl Hc Hn] (e & (Hg & _ & _)%require_entry & H)%bind_Ok. destruct (_ || _) eqn:G; [done|].
  apply orb_false_iff in G as [[G _]%orb_false_iff _]. bool_to_prop. apply dec_stable in G.
  apply get_entry_Some in Hg as [Hr Hq]. apply bind_Ok in H as (db1 & Hs & H).
  unfold store_attempts in Hs. destruct (decide _) as [Hu'|]; [|done]. injection Hs as <-.
  cbn [set_entry] in H. case_bool_decide; [done|]. apply bind_Ok in H as (c & _ & [= <- _]).
  set (new := new_attempt (row e) id prep t) in *. split; [|split].
  - exists (attempts db), [new]. split_and!; [done| |repeat constructor].
    apply Forall_Forall2_diag, Forall_true. auto with openkit.
  - exact Hu'.
  - destruct He. split; cbn [entries with_entries]; by rewrite update_where_keys.
  - intros a [Ha|Ha%list_elem_of_singleton]%elem_of_app Hlive.
    + destruct (Hl a Ha Hlive) as (r & Hr' & Ho & Hst). exists r. split_and!; [|done|done].
      apply update_where_untouched; [done|]. by rewrite queued_not_admitted, andb_false_r.
    + subst a. exists (set_status AdmittedEntry (denialReason (row e)) (row e)). split_and!; [|by unfold owns_attempt, same_lineage; rewrite !bool_decide_eq_true_2|done].
      apply elem_of_update_where. exists (row e). split; [done|]. unfold is_queued. by rewrite !bool_decide_eq_true_2.
  - intros a [Ha|Ha%list_elem_of_singleton]%elem_of_app; [by apply Hc|]. by subst a.
  - intros a [Ha|Ha%list_elem_of_singleton]%elem_of_app; [by apply Hn|]. by subst a.
Qed.

Lemma live_same_turn rows a b :
  attempts_unique rows → a ∈ rows → b ∈ rows → is_live a = true → is_live b = true → at_turn a = at_turn b → a = b.
Proof.
  intros Hu Ha Hb La Lb. eapply NoDup_fmap_elem; [apply (unique_live_turn _ Hu)| |]; by apply elem_of_filterb.
Qed.

Lemma owns_same_turn a b r : owns_attempt a r = true → owns_attempt b r = true → at_turn a = at_turn b.
Proof. unfold owns_attempt, same_lineage. rewrite !andb_true_iff. intros. destruct_and!. bool_to_prop. congruence. Qed.

Section NoEffects.
Context (db : CoreDb) (Hok : db_ok db) (a : AttemptRow) (Ha : a ∈ attempts db) (Hlive : is_live a = true).
Context (cause : jsstr) (t : Z) (Hna : disposition a ≠ Accepted).

Definition closed_row : AttemptRow :=
  with_closure Closed NotAccepted (coalesce (terminalCause a) (Some cause)) (outcomeRef a) (fenceRef a) t a.

Lemma closed_lifecycle : lifecycle a closed_row.
Proof.
  unfold is_live in Hlive. bool_to_prop. lifecycle_step; try apply coalesce_keeps.
  - by destruct (phase a).
  - right. by destruct (terminalCause a).
Qed.

(** Requeueing returns the entry of the closed attempt and no entry of a live one. *)
Lemma requeue_linked db1 :
  advances db db1 → (∀ b, b ∈ attempts db1 → at_id b = at_id a → is_live b = false) →
  db_ok (set_entry (ao_queueEntryId (owner a)) (λ r, bool_decide (status r = AdmittedEntry))
           (λ r, set_status Queued (denialReason r) r) db1).1.
Proof.
  intros Hadv Hclosed. destruct (advances_ok _ _ Hok Hadv) as [Hu [He1 He2] Hl Hc Hn]. split; [done| | |done|done].
  - split; cbn [set_entry fst entries with_entries]; by rewrite update_where_keys.
  - intros b Hb Lb. destruct (Hl b Hb Lb) as (r & Hr & Ho & Hs). exists r. split_and!; [|done|done].
    apply update_where_untouched; [done|]. case_bool_decide as Eq; [|done]. exfalso.
    pose proof Hb as [i Hi]%list_elem_of_lookup.
    destruct (Forall2_lookup_r _ _ _ _ _ (adv_rows _ _ Hadv) Hi) as (b0 & Hb0%list_elem_of_lookup_2 & L).
    pose proof (lifecycle_live _ _ L Lb) as Lb0.
    destruct (ok_linked _ Hok a Ha Hlive) as (ra & Hra & Hoa & _).
    assert (ra = r) as ->.
    { eapply NoDup_fmap_elem; [apply (ok_entry_ids _ (ok_entries _ Hok))|done| |].
      - by rewrite <-(adv_entries _ _ Hadv).
      - unfold owns_attempt in Hoa. apply andb_true_iff in Hoa as [Hoa _]. bool_to_prop. congruence. }
    assert (b0 = a) as ->.
    { eapply live_same_turn; [apply Hok|done..|]. eapply owns_same_turn; [|exact Hoa].
      by rewrite <-(owner_owns b0 b r (lc_owner _ _ L)). }
    enough (is_live b = false) by congruence. apply Hclosed; [done|]. unfold at_id. by rewrite (lc_owner _ _ L).
Qed.
End NoEffects.

Lemma without_effects_evolves id proof cause requeue t db db' b :
  db_ok db → closeSchedulerExecutionAttemptWithoutEffects id proof cause requeue t db = Ok (db', b) →
  evolves db db' ∧ db_ok db'.
Proof.
  intros Hok (a & (_ & _ & _ & Ha)%require_attempt & H)%bind_Ok. destruct (negb proof); [done|].
  case_bool_decide as P; [injection H as <- _; split; [apply evolves_same_db|done]|].
  case_bool_decide as D; [done|]. apply bind_Ok in H as (_ & _ & ([db1 n] & Hs & H)%bind_Ok).
  assert (is_live a = true) as Hlive by (unfold is_live; by rewrite bool_decide_eq_true_2).
  assert (advances db db1) as Hadv.
  { eapply set_attempt_advances; [apply Hok|done|exact Hs|]. intros _. by apply closed_lifecycle. }
  apply bind_Ok in H as (c & _ & [= <- _]). destruct requeue; cbn [fst]; [|split; [by apply advances_evolves|by eapply advances_ok]].
  split.
  - apply advances_evolves in Hadv as (l & new & E). by exists l, new.
  - eapply requeue_linked; [done..|]. intros x Hx Ex.
    destruct (set_attempt_spec _ _ _ _ _ _ Hs) as (_ & _ & _ & E & _). rewrite E in Hx.
    apply elem_of_update_where in Hx as (x0 & Hx0 & ->).
    destruct (bool_decide (at_id x0 = at_id a)) eqn:I; cbn in Ex |- *.
    + destruct (is_live x0) eqn:L; [done|done].
    + bool_to_prop. done.
Qed.
