(* ===== verification/NanoHostAttempts.v ===== *)
(** * Native liveness of execution attempts (nanocore/src/runtime/nanohost-attempt-records.ts,
    nanocore/src/storage/execution-attempt-native.ts)

    Heartbeats, reconnect after a restart, route tokens and native preparation extend an attempt with
    adapter-private columns.  The backend sessions and runtime targets are other tables, read through the
    arguments [session_of] and [target_of]; the digests of node:crypto are parameters. *)

From S2P Require Import Prelude JsValue EntityId CommandInput SchedulerStore SchedulerRecords ExecutionAttempts.

Local Open Scope string_scope.
Local Open Scope list_scope.
Local Open Scope Z_scope.

(** ** Texts *)

Definition is_base64url (c : Z) : bool := is_alnum c || (c =? cu "_") || (c =? cu "-").
Definition WorkerProcessKeySchema (s : jsstr) : bool := bool_decide (length s = 43%nat) && forallb is_base64url s.
Definition lowercase_sha256 (s : jsstr) : bool := bool_decide (length s = 64%nat) && forallb is_hex s.

Definition sextet (c : Z) : Z :=
  if is_upper c then c - 65 else if is_lower c then c - 71 else if is_digit c then c + 4
  else if c =? cu "-" then 62 else 63.

(** [Buffer.from(text, 'base64url')] of a text over the alphabet: eight bits at a time, the rest dropped. *)
Fixpoint base64url_bytes (acc bits : Z) (s : jsstr) : list Z :=
  match s with
  | [] => []
  | c :: s =>
    let acc := acc * 64 + sextet c in
    let bits := bits + 6 in
    if 8 <=? bits then acc / 2 ^ (bits - 8) :: base64url_bytes (acc mod 2 ^ (bits - 8)) (bits - 8) s
    else base64url_bytes acc bits s
  end.
Definition base64url_decode (s : jsstr) : list Z := base64url_bytes 0 0 s.

Example base64url_sample : base64url_decode (js "AQIDBA") = [1; 2; 3; 4].
Proof. reflexivity. Qed.

(** ** Records *)

Record WorkerBackendSessionRecord := {
  bs_attemptId : jsstr;
  bs_workspaceId : jsstr;
  bs_threadId : jsstr;
  bs_turnId : jsstr;
  bs_agentSessionId : jsstr;
  bs_packageSnapshotId : jsstr;
  bs_deploymentId : jsstr;
  bs_runtimeTargetId : jsstr;
  bs_originPhysicalEpoch : jsstr;
  bs_sandboxBindingRef : jsstr;
  bs_launching : bool;
  bs_handoffComplete : bool;
}.

Record NanoHostRuntimeTarget := {
  rt_deploymentId : jsstr;
  rt_predecessorFenced : bool;
  rt_ready : bool;
  rt_freshEmpty : bool;
  rt_physicalEpoch : option jsstr;
}.

(** An attempt with its complete submission binding. *)
Record NanoHostExecutionAttemptRecord := {
  nh_row : AttemptRow;
  nh_session : jsstr;
  nh_input : jsstr;
  nh_binding : jsstr;
  nh_heartbeatDeadline : Z;
  nh_startupDeadline : Z;
}.
Definition nh_proof (n : NanoHostExecutionAttemptRecord) : NativeProof := native (nh_row n).

Definition mapNanoHostExecutionAttemptRow (db : CoreDb) (id : jsstr) : result SchedulerError NanoHostExecutionAttemptRecord :=
  a ← requireSchedulerExecutionAttempt db id;
  match agentSessionId a, inputRef a, bindingRef a, startupDeadline (native a) with
  | Some s, Some i, Some b, Some st =>
    if nonempty s && nonempty i && nonempty b then
      Ok {| nh_row := a; nh_session := s; nh_input := i; nh_binding := b;
            nh_heartbeatDeadline := default st (heartbeatDeadline (native a)); nh_startupDeadline := st |}
    else Err (PlainError (js "NanoHost attempt has no complete submission binding."))
  | _, _, _, _ => Err (PlainError (js "NanoHost attempt has no complete submission binding."))
  end.

Definition requireNanoHostExecutionAttempt (db : CoreDb) (id : jsstr) : result SchedulerError NanoHostExecutionAttemptRecord :=
  match get_attempt db id with
  | Some _ => mapNanoHostExecutionAttemptRow db id
  | None => Err (PlainError (js "Scheduler execution attempt not found: " ++ id))
  end.

Definition attemptMatchesLineage (n : NanoHostExecutionAttemptRecord) (l : SchedulerExecutionLineage) : bool :=
  bool_decide (ao_workspaceId (owner (nh_row n)) = ln_workspaceId l) &&
  bool_decide (ao_threadId (owner (nh_row n)) = ln_threadId l) && bool_decide (at_turn (nh_row n) = ln_turnId l) &&
  bool_decide (nh_session n = ln_agentSessionId l) && bool_decide (nh_input n = ln_packageSnapshotId l).

Definition canAcceptHeartbeat (p : SchedulerExecutionAttemptPhase) : bool := bool_decide (p = Open).

(** The deadline of the next heartbeat: startup until the first one. *)
Definition workerDeadline (n : NanoHostExecutionAttemptRecord) : Z :=
  match lastAcceptedHeartbeatAt (nh_proof n) with Some _ => nh_heartbeatDeadline n | None => nh_startupDeadline n end.

Definition reject {A} (reason : HeartbeatRejection) (message : jsstr) : result SchedulerError A :=
  Err (NanoHostAttemptHeartbeatRejectedError reason message).

Definition with_native (f : NativeProof → NativeProof) (r : AttemptRow) : AttemptRow :=
  {| owner := owner r; agentSessionId := agentSessionId r; inputRef := inputRef r; bindingRef := bindingRef r;
     phase := phase r; disposition := disposition r; operationId := operationId r; deadline := deadline r;
     terminalCause := terminalCause r; outcomeRef := outcomeRef r; fenceRef := fenceRef r; updatedAt := updatedAt r;
     native := f (native r) |}.

Definition with_phase (p : SchedulerExecutionAttemptPhase) (r : AttemptRow) : AttemptRow :=
  with_closure p (disposition r) (terminalCause r) (outcomeRef r) (fenceRef r) (updatedAt r) r.

(** ** Heartbeats *)

Record AcceptNanoHostAttemptHeartbeatInput := {
  hb_attemptId : jsstr;
  hb_workerSequence : Z;
  hb_timeoutMs : Z;
  hb_processKeyHash : option jsstr;
  hb_now : Z;
}.

Definition resolveHeartbeatProcessKeyHash (n : NanoHostExecutionAttemptRecord) (i : AcceptNanoHostAttemptHeartbeatInput)
    : result SchedulerError (option jsstr) :=
  candidate ← match hb_processKeyHash i with
              | Some k => if nonempty k then (if WorkerProcessKeySchema k then Ok (Some k) else Err ZodRefusal) else Ok None
              | None => Ok None
              end;
  let bound := workerProcessKeyHash (nh_proof n) in
  if negb (truthy bound) && bool_decide (candidate ≠ None) && bool_decide (hb_workerSequence i ≠ 0)
  then reject SequenceStale (js "Only sequence zero may bind a worker process key.")
  else if truthy bound && bool_decide (candidate ≠ None) && bool_decide (candidate ≠ bound)
  then reject AttemptChanged (js "Worker process key hash changed after binding.")
  else Ok (coalesce bound candidate).

(** The columns a heartbeat assigns. *)
Definition beat (deadline t seq : Z) (key : option jsstr) (p : NativeProof) : NativeProof := {|
  sessionCompatibilityKey := sessionCompatibilityKey p; heartbeatTimeoutMs := heartbeatTimeoutMs p;
  heartbeatDeadline := Some deadline; startupDeadline := startupDeadline p; lastAcceptedHeartbeatAt := Some t;
  lastWorkerSequence := Some seq; recoveryState := recoveryState p; recoveryDeadline := recoveryDeadline p;
  workerProcessKeyHash := key; workerControlTokenHash := workerControlTokenHash p;
  workerInferenceTokenHash := workerInferenceTokenHash p; workerCapabilityTokenHash := workerCapabilityTokenHash p |}.

Definition coalesce_z (column value : option Z) : option Z := match column with Some z => Some z | None => value end.

(** The WHERE clause of the heartbeat: the row is still the one that was read. *)
Definition heartbeat_guard (n : NanoHostExecutionAttemptRecord) (r : AttemptRow) : bool :=
  bool_decide (phase r = phase (nh_row n)) && bool_decide (deadline r = deadline (nh_row n)) &&
  bool_decide (coalesce_z (heartbeatDeadline (native r)) (startupDeadline (native r)) = Some (nh_heartbeatDeadline n)) &&
  bool_decide (startupDeadline (native r) = Some (nh_startupDeadline n)) &&
  bool_decide (lastAcceptedHeartbeatAt (native r) = lastAcceptedHeartbeatAt (nh_proof n)) &&
  bool_decide (lastWorkerSequence (native r) = lastWorkerSequence (nh_proof n)) &&
  bool_decide (workerProcessKeyHash (native r) = workerProcessKeyHash (nh_proof n)).

Definition attempt_message (id : jsstr) (what : string) : jsstr := js "Scheduler execution attempt " ++ id ++ js what.

Definition acceptNanoHostAttemptHeartbeat (i : AcceptNanoHostAttemptHeartbeatInput) (db : CoreDb)
    : result SchedulerError (CoreDb * NanoHostExecutionAttemptRecord) :=
  let id := hb_attemptId i in
  let t := hb_now i in
  n ← requireNanoHostExecutionAttempt db id;
  key ← resolveHeartbeatProcessKeyHash n i;
  if negb (canAcceptHeartbeat (phase (nh_row n))) || bool_decide (recoveryState (nh_proof n) ≠ None)
  then reject AttemptNotLive (attempt_message id " cannot accept heartbeat.")
  else if match deadline (nh_row n) with Some d => (d <=? t) || (workerDeadline n <=? t) | None => true end
  then reject AttemptNotLive (attempt_message id " heartbeat is stale.")
  else if match lastWorkerSequence (nh_proof n) with Some s => hb_workerSequence i <? s | None => false end
  then reject SequenceStale (attempt_message id " heartbeat sequence is stale.")
  else if bool_decide (lastWorkerSequence (nh_proof n) = Some (hb_workerSequence i)) then Ok (db, n)
  else
    out ← set_attempt id (heartbeat_guard n)
            (λ r, with_native (beat (t + hb_timeoutMs i) t (hb_workerSequence i) key) (with_phase Open r)) db;
    current ← requireNanoHostExecutionAttempt out.1 id;
    if bool_decide (out.2 = 1%nat) then Ok (out.1, current)
    else if bool_decide (lastWorkerSequence (nh_proof current) = Some (hb_workerSequence i)) &&
            bool_decide (workerProcessKeyHash (nh_proof current) = key)
    then Ok (out.1, current)
    else if match lastWorkerSequence (nh_proof current) with Some s => hb_workerSequence i <? s | None => false end
    then reject SequenceStale (attempt_message id " heartbeat sequence is stale.")
    else reject AttemptChanged (attempt_message id " cannot accept heartbeat after a concurrent attempt change.").

(** ** Token bindings *)

Inductive NanoHostAttemptRouteTokenFamily := CapabilityToken | WorkerControlToken | InferenceToken.
Inductive BindingRejection := BindingNotFound | LineageMismatch | BindingNotLive | BindingReconnectRequired.
Inductive NanoHostAttemptTokenBindingResolution :=
| BindingAccepted (attempt : NanoHostExecutionAttemptRecord)
| BindingRejected (reason : BindingRejection).

Section Digests.
(** [createHash('sha256').update(bytes).digest('hex')] *)
Context (sha256_hex : list Z → jsstr).

Definition matchesRouteTokenHash (token expected : jsstr) : bool :=
  WorkerProcessKeySchema token && lowercase_sha256 expected &&
  bool_decide (sha256_hex (base64url_decode token) = expected).

Definition token_hash (family : NanoHostAttemptRouteTokenFamily) (p : NativeProof) : option jsstr :=
  match family with
  | WorkerControlToken => workerControlTokenHash p
  | InferenceToken => workerInferenceTokenHash p
  | CapabilityToken => workerCapabilityTokenHash p
  end.

Definition token_matches (n : NanoHostExecutionAttemptRecord) (family : NanoHostAttemptRouteTokenFamily) (token : jsstr) : bool :=
  match token_hash family (nh_proof n) with
  | Some h => nonempty h && matchesRouteTokenHash token h
  | None => false
  end.

Definition find_binding (db : CoreDb) (binding : jsstr) : option AttemptRow :=
  find (λ r, bool_decide (bindingRef r = Some binding)) (attempts db).

Definition awaiting (n : NanoHostExecutionAttemptRecord) (t : Z) : bool :=
  bool_decide (recoveryState (nh_proof n) = Some AwaitingReconnect) &&
  match recoveryDeadline (nh_proof n) with Some d => t <? d | None => false end &&
  match deadline (nh_row n) with Some d => t <? d | None => false end.

Definition not_live (n : NanoHostExecutionAttemptRecord) (t : Z) : bool :=
  negb (canAcceptHeartbeat (phase (nh_row n))) || bool_decide (recoveryState (nh_proof n) ≠ None) ||
  match deadline (nh_row n) with Some d => d <=? t | None => true end || (workerDeadline n <=? t).

Definition resolveNanoHostAttemptTokenBinding (db : CoreDb) (binding : jsstr) (lineage : SchedulerExecutionLineage)
    (token : option jsstr) (family : option NanoHostAttemptRouteTokenFamily) (t : Z)
    : result SchedulerError NanoHostAttemptTokenBindingResolution :=
  match find_binding db binding with
  | None => Ok (BindingRejected BindingNotFound)
  | Some r =>
    n ← mapNanoHostExecutionAttemptRow db (at_id r);
    Ok (if negb (attemptMatchesLineage n lineage) then BindingRejected LineageMismatch
        else if match token, family with
                | Some tk, Some f => negb (token_matches n f tk)
                | None, None => false
                | _, _ => true
                end then BindingRejected BindingNotFound
        else if awaiting n t then BindingRejected BindingReconnectRequired
        else if not_live n t then BindingRejected BindingNotLive
        else BindingAccepted n)
  end.

Definition rejection_text (r : BindingRejection) : jsstr :=
  match r with
  | BindingNotFound => js "binding-not-found" | LineageMismatch => js "lineage-mismatch"
  | BindingNotLive => js "attempt-not-live" | BindingReconnectRequired => js "reconnect-required"
  end.

Definition acceptNanoHostAttemptHeartbeatByBinding (binding : jsstr) (lineage : SchedulerExecutionLineage)
    (workerSequence acceptedAt : Z) (key : option jsstr) (db : CoreDb)
    : result SchedulerError (CoreDb * NanoHostExecutionAttemptRecord) :=
  resolution ← resolveNanoHostAttemptTokenBinding db binding lineage None None acceptedAt;
  match resolution with
  | BindingRejected reason =>
    reject AttemptNotLive (js "Scheduler heartbeat binding rejected: " ++ rejection_text reason ++ js ".")
  | BindingAccepted n =>
    acceptNanoHostAttemptHeartbeat {|
      hb_attemptId := at_id (nh_row n); hb_workerSequence := workerSequence;
      hb_timeoutMs := heartbeatTimeoutMs (nh_proof n);
      hb_processKeyHash := (match key with Some k => if nonempty k then Some k else None | None => None end);
      hb_now := acceptedAt |} db
  end.
End Digests.

(** ** Reconnect *)

Section Native.
Context (session_of : jsstr → option WorkerBackendSessionRecord) (target_of : jsstr → option NanoHostRuntimeTarget).

Definition clear_recovery (d : Z) (p : NativeProof) : NativeProof := {|
  sessionCompatibilityKey := sessionCompatibilityKey p; heartbeatTimeoutMs := heartbeatTimeoutMs p;
  heartbeatDeadline := Some d; startupDeadline := startupDeadline p; lastAcceptedHeartbeatAt := lastAcceptedHeartbeatAt p;
  lastWorkerSequence := lastWorkerSequence p; recoveryState := None; recoveryDeadline := None;
  workerProcessKeyHash := workerProcessKeyHash p; workerControlTokenHash := workerControlTokenHash p;
  workerInferenceTokenHash := workerInferenceTokenHash p; workerCapabilityTokenHash := workerCapabilityTokenHash p |}.

(** The backend session still belongs to the attempt. *)
Definition session_matches (n : NanoHostExecutionAttemptRecord) (s : WorkerBackendSessionRecord) : bool :=
  bool_decide (bs_workspaceId s = ao_workspaceId (owner (nh_row n))) &&
  bool_decide (bs_threadId s = ao_threadId (owner (nh_row n))) && bool_decide (bs_turnId s = at_turn (nh_row n)) &&
  bool_decide (bs_agentSessionId s = nh_session n) && bool_decide (bs_packageSnapshotId s = nh_input n) &&
  bool_decide (bs_sandboxBindingRef s = nh_binding n).

Definition target_ready (t : NanoHostRuntimeTarget) : bool :=
  rt_predecessorFenced t && rt_ready t && rt_freshEmpty t && bool_decide (rt_physicalEpoch t ≠ None).

Definition decoded_key (o : option jsstr) : list Z :=
  match o with Some k => if nonempty k then base64url_decode k else [] | None => [] end.

Definition adoptNanoHostAttemptReconnectHash (binding : jsstr) (lineage : SchedulerExecutionLineage)
    (processKeyHash : jsstr) (workerSequence acceptedAt : Z) (db : CoreDb)
    : result SchedulerError (CoreDb * NanoHostExecutionAttemptRecord) :=
  match find_binding db binding with
  | None => reject AttemptNotLive (js "Worker reconnect binding is unknown.")
  | Some r =>
    n ← mapNanoHostExecutionAttemptRow db (at_id r);
    if negb (attemptMatchesLineage n lineage) then reject AttemptChanged (js "Worker reconnect lineage is not authoritative.")
    else
    match recoveryDeadline (nh_proof n), deadline (nh_row n) with
    | Some rd, Some d =>
      if bool_decide (phase (nh_row n) ≠ Open) || bool_decide (recoveryState (nh_proof n) ≠ Some AwaitingReconnect) ||
         (rd <=? acceptedAt) || (d <=? acceptedAt)
      then reject AttemptNotLive (js "Worker reconnect deadline or attempt is not live.")
      else
      match lastWorkerSequence (nh_proof n) with
      | Some last =>
        if bool_decide (workerSequence ≠ last + 1) then reject SequenceStale (js "Worker reconnect must use the exact next sequence.")
        else if negb (WorkerProcessKeySchema processKeyHash) then Err ZodRefusal
        else if bool_decide (decoded_key (workerProcessKeyHash (nh_proof n)) ≠ base64url_decode processKeyHash)
        then reject AttemptChanged (js "Worker reconnect process key does not match.")
        else
        match session_of (at_id (nh_row n)) with
        | Some s =>
          if negb (session_matches n s) then reject AttemptChanged (js "Worker reconnect backend lineage changed.")
          else if negb (bs_launching s) || negb (bs_handoffComplete s)
          then reject AttemptNotLive (js "Worker reconnect backend is not live.")
          else
          match target_of (bs_runtimeTargetId s) with
          | Some t =>
            if bool_decide (rt_deploymentId t ≠ bs_deploymentId s)
            then reject AttemptChanged (js "Worker reconnect RuntimeTarget identity changed.")
            else if negb (target_ready t)
            then reject ReconnectRequired (js "Worker reconnect is waiting for current physical Epoch authority.")
            else if bool_decide (rt_physicalEpoch t ≠ Some (bs_originPhysicalEpoch s))
            then reject AttemptChanged (js "Worker reconnect physical Epoch identity changed.")
            else
              out ← set_attempt (at_id (nh_row n))
                (λ r, bool_decide (recoveryState (native r) = Some AwaitingReconnect) &&
                      bool_decide (recoveryDeadline (native r) = Some rd) &&
                      bool_decide (lastWorkerSequence (native r) = Some last) &&
                      match workerProcessKeyHash (nh_proof n) with
                      | Some k => bool_decide (workerProcessKeyHash (native r) = Some k)
                      | None => false
                      end)
                (with_native (clear_recovery rd)) db;
              if bool_decide (out.2 ≠ 1%nat) then reject AttemptChanged (js "Worker reconnect lost its compare-and-set race.")
              else current ← requireNanoHostExecutionAttempt out.1 (at_id (nh_row n)); Ok (out.1, current)
          | None => reject AttemptChanged (js "Worker reconnect RuntimeTarget identity changed.")
          end
        | None => reject AttemptChanged (js "Worker reconnect backend lineage changed.")
        end
      | None => reject SequenceStale (js "Worker reconnect must use the exact next sequence.")
      end
    | _, _ => reject AttemptNotLive (js "Worker reconnect deadline or attempt is not live.")
    end
  end.

Definition isNanoHostAttemptReconnectEligible (n : NanoHostExecutionAttemptRecord) (s : WorkerBackendSessionRecord) (t : Z) : bool :=
  bool_decide (bs_attemptId s = at_id (nh_row n)) && bool_decide (bs_workspaceId s = ao_workspaceId (owner (nh_row n))) &&
  bool_decide (bs_threadId s = ao_threadId (owner (nh_row n))) && bool_decide (bs_turnId s = at_turn (nh_row n)) &&
  bool_decide (bs_agentSessionId s = nh_session n) && bool_decide (bs_packageSnapshotId s = nh_input n) &&
  bool_decide (phase (nh_row n) = Open) && match deadline (nh_row n) with Some d => t <? d | None => false end &&
  bs_launching s && bs_handoffComplete s &&
  match lastWorkerSequence (nh_proof n) with Some q => 1 <=? q | None => false end &&
  bool_decide (workerProcessKeyHash (nh_proof n) ≠ None) &&
  (bool_decide (recoveryState (nh_proof n) = None) || bool_decide (recoveryState (nh_proof n) = Some AwaitingReconnect)) &&
  match recoveryDeadline (nh_proof n) with Some d => t <? d | None => true end.

Definition arm (d : Z) (p : NativeProof) : NativeProof := {|
  sessionCompatibilityKey := sessionCompatibilityKey p; heartbeatTimeoutMs := heartbeatTimeoutMs p;
  heartbeatDeadline := heartbeatDeadline p; startupDeadline := startupDeadline p;
  lastAcceptedHeartbeatAt := lastAcceptedHeartbeatAt p; lastWorkerSequence := lastWorkerSequence p;
  recoveryState := Some AwaitingReconnect; recoveryDeadline := Some d; workerProcessKeyHash := workerProcessKeyHash p;
  workerControlTokenHash := workerControlTokenHash p; workerInferenceTokenHash := workerInferenceTokenHash p;
  workerCapabilityTokenHash := workerCapabilityTokenHash p |}.

Definition RECONNECT_WINDOW_MS : Z := 300000.
Definition ownership_changed {A} : result SchedulerError A := Err (PlainError (js "Native reconnect ownership changed.")).

Definition armNanoHostAttemptReconnect (id : jsstr) (classifiedAt : Z) (expected : option Z) (t : Z) (db : CoreDb)
    : result SchedulerError CoreDb :=
  n ← requireNanoHostExecutionAttempt db id;
  match session_of id with
  | None => ownership_changed
  | Some s =>
    if negb (isNanoHostAttemptReconnectEligible n s t) || bool_decide (recoveryDeadline (nh_proof n) ≠ expected)
    then ownership_changed
    else
      let d := match recoveryDeadline (nh_proof n) with
               | Some d => d
               | None => Z.min (default 0 (deadline (nh_row n))) (classifiedAt + RECONNECT_WINDOW_MS)
               end in
      if d <=? t then ownership_changed
      else
        out ← set_attempt id (λ r, is_open r && bool_decide (recoveryDeadline (native r) = expected)) (with_native (arm d)) db;
        if bool_decide (out.2 ≠ 1%nat) then ownership_changed else Ok out.1
  end.

Definition need_evidence (p : NativeProof) : NativeProof := {|
  sessionCompatibilityKey := sessionCompatibilityKey p; heartbeatTimeoutMs := heartbeatTimeoutMs p;
  heartbeatDeadline := heartbeatDeadline p; startupDeadline := startupDeadline p;
  lastAcceptedHeartbeatAt := lastAcceptedHeartbeatAt p; lastWorkerSequence := lastWorkerSequence p;
  recoveryState := Some NeedsEvidence; recoveryDeadline := recoveryDeadline p; workerProcessKeyHash := workerProcessKeyHash p;
  workerControlTokenHash := workerControlTokenHash p; workerInferenceTokenHash := workerInferenceTokenHash p;
  workerCapabilityTokenHash := workerCapabilityTokenHash p |}.

Definition markNanoHostAttemptNeedsEvidence (id : jsstr) (db : CoreDb) : result SchedulerError CoreDb :=
  out ← set_attempt id (λ r, bool_decide (phase r = Closing)) (with_native need_evidence) db; Ok out.1.

Definition hasNanoHostAttemptOwnershipEvidence (db : CoreDb) (id : jsstr) : result SchedulerError bool :=
  match get_attempt db id with
  | None => Err (PlainError (js "Native no-effect proof has no exact attempt."))
  | Some r =>
    let p := native r in
    Ok (bool_decide (lastAcceptedHeartbeatAt p ≠ None) || bool_decide (lastWorkerSequence p ≠ None) ||
        bool_decide (workerProcessKeyHash p ≠ None) || bool_decide (workerControlTokenHash p ≠ None) ||
        bool_decide (workerInferenceTokenHash p ≠ None) || bool_decide (workerCapabilityTokenHash p ≠ None) ||
        match session_of id with Some _ => true | None => false end)
  end.
End Native.

(** The raw key never reaches the record: only its digest does. *)
Definition adoptNanoHostAttemptReconnect (sha256_base64url : list Z → jsstr)
    (session_of : jsstr → option WorkerBackendSessionRecord) (target_of : jsstr → option NanoHostRuntimeTarget)
    (binding : jsstr) (lineage : SchedulerExecutionLineage) (reconnectKey : jsstr) (workerSequence acceptedAt : Z) (db : CoreDb)
    : result SchedulerError (CoreDb * NanoHostExecutionAttemptRecord) :=
  if WorkerProcessKeySchema reconnectKey then
    adoptNanoHostAttemptReconnectHash session_of target_of binding lineage
      (sha256_base64url (base64url_decode reconnectKey)) workerSequence acceptedAt db
  else Err ZodRefusal.

(** ** Route tokens *)

Definition bind_tokens (control inference capability : jsstr) (p : NativeProof) : NativeProof := {|
  sessionCompatibilityKey := sessionCompatibilityKey p; heartbeatTimeoutMs := heartbeatTimeoutMs p;
  heartbeatDeadline := heartbeatDeadline p; startupDeadline := startupDeadline p;
  lastAcceptedHeartbeatAt := lastAcceptedHeartbeatAt p; lastWorkerSequence := lastWorkerSequence p;
  recoveryState := recoveryState p; recoveryDeadline := recoveryDeadline p; workerProcessKeyHash := workerProcessKeyHash p;
  workerControlTokenHash := Some control; workerInferenceTokenHash := Some inference;
  workerCapabilityTokenHash := Some capability |}.

Definition must_be_digest (label : string) : SchedulerError := PlainError (js label ++ js " must be a lowercase SHA-256 digest.").

(** [CASE WHEN last_accepted_heartbeat_at IS NULL THEN startup_deadline ELSE heartbeat_deadline END > ?] *)
Definition row_deadline_after (t : Z) (r : AttemptRow) : bool :=
  match (match lastAcceptedHeartbeatAt (native r) with None => startupDeadline (native r) | Some _ => heartbeatDeadline (native r) end) with
  | Some d => t <? d
  | None => false
  end.

Definition bindNanoHostAttemptRouteTokenHashes (id binding control inference capability : jsstr) (t : Z) (db : CoreDb)
    : result SchedulerError (CoreDb * NanoHostExecutionAttemptRecord) :=
  if negb (lowercase_sha256 control) then Err (must_be_digest "Worker-control token hash")
  else if negb (lowercase_sha256 inference) then Err (must_be_digest "Worker-inference token hash")
  else if negb (lowercase_sha256 capability) then Err (must_be_digest "Worker-capability token hash")
  else if negb (bool_decide (NoDup [control; inference; capability]))
  then Err (PlainError (js "Worker route-token hashes must be distinct."))
  else
    n ← requireNanoHostExecutionAttempt db id;
    let p := nh_proof n in
    if bool_decide (nh_binding n ≠ binding) || negb (canAcceptHeartbeat (phase (nh_row n))) ||
       match deadline (nh_row n) with Some d => d <=? t | None => false end || (workerDeadline n <=? t)
    then Err (PlainError (js "execution attempt cannot bind route tokens: " ++ id))
    else if truthy (workerControlTokenHash p) || truthy (workerInferenceTokenHash p) || truthy (workerCapabilityTokenHash p) then
      if bool_decide (workerControlTokenHash p = Some control) && bool_decide (workerInferenceTokenHash p = Some inference) &&
         bool_decide (workerCapabilityTokenHash p = Some capability)
      then Ok (db, n)
      else Err (PlainError (js "execution attempt route-token hashes already differ: " ++ id))
    else
      out ← set_attempt id
        (λ r, bool_decide (bindingRef r = Some binding) && is_open r && row_deadline_after t r &&
              bool_decide (workerControlTokenHash (native r) = None) &&
              bool_decide (workerInferenceTokenHash (native r) = None) &&
              bool_decide (workerCapabilityTokenHash (native r) = None))
        (with_native (bind_tokens control inference capability)) db;
      if bool_decide (out.2 ≠ 1%nat)
      then Err (PlainError (js "execution attempt route-token binding changed concurrently: " ++ id))
      else current ← requireNanoHostExecutionAttempt out.1 id; Ok (out.1, current).

Definition created_cmp (a b : AttemptRow) : Z :=
  if createdAt (owner a) <? createdAt (owner b) then -1
  else if createdAt (owner b) <? createdAt (owner a) then 1 else str_cmp (at_id a) (at_id b).

Definition restorable (r : AttemptRow) : bool :=
  is_open r && bool_decide (deadline r ≠ None) && bool_decide (bindingRef r ≠ None) &&
  bool_decide (workerControlTokenHash (native r) ≠ None) && bool_decide (workerInferenceTokenHash (native r) ≠ None) &&
  bool_decide (workerCapabilityTokenHash (native r) ≠ None).

Definition listRestorableNanoHostExecutionAttempts (db : CoreDb) : result SchedulerError (list NanoHostExecutionAttemptRecord) :=
  mapM (λ r, mapNanoHostExecutionAttemptRow db (at_id r)) (js_sort created_cmp (filterb restorable (attempts db))).

(** ** Preparation *)

Definition STARTUP_BUDGET_MS : Z := 1500000.

Definition prepare (session input binding key : jsstr) (startup : Z) (r : AttemptRow) : AttemptRow :=
  let p := native r in
  {| owner := owner r; agentSessionId := Some session; inputRef := Some input; bindingRef := Some binding;
     phase := phase r; disposition := disposition r; operationId := operationId r; deadline := deadline r;
     terminalCause := terminalCause r; outcomeRef := outcomeRef r; fenceRef := fenceRef r; updatedAt := updatedAt r;
     native := {|
       sessionCompatibilityKey := Some key; heartbeatTimeoutMs := heartbeatTimeoutMs p;
       heartbeatDeadline := heartbeatDeadline p; startupDeadline := coalesce_z (startupDeadline p) (Some startup);
       lastAcceptedHeartbeatAt := lastAcceptedHeartbeatAt p; lastWorkerSequence := lastWorkerSequence p;
       recoveryState := recoveryState p; recoveryDeadline := recoveryDeadline p;
       workerProcessKeyHash := workerProcessKeyHash p; workerControlTokenHash := workerControlTokenHash p;
       workerInferenceTokenHash := workerInferenceTokenHash p; workerCapabilityTokenHash := workerCapabilityTokenHash p |} |}.

Definition unset_or (column : option jsstr) (value : jsstr) : bool :=
  match column with None => true | Some s => bool_decide (s = value) end.

Definition bindNanoHostAttemptPreparation (id session input binding key : jsstr) (db : CoreDb) : result SchedulerError CoreDb :=
  a ← requireSchedulerExecutionAttempt db id;
  out ← set_attempt id
    (λ r, is_open r && unset_or (agentSessionId r) session && unset_or (inputRef r) input && unset_or (bindingRef r) binding)
    (prepare session input binding key (createdAt (owner a) + STARTUP_BUDGET_MS)) db;
  if bool_decide (out.2 ≠ 1%nat) then Err (PlainError (js "Native preparation lost its exact attempt binding."))
  else Ok out.1.

(** ** The commands of the physical owner *)

Inductive ControlExecutionAttemptInput :=
| CmdNativePreparation (attemptId agentSessionId inputRef bindingRef sessionCompatibilityKey : jsstr)
| CmdNativeReconnectArm (attemptId : jsstr) (classifiedAt : Z) (expectedRecoveryDeadline : option Z)
| CmdNativeNeedsEvidence (attemptId : jsstr)
| CmdSimulatorFinal (attemptId : jsstr) (lineage : SchedulerExecutionLineage)
| CmdCreate (queueEntryId backendId : jsstr) (attemptId : jsstr)
| CmdBindSession (attemptId agentSessionId : jsstr)
| CmdFinalizeInput (attemptId inputRef bindingRef : jsstr)
| CmdRecordOperation (attemptId operationId : jsstr) (submission : bool)
| CmdObserve (observation : option ExecutionBackendObservation)
| CmdClosing (attemptId cause : jsstr) (outcomeRef : option jsstr)
| CmdCloseWithoutEffects (attemptId cause : jsstr) (requeue : bool)
| CmdCloseWithFence (correlation : ExecutionBackendCorrelation) (proof : ExecutionReleaseProof) (fenceRef : jsstr).

(** What a command meets besides the two tables: the clock, the binary content, current authority, the
    other native tables. *)
Record Environment := {
  env_now : Z;
  env_content : option jsstr;
  env_authorized : SchedulerAdmissionEntryRecord → bool;
  env_session : jsstr → option WorkerBackendSessionRecord;
}.

Definition require_after (id : jsstr) (out : result SchedulerError CoreDb) : result SchedulerError (CoreDb * option AttemptRow) :=
  db ← out; a ← requireSchedulerExecutionAttempt db id; Ok (db, Some a).
Definition some_attempt (out : result SchedulerError (CoreDb * AttemptRow)) : result SchedulerError (CoreDb * option AttemptRow) :=
  r ← out; Ok (r.1, Some r.2).

(** [simulator-final] also writes a worker-control record, which is not one of these tables. *)
Definition applyControlExecutionAttempt (sha256 : jsstr → jsstr) (env : Environment) (input : ControlExecutionAttemptInput)
    (db : CoreDb) : result SchedulerError (CoreDb * option AttemptRow) :=
  let t := env_now env in
  match input with
  | CmdNativePreparation id session i b key => require_after id (bindNanoHostAttemptPreparation id session i b key db)
  | CmdNativeReconnectArm id classifiedAt expected =>
    require_after id (armNanoHostAttemptReconnect (env_session env) id classifiedAt expected t db)
  | CmdNativeNeedsEvidence id => require_after id (markNanoHostAttemptNeedsEvidence id db)
  | CmdSimulatorFinal id l =>
    a ← requireSchedulerExecutionAttempt db id;
    if bool_decide (ao_workspaceId (owner a) ≠ ln_workspaceId l) || bool_decide (ao_threadId (owner a) ≠ ln_threadId l) ||
       bool_decide (at_turn a ≠ ln_turnId l) || bool_decide (agentSessionId a ≠ Some (ln_agentSessionId l)) ||
       bool_decide (inputRef a ≠ Some (ln_packageSnapshotId l))
    then Err ControlProductPreconditionError else Ok (db, Some a)
  | CmdCreate q be id =>
    match env_content env with
    | None => Err ControlProductPreconditionError
    | Some preparation =>
      _ ← requireSchedulerAdmissionEntry db q None;
      some_attempt (createSchedulerExecutionAttempt (env_authorized env) q be id preparation t db)
    end
  | CmdBindSession id session => some_attempt (bindSchedulerExecutionAttemptSession id session t db)
  | CmdFinalizeInput id i b => some_attempt (finalizeSchedulerExecutionAttemptInput id i b t db)
  | CmdRecordOperation id op submission =>
    some_attempt (recordSchedulerExecutionOperation (env_authorized env) id op submission t db)
  | CmdObserve o => acceptSchedulerExecutionObservation o t db
  | CmdClosing id cause outcome => some_attempt (markSchedulerExecutionAttemptClosing id cause outcome t db)
  | CmdCloseWithoutEffects id cause requeue =>
    some_attempt (closeSchedulerExecutionAttemptWithoutEffects id true cause requeue t db)
  | CmdCloseWithFence c proof fence => some_attempt (closeSchedulerExecutionAttemptWithFence sha256 c proof fence t db)
  end.

(** The lanes that order a command behind an earlier failure of its Turn or session. *)
Definition controlExecutionAttemptLanes (input : ControlExecutionAttemptInput) (db : CoreDb) : result SchedulerError (list jsstr) :=
  let lanes_of id extra :=
    a ← requireSchedulerExecutionAttempt db id;
    Ok (dedup (at_turn a :: (match agentSessionId a with Some s => if nonempty s then [js "session:" ++ s] else [] | None => [] end) ++ extra)) in
  match input with
  | CmdObserve None => Ok []
  | CmdObserve (Some o) => lanes_of (cr_attemptId (ob_correlation o)) []
  | CmdCreate q _ _ => e ← requireSchedulerAdmissionEntry db q None; Ok [turnId (row e)]
  | CmdCloseWithFence c _ _ => lanes_of (cr_attemptId c) []
  | CmdBindSession id s => lanes_of id [js "session:" ++ s]
  | CmdNativePreparation id _ _ _ _ | CmdNativeReconnectArm id _ _ | CmdNativeNeedsEvidence id | CmdSimulatorFinal id _
  | CmdFinalizeInput id _ _ | CmdRecordOperation id _ _ | CmdClosing id _ _ | CmdCloseWithoutEffects id _ _ => lanes_of id []
  end.

(** ** Native commands keep the lifecycle *)

(** An UPDATE by id whose guard implies a lifecycle step on every row it touches. *)
Lemma set_attempt_steps id p f db db' n :
  attempts_unique (attempts db) → set_attempt id p f db = Ok (db', n) →
  (∀ r, r ∈ attempts db → at_id r = id → p r = true → lifecycle r (f r)) → advances db db'.
Proof.
  intros Hu (Hu' & He & Ho & E & _)%set_attempt_spec Hf. split; [|done..]. rewrite E.
  apply Forall2_update_where. intros r Hr. case_bool_decide as Hid; [|apply lifecycle_refl]. cbn.
  destruct (p r) eqn:P; [by apply Hf|apply lifecycle_refl].
Qed.

Lemma with_native_lifecycle f a : phase a ≠ Closed → native_history (native a) (f (native a)) → lifecycle a (with_native f a).
Proof. intros P N. lifecycle_step. Qed.

Lemma is_open_phase r : is_open r = true → phase r = Open.
Proof. unfold is_open. intros. by bool_to_prop. Qed.

Lemma unset_or_keeps column value : unset_or column value = true → column ≠ None → Some value = column.
Proof. destruct column; [|done]. cbn. intros. bool_to_prop. congruence. Qed.

Lemma coalesce_z_keeps o v : o ≠ None → coalesce_z o v = o.
Proof. by destruct o. Qed.

Lemma same_sequence p q : lastWorkerSequence q = lastWorkerSequence p →
  match lastWorkerSequence p with
  | Some s => match lastWorkerSequence q with Some s' => s <= s' | None => False end
  | None => True
  end.
Proof. intros ->. destruct (lastWorkerSequence p); [lia|done]. Qed.

Lemma prepare_lifecycle s i b k st a :
  is_open a && unset_or (agentSessionId a) s && unset_or (inputRef a) i && unset_or (bindingRef a) b = true →
  lifecycle a (prepare s i b k st a).
Proof.
  rewrite !andb_true_iff. intros [[[P%is_open_phase Hs] Hi] Hb]. lifecycle_step; [by apply unset_or_keeps..|].
  constructor; [by apply same_sequence| |apply coalesce_z_keeps|..]; done.
Qed.

Lemma with_phase_same a : with_phase (phase a) a = a.
Proof. by destruct a. Qed.

Lemma beat_lifecycle d t q k a :
  phase a = Open → (∀ s, lastWorkerSequence (native a) = Some s → s <= q) →
  (workerProcessKeyHash (native a) ≠ None → k = workerProcessKeyHash (native a)) →
  lifecycle a (with_native (beat d t q k) (with_phase Open a)).
Proof.
  intros P Hq Hk. rewrite <-P, with_phase_same. apply with_native_lifecycle; [congruence|]. constructor; try done. cbn.
  destruct (lastWorkerSequence (native a)); auto.
Qed.

Section NativeSteps.
Context (db : CoreDb) (Hok : db_ok db).

Lemma nano_row id n : requireNanoHostExecutionAttempt db id = Ok n → nh_row n ∈ attempts db ∧ at_id (nh_row n) = id.
Proof.
  unfold requireNanoHostExecutionAttempt. destruct (get_attempt db id) as [r|]; [|done].
  unfold mapNanoHostExecutionAttemptRow. intros (a & (_ & _ & Ha & Hin)%require_attempt & H)%bind_Ok.
  destruct (agentSessionId a), (inputRef a), (bindingRef a), (startupDeadline (native a)); try done.
  destruct (_ && _); [|done]. by injection H as <-.
Qed.

Lemma preparation_advances id s i b k db' : bindNanoHostAttemptPreparation id s i b k db = Ok db' → advances db db'.
Proof.
  intros (a & _ & ([db1 n] & Hs & H)%bind_Ok)%bind_Ok. case_bool_decide; [done|]. injection H as <-.
  eapply set_attempt_steps; [apply Hok|exact Hs|]. intros r _ _. apply prepare_lifecycle.
Qed.

Lemma arm_advances session_of id c e t db' : armNanoHostAttemptReconnect session_of id c e t db = Ok db' → advances db db'.
Proof.
  intros (n & _ & H)%bind_Ok. destruct (session_of id); [|done]. destruct (_ || _); [done|]. cbv zeta in H. destruct (_ <=? t); [done|].
  apply bind_Ok in H as ([db1 k] & Hs & H). case_bool_decide; [done|]. injection H as <-.
  eapply set_attempt_steps; [apply Hok|exact Hs|]. intros r _ _ [P%is_open_phase _]%andb_true_iff.
  apply with_native_lifecycle; [congruence|]. constructor; [by apply same_sequence|done..].
Qed.

Lemma evidence_advances id db' : markNanoHostAttemptNeedsEvidence id db = Ok db' → advances db db'.
Proof.
  intros ([db1 k] & Hs & [= <-])%bind_Ok. eapply set_attempt_steps; [apply Hok|exact Hs|].
  intros r _ _ P. cbv beta in P. bool_to_prop. apply with_native_lifecycle; [congruence|].
  constructor; [by apply same_sequence|done..].
Qed.

Lemma tokens_advance id b c i k t db' n : bindNanoHostAttemptRouteTokenHashes id b c i k t db = Ok (db', n) → advances db db'.
Proof.
  unfold bindNanoHostAttemptRouteTokenHashes. do 3 (destruct (negb (lowercase_sha256 _)); [done|]).
  destruct (negb (bool_decide _)); [done|]. intros (m & _ & H)%bind_Ok. destruct (_ || _ || _ || _); [done|].
  destruct (truthy _ || _ || _).
  - destruct (_ && _ && _); [|done]. injection H as <- _. apply advances_refl, Hok.
  - apply bind_Ok in H as ([db1 x] & Hs & H). case_bool_decide; [done|]. apply bind_Ok in H as (? & _ & [= <- _]).
    eapply set_attempt_steps; [apply Hok|exact Hs|]. intros r _ _. rewrite !andb_true_iff. intros [[[[[_ P%is_open_phase] _] Tc] Ti] Tk].
    bool_to_prop. apply with_native_lifecycle; [congruence|]. constructor; [by apply same_sequence|done|done|done|..]; congruence.
Qed.

Lemma resolve_keeps n i key :
  resolveHeartbeatProcessKeyHash n i = Ok key → workerProcessKeyHash (nh_proof n) ≠ None → key = workerProcessKeyHash (nh_proof n).
Proof.
  intros (cand & _ & H)%bind_Ok Hn. cbv zeta in H. destruct (_ && _ && _); [done|]. destruct (_ && _ && _); [done|].
  injection H as <-. by apply coalesce_keeps.
Qed.

Lemma heartbeat_advances i db' n : acceptNanoHostAttemptHeartbeat i db = Ok (db', n) → advances db db'.
Proof.
  intros (m & [Hm Hid]%nano_row & (key & Hkey & H)%bind_Ok)%bind_Ok. pose proof (resolve_keeps _ _ _ Hkey) as Hk.
  destruct (negb _ || _) eqn:G; [done|].
  apply orb_false_iff in G as [G _]. unfold canAcceptHeartbeat in G. bool_to_prop.
  destruct (match deadline (nh_row m) with Some _ => _ | None => _ end); [done|].
  destruct (match lastWorkerSequence (nh_proof m) with Some _ => _ | None => _ end) eqn:Q; [done|].
  case_bool_decide; [injection H as <- _; apply advances_refl, Hok|].
  apply bind_Ok in H as ([db1 x] & Hs & (cur & _ & H)%bind_Ok).
  assert (advances db db1) as Hadv.
  { eapply set_attempt_steps; [apply Hok|exact Hs|]. intros r _ _ P. unfold heartbeat_guard in P.
    rewrite !andb_true_iff in P. destruct P as [[[[[[P _] _] _] _] Ps] Pk]. bool_to_prop. apply beat_lifecycle; [congruence| |].
    - intros s Es. rewrite Ps in Es. rewrite Es in Q. by apply Z.ltb_ge in Q.
    - rewrite Pk. exact Hk. }
  cbn [fst snd] in H. repeat case_match; try done; by injection H as <- _.
Qed.

Lemma adopt_advances so to b l k q t db' n :
  adoptNanoHostAttemptReconnectHash so to b l k q t db = Ok (db', n) → advances db db'.
Proof.
  unfold adoptNanoHostAttemptReconnectHash. destruct (find_binding db b) as [r|]; [|done]. intros (m & Hm & H)%bind_Ok.
  assert (nh_row m ∈ attempts db) as Hin.
  { apply bind_Ok in Hm as (a & (_ & _ & _ & Ha)%require_attempt & Hm).
    destruct (agentSessionId a), (inputRef a), (bindingRef a), (startupDeadline (native a)); try done.
    destruct (_ && _); [|done]. by injection Hm as <-. }
  destruct (negb (attemptMatchesLineage m l)); [done|]. destruct (recoveryDeadline (nh_proof m)) as [rd|]; [|done].
  destruct (deadline (nh_row m)); [|done]. destruct (_ || _) eqn:G; [done|].
  apply orb_false_iff in G as [[[G _]%orb_false_iff _]%orb_false_iff _]. bool_to_prop. apply dec_stable in G.
  destruct (lastWorkerSequence (nh_proof m)); [|done]. case_bool_decide; [done|].
  destruct (negb (WorkerProcessKeySchema k)); [done|]. case_bool_decide; [done|].
  destruct (so _) as [s|]; [|done]. destruct (negb (session_matches m s)); [done|]. destruct (negb _ || negb _); [done|].
  destruct (to _) as [tg|]; [|done]. case_bool_decide; [done|]. destruct (negb (target_ready tg)); [done|].
  case_bool_decide; [done|]. apply bind_Ok in H as ([db1 x] & Hs & H). case_bool_decide; [done|].
  apply bind_Ok in H as (cur & _ & [= <- _]). eapply set_attempt_advances; [apply Hok|exact Hin|exact Hs|].
  intros _. apply with_native_lifecycle; [congruence|]. constructor; [by apply same_sequence|done..].
Qed.
End NativeSteps.

(** ** Histories *)

(** Entry transitions that leave admitted entries alone keep the invariant. *)
Lemma entry_update_ok id p s d db :
  db_ok db → (∀ r, r ∈ entries db → queueEntryId r = id → p r = true → status r ≠ AdmittedEntry) →
  db_ok (set_entry id p (set_status s d) db).1.
Proof.
  intros [Hu He Hl Hc Hn] Hp. split; [done| | |done|done].
  - by apply status_update_ok.
  - intros a Ha La. destruct (Hl a Ha La) as (r & Hr & Ho & Hs). exists r. split_and!; [|done|done].
    apply update_where_untouched; [done|]. destruct (_ && _) eqn:G; [|done]. apply andb_true_iff in G as [G1 G2].
    bool_to_prop. by destruct (Hp r Hr G1 G2).
Qed.

Lemma deny_ok id reason db db' e :
  db_ok db → denySchedulerAdmissionEntry id reason db = Ok (db', e) → db_ok db' ∧ attempts db' = attempts db.
Proof.
  intros Hok (e0 & (Hg & _ & _)%require_entry & H)%bind_Ok. case_bool_decide as Q; [done|].
  cbv zeta in H. apply bind_Ok in H as (e1 & _ & [= <- _]). split; [|done]. apply entry_update_ok; [done|].
  apply get_entry_Some in Hg as [Hr Hid]. intros r Hr' Hid' _.
  assert (r = row e0) as -> by (eapply NoDup_fmap_elem; [apply (ok_entry_ids _ (ok_entries _ Hok))|done|done|congruence]). congruence.
Qed.

Lemma retry_ok id ws db db' e :
  db_ok db → retryDeniedSchedulerAdmissionEntry id ws db = Ok (db', e) → db_ok db' ∧ attempts db' = attempts db.
Proof.
  intros Hok (e0 & _ & H)%bind_Ok. case_bool_decide; [done|]. destruct (series_waiting _ _); [done|].
  destruct (_ <=? _)%nat; [done|]. cbn [set_entry] in H. case_bool_decide; [done|].
  apply bind_Ok in H as (e1 & _ & [= <- _]). split; [|done].
  apply (entry_update_ok id (λ r, bool_decide (workspaceId r = workspaceId (row e0)) && bool_decide (status r = Denied))); [done|].
  intros r _ _ [_ G]%andb_true_iff. bool_to_prop. congruence.
Qed.

Lemma cancel_ok id ws db db' e :
  db_ok db → cancelSchedulerAdmissionEntry id ws db = Ok (db', e) → db_ok db' ∧ attempts db' = attempts db.
Proof.
  intros Hok (e0 & _ & H)%bind_Ok. destruct (negb _) eqn:N; [done|]. cbn [set_entry] in H. case_bool_decide; [done|].
  apply bind_Ok in H as (e1 & _ & [= <- _]). split; [|done].
  apply (entry_update_ok id (λ r, bool_decide (workspaceId r = workspaceId (row e0)) && bool_decide (status r = status (row e0)))); [done|].
  intros r _ _ [_ G]%andb_true_iff. apply negb_false_iff, orb_true_iff in N. bool_to_prop. destruct N; bool_to_prop; congruence.
Qed.

Lemma admit_ok sha256 i t db db' e :
  db_ok db → createSchedulerAdmissionEntry sha256 i t db = Ok (db', e) → db_ok db' ∧ attempts db' = attempts db.
Proof.
  intros Hok [_ H]%create_spec. pose proof (created_entries_ok _ _ _ _ _ _ (ok_entries _ Hok) H) as He.
  destruct H as [|e' ? ? ? ? ? ? ? ? ? ? ? ?]; [done|]. split; [|done]. destruct Hok as [Hu _ Hl Hc Hn]. split; [done|done| |done|done].
  intros a Ha La. destruct (Hl a Ha La) as (r & Hr & Ho & Hs). exists r. split_and!; [|done|done]. cbn. apply elem_of_app. by left.
Qed.

Section Histories.
Context (sha256 : jsstr → jsstr) (sha256_hex : list Z → jsstr).

(** A command of the scheduler that succeeds.  A refused one leaves the database as it was. *)
Inductive scheduler_step : CoreDb → CoreDb → Prop :=
| step_attempt env input db db' o :
    applyControlExecutionAttempt sha256 env input db = Ok (db', o) → scheduler_step db db'
| step_heartbeat binding lineage seq t key db db' n :
    acceptNanoHostAttemptHeartbeatByBinding sha256_hex binding lineage seq t key db = Ok (db', n) → scheduler_step db db'
| step_reconnect session_of target_of binding lineage key seq t db db' n :
    adoptNanoHostAttemptReconnectHash session_of target_of binding lineage key seq t db = Ok (db', n) → scheduler_step db db'
| step_tokens id binding c i k t db db' n :
    bindNanoHostAttemptRouteTokenHashes id binding c i k t db = Ok (db', n) → scheduler_step db db'
| step_admit i t db db' e : createSchedulerAdmissionEntry sha256 i t db = Ok (db', e) → scheduler_step db db'
| step_deny id reason db db' e : denySchedulerAdmissionEntry id reason db = Ok (db', e) → scheduler_step db db'
| step_retry id ws db db' e : retryDeniedSchedulerAdmissionEntry id ws db = Ok (db', e) → scheduler_step db db'
| step_cancel id ws db db' e : cancelSchedulerAdmissionEntry id ws db = Ok (db', e) → scheduler_step db db'.

Lemma advances_both db db' : db_ok db → advances db db' → evolves db db' ∧ db_ok db'.
Proof. intros Hok H. split; [by apply advances_evolves|by eapply advances_ok]. Qed.

Lemma apply_step env input db db' o :
  db_ok db → applyControlExecutionAttempt sha256 env input db = Ok (db', o) → evolves db db' ∧ db_ok db'.
Proof.
  intros Hok H. destruct input; cbn [applyControlExecutionAttempt] in H;
    unfold require_after, some_attempt in H.
  - apply bind_Ok in H as (db1 & H & (a & _ & [= <- _])%bind_Ok). apply advances_both; [done|]. by eapply preparation_advances.
  - apply bind_Ok in H as (db1 & H & (a & _ & [= <- _])%bind_Ok). apply advances_both; [done|]. by eapply arm_advances.
  - apply bind_Ok in H as (db1 & H & (a & _ & [= <- _])%bind_Ok). apply advances_both; [done|]. by eapply evidence_advances.
  - apply bind_Ok in H as (a & _ & H). destruct (_ || _); [done|]. injection H as <- _. split; [apply evolves_same_db|done].
  - destruct (env_content env); [|done]. apply bind_Ok in H as (_ & _ & ([db1 a] & H & [= <- _])%bind_Ok). by eapply create_evolves.
  - apply bind_Ok in H as ([db1 a] & H & [= <- _]). apply advances_both; [done|]. by eapply bind_advances.
  - apply bind_Ok in H as ([db1 a] & H & [= <- _]). apply advances_both; [done|]. by eapply finalize_advances.
  - apply bind_Ok in H as ([db1 a] & H & [= <- _]). apply advances_both; [done|]. by eapply record_advances.
  - apply advances_both; [done|]. by eapply observe_advances.
  - apply bind_Ok in H as ([db1 a] & H & [= <- _]). apply advances_both; [done|]. by eapply closing_advances.
  - apply bind_Ok in H as ([db1 a] & H & [= <- _]). by eapply without_effects_evolves.
  - apply bind_Ok in H as ([db1 a] & H & [= <- _]). apply advances_both; [done|]. by eapply fence_advances.
Qed.

Lemma step_keeps db db' : scheduler_step db db' → db_ok db → evolves db db' ∧ db_ok db'.
Proof.
  intros H Hok. destruct H as [env input db db' o H|b l q t k db db' n H|so to b l k q t db db' n H|id b c i k t db db' n H
    |i t db db' e H|id r db db' e H|id ws db db' e H|id ws db db' e H].
  - by eapply apply_step.
  - apply advances_both; [done|]. unfold acceptNanoHostAttemptHeartbeatByBinding in H. apply bind_Ok in H as ([m|] & _ & H); [|done].
    by eapply heartbeat_advances.
  - apply advances_both; [done|]. by eapply adopt_advances.
  - apply advances_both; [done|]. by eapply tokens_advance.
  - destruct (admit_ok _ _ _ _ _ _ Hok H). split; [by apply evolves_same|done].
  - destruct (deny_ok _ _ _ _ _ Hok H). split; [by apply evolves_same|done].
  - destruct (retry_ok _ _ _ _ _ Hok H). split; [by apply evolves_same|done].
  - destruct (cancel_ok _ _ _ _ _ Hok H). split; [by apply evolves_same|done].
Qed.
End Histories.
