(* ===== verification/SchedulerHistory.v ===== *)
(** * Histories of the scheduler
    (nanocore/src/runtime/scheduler-records.ts, nanocore/src/runtime/execution-attempt-records.ts,
    nanocore/src/runtime/nanohost-attempt-records.ts, nanocore/src/storage/execution-attempt-native.ts)

    The commands of [SchedulerRecords], [ExecutionAttempts] and [NanoHostAttempts] composed into runs:
    what one attempt may go through over its whole life, that the two tables keep their exclusion along
    every run, and that the entry the dispatcher selects can be acquired. *)

From stdpp Require Import relations.
From S2P Require Import Prelude JsValue EntityId CommandInput SchedulerStore SchedulerRecords ExecutionAttempts NanoHostAttempts.

Local Open Scope string_scope.
Local Open Scope list_scope.
Local Open Scope Z_scope.

(** ** The life of one attempt *)

Definition write_once {A} (before after : option A) : Prop := before ≠ None → after = before.

(** What any number of commands may do to an attempt. *)
Record history (a b : AttemptRow) : Prop := {
  hs_owner : owner b = owner a;
  hs_closed : phase a = Closed → b = a;
  hs_forward : phase_rank (phase a) <= phase_rank (phase b);
  hs_session : write_once (agentSessionId a) (agentSessionId b);
  hs_input : write_once (inputRef a) (inputRef b);
  hs_binding : write_once (bindingRef a) (bindingRef b);
  hs_deadline : write_once (deadline a) (deadline b);
  hs_cause : write_once (terminalCause a) (terminalCause b);
  hs_outcome : write_once (outcomeRef a) (outcomeRef b);
  hs_fence : write_once (fenceRef a) (fenceRef b);
  hs_revoked : phase a ≠ Open →
    agentSessionId b = agentSessionId a ∧ inputRef b = inputRef a ∧ bindingRef b = bindingRef a ∧
    operationId b = operationId a ∧ deadline b = deadline a;
  hs_native : native_history (native a) (native b);
}.

Lemma write_once_trans {A} (x y z : option A) : write_once x y → write_once y z → write_once x z.
Proof. unfold write_once. intros H1 H2 H. specialize (H1 H). subst y. by apply H2. Qed.

#[export] Instance native_history_trans : Transitive native_history.
Proof.
  intros p q r H1 H2. constructor.
  - pose proof (nv_sequence _ _ H1). pose proof (nv_sequence _ _ H2).
    destruct (lastWorkerSequence p), (lastWorkerSequence q), (lastWorkerSequence r); try done; lia.
  - rewrite (nv_timeout _ _ H2). apply H1.
  - exact (write_once_trans _ _ _ (nv_startup _ _ H1) (nv_startup _ _ H2)).
  - exact (write_once_trans _ _ _ (nv_key _ _ H1) (nv_key _ _ H2)).
  - exact (write_once_trans _ _ _ (nv_control _ _ H1) (nv_control _ _ H2)).
  - exact (write_once_trans _ _ _ (nv_inference _ _ H1) (nv_inference _ _ H2)).
  - exact (write_once_trans _ _ _ (nv_capability _ _ H1) (nv_capability _ _ H2)).
Qed.

Lemma lifecycle_history a b : lifecycle a b → history a b.
Proof. intros [ ]. by constructor. Qed.

#[export] Instance history_refl : Reflexive history.
Proof. intros a. apply lifecycle_history, lifecycle_refl. Qed.

#[export] Instance history_trans : Transitive history.
Proof.
  intros a b c H1 H2. constructor; try (eapply write_once_trans; [apply H1|apply H2]).
  - rewrite (hs_owner _ _ H2). apply H1.
  - intros P. pose proof (hs_closed _ _ H1 P) as ->. by apply H2.
  - pose proof (hs_forward _ _ H1). pose proof (hs_forward _ _ H2). lia.
  - intros P. destruct (hs_revoked _ _ H1 P) as (<- & <- & <- & <- & <-). apply H2. intros Q. apply P.
    pose proof (hs_forward _ _ H1) as F. rewrite Q in F. by destruct (phase a).
  - etrans; [apply H1|apply H2].
Qed.

Section Runs.
Context (sha256 : jsstr → jsstr) (sha256_hex : list Z → jsstr).
Local Notation run := (rtc (scheduler_step sha256 sha256_hex)).

Lemma evolves_history db db' a :
  evolves db db' → attempts_unique (attempts db') → a ∈ attempts db →
  ∃ b, get_attempt db' (at_id a) = Some b ∧ history a b.
Proof.
  intros (l & new & E & H & _) Hu [i Ha]%list_elem_of_lookup.
  destruct (Forall2_lookup_l _ _ _ _ _ H Ha) as (b & Hb%list_elem_of_lookup_2 & L). exists b.
  split; [|by apply lifecycle_history]. replace (at_id a) with (at_id b) by (unfold at_id; by rewrite (lc_owner _ _ L)).
  apply get_attempt_unique; [done|]. rewrite E. apply elem_of_app. by left.
Qed.

Lemma run_keeps db db' :
  run db db' → db_ok db → db_ok db' ∧ ∀ a, a ∈ attempts db → ∃ b, get_attempt db' (at_id a) = Some b ∧ history a b.
Proof.
  induction 1 as [db|db db1 db2 Hs _ IH]; intros Hok.
  - split; [done|]. intros a Ha. exists a. split; [apply get_attempt_unique; [apply Hok|done]|done].
  - destruct (step_keeps _ _ _ _ Hs Hok) as [He Hok1]. destruct (IH Hok1) as [Hok2 Hh]. split; [done|].
    intros a Ha. destruct (evolves_history _ _ _ He (ok_attempts _ Hok1) Ha) as (b & Hb & H1).
    destruct (get_attempt_Some _ _ _ Hb) as [Hin Eid]. destruct (Hh b Hin) as (c & Hc & H2).
    exists c. split; [by rewrite <-Eid|by etrans].
Qed.

Lemma live_same_thread rows a b :
  attempts_unique rows → a ∈ rows → b ∈ rows → is_live a = true → is_live b = true → at_thread a = at_thread b → a = b.
Proof.
  intros Hu Ha Hb La Lb. eapply NoDup_fmap_elem; [apply (unique_live_thread _ Hu)| |]; by apply elem_of_filterb.
Qed.

(** C2. Along every run of scheduler, attempt, heartbeat and reconnect commands from a coherent database,
    refused commands left out: no Turn and no Thread ever has two live attempts; every live attempt is owned
    by an admitted queue entry with its lineage; an attempt is open exactly while it has no terminal cause;
    no attempt disappears, its phase never goes back, a closed one is frozen, and its session, input,
    binding, deadline, cause, outcome, fence, process key and route tokens are written at most once while the
    worker's sequence never decreases. *)
Theorem scheduler_keeps_exclusion db db' :
  run db db' → db_ok db →
  (∀ a b, a ∈ attempts db' → b ∈ attempts db' → is_live a = true → is_live b = true →
     at_turn a = at_turn b ∨ at_thread a = at_thread b → a = b) ∧
  (∀ a, a ∈ attempts db' → is_live a = true →
     ∃ r, r ∈ entries db' ∧ owns_attempt a r = true ∧ status r = AdmittedEntry) ∧
  (∀ a, a ∈ attempts db' → phase a = Open ↔ terminalCause a = None) ∧
  (∀ a, a ∈ attempts db → ∃ b, get_attempt db' (at_id a) = Some b ∧ history a b).
Proof.
  intros Hr Hok. destruct (run_keeps _ _ Hr Hok) as [[Hu _ Hl Hc _] Hh]. split_and!; [|done..].
  intros a b Ha Hb La Lb [E|E]; [by eapply live_same_turn|by eapply live_same_thread].
Qed.
End Runs.

(** ** Acquisition of the selected entry *)

Lemma changes_one {A K} `{EqDecision K} (key : A → K) (p : A → bool) l r :
  NoDup (key <$> l) → r ∈ l → p r = true → changes (λ x, bool_decide (key x = key r) && p x) l = 1%nat.
Proof.
  intros Hn (pre & post & ->)%list_elem_of_split Hp. rewrite fmap_app, fmap_cons in Hn.
  apply NoDup_app in Hn as (_ & Hd & [Hc _]%NoDup_cons). unfold changes. rewrite filterb_app. cbn [filterb].
  rewrite bool_decide_eq_true_2, Hp by done. cbn [andb]. rewrite length_app. cbn [length].
  rewrite !(proj2 (filterb_nil _ _)); [done|..].
  - intros x Hx. rewrite bool_decide_eq_false_2; [done|]. intros E. apply Hc. rewrite <-E. by apply list_elem_of_fmap_2.
  - intros x Hx. rewrite bool_decide_eq_false_2; [done|]. intros E. apply (Hd (key x)); [by apply list_elem_of_fmap_2|].
    rewrite E. left.
Qed.

Lemma not_excluded db r a :
  excluded db r = false → a ∈ filterb is_live (attempts db) → at_turn a ≠ turnId r ∧ at_thread a ≠ (workspaceId r, threadId r).
Proof.
  unfold excluded. intros H [Ha La]%elem_of_filterb. rewrite <-not_true_iff_false, existsb_exists in H.
  split; intros E; apply H; exists a; (split; [by apply list_elem_of_In|]); rewrite La, (bool_decide_eq_true_2 _ E); [done|by rewrite orb_true_r].
Qed.

Lemma acquired_unique db r id prep t :
  attempts_unique (attempts db) → excluded db r = false → id ∉ at_id <$> attempts db →
  attempts_unique (attempts db ++ [new_attempt r id prep t]).
Proof.
  intros [H1 H2 H3 H4] Hx Hid. constructor.
  - rewrite fmap_app. apply NoDup_app. split_and!; [done| |apply NoDup_singleton].
    intros x Hin ->%list_elem_of_singleton. by apply Hid.
  - rewrite filterb_app, fmap_app. apply NoDup_app. split_and!; [done| |apply NoDup_singleton].
    intros x (a & -> & Ha)%list_elem_of_fmap E%list_elem_of_singleton. by apply (proj1 (not_excluded _ _ _ Hx Ha)).
  - rewrite filterb_app, fmap_app. apply NoDup_app. split_and!; [done| |apply NoDup_singleton].
    intros x (a & -> & Ha)%list_elem_of_fmap E%list_elem_of_singleton. by apply (proj2 (not_excluded _ _ _ Hx Ha)).
  - rewrite filterb_app, omap_app. by rewrite app_nil_r.
Qed.

Lemma get_entry_unique db r : entries_ok db → r ∈ entries db → get_entry db (queueEntryId r) = Some r.
Proof.
  intros Hok Hr. unfold get_entry. destruct (find _ _) as [b|] eqn:F.
  - apply find_Some in F as [Hb E]. cbv beta in E. bool_to_prop. f_equal. by eapply NoDup_fmap_elem; [apply Hok|..].
  - pose proof (proj1 (find_None _ _) F r Hr) as N. cbv beta in N. bool_to_prop. done.
Qed.

Lemma fresh_found db (r : AttemptRow) es :
  at_id r ∉ at_id <$> attempts db → get_attempt (with_entries es (with_attempts (attempts db ++ [r]) db)) (at_id r) = Some r.
Proof.
  intros H. unfold get_attempt. cbn [attempts with_entries with_attempts]. rewrite find_app.
  destruct (find _ _) as [b|] eqn:F.
  - apply find_Some in F as [Hb E]. cbv beta in E. bool_to_prop. exfalso. apply H. rewrite <-E. by apply list_elem_of_fmap_2.
  - cbn. by rewrite bool_decide_eq_true_2.
Qed.

Section Dispatch.
Context (authorized : SchedulerAdmissionEntryRecord → bool) (db : CoreDb) (unpublished : list jsstr)
  (id prep : jsstr) (t : Z).

(** The acquisition of an entry that is queued and not excluded. *)
Lemma acquire_eligible e :
  db_ok db → row e ∈ entries db → status (row e) = Queued → mapSchedulerAdmissionEntryRow (row e) = Ok e → eligible db unpublished (row e) →
  authorized e = true → id ∉ at_id <$> attempts db → SchedulerExecutionAttemptSchema (new_attempt (row e) id prep t) = true →
  ∃ db', createSchedulerExecutionAttempt authorized (queueEntryId (row e)) (backendId (row e)) id prep t db =
         Ok (db', new_attempt (row e) id prep t) ∧
    attempts db' = attempts db ++ [new_attempt (row e) id prep t] ∧
    get_entry db' (queueEntryId (row e)) = Some (set_status AdmittedEntry (denialReason (row e)) (row e)) ∧ db_ok db'.
Proof.
  intros Hok Hin Hq Hm [_ Hx] Ha Hid Hs. pose proof (ok_entries _ Hok) as He.
  pose proof (acquired_unique db (row e) id prep t (ok_attempts _ Hok) Hx Hid) as Hu.
  set (new := new_attempt (row e) id prep t) in *.
  set (es := update_where (λ r, bool_decide (queueEntryId r = queueEntryId (row e)) && is_queued r)
               (λ r, set_status AdmittedEntry (denialReason r) r) (entries db)).
  set (db' := with_entries es (with_attempts (attempts db ++ [new]) db)).
  assert (createSchedulerExecutionAttempt authorized (queueEntryId (row e)) (backendId (row e)) id prep t db = Ok (db', new)) as C.
  { unfold createSchedulerExecutionAttempt, requireSchedulerAdmissionEntry. rewrite (get_entry_unique _ _ He Hin), Hm.
    cbn [mbind result_bind]. rewrite Ha, !bool_decide_eq_false_2 by naive_solver. cbn [orb negb].
    unfold store_attempts. rewrite decide_True by done. cbn [mbind result_bind set_entry]. cbn [entries with_attempts].
    rewrite (changes_one queueEntryId is_queued _ (row e) (ok_entry_ids _ He) Hin) by (unfold is_queued; by rewrite bool_decide_eq_true_2).
    rewrite bool_decide_eq_false_2 by naive_solver. unfold requireSchedulerExecutionAttempt.
    fold new es db'. rewrite (fresh_found db new es Hid : get_attempt db' id = Some new). unfold decode_attempt, readRetainedV1.
    rewrite bool_decide_eq_true_2, Hs by done. done. }
  exists db'. destruct (create_evolves _ _ _ _ _ _ _ _ _ Hok C) as [_ Hok']. split_and!; [done|done| |done].
  set (r' := set_status AdmittedEntry (denialReason (row e)) (row e)).
  change (queueEntryId (row e)) with (queueEntryId r'). apply get_entry_unique; [apply Hok'|].
  apply elem_of_update_where. exists (row e). split; [done|]. unfold is_queued. by rewrite !bool_decide_eq_true_2.
Qed.

(** C17. When the queue can be read and some queued entry is eligible (it is published, and neither its Turn nor
    its Thread has a live attempt), the selection finds one: the oldest queued entry that is eligible, never
    an unpublished or excluded one.  The acquisition of that entry succeeds: with current authority,
    well-formed identifiers and an unused attempt id, the command inserts exactly one fresh open attempt,
    moves the entry to admitted and keeps the tables coherent. *)
Theorem next_admission_is_dispatched (queue : list SchedulerAdmissionEntryRecord) (r : AdmissionRow) :
  db_ok db → listQueuedSchedulerAdmissionEntries db = Ok queue →
  r ∈ entries db → status r = Queued → eligible db unpublished r →
  (∀ e, e ∈ queue → authorized e = true ∧ SchedulerExecutionAttemptSchema (new_attempt (row e) id prep t) = true) →
  id ∉ at_id <$> attempts db →
  ∃ e, findNextDispatchableSchedulerAdmissionEntry db unpublished = Ok (Some e) ∧
  queueEntryId (row e) ∉ unpublished ∧ (∀ a, a ∈ attempts db → is_live a = true → at_turn a ≠ turnId (row e) ∧ at_thread a ≠ (workspaceId (row e), threadId (row e))) ∧
  (∃ pre post, filterb is_queued (entries db) = pre ++ row e :: post ∧ Forall (λ r, ¬ eligible db unpublished r) pre) ∧
  ∃ db', createSchedulerExecutionAttempt authorized (queueEntryId (row e)) (backendId (row e)) id prep t db =
         Ok (db', new_attempt (row e) id prep t) ∧
    attempts db' = attempts db ++ [new_attempt (row e) id prep t] ∧
    get_entry db' (queueEntryId (row e)) = Some (set_status AdmittedEntry (denialReason (row e)) (row e)) ∧ db_ok db'.
Proof.
  intros Hok Hqueue Hr Hqr Her Hall Hid.
  destruct (findNextDispatchableSchedulerAdmissionEntry db unpublished) as [[e|]|] eqn:F.
  3:{ unfold findNextDispatchableSchedulerAdmissionEntry in F. by rewrite Hqueue in F. }
  2:{ by destruct (next_dispatchable _ _ _ F r Hr Hqr). }
  destruct (next_dispatchable _ _ _ F) as (pre & post & E & Hm & Hel & Hp). exists e.
  assert (row e ∈ entries db ∧ is_queued (row e) = true) as [Hin Hq].
  { apply elem_of_filterb. rewrite E. apply elem_of_app. right. left. }
  unfold is_queued in Hq. bool_to_prop.
  assert (e ∈ queue) as [Ha Hs]%Hall.
  { unfold findNextDispatchableSchedulerAdmissionEntry in F. rewrite Hqueue in F. injection F as F. by apply find_Some in F as [? _]. }
  split_and!; [done|apply Hel| |by exists pre, post|by apply acquire_eligible].
  intros a Hina Hla. apply (not_excluded db); [apply Hel|]. by apply elem_of_filterb.
Qed.
End Dispatch.

(** ** Release *)

Lemma commit_row db a p f lost db' b :
  attempts_unique (attempts db) → a ∈ attempts db → p a = true → at_id (f a) = at_id a →
  commit (at_id a) p f lost db = Ok (db', b) → b = f a ∧ requireSchedulerExecutionAttempt db' (at_id a) = Ok b.
Proof.
  unfold commit. intros Hu Ha Hp Hid ([db1 n] & (Hu' & _ & _ & E & _)%set_attempt_spec & H)%bind_Ok.
  case_bool_decide; [done|]. apply bind_Ok in H as (c & Hc & [= <- <-]). cbn [fst] in Hc. split; [|done].
  destruct (require_attempt _ _ _ Hc) as (Hg & _).
  assert (f a ∈ attempts db1) as Hf.
  { rewrite E. apply elem_of_update_where. exists a. by rewrite bool_decide_eq_true_2, Hp. }
  pose proof (get_attempt_unique _ _ Hu' Hf) as G. rewrite Hid in G. congruence.
Qed.

Lemma fence_replay sha256 c proof fence t db b own :
  requireSchedulerExecutionAttempt db (cr_attemptId c) = Ok b → schedulerExecutionCorrelation b = Ok own →
  commandInputHash sha256 (correlation_json own) = commandInputHash sha256 (correlation_json c) →
  proof_complete proof = true → fence ≠ [] → fenceRef b = None ∨ fenceRef b = Some fence → phase b = Closed →
  closeSchedulerExecutionAttemptWithFence sha256 c proof fence t db = Ok (db, b).
Proof.
  intros Rb Hown Hh Hp Hf Hr P. unfold closeSchedulerExecutionAttemptWithFence. rewrite Rb. cbn [mbind result_bind].
  rewrite Hown. cbn [mbind result_bind]. rewrite Hh, Hp, P. unfold nonempty.
  rewrite !(bool_decide_eq_false_2 (commandInputHash _ _ ≠ _)), (bool_decide_eq_false_2 (fence = [])) by tauto.
  destruct Hr as [->| ->]; [done|]. by rewrite (bool_decide_eq_false_2 (Some fence ≠ Some fence)), andb_false_r by tauto.
Qed.

(** C14. An attempt is released by a fence only when it has been revoked, the correlation presented has
    the hash of the attempt's own outstanding operation, every part of the release proof holds, and the
    fence agrees with one recorded before; the release then closes the attempt under that fence, leaves
    its disposition and outcome as observed, and the same release repeated changes nothing. *)
Theorem release_needs_proof sha256 c proof fence t db db' b :
  db_ok db → closeSchedulerExecutionAttemptWithFence sha256 c proof fence t db = Ok (db', b) →
  (∃ a own, get_attempt db (cr_attemptId c) = Some a ∧ schedulerExecutionCorrelation a = Ok own ∧
     commandInputHash sha256 (correlation_json own) = commandInputHash sha256 (correlation_json c) ∧
     proof_complete proof = true ∧ fence ≠ [] ∧ (fenceRef a = None ∨ fenceRef a = Some fence) ∧
     (phase a = Closing ∧ fenceRef b = Some fence ∨ phase a = Closed ∧ b = a ∧ db' = db) ∧
     disposition b = disposition a ∧ outcomeRef b = outcomeRef a) ∧
  phase b = Closed ∧ ∀ t', closeSchedulerExecutionAttemptWithFence sha256 c proof fence t' db' = Ok (db', b).
Proof.
  intros Hok H. unfold closeSchedulerExecutionAttemptWithFence in H.
  apply bind_Ok in H as (a & Ra & (own & Hown & H)%bind_Ok). destruct (require_attempt _ _ _ Ra) as (Hg & _ & Hid & Ha).
  destruct (_ || _ || _ || _) eqn:G; [done|].
  apply orb_false_iff in G as [[[G1 G2]%orb_false_iff G3]%orb_false_iff G4].
  apply bool_decide_eq_false_1, dec_stable in G1. unfold nonempty in G2. bool_to_prop.
  assert (fenceRef a = None ∨ fenceRef a = Some fence) as Hf.
  { destruct G3 as [G3|G3]; bool_to_prop; apply dec_stable in G3; auto. }
  case_bool_decide as P.
  - injection H as <- <-. split_and!; [exists a, own; split_and!; by auto|done|]. intros t'. by eapply fence_replay.
  - case_bool_decide as Q; [done|].
    eapply commit_row in H as [Eb Rb]; [|apply Hok|done|by rewrite Q, !bool_decide_eq_true_2|done]. rewrite Hid in Rb.
    split_and!; [exists a, own; split_and!; subst b; by auto|by subst b|]. intros t'.
    eapply fence_replay; [done| |done..| |]; subst b; [done|by right|done].
Qed.

(** ** A run *)

Module SchedulerDemo.
Definition input : CreateSchedulerAdmissionEntryInput := {|
  in_backendId := js "nanohost"; in_queueEntryId := js "queue-1"; in_requestId := None;
  in_triggerActor := JObj [(js "kind", JStr (js "user")); (js "id", JStr (js "usr_01890f3e-0000-7000-8000-000000000001"))];
  in_serverAdminTokenId := None; in_workspaceCwd := None; in_workspaceRoots := None;
  in_workspaceId := js "ws_01890f3e-0000-7000-8000-000000000002";
  in_threadId := js "th_01890f3e-0000-7000-8000-000000000003";
  in_turnId := js "tu_01890f3e-0000-7000-8000-000000000004"; in_turnInput := js "hello";
  in_workerStorageChoice := None; in_requestedAgentId := js "agent"; in_profileRef := None; in_modelId := None;
  in_reasoningEffort := Some (js "high") |}.
Definition digest (s : jsstr) : jsstr := s.
Definition digest_hex (_ : list Z) : jsstr := js "digest".
Definition empty_db : CoreDb := {| entries := []; attempts := []; occurrences := [] |}.
Definition left_by {A} (out : result SchedulerError (CoreDb * A)) : CoreDb :=
  match out with Ok (db, _) => db | Err _ => empty_db end.
Definition queued : CoreDb := left_by (createSchedulerAdmissionEntry digest input 1000 empty_db).
Definition the_entry (db : CoreDb) : SchedulerAdmissionEntryRecord :=
  match findNextDispatchableSchedulerAdmissionEntry db [] with
  | Ok (Some e) => e
  | _ => {| row := new_row input [] (UserActor []) None None 0; triggerActor := UserActor []; workspaceRoots := []; workerStorageChoice := None |}
  end.
Definition attempt_id : jsstr := js "attempt_01890f3e-0000-7000-8000-000000000005".
Definition session_id : jsstr := js "as_01890f3e-0000-7000-8000-000000000006".
Definition environment : Environment :=
  {| env_now := 2000; env_content := Some (js "{}"); env_authorized := λ _, true; env_session := λ _, None |}.
Definition apply (input : ControlExecutionAttemptInput) (db : CoreDb) : CoreDb :=
  left_by (applyControlExecutionAttempt digest environment input db).
Definition acquired : CoreDb := apply (CmdCreate (js "queue-1") (js "nanohost") attempt_id) queued.
Definition bound : CoreDb := apply (CmdBindSession attempt_id session_id) acquired.
Definition finalized : CoreDb := apply (CmdFinalizeInput attempt_id (js "pkg") (js "sandbox")) bound.
Definition submitted : CoreDb := apply (CmdRecordOperation attempt_id (js "op-1") true) finalized.
Definition revoked : CoreDb := apply (CmdClosing attempt_id (js "turn-completed") None) submitted.
Definition correlation : ExecutionBackendCorrelation :=
  {| cr_attemptId := attempt_id; cr_backendId := js "nanohost"; cr_bindingRef := Some (js "sandbox");
     cr_inputRef := Some (js "pkg"); cr_operationId := js "op-1" |}.
Definition full_proof : ExecutionReleaseProof :=
  {| terminalHandoff := true; output := true; evidence := true; outsideWorkspaceCollection := true;
     integrationDrain := true; routesRevoked := true |}.
Definition released : CoreDb := left_by (closeSchedulerExecutionAttemptWithFence digest correlation full_proof (js "fence-1") 3000 revoked).
Definition the_attempt (db : CoreDb) : AttemptRow :=
  match get_attempt db attempt_id with Some a => a | None => new_attempt (row (the_entry db)) [] [] 0 end.

Lemma queued_reached : createSchedulerAdmissionEntry digest input 1000 empty_db = Ok (queued, the_entry queued).
Proof. vm_compute. reflexivity. Qed.
Lemma command_reached command db a :
  applyControlExecutionAttempt digest environment command db = Ok (apply command db, a) →
  scheduler_step digest digest_hex db (apply command db).
Proof. apply step_attempt. Qed.

Lemma empty_ok : db_ok empty_db.
Proof. constructor; [repeat constructor|repeat constructor|intros a Ha; by apply elem_of_nil in Ha..]. Qed.

Lemma revoked_run : rtc (scheduler_step digest digest_hex) empty_db revoked.
Proof.
  apply (rtc_l _ _ queued); [exact (step_admit _ _ _ _ _ _ _ queued_reached)|].
  apply (rtc_l _ _ acquired); [apply (command_reached _ _ (Some (the_attempt acquired))); vm_compute; reflexivity|].
  apply (rtc_l _ _ bound); [apply (command_reached _ _ (Some (the_attempt bound))); vm_compute; reflexivity|].
  apply (rtc_l _ _ finalized); [apply (command_reached _ _ (Some (the_attempt finalized))); vm_compute; reflexivity|].
  apply (rtc_l _ _ submitted); [apply (command_reached _ _ (Some (the_attempt submitted))); vm_compute; reflexivity|].
  apply rtc_once. apply (command_reached _ _ (Some (the_attempt revoked))); vm_compute; reflexivity.
Qed.
Lemma queued_ok : db_ok queued.
Proof. exact (proj1 (admit_ok _ _ _ _ _ _ empty_ok queued_reached)). Qed.
Lemma revoked_ok : db_ok revoked.
Proof. exact (proj1 (run_keeps _ _ _ _ revoked_run empty_ok)). Qed.

(** One admission acquired, bound, submitted and revoked. *)
Lemma scheduler_keeps_exclusion_witness :
  phase (the_attempt revoked) = Closing ∧ length (attempts revoked) = 1%nat ∧
  ∀ a, a ∈ attempts revoked → phase a = Open ↔ terminalCause a = None.
Proof.
  split_and!; [vm_compute; reflexivity|vm_compute; reflexivity|].
  exact (proj1 (proj2 (proj2 (scheduler_keeps_exclusion digest digest_hex empty_db revoked revoked_run empty_ok)))).
Defined.

Lemma next_admission_is_dispatched_witness :
  ∃ e, findNextDispatchableSchedulerAdmissionEntry queued [js "queue-2"] = Ok (Some e) ∧ queueEntryId (row e) ∉ [js "queue-2"] ∧
  ∃ db', createSchedulerExecutionAttempt (λ _, true) (queueEntryId (row e)) (backendId (row e)) attempt_id (js "{}") 2000 queued =
    Ok (db', new_attempt (row e) attempt_id (js "{}") 2000) ∧ db_ok db'.
Proof.
  destruct (next_admission_is_dispatched (λ _, true) queued [js "queue-2"] attempt_id (js "{}") 2000 [the_entry queued] (row (the_entry queued)) queued_ok)
    as (e & H1 & H2 & _ & _ & db' & H3 & _ & _ & H4).
  - vm_compute. reflexivity.
  - assert (entries queued = [row (the_entry queued)]) as -> by (vm_compute; reflexivity). left.
  - vm_compute. reflexivity.
  - split; [apply (bool_decide_unpack _); vm_compute; exact I|vm_compute; reflexivity].
  - intros e [->|He]%elem_of_cons; [split; vm_compute; reflexivity|by apply elem_of_nil in He].
  - vm_compute. apply not_elem_of_nil.
  - exists e. split_and!; [exact H1|exact H2|]. exists db'. split; [exact H3|exact H4].
Defined.

Lemma release_needs_proof_witness :
  phase (the_attempt released) = Closed ∧
  ∀ t, closeSchedulerExecutionAttemptWithFence digest correlation full_proof (js "fence-1") t released = Ok (released, the_attempt released).
Proof.
  apply (release_needs_proof digest correlation full_proof (js "fence-1") 3000 revoked released (the_attempt released) revoked_ok).
  vm_compute. reflexivity.
Defined.

Lemma admission_is_idempotent_witness :
  entries_ok queued ∧ ∀ t, createSchedulerAdmissionEntry digest input t queued = Ok (queued, the_entry queued).
Proof.
  destruct (admission_is_idempotent digest input 1000 empty_db queued (the_entry queued) (ok_entries _ empty_ok) queued_reached)
    as (Hok & _ & Hreplay & _).
  split; [exact Hok|exact Hreplay].
Defined.

Lemma admission_pages_are_the_query_witness :
  listSchedulerAdmissionEntriesForWorkspace queued (in_workspaceId input) [Queued; Denied] = Ok [the_entry queued].
Proof.
  rewrite (admission_pages_are_the_query queued (in_workspaceId input) [Queued; Denied] (ok_entries _ queued_ok)).
  vm_compute. reflexivity.
Defined.

(** A requeue is not bounded by the queue: the entry of an attempt closed without effects returns to it. *)
Example requeued_entry_is_queued :
  queued_count (apply (CmdCloseWithoutEffects attempt_id (js "backend-busy") true) acquired) = 1%nat ∧
  queued_count acquired = 0%nat.
Proof. by vm_compute. Qed.
End SchedulerDemo.
