(* ===== verification/SchedulerDispatch.v ===== *)
(** * Dispatch and recovery of the scheduler
    (nanocore/src/runtime/scheduler-dispatch-loop.ts, nanocore/src/runtime/scheduler-restart-recovery.ts)

    The dispatcher selects queued admissions in FIFO order, skipping those whose Workspace is not
    admitted, is frozen or has an incomplete publication; recovery closes interrupted preparations and
    inspects outstanding operations.  Readiness, authority, publication, the dispatch of one admission,
    the backend and the product owner of recovered Turns are other components: they are arguments. *)

From stdpp Require Import relations.
From S2P Require Import Prelude JsValue CanonicalJson Calendar EntityId CommandInput SchedulerStore SchedulerRecords ExecutionAttempts NanoHostAttempts SchedulerHistory.

Local Open Scope string_scope.
Local Open Scope list_scope.
Local Open Scope Z_scope.

(** ** Selection *)

Record DispatchEnvironment := {
  de_scopeAdmitted : jsstr → bool;
  de_frozen : jsstr → bool;
  de_authorized : SchedulerAdmissionEntryRecord → bool;
  de_dispatchAuthority : SchedulerAdmissionEntryRecord → bool;
  de_published : SchedulerAdmissionEntryRecord → bool;
  de_fromSource : jsstr → bool;
  de_backendId : jsstr;
}.

Inductive QueuedReason := NoQueuedEntry | ThreadBusy | BackendBusy | EntryPublicationPending | RecoveryRequired | MaxDispatches.

(** What the loop body does with a selected entry; [Skip] carries whether its source needs recovery. *)
Inductive Consideration := Skip (sourceRecovery : bool) | Claimed | DenyEntry | WrongBackend | Take.

Section Selection.
Context (env : DispatchEnvironment) (claims : list jsstr).

Definition consider (e : SchedulerAdmissionEntryRecord) : Consideration :=
  let ws := workspaceId (row e) in
  let q := queueEntryId (row e) in
  if negb (de_scopeAdmitted env ws) then Skip true
  else if includes claims q then Claimed
  else if de_frozen env ws then Skip false
  else if negb (de_authorized env e) then DenyEntry
  else if bool_decide (backendId (row e) ≠ de_backendId env) then WrongBackend
  else if negb (de_published env e) then Skip (de_fromSource env q)
  else if negb (de_dispatchAuthority env e) then DenyEntry
  else Take.

(** The entries skipped so far and whether one of them needs its source recovered. *)
Record Skipped := { sk_ids : list jsstr; sk_recovery : bool }.
Definition skip (e : SchedulerAdmissionEntryRecord) (source : bool) (s : Skipped) : Skipped :=
  {| sk_ids := set_add (queueEntryId (row e)) (sk_ids s); sk_recovery := sk_recovery s || source |}.

Inductive Selection :=
| OutOfFuel
| SelectionError (e : SchedulerError)
| NoneLeft (reason : QueuedReason)
| Decided (e : SchedulerAdmissionEntryRecord) (c : Consideration).

Definition none_left (s : Skipped) (queued : nat) : QueuedReason :=
  if sk_recovery s then RecoveryRequired
  else if bool_decide (sk_ids s ≠ []) then EntryPublicationPending
  else if (0 <? queued)%nat then ThreadBusy else NoQueuedEntry.

(** The iterations of the loop that end in [count--; continue]. *)
Fixpoint select (fuel : nat) (db : CoreDb) (s : Skipped) : Skipped * Selection :=
  match fuel with
  | O => (s, OutOfFuel)
  | S fuel =>
    match findNextDispatchableSchedulerAdmissionEntry db (sk_ids s) with
    | Err e => (s, SelectionError e)
    | Ok None =>
      match listQueuedSchedulerAdmissionEntries db with
      | Ok queue => (s, NoneLeft (none_left s (length queue)))
      | Err e => (s, SelectionError e)
      end
    | Ok (Some e) =>
      match consider e with
      | Skip source => select fuel db (skip e source s)
      | c => (s, Decided e c)
      end
    end
  end.

(** ** The loop *)

Record DispatchResult := { dr_started : list jsstr; dr_reason : option QueuedReason }.
End Selection.

Section Loop.
Context (env : DispatchEnvironment).
(** One admission through its attempt: the entries started, how it ended, and whether its claim is still held. *)
Context (dispatch : SchedulerAdmissionEntryRecord → CoreDb → CoreDb * result SchedulerError (DispatchResult * bool)).

Inductive LoopOutcome :=
| LoopQueued (reason : QueuedReason)
| LoopDenied (entry : SchedulerAdmissionEntryRecord)
| LoopFailed (e : SchedulerError).

(** One unit of fuel per row of the table and one more: every skipped entry leaves the selection. *)
Definition select_fuel (db : CoreDb) : nat := S (length (entries db)).

Fixpoint dispatch_loop (count : nat) (claims : list jsstr) (s : Skipped) (started : list jsstr) (db : CoreDb)
    : CoreDb * list jsstr * LoopOutcome :=
  match count with
  | O => (db, started, LoopQueued MaxDispatches)
  | S count =>
    let '(s, selection) := select env claims (select_fuel db) db s in
    match selection with
    | OutOfFuel => (db, started, LoopQueued MaxDispatches)
    | SelectionError e => (db, started, LoopFailed e)
    | NoneLeft reason => (db, started, LoopQueued reason)
    | Decided e c =>
      match c with
      | Claimed => (db, started, LoopQueued ThreadBusy)
      | DenyEntry =>
        match denySchedulerAdmissionEntry (queueEntryId (row e)) AuthorityDenied db with
        | Ok (db, denied) => (db, started, LoopDenied denied)
        | Err x => (db, started, LoopFailed x)
        end
      | WrongBackend =>
        (db, started, LoopFailed (PlainError (js "Queued admission does not name the configured execution backend.")))
      | Skip _ => (db, started, LoopQueued MaxDispatches)
      | Take =>
        match dispatch e db with
        | (db, Err x) => (db, started, LoopFailed x)
        | (db, Ok (r, pending)) =>
          let started := started ++ dr_started r in
          match dr_reason r with
          | Some MaxDispatches =>
            dispatch_loop count (if pending then queueEntryId (row e) :: claims else claims) s started db
          | Some reason => (db, started, LoopQueued reason)
          | None => (db, started, LoopDenied e)
          end
        end
      end
    end
  end.

(** A claimed entry whose attempt is still being prepared. *)
Definition preparing (db : CoreDb) (claims : list jsstr) : bool :=
  existsb (λ q, existsb (λ a, bool_decide (ao_queueEntryId (owner a) = q) && is_open a && bool_decide (deadline a = None)) (attempts db)) claims.

(** [runSchedulerDispatchLoop], past the join of a caller's own claim. *)
Definition runSchedulerDispatchLoop (maxDispatches : nat) (claims : list jsstr) (db : CoreDb) : CoreDb * list jsstr * LoopOutcome :=
  if preparing db claims then (db, [], LoopQueued ThreadBusy)
  else dispatch_loop maxDispatches claims {| sk_ids := []; sk_recovery := false |} [] db.
End Loop.

(** ** Selection is one pass *)

Section OnePass.
Context (env : DispatchEnvironment) (claims : list jsstr) (db : CoreDb) (es : list SchedulerAdmissionEntryRecord).
Context (Hok : entries_ok db) (Hes : listQueuedSchedulerAdmissionEntries db = Ok es).

Definition eligibleb (skipped : list jsstr) (e : SchedulerAdmissionEntryRecord) : bool :=
  negb (includes skipped (queueEntryId (row e))) && negb (excluded db (row e)).

(** The reference: the candidates once, in order. *)
Fixpoint scan (l : list SchedulerAdmissionEntryRecord) (s : Skipped) : Skipped * Selection :=
  match l with
  | [] => (s, NoneLeft (none_left s (length es)))
  | e :: l => match consider env claims e with Skip source => scan l (skip e source s) | c => (s, Decided e c) end
  end.

Lemma queue_ids : NoDup ((queueEntryId ∘ row) <$> es).
Proof.
  rewrite list_fmap_compose, (mapM_rows _ _ Hes). eapply sublist_NoDup; [exact (ok_entry_ids _ Hok)|]. apply fmap_sublist, filterb_sublist.
Qed.

Lemma find_head {A} (p : A → bool) l : find p l = head (filterb p l).
Proof. induction l as [|x l IH]; [done|]. cbn. by destruct (p x). Qed.

Lemma filterb_ext_in {A} (p q : A → bool) l : (∀ x, x ∈ l → p x = q x) → filterb p l = filterb q l.
Proof.
  induction l as [|x l IH]; intros E; [done|]. cbn. rewrite (E x) by left. rewrite IH; [done|]. intros y Hy. apply E. by right.
Qed.
Lemma filterb_filterb {A} (p q : A → bool) l : filterb p (filterb q l) = filterb (λ x, q x && p x) l.
Proof. induction l as [|x l IH]; [done|]. cbn. destruct (q x); cbn; rewrite IH; by destruct (p x). Qed.

(** Skipping the first candidate leaves the other ones. *)
Lemma skip_candidate skipped e l :
  filterb (eligibleb skipped) es = e :: l → filterb (eligibleb (set_add (queueEntryId (row e)) skipped)) es = l.
Proof.
  intros E. assert (NoDup ((queueEntryId ∘ row) <$> e :: l)) as [Hn _]%NoDup_cons.
  { rewrite <-E. eapply sublist_NoDup; [exact queue_ids|]. apply fmap_sublist, filterb_sublist. }
  transitivity (filterb (λ x, negb (bool_decide (queueEntryId (row x) = queueEntryId (row e)))) (e :: l)).
  - rewrite <-E, filterb_filterb. apply filterb_ext_in. intros x _. unfold eligibleb.
    enough (includes (set_add (queueEntryId (row e)) skipped) (queueEntryId (row x)) =
      bool_decide (queueEntryId (row x) = queueEntryId (row e)) || includes skipped (queueEntryId (row x))) as ->.
    { destruct (bool_decide (_ = _)), (includes skipped _), (excluded db (row x)); done. }
    apply eq_true_iff_eq. unfold includes. rewrite orb_true_iff, !bool_decide_eq_true, elem_of_set_add. tauto.
  - cbn. rewrite bool_decide_eq_true_2 by done. cbn. apply filterb_all. intros x Hx. rewrite bool_decide_eq_false_2; [done|].
    intros Ex. apply Hn. cbn. rewrite <-Ex. apply (list_elem_of_fmap_2 (queueEntryId ∘ row) _ _ Hx).
Qed.

Lemma select_scans fuel s :
  (length (filterb (eligibleb (sk_ids s)) es) < fuel)%nat → select env claims fuel db s = scan (filterb (eligibleb (sk_ids s)) es) s.
Proof.
  revert s. induction fuel as [|fuel IH]; intros s Hf; [lia|]. cbn [select]. unfold findNextDispatchableSchedulerAdmissionEntry.
  rewrite Hes. cbn [mbind result_bind]. fold (eligibleb (sk_ids s)). rewrite find_head.
  destruct (filterb (eligibleb (sk_ids s)) es) as [|e l] eqn:E; cbn [head scan]; [done|].
  destruct (consider env claims e) as [source| | | |] eqn:C; try done.
  pose proof (skip_candidate _ _ _ E) as Es. rewrite IH; cbn [sk_ids skip].
  - by rewrite Es.
  - rewrite Es. cbn in Hf. lia.
Qed.

Lemma filterb_length {A} (p : A → bool) l : (length (filterb p l) <= length l)%nat.
Proof. apply sublist_length, filterb_sublist. Qed.

Lemma queue_length : (length es <= length (entries db))%nat.
Proof.
  rewrite <-(length_fmap row es), (mapM_rows _ _ Hes). apply filterb_length.
Qed.

Definition skips (e : SchedulerAdmissionEntryRecord) : Prop := ∃ source, consider env claims e = Skip source.

Lemma scan_decides l s :
  match (scan l s).2 with
  | Decided e c => c = consider env claims e ∧ ¬ skips e ∧ ∃ pre post, l = pre ++ e :: post ∧ Forall skips pre
  | NoneLeft _ => Forall skips l
  | _ => False
  end.
Proof.
  revert s. induction l as [|e l IH]; intros s; cbn [scan]; [by cbn|].
  destruct (consider env claims e) as [source| | | |] eqn:C; cbn [snd].
  1: { specialize (IH (skip e source s)). destruct (scan l (skip e source s)) as [s' [| |reason|e' c]]; cbn [snd] in IH |- *; try done.
    - constructor; [by exists source|done].
    - destruct IH as (-> & Hn & pre & post & -> & Hp). split_and!; [done|done|]. exists (e :: pre), post.
      split; [done|]. constructor; [by exists source|done]. }
  all: split_and!; [done|intros [source Hs]; congruence|exists [], l; done].
Qed.

(** C18. The retrying selection of the dispatcher ends within one round per queued row and is one pass over the
    FIFO candidates: it decides the oldest queued entry whose Turn and Thread are free and that is not to be
    skipped, and it reports that nothing can run only when every candidate is skipped.  An entry that is
    frozen, unpublished or outside the admitted scopes therefore never holds back a later one. *)
Theorem dispatch_decides_first_ready s :
  let out := select env claims (select_fuel db) db s in
  let candidates := filterb (eligibleb (sk_ids s)) es in
  out = scan candidates s ∧
  match out.2 with
  | Decided e c => c = consider env claims e ∧ ¬ skips e ∧ ∃ pre post, candidates = pre ++ e :: post ∧ Forall skips pre
  | NoneLeft _ => Forall skips candidates
  | _ => False
  end.
Proof.
  assert (select env claims (select_fuel db) db s = scan (filterb (eligibleb (sk_ids s)) es) s) as E.
  { apply select_scans. unfold select_fuel. pose proof (filterb_length (eligibleb (sk_ids s)) es). pose proof queue_length. lia. }
  cbv zeta. rewrite E. split; [done|]. apply scan_decides.
Qed.
End OnePass.

(** ** Commands in sequence *)

(** A computation that may have committed commands before it fails. *)
Definition Commands (A : Type) : Type := CoreDb → CoreDb * result SchedulerError A.
Definition finished {A} (a : A) : Commands A := λ db, (db, Ok a).
Definition abort {A} (e : SchedulerError) : Commands A := λ db, (db, Err e).
Definition and_then {A B} (m : Commands A) (f : A → Commands B) : Commands B := λ db,
  match m db with (db, Ok a) => f a db | (db, Err e) => (db, Err e) end.
Definition command {A} (f : CoreDb → result SchedulerError (CoreDb * A)) : Commands A := λ db,
  match f db with Ok (db, a) => (db, Ok a) | Err e => (db, Err e) end.
Definition query {A} (f : CoreDb → result SchedulerError A) : Commands A := λ db, (db, f db).
Notation "x <~ m ;; k" := (and_then m (λ x, k)) (at level 100, m at next level, right associativity).

(** ** Recovery *)

Record RecoveryEnvironment := {
  re_scopeAdmitted : jsstr → bool;
  re_backendId : jsstr;
  re_authorized : SchedulerAdmissionEntryRecord → bool;
  re_project : AttemptRow → result SchedulerError ();
  re_cancel : ExecutionBackendCorrelation → result SchedulerError (option ExecutionBackendObservation);
  re_inspect : ExecutionBackendCorrelation → result SchedulerError (option ExecutionBackendObservation);
  re_turnActive : jsstr → bool;
  re_timestamp : Z;
  re_now : Z;
}.

Section Recovery.
Context (env : RecoveryEnvironment).

Definition scope_of (a : AttemptRow) : bool := re_scopeAdmitted env (ao_workspaceId (owner a)).

Fixpoint restart_each (l : list AttemptRow) (ids : list jsstr) : Commands (list jsstr) :=
  match l with
  | [] => finished ids
  | a :: l =>
    if negb (scope_of a) then restart_each l ids
    else if bool_decide (ao_backendId (owner a) ≠ re_backendId env)
    then abort (PlainError (js "Retained attempt names an unavailable backend."))
    else if bool_decide (operationId a ≠ None) then restart_each l ids
    else
      _ <~ command (closeSchedulerExecutionAttemptWithoutEffects (at_id a) true (js "restart-before-effects") false (re_now env));;
      _ <~ query (λ _, re_project env a);;
      restart_each l (ids ++ [at_id a])
  end.

Definition runSchedulerRestartRecovery : Commands (list jsstr) :=
  l <~ query listOpenSchedulerExecutionAttempts;; restart_each l [].

(** The revocation of an open attempt that has lost its authority or its time. *)
Definition revoke (a : AttemptRow) (revoked : bool) : Commands () :=
  closing <~ command (markSchedulerExecutionAttemptClosing (at_id a)
               (if revoked then js "authority-revoked" else js "execution-deadline") None (re_now env));;
  if truthy (operationId closing) then
    observation <~ query (λ _, c ← schedulerExecutionCorrelation closing; re_cancel env c);;
    _ <~ command (acceptSchedulerExecutionObservation observation (re_now env));; finished ()
  else
    _ <~ command (closeSchedulerExecutionAttemptWithoutEffects (at_id closing) true (default [] (terminalCause closing)) false (re_now env));;
    query (λ _, re_project env closing).

Definition expired (a : AttemptRow) : bool := match deadline a with Some d => d <=? re_timestamp env | None => false end.

Definition maintain_one (a : AttemptRow) : Commands () :=
  if bool_decide (ao_backendId (owner a) ≠ re_backendId env) then abort (PlainError (js "Attempt backend identity changed."))
  else
    entry <~ query (λ db, requireSchedulerAdmissionEntry db (ao_queueEntryId (owner a)) None);;
    let revoked := negb (re_authorized env entry) in
    _ <~ (if is_open a && (revoked || expired a) then revoke a revoked else finished ());;
    if negb (truthy (operationId a)) then finished ()
    else
      observation <~ query (λ _, c ← schedulerExecutionCorrelation a; re_inspect env c);;
      _ <~ command (acceptSchedulerExecutionObservation observation (re_now env));; finished ().

(** Every attempt is tried; the errors are collected. *)
Fixpoint each {A} (f : A → Commands ()) (l : list A) (db : CoreDb) : CoreDb * list SchedulerError :=
  match l with
  | [] => (db, [])
  | a :: l =>
    match f a db with
    | (db, Ok _) => each f l db
    | (db, Err e) => let '(db, errors) := each f l db in (db, e :: errors)
    end
  end.

Definition failed_causes : list jsstr := js <$> ["restart-before-effects"; "authority-revoked"; "execution-deadline"].

(** Closed without effects, whose publication may be missing. *)
Definition unpublished_failure (a : AttemptRow) : bool :=
  bool_decide (phase a = Closed) && bool_decide (disposition a = NotAccepted) && bool_decide (operationId a = None) &&
  match terminalCause a with Some c => includes failed_causes c | None => false end.

Definition publish_failure (a : AttemptRow) : Commands () :=
  current <~ query (λ db, requireSchedulerExecutionAttempt db (at_id a));;
  if re_turnActive env (at_turn current) then finished () else query (λ _, re_project env current).

Definition maintenance_failed : SchedulerError := PlainError (js "Execution attempt recovery requires inspection.").

Definition runSchedulerRecoveryMaintenance : Commands () := λ db,
  match listOpenSchedulerExecutionAttempts db with
  | Err e => (db, Err e)
  | Ok l =>
    let '(db, errors1) := each (λ a, if scope_of a then maintain_one a else finished ()) l db in
    let '(db, errors2) := each publish_failure (filterb unpublished_failure (attempts db)) db in
    (db, if bool_decide (errors1 ++ errors2 = []) then Ok () else Err maintenance_failed)
  end.
End Recovery.

(** ** Recovery keeps the exclusion of outstanding operations *)

Definition outstanding_kept (db db' : CoreDb) : Prop :=
  ∀ a, a ∈ attempts db → operationId a ≠ None → is_live a = true →
    ∃ b, get_attempt db' (at_id a) = Some b ∧ operationId b = operationId a ∧ is_live b = true.

Lemma outstanding_refl db : db_ok db → outstanding_kept db db.
Proof. intros Hok a Ha Hop Hl. exists a. split; [|done]. by apply get_attempt_unique; [apply Hok|]. Qed.

Lemma outstanding_trans db1 db2 db3 : outstanding_kept db1 db2 → outstanding_kept db2 db3 → outstanding_kept db1 db3.
Proof.
  intros H1 H2 a Ha Hop Hl. destruct (H1 a Ha Hop Hl) as (b & Hb & Eb & Lb). destruct (get_attempt_Some _ _ _ Hb) as [Hin Eid].
  destruct (H2 b Hin) as (c & Hc & Ec & Lc); [congruence|done|]. exists c. rewrite <-Eid. split_and!; [done|congruence|done].
Qed.

Lemma outstanding_update db db' q f :
  attempts_unique (attempts db') → attempts db' = update_where q f (attempts db) →
  (∀ r, r ∈ attempts db → q r = true → operationId r ≠ None → is_live r = true →
     operationId (f r) = operationId r ∧ is_live (f r) = true ∧ at_id (f r) = at_id r) → outstanding_kept db db'.
Proof.
  intros Hu E Hf a Ha Hop Hl. set (b := if q a then f a else a).
  assert (b ∈ attempts db') as Hb by (rewrite E; apply elem_of_update_where; by exists a).
  exists b. pose proof (get_attempt_unique _ _ Hu Hb) as G. unfold b in *. destruct (q a) eqn:Q; [|done].
  destruct (Hf a Ha Q Hop Hl) as (E1 & E2 & E3). by rewrite E3 in G.
Qed.

Definition safe {A} (m : Commands A) : Prop := ∀ db, db_ok db → db_ok (m db).1 ∧ outstanding_kept db (m db).1.

Lemma safe_query {A} (f : CoreDb → result SchedulerError A) : safe (query f).
Proof. intros db Hok. split; [done|by apply outstanding_refl]. Qed.
Lemma safe_finished {A} (a : A) : safe (finished a).
Proof. intros db Hok. split; [done|by apply outstanding_refl]. Qed.
Lemma safe_abort {A} e : safe (abort (A := A) e).
Proof. intros db Hok. split; [done|by apply outstanding_refl]. Qed.

(** The continuation may use what the first command returned. *)
Lemma safe_and_then_post {A B} (m : Commands A) (f : A → Commands B) :
  safe m → (∀ db db1 a, m db = (db1, Ok a) → db_ok db1 → db_ok (f a db1).1 ∧ outstanding_kept db1 (f a db1).1) → safe (and_then m f).
Proof.
  intros Hm Hf db Hok. unfold and_then. destruct (Hm db Hok) as [H1 H2]. destruct (m db) as [db1 [a|e]] eqn:E; [|done]. cbn [fst] in H1, H2.
  destruct (Hf db db1 a E H1) as [H3 H4]. split; [done|by eapply outstanding_trans].
Qed.

Lemma safe_and_then {A B} (m : Commands A) (f : A → Commands B) : safe m → (∀ a, safe (f a)) → safe (and_then m f).
Proof. intros Hm Hf. apply safe_and_then_post; [done|]. intros db db1 a _. apply Hf. Qed.

Lemma safe_command {A} (f : CoreDb → result SchedulerError (CoreDb * A)) :
  (∀ db db' a, db_ok db → f db = Ok (db', a) → db_ok db' ∧ outstanding_kept db db') → safe (command f).
Proof.
  intros Hf db Hok. unfold command. destruct (f db) as [[db' a]|e] eqn:E; [by eapply Hf|]. split; [done|by apply outstanding_refl].
Qed.

#[local] Hint Resolve safe_query safe_finished safe_abort safe_and_then : core.

Lemma safe_closing id cause outcome t : safe (command (markSchedulerExecutionAttemptClosing id cause outcome t)).
Proof.
  apply safe_command. intros db db' a Hok H. split; [by eapply advances_ok, closing_advances|].
  unfold markSchedulerExecutionAttemptClosing in H. apply bind_Ok in H as (a0 & _ & ([db1 n] & Hs & (b & _ & [= <- _])%bind_Ok)%bind_Ok).
  apply set_attempt_spec in Hs as (Hu & _ & _ & E & _). by eapply outstanding_update.
Qed.

Lemma safe_observe o t : safe (command (acceptSchedulerExecutionObservation o t)).
Proof.
  apply safe_command. intros db db' a Hok H. pose proof (observe_advances db Hok _ _ _ _ H) as Hadv. split; [by eapply advances_ok|].
  assert (db' = db → outstanding_kept db db') as Hr by (intros ->; by apply outstanding_refl).
  destruct o as [o|]; cbn [acceptSchedulerExecutionObservation] in H; [|injection H as <- _; auto].
  destruct (get_attempt db _) as [r|]; [|injection H as <- _; auto]. apply bind_Ok in H as (a0 & _ & H).
  destruct (stale_observation a0 o); [injection H as <- _; auto|]. destruct (bool_decide _ && bool_decide _); [injection H as <- _; auto|].
  case_bool_decide; [injection H as <- _; auto|]. apply bind_Ok in H as ([db1 n] & Hs & (b & _ & [= <- _])%bind_Ok).
  apply set_attempt_spec in Hs as (Hu & _ & _ & E & _). eapply outstanding_update; [done|done|]. intros r' _ _ _ L. done.
Qed.

(** Closing without effects an attempt that has no operation leaves the others. *)
Lemma close_keeps id cause t db db' b :
  db_ok db → (∀ a, get_attempt db id = Some a → operationId a = None) →
  closeSchedulerExecutionAttemptWithoutEffects id true cause false t db = Ok (db', b) → db_ok db' ∧ outstanding_kept db db'.
Proof.
  intros Hok Hop H. split; [by destruct (without_effects_evolves _ _ _ _ _ _ _ _ Hok H)|].
  unfold closeSchedulerExecutionAttemptWithoutEffects in H. apply bind_Ok in H as (a & (Hg & _ & Hid & Ha)%require_attempt & H).
  cbn [negb] in H. case_bool_decide; [injection H as <- _; by apply outstanding_refl|]. case_bool_decide; [done|].
  cbn [mbind result_bind] in H. apply bind_Ok in H as ([db1 n] & Hs & (c & _ & [= <- _])%bind_Ok).
  apply set_attempt_spec in Hs as (Hu & _ & _ & E & _). eapply outstanding_update; [done|done|].
  intros r Hr [Er _]%andb_true_iff Hn _. bool_to_prop. destruct Hn.
  replace r with a; [by apply Hop|]. eapply NoDup_fmap_elem; [apply (ok_attempts _ Hok)|..]; done.
Qed.

(** ** Restart closes exactly the interrupted preparations *)

Definition released (cause : jsstr) (t : Z) (r : AttemptRow) : AttemptRow :=
  with_closure Closed NotAccepted (coalesce (terminalCause r) (Some cause)) (outcomeRef r) (fenceRef r) t r.

Lemma update_id_same rows p cause t : at_id <$> update_where p (released cause t) rows = at_id <$> rows.
Proof. by apply update_where_keys. Qed.

Lemma live_update_sublist p cause t rows : filterb is_live (update_where p (released cause t) rows) `sublist_of` filterb is_live rows.
Proof.
  induction rows as [|r rows IH]; [done|]. unfold update_where. rewrite fmap_cons. cbn [filterb]. fold (update_where p (released cause t) rows).
  destruct (p r); [cbn; destruct (is_live r); [by apply sublist_cons|done]|]. destruct (is_live r); [by apply sublist_skip|done].
Qed.

Lemma omap_sublist {A B} (f : A → option B) l k : sublist l k → sublist (omap f l) (omap f k).
Proof. induction 1 as [|x l k _ IH|x l k _ IH]; cbn; [done| |]; destruct (f x); by try constructor. Qed.

Lemma release_unique p cause t rows : attempts_unique rows → attempts_unique (update_where p (released cause t) rows).
Proof.
  intros [H1 H2 H3 H4]. pose proof (live_update_sublist p cause t rows) as Hs. split.
  - by rewrite update_id_same.
  - eapply sublist_NoDup; [exact H2|]. by apply fmap_sublist.
  - eapply sublist_NoDup; [exact H3|]. by apply fmap_sublist.
  - eapply sublist_NoDup; [exact H4|]. by apply omap_sublist.
Qed.

Definition release_ids (ids : list jsstr) (cause : jsstr) (t : Z) (db : CoreDb) : CoreDb :=
  with_attempts (update_where (λ r, includes ids (at_id r) && is_live r) (released cause t) (attempts db)) db.

Lemma decode_released r cause t : decode_attempt r = Ok r → decode_attempt (released cause t r) = Ok (released cause t r).
Proof.
  unfold decode_attempt, readRetainedV1. change (ao_schemaVersion (owner (released cause t r))) with (ao_schemaVersion (owner r)).
  change (SchedulerExecutionAttemptSchema (released cause t r)) with (SchedulerExecutionAttemptSchema r).
  case_bool_decide; [|done]. by destruct (SchedulerExecutionAttemptSchema r).
Qed.

Lemma close_exact db a cause t :
  db_ok db → a ∈ attempts db → is_live a = true → operationId a = None → decode_attempt a = Ok a →
  closeSchedulerExecutionAttemptWithoutEffects (at_id a) true cause false t db =
  Ok (release_ids [at_id a] cause t db, released cause t a).
Proof.
  intros Hok Ha Hl Hop Hd. unfold closeSchedulerExecutionAttemptWithoutEffects, requireSchedulerExecutionAttempt.
  rewrite (get_attempt_unique _ _ (ok_attempts _ Hok) Ha), Hd. cbn [mbind result_bind negb].
  pose proof (ok_noop _ Hok a Ha Hop) as Hn. pose proof Hl as Hl'. unfold is_live in Hl'. apply bool_decide_eq_true_1 in Hl'.
  rewrite (bool_decide_eq_false_2 (phase a = Closed)) by done.
  rewrite (bool_decide_eq_false_2 (disposition a = Accepted)) by congruence. cbn [mbind result_bind]. unfold set_attempt.
  assert (∀ rows, update_where (λ r, bool_decide (at_id r = at_id a) && is_live r)
    (λ r, with_closure Closed NotAccepted (coalesce (terminalCause r) (Some cause)) (outcomeRef r) (fenceRef r) t r) rows =
    update_where (λ r, includes [at_id a] (at_id r) && is_live r) (released cause t) rows) as E.
  { intros rows. unfold update_where. apply list_fmap_ext. intros _ r _. unfold includes.
    by rewrite (bool_decide_ext _ _ (list_elem_of_singleton (at_id r) (at_id a))). }
  rewrite E. unfold store_attempts. rewrite decide_True by apply release_unique, Hok. cbn [mbind result_bind fst].
  set (db' := with_attempts _ db).
  assert (released cause t a ∈ attempts db') as Ha'.
  { apply elem_of_update_where. exists a. split; [done|]. unfold includes. by rewrite bool_decide_eq_true_2, Hl by (apply list_elem_of_singleton; done). }
  rewrite (get_attempt_unique db' _ (release_unique _ cause t _ (ok_attempts _ Hok)) Ha' : get_attempt db' (at_id a) = Some (released cause t a)).
  rewrite decode_released by done. done.
Qed.

Lemma release_nil cause t db : release_ids [] cause t db = db.
Proof.
  unfold release_ids. assert (update_where (λ r, includes [] (at_id r) && is_live r) (released cause t) (attempts db) = attempts db) as ->.
  { unfold update_where. rewrite <-(list_fmap_id (attempts db)) at 2. apply list_fmap_ext. intros _ r _. unfold includes.
    rewrite bool_decide_eq_false_2; [done|]. apply not_elem_of_nil. }
  by destruct db.
Qed.

Lemma release_cons i ids cause t db : release_ids ids cause t (release_ids [i] cause t db) = release_ids (i :: ids) cause t db.
Proof.
  unfold release_ids. cbn [attempts with_attempts]. unfold with_attempts at 1 3. cbn [entries occurrences]. f_equal.
  unfold update_where. rewrite <-list_fmap_compose. apply list_fmap_ext. intros _ r _. cbn.
  assert (includes (i :: ids) (at_id r) = includes [i] (at_id r) || includes ids (at_id r)) as ->.
  { apply eq_true_iff_eq. unfold includes. rewrite orb_true_iff, !bool_decide_eq_true, elem_of_cons, list_elem_of_singleton. done. }
  destruct (includes [i] (at_id r)) eqn:I; cbn; [|done]. destruct (is_live r) eqn:L; cbn; [by rewrite andb_false_r|by rewrite L, andb_false_r].
Qed.

Lemma release_others i cause t db a : a ∈ attempts db → at_id a ≠ i → a ∈ attempts (release_ids [i] cause t db).
Proof.
  intros Ha Hne. apply elem_of_update_where. exists a. split; [done|]. unfold includes.
  rewrite bool_decide_eq_false_2; [done|]. by rewrite list_elem_of_singleton.
Qed.

Lemma mapM_decode l k : mapM decode_attempt l = Ok k → k = l ∧ ∀ a, a ∈ k → decode_attempt a = Ok a.
Proof.
  rewrite mapM_result_Ok. induction 1 as [|r a l k Hd _ [-> IH]]; [split; [done|intros a Ha; by apply elem_of_nil in Ha]|].
  pose proof (decode_same _ _ Hd) as ->. split; [done|]. intros x [->|Hx]%elem_of_cons; auto.
Qed.

Section Restart.
Context (env : RecoveryEnvironment).

Definition interrupted (a : AttemptRow) : bool := scope_of env a && bool_decide (operationId a = None).
Definition restart_cause : jsstr := js "restart-before-effects".

Lemma restart_exact l ids db :
  db_ok db → NoDup (at_id <$> l) →
  (∀ a, a ∈ l → a ∈ attempts db ∧ is_live a = true ∧ decode_attempt a = Ok a ∧ (scope_of env a = true → ao_backendId (owner a) = re_backendId env)) →
  (∀ a, a ∈ l → interrupted a = true → re_project env a = Ok ()) →
  restart_each env l ids db =
  (release_ids (at_id <$> filterb interrupted l) restart_cause (re_now env) db, Ok (ids ++ (at_id <$> filterb interrupted l))).
Proof.
  revert ids db. induction l as [|a l IH]; intros ids db Hok Hn Hl Hp.
  { cbn. by rewrite release_nil, app_nil_r. }
  rewrite fmap_cons, NoDup_cons in Hn. destruct Hn as [Hna Hn].
  destruct (Hl a ltac:(left)) as (Ha & Live & Hd & Hb). cbn [restart_each filterb].
  assert (∀ x, x ∈ l → x ∈ attempts db ∧ is_live x = true ∧ decode_attempt x = Ok x ∧ (scope_of env x = true → ao_backendId (owner x) = re_backendId env)) as Hl'.
  { intros x Hx. apply Hl. by right. }
  assert (∀ x, x ∈ l → interrupted x = true → re_project env x = Ok ()) as Hp' by (intros x Hx; apply Hp; by right).
  destruct (scope_of env a) eqn:S; cbn [negb].
  2: { assert (interrupted a = false) as -> by (unfold interrupted; by rewrite S). by apply IH. }
  rewrite bool_decide_eq_false_2 by (intros N; apply N; auto).
  destruct (operationId a) as [o|] eqn:O.
  - rewrite bool_decide_eq_true_2 by done.
    assert (interrupted a = false) as -> by (unfold interrupted; by rewrite S, O, bool_decide_eq_false_2). by apply IH.
  - rewrite bool_decide_eq_false_2 by tauto. assert (interrupted a = true) as Hi by (unfold interrupted; by rewrite S, O, bool_decide_eq_true_2).
    rewrite Hi. pose proof (close_exact db a restart_cause (re_now env) Hok Ha Live O Hd) as C. fold restart_cause.
    unfold and_then, command, query. rewrite C, (Hp a ltac:(left) Hi). cbv beta iota.
    destruct (without_effects_evolves _ _ _ _ _ _ _ _ Hok C) as [_ Hok'].
    rewrite IH; [|done|done| |done].
    + by rewrite fmap_cons, release_cons, <-(assoc (++)).
    + intros x Hx. destruct (Hl' x Hx) as (Hx1 & Hx2). split; [|done]. apply release_others; [done|]. intros E. apply Hna. rewrite <-E. by apply list_elem_of_fmap_2.
Qed.

(** Restart recovery releases exactly the interrupted preparations.  When every live attempt can be read, those
    of admitted Workspaces name the configured backend and the product owner accepts the failed Turns, it
    closes each live attempt of an admitted Workspace that recorded no operation, as not accepted and with
    its first cause; it changes no other attempt and no queue entry, reports the closed ids in row order,
    and leaves every attempt with an outstanding operation live. *)
Theorem restart_releases_interrupted db l :
  db_ok db → listOpenSchedulerExecutionAttempts db = Ok l →
  (∀ a, a ∈ l → scope_of env a = true → ao_backendId (owner a) = re_backendId env) →
  (∀ a, a ∈ l → interrupted a = true → re_project env a = Ok ()) →
  ∃ db', runSchedulerRestartRecovery env db = (db', Ok (at_id <$> filterb (λ a, is_live a && interrupted a) (attempts db))) ∧
    attempts db' = (λ a, if is_live a && interrupted a then released restart_cause (re_now env) a else a) <$> attempts db ∧
    entries db' = entries db ∧ attempts_unique (attempts db').
Proof.
  intros Hok Hl Hb Hp. destruct (mapM_decode _ _ Hl) as [El Hdec].
  pose proof (sublist_NoDup _ _ (unique_attempt _ (ok_attempts _ Hok)) (fmap_sublist at_id _ _ (filterb_sublist is_live (attempts db)))) as Hnd.
  rewrite <-El in Hnd.
  assert (at_id <$> filterb interrupted l = at_id <$> filterb (λ a, is_live a && interrupted a) (attempts db)) as Ei by (by rewrite El, filterb_filterb).
  eexists. unfold runSchedulerRestartRecovery, and_then, query. rewrite Hl.
  rewrite restart_exact; [|done|done| |done].
  - cbn [app]. rewrite Ei. split_and!; [done| |done|apply release_unique, Hok].
    unfold release_ids. cbn [attempts with_attempts]. unfold update_where. apply list_fmap_ext. intros i r Hr%list_elem_of_lookup_2.
    assert (includes (at_id <$> filterb (λ a, is_live a && interrupted a) (attempts db)) (at_id r) && is_live r = is_live r && interrupted r) as ->; [|done].
    apply eq_true_iff_eq. unfold includes. rewrite !andb_true_iff, bool_decide_eq_true. split.
    + intros [(x & Ex & [Hx1 [Hx2 Hx3]%andb_true_iff]%elem_of_filterb)%list_elem_of_fmap Hlive].
      assert (r = x) as -> by (eapply NoDup_fmap_elem; [apply (ok_attempts _ Hok)|..]; done). done.
    + intros [Hlive Hi]. split; [|done]. apply list_elem_of_fmap_2, elem_of_filterb. by rewrite Hlive, Hi.
  - intros a Ha. pose proof Ha as Ha'. rewrite El in Ha'. apply elem_of_filterb in Ha' as [Hin Hlive]. split_and!; auto.
Qed.
End Restart.

(** ** Maintenance *)

Section Maintenance.
Context (env : RecoveryEnvironment).

Lemma falsy_operation db id a : requireSchedulerExecutionAttempt db id = Ok a → truthy (operationId a) = false → operationId a = None.
Proof.
  intros (_ & (_ & _ & Hs)%schema_refs & _)%require_attempt. destruct (operationId a) as [o|]; [|done]. cbn in *. congruence.
Qed.

Lemma safe_revoke a revoked : safe (revoke env a revoked).
Proof.
  unfold revoke. apply safe_and_then_post; [apply safe_closing|]. intros db db1 closing M Hok1.
  assert (requireSchedulerExecutionAttempt db1 (at_id a) = Ok closing) as R.
  { unfold command, markSchedulerExecutionAttemptClosing in M.
    destruct (_ ≫= _) as [[db2 b]|e] eqn:E in M; [|done]. injection M as <- <-.
    by apply bind_Ok in E as (a0 & _ & ([db2' n] & _ & (b' & Hb & [= <- <-])%bind_Ok)%bind_Ok). }
  destruct (truthy (operationId closing)) eqn:T.
  - exact (safe_and_then _ _ (safe_query _) (λ o, safe_and_then _ _ (safe_observe o _) (λ _, safe_finished ())) db1 Hok1).
  - pose proof (falsy_operation _ _ _ R T) as O. destruct (require_attempt _ _ _ R) as (Hg & _ & Hid & _).
    unfold and_then, command. destruct (closeSchedulerExecutionAttemptWithoutEffects _ _ _ _ _ db1) as [[db2 b]|e] eqn:C;
      [|split; [done|by apply outstanding_refl]].
    eapply close_keeps; [done| |exact C]. intros x Hx. rewrite Hid in Hx. congruence.
Qed.

Lemma safe_maintain_one a : safe (maintain_one env a).
Proof.
  unfold maintain_one. case_bool_decide; [apply safe_abort|]. apply safe_and_then; [apply safe_query|]. intros entry.
  apply safe_and_then; [destruct (_ && _); [apply safe_revoke|apply safe_finished]|]. intros _. destruct (negb _); [apply safe_finished|].
  apply safe_and_then; [apply safe_query|]. intros o. apply safe_and_then; [apply safe_observe|intros; apply safe_finished].
Qed.

Lemma safe_publish a : safe (publish_failure env a).
Proof.
  unfold publish_failure. apply safe_and_then; [apply safe_query|]. intros c. destruct (re_turnActive _ _); [apply safe_finished|apply safe_query].
Qed.

Lemma safe_each {A} (f : A → Commands ()) l db :
  (∀ a, safe (f a)) → db_ok db → db_ok (each f l db).1 ∧ outstanding_kept db (each f l db).1.
Proof.
  intros Hf. revert db. induction l as [|a l IH]; intros db Hok; cbn [each]; [split; [done|by apply outstanding_refl]|].
  destruct (Hf a db Hok) as [H1 H2]. destruct (f a db) as [db1 [u|e]]; cbn [fst] in H1, H2; destruct (IH db1 H1) as [H3 H4].
  - split; [done|by eapply outstanding_trans].
  - destruct (each f l db1) as [db2 errors]. split; [done|by eapply outstanding_trans].
Qed.

(** C16. Recovery maintenance, whatever the backend, the authority and the product owner answer and whichever
    attempts fail, keeps the tables coherent and never releases an attempt with an outstanding operation:
    that attempt keeps its operation and its exclusion until a release proof closes it. *)
Theorem maintenance_keeps_outstanding db :
  db_ok db →
  let db' := (runSchedulerRecoveryMaintenance env db).1 in
  db_ok db' ∧
  ∀ a, a ∈ attempts db → operationId a ≠ None → is_live a = true →
    ∃ b, get_attempt db' (at_id a) = Some b ∧ operationId b = operationId a ∧ is_live b = true.
Proof.
  intros Hok. unfold runSchedulerRecoveryMaintenance. destruct (listOpenSchedulerExecutionAttempts db) as [l|e]; [|split; [done|by apply outstanding_refl]].
  set (f := λ a, if scope_of env a then maintain_one env a else finished ()).
  destruct (safe_each f l db) as [H1 H2]; [intros a; unfold f; destruct (scope_of env a); [apply safe_maintain_one|apply safe_finished]|done|].
  destruct (each f l db) as [db1 errors1]. cbn [fst] in H1, H2.
  destruct (safe_each (publish_failure env) (filterb unpublished_failure (attempts db1)) db1 safe_publish H1) as [H3 H4].
  destruct (each (publish_failure env) _ db1) as [db2 errors2]. cbn [fst] in H3, H4 |- *. split; [done|]. by eapply outstanding_trans.
Qed.
End Maintenance.

(** ** A recovered database *)

Module RecoveryDemo.
Import SchedulerDemo.

Definition recovery : RecoveryEnvironment := {|
  re_scopeAdmitted := λ _, true; re_backendId := js "nanohost"; re_authorized := λ _, false; re_project := λ _, Ok ();
  re_cancel := λ _, Ok None; re_inspect := λ _, Ok None; re_turnActive := λ _, false; re_timestamp := 9000; re_now := 9000 |}.

Lemma prefix_ok db : rtc (scheduler_step digest digest_hex) empty_db db → db_ok db.
Proof. intros H. exact (proj1 (run_keeps _ _ _ _ H empty_ok)). Qed.

Lemma acquired_ok : db_ok acquired.
Proof.
  apply prefix_ok. apply (rtc_l _ _ queued); [exact (step_admit _ _ _ _ _ _ _ queued_reached)|].
  apply rtc_once. apply (command_reached _ _ (Some (the_attempt acquired))); vm_compute; reflexivity.
Qed.

Lemma submitted_ok : db_ok submitted.
Proof.
  apply prefix_ok. apply (rtc_l _ _ queued); [exact (step_admit _ _ _ _ _ _ _ queued_reached)|].
  apply (rtc_l _ _ acquired); [apply (command_reached _ _ (Some (the_attempt acquired))); vm_compute; reflexivity|].
  apply (rtc_l _ _ bound); [apply (command_reached _ _ (Some (the_attempt bound))); vm_compute; reflexivity|].
  apply (rtc_l _ _ finalized); [apply (command_reached _ _ (Some (the_attempt finalized))); vm_compute; reflexivity|].
  apply rtc_once. apply (command_reached _ _ (Some (the_attempt submitted))); vm_compute; reflexivity.
Qed.

Lemma restart_releases_interrupted_witness :
  ∃ db', runSchedulerRestartRecovery recovery acquired = (db', Ok [attempt_id]) ∧ attempts_unique (attempts db').
Proof.
  destruct (restart_releases_interrupted recovery acquired (attempts acquired) acquired_ok) as (db' & H & _ & _ & Hu).
  - vm_compute. reflexivity.
  - intros a Ha _. assert (Forall (λ a, ao_backendId (owner a) = js "nanohost") (attempts acquired)) as F.
    { apply (bool_decide_unpack _). vm_compute. exact I. }
    rewrite Forall_forall in F. exact (F a Ha).
  - intros a _ _. reflexivity.
  - exists db'. split; [|exact Hu]. rewrite H. vm_compute. reflexivity.
Defined.

(** The submitted attempt is revoked, since nothing is authorized, and stays exclusive. *)
Lemma maintenance_keeps_outstanding_witness :
  phase (the_attempt (runSchedulerRecoveryMaintenance recovery submitted).1) = Closing ∧
  ∃ b, get_attempt (runSchedulerRecoveryMaintenance recovery submitted).1 attempt_id = Some b ∧
    operationId b = Some (js "op-1") ∧ is_live b = true.
Proof.
  split; [vm_compute; reflexivity|].
  destruct (proj2 (maintenance_keeps_outstanding recovery submitted submitted_ok) (the_attempt submitted)) as (b & Hb & Ho & Hl).
  - assert (attempts submitted = [the_attempt submitted]) as -> by (vm_compute; reflexivity). left.
  - vm_compute. discriminate.
  - vm_compute. reflexivity.
  - exists b. split; [exact Hb|]. split; [|exact Hl]. rewrite Ho. vm_compute. reflexivity.
Defined.

Definition dispatcher : DispatchEnvironment := {|
  de_scopeAdmitted := λ _, true; de_frozen := λ _, false; de_authorized := λ _, true; de_dispatchAuthority := λ _, true;
  de_published := λ _, true; de_fromSource := λ _, false; de_backendId := js "nanohost" |}.

Lemma dispatch_decides_first_ready_witness :
  (select dispatcher [] (select_fuel queued) queued {| sk_ids := []; sk_recovery := false |}).2 = Decided (the_entry queued) Take.
Proof.
  rewrite (proj1 (dispatch_decides_first_ready dispatcher [] queued [the_entry queued] (ok_entries _ queued_ok) ltac:(vm_compute; reflexivity)
    {| sk_ids := []; sk_recovery := false |})).
  vm_compute. reflexivity.
Defined.
End RecoveryDemo.
