(* ===== verification/JsonText.v ===== *)
(** * [JSON.stringify] and the size of its texts

    The text that [JSON.stringify] gives to a data value: members in the order of the object,
    [undefined] members left out, [undefined] elements and numbers that are not finite written as
    [null], surrogates without a partner escaped.  [JSON.parse] reads back the value with exactly
    these changes, and the UTF-8 size of a text is the sum of the sizes of its parts. *)

From Stdlib Require Import SpecFloat.
From S2P Require Import Prelude JsValue NumberText CanonicalJson CommandInput.

Local Open Scope string_scope.
Local Open Scope list_scope.
Local Open Scope Z_scope.

(** [None]: [undefined], and values outside plain data. *)
Fixpoint json_stringify (value : jsval) : option jsstr :=
  match value with
  | JUndef | JExotic => None
  | JNull => Some (js "null")
  | JBool b => Some (if b then js "true" else js "false")
  | JNum f => stringify_number f
  | JStr s => Some (stringify_string s)
  | JArr l =>
    ts ← mapM (λ v, if is_undefined v then Some (js "null") else json_stringify v) l;
    Some (js "[" ++ join (js ",") ts ++ js "]")
  | JObj ms =>
    ts ← mapM stable_text (filterb stable_defined ((λ kv, (kv.1, is_undefined kv.2, json_stringify kv.2)) <$> ms));
    Some (js "{" ++ join (js ",") ts ++ js "}")
  end.

(** ** Reading back *)

(** [JSON.parse(JSON.stringify(value))] *)
Fixpoint as_read (value : jsval) : jsval :=
  match value with
  | JNum f => if is_finite_number f then JNum (canon_number f) else JNull
  | JArr l => JArr ((λ v, if is_undefined v then JNull else as_read v) <$> l)
  | JObj ms => JObj (filterb keep_defined ((λ kv, (kv.1, as_read kv.2)) <$> ms))
  | v => v
  end.

Lemma hex_digit_value d : 0 <= d < 16 → hex_value (hex_digit d) = Some d.
Proof.
  intros Hd. unfold hex_digit, hex_value, is_digit, in_range. destruct (d <? 10) eqn:Ed; bool_to_prop.
  - rewrite !(proj2 (Z.leb_le _ _)) by lia. cbn. f_equal. lia.
  - rewrite (proj2 (Z.leb_le 48 _)), (proj2 (Z.leb_gt _ 57)) by lia. cbn.
    rewrite !(proj2 (Z.leb_le _ _)) by lia. cbn. f_equal. lia.
Qed.

Lemma lex_hex4 acc c rest :
  0 <= c < 65536 → lex (LStr acc) ([BACKSLASH; cu "u"] ++ hex4 c ++ rest) = lex (LStr (c :: acc)) rest.
Proof.
  intros Hc. unfold hex4. cbn [app].
  assert (0 <= c / 4096 < 16 ∧ 0 <= c / 256 mod 16 < 16 ∧ 0 <= c / 16 mod 16 < 16 ∧ 0 <= c mod 16 < 16) as (H1 & H2 & H3 & H4)
    by (Z.to_euclidean_division_equations; lia).
  rewrite (lex_silent _ _ (LEsc acc)), (lex_silent _ _ (LUni acc 4 0)) by reflexivity.
  do 3 (erewrite lex_silent; [|cbn [lex_step]; rewrite hex_digit_value by done; reflexivity]).
  apply lex_silent. cbn [lex_step]. rewrite hex_digit_value by done. cbn [mbind option_bind].
  do 4 f_equal. Z.to_euclidean_division_equations; lia.
Qed.

Lemma escape_unit_id c : 127 < c → escape_unit c = [c].
Proof. intros Hc. unfold escape_unit, QUOTE, BACKSLASH. rewrite !(proj2 (Z.eqb_neq _ _)), (proj2 (Z.ltb_ge _ _)) by lia. done. Qed.

(** Strings: every escape is undone. *)
Lemma lex_stringified s rest :
  wf_str s → lex LStart (stringify_string s ++ rest) = (λ ts, TStr s :: ts) <$> lex LStart rest.
Proof.
  intros Hs. unfold stringify_string. rewrite <-!app_assoc.
  enough (∀ n s acc, (length s <= n)%nat → wf_str s →
    lex (LStr acc) (stringify_units s ++ [QUOTE] ++ rest) = (λ ts, TStr (rev acc ++ s) :: ts) <$> lex LStart rest) as H.
  { change ([QUOTE] ++ ?s) with (QUOTE :: s) at 1. rewrite (lex_silent _ _ (LStr [])) by reflexivity. by eapply (H (length s) s []). }
  clear s Hs. induction n as [|n IH]; intros [|c s] acc Hn Hs; cbn [length] in Hn; try lia.
  1,2: cbn; rewrite app_nil_r; by destruct (lex LStart rest).
  apply Forall_cons in Hs as [Hc Hs].
  assert (lex (LStr (c :: acc)) (stringify_units s ++ [QUOTE] ++ rest) = (λ ts, TStr (rev acc ++ c :: s) :: ts) <$> lex LStart rest) as Hone.
  { rewrite IH by (done || lia). cbn [rev]. by rewrite <-app_assoc. }
  cbn [stringify_units]. unfold is_high_surrogate, is_low_surrogate. destruct (in_range 55296 56319 c) eqn:Hh.
  - destruct s as [|d s]; [rewrite <-!app_assoc, lex_hex4 by done; exact Hone|].
    destruct (in_range 56320 57343 d) eqn:Hd; [|rewrite <-!app_assoc, lex_hex4 by done; exact Hone].
    unfold in_range in *. bool_to_prop. apply Forall_cons in Hs as [Hd' Hs].
    rewrite <-!app_comm_cons. pose proof (lex_escape acc c (d :: stringify_units s ++ [QUOTE] ++ rest) Hc) as E1.
    pose proof (lex_escape (c :: acc) d (stringify_units s ++ [QUOTE] ++ rest) Hd') as E2.
    rewrite escape_unit_id in E1, E2 by lia. cbn [app] in E1, E2 |- *. rewrite E1, E2, IH by (done || cbn [length] in *; lia).
    cbn [rev]. by rewrite <-!app_assoc.
  - destruct (in_range 56320 57343 c) eqn:Hl.
    + rewrite <-!app_assoc, lex_hex4 by done. exact Hone.
    + rewrite <-!app_assoc, lex_escape by done. exact Hone.
Qed.

Definition stringified (v : jsval) : Prop := ∀ t, json_stringify v = Some t → plain (as_read v) ∧ lexes t (toks (as_read v)).

Lemma as_read_undefined v : is_undefined (as_read v) = is_undefined v.
Proof. destruct v; try done. cbn. by destruct (is_finite_number f). Qed.

Lemma lexes_null : lexes (js "null") [TNull].
Proof. intros rest Hr. apply lex_word; [set_solver|done..]. Qed.

Lemma stringify_elements l ts :
  Forall stringified l →
  mapM (λ v, if is_undefined v then Some (js "null") else json_stringify v) l = Some ts →
  let l' := (λ v, if is_undefined v then JNull else as_read v) <$> l in
  Forall plain l' ∧ Forall2 lexes ts (toks <$> l').
Proof.
  intros Hl H%mapM_Some. revert Hl. induction H as [|v t l ts Hv Ht IH]; intros Hl; [split; constructor|].
  apply Forall_cons in Hl as [Hs Hl]. destruct (IH Hl) as [Hp Hx]. rewrite !fmap_cons.
  destruct (is_undefined v); [injection Hv as <-; by repeat constructor; try apply lexes_null|].
  destruct (Hs t Hv). by repeat constructor.
Qed.

Lemma stringify_members ms ts :
  Forall (λ kv, wf_str kv.1 ∧ stringified kv.2) ms →
  mapM stable_text (filterb stable_defined ((λ kv, (kv.1, is_undefined kv.2, json_stringify kv.2)) <$> ms)) = Some ts →
  let ms' := filterb keep_defined ((λ kv, (kv.1, as_read kv.2)) <$> ms) in
  Forall (λ kv, plain kv.2) ms' ∧ Forall2 lexes ts (member_toks <$> ms').
Proof.
  intros Hms. revert ts. induction Hms as [|[k v] ms [Hk Hv] Hms IH]; intros ts; [intros [= <-]; split; constructor|].
  rewrite !fmap_cons. cbn [filterb]. unfold stable_defined at 1, keep_defined at 1 4. cbn [fst snd].
  rewrite as_read_undefined. destruct (is_undefined v); cbn [negb]; [apply IH|].
  intros H. cbn [mapM] in H. apply bind_Some in H as (t & Ht & (us & Hus & [= <-])%bind_Some).
  unfold stable_text in Ht. cbn [fst snd] in Ht. apply bind_Some in Ht as (u & Hu & [= <-]).
  destruct (Hv u Hu), (IH us Hus). split; [by constructor|]. rewrite fmap_cons. constructor; [|done].
  apply (lexes_app (stringify_string k) [TStr k]); [intros rest Hr; by apply lex_stringified| |by intros rest Hr].
  by apply lexes_cons.
Qed.

Lemma stringified_value v : wf_value v → stringified v.
Proof.
  induction v as [| | |b|f|s|l IH|ms IH] using jsval_rect'; intros Hwf t Ht; try done.
  - injection Ht as <-. split; [constructor|apply lexes_null].
  - injection Ht as <-. split; [constructor|]. intros rest Hr. destruct b; apply lex_word; try done; set_solver.
  - cbn [json_stringify as_read] in *. unfold stringify_number in Ht. destruct (is_finite_number f) eqn:Ef.
    + apply number_text_value in Ht. split; [constructor|]. intros rest Hr. by apply lex_number.
    + injection Ht as <-. split; [constructor|apply lexes_null].
  - injection Ht as <-. split; [constructor|]. intros rest Hr. apply lex_stringified. by inversion Hwf.
  - inversion Hwf as [| | | | | |? Hl|]; subst. cbn [json_stringify] in Ht. apply bind_Some in Ht as (ts & Hts & [= <-]).
    apply stringify_elements in Hts as [Hp Hx].
    + split; [by constructor|]. cbn [as_read toks]. by apply lexes_enclosed, lexes_join.
    + rewrite Forall_forall in *. auto.
  - inversion Hwf as [| | | | | | |? Hnd Hms]; subst. cbn [json_stringify] in Ht. apply bind_Some in Ht as (ts & Hts & [= <-]).
    apply stringify_members in Hts as [Hp Hx].
    + split; [|cbn [as_read toks]; by apply lexes_enclosed, lexes_join]. cbn [as_read]. constructor; [|done].
      eapply sublist_NoDup; [|apply fmap_sublist, filterb_sublist]. rewrite <-list_fmap_compose. done.
    + rewrite Forall_forall in *. intros kv Hkv. split; [by apply Hms|]. apply IH; [done|]. by apply Hms.
Qed.

(** The text that is written is read as the value it was written for. *)
Lemma stringify_parse v t : wf_value v → json_stringify v = Some t → json_parse t = Some (as_read v).
Proof.
  intros Hwf Ht. destruct (stringified_value v Hwf t Ht) as [Hp Hl].
  specialize (Hl [] I). rewrite app_nil_r in Hl. unfold json_parse. rewrite Hl. cbn [lex lex_flush].
  cbn -[parse_tokens]. rewrite (plain_parses _ Hp) by auto. done.
Qed.

(** ** Sizes *)

(** [Buffer.byteLength(text, 'utf8')] *)
Definition starts_low (s : jsstr) : bool := match s with c :: _ => is_low_surrogate c | [] => false end.

Lemma utf8_length_app a b : starts_low b = false → utf8_length (a ++ b) = utf8_length a + utf8_length b.
Proof.
  intros Hb. enough (∀ n a, (length a <= n)%nat → utf8_length (a ++ b) = utf8_length a + utf8_length b) by eauto.
  induction n as [|n IH]; intros [|c [|d a']] Hn; cbn [length] in Hn; try lia; try done.
  - cbn [app]. cbn [utf8_length]. destruct (c <? 128), (c <? 2048), (is_high_surrogate c); try lia.
    destruct b as [|d b']; [done|]. cbn [starts_low] in Hb. rewrite Hb. lia.
  - assert (utf8_length ((d :: a') ++ b) = utf8_length (d :: a') + utf8_length b) as E by (apply IH; cbn [length]; lia).
    assert (utf8_length (a' ++ b) = utf8_length a' + utf8_length b) as E' by (apply IH; lia).
    rewrite <-!app_comm_cons in *. cbn [utf8_length] in E |- *. destruct (c <? 128), (c <? 2048), (is_high_surrogate c); try lia.
    destruct (is_low_surrogate d); lia.
Qed.

Lemma utf8_length_nonneg s : 0 <= utf8_length s.
Proof.
  enough (∀ n s, (length s <= n)%nat → 0 <= utf8_length s) by eauto. clear s.
  induction n as [|n IH]; intros [|c [|d s]] Hn; cbn [length] in Hn; try lia; try done.
  - cbn [utf8_length]. by destruct (c <? 128), (c <? 2048), (is_high_surrogate c).
  - assert (0 <= utf8_length (d :: s)) as E by (apply IH; cbn [length]; lia).
    assert (0 <= utf8_length s) as E' by (apply IH; lia).
    cbn [utf8_length] in E |- *. destruct (c <? 128), (c <? 2048), (is_high_surrogate c); try lia.
    destruct (is_low_surrogate d); lia.
Qed.

(** ** Sizes of quoted strings *)

Lemma stringify_units_starts s : starts_low (stringify_units s) = false.
Proof.
  destruct s as [|c s]; [done|]. cbn [stringify_units]. destruct (is_high_surrogate c) eqn:Hh.
  - assert (is_low_surrogate c = false) as Hl.
    { unfold is_high_surrogate, is_low_surrogate, in_range in *. bool_to_prop. apply andb_false_iff. left. apply Z.leb_gt. lia. }
    destruct s as [|d s]; [done|]. by destruct (is_low_surrogate d).
  - destruct (is_low_surrogate c) eqn:Hl; [done|]. unfold escape_unit.
    repeat (case_match; [done|]). cbn. done.
Qed.

Lemma stringify_units_app a b : starts_low b = false → stringify_units (a ++ b) = stringify_units a ++ stringify_units b.
Proof.
  intros Hb. enough (∀ n a, (length a <= n)%nat → stringify_units (a ++ b) = stringify_units a ++ stringify_units b) by eauto.
  clear a. induction n as [|n IH]; intros [|c [|d a]] Hn; cbn [length] in Hn; try lia; try done.
  - cbn [app]. cbn [stringify_units]. destruct b as [|d b]; [by rewrite !app_nil_r; destruct (is_high_surrogate c), (is_low_surrogate c)|].
    cbn [starts_low] in Hb. rewrite Hb. destruct (is_high_surrogate c), (is_low_surrogate c); by rewrite <-?app_assoc, ?app_nil_r.
  - assert (stringify_units ((d :: a) ++ b) = stringify_units (d :: a) ++ stringify_units b) as E by (apply IH; cbn [length]; lia).
    assert (stringify_units (a ++ b) = stringify_units a ++ stringify_units b) as E' by (apply IH; lia).
    rewrite <-!app_comm_cons in *. cbn [stringify_units] in E |- *. destruct (is_high_surrogate c).
    + destruct (is_low_surrogate d); [by rewrite E'|]. rewrite E, <-?app_assoc. done.
    + destruct (is_low_surrogate c); rewrite E, <-?app_assoc; done.
Qed.

(** The bytes of a string within quotes. *)
Definition quoted_size (s : jsstr) : Z := utf8_length (stringify_units s).

Lemma quoted_size_app a b : starts_low b = false → quoted_size (a ++ b) = quoted_size a + quoted_size b.
Proof.
  intros Hb. unfold quoted_size. rewrite stringify_units_app by done. apply utf8_length_app, stringify_units_starts.
Qed.

Lemma quoted_size_nonneg s : 0 <= quoted_size s.
Proof. apply utf8_length_nonneg. Qed.

(** Characters that are written as they are, in one byte. *)
Definition is_plain_char (c : Z) : bool := in_range 35 91 c || in_range 93 126 c.

Lemma plain_string s : forallb is_plain_char s = true → stringify_units s = s ∧ utf8_length s = Z.of_nat (length s) ∧ starts_low s = false.
Proof.
  induction s as [|c s IH]; [done|]. cbn [forallb]. intros [Hc Hs]%andb_true_iff. destruct (IH Hs) as (E1 & E2 & _).
  unfold is_plain_char, in_range in Hc. assert (34 < c < 127 ∧ c ≠ 92) as [? ?].
  { apply orb_true_iff in Hc as [Hc|Hc]; bool_to_prop; lia. }
  assert (is_high_surrogate c = false ∧ is_low_surrogate c = false) as [Hh Hl].
  { unfold is_high_surrogate, is_low_surrogate, in_range. split; apply andb_false_iff; left; apply Z.leb_gt; lia. }
  cbn [stringify_units utf8_length length starts_low]. rewrite Hh, Hl, (proj2 (Z.ltb_lt c 128)), E1, E2 by lia. split_and!; [|lia|done].
  unfold escape_unit, QUOTE, BACKSLASH. rewrite !(proj2 (Z.eqb_neq _ _)), (proj2 (Z.ltb_ge _ _)) by lia. done.
Qed.

Lemma quoted_size_plain s : forallb is_plain_char s = true → quoted_size s = Z.of_nat (length s).
Proof. intros (E & E' & _)%plain_string. unfold quoted_size. by rewrite E. Qed.

Lemma utf8_length_quoted s rest :
  starts_low rest = false → utf8_length (stringify_string s ++ rest) = quoted_size s + 2 + utf8_length rest.
Proof.
  intros Hr. unfold stringify_string. rewrite <-!app_assoc.
  assert (∀ t u, starts_low t = false → starts_low (t ++ [QUOTE] ++ u) = false) as Hq by (by intros [|]).
  rewrite (utf8_length_app [QUOTE]) by apply Hq, stringify_units_starts.
  rewrite (utf8_length_app (stringify_units s)), (utf8_length_app [QUOTE]) by done.
  change (utf8_length [QUOTE]) with 1. unfold quoted_size. lia.
Qed.

(** ** Texts of numbers *)

Lemma format_number_length neg z k n : (k <= 17)%nat → (length (format_number neg z k n) <= 32)%nat.
Proof.
  intros Hk. unfold format_number. cbv zeta. rewrite length_app.
  assert (∀ e, length (small_text e) <= 3)%nat as Hs by (intros e; unfold small_text; repeat case_match; cbn; lia).
  specialize (Hs (Z.abs (n - 1))).
  assert (∀ c, length (js (String c EmptyString)) = 1%nat) as H1 by done.
  assert (length (js "0.") = 2%nat) as H2 by done.
  repeat case_match; bool_to_prop;
    rewrite ?length_app, ?length_replicate, ?length_take, ?length_drop, ?digits_length, ?H1, ?H2; cbn [length]; lia.
Qed.

Lemma number_text_plain f t : number_text f = Some t → forallb is_plain_char t = true ∧ (length t <= 32)%nat.
Proof.
  intros Ht. split.
  - apply number_text_value, number_value_chars in Ht as (Hall & _). apply forallb_elem. intros c Hc.
    rewrite Forall_forall in Hall. specialize (Hall c Hc). unfold is_number_char, is_digit, is_plain_char, in_range in *.
    repeat (apply orb_true_iff in Hall as [Hall|Hall]); bool_to_prop; apply orb_true_iff;
      try (left; apply andb_true_iff; split; apply Z.leb_le; unfold cu in *; cbn in *; lia);
      right; apply andb_true_iff; split; apply Z.leb_le; unfold cu in *; cbn in *; lia.
  - destruct f as [b|b| |neg m e]; cbn [number_text] in Ht; try done; [by injection Ht as <-; cbn; lia|].
    apply bind_Some in Ht as (n & _ & Ht).
    enough (∀ more k, shortest neg m e n k more = Some t → (k + more <= 17)%nat → (length t <= 32)%nat) by eauto.
    clear Ht. induction more as [|more IH]; intros k; cbn [shortest]; destruct (find _ _) as [u|] eqn:E; try done.
    + intros [= <-] Hk. apply find_Some in E as [(s & -> & _)%list_elem_of_fmap _]. apply format_number_length. lia.
    + intros [= <-] Hk. apply find_Some in E as [(s & -> & _)%list_elem_of_fmap _]. apply format_number_length. lia.
    + intros Ht Hk. apply (IH (S k)); [done|lia].
Qed.

(** ** What a text determines *)

Lemma stringify_number_canon f : is_finite_number f = true → stringify_number (canon_number f) = stringify_number f.
Proof. intros Hf. unfold stringify_number. by destruct f. Qed.

(** A value and what is read back of it have the same text. *)
Lemma stringify_as_read v : json_stringify (as_read v) = json_stringify v.
Proof.
  induction v as [| | |b|f|s|l IH|ms IH] using jsval_rect'; try done.
  - cbn [as_read]. destruct (is_finite_number f) eqn:E; cbn [json_stringify]; [by apply stringify_number_canon|].
    unfold stringify_number. by rewrite E.
  - cbn [as_read json_stringify]. f_equal. induction IH as [|v l Hv _ IH']; [done|]. rewrite fmap_cons. cbn [mapM].
    rewrite IH'. destruct (is_undefined v) eqn:E; [done|]. by rewrite as_read_undefined, E, Hv.
  - cbn [as_read json_stringify]. f_equal. f_equal. induction IH as [|[k v] ms Hv _ IH']; [done|]. rewrite !fmap_cons. cbn [filterb].
    unfold keep_defined at 1, stable_defined at 2. cbn [fst snd]. rewrite as_read_undefined.
    destruct (is_undefined v) eqn:E; cbn [negb]; [exact IH'|]. rewrite fmap_cons. cbn [filterb]. unfold stable_defined at 1. cbn [fst snd].
    rewrite as_read_undefined, E. cbn [negb]. f_equal; [|exact IH']. f_equal. exact Hv.
Qed.

Lemma lookup_filter_defined k ms :
  default JUndef (lookup_member k (filterb keep_defined ((λ kv, (kv.1, as_read kv.2)) <$> ms))) =
  as_read (default JUndef (lookup_member k (filterb keep_defined ms))).
Proof.
  induction ms as [|[k' v] ms IH]; [done|]. rewrite fmap_cons. cbn [filterb fst snd].
  change (keep_defined (k', as_read v)) with (negb (is_undefined (as_read v))). change (keep_defined (k', v)) with (negb (is_undefined v)).
  rewrite as_read_undefined. destruct (is_undefined v); cbn [negb]; [done|]. unfold lookup_member in *. cbn [find fst].
  case_bool_decide; [done|]. exact IH.
Qed.

(** Reading a member of a record with one member per key. *)
Lemma js_get_as_read k v : wf_value v → js_get k (as_read v) = as_read (js_get k v).
Proof.
  destruct v as [| | | |f| | |ms]; try done; [by cbn; destruct (is_finite_number f)|].
  intros Hwf. inversion Hwf as [| | | | | | |? Hnd _]; subst. cbn [as_read js_get]. rewrite lookup_filter_defined. f_equal.
  induction ms as [|[k' v] ms IH]; [done|]. apply NoDup_cons in Hnd as [Hnin Hnd]. cbn [filterb].
  change (keep_defined (k', v)) with (negb (is_undefined v)).
  assert (wf_value (JObj ms)) as Hms.
  { inversion Hwf as [| | | | | | |? _ Hf]; subst. apply Forall_cons in Hf as [_ Hf]. by constructor. }
  unfold lookup_member in *. cbn [find fst]. destruct (is_undefined v) eqn:E; cbn [negb find fst].
  - rewrite (IH Hms Hnd). case_bool_decide as Ek; [|done]. subst k'. destruct v; try done. cbn.
    destruct (find _ ms) as [[k'' v']|] eqn:F; [|done]. apply find_Some in F as [F1 F2%bool_decide_eq_true_1]. cbn in F2. subst.
    destruct Hnin. by apply (list_elem_of_fmap_2 fst) in F1.
  - case_bool_decide; [done|]. by apply IH.
Qed.

Lemma text_determines v w t :
  wf_value v → wf_value w → json_stringify v = Some t → json_stringify w = Some t → as_read v = as_read w.
Proof.
  intros Hv Hw Ev Ew. apply (stringify_parse _ _ Hv) in Ev. apply (stringify_parse _ _ Hw) in Ew. congruence.
Qed.

(** ** Deciding well-formedness *)

Definition wf_strb (s : jsstr) : bool := forallb (λ c, (0 <=? c) && (c <? 65536)) s.
Fixpoint wf_valueb (v : jsval) : bool :=
  match v with
  | JStr s => wf_strb s
  | JArr l => forallb wf_valueb l
  | JObj ms => bool_decide (NoDup ms.*1) && forallb (λ kv, wf_strb kv.1 && wf_valueb kv.2) ms
  | _ => true
  end.

Lemma wf_strb_sound s : wf_strb s = true → wf_str s.
Proof. unfold wf_strb. rewrite forallb_elem. intros H. apply Forall_forall. intros c Hc. specialize (H c Hc). bool_to_prop. lia. Qed.

Lemma wf_valueb_sound v : wf_valueb v = true → wf_value v.
Proof.
  induction v as [| | |b|f|s|l IH|ms IH] using jsval_rect'; cbn [wf_valueb]; intros H; try constructor.
  - by apply wf_strb_sound.
  - rewrite forallb_elem in H. rewrite Forall_forall in *. auto.
  - bool_to_prop. done.
  - bool_to_prop. match goal with H : forallb _ ms = true |- _ => rewrite forallb_elem in H end. rewrite Forall_forall in *. intros kv Hkv.
    match goal with H : ∀ x, x ∈ ms → _ && _ = true |- _ => specialize (H kv Hkv) end. bool_to_prop. split; [by apply wf_strb_sound|auto].
Qed.
