(* ===== verification/AgentLoop.v ===== *)
(** * The internal Agent loop

    [apps/nanocore/src/internal-agents/internal-agent-loop.ts]: one bounded run of an internal
    Agent.  The loop asks the provider for a message, executes the Tool calls of the message one
    after the other, appends the answers to the transcript and asks again, until a message has no
    call, a limit is reached, the run is cancelled or a value is malformed.

    What is outside the loop (the provider, the Tools, the clock and the caller who may cancel) is
    an [Environment] over a type [W] of world states: each request it is asked takes the world on.
    Messages are the data values the code handles, checked by the code's own predicates.  The
    state keeps, beside the variables of the function, the list of the requests made of the
    environment in order ([trace]); nothing reads it but the theorems. *)
From Stdlib Require Import SpecFloat.
From stdpp Require Import list sorting.
From S2P Require Import Prelude JsValue CanonicalJson.
Open Scope Z_scope.

(** ** Messages *)

Definition string_is (t : string) (v : jsval) : bool := match v with JStr s => bool_decide (s = js t) | _ => false end.
Definition is_string (v : jsval) : bool := match v with JStr _ => true | _ => false end.
Definition is_boolean (v : jsval) : bool := match v with JBool _ => true | _ => false end.
Definition text_of (v : jsval) : jsstr := match v with JStr s => s | _ => [] end.
Definition elements_of (v : jsval) : option (list jsval) := match v with JArr l => Some l | _ => None end.
Definition nonempty_string (v : jsval) : bool := match v with JStr (_ :: _) => true | _ => false end.
Definition nonblank_string (v : jsval) : bool := match v with JStr s => negb (is_blank s) | _ => false end.

(** [Array.isArray(v) && v.every(p)] *)
Definition array_every (p : jsval → bool) (v : jsval) : bool := match v with JArr l => forallb p l | _ => false end.

(** [Object.hasOwn] *)
Definition has_own (k : string) (v : jsval) : bool :=
  match v with JObj ms => match lookup_member (js k) ms with Some _ => true | None => false end | _ => false end.

Definition isAgentContent (v : jsval) : bool :=
  isRecord v &&
  (string_is "text" (js_get "type" v) && is_string (js_get "text" v)
   || string_is "image" (js_get "type" v) && nonempty_string (js_get "data" v) && nonempty_string (js_get "mimeType" v)).

Definition assistant_part (v : jsval) : bool :=
  isRecord v &&
  (string_is "text" (js_get "type" v) && is_string (js_get "text" v)
   || string_is "toolCall" (js_get "type" v) && is_string (js_get "callId" v) && is_string (js_get "name" v) && has_own "arguments" v).

Definition isAssistantMessage (v : jsval) : bool :=
  isRecord v && string_is "assistant" (js_get "role" v) && is_boolean (js_get "truncated" v) &&
  array_every assistant_part (js_get "content" v).

Definition isAgentMessage (v : jsval) : bool :=
  if negb (isRecord v) || negb (is_string (js_get "role" v)) then false
  else if string_is "assistant" (js_get "role" v) then isAssistantMessage v
  else if string_is "user" (js_get "role" v) then array_every isAgentContent (js_get "content" v)
  else string_is "tool" (js_get "role" v) && nonblank_string (js_get "callId" v) && is_boolean (js_get "isError" v) &&
       array_every isAgentContent (js_get "content" v).

(** One correlated Tool call, and the calls of an assistant message. *)
Record AgentToolCall := { callId : jsstr; call_name : jsstr; call_arguments : jsval }.

Definition tool_call (part : jsval) : option AgentToolCall :=
  if string_is "toolCall" (js_get "type" part)
  then Some {| callId := text_of (js_get "callId" part); call_name := text_of (js_get "name" part);
               call_arguments := js_get "arguments" part |}
  else None.

Definition requestedCalls (message : jsval) : list AgentToolCall :=
  omap tool_call (default [] (elements_of (js_get "content" message))).

Definition is_truncated (message : jsval) : bool := match js_get "truncated" message with JBool b => b | _ => false end.

Definition tool_message (id : jsstr) (content : list jsval) (isError : bool) : jsval :=
  JObj [(js "role", JStr (js "tool")); (js "callId", JStr id); (js "content", JArr content); (js "isError", JBool isError)].

Definition text_part (text : jsstr) : jsval := JObj [(js "type", JStr (js "text")); (js "text", JStr text)].

Definition toolError (id : jsstr) (text : string) : jsval := tool_message id [text_part (js text)] true.

(** ** The input *)

Record AgentTool := { tool_name : jsstr; tool_description : jsstr; inputSchema : jsval }.
Record Limits := { maxModelTurns : spec_float; maxToolCalls : spec_float; deadlineMs : spec_float }.
Record LoopInput := {
  systemPrompt : jsstr;
  in_messages : jsval;
  in_tools : list AgentTool;
  logicalModelId : jsstr;
  limits : Limits;
}.

(** [positiveInteger], with the integer. *)
Definition positiveInteger (value : spec_float) : option Z :=
  n ← number_integer value; if 0 <? n then Some n else None.
Definition is_positive (value : spec_float) : bool := match positiveInteger value with Some _ => true | None => false end.

Definition assertInput (i : LoopInput) : bool :=
  negb (is_blank (systemPrompt i) || is_blank (logicalModelId i) || negb (is_positive (maxModelTurns (limits i)))
        || negb (is_positive (maxToolCalls (limits i))) || negb (is_positive (deadlineMs (limits i)))
        || negb (array_every isAgentMessage (in_messages i)))
  && negb (existsb (λ t, is_blank (tool_name t) || is_blank (tool_description t) || negb (isRecord (inputSchema t))) (in_tools i)
           || bool_decide (length (dedup (tool_name <$> in_tools i)) ≠ length (in_tools i))).

(** ** The environment *)

(** Who cancelled first: the combined signal keeps the reason of the first of its sources. *)
Inductive Cancellation := DeadlineElapsed | CallerAborted.

(** A thrown value: an [InternalAgentProviderError] with its code, or anything else. *)
Inductive Thrown := ProviderError (code : jsstr) | OtherError.

(** An effect that has been started: the world once it has been invoked, the world once the race
    with the signal is decided, and what decided it ([None]: the signal). *)
Record Pending (W : Type) := { invoked : W; settled : W; decided : option (result Thrown jsval) }.
Arguments invoked {W}. Arguments settled {W}. Arguments decided {W}.

Record Environment (W : Type) := {
  callProvider : list jsval → W → Pending W;
  execute : jsstr → jsval → jsstr → Z → W → Pending W;   (* Tool name, arguments, call id, occurrence *)
  signalled : W → option Cancellation;
}.
Arguments callProvider {W}. Arguments execute {W}. Arguments signalled {W}.

(** ** The loop *)

Inductive Limit := ModelTurns | ToolCalls | Deadline.
Inductive ExitKind := Quiescent | LimitReached (limit : Limit) | Aborted | Failed (code : jsstr).

(** A request made of the environment, with the world it was made in. *)
Inductive Request (W : Type) :=
| ProviderCall (w : W) (transcript : list jsval)
| ToolExecution (w : W) (call : AgentToolCall) (occurrence : Z).
Arguments ProviderCall {W}. Arguments ToolExecution {W}.

Record State (W : Type) := {
  messages : list jsval;
  callIds : list jsstr;
  modelTurns : Z;
  toolCalls : Z;
  world : W;
  trace : list (Request W);
}.
Arguments messages {W}. Arguments callIds {W}. Arguments modelTurns {W}. Arguments toolCalls {W}.
Arguments world {W}. Arguments trace {W}.
Arguments Build_State {W}.

Section Loop.
Context {W : Type} (env : Environment W).
(** [redactInternalAgentText], and the schema validator: [None] when a schema does not compile. *)
Context (redact : jsstr → jsstr) (compile : list jsval → option (list (jsval → bool))).

(** An iteration goes on with a state or returns. *)
Definition outcome : Type := result (ExitKind * State W) (State W).

Definition push (m : jsval) (s : State W) : State W :=
  Build_State (messages s ++ [m]) (callIds s) (modelTurns s) (toolCalls s) (world s) (trace s).
Definition move (w : W) (s : State W) : State W :=
  Build_State (messages s) (callIds s) (modelTurns s) (toolCalls s) w (trace s).
Definition note (r : Request W) (s : State W) : State W :=
  Build_State (messages s) (callIds s) (modelTurns s) (toolCalls s) (world s) (trace s ++ [r]).
Definition count_turn (s : State W) : State W :=
  Build_State (messages s) (callIds s) (modelTurns s + 1) (toolCalls s) (world s) (trace s).
Definition count_call (s : State W) : State W :=
  Build_State (messages s) (callIds s) (modelTurns s) (toolCalls s + 1) (world s) (trace s).
Definition remember (ids : list jsstr) (s : State W) : State W :=
  Build_State (messages s) (callIds s ++ ids) (modelTurns s) (toolCalls s) (world s) (trace s).

Definition stop (k : ExitKind) (s : State W) : outcome := Err (k, s).

Definition exitForCancellation (s : State W) : option ExitKind :=
  match signalled env (world s) with
  | None => None
  | Some DeadlineElapsed => Some (LimitReached Deadline)
  | Some CallerAborted => Some Aborted
  end.

(** [const cancelled = exitForCancellation(); if (cancelled) return cancelled;] *)
Definition unless_cancelled (s : State W) (k : outcome) : outcome :=
  match exitForCancellation s with Some e => stop e s | None => k end.

(** The value of the race; the abort reason is none of the typed errors. *)
Definition raceWithSignal (p : Pending W) : W * result Thrown jsval :=
  match signalled env (invoked p) with
  | Some _ => (invoked p, Err OtherError)
  | None => (settled p, match decided p with Some r => r | None => Err OtherError end)
  end.

Definition sanitize_part (part : jsval) : jsval :=
  if string_is "text" (js_get "type" part) then text_part (redact (text_of (js_get "text" part))) else part.

Definition sanitizeToolContent (content : jsval) : option (list jsval) :=
  if array_every isAgentContent content then Some (sanitize_part <$> default [] (elements_of content)) else None.

(** The validated Tools of the run: a name and the check of its arguments. *)
Definition Tools : Type := list (jsstr * (jsval → bool)).

Section Turns.
Context (tools : Tools) (turnLimit callLimit : Z).

(** One requested call. *)
Definition run_call (call : AgentToolCall) (s : State W) : outcome :=
  unless_cancelled s
    match lookup_member (call_name call) tools with
    | None => Ok (push (toolError (callId call) "The requested Tool is unavailable.") s)
    | Some validate =>
      if negb (validate (call_arguments call))
      then Ok (push (toolError (callId call) "The Tool arguments do not match the required schema.") s)
      else if callLimit <=? toolCalls s then stop (LimitReached ToolCalls) s
      else
        let s := count_call s in
        let s := note (ToolExecution (world s) call (toolCalls s)) s in
        let '(w, got) := raceWithSignal (execute env (call_name call) (call_arguments call) (callId call) (toolCalls s) (world s)) in
        let s := move w s in
        unless_cancelled s
          match got with
          | Ok result =>
            match sanitizeToolContent (js_get "content" result) with
            | None => stop (Failed (js "tool_result_invalid")) s
            | Some content =>
              Ok (push (tool_message (callId call) content (match js_get "isError" result with JBool b => b | _ => false end)) s)
            end
          | Err _ => Ok (push (toolError (callId call) "The Tool failed without a safe result.") s)
          end
    end.

Fixpoint run_calls (calls : list AgentToolCall) (s : State W) : outcome :=
  match calls with
  | [] => Ok s
  | call :: calls => s ← run_call call s; run_calls calls s
  end.

(** The identities of the requested calls are usable: not blank and never seen before. *)
Definition fresh_calls (seen : list jsstr) (calls : list AgentToolCall) : bool :=
  negb (existsb (λ c, is_blank (callId c) || includes seen (callId c) || is_blank (call_name c)) calls)
  && bool_decide (length (dedup (callId <$> calls)) = length calls).

Definition thrown_code (e : Thrown) : jsstr :=
  match e with ProviderError code => code | OtherError => js "provider_call_failed" end.

(** The body of [while (true)]. *)
Definition iteration (s : State W) : outcome :=
  unless_cancelled s
    (if turnLimit <=? modelTurns s then stop (LimitReached ModelTurns) s
     else
       let s := note (ProviderCall (world s) (messages s)) s in
       let '(w, got) := raceWithSignal (callProvider env (messages s) (world s)) in
       let s := move w s in
       match got with
       | Err e => unless_cancelled s (stop (Failed (thrown_code e)) s)
       | Ok message =>
         let s := count_turn s in
         unless_cancelled s
           (if negb (isAssistantMessage message) then stop (Failed (js "provider_response_invalid")) s
            else
              let s := push message s in
              let calls := requestedCalls message in
              if negb (fresh_calls (callIds s) calls) then stop (Failed (js "provider_response_invalid")) s
              else
                let s := remember (callId <$> calls) s in
                if bool_decide (calls = []) then stop Quiescent s
                else if is_truncated message
                then Ok (foldl (λ s c, push (toolError (callId c) "The incomplete Tool call was not executed.") s) s calls)
                else run_calls calls s)
       end).

Fixpoint iterations (fuel : nat) (s : State W) : option (ExitKind * State W) :=
  match fuel with
  | O => None
  | S fuel => match iteration s with Err exit => Some exit | Ok s => iterations fuel s end
  end.
End Turns.

Definition initial (i : LoopInput) (w : W) : State W :=
  Build_State (default [] (elements_of (in_messages i))) [] 0 0 w [].

(** The limits of an admitted input. *)
Definition limit_of (value : spec_float) : Z := default 0 (positiveInteger value).

Definition runInternalAgentLoop (i : LoopInput) (w : W) : option (ExitKind * State W) :=
  match assertInput i, compile (inputSchema <$> in_tools i) with
  | true, Some checks =>
    iterations (zip (tool_name <$> in_tools i) checks) (limit_of (maxModelTurns (limits i)))
      (limit_of (maxToolCalls (limits i))) (S (Z.to_nat (limit_of (maxModelTurns (limits i))))) (initial i w)
  | _, _ => Some (Failed (js "internal_agent_input_invalid"), initial i w)
  end.
End Loop.

(** ** What a run has asked of its environment *)

Section Trace.
Context {W : Type}.

Definition execution (r : Request W) : option (AgentToolCall * Z) :=
  match r with ToolExecution _ c n => Some (c, n) | ProviderCall _ _ => None end.
Definition executions (t : list (Request W)) : list (AgentToolCall * Z) := omap execution t.
Definition asked (r : Request W) : option (list jsval) :=
  match r with ProviderCall _ ms => Some ms | ToolExecution _ _ _ => None end.
Definition provider_calls (t : list (Request W)) : list (list jsval) := omap asked t.
Arguments executions : simpl never.
Arguments provider_calls : simpl never.

Lemma executions_app t u : executions (t ++ u) = executions t ++ executions u.
Proof. apply omap_app. Qed.
Lemma provider_calls_app t u : provider_calls (t ++ u) = provider_calls t ++ provider_calls u.
Proof. apply omap_app. Qed.

(** ** The transcript *)

Definition answers (a : jsval) (c : AgentToolCall) : Prop := ∃ content e, a = tool_message (callId c) content e.

(** Rounds of an assistant message that requests calls and one answer to each of them, in order;
    with the identities of the calls. *)
Inductive answered : list jsval → list jsstr → Prop :=
| answered_nil : answered [] []
| answered_round ms ids m l :
    answered ms ids → isAssistantMessage m = true → requestedCalls m ≠ [] → Forall2 answers l (requestedCalls m) →
    answered (ms ++ m :: l) (ids ++ (callId <$> requestedCalls m)).

Context (env : Environment W) (redact : jsstr → jsstr) (tools : Tools) (turnLimit callLimit : Z) (first : list jsval).

(** A request was made before any cancellation; a Tool was executed for a call that an untruncated
    assistant message requests, with arguments its schema admits; the provider was shown a
    transcript in which every call is answered. *)
Definition request_ok (ms : list jsval) (r : Request W) : Prop :=
  match r with
  | ProviderCall w shown => signalled env w = None ∧ ∃ rounds ids, shown = first ++ rounds ∧ answered rounds ids
  | ToolExecution w c _ =>
    signalled env w = None ∧
    (∃ check, lookup_member (call_name c) tools = Some check ∧ check (call_arguments c) = true) ∧
    ∃ m, m ∈ ms ∧ isAssistantMessage m = true ∧ is_truncated m = false ∧ c ∈ requestedCalls m
  end.

Lemma request_ok_mono ms m r : request_ok ms r → request_ok (ms ++ [m]) r.
Proof. destruct r; cbn; [done|]. intros (? & ? & m' & ? & ?). split_and!; [done..|]. exists m'. set_solver. Qed.

(** What holds of the counters and the trace throughout. *)
Record accounted (s : State W) : Prop := {
  ac_turns : modelTurns s <= Z.of_nat (length (provider_calls (trace s)));
  ac_provider : Z.of_nat (length (provider_calls (trace s))) <= turnLimit;
  ac_calls : toolCalls s = Z.of_nat (length (executions (trace s)));
  ac_bound : toolCalls s <= callLimit;
  ac_order : (executions (trace s)).*2 = Z.of_nat <$> seq 1 (length (executions (trace s)));
  ac_requests : Forall (request_ok (messages s)) (trace s);
}.

(** Between two rounds every call has its answer; at the head of an iteration every message of the
    provider has been counted. *)
Definition at_rest (s : State W) : Prop :=
  accounted s ∧ NoDup (callIds s) ∧ sublist (callId <$> (executions (trace s)).*1) (callIds s) ∧
  ∃ rounds, messages s = first ++ rounds ∧ answered rounds (callIds s).
Definition counted (s : State W) : Prop := Z.of_nat (length (provider_calls (trace s))) = modelTurns s.
Definition at_head (s : State W) : Prop := at_rest s ∧ counted s.

(** Within the calls of a message: [done] are answered, [todo] are not, [started] may have been
    executed. *)
Definition in_round (m : jsval) (done started todo : list AgentToolCall) (s : State W) : Prop :=
  accounted s ∧ counted s ∧ NoDup (callIds s) ∧
  isAssistantMessage m = true ∧ requestedCalls m = done ++ todo ∧
  started `prefix_of` done ++ todo ∧ ∃ rounds ids l, messages s = first ++ rounds ++ m :: l ∧ answered rounds ids ∧ Forall2 answers l done ∧
    callIds s = ids ++ (callId <$> done ++ todo) ∧
    sublist (callId <$> (executions (trace s)).*1) (ids ++ (callId <$> started)).

(** At an exit: the last message may be open. *)
Definition at_exit (k : ExitKind) (s : State W) : Prop :=
  accounted s ∧ NoDup (callId <$> (executions (trace s)).*1) ∧
  ∃ rounds ids rest, messages s = first ++ rounds ++ rest ∧ answered rounds ids ∧ NoDup ids ∧
    (rest = [] ∨ ∃ m l pre, rest = m :: l ∧ isAssistantMessage m = true ∧ Forall2 answers l pre ∧ pre `prefix_of` requestedCalls m) ∧
    (k = Quiescent → ∃ m, rest = [m] ∧ isAssistantMessage m = true ∧ requestedCalls m = []).

Definition outcome_ok (P : State W → Prop) (o : outcome) : Prop :=
  match o with Ok s => P s | Err (k, s) => at_exit k s end.

Lemma rest_exit k s : k ≠ Quiescent → at_rest s → at_exit k s.
Proof.
  intros Hk (A & Hn & Hs & rounds & E & Ha). split_and!; [done|by eapply sublist_NoDup|].
  exists rounds, (callIds s), []. rewrite app_nil_r. split_and!; [done..|by left|done].
Qed.

Lemma round_exit k m pre started post s : k ≠ Quiescent → in_round m pre started post s → at_exit k s.
Proof.
  intros Hk (A & _ & Hn & Hm & Hc & [more Hst] & rounds & ids & l & E & Ha & Hl & Hi & Hs). rewrite Hi in Hn. split_and!; [done|..].
  - eapply sublist_NoDup; [exact Hn|]. rewrite Hst, fmap_app, (assoc_L app). etrans; [exact Hs|]. by apply sublist_inserts_r.
  - exists rounds, ids, (m :: l). split_and!; [done..|by apply NoDup_app in Hn as [? _]| |done].
    right. exists m, l, pre. split_and!; [done..|]. rewrite Hc. by exists post.
Qed.

(** The end of a round is the head of the next iteration. *)
Lemma round_head m calls s : calls ≠ [] → in_round m calls calls [] s → at_head s.
Proof.
  intros Hne (A & Ht & Hn & Hm & Hc & _ & rounds & ids & l & E & Ha & Hl & Hi & Hs). rewrite app_nil_r in Hc, Hi.
  split; [|done]. split_and!; [done..|by rewrite Hi|]. exists (rounds ++ m :: l). split; [done|]. rewrite Hi, <-Hc in *.
  by apply answered_round; rewrite ?Hc in *.
Qed.

Lemma accounted_push a s : accounted s → accounted (push a s).
Proof. intros []. constructor; try done. cbn. eapply Forall_impl; [done|]. intros r. apply request_ok_mono. Qed.

(** The answer to the next call. *)
Lemma round_push m pre started c post a s :
  in_round m pre started (c :: post) s → answers a c → started `prefix_of` pre ++ [c] →
  in_round m (pre ++ [c]) (pre ++ [c]) post (push a s).
Proof.
  intros (A & Ht & Hn & Hm & Hc & _ & rounds & ids & l & E & Ha & Hl & Hi & Hs) Hans [more Hst].
  assert (pre ++ c :: post = (pre ++ [c]) ++ post) as Ec by by rewrite <-(assoc_L app).
  split_and!; [by apply accounted_push|done..|by rewrite <-Ec|by exists post|].
  exists rounds, ids, (l ++ [a]). cbn. rewrite <-Ec. split_and!; [by rewrite E, <-!(assoc_L app)|done| |done|].
  - apply Forall2_app; [done|]. by repeat constructor.
  - rewrite Hst, fmap_app, (assoc_L app). etrans; [exact Hs|]. by apply sublist_inserts_r.
Qed.

Lemma round_move m pre started post w s : in_round m pre started post s → in_round m pre started post (move w s).
Proof. intros (A & H). split; [|done]. by destruct A. Qed.

Lemma exit_not_quiescent s k : exitForCancellation env s = Some k → k ≠ Quiescent.
Proof. unfold exitForCancellation. by repeat case_match; intros [= <-]. Qed.

(** A cancellation check in the middle of a round, and at a head. *)
Lemma round_unless m pre started post s P k :
  in_round m pre started post s → (signalled env (world s) = None → outcome_ok P k) → outcome_ok P (unless_cancelled env s k).
Proof.
  intros Hr Hk. unfold unless_cancelled. destruct (exitForCancellation env s) eqn:E.
  - eapply round_exit; [by eapply exit_not_quiescent|done].
  - apply Hk. unfold exitForCancellation in E. by repeat case_match.
Qed.

(** A Tool is executed. *)
Lemma round_execute m pre c post check s :
  in_round m pre pre (c :: post) s → is_truncated m = false → signalled env (world s) = None →
  lookup_member (call_name c) tools = Some check → check (call_arguments c) = true → toolCalls s < callLimit →
  in_round m pre (pre ++ [c]) (c :: post) (note (ToolExecution (world s) c (toolCalls s + 1)) (count_call s)).
Proof.
  intros ([At Ap Ac Ab Ao Ar] & Ht & Hn & Hm & Hc & _ & rounds & ids & l & E & Ha & Hl & Hi & Hs) Htr Hw Hck Hv Hlt.
  assert (executions (trace s ++ [ToolExecution (world s) c (toolCalls s + 1)]) = executions (trace s) ++ [(c, toolCalls s + 1)])
    as Ex by apply executions_app.
  assert (provider_calls (trace s ++ [ToolExecution (world s) c (toolCalls s + 1)]) = provider_calls (trace s)) as Ep
    by (rewrite provider_calls_app; apply app_nil_r).
  split_and!; [constructor| |done..|by exists post; rewrite <-(assoc_L app)|]; unfold counted; cbn; rewrite ?Ep, ?Ex; try done.
  - rewrite length_app. cbn. lia.
  - lia.
  - rewrite fmap_app, Ao, length_app, Nat.add_1_r, seq_S, fmap_app. cbn. repeat f_equal. lia.
  - apply Forall_app. split; [done|]. constructor; [|done]. split_and!; [done|by exists check|].
    exists m. rewrite E, Hc. split_and!; [set_solver|done..|set_solver].
  - exists rounds, ids, l. split_and!; [done..|]. rewrite !fmap_app, (assoc_L app). by apply sublist_app.
Qed.

Lemma run_call_ok m pre c post s :
  in_round m pre pre (c :: post) s → is_truncated m = false →
  outcome_ok (in_round m (pre ++ [c]) (pre ++ [c]) post) (run_call env redact tools callLimit c s).
Proof.
  intros Hr Htr. unfold run_call. apply (round_unless _ _ _ _ _ _ _ Hr). intros Hw.
  assert (∀ t, outcome_ok (in_round m (pre ++ [c]) (pre ++ [c]) post) (Ok (push (toolError (callId c) t) s))) as Herr.
  { intros t. eapply round_push; [exact Hr| |by apply prefix_app_r]. by do 2 eexists. }
  destruct (lookup_member (call_name c) tools) as [check|] eqn:Hl; [|apply Herr].
  destruct (check (call_arguments c)) eqn:Hv; [|apply Herr]. cbn [negb].
  destruct (callLimit <=? toolCalls s) eqn:Hlim; bool_to_prop; [by apply (round_exit _ m pre pre (c :: post))|].
  pose proof (round_execute _ _ _ _ _ _ Hr Htr Hw Hl Hv Hlim) as Hx. cbn [toolCalls count_call world] in *.
  destruct (raceWithSignal _ _) as [w got]. apply (round_move _ _ _ _ w) in Hx.
  apply (round_unless _ _ _ _ _ _ _ Hx). intros _. destruct got as [result|].
  - destruct (sanitizeToolContent redact (js_get "content" result)); [|by eapply round_exit].
    eapply round_push; [exact Hx|by do 2 eexists|done].
  - eapply round_push; [exact Hx|by do 2 eexists|done].
Qed.

Lemma run_calls_ok m todo : ∀ pre s,
  in_round m pre pre todo s → is_truncated m = false → pre ++ todo ≠ [] →
  outcome_ok at_head (run_calls env redact tools callLimit todo s).
Proof.
  induction todo as [|c todo IH]; intros pre s Hr Htr Hne; cbn [run_calls].
  - rewrite app_nil_r in Hne. by eapply round_head.
  - pose proof (run_call_ok _ _ _ _ _ Hr Htr) as Hc. destruct (run_call _ _ _ _ _ _) as [s'|[k s']]; [|done].
    cbn [mbind result_bind]. apply (IH (pre ++ [c])); [done..|by destruct pre].
Qed.

(** The calls of a truncated message are answered without being executed. *)
Lemma refuse_calls_ok m todo : ∀ pre s,
  in_round m pre pre todo s → pre ++ todo ≠ [] →
  at_head (foldl (λ s c, push (toolError (callId c) "The incomplete Tool call was not executed.") s) s todo).
Proof.
  induction todo as [|c todo IH]; intros pre s Hr Hne; cbn [foldl].
  - rewrite app_nil_r in Hne. by eapply round_head.
  - apply (IH (pre ++ [c])); [|by destruct pre]. eapply round_push; [done|by do 2 eexists|by apply prefix_app_r].
Qed.

Lemma fresh_calls_spec seen calls :
  fresh_calls seen calls = true → NoDup (callId <$> calls) ∧ ∀ c, c ∈ calls → callId c ∉ seen.
Proof.
  unfold fresh_calls. intros [H E]%andb_true_iff. apply negb_true_iff in H. rewrite existsb_elem_false in H. bool_to_prop. split.
  - apply dedup_length_NoDup. by rewrite length_fmap.
  - intros c Hc Hs. specialize (H c Hc). unfold includes in H. bool_to_prop. done.
Qed.

(** A new assistant message opens a round. *)
Lemma open_round m s :
  at_head s → isAssistantMessage m = true → fresh_calls (callIds s) (requestedCalls m) = true →
  in_round m [] [] (requestedCalls m) (remember (callId <$> requestedCalls m) (push m s)).
Proof.
  intros [(A & Hn & Hs & rounds & E & Ha) Ht] Hm [Hd Hf]%fresh_calls_spec.
  assert (accounted (remember (callId <$> requestedCalls m) (push m s))) as A' by (apply (accounted_push m) in A; by destruct A).
  split_and!; [done..| |done|done|by apply prefix_nil|]; cbn.
  - apply NoDup_app. split_and!; [done| |done]. intros x Hx (c & -> & Hc)%list_elem_of_fmap. by apply (Hf c).
  - exists rounds, (callIds s), []. rewrite app_nil_r. split_and!; [by rewrite E, <-(assoc_L app)|done..].
Qed.

Lemma rest_unless s P k :
  at_rest s → (signalled env (world s) = None → outcome_ok P k) → outcome_ok P (unless_cancelled env s k).
Proof.
  intros Hh Hk. unfold unless_cancelled. destruct (exitForCancellation env s) eqn:E.
  - apply rest_exit; [by eapply exit_not_quiescent|done].
  - apply Hk. unfold exitForCancellation in E. by repeat case_match.
Qed.

(** A provider is asked. *)
Lemma rest_ask s :
  at_head s → signalled env (world s) = None → modelTurns s < turnLimit →
  at_rest (note (ProviderCall (world s) (messages s)) s) ∧
  Z.of_nat (length (provider_calls (trace (note (ProviderCall (world s) (messages s)) s)))) = modelTurns s + 1.
Proof.
  intros [([At Ap Ac Ab Ao Ar] & Hn & Hs & rounds & E & Ha) Ht] Hw Hlt. unfold counted in Ht.
  assert (provider_calls (trace s ++ [ProviderCall (world s) (messages s)]) = provider_calls (trace s) ++ [messages s]) as Ep
    by apply provider_calls_app.
  assert (executions (trace s ++ [ProviderCall (world s) (messages s)]) = executions (trace s)) as Ex
    by (rewrite executions_app; apply app_nil_r).
  split; [split_and!; [constructor|..]|]; cbn; rewrite ?Ep, ?Ex, ?length_app; cbn [length]; try done || lia.
  - apply Forall_app. split; [done|]. constructor; [|done]. split; [done|]. by exists rounds, (callIds s).
  - by exists rounds.
Qed.

Lemma counted_head w s :
  at_rest s → Z.of_nat (length (provider_calls (trace s))) = modelTurns s + 1 → at_head (count_turn (move w s)).
Proof.
  intros (A & H) E. split; [|done]. split; [|done]. destruct A. constructor; try done. cbn. lia.
Qed.

Lemma rest_move w s : at_rest s → at_rest (move w s).
Proof. intros (A & H). split; [|done]. by destruct A. Qed.

(** A message that ends the run. *)
Lemma last_message m k s :
  at_rest s → isAssistantMessage m = true → (k = Quiescent → requestedCalls m = []) → at_exit k (push m s).
Proof.
  intros (A & Hn & Hs & rounds & E & Ha) Hm Hk. split_and!; [by apply accounted_push|by eapply sublist_NoDup|].
  exists rounds, (callIds s), [m]. cbn. split_and!; [by rewrite E, <-(assoc_L app)|done..| |].
  - right. exists m, [], []. split_and!; [done..|]. apply prefix_nil.
  - intros K. exists m. eauto.
Qed.

Lemma iteration_ok s : at_head s → outcome_ok at_head (iteration env redact tools turnLimit callLimit s).
Proof.
  intros Hh. unfold iteration. apply rest_unless; [apply Hh|]. intros Hw.
  destruct (turnLimit <=? modelTurns s) eqn:Hlim; bool_to_prop; [by apply rest_exit; [|apply Hh]|].
  destruct (rest_ask _ Hh Hw Hlim) as [Hr Ht]. set (s1 := note _ s) in *. change (messages s1) with (messages s).
  destruct (raceWithSignal _ _) as [w got]. destruct got as [m|e].
  2: { apply rest_unless; [by apply rest_move|]. intros _. by apply rest_exit; [|apply rest_move]. }
  apply (counted_head w) in Hr; [|done]. apply rest_unless; [apply Hr|]. intros _.
  set (s2 := count_turn (move w s1)) in *. destruct (isAssistantMessage m) eqn:Hm; [|by apply rest_exit; [|apply Hr]].
  cbn [negb]. change (callIds (push m s2)) with (callIds s2).
  destruct (fresh_calls (callIds s2) (requestedCalls m)) eqn:Hf; cbn [negb]; [|by apply last_message; [apply Hr|..]].
  case_bool_decide as Hc.
  - rewrite Hc. change (fmap callId []) with (@nil jsstr). unfold remember. rewrite app_nil_r.
    apply (last_message m Quiescent s2); [apply Hr|done..].
  - pose proof (open_round m s2 Hr Hm Hf) as Ho.
    destruct (is_truncated m) eqn:Htr; [by eapply refuse_calls_ok|by eapply run_calls_ok].
Qed.

(** Only a message of the provider counts as a turn. *)
Lemma run_call_turns c s s' : run_call env redact tools callLimit c s = Ok s' → modelTurns s' = modelTurns s.
Proof.
  unfold run_call, unless_cancelled, stop. destruct (raceWithSignal _ _) as [w got].
  repeat case_match; try done; by intros [= <-].
Qed.
Lemma run_calls_turns calls : ∀ s s', run_calls env redact tools callLimit calls s = Ok s' → modelTurns s' = modelTurns s.
Proof.
  induction calls as [|c calls IH]; intros s s'; [by intros [= <-]|]. cbn [run_calls].
  intros (s1 & H1%run_call_turns & H2)%bind_Ok. by rewrite <-H1, (IH _ _ H2).
Qed.
Lemma refuse_calls_turns calls t : ∀ s, modelTurns (foldl (λ s c, push (toolError (callId c) t) s) s calls) = modelTurns (W := W) s.
Proof. induction calls as [|c calls IH]; intros s; [done|]. cbn [foldl]. by rewrite IH. Qed.

Lemma iteration_turns s s' :
  iteration env redact tools turnLimit callLimit s = Ok s' → modelTurns s' = modelTurns s + 1 ∧ modelTurns s < turnLimit.
Proof.
  unfold iteration, unless_cancelled, stop. destruct (raceWithSignal _ _) as [w got].
  repeat (case_match; try done).
  - intros [= <-]. rewrite refuse_calls_turns. cbn. split; [done|by apply Z.leb_gt].
  - intros E%run_calls_turns. cbn in E. split; [done|by apply Z.leb_gt].
Qed.

Lemma iterations_ok fuel : ∀ s,
  at_head s → (Z.to_nat (turnLimit - modelTurns s) < fuel)%nat →
  ∃ k s', iterations env redact tools turnLimit callLimit fuel s = Some (k, s') ∧ at_exit k s'.
Proof.
  induction fuel as [|fuel IH]; intros s Hh Hf; [lia|]. cbn [iterations]. pose proof (iteration_ok s Hh) as Hi.
  destruct (iteration _ _ _ _ _ s) as [s'|[k s']] eqn:E; [|by exists k, s'].
  destruct (iteration_turns _ _ E). apply IH; [done|lia].
Qed.
End Trace.

(** ** The run *)

Section Runs.
Context {W : Type} (env : Environment W) (redact : jsstr → jsstr) (compile : list jsval → option (list (jsval → bool))).

Definition transcript_start (i : LoopInput) : list jsval := default [] (elements_of (in_messages i)).

Lemma limit_of_positive f : is_positive f = true → 0 < limit_of f.
Proof.
  unfold is_positive, limit_of, positiveInteger. destruct (number_integer f) as [n|]; [|done]. cbn [mbind option_bind].
  destruct (0 <? n) eqn:E; [|done]. intros _. cbn. by apply Z.ltb_lt.
Qed.

Lemma loop_run_ok i w :
  ∃ k s, runInternalAgentLoop env redact compile i w = Some (k, s) ∧
    match assertInput i, compile (inputSchema <$> in_tools i) with
    | true, Some checks =>
      at_exit env (zip (tool_name <$> in_tools i) checks) (limit_of (maxModelTurns (limits i))) (limit_of (maxToolCalls (limits i)))
        (transcript_start i) k s
    | _, _ => k = Failed (js "internal_agent_input_invalid") ∧ s = initial i w
    end.
Proof.
  unfold runInternalAgentLoop. destruct (assertInput i) eqn:Ha; [|by do 2 eexists].
  destruct (compile _) as [checks|]; [|by do 2 eexists].
  assert (is_positive (maxModelTurns (limits i)) = true ∧ is_positive (maxToolCalls (limits i)) = true) as [H1 H2].
  { unfold assertInput in Ha. bool_to_prop. done. }
  apply limit_of_positive in H1, H2.
  apply iterations_ok; [|cbn; lia]. split; [|done]. split_and!; [constructor; cbn; try done; lia|constructor..|].
  exists []. rewrite app_nil_r. split; [done|constructor].
Qed.

Lemma zip_fmap_elem {A B C} (f : A → B) (l : list A) (k : list C) b c :
  (b, c) ∈ zip (f <$> l) k → ∃ a, (a, c) ∈ zip l k ∧ b = f a.
Proof.
  revert k. induction l as [|a l IH]; intros [|c' k]; cbn; rewrite ?elem_of_nil; [done..|].
  rewrite elem_of_cons. intros [[= -> ->]|(a' & ? & ->)%IH]; [exists a|exists a']; set_solver.
Qed.

(** C23. Every run of the loop returns: it asks the provider at most [maxModelTurns] times, executes
    at most [maxToolCalls] Tools, and the occurrences it hands to the Tools are 1, 2, 3 and so on. *)
Theorem agent_loop_is_bounded i w :
  ∃ k s, runInternalAgentLoop env redact compile i w = Some (k, s) ∧
    Z.of_nat (length (provider_calls (trace s))) <= limit_of (maxModelTurns (limits i)) ∧
    Z.of_nat (length (executions (trace s))) <= limit_of (maxToolCalls (limits i)) ∧
    (executions (trace s)).*2 = Z.of_nat <$> seq 1 (length (executions (trace s))).
Proof.
  destruct (loop_run_ok i w) as (k & s & E & H). exists k, s. split; [done|].
  assert (∀ f, 0 <= limit_of f) as H0.
  { intros f. destruct (is_positive f) eqn:P; [by apply Z.lt_le_incl, limit_of_positive|].
    unfold is_positive, limit_of in *. by destruct (positiveInteger f). }
  destruct (assertInput i); [destruct (compile _)|]; [|by destruct H as [_ ->]..].
  destruct H as ([] & _). split_and!; [done|lia|done].
Qed.

(** C5. A Tool is executed only for a call that an untruncated assistant message of the transcript
    requests, under the name of a Tool of the run, with arguments that the schema of that Tool admits,
    while the run is not cancelled; and no two executions have the same call identity. *)
Theorem only_validated_calls_execute i w k s checks :
  runInternalAgentLoop env redact compile i w = Some (k, s) → compile (inputSchema <$> in_tools i) = Some checks →
  NoDup (callId <$> (executions (trace s)).*1) ∧
  ∀ w' c n, ToolExecution w' c n ∈ trace s →
    signalled env w' = None ∧
    (∃ t check, (t, check) ∈ zip (in_tools i) checks ∧ call_name c = tool_name t ∧ check (call_arguments c) = true) ∧
    ∃ m, m ∈ messages s ∧ isAssistantMessage m = true ∧ is_truncated m = false ∧ c ∈ requestedCalls m.
Proof.
  destruct (loop_run_ok i w) as (k' & s' & E & H). rewrite E. intros [= -> ->] Hc. rewrite Hc in H.
  destruct (assertInput i); [|destruct H as [_ ->]; split; [constructor|set_solver]].
  destruct H as ([_ _ _ _ _ Hr] & Hn & _). split; [done|]. intros w' c n Hx. rewrite Forall_forall in Hr.
  destruct (Hr _ Hx) as (? & (check & Hl & Hv) & Hm). split_and!; [done| |done].
  apply lookup_member_Some, zip_fmap_elem in Hl as (t & ? & ?). by exists t, check.
Qed.

(** C24. The provider is asked only while the run is not cancelled and only shown transcripts in which
    every requested call has its one answer, in the order of the requests; a quiescent run ends with an
    assistant message without calls after such a transcript, and no call identity repeats. *)
Theorem provider_sees_answered_calls i w k s :
  runInternalAgentLoop env redact compile i w = Some (k, s) →
  (∀ w' shown, ProviderCall w' shown ∈ trace s →
     signalled env w' = None ∧ ∃ rounds ids, shown = transcript_start i ++ rounds ∧ answered rounds ids) ∧
  (k = Quiescent → ∃ rounds ids m, messages s = transcript_start i ++ rounds ++ [m] ∧ answered rounds ids ∧ NoDup ids ∧
     isAssistantMessage m = true ∧ requestedCalls m = []).
Proof.
  destruct (loop_run_ok i w) as (k' & s' & E & H). rewrite E. intros [= -> ->].
  destruct (assertInput i); [destruct (compile _)|]; [|by destruct H as [-> ->]; split; [set_solver|]..].
  destruct H as ([_ _ _ _ _ Hr] & _ & rounds & ids & rest & Em & Ha & Hn & _ & Hq). split.
  - intros w' shown Hx. rewrite Forall_forall in Hr. exact (Hr _ Hx).
  - intros K. destruct (Hq K) as (m & -> & Hm & Hc). by exists rounds, ids, m.
Qed.
End Runs.

(** ** A run with one Tool *)

Module LoopDemo.
Definition answer : jsval :=
  JObj [(js "role", JStr (js "assistant")); (js "truncated", JBool false); (js "content", JArr [text_part (js "done")])].
Definition request : jsval :=
  JObj [(js "role", JStr (js "assistant")); (js "truncated", JBool false);
        (js "content", JArr [JObj [(js "type", JStr (js "toolCall")); (js "callId", JStr (js "c1")); (js "name", JStr (js "search"));
                                   (js "arguments", JObj [])]])].
Definition found : jsval := JObj [(js "content", JArr [text_part (js "secret")])].

(** The world counts what has been asked. *)
Definition immediately (r : jsval) (w : nat) : Pending nat := {| invoked := w; settled := S w; decided := Some (Ok r) |}.
Definition env : Environment nat := {|
  callProvider := λ _ w, immediately (if (w =? 0)%nat then request else answer) w;
  execute := λ _ _ _ _ w, immediately found w;
  signalled := λ _, None;
|}.
Definition redact (s : jsstr) : jsstr := if bool_decide (s = js "secret") then js "[redacted]" else s.
Definition compile (schemas : list jsval) : option (list (jsval → bool)) := Some ((λ _, isRecord) <$> schemas).
Definition input : LoopInput := {|
  systemPrompt := js "Answer."; in_messages := JArr []; logicalModelId := js "m";
  in_tools := [{| tool_name := js "search"; tool_description := js "Searches."; inputSchema := JObj [] |}];
  limits := {| maxModelTurns := number_of_int 4; maxToolCalls := number_of_int 2; deadlineMs := number_of_int 1000 |};
|}.

Definition final : State nat :=
  match runInternalAgentLoop env redact compile input 0%nat with Some (_, s) => s | None => initial input 0%nat end.

Lemma input_completes : runInternalAgentLoop env redact compile input 0%nat = Some (Quiescent, final).
Proof. by vm_compute. Qed.

(** The result of the Tool reaches the transcript redacted. *)
Example final_transcript :
  messages final = [request; tool_message (js "c1") [text_part (js "[redacted]")] false; answer].
Proof. by vm_compute. Qed.

Lemma only_validated_calls_execute_witness :
  length (executions (trace final)) = 1%nat ∧ NoDup (callId <$> (executions (trace final)).*1).
Proof.
  split; [by vm_compute|].
  apply (only_validated_calls_execute env redact compile input 0%nat Quiescent final [isRecord] input_completes eq_refl).
Defined.

Lemma provider_sees_answered_calls_witness :
  ∃ rounds ids m, messages final = transcript_start input ++ rounds ++ [m] ∧ answered rounds ids ∧ NoDup ids ∧
     isAssistantMessage m = true ∧ requestedCalls m = [].
Proof. exact (proj2 (provider_sees_answered_calls env redact compile input 0%nat Quiescent final input_completes) eq_refl). Defined.
End LoopDemo.
