(* ===== verification/RequestAdmission.v ===== *)
(** * Model requests: wire projection and admission

    [apps/nanocore/src/internal-agents/gateway-provider.ts] projects the messages and Tools of an
    internal Agent onto the Responses wire format ([projectInternalAgentRequest]) and reads the
    answer of the provider back ([fromResponses]); the names of the Tools travel under aliases, which
    [packages/app-api-schemas/src/operation-definitions.ts] derives.  Before a request is sent,
    [apps/nanocore/src/context/model-request-admission.ts] estimates its size in tokens and refuses
    what exceeds the capacity of the model. *)

From Stdlib Require Import SpecFloat.
From stdpp Require Import gmap.
From S2P Require Import Prelude JsValue CanonicalJson CommandInput JsonText AgentLoop.

Local Open Scope string_scope.
Local Open Scope list_scope.
Local Open Scope Z_scope.

(** Thrown values: an [InternalAgentProviderError] with its code, or a plain [Error]. *)
Inductive RequestError := AgentError (code : string) | PlainFailure (message : string).

Definition obj (ms : list (string * jsval)) : jsval := JObj ((λ kv, (js kv.1, kv.2)) <$> ms).

(** ** Admission of a request *)

(** [{ ...record, [key]: value }] *)
Definition with_member (k : string) (v : jsval) (r : jsval) : jsval :=
  match r with JObj ms => JObj (put_member (js k) v ms) | _ => r end.

Definition is_base64_char (c : Z) : bool := is_digit c || is_upper c || is_lower c || (c =? cu "+") || (c =? cu "/").

(** [s.slice(p.length)] when [s] starts with [p]. *)
Definition after_prefix (p : string) (s : jsstr) : option jsstr :=
  if starts_with (js p) s then Some (drop (length (js p)) s) else None.

(** [/^data:image\/(?:png|jpeg);base64,([A-Za-z0-9+/]+={0,2})$/], with the length of the group. *)
Definition inline_image (url : jsstr) : option Z :=
  body ← match after_prefix "data:image/png;base64," url with
         | Some b => Some b
         | None => after_prefix "data:image/jpeg;base64," url
         end;
  let '(chars, padding) := span is_base64_char body in
  if negb (bool_decide (chars = [])) && includes [js ""; js "="; js "=="] padding then Some (Z.of_nat (length body)) else None.

(** The part, and whether it is counted as an image. *)
Definition count_part (part : jsval) : jsval * bool :=
  match part with
  | JObj ms =>
    if negb (string_is "input_image" (js_get "type" part))
       || existsb (λ kv, negb (includes (js <$> ["type"; "image_url"; "detail"]) kv.1)) ms
       || match js_get "detail" part with
          | JUndef => false
          | JStr d => negb (includes (js <$> ["auto"; "low"; "high"]) d)
          | _ => true
          end
    then (part, false)
    else match js_get "image_url" part with
         | JStr url =>
           match inline_image url with
           | Some n => if n mod 4 =? 0 then (with_member "image_url" (JStr []) part, true) else (part, false)
           | None => (part, false)
           end
         | _ => (part, false)
         end
  | _ => (part, false)
  end.

Definition images_in (parts : list (jsval * bool)) : Z := Z.of_nat (length (filterb snd parts)).

Definition count_content (value : jsval) : jsval * Z :=
  match value with
  | JArr l => let parts := count_part <$> l in (JArr parts.*1, images_in parts)
  | _ => (value, 0)
  end.

Definition count_item (value : jsval) : jsval * Z :=
  if isRecord value && string_is "user" (js_get "role" value) &&
     (is_undefined (js_get "type" value) || string_is "message" (js_get "type" value))
  then let '(c, n) := count_content (js_get "content" value) in (with_member "content" c value, n)
  else if isRecord value && string_is "function_call_output" (js_get "type" value)
  then let '(c, n) := count_content (js_get "output" value) in (with_member "output" c value, n)
  else (value, 0).

Definition sum (l : list Z) : Z := foldr Z.add 0 l.

Definition imageCountingProjection (payload : jsval) : jsval * Z :=
  match js_get "input" payload with
  | JArr input => let items := count_item <$> input in (with_member "input" (JArr items.*1) payload, sum items.*2)
  | _ => (payload, 0)
  end.

(** [Number.isSafeInteger(value) && value > 0], with the integer. *)
Definition positive_safe (value : spec_float) : option Z :=
  n ← number_integer value; if (0 <? n) && (n <=? 9007199254740991) then Some n else None.

Definition estimate (payload : jsval) (continuity : jsstr) : option Z :=
  let '(projected, images) := imageCountingProjection payload in
  text ← json_stringify projected;
  Some ((utf8_length text + utf8_length continuity + 2) / 3 + 4096 + images * 8192).

(** The capacity that is left for the input: the context window less the output reserve. *)
Definition capacity (contextWindowTokens outputReserveTokens : option spec_float) : option Z :=
  window ← contextWindowTokens; w ← positive_safe window;
  match outputReserveTokens with
  | None => Some w
  | Some reserve => r ← positive_safe reserve; Some (w - r)
  end.

Definition admitModelRequest (payload : jsval) (continuity : option jsstr) (contextWindowTokens outputReserveTokens : option spec_float)
    : result RequestError unit :=
  match capacity contextWindowTokens outputReserveTokens with
  | None => Err (AgentError "internal_agent_context_unavailable")
  | Some c =>
    match estimate payload (default [] continuity) with
    | None => Err (PlainFailure "The request is not a data value.")
    | Some e => if c <? e then Err (AgentError "internal_agent_context_exceeded") else Ok tt
    end
  end.

(** ** Names of Tools *)

(** [id.replaceAll('.', '_')] and [name.replaceAll('-', '_')] *)
Definition replace_unit (from to : string) (s : jsstr) : jsstr :=
  match js from, js to with [f], [t] => (λ c, if c =? f then t else c) <$> s | _, _ => s end.
Definition operationToolName (id : jsstr) : jsstr := replace_unit "." "_" id.
Definition folded_name (id : jsstr) : jsstr := replace_unit "-" "_" (operationToolName id).

(** [s.split(c)] *)
Fixpoint split_unit (sep : Z) (s : jsstr) : list jsstr :=
  match s with
  | [] => [[]]
  | c :: s =>
    if c =? sep then [] :: split_unit sep s
    else match split_unit sep s with p :: ps => (c :: p) :: ps | [] => [[c]] end
  end.

Definition is_name_char (c : Z) : bool := is_lower c || is_digit c.

(** [[a-z][a-z0-9]*(?:-[a-z0-9]+)*] *)
Definition name_segment (s : jsstr) : bool :=
  match split_unit (cu "-") s with
  | (c :: w) :: ws =>
    is_lower c && forallb is_name_char w && forallb (λ w, negb (bool_decide (w = [])) && forallb is_name_char w) ws
  | _ => false
  end.

(** Two segments or more, separated by dots. *)
Definition is_operation_name (id : jsstr) : bool :=
  let segments := split_unit (cu ".") id in (2 <=? length segments)%nat && forallb name_segment segments.

Fixpoint assert_names (ids : list jsstr) (projected : gmap jsstr jsstr) : result RequestError unit :=
  match ids with
  | [] => Ok tt
  | id :: ids =>
    require is_operation_name id else PlainFailure "Invalid operation name";
    require (length (operationToolName id) <=? 40)%nat else PlainFailure "Operation Tool name exceeds 40 characters";
    require match projected !! folded_name id with Some previous => bool_decide (previous = id) | None => true end
      else PlainFailure "Operation Tool name collision";
    assert_names ids (<[folded_name id := id]> projected)
  end.
Definition assertOperationNames (ids : list jsstr) : result RequestError unit := assert_names ids ∅.

Definition UNAVAILABLE_TOOL_NAME : jsstr := js "openkit_unavailable_tool".

(** [/^[a-zA-Z0-9_-]{1,64}$/] *)
Definition responses_tool_name (s : jsstr) : bool :=
  (1 <=? length s)%nat && (length s <=? 64)%nat &&
  forallb (λ c, is_lower c || is_upper c || is_digit c || (c =? cu "_") || (c =? cu "-")) s.

(** ** The wire projection *)

Record Aliases := { canonicalToAlias : gmap jsstr jsstr; aliasToCanonical : gmap jsstr jsstr }.

Fixpoint alias_tools (names : list jsstr) (a : Aliases) : result RequestError Aliases :=
  match names with
  | [] => Ok a
  | name :: names =>
    let alias := operationToolName name in
    if negb (responses_tool_name alias) || negb (bool_decide (aliasToCanonical a !! alias = None))
       || bool_decide (name = UNAVAILABLE_TOOL_NAME) || bool_decide (alias = UNAVAILABLE_TOOL_NAME)
    then Err (PlainFailure "Internal Agent Tool aliases must be unique Responses function names.")
    else alias_tools names {| canonicalToAlias := <[name := alias]> (canonicalToAlias a);
                              aliasToCanonical := <[alias := name]> (aliasToCanonical a) |}
  end.

Definition content_of (message : jsval) : list jsval := default [] (elements_of (js_get "content" message)).
Definition is_image (part : jsval) : bool := string_is "image" (js_get "type" part).

Definition input_part (part : jsval) : jsval :=
  if is_image part
  then obj [("type", JStr (js "input_image"));
            ("image_url", JStr (js "data:" ++ text_of (js_get "mimeType" part) ++ js ";base64," ++ text_of (js_get "data" part)))]
  else obj [("type", JStr (js "input_text")); ("text", js_get "text" part)].

(** A text or a Tool call of the assistant. *)
Definition assistant_input (aliases : gmap jsstr jsstr) (part : jsval) : result RequestError jsval :=
  if string_is "text" (js_get "type" part)
  then Ok (obj [("role", JStr (js "assistant"));
                ("content", JArr [obj [("type", JStr (js "output_text")); ("text", js_get "text" part)]])])
  else
    let name := text_of (js_get "name" part) in
    let name := default name (aliases !! name) in
    require responses_tool_name name else PlainFailure "Gateway returned invalid Tool calls.";
    Ok (obj [("type", JStr (js "function_call")); ("call_id", js_get "callId" part); ("name", JStr name);
             ("arguments", match json_stringify (js_get "arguments" part) with Some t => JStr t | None => JUndef end)]).

Definition toResponsesInput (aliases : gmap jsstr jsstr) (message : jsval) : result RequestError (list jsval) :=
  if string_is "user" (js_get "role" message)
  then Ok [obj [("role", JStr (js "user")); ("content", JArr (input_part <$> content_of message))]]
  else if string_is "tool" (js_get "role" message)
  then Ok [obj [("type", JStr (js "function_call_output")); ("call_id", js_get "callId" message);
                ("output", if existsb is_image (content_of message) then JArr (input_part <$> content_of message)
                           else JStr (flat_map (λ part, if string_is "text" (js_get "type" part) then text_of (js_get "text" part) else [])
                                        (content_of message)))]]
  else mapM (assistant_input aliases) (content_of message).

Definition provider_tool (aliases : gmap jsstr jsstr) (t : AgentTool) : jsval :=
  obj [("type", JStr (js "function")); ("name", JStr (default [] (aliases !! tool_name t)));
       ("description", JStr (tool_description t)); ("parameters", inputSchema t); ("strict", JBool false)].

Record Projection := { aliases : Aliases; providerInput : list jsval; providerTools : list jsval }.

Definition projectInternalAgentRequest (messages : list jsval) (tools : list AgentTool) : result RequestError Projection :=
  _ ← assertOperationNames (tool_name <$> tools);
  a ← alias_tools (tool_name <$> tools) {| canonicalToAlias := ∅; aliasToCanonical := ∅ |};
  input ← mapM (toResponsesInput (canonicalToAlias a)) messages;
  Ok {| aliases := a; providerInput := concat input; providerTools := provider_tool (canonicalToAlias a) <$> tools |}.

Definition request_payload (systemPrompt : jsstr) (input tools : list jsval) : jsval :=
  obj [("instructions", JStr systemPrompt); ("input", JArr input); ("tools", JArr tools)].

Definition assertInternalAgentContextFits (systemPrompt : jsstr) (messages : list jsval) (tools : list AgentTool)
    (contextLimit outputReserve : option spec_float) : result RequestError unit :=
  p ← projectInternalAgentRequest messages tools;
  admitModelRequest (request_payload systemPrompt (providerInput p) (providerTools p)) None contextLimit outputReserve.

(** ** The answer of the provider *)

Definition response_invalid {A} : result RequestError A := Err (AgentError "provider_response_invalid").

Definition output_text (part : jsval) : result RequestError jsval :=
  match string_is "output_text" (js_get "type" part), js_get "text" part with
  | true, JStr t => Ok (text_part t)
  | _, _ => response_invalid
  end.

Definition tool_call_part (id name : jsstr) (arguments : jsval) : jsval :=
  obj [("type", JStr (js "toolCall")); ("callId", JStr id); ("name", JStr name); ("arguments", arguments)].

(** The canonical name of a spelling of the provider. *)
Definition restored_name (a : Aliases) (name : jsstr) : jsstr :=
  match aliasToCanonical a !! name with
  | Some canonical => canonical
  | None => if responses_tool_name name && bool_decide (canonicalToAlias a !! name = None) then name else UNAVAILABLE_TOOL_NAME
  end.

Definition is_object (v : jsval) : bool := match v with JObj _ | JArr _ | JExotic => true | _ => false end.

(** The content of one output, and whether the output was cut off. *)
Definition read_output (a : Aliases) (output : jsval) : result RequestError (list jsval * bool) :=
  require is_object output else AgentError "provider_response_invalid";
  if string_is "message" (js_get "type" output) then
    match js_get "content" output with
    | JArr parts => content ← mapM output_text parts; Ok (content, string_is "incomplete" (js_get "status" output))
    | _ => response_invalid
    end
  else if string_is "function_call" (js_get "type" output) then
    match js_get "call_id" output, js_get "name" output, js_get "arguments" output with
    | JStr id, JStr name, JStr text =>
      require negb (bool_decide (id = [])) && negb (bool_decide (name = [])) else AgentError "provider_response_invalid";
      match json_parse text with
      | Some arguments => Ok ([tool_call_part id (restored_name a name) arguments], false)
      | None => response_invalid
      end
    | _, _, _ => response_invalid
    end
  else if string_is "compaction" (js_get "type" output) then response_invalid
  else Ok ([], false).

Definition fromResponses (a : Aliases) (response : jsval) : result RequestError jsval :=
  match js_get "output" response with
  | JArr outputs =>
    parts ← mapM (read_output a) outputs;
    let content := concat parts.*1 in
    require negb (bool_decide (length content = 0%nat)) else AgentError "provider_response_invalid";
    Ok (obj [("role", JStr (js "assistant")); ("content", JArr content);
             ("truncated", JBool (string_is "incomplete" (js_get "status" response) || existsb snd parts))])
  | _ => response_invalid
  end.

(** ** The aliases of the Tools *)

Definition aliased (names : list jsstr) (a : Aliases) : Prop :=
  (∀ n, canonicalToAlias a !! n = (if decide (n ∈ names) then Some (operationToolName n) else None)) ∧
  (∀ s n, aliasToCanonical a !! s = Some n ↔ n ∈ names ∧ s = operationToolName n) ∧
  UNAVAILABLE_TOOL_NAME ∉ names ∧ NoDup names ∧ Forall (λ n, responses_tool_name (operationToolName n) = true) names.

Lemma alias_tools_ok names : ∀ before a a',
  aliased before a → alias_tools names a = Ok a' → aliased (before ++ names) a'.
Proof.
  induction names as [|n names IH]; intros before a a' Ha; cbn [alias_tools]; [intros [= <-]; by rewrite app_nil_r|].
  destruct (_ || _ || _ || _) eqn:G; [done|].
  apply orb_false_iff in G as [[[G1 G2]%orb_false_iff G3]%orb_false_iff _]. bool_to_prop.
  intros H. apply (IH (before ++ [n])) in H; [by rewrite <-app_assoc in H|]. destruct Ha as (Hc & Hs & Hu & Hn & Hr).
  assert (n ∉ before) as Hfresh.
  { intros Hin. assert (aliasToCanonical a !! operationToolName n = Some n) by (by apply Hs). congruence. }
  split_and!; cbn.
  - intros m. destruct (decide (m = n)) as [->|Hne].
    + rewrite lookup_insert_eq, decide_True; [done|set_solver].
    + rewrite lookup_insert_ne, Hc by done. repeat case_decide; set_solver.
  - intros s m. destruct (decide (s = operationToolName n)) as [->|Hne].
    + rewrite lookup_insert_eq. split.
      * intros [= <-]. split; [set_solver|done].
      * intros [[Hm|Hm]%elem_of_app E]; [|by rewrite list_elem_of_singleton in Hm; subst].
        assert (aliasToCanonical a !! operationToolName n = Some m) by (by apply Hs). congruence.
    + rewrite lookup_insert_ne, Hs, elem_of_app, list_elem_of_singleton by done. naive_solver.
  - set_solver.
  - apply NoDup_app. split_and!; [done|set_solver|apply NoDup_singleton].
  - apply Forall_app. split; [done|]. by repeat constructor.
Qed.

Lemma project_aliased messages tools p :
  projectInternalAgentRequest messages tools = Ok p → aliased (tool_name <$> tools) (aliases p).
Proof.
  unfold projectInternalAgentRequest. intros (_ & _ & (a & Ha & (input & _ & [= <-])%bind_Ok)%bind_Ok)%bind_Ok. cbn.
  apply (alias_tools_ok _ [] _ _) in Ha; [done|].
  split_and!; cbn; [done| |set_solver|constructor..]. intros s n. rewrite lookup_empty. set_solver.
Qed.

(** A spelling is that of a Tool of the request exactly when it is the alias of the Tool. *)
Lemma restored_name_iff names a s n :
  aliased names a → n ∈ names → restored_name a s = n ↔ s = operationToolName n.
Proof.
  intros (Hc & Hs & Hu & _) Hn. unfold restored_name. split.
  - destruct (aliasToCanonical a !! s) as [c|] eqn:E; [by intros ->; apply Hs in E as [_ ?]|].
    destruct (_ && _) eqn:G; intros <-; [|done]. bool_to_prop. rewrite Hc, decide_True in * by done. done.
  - intros ->. by rewrite (proj2 (Hs (operationToolName n) n)).
Qed.

(** ** Reading the answer *)

Definition is_function_call (output : jsval) : bool := string_is "function_call" (js_get "type" output).

(** The call that a function call of the provider stands for. *)
Definition stands_for (a : Aliases) (output : jsval) (c : AgentToolCall) : Prop :=
  ∃ name text, js_get "call_id" output = JStr (callId c) ∧ js_get "name" output = JStr name ∧
    js_get "arguments" output = JStr text ∧ json_parse text = Some (call_arguments c) ∧ call_name c = restored_name a name ∧
    callId c ≠ [].

Lemma omap_tool_call_texts parts content :
  mapM output_text parts = Ok content → omap tool_call content = [] ∧ forallb assistant_part content = true.
Proof.
  intros H%mapM_result_Ok. induction H as [|p q parts content Hp _ [IH1 IH2]]; [done|].
  unfold output_text in Hp. destruct (string_is _ _), (js_get "text" p); try done. injection Hp as <-.
  cbn [omap list_omap]. split; [by rewrite IH1|]. cbn [forallb]. by rewrite IH2.
Qed.

Lemma string_is_excl s t v : string_is s v = true → js s ≠ js t → string_is t v = false.
Proof. destruct v as [| | | | |x| |]; try done. cbn. intros ->%bool_decide_eq_true_1. by apply bool_decide_eq_false_2. Qed.

Lemma read_output_ok a output content cut :
  read_output a output = Ok (content, cut) →
  forallb assistant_part content = true ∧
  if is_function_call output then ∃ c, omap tool_call content = [c] ∧ stands_for a output c else omap tool_call content = [].
Proof.
  unfold read_output, is_function_call. destruct (is_object output); [|done].
  destruct (string_is "message" _) eqn:Em.
  { destruct (js_get "content" output); try done. intros (ps & Hps%omap_tool_call_texts & [= <- _])%bind_Ok.
    rewrite (string_is_excl _ "function_call" _ Em) by done. by destruct Hps. }
  destruct (string_is "function_call" _) eqn:Ef; [|destruct (string_is "compaction" _); [done|]; by intros [= <- _]].
  destruct (js_get "call_id" output) as [| | | | |id| |] eqn:E1; try done.
  destruct (js_get "name" output) as [| | | | |name| |] eqn:E2; try done.
  destruct (js_get "arguments" output) as [| | | | |text| |] eqn:E3; try done.
  destruct (_ && _) eqn:G; [|done]. destruct (json_parse text) as [args|] eqn:E4; [|done].
  intros [= <- _]. bool_to_prop. split; [done|]. eexists. split; [done|]. by exists name, text.
Qed.

(** The calls of an answer are the function calls of the provider, in order, with their identities
    and their parsed arguments; and the name of a call is that of a Tool of the request exactly when
    the provider spelled the alias of that Tool.  The answer is a well-formed assistant message. *)
Theorem tool_identity_is_exact messages tools p response m :
  projectInternalAgentRequest messages tools = Ok p → fromResponses (aliases p) response = Ok m →
  isAssistantMessage m = true ∧
  ∃ outputs, js_get "output" response = JArr outputs ∧
    Forall2 (λ o c,
        js_get "call_id" o = JStr (callId c) ∧
        (∃ text, js_get "arguments" o = JStr text ∧ json_parse text = Some (call_arguments c)) ∧
        ∀ t, t ∈ tools → call_name c = tool_name t ↔ js_get "name" o = JStr (operationToolName (tool_name t)))
      (filterb is_function_call outputs) (requestedCalls m).
Proof.
  intros Ha%project_aliased H. unfold fromResponses in H. destruct (js_get "output" response) as [| | | | | |outputs|] eqn:Eo; try done.
  apply bind_Ok in H as (parts & Hp & H). destruct (negb _) eqn:Hc in H; [|done]. apply Ok_inj in H as <-.
  assert (forallb assistant_part (concat parts.*1) = true ∧
    Forall2 (stands_for (aliases p)) (filterb is_function_call outputs) (omap tool_call (concat parts.*1))) as [H1 H2].
  { clear Hc Eo. apply mapM_result_Ok in Hp. induction Hp as [|o [content cut] outputs parts Ho _ [IH1 IH2]]; [split; constructor|].
    apply read_output_ok in Ho as [H1 H2]. rewrite fmap_cons. cbn [concat fst filterb]. rewrite forallb_app, H1, IH1.
    split; [done|]. rewrite omap_app. destruct (is_function_call o).
    - destruct H2 as (c & -> & ?). by constructor.
    - by rewrite H2. }
  split; [exact H1|]. exists outputs. split; [done|]. eapply Forall2_impl; [exact H2|].
  intros o c (name & text & E1 & E2 & E3 & E4 & E5 & E6). split_and!; [done|by exists text|].
  intros t Ht. rewrite E2, E5, (restored_name_iff _ _ _ _ Ha) by (by apply list_elem_of_fmap_2). split; congruence.
Qed.

(** A call of a Tool of the request, sent to the provider and read back from it, is the same call:
    its name is restored from the alias and its arguments are those that JSON keeps. *)
Theorem call_survives_the_wire messages tools p t id args text :
  projectInternalAgentRequest messages tools = Ok p → t ∈ tools → id ≠ [] → wf_value args → json_stringify args = Some text →
  ∃ wire, assistant_input (canonicalToAlias (aliases p)) (tool_call_part id (tool_name t) args) = Ok wire ∧
    fromResponses (aliases p) (obj [("output", JArr [wire])]) =
    Ok (obj [("role", JStr (js "assistant")); ("content", JArr [tool_call_part id (tool_name t) (as_read args)]);
             ("truncated", JBool false)]).
Proof.
  intros Ha%project_aliased Ht Hid Hwf Htext. apply (list_elem_of_fmap_2 tool_name) in Ht.
  pose proof (proj2 (restored_name_iff _ _ _ _ Ha Ht) eq_refl) as Hname. destruct Ha as (Hc & _ & _ & _ & Hr).
  rewrite Forall_forall in Hr. pose proof (Hr _ Ht) as Hresp.
  unfold assistant_input. change (js_get "type" (tool_call_part id (tool_name t) args)) with (JStr (js "toolCall")).
  change (js_get "name" (tool_call_part id (tool_name t) args)) with (JStr (tool_name t)).
  change (js_get "callId" (tool_call_part id (tool_name t) args)) with (JStr id).
  change (js_get "arguments" (tool_call_part id (tool_name t) args)) with args.
  change (string_is "text" (JStr (js "toolCall"))) with false. cbn [text_of]. cbv zeta. rewrite Hc, decide_True by done.
  change (default (tool_name t) (Some (operationToolName (tool_name t)))) with (operationToolName (tool_name t)).
  rewrite Hresp, Htext. eexists. split; [done|].
  set (alias := operationToolName (tool_name t)) in *.
  set (wire := obj [("type", _); _; _; _]).
  assert (read_output (aliases p) wire = Ok ([tool_call_part id (tool_name t) (as_read args)], false)) as E.
  { unfold read_output. change (is_object wire) with true. change (js_get "type" wire) with (JStr (js "function_call")).
    change (js_get "call_id" wire) with (JStr id). change (js_get "name" wire) with (JStr alias).
    change (js_get "arguments" wire) with (JStr text).
    change (string_is "message" (JStr (js "function_call"))) with false.
    change (string_is "function_call" (JStr (js "function_call"))) with true. cbv iota.
    assert (alias ≠ []) by (intros E; by rewrite E in Hresp).
    rewrite !bool_decide_eq_false_2 by done. cbn [negb andb]. by rewrite (stringify_parse _ _ Hwf Htext), Hname. }
  unfold fromResponses. change (js_get "output" (obj [("output", JArr [wire])])) with (JArr [wire]).
  change (js_get "status" (obj [("output", JArr [wire])])) with JUndef. cbn [mapM]. rewrite E. reflexivity.
Qed.

(** ** The size of a request *)

Lemma stringify_starts v t : json_stringify v = Some t → starts_low t = false ∧ t ≠ [].
Proof.
  destruct v as [| | |b|f|s|l|ms]; cbn [json_stringify]; try done.
  - by intros [= <-].
  - intros [= <-]. by destruct b.
  - unfold stringify_number. destruct (is_finite_number f); [|by intros [= <-]]. intros Ht%number_text_value.
    destruct (number_value_chars _ _ Ht) as (_ & c & r & -> & Hc). split; [|done]. cbn. unfold is_low_surrogate, in_range.
    apply orb_true_iff in Hc as [->%Z.eqb_eq|Hc]; [done|]. unfold is_digit, in_range in Hc. bool_to_prop.
    apply andb_false_iff. left. apply Z.leb_gt. lia.
  - by intros [= <-].
  - intros (ts & _ & [= <-])%bind_Some. done.
  - intros (ts & _ & [= <-])%bind_Some. done.
Qed.

(** The texts of the elements of an array. *)
Definition element_text (v : jsval) : option jsstr := if is_undefined v then Some (js "null") else json_stringify v.
Definition texts_size (ts : list jsstr) : Z := sum ((λ t, utf8_length t + 1) <$> ts).
Definition joined_size (ts : list jsstr) : Z := if bool_decide (ts = []) then 0 else texts_size ts - 1.

Lemma element_text_starts l ts : mapM element_text l = Some ts → Forall (λ t, starts_low t = false) ts.
Proof.
  intros H%mapM_Some. induction H as [|v t l ts Hv _ IH]; constructor; [|done].
  unfold element_text in Hv. destruct (is_undefined v); [by injection Hv as <-|]. by apply stringify_starts in Hv as [? _].
Qed.

Lemma utf8_length_join ts rest :
  Forall (λ t, starts_low t = false) ts → starts_low rest = false →
  utf8_length (join (js ",") ts ++ rest) = joined_size ts + utf8_length rest.
Proof.
  intros Hts Hr. unfold joined_size, texts_size. destruct Hts as [|t ts Ht Hts]; [done|].
  rewrite bool_decide_eq_false_2 by done. cbn [join].
  assert (∀ us, starts_low (flat_map (λ q, js "," ++ q) us ++ rest) = false) as Hs by (intros [|]; [exact Hr|done]).
  rewrite <-app_assoc, utf8_length_app, fmap_cons by done. cbn [sum foldr].
  enough (utf8_length (flat_map (λ q, js "," ++ q) ts ++ rest) = sum ((λ t, utf8_length t + 1) <$> ts) + utf8_length rest) as -> by (unfold sum; lia).
  induction Hts as [|u us Hu Hus IH]; [done|]. cbn [flat_map]. rewrite <-!app_assoc, fmap_cons. cbn [sum foldr].
  rewrite utf8_length_app by (destruct u; [apply Hs|exact Hu]). rewrite utf8_length_app, IH by done. change (utf8_length (js ",")) with 1. unfold sum. lia.
Qed.

Lemma texts_size_app ts us : texts_size (ts ++ us) = texts_size ts + texts_size us.
Proof. unfold texts_size, sum. induction ts as [|t ts IH]; [done|]. rewrite <-app_comm_cons, !fmap_cons. cbn [foldr]. lia. Qed.

Lemma texts_size_nonneg ts : 0 <= texts_size ts.
Proof.
  unfold texts_size, sum. induction ts as [|t ts IH]; [done|]. rewrite fmap_cons. cbn [foldr].
  pose proof (utf8_length_nonneg t). lia.
Qed.

(** What the items of the input contribute: the texts with their separators, and the images. *)
Definition item_texts (input : list jsval) : option (list jsstr) := mapM element_text (count_item <$> input).*1.
Definition item_images (input : list jsval) : Z := sum (count_item <$> input).*2.

(** The bytes of a request around its items. *)
Definition request_opening (systemPrompt : jsstr) : jsstr :=
  js "{" ++ stringify_string (js "instructions") ++ js ":" ++ stringify_string systemPrompt ++ js "," ++
  stringify_string (js "input") ++ js ":[".
Definition request_closing (tools : list jsstr) : jsstr :=
  js "]," ++ stringify_string (js "tools") ++ js ":[" ++ join (js ",") tools ++ js "]}".

Lemma estimate_request sp input tools :
  estimate (request_payload sp input tools) [] =
  (ts ← item_texts input; us ← mapM element_text tools;
   Some ((utf8_length (request_opening sp) + joined_size ts + utf8_length (request_closing us) + 2) / 3 + 4096 + item_images input * 8192)).
Proof.
  unfold estimate, imageCountingProjection. change (js_get "input" (request_payload sp input tools)) with (JArr input).
  change (with_member "input" ?v (request_payload sp input tools)) with (obj [("instructions", JStr sp); ("input", v); ("tools", JArr tools)]).
  cbv iota beta zeta. unfold obj. cbn [fmap list_fmap fst snd json_stringify is_undefined].
  fold element_text. unfold item_texts, item_images.
  change (mapM (λ v, if is_undefined v then Some (js "null") else json_stringify v)) with (mapM element_text).
  destruct (mapM element_text (count_item <$> input).*1) as [ts|] eqn:Et; [|done].
  destruct (mapM element_text tools) as [us|] eqn:Eu; [|done]. cbn [mbind option_bind].
  match goal with |- ?m ≫= _ = _ => assert (m = Some (request_opening sp ++ join (js ",") ts ++ request_closing us)) as -> end.
  { unfold request_opening, request_closing. cbn [filterb stable_defined negb fst snd mapM stable_text].
    cbv [stable_text mret option_ret mbind option_bind]. cbn [join flat_map fst snd]. rewrite <-!app_assoc. reflexivity. }
  cbn [mbind option_bind]. rewrite utf8_length_app.
  2: { apply element_text_starts in Et. destruct Et as [|t ts Ht]; [done|]. cbn [join]. rewrite <-app_assoc. destruct t; [by destruct ts|exact Ht]. }
  rewrite utf8_length_join by (done || by eapply element_text_starts). do 4 f_equal. cbn [utf8_length]. lia.
Qed.

(** ** The load of a transcript *)

(** The bytes and the images that messages contribute to a request. *)
Definition request_load (al : gmap jsstr jsstr) (ms : list jsval) : option (Z * Z) :=
  match mapM (toResponsesInput al) ms with
  | Ok ls => ts ← item_texts (concat ls); Some (texts_size ts, item_images (concat ls))
  | Err _ => None
  end.

Lemma sum_app l k : sum (l ++ k) = sum l + sum k.
Proof. unfold sum. induction l as [|z l IH]; [done|]. cbn [app foldr]. lia. Qed.

Lemma item_texts_app a b :
  item_texts (a ++ b) = (ts ← item_texts a; us ← item_texts b; Some (ts ++ us)).
Proof.
  unfold item_texts. rewrite !fmap_app. set (k := (count_item <$> b).*1).
  induction (count_item <$> a).*1 as [|v l IH]; [cbn [app mapM]; by destruct (mapM element_text k)|].
  cbn [app mapM]. rewrite IH. destruct (element_text v); [|done]. cbn [mbind option_bind].
  destruct (mapM element_text l); [|done]. cbn [mbind option_bind]. by destruct (mapM element_text k).
Qed.

Lemma item_images_app a b : item_images (a ++ b) = item_images a + item_images b.
Proof. unfold item_images. by rewrite !fmap_app, sum_app. Qed.

Lemma mapM_result_app {E A B} (f : A → result E B) l k :
  mapM f (l ++ k) = (ts ← mapM f l; us ← mapM f k; Ok (ts ++ us)).
Proof.
  induction l as [|x l IH]; [cbn [app mapM]; cbv [mret result_ret mbind result_bind]; by destruct (mapM f k)|]. cbn [app mapM]. rewrite IH. destruct (f x); [|done].
  cbn [mbind result_bind]. destruct (mapM f l); [|done]. cbn [mbind result_bind]. by destruct (mapM f k).
Qed.

Lemma request_load_app al a b :
  request_load al (a ++ b) = (x ← request_load al a; y ← request_load al b; Some (x.1 + y.1, x.2 + y.2)).
Proof.
  unfold request_load. rewrite mapM_result_app. destruct (mapM _ a) as [ls|]; [|done]. cbn [mbind result_bind].
  destruct (mapM _ b) as [ks|]; cbn [mbind result_bind]; [|by destruct (item_texts (concat ls))].
  rewrite concat_app, item_texts_app, item_images_app. destruct (item_texts (concat ls)); [|done]. cbn [mbind option_bind].
  destruct (item_texts (concat ks)); [|done]. cbn [mbind option_bind fst snd]. by rewrite texts_size_app.
Qed.

Lemma item_images_nonneg l : 0 <= item_images l.
Proof.
  unfold item_images, sum. induction l as [|v l IH]; [done|]. rewrite !fmap_cons. cbn [foldr].
  assert (0 <= (count_item v).2); [|lia]. unfold count_item.
  assert (∀ w, 0 <= (count_content w).2) as H by (intros []; cbn; unfold images_in; lia).
  pose proof (H (js_get "content" v)). pose proof (H (js_get "output" v)). repeat case_match; cbn in *; lia.
Qed.

Lemma request_load_nonneg al ms x : request_load al ms = Some x → 0 <= x.1 ∧ 0 <= x.2.
Proof.
  unfold request_load. destruct (mapM _ ms); [|done]. intros (ts & _ & [= <-])%bind_Some. cbn.
  split; [apply texts_size_nonneg|apply item_images_nonneg].
Qed.

(** A part of a transcript weighs no more than the transcript. *)
Lemma request_load_sublist al a b y :
  sublist a b → request_load al b = Some y → ∃ x, request_load al a = Some x ∧ x.1 <= y.1 ∧ x.2 <= y.2.
Proof.
  intros Hs. revert y. induction Hs as [|m a b Hs IH|m a b Hs IH]; intros y Hy; [by exists y|..];
    change (m :: b) with ([m] ++ b) in Hy; rewrite request_load_app in Hy;
    apply bind_Some in Hy as (u & Hu & (v & Hv & [= <-])%bind_Some);
    destruct (IH v Hv) as (x & Hx & ? & ?); destruct (request_load_nonneg _ _ _ Hu).
  - exists (u.1 + x.1, u.2 + x.2). change (m :: a) with ([m] ++ a). rewrite request_load_app, Hu. cbn [mbind option_bind].
    rewrite Hx. cbn. split; [done|lia].
  - exists x. cbn. split; [done|lia].
Qed.

(** What is fixed for the requests of a run: the aliases and the texts of the Tools. *)
Definition prepared (tools : list AgentTool) : result RequestError (gmap jsstr jsstr) :=
  _ ← assertOperationNames (tool_name <$> tools);
  a ← alias_tools (tool_name <$> tools) {| canonicalToAlias := ∅; aliasToCanonical := ∅ |};
  Ok (canonicalToAlias a).

Definition estimated_load (sp : jsstr) (us : list jsstr) (x : Z * Z) : Z :=
  (utf8_length (request_opening sp) + Z.max 0 (x.1 - 1) + utf8_length (request_closing us) + 2) / 3 + 4096 + x.2 * 8192.

Lemma estimated_load_mono sp us x y : x.1 <= y.1 → x.2 <= y.2 → estimated_load sp us x <= estimated_load sp us y.
Proof.
  intros H1 H2. unfold estimated_load. apply Z.add_le_mono; [|lia]. apply Z.add_le_mono_r, Z.div_le_mono; lia.
Qed.

Lemma joined_size_max ts : joined_size ts = Z.max 0 (texts_size ts - 1).
Proof.
  unfold joined_size. case_bool_decide as E; [by subst|]. destruct ts as [|t ts]; [done|].
  assert (texts_size (t :: ts) = utf8_length t + 1 + texts_size ts) as -> by done.
  pose proof (texts_size_nonneg ts). pose proof (utf8_length_nonneg t). lia.
Qed.

(** The load decides. *)
Lemma assert_eval sp ms tools ctx out al us c x :
  prepared tools = Ok al → mapM element_text (provider_tool al <$> tools) = Some us → capacity ctx out = Some c →
  request_load al ms = Some x →
  assertInternalAgentContextFits sp ms tools ctx out =
  if c <? estimated_load sp us x then Err (AgentError "internal_agent_context_exceeded") else Ok tt.
Proof.
  unfold prepared, assertInternalAgentContextFits, projectInternalAgentRequest, request_load.
  intros ([] & -> & (a & -> & [= <-])%bind_Ok)%bind_Ok Hus Hc. cbn [mbind result_bind].
  destruct (mapM _ ms) as [ls|]; [|done]. cbn [mbind result_bind providerInput providerTools]. intros (ts & Hts & [= <-])%bind_Some.
  unfold admitModelRequest. rewrite Hc. change (default [] None) with (@nil Z). rewrite estimate_request, Hts. cbn [mbind option_bind].
  rewrite Hus. cbn [mbind option_bind]. by rewrite joined_size_max.
Qed.

Lemma assert_names_error ids : ∀ m e, assert_names ids m = Err e → ∃ t, e = PlainFailure t.
Proof. induction ids as [|id ids IH]; intros m e; cbn [assert_names]; [done|]. repeat case_match; try (intros [= <-]; by eexists); apply IH. Qed.

Lemma alias_tools_error names : ∀ a e, alias_tools names a = Err e → ∃ t, e = PlainFailure t.
Proof. induction names as [|n names IH]; intros a e; cbn [alias_tools]; [done|]. case_match; [intros [= <-]; by eexists|apply IH]. Qed.

Lemma mapM_result_Err {E A B} (f : A → result E B) l e : mapM f l = Err e → ∃ x, x ∈ l ∧ f x = Err e.
Proof.
  induction l as [|x l IH]; cbn [mapM]; [done|]. intros [H|(y & _ & H)]%bind_Err; [exists x; set_solver|].
  apply bind_Err in H as [H|(ys & _ & H)]; [|done]. destruct (IH H) as (z & ? & ?). exists z. set_solver.
Qed.

Lemma input_error al m e : toResponsesInput al m = Err e → ∃ t, e = PlainFailure t.
Proof.
  unfold toResponsesInput. repeat case_match; try done. intros (p & _ & Hp)%mapM_result_Err. unfold assistant_input in Hp.
  repeat case_match; try done. injection Hp as <-. by eexists.
Qed.

(** A request is either decided by its load or refused for another reason. *)
Lemma assert_inv sp ms tools ctx out :
  assertInternalAgentContextFits sp ms tools ctx out = Ok tt ∨
  assertInternalAgentContextFits sp ms tools ctx out = Err (AgentError "internal_agent_context_exceeded") →
  ∃ al us c x, prepared tools = Ok al ∧ mapM element_text (provider_tool al <$> tools) = Some us ∧ capacity ctx out = Some c ∧
    request_load al ms = Some x.
Proof.
  unfold assertInternalAgentContextFits, projectInternalAgentRequest, prepared, request_load, assertOperationNames.
  destruct (assert_names _ _) as [[]|e] eqn:E1; cbn [mbind result_bind].
  2: { destruct (assert_names_error _ _ _ E1) as [t ->]. by intros []. }
  destruct (alias_tools _ _) as [a|e] eqn:E2; cbn [mbind result_bind].
  2: { destruct (alias_tools_error _ _ _ E2) as [t ->]. by intros []. }
  destruct (mapM _ ms) as [ls|e] eqn:E3; cbn [mbind result_bind providerInput providerTools].
  2: { apply mapM_result_Err in E3 as (m & _ & [t ->]%input_error). by intros []. }
  unfold admitModelRequest. destruct (capacity ctx out) as [c|]; [|by intros []].
  change (default [] None) with (@nil Z). rewrite estimate_request.
  destruct (item_texts (concat ls)) as [ts|] eqn:Ets; cbn [mbind option_bind]; [|by intros []].
  destruct (mapM element_text _) as [us|] eqn:Eu; [|by intros []]. intros _.
  exists (canonicalToAlias a), us, c, (texts_size ts, item_images (concat ls)). by rewrite Eu, E3, Ets.
Qed.

(** A request that is admitted stays admitted when messages are left out of it. *)
Theorem admission_is_monotone sp tools ctx out ms ms' :
  assertInternalAgentContextFits sp ms' tools ctx out = Ok tt → sublist ms ms' →
  assertInternalAgentContextFits sp ms tools ctx out = Ok tt.
Proof.
  intros H Hs. destruct (assert_inv sp ms' tools ctx out (or_introl H)) as (al & us & c & y & Hal & Hus & Hc & Hy).
  destruct (request_load_sublist _ _ _ _ Hs Hy) as (x & Hx & L1 & L2).
  rewrite (assert_eval _ _ _ _ _ _ _ _ _ Hal Hus Hc Hy) in H. rewrite (assert_eval _ _ _ _ _ _ _ _ _ Hal Hus Hc Hx).
  pose proof (estimated_load_mono sp us x y L1 L2). destruct (c <? estimated_load sp us y) eqn:E; [done|]. bool_to_prop.
  by rewrite (proj2 (Z.ltb_ge _ _)) by lia.
Qed.

(** ** A request *)

Module RequestDemo.
Definition tool : AgentTool := {| tool_name := js "thread.history.read"; tool_description := js "Reads."; inputSchema := JObj [] |}.
Definition question : jsval := obj [("role", JStr (js "user")); ("content", JArr [text_part (js "Hello")])].
Definition projection : Projection :=
  match projectInternalAgentRequest [question] [tool] with
  | Ok p => p
  | Err _ => {| aliases := {| canonicalToAlias := ∅; aliasToCanonical := ∅ |}; providerInput := []; providerTools := [] |}
  end.

Lemma projected : projectInternalAgentRequest [question] [tool] = Ok projection.
Proof. by vm_compute. Qed.

(** The alias of a Tool, and the canonical spelling, which no provider may use. *)
Definition response : jsval :=
  obj [("output", JArr [obj [("type", JStr (js "function_call")); ("call_id", JStr (js "a")); ("name", JStr (js "thread_history_read"));
                             ("arguments", JStr (js "{}"))];
                        obj [("type", JStr (js "function_call")); ("call_id", JStr (js "b")); ("name", JStr (js "thread.history.read"));
                             ("arguments", JStr (js "{}"))]])].
Definition message : jsval :=
  obj [("role", JStr (js "assistant"));
       ("content", JArr [tool_call_part (js "a") (js "thread.history.read") (JObj []);
                         tool_call_part (js "b") UNAVAILABLE_TOOL_NAME (JObj [])]);
       ("truncated", JBool false)].

Lemma response_read : fromResponses (aliases projection) response = Ok message.
Proof. by vm_compute. Qed.

Lemma tool_identity_is_exact_witness : length (requestedCalls message) = 2%nat ∧ isAssistantMessage message = true.
Proof.
  split; [by vm_compute|].
  exact (proj1 (tool_identity_is_exact [question] [tool] projection response message projected response_read)).
Defined.

Definition arguments : jsval := obj [("limit", JNum (number_of_int 5))].
Lemma arguments_wf : wf_value arguments.
Proof.
  constructor; [by apply NoDup_singleton|]. apply Forall_singleton. split; [|constructor].
  unfold wf_str. apply (bool_decide_unpack _). by vm_compute.
Qed.

Lemma call_survives_the_wire_witness :
  ∃ text wire, json_stringify arguments = Some text ∧
    assistant_input (canonicalToAlias (aliases projection)) (tool_call_part (js "a") (tool_name tool) arguments) = Ok wire.
Proof.
  exists (match json_stringify arguments with Some t => t | None => [] end).
  destruct (call_survives_the_wire [question] [tool] projection tool (js "a") arguments
    (match json_stringify arguments with Some t => t | None => [] end) projected) as (wire & H & _);
    [by left|done|exact arguments_wf|by vm_compute|]. exists wire. split; [by vm_compute|exact H].
Defined.

Lemma admission_is_monotone_witness :
  assertInternalAgentContextFits (js "Answer.") [question; question] [tool] (Some (number_of_int 10000)) None = Ok tt ∧
  assertInternalAgentContextFits (js "Answer.") [question] [tool] (Some (number_of_int 10000)) None = Ok tt.
Proof.
  split; [by vm_compute|].
  apply (admission_is_monotone (js "Answer.") [tool] (Some (number_of_int 10000)) None [question] [question; question]).
  - by vm_compute.
  - apply sublist_skip, sublist_nil_l.
Defined.
End RequestDemo.
