(* ===== verification/RollingContext.v ===== *)
(** * The rolling context of an internal Agent

    [apps/nanocore/src/internal-agents/rolling-context.ts]: the window of messages that an internal
    role sends to its model.  The history of the Thread is read from the store; when it does not
    fit, its longest prefix that fits into one request is replaced by a summary that the model
    writes and the store keeps, as often as needed.  A summary names the range it stands for and the
    digest of the sources, and the window is only handed out while the sources are unchanged.

    Items are the data values that the store keeps and whose texts are digested.  The store, the
    provider, the clock and the signals are an environment over a type [W] of world states: reads
    are functions of the current world; [await] is where the world moves on.  The digest of
    node:crypto and [redactInternalAgentText] are parameters.  Limits are taken as the integers that
    the loop admits ([AgentLoop.assertInput]). *)

From Stdlib Require Import SpecFloat.
From stdpp Require Import gmap.
From S2P Require Import Prelude JsValue CanonicalJson CommandInput EntityId JsonText AgentLoop RequestAdmission.

Local Open Scope string_scope.
Local Open Scope list_scope.
Local Open Scope Z_scope.

(** ** Items and Turns *)

Definition item_id (item : jsval) : jsstr := text_of (js_get "id" item).
Definition item_turn (item : jsval) : jsstr := text_of (js_get "turnId" item).
Definition is_message (item : jsval) : bool :=
  string_is "user-message" (js_get "type" item) || string_is "assistant-message" (js_get "type" item).

Record RunLimits := { rl_maxModelTurns : Z; rl_maxToolCalls : Z; rl_deadlineMs : Z }.

(** The metadata of a run that its Turn keeps; an absent member is [None]. *)
Record InternalExecution := {
  ie_profileId : option (option jsstr);
  ie_limits : option RunLimits;
  ie_roleId : jsstr;
  ie_logicalModelId : jsstr;
  ie_contextStrategy : jsstr;
  ie_threshold : Z;
}.

Record Turn := {
  tu_id : jsstr;
  tu_startedAt : option jsstr;
  tu_status : jsval;
  tu_error : jsval;
  tu_agentSessionId : option jsstr;
  tu_agentId : option jsstr;
  tu_items : list jsval;
  tu_internalExecution : option InternalExecution;
}.

Definition turn_cmp (l r : Turn) : Z :=
  let c := str_cmp (default [] (tu_startedAt l)) (default [] (tu_startedAt r)) in
  if c =? 0 then str_cmp (tu_id l) (tu_id r) else c.

(** An Item that counts as history. *)
Definition in_history (item : jsval) : bool :=
  negb (string_is "reasoning" (js_get "type" item)) && negb (string_is "context-summary" (js_get "type" item)) &&
  (negb (string_is "assistant-message" (js_get "type" item)) && negb (string_is "user-message" (js_get "type" item))
   || string_is "completed" (js_get "status" item)).

(** The canonical record of a summary. *)
Record SourceRange := { firstItemId : jsstr; lastItemId : jsstr; itemCount : nat; rangeSourceDigest : jsstr; evidenceDigest : jsstr }.
Record Summary := {
  su_id : jsstr;
  su_owner : jsval;
  su_threadId : jsstr;
  su_turnId : jsstr;
  su_strategy : jsstr;
  su_logicalModelId : jsstr;
  su_text : jsstr;
  su_environmentDigest : jsstr;
  su_range : SourceRange;
  su_previous : option (jsstr * jsstr);   (* item id, digest *)
  su_createdAt : jsstr;
}.

Definition count_json (n : nat) : jsval := JNum (number_of_int (Z.of_nat n)).
Definition range_json (r : SourceRange) : jsval :=
  obj [("firstItemId", JStr (firstItemId r)); ("lastItemId", JStr (lastItemId r)); ("itemCount", count_json (itemCount r));
       ("sourceDigest", JStr (rangeSourceDigest r)); ("evidenceDigest", JStr (evidenceDigest r))].
Definition summary_json (s : Summary) : jsval :=
  obj ([("id", JStr (su_id s)); ("owner", su_owner s); ("threadId", JStr (su_threadId s)); ("turnId", JStr (su_turnId s));
        ("type", JStr (js "context-summary")); ("strategy", JStr (su_strategy s)); ("logicalModelId", JStr (su_logicalModelId s));
        ("status", JStr (js "completed")); ("text", JStr (su_text s)); ("environmentDigest", JStr (su_environmentDigest s));
        ("sourceRange", range_json (su_range s))]
       ++ match su_previous s with
          | Some (id, d) => [("previousSummary", obj [("itemId", JStr id); ("digest", JStr d)])]
          | None => []
          end
       ++ [("createdAt", JStr (su_createdAt s)); ("completedAt", JStr (su_createdAt s))]).

(** ** Errors *)

Inductive ContextError :=
| ContextExceeded
| SourceUnavailable (check : string)
| ContextDeadline
| SummaryInvalid
| AbortReason
| RequestRefused (e : RequestError)
| ProviderThrew (e : Thrown)
| EvidenceError
| StoreError.

(** The text of a data value; values outside plain data do not occur in the store. *)
Definition text (v : jsval) : jsstr := default (js "undefined") (json_stringify v).

Definition text_message (role : string) (t : jsstr) : jsval :=
  if (role =? "assistant")%string
  then obj [("role", JStr (js role)); ("content", JArr [text_part t]); ("truncated", JBool false)]
  else obj [("role", JStr (js role)); ("content", JArr [text_part t])].

Definition internalContextSummaryMessage (s : Summary) : jsval :=
  obj [("role", JStr (js "assistant")); ("truncated", JBool false); ("content", JArr [text_part (js "<context_summary>" ++ text (obj [
    ("summaryItemId", JStr (su_id s)); ("owner", su_owner s); ("threadId", JStr (su_threadId s)); ("strategy", JStr (su_strategy s));
    ("logicalModelId", JStr (su_logicalModelId s)); ("sourceRange", range_json (su_range s)); ("text", JStr (su_text s));
    ("exactHistory", JStr (js "Use thread.history.read with this source range to retrieve original Items."))]) ++ js "</context_summary>")])].

(** [s.trim()] *)
Fixpoint trim_left (s : jsstr) : jsstr := match s with c :: r => if is_js_space c then trim_left r else s | [] => [] end.
Definition trim (s : jsstr) : jsstr := rev (trim_left (rev (trim_left s))).

(** The store, the sources, the provider, the clock and the signals. *)
Record ContextEnvironment (W : Type) := {
  listThreadTurns : jsstr → W → list Turn;   (* by Thread *)
  getTurnById : jsstr → W → option Turn;
  listSummaries : W → list Summary;
  updateTurn : jsstr → InternalExecution → W → W * result ContextError ();
  createSummary : Summary → W → W * result ContextError Summary;
  currentAuthority : W → bool;
  readEvidence : list jsval → W → result ContextError jsstr;
  askProvider : list jsval → W → Pending W;
  callerAborted : W → bool;
  deadlineAborted : W → bool;
  now : W → Z;
  timestamp : W → jsstr;
}.
Arguments listThreadTurns {W}. Arguments getTurnById {W}. Arguments listSummaries {W}. Arguments updateTurn {W}.
Arguments createSummary {W}. Arguments currentAuthority {W}. Arguments readEvidence {W}. Arguments askProvider {W}.
Arguments callerAborted {W}. Arguments deadlineAborted {W}. Arguments now {W}. Arguments timestamp {W}.

Record ContextInput := {
  ci_turn : Turn;
  ci_owner : jsval;
  ci_threadId : jsstr;
  ci_systemPrompt : jsstr;
  ci_environmentFacts : jsval;
  ci_tools : list AgentTool;
  ci_model : jsval;
  ci_logicalModelId : jsstr;
  ci_profileId : option jsstr;
  ci_context : option spec_float;
  ci_output : option spec_float;
  ci_requiredMessages : list jsval;
  ci_prefixMessages : list jsval;
  ci_limits : RunLimits;
}.

Section Rolling.
Context {W : Type} (env : ContextEnvironment W) (input : ContextInput).
Context (sha256 redact : jsstr → jsstr).

Definition internalContextDigest (v : jsval) : jsstr := js "sha256:" ++ sha256 (text v).

(** The history of a Thread before a Turn. *)
Definition thread_items (threadId : jsstr) (w : W) : list jsval :=
  concat ((λ t, filterb in_history (tu_items t)) <$>
    js_sort turn_cmp (filterb (λ t, negb (bool_decide (tu_id t = tu_id (ci_turn input)))) (listThreadTurns env threadId w))).
Definition internalContextItems (w : W) : list jsval := thread_items (ci_threadId input) w.

(** An unknown Turn throws. *)
Definition get_turn (id : jsstr) (w : W) : result ContextError Turn :=
  match getTurnById env id w with Some t => Ok t | None => Err StoreError end.

Definition source_json (w : W) (item : jsval) : result ContextError jsval :=
  t ← get_turn (item_turn item) w;
  Ok (obj [("item", item); ("turnOutcome", obj [("status", tu_status t); ("error", tu_error t)])]).

Definition internalContextSourceDigest (items : list jsval) (w : W) : result ContextError jsstr :=
  sources ← mapM (source_json w) items;
  Ok (internalContextDigest (obj [("version", JNum (number_of_int 1)); ("sources", JArr sources)])).

(** The digest of a compaction binds the Items alone. *)
Definition compactionDigest (items : list jsval) : jsstr :=
  internalContextDigest (obj [("version", JNum (number_of_int 1)); ("sources", JArr items)]).

(** *** Exact ranges *)

(** [history.findIndex((item) => item.id === id)] *)
Fixpoint index_of (id : jsstr) (history : list jsval) : option nat :=
  match history with
  | [] => None
  | item :: history => if bool_decide (item_id item = id) then Some 0%nat else S <$> index_of id history
  end.

Definition select (first last : jsstr) (history : list jsval) : option (list jsval) :=
  i ← index_of first history; j ← index_of last history;
  if (j <? i)%nat then None else Some (drop i (take (S j) history)).

(** The Items that a compaction may cover. *)
Definition compactable (item : jsval) : bool :=
  negb (string_is "context-summary" (js_get "type" item)) && negb (string_is "reasoning" (js_get "type" item)) &&
  (string_is "completed" (js_get "status" item)
   || string_is "failed" (js_get "status" item) && negb (string_is "user-message" (js_get "type" item))
      && negb (string_is "assistant-message" (js_get "type" item))).

Inductive Strategy := Rolling | Compaction.

Definition summarises (first last : jsstr) (item : jsval) : bool :=
  string_is "context-summary" (js_get "type" item) && string_is "compaction" (js_get "strategy" item) &&
  match js_get "firstItemId" (js_get "sourceRange" item), js_get "lastItemId" (js_get "sourceRange" item) with
  | JStr f, JStr l => bool_decide (f = first) && bool_decide (l = last)
  | _, _ => false
  end.

(** The Items of a Turn before the first compaction summary of the range that resolves. *)
Fixpoint compacted_range (first last : jsstr) (before after : list jsval) : option (list jsval) :=
  match after with
  | [] => None
  | item :: after =>
    match (if summarises first last item then select first last (filterb compactable before) else None) with
    | Some items => Some items
    | None => compacted_range first last (before ++ [item]) after
    end
  end.

Fixpoint compacted_turns (first last : jsstr) (turns : list Turn) : option (list jsval) :=
  match turns with
  | [] => None
  | t :: turns => match compacted_range first last [] (tu_items t) with Some items => Some items | None => compacted_turns first last turns end
  end.

Definition internalContextRange (threadId first last sourceDigest : jsstr) (strategy : option Strategy) (w : W)
    : result ContextError (list jsval * Strategy) :=
  let rolling := select first last (thread_items threadId w) in
  verified ← match strategy, rolling with
             | Some Rolling, _ => Ok true
             | None, Some items => d ← internalContextSourceDigest items w; Ok (bool_decide (d = sourceDigest))
             | _, _ => Ok false
             end;
  if verified : bool then match rolling with Some items => Ok (items, Rolling) | None => Err ContextExceeded end
  else match compacted_turns first last (listThreadTurns env threadId w) with
       | Some items => Ok (items, Compaction)
       | None => match strategy, rolling with
                 | Some Compaction, _ | _, None => Err ContextExceeded
                 | _, Some items => Ok (items, Rolling)
                 end
       end.

(** *** Messages *)

Definition internalContextHistoryBody (item : jsval) : jsstr :=
  if is_message item then text_of (js_get "text" item) else redact (text item).

Definition internalContextMessage (item : jsval) : jsval :=
  let t := if is_message item then redact (text_of (js_get "text" item))
           else js "<retained_item>" ++ redact (text item) ++ js "</retained_item>" in
  text_message (if string_is "assistant-message" (js_get "type" item) then "assistant" else "user") t.

Definition turn_outcome (t : Turn) : jsval :=
  text_message "user" (js "<retained_turn_outcome>" ++
    redact (text (obj [("turnId", JStr (tu_id t)); ("status", tu_status t); ("error", tu_error t)])) ++ js "</retained_turn_outcome>").

Definition has_outcome (t : Turn) : bool :=
  negb (string_is "completed" (tu_status t)) || match tu_error t with JUndef | JNull => false | _ => true end.

Fixpoint context_messages (items : list jsval) (observed : list jsstr) (w : W) : result ContextError (list jsval) :=
  match items with
  | [] => Ok []
  | item :: items =>
    t ← get_turn (item_turn item) w;
    rest ← context_messages items (observed ++ [tu_id t]) w;
    Ok (internalContextMessage item ::
        (if negb (includes observed (tu_id t)) && has_outcome t then [turn_outcome t] else []) ++ rest)
  end.
Definition contextMessages (items : list jsval) (w : W) : result ContextError (list jsval) := context_messages items [] w.

(** The window fits, or its estimate exceeds the capacity; other refusals are thrown. *)
Definition fits (messages : list jsval) : result ContextError bool :=
  match assertInternalAgentContextFits (ci_systemPrompt input) messages (ci_tools input) (ci_context input) (ci_output input) with
  | Ok _ => Ok true
  | Err e => match e with
             | AgentError code => if (code =? "internal_agent_context_exceeded")%string then Ok false else Err (RequestRefused e)
             | PlainFailure _ => Err (RequestRefused e)
             end
  end.

Definition signal_aborted (w : W) : bool := callerAborted env w || deadlineAborted env w.

Definition assertDeadline (startedAt : Z) (w : W) : result ContextError () :=
  if signal_aborted w || (rl_deadlineMs (ci_limits input) <=? now env w - startedAt)
  then Err (if callerAborted env w then AbortReason else ContextDeadline)
  else Ok ().

Definition assertCurrentAuthority (w : W) : result ContextError () :=
  if currentAuthority env w then Ok () else Err (SourceUnavailable "assertCurrent").

(** A source error of the owner is kept; anything else is reported as this check. *)
Definition read_evidence (items : list jsval) (w : W) : result ContextError jsstr :=
  match readEvidence env items w with
  | Ok d => Ok d
  | Err (SourceUnavailable c) => Err (SourceUnavailable c)
  | Err _ => Err (SourceUnavailable "readInternalContextEvidence")
  end.

(** What the run is bound to. *)
Record Pinned := { pi_startedAt : Z; pi_items : list jsval; pi_source : jsstr; pi_evidence : jsstr; pi_environment : jsstr }.

Definition assertCurrent (p : Pinned) (w : W) : result ContextError () :=
  _ ← assertDeadline (pi_startedAt p) w;
  _ ← assertCurrentAuthority w;
  let current := internalContextItems w in
  d ← internalContextSourceDigest current w;
  require bool_decide (d = pi_source p) else SourceUnavailable "internalContextSourceDigest";
  e ← read_evidence current w;
  require bool_decide (e = pi_evidence p) else SourceUnavailable "readInternalContextEvidence";
  assertDeadline (pi_startedAt p) w.

(** The durable diagnostic of a context failure; [overflow]: the provider itself reported one. *)
Definition failure_messages : list (string * string) := [
  ("internal_agent_context_exceeded", "The selected model context capacity was exceeded. Reduce input or retrieve a smaller excerpt.");
  ("internal_agent_context_unavailable", "The selected model has no usable context bounds.");
  ("internal_agent_context_source_unavailable",
   "Required internal Agent history source evidence is unavailable. Inspect source access and history before a new request.");
  ("internal_agent_summary_invalid", "Continuation summary production failed. Its source boundary did not advance.");
  ("internal_agent_model_turns_exceeded", "The admitted model-call budget expired before a bounded answer could complete.");
  ("internal_agent_context_deadline", "The admitted internal Agent deadline expired.")].
Definition internalContextFailure (overflow : bool) (code : option string) : option (string * string) :=
  if overflow then find (λ m, (m.1 =? "internal_agent_context_exceeded")%string) failure_messages
  else c ← code; find (λ m, (m.1 =? c)%string) failure_messages.

(** ** Computations that await *)

Definition Run (A : Type) : Type := W → W * result ContextError A.
Definition done {A} (a : A) : Run A := λ w, (w, Ok a).
Definition fail_with {A} (e : ContextError) : Run A := λ w, (w, Err e).
Definition and_then {A B} (m : Run A) (k : A → Run B) : Run B := λ w,
  match m w with (w, Ok a) => k a w | (w, Err e) => (w, Err e) end.
(** A computation that does not await sees one world. *)
Definition sync {A} (f : W → result ContextError A) : Run A := λ w, (w, f w).
Local Notation "x <~ m ;; k" := (and_then m (λ x, k)) (at level 100, m at next level, right associativity).

(** ** Retained summaries *)

Fixpoint validSummary (fuel : nat) (p : Pinned) (all : list Summary) (seen : list jsstr) (s : Summary) (w : W)
    : result ContextError bool :=
  match fuel with
  | O => Ok false
  | S fuel =>
    if includes seen (su_id s) then Ok false
    else
      producer ← get_turn (su_turnId s) w;
      let range := take (itemCount (su_range s)) (pi_items p) in
      if negb (bool_decide (su_strategy s = js "rolling")) || negb (bool_decide (su_logicalModelId s = ci_logicalModelId input))
         || match tu_agentSessionId producer with Some a => negb (bool_decide (a = [])) | None => false end
         || negb (bool_decide (tu_agentId producer = tu_agentId (ci_turn input)))
         || negb (bool_decide (su_environmentDigest s = pi_environment p))
         || negb (bool_decide (length range = itemCount (su_range s)))
         || negb (bool_decide (item_id <$> head range = Some (firstItemId (su_range s))))
         || negb (bool_decide (item_id <$> last range = Some (lastItemId (su_range s))))
      then Ok false
      else
        d ← internalContextSourceDigest range w;
        if negb (bool_decide (d = rangeSourceDigest (su_range s))) then Ok false
        else
          e ← readEvidence env range w;
          if negb (bool_decide (e = evidenceDigest (su_range s))) then Ok false
          else match su_previous s with
               | None => Ok true
               | Some (id, digest) =>
                 (* [new Map] keeps the last of several values *)
                 match find (λ x, bool_decide (su_id x = id)) (rev all) with
                 | None => Ok false
                 | Some previous =>
                   if negb (bool_decide (internalContextDigest (summary_json previous) = digest))
                      || (itemCount (su_range s) <=? itemCount (su_range previous))%nat
                   then Ok false
                   else validSummary fuel p all (seen ++ [su_id s]) previous w
                 end
               end
  end.

Definition summary_cmp (l r : Summary) : Z :=
  let c := Z.of_nat (itemCount (su_range r)) - Z.of_nat (itemCount (su_range l)) in
  if negb (c =? 0) then c
  else let c := str_cmp (su_createdAt r) (su_createdAt l) in
       if negb (c =? 0) then c else str_cmp (su_id r) (su_id l).

(** The window: a summary of the first [boundary] Items and the messages of the others. *)
Definition summary_part (summary : option Summary) : list jsval :=
  match summary with Some s => [internalContextSummaryMessage s] | None => [] end.
Definition assemble (p : Pinned) (summary : option Summary) (boundary : nat) (w : W) : result ContextError (list jsval) :=
  context ← contextMessages (drop boundary (pi_items p)) w;
  Ok (ci_prefixMessages input ++ summary_part summary ++ context ++ ci_requiredMessages input).

(** The retained summary with which the window starts when the whole history does not fit. *)
Definition choose_summary (p : Pinned) (w : W) : result ContextError (option Summary) :=
  window ← assemble p None 0 w;
  whole ← fits window;
  if whole : bool then Ok None
  else match js_sort summary_cmp (listSummaries env w) with
       | [] => Ok None
       | s :: _ => match validSummary (S (itemCount (su_range s))) p (listSummaries env w) [] s w with
                   | Ok true => Ok (Some s)
                   | _ => Err ContextExceeded
                   end
       end.

(** ** Summary batches *)

Definition summary_task (p : Pinned) (last : nat) : jsval :=
  text_message "user" (js "<openkit_context_summary_task>" ++ text (obj [
    ("firstItemId", JStr (default [] (item_id <$> pi_items p !! 0%nat)));
    ("lastItemId", JStr (default [] (item_id <$> pi_items p !! (last - 1)%nat)));
    ("itemCount", count_json last); ("maximumSummaryBytes", JNum (number_of_int 65536))]) ++ js "</openkit_context_summary_task>").

(** [items.slice(boundary, end)] *)
Definition batch (p : Pinned) (boundary last : nat) : list jsval := drop boundary (take last (pi_items p)).

Definition requestFor (p : Pinned) (summary : option Summary) (boundary last : nat) (w : W) : result ContextError (list jsval) :=
  context ← contextMessages (batch p boundary last) w;
  Ok (ci_prefixMessages input ++ summary_part summary ++ context ++ [summary_task p last]).

Definition request_fits (p : Pinned) (summary : option Summary) (boundary last : nat) (w : W) : result ContextError bool :=
  request ← requestFor p summary boundary last w; fits request.

(** The binary search for the last Item of the batch. *)
Fixpoint search (fuel : nat) (fit : nat → result ContextError bool) (low high last : nat) : result ContextError nat :=
  match fuel with
  | O => Ok last
  | S fuel =>
    if (low <=? high)%nat then
      let candidate := ((low + high) / 2)%nat in
      b ← fit candidate;
      if b : bool then search fuel fit (S candidate) high candidate else search fuel fit low (candidate - 1) last
    else Ok last
  end.

Definition batch_end (p : Pinned) (summary : option Summary) (boundary : nat) (w : W) : result ContextError nat :=
  search (S (length (pi_items p))) (λ c, request_fits p summary boundary c w) (S boundary) (length (pi_items p)) boundary.

(** The text of an admissible continuation. *)
Definition summary_text (message : jsval) : jsstr :=
  flat_map (λ part, if string_is "text" (js_get "type" part) then text_of (js_get "text" part) else []) (content_of message).
Definition usable_summary (message : jsval) : bool :=
  let t := summary_text message in
  negb (is_truncated message || negb (string_is "assistant" (js_get "role" message))
        || existsb (λ part, negb (string_is "text" (js_get "type" part))) (content_of message)
        || is_blank t || bool_decide (trim t = js "<context_capacity_failure/>") || (65536 <? utf8_length t)
        || negb (bool_decide (redact t = t))).

(** The provider call of a summary, raced with the signal ([AgentLoop.raceWithSignal]). *)
Definition call_provider (request : list jsval) : Run jsval := λ w,
  let pending := askProvider env request w in
  let '(w, got) :=
    if signal_aborted (invoked pending) then (invoked pending, None) else (settled pending, decided pending) in
  match got with
  | Some (Ok message) => (w, Ok message)
  | failed => (w, Err (if deadlineAborted env w && negb (callerAborted env w) then ContextDeadline
                       else match failed with Some (Err e) => ProviderThrew e | _ => AbortReason end))
  end.

Definition derived_summary_id (p : Pinned) (range : SourceRange) : result ContextError jsstr :=
  match deriveEntityId "it" (obj [("kind", JStr (js "internal-context-summary")); ("turnId", JStr (tu_id (ci_turn input)));
                                  ("environmentDigest", JStr (pi_environment p)); ("sourceRange", range_json range)]) with
  | Ok id => Ok id
  | Err _ => Err StoreError
  end.

Definition next_summary (p : Pinned) (summary : option Summary) (upto : nat) (t : jsstr) (w : W) : result ContextError Summary :=
  let prefix := take upto (pi_items p) in
  d ← internalContextSourceDigest prefix w;
  e ← readEvidence env prefix w;
  let range := {| firstItemId := default [] (item_id <$> head prefix);
                  lastItemId := default [] (item_id <$> last prefix);
                  itemCount := length prefix; rangeSourceDigest := d; evidenceDigest := e |} in
  id ← derived_summary_id p range;
  Ok {| su_id := id; su_owner := ci_owner input; su_threadId := ci_threadId input; su_turnId := tu_id (ci_turn input);
        su_strategy := js "rolling"; su_logicalModelId := ci_logicalModelId input; su_text := t;
        su_environmentDigest := pi_environment p; su_range := range;
        su_previous := (λ s, (su_id s, internalContextDigest (summary_json s))) <$> summary;
        su_createdAt := timestamp env w |}.

Definition json_bytes (l : list jsval) : Z := utf8_length (text (JArr l)).

(** The variables of the loop: the summary, the Items it stands for and the provider calls made. *)
Record Window := { wi_summary : option Summary; wi_boundary : nat; wi_used : Z }.

(** One pass of [while (!fits(assemble()))]: a further prefix is summarised. *)
Definition summarise (p : Pinned) (v : Window) : Run Window :=
  let boundary := wi_boundary v in
  let summary := wi_summary v in
  _ <~ sync (assertCurrent p);;
  request <~ sync (λ w,
    if rl_maxModelTurns (ci_limits input) - 1 <=? wi_used v then Err ContextExceeded
    else if (length (pi_items p) <=? boundary)%nat then Err ContextExceeded
    else
      b ← fits (ci_prefixMessages input ++ [text_message "assistant" (js "Continuation.")] ++ ci_requiredMessages input);
      if negb b then Err ContextExceeded
      else
        upto ← batch_end p summary boundary w;
        if bool_decide (upto = boundary) then Err ContextExceeded
        else
          messages ← requestFor p summary boundary upto w;
          context ← contextMessages (batch p boundary upto) w;
          _ ← assertCurrent p w;
          Ok (upto, messages, json_bytes (summary_part summary ++ context)));;
  message <~ call_provider request.1.2;;
  next <~ sync (λ w,
    _ ← assertCurrent p w;
    if negb (usable_summary message) then Err SummaryInvalid
    else
      next ← next_summary p summary request.1.1 (summary_text message) w;
      if request.2 <=? json_bytes [internalContextSummaryMessage next] then Err SummaryInvalid
      else _ ← assertCurrent p w; Ok next);;
  stored <~ createSummary env next;;
  done {| wi_summary := Some stored; wi_boundary := request.1.1; wi_used := wi_used v + 1 |}.

Definition window_messages (p : Pinned) (v : Window) (w : W) : result ContextError (list jsval) :=
  assemble p (wi_summary v) (wi_boundary v) w.

Fixpoint until_fits (fuel : nat) (p : Pinned) (v : Window) : Run (option Window) :=
  match fuel with
  | O => done None
  | S fuel =>
    b <~ sync (λ w, m ← window_messages p v w; fits m);;
    if b : bool then done (Some v) else v <~ summarise p v;; until_fits fuel p v
  end.

(** ** Preparation *)

Definition rolling_roles : list jsstr :=
  js <$> ["quick-chat"; "assistant"; "administration"; "knowledge-manager"; "goal-coordinator"; "goal-orchestrator"].

Definition threshold : Z :=
  default 0 (n ← ci_context input; number_integer n) - default 0 (n ← ci_output input; number_integer n).

(** The metadata of the run are pinned, or agree with those that are. *)
Definition pin_execution : Run () :=
  current <~ sync (get_turn (tu_id (ci_turn input)));;
  let role := default [] (tu_agentId current) in
  let execution := {|
    ie_profileId := match tu_internalExecution current with
                    | Some x => match ie_profileId x with Some id => Some id | None => Some (ci_profileId input) end
                    | None => Some (ci_profileId input)
                    end;
    ie_limits := match tu_internalExecution current with
                 | Some x => match ie_limits x with Some l => Some l | None => Some (ci_limits input) end
                 | None => Some (ci_limits input)
                 end;
    ie_roleId := role; ie_logicalModelId := ci_logicalModelId input; ie_contextStrategy := js "rolling";
    ie_threshold := threshold |} in
  match tu_internalExecution current with
  | Some x =>
    if negb (bool_decide (ie_roleId x = role)) || negb (bool_decide (ie_logicalModelId x = ci_logicalModelId input))
       || negb (bool_decide (ie_contextStrategy x = js "rolling")) || negb (ie_threshold x =? threshold)
    then fail_with ContextExceeded
    else match ie_profileId x, ie_limits x with
         | Some _, Some _ => done ()
         | _, _ => updateTurn env (tu_id (ci_turn input)) execution
         end
  | None => updateTurn env (tu_id (ci_turn input)) execution
  end.

Definition environment_digest : jsstr :=
  internalContextDigest (obj [("version", JNum (number_of_int 1)); ("strategy", JStr (js "rolling"));
    ("systemPrompt", JStr (ci_systemPrompt input));
    ("tools", JArr ((λ t, obj [("name", JStr (tool_name t)); ("description", JStr (tool_description t)); ("inputSchema", inputSchema t)])
                    <$> ci_tools input));
    ("model", ci_model input); ("environmentFacts", ci_environmentFacts input)]).

(** The sources of the run, as they are when it starts. *)
Definition pin_sources (startedAt : Z) (w : W) : result ContextError Pinned :=
  let items := internalContextItems w in
  d ← internalContextSourceDigest items w;
  _ ← assertCurrentAuthority w;
  e ← read_evidence items w;
  Ok {| pi_startedAt := startedAt; pi_items := items; pi_source := d; pi_evidence := e; pi_environment := environment_digest |}.

Record InternalAgentContext := { cx_messages : list jsval; cx_limits : RunLimits }.

(** [None]: the loop has run out of fuel. *)
Definition prepareInternalAgentContext : Run (option InternalAgentContext) := λ w0,
  let startedAt := now env w0 in
  (_ <~ sync (λ w,
     if match tu_agentSessionId (ci_turn input) with Some a => negb (bool_decide (a = [])) | None => false end
        || negb (includes rolling_roles (default [] (tu_agentId (ci_turn input))))
     then Err ContextExceeded
     else match assertInternalAgentContextFits (ci_systemPrompt input) [] (ci_tools input) (ci_context input) (ci_output input) with
          | Ok _ => assertCurrentAuthority w
          | Err e => Err (RequestRefused e)
          end);;
   _ <~ pin_execution;;
   p <~ sync (pin_sources startedAt);;
   first <~ sync (choose_summary p);;
   last <~ until_fits (S (length (pi_items p))) p
             {| wi_summary := first; wi_boundary := match first with Some s => itemCount (su_range s) | None => 0 end; wi_used := 0 |};;
   match last with
   | None => done None
   | Some v =>
     sync (λ w,
       _ ← assertCurrent p w;
       messages ← window_messages p v w;
       Ok (Some {| cx_messages := messages;
                   cx_limits := {| rl_maxModelTurns := rl_maxModelTurns (ci_limits input) - wi_used v;
                                   rl_maxToolCalls := rl_maxToolCalls (ci_limits input);
                                   rl_deadlineMs := Z.max 1 (rl_deadlineMs (ci_limits input) - (now env w - startedAt)) |} |}))
   end) w0.
End Rolling.

(** ** The largest batch *)

(** The binary search returns the last point at which a decreasing predicate holds. *)
Lemma search_spec fit b0 n : ∀ fuel low high last,
  (∀ c, (b0 < c <= n)%nat → ∃ b, fit c = Ok b) →
  (∀ c c', (b0 < c <= c')%nat → (c' <= n)%nat → fit c = Ok false → fit c' = Ok false) →
  (high + 1 - low < fuel)%nat → (b0 <= last)%nat → low = S last → (high <= n)%nat → (last <= n)%nat →
  (last = b0 ∨ fit last = Ok true) → (∀ c, (high < c <= n)%nat → (last < c)%nat → fit c = Ok false) →
  ∃ e, search fuel fit low high last = Ok e ∧ (b0 <= e <= n)%nat ∧ (e = b0 ∨ fit e = Ok true) ∧
    ∀ c, (e < c <= n)%nat → fit c = Ok false.
Proof.
  induction fuel as [|fuel IH]; intros low high last Htot Hmono Hf Hb Hlow Hn Hln Hlast Hhigh; [lia|]. cbn [search].
  destruct (low <=? high)%nat eqn:E; [apply Nat.leb_le in E|apply Nat.leb_gt in E].
  - set (c := ((low + high) / 2)%nat).
    assert (low <= c <= high)%nat as Hc.
    { subst c. split; [apply Nat.div_le_lower_bound; lia|]. apply Nat.Div0.div_le_upper_bound; lia. }
    destruct (Htot c) as [b Eb]; [lia|]. rewrite Eb. cbn [mbind result_bind]. destruct b.
    + apply IH; try done; try lia; [by right|]. intros c' H1 H2. apply Hhigh; lia.
    + apply IH; try done; try lia. intros c' H1 H2. destruct (decide (high < c')%nat); [apply Hhigh; lia|].
      apply (Hmono c c'); (done || lia).
  - exists last. split_and!; [done|lia..|done|]. intros c Hc. apply Hhigh; lia.
Qed.

(** ** The load of text messages *)

Definition part_kind (role : string) : string := if (role =? "assistant")%string then "output_text" else "input_text".

Definition wire_opening (role : string) : jsstr :=
  js "{" ++ stringify_string (js "role") ++ js ":" ++ stringify_string (js role) ++ js "," ++ stringify_string (js "content") ++
  js ":[{" ++ stringify_string (js "type") ++ js ":" ++ stringify_string (js (part_kind role)) ++ js "," ++
  stringify_string (js "text") ++ js ":".

Definition wire_item (role : string) (t : jsstr) : jsval :=
  obj [("role", JStr (js role)); ("content", JArr [obj [("type", JStr (js (part_kind role))); ("text", JStr t)]])].

Lemma wire_item_text role t : json_stringify (wire_item role t) = Some (wire_opening role ++ stringify_string t ++ js "}]}").
Proof.
  unfold wire_item, wire_opening, obj.
  cbn [fmap list_fmap fst snd json_stringify is_undefined mapM filterb stable_defined negb].
  cbv [stable_text mret option_ret mbind option_bind]. cbn [join flat_map fst snd]. rewrite <-!app_assoc. reflexivity.
Qed.

Lemma load_text al role t :
  role = "user" ∨ role = "assistant" →
  request_load al [text_message role t] = Some (utf8_length (wire_opening role) + quoted_size t + 6, 0).
Proof.
  intros Hr. unfold request_load.
  assert (mapM (toResponsesInput al) [text_message role t] = Ok [[wire_item role t]]) as -> by (by destruct Hr as [-> | ->]).
  assert (count_item (wire_item role t) = (wire_item role t, 0)) as Hc by (by destruct Hr as [-> | ->]).
  unfold item_texts, item_images. cbn [concat app fmap list_fmap]. rewrite Hc. cbn [fst snd mapM].
  unfold element_text. change (is_undefined (wire_item role t)) with false. cbv iota. rewrite wire_item_text.
  cbv [mret option_ret mbind option_bind]. do 2 f_equal. unfold texts_size, sum. cbn [fmap list_fmap foldr].
  rewrite utf8_length_app, utf8_length_quoted by done. change (utf8_length (js "}]}")) with 3. lia.
Qed.

Section Batches.
Context {W : Type} (env : ContextEnvironment W) (input : ContextInput) (redact : jsstr → jsstr).

(** Messages without images that are all texts. *)
Definition text_load (al : gmap jsstr jsstr) (ms : list jsval) (n : Z) : Prop := request_load al ms = Some (n, 0).

Lemma text_load_app al a b x y : text_load al a x → text_load al b y → text_load al (a ++ b) (x + y).
Proof. unfold text_load. intros Ha Hb. by rewrite request_load_app, Ha, Hb. Qed.

Lemma text_load_message al role t : role = "user" ∨ role = "assistant" → ∃ n, text_load al [text_message role t] n ∧ 40 <= n.
Proof.
  intros Hr. eexists. split; [by apply load_text|]. pose proof (quoted_size_nonneg t).
  assert (40 <= utf8_length (wire_opening role)) by (destruct Hr as [-> | ->]; by apply Z.leb_le; vm_compute). lia.
Qed.

Lemma item_message_load al item : ∃ n, text_load al [internalContextMessage redact item] n ∧ 40 <= n.
Proof. apply text_load_message. destruct (string_is _ _); auto. Qed.

Lemma summary_part_load al summary : ∃ n, text_load al (summary_part summary) n ∧ 0 <= n.
Proof.
  destruct summary as [s|]; [|by exists 0]. unfold summary_part, internalContextSummaryMessage.
  set (t := js "<context_summary>" ++ _). destruct (text_load_message al "assistant" t) as (n & Hn & ?); [auto|].
  exists n. split; [exact Hn|lia].
Qed.

Lemma context_load al items : ∀ observed w ms,
  context_messages env redact items observed w = Ok ms → ∃ n, text_load al ms n ∧ (items ≠ [] → 40 <= n) ∧ 0 <= n.
Proof.
  induction items as [|item items IH]; intros observed w ms; cbn [context_messages]; [intros [= <-]; by exists 0|].
  intros (t & _ & (rest & Hrest & [= <-])%bind_Ok)%bind_Ok. destruct (IH _ _ _ Hrest) as (n & Hn & _ & ?).
  destruct (item_message_load al item) as (m & Hm & ?).
  assert (∃ k, text_load al (if negb (includes observed (tu_id t)) && has_outcome t then [turn_outcome redact t] else []) k ∧ 0 <= k) as (k & Hk & ?).
  { destruct (_ && _); [|by exists 0]. destruct (text_load_message al "user" (js "<retained_turn_outcome>" ++
      redact (text (obj [("turnId", JStr (tu_id t)); ("status", tu_status t); ("error", tu_error t)])) ++ js "</retained_turn_outcome>"))
      as (k & Hk & ?); [auto|]. exists k. split; [exact Hk|lia]. }
  exists (m + (k + n)). split; [|lia]. apply (text_load_app al [_] _ m); [done|]. by apply text_load_app.
Qed.

Lemma context_messages_app w a b : ∀ observed m,
  context_messages env redact (a ++ b) observed w = Ok m →
  ∃ x y observed', context_messages env redact a observed w = Ok x ∧ context_messages env redact b observed' w = Ok y ∧ m = x ++ y.
Proof.
  induction a as [|item a IH]; intros observed m; cbn [app context_messages]; [intros H; by exists [], m, observed|].
  intros (t & -> & (rest & Hrest & [= <-])%bind_Ok)%bind_Ok. destruct (IH _ _ Hrest) as (x & y & o & Hx & Hy & ->).
  cbn [mbind result_bind]. rewrite Hx. cbn [mbind result_bind]. eexists _, y, o. split_and!; [done..|].
  cbn [app]. by rewrite <-app_assoc.
Qed.

(** Every Item has its Turn. *)
Definition turns_known (items : list jsval) (w : W) : Prop := ∀ item, item ∈ items → ∃ t, getTurnById env (item_turn item) w = Some t.

Lemma context_messages_total w items : ∀ observed, turns_known items w → ∃ ms, context_messages env redact items observed w = Ok ms.
Proof.
  induction items as [|item items IH]; intros observed Hk; [by eexists|]. cbn [context_messages]. unfold get_turn.
  destruct (Hk item) as [t ->]; [set_solver|]. cbn [mbind result_bind].
  destruct (IH (observed ++ [tu_id t])) as [ms ->]; [intros i Hi; apply Hk; set_solver|]. by eexists.
Qed.
End Batches.

(** ** The task of a batch *)

(** Identifiers of Items are written in one byte per character and all have the same length. *)
Lemma matches_classes_length ps s : matches_classes ps s = true → length s = length ps.
Proof. revert s. induction ps as [|p ps IH]; intros [|c s]; cbn; try done. intros [_ H]%andb_true_iff. by rewrite (IH s). Qed.

Lemma matches_classes_forall (q : Z → bool) ps s :
  Forall (λ p, ∀ c, p c = true → q c = true) ps → matches_classes ps s = true → forallb q s = true.
Proof.
  intros Hp. revert s. induction Hp as [|p ps Hq _ IH]; intros [|c s]; cbn; try done.
  intros [Hc H]%andb_true_iff. by rewrite (Hq c Hc), (IH s H).
Qed.

Lemma is_hex_plain c : is_hex c = true → is_plain_char c = true.
Proof.
  unfold is_hex, is_digit, is_plain_char, in_range. intros [H|H]%orb_true_iff; bool_to_prop; apply orb_true_iff; [left|right];
    apply andb_true_iff; split; apply Z.leb_le; lia.
Qed.

Lemma item_id_plain v : isEntityId "it" v = true → ∃ s, v = JStr s ∧ forallb is_plain_char s = true ∧ length s = 39%nat.
Proof.
  unfold isEntityId. intros [_ H]%andb_true_iff. destruct v as [| | | | |s| |]; try done.
  destruct (entityIdPattern "it") as [ps|] eqn:E; [|done]. exists s. split; [done|].
  assert (∃ version, ps = (lit <$> js "it_") ++ uuid_classes version ∧ ∀ c, version c = true → is_plain_char c = true) as (version & -> & Hv).
  { unfold entityIdPattern in E. change (has_kind "it") with true in E. cbn [negb] in E. injection E as <-.
    eexists. split; [reflexivity|]. intros c Hc.
    change (is_version c = true) in Hc. unfold is_version, includes in Hc. apply bool_decide_eq_true_1 in Hc. change (js "57") with [53; 55] in Hc.
    rewrite !elem_of_cons, elem_of_nil in Hc. by destruct Hc as [->|[->|[]]]. }
  split; [|by rewrite (matches_classes_length _ _ H)].
  eapply matches_classes_forall; [|exact H].
  assert (∀ k, is_plain_char k = true → ∀ c, lit k c = true → is_plain_char c = true) as Hl by (by intros k Hk c ->%Z.eqb_eq).
  assert (∀ c, is_variant c = true → is_plain_char c = true) as Hva.
  { intros c Hc. unfold is_variant, includes in Hc. apply bool_decide_eq_true_1 in Hc. change (js "89ab") with [56; 57; 97; 98] in Hc.
    rewrite !elem_of_cons, elem_of_nil in Hc. by destruct Hc as [->|[->|[->|[->|[]]]]]. }
  unfold uuid_classes. rewrite !Forall_app, !Forall_singleton. split_and!; try (apply Forall_replicate, is_hex_plain); try done;
    try (by apply Hl). repeat constructor; by apply Hl.
Qed.

Definition task_opening (first : jsstr) : jsstr :=
  js "<openkit_context_summary_task>" ++ js "{" ++ stringify_string (js "firstItemId") ++ js ":" ++ stringify_string first ++ js "," ++
  stringify_string (js "lastItemId") ++ js ":".
Definition task_middle : jsstr := js "," ++ stringify_string (js "itemCount") ++ js ":".
Definition task_closing : jsstr :=
  js "," ++ stringify_string (js "maximumSummaryBytes") ++ js ":65536" ++ js "}" ++ js "</openkit_context_summary_task>".

(** The counts have texts; [JSON.stringify] writes every number. *)
Definition counts_written (n : nat) : Prop := ∀ c, (c <= n)%nat → ∃ t, number_text (number_of_int (Z.of_nat c)) = Some t.

Lemma task_size al p c first last num :
  item_id <$> pi_items p !! 0%nat = Some first → item_id <$> pi_items p !! (c - 1)%nat = Some last →
  forallb is_plain_char last = true → stringify_number (number_of_int (Z.of_nat c)) = Some num → forallb is_plain_char num = true →
  text_load al [summary_task p c]
    (utf8_length (wire_opening "user") + quoted_size (task_opening first) + quoted_size task_middle + quoted_size task_closing + 10
     + Z.of_nat (length last) + Z.of_nat (length num)).
Proof.
  intros E0 E1 Hl Hn Hnum. unfold summary_task. rewrite E0, E1. cbn [default].
  assert (∀ a b : jsstr, text (obj [("firstItemId", JStr a); ("lastItemId", JStr b); ("itemCount", count_json c);
            ("maximumSummaryBytes", JNum (number_of_int 65536))]) =
          js "{" ++ stringify_string (js "firstItemId") ++ js ":" ++ stringify_string a ++ js "," ++ stringify_string (js "lastItemId") ++ js ":" ++
          stringify_string b ++ task_middle ++ num ++ js "," ++ stringify_string (js "maximumSummaryBytes") ++ js ":65536" ++ js "}") as Et.
  { intros a b. unfold text, obj, count_json, task_middle.
    cbn [fmap list_fmap fst snd json_stringify is_undefined mapM filterb stable_defined negb]. rewrite Hn.
    assert (stringify_number (number_of_int 65536) = Some (js "65536")) as -> by (by vm_compute).
    cbv [stable_text mret option_ret mbind option_bind from_option id]. cbn [join flat_map fst snd]. rewrite <-!app_assoc. reflexivity. }
  change (default [] (Some first)) with first. change (default [] (Some last)) with last. rewrite Et.
  match goal with |- text_load _ [text_message "user" ?t] _ =>
    assert (t = task_opening first ++ stringify_string last ++ task_middle ++ num ++ task_closing) as -> end.
  { unfold task_opening, task_closing. rewrite <-!app_assoc. reflexivity. }
  unfold text_load. rewrite load_text by auto. do 2 f_equal.
  destruct (plain_string _ Hnum) as (_ & _ & Hsn). destruct (plain_string _ Hl) as (El & _ & _).
  assert (∀ u, starts_low (num ++ task_closing ++ u) = false) as Hs by (intros u; by destruct num).
  rewrite quoted_size_app, (quoted_size_app (stringify_string last)), (quoted_size_app task_middle), (quoted_size_app num)
    by (done || specialize (Hs []); by rewrite app_nil_r in Hs).
  rewrite (quoted_size_plain num Hnum).
  assert (quoted_size (stringify_string last) = Z.of_nat (length last) + 4) as ->; [|lia].
  unfold stringify_string. rewrite El.
  destruct (plain_string _ Hl) as (_ & _ & Hsl).
  rewrite (quoted_size_app [QUOTE]), (quoted_size_app last), (quoted_size_plain last Hl) by (done || by destruct last).
  change (quoted_size [QUOTE]) with 2. lia.
Qed.

Section Largest.
Context {W : Type} (env : ContextEnvironment W) (input : ContextInput) (redact : jsstr → jsstr).

Lemma fits_inv ms b :
  fits input ms = Ok b →
  ∃ al us c x, prepared (ci_tools input) = Ok al ∧ mapM element_text (provider_tool al <$> ci_tools input) = Some us ∧
    capacity (ci_context input) (ci_output input) = Some c ∧ request_load al ms = Some x.
Proof.
  unfold fits. intros H. eapply assert_inv. destruct (assertInternalAgentContextFits _ _ _ _ _) as [[]|[code|]] eqn:E; [by left| |done].
  destruct (code =? _)%string eqn:Ec; [|done]. apply String.eqb_eq in Ec as ->. right. done.
Qed.

Lemma fits_eval ms al us c x :
  prepared (ci_tools input) = Ok al → mapM element_text (provider_tool al <$> ci_tools input) = Some us →
  capacity (ci_context input) (ci_output input) = Some c → request_load al ms = Some x →
  fits input ms = Ok (estimated_load (ci_systemPrompt input) us x <=? c).
Proof.
  intros H1 H2 H3 H4. unfold fits. rewrite (assert_eval _ _ _ _ _ _ _ _ _ H1 H2 H3 H4).
  destruct (c <? _) eqn:E; bool_to_prop; [by rewrite (proj2 (Z.leb_gt _ _))|by rewrite (proj2 (Z.leb_le _ _))].
Qed.

Context (p : Pinned) (summary : option Summary) (boundary : nat) (w : W).

Definition items_identified : Prop := Forall (λ item, isEntityId "it" (js_get "id" item) = true) (pi_items p).

Lemma identified_at i : items_identified → (i < length (pi_items p))%nat →
  ∃ id, item_id <$> pi_items p !! i = Some id ∧ forallb is_plain_char id = true ∧ length id = 39%nat.
Proof.
  intros Hid [item Hi]%lookup_lt_is_Some. unfold items_identified in Hid. rewrite Forall_lookup in Hid.
  destruct (item_id_plain _ (Hid _ _ Hi)) as (s & E & ? & ?). exists s. rewrite Hi. cbn. unfold item_id. by rewrite E.
Qed.

(** The task of any batch weighs the same up to the digits of its count. *)
Lemma task_loads al : items_identified → counts_written (length (pi_items p)) →
  ∃ k, ∀ c, (0 < c <= length (pi_items p))%nat → ∃ n, text_load al [summary_task p c] n ∧ k <= n <= k + 32.
Proof.
  intros Hid Hcw. destruct (decide (length (pi_items p) = 0)%nat) as [E|Hne]; [exists 0; lia|].
  destruct (identified_at 0 Hid) as (first & E0 & _ & _); [lia|].
  eexists (utf8_length (wire_opening "user") + quoted_size (task_opening first) + quoted_size task_middle + quoted_size task_closing + 10 + 39).
  intros c Hc. destruct (identified_at (c - 1) Hid) as (last & E1 & Hp & Hl); [lia|]. destruct (Hcw c) as [num Hn]; [lia|].
  destruct (number_text_plain _ _ Hn) as [Hnp Hnl].
  assert (stringify_number (number_of_int (Z.of_nat c)) = Some num) as Hs.
  { unfold stringify_number. destruct (number_of_int (Z.of_nat c)) eqn:Ef; cbn [is_finite_number]; done. }
  eexists. split; [by eapply task_size|]. rewrite Hl. lia.
Qed.

(** The load of the request of a batch. *)
Lemma batch_loads al x0 :
  items_identified → counts_written (length (pi_items p)) → turns_known env (pi_items p) w →
  request_load al (ci_prefixMessages input) = Some x0 →
  ∃ load, ∀ c, (boundary < c <= length (pi_items p))%nat →
    ∃ ms, requestFor env input redact p summary boundary c w = Ok ms ∧ request_load al ms = Some (load c, x0.2) ∧
    ∀ c', (c < c' <= length (pi_items p))%nat → load c <= load c'.
Proof.
  intros Hid Hcw Hk Hx0. destruct (task_loads al Hid Hcw) as [k Htask]. destruct (summary_part_load al summary) as (sl & Hsl & _).
  assert (∀ c, (c <= length (pi_items p))%nat → ∃ m, contextMessages env redact (batch p boundary c) w = Ok m ∧
    ∃ n, text_load al m n) as Hctx.
  { intros c Hc. destruct (context_messages_total env redact w (batch p boundary c) []) as [m Hm].
    - intros item Hi. apply Hk. unfold batch in Hi. apply list_elem_of_lookup in Hi as [i Hi].
      rewrite lookup_drop in Hi. apply lookup_take_Some in Hi as [Hi _]. by apply list_elem_of_lookup_2 in Hi.
    - exists m. split; [exact Hm|]. destruct (context_load env redact al _ _ _ _ Hm) as (n & ? & _). by exists n. }
  assert (∃ ctx task : nat → Z, ∀ c, (boundary < c <= length (pi_items p))%nat →
    (∃ m, contextMessages env redact (batch p boundary c) w = Ok m ∧ text_load al m (ctx c)) ∧
    text_load al [summary_task p c] (task c) ∧ k <= task c <= k + 32) as (ctx & task & Hall).
  { set (cx := λ c, match contextMessages env redact (batch p boundary c) w with
                    | Ok m => match request_load al m with Some x => x.1 | None => 0 end | Err _ => 0 end).
    set (tk := λ c, match request_load al [summary_task p c] with Some x => x.1 | None => 0 end).
    exists cx, tk. intros c Hc. destruct (Hctx c) as (m & Hm & n & Hn); [lia|]. destruct (Htask c) as (t & Ht & Hle); [lia|].
    subst cx tk. cbn beta. unfold text_load in *. rewrite Ht, Hm. cbn. split_and!; [|done|lia..].
    exists m. split; [done|]. by rewrite Hn. }
  exists (λ c, x0.1 + (sl + (ctx c + task c))). intros c Hc. destruct (Hall c Hc) as ((m & Hm & Hml) & Ht & Htk).
  exists (ci_prefixMessages input ++ summary_part summary ++ m ++ [summary_task p c]). split_and!.
  - unfold requestFor. by rewrite Hm.
  - rewrite request_load_app, Hx0. cbn [mbind option_bind].
    rewrite (text_load_app al _ _ _ _ Hsl (text_load_app al _ _ _ _ Hml Ht)). cbn. by rewrite Z.add_0_r.
  - intros c' Hc'. destruct (Hall c') as ((m' & Hm' & Hml') & _ & Htk'); [lia|].
    assert (batch p boundary c' = batch p boundary c ++ drop c (take c' (pi_items p))) as Eb.
    { unfold batch. rewrite <-(take_drop c (take c' (pi_items p))) at 1. rewrite take_take, Nat.min_l by lia.
      apply drop_app_le. rewrite length_take. lia. }
    unfold contextMessages in Hm, Hm'. rewrite Eb in Hm'. apply context_messages_app in Hm' as (x & y & o & Hx & Hy & ->).
    rewrite Hx in Hm. injection Hm as ->. destruct (context_load env redact al _ _ _ _ Hy) as (n & Hn & Hge & _).
    pose proof (text_load_app al _ _ _ _ Hml Hn) as Hsum. unfold text_load in Hsum, Hml'. rewrite Hml' in Hsum. injection Hsum as Hsum.
    assert (40 <= n); [|lia]. apply Hge. intros E%(f_equal length). rewrite length_drop, length_take in E. cbn in E. lia.
Qed.

(** The batch that is summarised is the largest that fits: the binary search ends at the last Item
    for which the request of the whole batch is admitted, and every longer batch is refused.  (The
    request grows with the batch: identifiers of Items have one length, and a message weighs more
    than the digits of a count.) *)
Theorem summary_batch_is_largest b :
  items_identified → counts_written (length (pi_items p)) → turns_known env (pi_items p) w →
  fits input (ci_prefixMessages input) = Ok b → (boundary <= length (pi_items p))%nat →
  ∃ upto, batch_end env input redact p summary boundary w = Ok upto ∧ (boundary <= upto <= length (pi_items p))%nat ∧
    (upto = boundary ∨ request_fits env input redact p summary boundary upto w = Ok true) ∧
    ∀ c, (upto < c <= length (pi_items p))%nat → request_fits env input redact p summary boundary c w = Ok false.
Proof.
  intros Hid Hcw Hk Hf Hb. destruct (fits_inv _ _ Hf) as (al & us & cap & x0 & H1 & H2 & H3 & H4).
  destruct (batch_loads al x0 Hid Hcw Hk H4) as [load Hload].
  assert (∀ c, (boundary < c <= length (pi_items p))%nat →
    request_fits env input redact p summary boundary c w = Ok (estimated_load (ci_systemPrompt input) us (load c, x0.2) <=? cap)) as Hfit.
  { intros c Hc. destruct (Hload c Hc) as (ms & Hms & Hl & _). unfold request_fits. rewrite Hms. cbn [mbind result_bind].
    by eapply fits_eval. }
  unfold batch_end. apply search_spec; [| |lia|lia|done|lia|lia|by left|intros; lia].
  - intros c Hc. rewrite Hfit by done. by eexists.
  - intros c c' Hc Hc' E. destruct (decide (c = c')) as [->|Hne]; [done|].
    rewrite Hfit in E by lia. injection E as E. rewrite Hfit by lia. f_equal. apply Z.leb_gt in E. apply Z.leb_gt.
    destruct (Hload c) as (_ & _ & _ & Hm); [lia|]. specialize (Hm c' ltac:(lia)).
    pose proof (estimated_load_mono (ci_systemPrompt input) us (load c, x0.2) (load c', x0.2)). cbn in *. lia.
Qed.
End Largest.

(** ** The window is bound to its sources *)

Section Verified.
Context {W : Type} (env : ContextEnvironment W) (input : ContextInput) (sha256 redact : jsstr → jsstr).

(** The digest tells texts apart; what the store keeps are data values with a text; a created Item is
    returned as it was given. *)
Context (collision_free : ∀ a b, sha256 a = sha256 b → a = b).
Context (sources_stored : ∀ w w' item j, item ∈ internalContextItems env input w' → source_json env w item = Ok j →
  wf_value j ∧ ∃ t, json_stringify j = Some t).
Context (created_as_given : ∀ s w w' s', createSummary env s w = (w', Ok s') → s' = s).

Definition sources_value (sources : list jsval) : jsval := obj [("version", JNum (number_of_int 1)); ("sources", JArr sources)].

Definition well_stored (j : jsval) : Prop := wf_value j ∧ isRecord j = true ∧ ∃ t, json_stringify j = Some t.

Lemma source_json_record w item j : source_json env w item = Ok j →
  ∃ t, get_turn env (item_turn item) w = Ok t ∧ j = obj [("item", item); ("turnOutcome", obj [("status", tu_status t); ("error", tu_error t)])].
Proof. unfold source_json. intros (t & Ht & [= <-])%bind_Ok. by exists t. Qed.

Lemma sources_well_stored w w' items (ss : list jsval) :
  (∀ item, item ∈ items → item ∈ internalContextItems env input w') → mapM (source_json env w) items = Ok ss → Forall well_stored ss.
Proof.
  intros Hin H%mapM_result_Ok. induction H as [|item j items ss Hj _ IH]; constructor.
  - destruct (sources_stored w w' item j) as [? ?]; [apply Hin; set_solver|done|]. split_and!; try done.
    by destruct (source_json_record _ _ _ Hj) as (t & _ & ->).
  - apply IH. set_solver.
Qed.

Lemma sources_value_stored l : Forall well_stored l → wf_value (sources_value l) ∧ ∃ t, json_stringify (sources_value l) = Some t.
Proof.
  intros Hl. split.
  - constructor.
    + apply (bool_decide_unpack _). by vm_compute.
    + repeat constructor; cbn [fst snd]; try (apply (bool_decide_unpack _); by vm_compute).
      eapply Forall_impl; [exact Hl|]. by intros j [? _].
  - assert (∃ ts, mapM element_text l = Some ts) as [ts Hts].
    { induction Hl as [|j l (_ & Hr & t & Ht) _ [ts IH]]; [by eexists|]. exists (t :: ts). cbn [mapM].
      assert (element_text j = Some t) as -> by (by destruct j). cbn [mbind option_bind]. by rewrite IH. }
    eexists. unfold sources_value, obj. cbn [fmap list_fmap fst snd json_stringify is_undefined filterb stable_defined negb].
    change (mapM (λ v, if is_undefined v then Some (js "null") else json_stringify v) l) with (mapM element_text l). rewrite Hts.
    assert (stringify_number (number_of_int 1) = Some (js "1")) as -> by (by vm_compute). reflexivity.
Qed.

Lemma as_read_sources l k : Forall well_stored l → Forall well_stored k →
  as_read (sources_value l) = as_read (sources_value k) → as_read <$> l = as_read <$> k.
Proof.
  intros Hl Hk. unfold sources_value, obj. cbn [fmap list_fmap fst snd as_read filterb keep_defined is_undefined negb].
  assert (∀ m, Forall well_stored m → ((λ v, if is_undefined v then JNull else as_read v) <$> m) = as_read <$> m) as Hm.
  { intros m Hm. apply list_fmap_ext. intros i j Hj. rewrite Forall_lookup in Hm. destruct (Hm _ _ Hj) as (_ & Hr & _). by destruct j. }
  assert (is_finite_number (number_of_int 1) = true) as -> by done. cbn [is_undefined negb]. rewrite !Hm by done.
  intros H. injection H as H. exact H.
Qed.

(** Sources with the same digest are the same data. *)
Lemma same_digest w w' w1 w1' items items' d (ss ss' : list jsval) :
  (∀ item, item ∈ items → item ∈ internalContextItems env input w1) →
  (∀ item, item ∈ items' → item ∈ internalContextItems env input w1') →
  mapM (source_json env w) items = Ok ss → mapM (source_json env w') items' = Ok ss' →
  internalContextSourceDigest env sha256 items w = Ok d → internalContextSourceDigest env sha256 items' w' = Ok d →
  as_read <$> ss = as_read <$> ss'.
Proof.
  intros Hin Hin' Hj Hj' Hd Hd'. pose proof (sources_well_stored _ _ _ _ Hin Hj) as Hs. pose proof (sources_well_stored _ _ _ _ Hin' Hj') as Hs'.
  destruct (sources_value_stored _ Hs) as (Hw & t & Ht), (sources_value_stored _ Hs') as (Hw' & t' & Ht').
  unfold internalContextSourceDigest in Hd, Hd'. rewrite Hj in Hd. rewrite Hj' in Hd'. apply Ok_inj in Hd, Hd'.
  unfold internalContextDigest in Hd, Hd'. change (obj _) with (sources_value ss) in Hd. change (obj _) with (sources_value ss') in Hd'.
  unfold text in Hd, Hd'. rewrite Ht in Hd. rewrite Ht' in Hd'. cbn [default from_option id] in Hd, Hd'.
  rewrite <-Hd' in Hd. apply app_inv_head, collision_free in Hd. subst t'.
  apply as_read_sources; [done..|]. by eapply text_determines.
Qed.

(** Conversely the same data have the same digest. *)
Lemma digest_ext w w' items items' (ss ss' : list jsval) :
  mapM (source_json env w) items = Ok ss → mapM (source_json env w') items' = Ok ss' → as_read <$> ss = as_read <$> ss' →
  internalContextSourceDigest env sha256 items w = internalContextSourceDigest env sha256 items' w'.
Proof.
  intros Hj Hj' E. unfold internalContextSourceDigest. rewrite Hj, Hj'. cbn [mbind result_bind].
  change (Ok (E := ContextError) (internalContextDigest sha256 (sources_value ss)) = Ok (internalContextDigest sha256 (sources_value ss'))).
  unfold internalContextDigest, text. do 3 f_equal. rewrite <-(stringify_as_read (sources_value ss)), <-(stringify_as_read (sources_value ss')).
  do 2 f_equal. unfold sources_value, obj. cbn [fmap list_fmap fst snd as_read filterb keep_defined is_undefined negb].
  assert (∀ m : list jsval, ((λ v, if is_undefined v then JNull else as_read v) <$> m) =
          (λ u, if is_undefined u then JNull else u) <$> (as_read <$> m)) as Hm.
  { intros m. rewrite <-list_fmap_compose. apply list_fmap_ext. intros i v _. cbn. by rewrite as_read_undefined. }
  by rewrite !Hm, E.
Qed.

Lemma text_of_as_read v : text_of (as_read v) = text_of v.
Proof. destruct v; try done. cbn. by destruct (is_finite_number f). Qed.

Definition source (item status error : jsval) : jsval :=
  obj [("item", item); ("turnOutcome", obj [("status", status); ("error", error)])].

Lemma source_wf_item item s e : wf_value (source item s e) → wf_value item.
Proof. inversion 1 as [| | | | | | |? _ Hf]; subst. by apply Forall_cons in Hf as [[_ ?] _]. Qed.

Lemma source_as_read_item item s e item' s' e' :
  wf_value (source item s e) → wf_value (source item' s' e') → as_read (source item s e) = as_read (source item' s' e') →
  as_read item = as_read item'.
Proof. intros Hw Hw' E. apply (f_equal (js_get "item")) in E. by rewrite !js_get_as_read in E. Qed.

Lemma source_as_read_ext item item' s e : as_read item = as_read item' → as_read (source item s e) = as_read (source item' s e).
Proof.
  intros E. unfold source, obj. cbn [fmap list_fmap fst snd as_read filterb].
  change (keep_defined (js "item", as_read item)) with (negb (is_undefined (as_read item))).
  change (keep_defined (js "item", as_read item')) with (negb (is_undefined (as_read item'))). by rewrite E.
Qed.

Lemma item_turn_as_read item item' : wf_value item → wf_value item' → as_read item = as_read item' → item_turn item = item_turn item'.
Proof.
  intros Hw Hw' E. apply (f_equal (λ v, text_of (js_get "turnId" v))) in E. cbn in E. rewrite !js_get_as_read, !text_of_as_read in E by done.
  exact E.
Qed.

(** The pinned Items, read in a world whose history is the same data, have the same sources. *)
Lemma sources_agree w0 w items items' : ∀ ss ss' : list jsval,
  mapM (source_json env w0) items = Ok ss → mapM (source_json env w) items' = Ok ss' → Forall wf_value ss → Forall wf_value ss' →
  as_read <$> ss = as_read <$> ss' →
  as_read <$> items = as_read <$> items' ∧ ∃ ss'', mapM (source_json env w) items = Ok ss'' ∧ as_read <$> ss'' = as_read <$> ss.
Proof.
  revert items'. induction items as [|item items IH]; intros items' ss ss' H%mapM_result_Ok H'%mapM_result_Ok Hw Hw' E.
  - inversion H; subst. destruct H' as [|]; [|done]. split; [done|]. by exists [].
  - inversion H as [|? j ? ss1 Hj Hss]; subst. destruct H' as [|item' j' items' ss1' Hj' Hss']; [done|].
    rewrite !fmap_cons in E. injection E as Ej Ess. apply Forall_cons in Hw as [Hw Hws], Hw' as [Hw' Hws'].
    destruct (IH items' ss1 ss1') as [Ei (ss2 & Hss2 & Es2)]; [by apply mapM_result_Ok..|done|done|done|].
    destruct (source_json_record _ _ _ Hj) as (t & Ht & ->), (source_json_record _ _ _ Hj') as (t' & Ht' & ->).
    pose proof (source_as_read_item _ _ _ _ _ _ Hw Hw' Ej) as Eitem.
    pose proof (item_turn_as_read _ _ (source_wf_item _ _ _ Hw) (source_wf_item _ _ _ Hw') Eitem) as Eturn.
    split; [by rewrite !fmap_cons, Eitem, Ei|]. exists (source item (tu_status t') (tu_error t') :: ss2). cbn [mapM].
    assert (source_json env w item = Ok (source item (tu_status t') (tu_error t'))) as -> by (unfold source_json; by rewrite Eturn, Ht').
    rewrite Hss2. split; [done|]. rewrite !fmap_cons, Es2. f_equal.
    etrans; [by apply source_as_read_ext|]. symmetry. exact Ej.
Qed.

Lemma mapM_result_take {E A B} (f : A → result E B) k l r : mapM f l = Ok r → mapM f (take k l) = Ok (take k r).
Proof. rewrite !mapM_result_Ok. apply Forall2_take. Qed.

Definition pinned_at (w0 : W) (p : Pinned) : Prop :=
  pi_items p = internalContextItems env input w0 ∧ internalContextSourceDigest env sha256 (pi_items p) w0 = Ok (pi_source p).

Lemma assertCurrent_digest p w :
  assertCurrent env input sha256 p w = Ok () → internalContextSourceDigest env sha256 (internalContextItems env input w) w = Ok (pi_source p).
Proof.
  unfold assertCurrent. intros (_ & _ & (_ & _ & (d & Hd & H)%bind_Ok)%bind_Ok)%bind_Ok. case_bool_decide; [|done]. by subst.
Qed.

Lemma digest_sources items w d : internalContextSourceDigest env sha256 items w = Ok d → ∃ ss, mapM (source_json env w) items = Ok ss.
Proof. unfold internalContextSourceDigest. intros (ss & H & _)%bind_Ok. by exists ss. Qed.

(** While the sources are current, the history is the pinned data and its prefixes keep their digests. *)
Lemma current_sources w0 p w :
  pinned_at w0 p → assertCurrent env input sha256 p w = Ok () →
  as_read <$> pi_items p = as_read <$> internalContextItems env input w ∧
  ∀ k, internalContextSourceDigest env sha256 (take k (pi_items p)) w = internalContextSourceDigest env sha256 (take k (pi_items p)) w0.
Proof.
  intros [Ei Hd] Hc%assertCurrent_digest. destruct (digest_sources _ _ _ Hd) as [ss Hss], (digest_sources _ _ _ Hc) as [ss' Hss'].
  rewrite Ei in Hd, Hss. pose proof (same_digest w0 w w0 w _ _ _ _ _ (λ _ H, H) (λ _ H, H) Hss Hss' Hd Hc) as E.
  pose proof (sources_well_stored w0 w0 _ _ (λ _ H, H) Hss) as Hw. pose proof (sources_well_stored w w _ _ (λ _ H, H) Hss') as Hw'.
  assert (∀ l, Forall well_stored l → Forall wf_value l) as Hwf by (intros l Hl; eapply Forall_impl; [exact Hl|by intros j [? _]]).
  destruct (sources_agree w0 w _ _ _ _ Hss Hss' (Hwf _ Hw) (Hwf _ Hw') E) as [Eitems (ss2 & Hss2 & Es2)]. rewrite Ei. split; [done|].
  intros k. eapply digest_ext; [by apply mapM_result_take..|]. by rewrite !fmap_take, Es2.
Qed.

(** *** The loop *)

Lemma and_then_Ok {A B} (m : Run (W := W) A) (k : A → Run B) w w' b :
  and_then m k w = (w', Ok b) → ∃ w1 a, m w = (w1, Ok a) ∧ k a w1 = (w', Ok b).
Proof. unfold and_then. destruct (m w) as [w1 [a|e]]; [by exists w1, a|done]. Qed.

Lemma sync_Ok {A} (f : W → result ContextError A) w w' a : sync f w = (w', Ok a) → w' = w ∧ f w = Ok a.
Proof. by intros [= <- ->]. Qed.

Lemma search_bounds fuel fit : ∀ low high last e,
  search fuel fit low high last = Ok e → e = last ∨ (low <= e <= high)%nat.
Proof.
  induction fuel as [|fuel IH]; intros low high last e; cbn [search]; [intros [= <-]; by left|].
  destruct (low <=? high)%nat eqn:E; [apply Nat.leb_le in E|intros [= <-]; by left]. set (c := ((low + high) / 2)%nat).
  assert (low <= c <= high)%nat as Hc.
  { subst c. split; [apply Nat.div_le_lower_bound; lia|]. apply Nat.Div0.div_le_upper_bound; lia. }
  intros (b & _ & H)%bind_Ok. destruct b; apply IH in H; lia.
Qed.

Definition maxTurns : Z := rl_maxModelTurns (ci_limits input).

(** The summary stands for exactly the Items before the boundary. *)
Definition stands_for_prefix (w : W) (p : Pinned) (boundary : nat) (s : Summary) : Prop :=
  itemCount (su_range s) = boundary ∧
  internalContextSourceDigest env sha256 (take boundary (pi_items p)) w = Ok (rangeSourceDigest (su_range s)) ∧
  item_id <$> head (take boundary (pi_items p)) = Some (firstItemId (su_range s)) ∧
  item_id <$> last (take boundary (pi_items p)) = Some (lastItemId (su_range s)).

Definition window_ok (w0 : W) (p : Pinned) (v : Window) : Prop :=
  (wi_boundary v <= length (pi_items p))%nat ∧ 0 <= wi_used v ∧ (wi_used v = 0 ∨ wi_used v <= maxTurns - 1) ∧
  match wi_summary v with None => wi_boundary v = 0%nat | Some s => stands_for_prefix w0 p (wi_boundary v) s end.

Lemma valid_summary_stands fuel p all seen s w :
  validSummary env input sha256 fuel p all seen s w = Ok true →
  (itemCount (su_range s) <= length (pi_items p))%nat ∧ stands_for_prefix w p (itemCount (su_range s)) s.
Proof.
  destruct fuel as [|fuel]; [done|]. cbn [validSummary]. destruct (includes _ _); [done|]. intros (producer & _ & H)%bind_Ok.
  destruct (_ || _) eqn:G in H; [done|]. repeat (apply orb_false_iff in G as [G ?]). bool_to_prop.
  apply bind_Ok in H as (d & Hd & H). destruct (negb (bool_decide (d = _))) eqn:Ed in H; [done|]. bool_to_prop. subst d.
  rewrite length_take in *. split; [lia|]. by split_and!.
Qed.

Lemma next_summary_stands p summary upto t w s :
  (0 < upto <= length (pi_items p))%nat → next_summary env input sha256 p summary upto t w = Ok s → stands_for_prefix w p upto s.
Proof.
  intros Hu. unfold next_summary. intros (d & Hd & (e & _ & (id & _ & [= <-])%bind_Ok)%bind_Ok)%bind_Ok.
  assert (length (take upto (pi_items p)) = upto) as El by (rewrite length_take; lia).
  assert (take upto (pi_items p) ≠ []) as Hne by (intros E; rewrite E in El; cbn in El; lia).
  split_and!; cbn; [done|done|..].
  - by destruct (take upto (pi_items p)).
  - destruct (last (take upto (pi_items p))) eqn:E; [done|]. by apply last_None in E.
Qed.

Lemma summarise_ok w0 p v w w' v' :
  pinned_at w0 p → window_ok w0 p v → summarise env input sha256 redact p v w = (w', Ok v') →
  window_ok w0 p v' ∧ (wi_boundary v < wi_boundary v')%nat.
Proof.
  intros Hp (Hb & Hu & Hul & _). unfold summarise.
  intros (w1 & u & _ & (w2 & request & [-> Hr]%sync_Ok & (w3 & m & _ & (w4 & next & [-> Hn]%sync_Ok & (w5 & stored & Hst & [= <- <-])%and_then_Ok)
    %and_then_Ok)%and_then_Ok)%and_then_Ok)%and_then_Ok. apply created_as_given in Hst. subst stored.
  destruct (_ - 1 <=? wi_used v) eqn:E1 in Hr; [done|]. destruct (length (pi_items p) <=? _)%nat eqn:E2 in Hr; [done|]. apply Nat.leb_gt in E2.
  apply bind_Ok in Hr as (b & _ & Hr). destruct b; [|done]. cbn [negb] in Hr. apply bind_Ok in Hr as (upto & Hup & Hr).
  case_bool_decide as Eu; [done|]. apply bind_Ok in Hr as (ms & _ & (ctx & _ & (u' & _ & [= <-])%bind_Ok)%bind_Ok). cbn [fst snd] in *.
  apply search_bounds in Hup as [Hup|Hup]; [done|].
  apply bind_Ok in Hn as ([] & Hc & Hn). destruct (usable_summary redact m); [|done]. cbn [negb] in Hn. apply bind_Ok in Hn as (s & Hs & Hn).
  destruct (_ <=? _) eqn:E3 in Hn; [done|]. apply bind_Ok in Hn as ([] & _ & [= <-]).
  apply next_summary_stands in Hs as (H1 & H2 & H3); [|lia]. destruct (current_sources _ _ _ Hp Hc) as [_ Hcur].
  bool_to_prop. split; [|cbn; lia]. split_and!; cbn; [lia|lia|right; unfold maxTurns; lia|].
  split_and!; [done|by rewrite <-Hcur|by destruct H3..].
Qed.

Lemma until_fits_ok w0 p fuel : ∀ v w w' o,
  pinned_at w0 p → window_ok w0 p v → (length (pi_items p) - wi_boundary v < fuel)%nat →
  until_fits env input sha256 redact fuel p v w = (w', Ok o) →
  ∃ v' ms, o = Some v' ∧ window_ok w0 p v' ∧ window_messages env input redact p v' w' = Ok ms ∧ fits input ms = Ok true.
Proof.
  induction fuel as [|fuel IH]; intros v w w' o Hp Hv Hf; [lia|]. cbn [until_fits].
  intros (w1 & b & [-> Hb]%sync_Ok & H)%and_then_Ok. apply bind_Ok in Hb as (ms & Hms & Hb). destruct b.
  - injection H as <- <-. by exists v, ms.
  - apply and_then_Ok in H as (w2 & v' & Hs & H). destruct (summarise_ok _ _ _ _ _ _ Hp Hv Hs) as [Hv' Hlt].
    destruct Hv' as (Hb' & Hrest). apply IH in H; [done..|lia].
Qed.

Lemma choose_summary_ok p w first :
  choose_summary env input sha256 redact p w = Ok first →
  window_ok w p {| wi_summary := first; wi_boundary := match first with Some s => itemCount (su_range s) | None => 0 end; wi_used := 0 |}.
Proof.
  unfold choose_summary. intros (window & _ & (whole & _ & H)%bind_Ok)%bind_Ok.
  assert (window_ok w p {| wi_summary := None; wi_boundary := 0; wi_used := 0 |}) as Hnone by (split_and!; cbn; [lia..|by left|done]).
  destruct whole; [by injection H as <-|]. destruct (js_sort _ _) as [|s l]; [by injection H as <-|].
  destruct (validSummary _ _ _ _ _ _ _ _ _) as [[]|] eqn:E; try done. injection H as <-.
  apply valid_summary_stands in E as [? ?]. split_and!; cbn; [done|lia|by left|done].
Qed.

(** C6. The window that a run is given fits its model and covers the whole history of the Thread as it
    is when the window is handed out: the Items after the boundary are in it as messages, and those
    before the boundary are replaced by one summary whose recorded range and source digest are those of
    exactly these Items, as they are now.  The preparation ends, and it leaves at least one model turn. *)
Theorem window_is_verified w w' o :
  prepareInternalAgentContext env input sha256 redact w = (w', Ok o) → 1 <= maxTurns →
  ∃ cx p boundary summary context, o = Some cx ∧
    as_read <$> pi_items p = as_read <$> internalContextItems env input w' ∧ (boundary <= length (pi_items p))%nat ∧
    contextMessages env redact (drop boundary (pi_items p)) w' = Ok context ∧
    cx_messages cx = ci_prefixMessages input ++ summary_part summary ++ context ++ ci_requiredMessages input ∧
    fits input (cx_messages cx) = Ok true ∧
    match summary with None => boundary = 0%nat | Some s => stands_for_prefix w' p boundary s end ∧
    1 <= rl_maxModelTurns (cx_limits cx) <= maxTurns.
Proof.
  unfold prepareInternalAgentContext. intros (w1 & _ & _ & (w2 & _ & _ & (w3 & p & [-> Hpin]%sync_Ok & (w4 & first & [-> Hf]%sync_Ok &
    (w5 & last & Hu & H)%and_then_Ok)%and_then_Ok)%and_then_Ok)%and_then_Ok)%and_then_Ok Hmax.
  assert (pinned_at w2 p) as Hp.
  { unfold pin_sources in Hpin. by apply bind_Ok in Hpin as (d & Hd & (_ & _ & (e & _ & [= <-])%bind_Ok)%bind_Ok). }
  apply choose_summary_ok in Hf. eapply until_fits_ok in Hu as (v & ms & -> & (Hb & Hu0 & Hul & Hs) & Hms & Hfit); [|done..|cbn; lia].
  apply sync_Ok in H as [-> H]. apply bind_Ok in H as ([] & Hc & (ms' & Hms' & [= <-])%bind_Ok).
  rewrite Hms in Hms'. injection Hms' as <-. destruct (current_sources _ _ _ Hp Hc) as [Hitems Hcur].
  pose proof Hms as Hm. unfold window_messages, assemble in Hm. apply bind_Ok in Hm as (context & Hctx & [= Em]).
  eexists _, p, (wi_boundary v), (wi_summary v), context. split_and!; [done|done|done|done|done|done| | |]; cbn; unfold maxTurns in *; [|lia|lia].
  destruct (wi_summary v) as [s|]; [|done]. destruct Hs as (H1 & H2 & H3). split_and!; [done|by rewrite Hcur|by destruct H3..].
Qed.
End Verified.

(** ** Retrieval of what a summary stands for *)

Section Retrieval.
Context {W : Type} (env : ContextEnvironment W) (input : ContextInput) (sha256 : jsstr → jsstr).

Lemma index_of_lookup items : ∀ i item,
  NoDup (item_id <$> items) → items !! i = Some item → index_of (item_id item) items = Some i.
Proof.
  induction items as [|x items IH]; intros [|i] item Hn Hi; cbn in Hi; try done; cbn [index_of].
  - injection Hi as ->. by rewrite bool_decide_eq_true_2.
  - rewrite fmap_cons in Hn. apply NoDup_cons in Hn as [Hx Hn]. rewrite bool_decide_eq_false_2.
    + by rewrite (IH i item).
    + intros E. apply Hx. rewrite E. apply list_elem_of_fmap_2. by eapply list_elem_of_lookup_2.
Qed.

Lemma select_prefix items b f l :
  NoDup (item_id <$> items) → (b <= length items)%nat →
  item_id <$> head (take b items) = Some f → item_id <$> last (take b items) = Some l →
  select f l items = Some (take b items).
Proof.
  intros Hn Hb Hf Hl. destruct b as [|b]; [done|].
  destruct (lookup_lt_is_Some_2 items b) as [y Hy]; [lia|].
  assert (∃ x, items !! 0%nat = Some x ∧ item_id x = f) as (x & Hx & <-).
  { destruct items as [|x items]; [done|]. cbn in Hf. injection Hf as <-. by exists x. }
  assert (last (take (S b) items) = Some y) as E.
  { rewrite (take_S_r _ _ _ Hy). apply last_snoc. }
  rewrite E in Hl. injection Hl as <-. unfold select. rewrite (index_of_lookup _ _ _ Hn Hx). cbn [mbind option_bind].
  rewrite (index_of_lookup _ _ _ Hn Hy). cbn [mbind option_bind]. by rewrite drop_0.
Qed.

(** The range that a summary records leads back to exactly the Items it stands for, as long as these
    are the history of the Thread and identifiers of Items are not reused. *)
Theorem summarised_range_reads_back w p boundary s :
  pi_items p = internalContextItems env input w → NoDup (item_id <$> pi_items p) → (boundary <= length (pi_items p))%nat →
  stands_for_prefix env sha256 w p boundary s →
  internalContextRange env input sha256 (ci_threadId input) (firstItemId (su_range s)) (lastItemId (su_range s))
    (rangeSourceDigest (su_range s)) None w = Ok (take boundary (pi_items p), Rolling).
Proof.
  intros Hi Hn Hb (_ & Hd & Hf & Hl). unfold internalContextRange. change (thread_items env input (ci_threadId input) w) with (internalContextItems env input w).
  rewrite <-Hi, (select_prefix _ _ _ _ Hn Hb Hf Hl), Hd. cbn [mbind result_bind]. by rewrite bool_decide_eq_true_2.
Qed.
End Retrieval.

(** ** A history that has to be summarised *)

Module ContextDemo.
Definition item (id : string) : jsval :=
  obj [("id", JStr (js id)); ("turnId", JStr (js "t1")); ("type", JStr (js "user-message")); ("status", JStr (js "completed"));
       ("text", JStr (replicate 500 (cu "a")))].
Definition items : list jsval := [item "it_01890f3e-0000-7000-8000-000000000001"; item "it_01890f3e-0000-7000-8000-000000000002"].
Definition turn (id role : string) (l : list jsval) : Turn := {|
  tu_id := js id; tu_startedAt := None; tu_status := JStr (js "completed"); tu_error := JUndef; tu_agentSessionId := None;
  tu_agentId := Some (js role); tu_items := l; tu_internalExecution := None |}.
Definition past : Turn := turn "t1" "assistant" items.
Definition present : Turn := turn "t2" "assistant" [].

(** The digest of the texts of this history is short. *)
Definition sources : jsstr :=
  text (obj [("version", JNum (number_of_int 1));
             ("sources", JArr ((λ i, obj [("item", i); ("turnOutcome", obj [("status", JStr (js "completed")); ("error", JUndef)])]) <$> items))]).
Definition sha256 (s : jsstr) : jsstr := if bool_decide (s = sources) then js "d" else js "x" ++ s.

(** The world is the list of the summaries created. *)
Definition env : ContextEnvironment (list Summary) := {|
  listThreadTurns := λ _ _, [past; present];
  getTurnById := λ id _, if bool_decide (id = js "t1") then Some past else if bool_decide (id = js "t2") then Some present else None;
  listSummaries := λ w, w;
  updateTurn := λ _ _ w, (w, Ok tt);
  createSummary := λ s w, (w ++ [s], Ok s);
  currentAuthority := λ _, true;
  readEvidence := λ _ _, Ok (js "e");
  askProvider := λ _ w, {| invoked := w; settled := w; decided := Some (Ok (text_message "assistant" (js "Two messages."))) |};
  callerAborted := λ _, false;
  deadlineAborted := λ _, false;
  now := λ _, 0;
  timestamp := λ _, js "2026-01-01T00:00:00.000Z";
|}.
Definition input : ContextInput := {|
  ci_turn := present; ci_owner := obj [("kind", JStr (js "workspace"))]; ci_threadId := js "th"; ci_systemPrompt := js "Answer.";
  ci_environmentFacts := JUndef; ci_tools := []; ci_model := JNull; ci_logicalModelId := js "m"; ci_profileId := None;
  ci_context := Some (number_of_int 4750); ci_output := None;
  ci_requiredMessages := [text_message "user" (replicate 900 (cu "b"))]; ci_prefixMessages := [];
  ci_limits := {| rl_maxModelTurns := 3; rl_maxToolCalls := 1; rl_deadlineMs := 1000 |} |}.

Definition prepared_context : list Summary * result ContextError (option InternalAgentContext) :=
  prepareInternalAgentContext env input sha256 (λ s, s) [].
Definition final_world : list Summary := fst prepared_context.
Definition final_result : result ContextError (option InternalAgentContext) := snd prepared_context.
Definition message_count (r : result ContextError (option InternalAgentContext)) : option nat :=
  match r with Ok (Some cx) => Some (length (cx_messages cx)) | _ => None end.

(** One summary replaces both Items. *)
Example one_summary :
  length final_world = 1%nat ∧ message_count final_result = Some 2%nat.
Proof. vm_compute. done. Qed.

Lemma sha256_injective a b : sha256 a = sha256 b → a = b.
Proof. unfold sha256. repeat case_bool_decide; [congruence|done|done|]. by intros ?%app_inv_head. Qed.

Lemma history w : internalContextItems env input w = items.
Proof. by vm_compute. Qed.

Lemma sources_stored w w' i j :
  i ∈ internalContextItems env input w' → source_json env w i = Ok j → wf_value j ∧ ∃ t, json_stringify j = Some t.
Proof.
  rewrite history. unfold items. rewrite !elem_of_cons, elem_of_nil.
  assert (∀ id, wf_valueb (item id) = true → source_json env w (item id) = Ok j →
    j = obj [("item", item id); ("turnOutcome", obj [("status", JStr (js "completed")); ("error", JUndef)])]) as H.
  { intros id _ Hj. apply source_json_record in Hj as (t & Ht & ->). change (item_turn (item id)) with (js "t1") in Ht.
    apply Ok_inj in Ht as <-. reflexivity. }
  assert (∀ id, is_Some (json_stringify (obj [("item", item id); ("turnOutcome", obj [("status", JStr (js "completed")); ("error", JUndef)])]))) as Hs
    by (intros id; by eexists).
  intros [-> |[-> |[]]] Hj; apply H in Hj as ->; try (by vm_compute); (split; [apply wf_valueb_sound; by vm_compute|apply Hs]).
Qed.

Definition value_of (r : result ContextError (option InternalAgentContext)) : option InternalAgentContext :=
  match r with Ok o => o | Err _ => None end.
Definition outcome : option InternalAgentContext := value_of final_result.
Lemma preparation : prepareInternalAgentContext env input sha256 (λ s, s) [] = (final_world, Ok outcome).
Proof. by vm_compute. Qed.

Lemma window_is_verified_witness :
  ∃ cx boundary summary, outcome = Some cx ∧ fits input (cx_messages cx) = Ok true ∧
    match summary with
    | None => boundary = 0%nat
    | Some s => itemCount (su_range s) = boundary
    end.
Proof.
  destruct (window_is_verified env input sha256 (λ s, s) sha256_injective sources_stored
    ltac:(intros ???? [= _ <-]; reflexivity) [] final_world outcome preparation)
    as (cx & p & boundary & summary & context & H1 & _ & _ & _ & _ & H5 & H6 & _); [by apply Z.leb_le; vm_compute|].
  exists cx, boundary, summary. split; [exact H1|]. split; [exact H5|]. destruct summary; [exact (proj1 H6)|exact H6].
Defined.

Definition pinned : Pinned :=
  {| pi_startedAt := 0; pi_items := items; pi_source := []; pi_evidence := js "e"; pi_environment := [] |}.

Lemma summary_batch_is_largest_witness :
  ∃ upto, batch_end env input (λ s, s) pinned None 0 [] = Ok upto ∧ (0 <= upto <= 2)%nat.
Proof.
  destruct (summary_batch_is_largest env input (λ s, s) pinned None 0 [] true) as (upto & H1 & H2 & _).
  - unfold items_identified. apply (bool_decide_unpack _). by vm_compute.
  - intros c Hc. assert (c = 0 ∨ c = 1 ∨ c = 2)%nat as [-> |[-> | ->]] by (cbn in Hc; lia); by eexists; vm_compute.
  - intros i Hi. exists past. unfold pinned, items in Hi. cbn [pi_items] in Hi. rewrite !elem_of_cons, elem_of_nil in Hi.
    destruct Hi as [-> |[-> |[]]]; by vm_compute.
  - by vm_compute.
  - apply Nat.le_0_l.
  - exists upto. split; [exact H1|exact H2].
Defined.

(** The summary of the whole history. *)
Definition whole : Summary := {|
  su_id := []; su_owner := JNull; su_threadId := []; su_turnId := []; su_strategy := []; su_logicalModelId := []; su_text := [];
  su_environmentDigest := []; su_previous := None; su_createdAt := [];
  su_range := {| firstItemId := js "it_01890f3e-0000-7000-8000-000000000001"; lastItemId := js "it_01890f3e-0000-7000-8000-000000000002";
                 itemCount := 2; rangeSourceDigest := js "sha256:d"; evidenceDigest := [] |} |}.

Lemma summarised_range_reads_back_witness :
  internalContextRange env input sha256 (ci_threadId input) (firstItemId (su_range whole)) (lastItemId (su_range whole))
    (rangeSourceDigest (su_range whole)) None [] = Ok (take 2 (pi_items pinned), Rolling).
Proof.
  apply (summarised_range_reads_back env input sha256 [] pinned 2 whole).
  - by rewrite history.
  - apply (bool_decide_unpack _). by vm_compute.
  - apply Nat.le_refl.
  - unfold stands_for_prefix. repeat split; by vm_compute.
Defined.
End ContextDemo.
