(* ===== verification/NativeDdl.v ===== *)
(** * The native tables of light apps (apps/nanocore/src/generative-kernel/native.ts)

    The statements that create the tables and indexes of an admitted schema and that bring the tables of
    one schema to the next.  The code builds texts, and it selects the statements of one collection by
    searching these texts; the definitions here build the same texts and search them the same way.

    [Ddl] is the syntax of the statements that occur and [ddl_text] their text.  The theorems show that
    the texts the code builds are the texts of the intended statements, as long as no value of a select
    field contains a quotation mark; an example shows what happens when one does. *)

From Stdlib Require Import SpecFloat.
From S2P Require Import Prelude JsValue CanonicalJson EntityId JsonText LightAppKernel SchemaAdmission FieldValues RecordStore.

Local Open Scope string_scope.
Local Open Scope list_scope.
Local Open Scope Z_scope.

(** ** Texts *)

Definition sqliteTypeForField (field : AdmittedField) : jsstr :=
  match fd_type field with
  | FBool => js "INTEGER"
  | FNumber => match fd_options field ≫= opt_onlyInt with Some true => js "INTEGER" | _ => js "REAL" end
  | _ => js "TEXT"
  end.

(** [`${n}`] of a number of the options, which are finite. *)
Definition number_literal (f : spec_float) : jsstr := default (js "NaN") (number_text f).

(** [`'${value.replaceAll("'", "''")}'`] *)
Definition APOSTROPHE : Z := 39.
Definition sql_literal (value : jsstr) : jsstr :=
  [APOSTROPHE] ++ replace_all APOSTROPHE [APOSTROPHE; APOSTROPHE] value ++ [APOSTROPHE].

Definition number_parts (options : FieldOptions) (column : jsstr) : list jsstr :=
  [match opt_onlyInt options with
   | Some true => js "typeof(" ++ column ++ js ") = 'integer'"
   | _ => js "typeof(" ++ column ++ js ") IN ('integer', 'real')"
   end]
  ++ match opt_min options with Some min => [column ++ js " >= " ++ number_literal min] | None => [] end
  ++ match opt_max options with Some max => [column ++ js " <= " ++ number_literal max] | None => [] end.

Definition fieldCheckSql (field : AdmittedField) (column : jsstr) : option jsstr :=
  match fd_type field with
  | FBool => Some (column ++ js " IS NULL OR " ++ column ++ js " IN (0, 1)")
  | FNumber =>
    Some (column ++ js " IS NULL OR (" ++ join (js " AND ") (number_parts (default no_options (fd_options field)) column) ++ js ")")
  | FSelect =>
    match default [] (fd_options field ≫= opt_values) with
    | [] => None
    | values => Some (column ++ js " IS NULL OR " ++ column ++ js " IN (" ++ join (js ", ") (sql_literal <$> values) ++ js ")")
    end
  | FText =>
    max ← fd_options field ≫= opt_max_length;
    Some (column ++ js " IS NULL OR length(" ++ column ++ js ") <= " ++ int_text max)
  | FDate | FRelation => None
  end.

Definition check_clause (check : option jsstr) : jsstr :=
  match check with Some c => js " CHECK (" ++ c ++ js ")" | None => [] end.

Definition system_columns : list jsstr := js <$> [
  "id TEXT PRIMARY KEY NOT NULL";
  "revision INTEGER NOT NULL CHECK (typeof(revision) = 'integer' AND revision > 0)";
  "created TEXT NOT NULL";
  "updated TEXT NOT NULL";
  "creator_json TEXT NOT NULL";
  "last_mutator_json TEXT NOT NULL";
  "create_request_id TEXT NOT NULL";
  "last_request_id TEXT NOT NULL";
  "write_schema_revision INTEGER NOT NULL CHECK (typeof(write_schema_revision) = 'integer' AND write_schema_revision > 0)"].

Definition system_names : list jsstr := js <$> [
  "id"; "revision"; "created"; "updated"; "creator_json"; "last_mutator_json"; "create_request_id"; "last_request_id";
  "write_schema_revision"].

Definition table_sql (c : AdmittedCollection) : jsstr := quoteIdent (collectionTableName (cl_id c)).
Definition column_sql (f : AdmittedField) : jsstr := quoteIdent (fieldColumnName (fd_id f)).
Definition relation_target (f : AdmittedField) : option jsstr :=
  match fd_type f with FRelation => fd_options f ≫= opt_collection | _ => None end.

Definition field_column (f : AdmittedField) : jsstr :=
  let column := column_sql f in
  RecordStore.trim (column ++ js " " ++ sqliteTypeForField f ++ js " " ++ (if fd_required f then js "NOT NULL" else []))
  ++ check_clause (fieldCheckSql f column).

(** A relation to a collection of the schema is a foreign key. *)
Definition foreign_key (collectionIds : list jsstr) (f : AdmittedField) : list jsstr :=
  match relation_target f with
  | Some target =>
    if includes collectionIds target
    then [js "FOREIGN KEY (" ++ column_sql f ++ js ") REFERENCES " ++ quoteIdent (collectionTableName target) ++ js "(id) ON DELETE RESTRICT"]
    else []
  | None => []
  end.

Definition index_name (c : AdmittedCollection) (number : nat) : jsstr :=
  js "i_" ++ replace_all (cu "-") [] (cl_id c) ++ js "_" ++ int_text (Z.of_nat number).

Definition create_index (c : AdmittedCollection) (number : nat) (index : AdmittedIndex) : jsstr :=
  js "CREATE " ++ (if ix_unique index then js "UNIQUE " else []) ++ js "INDEX " ++ quoteIdent (index_name c number) ++ js " ON " ++ table_sql c
  ++ js " (" ++ join (js ", ") ((λ f, quoteIdent (fieldColumnName f)) <$> ix_fields index) ++ js ")".

Definition create_collection (collectionIds : list jsstr) (c : AdmittedCollection) : list jsstr :=
  (js "CREATE TABLE " ++ table_sql c ++ js " ("
   ++ join (js ", ") (system_columns ++ (field_column <$> cl_fields c) ++ mjoin (foreign_key collectionIds <$> cl_fields c)) ++ js ")")
  :: imap (create_index c) (cl_indexes c).

Definition createSchemaDdl (schema : AdmittedSchema) : list jsstr :=
  mjoin (create_collection (cl_id <$> sm_collections schema) <$> sm_collections schema).

(** [s.replace(p, r)]: the first occurrence; [r] has no dollar sign. *)
Fixpoint replace_first (p r s : jsstr) : jsstr :=
  if starts_with p s then r ++ drop (length p) s
  else match s with [] => [] | c :: s => c :: replace_first p r s end.

(** The statements of [createSchemaDdl(next)] that are selected for a collection. *)
Definition selected_ddl (next : AdmittedSchema) (c : AdmittedCollection) : list jsstr :=
  filterb (λ st, starts_with (js "CREATE TABLE " ++ table_sql c ++ js " ") st || contains (js " ON " ++ table_sql c ++ js " ") st)
    (createSchemaDdl next).

Definition temporary_table (c : AdmittedCollection) : jsstr := collectionTableName (cl_id c) ++ js "_migration".

(** The columns that are copied by a rebuild. *)
Definition kept_fields (prior c : AdmittedCollection) : list AdmittedField :=
  filterb (λ f, existsb (λ old, bool_decide (fd_id old = fd_id f)) (cl_fields prior)) (cl_fields c).
Definition copied_columns (prior c : AdmittedCollection) : list jsstr :=
  system_names ++ ((λ f, fieldColumnName (fd_id f)) <$> kept_fields prior c).

Definition removed_fields (prior c : AdmittedCollection) : list AdmittedField :=
  filterb (λ f, negb (existsb (λ g, bool_decide (fd_id g = fd_id f)) (cl_fields c))) (cl_fields prior).
Definition added_fields (prior c : AdmittedCollection) : list AdmittedField :=
  filterb (λ f, negb (includes (fd_id <$> cl_fields prior) (fd_id f))) (cl_fields c).

Definition rebuild_table (next : AdmittedSchema) (prior c : AdmittedCollection) : list jsstr :=
  let table := table_sql c in
  let temporary := quoteIdent (temporary_table c) in
  let ddl := selected_ddl next c in
  let columns := join (js ", ") (quoteIdent <$> copied_columns prior c) in
  [js "PRAGMA defer_foreign_keys = ON";
   replace_first (js "CREATE TABLE " ++ table ++ js " ") (js "CREATE TABLE " ++ temporary ++ js " ") (default [] (head ddl));
   js "INSERT INTO " ++ temporary ++ js " (" ++ columns ++ js ") SELECT " ++ columns ++ js " FROM " ++ table;
   js "DROP TABLE " ++ table;
   js "ALTER TABLE " ++ temporary ++ js " RENAME TO " ++ table] ++ tail ddl.

Definition reference_clause (f : AdmittedField) : jsstr :=
  match fd_type f with
  | FRelation => js " REFERENCES " ++ quoteIdent (collectionTableName (default [] (relation_target f))) ++ js "(id) ON DELETE RESTRICT"
  | _ => []
  end.

Definition add_column (c : AdmittedCollection) (f : AdmittedField) : jsstr :=
  js "ALTER TABLE " ++ table_sql c ++ js " ADD COLUMN " ++ column_sql f ++ js " " ++ sqliteTypeForField f
  ++ check_clause (fieldCheckSql f (column_sql f)) ++ reference_clause f.

Definition migrate_collection (previous next : AdmittedSchema) (c : AdmittedCollection) : list jsstr :=
  match find (λ p, bool_decide (cl_id p = cl_id c)) (sm_collections previous) with
  | None => selected_ddl next c
  | Some prior =>
    match removed_fields prior c with
    | _ :: _ => rebuild_table next prior c
    | [] => add_column c <$> added_fields prior c
    end
  end.

Definition additiveSchemaDdl (previous next : AdmittedSchema) : list jsstr :=
  mjoin (migrate_collection previous next <$> sm_collections next).

(** ** Statements *)

(** The statements that occur.  A column has a name and the rest of its declaration. *)
Inductive Ddl :=
| CreateTable (table : jsstr) (columns : list (jsstr * jsstr)) (constraints : list jsstr)
| CreateIndex (unique : bool) (name table : jsstr) (columns : list jsstr)
| DeferForeignKeys
| CopyRows (target source : jsstr) (columns : list jsstr)
| DropTable (table : jsstr)
| RenameTable (from to : jsstr)
| AddColumn (table column declaration : jsstr).

#[export] Instance Ddl_eq_dec : EqDecision Ddl.
Proof. solve_decision. Defined.

Definition ddl_text (d : Ddl) : jsstr :=
  match d with
  | CreateTable table columns constraints =>
    js "CREATE TABLE " ++ quoteIdent table ++ js " ("
    ++ join (js ", ") (system_columns ++ ((λ c, quoteIdent c.1 ++ js " " ++ c.2) <$> columns) ++ constraints) ++ js ")"
  | CreateIndex unique name table columns =>
    js "CREATE " ++ (if unique then js "UNIQUE " else []) ++ js "INDEX " ++ quoteIdent name ++ js " ON " ++ quoteIdent table
    ++ js " (" ++ join (js ", ") (quoteIdent <$> columns) ++ js ")"
  | DeferForeignKeys => js "PRAGMA defer_foreign_keys = ON"
  | CopyRows target source columns =>
    let columns := join (js ", ") (quoteIdent <$> columns) in
    js "INSERT INTO " ++ quoteIdent target ++ js " (" ++ columns ++ js ") SELECT " ++ columns ++ js " FROM " ++ quoteIdent source
  | DropTable table => js "DROP TABLE " ++ quoteIdent table
  | RenameTable from to => js "ALTER TABLE " ++ quoteIdent from ++ js " RENAME TO " ++ quoteIdent to
  | AddColumn table column declaration => js "ALTER TABLE " ++ quoteIdent table ++ js " ADD COLUMN " ++ quoteIdent column ++ js " " ++ declaration
  end.

(** The intended statements. *)
Definition declared_column (f : AdmittedField) : jsstr * jsstr :=
  (fieldColumnName (fd_id f),
   sqliteTypeForField f ++ (if fd_required f then js " NOT NULL" else []) ++ check_clause (fieldCheckSql f (column_sql f))).

Definition table_statement (collectionIds : list jsstr) (table : jsstr) (c : AdmittedCollection) : Ddl :=
  CreateTable table (declared_column <$> cl_fields c) (mjoin (foreign_key collectionIds <$> cl_fields c)).
Definition index_statement (c : AdmittedCollection) (number : nat) (index : AdmittedIndex) : Ddl :=
  CreateIndex (ix_unique index) (index_name c number) (collectionTableName (cl_id c)) (fieldColumnName <$> ix_fields index).
Definition collection_statements (collectionIds : list jsstr) (c : AdmittedCollection) : list Ddl :=
  table_statement collectionIds (collectionTableName (cl_id c)) c :: imap (index_statement c) (cl_indexes c).

Definition migration_statements (previous next : AdmittedSchema) (c : AdmittedCollection) : list Ddl :=
  let ids := cl_id <$> sm_collections next in
  let table := collectionTableName (cl_id c) in
  match find (λ p, bool_decide (cl_id p = cl_id c)) (sm_collections previous) with
  | None => collection_statements ids c
  | Some prior =>
    match removed_fields prior c with
    | _ :: _ =>
      [DeferForeignKeys; table_statement ids (temporary_table c) c; CopyRows (temporary_table c) table (copied_columns prior c);
       DropTable table; RenameTable (temporary_table c) table] ++ imap (index_statement c) (cl_indexes c)
    | [] => (λ f, AddColumn table (fieldColumnName (fd_id f))
                    (sqliteTypeForField f ++ check_clause (fieldCheckSql f (column_sql f)) ++ reference_clause f)) <$> added_fields prior c
    end
  end.

(** Whether a migration uses the selected statements of a collection. *)
Definition prior_used (previous : AdmittedSchema) (c : AdmittedCollection) : bool :=
  match find (λ p, bool_decide (cl_id p = cl_id c)) (sm_collections previous) with
  | None => true
  | Some prior => match removed_fields prior c with _ :: _ => true | [] => false end
  end.

(** All statements of a creation and of a migration. *)
Definition creation (s : AdmittedSchema) : list Ddl := mjoin (collection_statements (cl_id <$> sm_collections s) <$> sm_collections s).
Definition migration (previous next : AdmittedSchema) : list Ddl := mjoin (migration_statements previous next <$> sm_collections next).

(** ** Searching the texts

    The searched pattern has an opening quotation mark after the word [ON].  A text is calm when it has no
    such place, wherever it stands after a text that does not end in [ON]. *)

Definition ON : jsstr := js " ON ".

Definition ends_ok (pre : jsstr) : Prop := ¬ ON `suffix_of` pre.
Definition on_free (pre s : jsstr) : Prop := ∀ a b, s = a ++ QUOTE :: b → ends_ok (pre ++ a).
Definition calm (s : jsstr) : Prop := ∀ pre, ends_ok pre → on_free pre s ∧ ends_ok (pre ++ s).

(** Letters, digits and the signs of names and numbers. *)
Definition word (s : jsstr) : Prop := Forall (λ c, 34 < c) s.

Lemma on_free_app pre x y : on_free pre x → on_free (pre ++ x) y → on_free pre (x ++ y).
Proof.
  intros Hx Hy a b E. apply app_eq_inv in E as [(k & Ex & E)|(k & -> & E)].
  - destruct k as [|c k]; cbn in E.
    + rewrite app_nil_r in Ex. subst a. specialize (Hy [] b (eq_sym E)). by rewrite app_nil_r in Hy.
    + injection E as <- _. by apply (Hx a k).
  - rewrite (assoc_L app). by apply (Hy k b).
Qed.

Lemma calm_app x y : calm x → calm y → calm (x ++ y).
Proof.
  intros Hx Hy pre Hp. destruct (Hx pre Hp) as [H1 H2]. destruct (Hy _ H2) as [H3 H4].
  split; [by apply on_free_app|]. by rewrite (assoc_L app).
Qed.

Lemma calm_nil : calm [].
Proof. intros pre Hp. split; [|by rewrite app_nil_r]. intros a b E. by destruct a. Qed.

Lemma not_suffix_snoc (p s : jsstr) x y : x ≠ y → ¬ (p ++ [x]) `suffix_of` (s ++ [y]).
Proof. intros Hne [k E]. rewrite (assoc_L app) in E. apply app_inj_tail in E as [_ E]. congruence. Qed.

Lemma ends_ok_last s c : c ≠ 32 → ends_ok (s ++ [c]).
Proof. intros Hc. by apply (not_suffix_snoc (js " ON") s 32 c). Qed.

Lemma ends_ok_last_two s b c : b ≠ 78 → ends_ok (s ++ [b; c]).
Proof.
  intros Hb. destruct (decide (c = 32)) as [->|Hc].
  - intros [k E]. change ON with (js " ON" ++ [32]) in E. change [b; 32] with ([b] ++ [32]) in E. rewrite !(assoc_L app) in E.
    apply app_inj_tail in E as [E _]. revert E. change (js " ON") with (js " O" ++ [78]). rewrite (assoc_L app).
    intros [_ E]%app_inj_tail. congruence.
  - change [b; c] with ([b] ++ [c]). rewrite (assoc_L app). by apply ends_ok_last.
Qed.

(** A literal of the statements. *)
Definition calm_literal (s : jsstr) : bool :=
  forallb (λ c, negb (c =? QUOTE)) s &&
  match rev s with
  | [] => true
  | [c] => negb (c =? 32)
  | c :: b :: _ => negb ((c =? 32) && (b =? 78))
  end.

Lemma on_free_no_quote pre s : forallb (λ c, negb (c =? QUOTE)) s = true → on_free pre s.
Proof.
  intros H a b ->. rewrite forallb_app in H. cbn in H. by apply andb_true_iff in H as [_ H].
Qed.

Lemma calm_lit s : calm_literal s = true → calm s.
Proof.
  unfold calm_literal. intros [Hq H]%andb_true_iff pre Hp. split; [by apply on_free_no_quote|].
  rewrite <-(rev_involutive s). destruct (rev s) as [|c [|b r]]; cbn [rev app].
  - by rewrite app_nil_r.
  - apply ends_ok_last. apply negb_true_iff, Z.eqb_neq in H. done.
  - apply negb_true_iff, andb_false_iff in H. rewrite <-(assoc_L app), (assoc_L app). cbn [app].
    destruct H as [H|H]; apply Z.eqb_neq in H; [|by apply ends_ok_last_two].
    change [b; c] with ([b] ++ [c]). rewrite (assoc_L app). by apply ends_ok_last.
Qed.

Lemma word_no_quote s : word s → forallb (λ c, negb (c =? QUOTE)) s = true.
Proof.
  unfold word. rewrite Forall_forall. intros H. apply forallb_elem. intros c Hc. specialize (H c Hc).
  apply negb_true_iff, Z.eqb_neq. unfold QUOTE. lia.
Qed.

Lemma calm_word s : word s → calm s.
Proof.
  intros Hw. apply calm_lit. unfold calm_literal. rewrite word_no_quote by done. cbn [andb].
  apply Forall_rev in Hw. destruct (rev s) as [|c [|b r]]; [done|..]; apply Forall_cons in Hw as [Hc _];
    rewrite (proj2 (Z.eqb_neq c 32)) by lia; done.
Qed.

Lemma quoteIdent_word s : word s → quoteIdent s = [QUOTE] ++ s ++ [QUOTE].
Proof.
  intros Hw. unfold quoteIdent. do 2 f_equal. unfold replace_all. induction Hw as [|c s Hc _ IH]; [done|]. cbv beta in Hc. cbn [flat_map].
  rewrite (proj2 (Z.eqb_neq c QUOTE)) by (unfold QUOTE; lia). by rewrite IH.
Qed.

Lemma ends_ok_word pre s : s ≠ [] → word s → ends_ok (pre ++ s).
Proof.
  intros Hne Hw. destruct (exists_last Hne) as (s' & c & ->). rewrite (assoc_L app). apply ends_ok_last.
  apply Forall_app in Hw as [_ Hc]. apply Forall_cons in Hc as [Hc _]. cbv beta in Hc. lia.
Qed.

Lemma calm_quoted s : s ≠ [] → word s → calm (quoteIdent s).
Proof.
  intros Hne Hw pre Hp. rewrite (quoteIdent_word _ Hw). split; [|rewrite !(assoc_L app); by apply ends_ok_last].
  intros a b E. cbn in E. destruct a as [|x a]; [by rewrite app_nil_r|]. cbn in E. injection E as <- E.
  destruct (app_eq_inv _ _ _ _ E) as [(k & -> & Ek)|(k & -> & Ek)].
  - destruct k as [|y k]; [|cbn in Ek; injection Ek as <- ->].
    + rewrite app_nil_r in *. change (pre ++ QUOTE :: a) with (pre ++ ([QUOTE] ++ a)). rewrite (assoc_L app). by apply ends_ok_word.
    + apply Forall_app in Hw as [_ Hk]. apply Forall_cons in Hk as [Hk _]. cbv beta in Hk. unfold QUOTE in Hk. lia.
  - destruct k as [|y k]; [|by destruct k]. rewrite app_nil_r. change (pre ++ QUOTE :: s) with (pre ++ ([QUOTE] ++ s)).
    rewrite (assoc_L app). by apply ends_ok_word.
Qed.

Lemma calm_join sep parts : calm sep → Forall calm parts → calm (join sep parts).
Proof.
  intros Hs. destruct 1 as [|p parts Hp H]; [apply calm_nil|]. cbn. apply calm_app; [done|].
  induction H as [|q parts Hq _ IH]; [apply calm_nil|]. cbn. apply calm_app; [by apply calm_app|done].
Qed.

(** *** Names of an admitted schema *)

(** The identities of a schema are those of the protocol. *)
Record identified (s : AdmittedSchema) : Prop := {
  id_collections : ∀ c, c ∈ sm_collections s → isEntityId "col" (JStr (cl_id c)) = true;
  id_fields : ∀ c f, c ∈ sm_collections s → f ∈ cl_fields c → isEntityId "fld" (JStr (fd_id f)) = true;
  id_indexes : ∀ c i f, c ∈ sm_collections s → i ∈ cl_indexes c → f ∈ ix_fields i → isEntityId "fld" (JStr f) = true;
}.

(** Identities are those of the protocol, and values of select fields have no quotation mark. *)
Record searchable (s : AdmittedSchema) : Prop := {
  se_collections : ∀ c, c ∈ sm_collections s → isEntityId "col" (JStr (cl_id c)) = true;
  se_fields : ∀ c f, c ∈ sm_collections s → f ∈ cl_fields c → isEntityId "fld" (JStr (fd_id f)) = true;
  se_indexes : ∀ c i f, c ∈ sm_collections s → i ∈ cl_indexes c → f ∈ ix_fields i → isEntityId "fld" (JStr f) = true;
  se_values : ∀ c f v, c ∈ sm_collections s → f ∈ cl_fields c → v ∈ default [] (fd_options f ≫= opt_values) → QUOTE ∉ v;
}.

Lemma word_app a b : word a → word b → word (a ++ b).
Proof. intros. by apply Forall_app. Qed.

Lemma word_strip s : word s → word (replace_all (cu "-") [] s).
Proof.
  unfold word, replace_all. induction 1 as [|c s Hc _ IH]; [constructor|]. cbn [flat_map]. apply word_app; [|done].
  destruct (_ =? _); by repeat constructor.
Qed.

Lemma matches_word ps s : Forall (λ p, ∀ c, p c = true → 34 < c) ps → matches_classes ps s = true → word s.
Proof.
  intros Hp. revert s. induction Hp as [|p ps Hq _ IH]; intros [|c s]; cbn [matches_classes]; try done; [constructor|].
  intros [Hc H]%andb_true_iff. constructor; [by apply Hq|by apply IH].
Qed.

Lemma entity_word kind id : schema_kind kind → isEntityId kind (JStr id) = true → word id.
Proof.
  intros Hk H%entity_classes; [|done]. eapply matches_word; [|exact H].
  assert (∀ k, 34 < k → ∀ c, lit k c = true → 34 < c) as Hl by (by intros k Hk' c ->%Z.eqb_eq).
  assert (∀ c, is_hex c = true → 34 < c) as Hh.
  { intros c. unfold is_hex, is_digit, in_range. intros [Hc|Hc]%orb_true_iff; bool_to_prop; lia. }
  assert (∀ c, is_variant c = true → 34 < c) as Hv.
  { intros c Hc. unfold is_variant, includes in Hc. apply bool_decide_eq_true_1 in Hc. change (js "89ab") with [56; 57; 97; 98] in Hc.
    rewrite !elem_of_cons, elem_of_nil in Hc. lia. }
  apply Forall_app. split.
  - apply Forall_fmap. destruct Hk as [-> | ->]; repeat constructor; cbn; apply Hl; done.
  - unfold uuid_classes. repeat (apply Forall_app; split); try (apply Forall_replicate; done);
      apply Forall_singleton; try done; by apply Hl.
Qed.
Lemma table_word id : isEntityId "col" (JStr id) = true → word (collectionTableName id).
Proof. intros H%entity_word; [|by left]. apply word_app; [by repeat constructor|by apply word_strip]. Qed.
Lemma column_word id : isEntityId "fld" (JStr id) = true → word (fieldColumnName id).
Proof. intros H%entity_word; [|by right]. apply word_app; [by repeat constructor|by apply word_strip]. Qed.

Lemma int_text_word z : word (int_text z).
Proof.
  unfold int_text. apply word_app; [destruct (z <? 0); by repeat constructor|]. generalize (Z.abs z), (Z.to_nat (Z.log2 (Z.abs z)) + 1)%nat.
  intros y n. revert y. induction n as [|n IH]; intros y; cbn [int_digits]; [constructor|]. apply word_app; [destruct (y <? 10); [constructor|apply IH]|].
  constructor; [|constructor]. pose proof (Z.mod_pos_bound y 10). lia.
Qed.

Lemma number_literal_word f : word (number_literal f).
Proof.
  unfold number_literal. destruct (number_text f) as [t|] eqn:E; [|by repeat constructor]. cbn. apply number_text_plain in E as [E _].
  apply Forall_forall. intros c Hc. rewrite forallb_elem in E. specialize (E c Hc). unfold is_plain_char, in_range in E.
  apply orb_true_iff in E as [E|E]; bool_to_prop; lia.
Qed.

Lemma index_name_word c n : isEntityId "col" (JStr (cl_id c)) = true → word (index_name c n).
Proof.
  intros H%entity_word; [|by left]. unfold index_name. apply word_app; [by repeat constructor|]. apply word_app; [by apply word_strip|].
  apply word_app; [by repeat constructor|apply int_text_word].
Qed.

(** *** Statements are calm *)

Lemma calm_value v : QUOTE ∉ v → calm (sql_literal v).
Proof.
  intros Hv pre Hp. unfold sql_literal. split; [|rewrite !(assoc_L app); by apply ends_ok_last].
  apply on_free_no_quote. rewrite !forallb_app. cbn. apply andb_true_iff. split; [|done].
  apply forallb_elem. intros c Hc. unfold replace_all in Hc. apply list_elem_of_In, in_flat_map in Hc as (x & Hx & Hc). apply list_elem_of_In in Hx.
  apply negb_true_iff, Z.eqb_neq. destruct (x =? APOSTROPHE); cbn in Hc; [destruct Hc as [<-|[<-|[]]]; done|].
  destruct Hc as [<-|[]]. by intros ->.
Qed.

Ltac calm_step :=
  match goal with
  | |- calm (_ ++ _) => apply calm_app
  | |- calm (js _) => apply calm_lit; vm_compute; reflexivity
  | |- calm [] => apply calm_nil
  | |- calm (number_literal _) => apply calm_word, number_literal_word
  | |- calm (int_text _) => apply calm_word, int_text_word
  | |- calm (join _ _) => apply calm_join
  | |- calm (if ?b then _ else _) => destruct b
  end.

Lemma trim_same x y s : is_js_space x = false → is_js_space y = false → RecordStore.trim (x :: s ++ [y]) = x :: s ++ [y].
Proof.
  intros Hx Hy. unfold RecordStore.trim. cbn [drop_spaces]. rewrite Hx. change (x :: s ++ [y]) with ((x :: s) ++ [y]).
  rewrite rev_app_distr. cbn [rev app drop_spaces]. rewrite Hy. cbn [rev app]. by rewrite rev_app_distr, rev_involutive.
Qed.

Lemma trim_trailing x y s : is_js_space x = false → is_js_space y = false → RecordStore.trim (x :: s ++ [y; 32]) = x :: s ++ [y].
Proof.
  intros Hx Hy. unfold RecordStore.trim. cbn [drop_spaces]. rewrite Hx. change (x :: s ++ [y; 32]) with ((x :: s) ++ [y; 32]).
  rewrite rev_app_distr. cbn [rev app drop_spaces]. change (is_js_space 32) with true. cbn. rewrite Hy. cbn [rev app]. by rewrite rev_app_distr, rev_involutive.
Qed.

Section Field.
Context (f : AdmittedField) (Hid : isEntityId "fld" (JStr (fd_id f)) = true).
Context (Hvalues : ∀ v, v ∈ default [] (fd_options f ≫= opt_values) → QUOTE ∉ v).

Lemma calm_column : calm (column_sql f).
Proof. apply calm_quoted; [done|by apply column_word]. Qed.

Lemma calm_type : calm (js " " ++ sqliteTypeForField f).
Proof. unfold sqliteTypeForField. repeat case_match; apply calm_lit; vm_compute; reflexivity. Qed.

Lemma calm_check : calm (check_clause (fieldCheckSql f (column_sql f))).
Proof.
  pose proof calm_column as Hc. unfold fieldCheckSql. destruct (fd_type f); cbn [check_clause].
  - destruct (fd_options f ≫= opt_max_length); cbn [mbind option_bind check_clause]; repeat calm_step; done.
  - repeat calm_step; try done. unfold number_parts. apply Forall_app. split; [apply Forall_singleton|apply Forall_app; split].
    + destruct (opt_onlyInt _) as [[]|]; repeat calm_step; done.
    + destruct (opt_min _); [apply Forall_singleton|constructor]. repeat calm_step; done.
    + destruct (opt_max _); [apply Forall_singleton|constructor]. repeat calm_step; done.
  - repeat calm_step; done.
  - repeat calm_step; done.
  - destruct (default [] _) as [|v vs] eqn:E; [apply calm_nil|]. cbn [check_clause]. repeat calm_step; try done.
    apply Forall_fmap, Forall_forall. intros w Hw. by apply calm_value, Hvalues.
  - apply calm_nil.
Qed.

(** The declaration of a column, with the trimmed text. *)
Lemma type_last : ∃ t y, sqliteTypeForField f = t ++ [y] ∧ is_js_space y = false.
Proof.
  unfold sqliteTypeForField. repeat case_match;
    first [by exists (js "TEX"), (cu "T")|by exists (js "INTEGE"), (cu "R")|by exists (js "REA"), (cu "L")].
Qed.

Lemma field_column_text : field_column f = quoteIdent (declared_column f).1 ++ js " " ++ (declared_column f).2.
Proof.
  unfold field_column, declared_column. cbn [fst snd]. rewrite !(assoc_L app). f_equal.
  destruct type_last as (t & y & Ht & Hy). unfold column_sql, quoteIdent. set (n := replace_all _ _ _).
  destruct (fd_required f).
  - pose proof (trim_same QUOTE (cu "L") (n ++ [QUOTE] ++ js " " ++ sqliteTypeForField f ++ js " NOT NUL") eq_refl eq_refl) as E.
    rewrite <-!(assoc_L app) in *. exact E.
  - pose proof (trim_trailing QUOTE y (n ++ [QUOTE] ++ js " " ++ t) eq_refl Hy) as E.
    rewrite Ht, !app_nil_r, <-!(assoc_L app) in *. exact E.
Qed.
End Field.

Lemma create_collection_text ids c : create_collection ids c = ddl_text <$> collection_statements ids c.
Proof.
  unfold create_collection, collection_statements. rewrite fmap_cons. f_equal.
  - unfold table_statement, ddl_text, table_sql. do 4 f_equal. f_equal. f_equal. rewrite <-list_fmap_compose. f_equal.
    apply list_fmap_ext. intros i f _. apply field_column_text.
  - rewrite fmap_imap. apply imap_ext. intros i index _. cbn. unfold create_index. do 7 f_equal. f_equal. by rewrite <-list_fmap_compose.
Qed.

(** *** The selected statements are those of the collection *)

Lemma word_split a b x y : word a → word b → a ++ QUOTE :: x = b ++ QUOTE :: y → a = b ∧ x = y.
Proof.
  intros Ha. revert b. induction Ha as [|c a Hc _ IH]; intros b Hb; destruct Hb as [|d b Hd Hb]; cbn [app]; intros E; cbv beta in *.
  - by injection E as ->.
  - injection E as E _. unfold QUOTE in *. lia.
  - injection E as E _. unfold QUOTE in *. lia.
  - injection E as -> E. by destruct (IH b Hb E) as [-> ->].
Qed.

(** The pattern that is searched for, in a calm text. *)
Lemma calm_not_contains n s : calm s → contains (ON ++ [QUOTE] ++ n) s = false.
Proof.
  intros Hs. destruct (contains _ _) eqn:E; [|done]. apply contains_iff in E as (a & z & ->). exfalso.
  destruct (Hs []) as [Hf _]; [by intros [k ?%(f_equal length)]; rewrite length_app in *; cbn in *; lia|].
  apply (Hf (a ++ ON) (n ++ z)); [by rewrite <-!(assoc_L app)|]. by exists a.
Qed.

(** In a text with the word once, the name that follows it is found. *)
Lemma contains_once n m A B :
  word n → word m → m ≠ [] → calm A → calm B → contains (ON ++ quoteIdent n ++ [32]) (A ++ ON ++ quoteIdent m ++ 32 :: B) = true → n = m.
Proof.
  intros Hn Hm Hne HA HB. rewrite !quoteIdent_word by done. intros (a & z & E)%contains_iff.
  assert (ends_ok []) as H0 by (intros [k ?%(f_equal length)]; rewrite length_app in *; cbn in *; lia).
  assert ((a ++ ON) ++ QUOTE :: (n ++ QUOTE :: 32 :: z) = (A ++ ON) ++ QUOTE :: (m ++ QUOTE :: 32 :: B)) as E'.
  { rewrite <-!(assoc_L app). symmetry. etrans; [etrans; [|exact E]|]; by rewrite <-!(assoc_L app). }
  destruct (HA [] H0) as [HfA _].
  destruct (app_eq_inv _ _ _ _ E') as [(k & Ek & Ek')|(k & Ek & Ek')].
  - (* the found place is after the word *)
    destruct k as [|y k]; cbn in Ek'; injection Ek' as Ek'.
    + by apply (word_split m n) in Ek' as [-> _].
    + subst y. exfalso.
      assert (ON `suffix_of` (A ++ ON) ++ QUOTE :: k) as Hsuf by (rewrite <-Ek; by exists a).
      assert (on_free ((A ++ ON) ++ [QUOTE]) (m ++ QUOTE :: 32 :: B)) as Hfree.
      { apply on_free_app; [by apply on_free_no_quote, word_no_quote|]. change (QUOTE :: 32 :: B) with ([QUOTE] ++ [32] ++ B).
        apply on_free_app; [|apply on_free_app].
        - intros x b Ex. destruct x as [|? [|??]]; [|done..]. rewrite app_nil_r. by apply ends_ok_word.
        - by apply on_free_no_quote.
        - apply HB. rewrite <-!(assoc_L app). rewrite (assoc_L app A ON), !(assoc_L app). rewrite <-(assoc_L app _ [QUOTE] [32]). by apply ends_ok_last_two. }
      apply (Hfree k (n ++ QUOTE :: 32 :: z)); [done|]. by rewrite <-(assoc_L app).
  - (* the found place is before the word *)
    destruct k as [|y k]; cbn in Ek'; injection Ek' as Ek'.
    + by apply (word_split n m) in Ek' as [-> _].
    + subst y. exfalso. 
      destruct (app_eq_inv _ _ _ _ Ek) as [(l & El & El')|(l & El & El')].
      * destruct l as [|y l]; [rewrite app_nil_r in El; subst A|]. 
        -- cbn in El'. discriminate El'.
        -- cbn in El'. injection El' as <- El'. apply (HfA (a ++ ON) l); [by rewrite El|]. cbn. by exists a.
      * revert El'. clear. destruct l as [|x1 [|x2 [|x3 [|x4 [|x5 l]]]]]; intros E; cbn in E; discriminate E.
Qed.

(** Whether a statement of a collection is selected for another. *)
Definition selects (c : AdmittedCollection) (st : jsstr) : bool :=
  starts_with (js "CREATE TABLE " ++ table_sql c ++ js " ") st || contains (js " ON " ++ table_sql c ++ js " ") st.

Lemma selects_index next c d n index : identified next → c ∈ sm_collections next → d ∈ sm_collections next → index ∈ cl_indexes d →
  selects c (ddl_text (index_statement d n index)) = bool_decide (collectionTableName (cl_id d) = collectionTableName (cl_id c)).
Proof.
  intros Hs Hc Hd Hi. pose proof (table_word _ (id_collections _ Hs c Hc)) as Wc. pose proof (table_word _ (id_collections _ Hs d Hd)) as Wd.
  unfold selects, table_sql.
  assert (starts_with (js "CREATE TABLE " ++ quoteIdent (collectionTableName (cl_id c)) ++ js " ") (ddl_text (index_statement d n index)) = false) as ->
    by (cbn [index_statement ddl_text]; by destruct (ix_unique index)).
  rewrite orb_false_l. set (A := js "CREATE " ++ (if ix_unique index then js "UNIQUE " else []) ++ js "INDEX " ++ quoteIdent (index_name d n)).
  set (B := js "(" ++ join (js ", ") (quoteIdent <$> (fieldColumnName <$> ix_fields index)) ++ js ")").
  assert (ddl_text (index_statement d n index) = A ++ ON ++ quoteIdent (collectionTableName (cl_id d)) ++ 32 :: B) as ->.
  { cbn [index_statement ddl_text]. unfold A, B. rewrite <-!(assoc_L app). reflexivity. }
  assert (calm A) as HA.
  { unfold A. repeat calm_step; apply calm_quoted; [done|]. by apply index_name_word, (id_collections _ Hs). }
  assert (calm B) as HB.
  { unfold B. repeat calm_step. apply Forall_fmap, Forall_fmap, Forall_forall. intros f Hf. apply (calm_quoted (fieldColumnName f)); [done|].
    by apply column_word, (id_indexes _ Hs d index). }
  apply eq_bool_prop_intro. split; intros H.
  - apply Is_true_true in H. apply bool_decide_pack. symmetry. by apply (contains_once _ _ A B).
  - apply bool_decide_unpack in H. rewrite H. apply Is_true_true, contains_iff. exists A, B. by rewrite <-!(assoc_L app).
Qed.

Section Selection.
Context (next : AdmittedSchema) (Hs : searchable next).

Local Abbreviation ids := (cl_id <$> sm_collections next).

Lemma target_word target : target ∈ ids → word (collectionTableName target).
Proof. intros (c & -> & Hc)%list_elem_of_fmap. by apply table_word, (se_collections _ Hs). Qed.

Lemma calm_foreign_key c f k : c ∈ sm_collections next → f ∈ cl_fields c → k ∈ foreign_key ids f → calm k.
Proof.
  intros Hc Hf. unfold foreign_key. destruct (relation_target f) as [target|]; [|by intros ?%elem_of_nil].
  unfold includes. case_bool_decide as Ht; [|by intros ?%elem_of_nil]. intros ->%list_elem_of_singleton.
  pose proof (calm_column f (se_fields _ Hs _ _ Hc Hf)). pose proof (calm_quoted (collectionTableName target) ltac:(done) (target_word _ Ht)).
  repeat calm_step; done.
Qed.

Lemma calm_table_statement t c : c ∈ sm_collections next → t ≠ [] → word t → calm (ddl_text (table_statement ids t c)).
Proof.
  intros Hc Hne Ht. cbn [table_statement ddl_text]. repeat calm_step; [by apply calm_quoted|].
  repeat (apply Forall_app; split).
  - repeat first [apply Forall_nil_2|apply Forall_cons_2; [apply calm_lit; vm_compute; reflexivity|]].
  - rewrite <-list_fmap_compose. apply Forall_fmap, Forall_forall. intros f Hf.
    cbn [compose declared_column fst snd]. change (quoteIdent (fieldColumnName (fd_id f))) with (column_sql f).
    pose proof (calm_column f (se_fields _ Hs _ _ Hc Hf)). pose proof (calm_type f).
    pose proof (calm_check f (se_fields _ Hs _ _ Hc Hf) (λ v, se_values _ Hs c f v Hc Hf)).
    apply calm_app; [done|]. rewrite (assoc_L app (js " ")). repeat first [assumption|calm_step].
  - apply Forall_forall. intros k Hk. apply list_elem_of_join in Hk as (l & Hk & Hl). apply list_elem_of_fmap in Hl as (f & -> & Hf).
    by eapply calm_foreign_key.
Qed.

Lemma selects_table c d : c ∈ sm_collections next → d ∈ sm_collections next →
  selects c (ddl_text (table_statement ids (collectionTableName (cl_id d)) d)) = bool_decide (collectionTableName (cl_id d) = collectionTableName (cl_id c)).
Proof.
  intros Hc Hd. pose proof (table_word _ (se_collections _ Hs c Hc)) as Wc. pose proof (table_word _ (se_collections _ Hs d Hd)) as Wd.
  unfold selects, table_sql. rewrite (quoteIdent_word _ Wc).
  change (js " ON " ++ ([QUOTE] ++ collectionTableName (cl_id c) ++ [QUOTE]) ++ js " ") with (ON ++ [QUOTE] ++ (collectionTableName (cl_id c) ++ [QUOTE]) ++ js " ").
  rewrite calm_not_contains, orb_false_r by (by apply calm_table_statement).
  cbn [table_statement ddl_text]. rewrite (quoteIdent_word _ Wd). apply eq_bool_prop_intro. split; intros H.
  - apply Is_true_true, starts_with_iff in H as [z E]. apply bool_decide_pack. rewrite <-!(assoc_L app) in E.
    apply app_inv_head, app_inv_head in E. by apply (word_split _ _ _ _ Wd Wc) in E as [? _].
  - apply bool_decide_unpack in H. rewrite H. apply Is_true_true, starts_with_iff. eexists. rewrite <-!(assoc_L app). reflexivity.
Qed.

(** Selecting in the statements of distinct tables. *)
Lemma filter_collections (P : jsstr → bool) (F : AdmittedCollection → list jsstr) c cs :
  (∀ d st, d ∈ cs → st ∈ F d → P st = bool_decide (collectionTableName (cl_id d) = collectionTableName (cl_id c))) →
  NoDup ((λ d, collectionTableName (cl_id d)) <$> cs) → c ∈ cs → filterb P (mjoin (F <$> cs)) = F c.
Proof.
  intros HP Hn Hc.
  assert (∀ d, d ∈ cs → filterb P (F d) = if bool_decide (collectionTableName (cl_id d) = collectionTableName (cl_id c)) then F d else []) as Hd.
  { intros d Hd. case_bool_decide as E; [apply filterb_all|apply filterb_nil]; intros st Hst; rewrite (HP d st) by done; by case_bool_decide. }
  clear HP. induction cs as [|d cs IH]; [by apply elem_of_nil in Hc|]. cbn [fmap list_fmap] in Hn |- *. apply NoDup_cons in Hn as [Hnd Hn].
  cbn [mjoin list_join concat]. rewrite filterb_app, (Hd d) by left. case_bool_decide as E.
  - assert (d = c) as ->.
    { apply elem_of_cons in Hc as [->|Hc]; [done|]. exfalso. apply Hnd. rewrite E. by apply (list_elem_of_fmap_2 (λ d, collectionTableName (cl_id d))). }
    rewrite <-(app_nil_r (F c)) at 2. f_equal. clear IH Hc E. induction cs as [|e cs IHc]; [done|]. cbn [fmap list_fmap] in Hnd, Hn |- *. apply NoDup_cons in Hn as [_ Hn].
    apply not_elem_of_cons in Hnd as [Hne Hnd]. cbn [mjoin list_join concat]. rewrite filterb_app, (Hd e) by (right; left).
    rewrite bool_decide_eq_false_2 by congruence. cbn [app]. apply IHc; [done..|]. intros x [->|Hx]%elem_of_cons; apply Hd; [left|by do 2 right].
  - apply elem_of_cons in Hc as [->|Hc]; [done|]. cbn. apply IH; [done..|]. intros x Hx. apply Hd. by right.
Qed.

Lemma selected_statements c : schema_wf next → c ∈ sm_collections next → selected_ddl next c = ddl_text <$> collection_statements ids c.
Proof.
  intros Hwf Hc. rewrite <-create_collection_text. unfold selected_ddl, createSchemaDdl.
  apply (filter_collections (selects c)); [|apply Hwf|done]. intros d st Hd. rewrite create_collection_text.
  intros (s & -> & [->|Hs']%elem_of_cons)%list_elem_of_fmap; [by apply selects_table|].
  apply elem_of_lookup_imap_1 in Hs' as (i & index & -> & Hi). apply (selects_index next); [by destruct Hs|done..|]. by eapply list_elem_of_lookup_2.
Qed.

End Selection.

Section Texts.
Context (next : AdmittedSchema).
Local Abbreviation ids := (cl_id <$> sm_collections next).

Lemma replaced_table c :
  replace_first (js "CREATE TABLE " ++ table_sql c ++ js " ") (js "CREATE TABLE " ++ quoteIdent (temporary_table c) ++ js " ")
    (ddl_text (table_statement ids (collectionTableName (cl_id c)) c)) = ddl_text (table_statement ids (temporary_table c) c).
Proof.
  cbn [table_statement ddl_text]. set (body := join _ _ ++ js ")").
  assert (js "CREATE TABLE " ++ quoteIdent (collectionTableName (cl_id c)) ++ js " (" ++ body =
    (js "CREATE TABLE " ++ table_sql c ++ js " ") ++ js "(" ++ body) as E by (unfold table_sql; by rewrite <-!(assoc_L app)).
  change (js " (" ++ join _ _ ++ js ")") with (js " (" ++ body). rewrite E.
  assert (∀ p r s : jsstr, p ≠ [] → replace_first p r (p ++ s) = r ++ s) as Hr.
  { intros p r s Hp. destruct p as [|x p]; [done|]. cbn [replace_first app]. rewrite (proj2 (starts_with_iff (x :: p) (x :: p ++ s))) by (by exists s).
    change (x :: p ++ s) with ((x :: p) ++ s). by rewrite drop_app_length. }
  rewrite Hr by done. by rewrite <-!(assoc_L app).
Qed.

Lemma fmap_mjoin {A B} (f : A → B) (ls : list (list A)) : f <$> mjoin ls = mjoin (fmap f <$> ls).
Proof. induction ls as [|l ls IH]; [done|]. change (f <$> (l ++ mjoin ls) = (f <$> l) ++ mjoin (fmap f <$> ls)). by rewrite fmap_app, IH. Qed.

(** The texts of a migration when the statements selected for each collection are its own. *)
Lemma migrate_text previous c :
  (prior_used previous c = true → selected_ddl next c = ddl_text <$> collection_statements ids c) →
  migrate_collection previous next c = ddl_text <$> migration_statements previous next c.
Proof.
  unfold prior_used, migrate_collection, migration_statements. intros H. destruct (find _ _) as [prior|]; [|by apply H].
  destruct (removed_fields prior c).
  - rewrite <-list_fmap_compose. apply list_fmap_ext. intros j f _. unfold add_column, table_sql, column_sql. cbn. by rewrite <-!(assoc_L app).
  - unfold rebuild_table. rewrite H by done. unfold collection_statements. cbn [fmap list_fmap head default from_option id tail].
    rewrite replaced_table. reflexivity.
Qed.

Lemma migration_of_collections previous :
  (∀ c, c ∈ sm_collections next → migrate_collection previous next c = ddl_text <$> migration_statements previous next c) →
  additiveSchemaDdl previous next = ddl_text <$> migration previous next.
Proof.
  intros H. unfold additiveSchemaDdl, migration. rewrite fmap_mjoin, <-list_fmap_compose. f_equal. apply list_fmap_ext. intros i c Hi.
  apply H. by eapply list_elem_of_lookup_2.
Qed.

Lemma migration_text previous : searchable next → schema_wf next → additiveSchemaDdl previous next = ddl_text <$> migration previous next.
Proof. intros Hs Hwf. apply migration_of_collections. intros c Hc. apply migrate_text. intros _. by apply selected_statements. Qed.

(** *** What is selected in general

    A value of a select field may hold the searched text.  Then the creation of another table is selected
    too, before the statements of the collection or after them. *)

Definition misleads (c d : AdmittedCollection) : bool :=
  selects c (ddl_text (table_statement ids (collectionTableName (cl_id d)) d)).
Definition misled (c : AdmittedCollection) (ds : list AdmittedCollection) : list Ddl :=
  (λ d, table_statement ids (collectionTableName (cl_id d)) d) <$> filterb (misleads c) ds.

Lemma selected_of_other c d : identified next → c ∈ sm_collections next → d ∈ sm_collections next → collectionTableName (cl_id d) ≠ collectionTableName (cl_id c) →
  filterb (selects c) (create_collection ids d) = ddl_text <$> misled c [d].
Proof.
  intros Hid Hc Hd Hne. rewrite create_collection_text. unfold collection_statements, misled, misleads. cbn [fmap list_fmap filterb].
  assert (filterb (selects c) (ddl_text <$> imap (index_statement d) (cl_indexes d)) = []) as Hi.
  { apply filterb_nil. intros st (x & -> & Hx)%list_elem_of_fmap. apply elem_of_lookup_imap_1 in Hx as (i & index & -> & Hi).
    rewrite (selects_index next) by (done || by eapply list_elem_of_lookup_2). by case_bool_decide. }
  destruct (selects c _); [exact (f_equal (cons _) Hi)|exact Hi].
Qed.

Lemma selected_of_others c ds : identified next → c ∈ sm_collections next →
  (∀ d, d ∈ ds → d ∈ sm_collections next ∧ collectionTableName (cl_id d) ≠ collectionTableName (cl_id c)) →
  filterb (selects c) (mjoin (create_collection ids <$> ds)) = ddl_text <$> misled c ds.
Proof.
  intros Hid Hc. induction ds as [|d ds IH]; intros H; [done|]. cbn [fmap list_fmap]. change (mjoin (?x :: ?xs)) with (x ++ mjoin xs).
  destruct (H d) as [Hd Hne]; [left|]. rewrite filterb_app, selected_of_other, IH by (done || (intros e He; apply H; by right)).
  unfold misled. cbn [filterb]. by destruct (misleads c d).
Qed.

Lemma selected_of_own c : identified next → c ∈ sm_collections next →
  filterb (selects c) (create_collection ids c) = ddl_text <$> collection_statements ids c.
Proof.
  intros Hid Hc. rewrite create_collection_text. apply filterb_all.
  intros st (x & -> & [->|Hx]%elem_of_cons)%list_elem_of_fmap.
  - unfold selects. apply orb_true_iff. left. apply starts_with_iff. eexists. unfold table_sql. cbn [table_statement ddl_text].
    rewrite <-!(assoc_L app). reflexivity.
  - apply elem_of_lookup_imap_1 in Hx as (i & index & -> & Hi). rewrite (selects_index next) by (done || by eapply list_elem_of_lookup_2).
    by apply bool_decide_eq_true_2.
Qed.

Lemma selected_split pre c post : identified next → schema_wf next → sm_collections next = pre ++ c :: post →
  selected_ddl next c = ddl_text <$> (misled c pre ++ collection_statements ids c ++ misled c post).
Proof.
  intros Hid Hwf E. pose proof (sw_tables _ Hwf) as Hn. unfold selected_ddl, createSchemaDdl. change (λ st, _ || _) with (selects c).
  assert (c ∈ sm_collections next) as Hc by (rewrite E; apply elem_of_app; right; left).
  assert (∀ d, d ∈ pre ∨ d ∈ post → d ∈ sm_collections next ∧ collectionTableName (cl_id d) ≠ collectionTableName (cl_id c)) as Hother.
  { intros d Hd. split; [rewrite E; set_solver|]. rewrite E, fmap_app, fmap_cons in Hn. apply NoDup_app in Hn as (_ & Hn1 & Hn2).
    apply NoDup_cons in Hn2 as [Hn2 _]. intros Et. destruct Hd as [Hd|Hd].
    - apply (Hn1 (collectionTableName (cl_id d))); [by apply (list_elem_of_fmap_2 (λ d, collectionTableName (cl_id d)))|]. rewrite Et. left.
    - apply Hn2. rewrite <-Et. by apply (list_elem_of_fmap_2 (λ d, collectionTableName (cl_id d))). }
  rewrite E at 2. rewrite fmap_app, fmap_cons, join_app. change (mjoin (?x :: ?xs)) with (x ++ mjoin xs).
  rewrite !filterb_app, selected_of_own, !selected_of_others by (done || (intros d Hd; apply Hother; auto)). by rewrite !fmap_app.
Qed.
End Texts.

Lemma creation_text s : createSchemaDdl s = ddl_text <$> creation s.
Proof.
  unfold createSchemaDdl, creation. rewrite fmap_mjoin, <-list_fmap_compose. f_equal. apply list_fmap_ext. intros i c _. apply create_collection_text.
Qed.

(** C30. The texts the code builds are those of the intended statements.  A creation is the table and the
    indexes of each collection.  A migration is, for each collection of the next schema in order, its
    creation if it is new, a rebuild through a temporary table with the surviving columns copied if a
    field is removed, and otherwise one added column per new field; the statements that are selected by
    searching the texts are exactly those of the collection, as long as the identities are those of the
    protocol and no value of a select field has a quotation mark. *)
Theorem ddl_texts_are_intended previous next : searchable next → schema_wf next →
  createSchemaDdl next = ddl_text <$> creation next ∧ additiveSchemaDdl previous next = ddl_text <$> migration previous next.
Proof. intros Hs Hwf. split; [apply creation_text|by apply migration_text]. Qed.

(** ** A value that misleads the search *)

Module DdlDemo.

Definition rooms : AdmittedCollection :=
  {| cl_id := js "col_01890f3e-0000-7000-8000-000000000009"; cl_name := js "rooms"; cl_description := [];
     cl_fields := [StoreDemo.field "fld_01890f3e-0000-7000-8000-000000000008" "name" FText false None]; cl_indexes := [] |}.

(** A select value with the text the search looks for. *)
Definition misleading : jsstr := js "see ON " ++ table_sql rooms ++ js " here".
Definition notes : AdmittedCollection :=
  {| cl_id := js "col_01890f3e-0000-7000-8000-000000000007"; cl_name := js "notes"; cl_description := [];
     cl_fields := [StoreDemo.field "fld_01890f3e-0000-7000-8000-000000000006" "topic" FSelect false
       (Some {| opt_max_length := None; opt_onlyInt := None; opt_min := None; opt_max := None; opt_values := Some [misleading]; opt_collection := None |})];
     cl_indexes := [] |}.

Definition schema_with (collections : list AdmittedCollection) : AdmittedSchema :=
  {| sm_appId := sm_appId StoreDemo.schema; sm_schemaRevision := 1; sm_title := js "Notes"; sm_purpose := []; sm_references := [];
     sm_collections := collections |}.

(** The value is accepted by the schema of select options, but adding the other collection also emits the
    creation of the existing table, which fails. *)
Example misleading_value_recreates_table :
  select_options_ok (default no_options (fd_options (default (StoreDemo.field "" "" FText false None) (head (cl_fields notes))))) = true ∧
  additiveSchemaDdl (schema_with [notes]) (schema_with [notes; rooms]) =
    ddl_text <$> [table_statement (cl_id <$> [notes; rooms]) (collectionTableName (cl_id notes)) notes;
                  table_statement (cl_id <$> [notes; rooms]) (collectionTableName (cl_id rooms)) rooms].
Proof. vm_compute. done. Qed.

Definition two_collections : AdmittedSchema := schema_with [StoreDemo.people; rooms].

Lemma two_searchable : searchable two_collections.
Proof.
  split; intros c; intros; repeat match goal with H : _ ∈ _ |- _ => first
    [apply elem_of_nil in H; destruct H|apply elem_of_cons in H as [->|H]] end; vm_compute; reflexivity.
Qed.
Lemma two_wf : schema_wf two_collections.
Proof.
  split; [apply (bool_decide_unpack _); vm_compute; done|..]; intros c Hc; repeat (apply elem_of_cons in Hc as [->|Hc]);
    try (apply (bool_decide_unpack _); vm_compute; done); by apply elem_of_nil in Hc.
Qed.

Lemma ddl_texts_are_intended_witness :
  additiveSchemaDdl StoreDemo.schema two_collections = ddl_text <$> migration StoreDemo.schema two_collections ∧
  length (migration StoreDemo.schema two_collections) = 1%nat.
Proof.
  split; [|vm_compute; reflexivity].
  exact (proj2 (ddl_texts_are_intended StoreDemo.schema two_collections two_searchable two_wf)).
Defined.
End DdlDemo.
