(* ===== verification/SchemaMigration.v ===== *)
(** * Creating and migrating light apps (apps/nanocore/src/generative-kernel/native-command-worker.ts)

    The commands that change the definition of an app: its creation, a schema update with the
    preparation before it, the completion of a format upgrade and the stamp of a restored snapshot.  A
    command runs in a savepoint of its caller, so that it is a function from a database to a failure or
    the next database, as in RecordStore.

    The SQL engine is the parameter [exec] on the texts of the statements.  [run_ddl] is the documented
    effect of a statement that succeeds.  The theorems show that a schema update keeps every record and
    brings the tables to the shape of the new schema, and that the invariant of the store holds in every
    reachable database, whatever definitions and records are written.

    A definition is an authored proposal, which is admitted, or was selected from the catalog, which holds
    definitions that an admission returned; the entry and the digest of a selection and the timestamps of
    the metadata row are not kept. *)

From S2P Require Import Prelude JsValue CanonicalJson EntityId LightAppKernel SchemaAdmission FieldValues RecordFilter RecordStore NativeDdl.

Local Open Scope string_scope.
Local Open Scope list_scope.
Local Open Scope Z_scope.

(** ** The effect of statements *)

(** The declared field columns and the rows of each table. *)
Record NativeState := {
  ns_columns : gmap jsstr (list jsstr);
  ns_tables : gmap jsstr Table;
}.

(** A row of a [SELECT] into a table with other columns; what is not copied is null.  The system columns
    are not nullable: a copy that succeeds names them. *)
Definition copy_row (declared copied : list jsstr) (row : RecordRow) : RecordRow :=
  {| row_revision := row_revision row; row_created := row_created row; row_updated := row_updated row;
     row_creator := row_creator row; row_last_mutator := row_last_mutator row;
     row_create_request := row_create_request row; row_last_request := row_last_request row;
     row_write_schema_revision := row_write_schema_revision row;
     row_fields := list_to_map ((λ c, (c, if includes copied c then default JNull (row_fields row !! c) else JNull)) <$> declared) |}.

Definition with_column (column : jsstr) (row : RecordRow) : RecordRow :=
  {| row_revision := row_revision row; row_created := row_created row; row_updated := row_updated row;
     row_creator := row_creator row; row_last_mutator := row_last_mutator row;
     row_create_request := row_create_request row; row_last_request := row_last_request row;
     row_write_schema_revision := row_write_schema_revision row;
     row_fields := <[column := JNull]> (row_fields row) |}.

(** [ALTER TABLE a RENAME TO b] on a map by table. *)
Definition rename {A} (from to : jsstr) (m : gmap jsstr A) : gmap jsstr A :=
  match m !! from with Some x => <[to := x]> (delete from m) | None => m end.

Definition run_ddl (d : Ddl) (s : NativeState) : NativeState :=
  match d with
  | CreateTable table columns _ =>
    {| ns_columns := <[table := fst <$> columns]> (ns_columns s); ns_tables := <[table := ∅]> (ns_tables s) |}
  | CreateIndex _ _ _ _ | DeferForeignKeys => s
  | CopyRows target source copied =>
    let rows := copy_row (default [] (ns_columns s !! target)) copied <$> default ∅ (ns_tables s !! source) in
    {| ns_columns := ns_columns s; ns_tables := <[target := rows ∪ default ∅ (ns_tables s !! target)]> (ns_tables s) |}
  | DropTable table => {| ns_columns := delete table (ns_columns s); ns_tables := delete table (ns_tables s) |}
  | RenameTable from to => {| ns_columns := rename from to (ns_columns s); ns_tables := rename from to (ns_tables s) |}
  | AddColumn table column _ =>
    {| ns_columns := alter (λ cs, cs ++ [column]) table (ns_columns s); ns_tables := alter (fmap (with_column column)) table (ns_tables s) |}
  end.

Definition run_all (ds : list Ddl) (s : NativeState) : NativeState := foldl (λ s d, run_ddl d s) s ds.

(** ** The commands *)

Definition LIGHT_APP_KERNEL_FORMAT_VERSION : Z := 2.

(** An admitted schema where a definition is expected. *)
Definition definition_field (f : AdmittedField) : FieldInput :=
  {| fi_id := Some (fd_id f); fi_name := fd_name f; fi_type := fd_type f; fi_required := fd_required f;
     fi_description := fd_description f; fi_unit := fd_unit f; fi_namespace := fd_namespace f; fi_options := fd_options f |}.
Definition definition_collection (c : AdmittedCollection) : CollectionInput :=
  {| ci_id := Some (cl_id c); ci_name := cl_name c; ci_description := cl_description c;
     ci_fields := definition_field <$> cl_fields c; ci_indexes := cl_indexes c |}.
Definition definition_of (s : AdmittedSchema) : SchemaInput :=
  {| si_title := sm_title s; si_purpose := sm_purpose s; si_references := Some (sm_references s);
     si_collections := definition_collection <$> sm_collections s |}.

Definition stale_schema {A} (metadata : AppMetadataRow) (expected : Z) : result CommandFailure A :=
  fail conflict (js "Schema revision is stale.")
    {| dt_path := Some (js "expectedSchemaRevision"); dt_limit := None; dt_maximum := None; dt_status := None;
       dt_expectedRevision := Some expected; dt_currentRevision := Some (md_schemaRevision metadata) |}.

(** The guards of a schema change, of its preparation and of its application. *)
Definition check_schema_change (db : AppDb) (expectedAppRevision expectedSchemaRevision : Z) : result CommandFailure AppMetadataRow :=
  current ← readMetadata db;
  _ ← assertWritable current;
  if negb (md_appRevision current =? expectedAppRevision) then stale_app current expectedAppRevision
  else if negb (md_schemaRevision current =? expectedSchemaRevision) then stale_schema current expectedSchemaRevision
  else Ok current.

(** The retained definitions, if their directory can be read; all must be of this app. *)
Definition nextSchemaRevision (history : option (list AdmittedSchema)) (db : AppDb) (currentRevision : Z) : result CommandFailure Z :=
  match history with
  | Some retained =>
    if forallb (λ s, bool_decide (sm_appId s = db_appId db)) retained
    then Ok (foldl (λ highest s, Z.max highest (sm_schemaRevision s)) currentRevision retained + 1)
    else fail unavailable (js "App definition history is unavailable.") no_details
  | None => fail unavailable (js "App definition history is unavailable.") no_details
  end.

(** What a preparation throws. *)
Inductive PreparationError :=
| AdmissionFailed (e : AdmissionError)
| PreparationFailed (e : CommandFailure).

Definition with_metadata (db : AppDb) (metadata : AppMetadataRow) : AppDb :=
  {| db_appId := db_appId db; db_metadata := Some metadata; db_tables := db_tables db; db_audit := db_audit db |}.

Definition bump_revision (metadata : AppMetadataRow) (revision : Z) : AppMetadataRow :=
  {| md_appId := md_appId metadata; md_workspaceId := md_workspaceId metadata; md_title := md_title metadata;
     md_purpose := md_purpose metadata; md_appRevision := revision; md_schemaRevision := md_schemaRevision metadata;
     md_schemaDigest := md_schemaDigest metadata; md_schema := md_schema metadata; md_lifecycle := md_lifecycle metadata;
     md_kernelFormatVersion := md_kernelFormatVersion metadata |}.

(** The tables of an app with this schema. *)
Definition schema_columns (s : AdmittedSchema) : gmap jsstr (list jsstr) :=
  list_to_map ((λ c, (collectionTableName (cl_id c), (λ f, fieldColumnName (fd_id f)) <$> cl_fields c)) <$> sm_collections s).
Definition native_state (columns : gmap jsstr (list jsstr)) (db : AppDb) : NativeState :=
  {| ns_columns := columns; ns_tables := db_tables db |}.

Section Commands.
(** Executing a statement, and what [quick_check] and [foreign_key_check] say. *)
Context (exec : jsstr → NativeState → result CommandFailure NativeState) (integrity_ok : NativeState → bool).
(** The digest of the text of a definition. *)
Context (schema_digest : AdmittedSchema → jsstr).
(** The parameters of an admission. *)
Context (fresh : nat → string → jsstr) (encoded_bytes : SchemaInput → Z) (first_issue : SchemaInput → jsstr * jsstr) (uuid_ok : jsstr → bool).

Fixpoint exec_all (statements : list jsstr) (s : NativeState) : result CommandFailure NativeState :=
  match statements with
  | [] => Ok s
  | statement :: statements => s ← exec statement s; exec_all statements s
  end.

Definition assertSnapshotIntegrity (s : NativeState) : result CommandFailure unit :=
  if integrity_ok s then Ok tt else fail unavailable (js "App snapshot failed integrity checks.") no_details.

(** The definition a command is prepared with.  A definition selected from the catalog ([selected]) keeps its
    identities: it is parsed, and on an update checked against the current schema.  An authored proposal
    is admitted. *)
Definition prepareDefinition (selected : bool) (schema : SchemaInput) (appId : jsstr) (schemaRevision : Z) (current : option AdmittedSchema)
    : result AdmissionError AdmittedSchema :=
  admitted ← if selected then parseAdmittedSchema uuid_ok schema appId schemaRevision
             else admitLightAppSchema fresh encoded_bytes first_issue uuid_ok schema appId schemaRevision (definition_of <$> current);
  match current with
  | Some current => if selected then _ ← assertSafeSchemaEvolution (definition_of admitted) (definition_of current); Ok admitted else Ok admitted
  | None => Ok admitted
  end.

(** The preparation of a schema update: the admitted schema. *)
Definition prepareSchema (selected : bool) (history : option (list AdmittedSchema)) (db : AppDb) (expectedAppRevision expectedSchemaRevision : Z) (schema : SchemaInput)
    : result PreparationError AdmittedSchema :=
  match check_schema_change db expectedAppRevision expectedSchemaRevision with
  | Err e => Err (PreparationFailed e)
  | Ok current =>
    match nextSchemaRevision history db (md_schemaRevision current) with
    | Err e => Err (PreparationFailed e)
    | Ok schemaRevision =>
      match prepareDefinition selected schema (db_appId db) schemaRevision (Some (md_schema current)) with
      | Ok admitted => Ok admitted
      | Err e => Err (AdmissionFailed e)
      end
    end
  end.

(** The preparation of a creation. *)
Definition prepareCreation (selected : bool) (db : AppDb) (schema : SchemaInput) : result PreparationError AdmittedSchema :=
  match prepareDefinition selected schema (db_appId db) 1 None with
  | Ok admitted => Ok admitted
  | Err e => Err (AdmissionFailed e)
  end.

(** [UPDATE app_metadata SET ...] of a schema update. *)
Definition updated_metadata (current : AppMetadataRow) (admitted : AdmittedSchema) : AppMetadataRow :=
  {| md_appId := md_appId current; md_workspaceId := md_workspaceId current; md_title := sm_title admitted;
     md_purpose := sm_purpose admitted; md_appRevision := md_appRevision current + 1;
     md_schemaRevision := sm_schemaRevision admitted; md_schemaDigest := schema_digest admitted; md_schema := admitted;
     md_lifecycle := md_lifecycle current; md_kernelFormatVersion := md_kernelFormatVersion current |}.

Definition updateSchema (db : AppDb) (context : CommandContext) (expectedAppRevision expectedSchemaRevision : Z)
    (prepared : option AdmittedSchema) : result CommandFailure AppDb :=
  current ← check_schema_change db expectedAppRevision expectedSchemaRevision;
  match prepared with
  | None => fail unavailable (js "App preparation is absent.") no_details
  | Some admitted =>
    s ← exec_all (additiveSchemaDdl (md_schema current) admitted) (native_state (schema_columns (md_schema current)) db);
    _ ← assertSnapshotIntegrity s;
    Ok (recordKernelAudit (with_metadata (with_tables db (ns_tables s)) (updated_metadata current admitted)) context
          "kernel.schema.update" (js "light-app:" ++ db_appId db) (sm_schemaRevision admitted) (sm_schemaRevision admitted)
          (cl_id <$> sm_collections admitted) [] None)
  end.

(** The first row of the metadata; the format version is the default of its column. *)
Definition new_metadata (workspaceId : jsstr) (admitted : AdmittedSchema) : AppMetadataRow :=
  {| md_appId := sm_appId admitted; md_workspaceId := workspaceId; md_title := sm_title admitted; md_purpose := sm_purpose admitted;
     md_appRevision := 1; md_schemaRevision := 1; md_schemaDigest := schema_digest admitted; md_schema := admitted;
     md_lifecycle := Active; md_kernelFormatVersion := LIGHT_APP_KERNEL_FORMAT_VERSION |}.

Definition commitNewApp (db : AppDb) (workspaceId : jsstr) (context : CommandContext) (admitted : AdmittedSchema) : result CommandFailure AppDb :=
  s ← exec_all (createSchemaDdl admitted) (native_state ∅ db);
  Ok (recordKernelAudit (with_metadata (with_tables db (ns_tables s)) (new_metadata workspaceId admitted)) context
        "kernel.apps.create" (js "light-app:" ++ sm_appId admitted) 1 (sm_schemaRevision admitted) (cl_id <$> sm_collections admitted) [] None).

Definition createApp (db : AppDb) (workspaceId : jsstr) (context : CommandContext) (prepared : option AdmittedSchema) : result CommandFailure AppDb :=
  match prepared with
  | None => fail unavailable (js "App preparation is absent.") no_details
  | Some admitted =>
    match db_metadata db with
    | Some _ => fail recovery_required (js "Interrupted app creation cannot be replayed.") no_details
    | None => commitNewApp db workspaceId context admitted
    end
  end.
End Commands.

Definition completeFormat (db : AppDb) (context : CommandContext) (expectedAppRevision : Z) : result CommandFailure AppDb :=
  metadata ← readMetadata db;
  _ ← assertWritable metadata;
  if negb (md_appRevision metadata =? expectedAppRevision) then stale_app metadata expectedAppRevision
  else if negb (md_kernelFormatVersion metadata =? LIGHT_APP_KERNEL_FORMAT_VERSION)
  then fail unavailable (js "App kernel format is unsupported.") no_details
  else Ok (recordKernelAudit (with_metadata db (bump_revision metadata (expectedAppRevision + 1))) context "kernel.format.upgrade"
             (js "light-app:" ++ db_appId db) (expectedAppRevision + 1) (md_schemaRevision metadata) [] [] None).

(** The stamp of a restored snapshot, which is the open database; the projection of its result reads the
    metadata. *)
Definition stampRollback (db : AppDb) (context : CommandContext) (expectedAppRevision schemaRevision : Z) : result CommandFailure AppDb :=
  metadata ← readMetadata db;
  Ok (recordKernelAudit (with_metadata db (bump_revision metadata (expectedAppRevision + 1))) context "kernel.snapshots.rollback"
        (js "light-app:" ++ db_appId db) (expectedAppRevision + 1) schemaRevision [] [] None).

(** ** What a migration does to one collection *)

Local Arguments collectionTableName : simpl never.
Local Arguments fieldColumnName : simpl never.
Local Abbreviation table_name c := (collectionTableName (cl_id c)).
Local Abbreviation column_name f := (fieldColumnName (fd_id f)).

Definition row_system (row : RecordRow) :=
  (row_revision row, row_created row, row_updated row, row_creator row, row_last_mutator row, row_create_request row,
   row_last_request row, row_write_schema_revision row).

Definition declares (c : AdmittedCollection) (f : AdmittedField) : bool :=
  existsb (λ old, bool_decide (fd_id old = fd_id f)) (cl_fields c).

(** A row after a migration: the system columns and the values of surviving fields are kept, new fields are
    null and the columns of removed fields are gone. *)
Record migrated (prior c : AdmittedCollection) (row row' : RecordRow) : Prop := {
  mi_system : row_system row' = row_system row;
  mi_kept : ∀ f, f ∈ cl_fields c → declares prior f = true → row_fields row' !! column_name f = row_fields row !! column_name f;
  mi_new : ∀ f, f ∈ cl_fields c → declares prior f = false → row_fields row' !! column_name f = Some JNull;
  mi_gone : ∀ f, f ∈ cl_fields prior → declares c f = false → row_fields row' !! column_name f = None;
}.

Definition has_columns (c : AdmittedCollection) (row : RecordRow) : Prop :=
  ∀ f, f ∈ cl_fields c → is_Some (row_fields row !! column_name f).

Definition prior_of (previous : AdmittedSchema) (c : AdmittedCollection) : option AdmittedCollection :=
  find (λ p, bool_decide (cl_id p = cl_id c)) (sm_collections previous).

(** The table of a collection before and after. *)
Definition table_migrated (previous : AdmittedSchema) (c : AdmittedCollection) (before after : option Table) : Prop :=
  match prior_of previous c with
  | None => after = Some ∅
  | Some prior => ∀ t, before = Some t →
      ∃ g, after = Some (g <$> t) ∧ ∀ row, has_columns prior row → migrated prior c row (g row)
  end.

Lemma run_all_app ds ds' s : run_all (ds ++ ds') s = run_all ds' (run_all ds s).
Proof. apply foldl_app. Qed.

Lemma run_indexes c l s : run_all (imap (index_statement c) l) s = s.
Proof.
  assert (∀ ds s, Forall (λ d, ∃ u n t cs, d = CreateIndex u n t cs) ds → run_all ds s = s) as H.
  { intros ds s' Hds. revert s'. induction Hds as [|d ds (u & n & t & cs & ->) _ IH]; intros s'; [done|]. apply (IH s'). }
  apply H, Forall_forall. intros d (i & ix & -> & _)%elem_of_lookup_imap_1. unfold index_statement. eauto.
Qed.

Lemma declares_iff c f : declares c f = true ↔ ∃ g, g ∈ cl_fields c ∧ fd_id g = fd_id f.
Proof. unfold declares. rewrite existsb_elem. by setoid_rewrite bool_decide_eq_true. Qed.

Lemma declares_self c f : f ∈ cl_fields c → declares c f = true.
Proof. intros Hf. apply declares_iff. by exists f. Qed.

Lemma not_declares c f : declares c f = false → ∀ g, g ∈ cl_fields c → fd_id g ≠ fd_id f.
Proof. unfold declares. rewrite existsb_elem_false. intros H g Hg E. specialize (H g Hg). by rewrite bool_decide_eq_true_2 in H. Qed.

Lemma not_system_column id : fieldColumnName id ∉ system_names.
Proof. unfold system_names, fieldColumnName. cbn. rewrite !elem_of_cons, elem_of_nil. naive_solver. Qed.

Section Collection.
Context (prior c : AdmittedCollection).
Context (Hcols : NoDup ((λ f, column_name f) <$> cl_fields c)).
Context (Hinj : ∀ f g, f ∈ cl_fields prior → g ∈ cl_fields c → column_name f = column_name g → fd_id f = fd_id g).

Lemma copied_iff f : f ∈ cl_fields c → includes (copied_columns prior c) (column_name f) = declares prior f.
Proof.
  intros Hf. unfold includes, copied_columns, kept_fields. apply eq_bool_prop_intro. rewrite bool_decide_spec, elem_of_app. split.
  - intros [H|(g & E & [Hg Hd]%elem_of_filterb)%list_elem_of_fmap]; [by apply not_system_column in H|].
    rewrite (NoDup_fmap_elem (λ f, column_name f) _ f g Hcols) by done. by apply Is_true_true.
  - intros H%Is_true_true. right. apply list_elem_of_fmap. exists f. split; [done|]. by apply elem_of_filterb.
Qed.

Lemma copied_lookup row f : f ∈ cl_fields c →
  row_fields (copy_row ((λ f, column_name f) <$> cl_fields c) (copied_columns prior c) row) !! column_name f =
  Some (if declares prior f then default JNull (row_fields row !! column_name f) else JNull).
Proof.
  intros Hf. cbn [copy_row row_fields]. rewrite <-copied_iff by done. apply elem_of_list_to_map_1.
  - rewrite <-list_fmap_compose. by rewrite <-list_fmap_compose.
  - rewrite <-list_fmap_compose. apply list_elem_of_fmap. by exists f.
Qed.

Lemma copied_migrated row : has_columns prior row →
  migrated prior c row (copy_row ((λ f, column_name f) <$> cl_fields c) (copied_columns prior c) row).
Proof.
  intros Hrow. split; [done|..].
  - intros f Hf Hd. rewrite copied_lookup, Hd by done. apply declares_iff in Hd as (g & Hg & <-). by destruct (Hrow g Hg) as [v ->].
  - intros f Hf Hd. by rewrite copied_lookup, Hd.
  - intros f Hf Hd. cbn [copy_row row_fields]. apply not_elem_of_list_to_map_1. rewrite <-!list_fmap_compose.
    intros (g & E & Hg)%list_elem_of_fmap. apply (not_declares _ _ Hd g Hg). symmetry. by apply Hinj.
Qed.

(** Adding the new columns one after the other. *)
Lemma added_lookup fs row k :
  row_fields (foldl (λ row f, with_column (column_name f) row) row fs) !! k =
  if bool_decide (k ∈ (λ f, column_name f) <$> fs) then Some JNull else row_fields row !! k.
Proof.
  revert row. induction fs as [|f fs IH]; intros row; [done|]. cbn [foldl fmap list_fmap]. rewrite IH. cbn [with_column row_fields].
  destruct (decide (k = column_name f)) as [->|Hne].
  - rewrite lookup_insert_eq. rewrite (bool_decide_eq_true_2 (_ ∈ _ :: _)) by left. by case_bool_decide.
  - rewrite lookup_insert_ne by done. rewrite (bool_decide_ext _ (k ∈ column_name f :: ((λ f, column_name f) <$> fs))); [done|]. rewrite elem_of_cons. naive_solver.
Qed.

Lemma added_iff f : f ∈ cl_fields c → column_name f ∈ (λ f, column_name f) <$> added_fields prior c ↔ declares prior f = false.
Proof.
  intros Hf. unfold added_fields. rewrite list_elem_of_fmap. split.
  - intros (g & E & [Hg H]%elem_of_filterb). rewrite (NoDup_fmap_elem (λ f, column_name f) _ f g Hcols) by done.
    apply not_true_iff_false. intros (h & Hh & E')%declares_iff. apply negb_true_iff, bool_decide_eq_false_1 in H. apply H.
    apply list_elem_of_fmap. by exists h.
  - intros H. exists f. split; [done|]. apply elem_of_filterb. split; [done|]. apply negb_true_iff, bool_decide_eq_false_2.
    intros (h & E & Hh)%list_elem_of_fmap. by apply (not_declares _ _ H h Hh).
Qed.

Lemma added_migrated row : removed_fields prior c = [] → has_columns prior row →
  migrated prior c row (foldl (λ row f, with_column (column_name f) row) row (added_fields prior c)).
Proof.
  intros Hr Hrow. split.
  - generalize (added_fields prior c) as fs. intros fs. revert row Hrow. induction fs as [|f fs IH]; intros row Hrow; [done|].
    cbn [foldl]. rewrite IH; [done|]. intros g Hg. cbn [with_column row_fields]. destruct (decide (column_name f = column_name g)) as [->|]; [by rewrite lookup_insert_eq|].
    rewrite lookup_insert_ne by done. by apply Hrow.
  - intros f Hf Hd. rewrite added_lookup. rewrite bool_decide_eq_false_2; [done|]. rewrite added_iff by done. by rewrite Hd.
  - intros f Hf Hd. rewrite added_lookup. rewrite bool_decide_eq_true_2; [done|]. by rewrite added_iff.
  - intros f Hf Hd. unfold removed_fields in Hr. rewrite filterb_nil in Hr. specialize (Hr f Hf). apply negb_false_iff in Hr.
    exfalso. revert Hr. fold (declares c f). by rewrite Hd.
Qed.
End Collection.

(** *** The statements of one collection *)

Lemma strip_length ps : ∀ a b, Forall dash_or_not ps → matches_classes ps a = true → matches_classes ps b = true →
  length (replace_all (cu "-") [] a) = length (replace_all (cu "-") [] b).
Proof.
  unfold replace_all. induction ps as [|p ps IH]; intros [|c a] [|d b] HF Ha Hb; try done.
  apply Forall_cons in HF as [[Hp|Hp] HF]; cbn [matches_classes] in Ha, Hb; bool_to_prop; cbn [flat_map]; rewrite !length_app, (IH a b) by done.
  - by rewrite (Hp c), (Hp d).
  - by rewrite !(proj2 (Z.eqb_neq _ _)) by auto.
Qed.

Lemma temporary_fresh c d : isEntityId "col" (JStr (cl_id c)) = true → isEntityId "col" (JStr (cl_id d)) = true → table_name c ≠ temporary_table d.
Proof.
  intros Hc Hd E%(f_equal length). unfold temporary_table, collectionTableName in E. rewrite !length_app in E.
  assert (length (replace_all (cu "-") [] (cl_id c)) = length (replace_all (cu "-") [] (cl_id d))) as E'; [|rewrite E' in E; cbn in E; lia].
  apply entity_classes in Hc, Hd; [|by left..]. eapply strip_length; [|exact Hc|exact Hd]. apply entity_dashes.
Qed.

Lemma temporary_ne c : table_name c ≠ temporary_table c.
Proof. intros E%(f_equal length). unfold temporary_table in E. rewrite length_app in E. cbn in E. lia. Qed.

Section Migration.
Context (previous next : AdmittedSchema).
Local Abbreviation statements c := (migration_statements previous next c).

Lemma run_frame c s k : k ≠ table_name c → k ≠ temporary_table c → ns_tables (run_all (statements c) s) !! k = ns_tables s !! k.
Proof.
  intros H1 H2. unfold migration_statements. destruct (find _ _) as [prior|].
  - destruct (removed_fields prior c).
    + generalize (added_fields prior c) as fs. intros fs. revert s. induction fs as [|f fs IH]; intros s; [done|].
      cbn [fmap list_fmap run_all foldl]. etrans; [apply IH|]. cbn. by rewrite lookup_alter_ne.
    + rewrite run_all_app, run_indexes. cbn [run_all foldl run_ddl table_statement ns_tables ns_columns].
      unfold rename. rewrite lookup_delete_ne by apply temporary_ne. rewrite lookup_insert_eq.
      by rewrite lookup_insert_ne, lookup_delete_ne, lookup_delete_ne, !lookup_insert_ne.
  - unfold collection_statements. change (run_all (?d :: ?ds) s) with (run_all ds (run_ddl d s)). rewrite run_indexes. cbn. by rewrite lookup_insert_ne.
Qed.

Lemma add_columns (decl : AdmittedField → jsstr) t fs s :
  ns_tables (run_all ((λ f, AddColumn t (column_name f) (decl f)) <$> fs) s) !! t =
  fmap (λ row, foldl (λ row f, with_column (column_name f) row) row fs) <$> (ns_tables s !! t).
Proof.
  revert s. induction fs as [|f fs IH]; intros s; cbn [fmap list_fmap run_all foldl].
  - destruct (_ !! t) as [rows|]; [|done]. cbn. f_equal. symmetry. apply map_fmap_id.
  - etrans; [apply IH|]. cbn [run_ddl ns_tables]. rewrite lookup_alter_eq. destruct (ns_tables s !! t) as [rows|]; [|done]. cbn. f_equal.
    by rewrite <-map_fmap_compose.
Qed.

Lemma run_collection c s :
  schema_wf next → c ∈ sm_collections next →
  (∀ prior f g, prior ∈ sm_collections previous → f ∈ cl_fields prior → g ∈ cl_fields c → column_name f = column_name g → fd_id f = fd_id g) →
  table_migrated previous c (ns_tables s !! table_name c) (ns_tables (run_all (statements c) s) !! table_name c).
Proof.
  intros Hwf Hc Hinj. pose proof (sw_columns _ Hwf c Hc) as Hcols. unfold table_migrated, migration_statements, prior_of.
  destruct (find _ _) as [prior|] eqn:Hp; cycle 1.
  { unfold collection_statements. change (run_all (?d :: ?ds) s) with (run_all ds (run_ddl d s)). rewrite run_indexes. cbn. by rewrite lookup_insert_eq. }
  apply find_Some in Hp as [Hp _]. specialize (λ f g, Hinj prior f g Hp). intros t Ht. destruct (removed_fields prior c) eqn:Hr.
  - rewrite add_columns, Ht. eexists. split; [reflexivity|]. intros row Hrow. by apply added_migrated.
  - rewrite run_all_app, run_indexes. cbn [run_all foldl run_ddl table_statement ns_tables ns_columns]. unfold rename.
    rewrite !(lookup_delete_ne _ (table_name c) (temporary_table c)) by apply temporary_ne.
    rewrite !lookup_insert_eq, lookup_insert_ne by (apply not_eq_sym, temporary_ne). rewrite Ht. cbn [default from_option id].
    rewrite map_union_empty. eexists. split; [reflexivity|]. intros row Hrow.
    rewrite <-list_fmap_compose. by apply copied_migrated.
Qed.

Lemma run_collections cs : ∀ s,
  schema_wf next → (∀ c, c ∈ cs → c ∈ sm_collections next) → NoDup ((λ c, table_name c) <$> cs) →
  (∀ c d, c ∈ cs → d ∈ cs → table_name c ≠ temporary_table d) →
  (∀ prior c f g, prior ∈ sm_collections previous → c ∈ cs → f ∈ cl_fields prior → g ∈ cl_fields c → column_name f = column_name g → fd_id f = fd_id g) →
  let s' := run_all (mjoin ((λ c, statements c) <$> cs)) s in
  (∀ k, (∀ c, c ∈ cs → k ≠ table_name c ∧ k ≠ temporary_table c) → ns_tables s' !! k = ns_tables s !! k) ∧
  ∀ c, c ∈ cs → table_migrated previous c (ns_tables s !! table_name c) (ns_tables s' !! table_name c).
Proof.
  induction cs as [|c cs IH]; intros s Hwf Hin Hn Ht Hi; [split; [done|by intros c ?%elem_of_nil]|].
  cbn [fmap list_fmap] in Hn. apply NoDup_cons in Hn as [Hc Hn].
  change (mjoin ((λ c, statements c) <$> c :: cs)) with (statements c ++ mjoin ((λ c, statements c) <$> cs)).
  cbv zeta. rewrite run_all_app. destruct (IH (run_all (statements c) s)) as [IH1 IH2]; [done| |done| | |].
  1: intros d Hd; apply Hin; by right. 1: intros d e Hd He; apply Ht; by right. 1: intros p d f g Hp Hd; apply Hi; [done|by right].
  cbv zeta in *. split.
  - intros k Hk. rewrite IH1, run_frame; [done|apply Hk; left|apply Hk; left|]. intros d Hd. apply Hk. by right.
  - assert (∀ d, d ∈ cs → table_name c ≠ table_name d) as Hne.
    { intros d Hd E. apply Hc. rewrite E. by apply (list_elem_of_fmap_2 (λ c, table_name c)). }
    intros d [->|Hd]%elem_of_cons.
    + rewrite IH1.
      * apply run_collection; [done|apply Hin; left|]. intros p f g Hp. apply (Hi p c); [done|left].
      * intros e He. split; [by apply Hne|]. apply Ht; [left|by right].
    + rewrite <-(run_frame c s); [by apply IH2|..]; [|apply Ht; [by right|left]]. intros E. by apply (Hne d Hd).
Qed.
End Migration.

(** ** Admitted schemas *)

Definition quote_free (s : AdmittedSchema) : Prop :=
  ∀ c f v, c ∈ sm_collections s → f ∈ cl_fields c → v ∈ default [] (fd_options f ≫= opt_values) → QUOTE ∉ v.

Lemma searchable_of s : identified s → quote_free s → searchable s.
Proof. by intros [H1 H2 H3] H4. Qed.

Lemma definition_of_admitted c d : admitted_collection c = Some d → definition_collection d = c ∧
  forallb (λ i, forallb (λ f, isEntityId "fld" (JStr f)) (ix_fields i)) (cl_indexes d) = true.
Proof.
  unfold admitted_collection. destruct c as [[id|] name desc fields indexes]; [|done]. cbn [ci_id ci_fields ci_indexes ci_name ci_description].
  cbn [mbind option_bind]. destruct (mapM admitted_field fields) as [fs|] eqn:E; [|done]. cbn [mbind option_bind].
  destruct (forallb _ indexes) eqn:Hi; [|done]. intros [= <-]. split; [|done]. unfold definition_collection. cbn. f_equal.
  apply mapM_Some in E. induction E as [|f g fs gs H _ IH]; [done|]. cbn. f_equal; [|done].
  unfold admitted_field in H. destruct f as [[i|]]; [|done]. by injection H as <-.
Qed.

Section Admission.
Context (fresh : nat → string → jsstr) (encoded_bytes : SchemaInput → Z) (first_issue : SchemaInput → jsstr * jsstr) (uuid_ok : jsstr → bool).

Lemma parsed_Ok definition appId revision s :
  parseAdmittedSchema uuid_ok definition appId revision = Ok s →
  sm_appId s = appId ∧ sm_schemaRevision s = revision ∧ definition_collection <$> sm_collections s = si_collections definition ∧ identified s.
Proof.
  unfold parseAdmittedSchema. destruct (si_references definition); [|done].
  destruct (mapM admitted_collection _) as [cs|] eqn:E; [|done].
  destruct (_ && forallb admitted_collection_ok _) eqn:B; [|done]. intros [= <-]. cbn. apply andb_true_iff in B as [_ B]. apply mapM_Some in E.
  assert (definition_collection <$> cs = si_collections definition) as Hcs.
  { clear B. induction E as [|c d xs ds H _ IH]; [done|]. cbn. f_equal; [|done]. by apply definition_of_admitted in H as [? _]. }
  assert (∀ c, c ∈ cs → admitted_collection_ok (definition_collection c) = true) as Hok.
  { intros c Hc. rewrite forallb_elem in B. apply B. rewrite <-Hcs. by apply list_elem_of_fmap_2. }
  do 2 (split; [done|]). split; [done|]. split; cbn [sm_collections].
  - intros c Hc. specialize (Hok c Hc). unfold admitted_collection_ok in Hok. cbn [definition_collection ci_id] in Hok. by bool_to_prop.
  - intros c f Hc Hf. specialize (Hok c Hc). unfold admitted_collection_ok in Hok. rewrite !andb_true_iff in Hok. destruct Hok as [[_ Hok] _].
    rewrite forallb_elem in Hok. specialize (Hok (definition_field f) (list_elem_of_fmap_2 _ _ _ Hf)).
    unfold admitted_field_ok in Hok. cbn [definition_field fi_id] in Hok. by bool_to_prop.
  - intros c i f Hc Hi Hf. destruct (Forall2_elem_r _ _ _ _ E Hc) as (c' & _ & H). apply definition_of_admitted in H as [_ H].
    rewrite forallb_elem in H. specialize (H i Hi). rewrite forallb_elem in H. by apply H.
Qed.

(** The definitions of the catalog: an import admits them, and the import of a history requires that each is
    what its admission returns (catalog/light-app-catalog.ts:132, 241). *)
Definition catalogued (definition : SchemaInput) : Prop :=
  ∃ fresh cand previous, admitLightAppDefinition fresh encoded_bytes first_issue cand previous = Ok definition.

(** What a preparation returns, of either kind. *)
Lemma prepared_Ok selected schema appId revision current s :
  prepareDefinition fresh encoded_bytes first_issue uuid_ok selected schema appId revision current = Ok s →
  (selected = true → catalogued schema) →
  schema_wf s ∧ identified s ∧ sm_appId s = appId ∧ sm_schemaRevision s = revision ∧
  ∀ e, current = Some e → safe_evolution (definition_of s) (definition_of e).
Proof.
  unfold prepareDefinition. intros (adm & Ha & H)%bind_Ok Hcat. assert (adm = s) as ->.
  { destruct current as [e|]; [|congruence]. destruct selected; [by apply bind_Ok in H as ([] & _ & [= ->])|congruence]. }
  assert (∃ fr cand previous next, admitLightAppDefinition fr encoded_bytes first_issue cand previous = Ok next ∧
    parseAdmittedSchema uuid_ok next appId revision = Ok s ∧ (selected = false → previous = definition_of <$> current)) as
    (fr & cand & previous & next & Had & Hp & Hprev).
  { destruct selected.
    - destruct (Hcat eq_refl) as (fr & cand & previous & Hc). by exists fr, cand, previous, schema.
    - apply bind_Ok in Ha as (next & Had & Hp). by exists fresh, schema, (definition_of <$> current), next. }
  apply admit_Ok in Had as (_ & _ & Hok & (n & Has) & He). apply assemble_Ok in Has as (Hclosed & _).
  split; [by eapply parsed_schema_wf|]. apply parsed_Ok in Hp as (Happ & Hrev & Hcs & Hid). do 3 (split; [done|]).
  intros e ->. assert (unique_ids (definition_of s)) as Hu.
  { destruct (closed_unique _ Hok Hclosed) as [U1 U2]. split; cbn [definition_of si_collections]; by rewrite Hcs. }
  destruct selected.
  - apply bind_Ok in H as ([] & Hev & _). by apply evolution_Ok in Hev.
  - specialize (He _ (Hprev eq_refl)). apply evolution_Ok in He; [|by apply closed_unique].
    unfold safe_evolution in He |- *. cbn [definition_of si_collections] in He |- *. by rewrite Hcs.
Qed.
End Admission.

(** ** The store after a migration *)

Definition total (tables : gmap jsstr Table) (names : list jsstr) : nat :=
  sum_list_with (λ k, size (default ∅ (tables !! k))) names.

Lemma count_total db cs n : count_records db cs = Ok n → n = Z.of_nat (total (db_tables db) ((λ c, table_name c) <$> cs)).
Proof.
  revert n. induction cs as [|c cs IH]; intros n; cbn [count_records fmap list_fmap]; [by intros [= <-]|].
  intros (t & Ht%table_of_Ok & (k & Hk & [= <-])%bind_Ok)%bind_Ok. cbn [total sum_list_with]. rewrite Ht, (IH k Hk). cbn [default from_option id]. unfold total. lia.
Qed.

Lemma total_count db cs : (∀ c, c ∈ cs → is_Some (db_tables db !! table_name c)) →
  count_records db cs = Ok (Z.of_nat (total (db_tables db) ((λ c, table_name c) <$> cs))).
Proof.
  induction cs as [|c cs IH]; intros H; [done|]. cbn [count_records fmap list_fmap]. unfold table_of.
  destruct (H c ltac:(left)) as [t Ht]. rewrite IH by (intros d Hd; apply H; by right). unfold total. cbn [sum_list_with]. rewrite Ht. cbn [mbind result_bind default from_option id]. f_equal. lia.
Qed.

#[local] Instance total_perm tables : Proper ((≡ₚ) ==> (=)) (total tables).
Proof. intros ks ls H. unfold total. induction H; cbn; lia. Qed.

Lemma total_subset tables ks ls : NoDup ks → (∀ k, k ∈ ks → k ∈ ls) → (total tables ks <= total tables ls)%nat.
Proof.
  intros Hn Hs. destruct (submseteq_Permutation ks ls) as [rest ->]; [by apply NoDup_submseteq|].
  unfold total. rewrite sum_list_with_app. lia.
Qed.

Section Store.
Context (previous next : AdmittedSchema) (before after : gmap jsstr Table).
Context (Hwf : schema_wf next) (Hsafe : safe_evolution (definition_of next) (definition_of previous)).
Context (Hold : tables_ok before previous).
Context (Hmig : ∀ c, c ∈ sm_collections next → table_migrated previous c (before !! table_name c) (after !! table_name c)).

(** The fields of a collection that evolves. *)
Lemma evolved prior c : prior ∈ sm_collections previous → c ∈ sm_collections next → cl_id prior = cl_id c →
  safe_collection (definition_collection prior) (definition_collection c).
Proof.
  intros Hp Hc E. destruct (Hsafe (definition_collection prior)) as (d & Hd & Ed & Hs); [by apply list_elem_of_fmap_2|].
  apply list_elem_of_fmap in Hd as (c' & -> & Hc'). injection Ed as Ed.
  by rewrite (NoDup_fmap_elem (λ c, table_name c) _ c c' (sw_tables _ Hwf)) by (try done; by rewrite Ed, E).
Qed.

Lemma old_columns prior t rid row : prior ∈ sm_collections previous → before !! table_name prior = Some t → t !! rid = Some row → has_columns prior row.
Proof.
  intros Hp Ht Hr f Hf. destruct (Hold prior Hp) as (t' & Ht' & Hrows). rewrite Ht in Ht'. injection Ht' as <-.
  destruct (Hrows _ _ Hr) as [_ H]. destruct (H f Hf) as (p & -> & _). by eexists.
Qed.

(** What happens to the table of a surviving collection. *)
Lemma surviving c prior : c ∈ sm_collections next → prior_of previous c = Some prior →
  ∃ t g, prior ∈ sm_collections previous ∧ cl_id prior = cl_id c ∧ before !! table_name c = Some t ∧ after !! table_name c = Some (g <$> t) ∧
    (∀ rid row, t !! rid = Some row → row_ok before previous prior row ∧ migrated prior c row (g row)).
Proof.
  intros Hc Hp. specialize (Hmig c Hc). unfold table_migrated in Hmig. rewrite Hp in Hmig. apply find_Some in Hp as [Hp E]. bool_to_prop.
  destruct (Hold prior Hp) as (t & Ht & Hrows). destruct (Hmig t) as (g & Hg & Hm); [by rewrite <-E|].
  exists t, g. rewrite <-E in *. do 4 (split; [done|]). intros rid row Hr. split; [by eapply Hrows|]. by eapply Hm, old_columns.
Qed.

Lemma survives_next p : p ∈ sm_collections previous → ∃ c, c ∈ sm_collections next ∧ cl_id c = cl_id p.
Proof.
  intros Hp. destruct (Hsafe (definition_collection p)) as (d & Hd & Ed & _); [by apply list_elem_of_fmap_2|].
  apply list_elem_of_fmap in Hd as (c & -> & Hc). injection Ed as Ed. by exists c.
Qed.

Lemma prior_exists c p : p ∈ sm_collections previous → cl_id p = cl_id c → is_Some (prior_of previous c).
Proof. intros Hp E. apply find_is_Some. exists p. split; [done|]. by apply bool_decide_eq_true. Qed.

Lemma stored_migrated f g p : fd_type g = fd_type f → fd_required g = fd_required f → fd_options g = fd_options f →
  stored_ok before previous f p → stored_ok after next g p.
Proof.
  intros Ht Hr Ho [[-> Hq]|(v & Hv & He & Hrel)]; [left; by rewrite Hr|right]. exists v. split; [|split].
  - unfold field_contract in *. by rewrite Ht, Ho.
  - by rewrite Ht.
  - intros Hty rid ->. rewrite Ht in Hty. destruct (Hrel Hty rid eq_refl) as (target & t & Hop & Hin & Htab & [row Hrow]).
    destruct (survives_next target Hin) as (c & Hc & E). destruct (prior_exists c target Hin (eq_sym E)) as [prior Hp].
    destruct (surviving c prior Hc Hp) as (t' & h & _ & _ & Hb & Ha & _). exists c. rewrite Ho, E in *. rewrite Htab in Hb. injection Hb as <-.
    eexists. do 3 (split; [done|]). rewrite lookup_fmap, Hrow. by eexists.
Qed.

Lemma tables_migrated : tables_ok after next.
Proof.
  intros c Hc. destruct (prior_of previous c) as [prior|] eqn:Hp; cycle 1.
  { pose proof (Hmig c Hc) as H. unfold table_migrated in H. rewrite Hp in H. exists ∅. split; [done|]. intros rid row Hr. by rewrite lookup_empty in Hr. }
  destruct (surviving c prior Hc Hp) as (t & g & Hin & E & _ & Ha & Hrows). exists (g <$> t). split; [done|].
  intros rid row' (row & <- & Hr)%lookup_fmap_Some. destruct (Hrows rid row Hr) as [[Hrev Hf] [Hsys Hkept Hnew _]].
  destruct (evolved prior c Hin Hc E) as [Hsurv Hopt _]. split.
  { injection Hsys as -> _. exact Hrev. }
  intros f Hfc. destruct (declares prior f) eqn:Hd.
  - pose proof Hd as (h & Hh & Eh)%declares_iff. destruct (Hf h Hh) as (p & Hp' & Hst). exists p. rewrite (Hkept f Hfc Hd).
    split; [by rewrite <-Eh|]. destruct (Hsurv (definition_field h) (definition_field f)) as (H1 & H2 & H3);
      [by apply list_elem_of_fmap_2..|by cbn; rewrite Eh|]. by apply (stored_migrated h).
  - exists JNull. split; [by apply Hnew|]. left. split; [done|]. apply (Hopt (definition_field f)); [by apply list_elem_of_fmap_2|].
    intros h' Hh'. apply list_elem_of_fmap in Hh' as (h & -> & Hh). cbn. intros [= E']. by apply (not_declares _ _ Hd h Hh).
Qed.

Lemma total_migrated : (total after ((λ c, table_name c) <$> sm_collections next) <= total before ((λ c, table_name c) <$> sm_collections previous))%nat.
Proof.
  set (old := filterb (λ c, match prior_of previous c with Some _ => true | None => false end) (sm_collections next)).
  assert (total after ((λ c, table_name c) <$> sm_collections next) = total before ((λ c, table_name c) <$> old)) as ->.
  { unfold old. assert (∀ c, c ∈ sm_collections next → c ∈ sm_collections next) as Hin by done. revert Hin.
    generalize (sm_collections next) at 1 3 4. intros cs. induction cs as [|c cs IH]; intros Hin; [done|].
    cbn [fmap list_fmap filterb List.filter]. specialize (IH (λ d Hd, Hin d ltac:(by right))). assert (c ∈ sm_collections next) as Hc by (apply Hin; left).
    destruct (prior_of previous c) as [prior|] eqn:Hp; cbn [fmap list_fmap total sum_list_with].
    - destruct (surviving c prior Hc Hp) as (t & g & _ & _ & Hb & Ha & _). rewrite Hb, Ha. cbn. rewrite map_size_fmap. f_equal. exact IH.
    - pose proof (Hmig c Hc) as H. unfold table_migrated in H. rewrite Hp in H. rewrite H. cbn. rewrite map_size_empty. exact IH. }
  apply total_subset.
  - apply (sublist_NoDup _ ((λ c, table_name c) <$> sm_collections next)); [apply Hwf|]. apply fmap_sublist. unfold old.
    generalize (sm_collections next) as cs. intros cs. induction cs as [|c cs IH]; [constructor|]. cbn. destruct (prior_of _ _); by constructor.
  - intros k (c & -> & [Hc Hp]%elem_of_filterb)%list_elem_of_fmap. destruct (prior_of previous c) as [prior|] eqn:E; [|done].
    apply find_Some in E as [Hin E]. bool_to_prop. rewrite <-E. by apply (list_elem_of_fmap_2 (λ c, table_name c)).
Qed.
End Store.

(** ** Schema updates *)

Section Updates.
Context (exec : jsstr → NativeState → result CommandFailure NativeState) (integrity_ok : NativeState → bool).
Context (schema_digest : AdmittedSchema → jsstr).

(** The engine has the documented effect on these statements, when they succeed. *)
Definition documented (ds : list Ddl) : Prop := ∀ d s s', d ∈ ds → exec (ddl_text d) s = Ok s' → s' = run_ddl d s.

Lemma exec_documented ds : ∀ s s', documented ds → exec_all exec (ddl_text <$> ds) s = Ok s' → s' = run_all ds s.
Proof.
  induction ds as [|d ds IH]; intros s s' Hd; cbn [fmap list_fmap exec_all]; [by intros [= <-]|].
  intros (s1 & H1 & H)%bind_Ok. apply (Hd d) in H1 as ->; [|left]. apply (IH (run_ddl d s)); [|done]. intros x ?? Hx. apply Hd. by right.
Qed.

Lemma schema_update_Ok db context expectedApp expectedSchema next db' :
  updateSchema exec integrity_ok schema_digest db context expectedApp expectedSchema (Some next) = Ok db' →
  ∃ current s, db_metadata db = Some current ∧ md_lifecycle current = Active ∧ md_appRevision current = expectedApp ∧
    md_schemaRevision current = expectedSchema ∧
    exec_all exec (additiveSchemaDdl (md_schema current) next) (native_state (schema_columns (md_schema current)) db) = Ok s ∧
    integrity_ok s = true ∧ db_appId db' = db_appId db ∧ db_metadata db' = Some (updated_metadata schema_digest current next) ∧ db_tables db' = ns_tables s.
Proof.
  unfold updateSchema, check_schema_change, readMetadata. destruct (db_metadata db) as [current|] eqn:Hm; [|done]. cbn [mbind result_bind].
  intros (c & H & (s & Hs & ([] & Hi & [= <-])%bind_Ok)%bind_Ok)%bind_Ok. apply bind_Ok in H as ([] & Hw & H).
  destruct (negb (md_appRevision _ =? _)) eqn:E1; [done|]. destruct (negb (md_schemaRevision _ =? _)) eqn:E2; [done|]. injection H as <-.
  apply negb_false_iff, Z.eqb_eq in E1, E2. unfold assertWritable in Hw. unfold assertSnapshotIntegrity in Hi.
  exists current, s. destruct (md_lifecycle current); [|done]. destruct (integrity_ok s); [|done]. done.
Qed.

Lemma update_tables db current next s :
  identified (md_schema current) → schema_wf next → identified next →
  additiveSchemaDdl (md_schema current) next = ddl_text <$> migration (md_schema current) next → documented (migration (md_schema current) next) →
  exec_all exec (additiveSchemaDdl (md_schema current) next) (native_state (schema_columns (md_schema current)) db) = Ok s →
  ∀ c, c ∈ sm_collections next → table_migrated (md_schema current) c (db_tables db !! table_name c) (ns_tables s !! table_name c).
Proof.
  intros Ho Hwf Hid Ht Hd. rewrite Ht. intros ->%exec_documented; [|done].
  destruct (run_collections (md_schema current) next (sm_collections next) (native_state (schema_columns (md_schema current)) db)) as [_ H];
    [done|done|apply Hwf|..|exact H].
  - intros c d Hc Hd'. by apply temporary_fresh; apply Hid.
  - intros prior c f g Hp Hc Hf Hg E. apply (app_inv_head (js "f_")) in E.
    eapply (native_name_inj "fld"); [by right|by eapply Ho|by eapply Hid|done].
Qed.

(** The parameters of an admission. *)
Context (fresh : nat → string → jsstr) (encoded_bytes : SchemaInput → Z) (first_issue : SchemaInput → jsstr * jsstr) (uuid_ok : jsstr → bool).

Lemma prepare_Ok selected history db expectedApp expectedSchema schema next current :
  prepareSchema fresh encoded_bytes first_issue uuid_ok selected history db expectedApp expectedSchema schema = Ok next → db_metadata db = Some current →
  (selected = true → catalogued encoded_bytes first_issue schema) →
  schema_wf next ∧ identified next ∧ safe_evolution (definition_of next) (definition_of (md_schema current)) ∧
  md_schemaRevision current < sm_schemaRevision next.
Proof.
  unfold prepareSchema, check_schema_change, readMetadata. intros H Hm Hcat. rewrite Hm in H. cbn [mbind result_bind] in H.
  destruct (assertWritable current) as [[]|]; [|done]. cbn [mbind result_bind] in H.
  destruct (negb (md_appRevision _ =? _)); [done|]. destruct (negb (md_schemaRevision _ =? _)); [done|].
  destruct (nextSchemaRevision history db _) as [revision|] eqn:Hr; [|done].
  destruct (prepareDefinition _ _ _ _ _ _ _ _ _) as [s|] eqn:Ha; [|done]. injection H as ->.
  apply prepared_Ok in Ha as (Hwf & Hid & _ & Hrev & Hev); [|done]. split; [done|]. split; [done|]. split; [by apply Hev|].
  rewrite Hrev. unfold nextSchemaRevision in Hr. destruct history as [retained|]; [|done].
  destruct (forallb _ _); [|done]. injection Hr as <-.
  assert (∀ l z, z <= foldl (λ highest s, Z.max highest (sm_schemaRevision s)) z l) as Hl; [|specialize (Hl retained (md_schemaRevision current)); lia].
  intros l. induction l as [|x l IH]; intros z; cbn; [lia|]. specialize (IH (Z.max z (sm_schemaRevision x))). lia.
Qed.

(** C9. A committed schema update loses no record: with an engine that runs the statements of the migration
    as documented, an update prepared from an admitted proposal or from a definition of the catalog, whose
    select values have no quotation mark,
    leaves the table of every earlier collection with the same record identities, every record with its
    system columns and the values of its surviving fields, null in the columns of new fields and without
    those of removed fields; new collections are empty; the app revision advances by one and the schema
    revision grows. *)
Theorem schema_update_keeps_records selected history db context expectedApp expectedSchema proposal next db' current :
  store_ok db current → schema_wf (md_schema current) → identified (md_schema current) →
  prepareSchema fresh encoded_bytes first_issue uuid_ok selected history db expectedApp expectedSchema proposal = Ok next →
  (selected = true → catalogued encoded_bytes first_issue proposal) →
  quote_free next → documented (migration (md_schema current) next) →
  updateSchema exec integrity_ok schema_digest db context expectedApp expectedSchema (Some next) = Ok db' →
  (∀ prior, prior ∈ sm_collections (md_schema current) →
     ∃ c t t', c ∈ sm_collections next ∧ cl_id c = cl_id prior ∧
       db_tables db !! table_name prior = Some t ∧ db_tables db' !! table_name prior = Some t' ∧ dom t' = dom t ∧
       ∀ rid row, t !! rid = Some row → ∃ row', t' !! rid = Some row' ∧ migrated prior c row row') ∧
  (∀ c, c ∈ sm_collections next → cl_id c ∉ cl_id <$> sm_collections (md_schema current) → db_tables db' !! table_name c = Some ∅) ∧
  ∃ current', db_metadata db' = Some current' ∧ md_schema current' = next ∧
    md_appRevision current' = md_appRevision current + 1 ∧ md_schemaRevision current < md_schemaRevision current'.
Proof.
  intros [Hm Hok _] Hwf Hid Hp Hcat Hq Hd Hu. apply (prepare_Ok _ _ _ _ _ _ _ current) in Hp as (Hwf' & Hid' & Hsafe & Hrev); [|done..].
  apply schema_update_Ok in Hu as (current' & s & Hm' & _ & _ & _ & Hs & _ & _ & Hmd & ->). rewrite Hm in Hm'. injection Hm' as <-.
  pose proof (update_tables db current next s Hid Hwf' Hid' (migration_text next _ (searchable_of _ Hid' Hq) Hwf') Hd Hs) as Hmig. split; [|split].
  - intros prior Hin. destruct (survives_next _ _ Hsafe prior Hin) as (c & Hc & E). destruct (prior_exists (md_schema current) c prior Hin (eq_sym E)) as [p Hp].
    destruct (surviving _ _ _ _ Hok Hmig c p Hc Hp) as (t & g & Hpin & Ep & Hb & Ha & Hrows).
    assert (p = prior) as ->. { apply (NoDup_fmap_elem (λ c, table_name c) _ p prior (sw_tables _ Hwf)); [done..|by rewrite Ep, E]. }
    exists c, t, (g <$> t). rewrite <-E. do 4 (split; [done|]). split; [apply dom_fmap_L|]. intros rid row Hr. exists (g row).
    split; [by rewrite lookup_fmap, Hr|]. by apply (Hrows rid).
  - intros c Hc Hn. specialize (Hmig c Hc). unfold table_migrated in Hmig. destruct (prior_of (md_schema current) c) as [p|] eqn:E; [|done].
    destruct Hn. apply find_Some in E as [Hin E]. bool_to_prop. rewrite <-E. by apply list_elem_of_fmap_2.
  - eexists. split; [exact Hmd|]. done.
Qed.
End Updates.

(** ** Migrations that commit are the intended ones

    A value of a select field may hold the text that the code searches for.  The creation of another table
    is then among the statements of a collection, and the migration does not commit: one of its statements
    creates a table that exists. *)

Section Committed.
Context (exec : jsstr → NativeState → result CommandFailure NativeState) (previous next : AdmittedSchema).

(** The engine refuses to create a table that exists. *)
Definition refuses_existing : Prop := ∀ table columns constraints s s',
  is_Some (ns_tables s !! table) → exec (ddl_text (CreateTable table columns constraints)) s ≠ Ok s'.

Context (Hrefuse : refuses_existing) (Hid : identified next) (Hwf : schema_wf next).
Context (Hdoc : documented exec (creation next ++ migration previous next)).

Local Abbreviation ids := (cl_id <$> sm_collections next).
Local Abbreviation present c s := (is_Some (ns_tables s !! table_name c)).
Local Abbreviation is_new c := (prior_of previous c = None).

Lemma exec_all_app a b s s' : exec_all exec (a ++ b) s = Ok s' ↔ ∃ s1, exec_all exec a s = Ok s1 ∧ exec_all exec b s1 = Ok s'.
Proof.
  revert s. induction a as [|x a IH]; intros s; cbn [app exec_all].
  - split; [by eauto|]. by intros (s1 & [= <-] & H).
  - destruct (exec x s) as [s0|e]; cbn [mbind result_bind]; [apply IH|]. split; [done|]. by intros (s1 & [=] & _).
Qed.

Lemma run_known ds s s' : (∀ d, d ∈ ds → d ∈ creation next ++ migration previous next) → exec_all exec (ddl_text <$> ds) s = Ok s' → s' = run_all ds s.
Proof. intros Hin. apply exec_documented. intros d s0 s1 Hd. apply Hdoc. by apply Hin. Qed.

Lemma created_known c : c ∈ sm_collections next → ∀ d, d ∈ collection_statements ids c → d ∈ creation next ++ migration previous next.
Proof. intros Hc d Hd. apply elem_of_app. left. apply list_elem_of_join. exists (collection_statements ids c). split; [done|]. by apply list_elem_of_fmap_2. Qed.
Lemma migrated_known c : c ∈ sm_collections next → ∀ d, d ∈ migration_statements previous next c → d ∈ creation next ++ migration previous next.
Proof. intros Hc d Hd. apply elem_of_app. right. apply list_elem_of_join. exists (migration_statements previous next c). split; [done|]. by apply list_elem_of_fmap_2. Qed.

(** Creating the table and the indexes of a collection. *)
Lemma creates c s s' : c ∈ sm_collections next → exec_all exec (ddl_text <$> collection_statements ids c) s = Ok s' →
  ¬ present c s ∧ present c s' ∧ ∀ k, is_Some (ns_tables s !! k) → is_Some (ns_tables s' !! k).
Proof.
  intros Hc He. split.
  - intros Hp. unfold collection_statements in He. cbn [fmap list_fmap exec_all] in He. apply bind_Ok in He as (s1 & H1 & _).
    by apply (Hrefuse _ _ _ _ _ Hp) in H1.
  - apply run_known in He; [|by apply created_known]. subst s'. unfold collection_statements.
    change (run_all (?d :: ?ds) s) with (run_all ds (run_ddl d s)). rewrite run_indexes. cbn [table_statement run_ddl ns_tables].
    split; [by rewrite lookup_insert_eq|]. intros k Hk. destruct (decide (k = table_name c)) as [->|Hne]; [by rewrite lookup_insert_eq|by rewrite lookup_insert_ne].
Qed.

(** The tables that a misled selection creates were not there, and stay. *)
Lemma creates_misled c ds : ∀ s s', (∀ d, d ∈ ds → d ∈ sm_collections next) → exec_all exec (ddl_text <$> misled next c ds) s = Ok s' →
  (∀ k, is_Some (ns_tables s !! k) → is_Some (ns_tables s' !! k)) ∧ (∀ d, d ∈ ds → misleads next c d = true → ¬ present d s ∧ present d s').
Proof.
  unfold misled. induction ds as [|d ds IH]; intros s s' Hin; cbn [filterb].
  { intros [= <-]. split; [done|]. by intros d ?%elem_of_nil. }
  destruct (misleads next c d) eqn:M; cbn [fmap list_fmap exec_all].
  - intros (s1 & H1 & H2)%bind_Ok. apply IH in H2 as [Hk Hd]; [|intros e He; apply Hin; by right].
    assert (¬ present d s) as Hn by (intros Hp; by apply (Hrefuse _ _ _ _ _ Hp) in H1).
    apply Hdoc in H1 as ->; [|apply (created_known d); [apply Hin|]; left]. cbn [table_statement run_ddl ns_tables] in Hk, Hd.
    assert (∀ k, is_Some (ns_tables s !! k) → is_Some (<[table_name d:=∅]> (ns_tables s) !! k)) as Hgrow.
    { intros k Hs. destruct (decide (k = table_name d)) as [->|Hne]; [by rewrite lookup_insert_eq|by rewrite lookup_insert_ne]. }
    split; [by auto|]. intros e [->|He]%elem_of_cons Me.
    + split; [done|]. apply Hk. by rewrite lookup_insert_eq.
    + destruct (Hd e He Me) as [He1 He2]. split; [|done]. intros Hp. apply He1. by apply Hgrow.
  - intros H. apply IH in H as [Hk Hd]; [|intros e He; apply Hin; by right]. split; [done|]. intros e [->|He]%elem_of_cons Me; [congruence|auto].
Qed.

(** What a committed block of statements of one collection says about the tables of the schema. *)
Record block_ok (c : AdmittedCollection) (others : list AdmittedCollection) (s s' : NativeState) : Prop := {
  bo_keeps : ∀ d, d ∈ sm_collections next → present d s → present d s';
  bo_own : present c s → present c s';
  bo_new : is_new c → ¬ present c s ∧ present c s';
  bo_misled : prior_used previous c = true → ∀ d, d ∈ others → misleads next c d = true → ¬ present d s ∧ present d s';
}.

Lemma new_block pre c post s s' :
  sm_collections next = pre ++ c :: post → is_new c → exec_all exec (migrate_collection previous next c) s = Ok s' → block_ok c (pre ++ post) s s'.
Proof.
  intros E Hn. unfold migrate_collection. unfold prior_of in Hn. rewrite Hn, (selected_split next pre c post) by done. rewrite !fmap_app.
  assert (∀ d, d ∈ pre ∨ d = c ∨ d ∈ post → d ∈ sm_collections next) as Hin by (intros d Hd; rewrite E; set_solver).
  intros (s1 & H1 & (s2 & H2 & H3)%exec_all_app)%exec_all_app.
  apply creates_misled in H1 as [K1 D1]; [|intros d Hd; apply Hin; auto]. apply creates in H2 as (Hn2 & Hp2 & K2); [|apply Hin; auto].
  apply creates_misled in H3 as [K3 D3]; [|intros d Hd; apply Hin; auto]. split.
  - intros d _ Hp. auto.
  - intros Hp. auto.
  - intros _. split; [|by auto]. intros Hp. apply Hn2. auto.
  - intros _ d [Hd|Hd]%elem_of_app Hm.
    + destruct (D1 d Hd Hm). auto.
    + destruct (D3 d Hd Hm) as [Ha Hb]. split; [|done]. intros Hp. apply Ha. auto.
Qed.

Lemma rename_present (c : AdmittedCollection) columns s :
  let s1 := run_all [CopyRows (temporary_table c) (table_name c) columns; DropTable (table_name c); RenameTable (temporary_table c) (table_name c)] s in
  present c s1 ∧ ∀ d, d ∈ sm_collections next → c ∈ sm_collections next → present d s → present d s1.
Proof.
  pose proof (temporary_ne c) as Hne. cbn [run_all foldl run_ddl ns_tables]. unfold rename. rewrite lookup_delete_ne, lookup_insert_eq by done.
  split; [by rewrite lookup_insert_eq|]. intros d Hd Hc Hp. destruct (decide (table_name d = table_name c)) as [->|Hdc]; [by rewrite lookup_insert_eq|].
  assert (table_name d ≠ temporary_table c) by (apply temporary_fresh; by apply Hid).
  by rewrite lookup_insert_ne, lookup_delete_ne, lookup_delete_ne, lookup_insert_ne.
Qed.

(** A rebuild whose first selected statement is not its own does not commit. *)
Lemma rebuild_block pre c post prior f fs s s' :
  sm_collections next = pre ++ c :: post → prior_of previous c = Some prior → removed_fields prior c = f :: fs →
  exec_all exec (rebuild_table next prior c) s = Ok s' → block_ok c (pre ++ post) s s'.
Proof.
  intros E Hp Hr. unfold rebuild_table. rewrite (selected_split next pre c post) by done.
  assert (∀ d, d ∈ pre ∨ d = c ∨ d ∈ post → d ∈ sm_collections next) as Hin by (intros d Hd; rewrite E; set_solver).
  set (moves := [CopyRows (temporary_table c) (table_name c) (copied_columns prior c); DropTable (table_name c); RenameTable (temporary_table c) (table_name c)]).
  assert (∀ d, d ∈ DeferForeignKeys :: table_statement ids (temporary_table c) c :: moves → d ∈ creation next ++ migration previous next) as Hknown.
  { intros d Hd. apply (migrated_known c); [by auto|]. unfold migration_statements. unfold prior_of in Hp. rewrite Hp, Hr. apply elem_of_app. by left. }
  assert (∀ X rest, exec_all exec (js "PRAGMA defer_foreign_keys = ON" :: X :: (ddl_text <$> moves) ++ rest) s = Ok s' →
    ∃ s0 s1, exec_all exec [js "PRAGMA defer_foreign_keys = ON"; X] s = Ok s0 ∧ s1 = run_all moves s0 ∧ exec_all exec rest s1 = Ok s') as Hsplit.
  { intros X rest H. change (_ :: X :: ?r) with ([js "PRAGMA defer_foreign_keys = ON"; X] ++ r) in H. apply exec_all_app in H as (s0 & H0 & (s1 & H1 & H2)%exec_all_app).
    exists s0, s1. split; [done|]. split; [|done]. eapply run_known; [|exact H1]. intros d Hd. apply Hknown. by do 2 right. }
  destruct (misled next c pre) as [|x xs] eqn:M; cbn [app fmap list_fmap head tail default from_option id].
  - intros (s0 & s1 & H0 & -> & H2)%Hsplit. unfold collection_statements in H0. cbn [app fmap list_fmap head default from_option id] in H0.
    rewrite replaced_table in H0. change [js "PRAGMA defer_foreign_keys = ON"; ddl_text (table_statement ids (temporary_table c) c)] with
      (ddl_text <$> [DeferForeignKeys; table_statement ids (temporary_table c) c]) in H0.
    apply run_known in H0; [|intros d Hd; apply Hknown; set_solver]. subst s0.
    assert (∀ d, d ∈ sm_collections next → present d s → present d (run_all [DeferForeignKeys; table_statement ids (temporary_table c) c] s)) as K0.
    { intros d Hd Hs. cbn [run_all foldl run_ddl table_statement ns_tables]. rewrite lookup_insert_ne; [done|]. apply not_eq_sym, temporary_fresh; apply Hid; auto. }
    set (s0 := run_all [DeferForeignKeys; _] s) in *. destruct (rename_present c (copied_columns prior c) s0) as [Hown K1].
    change (exec_all exec (ddl_text <$> (imap (index_statement c) (cl_indexes c) ++ misled next c post)) (run_all moves s0) = Ok s') in H2.
    rewrite fmap_app in H2. apply exec_all_app in H2 as (s2 & H2 & H3).
    apply run_known in H2; [|intros d Hd; apply (created_known c); [by auto|by right]]. rewrite run_indexes in H2. subst s2.
    apply creates_misled in H3 as [K3 D3]; [|intros d Hd; apply Hin; auto]. split.
    + intros d Hd Hs. apply K3, K1; auto.
    + intros _. by apply K3.
    + intros Hn. congruence.
    + intros _ d [Hd|Hd]%elem_of_app Hm.
      * exfalso. assert (d ∈ filterb (misleads next c) pre) as Hf by (by apply elem_of_filterb).
        unfold misled in M. apply fmap_nil_inv in M. rewrite M in Hf. by apply elem_of_nil in Hf.
      * destruct (D3 d Hd Hm) as [Ha Hb]. split; [|done]. intros Hs. apply Ha, K1; auto.
  - intros (s0 & s1 & _ & -> & H2)%Hsplit. exfalso. destruct (rename_present c (copied_columns prior c) s0) as [Hown _].
    set (s1 := run_all moves s0) in *. rewrite !fmap_app in H2.
    apply exec_all_app in H2 as (s2 & H2 & (s3 & H3 & _)%exec_all_app). apply creates in H3 as (Hn3 & _ & _); [|by auto]. apply Hn3.
    assert (∃ d ds, xs = misled next c ds ∧ d ∈ pre ∧ ∀ e, e ∈ ds → e ∈ pre) as (_ & ds & -> & _ & Hds).
    { unfold misled in M. destruct (filterb (misleads next c) pre) as [|d ds] eqn:F; [done|]. cbn [fmap list_fmap] in M. injection M as _ <-.
      assert (∀ e, e ∈ d :: ds → e ∈ pre ∧ misleads next c e = true) as Hall by (intros e He; rewrite <-F in He; by apply elem_of_filterb in He).
      exists d, ds. split_and!; [|by apply Hall; left|intros e He; apply Hall; by right]. unfold misled.
      rewrite filterb_all; [done|]. intros e He. apply Hall. by right. }
    apply creates_misled in H2 as [K2 _]; [by apply K2|]. intros e He. apply Hin. auto.
Qed.

Lemma column_block c prior s s' : c ∈ sm_collections next → prior_of previous c = Some prior → removed_fields prior c = [] →
  exec_all exec (migrate_collection previous next c) s = Ok s' → ∀ k, is_Some (ns_tables s !! k) → is_Some (ns_tables s' !! k).
Proof.
  intros Hc Hp Hr. rewrite migrate_text; [|unfold prior_used; unfold prior_of in Hp; by rewrite Hp, Hr].
  intros H. apply run_known in H; [|by apply migrated_known]. subst s'. unfold migration_statements. unfold prior_of in Hp. rewrite Hp, Hr.
  generalize (added_fields prior c) as fs. intros fs. revert s. induction fs as [|f fs IH]; intros s k Hk; [done|].
  cbn [fmap list_fmap]. change (run_all (?d :: ?ds) s) with (run_all ds (run_ddl d s)). apply IH. cbn [run_ddl ns_tables].
  destruct (decide (k = table_name c)) as [->|Hne]; [rewrite lookup_alter_eq; destruct Hk as [t ->]; by eexists|by rewrite lookup_alter_ne].
Qed.

Lemma block_committed pre c post s s' :
  sm_collections next = pre ++ c :: post → exec_all exec (migrate_collection previous next c) s = Ok s' → block_ok c (pre ++ post) s s'.
Proof.
  intros E H. assert (c ∈ sm_collections next) as Hc by (rewrite E; set_solver). destruct (prior_of previous c) as [prior|] eqn:Hp; [|by eapply new_block].
  destruct (removed_fields prior c) as [|f fs] eqn:Hr.
  - pose proof (column_block c prior s s' Hc Hp Hr H) as K. split; [by auto|by auto|congruence|].
    unfold prior_used. unfold prior_of in Hp. by rewrite Hp, Hr.
  - eapply rebuild_block; [done..|]. unfold migrate_collection in H. unfold prior_of in Hp. by rewrite Hp, Hr in H.
Qed.

Lemma blocks_intended post : ∀ pre s s', sm_collections next = pre ++ post →
  (∀ d, d ∈ pre → present d s) → (∀ d, d ∈ sm_collections next → ¬ is_new d → present d s) →
  exec_all exec (mjoin (migrate_collection previous next <$> post)) s = Ok s' →
  (∀ d, d ∈ post → is_new d → ¬ present d s) ∧
  (∀ c, c ∈ post → migrate_collection previous next c = ddl_text <$> migration_statements previous next c).
Proof.
  induction post as [|c post IH]; intros pre s s' E Hpre Hprior; [by split; intros ? ?%elem_of_nil|].
  cbn [fmap list_fmap]. change (mjoin (?x :: ?xs)) with (x ++ mjoin xs). intros (s1 & H1 & H2)%exec_all_app.
  assert (∀ d, d ∈ pre ∨ d ∈ post ∨ d = c → d ∈ sm_collections next) as Hin by (intros d Hd; rewrite E; set_solver).
  pose proof (block_committed pre c post s s1 E H1) as B.
  assert (present c s1) as Hc1.
  { destruct (prior_of previous c) eqn:Hp; [|by apply (bo_new _ _ _ _ B)]. apply (bo_own _ _ _ _ B), Hprior; [by auto|congruence]. }
  destruct (IH (pre ++ [c]) s1 s') as [Hnew Htext].
  - by rewrite <-(assoc_L app).
  - intros d [Hd|Hd%list_elem_of_singleton]%elem_of_app; [|by subst d]. apply (bo_keeps _ _ _ _ B); auto.
  - intros d Hd Hn. apply (bo_keeps _ _ _ _ B); auto.
  - done.
  - split.
    + intros d [->|Hd]%elem_of_cons Hn; [by apply (bo_new _ _ _ _ B)|]. intros Hs. apply (Hnew d Hd Hn). apply (bo_keeps _ _ _ _ B); auto.
    + intros d [->|Hd]%elem_of_cons; [|by apply Htext]. apply migrate_text. intros Hu. rewrite (selected_split next pre c post) by done.
      assert (∀ ds, (∀ d, d ∈ ds → d ∈ pre ++ post) → misled next c ds = []) as Hnone.
      { intros ds Hds. unfold misled. assert (filterb (misleads next c) ds = []) as ->; [|done]. apply filterb_nil. intros e He. destruct (misleads next c e) eqn:M; [|done]. exfalso.
        destruct (bo_misled _ _ _ _ B Hu e (Hds e He) M) as [Ha Hb]. apply Hds, elem_of_app in He as [He|He]; [by apply Ha, Hpre|].
        destruct (prior_of previous e) eqn:Hp; [apply Ha, Hprior; [by auto|congruence]|by apply (Hnew e)]. }
      rewrite !Hnone; [by rewrite app_nil_r|set_solver..].
Qed.

(** The statements of a migration that commits are the intended ones. *)
Lemma committed_intended db s : tables_ok (db_tables db) previous →
  exec_all exec (additiveSchemaDdl previous next) (native_state (schema_columns previous) db) = Ok s →
  additiveSchemaDdl previous next = ddl_text <$> migration previous next.
Proof.
  intros Hok H. apply migration_of_collections. intros c Hc.
  destruct (blocks_intended (sm_collections next) [] (native_state (schema_columns previous) db) s) as [_ Ht]; [done|by intros ? ?%elem_of_nil| |done|by apply Ht].
  intros d Hd Hn. destruct (prior_of previous d) as [p|] eqn:Hp; [|done]. apply find_Some in Hp as [Hin Hp]. bool_to_prop.
  cbn. rewrite <-Hp. destruct (Hok p Hin) as (t & -> & _). by eexists.
Qed.
End Committed.

(** ** Histories of an app *)

(** The invariant of an app: a consistent store, whose native names are distinct. *)
Definition app_ok (db : AppDb) : Prop :=
  ∃ metadata, store_ok db metadata ∧ schema_wf (md_schema metadata) ∧ identified (md_schema metadata).

Lemma run_creation ids cs : ∀ s name, (name ∈ (λ c, table_name c) <$> cs ∨ ns_tables s !! name = Some ∅) →
  ns_tables (run_all (mjoin (collection_statements ids <$> cs)) s) !! name = Some ∅.
Proof.
  induction cs as [|c cs IH]; intros s name; cbn [fmap list_fmap]; [intros [H%elem_of_nil|H]; done|]. intros H.
  change (mjoin (?x :: ?xs)) with (x ++ mjoin xs). rewrite run_all_app. apply IH. unfold collection_statements.
  change (run_all (?d :: ?ds) s) with (run_all ds (run_ddl d s)). rewrite run_indexes. cbn [table_statement run_ddl ns_tables].
  destruct (decide (name = table_name c)) as [->|Hne]; [right; apply lookup_insert_eq|]. rewrite lookup_insert_ne by done.
  rewrite elem_of_cons in H. naive_solver.
Qed.

Section Histories.
Context (exec : jsstr → NativeState → result CommandFailure NativeState) (integrity_ok : NativeState → bool).
Context (schema_digest : AdmittedSchema → jsstr).
Context (encoded_bytes : SchemaInput → Z) (first_issue : SchemaInput → jsstr * jsstr) (uuid_ok : jsstr → bool).
Context (json_bytes : jsval → Z) (native_constraint : AdmittedCollection → gmap jsstr Table → jsstr → RecordRow → option string)
        (source_matches : AppDb → AdmittedCollection → jsstr → CompiledFilter → bool) (sha1_digest : list Z → list Z).

(** One committed command of any kind.  A schema update is prepared from a proposal, or from a definition
    selected in the catalog; the engine runs its statements as documented. *)
Inductive app_step (db : AppDb) : AppDb → Prop :=
| app_record db' :
    command_step json_bytes native_constraint source_matches sha1_digest db db' → app_step db db'
| app_schema fresh selected history context expectedApp expectedSchema schema next current db' :
    db_metadata db = Some current →
    prepareSchema fresh encoded_bytes first_issue uuid_ok selected history db expectedApp expectedSchema schema = Ok next →
    (selected = true → catalogued encoded_bytes first_issue schema) →
    documented exec (creation next ++ migration (md_schema current) next) →
    updateSchema exec integrity_ok schema_digest db context expectedApp expectedSchema (Some next) = Ok db' →
    app_step db db'
| app_format context expectedApp db' : completeFormat db context expectedApp = Ok db' → app_step db db'
| app_rollback context expectedApp schemaRevision db' : stampRollback db context expectedApp schemaRevision = Ok db' → app_step db db'.

Lemma create_app_ok fresh selected db workspaceId context schema admitted db' :
  prepareCreation fresh encoded_bytes first_issue uuid_ok selected db schema = Ok admitted →
  (selected = true → catalogued encoded_bytes first_issue schema) →
  documented exec (creation admitted) →
  createApp exec schema_digest db workspaceId context (Some admitted) = Ok db' → app_ok db'.
Proof.
  intros Ha Hcat Hd. unfold prepareCreation in Ha. destruct (prepareDefinition _ _ _ _ _ _ _ _ _) as [s|] eqn:Hp; [|done]. injection Ha as ->.
  apply prepared_Ok in Hp as (Hwf & Hid & _); [|done].
  unfold createApp, commitNewApp. destruct (db_metadata db); [done|]. rewrite creation_text.
  intros (s & ->%exec_documented & [= <-])%bind_Ok; [|done].
  assert (∀ c, c ∈ sm_collections admitted → ns_tables (run_all (creation admitted) (native_state ∅ db)) !! table_name c = Some ∅) as Ht.
  { intros c Hc. apply run_creation. left. by apply (list_elem_of_fmap_2 (λ c, table_name c)). }
  eexists. split; [apply audit_store; split; [reflexivity|..]|done].
  - intros c Hc. exists ∅. split; [by apply Ht|]. intros rid row Hr. by rewrite lookup_empty in Hr.
  - eexists. split; [apply total_count; intros c Hc; cbn; rewrite Ht by done; by eexists|]. cbn [with_metadata with_tables db_tables new_metadata md_schema].
    assert (∀ cs, (∀ c, c ∈ cs → c ∈ sm_collections admitted) →
      total (ns_tables (run_all (creation admitted) (native_state ∅ db))) ((λ c, table_name c) <$> cs) = 0%nat) as ->; [|done|by cbn].
    intros cs. unfold total. induction cs as [|c cs IH]; intros Hin; [done|]. cbn [fmap list_fmap sum_list_with].
    rewrite Ht by (apply Hin; left). rewrite IH by (intros d Hd'; apply Hin; by right). done.
Qed.

Lemma bump_store db metadata revision context action resource rr sr :
  store_ok db metadata →
  store_ok (recordKernelAudit (with_metadata db (bump_revision metadata revision)) context action resource rr sr [] [] None) (bump_revision metadata revision).
Proof.
  intros [_ Ht (n & Hn & Hle)]. apply audit_store. split; [done|done|]. exists n. split; [|done]. by apply (count_same db).
Qed.

Lemma app_step_ok db db' : refuses_existing exec → app_ok db → app_step db db' → app_ok db'.
Proof.
  intros Href (current & Hok & Hwf & Hid) Hstep. pose proof (so_metadata _ _ Hok) as Hm. destruct Hstep as [db' H|fresh selected history ctx ea es proposal next cur db' Hc Hp Hq Hd Hu|ctx ea db' H|ctx ea sr db' H].
  - destruct (step_preserves _ _ _ _ _ _ _ Hwf Hok H) as (m & Hm' & E). exists m. by rewrite E.
  - rewrite Hm in Hc. injection Hc as <-. apply (prepare_Ok _ _ _ _ _ _ _ _ _ _ _ current) in Hp as (Hwf' & Hid' & Hsafe & _); [|done..].
    apply schema_update_Ok in Hu as (current' & s & Hm' & _ & _ & _ & Hs & _ & _ & Hmd & Ht). rewrite Hm in Hm'. injection Hm' as <-.
    destruct Hok as [_ Htab (n & Hn & Hle)]. pose proof (committed_intended exec _ next Href Hid' Hwf' Hd db s Htab Hs) as Htext.
    assert (documented exec (migration (md_schema current) next)) as Hd' by (intros d s0 s1 Hin; apply Hd, elem_of_app; by right).
    pose proof (update_tables _ db current next s Hid Hwf' Hid' Htext Hd' Hs) as Hmig.
    assert (tables_ok (ns_tables s) next) as Hnew by (by eapply tables_migrated).
    exists (updated_metadata schema_digest current next). split; [split; [done|by rewrite Ht|]|done].
    eexists. split; [apply total_count; intros c Hc; rewrite Ht; by destruct (Hnew c Hc) as (t & -> & _)|]. cbn [updated_metadata md_schema].
    rewrite Ht. apply count_total in Hn. pose proof (total_migrated _ _ _ _ Hwf' Htab Hmig). lia.
  - unfold completeFormat, readMetadata in H. rewrite Hm in H. cbn [mbind result_bind] in H. apply bind_Ok in H as ([] & _ & H).
    destruct (negb (md_appRevision _ =? _)); [done|]. destruct (negb (_ =? _)); [done|]. injection H as <-.
    eexists. split; [by apply bump_store|done].
  - unfold stampRollback, readMetadata in H. rewrite Hm in H. injection H as <-. eexists. split; [by apply bump_store|done].
Qed.

(** C8. Every reachable app database is consistent, whatever definitions and records are written: from
    the creation of an app, over any history of committed record commands, schema updates, format
    completions and rollback stamps, every collection of the current schema keeps its table, every
    row has a positive revision and in each field column of the current schema either null of an
    optional field or an accepted value, every relation names a record of its target collection,
    and the app holds at most 10,000 records.  Definitions are authored proposals or selected from the
    catalog, which holds what an admission returned.  The engine refuses to create a table that exists and
    has the documented effect on the statements of each creation and migration that succeed. *)
Theorem app_history_is_consistent fresh selected db workspaceId context schema admitted db0 db' :
  refuses_existing exec →
  prepareCreation fresh encoded_bytes first_issue uuid_ok selected db schema = Ok admitted →
  (selected = true → catalogued encoded_bytes first_issue schema) →
  documented exec (creation admitted) →
  createApp exec schema_digest db workspaceId context (Some admitted) = Ok db0 →
  rtc app_step db0 db' → app_ok db'.
Proof.
  intros Href Ha Hcat Hd Hc Hsteps. eapply create_app_ok in Hc; [|done..]. induction Hsteps as [|x y z Hxy _ IH]; [done|].
  by eapply IH, app_step_ok.
Qed.
End Histories.

(** ** A concrete history *)

Module MigrationDemo.

(** The text creates a table of the state. *)
Definition creates_existing (text : jsstr) (s : NativeState) : bool :=
  existsb (λ t, starts_with (js "CREATE TABLE " ++ quoteIdent t ++ js " (") text) (fst <$> map_to_list (ns_tables s)).

(** An engine that knows these statements. *)
Definition engine (ds : list Ddl) (text : jsstr) (s : NativeState) : result CommandFailure NativeState :=
  if creates_existing text s then Err (NativeFailure "SQLITE_ERROR")
  else match find (λ d, bool_decide (ddl_text d = text)) ds with
       | Some d => Ok (run_ddl d s)
       | None => Err (NativeFailure "SQLITE_ERROR")
       end.

Definition distinct_texts (ds : list Ddl) : bool := bool_decide (NoDup (ddl_text <$> ds)).

Lemma engine_documented known ds : distinct_texts known = true → (∀ d, d ∈ ds → d ∈ known) → documented (engine known) ds.
Proof.
  intros Hn%bool_decide_eq_true_1 Hin d s s' Hd. unfold engine. destruct (creates_existing _ _); [done|].
  rewrite (find_unique ddl_text known d Hn) by auto. by intros [= <-].
Qed.

Lemma engine_refuses known : refuses_existing (engine known).
Proof.
  intros table columns constraints s s' [t Ht]. unfold engine.
  assert (creates_existing (ddl_text (CreateTable table columns constraints)) s = true) as ->; [|done].
  apply existsb_exists. exists table. split.
  - apply list_elem_of_In, list_elem_of_fmap. exists (table, t). split; [done|]. by apply elem_of_map_to_list.
  - apply starts_with_iff. eexists. cbn [ddl_text]. rewrite <-!(assoc_L app). reflexivity.
Qed.

Definition app_id : jsstr := js "6ba7b811-9dad-11d1-80b4-00c04fd430c8".
Definition new_db : AppDb := {| db_appId := app_id; db_metadata := None; db_tables := ∅; db_audit := [] |}.
Definition admitted (fresh : nat → string → jsstr) (proposal : SchemaInput) (revision : Z) (existing : option SchemaInput) :=
  admitLightAppSchema fresh (λ _, 1000) (λ _, ([], [])) (λ _, true) proposal app_id revision existing.

Definition no_schema : AdmittedSchema :=
  {| sm_appId := []; sm_schemaRevision := 0; sm_title := []; sm_purpose := []; sm_references := []; sm_collections := [] |}.
Definition first_schema : AdmittedSchema := AdmissionDemo.result_or (admitted AdmissionDemo.fresh AdmissionDemo.first_proposal 1 None) no_schema.
Definition second_schema : AdmittedSchema :=
  AdmissionDemo.result_or (admitted AdmissionDemo.update_fresh AdmissionDemo.second_proposal 2 (Some (definition_of first_schema))) no_schema.

(** The first collection loses a field and gains one, the second is new. *)
Definition known : list Ddl := dedup (creation first_schema ++ creation second_schema ++ migration first_schema second_schema).
Definition digest (s : AdmittedSchema) : jsstr := int_text (sm_schemaRevision s).
Definition intact (s : NativeState) : bool := true.

Definition db_or (r : result CommandFailure AppDb) : AppDb := match r with Ok db => db | Err _ => new_db end.
Definition created_db : AppDb := db_or (createApp (engine known) digest new_db (js "ws") (StoreDemo.ctx "r0") (Some first_schema)).
Definition add_person (db : AppDb) :=
  createRecord StoreDemo.small StoreDemo.unconstrained Sha1.sha1 db StoreDemo.now (StoreDemo.ctx "r1") (js "people") 1 (JObj [(js "name", JStr (js "ada"))]).
Definition person_db : AppDb := match add_person created_db with Ok (_, db) => db | Err _ => new_db end.
Definition update_run := updateSchema (engine known) intact digest person_db (StoreDemo.ctx "r2") 1 1 (Some second_schema).
Definition updated_db : AppDb := db_or update_run.

Lemma known_distinct : distinct_texts known = true.
Proof. vm_compute. reflexivity. Qed.

Lemma first_is_admitted :
  prepareCreation AdmissionDemo.fresh (λ _, 1000) (λ _, ([], [])) (λ _, true) false new_db AdmissionDemo.first_proposal = Ok first_schema.
Proof. vm_compute. reflexivity. Qed.
Lemma app_created : createApp (engine known) digest new_db (js "ws") (StoreDemo.ctx "r0") (Some first_schema) = Ok created_db.
Proof. vm_compute. reflexivity. Qed.
Lemma person_created : is_ok (add_person created_db) = true.
Proof. vm_compute. reflexivity. Qed.
Lemma second_is_prepared :
  prepareSchema AdmissionDemo.update_fresh (λ _, 1000) (λ _, ([], [])) (λ _, true) false (Some [first_schema]) person_db 1 1 AdmissionDemo.second_proposal = Ok second_schema.
Proof. vm_compute. reflexivity. Qed.

(** The same definition, imported into the catalog and selected there. *)
Definition second_definition : SchemaInput :=
  match admitLightAppDefinition AdmissionDemo.update_fresh (λ _, 1000) (λ _, ([], [])) AdmissionDemo.second_proposal (Some (definition_of first_schema)) with
  | Ok d => d
  | Err _ => AdmissionDemo.second_proposal
  end.
Lemma second_is_catalogued : catalogued (λ _, 1000) (λ _, ([], [])) second_definition.
Proof. exists AdmissionDemo.update_fresh, AdmissionDemo.second_proposal, (Some (definition_of first_schema)). vm_compute. reflexivity. Qed.
Lemma second_is_selected :
  prepareSchema AdmissionDemo.fresh (λ _, 1000) (λ _, ([], [])) (λ _, true) true (Some [first_schema]) person_db 1 1 second_definition = Ok second_schema.
Proof. vm_compute. reflexivity. Qed.
Lemma schema_is_updated : update_run = Ok updated_db.
Proof. vm_compute. reflexivity. Qed.
Lemma person_metadata : db_metadata person_db = Some (new_metadata digest (js "ws") first_schema).
Proof. vm_compute. reflexivity. Qed.

Lemma creation_documented : documented (engine known) (creation first_schema).
Proof. apply engine_documented; [exact known_distinct|]. intros d Hd. apply elem_of_dedup, elem_of_app. by left. Qed.
Lemma migration_documented : documented (engine known) (migration first_schema second_schema).
Proof. apply engine_documented; [exact known_distinct|]. intros d Hd. apply elem_of_dedup. rewrite !elem_of_app. by do 2 right. Qed.
Lemma update_documented : documented (engine known) (creation second_schema ++ migration first_schema second_schema).
Proof. apply engine_documented; [exact known_distinct|]. intros d Hd. apply elem_of_dedup, elem_of_app. by right. Qed.

Lemma second_quote_free : quote_free second_schema.
Proof.
  assert (forallb (λ c, forallb (λ f, bool_decide (default [] (fd_options f ≫= opt_values) = [])) (cl_fields c)) (sm_collections second_schema) = true) as H
    by (vm_compute; reflexivity).
  intros c f v Hc Hf Hv. rewrite forallb_elem in H. specialize (H c Hc). rewrite forallb_elem in H. specialize (H f Hf).
  apply bool_decide_eq_true_1 in H. rewrite H in Hv. by apply elem_of_nil in Hv.
Qed.

Local Abbreviation demo_step := (app_step (engine known) intact digest (λ _, 1000) (λ _, ([], [])) (λ _, true) StoreDemo.small StoreDemo.unconstrained StoreDemo.in_source Sha1.sha1).

Lemma person_step : demo_step created_db person_db.
Proof.
  apply app_record. pose proof person_created as H. unfold person_db. destruct (add_person created_db) as [[r d]|] eqn:E; [|discriminate H].
  unfold add_person in E. exact (step_create _ _ _ _ _ _ _ _ _ _ _ _ E).
Qed.

Lemma update_step : demo_step person_db updated_db.
Proof.
  exact (app_schema (engine known) intact digest (λ _, 1000) (λ _, ([], [])) (λ _, true) StoreDemo.small StoreDemo.unconstrained StoreDemo.in_source Sha1.sha1
    person_db AdmissionDemo.fresh true (Some [first_schema]) (StoreDemo.ctx "r2") 1 1 second_definition
    second_schema (new_metadata digest (js "ws") first_schema) updated_db person_metadata second_is_selected (λ _, second_is_catalogued)
    update_documented schema_is_updated).
Qed.

Lemma person_app_ok : app_ok person_db.
Proof.
  eapply app_step_ok; [apply engine_refuses| |exact person_step].
  eapply (create_app_ok (engine known) digest (λ _, 1000) (λ _, ([], [])) (λ _, true) AdmissionDemo.fresh false new_db (js "ws") (StoreDemo.ctx "r0"));
    [exact first_is_admitted|discriminate|exact creation_documented|exact app_created].
Qed.

Lemma person_store : store_ok person_db (new_metadata digest (js "ws") first_schema) ∧ schema_wf first_schema ∧ identified first_schema.
Proof.
  destruct person_app_ok as (m & Hok & Hwf & Hid). pose proof (so_metadata _ _ Hok) as Hm. rewrite person_metadata in Hm. by injection Hm as <-.
Qed.

Definition people_collection : AdmittedCollection := default {| cl_id := []; cl_name := []; cl_description := []; cl_fields := []; cl_indexes := [] |} (head (sm_collections first_schema)).

Lemma people_first : sm_collections first_schema = [people_collection].
Proof. vm_compute. reflexivity. Qed.
Lemma people_in_first : people_collection ∈ sm_collections first_schema.
Proof. rewrite people_first. left. Qed.

Lemma schema_update_keeps_records_witness :
  update_run = Ok updated_db ∧
  ∃ t t', db_tables person_db !! table_name people_collection = Some t ∧ db_tables updated_db !! table_name people_collection = Some t' ∧ dom t' = dom t.
Proof.
  split; [exact schema_is_updated|]. destruct person_store as (Hok & Hwf & Hid).
  destruct (schema_update_keeps_records (engine known) intact digest AdmissionDemo.update_fresh (λ _, 1000) (λ _, ([], [])) (λ _, true)
    false (Some [first_schema]) person_db (StoreDemo.ctx "r2") 1 1 AdmissionDemo.second_proposal second_schema updated_db
    (new_metadata digest (js "ws") first_schema) Hok Hwf Hid second_is_prepared (λ H, False_ind _ (diff_false_true H)) second_quote_free migration_documented schema_is_updated) as (H & _).
  destruct (H people_collection people_in_first) as (c & t & t' & _ & _ & H1 & H2 & H3 & _).
  exact (ex_intro _ t (ex_intro _ t' (conj H1 (conj H2 H3)))).
Defined.

Lemma app_history_is_consistent_witness : app_ok updated_db.
Proof.
  apply (app_history_is_consistent (engine known) intact digest (λ _, 1000) (λ _, ([], [])) (λ _, true) StoreDemo.small StoreDemo.unconstrained StoreDemo.in_source
    Sha1.sha1 AdmissionDemo.fresh false new_db (js "ws") (StoreDemo.ctx "r0") AdmissionDemo.first_proposal first_schema created_db).
  - apply engine_refuses.
  - exact first_is_admitted.
  - discriminate.
  - exact creation_documented.
  - exact app_created.
  - exact (rtc_l _ _ _ _ person_step (rtc_once _ _ update_step)).
Defined.

(** The one record and its values after the update. *)
Example person_after_update :
  (λ row, ((λ f, row_fields row !! column_name f) <$> cl_fields people_collection, size (row_fields row))) <$>
    (snd <$> head (map_to_list (default ∅ (db_tables updated_db !! table_name people_collection))))
  = Some ([Some (JStr (js "ada")); None], 2%nat).
Proof. vm_compute. reflexivity. Qed.
End MigrationDemo.
