(* ===== verification/WorkspaceReconciliation.v ===== *)
(** * Workspace reconciliation (apps/nanocore/src/storage/workspace-reconciliation-records.ts,
    workspace-reconciliation-decision.ts, workspace-takeover-native.ts, workspace-capture-native.ts and
    runtime/workspace-reconciliation-read.ts)

    After an interruption a workspace keeps one reconciliation record per open question: a handle that was
    taken over, or an original capture source that arrived without its receipt.  A record asks for a human
    decision and retains the backend until it is decided.  The operations here create these records, let
    a human decide them, and resolve a capture from its accepted receipt, which SnapshotChain keeps.

    A stored payload is its known members and its annotations, the members the schema strips; an update
    merges the former and keeps the latter.  Timestamps are instants.  A transaction that throws leaves
    the tables as they were.  The digests of [node:crypto], the two path schemas and the schema of
    evidence bundles are parameters. *)

From S2P Require Import Prelude JsValue CanonicalJson Sha1 EntityId JsonText SnapshotChain.

Local Open Scope string_scope.
Local Open Scope list_scope.
Local Open Scope Z_scope.

(** ** Data *)

Inductive RecoveryState := Recovered | RequiresHuman | Unrecoverable | Quarantined.
#[export] Instance RecoveryState_eq_dec : EqDecision RecoveryState.
Proof. solve_decision. Defined.
Inductive TriggerReason := Restart | BackendTakeover | Manual.
#[export] Instance TriggerReason_eq_dec : EqDecision TriggerReason.
Proof. solve_decision. Defined.
Inductive RetentionDecision := RetainBackend | TeardownBackend | NotApplicable.
#[export] Instance RetentionDecision_eq_dec : EqDecision RetentionDecision.
Proof. solve_decision. Defined.
Inductive ReachabilityStatus := Reachable | BackendUnavailable | ReachabilityUnknown.
#[export] Instance ReachabilityStatus_eq_dec : EqDecision ReachabilityStatus.
Proof. solve_decision. Defined.
Inductive WorkspaceRecoveryDecision := ResumeCollection | StageVerified | Quarantine | Abandon.
#[export] Instance WorkspaceRecoveryDecision_eq_dec : EqDecision WorkspaceRecoveryDecision.
Proof. solve_decision. Defined.

(** The members of [backendHandleSummary] the code reads; [None] is an absent member and [Some None] null. *)
Record HandleSummary := {
  hs_attemptId : option jsstr;
  hs_backendSessionId : option jsstr;
  hs_sandboxBindingRef : option jsstr;
  hs_identity : option WorkspaceCollectionIdentity;
  hs_candidateDigest : option (option jsstr);
  hs_other : list (jsstr * jsstr);
}.
#[export] Instance HandleSummary_eq_dec : EqDecision HandleSummary.
Proof. solve_decision. Defined.

Record BackendReachability := { br_status : ReachabilityStatus; br_checkedAt : Z; br_detail : option jsstr }.
#[export] Instance BackendReachability_eq_dec : EqDecision BackendReachability.
Proof. solve_decision. Defined.

Record WorkspaceReconciliationRecord := {
  wr_id : jsstr;
  wr_workspaceId : jsstr;
  wr_triggerReason : TriggerReason;
  wr_affectedRecordIds : list jsstr;
  wr_backendHandleSummary : HandleSummary;
  wr_backendReachability : BackendReachability;
  wr_collectedOutputManifestIds : list jsstr;
  wr_evidenceBundleIds : list jsstr;
  wr_stateBefore : jsstr;
  wr_stateAfter : RecoveryState;
  wr_quarantineRefs : list jsstr;
  wr_requiredHumanDecision : option jsstr;
  wr_retentionDecision : RetentionDecision;
  wr_startedAt : Z;
  wr_finishedAt : option Z;
}.
#[export] Instance WorkspaceReconciliationRecord_eq_dec : EqDecision WorkspaceReconciliationRecord.
Proof. solve_decision. Defined.

(** A stored row; the columns for the trigger, the state and the end repeat members of the payload. *)
Record ReconciliationRow := {
  rw_core : WorkspaceReconciliationRecord;
  rw_annotations : list (jsstr * jsstr);
  rw_started_at : Z;
  rw_updated_at : Z;
  rw_version : Z;
}.

(** The members of an evidence bundle that differ between captures; the others are constants of its kind. *)
Record EvidenceBundle := {
  eb_id : jsstr;
  eb_workspaceId : jsstr;
  eb_threadId : jsstr;
  eb_turnId : jsstr;
  eb_agentSessionId : jsstr;
  eb_backendType : jsstr;
  eb_rawEvidenceRefs : list jsstr;
  eb_contentDigests : list jsstr;
  eb_createdAt : Z;
}.
#[export] Instance EvidenceBundle_eq_dec : EqDecision EvidenceBundle.
Proof. solve_decision. Defined.

Record Materialization := { mt_id : jsstr; mt_packageSnapshotId : jsstr; mt_workerSessionId : jsstr; mt_backendKind : jsstr }.
Record OutputManifest := { om_id : jsstr; om_materializationRecordId : jsstr }.

(** The tables of one workspace database; materializations and manifests belong to other components. *)
Record RecoveryDb := {
  rd_workspaceId : jsstr;
  rd_chain : WorkspaceDb;
  rd_records : gmap (jsstr * jsstr) ReconciliationRow;
  rd_evidence : gmap jsstr (Z * EvidenceBundle);
  rd_materializations : list Materialization;
}.

Record WorkspaceCaptureAnchor := {
  an_attemptId : jsstr;
  an_workspaceId : jsstr;
  an_threadId : jsstr;
  an_turnId : jsstr;
  an_agentSessionId : jsstr;
  an_packageSnapshotId : jsstr;
  an_backendKind : jsstr;
  an_backendSessionId : jsstr;
  an_sandboxBindingRef : jsstr;
  an_state : jsstr;
}.

Record RawWorkspaceCapture := { rc_identity : WorkspaceCollectionIdentity; rc_result : CollectionResult; rc_candidate : list Z }.

Inductive ReconciliationError :=
| RecordNotFound (id : jsstr)
| DecisionFailed (message : string) (status : Z)
| RecoveryConflict (message : string)
| InvalidRecord
| UnsupportedRecord
| StorageDenied
| CaptureRecoveryRequired (message : string)
| ChainFailed (e : ChainError).

Definition lift_chain {A} (r : result ChainError A) : result ReconciliationError A :=
  match r with Ok a => Ok a | Err e => Err (ChainFailed e) end.

Definition with_records (db : RecoveryDb) (records : gmap (jsstr * jsstr) ReconciliationRow) : RecoveryDb :=
  {| rd_workspaceId := rd_workspaceId db; rd_chain := rd_chain db; rd_records := records; rd_evidence := rd_evidence db;
     rd_materializations := rd_materializations db |}.

Definition CAPTURE_PREFIX : jsstr := js "wrr_capture_".
Definition capture_record_id (collection : jsstr) : jsstr := CAPTURE_PREFIX ++ collection.

Section Reconciliation.
(** SHA-256 of bytes behind its prefix, of a text in hexadecimal, and the schemas of stored and of new
    paths and of evidence bundles. *)
Context (digest : list Z → jsstr) (text_digest : jsstr → jsstr).
Context (stored_path path : jsstr → bool) (bundle_ok : EvidenceBundle → bool).

(** *** Records *)

Definition record_ok (path_ok : jsstr → bool) (r : WorkspaceReconciliationRecord) : bool :=
  nonempty (wr_id r) && isEntityId "ws" (JStr (wr_workspaceId r)) && forallb nonempty (wr_affectedRecordIds r)
  && match br_detail (wr_backendReachability r) with Some d => nonempty d | None => true end
  && forallb nonempty (wr_collectedOutputManifestIds r) && forallb nonempty (wr_evidenceBundleIds r) && nonempty (wr_stateBefore r)
  && forallb path_ok (wr_quarantineRefs r)
  && match wr_requiredHumanDecision r with Some d => nonempty d | None => true end.

Definition parse_stored (r : WorkspaceReconciliationRecord) : result ReconciliationError WorkspaceReconciliationRecord :=
  if record_ok stored_path r then Ok r else Err InvalidRecord.

Definition read_row (row : ReconciliationRow) : result ReconciliationError WorkspaceReconciliationRecord :=
  if rw_version row =? RETAINED_FORMAT_VERSION then parse_stored (rw_core row) else Err UnsupportedRecord.

Definition row_cmp (a b : ReconciliationRow) : Z :=
  if rw_started_at a <? rw_started_at b then -1
  else if rw_started_at b <? rw_started_at a then 1
  else str_cmp (wr_id (rw_core a)) (wr_id (rw_core b)).

Definition listWorkspaceReconciliationRecords (db : RecoveryDb) (workspace : jsstr)
    : result ReconciliationError (list WorkspaceReconciliationRecord) :=
  let rows := js_sort row_cmp (snd <$> filterb (λ kr, bool_decide (kr.1.1 = workspace)) (map_to_list (rd_records db))) in
  records ← mapM read_row rows;
  Ok (reverse records).

Definition find_record (db : RecoveryDb) (workspace id : jsstr) : result ReconciliationError (option WorkspaceReconciliationRecord) :=
  records ← listWorkspaceReconciliationRecords db workspace;
  Ok (find (λ r, bool_decide (wr_id r = id)) records).

(** Known facts change, annotations stay; a row keeps the start of its insertion. *)
Definition persistWorkspaceReconciliationRecordV1 (db : RecoveryDb) (record : WorkspaceReconciliationRecord)
    : result ReconciliationError (WorkspaceReconciliationRecord * RecoveryDb) :=
  parsed ← parse_stored record;
  let key := (wr_workspaceId parsed, wr_id parsed) in
  let store annotations started :=
    with_records db (<[key := {| rw_core := parsed; rw_annotations := annotations; rw_started_at := started;
      rw_updated_at := default (wr_startedAt parsed) (wr_finishedAt parsed); rw_version := RETAINED_FORMAT_VERSION |}]> (rd_records db)) in
  match rd_records db !! key with
  | None => Ok (parsed, store [] (wr_startedAt parsed))
  | Some existing =>
    _ ← read_row existing;
    Ok (parsed, store (rw_annotations existing) (rw_started_at existing))
  end.

Definition recordWorkspaceReconciliationRecord (db : RecoveryDb) (record : WorkspaceReconciliationRecord)
    : result ReconciliationError (WorkspaceReconciliationRecord * RecoveryDb) :=
  if record_ok path record then persistWorkspaceReconciliationRecordV1 db record else Err InvalidRecord.

(** *** Decisions *)

Definition recoveryDecisionState (decision : WorkspaceRecoveryDecision) : RecoveryState :=
  match decision with
  | StageVerified | ResumeCollection => Recovered
  | Quarantine => Quarantined
  | Abandon => Unrecoverable
  end.

(** The manifests a resumed collection refers to. *)
Definition matching_manifests (record : WorkspaceReconciliationRecord) (manifests : list OutputManifest) : list jsstr :=
  om_id <$> filterb (λ m, includes (wr_affectedRecordIds record) (om_materializationRecordId m)
                          || includes (wr_collectedOutputManifestIds record) (om_id m)) manifests.

Definition resolveResumeCollection (decidedAt : Z) (record : WorkspaceReconciliationRecord) (manifests : list OutputManifest)
    : result ReconciliationError (BackendReachability * list jsstr) :=
  match matching_manifests record manifests with
  | [] => Err (DecisionFailed "Workspace recovery collection has no durable output manifest" 404)
  | matching =>
    Ok ({| br_status := ReachabilityUnknown; br_checkedAt := decidedAt;
           br_detail := Some (js "Recovered from durable worker output manifests; live backend reachability was not required.") |},
        dedup (wr_collectedOutputManifestIds record ++ matching))
  end.

Definition decided (record : WorkspaceReconciliationRecord) (reachability : BackendReachability) (manifests : list jsstr)
    (decision : WorkspaceRecoveryDecision) (decidedAt : Z) : WorkspaceReconciliationRecord :=
  {| wr_id := wr_id record; wr_workspaceId := wr_workspaceId record; wr_triggerReason := wr_triggerReason record;
     wr_affectedRecordIds := wr_affectedRecordIds record; wr_backendHandleSummary := wr_backendHandleSummary record;
     wr_backendReachability := reachability; wr_collectedOutputManifestIds := manifests; wr_evidenceBundleIds := wr_evidenceBundleIds record;
     wr_stateBefore := js "requires-human"; wr_stateAfter := recoveryDecisionState decision; wr_quarantineRefs := wr_quarantineRefs record;
     wr_requiredHumanDecision := None; wr_retentionDecision := TeardownBackend; wr_startedAt := wr_startedAt record;
     wr_finishedAt := Some decidedAt |}.

Definition resolveWorkspaceReconciliationRecord (db : RecoveryDb) (workspace id : jsstr) (decision : WorkspaceRecoveryDecision)
    (decidedAt : Z) (manifests : list OutputManifest) : result ReconciliationError (WorkspaceReconciliationRecord * RecoveryDb) :=
  found ← find_record db workspace id;
  match found with
  | None => Err (RecordNotFound id)
  | Some record =>
    if negb (bool_decide (wr_stateAfter record = RequiresHuman))
    then Err (DecisionFailed "Workspace reconciliation record is already terminal" 404)
    else if starts_with CAPTURE_PREFIX (wr_id record) && negb (bool_decide (decision = Abandon))
    then Err (DecisionFailed "Unaccepted capture source supports only abandon with evidence retained." 409)
    else
      '(reachability, collected) ←
        match decision with
        | ResumeCollection => resolveResumeCollection decidedAt record manifests
        | _ => Ok (wr_backendReachability record, wr_collectedOutputManifestIds record)
        end;
      updated ← parse_stored (decided record reachability collected decision decidedAt);
      persistWorkspaceReconciliationRecordV1 db updated
  end.

(** *** Evidence *)

(** An exact replay returns the retained bundle, anything else conflicts. *)
Definition recordWorkspaceEvidenceBundle (db : RecoveryDb) (bundle : EvidenceBundle) : result ReconciliationError RecoveryDb :=
  if negb (bundle_ok bundle) then Err InvalidRecord
  else match rd_evidence db !! eb_id bundle with
       | Some (version, existing) =>
         if negb (version =? RETAINED_FORMAT_VERSION) then Err UnsupportedRecord
         else if bool_decide (existing = bundle) then Ok db
         else Err (RecoveryConflict "Evidence bundle replay conflict")
       | None =>
         Ok {| rd_workspaceId := rd_workspaceId db; rd_chain := rd_chain db; rd_records := rd_records db;
               rd_evidence := <[eb_id bundle := (RETAINED_FORMAT_VERSION, bundle)]> (rd_evidence db);
               rd_materializations := rd_materializations db |}
       end.

(** *** Captures *)

(** [/^nh-[0-9a-f]{16}-[0-9a-f]{16}$/] *)
Definition backend_session_classes : list (Z → bool) :=
  (lit <$> js "nh-") ++ replicate 16 is_hex ++ [lit (cu "-")] ++ replicate 16 is_hex.
Definition nanoHostSandboxIdFromBackendSessionId (backendSessionId : jsstr) : result ReconciliationError jsstr :=
  if matches_classes backend_session_classes backendSessionId then Ok (take 19 backendSessionId)
  else Err (RecoveryConflict "NanoHost backend session identity is invalid.").

Definition workerStorageScopeDigest (workspace : jsstr) : result ReconciliationError jsstr :=
  if (1 <=? length workspace)%nat && (length workspace <=? 512)%nat
  then Ok (js "sha256:" ++ text_digest (js "{" ++ quote_string (js "workspaceId") ++ js ":" ++ quote_string workspace ++ js "}"))
  else Err StorageDenied.

Definition BOUNDARIES : list jsstr := js <$> ["turn-end"; "release"; "successor"].

Definition source_verified (identity : WorkspaceCollectionIdentity) (source : RawWorkspaceCapture) : bool :=
  bool_decide (rc_identity source = identity)
  && bool_decide (byteLength (rc_result source) = Some (Z.of_nat (length (rc_candidate source))))
  && bool_decide (sha256 (rc_result source) = Some (digest (rc_candidate source))).

(** The owner of the capture and its lineage. *)
Definition check_lineage (db : RecoveryDb) (anchor : WorkspaceCaptureAnchor) (identity : WorkspaceCollectionIdentity)
    (source : option RawWorkspaceCapture) : result ReconciliationError unit :=
  let conflict := RecoveryConflict "Workspace capture recovery source or owner conflicts." in
  require bool_decide (rd_workspaceId db = an_workspaceId anchor) && bool_decide (workspaceId identity = an_workspaceId anchor)
          && bool_decide (threadId identity = an_threadId anchor) && bool_decide (turnId identity = an_turnId anchor)
          && bool_decide (agentSessionId identity = an_agentSessionId anchor)
          && bool_decide (packageSnapshotId identity = an_packageSnapshotId anchor) else conflict;
  scope ← workerStorageScopeDigest (an_workspaceId anchor);
  require bool_decide (scopeDigest identity = scope) else conflict;
  sandbox ← nanoHostSandboxIdFromBackendSessionId (an_backendSessionId anchor);
  require bool_decide (sandboxId identity = sandbox) else conflict;
  require existsb (λ b, bool_decide (collectionId identity = b ++ js "-" ++ text_digest (an_packageSnapshotId anchor))) BOUNDARIES else conflict;
  require match source with Some s => source_verified identity s | None => true end else conflict;
  Ok tt.

Definition source_digest (source : option RawWorkspaceCapture) : option jsstr := source ≫= λ s, sha256 (rc_result s).

Definition capture_summary (anchor : WorkspaceCaptureAnchor) (identity : WorkspaceCollectionIdentity) (source : option RawWorkspaceCapture) : HandleSummary :=
  {| hs_attemptId := Some (an_attemptId anchor); hs_backendSessionId := Some (an_backendSessionId anchor);
     hs_sandboxBindingRef := Some (an_sandboxBindingRef anchor); hs_identity := Some identity;
     hs_candidateDigest := Some (source_digest source); hs_other := [] |}.

(** The retained record must be of this capture. *)
Definition check_prior (anchor : WorkspaceCaptureAnchor) (identity : WorkspaceCollectionIdentity) (source : option RawWorkspaceCapture)
    (prior : WorkspaceReconciliationRecord) : result ReconciliationError unit :=
  let old := wr_backendHandleSummary prior in
  let conflict := RecoveryConflict "Workspace capture recovery retained lineage conflicts." in
  require bool_decide (wr_workspaceId prior = workspaceId identity)
          && forallb (includes (wr_affectedRecordIds prior)) [an_attemptId anchor; an_agentSessionId anchor; an_packageSnapshotId anchor]
          && bool_decide (hs_attemptId old = Some (an_attemptId anchor))
          && bool_decide (hs_backendSessionId old = Some (an_backendSessionId anchor))
          && bool_decide (hs_sandboxBindingRef old = Some (an_sandboxBindingRef anchor)) else conflict;
  recorded ← match hs_identity old with Some i => lift_chain (parse_identity i) | None => Err (ChainFailed (ZodError "identity")) end;
  require bool_decide (recorded = identity) else conflict;
  require negb (negb (bool_decide (hs_candidateDigest old = Some None)) && bool_decide (is_Some source)
                && negb (bool_decide (hs_candidateDigest old = Some (source_digest source)))) else conflict;
  require negb (bool_decide (is_Some source) && bool_decide (hs_candidateDigest old = Some None)
                && negb (bool_decide (wr_stateAfter prior = RequiresHuman)))
    else RecoveryConflict "Terminal Workspace capture disposition lacks the newly available source proof.";
  Ok tt.

Definition capture_bundle (anchor : WorkspaceCaptureAnchor) (identity : WorkspaceCollectionIdentity) (source : RawWorkspaceCapture) (timestamp : Z)
    : EvidenceBundle :=
  {| eb_id := js "evb_capture_" ++ collectionId identity; eb_workspaceId := workspaceId identity; eb_threadId := threadId identity;
     eb_turnId := turnId identity; eb_agentSessionId := agentSessionId identity; eb_backendType := an_backendKind anchor;
     eb_rawEvidenceRefs := (λ name, js "evidence/backend/workspace-capture/" ++ collectionId identity ++ js "/" ++ name)
                             <$> [js "complete"; js "collection.json"];
     eb_contentDigests := match sha256 (rc_result source) with Some d => [d] | None => [] end; eb_createdAt := timestamp |}.

Definition capture_record (anchor : WorkspaceCaptureAnchor) (identity : WorkspaceCollectionIdentity)
    (source : option RawWorkspaceCapture) (prior : option WorkspaceReconciliationRecord) (materializations : list Materialization)
    (timestamp : Z) : WorkspaceReconciliationRecord :=
  {| wr_id := capture_record_id (collectionId identity); wr_workspaceId := workspaceId identity; wr_triggerReason := BackendTakeover;
     wr_affectedRecordIds := [an_attemptId anchor; an_agentSessionId anchor; an_packageSnapshotId anchor] ++ (mt_id <$> materializations);
     wr_backendHandleSummary := capture_summary anchor identity source;
     wr_backendReachability := {| br_status := ReachabilityUnknown; br_checkedAt := timestamp; br_detail := None |};
     wr_collectedOutputManifestIds := [];
     wr_evidenceBundleIds := match source with Some _ => [js "evb_capture_" ++ collectionId identity] | None => [] end;
     wr_stateBefore := match prior with Some p => wr_stateBefore p | None => an_state anchor end;
     wr_stateAfter := RequiresHuman; wr_quarantineRefs := []; wr_requiredHumanDecision := Some (js "inspect_recovery");
     wr_retentionDecision := RetainBackend;
     wr_startedAt := match prior with Some p => wr_startedAt p | None => timestamp end; wr_finishedAt := None |}.

(** Publication in one transaction: the evidence of the source and the record that retains the backend. *)
Definition record_capture (db : RecoveryDb) (now : Z) (anchor : WorkspaceCaptureAnchor) (identity : WorkspaceCollectionIdentity)
    (source : option RawWorkspaceCapture) (prior : option WorkspaceReconciliationRecord)
    : result ReconciliationError (WorkspaceReconciliationRecord * RecoveryDb) :=
  let timestamp := default (default now (wr_startedAt <$> prior)) (source ≫= λ s, collectedAt (rc_result s)) in
  let materializations := filterb (λ m, bool_decide (mt_packageSnapshotId m = an_packageSnapshotId anchor)) (rd_materializations db) in
  require negb (existsb (λ m, negb (bool_decide (mt_workerSessionId m = an_backendSessionId anchor))
                              || negb (bool_decide (mt_backendKind m = an_backendKind anchor))) materializations)
    else RecoveryConflict "Workspace capture materialization lineage conflicts.";
  db ← match source with Some s => recordWorkspaceEvidenceBundle db (capture_bundle anchor identity s timestamp) | None => Ok db end;
  recordWorkspaceReconciliationRecord db (capture_record anchor identity source prior materializations timestamp).

Definition recordWorkspaceCaptureRecovery (db : RecoveryDb) (now : Z) (anchor : WorkspaceCaptureAnchor) (value : WorkspaceCollectionIdentity)
    (source : option RawWorkspaceCapture) : result ReconciliationError (WorkspaceReconciliationRecord * RecoveryDb) :=
  identity ← lift_chain (parse_identity value);
  _ ← check_lineage db anchor identity source;
  prior ← find_record db (workspaceId identity) (capture_record_id (collectionId identity));
  match prior with
  | Some p =>
    _ ← check_prior anchor identity source p;
    if bool_decide (source = None) || negb (bool_decide (hs_candidateDigest (wr_backendHandleSummary p) = Some None))
    then Ok (p, db)
    else record_capture db now anchor identity source prior
  | None => record_capture db now anchor identity source prior
  end.

(** The receipt is of these very bytes and facts. *)
Definition receipt_matches (receipt : WorkspaceCollectionReceipt) (source : RawWorkspaceCapture) : bool :=
  let r := re_result receipt in
  let o := rc_result source in
  bool_decide (re_candidate receipt = Some (rc_candidate source)) && bool_decide (r_head r = r_head o)
  && bool_decide (previousHead r = previousHead o) && bool_decide (acceptedBase r = acceptedBase o)
  && bool_decide (unstable r = unstable o) && bool_decide (sha256 r = sha256 o) && bool_decide (byteLength r = byteLength o).

Definition completed (record : WorkspaceReconciliationRecord) (finishedAt : option Z) : WorkspaceReconciliationRecord :=
  {| wr_id := wr_id record; wr_workspaceId := wr_workspaceId record; wr_triggerReason := wr_triggerReason record;
     wr_affectedRecordIds := wr_affectedRecordIds record; wr_backendHandleSummary := wr_backendHandleSummary record;
     wr_backendReachability := wr_backendReachability record; wr_collectedOutputManifestIds := wr_collectedOutputManifestIds record;
     wr_evidenceBundleIds := wr_evidenceBundleIds record; wr_stateBefore := js "requires-human"; wr_stateAfter := Recovered;
     wr_quarantineRefs := wr_quarantineRefs record; wr_requiredHumanDecision := None; wr_retentionDecision := TeardownBackend;
     wr_startedAt := wr_startedAt record; wr_finishedAt := finishedAt |}.

Definition completeWorkspaceCaptureRecovery (db : RecoveryDb) (now : Z) (anchor : WorkspaceCaptureAnchor) (identity : WorkspaceCollectionIdentity)
    (source : option RawWorkspaceCapture) : result ReconciliationError (WorkspaceReconciliationRecord * RecoveryDb) :=
  found ← lift_chain (readWorkspaceCollection digest (rd_chain db) identity);
  match found with
  | Some receipt =>
    require match source with Some s => receipt_matches receipt s | None => true end
      else RecoveryConflict "Workspace recovery requires its exact accepted capture receipt.";
    '(record, db) ← recordWorkspaceCaptureRecovery db now anchor identity source;
    let recorded := hs_candidateDigest (wr_backendHandleSummary record) in
    require bool_decide (recorded = Some None)
            || (bool_decide (is_Some (re_candidate receipt)) && bool_decide (recorded = Some (sha256 (re_result receipt))))
      else RecoveryConflict "Accepted Workspace capture contradicts its recorded original digest.";
    let finished := collectedAt (re_result receipt) in
    if bool_decide (wr_stateAfter record = Recovered) && bool_decide (wr_stateBefore record = js "requires-human")
       && bool_decide (wr_requiredHumanDecision record = None) && bool_decide (wr_retentionDecision record = TeardownBackend)
       && bool_decide (wr_finishedAt record = finished)
    then Ok (record, db)
    else if negb (bool_decide (wr_stateAfter record = RequiresHuman))
    then Err (RecoveryConflict "Workspace capture disposition changed before receipt resolution.")
    else recordWorkspaceReconciliationRecord db (completed record finished)
  | None => Err (RecoveryConflict "Workspace recovery requires its exact accepted capture receipt.")
  end.

Definition with_chain (db : RecoveryDb) (chain : WorkspaceDb) : RecoveryDb :=
  {| rd_workspaceId := rd_workspaceId db; rd_chain := chain; rd_records := rd_records db; rd_evidence := rd_evidence db;
     rd_materializations := rd_materializations db |}.

(** Accepting a capture whose submitted source is the one that was read, which resolves the recovery of an idle one in the same transaction. *)
Definition acceptCapture (db : RecoveryDb) (now : Z) (identity : WorkspaceCollectionIdentity) (result_ : CollectionResult)
    (idleAnchor : option WorkspaceCaptureAnchor) (source : option RawWorkspaceCapture)
    : result ReconciliationError (WorkspaceCollectionReceipt * RecoveryDb) :=
  require bool_decide (workspaceId identity = rd_workspaceId db) else RecoveryConflict "Workspace capture recovery source or owner conflicts.";
  _ ← match idleAnchor with
      | Some _ =>
        records ← listWorkspaceReconciliationRecords db (workspaceId identity);
        require existsb (λ r, bool_decide (wr_id r = capture_record_id (collectionId identity)) && bool_decide (wr_stateAfter r = RequiresHuman)) records
          else CaptureRecoveryRequired "Idle capture disposition changed during collection.";
        Ok tt
      | None => Ok tt
      end;
  '(chain, receipt) ← lift_chain (acceptWorkspaceCapture digest now (rd_chain db) identity result_ (rc_candidate <$> source)
                                   ((λ s, (rc_identity s, rc_candidate s)) <$> source));
  let db := with_chain db chain in
  match idleAnchor with
  | Some anchor => '(_, db) ← completeWorkspaceCaptureRecovery db now anchor identity source; Ok (receipt, db)
  | None => Ok (receipt, db)
  end.

(** *** Takeovers *)

Record Handle := { hd_id : jsstr; hd_materializationRecordId : jsstr; hd_pending : bool; hd_facts : list (jsstr * jsstr) }.
Record TakeoverAttempt := { ta_attemptId : jsstr; ta_workspaceId : jsstr; ta_terminalCause : option jsstr; ta_phase : jsstr }.

Definition takeover_id (attempt : TakeoverAttempt) (handle : Handle) : jsstr := js "wrr_" ++ ta_attemptId attempt ++ js "_" ++ hd_id handle.

Definition takeover_record (attempt : TakeoverAttempt) (timestamp : Z) (physicallyCleaned : bool) (handle : Handle) : WorkspaceReconciliationRecord :=
  {| wr_id := takeover_id attempt handle; wr_workspaceId := ta_workspaceId attempt; wr_triggerReason := BackendTakeover;
     wr_affectedRecordIds := [hd_materializationRecordId handle; hd_id handle];
     wr_backendHandleSummary := {| hs_attemptId := None; hs_backendSessionId := None; hs_sandboxBindingRef := None; hs_identity := None;
                                   hs_candidateDigest := None; hs_other := hd_facts handle |};
     wr_backendReachability := {| br_status := BackendUnavailable; br_checkedAt := timestamp; br_detail := ta_terminalCause attempt |};
     wr_collectedOutputManifestIds := [];
     wr_evidenceBundleIds := [js "evb_workspace_materialization_" ++ hd_materializationRecordId handle];
     wr_stateBefore := ta_phase attempt; wr_stateAfter := RequiresHuman; wr_quarantineRefs := [];
     wr_requiredHumanDecision := Some (js "inspect_recovery");
     wr_retentionDecision := if physicallyCleaned then TeardownBackend else RetainBackend; wr_startedAt := timestamp; wr_finishedAt := None |}.

(** [existing] is read once, before the loop. *)
Fixpoint takeover_handles (db : RecoveryDb) (attempt : TakeoverAttempt) (timestamp : Z) (physicallyCleaned : bool) (handleId : jsstr)
    (existing : list jsstr) (handles : list Handle) : result ReconciliationError RecoveryDb :=
  match handles with
  | [] => Ok db
  | handle :: handles =>
    db ← (if negb (bool_decide (hd_id handle = handleId)) || negb (hd_pending handle) || includes existing (takeover_id attempt handle)
          then Ok db
          else snd <$> recordWorkspaceReconciliationRecord db (takeover_record attempt timestamp physicallyCleaned handle));
    takeover_handles db attempt timestamp physicallyCleaned handleId existing handles
  end.

(** The stage of one handle, with the handles of the complete handoff. *)
Definition applyWorkspaceTakeover (db : RecoveryDb) (attempt : TakeoverAttempt) (timestamp : Z) (physicallyCleaned : bool) (handleId : jsstr)
    (handles : list Handle) : result ReconciliationError RecoveryDb :=
  require existsb (λ h, bool_decide (hd_id h = handleId)) handles else RecoveryConflict "Workspace takeover refusal";
  records ← listWorkspaceReconciliationRecords db (ta_workspaceId attempt);
  takeover_handles db attempt timestamp physicallyCleaned handleId (wr_id <$> records) handles.

(** The final stage: whether the backend must be kept. *)
Definition takeoverRetainsBackend (db : RecoveryDb) (attempt : TakeoverAttempt) (physicallyCleaned : bool) (handles : list Handle)
    : result ReconciliationError bool :=
  _ ← listWorkspaceReconciliationRecords db (ta_workspaceId attempt);
  if physicallyCleaned then Ok false
  else
    records ← listWorkspaceReconciliationRecords db (ta_workspaceId attempt);
    Ok (existsb (λ r, bool_decide (wr_stateAfter r = RequiresHuman) && bool_decide (wr_retentionDecision r = RetainBackend)
                      && existsb (λ h, includes (wr_affectedRecordIds r) (hd_id h)) handles) records).

(** ** Histories *)

(** The operations on the tables of one workspace; a refused one changes nothing. *)
Inductive recovery_op :=
| Decide (id : jsstr) (decision : WorkspaceRecoveryDecision) (decidedAt : Z) (manifests : list OutputManifest)
| Recover (now : Z) (anchor : WorkspaceCaptureAnchor) (identity : WorkspaceCollectionIdentity) (source : option RawWorkspaceCapture)
| Complete (now : Z) (anchor : WorkspaceCaptureAnchor) (identity : WorkspaceCollectionIdentity) (source : option RawWorkspaceCapture)
| Accept (now : Z) (identity : WorkspaceCollectionIdentity) (r : CollectionResult) (idleAnchor : option WorkspaceCaptureAnchor)
    (source : option RawWorkspaceCapture)
| Takeover (attempt : TakeoverAttempt) (timestamp : Z) (physicallyCleaned : bool) (handleId : jsstr) (handles : list Handle)
| ChainOp (o : chain_op)
| MaterializationsChange (rows : list Materialization).

Definition kept {E} (db : RecoveryDb) (r : result E RecoveryDb) : RecoveryDb := match r with Ok db' => db' | Err _ => db end.

Definition recovery_step (db : RecoveryDb) (o : recovery_op) : RecoveryDb :=
  match o with
  | Decide id decision decidedAt manifests => kept db (snd <$> resolveWorkspaceReconciliationRecord db (rd_workspaceId db) id decision decidedAt manifests)
  | Recover now anchor identity source => kept db (snd <$> recordWorkspaceCaptureRecovery db now anchor identity source)
  | Complete now anchor identity source => kept db (snd <$> completeWorkspaceCaptureRecovery db now anchor identity source)
  | Accept now identity r idleAnchor source => kept db (snd <$> acceptCapture db now identity r idleAnchor source)
  | Takeover attempt timestamp cleaned handleId handles => kept db (applyWorkspaceTakeover db attempt timestamp cleaned handleId handles)
  | ChainOp o => with_chain db (chain_step digest (rd_chain db) o)
  | MaterializationsChange rows =>
    {| rd_workspaceId := rd_workspaceId db; rd_chain := rd_chain db; rd_records := rd_records db; rd_evidence := rd_evidence db; rd_materializations := rows |}
  end.
End Reconciliation.

(** ** Reading *)

Local Arguments starts_with : simpl never.

(** A row is stored under the identity of its payload. *)
Definition keyed (db : RecoveryDb) : Prop :=
  ∀ k row, rd_records db !! k = Some row → k = (wr_workspaceId (rw_core row), wr_id (rw_core row)).

Section Proofs.
Context (digest : list Z → jsstr) (text_digest : jsstr → jsstr).
Context (stored_path path : jsstr → bool) (bundle_ok : EvidenceBundle → bool).

Lemma read_row_Ok row r : read_row stored_path row = Ok r → r = rw_core row.
Proof. unfold read_row, parse_stored. destruct (_ =? _); [|done]. destruct (record_ok _ _); [|done]. by intros [= <-]. Qed.

Lemma listed db ws records r : listWorkspaceReconciliationRecords stored_path db ws = Ok records →
  r ∈ records ↔ ∃ id row, rd_records db !! (ws, id) = Some row ∧ rw_core row = r.
Proof.
  unfold listWorkspaceReconciliationRecords. intros (rs & Hrs & [= <-])%bind_Ok. apply mapM_result_Ok in Hrs. rewrite elem_of_reverse.
  assert (Hperm : ∀ row, row ∈ js_sort row_cmp (snd <$> filterb (λ kr, bool_decide (kr.1.1 = ws)) (map_to_list (rd_records db))) ↔
    ∃ id, rd_records db !! (ws, id) = Some row).
  { intros row. rewrite js_sort_perm, list_elem_of_fmap. split.
    - intros ([[ws' id] row'] & -> & [Hin Hw]%elem_of_filterb). bool_to_prop. cbn in *. subst ws'. exists id. by apply elem_of_map_to_list.
    - intros [id Hid]. exists ((ws, id), row). split; [done|]. apply elem_of_filterb. split; [by apply elem_of_map_to_list|]. by apply bool_decide_eq_true. }
  split.
  - intros Hr. destruct (list_elem_of_lookup_1 _ _ Hr) as [i Hi]. destruct (Forall2_lookup_r _ _ _ _ _ Hrs Hi) as (row & Hrow & E%read_row_Ok).
    apply list_elem_of_lookup_2, Hperm in Hrow as [id Hid]. by exists id, row.
  - intros (id & row & Hrow & <-). assert (∃ id, rd_records db !! (ws, id) = Some row) as Hin%Hperm by eauto.
    apply list_elem_of_lookup_1 in Hin as [i Hi]. destruct (Forall2_lookup_l _ _ _ _ _ Hrs Hi) as (r & Hr & E%read_row_Ok).
    subst r. by eapply list_elem_of_lookup_2.
Qed.

Lemma found_Some db ws id r : keyed db → find_record stored_path db ws id = Ok (Some r) →
  ∃ row, rd_records db !! (ws, id) = Some row ∧ rw_core row = r ∧ wr_id r = id ∧ wr_workspaceId r = ws.
Proof.
  intros Hk. unfold find_record. intros (rs & Hrs & [= H])%bind_Ok. apply find_Some in H as [Hr Hid]. bool_to_prop.
  apply (listed db ws rs r Hrs) in Hr as (id' & row & Hrow & <-). pose proof (Hk _ _ Hrow) as [= -> ->]. exists row. by rewrite <-Hid.
Qed.

Lemma found_None db ws id : keyed db → find_record stored_path db ws id = Ok None → rd_records db !! (ws, id) = None.
Proof.
  intros Hk. unfold find_record. intros (rs & Hrs & [= H])%bind_Ok. destruct (rd_records db !! (ws, id)) as [row|] eqn:E; [|done].
  assert (rw_core row ∈ rs) as Hin by (apply (listed db ws rs _ Hrs); eauto). rewrite find_None in H. specialize (H _ Hin).
  pose proof (Hk _ _ E) as [= _ ->]. by rewrite bool_decide_eq_true_2 in H.
Qed.

(** What a write does. *)
Record written (db db' : RecoveryDb) (r : WorkspaceReconciliationRecord) : Prop := {
  wt_others : ∀ k, k ≠ (wr_workspaceId r, wr_id r) → rd_records db' !! k = rd_records db !! k;
  wt_row : ∃ row, rd_records db' !! (wr_workspaceId r, wr_id r) = Some row ∧ rw_core row = r ∧
    ∀ old, rd_records db !! (wr_workspaceId r, wr_id r) = Some old → rw_annotations row = rw_annotations old ∧ rw_started_at row = rw_started_at old;
  wt_chain : rd_chain db' = rd_chain db;
  wt_workspace : rd_workspaceId db' = rd_workspaceId db;
}.

Lemma persist_written db r r' db' : persistWorkspaceReconciliationRecordV1 stored_path db r = Ok (r', db') → r' = r ∧ written db db' r.
Proof.
  unfold persistWorkspaceReconciliationRecordV1, parse_stored. destruct (record_ok stored_path r); [|done]. cbn [mbind result_bind].
  destruct (rd_records db !! _) as [old|] eqn:E.
  - intros (? & _ & [= <- <-])%bind_Ok. split; [done|]. split; cbn; [|eexists; rewrite lookup_insert_eq; split; [done|]|done..].
    + intros k Hk. by rewrite lookup_insert_ne.
    + split; [done|]. intros old' [= <-]%(eq_trans (eq_sym E)). done.
  - intros [= <- <-]. split; [done|]. split; cbn; [|eexists; rewrite lookup_insert_eq; split; [done|]|done..].
    + intros k Hk. by rewrite lookup_insert_ne.
    + split; [done|]. by intros old' ?%(eq_trans (eq_sym E)).
Qed.

Lemma record_written db r r' db' : recordWorkspaceReconciliationRecord stored_path path db r = Ok (r', db') → r' = r ∧ written db db' r.
Proof. unfold recordWorkspaceReconciliationRecord. destruct (record_ok path r); [|done]. apply persist_written. Qed.

Lemma written_keyed db db' r : keyed db → written db db' r → keyed db'.
Proof.
  intros Hk [Ho (row & Hrow & Hcore & _) _ _] k row' H. destruct (decide (k = (wr_workspaceId r, wr_id r))) as [->|Hne].
  - rewrite Hrow in H. injection H as <-. by rewrite Hcore.
  - apply Hk. by rewrite <-Ho.
Qed.

(** *** What the operations may write

    [writes P db db']: the tables change by at most some writes of records that satisfy [P], each on a row
    that does not exist yet or asks for a decision. *)

Definition open_key (db : RecoveryDb) (k : jsstr * jsstr) : Prop :=
  ∀ row, rd_records db !! k = Some row → wr_stateAfter (rw_core row) = RequiresHuman.

Inductive writes (P : WorkspaceDb → WorkspaceReconciliationRecord → Prop) : RecoveryDb → RecoveryDb → Prop :=
| writes_nothing db db' : rd_records db' = rd_records db → rd_chain db' = rd_chain db → rd_workspaceId db' = rd_workspaceId db → writes P db db'
| writes_one db db1 db' r : P (rd_chain db) r → open_key db (wr_workspaceId r, wr_id r) → written db db1 r → writes P db1 db' → writes P db db'.

(** An accepted receipt of the capture a record names. *)
Definition has_receipt (chain : WorkspaceDb) (r : WorkspaceReconciliationRecord) : Prop :=
  ∃ identity receipt, wr_id r = capture_record_id (collectionId identity) ∧ hs_identity (wr_backendHandleSummary r) = Some identity ∧
    readWorkspaceCollection digest chain identity = Ok (Some receipt) ∧
    (hs_candidateDigest (wr_backendHandleSummary r) = Some None ∨
     is_Some (re_candidate receipt) ∧ hs_candidateDigest (wr_backendHandleSummary r) = Some (sha256 (re_result receipt))).

(** A record that asks for a decision on a capture retains the backend; a decision on one is to abandon it;
    otherwise it is recovered by its receipt. *)
Definition allowed (chain : WorkspaceDb) (r : WorkspaceReconciliationRecord) : Prop :=
  (wr_stateAfter r = RequiresHuman ∧ (is_Some (hs_identity (wr_backendHandleSummary r)) → wr_retentionDecision r = RetainBackend)) ∨
  (wr_stateAfter r ≠ RequiresHuman ∧ (starts_with CAPTURE_PREFIX (wr_id r) = true → wr_stateAfter r = Unrecoverable)) ∨
  (wr_stateAfter r = Recovered ∧ has_receipt chain r).

Lemma written_same db dbe db' r : rd_records dbe = rd_records db → rd_chain dbe = rd_chain db → rd_workspaceId dbe = rd_workspaceId db →
  written dbe db' r → written db db' r.
Proof. intros Er Ec Ew [H1 H2 H3 H4]. rewrite Er, Ec, Ew in *. by split. Qed.

Lemma writes_once P db db' r : P (rd_chain db) r → open_key db (wr_workspaceId r, wr_id r) → written db db' r → writes P db db'.
Proof. intros HP Ho Hw. econstructor 2; [done..|]. by constructor. Qed.

Lemma decide_writes db ws id decision at_ manifests r db' : keyed db →
  resolveWorkspaceReconciliationRecord stored_path db ws id decision at_ manifests = Ok (r, db') → writes allowed db db'.
Proof.
  intros Hk. unfold resolveWorkspaceReconciliationRecord. intros (found & Hf & H)%bind_Ok. destruct found as [record|]; [|done].
  apply found_Some in Hf as (row & Hrow & Hcore & Hid & Hws); [|done].
  destruct (negb (bool_decide (_ = RequiresHuman))) eqn:Hs; [done|]. apply negb_false_iff, bool_decide_eq_true_1 in Hs.
  destruct (_ && negb _) eqn:Hc; [done|]. apply bind_Ok in H as ([reach collected] & _ & H). apply bind_Ok in H as (updated & Hu & H).
  unfold parse_stored in Hu. destruct (record_ok _ _); [|done]. injection Hu as <-.
  apply persist_written in H as [-> Hw]. eapply writes_once; [|  |exact Hw].
  - right. left. cbn [decided wr_stateAfter wr_id]. split; [by destruct decision|]. intros Hp. rewrite Hp in Hc. cbn [andb] in Hc. apply negb_false_iff, bool_decide_eq_true_1 in Hc. by subst decision.
  - cbn. rewrite Hws, Hid. intros row' Hrow'. rewrite Hrow in Hrow'. injection Hrow' as <-. by rewrite Hcore.
Qed.

Lemma evidence_same db bundle db' : recordWorkspaceEvidenceBundle bundle_ok db bundle = Ok db' →
  rd_records db' = rd_records db ∧ rd_chain db' = rd_chain db ∧ rd_workspaceId db' = rd_workspaceId db.
Proof.
  unfold recordWorkspaceEvidenceBundle. destruct (negb _); [done|]. destruct (rd_evidence db !! _) as [[v e]|]; [|by intros [= <-]].
  destruct (negb _); [done|]. destruct (bool_decide _); [|done]. by intros [= <-].
Qed.

Lemma record_capture_writes db now anchor i source prior r db' :
  record_capture stored_path path bundle_ok db now anchor i source prior = Ok (r, db') →
  written db db' r ∧ wr_id r = capture_record_id (collectionId i) ∧ wr_workspaceId r = workspaceId i ∧ hs_identity (wr_backendHandleSummary r) = Some i ∧
  wr_stateAfter r = RequiresHuman ∧ wr_retentionDecision r = RetainBackend.
Proof.
  unfold record_capture. destruct (negb _); [|done]. intros (dbe & He & H)%bind_Ok. apply record_written in H as [-> Hw].
  split; [|done]. destruct source as [s|]; [|by injection He as <-]. apply evidence_same in He as (E1 & E2 & E3). by eapply written_same.
Qed.

Lemma check_prior_Ok anchor i source p : check_prior anchor i source p = Ok tt →
  hs_identity (wr_backendHandleSummary p) = Some i ∧
  (is_Some source → hs_candidateDigest (wr_backendHandleSummary p) = Some None → wr_stateAfter p = RequiresHuman).
Proof.
  unfold check_prior. destruct (_ && _); [|done]. intros (rec & Hrec & H)%bind_Ok. destruct (hs_identity _) as [j|]; [|done].
  unfold lift_chain in Hrec. destruct (parse_identity j) as [j'|] eqn:E; [|done]. injection Hrec as ->. apply parse_identity_Ok in E as [-> _].
  destruct (bool_decide (rec = i)) eqn:Ei; [|done]. apply bool_decide_eq_true_1 in Ei as ->. split; [done|].
  destruct (negb _); [|done]. intros Hs Hd. rewrite Hd, (bool_decide_eq_true_2 (Some None = Some None)) in H by done.
  rewrite (bool_decide_eq_true_2 (is_Some source) Hs) in H. cbn [andb negb] in H.
  destruct (bool_decide (wr_stateAfter p = RequiresHuman)) eqn:E; [by apply bool_decide_eq_true_1 in E|done].
Qed.

(** The record of a capture after its recovery is published. *)
Definition stored_record (db : RecoveryDb) (r : WorkspaceReconciliationRecord) : Prop :=
  ∃ row, rd_records db !! (wr_workspaceId r, wr_id r) = Some row ∧ rw_core row = r.

Lemma recover_writes db now anchor i source r db' : keyed db →
  recordWorkspaceCaptureRecovery digest text_digest stored_path path bundle_ok db now anchor i source = Ok (r, db') →
  writes allowed db db' ∧ stored_record db' r ∧ wr_id r = capture_record_id (collectionId i) ∧ hs_identity (wr_backendHandleSummary r) = Some i.
Proof.
  intros Hk. unfold recordWorkspaceCaptureRecovery. intros (j & Hj & H)%bind_Ok. unfold lift_chain in Hj.
  destruct (parse_identity i) as [j'|] eqn:E; [|done]. injection Hj as ->. apply parse_identity_Ok in E as [-> _].
  apply bind_Ok in H as ([] & _ & H). apply bind_Ok in H as (prior & Hp & H).
  assert (∀ prior, open_key db (workspaceId j, capture_record_id (collectionId j)) →
    record_capture stored_path path bundle_ok db now anchor j source prior = Ok (r, db') →
    writes allowed db db' ∧ stored_record db' r ∧ wr_id r = capture_record_id (collectionId j) ∧ hs_identity (wr_backendHandleSummary r) = Some j) as Hnew.
  { intros pr Ho (Hw & Hid & Hws & Hi & Hs & Hr)%record_capture_writes. split; [|split; [|done]].
    - eapply writes_once; [|by rewrite Hws, Hid|done]. by left.
    - destruct (wt_row _ _ _ Hw) as (row & Hrow & Hcore & _). by exists row. }
  destruct prior as [p|].
  - apply found_Some in Hp as (row & Hrow & Hcore & Hid & Hws); [|done]. apply bind_Ok in H as ([] & [Hi Hopen]%check_prior_Ok & H).
    destruct (_ || _) eqn:Hret.
    + injection H as <- <-. split; [by constructor|]. split; [|by rewrite Hid]. exists row. by rewrite Hws, Hid.
    + apply orb_false_iff in Hret as [Hsrc Hd]. apply negb_false_iff, bool_decide_eq_true_1 in Hd. apply bool_decide_eq_false_1 in Hsrc.
      apply (Hnew (Some p)); [|done]. intros row' Hrow'. rewrite Hrow in Hrow'. injection Hrow' as <-. rewrite Hcore.
      apply Hopen; [|done]. by destruct source.
  - apply found_None in Hp; [|done]. apply (Hnew None); [|done]. intros row' Hrow'. congruence.
Qed.

Lemma writes_same P db db1 db' : rd_records db1 = rd_records db → rd_chain db1 = rd_chain db → rd_workspaceId db1 = rd_workspaceId db →
  writes P db1 db' → writes P db db'.
Proof.
  intros Er Ec Ew H. destruct H as [d d' Er' Ec' Ew'|d d1 d' r HP Ho Hw H]; [constructor 1; congruence|].
  econstructor 2; [by rewrite <-Ec|unfold open_key in *; by rewrite <-Er|by eapply written_same|done].
Qed.

Lemma writes_trans P db db1 db' : writes P db db1 → writes P db1 db' → writes P db db'.
Proof.
  intros H H'. induction H as [db db1 Er Ec Ew|db dba db1 r HP Ho Hw _ IH]; [by eapply writes_same|]. econstructor 2; eauto.
Qed.

Lemma writes_keyed P db db' : keyed db → writes P db db' → keyed db'.
Proof.
  intros Hk H. induction H as [db db' Er _ _|db db1 db' r _ _ Hw _ IH]; [unfold keyed in *; by rewrite Er|]. by eapply IH, written_keyed.
Qed.

Lemma writes_chain P db db' : writes P db db' → rd_chain db' = rd_chain db ∧ rd_workspaceId db' = rd_workspaceId db.
Proof.
  induction 1 as [db db' _ Ec Ew|db db1 db' r _ _ [_ _ Ec Ew] _ [IH1 IH2]]; [done|]. by rewrite IH1, IH2, Ec, Ew.
Qed.

Lemma complete_writes db now anchor i source r db' : keyed db →
  completeWorkspaceCaptureRecovery digest text_digest stored_path path bundle_ok db now anchor i source = Ok (r, db') → writes allowed db db'.
Proof.
  intros Hk. unfold completeWorkspaceCaptureRecovery. intros (found & Hf & H)%bind_Ok. destruct found as [receipt|]; [|done].
  unfold lift_chain in Hf. destruct (readWorkspaceCollection digest (rd_chain db) i) as [x|] eqn:Hread; [|done]. injection Hf as ->.
  destruct (match source with Some _ => _ | None => _ end); [|done]. apply bind_Ok in H as ([rec db1] & Hrec & H).
  apply recover_writes in Hrec as (Hw1 & (row & Hrow & Hcore) & Hid & Hi); [|done]. cbv beta iota zeta in H.
  destruct (_ || _) eqn:Hdig; [|done]. destruct (_ && bool_decide (wr_finishedAt rec = _)); [by injection H as <- <-|].
  destruct (negb _) eqn:Hs; [done|]. apply negb_false_iff, bool_decide_eq_true_1 in Hs. apply record_written in H as [-> Hw].
  eapply writes_trans; [exact Hw1|]. eapply writes_once; [| |exact Hw].
  - right. right. split; [done|]. exists i, receipt. destruct (writes_chain _ _ _ Hw1) as [-> _]. split; [done|]. split; [done|]. split; [done|].
    cbn [completed wr_backendHandleSummary]. apply orb_true_iff in Hdig as [Hd|[Hc Hd]%andb_true_iff]; [left|right]; by bool_to_prop.
  - cbn [completed wr_workspaceId wr_id]. intros row' Hrow'. rewrite Hrow in Hrow'. injection Hrow' as <-. by rewrite Hcore.
Qed.

Lemma takeover_handles_writes ws attempt timestamp cleaned handleId existing handles : ∀ db db',
  ta_workspaceId attempt = ws → (∀ id row, rd_records db !! (ws, id) = Some row → id ∈ existing ∨ wr_stateAfter (rw_core row) = RequiresHuman) →
  takeover_handles stored_path path db attempt timestamp cleaned handleId existing handles = Ok db' → writes allowed db db'.
Proof.
  induction handles as [|h handles IH]; intros db db' Ews Hex; cbn [takeover_handles]; [intros [= <-]; by constructor|].
  intros (db1 & H1 & H)%bind_Ok. destruct (_ || includes _ _) eqn:Hskip; [injection H1 as <-; by apply IH|].
  apply orb_false_iff in Hskip as [_ Hnew]. apply bool_decide_eq_false_1 in Hnew.
  destruct (recordWorkspaceReconciliationRecord stored_path path db _) as [[r d]|] eqn:E; [|done]. injection H1 as <-.
  apply record_written in E as [-> Hw]. refine (writes_one _ _ _ _ _ _ _ Hw _); [left; split; [done|intros [? Hi]; discriminate Hi]| |].
  - cbn [takeover_record wr_workspaceId wr_id]. intros row Hrow. rewrite Ews in Hrow. by destruct (Hex _ _ Hrow) as [?|?].
  - apply IH; [done| |done]. intros id row Hrow. destruct (decide (id = takeover_id attempt h)) as [->|Hne].
    + right. destruct (wt_row _ _ _ Hw) as (row' & Hrow' & Hcore & _). cbn [takeover_record wr_workspaceId wr_id] in Hrow'. rewrite Ews, Hrow in Hrow'.
      injection Hrow' as <-. by rewrite Hcore.
    + apply (Hex id). rewrite <-(wt_others _ _ _ Hw); [done|]. cbn. intros [= E]. done.
Qed.

Lemma takeover_writes db attempt timestamp cleaned handleId handles db' : keyed db →
  applyWorkspaceTakeover stored_path path db attempt timestamp cleaned handleId handles = Ok db' → writes allowed db db'.
Proof.
  intros Hk. unfold applyWorkspaceTakeover. destruct (existsb _ _); [|done]. intros (records & Hr & H)%bind_Ok.
  eapply takeover_handles_writes; [reflexivity| |exact H]. intros id row Hrow. left. pose proof (Hk _ _ Hrow) as [= _ ->].
  apply list_elem_of_fmap_2. apply (listed db _ _ _ Hr). eauto.
Qed.

(** *** Histories *)

Local Abbreviation step := (recovery_step digest text_digest stored_path path bundle_ok).

Lemma step_writes db o : keyed db →
  ∃ db1 os, rd_records db1 = rd_records db ∧ rd_chain db1 = foldl (chain_step digest) (rd_chain db) os ∧ writes allowed db1 (step db o).
Proof.
  intros Hk. assert (∀ db', writes allowed db db' → ∃ db1 os, rd_records db1 = rd_records db ∧ rd_chain db1 = foldl (chain_step digest) (rd_chain db) os ∧
    writes allowed db1 db') as Hsame by (intros db' H; by exists db, []).
  assert (writes allowed db db) as Hid by (by constructor).
  assert (∀ (A : Type) (x : result ReconciliationError (A * RecoveryDb)), (∀ r db', x = Ok (r, db') → writes allowed db db') →
    writes allowed db (kept db (snd <$> x))) as Hkept by (intros A [[r db']|e] H; [by apply (H r)|done]).
  destruct o as [id decision at_ manifests|now anchor i source|now anchor i source|now i r idle source|attempt ts cleaned h handles|o|rows]; cbn [recovery_step].
  - apply Hsame, Hkept. intros r db'. by apply decide_writes.
  - apply Hsame, Hkept. intros r db' (H & _)%recover_writes; done.
  - apply Hsame, Hkept. intros r db'. by apply complete_writes.
  - destruct (acceptCapture _ _ _ _ _ db now i r idle source) as [[receipt db']|] eqn:E; [|by apply Hsame]. cbn.
    unfold acceptCapture in E. destruct (bool_decide _); [|done]. apply bind_Ok in E as (? & _ & E). apply bind_Ok in E as ([chain rec] & Hc & E).
    unfold lift_chain in Hc. destruct (acceptWorkspaceCapture _ _ _ _ _ _ _) as [[c re]|] eqn:Ha; [|done]. injection Hc as -> ->.
    exists (with_chain db chain), [Capture now i r (rc_candidate <$> source) ((λ s, (rc_identity s, rc_candidate s)) <$> source)].
    split; [done|]. split; [cbn [foldl chain_step]; by rewrite Ha|]. destruct idle as [anchor|]; [|injection E as _ <-; by constructor].
    apply bind_Ok in E as ([r' d] & Hd & [= _ <-]). by apply complete_writes in Hd.
  - apply Hsame. destruct (applyWorkspaceTakeover _ _ _ _ _ _ _ _) as [db'|] eqn:E; [|done]. by apply takeover_writes in E.
  - exists (with_chain db (chain_step digest (rd_chain db) o)), [o]. split; [done|]. split; [done|]. by constructor.
  - apply Hsame. by constructor.
Qed.

Lemma step_keyed db o : keyed db → keyed (step db o).
Proof. intros Hk. destruct (step_writes db o Hk) as (db1 & os & E & _ & H). eapply writes_keyed; [|exact H]. unfold keyed. by rewrite E. Qed.

(** A row over a write: it stays, and a decided one does not change. *)
Definition row_after (row : ReconciliationRow) (o : option ReconciliationRow) : Prop :=
  ∃ row', o = Some row' ∧ rw_annotations row' = rw_annotations row ∧ rw_started_at row' = rw_started_at row ∧
    (wr_stateAfter (rw_core row) ≠ RequiresHuman → row' = row).

Lemma writes_rows db db' k row : writes allowed db db' → rd_records db !! k = Some row → row_after row (rd_records db' !! k).
Proof.
  intros H. revert row. induction H as [db db' E _ _|db db1 db' r _ Ho Hw _ IH]; intros row Hrow; [rewrite E; by exists row|].
  destruct (decide (k = (wr_workspaceId r, wr_id r))) as [->|Hne].
  - destruct (wt_row _ _ _ Hw) as (row1 & Hrow1 & _ & Hold). destruct (Hold _ Hrow) as [Ea Es]. specialize (Ho _ Hrow).
    destruct (IH row1 Hrow1) as (row' & -> & Ea' & Es' & _). exists row'. by rewrite Ea', Es'.
  - apply IH. by rewrite (wt_others _ _ _ Hw).
Qed.

(** C12. A decision is final, and no history loses what it does not own: from any tables, over every history
    of decisions, capture recoveries, completions, acceptances, takeovers and other operations, every
    reconciliation record stays, with the annotations and the position of its row, and the row of a
    record that no longer asks for a decision never changes again. *)
Theorem recovery_decisions_are_final os db k row : keyed db → rd_records db !! k = Some row →
  row_after row (rd_records (foldl step db os) !! k).
Proof.
  revert db row. induction os as [|o os IH]; intros db row Hk Hrow; [by exists row|]. cbn [foldl].
  destruct (step_writes db o Hk) as (db1 & os1 & Er & _ & Hw). rewrite <-Er in Hrow.
  destruct (writes_rows _ _ _ _ Hw Hrow) as (row1 & Hrow1 & Ea & Es & Hfin).
  destruct (IH (step db o) row1 (step_keyed db o Hk) Hrow1) as (row' & -> & Ea' & Es' & Hfin'). exists row'.
  split; [done|]. split; [congruence|]. split; [congruence|]. intros Hne. rewrite <-(Hfin Hne). apply Hfin'. by rewrite (Hfin Hne).
Qed.

(** The invariant of the records of captures. *)
Definition capture_ok (chain : WorkspaceDb) (r : WorkspaceReconciliationRecord) : Prop :=
  (wr_stateAfter r = RequiresHuman → is_Some (hs_identity (wr_backendHandleSummary r)) → wr_retentionDecision r = RetainBackend) ∧
  (starts_with CAPTURE_PREFIX (wr_id r) = true → wr_stateAfter r ≠ Quarantined ∧ (wr_stateAfter r = Recovered → has_receipt chain r)).

Record captures_ok (db : RecoveryDb) : Prop := {
  ck_keyed : keyed db;
  ck_chain : chain_ok (rd_chain db);
  ck_rows : ∀ k row, rd_records db !! k = Some row → capture_ok (rd_chain db) (rw_core row);
}.

Lemma allowed_ok chain r : allowed chain r → capture_ok chain r.
Proof.
  intros [[Hs Hr]|[[Hs Hu]|[Hs Hh]]]; split; try done.
  - intros _. by rewrite Hs.
  - intros Hp. by rewrite (Hu Hp).
  - by rewrite Hs.
  - intros _. by rewrite Hs.
Qed.

Lemma has_receipt_forever chain r os : chain_ok chain → has_receipt chain r → has_receipt (foldl (chain_step digest) chain os) r.
Proof.
  intros Hc (i & receipt & Hid & Hi & Hread & Hd). exists i, receipt. split; [done|]. split; [done|]. split; [|done]. by apply committed_forever.
Qed.

Lemma captures_step db o : captures_ok db → captures_ok (step db o).
Proof.
  intros [Hk Hc Hr]. split; [by apply step_keyed|..]; destruct (step_writes db o Hk) as (db1 & os & Er & Ec & Hw).
  - destruct (writes_chain _ _ _ Hw) as [-> _]. rewrite Ec. by apply chain_steps_ok.
  - assert (∀ k row, rd_records db1 !! k = Some row → capture_ok (rd_chain db1) (rw_core row)) as H1.
    { intros k row. rewrite Er, Ec. intros H. destruct (Hr _ _ H) as [Ha Hb]. split; [done|]. intros Hp. destruct (Hb Hp) as [Hq Hrec].
      split; [done|]. intros Hs. by apply has_receipt_forever, Hrec. }
    clear Er Ec Hr Hc Hk. induction Hw as [d d' Er Ec _|d d1 d' r HP _ Hw _ IH]; [rewrite Er, Ec; exact H1|]. apply IH.
    intros k row Hrow. rewrite (wt_chain _ _ _ Hw). destruct (decide (k = (wr_workspaceId r, wr_id r))) as [->|Hne].
    + destruct (wt_row _ _ _ Hw) as (row1 & Hrow1 & Hcore & _). rewrite Hrow in Hrow1. injection Hrow1 as <-. rewrite Hcore. by apply allowed_ok.
    + apply (H1 k). by rewrite <-(wt_others _ _ _ Hw).
Qed.

Definition no_recovery (workspace : jsstr) : RecoveryDb :=
  {| rd_workspaceId := workspace; rd_chain := empty_db; rd_records := ∅; rd_evidence := ∅; rd_materializations := [] |}.
Definition recovery_history (workspace : jsstr) (os : list recovery_op) : RecoveryDb := foldl step (no_recovery workspace) os.

Lemma history_captures workspace os : captures_ok (recovery_history workspace os).
Proof.
  unfold recovery_history. assert (captures_ok (no_recovery workspace)) as H by (split; [done|apply empty_db_ok|done]).
  revert H. generalize (no_recovery workspace). induction os as [|o os IH]; intros db H; [done|]. cbn [foldl]. apply IH. by apply captures_step.
Qed.

(** The accepted receipt is of these very bytes and facts. *)
Record receipt_of_source (receipt : WorkspaceCollectionReceipt) (source : RawWorkspaceCapture) : Prop := {
  rs_candidate : re_candidate receipt = Some (rc_candidate source);
  rs_head : r_head (re_result receipt) = r_head (rc_result source);
  rs_previousHead : previousHead (re_result receipt) = previousHead (rc_result source);
  rs_acceptedBase : acceptedBase (re_result receipt) = acceptedBase (rc_result source);
  rs_unstable : unstable (re_result receipt) = unstable (rc_result source);
  rs_sha256 : sha256 (re_result receipt) = sha256 (rc_result source);
  rs_byteLength : byteLength (re_result receipt) = byteLength (rc_result source);
}.

Lemma receipt_matches_source receipt source : receipt_matches receipt source = true → receipt_of_source receipt source.
Proof. unfold receipt_matches. intros H. bool_to_prop. by split. Qed.

Lemma completed_by_receipt db now anchor i source out :
  completeWorkspaceCaptureRecovery digest text_digest stored_path path bundle_ok db now anchor i (Some source) = Ok out →
  ∃ receipt, readWorkspaceCollection digest (rd_chain db) i = Ok (Some receipt) ∧ receipt_of_source receipt source.
Proof.
  unfold completeWorkspaceCaptureRecovery. intros (found & Hf & H)%bind_Ok. destruct found as [receipt|]; [|done].
  destruct (receipt_matches receipt source) eqn:M; [|done]. exists receipt. split; [|by apply receipt_matches_source].
  destruct (readWorkspaceCollection digest (rd_chain db) i); cbn in Hf; congruence.
Qed.

(** C11. An unaccepted capture is given up only by a human: over every history of the tables of a workspace, a
    capture record that counts as recovered has the accepted receipt of exactly the capture it names, whose
    content digest is the recorded one whenever one was recorded, and none is quarantined; while the record of
    a capture asks for a decision it retains the backend; and a recovery is completed with a capture only
    when the accepted receipt is of its very bytes and facts.  So evidence is torn down only after its
    receipt was accepted or a human abandoned it. *)
Theorem capture_recovered_only_by_receipt workspace os k row :
  rd_records (recovery_history workspace os) !! k = Some row →
  starts_with CAPTURE_PREFIX (wr_id (rw_core row)) = true →
  (wr_stateAfter (rw_core row) = Recovered → has_receipt (rd_chain (recovery_history workspace os)) (rw_core row)) ∧
  (wr_stateAfter (rw_core row) = RequiresHuman → is_Some (hs_identity (wr_backendHandleSummary (rw_core row))) →
   wr_retentionDecision (rw_core row) = RetainBackend) ∧
  wr_stateAfter (rw_core row) ≠ Quarantined ∧
  (∀ now anchor i source out,
     completeWorkspaceCaptureRecovery digest text_digest stored_path path bundle_ok (recovery_history workspace os) now anchor i (Some source) = Ok out →
     ∃ receipt, readWorkspaceCollection digest (rd_chain (recovery_history workspace os)) i = Ok (Some receipt) ∧ receipt_of_source receipt source).
Proof.
  intros Hrow Hp. destruct (ck_rows _ (history_captures workspace os) _ _ Hrow) as [Hr Hc]. destruct (Hc Hp) as [Hq Hrec].
  split_and!; try done. intros now anchor i source out. apply completed_by_receipt.
Qed.
End Proofs.

(** ** A concrete recovery *)

Module RecoveryDemo.

Definition text_digest (t : jsstr) : jsstr := replicate 64 (cu "a").
Definition any_path (p : jsstr) : bool := true.
Definition any_bundle (b : EvidenceBundle) : bool := true.

Definition package : jsstr := js "package".
Definition session : jsstr := js "nh-0123456789abcdef-0123456789abcdef".
Definition identity (boundary : string) : WorkspaceCollectionIdentity :=
  {| workspaceId := ChainDemo.id "ws"; storageRef := ChainDemo.id "wst"; scopeDigest := js "sha256:" ++ text_digest []; workSlot := js "slot";
     attachmentGeneration := 1; sandboxId := take 19 session; collectionId := js boundary ++ js "-" ++ text_digest package;
     agentSessionId := ChainDemo.id "as"; threadId := ChainDemo.id "th"; turnId := ChainDemo.id "tu"; packageSnapshotId := package |}.
Definition anchor : WorkspaceCaptureAnchor :=
  {| an_attemptId := js "attempt"; an_workspaceId := ChainDemo.id "ws"; an_threadId := ChainDemo.id "th"; an_turnId := ChainDemo.id "tu";
     an_agentSessionId := ChainDemo.id "as"; an_packageSnapshotId := package; an_backendKind := js "nanohost"; an_backendSessionId := session;
     an_sandboxBindingRef := js "binding"; an_state := js "running" |}.

Definition bytes : list Z := [1; 2; 3].
Definition capture_result : CollectionResult :=
  {| outcome := Candidate; sha256 := Some (ChainDemo.toy_digest bytes); byteLength := Some 3; r_head := Some (ChainDemo.pair_of "b");
     previousHead := Some (ChainDemo.pair_of "a"); acceptedBase := Some (ChainDemo.pair_of "a"); unstable := Some false;
     credentialCheck := None; collectedAt := None; acceptedCommit := None; pendingEarlierLinks := None; evidence := [] |}.
Definition source (boundary : string) : RawWorkspaceCapture := {| rc_identity := identity boundary; rc_result := capture_result; rc_candidate := bytes |}.

(** One capture is accepted and completed, another one is abandoned. *)
Definition opening : list recovery_op :=
  [ChainOp (Authorize (identity "base")); ChainOp (Baseline (identity "base") (ChainDemo.pair_of "a") (Some (replicate 40 (cu "a"))) None);
   Recover 1 anchor (identity "turn-end") (Some (source "turn-end"));
   Recover 2 anchor (identity "release") None].
Definition ending : list recovery_op :=
  [Accept 3 (identity "turn-end") capture_result (Some anchor) (Some (source "turn-end"));
   Decide (capture_record_id (collectionId (identity "release"))) Quarantine 4 [];
   Decide (capture_record_id (collectionId (identity "release"))) Abandon 5 []].
Definition later : list recovery_op :=
  [Recover 6 anchor (identity "release") (Some (source "release")); Decide (capture_record_id (collectionId (identity "turn-end"))) Abandon 7 [];
   Complete 8 anchor (identity "turn-end") None].

Local Abbreviation history := (recovery_history ChainDemo.toy_digest text_digest any_path any_path any_bundle (ChainDemo.id "ws")).
Definition key (boundary : string) : jsstr * jsstr := (ChainDemo.id "ws", capture_record_id (collectionId (identity boundary))).
Definition state_at (db : RecoveryDb) (boundary : string) : option (RecoveryState * RetentionDecision) :=
  (λ row, (wr_stateAfter (rw_core row), wr_retentionDecision (rw_core row))) <$> rd_records db !! key boundary.

Example states :
  (state_at (history opening) "turn-end", state_at (history opening) "release") = (Some (RequiresHuman, RetainBackend), Some (RequiresHuman, RetainBackend)) ∧
  (state_at (history (opening ++ ending)) "turn-end", state_at (history (opening ++ ending)) "release")
    = (Some (Recovered, TeardownBackend), Some (Unrecoverable, TeardownBackend)) ∧
  (state_at (history (opening ++ ending ++ later)) "turn-end", state_at (history (opening ++ ending ++ later)) "release")
    = (Some (Recovered, TeardownBackend), Some (Unrecoverable, TeardownBackend)).
Proof. vm_compute. done. Qed.

Lemma row_with_state os boundary x : state_at (history os) boundary = Some x →
  ∃ row, rd_records (history os) !! key boundary = Some row ∧ (wr_stateAfter (rw_core row), wr_retentionDecision (rw_core row)) = x.
Proof. unfold state_at. destruct (_ !! _) as [row|]; [|done]. cbn. intros [= E]. by exists row. Qed.

Lemma accepted_state : state_at (history (opening ++ ending)) "turn-end" = Some (Recovered, TeardownBackend).
Proof. vm_compute. reflexivity. Qed.
Lemma abandoned_state : state_at (history (opening ++ ending)) "release" = Some (Unrecoverable, TeardownBackend).
Proof. vm_compute. reflexivity. Qed.

Lemma recovery_decisions_are_final_witness :
  ∃ row, rd_records (history (opening ++ ending)) !! key "release" = Some row ∧ wr_stateAfter (rw_core row) = Unrecoverable ∧
    row_after row (rd_records (foldl (recovery_step ChainDemo.toy_digest text_digest any_path any_path any_bundle) (history (opening ++ ending)) later) !! key "release").
Proof.
  destruct (row_with_state _ _ _ abandoned_state) as (row & Hrow & Hs). injection Hs as Hs _. exists row. split; [exact Hrow|]. split; [exact Hs|].
  exact (recovery_decisions_are_final ChainDemo.toy_digest text_digest any_path any_path any_bundle later (history (opening ++ ending)) (key "release") row
    (ck_keyed _ _ (history_captures _ _ _ _ _ _ _)) Hrow).
Defined.

Lemma capture_recovered_only_by_receipt_witness :
  ∃ row, rd_records (history (opening ++ ending)) !! key "turn-end" = Some row ∧
    has_receipt ChainDemo.toy_digest (rd_chain (history (opening ++ ending))) (rw_core row).
Proof.
  destruct (row_with_state _ _ _ accepted_state) as (row & Hrow & Hs). injection Hs as Hs _. exists row. split; [exact Hrow|].
  assert (starts_with CAPTURE_PREFIX (wr_id (rw_core row)) = true) as Hp.
  { pose proof (ck_keyed _ _ (history_captures _ _ _ _ _ _ _) _ _ Hrow) as E. injection E as _ E. rewrite <-E. vm_compute. reflexivity. }
  exact (proj1 (capture_recovered_only_by_receipt ChainDemo.toy_digest text_digest any_path any_path any_bundle (ChainDemo.id "ws") (opening ++ ending)
    (key "turn-end") row Hrow Hp) Hs).
Defined.
End RecoveryDemo.
