(* ===== verification/PiChannel.v ===== *)
(** * The private channel of the Pi runtime host (packages/pi-runtime-host/src/channel.ts and
    bin/openkit-pi-runtime-host.ts, packages/worker-shim/src/adapters/pi-channel.ts)

    The Harness and the host that runs one Pi conversation exchange JSON objects, one per line, over a
    socket.  The host writes a frame as the UTF-8 bytes of its JSON text with every loopback credential
    replaced; the adapter splits what arrives, in whatever chunks, into bounded lines and classifies
    each.  Both ends have a line reader, with the same loop and different bounds.

    Bytes are integers below 256.  The callbacks of a reader are the events it emits, in order.  A value
    outside plain data has no JSON text; [encodeFrame] throws on it, as [JSON.stringify] does on cyclic
    structures and big integers. *)

From Stdlib Require Import SpecFloat.
From S2P Require Import Prelude JsValue CanonicalJson EntityId Utf8 CommandInput JsonText AgentLoop RequestAdmission.

Local Open Scope string_scope.
Local Open Scope list_scope.
Local Open Scope Z_scope.

(** ** Decoding UTF-8 *)

Definition is_continuation (b : Z) : bool := in_range 0x80 0xbf b.

(** The range of the second byte, narrower after four leading bytes. *)
Definition second_byte (b c : Z) : bool :=
  in_range (if b =? 0xe0 then 0xa0 else if b =? 0xf0 then 0x90 else 0x80)
           (if b =? 0xed then 0x9f else if b =? 0xf4 then 0x8f else 0xbf) c.

(** The decoder of the Encoding standard: the code points, [None] where bytes do not form one.  A byte
    that cannot continue a sequence is read again as the start of the next. *)
Fixpoint decode_points (bytes : list Z) : list (option Z) :=
  match bytes with
  | [] => []
  | b :: r =>
    if b <? 0x80 then Some b :: decode_points r
    else if in_range 0xc2 0xdf b then
      match r with
      | c :: r1 => if is_continuation c then Some ((b - 0xc0) * 64 + (c - 0x80)) :: decode_points r1 else None :: decode_points r
      | [] => [None]
      end
    else if in_range 0xe0 0xef b then
      match r with
      | c :: r1 =>
        if second_byte b c then
          match r1 with
          | d :: r2 =>
            if is_continuation d then Some ((b - 0xe0) * 4096 + (c - 0x80) * 64 + (d - 0x80)) :: decode_points r2
            else None :: decode_points r1
          | [] => [None]
          end
        else None :: decode_points r
      | [] => [None]
      end
    else if in_range 0xf0 0xf4 b then
      match r with
      | c :: r1 =>
        if second_byte b c then
          match r1 with
          | d :: r2 =>
            if is_continuation d then
              match r2 with
              | e :: r3 =>
                if is_continuation e
                then Some ((b - 0xf0) * 262144 + (c - 0x80) * 4096 + (d - 0x80) * 64 + (e - 0x80)) :: decode_points r3
                else None :: decode_points r2
              | [] => [None]
              end
            else None :: decode_points r1
          | [] => [None]
          end
        else None :: decode_points r
      | [] => [None]
      end
    else None :: decode_points r
  end.

(** The UTF-16 code units of a code point. *)
Definition units_of_point (p : Z) : jsstr :=
  if p <? 0x10000 then [p] else [0xd800 + (p - 0x10000) / 1024; 0xdc00 + (p - 0x10000) mod 1024].

(** [new TextDecoder('utf-8', { fatal: true }).decode(bytes)]: a leading byte order mark is dropped;
    [None] is the thrown error. *)
Definition decode_fatal (bytes : list Z) : option jsstr :=
  ps ← mapM id (decode_points (if starts_with [0xef; 0xbb; 0xbf] bytes then drop 3 bytes else bytes));
  Some (ps ≫= units_of_point).

(** [bytes.toString('utf8')] *)
Definition decode_lossy (bytes : list Z) : jsstr := decode_points bytes ≫= λ p, units_of_point (default 0xfffd p).

(** ** Line readers *)

(** The callbacks [onLine] and [onOverflow]. *)
Inductive LineEvent := OnLine (line : jsstr) | OnOverflow.

Record LineState := {
  ls_pending : list (list Z);
  ls_pendingBytes : Z;
  ls_discarding : bool;
}.
Definition reader_start : LineState := {| ls_pending := []; ls_pendingBytes := 0; ls_discarding := false |}.

(** [chunk.indexOf(10, start)]: the bytes before the next line feed, and those after it if there is one. *)
Fixpoint next_newline (bytes : list Z) : list Z * option (list Z) :=
  match bytes with
  | [] => ([], None)
  | b :: r => if b =? 10 then ([], Some r) else let '(piece, rest) := next_newline r in (b :: piece, rest)
  end.

Definition bytes_length (l : list Z) : Z := Z.of_nat (length l).

(** The pending bytes grow by one piece; a line over the bound is reported once and discarded. *)
Definition keep_piece (maxBytes : Z) (st : LineState) (piece : list Z) : LineState * list LineEvent :=
  if ls_discarding st then (st, [])
  else
    let pendingBytes := ls_pendingBytes st + bytes_length piece in
    if maxBytes <? pendingBytes
    then ({| ls_pending := []; ls_pendingBytes := 0; ls_discarding := true |}, [OnOverflow])
    else ({| ls_pending := ls_pending st ++ [piece]; ls_pendingBytes := pendingBytes; ls_discarding := false |}, []).

(** The adapter's reader does not keep an empty piece ([end > start]). *)
Definition keep_nonempty_piece (maxBytes : Z) (st : LineState) (piece : list Z) : LineState * list LineEvent :=
  match piece with [] => (st, []) | _ :: _ => keep_piece maxBytes st piece end.

(** A line feed was read: the line is decoded unless it is being discarded. *)
Definition finish_line (st : LineState) : list LineEvent :=
  if ls_discarding st then []
  else
    match decode_fatal (concat (ls_pending st)) with
    | None => [OnOverflow]
    | Some line => if is_blank line then [] else [OnLine line]
    end.

Section Reader.
Context (keep : LineState → list Z → LineState * list LineEvent).

(** The loop over one chunk; [bytes] is the chunk from [start] on. *)
Fixpoint read_loop (fuel : nat) (st : LineState) (bytes : list Z) : LineState * list LineEvent :=
  match fuel with
  | O => (st, [])
  | S fuel =>
    match bytes with
    | [] => (st, [])
    | _ :: _ =>
      let '(piece, rest) := next_newline bytes in
      let '(st, events) := keep st piece in
      match rest with
      | None => (st, events)
      | Some rest =>
        let '(st', later) := read_loop fuel reader_start rest in
        (st', events ++ finish_line st ++ later)
      end
    end
  end.

(** Every round reads at least one byte. *)
Definition read_chunk (st : LineState) (chunk : list Z) : LineState * list LineEvent := read_loop (length chunk) st chunk.

(** The chunks of one connection, in order. *)
Fixpoint read_chunks (st : LineState) (chunks : list (list Z)) : LineState * list LineEvent :=
  match chunks with
  | [] => (st, [])
  | chunk :: chunks =>
    let '(st, events) := read_chunk st chunk in
    let '(st, later) := read_chunks st chunks in (st, events ++ later)
  end.
End Reader.

Definition PI_RESULT_CONTENT_MAX_BYTES : Z := 16 * 1024 * 1024.
Definition CHANNEL_REQUEST_MAX_BYTES : Z := 8 * 1024 * 1024.
Definition CHANNEL_FRAME_MAX_BYTES : Z := 6 * PI_RESULT_CONTENT_MAX_BYTES + 64 * 1024.
Definition CHANNEL_NATIVE_EVENT_MAX_BYTES : Z := 4 * 1024 * 1024.
Definition PI_CHANNEL_FRAME_MAX_BYTES : Z := 6 * PI_RESULT_CONTENT_MAX_BYTES + 64 * 1024.

(** The reader of the host, for requests. *)
Definition createLineReader := read_chunk (keep_piece CHANNEL_REQUEST_MAX_BYTES).
(** The reader of the adapter, for frames. *)
Definition createPiLineReader (maxBytes : Z) := read_chunk (keep_nonempty_piece maxBytes).

(** The end of the stream: a torn final frame is refused. *)
Definition finish (st : LineState) : LineState * list LineEvent :=
  ({| ls_pending := []; ls_pendingBytes := 0; ls_discarding := ls_discarding st |},
   if (0 <? ls_pendingBytes st) || ls_discarding st then [OnOverflow] else []).

(** *** What a stream means *)

(** The complete lines of a stream and what follows its last line feed. *)
Fixpoint split_lines (bytes : list Z) : list (list Z) * list Z :=
  match bytes with
  | [] => ([], [])
  | b :: r =>
    let '(lines, tail) := split_lines r in
    if b =? 10 then ([] :: lines, tail)
    else match lines with [] => ([], b :: tail) | l :: lines => ((b :: l) :: lines, tail) end
  end.

Definition overflow_events (maxBytes : Z) (l : list Z) : list LineEvent :=
  if maxBytes <? bytes_length l then [OnOverflow] else [].

(** One line: over the bound or not UTF-8, one report; blank, nothing; otherwise its text. *)
Definition line_events (maxBytes : Z) (l : list Z) : list LineEvent :=
  if maxBytes <? bytes_length l then [OnOverflow]
  else match decode_fatal l with
       | None => [OnOverflow]
       | Some line => if is_blank line then [] else [OnLine line]
       end.

Definition stream_events (maxBytes : Z) (bytes : list Z) : list LineEvent :=
  let '(lines, tail) := split_lines bytes in (lines ≫= line_events maxBytes) ++ overflow_events maxBytes tail.

Definition no_newline (l : list Z) : Prop := 10 ∉ l.

(** A state that has read the unfinished line [l]. *)
Definition reading (maxBytes : Z) (st : LineState) (l : list Z) : Prop :=
  if maxBytes <? bytes_length l
  then st = {| ls_pending := []; ls_pendingBytes := 0; ls_discarding := true |}
  else ls_discarding st = false ∧ concat (ls_pending st) = l ∧ ls_pendingBytes st = bytes_length l.

(** What the two readers have in common. *)
Class PieceKeeper (maxBytes : Z) (keep : LineState → list Z → LineState * list LineEvent) : Prop := {
  keeper_bound : 0 <= maxBytes;
  keeper_step st l piece : reading maxBytes st l →
    reading maxBytes (keep st piece).1 (l ++ piece) ∧
    overflow_events maxBytes l ++ (keep st piece).2 = overflow_events maxBytes (l ++ piece);
}.

Lemma bytes_length_app l k : bytes_length (l ++ k) = bytes_length l + bytes_length k.
Proof. unfold bytes_length. rewrite length_app. lia. Qed.
Lemma bytes_length_nonneg l : 0 <= bytes_length l.
Proof. unfold bytes_length. lia. Qed.

#[export] Instance keep_piece_keeper maxBytes : 0 <= maxBytes → PieceKeeper maxBytes (keep_piece maxBytes).
Proof.
  intros Hm. split; [done|]. intros st l piece. unfold reading, overflow_events, keep_piece. rewrite bytes_length_app.
  pose proof (bytes_length_nonneg piece). destruct (maxBytes <? bytes_length l) eqn:E; bool_to_prop.
  - intros ->. cbn. by rewrite (proj2 (Z.ltb_lt _ _)) by lia.
  - intros (-> & Hc & ->). destruct (maxBytes <? bytes_length l + bytes_length piece); [done|].
    cbn. rewrite concat_app, Hc. cbn. by rewrite app_nil_r.
Qed.

#[export] Instance keep_nonempty_keeper maxBytes : 0 <= maxBytes → PieceKeeper maxBytes (keep_nonempty_piece maxBytes).
Proof.
  intros Hm. split; [done|]. intros st l [|b piece] Hst; [|by apply keep_piece_keeper]. cbn. by rewrite !app_nil_r.
Qed.

Lemma split_lines_tail l : no_newline l → split_lines l = ([], l).
Proof.
  induction l as [|b l IH]; [done|]. intros Hl. apply not_elem_of_cons in Hl as [Hb Hl]. cbn [split_lines].
  rewrite (IH Hl). by rewrite (proj2 (Z.eqb_neq _ _)) by lia.
Qed.

Lemma split_lines_newline l rest :
  no_newline l → split_lines (l ++ 10 :: rest) = (l :: (split_lines rest).1, (split_lines rest).2).
Proof.
  induction l as [|b l IH]; intros Hl; cbn [app split_lines]; [by destruct (split_lines rest)|].
  apply not_elem_of_cons in Hl as [Hb Hl]. rewrite (IH Hl). by rewrite (proj2 (Z.eqb_neq _ _)) by lia.
Qed.

Lemma split_lines_tail_clean bytes : no_newline (split_lines bytes).2.
Proof.
  unfold no_newline. induction bytes as [|b r IH]; cbn [split_lines]; [apply not_elem_of_nil|]. destruct (split_lines r) as [[|l lines] tail]; cbn in IH;
    destruct (b =? 10) eqn:E; cbn; bool_to_prop; try done; apply not_elem_of_cons; split; try done; lia.
Qed.

Lemma next_newline_spec bytes :
  match next_newline bytes with
  | (piece, None) => bytes = piece ∧ no_newline piece
  | (piece, Some rest) => bytes = piece ++ 10 :: rest ∧ no_newline piece
  end.
Proof.
  unfold no_newline. induction bytes as [|b r IH]; cbn [next_newline]; [split; [done|apply not_elem_of_nil]|]. destruct (b =? 10) eqn:E; bool_to_prop.
  - split; [by subst|apply not_elem_of_nil].
  - destruct (next_newline r) as [piece [rest|]], IH as [-> IH]; (split; [done|]); apply not_elem_of_cons; split; done || lia.
Qed.

Lemma finish_line_events maxBytes st l : reading maxBytes st l → overflow_events maxBytes l ++ finish_line st = line_events maxBytes l.
Proof.
  unfold reading, overflow_events, finish_line, line_events. destruct (maxBytes <? bytes_length l); [by intros ->|]. by intros (-> & -> & _).
Qed.

Lemma reading_start maxBytes : 0 <= maxBytes → reading maxBytes reader_start [].
Proof. intros H. unfold reading. by rewrite (proj2 (Z.ltb_ge _ _)). Qed.

Lemma overflow_nil maxBytes : 0 <= maxBytes → overflow_events maxBytes [] = [].
Proof. intros H. unfold overflow_events. by rewrite (proj2 (Z.ltb_ge _ _)). Qed.

Lemma no_newline_app l k : no_newline l → no_newline k → no_newline (l ++ k).
Proof. unfold no_newline. rewrite elem_of_app. tauto. Qed.

(** One chunk: the reader moves from the unfinished line before it to the one after it, and reports
    what lies in between. *)
Lemma read_loop_spec `{Hk : PieceKeeper maxBytes keep} fuel st l bytes :
  (length bytes <= fuel)%nat → no_newline l → reading maxBytes st l →
  reading maxBytes (read_loop keep fuel st bytes).1 (split_lines (l ++ bytes)).2 ∧
  overflow_events maxBytes l ++ (read_loop keep fuel st bytes).2 = stream_events maxBytes (l ++ bytes).
Proof.
  pose proof keeper_bound as Hm. unfold stream_events. revert st l bytes.
  induction fuel as [|fuel IH]; intros st l bytes Hf Hl Hst.
  { destruct bytes; [|cbn in Hf; lia]. rewrite app_nil_r, split_lines_tail by done. cbn. by rewrite app_nil_r. }
  destruct bytes as [|b0 bs]; [rewrite app_nil_r, split_lines_tail by done; cbn; by rewrite app_nil_r|].
  cbn [read_loop]. pose proof (next_newline_spec (b0 :: bs)) as Hn.
  destruct (next_newline (b0 :: bs)) as [piece rest]. pose proof (keeper_step st l piece Hst) as [Hst' Hev].
  destruct (keep st piece) as [st' events] eqn:Ek. cbn [fst snd] in Hst', Hev.
  destruct rest as [rest|], Hn as [Hb Hp]; rewrite Hb in Hf |- *.
  - destruct (IH reader_start [] rest) as [Hr He]; [|apply not_elem_of_nil|by apply reading_start|].
    { rewrite length_app in Hf. cbn in Hf. lia. }
    destruct (read_loop keep fuel reader_start rest) as [st2 later]. cbn [fst snd app] in *.
    rewrite app_assoc, split_lines_newline by (by apply no_newline_app). cbn [fst snd]. split; [done|].
    rewrite overflow_nil in He by done. rewrite app_assoc, Hev, app_assoc, (finish_line_events maxBytes) by done.
    cbn [mbind list_bind]. destruct (split_lines rest) as [lines tail]. cbn [fst snd] in *. cbn [app] in He. rewrite He. by rewrite <-app_assoc.
  - rewrite split_lines_tail by (by apply no_newline_app). cbn [fst snd]. by rewrite Hev.
Qed.

Lemma split_lines_app a b :
  split_lines (a ++ b) = ((split_lines a).1 ++ (split_lines ((split_lines a).2 ++ b)).1, (split_lines ((split_lines a).2 ++ b)).2).
Proof.
  induction a as [|x a IH]; cbn [app split_lines fst snd]; [by destruct (split_lines b)|]. rewrite IH.
  destruct (split_lines a) as [lines tail]. cbn [fst snd]. destruct (x =? 10) eqn:E; [done|].
  destruct lines as [|l lines]; cbn [fst snd app split_lines]; rewrite ?E; by destruct (split_lines (tail ++ b)) as [[|] ?].
Qed.

Lemma stream_events_app maxBytes a b :
  stream_events maxBytes (a ++ b) = ((split_lines a).1 ≫= line_events maxBytes) ++ stream_events maxBytes ((split_lines a).2 ++ b).
Proof.
  unfold stream_events. rewrite split_lines_app. destruct (split_lines ((split_lines a).2 ++ b)) as [lines tail]. cbn [fst snd].
  by rewrite bind_app, <-app_assoc.
Qed.

Lemma read_chunks_spec `{Hk : PieceKeeper maxBytes keep} chunks st l :
  no_newline l → reading maxBytes st l →
  reading maxBytes (read_chunks keep st chunks).1 (split_lines (l ++ concat chunks)).2 ∧
  overflow_events maxBytes l ++ (read_chunks keep st chunks).2 = stream_events maxBytes (l ++ concat chunks).
Proof.
  revert st l. induction chunks as [|chunk chunks IH]; intros st l Hl Hst; cbn [read_chunks concat].
  - unfold stream_events. rewrite !app_nil_r, split_lines_tail by done. done.
  - destruct (read_loop_spec (length chunk) st l chunk) as [Hr He]; [done..|]. fold (read_chunk keep st chunk) in Hr, He.
    destruct (read_chunk keep st chunk) as [st1 ev]. cbn [fst snd] in Hr, He.
    destruct (IH st1 (split_lines (l ++ chunk)).2) as [Hr2 He2]; [apply split_lines_tail_clean|done|].
    destruct (read_chunks keep st1 chunks) as [st2 later]. cbn [fst snd] in *.
    rewrite app_assoc, split_lines_app. cbn [snd]. split; [done|].
    rewrite stream_events_app, <-He2, app_assoc, He. unfold stream_events. destruct (split_lines (l ++ chunk)) as [lines tail]. cbn [fst snd].
    by rewrite <-app_assoc.
Qed.

Lemma finish_reading maxBytes st l : 0 <= maxBytes → reading maxBytes st l → (finish st).2 = if decide (l = []) then [] else [OnOverflow].
Proof.
  intros Hm. unfold reading, finish. cbn [snd]. destruct (maxBytes <? bytes_length l) eqn:E; bool_to_prop.
  - intros ->. rewrite decide_False; [done|]. intros ->. change (bytes_length []) with 0 in E. lia.
  - intros (-> & _ & ->). destruct l as [|b l]; [done|]. rewrite decide_False by done. by rewrite (proj2 (Z.ltb_lt _ _)) by (unfold bytes_length; cbn; lia).
Qed.

(** A reader depends on the bytes and not on the chunks they come in. *)
Lemma reader_splits_stream `{Hk : PieceKeeper maxBytes keep} chunks :
  (read_chunks keep reader_start chunks).2 = stream_events maxBytes (concat chunks) ∧
  reading maxBytes (read_chunks keep reader_start chunks).1 (split_lines (concat chunks)).2.
Proof.
  pose proof keeper_bound as Hm. destruct (read_chunks_spec chunks reader_start []) as [Hr He]; [apply not_elem_of_nil|by apply reading_start|].
  rewrite overflow_nil in He by done. done.
Qed.

(** ** Frames *)

Definition PI_FAILED_REASONS : list string := [
  "Worker runtime stopped on its own without an OpenKit interrupt request.";
  "pi-final-message-empty"; "pi-identity-failed"; "pi-inference-failed"; "pi-output-malformed"; "pi-output-too-large";
  "pi-prompt-failed"; "pi-route-mismatch"; "pi-setup-failed"; "pi-terminal-correlation-failed"].

(** [reason] is one of [PI_FAILED_REASONS]. *)
Inductive PiTurnOutcome :=
| Completed (assistantText : jsstr)
| Failed (reason : string)
| Length
| Interrupted.

Definition outcome_json (o : PiTurnOutcome) : jsval :=
  match o with
  | Completed t => obj [("status", JStr (js "completed")); ("assistantText", JStr t)]
  | Failed r => obj [("status", JStr (js "failed")); ("reason", JStr (js r))]
  | Length => obj [("status", JStr (js "length")); ("reason", JStr (js "pi-length"))]
  | Interrupted => obj [("status", JStr (js "interrupted")); ("reason", JStr (js "worker-interrupted"))]
  end.

Inductive HostNativeHandle := Pending | Ready (digest handle : jsstr) | Unknown.

Definition handle_json (h : HostNativeHandle) : jsval :=
  match h with
  | Pending => obj [("state", JStr (js "pending"))]
  | Ready digest handle => obj [("digest", JStr digest); ("handle", JStr handle); ("state", JStr (js "ready"))]
  | Unknown => obj [("state", JStr (js "unknown"))]
  end.

Inductive HostErrorCode := InvalidRequest | InvalidState | IdentityFailed | SetupFailed | Busy.
Definition error_code (c : HostErrorCode) : string :=
  match c with
  | InvalidRequest => "invalid_request" | InvalidState => "invalid_state" | IdentityFailed => "identity_failed"
  | SetupFailed => "setup_failed" | Busy => "busy"
  end.

(** [HostResponse] and [HostEvent].  An [id] is the number that the request carried. *)
Inductive HostFrame :=
| Response (id : spec_float) (members : list (jsstr * jsval))
| Refusal (code : HostErrorCode) (message : jsstr) (id : option spec_float)
| Native (data : jsval) (turnId : jsstr)
| NativeOmitted (bytes : Z) (turnId type : jsstr)
| UiUnsupported (method : jsstr) (turnId : option jsstr)
| ExtensionError (message : jsstr)
| TurnSettled (compactionEntryIds : list jsstr) (nativeHandle : HostNativeHandle) (outcome : PiTurnOutcome)
    (reasoningEffort turnId : jsstr).

Definition json_or_null {A} (f : A → jsval) (o : option A) : jsval := match o with Some a => f a | None => JNull end.

Definition frame_json (frame : HostFrame) : jsval :=
  match frame with
  | Response id result => obj [("id", JNum id); ("ok", JBool true); ("result", JObj result)]
  | Refusal code message id =>
    obj [("error", obj [("code", JStr (js (error_code code))); ("message", JStr message)]); ("id", json_or_null JNum id); ("ok", JBool false)]
  | Native data turnId => obj [("data", data); ("event", JStr (js "native")); ("turnId", JStr turnId)]
  | NativeOmitted bytes turnId type =>
    obj [("bytes", JNum (number_of_decimal (bytes <? 0) (Z.abs bytes) 0)); ("event", JStr (js "native_omitted")); ("turnId", JStr turnId); ("type", JStr type)]
  | UiUnsupported method turnId =>
    obj [("event", JStr (js "ui_unsupported")); ("method", JStr method); ("turnId", json_or_null JStr turnId)]
  | ExtensionError message => obj [("event", JStr (js "extension_error")); ("message", JStr message)]
  | TurnSettled ids handle outcome effort turnId =>
    obj [("compactionEntryIds", JArr (JStr <$> ids)); ("event", JStr (js "turn_settled")); ("nativeHandle", handle_json handle);
         ("outcome", outcome_json outcome); ("reasoningEffort", JStr effort); ("turnId", JStr turnId)]
  end.

(** *** Redaction *)

(** [text.split(separator)] for a nonempty separator; [skip] code units belong to the separator found last. *)
Fixpoint split_text (separator : jsstr) (skip : nat) (text : jsstr) : list jsstr :=
  match text with
  | [] => [[]]
  | c :: r =>
    match skip with
    | S skip => split_text separator skip r
    | O =>
      if starts_with separator text then [] :: split_text separator (pred (length separator)) r
      else match split_text separator 0 r with piece :: pieces => (c :: piece) :: pieces | [] => [[c]] end
    end
  end.

Definition MARKER : jsstr := js "[redacted]".

(** The loop over the secrets; an empty one is skipped. *)
Definition redact_secrets (secrets : list jsstr) (text : jsstr) : jsstr :=
  foldl (λ text secret, match secret with [] => text | _ :: _ => join MARKER (split_text secret 0 text) end) text secrets.

(** [Err] is the thrown error. *)
Definition encodeFrame (frame : HostFrame) (secrets : list jsstr) : result unit jsstr :=
  match json_stringify (frame_json frame) with
  | None => Err tt
  | Some text =>
    let text := redact_secrets secrets text in
    if CHANNEL_FRAME_MAX_BYTES <? utf8_length text then Err tt else Ok (text ++ [10])
  end.

(** What replaces a frame that cannot be sent: a refusal for a response, an extension error for an event. *)
Definition substitute (frame : HostFrame) : HostFrame :=
  match frame with
  | Response id _ => Refusal InvalidState (js "Response exceeded its bound.") (Some id)
  | Refusal _ _ id => Refusal InvalidState (js "Response exceeded its bound.") id
  | _ => ExtensionError (js "Event exceeded " ++ int_text CHANNEL_FRAME_MAX_BYTES ++ js " bytes.")
  end.

(** [send] of the host process: the bytes that [channel.write] puts on the socket. *)
Definition send (secrets : list jsstr) (frame : HostFrame) : result unit (list Z) :=
  utf8_encode <$> match encodeFrame frame secrets with
                  | Ok line => Ok line
                  | Err _ => encodeFrame (substitute frame) secrets
                  end.

Definition exposes (secrets : list jsstr) (text : jsstr) : bool :=
  existsb (λ secret, match secret with [] => false | _ :: _ => contains secret text end) secrets.

(** [#forwardNative]: the frame that is sent for a session event of the Turn.  An event without a text
    is one [JSON.stringify] throws on. *)
Definition forwardNative (secrets : list jsstr) (turnId : jsstr) (event : jsval) : HostFrame :=
  match json_stringify event with
  | None => NativeOmitted (-1) turnId (text_of (js_get "type" event))
  | Some original =>
    if exposes secrets original then NativeOmitted (utf8_length original) turnId (text_of (js_get "type" event))
    else if CHANNEL_NATIVE_EVENT_MAX_BYTES <? utf8_length original
    then NativeOmitted (utf8_length original) turnId (text_of (js_get "type" event))
    else Native event turnId
  end.

(** ** Parsing *)

Record PiTurnSettledFrame := {
  ps_reasoningEffort : option jsval;
  ps_compactionEntryIds : list jsstr;
  ps_nativeHandle : jsval;
  ps_outcome : jsval;
  ps_turnId : jsstr;
}.

Inductive PiParsedFrame :=
| PIgnored
| PInvalid
| PNative (turnId : jsstr) (data : jsval)
| POmitted (turnId : jsstr)
| PResponse (id : spec_float) (members : list (jsstr * jsval))
| PRefusal (code message : jsstr) (id : option spec_float)
| PSettled (settled : PiTurnSettledFrame)
| PUi (method : jsstr) (turnId : option jsstr).

Definition KNOWN_EVENTS : list string := ["extension_error"; "native"; "native_omitted"; "turn_settled"; "ui_unsupported"].
Definition PI_HOST_ERROR_CODES : list string := ["invalid_request"; "invalid_state"; "identity_failed"; "setup_failed"; "busy"].

(** [key in value] for a key that no prototype has. *)
Definition has_member (key : string) (value : jsval) : bool :=
  match value with JObj ms => bool_decide (is_Some (lookup_member (js key) ms)) | _ => false end.

(** [typeof v === 'string'] *)
Definition as_string (v : jsval) : option jsstr := match v with JStr s => Some s | _ => None end.

(** [typeof id === 'number' && Number.isSafeInteger(id) && id >= 0] *)
Definition safe_id (v : jsval) : option spec_float :=
  match v with
  | JNum f =>
    match number_integer f with
    | Some z => if in_range 0 9007199254740991 z then Some f else None
    | None => None
    end
  | _ => None
  end.

Definition parse_settled (value : jsval) : PiParsedFrame :=
  match js_get "turnId" value, js_get "compactionEntryIds" value with
  | JStr turnId, JArr l =>
    match mapM as_string l with
    | Some ids =>
      if has_member "nativeHandle" value && has_member "outcome" value then
        PSettled {| ps_compactionEntryIds := ids; ps_nativeHandle := js_get "nativeHandle" value; ps_outcome := js_get "outcome" value;
                    ps_reasoningEffort := match js_get "reasoningEffort" value with JUndef => None | e => Some e end;
                    ps_turnId := turnId |}
      else PInvalid
    | None => PInvalid
    end
  | _, _ => PInvalid
  end.

Definition parseEvent (value : jsval) : PiParsedFrame :=
  match js_get "event" value with
  | JStr event =>
    if negb (includes (js <$> KNOWN_EVENTS) event) then PIgnored
    else if bool_decide (event = js "native_omitted") then
      match js_get "turnId" value with JStr turnId => POmitted turnId | _ => PInvalid end
    else if bool_decide (event = js "extension_error") then
      match js_get "message" value with JStr _ => PIgnored | _ => PInvalid end
    else if bool_decide (event = js "native") then
      match js_get "turnId" value with JStr turnId => PNative turnId (js_get "data" value) | _ => PInvalid end
    else if bool_decide (event = js "ui_unsupported") then
      match js_get "method" value with
      | JStr (c :: method) =>
        match js_get "turnId" value with
        | JNull => PUi (c :: method) None
        | JStr turnId => PUi (c :: method) (Some turnId)
        | _ => PIgnored
        end
      | _ => PIgnored
      end
    else parse_settled value
  | _ => PInvalid
  end.

Definition parse_refusal (value : jsval) : PiParsedFrame :=
  let answer id :=
    match js_get "error" value with
    | JObj ms =>
      match js_get "code" (JObj ms) with
      | JStr code =>
        if includes (js <$> PI_HOST_ERROR_CODES) code
        then PRefusal code (match js_get "message" (JObj ms) with JStr m => m | _ => [] end) id
        else PInvalid
      | _ => PInvalid
      end
    | _ => PInvalid
    end in
  match js_get "id" value with
  | JNull => answer None
  | v => match safe_id v with Some f => answer (Some f) | None => PInvalid end
  end.

Definition parsePiHostFrame (line : jsstr) : PiParsedFrame :=
  match json_parse line with
  | None => PInvalid
  | Some value =>
    if negb (isRecord value) then PInvalid
    else if has_member "event" value then parseEvent value
    else
      match js_get "ok" value with
      | JBool true =>
        match safe_id (js_get "id" value), js_get "result" value with
        | Some f, JObj ms => PResponse f ms
        | _, _ => PInvalid
        end
      | JBool false => parse_refusal value
      | _ => PInvalid
      end
  end.

(** *** What a frame means to the adapter *)

Definition read_members (ms : list (jsstr * jsval)) : list (jsstr * jsval) :=
  match as_read (JObj ms) with JObj ms => ms | _ => [] end.

Definition meaning (frame : HostFrame) : PiParsedFrame :=
  match frame with
  | Response id members => PResponse (canon_number id) (read_members members)
  | Refusal code message id => PRefusal (js (error_code code)) message (canon_number <$> id)
  | Native data turnId => PNative turnId (as_read data)
  | NativeOmitted _ turnId _ => POmitted turnId
  | UiUnsupported [] _ => PIgnored
  | UiUnsupported method turnId => PUi method turnId
  | ExtensionError _ => PIgnored
  | TurnSettled ids handle outcome effort turnId =>
    PSettled {| ps_compactionEntryIds := ids; ps_nativeHandle := handle_json handle; ps_outcome := outcome_json outcome;
                ps_reasoningEffort := Some (JStr effort); ps_turnId := turnId |}
  end.

Definition valid_id (f : spec_float) : Prop := safe_id (JNum f) = Some f.

(** Frames as the host builds them: values of the language and the ids of requests. *)
Definition host_frame (frame : HostFrame) : Prop :=
  wf_value (frame_json frame) ∧ is_Some (json_stringify (frame_json frame)) ∧
  match frame with
  | Response id _ => valid_id id
  | Refusal _ _ (Some id) => valid_id id
  | _ => True
  end.

Lemma valid_id_finite f : valid_id f → is_finite_number f = true ∧ valid_id (canon_number f).
Proof. unfold valid_id. by destruct f. Qed.

Lemma as_strings ids : mapM as_string ((λ v, if is_undefined v then JNull else as_read v) <$> (JStr <$> ids)) = Some ids.
Proof. induction ids as [|i ids IH]; [done|]. rewrite !fmap_cons. cbn [is_undefined as_read mapM]. rewrite IH. done. Qed.

Lemma js_injective s t : js s = js t → s = t.
Proof.
  unfold js. intros H. rewrite <-(string_of_list_ascii_of_string s), <-(string_of_list_ascii_of_string t). f_equal.
  eapply list_fmap_eq_inj; [|exact H]. intros a b E. unfold cu in E.
  rewrite <-(ascii_N_embedding a), <-(ascii_N_embedding b). f_equal. lia.
Qed.

Lemma js_decide s t : bool_decide (js s = js t) = (s =? t)%string.
Proof.
  destruct (s =? t)%string eqn:E; [apply String.eqb_eq in E as ->; by apply bool_decide_eq_true|].
  apply String.eqb_neq in E. apply bool_decide_eq_false. by intros ?%js_injective.
Qed.

Lemma js_get_cons k k' v ms : js_get k (JObj ((js k', v) :: ms)) = if (k' =? k)%string then v else js_get k (JObj ms).
Proof. cbn [js_get lookup_member find fst]. unfold lookup_member. cbn [find fst]. rewrite js_decide. by destruct (k' =? k)%string. Qed.
Lemma js_get_nil k : js_get k (JObj []) = JUndef.
Proof. done. Qed.
Lemma has_member_cons k k' v ms : has_member k (JObj ((js k', v) :: ms)) = (k' =? k)%string || has_member k (JObj ms).
Proof. cbn [has_member]. unfold lookup_member. cbn [find fst]. rewrite js_decide. by destruct (k' =? k)%string. Qed.
Lemma has_member_nil k : has_member k (JObj []) = false.
Proof. done. Qed.

(** Looks up the keys that the code writes out. *)
Ltac keys :=
  rewrite ?js_get_cons, ?js_get_nil, ?has_member_cons, ?has_member_nil;
  cbn [String.eqb Ascii.eqb Bool.eqb orb andb negb].

Lemma known_event e : e ∈ KNOWN_EVENTS → includes (js <$> KNOWN_EVENTS) (js e) = true.
Proof. intros He. apply bool_decide_eq_true. by apply list_elem_of_fmap_2. Qed.

(** The branch of an event that is known. *)
Ltac event :=
  keys; unfold parseEvent; keys; rewrite known_event by set_solver; cbn [negb]; rewrite !js_decide;
  cbn [String.eqb Ascii.eqb Bool.eqb]; keys; try done.

(** The value of a frame is classified as the frame. *)
Lemma parse_meaning frame t :
  host_frame frame → json_stringify (frame_json frame) = Some t → parsePiHostFrame t = meaning frame.
Proof.
  intros (Hwf & _ & Hid) Ht. unfold parsePiHostFrame. rewrite (stringify_parse _ _ Hwf Ht). clear Hwf Ht.
  destruct frame as [id ms|code m id|data turn|b turn ty|method turn|m|ids h o e turn];
    cbn [frame_json meaning json_or_null]; unfold obj; cbn [fmap list_fmap as_read fst snd].
  - destruct (valid_id_finite id Hid) as [Hf Hc]. rewrite Hf. cbn [filterb keep_defined is_undefined snd negb]. cbn [isRecord negb]. keys.
    unfold valid_id in Hc. by rewrite Hc.
  - destruct id as [id|].
    + destruct (valid_id_finite id Hid) as [Hf Hc]. cbn [json_or_null as_read]. rewrite Hf. cbn [filterb keep_defined is_undefined snd negb isRecord]. keys.
      unfold parse_refusal. keys. unfold valid_id in Hc. rewrite Hc. by destruct code.
    + cbn [json_or_null as_read filterb keep_defined is_undefined snd negb isRecord]. keys. unfold parse_refusal. keys. by destruct code.
  - cbn [filterb keep_defined is_undefined snd negb isRecord]. destruct (keep_defined (js "data", as_read data)) eqn:E;
      [event|event; by destruct (as_read data)].
  - assert (keep_defined (js "bytes", as_read (JNum (number_of_decimal (b <? 0) (Z.abs b) 0))) = true) as Hb
      by (cbn [as_read]; by destruct (is_finite_number _)).
    cbn [as_read] in Hb. cbn [filterb]. rewrite Hb. cbn [keep_defined is_undefined snd negb isRecord]. event.
  - destruct turn as [turn|]; cbn [json_or_null as_read filterb keep_defined is_undefined snd negb isRecord]; event; by destruct method.
  - cbn [filterb keep_defined is_undefined snd negb isRecord]. event.
  - assert (as_read (handle_json h) = handle_json h ∧ as_read (outcome_json o) = outcome_json o) as [-> ->] by (by destruct h, o).
    assert (is_undefined (handle_json h) = false ∧ is_undefined (outcome_json o) = false) as [Hh Ho] by (by destruct h, o).
    cbn [filterb]. unfold keep_defined. cbn [snd is_undefined negb]. rewrite Hh, Ho. cbn [negb isRecord]. event.
    unfold parse_settled. keys. by rewrite as_strings.
Qed.

(** ** Texts on the wire *)

(** A text that fits on one line and survives UTF-8. *)
Definition wire_text (t : jsstr) : Prop := code_units t ∧ has_lone_surrogate t = false ∧ 10 ∉ t.

Lemma lone_app a b : has_lone_surrogate a = false → has_lone_surrogate b = false → has_lone_surrogate (a ++ b) = false.
Proof.
  intros Ha Hb. induction a as [|c|c d r IH1 IH2] using string_pair_ind; [done|..].
  - cbn [app]. cbn [has_lone_surrogate] in *. by destruct (is_high_surrogate c), (is_low_surrogate c).
  - rewrite <-!app_comm_cons in *. cbn [has_lone_surrogate] in *. destruct (is_high_surrogate c).
    + destruct (is_low_surrogate d); [by apply IH1|done].
    + destruct (is_low_surrogate c); [done|by apply IH2].
Qed.

Lemma wire_text_app a b : wire_text a → wire_text b → wire_text (a ++ b).
Proof.
  intros (? & ? & ?) (? & ? & ?). split_and!; [by apply Forall_app_2|by apply lone_app|]. rewrite elem_of_app. tauto.
Qed.

Lemma wire_text_nil : wire_text [].
Proof. split_and!; [constructor|done|apply not_elem_of_nil]. Qed.

Lemma wire_text_join sep ts : wire_text sep → Forall wire_text ts → wire_text (join sep ts).
Proof.
  intros Hs Hts. destruct Hts as [|t ts Ht Hts]; [apply wire_text_nil|]. cbn [join]. apply wire_text_app; [done|].
  induction Hts; cbn; [apply wire_text_nil|]. rewrite <-?app_assoc. eauto using wire_text_app.
Qed.

(** A code unit that no escape is needed for. *)
Definition wire_unit (c : Z) : Prop := 0 <= c < 65536 ∧ c ≠ 10 ∧ is_high_surrogate c = false ∧ is_low_surrogate c = false.

Lemma wire_text_unit c : wire_unit c → wire_text [c].
Proof. intros (? & ? & Hh & Hl). split_and!; [constructor; [done|constructor]|cbn; by rewrite Hh, Hl|set_solver]. Qed.

Lemma wire_text_units t : Forall wire_unit t → wire_text t.
Proof. induction 1 as [|c t Hc _ IH]; [apply wire_text_nil|]. by apply (wire_text_app [c]); [apply wire_text_unit|]. Qed.

Lemma ascii_wire c : 0 <= c < 128 → c ≠ 10 → wire_unit c.
Proof.
  intros. unfold wire_unit, is_high_surrogate, is_low_surrogate, in_range. split_and!; try lia; apply andb_false_iff; left; apply Z.leb_gt; lia.
Qed.

Lemma wire_text_js s : Forall (λ c, 0 <= c < 128 ∧ c ≠ 10) (js s) → wire_text (js s).
Proof. intros H. apply wire_text_units. eapply Forall_impl; [exact H|]. cbn. intros c []. by apply ascii_wire. Qed.

(** A text that is written out in the code. *)
Ltac wire_literal := apply wire_text_js; vm_compute; repeat constructor; try done; lia.

Lemma hex_digit_wire d : 0 <= d < 16 → wire_unit (hex_digit d).
Proof. intros Hd. unfold hex_digit. destruct (d <? 10) eqn:E; bool_to_prop; apply ascii_wire; lia. Qed.

Lemma hex4_wire c : 0 <= c < 65536 → wire_text (hex4 c).
Proof.
  intros Hc. apply wire_text_units. unfold hex4. repeat constructor; apply hex_digit_wire; Z.to_euclidean_division_equations; lia.
Qed.

Lemma escape_wire c : 0 <= c < 65536 → is_high_surrogate c = false → is_low_surrogate c = false → wire_text (escape_unit c).
Proof.
  intros Hc Hh Hl. apply wire_text_units. unfold escape_unit, QUOTE, BACKSLASH, cu. cbn.
  repeat (case_match; bool_to_prop;
    [repeat (apply Forall_cons_2 || apply Forall_nil_2); (apply ascii_wire; lia) || (apply hex_digit_wire; Z.to_euclidean_division_equations; lia)|]).
  apply Forall_singleton. unfold wire_unit. split_and!; done || lia.
Qed.

Lemma stringify_units_wire s : wf_str s → wire_text (stringify_units s).
Proof.
  assert (wire_text [BACKSLASH; cu "u"]) as Hu by (apply wire_text_units; repeat (apply Forall_cons_2 || apply Forall_nil_2); by apply ascii_wire).
  induction s as [|c|c d r IH1 IH2] using string_pair_ind; intros Hs; [apply wire_text_nil|..]; apply Forall_cons in Hs as [Hc Hs];
    pose proof (hex4_wire c Hc) as H4; cbn [stringify_units].
  - destruct (is_high_surrogate c) eqn:Hh; [by apply wire_text_app|]. destruct (is_low_surrogate c) eqn:Hl; eauto using wire_text_app, wire_text_nil, escape_wire.
  - specialize (IH2 Hs). cbn [stringify_units] in IH2. destruct (is_high_surrogate c) eqn:Hh.
    + destruct (is_low_surrogate d) eqn:Hl; [|eauto using wire_text_app]. apply Forall_cons in Hs as [Hd Hr].
      apply (wire_text_app [c; d]); [|by apply IH1]. split_and!; [by repeat (apply Forall_cons_2 || apply Forall_nil_2)|cbn; by rewrite Hh, Hl|].
      unfold is_high_surrogate, is_low_surrogate, in_range in *. bool_to_prop. rewrite !not_elem_of_cons. split_and!; [lia|lia|apply not_elem_of_nil].
    + destruct (is_low_surrogate c) eqn:Hl; eauto using wire_text_app, escape_wire.
Qed.

Lemma quoted_wire s : wf_str s → wire_text (stringify_string s).
Proof.
  intros Hs. assert (wire_text [QUOTE]) as Hq by (apply wire_text_unit, ascii_wire; unfold QUOTE; lia).
  unfold stringify_string. eauto using wire_text_app, stringify_units_wire.
Qed.

Lemma plain_wire t : forallb is_plain_char t = true → wire_text t.
Proof.
  intros H. apply wire_text_units, Forall_forall. intros c Hc. rewrite forallb_elem in H. specialize (H c Hc).
  unfold is_plain_char, in_range in H. apply orb_true_iff in H as [H|H]; bool_to_prop; apply ascii_wire; lia.
Qed.

(** [JSON.stringify] writes one line of well-formed text. *)
Lemma stringify_wire v t : wf_value v → json_stringify v = Some t → wire_text t.
Proof.
  revert t. induction v as [| | |b|f|s|l IH|ms IH] using jsval_rect'; intros t Hwf Ht; try done; cbn [json_stringify] in Ht.
  - injection Ht as <-. wire_literal.
  - injection Ht as <-. destruct b; wire_literal.
  - unfold stringify_number in Ht. destruct (is_finite_number f); [|injection Ht as <-; wire_literal].
    apply plain_wire. by apply number_text_plain in Ht as [].
  - injection Ht as <-. apply quoted_wire. by inversion Hwf.
  - inversion Hwf as [| | | | | |? Hl|]; subst. apply bind_Some in Ht as (ts & Hts & [= <-]).
    apply (wire_text_app (js "[")); [wire_literal|]. apply wire_text_app; [|wire_literal]. apply wire_text_join; [wire_literal|].
    apply mapM_Some in Hts. clear Hwf. revert Hl IH. induction Hts as [|v t l ts Hv _ IHl]; intros Hl IH; [constructor|].
    apply Forall_cons in Hl as [Hv' Hl], IH as [IHv IH]. constructor; [|by apply IHl].
    destruct (is_undefined v); [injection Hv as <-; wire_literal|eauto].
  - inversion Hwf as [| | | | | | |? _ Hms]; subst. apply bind_Some in Ht as (ts & Hts & [= <-]).
    apply (wire_text_app (js "{")); [wire_literal|]. apply wire_text_app; [|wire_literal]. apply wire_text_join; [wire_literal|].
    apply mapM_Some in Hts. rewrite Forall_forall in IH, Hms. apply Forall_forall. intros t [i Hi]%list_elem_of_lookup_1.
    destruct (Forall2_lookup_r _ _ _ _ _ Hts Hi) as (m & Hm & Ht). apply list_elem_of_lookup_2, elem_of_filterb in Hm as [(kv & -> & Hkv)%list_elem_of_fmap _].
    unfold stable_text in Ht. cbn [fst snd] in Ht. apply bind_Some in Ht as (u & Hu & [= <-]). destruct (Hms kv Hkv) as [Hk Hv].
    apply (wire_text_app (stringify_string kv.1)); [by apply quoted_wire|]. apply (wire_text_app (js ":")); [wire_literal|]. by apply (IH kv Hkv).
Qed.

(** *** UTF-8 and back *)

Definition is_scalar (p : Z) : Prop := 0 <= p < 0x110000 ∧ (p < 0xd800 ∨ 0xdfff < p).

Lemma in_range_true lo hi c : lo <= c <= hi → in_range lo hi c = true.
Proof. intros. unfold in_range. apply andb_true_iff. split; apply Z.leb_le; lia. Qed.
Lemma in_range_false lo hi c : c < lo ∨ hi < c → in_range lo hi c = false.
Proof. intros. unfold in_range. apply andb_false_iff. destruct H; [left|right]; apply Z.leb_gt; lia. Qed.

Lemma continuation_mod x : is_continuation (0x80 + x mod 64) = true.
Proof. apply in_range_true. Z.to_euclidean_division_equations; lia. Qed.

Lemma decode_one_point p rest : is_scalar p → decode_points (utf8_point p ++ rest) = Some p :: decode_points rest.
Proof.
  intros [Hp Hs]. unfold utf8_point. destruct (p <? 0x80) eqn:E1; bool_to_prop.
  { cbn [app decode_points]. by rewrite (proj2 (Z.ltb_lt _ _)) by lia. }
  destruct (p <? 0x800) eqn:E2; bool_to_prop.
  { cbn [app decode_points]. rewrite (proj2 (Z.ltb_ge _ _)) by (Z.to_euclidean_division_equations; lia).
    rewrite in_range_true, continuation_mod by (Z.to_euclidean_division_equations; lia). do 2 f_equal. Z.to_euclidean_division_equations; lia. }
  destruct (p <? 0x10000) eqn:E3; bool_to_prop.
  - cbn [app decode_points]. rewrite (proj2 (Z.ltb_ge _ _)) by (Z.to_euclidean_division_equations; lia).
    rewrite in_range_false, in_range_true, continuation_mod by (Z.to_euclidean_division_equations; lia).
    assert (second_byte (0xe0 + p / 4096) (0x80 + p / 64 mod 64) = true) as ->.
    { unfold second_byte. apply in_range_true. repeat case_match; bool_to_prop;
        Z.to_euclidean_division_equations; lia. }
    do 2 f_equal. Z.to_euclidean_division_equations; lia.
  - cbn [app decode_points]. rewrite (proj2 (Z.ltb_ge _ _)) by (Z.to_euclidean_division_equations; lia).
    rewrite 2!in_range_false, in_range_true, !continuation_mod by (Z.to_euclidean_division_equations; lia).
    assert (second_byte (0xf0 + p / 262144) (0x80 + p / 4096 mod 64) = true) as ->.
    { unfold second_byte. apply in_range_true. repeat case_match; bool_to_prop;
        Z.to_euclidean_division_equations; lia. }
    do 2 f_equal. Z.to_euclidean_division_equations; lia.
Qed.

Lemma code_points_scalar s :
  code_units s → has_lone_surrogate s = false → Forall is_scalar (code_points s) ∧ code_points s ≫= units_of_point = s.
Proof.
  induction s as [|c|c d r IH1 IH2] using string_pair_ind; intros Hu Hl; [done|..]; apply Forall_cons in Hu as [Hc Hu];
    cbn [has_lone_surrogate code_points] in *.
  - destruct (is_high_surrogate c) eqn:Eh; [done|]. destruct (is_low_surrogate c) eqn:El; [done|]. cbn.
    unfold units_of_point. rewrite (proj2 (Z.ltb_lt c 0x10000)) by lia. split; [|done]. apply Forall_singleton.
    unfold is_high_surrogate, is_low_surrogate, in_range, is_scalar in *. bool_to_prop. lia.
  - destruct (is_high_surrogate c) eqn:Eh.
    + destruct (is_low_surrogate d) eqn:El; [|done]. apply Forall_cons in Hu as [Hd Hu]. destruct (IH1 Hu Hl) as [Hf He].
      unfold is_high_surrogate, is_low_surrogate, in_range in Eh, El. bool_to_prop.
      split; [constructor; [unfold is_scalar; lia|done]|]. cbn [mbind list_bind]. fold (mbind (M:=list) units_of_point). rewrite He.
      unfold units_of_point. rewrite (proj2 (Z.ltb_ge _ _)) by lia. cbn. f_equal; [|f_equal]; Z.to_euclidean_division_equations; lia.
    + destruct (is_low_surrogate c) eqn:El; [done|]. destruct (IH2 Hu Hl) as [Hf He].
      split; [constructor; [|exact Hf]; unfold is_high_surrogate, is_low_surrogate, in_range, is_scalar in *; bool_to_prop; lia|].
      cbn [mbind list_bind]. unfold units_of_point at 1. rewrite (proj2 (Z.ltb_lt c 0x10000)) by lia. cbn [app]. f_equal. exact He.
Qed.

Lemma decode_concat ps : Forall is_scalar ps → decode_points (ps ≫= utf8_point) = Some <$> ps.
Proof. induction 1 as [|p ps Hp _ IH]; [done|]. cbn [mbind list_bind]. rewrite decode_one_point by done. by rewrite IH. Qed.

Lemma mapM_id_Some {A} (l : list A) : mapM id (Some <$> l) = Some l.
Proof. induction l as [|x l IH]; [done|]. cbn [fmap list_fmap mapM]. by rewrite IH. Qed.

(** A text that does not begin with a byte order mark is decoded as it was. *)
Lemma decode_encode s :
  code_units s → has_lone_surrogate s = false → head s ≠ Some 0xfeff → decode_fatal (utf8_encode s) = Some s.
Proof.
  intros Hu Hl Hb. destruct (utf8_encode_points s Hu Hl) as [He _]. destruct (code_points_scalar s Hu Hl) as [Hs Hp].
  unfold decode_fatal. destruct (starts_with _ _) eqn:E; [|by rewrite He, decode_concat, mapM_id_Some by done; cbn; rewrite Hp].
  apply starts_with_iff in E as [rest E]. change [0xef; 0xbb; 0xbf] with (utf8_point 0xfeff) in E. rewrite He in E. exfalso. apply Hb.
  destruct s as [|c r]; [done|]. cbn [code_points] in E, Hs, Hp. destruct (is_high_surrogate c) eqn:Eh.
  - destruct r as [|d r]; [done|]. apply Forall_cons in Hs as [[Hs _] _]. cbn [mbind list_bind] in E.
    apply utf8_point_prefix in E as [E _]; [|lia..]. cbn [has_lone_surrogate] in Hl. rewrite Eh in Hl.
    destruct (is_low_surrogate d) eqn:El; [|done]. unfold is_high_surrogate, is_low_surrogate, in_range in Eh, El. bool_to_prop. lia.
  - apply Forall_cons in Hs as [[Hs _] _]. cbn [mbind list_bind] in E. by apply utf8_point_prefix in E as [-> _]; [|lia..].
Qed.

Lemma utf8_point_size p : 0 <= p < 0x110000 →
  bytes_length (utf8_point p) = (if p <? 0x80 then 1 else if p <? 0x800 then 2 else if p <? 0x10000 then 3 else 4) ∧ (10 ∈ utf8_point p → p = 10).
Proof.
  intros Hp. unfold utf8_point. destruct (p <? 0x80) eqn:E1; bool_to_prop; [split; [done|set_solver]|].
  destruct (p <? 0x800) eqn:E2; bool_to_prop; [|destruct (p <? 0x10000) eqn:E3; bool_to_prop]; (split; [done|]);
    rewrite !elem_of_cons, elem_of_nil; Z.to_euclidean_division_equations; lia.
Qed.

(** The bytes of a text: their number, and no line feed that is not in the text. *)
Lemma encode_bytes s : code_units s → bytes_length (utf8_encode s) = utf8_length s ∧ (10 ∈ utf8_encode s → 10 ∈ s).
Proof.
  assert (bytes_length (utf8_point 0xfffd) = 3 ∧ 10 ∉ utf8_point 0xfffd) as [L3 N3] by (split; [done|by vm_compute; set_solver]).
  induction s as [|c|c d r IH1 IH2] using string_pair_ind; intros Hu; [done|..]; apply Forall_cons in Hu as [Hc Hu].
  - destruct (utf8_point_size c) as [L N]; [lia|]. cbn [utf8_encode utf8_length]. unfold is_high_surrogate, is_low_surrogate, in_range.
    repeat (case_match; bool_to_prop); rewrite ?app_nil_r, ?L, ?L3; split; try lia; try set_solver; intros H'%N; set_solver.
  - specialize (IH2 Hu) as [IL IN]. destruct (utf8_point_size c) as [L N]; [lia|].
    apply Forall_cons in Hu as [Hd Hr]. specialize (IH1 Hr) as [IL1 IN1].
    assert (utf8_encode (c :: d :: r) = if is_high_surrogate c then if is_low_surrogate d
      then utf8_point (0x10000 + (c - 0xd800) * 1024 + (d - 0xdc00)) ++ utf8_encode r else utf8_point 0xfffd ++ utf8_encode (d :: r)
      else if is_low_surrogate c then utf8_point 0xfffd ++ utf8_encode (d :: r) else utf8_point c ++ utf8_encode (d :: r)) as -> by done.
    assert (utf8_length (c :: d :: r) = if c <? 128 then 1 + utf8_length (d :: r) else if c <? 2048 then 2 + utf8_length (d :: r)
      else if is_high_surrogate c then if is_low_surrogate d then 4 + utf8_length r else 3 + utf8_length (d :: r)
      else 3 + utf8_length (d :: r)) as -> by done.
    destruct (is_high_surrogate c) eqn:Eh; [destruct (is_low_surrogate d) eqn:El|destruct (is_low_surrogate c) eqn:El];
      rewrite bytes_length_app, elem_of_app, ?IL, ?IL1, ?L, ?L3; unfold is_high_surrogate, is_low_surrogate, in_range in Eh, El; bool_to_prop.
    + destruct (utf8_point_size (0x10000 + (c - 0xd800) * 1024 + (d - 0xdc00))) as [-> N']; [lia|].
      rewrite !(proj2 (Z.ltb_ge _ _)) by lia. split; [done|]. intros [?%N'|?%IN1]; [lia|set_solver].
    + rewrite !(proj2 (Z.ltb_ge _ _)) by lia. set_solver.
    + rewrite !(proj2 (Z.ltb_ge _ _)) by lia. set_solver.
    + rewrite (proj2 (Z.ltb_lt c 65536)) by lia. split; [by destruct (c <? 128), (c <? 2048)|]. intros [->%N|?%IN]; set_solver.
Qed.

(** *** Redaction *)

Lemma split_text_skip sep k t : (k <= length t)%nat → split_text sep k t = split_text sep 0 (drop k t).
Proof. revert k. induction t as [|c t IH]; intros [|k] Hk; cbn [length] in Hk; try (done || lia). cbn [split_text drop]. apply IH. lia. Qed.

Lemma contains_false p s : contains p s = false ↔ ¬ ∃ a z, s = a ++ p ++ z.
Proof. rewrite <-contains_iff. by destruct (contains p s). Qed.

(** Splitting cuts a text at its separators, and no piece has one. *)
Lemma split_text_spec sep t :
  sep ≠ [] → ∃ p ps, split_text sep 0 t = p :: ps ∧ join sep (p :: ps) = t ∧ Forall (λ q, contains sep q = false) (p :: ps).
Proof.
  intros Hsep. assert (contains sep [] = false) as Hnil by (by destruct sep). remember (length t) as n eqn:Hn. revert t Hn.
  induction (lt_wf n) as [n _ IH]. intros [|c t] ->; [exists [], []; by repeat constructor|]. cbn [split_text].
  destruct (starts_with sep (c :: t)) eqn:E.
  - apply starts_with_iff in E as [z E]. destruct sep as [|x sep]; [done|]. injection E as -> ->. cbn [length pred].
    rewrite split_text_skip, drop_app_length by (rewrite length_app; lia).
    destruct (IH (length z)) with (t := z) as (p & ps & -> & Hj & Hf); [cbn [length]; rewrite length_app; lia|done|].
    exists [], (p :: ps). split_and!; [done| |by constructor]. rewrite <-Hj. cbn. by rewrite <-!app_assoc.
  - destruct (IH (length t)) with (t := t) as (p & ps & -> & Hj & Hf); [cbn; lia|done|].
    exists (c :: p), ps. apply Forall_cons in Hf as [Hp Hf]. split_and!; [done|cbn in *; by rewrite Hj|]. constructor; [|done].
    cbn [contains]. rewrite Hp, orb_false_r. apply not_true_iff_false. intros [z Hz]%starts_with_iff.
    apply not_true_iff_false in E. apply E, starts_with_iff. exists (z ++ flat_map (λ q, sep ++ q) ps).
    rewrite app_assoc, <-Hz. cbn. f_equal. by rewrite <-Hj.
Qed.

(** [/^[A-Za-z0-9_-]{43}$/] *)
Definition is_credential_char (c : Z) : bool := is_upper c || is_lower c || is_digit c || (c =? cu "_") || (c =? cu "-").
Definition loopbackCredential (s : jsstr) : bool := bool_decide (length s = 43%nat) && forallb is_credential_char s.

Lemma credential_char_range c : is_credential_char c = true → 45 <= c <= 122 ∧ c ≠ 91 ∧ c ≠ 93.
Proof.
  unfold is_credential_char, is_upper, is_lower, is_digit, in_range, cu. cbn. rewrite !orb_true_iff, !andb_true_iff, !Z.leb_le, !Z.eqb_eq. lia.
Qed.

Lemma credential_units s : loopbackCredential s = true → s ≠ [] ∧ length s = 43%nat ∧ ∀ c, c ∈ s → 45 <= c <= 122 ∧ c ≠ 91 ∧ c ≠ 93.
Proof.
  unfold loopbackCredential. intros [Hl Hf]%andb_true_iff. bool_to_prop. rewrite forallb_elem in Hf.
  split_and!; [by intros ->|done|]. intros c Hc. by apply credential_char_range, Hf.
Qed.

Lemma starts_with_across s a x b : x ∉ s → starts_with s (a ++ x :: b) = true → starts_with s a = true.
Proof.
  revert a. induction s as [|y s IH]; intros a Hx H; [done|]. apply not_elem_of_cons in Hx as [Hy Hx].
  destruct a as [|w a]; cbn [app starts_with] in *; bool_to_prop; [lia|]. apply andb_true_iff. split; [by apply Z.eqb_eq|by apply IH].
Qed.

(** Nothing contains a text across a code unit that is not in it. *)
Lemma contains_across s a x b : x ∉ s → contains s (a ++ x :: b) = true → contains s a = true ∨ contains s b = true.
Proof.
  intros Hx. induction a as [|y a IH]; cbn [app contains]; intros [H|H]%orb_true_iff.
  - apply (starts_with_across s []) in H; [|done]. left. by rewrite H.
  - by right.
  - apply (starts_with_across s (y :: a)) in H; [|done]. left. by rewrite H.
  - destruct (IH H) as [->| ->]; [left; by rewrite orb_true_r|by right].
Qed.

Lemma contains_longer s t : (length t < length s)%nat → contains s t = false.
Proof. intros Hl. apply contains_false. intros (a & z & ->). rewrite !length_app in Hl. lia. Qed.

Lemma contains_marker s t u : loopbackCredential s = true →
  contains s t = false → contains s u = false → contains s (t ++ MARKER ++ u) = false.
Proof.
  intros (_ & Hl & Hs)%credential_units Ht Hu. apply not_true_iff_false. change (MARKER ++ u) with (91 :: js "redacted" ++ 93 :: u).
  intros [H|H]%contains_across; [congruence| |intros H'; by apply Hs in H'; lia].
  apply contains_across in H as [H|H]; [rewrite contains_longer in H by (cbn; lia); done|congruence|intros H'; by apply Hs in H'; lia].
Qed.

(** The pieces that remain do not contain what none of them contained. *)
Lemma contains_joined s p ps : loopbackCredential s = true →
  Forall (λ q, contains s q = false) (p :: ps) → contains s (join MARKER (p :: ps)) = false.
Proof.
  intros Hs [Hp Hf]%Forall_cons. cbn [join]. revert p Hp. induction Hf as [|q ps Hq _ IH]; intros p Hp; cbn [flat_map]; [by rewrite app_nil_r|].
  rewrite <-app_assoc. apply contains_marker; [done..|]. by apply IH.
Qed.

Lemma join_piece {A} (sep : list A) p ps q : q ∈ p :: ps → ∃ a z, join sep (p :: ps) = a ++ q ++ z.
Proof.
  rewrite elem_of_cons. intros [->|Hq]; [by exists [], (flat_map (λ q, sep ++ q) ps)|]. cbn [join].
  apply list_elem_of_split in Hq as (l & k & ->). rewrite flat_map_app. cbn [flat_map].
  exists (p ++ flat_map (λ q, sep ++ q) l ++ sep), (flat_map (λ q, sep ++ q) k). by rewrite <-!app_assoc.
Qed.

Lemma contains_piece s q t : contains s t = false → (∃ a z, t = a ++ q ++ z) → contains s q = false.
Proof.
  rewrite !contains_false. intros Ht (a & z & ->) (b & y & ->). apply Ht. exists (a ++ b), (y ++ z). by rewrite <-!app_assoc.
Qed.

(** One round of the loop. *)
Lemma redact_round secret t : loopbackCredential secret = true →
  ∃ p ps, split_text secret 0 t = p :: ps ∧ join secret (p :: ps) = t ∧ contains secret (join MARKER (p :: ps)) = false ∧
  ∀ s, loopbackCredential s = true → contains s t = false → contains s (join MARKER (p :: ps)) = false.
Proof.
  intros Hs. destruct (split_text_spec secret t) as (p & ps & E & Hj & Hf); [by apply credential_units|].
  exists p, ps. split_and!; [done..|by apply contains_joined|]. intros s Hc Ht. apply contains_joined; [done|].
  apply Forall_forall. intros q Hq. eapply contains_piece; [exact Ht|]. rewrite <-Hj. by apply join_piece.
Qed.

Lemma redact_cons secret secrets t : loopbackCredential secret = true →
  redact_secrets (secret :: secrets) t = redact_secrets secrets (join MARKER (split_text secret 0 t)).
Proof. intros (Hs & _)%credential_units. unfold redact_secrets. cbn [foldl]. by destruct secret. Qed.

(** Secrets of the form the schema admits do not survive, and none comes back. *)
Lemma redact_removes secrets t : Forall (λ s, loopbackCredential s = true) secrets →
  (∀ s, s ∈ secrets → contains s (redact_secrets secrets t) = false) ∧
  (∀ s, loopbackCredential s = true → contains s t = false → contains s (redact_secrets secrets t) = false).
Proof.
  intros Hs. revert t. induction Hs as [|secret secrets Hc _ IH]; intros t; [split; [set_solver|done]|].
  rewrite redact_cons by done. destruct (redact_round secret t Hc) as (p & ps & -> & _ & Hp & Hk).
  destruct (IH (join MARKER (p :: ps))) as [IHs IHk]. split.
  - intros s [->|Hin]%elem_of_cons; [by apply IHk|by apply IHs].
  - intros s Hcs Ht. apply IHk; [done|]. by apply Hk.
Qed.

(** A text without a secret stays as it is. *)
Lemma redact_same secrets t : Forall (λ s, loopbackCredential s = true) secrets →
  (∀ s, s ∈ secrets → contains s t = false) → redact_secrets secrets t = t.
Proof.
  intros Hs. induction Hs as [|secret secrets Hc _ IH]; intros Ht; [done|]. rewrite redact_cons by done.
  destruct (redact_round secret t Hc) as (p & ps & -> & Hj & _). assert (contains secret t = false) as Hn by (apply Ht; set_solver).
  destruct ps as [|q ps].
  - cbn in Hj |- *. rewrite app_nil_r in Hj |- *. subst. apply IH. intros s Hin. apply Ht. set_solver.
  - exfalso. apply contains_false in Hn. apply Hn. rewrite <-Hj. cbn [join flat_map]. exists p, (q ++ flat_map (λ q, secret ++ q) ps). by rewrite <-app_assoc.
Qed.

Definition is_ascii (c : Z) : Prop := 0 <= c < 128.

Lemma ascii_not_surrogate c : is_ascii c → is_high_surrogate c = false ∧ is_low_surrogate c = false.
Proof. unfold is_ascii. intros H. split; apply in_range_false; lia. Qed.

Lemma lone_split a c b : is_ascii c → has_lone_surrogate (a ++ c :: b) = false → has_lone_surrogate a = false ∧ has_lone_surrogate b = false.
Proof.
  intros [Hh Hl]%ascii_not_surrogate. induction a as [|x|x y r IH1 IH2] using string_pair_ind; cbn [app has_lone_surrogate].
  - by rewrite Hh, Hl.
  - rewrite Hh, Hl. by destruct (is_high_surrogate x), (is_low_surrogate x).
  - destruct (is_high_surrogate x); [destruct (is_low_surrogate y); [done|done]|]. destruct (is_low_surrogate x); [done|exact IH2].
Qed.

Lemma wire_text_split a sep b : sep ≠ [] → Forall is_ascii sep → wire_text (a ++ sep ++ b) → wire_text a ∧ wire_text b.
Proof.
  intros Hne Hs (Hu & Hl & Hn). rewrite !elem_of_app in Hn. unfold wire_text, code_units in *. rewrite !Forall_app in Hu.
  cut (has_lone_surrogate a = false ∧ has_lone_surrogate b = false); [tauto|]. clear Hu Hn.
  destruct Hs as [|c sep Hc Hs]; [done|]. cbn [app] in Hl. apply lone_split in Hl as [Ha Hl]; [|done]. split; [done|].
  clear Hne. induction Hs as [|d sep Hd Hs IH]; [done|]. apply IH. cbn [app] in Hl. by apply (lone_split [] d) in Hl as [_ ?].
Qed.

Lemma wire_text_pieces sep p ps : sep ≠ [] → Forall is_ascii sep → wire_text (join sep (p :: ps)) → Forall wire_text (p :: ps).
Proof.
  intros Hne Hs. cbn [join]. revert p. induction ps as [|q ps IH]; intros p; cbn [flat_map]; [rewrite app_nil_r; by intros; apply Forall_singleton|].
  rewrite <-app_assoc. intros [Hp Hq]%wire_text_split; [|done..]. constructor; [done|]. by apply IH.
Qed.

Lemma ascii_prefix_length a b : Forall is_ascii a → utf8_length (a ++ b) = bytes_length a + utf8_length b.
Proof.
  induction 1 as [|c a Hc _ IH]; [done|]. cbn [app utf8_length]. unfold is_ascii in Hc. rewrite (proj2 (Z.ltb_lt c 128)), IH by lia.
  unfold bytes_length. cbn [length]. lia.
Qed.

Lemma separated_length a sep b : sep ≠ [] → Forall is_ascii sep →
  utf8_length (a ++ sep ++ b) = utf8_length a + bytes_length sep + utf8_length b.
Proof.
  intros Hne Hs. rewrite utf8_length_app, ascii_prefix_length; [lia|done|]. destruct Hs as [|c sep Hc Hs]; [done|].
  cbn. by apply ascii_not_surrogate.
Qed.

Lemma joined_length sep p ps : sep ≠ [] → Forall is_ascii sep →
  utf8_length (join sep (p :: ps)) = utf8_length p + bytes_length sep * Z.of_nat (length ps) + Z.of_nat (sum_list_with (λ q, Z.to_nat (utf8_length q)) ps).
Proof.
  intros Hne Hs. cbn [join]. revert p. induction ps as [|q ps IH]; intros p; cbn [flat_map]; [rewrite app_nil_r; cbn; lia|].
  rewrite <-app_assoc, separated_length, IH by done. cbn [length sum_list_with]. pose proof (utf8_length_nonneg q). lia.
Qed.

(** A line of the channel: one object. *)
Definition object_text (t : jsstr) : Prop := wire_text t ∧ head t = Some (cu "{").

Lemma redact_object secrets t : Forall (λ s, loopbackCredential s = true) secrets → object_text t →
  object_text (redact_secrets secrets t) ∧ utf8_length (redact_secrets secrets t) <= utf8_length t.
Proof.
  intros Hs. revert t. induction Hs as [|secret secrets Hc _ IH]; intros t Ht; [by split|]. rewrite redact_cons by done.
  destruct (redact_round secret t Hc) as (p & ps & -> & <- & _). destruct Ht as [Hw Hh].
  destruct (credential_units secret Hc) as (Hne & Hlen & Hu).
  assert (Forall is_ascii secret) as Ha by (apply Forall_forall; intros c Hin; apply Hu in Hin; unfold is_ascii; lia).
  assert (MARKER ≠ [] ∧ Forall is_ascii MARKER ∧ wire_text MARKER) as (Hm & Hma & Hmw).
  { split_and!; [done| |wire_literal]. apply (bool_decide_eq_true_1 (Forall (λ c, 0 <= c < 128) MARKER)). by vm_compute. }
  destruct (IH (join MARKER (p :: ps))) as [IHo IHl].
  - split; [apply wire_text_join; [done|]; by apply (wire_text_pieces secret)|]. destruct p as [|c p]; [|done].
    destruct ps as [|q ps]; [done|]. destruct secret as [|c secret]; [done|]. cbn in Hh. injection Hh as ->.
    assert (123 ∈ (123 :: secret)) as H%Hu by set_solver. lia.
  - split; [done|]. etrans; [exact IHl|]. rewrite !joined_length by done. unfold bytes_length. rewrite Hlen. change (length MARKER) with 10%nat. nia.
Qed.

(** *** Frames on the wire *)

Lemma frame_object frame t : host_frame frame → json_stringify (frame_json frame) = Some t → object_text t.
Proof.
  intros (Hwf & _ & _) Ht. split; [by eapply stringify_wire|].
  assert (∃ ms, frame_json frame = JObj ms) as [ms E] by (destruct frame; by eexists). rewrite E in Ht. cbn [json_stringify] in Ht.
  by apply bind_Some in Ht as (ts & _ & [= <-]).
Qed.

Definition member_text (key : string) (t : jsstr) : jsstr := stringify_string (js key) ++ js ":" ++ t.

Lemma refusal_text message id n : stringify_number id = Some n →
  json_stringify (frame_json (Refusal InvalidState message (Some id))) =
  Some ((js "{" ++ member_text "error" (js "{" ++ member_text "code" (stringify_string (js "invalid_state")) ++ js "," ++
    member_text "message" (stringify_string message) ++ js "}") ++ js "," ++ member_text "id" []) ++ n ++ js "," ++ member_text "ok" (js "false") ++ js "}").
Proof.
  intros Hn. cbn -[stringify_string stringify_number js]. rewrite Hn. cbn -[stringify_string js]. unfold member_text. f_equal.
  rewrite ?app_nil_r, <-?app_assoc. done.
Qed.

Lemma response_id_text id ms : is_Some (json_stringify (frame_json (Response id ms))) → is_Some (stringify_number id).
Proof. intros [t Ht]. cbn -[stringify_string stringify_number js] in Ht. destruct (stringify_number id); [by eexists|done]. Qed.

Lemma refusal_id_text code m id : is_Some (json_stringify (frame_json (Refusal code m (Some id)))) → is_Some (stringify_number id).
Proof. intros [t Ht]. cbn -[stringify_string stringify_number js] in Ht. destruct (stringify_number id); [by eexists|done]. Qed.

Lemma ascii_literal s : forallb (λ c, (0 <=? c) && (c <? 128)) s = true → Forall is_ascii s.
Proof. rewrite forallb_elem. intros H. apply Forall_forall. intros c Hc. specialize (H c Hc). bool_to_prop. done. Qed.

Lemma stringify_number_plain f n : stringify_number f = Some n → Forall is_ascii n ∧ (length n <= 32)%nat.
Proof.
  intros Hn. assert (forallb is_plain_char n = true ∧ (length n <= 32)%nat) as [Hp Hl].
  { unfold stringify_number in Hn. destruct (is_finite_number f); [by apply number_text_plain in Hn|injection Hn as <-; split; [done|cbn; lia]]. }
  split; [|done]. rewrite forallb_elem in Hp. apply Forall_forall. intros c Hc%Hp. unfold is_plain_char, in_range, is_ascii in *.
  apply orb_true_iff in Hc as [Hc|Hc]; bool_to_prop; lia.
Qed.

(** The refusal of a response that is too large, within its bound whatever the id. *)
Lemma substitute_refusal id : is_Some (stringify_number id) → valid_id id →
  let frame := Refusal InvalidState (js "Response exceeded its bound.") (Some id) in
  host_frame frame ∧ ∀ t, json_stringify (frame_json frame) = Some t → utf8_length t <= CHANNEL_FRAME_MAX_BYTES.
Proof.
  intros [n Hn] Hid. cbv zeta. pose proof (refusal_text (js "Response exceeded its bound.") id n Hn) as Ht. split.
  - split_and!; [|by eexists|done]. apply wf_valueb_sound. by vm_compute.
  - intros t' Ht'. rewrite Ht in Ht'. apply (inj Some) in Ht'. subst t'. apply stringify_number_plain in Hn as [Ha Hl].
    rewrite ascii_prefix_length by (apply ascii_literal; by vm_compute). rewrite ascii_prefix_length by done.
    unfold bytes_length at 2. match goal with |- ?a + (_ + ?b) <= ?c => let a' := eval vm_compute in a in let b' := eval vm_compute in b in
      let c' := eval vm_compute in c in change a with a'; change b with b'; change c with c' end. lia.
Qed.

Lemma substitute_spec frame : host_frame frame →
  host_frame (substitute frame) ∧ ∀ t, json_stringify (frame_json (substitute frame)) = Some t → utf8_length t <= CHANNEL_FRAME_MAX_BYTES.
Proof.
  intros (_ & Ht & Hid). assert (∀ f, wf_valueb (frame_json f) = true → match f with Response _ _ | Refusal _ _ (Some _) => False | _ => True end →
    match json_stringify (frame_json f) with Some t => utf8_length t <=? CHANNEL_FRAME_MAX_BYTES | None => false end = true →
    host_frame f ∧ ∀ t, json_stringify (frame_json f) = Some t → utf8_length t <= CHANNEL_FRAME_MAX_BYTES) as H.
  { intros f Hf Hk H. destruct (json_stringify (frame_json f)) as [t|] eqn:E; [|done].
    split; [split_and!; [by apply wf_valueb_sound|by rewrite E|by destruct f as [| ? ? []| | | | |]]|]. intros t' [= <-]. by apply Z.leb_le. }
  destruct frame as [id ms|code m [id|]|data turn|b turn ty|method turn|m|ids h o e turn]; cbn [substitute].
  1: (apply substitute_refusal; [by eapply response_id_text|done]).
  1: (apply substitute_refusal; [by eapply refusal_id_text|done]).
  all: apply H; [by vm_compute|done|by vm_compute].
Qed.

Lemma utf8_encode_app a b : has_lone_surrogate a = false → utf8_encode (a ++ b) = utf8_encode a ++ utf8_encode b.
Proof.
  induction a as [|c|c d r IH1 IH2] using string_pair_ind; intros Ha; [done|..]; cbn [has_lone_surrogate] in Ha.
  - cbn [app utf8_encode]. destruct (is_high_surrogate c); [done|]. destruct (is_low_surrogate c); [done|]. by rewrite app_nil_r.
  - rewrite <-!app_comm_cons in *. destruct (is_high_surrogate c) eqn:Eh.
    + destruct (is_low_surrogate d) eqn:El; [|done]. cbn [utf8_encode]. rewrite Eh, El, IH1 by done. by rewrite <-app_assoc.
    + destruct (is_low_surrogate c) eqn:El; [done|]. specialize (IH2 Ha). cbn [utf8_encode] in IH2 |- *. rewrite Eh, El, IH2. by rewrite <-app_assoc.
Qed.

(** A frame whose text fits and shows no secret. *)
Definition fits_channel (secrets : list jsstr) (frame : HostFrame) : Prop :=
  ∃ t, json_stringify (frame_json frame) = Some t ∧ utf8_length t <= CHANNEL_FRAME_MAX_BYTES ∧ ∀ s, s ∈ secrets → contains s t = false.

(** The line that carries a frame. *)
Definition carries (secrets : list jsstr) (frame : HostFrame) (line : jsstr) : Prop :=
  (∀ s, s ∈ secrets → contains s line = false) ∧ (fits_channel secrets frame → parsePiHostFrame line = meaning frame).

Section Wire.
Context (secrets : list jsstr) (Hsecrets : Forall (λ s, loopbackCredential s = true) secrets).

Lemma encode_spec frame t : host_frame frame → json_stringify (frame_json frame) = Some t →
  object_text (redact_secrets secrets t) ∧ utf8_length (redact_secrets secrets t) <= utf8_length t ∧
  encodeFrame frame secrets = if CHANNEL_FRAME_MAX_BYTES <? utf8_length (redact_secrets secrets t) then Err tt else Ok (redact_secrets secrets t ++ [10]).
Proof.
  intros Hf Ht. destruct (redact_object secrets t Hsecrets (frame_object frame t Hf Ht)). split_and!; [done..|].
  unfold encodeFrame. by rewrite Ht.
Qed.

(** Every frame of the host is sent as one line. *)
Lemma send_line frame : host_frame frame → ∃ line, send secrets frame = Ok (utf8_encode line ++ [10]) ∧
  object_text line ∧ utf8_length line <= CHANNEL_FRAME_MAX_BYTES ∧ carries secrets frame line.
Proof.
  intros Hf. pose proof Hf as (_ & [t Ht] & _). destruct (encode_spec frame t Hf Ht) as (Ho & Hle & He).
  unfold send. rewrite He. destruct (CHANNEL_FRAME_MAX_BYTES <? utf8_length (redact_secrets secrets t)) eqn:E; bool_to_prop.
  - destruct (substitute_spec frame Hf) as [Hsub Hmax]. pose proof Hsub as (_ & [u Hu] & _). specialize (Hmax u Hu).
    destruct (encode_spec (substitute frame) u Hsub Hu) as (Ho' & Hle' & ->). exists (redact_secrets secrets u).
    rewrite (proj2 (Z.ltb_ge _ _)) by lia. split_and!; [|done|lia|split].
    + cbn [fmap result_fmap]. rewrite utf8_encode_app by apply Ho'. done.
    + apply (redact_removes secrets u Hsecrets).
    + intros (t' & Ht' & Hb & Hs). rewrite Ht in Ht'. injection Ht' as <-. rewrite (redact_same secrets t) in E by done. lia.
  - exists (redact_secrets secrets t). split_and!; [|done..|split].
    + cbn [fmap result_fmap]. rewrite utf8_encode_app by apply Ho. done.
    + apply (redact_removes secrets t Hsecrets).
    + intros (t' & Ht' & Hb & Hs). rewrite Ht in Ht'. injection Ht' as <-. rewrite (redact_same secrets t) by done. by apply parse_meaning.
Qed.
End Wire.

Lemma object_not_blank t : object_text t → is_blank t = false.
Proof. intros [_ Hh]. destruct t as [|c t]; [done|]. injection Hh as ->. done. Qed.

(** A line that was encoded is read as it was. *)
Lemma line_events_object maxBytes t : object_text t → utf8_length t <= maxBytes → line_events maxBytes (utf8_encode t) = [OnLine t].
Proof.
  intros Ho Hm. pose proof Ho as [(Hu & Hl & Hn) Hh]. destruct (encode_bytes t Hu) as [Hb _]. unfold line_events.
  rewrite Hb, (proj2 (Z.ltb_ge _ _)), decode_encode, object_not_blank by (done || (rewrite Hh; vm_compute; congruence)). done.
Qed.

Lemma split_encoded_lines lines : Forall object_text lines →
  split_lines (concat ((λ t, utf8_encode t ++ [10]) <$> lines)) = (utf8_encode <$> lines, []).
Proof.
  induction 1 as [|t lines [(Hu & _ & Hn) _] _ IH]; [done|]. cbn [fmap list_fmap concat]. rewrite <-app_assoc. cbn [app].
  rewrite split_lines_newline; [by rewrite IH|]. intros Hin. by apply (encode_bytes t Hu) in Hin.
Qed.

Lemma stream_of_lines maxBytes lines : 0 <= maxBytes → Forall (λ t, object_text t ∧ utf8_length t <= maxBytes) lines →
  stream_events maxBytes (concat ((λ t, utf8_encode t ++ [10]) <$> lines)) = OnLine <$> lines.
Proof.
  intros Hm Hl. unfold stream_events. rewrite split_encoded_lines by (eapply Forall_impl; [exact Hl|]; by intros ? []).
  rewrite overflow_nil, app_nil_r by done. induction Hl as [|t lines [Ho Hb] _ IH]; [done|].
  cbn [fmap list_fmap mbind list_bind] in *. rewrite line_events_object by done. cbn [app]. f_equal. exact IH.
Qed.

(** ** Claims *)

(** C34. Both line readers, the host's for requests and the adapter's for frames, depend only on the bytes
    of the stream and not on how it is cut into chunks: the events are those of splitting the whole
    stream at its line feeds, one report for a line that is over the bound or not UTF-8, nothing for a
    blank line, the decoded text of every other, in order; an unfinished line over the bound is reported
    once.  At the end of the stream the adapter's reader refuses exactly a stream that does not end with
    a complete line. *)
Theorem line_readers_split_the_stream (maxBytes : Z) (chunks : list (list Z)) (Hmax : 0 <= maxBytes) :
  (read_chunks (keep_piece CHANNEL_REQUEST_MAX_BYTES) reader_start chunks).2 = stream_events CHANNEL_REQUEST_MAX_BYTES (concat chunks) ∧
  let '(st, events) := read_chunks (keep_nonempty_piece maxBytes) reader_start chunks in
  events = stream_events maxBytes (concat chunks) ∧
  (finish st).2 = if decide ((split_lines (concat chunks)).2 = []) then [] else [OnOverflow].
Proof.
  assert (0 <= CHANNEL_REQUEST_MAX_BYTES) as Hreq by done. pose proof (keep_piece_keeper _ Hreq). pose proof (keep_nonempty_keeper _ Hmax).
  split; [apply reader_splits_stream|]. destruct (reader_splits_stream (keep := keep_nonempty_piece maxBytes) chunks) as [He Hr].
  destruct (read_chunks _ reader_start chunks) as [st events]. split; [done|]. by apply (finish_reading maxBytes).
Qed.

(** C22. Frames survive the channel.  The host sends every frame, a substitute for one that is too large;
    however the bytes are cut into chunks, the adapter reads exactly one line per frame, in order, and
    reports nothing at the end.  No line contains a loopback credential, and the line of a frame that
    fits and shows no credential is classified as what the frame means. *)
Theorem frames_survive_the_channel (secrets : list jsstr) (frames : list HostFrame)
    (Hsecrets : Forall (λ s, loopbackCredential s = true) secrets) (Hframes : Forall host_frame frames) :
  ∃ bytes, mapM (send secrets) frames = Ok bytes ∧
  ∀ chunks, concat chunks = concat bytes →
  let '(st, events) := read_chunks (keep_nonempty_piece PI_CHANNEL_FRAME_MAX_BYTES) reader_start chunks in
  (finish st).2 = [] ∧ ∃ lines, events = OnLine <$> lines ∧ Forall2 (carries secrets) frames lines.
Proof.
  assert (∃ lines, Forall2 (λ frame line, send secrets frame = Ok (utf8_encode line ++ [10]) ∧ object_text line ∧
    utf8_length line <= CHANNEL_FRAME_MAX_BYTES ∧ carries secrets frame line) frames lines) as [lines Hl].
  { clear -Hsecrets Hframes. induction Hframes as [|frame frames Hf _ [lines IH]]; [by exists []|].
    destruct (send_line secrets Hsecrets frame Hf) as (line & ?). exists (line :: lines). by constructor. }
  exists ((λ t, utf8_encode t ++ [10]) <$> lines). split.
  { apply mapM_result_Ok. clear -Hl. induction Hl as [|f l fs ls (H & _) _ IH]; [constructor|]. by constructor. }
  assert (0 <= PI_CHANNEL_FRAME_MAX_BYTES) as Hmax by done. pose proof (keep_nonempty_keeper _ Hmax).
  intros chunks Hc. destruct (reader_splits_stream (keep := keep_nonempty_piece PI_CHANNEL_FRAME_MAX_BYTES) chunks) as [He Hr].
  rewrite Hc in He, Hr. assert (Forall (λ t, object_text t ∧ utf8_length t <= PI_CHANNEL_FRAME_MAX_BYTES) lines) as Ho.
  { clear -Hl. induction Hl as [|f l fs ls (_ & ? & ? & _) _ IH]; by constructor. }
  rewrite stream_of_lines in He by done. rewrite split_encoded_lines in Hr by (eapply Forall_impl; [exact Ho|]; by intros ? []).
  destruct (read_chunks _ reader_start chunks) as [st events]. cbn [fst snd] in He, Hr. split; [by apply finish_reading in Hr as ->|].
  exists lines. split; [done|]. eapply Forall2_impl; [exact Hl|]. by intros f l (_ & _ & _ & Hcl).
Qed.

(** ** Examples *)

Module ChannelDemo.
Definition inferenceCredential : jsstr := js "AAAAAAAAAABBBBBBBBBBCCCCCCCCCCDDDDDDDDDD-_0".
Definition capabilityCredential : jsstr := js "aaaaaaaaaabbbbbbbbbbccccccccccdddddddddd-_9".
Definition secrets : list jsstr := [inferenceCredential; capabilityCredential].
Definition frames : list HostFrame := [
  Response (number_of_int 1) [(js "state", JStr (js "started"))];
  Native (obj [("type", JStr (js "message_end")); ("delta", JStr [0x48; 0xe9; 0x20ac; 0xd83d; 0xde00; 10])]) (js "turn-1");
  ExtensionError (js "key " ++ inferenceCredential ++ js " was refused");
  TurnSettled [js "entry-1"] (Ready (js "00") (js "handle")) (Completed (js "Done.")) (js "high") (js "turn-1")].

Lemma secrets_admitted : Forall (λ s, loopbackCredential s = true) secrets.
Proof. by repeat constructor. Qed.

Lemma frames_built : Forall host_frame frames.
Proof.
  unfold frames. repeat apply Forall_cons_2; try apply Forall_nil_2;
    (split; [apply wf_valueb_sound; by vm_compute|split; [vm_compute; by eexists|by vm_compute]]).
Qed.

Lemma frames_survive_the_channel_witness :
  Forall (λ s, loopbackCredential s = true) secrets ∧ Forall host_frame frames ∧
  ∃ bytes, mapM (send secrets) frames = Ok bytes ∧
  ∀ chunks, concat chunks = concat bytes →
  let '(st, events) := read_chunks (keep_nonempty_piece PI_CHANNEL_FRAME_MAX_BYTES) reader_start chunks in
  (finish st).2 = [] ∧ ∃ lines, events = OnLine <$> lines ∧ Forall2 (carries secrets) frames lines.
Proof. exact (conj secrets_admitted (conj frames_built (frames_survive_the_channel secrets frames secrets_admitted frames_built))). Defined.

Definition chunks : list (list Z) := [[0x7b]; [0x7d; 10; 0x20; 10; 0xff; 10; 0x41]; [0x41; 0x41; 0x41]; [10; 0x42]].

Lemma line_readers_split_the_stream_witness :
  0 <= 3 ∧ (read_chunks (keep_nonempty_piece 3) reader_start chunks).2 = [OnLine [0x7b; 0x7d]; OnOverflow; OnOverflow] ∧
  (finish (read_chunks (keep_nonempty_piece 3) reader_start chunks).1).2 = [OnOverflow].
Proof.
  assert (0 <= 3) as H3 by lia. split; [exact H3|]. pose proof (line_readers_split_the_stream 3 chunks H3) as [_ H].
  destruct (read_chunks (keep_nonempty_piece 3) reader_start chunks) as [st events]. destruct H as [H1 H2]. split; [exact H1|exact H2].
Defined.

(** A credential in a frame leaves a mark only. *)
Example redacted_frame :
  encodeFrame (ExtensionError (js "key " ++ inferenceCredential ++ js " was refused")) secrets =
  encodeFrame (ExtensionError (js "key [redacted] was refused")) [].
Proof. vm_compute. reflexivity. Qed.

(** A native event that shows a credential is not forwarded at all. *)
Example omitted_event :
  forwardNative secrets (js "turn-1") (obj [("type", JStr (js "text")); ("text", JStr capabilityCredential)]) =
  NativeOmitted 68 (js "turn-1") (js "text").
Proof. vm_compute. reflexivity. Qed.
End ChannelDemo.
