(* ===== verification/PiOutcome.v ===== *)
(** * The outcome of a Pi Turn (packages/pi-runtime-host/src/outcome.ts, and the projection of
    packages/worker-shim/src/adapters/pi.ts and pi-channel.ts)

    The host follows the session events of one prompt and derives one outcome when the prompt call
    returns: a Turn is complete only when its final assistant message, its turn end, its last agent end
    and the settlement agree.  The outcome travels in a [turn_settled] frame; the adapter turns the frame
    into the result of the Turn and accepts a completion only with a ready handle whose digest matches and
    whose session file can be resumed.

    An event and a message are data values.  The digest of [node:crypto] is a parameter. *)

From Stdlib Require Import SpecFloat.
From S2P Require Import Prelude JsValue CanonicalJson EntityId Utf8 CommandInput JsonText AgentLoop RequestAdmission RollingContext PiChannel.

Local Open Scope string_scope.
Local Open Scope list_scope.
Local Open Scope Z_scope.

(** ** Tracking one prompt *)

(** [None] is [null]; the message itself otherwise. *)
Definition readSettledAssistantMessage (value : jsval) : option jsval :=
  if isRecord value && string_is "assistant" (js_get "role" value) &&
     (string_is "stop" (js_get "stopReason" value) || string_is "length" (js_get "stopReason" value)
      || string_is "error" (js_get "stopReason" value) || string_is "aborted" (js_get "stopReason" value)) &&
     match js_get "content" value with JArr _ => true | _ => false end &&
     match js_get "provider" value with JStr _ => true | _ => false end &&
     match js_get "model" value with JStr _ => true | _ => false end
  then Some value else None.

Record PiTurnOutcomeTracker := {
  tk_agentMatched : bool;
  tk_candidate : option jsval;
  tk_contradicted : bool;
  tk_settled : bool;
  tk_turnMatched : bool;
}.
Definition new_tracker : PiTurnOutcomeTracker :=
  {| tk_agentMatched := false; tk_candidate := None; tk_contradicted := false; tk_settled := false; tk_turnMatched := false |}.

Definition is_event (type : string) (event : jsval) : bool := string_is type (js_get "type" event).

Definition is_terminal (event : jsval) : bool :=
  is_event "message_end" event || is_event "turn_end" event || is_event "agent_end" event || is_event "agent_settled" event.

Definition matches_candidate (message : jsval) (candidate : option jsval) : bool :=
  match candidate with Some c => deep_equal message c | None => false end.

(** [[...messages].reverse().find(...)], [undefined] when there is none. *)
Definition last_assistant (event : jsval) : jsval :=
  let messages := match js_get "messages" event with JArr l => l | _ => [] end in
  default JUndef (find (λ m, isRecord m && string_is "assistant" (js_get "role" m)) (rev messages)).

Definition is_true (v : jsval) : bool := match v with JBool true => true | _ => false end.
Definition is_false (v : jsval) : bool := match v with JBool false => true | _ => false end.

Definition set_matches (tk : PiTurnOutcomeTracker) (candidate : option jsval) (turnMatched agentMatched : bool) : PiTurnOutcomeTracker :=
  {| tk_agentMatched := agentMatched; tk_candidate := candidate; tk_contradicted := tk_contradicted tk;
     tk_settled := tk_settled tk; tk_turnMatched := turnMatched |}.
Definition set_contradicted (tk : PiTurnOutcomeTracker) : PiTurnOutcomeTracker :=
  {| tk_agentMatched := tk_agentMatched tk; tk_candidate := tk_candidate tk; tk_contradicted := true;
     tk_settled := tk_settled tk; tk_turnMatched := tk_turnMatched tk |}.
Definition set_settled (tk : PiTurnOutcomeTracker) : PiTurnOutcomeTracker :=
  {| tk_agentMatched := tk_agentMatched tk; tk_candidate := tk_candidate tk; tk_contradicted := tk_contradicted tk;
     tk_settled := true; tk_turnMatched := tk_turnMatched tk |}.

Definition observe (tk : PiTurnOutcomeTracker) (event : jsval) : PiTurnOutcomeTracker :=
  if tk_settled tk && is_terminal event then set_contradicted tk
  else if is_event "message_end" event then set_matches tk (readSettledAssistantMessage (js_get "message" event)) false false
  else if is_event "turn_end" event then set_matches tk (tk_candidate tk) (matches_candidate (js_get "message" event) (tk_candidate tk)) false
  else if is_event "agent_end" event then
    if is_true (js_get "willRetry" event) then set_matches tk None false false
    else set_matches tk (tk_candidate tk) (tk_turnMatched tk)
           (tk_turnMatched tk && is_false (js_get "willRetry" event) && matches_candidate (last_assistant event) (tk_candidate tk))
  else if is_event "agent_settled" event then
    if bool_decide (is_Some (tk_candidate tk)) && tk_turnMatched tk && tk_agentMatched tk then set_settled tk else set_contradicted tk
  else tk.

(** The events of one prompt, in emission order. *)
Definition observe_all (events : list jsval) : PiTurnOutcomeTracker := foldl observe new_tracker events.

Record PiAdmittedRoute := { rt_provider : jsstr; rt_model : jsstr }.

(** The loop over the parts: the texts, [None] for a part of an unknown shape. *)
Fixpoint part_texts (content : list jsval) : option (list jsstr) :=
  match content with
  | [] => Some []
  | part :: content =>
    if isRecord part then
      match js_get "type" part with
      | JStr type =>
        if bool_decide (type = js "text") then
          match js_get "text" part with JStr t => cons t <$> part_texts content | _ => None end
        else part_texts content
      | _ => None
      end
    else None
  end.

(** The outcome of a message that is correlated and names the admitted route. *)
Definition content_outcome (candidate : jsval) : PiTurnOutcome :=
  let content := match js_get "content" candidate with JArr l => l | _ => [] end in
  match json_stringify (js_get "content" candidate) with
  | None => Failed "pi-output-malformed"
  | Some text =>
    if PI_RESULT_CONTENT_MAX_BYTES <? utf8_length text then Failed "pi-output-too-large"
    else
      match part_texts content with
      | None => Failed "pi-output-malformed"
      | Some texts =>
        if string_is "error" (js_get "stopReason" candidate) then Failed "pi-inference-failed"
        else if string_is "length" (js_get "stopReason" candidate) then Length
        else if string_is "aborted" (js_get "stopReason" candidate)
        then Failed "Worker runtime stopped on its own without an OpenKit interrupt request."
        else match trim (concat texts) with [] => Failed "pi-final-message-empty" | t => Completed t end
      end
  end.

Definition finish_turn (tk : PiTurnOutcomeTracker) (interrupted promptFailed : bool) (route : PiAdmittedRoute) : PiTurnOutcome :=
  if interrupted then Interrupted
  else if promptFailed then Failed "pi-prompt-failed"
  else
    match tk_candidate tk with
    | Some candidate =>
      if tk_contradicted tk || negb (tk_settled tk) || negb (tk_turnMatched tk) || negb (tk_agentMatched tk)
      then Failed "pi-terminal-correlation-failed"
      else if negb (bool_decide (text_of (js_get "provider" candidate) = rt_provider route))
              || negb (bool_decide (text_of (js_get "model" candidate) = rt_model route))
      then Failed "pi-route-mismatch"
      else content_outcome candidate
    | None => Failed "pi-terminal-correlation-failed"
    end.

(** ** Diagnostics *)

Definition is_word (c : Z) : bool := is_upper c || is_lower c || is_digit c || (c =? cu "_").
Definition lower_unit (c : Z) : Z := if is_upper c then c + 32 else c.

(** What follows [word] in [s], without regard to case. *)
Fixpoint after_word (word s : jsstr) : option jsstr :=
  match word, s with
  | [], _ => Some s
  | x :: word, y :: s => if x =? lower_unit y then after_word word s else None
  | _ :: _, [] => None
  end.

Definition after_spaces (s : jsstr) : jsstr := (span is_js_space s).2.
(** [\s+] and [\S+] *)
Definition after_some (p : Z → bool) (s : jsstr) : option jsstr :=
  match span p s with ([], _) => None | (_, r) => Some r end.

(** [/\bAuthorization:\s*Bearer\s+\S+/i] at the start of [s]: what follows the match, and its replacement. *)
Definition match_authorization (s : jsstr) : option (jsstr * jsstr) :=
  r ← after_word (js "authorization:") s; r ← after_word (js "bearer") (after_spaces r);
  r ← after_some is_js_space r; r ← after_some (λ c, negb (is_js_space c)) r;
  Some (r, js "Authorization: Bearer [redacted]").

(** [token|secret|password|api[ _-]?key] *)
Definition after_keyword (s : jsstr) : option jsstr :=
  match after_word (js "token") s, after_word (js "secret") s, after_word (js "password") s, after_word (js "api") s with
  | Some r, _, _, _ | None, Some r, _, _ | None, None, Some r, _ => Some r
  | None, None, None, Some r =>
    match r with
    | c :: r' => if includes (js " _-") c then match after_word (js "key") r' with Some r => Some r | None => after_word (js "key") r end
                 else after_word (js "key") r
    | [] => None
    end
  | None, None, None, None => None
  end.

(** [/\b(token|...)\s*[:=]\s*\S+/i], replaced by ['$1=[redacted]']. *)
Definition match_assignment (s : jsstr) : option (jsstr * jsstr) :=
  r1 ← after_keyword s;
  match after_spaces r1 with
  | c :: r2 =>
    if (c =? cu ":") || (c =? cu "=") then
      r ← after_some (λ c, negb (is_js_space c)) (after_spaces r2);
      Some (r, take (length s - length r1) s ++ js "=[redacted]")
    else None
  | [] => None
  end.

(** [s.replace(/\b.../g, ...)]: a match starts where a word starts; [skip] code units belong to the last one. *)
Fixpoint replace_matches (pattern : jsstr → option (jsstr * jsstr)) (previous : bool) (skip : nat) (s : jsstr) : jsstr :=
  match s with
  | [] => []
  | c :: r =>
    match skip with
    | S skip => replace_matches pattern (is_word c) skip r
    | O =>
      match (if previous then None else pattern s) with
      | Some (rest, replacement) => replacement ++ replace_matches pattern (is_word c) (pred (length s - length rest)) r
      | None => c :: replace_matches pattern (is_word c) 0 r
      end
    end
  end.

Definition redactPiText (text : jsstr) (secrets : list jsstr) : jsstr :=
  replace_matches match_assignment false 0 (replace_matches match_authorization false 0 (redact_secrets secrets text)).

(** [text.replace(/\uFFFD$/, '')] *)
Definition drop_replacement (s : jsstr) : jsstr :=
  match rev s with 0xfffd :: r => rev r | _ => s end.

Definition boundObservations (values secrets : list jsstr) : list jsstr :=
  (λ value, drop_replacement (decode_lossy (take 256 (utf8_encode (redactPiText value secrets))))) <$> take 32 values.

(** ** The projection of a settlement *)

Inductive PiTurnStatus := StatusCompleted | StatusFailed | StatusLength | StatusInterrupted.
#[export] Instance PiTurnStatus_eq_dec : EqDecision PiTurnStatus.
Proof. solve_decision. Defined.

Record PiTurnProjection := {
  pj_validEvidence : bool;
  pj_assistantText : option jsstr;
  pj_compactionEntryIds : list jsstr;
  pj_establishes : bool;
  pj_readyText : option jsstr;
  pj_interruptRequested : bool;
  pj_status : PiTurnStatus;
  pj_stopReason : jsstr;
}.

(** [/^[0-9a-f]{64}$/] *)
Definition is_handle_digest (s : jsstr) : bool :=
  bool_decide (length s = 64%nat) && forallb (λ c, is_digit c || in_range 97 102 c) s.

Record ReadyText := { ry_identity : bool; ry_pending : bool; ry_text : option jsstr; ry_trusted : bool }.
Definition untrusted (identity pending : bool) : ReadyText :=
  {| ry_identity := identity; ry_pending := pending; ry_text := None; ry_trusted := false |}.

Section Projection.
(** [createHash('sha256').update(text, 'utf8').digest('hex')] *)
Context (sha256hex : jsstr → jsstr).

Definition readReadyText (value : jsval) (expected : option jsstr) : ReadyText :=
  match js_get "state" value with
  | JStr state =>
    if bool_decide (state = js "pending") then untrusted false true
    else if negb (bool_decide (state = js "ready")) then untrusted false false
    else
      match js_get "handle" value, js_get "digest" value with
      | JStr handle, JStr digest =>
        if negb (is_handle_digest digest) then untrusted true false
        else if negb (bool_decide (sha256hex handle = digest))
                || match expected with Some e => negb (bool_decide (handle = e)) | None => false end
        then untrusted true false
        else {| ry_identity := false; ry_pending := false; ry_text := Some handle; ry_trusted := true |}
      | _, _ => untrusted true false
      end
  | _ => untrusted true false
  end.

Definition projectPiTurnSettlement (frame : PiTurnSettledFrame) (expectedHandleText : option jsstr) (secrets : list jsstr) : PiTurnProjection :=
  let compactionEntryIds := boundObservations (ps_compactionEntryIds frame) secrets in
  let readyText := readReadyText (ps_nativeHandle frame) expectedHandleText in
  let trusted_text := if ry_trusted readyText then ry_text readyText else None in
  let outcome := ps_outcome frame in
  let status := text_of (js_get "status" outcome) in
  let project valid text establishes ready interrupt st reason :=
    {| pj_validEvidence := valid; pj_assistantText := text; pj_compactionEntryIds := compactionEntryIds; pj_establishes := establishes;
       pj_readyText := ready; pj_interruptRequested := interrupt; pj_status := st; pj_stopReason := reason |} in
  let failed reason valid := project valid None false trusted_text false StatusFailed reason in
  let state := js_get "state" (ps_nativeHandle frame) in
  if negb (string_is "pending" state || string_is "ready" state || string_is "unknown" state)
     || (string_is "ready" state && negb (ry_trusted readyText))
  then failed (js "pi-identity-failed") false
  else if bool_decide (status = js "completed") then
    match js_get "assistantText" outcome with
    | JStr raw =>
      if PI_RESULT_CONTENT_MAX_BYTES <? utf8_length raw then failed (js "pi-output-too-large") false
      else if exposes secrets raw then failed (js "pi-credential-hit") false
      else
        match trim raw with
        | [] => failed (js "pi-final-message-empty") false
        | assistantText =>
          match trusted_text with
          | Some text => project true (Some assistantText) true (Some text) false StatusCompleted (js "stop")
          | None => failed (js (if ry_identity readyText then "pi-identity-failed" else "pi-terminal-correlation-failed")) false
          end
        end
    | _ => failed (js "pi-output-malformed") false
    end
  else if bool_decide (status = js "length") then
    if string_is "pi-length" (js_get "reason" outcome)
    then project true None false trusted_text false StatusLength (js "pi-length")
    else failed (js "pi-output-malformed") false
  else if bool_decide (status = js "interrupted") then
    if string_is "worker-interrupted" (js_get "reason" outcome)
    then project true None false trusted_text true StatusInterrupted (js "worker-interrupted")
    else failed (js "pi-output-malformed") false
  else if bool_decide (status = js "failed") then
    let reason := text_of (js_get "reason" outcome) in
    if includes (js <$> PI_FAILED_REASONS) reason then failed reason true else failed (js "pi-output-malformed") false
  else failed (js "pi-output-malformed") false.
End Projection.

(** ** The settlement in the adapter

    A binding of the adapter, as far as the settlement of a Turn reads or writes it.  A Turn has the identity
    of its object, since the code compares it by reference.  [#applySettlement] is split at its awaits: the
    proof of the session file, and the end of the capture; what the rest of the adapter does in the meantime
    is a function on the binding. *)

Record AdapterTurn := {
  ac_object : nat;
  ac_turnId : jsstr;
  ac_applying : bool;
  ac_done : bool;
  ac_violated : bool;
  ac_nativeSettlementProved : bool;
}.

Record AdapterBinding := {
  pa_cachedHandle : option jsstr;
  pa_established : bool;
  pa_fenced : bool;
  pa_lost : bool;
  pa_exitUnproved : bool;
  pa_busy : bool;
  pa_closing : bool; (* [#closeAccepted || #exitSeen] *)
  pa_closeEvidenceLost : bool;
  pa_nativeTerminal : bool;
  pa_lastTurnId : option jsstr;
  pa_turn : option AdapterTurn;
  pa_compactionEntryIds : list jsstr;
}.

Definition set_adapter_turn (t : option AdapterTurn) (s : AdapterBinding) : AdapterBinding :=
  {| pa_cachedHandle := pa_cachedHandle s; pa_established := pa_established s; pa_fenced := pa_fenced s; pa_lost := pa_lost s;
     pa_exitUnproved := pa_exitUnproved s; pa_busy := pa_busy s; pa_closing := pa_closing s; pa_closeEvidenceLost := pa_closeEvidenceLost s;
     pa_nativeTerminal := pa_nativeTerminal s; pa_lastTurnId := pa_lastTurnId s; pa_turn := t; pa_compactionEntryIds := pa_compactionEntryIds s |}.
Definition set_adapter_flags (established fenced lost exitUnproved : bool) (s : AdapterBinding) : AdapterBinding :=
  {| pa_cachedHandle := pa_cachedHandle s; pa_established := established; pa_fenced := fenced; pa_lost := lost;
     pa_exitUnproved := exitUnproved; pa_busy := pa_busy s; pa_closing := pa_closing s; pa_closeEvidenceLost := pa_closeEvidenceLost s;
     pa_nativeTerminal := pa_nativeTerminal s; pa_lastTurnId := pa_lastTurnId s; pa_turn := pa_turn s; pa_compactionEntryIds := pa_compactionEntryIds s |}.
Definition set_adapter_evidence (closeEvidenceLost nativeTerminal : bool) (s : AdapterBinding) : AdapterBinding :=
  {| pa_cachedHandle := pa_cachedHandle s; pa_established := pa_established s; pa_fenced := pa_fenced s; pa_lost := pa_lost s;
     pa_exitUnproved := pa_exitUnproved s; pa_busy := pa_busy s; pa_closing := pa_closing s; pa_closeEvidenceLost := closeEvidenceLost;
     pa_nativeTerminal := nativeTerminal; pa_lastTurnId := pa_lastTurnId s; pa_turn := pa_turn s; pa_compactionEntryIds := pa_compactionEntryIds s |}.
(** The end of a Turn: [this.#turn = null], [this.#lastTurnId = active.turnId]. *)
Definition end_turn (turn : AdapterTurn) (busy : bool) (handle : option jsstr) (ids : list jsstr) (s : AdapterBinding) : AdapterBinding :=
  {| pa_cachedHandle := handle; pa_established := pa_established s; pa_fenced := pa_fenced s; pa_lost := pa_lost s;
     pa_exitUnproved := pa_exitUnproved s; pa_busy := busy; pa_closing := pa_closing s; pa_closeEvidenceLost := pa_closeEvidenceLost s;
     pa_nativeTerminal := pa_nativeTerminal s; pa_lastTurnId := Some (ac_turnId turn); pa_turn := None; pa_compactionEntryIds := ids |}.

(** The result of a Turn without its diagnostics; [None] is a rejection. *)
Record AdapterResult := {
  ar_assistantText : option jsstr;
  ar_interruptRequested : bool;
  ar_status : PiTurnStatus;
  ar_stopReason : jsstr;
}.

Definition violate (t : AdapterTurn) : AdapterTurn :=
  {| ac_object := ac_object t; ac_turnId := ac_turnId t; ac_applying := ac_applying t; ac_done := ac_done t; ac_violated := true;
     ac_nativeSettlementProved := ac_nativeSettlementProved t |}.
Definition start_applying (t : AdapterTurn) : AdapterTurn :=
  {| ac_object := ac_object t; ac_turnId := ac_turnId t; ac_applying := true; ac_done := ac_done t; ac_violated := ac_violated t;
     ac_nativeSettlementProved := ac_nativeSettlementProved t |}.
Definition settlement_proved (t : AdapterTurn) : AdapterTurn :=
  {| ac_object := ac_object t; ac_turnId := ac_turnId t; ac_applying := ac_applying t; ac_done := ac_done t; ac_violated := ac_violated t;
     ac_nativeSettlementProved := true |}.

(** [#stopActive] up to its await. *)
Definition stopActive (s : AdapterBinding) : AdapterBinding :=
  set_adapter_flags (pa_established s) true true (pa_exitUnproved s) (set_adapter_turn (violate <$> pa_turn s) s).

Definition failActive (stopReason : jsstr) (stopOwner : bool) (s : AdapterBinding) : AdapterBinding * option (option AdapterResult) :=
  match pa_turn s with
  | Some active =>
    if ac_done active || (ac_violated active && negb stopOwner) then (s, None)
    else
      let s := end_turn active false (pa_cachedHandle s) (pa_compactionEntryIds s) s in
      (set_adapter_flags (pa_established s) (pa_fenced s || negb (pa_established s)) (pa_lost s) (pa_exitUnproved s) s,
       Some (Some {| ar_assistantText := None; ar_interruptRequested := false; ar_status := StatusFailed; ar_stopReason := stopReason |}))
  | None => (s, None)
  end.

Definition rejectActive (s : AdapterBinding) : AdapterBinding * option (option AdapterResult) :=
  match pa_turn s with
  | Some active =>
    if ac_done active then (s, None)
    else
      let s := end_turn active (pa_busy s) (pa_cachedHandle s) (pa_compactionEntryIds s) s in
      (set_adapter_flags (pa_established s) true (pa_lost s) true s, Some None)
  | None => (s, None)
  end.

(** The rest of [#stopActive], with the answer of [#confirmStopped]. *)
Definition stop_confirmed (stopped : bool) (reason : jsstr) (s : AdapterBinding) : AdapterBinding * option (option AdapterResult) :=
  if stopped then failActive reason true s else rejectActive s.

Inductive SettledAction := ActIgnored | ActConfirmStopped | ActStop (reason : jsstr) | ActApply (object : nat).

Definition onSettled (settled : PiTurnSettledFrame) (s : AdapterBinding) : AdapterBinding * SettledAction :=
  let s := set_adapter_evidence (pa_closeEvidenceLost s || pa_closing s) (pa_nativeTerminal s) s in
  let repeated := bool_decide (pa_lastTurnId s = Some (ps_turnId settled)) in
  let late := if repeated then (set_adapter_flags (pa_established s) true true true s, ActConfirmStopped) else (s, ActIgnored) in
  match pa_turn s with
  | None => late
  | Some active =>
    if ac_done active then late
    else if repeated then (stopActive s, ActStop (js "pi-terminal-correlation-failed"))
    else if negb (bool_decide (ac_turnId active = ps_turnId settled)) then (s, ActIgnored)
    else if ac_applying active then (stopActive s, ActStop (js "pi-terminal-correlation-failed"))
    else (set_adapter_turn (Some (start_applying active)) s, ActApply (ac_object active))
  end.

Inductive PersistedHandle := PersistedPending | PersistedReady | PersistedUnknown.
#[export] Instance PersistedHandle_eq_dec : EqDecision PersistedHandle.
Proof. solve_decision. Defined.

(** [!(active.done || this.#turn !== active || active.violated)], with the Turn. *)
Definition still_active (object : nat) (s : AdapterBinding) : option AdapterTurn :=
  match pa_turn s with
  | Some t => if bool_decide (ac_object t = object) && negb (ac_done t) && negb (ac_violated t) then Some t else None
  | None => None
  end.

(** What a settlement leads to: a report, a stop of the host, or nothing because another handler owns the Turn. *)
Inductive SettlementEnd := Reported (r : AdapterResult) | Stopping (reason : jsstr) | LeftAlone.

(** A text that is not [null] and not empty. *)
Definition truthy_text (t : option jsstr) : bool := match t with Some (_ :: _) => true | _ => false end.

(** After the capture has ended. *)
Definition settle_captured (object : nat) (projected : PiTurnProjection) (readyText : option jsstr) (s : AdapterBinding)
    : AdapterBinding * SettlementEnd :=
  match still_active object s with
  | None => (s, LeftAlone)
  | Some active =>
    let handle := if truthy_text readyText && (bool_decide (pa_cachedHandle s = None) || bool_decide (pa_cachedHandle s = readyText))
                  then readyText else pa_cachedHandle s in
    let s := end_turn active false handle (pj_compactionEntryIds projected) s in
    let establishes := pj_establishes projected && bool_decide (readyText ≠ None) in
    (set_adapter_flags (pa_established s || establishes) (pa_fenced s || negb (establishes || pa_established s)) (pa_lost s) (pa_exitUnproved s) s,
     Reported {| ar_assistantText := pj_assistantText projected; ar_interruptRequested := pj_interruptRequested projected;
                 ar_status := pj_status projected; ar_stopReason := pj_stopReason projected |})
  end.

(** After the session file of the handle has been proved; [readyText] is [null] when that failed. *)
Definition settle_proved (during_capture : AdapterBinding → AdapterBinding) (object : nat) (projected : PiTurnProjection)
    (readyText : option jsstr) (s : AdapterBinding) : AdapterBinding * SettlementEnd :=
  match still_active object s with
  | None => (s, LeftAlone)
  | Some active =>
    if pj_establishes projected && bool_decide (readyText = None) then (stopActive s, Stopping (js "pi-identity-failed"))
    else settle_captured object projected readyText (during_capture (set_adapter_turn (Some (settlement_proved active)) s))
  end.

Definition applySettlement (sha256hex : jsstr → jsstr) (secrets : list jsstr) (persisted : PersistedHandle)
    (during_proof during_capture : AdapterBinding → AdapterBinding) (object : nat) (settled : PiTurnSettledFrame) (s : AdapterBinding)
    : AdapterBinding * SettlementEnd :=
  let projected := projectPiTurnSettlement sha256hex settled (pa_cachedHandle s) secrets in
  let s := set_adapter_evidence (pa_closeEvidenceLost s) (pj_validEvidence projected) s in
  if negb (pj_validEvidence projected) then (stopActive s, Stopping (pj_stopReason projected))
  else if truthy_text (pj_readyText projected)
  then settle_proved during_capture object projected (if bool_decide (persisted = PersistedReady) then pj_readyText projected else None) (during_proof s)
  else settle_proved during_capture object projected (pj_readyText projected) s.

(** A settlement frame from its arrival to its end. *)
Definition settle_turn (sha256hex : jsstr → jsstr) (secrets : list jsstr) (persisted : PersistedHandle)
    (during_proof during_capture : AdapterBinding → AdapterBinding) (settled : PiTurnSettledFrame) (s : AdapterBinding)
    : AdapterBinding * SettlementEnd :=
  match onSettled settled s with
  | (s, ActApply object) => applySettlement sha256hex secrets persisted during_proof during_capture object settled s
  | (s, ActStop reason) => (s, Stopping reason)
  | (s, ActIgnored) | (s, ActConfirmStopped) => (s, LeftAlone)
  end.

(** ** Correlation *)




























(** ** The final text *)






















(** ** Claims *)









(** The settlement the adapter reads from the frame of the host. *)
Definition settlement (ids : list jsstr) (handle : HostNativeHandle) (outcome : PiTurnOutcome) (effort turnId : jsstr) : PiTurnSettledFrame :=
  {| ps_compactionEntryIds := ids; ps_nativeHandle := handle_json handle; ps_outcome := outcome_json outcome;
     ps_reasoningEffort := Some (JStr effort); ps_turnId := turnId |}.









Section Settling.
Context (sha : jsstr → jsstr) (secrets : list jsstr) (persisted : PersistedHandle) (during_proof during_capture : AdapterBinding → AdapterBinding).
Context (f : PiTurnSettledFrame) (s : AdapterBinding).
Local Notation p := (projectPiTurnSettlement sha f (pa_cachedHandle s) secrets).




End Settling.


(** ** Examples *)

Module OutcomeDemo.
Definition message : jsval := obj [
  ("role", JStr (js "assistant")); ("content", JArr [obj [("type", JStr (js "thinking"))]; obj [("type", JStr (js "text")); ("text", JStr (js " Done. "))]]);
  ("provider", JStr (js "openkit")); ("model", JStr (js "m1")); ("stopReason", JStr (js "stop"))].
Definition events : list jsval := [
  obj [("type", JStr (js "agent_start"))];
  obj [("type", JStr (js "message_end")); ("message", message)];
  obj [("type", JStr (js "turn_end")); ("message", message)];
  obj [("type", JStr (js "agent_end")); ("willRetry", JBool false); ("messages", JArr [message])];
  obj [("type", JStr (js "agent_settled"))]].
Definition route : PiAdmittedRoute := {| rt_provider := js "openkit"; rt_model := js "m1" |}.

Example turn_completes : finish_turn (observe_all events) false false route = Completed (js "Done.").
Proof. vm_compute. reflexivity. Qed.

(** An event after the settlement takes the completion back. *)
Example late_event_contradicts :
  finish_turn (observe_all (events ++ [obj [("type", JStr (js "turn_end")); ("message", message)]])) false false route
  = Failed "pi-terminal-correlation-failed".
Proof. vm_compute. reflexivity. Qed.

Definition digest (t : jsstr) : jsstr := replicate 64 (cu "0").
Example completion_is_projected :
  let p := projectPiTurnSettlement digest (settlement [js "entry token=abc def"] (Ready (digest []) (js "handle")) (Completed (js "Done.")) (js "high") (js "turn-1")) None [] in
  pj_status p = StatusCompleted ∧ pj_assistantText p = Some (js "Done.") ∧ pj_compactionEntryIds p = [js "entry token=[redacted] def"].
Proof. vm_compute. done. Qed.

Example pending_handle_is_refused :
  let p := projectPiTurnSettlement digest (settlement [] Pending (Completed (js "Done.")) (js "high") (js "turn-1")) None [] in
  pj_status p = StatusFailed ∧ pj_stopReason p = js "pi-terminal-correlation-failed".
Proof. vm_compute. done. Qed.

(** A first Turn of a binding, settled with and without a session file that can be resumed. *)
Definition binding : AdapterBinding :=
  {| pa_cachedHandle := None; pa_established := false; pa_fenced := false; pa_lost := false; pa_exitUnproved := false; pa_busy := true; pa_closing := false;
     pa_closeEvidenceLost := false; pa_nativeTerminal := false; pa_lastTurnId := None; pa_compactionEntryIds := [];
     pa_turn := Some {| ac_object := 1; ac_turnId := js "turn-1"; ac_applying := false; ac_done := false; ac_violated := false; ac_nativeSettlementProved := false |} |}.
Definition settle_demo (persisted : PersistedHandle) : AdapterBinding * SettlementEnd :=
  settle_turn digest [] persisted (λ s, s) (λ s, s) (settlement [] (Ready (digest []) (js "handle")) (Completed (js "Done.")) (js "high") (js "turn-1")) binding.

Example completion_is_reported :
  match settle_demo PersistedReady with
  | (s, Reported r) => ar_status r = StatusCompleted ∧ ar_assistantText r = Some (js "Done.") ∧ pa_cachedHandle s = Some (js "handle") ∧ pa_established s = true
  | _ => False
  end.
Proof. vm_compute. done. Qed.

Example unpersisted_completion_stops :
  (settle_demo PersistedPending).2 = Stopping (js "pi-identity-failed") ∧
  (stop_confirmed true (js "pi-identity-failed") (settle_demo PersistedPending).1).2 =
    Some (Some {| ar_assistantText := None; ar_interruptRequested := false; ar_status := StatusFailed; ar_stopReason := js "pi-identity-failed" |}).
Proof. vm_compute. done. Qed.
End OutcomeDemo.
