(* ===== verification/PiHost.v ===== *)
(** * The Pi runtime host (packages/pi-runtime-host/src/host.ts, identity.ts)

    One host process serves one Pi conversation.  It answers the requests of the Harness (open, inspect,
    configure, turn, interrupt, close), runs one Turn at a time and reports its settlement.  Every
    handler awaits the file system or the SDK; between two awaits it runs alone, and other requests are
    handled in the meantime.

    A handler is split at its awaits: what is pending is a [Task], and an [Input] is a request, the loss
    of the channel, or the answer a task was waiting for.  The answers of the file system and of the
    SDK are part of the input: whether a proof of a session file succeeds, how the preparation of a Turn
    ends, the session events of a prompt.  The digest of [node:crypto], the path test of [node:path] and
    the pending removal of a fresh directory are left to the environment. *)

From Stdlib Require Import SpecFloat.
From S2P Require Import Prelude JsValue CanonicalJson EntityId Utf8 CommandInput SchedulerRecords JsonText AgentLoop RequestAdmission RollingContext PiChannel PiOutcome.

Local Open Scope string_scope.
Local Open Scope list_scope.
Local Open Scope Z_scope.

(** ** Session handles *)

Record PiSessionHandle := { sh_cwd : jsstr; sh_path : jsstr; sh_sessionId : jsstr }.

Definition encodePiSessionHandle (h : PiSessionHandle) : jsstr :=
  js "{" ++ member_text "cwd" (stringify_string (sh_cwd h)) ++ js "," ++ member_text "path" (stringify_string (sh_path h))
  ++ js "," ++ member_text "sessionId" (stringify_string (sh_sessionId h)) ++ js "}".

Section Host.
(** [createHash('sha256').update(text, 'utf8').digest('hex')] *)
Context (sha256hex : jsstr → jsstr).
(** The test of [requirePiSessionPath], over [resolve], [relative] and [isAbsolute] of [node:path]. *)
Context (strict_child : jsstr → jsstr → bool).

(** [Err] is the message of the identity error. *)
Definition parsePiSessionHandle (encoded stateRoot : jsstr) : result string PiSessionHandle :=
  match json_parse encoded with
  | Some (JObj ms) =>
    match js_get "cwd" (JObj ms), js_get "path" (JObj ms), js_get "sessionId" (JObj ms) with
    | JStr cwd, JStr path, JStr sessionId =>
      require bool_decide (join (js ",") (js_sort str_cmp ms.*1) = js "cwd,path,sessionId") && negb (is_blank sessionId)
        else "Pi session handle is malformed.";
      let handle := {| sh_cwd := cwd; sh_path := path; sh_sessionId := sessionId |} in
      require bool_decide (encodePiSessionHandle handle = encoded) else "Pi session handle is not canonical.";
      require strict_child stateRoot path else "Pi session path is outside its retained state root.";
      Ok handle
    | _, _, _ => Err "Pi session handle is malformed."
    end
  | _ => Err "Pi session handle is malformed."
  end.

Definition readyOrPending (handle : option PiSessionHandle) : HostNativeHandle :=
  match handle with
  | None => Pending
  | Some h => Ready (sha256hex (encodePiSessionHandle h)) (encodePiSessionHandle h)
  end.

(** ** State *)

Record PiModelDescriptor := {
  md_contextWindow : Z; md_inputModalities : list jsstr; md_maxOutputTokens : Z; md_modelId : jsstr;
  md_reasoning : bool; md_reasoningEffortLevels : option (list jsstr);
}.

(** The members of an [open] request that the host itself reads. *)
Record HostOpenRequest := {
  or_capabilityCredential : jsstr; or_id : spec_float; or_inferenceCredential : jsstr; or_model : PiModelDescriptor;
  or_resume : option jsstr; or_stateRoot : jsstr; or_workingDirectory : jsstr;
}.

Inductive HostRequest :=
| ROpen (request : HostOpenRequest)
| RInspect (id : spec_float)
| RConfigure (id : spec_float) (model : PiModelDescriptor)
| RTurn (id : spec_float) (turnId : jsstr)
| RInterrupt (id : spec_float) (turnId : jsstr)
| RClose (id : spec_float).

Definition request_id (r : HostRequest) : spec_float :=
  match r with ROpen o => or_id o | RInspect i | RConfigure i _ | RTurn i _ | RInterrupt i _ | RClose i => i end.

Inductive HostState := SUnopened | SOpening | SOpen | SActive | SClosing | SClosed | SFailed.
#[export] Instance HostState_eq_dec : EqDecision HostState.
Proof. solve_decision. Defined.

Record Binding := {
  bd_handle : option PiSessionHandle;
  bd_model : PiModelDescriptor;
  bd_modelPending : bool;
  bd_request : HostOpenRequest;
  bd_sessionPath : jsstr;
}.

(** [at_done] is the settled promise [done]. *)
Record ActiveTurn := {
  at_done : option PiTurnOutcome;
  at_failure : option string;
  at_interrupted : bool;
  at_settingUp : bool;
  at_turnId : jsstr;
}.

(** What [#runTurn] keeps across its awaits: the turn object, [established], [route] and [setupFailure]. *)
Record TurnRun := { tr_turn : nat; tr_established : bool; tr_route : PiAdmittedRoute; tr_setupFailure : option string }.

(** How the native handle is obtained at the end: [#proveHandle], which has found a handle or not, or
    [#promoteHandle] with the id of the session. *)
Inductive HandleProof := Prove (had : bool) | Promote (sessionId : option jsstr).

(** What a handler waits for. *)
Inductive Task :=
| KOpening (request : HostOpenRequest)
| KInspecting (id : spec_float) (had : bool)
| KInspectingFailed (id : spec_float) (had : bool)
| KLatching (id : spec_float)
| KPreparing (run : TurnRun)
| KPrompting (run : TurnRun) (earlierEntries : list jsstr) (tracker : PiTurnOutcomeTracker)
| KProving (run : TurnRun) (outcome : PiTurnOutcome) (compactionEntryIds : list jsstr) (proof : HandleProof)
| KCancelling (id : spec_float) (turn : nat)
| KInterrupting (id : spec_float) (turn : nat)
| KClosing (id : option spec_float)
| KStopping (id : option spec_float) (turn : nat)
| KStopped (id : option spec_float) (turn : nat)
| KReleasing (id : option spec_float)
| KReporting (id : spec_float) (had : bool).

(** [hs_turns] are the turn objects in the order of their creation, [hs_turn] refers to the current one;
    [hs_session] is the id of the SDK session; [hs_sent] are the frames written so far. *)
Record Host := {
  hs_awaitingOpenKitMcp : bool;
  hs_binding : option Binding;
  hs_opening : bool;
  hs_session : option jsstr;
  hs_state : HostState;
  hs_turn : option nat;
  hs_turns : list ActiveTurn;
  hs_sent : list HostFrame;
  hs_exits : nat;
  hs_tasks : list Task;
}.
Definition new_host : Host :=
  {| hs_awaitingOpenKitMcp := false; hs_binding := None; hs_opening := false; hs_session := None; hs_state := SUnopened;
     hs_turn := None; hs_turns := []; hs_sent := []; hs_exits := 0; hs_tasks := [] |}.

Definition set_state (s : HostState) (h : Host) : Host :=
  {| hs_awaitingOpenKitMcp := hs_awaitingOpenKitMcp h; hs_binding := hs_binding h; hs_opening := hs_opening h; hs_session := hs_session h;
     hs_state := s; hs_turn := hs_turn h; hs_turns := hs_turns h; hs_sent := hs_sent h; hs_exits := hs_exits h; hs_tasks := hs_tasks h |}.
Definition set_binding (b : option Binding) (h : Host) : Host :=
  {| hs_awaitingOpenKitMcp := hs_awaitingOpenKitMcp h; hs_binding := b; hs_opening := hs_opening h; hs_session := hs_session h;
     hs_state := hs_state h; hs_turn := hs_turn h; hs_turns := hs_turns h; hs_sent := hs_sent h; hs_exits := hs_exits h; hs_tasks := hs_tasks h |}.
Definition set_opening (b : bool) (h : Host) : Host :=
  {| hs_awaitingOpenKitMcp := hs_awaitingOpenKitMcp h; hs_binding := hs_binding h; hs_opening := b; hs_session := hs_session h;
     hs_state := hs_state h; hs_turn := hs_turn h; hs_turns := hs_turns h; hs_sent := hs_sent h; hs_exits := hs_exits h; hs_tasks := hs_tasks h |}.
Definition set_session (s : option jsstr) (awaiting : bool) (h : Host) : Host :=
  {| hs_awaitingOpenKitMcp := awaiting; hs_binding := hs_binding h; hs_opening := hs_opening h; hs_session := s;
     hs_state := hs_state h; hs_turn := hs_turn h; hs_turns := hs_turns h; hs_sent := hs_sent h; hs_exits := hs_exits h; hs_tasks := hs_tasks h |}.
Definition set_turn (t : option nat) (turns : list ActiveTurn) (h : Host) : Host :=
  {| hs_awaitingOpenKitMcp := hs_awaitingOpenKitMcp h; hs_binding := hs_binding h; hs_opening := hs_opening h; hs_session := hs_session h;
     hs_state := hs_state h; hs_turn := t; hs_turns := turns; hs_sent := hs_sent h; hs_exits := hs_exits h; hs_tasks := hs_tasks h |}.
Definition set_tasks (ts : list Task) (h : Host) : Host :=
  {| hs_awaitingOpenKitMcp := hs_awaitingOpenKitMcp h; hs_binding := hs_binding h; hs_opening := hs_opening h; hs_session := hs_session h;
     hs_state := hs_state h; hs_turn := hs_turn h; hs_turns := hs_turns h; hs_sent := hs_sent h; hs_exits := hs_exits h; hs_tasks := ts |}.
Definition emit (frame : HostFrame) (h : Host) : Host :=
  {| hs_awaitingOpenKitMcp := hs_awaitingOpenKitMcp h; hs_binding := hs_binding h; hs_opening := hs_opening h; hs_session := hs_session h;
     hs_state := hs_state h; hs_turn := hs_turn h; hs_turns := hs_turns h; hs_sent := hs_sent h ++ [frame]; hs_exits := hs_exits h; hs_tasks := hs_tasks h |}.
Definition onClosed (h : Host) : Host :=
  {| hs_awaitingOpenKitMcp := hs_awaitingOpenKitMcp h; hs_binding := hs_binding h; hs_opening := hs_opening h; hs_session := hs_session h;
     hs_state := hs_state h; hs_turn := hs_turn h; hs_turns := hs_turns h; hs_sent := hs_sent h; hs_exits := S (hs_exits h); hs_tasks := hs_tasks h |}.

Definition await (task : Task) (h : Host) : Host := set_tasks (hs_tasks h ++ [task]) h.
Definition respond (id : spec_float) (members : list (string * jsval)) : Host → Host :=
  emit (Response id ((λ kv, (js kv.1, kv.2)) <$> members)).
Definition fail (id : spec_float) (code : HostErrorCode) (message : string) : Host → Host := emit (Refusal code (js message) (Some id)).

Definition alter_turn (f : ActiveTurn → ActiveTurn) (n : nat) (h : Host) : Host := set_turn (hs_turn h) (alter f n (hs_turns h)) h.
Definition set_interrupted (t : ActiveTurn) : ActiveTurn :=
  {| at_done := at_done t; at_failure := at_failure t; at_interrupted := true; at_settingUp := at_settingUp t; at_turnId := at_turnId t |}.
Definition set_failure (r : string) (t : ActiveTurn) : ActiveTurn :=
  {| at_done := at_done t; at_failure := Some r; at_interrupted := at_interrupted t; at_settingUp := at_settingUp t; at_turnId := at_turnId t |}.
Definition set_prepared (t : ActiveTurn) : ActiveTurn :=
  {| at_done := at_done t; at_failure := at_failure t; at_interrupted := at_interrupted t; at_settingUp := false; at_turnId := at_turnId t |}.
Definition set_done (o : PiTurnOutcome) (t : ActiveTurn) : ActiveTurn :=
  {| at_done := Some o; at_failure := at_failure t; at_interrupted := at_interrupted t; at_settingUp := at_settingUp t; at_turnId := at_turnId t |}.

Definition cancelled (t : ActiveTurn) : bool := at_interrupted t || bool_decide (is_Some (at_failure t)).

(** The synchronous part of [#cancelTurn]: a session whose connection is still opening is dropped. *)
Definition cancelTurn (h : Host) : Host :=
  if hs_awaitingOpenKitMcp h && bool_decide (is_Some (hs_session h)) then set_session None (hs_awaitingOpenKitMcp h) h else h.

(** ** Requests *)

Definition PI_PROVIDER_ALIAS : jsstr := js "openkit-worker-inference".

Definition open_request (request : HostOpenRequest) (h : Host) : Host :=
  if bool_decide (hs_state h = SUnopened)
  then await (KOpening request) (set_opening true (set_state SOpening h))
  else fail (or_id request) InvalidState "Host is already open." h.

Definition inspect (id : spec_float) (h : Host) : Host :=
  match hs_binding h with
  | Some b =>
    match hs_state h with
    | SFailed => await (KInspectingFailed id (bool_decide (is_Some (bd_handle b)))) h
    | SOpen | SActive => await (KInspecting id (bool_decide (is_Some (bd_handle b)))) h
    | _ => fail id InvalidState "Host is not open." h
    end
  | None => fail id InvalidState "Host is not open." h
  end.

Definition configure (id : spec_float) (model : PiModelDescriptor) (h : Host) : Host :=
  match hs_state h, hs_binding h with
  | SActive, _ => fail id Busy "A Turn is active." h
  | SOpen, Some b =>
    respond id [] (set_binding (Some {| bd_handle := bd_handle b; bd_model := model; bd_modelPending := true;
                                        bd_request := bd_request b; bd_sessionPath := bd_sessionPath b |}) h)
  | _, _ => fail id InvalidState "Host is not open." h
  end.

Definition new_turn (turnId : jsstr) : ActiveTurn :=
  {| at_done := None; at_failure := None; at_interrupted := false; at_settingUp := true; at_turnId := turnId |}.

(** [#runTurn] up to the preparation. *)
Definition start_turn (id : spec_float) (turnId : jsstr) (h : Host) : Host :=
  match hs_state h, hs_binding h with
  | SActive, _ => fail id Busy "A Turn is active." h
  | SOpen, Some b =>
    let n := length (hs_turns h) in
    let h := respond id [("state", JStr (js "started"))] (set_state SActive (set_turn (Some n) (hs_turns h ++ [new_turn turnId]) h)) in
    await (KPreparing {| tr_turn := n; tr_established := bool_decide (is_Some (bd_handle b));
                         tr_route := {| rt_provider := PI_PROVIDER_ALIAS; rt_model := md_modelId (bd_model b) |};
                         tr_setupFailure := None |}) h
  | _, _ => fail id InvalidState "Host is not open." h
  end.

Definition interrupt (id : spec_float) (turnId : jsstr) (h : Host) : Host :=
  match hs_turn h ≫= λ n, (n,.) <$> hs_turns h !! n with
  | Some (n, turn) =>
    if bool_decide (at_turnId turn = turnId)
    then await (KCancelling id n) (cancelTurn (alter_turn set_interrupted n h))
    else respond id [("outcome", JStr (js "not_active"))] h
  | None => respond id [("outcome", JStr (js "not_active"))] h
  end.

Definition close (id : spec_float) (h : Host) : Host := await (KClosing (Some id)) (set_state SClosing h).

Definition dispatch (request : HostRequest) (h : Host) : Host :=
  match hs_state h with
  | SClosing | SClosed => fail (request_id request) InvalidState "Host is closing." h
  | _ =>
    match request with
    | ROpen o => open_request o h
    | RInspect id => inspect id h
    | RConfigure id model => configure id model h
    | RTurn id turnId => start_turn id turnId h
    | RInterrupt id turnId => interrupt id turnId h
    | RClose id => close id h
    end
  end.

(** The loss of the channel. *)
Definition abandon (h : Host) : Host :=
  match hs_state h with
  | SClosing | SClosed => h
  | _ => await (KClosing None) (set_state SClosing h)
  end.

(** ** Answers *)

Record SessionEntry := { se_id : jsstr; se_type : jsstr }.

(** How [#prepareTurn] and the selection of the reasoning effort end; [late]: the last checkpoint was passed
    at an earlier moment than the one at which [#runTurn] goes on. *)
Inductive Prepared := PReady (late : bool) | PEffortRefused (late : bool) | PCancelled | PIdentityFailed | PSetupFailed.

Inductive Answer :=
| ADone
| AFile (ok : bool)
| AOpened (proof : bool) (allocation : result (option string) jsstr) (runtime : bool)
| ASessionCreated (sessionId : jsstr)
| AAwaitingMcp
| APrepared (how : Prepared) (entries : list SessionEntry)
| ASessionEvent (event : jsval)
| APrompted (failed : bool) (entries : list SessionEntry)
| ASettled (ok : bool) (thinkingLevel : option jsstr).

(** [#openBinding] after its awaits: the handle and the session path, or the error with its code. *)
Definition open_result (request : HostOpenRequest) (proof : bool) (allocation : result (option string) jsstr) (runtime : bool)
    : result (HostErrorCode * string) (option PiSessionHandle * jsstr) :=
  bound ← match or_resume request with
          | Some text =>
            match parsePiSessionHandle text (or_stateRoot request) with
            | Err message => Err (IdentityFailed, message)
            | Ok handle =>
              require bool_decide (sh_cwd handle = or_workingDirectory request)
                else (IdentityFailed, "Pi session handle records another working directory.");
              require proof else (IdentityFailed, "Pi session header proof failed.");
              Ok (Some handle, sh_path handle)
            end
          | None =>
            match allocation with
            | Ok path => Ok (None, path)
            | Err (Some message) => Err (IdentityFailed, message)
            | Err None => Err (SetupFailed, "Pi host setup failed.")
            end
          end;
  require runtime else (SetupFailed, "Pi host setup failed.");
  Ok bound.

Definition opened (request : HostOpenRequest) (proof : bool) (allocation : result (option string) jsstr) (runtime : bool) (h : Host) : Host :=
  set_opening false
    (if negb (bool_decide (hs_state h = SOpening)) then fail (or_id request) InvalidState "Host is closing." h
     else
       match open_result request proof allocation runtime with
       | Ok (handle, sessionPath) =>
         respond (or_id request) [("nativeHandle", handle_json (readyOrPending handle))]
           (set_state SOpen (set_binding (Some {| bd_handle := handle; bd_model := or_model request; bd_modelPending := false;
                                                  bd_request := request; bd_sessionPath := sessionPath |}) h))
       | Err (code, message) => fail (or_id request) code message (set_state SFailed h)
       end).

(** [#proveHandle] after the file system has answered; [None] is the thrown error. *)
Definition proved (had ok : bool) (h : Host) : option HostNativeHandle :=
  match had, ok with
  | true, true => Some (readyOrPending (hs_binding h ≫= bd_handle))
  | true, false => None
  | false, true => Some Pending
  | false, false => Some Unknown
  end.

(** [#reportHandle] *)
Definition reported (had ok : bool) (h : Host) : HostNativeHandle := default Unknown (proved had ok h).

Definition current_turn_id (h : Host) : jsval :=
  match hs_turn h ≫= λ n, hs_turns h !! n with Some t => JStr (at_turnId t) | None => JNull end.

(** [#latchIdentityFailure] up to the cancellation. *)
Definition latchIdentityFailure (h : Host) : Host :=
  match hs_state h with
  | SClosing | SClosed => h
  | _ =>
    let h := set_state SFailed h in
    match hs_turn h with
    | Some n => cancelTurn (alter_turn (set_failure "pi-identity-failed") n h)
    | None => h
    end
  end.

Definition inspected (id : spec_float) (had ok : bool) (h : Host) : Host :=
  match proved had ok h with
  | Some handle =>
    respond id [("nativeHandle", handle_json handle);
                ("state", JStr (js (if bool_decide (hs_state h = SActive) then "active" else "idle"))); ("turnId", current_turn_id h)] h
  | None => await (KLatching id) (latchIdentityFailure h)
  end.

(** *** The rest of [#runTurn] *)

Definition secrets_of (h : Host) : list jsstr :=
  match hs_binding h with
  | Some b => [or_inferenceCredential (bd_request b); or_capabilityCredential (bd_request b)]
  | None => []
  end.

Definition model_selected (h : Host) : Host :=
  set_binding ((λ b, {| bd_handle := bd_handle b; bd_model := bd_model b; bd_modelPending := false;
                        bd_request := bd_request b; bd_sessionPath := bd_sessionPath b |}) <$> hs_binding h) h.

Definition compaction_ids (earlier : list jsstr) (entries : list SessionEntry) : list jsstr :=
  se_id <$> filterb (λ e, bool_decide (se_type e = js "compaction") && negb (includes earlier (se_id e))) entries.

(** The check of the closed vocabulary. *)
Definition checked (outcome : PiTurnOutcome) : PiTurnOutcome :=
  match outcome with
  | Failed reason => if includes PI_FAILED_REASONS reason then outcome else Failed "pi-output-malformed"
  | _ => outcome
  end.

Definition turn_outcome (turn : ActiveTurn) (run : TurnRun) (tracker : PiTurnOutcomeTracker) (promptFailed : bool) : PiTurnOutcome :=
  match at_failure turn, tr_setupFailure run with
  | Some reason, _ => Failed reason
  | None, Some reason => if at_interrupted turn then finish_turn tracker true promptFailed (tr_route run) else Failed reason
  | None, None => finish_turn tracker (at_interrupted turn) promptFailed (tr_route run)
  end.

Definition is_completed (outcome : PiTurnOutcome) : bool := match outcome with Completed _ => true | _ => false end.

(** From the end of the prompt, or of a preparation without one, to the proof of the handle. *)
Definition conclude (run : TurnRun) (tracker : PiTurnOutcomeTracker) (promptFailed : bool) (ids : list jsstr) (h : Host) : Host :=
  match hs_turns h !! tr_turn run with
  | Some turn =>
    let outcome := checked (turn_outcome turn run tracker promptFailed) in
    await (KProving run outcome ids
             (if is_completed outcome && negb (tr_established run) then Promote (hs_session h)
              else Prove (bool_decide (is_Some (hs_binding h ≫= bd_handle))))) h
  | None => h
  end.

Definition with_failure (run : TurnRun) (reason : string) : TurnRun :=
  {| tr_turn := tr_turn run; tr_established := tr_established run; tr_route := tr_route run; tr_setupFailure := Some reason |}.

Definition prepared (run : TurnRun) (how : Prepared) (entries : list SessionEntry) (h : Host) : Host :=
  match hs_turns h !! tr_turn run with
  | Some turn =>
    let how := match how with
               | PReady late | PEffortRefused late => if negb late && (cancelled turn || bool_decide (hs_state h = SClosing)) then PCancelled else how
               | _ => how
               end in
    let h := set_session (hs_session h) false (alter_turn set_prepared (tr_turn run) h) in
    match how with
    | PReady _ =>
      if cancelled turn then conclude run new_tracker false (compaction_ids [] entries) (model_selected h)
      else await (KPrompting run (se_id <$> entries) new_tracker) (model_selected h)
    | PEffortRefused _ => conclude (with_failure run "pi-setup-failed") new_tracker false (compaction_ids [] entries) (model_selected h)
    | PCancelled => conclude run new_tracker false [] h
    | PIdentityFailed => conclude (with_failure run "pi-identity-failed") new_tracker false [] h
    | PSetupFailed => conclude (with_failure run "pi-setup-failed") new_tracker false [] h
    end
  | None => h
  end.

(** The effective reasoning effort of the session. *)
Definition effective_effort (thinkingLevel : option jsstr) : jsstr :=
  match thinkingLevel with
  | Some level =>
    let level := if bool_decide (level = js "off") then js "none" else level in
    if is_effort level then level else js "unknown"
  | None => js "unknown"
  end.

Definition set_handle (handle : PiSessionHandle) (b : Binding) : Binding :=
  {| bd_handle := Some handle; bd_model := bd_model b; bd_modelPending := bd_modelPending b; bd_request := bd_request b; bd_sessionPath := bd_sessionPath b |}.

(** The answer of the proof: the binding it leaves and the handle it shows. *)
Definition obtain_handle (proof : HandleProof) (ok : bool) (h : Host) : Host * option HostNativeHandle :=
  match proof with
  | Prove had => (h, proved had ok h)
  | Promote (Some sessionId) =>
    match hs_binding h with
    | Some b =>
      if ok then
        let handle := {| sh_cwd := or_workingDirectory (bd_request b); sh_path := bd_sessionPath b; sh_sessionId := sessionId |} in
        (set_binding (Some (set_handle handle b)) h, Some (readyOrPending (Some handle)))
      else (h, None)
    | None => (h, None)
    end
  | Promote None => (h, None)
  end.

Definition settle (run : TurnRun) (outcome : PiTurnOutcome) (ids : list jsstr) (proof : HandleProof) (ok : bool) (level : option jsstr) (h : Host) : Host :=
  let '(h, shown) := obtain_handle proof ok h in
  let '(nativeHandle, outcome, h) :=
    match shown with
    | Some handle => (handle, outcome, h)
    | None => (Unknown, Failed "pi-identity-failed", alter_turn (set_failure "pi-identity-failed") (tr_turn run) h)
    end in
  match hs_turns h !! tr_turn run with
  | Some turn =>
    let fenced := bool_decide (is_Some (at_failure turn)) || bool_decide (is_Some (tr_setupFailure run))
                  || (negb (tr_established run) && negb (bool_decide (is_Some (hs_binding h ≫= bd_handle)))) in
    let h := set_turn None (hs_turns h) h in
    let h := if bool_decide (hs_state h = SActive) then set_state (if fenced then SFailed else SOpen) h else h in
    alter_turn (set_done outcome) (tr_turn run) (emit (TurnSettled ids nativeHandle outcome (effective_effort level) (at_turnId turn)) h)
  | None => h
  end.

(** *** Closing *)

Definition after_stop (id : option spec_float) (h : Host) : Host :=
  match id, hs_binding h with
  | None, _ => set_state SClosed h
  | Some id, Some b => await (KReporting id (bool_decide (is_Some (bd_handle b)))) h
  | Some id, None => onClosed (respond id [("nativeHandle", handle_json Pending); ("state", JStr (js "closed"))] (set_state SClosed h))
  end.

Definition release (id : option spec_float) (h : Host) : Host :=
  match hs_session h with
  | Some _ => await (KReleasing id) (set_session None (hs_awaitingOpenKitMcp h) h)
  | None => after_stop id h
  end.

Definition stop (id : option spec_float) (h : Host) : Host :=
  match hs_turn h with
  | Some n => await (KStopping id n) (cancelTurn (alter_turn set_interrupted n h))
  | None => release id h
  end.

Definition status_text (o : PiTurnOutcome) : string :=
  match o with Completed _ => "completed" | Failed _ => "failed" | Length => "length" | Interrupted => "interrupted" end.

(** *** One answer to one task; [None] where the task is not waiting for it. *)
Definition resume (task : Task) (answer : Answer) (h : Host) : option Host :=
  match task, answer with
  | KOpening request, AOpened proof allocation runtime => Some (opened request proof allocation runtime h)
  | KInspecting id had, AFile ok => Some (inspected id had ok h)
  | KInspectingFailed id had, AFile ok =>
    Some (respond id [("nativeHandle", handle_json (reported had ok h)); ("state", JStr (js "failed")); ("turnId", JNull)] h)
  | KLatching id, ADone => Some (fail id IdentityFailed "Pi session header proof failed." h)
  | KPreparing run, ASessionCreated sessionId =>
    match hs_session h, hs_awaitingOpenKitMcp h with
    | None, false => Some (await task (model_selected (set_session (Some sessionId) false h)))
    | _, _ => None
    end
  | KPreparing _, AAwaitingMcp =>
    match hs_session h with Some s => Some (await task (set_session (Some s) true h)) | None => None end
  | KPreparing run, APrepared how entries => Some (prepared run how entries h)
  | KPrompting run earlier tracker, ASessionEvent event =>
    match hs_turns h !! tr_turn run with
    | Some turn => Some (await (KPrompting run earlier (observe tracker event)) (emit (forwardNative (secrets_of h) (at_turnId turn) event) h))
    | None => None
    end
  | KPrompting run earlier tracker, APrompted failed entries => Some (conclude run tracker failed (compaction_ids earlier entries) h)
  | KProving run outcome ids proof, ASettled ok level => Some (settle run outcome ids proof ok level h)
  | KCancelling id n, ADone => Some (await (KInterrupting id n) h)
  | KInterrupting id n, ADone =>
    outcome ← (hs_turns h !! n ≫= at_done); Some (respond id [("outcome", JStr (js (status_text outcome)))] h)
  | KClosing id, ADone => if hs_opening h then None else Some (stop id h)
  | KStopping id n, ADone => Some (await (KStopped id n) h)
  | KStopped id n, ADone => _ ← (hs_turns h !! n ≫= at_done); Some (release id h)
  | KReleasing id, ADone => Some (after_stop id h)
  | KReporting id had, AFile ok =>
    Some (onClosed (respond id [("nativeHandle", handle_json (reported had ok h)); ("state", JStr (js "closed"))] (set_state SClosed h)))
  | _, _ => None
  end.

Inductive Input := IRequest (request : HostRequest) | IAbandon | IAnswer (task : nat) (answer : Answer).

Definition host_step (h : Host) (input : Input) : option Host :=
  match input with
  | IRequest request => Some (dispatch request h)
  | IAbandon => Some (abandon h)
  | IAnswer k answer => task ← hs_tasks h !! k; resume task answer (set_tasks (delete k (hs_tasks h)) h)
  end.

Fixpoint host_run (h : Host) (inputs : list Input) : option Host :=
  match inputs with
  | [] => Some h
  | input :: inputs => h ← host_step h input; host_run h inputs
  end.

(** ** Answers owed *)

Definition answered_id (f : HostFrame) : option spec_float :=
  match f with Response id _ => Some id | Refusal _ _ id => id | _ => None end.
Definition task_id (t : Task) : option spec_float :=
  match t with
  | KOpening o => Some (or_id o)
  | KInspecting id _ | KInspectingFailed id _ | KLatching id | KCancelling id _ | KInterrupting id _ | KReporting id _ => Some id
  | KClosing id | KStopping id _ | KStopped id _ | KReleasing id => id
  | KPreparing _ | KPrompting _ _ _ | KProving _ _ _ _ => None
  end.

(** The requests that are answered or pending. *)
Definition owed (h : Host) : list spec_float := omap answered_id (hs_sent h) ++ omap task_id (hs_tasks h).

Lemma owed_emit f h : owed (emit f h) ≡ₚ option_list (answered_id f) ++ owed h.
Proof.
  unfold owed, emit. cbn [hs_sent hs_tasks]. rewrite omap_app. cbn [omap list_omap]. rewrite <-app_assoc, (Permutation_app_comm (omap answered_id (hs_sent h))), <-app_assoc.
  rewrite (Permutation_app_comm (omap task_id _)). by destruct (answered_id f).
Qed.
Lemma owed_await t h : owed (await t h) ≡ₚ option_list (task_id t) ++ owed h.
Proof.
  unfold owed, await, set_tasks. cbn [hs_sent hs_tasks]. rewrite omap_app. cbn [omap list_omap]. rewrite app_assoc, Permutation_app_comm. by destruct (task_id t).
Qed.

Lemma owed_onClosed h : owed (onClosed h) = owed h.
Proof. done. Qed.

(** Splits the branches of an operation and counts. *)
Ltac count :=
  repeat case_match; simplify_eq; unfold respond, fail;
  repeat first [rewrite owed_onClosed | rewrite owed_emit | rewrite owed_await]; try reflexivity.

Lemma owed_cancelTurn h : owed (cancelTurn h) = owed h.
Proof. unfold cancelTurn. by case_match. Qed.

Lemma owed_conclude run tracker failed ids h n : hs_turns h !! tr_turn run = Some n → owed (conclude run tracker failed ids h) ≡ₚ owed h.
Proof. intros E. unfold conclude. rewrite E. by rewrite owed_await. Qed.

Lemma owed_after_stop id h : owed (after_stop id h) ≡ₚ option_list id ++ owed h.
Proof. unfold after_stop. count. Qed.
Lemma owed_release id h : owed (release id h) ≡ₚ option_list id ++ owed h.
Proof. unfold release. case_match; [by rewrite owed_await|apply owed_after_stop]. Qed.
Lemma owed_stop id h : owed (stop id h) ≡ₚ option_list id ++ owed h.
Proof. unfold stop. case_match; [|apply owed_release]. by rewrite owed_await, owed_cancelTurn. Qed.

Lemma owed_dispatch r h : owed (dispatch r h) ≡ₚ request_id r :: owed h.
Proof.
  unfold dispatch, open_request, inspect, configure, start_turn, interrupt, close.
  repeat case_match; simplify_eq; unfold respond, fail; rewrite ?owed_emit, ?owed_await, ?owed_emit, ?owed_cancelTurn; done.
Qed.

Lemma owed_inspected id had ok h : owed (inspected id had ok h) ≡ₚ id :: owed h.
Proof.
  unfold inspected. case_match; [unfold respond; by rewrite owed_emit|]. rewrite owed_await. cbn. f_equiv. unfold latchIdentityFailure.
  repeat case_match; rewrite ?owed_cancelTurn; done.
Qed.

Lemma owed_opened o p al rt h : owed (opened o p al rt h) ≡ₚ or_id o :: owed h.
Proof. unfold opened. change (owed (set_opening false ?x)) with (owed x). repeat case_match; unfold fail, respond; rewrite owed_emit; done. Qed.

Lemma owed_prepared run how entries h t : hs_turns h !! tr_turn run = Some t → owed (prepared run how entries h) ≡ₚ owed h.
Proof.
  intros E. unfold prepared. rewrite E. set (how' := match how with PReady _ => _ | _ => _ end). clearbody how'.
  assert (∀ r, tr_turn r = tr_turn run → is_Some (hs_turns (set_session (hs_session h) false (alter_turn set_prepared (tr_turn run) h)) !! tr_turn r)) as Ht.
  { intros r ->. cbn. rewrite list_lookup_alter_eq, E. exists (set_prepared t). done. }
  destruct how'; [destruct (cancelled t); [|by rewrite owed_await]|..].
  all: edestruct Ht as [t' Ht']; [|erewrite owed_conclude; [|exact Ht']]; try reflexivity.
Qed.

Lemma owed_settle run o ids proof ok level h t : hs_turns h !! tr_turn run = Some t → owed (settle run o ids proof ok level h) ≡ₚ owed h.
Proof.
  intros E. unfold settle. destruct (obtain_handle proof ok h) as [h' shown] eqn:Eo.
  assert (hs_turns h' = hs_turns h ∧ owed h' = owed h) as [Et <-] by (unfold obtain_handle in Eo; repeat case_match; by simplify_eq).
  destruct shown as [handle|]; [rewrite Et, E|cbn [hs_turns alter_turn set_turn]; rewrite list_lookup_alter_eq, Et, E; cbn [fmap option_fmap option_map]];
    unfold alter_turn; change (owed (set_turn ?a ?b ?x)) with (owed x); rewrite owed_emit; by case_match.
Qed.

(** ** One Turn at a time *)

Definition task_run (t : Task) : option nat :=
  match t with KPreparing run | KPrompting run _ _ | KProving run _ _ _ => Some (tr_turn run) | _ => None end.
(** The turn whose settlement a task is waiting for, or will be. *)
Definition task_waits (t : Task) : option nat :=
  match t with KCancelling _ n | KInterrupting _ n | KStopping _ n | KStopped _ n => Some n | _ => None end.
Definition is_opening (t : Task) : bool := match t with KOpening _ => true | _ => false end.
Definition settled_turn (f : HostFrame) : option jsstr := match f with TurnSettled _ _ _ _ turnId => Some turnId | _ => None end.
Definition settled (h : Host) : list jsstr := omap settled_turn (hs_sent h).
Definition current_id (h : Host) : option jsstr := hs_turn h ≫= λ n, at_turnId <$> hs_turns h !! n.
Definition before_turns (s : HostState) : bool := match s with SUnopened | SOpening | SOpen => true | _ => false end.

(** The turns of a host whose pending tasks are those of the queue and [extra]. *)
Record turn_inv (extra : list Task) (h : Host) : Prop := {
  ti_runs : omap task_run (extra ++ hs_tasks h) ≡ₚ option_list (hs_turn h);
  ti_settled : at_turnId <$> hs_turns h = settled h ++ option_list (current_id h);
  ti_last n : hs_turn h = Some n → S n = length (hs_turns h);
  ti_idle : before_turns (hs_state h) = true → hs_turn h = None;
  ti_done n t : hs_turns h !! n = Some t → hs_turn h ≠ Some n → is_Some (at_done t);
  ti_waits t n : t ∈ extra ++ hs_tasks h → task_waits t = Some n → (n < length (hs_turns h))%nat;
  ti_opening : hs_opening h = true → ∃ t, t ∈ extra ++ hs_tasks h ∧ is_opening t = true;
}.

Lemma inv_tasks extra extra' h h' : extra ++ hs_tasks h ≡ₚ extra' ++ hs_tasks h' →
  hs_turn h = hs_turn h' → hs_turns h = hs_turns h' → hs_state h = hs_state h' → hs_opening h = hs_opening h' → hs_sent h = hs_sent h' →
  turn_inv extra h → turn_inv extra' h'.
Proof.
  intros Hp E1 E2 E3 E4 E5 []. unfold settled, current_id in *. rewrite E1, E2, E3, E4, E5 in *. split; try done.
  - by rewrite <-Hp.
  - intros t n. rewrite <-Hp. apply ti_waits0.
  - setoid_rewrite <-Hp. done.
Qed.

Lemma inv_await t extra h : turn_inv (t :: extra) h → turn_inv extra (await t h).
Proof. apply inv_tasks; try done. cbn. by rewrite app_assoc, <-Permutation_cons_append. Qed.

Lemma inv_take k t h : hs_tasks h !! k = Some t → turn_inv [] h → turn_inv [t] (set_tasks (delete k (hs_tasks h)) h).
Proof. intros Hk. apply inv_tasks; try done. cbn. by apply delete_Permutation. Qed.

Lemma inv_emit f extra h : settled_turn f = None → turn_inv extra h → turn_inv extra (emit f h).
Proof.
  intros Hf []. split; try done. unfold settled, emit in *. cbn [hs_sent hs_turns]. rewrite omap_app. cbn [omap list_omap]. rewrite Hf, app_nil_r. done.
Qed.

Lemma inv_state s extra h : (before_turns s = true → hs_turn h = None) → turn_inv extra h → turn_inv extra (set_state s h).
Proof. intros Hs []. by split. Qed.

Lemma inv_add t extra h : task_run t = None → (∀ n, task_waits t = Some n → (n < length (hs_turns h))%nat) → turn_inv extra h → turn_inv (t :: extra) h.
Proof.
  intros Hr Hw []. split; try done; cbn [app omap list_omap] in *; rewrite ?Hr; try done.
  - intros t' n [->|Ht]%elem_of_cons; [apply Hw|by apply ti_waits0].
  - intros Ho. destruct (ti_opening0 Ho) as (t' & ? & ?). exists t'. split; [by right|done].
Qed.

Lemma inv_drop t extra h : task_run t = None → (is_opening t = true → hs_opening h = false) → turn_inv (t :: extra) h → turn_inv extra h.
Proof.
  intros Hr Ho []. cbn [app omap list_omap] in *. rewrite Hr in *. split; try done.
  - intros t' n Ht. apply ti_waits0. by right.
  - intros E. destruct (ti_opening0 E) as (t' & [->|Ht]%elem_of_cons & Hk); [by rewrite Ho in E|by exists t'].
Qed.

Lemma inv_swap t t' extra h : task_run t = task_run t' → task_waits t' = None → is_opening t = false → turn_inv (t :: extra) h → turn_inv (t' :: extra) h.
Proof.
  intros Hr Hw Ho []. cbn [app omap list_omap] in *. rewrite Hr in *. split; try done.
  - intros u n [->|Hu]%elem_of_cons; [by rewrite Hw|apply ti_waits0; by right].
  - intros E. destruct (ti_opening0 E) as (u & [->|Hu]%elem_of_cons & Hk); [congruence|exists u; split; [by right|done]].
Qed.

Lemma inv_session extra s a h : turn_inv extra (set_session s a h) ↔ turn_inv extra h.
Proof. split; by apply inv_tasks. Qed.
Lemma inv_binding extra b h : turn_inv extra (set_binding b h) ↔ turn_inv extra h.
Proof. split; by apply inv_tasks. Qed.
Lemma inv_exit extra h : turn_inv extra (onClosed h) ↔ turn_inv extra h.
Proof. split; by apply inv_tasks. Qed.

Lemma inv_cancel extra h : turn_inv extra h → turn_inv extra (cancelTurn h).
Proof. intros H. unfold cancelTurn. case_match; [by apply inv_session|done]. Qed.

Lemma alter_ids (f : ActiveTurn → ActiveTurn) (n : nat) (turns : list ActiveTurn) : (∀ t, at_turnId (f t) = at_turnId t) → at_turnId <$> alter f n turns = at_turnId <$> turns.
Proof. intros Hf. revert n. induction turns as [|t turns IH]; intros [|n]; cbn; [done..|by rewrite Hf|]. f_equal. apply IH. Qed.

Lemma alter_id_at (f : ActiveTurn → ActiveTurn) (n : nat) (turns : list ActiveTurn) (m : nat) : (∀ t, at_turnId (f t) = at_turnId t) → at_turnId <$> alter f n turns !! m = at_turnId <$> turns !! m.
Proof. intros Hf. rewrite <-!list_lookup_fmap. by rewrite alter_ids. Qed.

Lemma inv_alter f n extra h : (∀ t, at_turnId (f t) = at_turnId t) → (∀ t, is_Some (at_done t) → is_Some (at_done (f t))) →
  turn_inv extra h → turn_inv extra (alter_turn f n h).
Proof.
  intros Hf Hd []. split; try done; cbn [alter_turn set_turn hs_turn hs_turns hs_tasks] in *; rewrite ?length_alter; try done.
  - rewrite alter_ids by done. unfold current_id in *. cbn [alter_turn set_turn hs_turn hs_turns]. rewrite ti_settled0. f_equal. f_equal.
    destruct (hs_turn h); [|done]. cbn. by rewrite alter_id_at.
  - intros m t Hm Hn. rewrite list_lookup_alter in Hm. case_decide; subst; [|by eapply ti_done0].
    apply fmap_Some in Hm as (t0 & Ht0 & ->). apply Hd. by eapply ti_done0.
Qed.

Lemma inv_start_opening o extra h : turn_inv extra h → turn_inv (KOpening o :: extra) (set_opening true h).
Proof. intros H. pose proof (inv_add (KOpening o) extra h eq_refl) as []; [done..|]. split; try done. intros _. exists (KOpening o). split; [by left|done]. Qed.

Lemma inv_start_turn id turnId h : turn_inv [] h → turn_inv [] (start_turn id turnId h).
Proof.
  intros H. unfold start_turn. destruct (hs_state h) eqn:Es; try (unfold fail; by apply inv_emit).
  destruct (hs_binding h) as [b|]; [|unfold fail; by apply inv_emit]. apply inv_await. unfold respond. apply inv_emit; [done|].
  destruct H. assert (hs_turn h = None) as Hn by (apply ti_idle0; by rewrite Es). split; cbn [set_state set_turn hs_turn hs_turns hs_tasks hs_state hs_opening]; try done.
  - cbn [app omap list_omap task_run tr_turn] in *. rewrite Hn in ti_runs0. cbn in ti_runs0. apply Permutation_nil_r in ti_runs0. by rewrite ti_runs0.
  - rewrite fmap_app. unfold current_id in *. cbn [set_state set_turn hs_turn hs_turns mbind option_bind]. rewrite Hn in ti_settled0. cbn in ti_settled0.
    rewrite app_nil_r in ti_settled0. rewrite ti_settled0, lookup_app_r, Nat.sub_diag by done. done.
  - intros n [= <-]. rewrite length_app. cbn. lia.
  - intros n t Hl Hne. apply lookup_app_Some in Hl as [Hl|[Hle Hl]]; [apply (ti_done0 n); [done|by rewrite Hn]|].
    destruct (n - length (hs_turns h))%nat eqn:E; [|done]. replace n with (length (hs_turns h)) in Hne by lia. done.
  - intros t n Ht Hw. rewrite length_app. cbn [app] in Ht. apply elem_of_cons in Ht as [->|Ht]; [done|]. pose proof (ti_waits0 t n Ht Hw). lia.
  - intros Ho. destruct (ti_opening0 Ho) as (t & Ht & ?). exists t. split; [by right|done].
Qed.

Lemma inv_open_request o h : turn_inv [] h → turn_inv [] (open_request o h).
Proof.
  intros H. unfold open_request. case_bool_decide as Es; [|unfold fail; by apply inv_emit].
  apply inv_await, inv_start_opening, inv_state; [|done]. intros _. apply H. by rewrite Es.
Qed.

Lemma inv_interrupt_turn n extra h : hs_turn h = Some n → turn_inv extra h →
  turn_inv extra (cancelTurn (alter_turn set_interrupted n h)) ∧ (n < length (hs_turns (cancelTurn (alter_turn set_interrupted n h))))%nat.
Proof.
  intros Hn H. split; [apply inv_cancel; by apply inv_alter|]. pose proof (ti_last _ _ H n Hn).
  unfold cancelTurn. case_match; cbn; rewrite length_alter; lia.
Qed.

Lemma inv_interrupt id turnId h : turn_inv [] h → turn_inv [] (interrupt id turnId h).
Proof.
  intros H. unfold interrupt, respond. destruct (hs_turn h ≫= _) as [[n turn]|] eqn:E; [|by apply inv_emit].
  case_bool_decide; [|by apply inv_emit]. apply bind_Some in E as (m & Hm & (t & _ & [= <- <-])%fmap_Some).
  destruct (inv_interrupt_turn n [] h Hm H) as [Hi Hl]. apply inv_await, inv_add; [done| |done]. by intros ? [= <-].
Qed.

Lemma turn_inv_dispatch r h : turn_inv [] h → turn_inv [] (dispatch r h).
Proof.
  intros H. unfold dispatch.
  assert (turn_inv [] (match r with ROpen o => open_request o h | RInspect id => inspect id h | RConfigure id model => configure id model h
    | RTurn id turnId => start_turn id turnId h | RInterrupt id turnId => interrupt id turnId h | RClose id => close id h end)) as Hr.
  { destruct r; [by apply inv_open_request| | |by apply inv_start_turn|by apply inv_interrupt|].
    - unfold inspect, fail. repeat case_match; (by apply inv_emit) || (by apply inv_await, inv_add).
    - unfold configure, respond, fail. repeat case_match; apply inv_emit; try done; by apply inv_binding.
    - apply inv_await, inv_add; [done..|]. by apply inv_state. }
  by destruct (hs_state h); try done; apply inv_emit.
Qed.

Lemma inv_abandon h : turn_inv [] h → turn_inv [] (abandon h).
Proof. intros H. unfold abandon. destruct (hs_state h); try done; (apply inv_await, inv_add; [done..|]; by apply inv_state). Qed.

(** A task of the current Turn. *)
Lemma inv_run t n extra h : task_run t = Some n → turn_inv (t :: extra) h →
  hs_turn h = Some n ∧ omap task_run (extra ++ hs_tasks h) = [] ∧ is_Some (hs_turns h !! n).
Proof.
  intros Ht []. cbn [app omap list_omap] in ti_runs0. rewrite Ht in ti_runs0.
  destruct (hs_turn h) as [m|]; cbn in ti_runs0; [|by apply Permutation_nil_r in ti_runs0].
  apply Permutation_singleton_r in ti_runs0. injection ti_runs0 as -> Hr. split_and!; [done..|].
  apply lookup_lt_is_Some. specialize (ti_last0 m eq_refl). lia.
Qed.

Lemma inv_conclude t run tracker failed ids extra h : task_run t = Some (tr_turn run) → is_opening t = false →
  turn_inv (t :: extra) h → turn_inv extra (conclude run tracker failed ids h).
Proof.
  intros Ht Ho H. destruct (inv_run t _ extra h Ht H) as (_ & _ & [turn E]). unfold conclude. rewrite E. apply inv_await. by eapply inv_swap.
Qed.

Lemma inv_prepared run how entries h : turn_inv [KPreparing run] h → turn_inv [] (prepared run how entries h).
Proof.
  intros H. destruct (inv_run (KPreparing run) (tr_turn run) [] h eq_refl H) as (_ & _ & [turn E]). unfold prepared. rewrite E.
  set (how' := match how with PReady _ => _ | _ => _ end). clearbody how'.
  assert (turn_inv [KPreparing run] (set_session (hs_session h) false (alter_turn set_prepared (tr_turn run) h))) as H'
    by (apply inv_session; by apply inv_alter).
  destruct how'; [destruct (cancelled turn)|..].
  - apply (inv_conclude (KPreparing run)); [done..|]. by apply inv_binding.
  - apply inv_await, (inv_swap (KPreparing run)); [done..|]. by apply inv_binding.
  - apply (inv_conclude (KPreparing run)); [done..|]. by apply inv_binding.
  - by apply (inv_conclude (KPreparing run)).
  - by apply (inv_conclude (KPreparing run)).
  - by apply (inv_conclude (KPreparing run)).
Qed.

Lemma inv_settled t n turn f o h : task_run t = Some n → is_opening t = false → hs_turns h !! n = Some turn → settled_turn f = Some (at_turnId turn) →
  turn_inv [t] h → turn_inv [] (alter_turn (set_done o) n (emit f (set_turn None (hs_turns h) h))).
Proof.
  intros Ht Hop Hl Hf H. destruct (inv_run t n [] h Ht H) as (Hn & Hr & _). destruct H. cbn [app] in *.
  split; cbn [alter_turn emit set_turn hs_turn hs_turns hs_tasks hs_opening app] in *; rewrite ?length_alter; try done.
  - by rewrite Hr.
  - rewrite alter_ids by done. unfold settled, current_id in *. cbn [alter_turn emit set_turn hs_turn hs_turns hs_sent] in *.
    rewrite omap_app. cbn [omap list_omap]. rewrite Hf. rewrite Hn in ti_settled0. cbn in ti_settled0. rewrite Hl in ti_settled0. cbn in ti_settled0.
    by rewrite app_nil_r.
  - intros m t' Hm _. rewrite list_lookup_alter in Hm. case_decide as E.
    + apply fmap_Some in Hm as (? & _ & ->). by eexists.
    + apply (ti_done0 m); [done|]. rewrite Hn. congruence.
  - intros u m Hu. apply ti_waits0. by right.
  - intros Eo. destruct (ti_opening0 Eo) as (u & [->|Hu]%elem_of_cons & Hk); [congruence|by exists u].
Qed.

Lemma turn_inv_settle run o ids proof ok level h : turn_inv [KProving run o ids proof] h → turn_inv [] (settle run o ids proof ok level h).
Proof.
  intros H. unfold settle. destruct (obtain_handle proof ok h) as [h1 shown] eqn:Eo.
  assert (turn_inv [KProving run o ids proof] h1) as H1.
  { unfold obtain_handle in Eo. repeat case_match; simplify_eq; try done. by apply inv_binding. }
  assert (∀ nh o' h2, turn_inv [KProving run o ids proof] h2 → turn_inv []
    (match hs_turns h2 !! tr_turn run with
     | Some turn =>
       let fenced := bool_decide (is_Some (at_failure turn)) || bool_decide (is_Some (tr_setupFailure run))
                  || (negb (tr_established run) && negb (bool_decide (is_Some (hs_binding h2 ≫= bd_handle)))) in
       let h := set_turn None (hs_turns h2) h2 in
       let h := if bool_decide (hs_state h = SActive) then set_state (if fenced then SFailed else SOpen) h else h in
       alter_turn (set_done o') (tr_turn run) (emit (TurnSettled ids nh o' (effective_effort level) (at_turnId turn)) h)
     | None => h2 end)) as Hgen.
  { intros nh o' h2 H2. destruct (inv_run (KProving run o ids proof) (tr_turn run) [] h2 eq_refl H2) as (_ & _ & [turn E]). rewrite E. cbv zeta.
    pose proof (inv_settled (KProving run o ids proof) (tr_turn run) turn (TurnSettled ids nh o' (effective_effort level) (at_turnId turn)) o' h2 eq_refl eq_refl E eq_refl H2) as Hs.
    case_bool_decide; [|exact Hs].
    match goal with |- turn_inv _ (alter_turn _ _ (emit _ (set_state ?s _))) => apply (inv_state s []) in Hs; [exact Hs|done] end. }
  destruct shown as [handle|]; apply Hgen; [done|]. by apply inv_alter.
Qed.

Lemma inv_after_stop id extra h : turn_inv extra h → turn_inv extra (after_stop id h).
Proof.
  intros H. unfold after_stop, respond. repeat case_match; [by apply inv_await, inv_add| |by apply inv_state].
  apply inv_exit, inv_emit; [done|]. by apply inv_state.
Qed.
Lemma inv_release id extra h : turn_inv extra h → turn_inv extra (release id h).
Proof. intros H. unfold release. case_match; [|by apply inv_after_stop]. apply inv_await, inv_add; [done..|]. by apply inv_session. Qed.
Lemma inv_stop id extra h : turn_inv extra h → turn_inv extra (stop id h).
Proof.
  intros H. unfold stop. destruct (hs_turn h) as [n|] eqn:E; [|by apply inv_release].
  destruct (inv_interrupt_turn n extra h E H) as [Hi Hl]. apply inv_await, inv_add; [done| |done]. by intros ? [= <-].
Qed.

Lemma inv_opened o p al rt h : hs_turn h = None ∨ hs_state h ≠ SOpening → turn_inv [KOpening o] h → turn_inv [] (opened o p al rt h).
Proof.
  intros Hs H. unfold opened.
  assert (∀ h', turn_inv [KOpening o] h' → turn_inv [] (set_opening false h')) as Hclose.
  { intros h' []. split; try done. intros t n Ht. apply ti_waits0. by right. }
  apply Hclose. case_bool_decide as E; cbn [negb]; [|unfold fail; by apply inv_emit].
  destruct (open_result o p al rt) as [[handle path]|[code message]]; unfold respond, fail; apply inv_emit; try done.
  - apply inv_state; [intros _; destruct Hs; done|]. by apply inv_binding.
  - by apply inv_state.
Qed.

Lemma inv_inspected id had ok extra h : turn_inv extra h → turn_inv extra (inspected id had ok h).
Proof.
  intros H. unfold inspected. case_match; [unfold respond; by apply inv_emit|]. apply inv_await, inv_add; [done..|].
  assert (∀ h', turn_inv extra h' → turn_inv extra (match hs_turn h' with Some n => cancelTurn (alter_turn (set_failure "pi-identity-failed") n h') | None => h' end)) as Hc.
  { intros h' H'. case_match; [|done]. apply inv_cancel. by apply inv_alter. }
  unfold latchIdentityFailure. destruct (hs_state h); try done; apply Hc; by apply inv_state.
Qed.

(** The answered task goes. *)
Local Ltac drop_task := match goal with H : turn_inv [?t] ?h |- turn_inv [] ?h => by apply (inv_drop t) end.

(** Every answer keeps the turns in order. *)
Lemma turn_inv_resume task answer h h' : resume task answer h = Some h' → turn_inv [task] h → turn_inv [] h'.
Proof.
  intros Hr H. destruct task as [o|id had|id had|id|run|run earlier tracker|run o ids proof|id n|id n|id|id n|id n|id|id had], answer; try discriminate; cbn [resume] in Hr.
  - injection Hr as <-. apply inv_opened; [|done]. destruct (decide (hs_state h = SOpening)) as [E|]; [|by right].
    left. apply H. by rewrite E.
  - injection Hr as <-. apply inv_inspected. drop_task.
  - injection Hr as <-. unfold respond. apply inv_emit; [done|]. drop_task.
  - injection Hr as <-. unfold fail. apply inv_emit; [done|]. drop_task.
  - repeat case_match; simplify_eq. apply inv_await, inv_binding, inv_session. done.
  - repeat case_match; simplify_eq. apply inv_await, inv_session. done.
  - injection Hr as <-. by apply inv_prepared.
  - destruct (hs_turns h !! tr_turn run); simplify_eq. apply inv_await, inv_emit; [unfold forwardNative; by repeat case_match|]. by apply (inv_swap (KPrompting run earlier tracker)).
  - injection Hr as <-. by eapply (inv_conclude (KPrompting run earlier tracker)).
  - injection Hr as <-. by apply turn_inv_settle.
  - injection Hr as <-. apply inv_await. apply inv_add; [done| |drop_task]. intros ? [= <-]. eapply (ti_waits _ _ H); [by left|done].
  - apply bind_Some in Hr as (? & _ & [= <-]). unfold respond. apply inv_emit; [done|]. drop_task.
  - destruct (hs_opening h); simplify_eq. apply inv_stop. drop_task.
  - injection Hr as <-. apply inv_await. apply inv_add; [done| |drop_task]. intros ? [= <-]. eapply (ti_waits _ _ H); [by left|done].
  - apply bind_Some in Hr as (? & _ & [= <-]). apply inv_release. drop_task.
  - injection Hr as <-. apply inv_after_stop. drop_task.
  - injection Hr as <-. unfold respond. apply inv_exit, inv_emit; [done|]. apply inv_state; [done|]. drop_task.
Qed.

Lemma owed_resume task answer h h' : resume task answer h = Some h' → turn_inv [task] h → owed h' ≡ₚ option_list (task_id task) ++ owed h.
Proof.
  intros Hr H. destruct task as [o|id had|id had|id|run|run earlier tracker|run o ids proof|id n|id n|id|id n|id n|id|id had], answer; try discriminate;
    cbn [resume] in Hr; cbn [task_id option_list].
  - injection Hr as <-. apply owed_opened.
  - injection Hr as <-. apply owed_inspected.
  - injection Hr as <-. unfold respond. by rewrite owed_emit.
  - injection Hr as <-. unfold fail. by rewrite owed_emit.
  - repeat case_match; simplify_eq. by rewrite owed_await.
  - repeat case_match; simplify_eq. by rewrite owed_await.
  - injection Hr as <-. destruct (inv_run (KPreparing run) (tr_turn run) [] h eq_refl H) as (_ & _ & [t E]). by eapply owed_prepared.
  - destruct (hs_turns h !! tr_turn run); simplify_eq. rewrite owed_await, owed_emit. unfold forwardNative. by repeat case_match.
  - injection Hr as <-. destruct (inv_run (KPrompting run earlier tracker) (tr_turn run) [] h eq_refl H) as (_ & _ & [t E]). by eapply owed_conclude.
  - injection Hr as <-. destruct (inv_run (KProving run o ids proof) (tr_turn run) [] h eq_refl H) as (_ & _ & [t E]). by eapply owed_settle.
  - injection Hr as <-. by rewrite owed_await.
  - apply bind_Some in Hr as (? & _ & [= <-]). unfold respond. by rewrite owed_emit.
  - destruct (hs_opening h); simplify_eq. apply owed_stop.
  - injection Hr as <-. by rewrite owed_await.
  - apply bind_Some in Hr as (? & _ & [= <-]). apply owed_release.
  - injection Hr as <-. apply owed_after_stop.
  - injection Hr as <-. unfold respond. by rewrite owed_onClosed, owed_emit.
Qed.

(** The ids of the requests among the inputs. *)
Definition requests (inputs : list Input) : list spec_float := omap (λ i, match i with IRequest r => Some (request_id r) | _ => None end) inputs.

Lemma owed_take k t h : hs_tasks h !! k = Some t → owed h ≡ₚ option_list (task_id t) ++ owed (set_tasks (delete k (hs_tasks h)) h).
Proof.
  intros Hk. unfold owed. cbn [set_tasks hs_sent hs_tasks]. rewrite (delete_Permutation _ _ _ Hk) at 1. cbn [omap list_omap].
  destruct (task_id t); [|done]. cbn. by rewrite <-Permutation_middle.
Qed.

Lemma step_inv input h h' : host_step h input = Some h' → turn_inv [] h → turn_inv [] h' ∧ owed h' ≡ₚ requests [input] ++ owed h.
Proof.
  destruct input as [r| |k a]; cbn [host_step].
  - intros [= <-] H. split; [by apply turn_inv_dispatch|apply owed_dispatch].
  - intros [= <-] H. split; [by apply inv_abandon|]. unfold abandon. by case_match; rewrite ?owed_await.
  - intros (t & Hk & Hr)%bind_Some H. pose proof (inv_take k t h Hk H) as Ht. split; [by eapply turn_inv_resume|].
    rewrite (owed_resume _ _ _ _ Hr Ht). cbn. symmetry. by apply owed_take.
Qed.

Lemma host_run_inv inputs h h' : host_run h inputs = Some h' → turn_inv [] h → turn_inv [] h' ∧ owed h' ≡ₚ requests inputs ++ owed h.
Proof.
  revert h. induction inputs as [|i inputs IH]; intros h; cbn [host_run]; [by intros [= <-]|]. intros (h1 & Hs & Hr)%bind_Some H.
  destruct (step_inv i h h1 Hs H) as [H1 Ho]. destruct (IH h1 Hr H1) as [H2 Ho2]. split; [done|]. rewrite Ho2, Ho.
  change (requests (i :: inputs)) with (requests ([i] ++ inputs)). unfold requests. rewrite omap_app, !app_assoc. by rewrite (Permutation_app_comm (omap _ inputs)).
Qed.

Lemma new_host_inv : turn_inv [] new_host.
Proof. split; try done. by intros ? ? ?%elem_of_nil. Qed.

(** A task that can be answered whatever the others do. *)
Definition answerable (h : Host) (t : Task) : Prop := ∀ h', hs_turns h' = hs_turns h → hs_opening h' = hs_opening h → ∃ a, is_Some (resume t a h').

Lemma run_answerable h t n : task_run t = Some n → answerable h t.
Proof.
  intros Ht h' _ _. destruct t; try done.
  - by exists (APrepared (PReady false) []).
  - by exists (APrompted false []).
  - by exists (ASettled true None).
Qed.

Lemma task_answerable h t : answerable h t ∨ (∃ n, task_waits t = Some n ∧ hs_turns h !! n ≫= at_done = None) ∨ (hs_opening h = true).
Proof.
  destruct t as [o|id had|id had|id|run|run earlier tracker|run o ids proof|id n|id n|id|id n|id n|id|id had].
  1: left; intros h' _ _; by exists (AOpened true (Err None) true).
  1,2: left; intros h' _ _; by exists (AFile true).
  1: left; intros h' _ _; by exists ADone.
  1,2,3: left; by eapply run_answerable.
  - left; intros h' _ _; by exists ADone.
  - destruct (hs_turns h !! n ≫= at_done) as [o|] eqn:E; [left|right; left; by exists n]. intros h' Ht _. exists ADone. cbn [resume]. rewrite Ht, E. by eexists.
  - destruct (hs_opening h) eqn:E; [by right; right|left]. intros h' _ Ho. exists ADone. cbn [resume]. rewrite Ho, E. by eexists.
  - left; intros h' _ _; by exists ADone.
  - destruct (hs_turns h !! n ≫= at_done) as [o|] eqn:E; [left|right; left; by exists n]. intros h' Ht _. exists ADone. cbn [resume]. rewrite Ht, E. by eexists.
  - left; intros h' _ _; by exists ADone.
  - left; intros h' _ _; by exists (AFile true).
Qed.

(** No task waits for another that cannot go on. *)
Lemma host_progress h : turn_inv [] h → hs_tasks h ≠ [] → ∃ k a, is_Some (host_step h (IAnswer k a)).
Proof.
  intros H Hne. assert (∃ t, t ∈ hs_tasks h ∧ answerable h t) as (t & [k Hk]%list_elem_of_lookup_1 & Ha).
  { destruct (hs_tasks h) as [|t ts] eqn:Et; [done|]. assert (t ∈ hs_tasks h) as Hin by (rewrite Et; by left). rewrite <-Et. clear Et Hne.
    destruct (task_answerable h t) as [Ha|[(n & Hw & Hd)|Ho]]; [by exists t|..].
    - pose proof (ti_waits _ _ H t n Hin Hw) as Hn. apply lookup_lt_is_Some in Hn as [turn E]. rewrite E in Hd. cbn in Hd.
      destruct (decide (hs_turn h = Some n)) as [Ec|Ec]; [|destruct (ti_done _ _ H n turn E Ec); congruence].
      pose proof (ti_runs _ _ H) as Hr. cbn [app] in Hr. rewrite Ec in Hr. cbn in Hr.
      assert (n ∈ omap task_run (hs_tasks h)) as (u & Hu & Hrun)%list_elem_of_omap by (rewrite Hr; by left).
      exists u. split; [done|]. by eapply run_answerable.
    - destruct (ti_opening _ _ H Ho) as (u & Hu & Hk). exists u. split; [done|]. destruct u; try done. intros h' _ _. by exists (AOpened true (Err None) true). }
  destruct (Ha (set_tasks (delete k (hs_tasks h)) h)) as [a Hs]; [done..|]. exists k, a. cbn [host_step]. rewrite Hk. cbn. done.
Qed.

(** ** The handle of the conversation *)

(** The native handle that a frame shows. *)
Definition shown_handle (f : HostFrame) : option jsval :=
  match f with
  | Response _ ms => lookup_member (js "nativeHandle") ms
  | TurnSettled _ handle _ _ _ => Some (handle_json handle)
  | _ => None
  end.

Definition bound_handle (h : Host) : option PiSessionHandle := hs_binding h ≫= bd_handle.

(** A handle may be shown when it says nothing or is the one of the binding. *)
Definition showable (h : Host) (v : jsval) : Prop :=
  v = handle_json Pending ∨ v = handle_json Unknown ∨ ∃ hd, bound_handle h = Some hd ∧ v = handle_json (readyOrPending (Some hd)).

(** Where the handle of a binding comes from: the request that resumes it, or a completed first Turn. *)
Definition earned (sent : list HostFrame) (b : Binding) (hd : PiSessionHandle) : Prop :=
  match or_resume (bd_request b) with
  | Some text => parsePiSessionHandle text (or_stateRoot (bd_request b)) = Ok hd ∧ sh_cwd hd = or_workingDirectory (bd_request b)
  | None => ∃ ids t effort turnId, TurnSettled ids (readyOrPending (Some hd)) (Completed t) effort turnId ∈ sent
  end.

(** What the task of a Turn knows about the handle. *)
Definition run_handle (h : Host) (t : Task) : Prop :=
  match t with
  | KPreparing run | KPrompting run _ _ => ∃ b, hs_binding h = Some b ∧ tr_established run = bool_decide (is_Some (bd_handle b))
  | KProving run o _ proof =>
    ∃ b, hs_binding h = Some b ∧ tr_established run = bool_decide (is_Some (bd_handle b)) ∧
    match proof with Promote _ => tr_established run = false ∧ is_completed o = true | Prove _ => True end
  | _ => True
  end.

Record handle_inv (extra : list Task) (h : Host) : Prop := {
  hi_shown f v : f ∈ hs_sent h → shown_handle f = Some v → showable h v;
  hi_earned b hd : hs_binding h = Some b → bd_handle b = Some hd → earned (hs_sent h) b hd;
  hi_new b : hs_binding h = Some b → bd_handle b = None → or_resume (bd_request b) = None;
  hi_runs t : t ∈ extra ++ hs_tasks h → run_handle h t;
  hi_early : hs_state h = SUnopened ∨ hs_state h = SOpening → hs_binding h = None;
}.

Lemma hinv_tasks extra extra' h h' : extra' ++ hs_tasks h' ⊆ extra ++ hs_tasks h →
  hs_binding h = hs_binding h' → hs_state h = hs_state h' → hs_sent h = hs_sent h' → handle_inv extra h → handle_inv extra' h'.
Proof.
  intros Hp E1 E2 E3 []. unfold showable, bound_handle, run_handle in *. rewrite E1, E2, E3 in *. split; try done.
  intros t Ht. specialize (hi_runs0 t (Hp t Ht)). done.
Qed.

Lemma hinv_await t extra h : handle_inv (t :: extra) h → handle_inv extra (await t h).
Proof. apply hinv_tasks; try done. cbn. set_solver. Qed.

Lemma hinv_add t extra h : run_handle h t → handle_inv extra h → handle_inv (t :: extra) h.
Proof. intros Ht []. split; try done. cbn [app]. intros u [->|Hu]%elem_of_cons; auto. Qed.

Lemma hinv_drop t extra h : handle_inv (t :: extra) h → handle_inv extra h.
Proof. apply hinv_tasks; try done. set_solver. Qed.

Lemma hinv_take k t h : hs_tasks h !! k = Some t → handle_inv [] h → handle_inv [t] (set_tasks (delete k (hs_tasks h)) h).
Proof. intros Hk. apply hinv_tasks; try done. cbn. intros u Hu. apply (delete_Permutation (hs_tasks h) k t) in Hk. by rewrite Hk. Qed.

Lemma earned_grows sent f b hd : earned sent b hd → earned (sent ++ [f]) b hd.
Proof. unfold earned. case_match; [done|]. intros (ids & t & e & i & Hin). exists ids, t, e, i. apply elem_of_app. by left. Qed.

Lemma hinv_emit f extra h : (∀ v, shown_handle f = Some v → showable h v) → handle_inv extra h → handle_inv extra (emit f h).
Proof.
  intros Hf []. split; try done; cbn [emit hs_sent hs_binding].
  - intros g v [Hg|Hg%list_elem_of_singleton]%elem_of_app; [by apply hi_shown0|subst; apply Hf].
  - intros b hd Hb Hh. by apply earned_grows, hi_earned0.
Qed.

Lemma hinv_state s extra h : (s = SUnopened ∨ s = SOpening → hs_binding h = None) → handle_inv extra h → handle_inv extra (set_state s h).
Proof. intros Hs []. by split. Qed.
Lemma hinv_opening o extra h : handle_inv extra h → handle_inv extra (set_opening o h).
Proof. by apply hinv_tasks. Qed.
Lemma hinv_session s a extra h : handle_inv extra h → handle_inv extra (set_session s a h).
Proof. by apply hinv_tasks. Qed.
Lemma hinv_turn t ts extra h : handle_inv extra h → handle_inv extra (set_turn t ts h).
Proof. by apply hinv_tasks. Qed.
Lemma hinv_exit extra h : handle_inv extra h → handle_inv extra (onClosed h).
Proof. by apply hinv_tasks. Qed.
Lemma hinv_cancel extra h : handle_inv extra h → handle_inv extra (cancelTurn h).
Proof. intros H. unfold cancelTurn. case_match; [by apply hinv_session|done]. Qed.

(** Only the handle of the conversation decides what may be shown. *)
Lemma showable_same h h' v : bound_handle h' = bound_handle h → showable h v → showable h' v.
Proof. unfold showable. by intros ->. Qed.

Lemma showable_handle h handle : bound_handle h = handle → showable h (handle_json (readyOrPending handle)).
Proof. intros <-. unfold showable. destruct (bound_handle h) as [hd|]; [right; right; by exists hd|by left]. Qed.

(** A change of the binding that keeps its handle and its request. *)
Lemma hinv_rebind b b' extra h : hs_binding h = Some b → bd_handle b' = bd_handle b → bd_request b' = bd_request b →
  handle_inv extra h → handle_inv extra (set_binding (Some b') h).
Proof.
  intros Hb Eh Er []. split; cbn [set_binding hs_sent hs_binding hs_tasks hs_state].
  - intros f v Hf Hv. apply (showable_same h); [|by eapply hi_shown0]. unfold bound_handle. cbn [set_binding hs_binding]. by rewrite Hb.
  - intros ? hd [= <-] Hh. rewrite Eh in Hh. specialize (hi_earned0 b hd Hb Hh). unfold earned in *. by rewrite Er.
  - intros ? [= <-] Hh. rewrite Eh in Hh. rewrite Er. by apply hi_new0.
  - intros t Ht. specialize (hi_runs0 t Ht). unfold run_handle in *.
    repeat case_match; try done; cbn [set_binding hs_binding]; destruct hi_runs0 as (b0 & Hb0 & Hr); rewrite Hb in Hb0; injection Hb0 as <-; exists b'; by rewrite Eh.
  - intros Hs. specialize (hi_early0 Hs). congruence.
Qed.

Lemma hinv_model_selected extra h : handle_inv extra h → handle_inv extra (model_selected h).
Proof.
  intros H. unfold model_selected. destruct (hs_binding h) as [b|] eqn:E; cbn [fmap option_fmap option_map]; [by eapply hinv_rebind|].
  revert H. by apply hinv_tasks.
Qed.

Lemma lookup_js_cons {A} k k' (v : A) ms : lookup_member (js k) ((js k', v) :: ms) = if (k' =? k)%string then Some v else lookup_member (js k) ms.
Proof. unfold lookup_member. cbn [find fst]. rewrite js_decide. by destruct (k' =? k)%string. Qed.

(** A response shows the member [nativeHandle], or nothing. *)
Lemma hinv_respond id ms extra h : (∀ v, ("nativeHandle", v) ∈ ms → showable h v) → handle_inv extra h → handle_inv extra (respond id ms h).
Proof.
  intros Hm. apply hinv_emit. intros v. cbn [shown_handle]. intros Hv. apply Hm. clear Hm. induction ms as [|[k w] ms IH]; [done|].
  rewrite fmap_cons, lookup_js_cons in Hv. cbn [fst snd] in Hv. destruct (k =? "nativeHandle")%string eqn:E.
  - injection Hv as ->. apply String.eqb_eq in E as ->. by left.
  - right. by apply IH.
Qed.

Lemma hinv_fail id code m extra h : handle_inv extra h → handle_inv extra (fail id code m h).
Proof. by apply hinv_emit. Qed.

Lemma showable_bound h : showable h (handle_json (readyOrPending (bound_handle h))).
Proof. by apply showable_handle. Qed.

Lemma showable_proved had ok h nh : proved had ok h = Some nh → showable h (handle_json nh).
Proof. destruct had, ok; cbn [proved]; intros [= <-]; [apply showable_bound|by left|by right; left]. Qed.

Lemma showable_reported had ok h : showable h (handle_json (reported had ok h)).
Proof. unfold reported. destruct (proved had ok h) as [nh|] eqn:E; [by eapply showable_proved|by right; left]. Qed.

(** No handle among these members. *)
Ltac no_handle := intros v Hin; repeat (apply elem_of_cons in Hin as [Hin|Hin]; [discriminate|]); by apply elem_of_nil in Hin.

Lemma hinv_inspect id h : handle_inv [] h → handle_inv [] (inspect id h).
Proof. intros H. unfold inspect. repeat case_match; (by apply hinv_fail) || (by apply hinv_await, hinv_add). Qed.

Lemma hinv_configure id model h : handle_inv [] h → handle_inv [] (configure id model h).
Proof.
  intros H. unfold configure. repeat case_match; try (by apply hinv_fail). apply hinv_respond; [no_handle|]. by eapply hinv_rebind.
Qed.

Lemma hinv_start_turn id turnId h : handle_inv [] h → handle_inv [] (start_turn id turnId h).
Proof.
  intros H. unfold start_turn. repeat case_match; try (by apply hinv_fail). apply hinv_await, hinv_add; [cbn; by eexists|].
  apply hinv_respond; [no_handle|]. apply hinv_state; [by intros []|]. by apply hinv_turn.
Qed.

Lemma hinv_dispatch r h : handle_inv [] h → handle_inv [] (dispatch r h).
Proof.
  intros H. assert (handle_inv [] (match r with ROpen o => open_request o h | RInspect id => inspect id h | RConfigure id model => configure id model h
    | RTurn id turnId => start_turn id turnId h | RInterrupt id turnId => interrupt id turnId h | RClose id => close id h end)) as Hr.
  { destruct r; [|by apply hinv_inspect|by apply hinv_configure|by apply hinv_start_turn| |].
    - unfold open_request. case_bool_decide as E; [|by apply hinv_fail]. apply hinv_await, hinv_add; [done|]. apply hinv_opening, hinv_state; [|done].
      intros _. apply H. by left.
    - unfold interrupt. repeat case_match; try (apply hinv_respond; [no_handle|done]). apply hinv_await, hinv_add; [done|]. by apply hinv_cancel, hinv_turn.
    - apply hinv_await, hinv_add; [done|]. apply hinv_state; [by intros []|done]. }
  unfold dispatch. destruct (hs_state h); try done; by apply hinv_fail.
Qed.

Lemma hinv_abandon h : handle_inv [] h → handle_inv [] (abandon h).
Proof. intros H. unfold abandon. case_match; try done; (apply hinv_await, hinv_add; [done|]; apply hinv_state; [by intros []|done]). Qed.

(** Opening: the binding is new, and nothing was shown before. *)
Lemma hinv_opened o p al rt h : handle_inv [KOpening o] h → handle_inv [] (opened o p al rt h).
Proof.
  intros H%hinv_drop. unfold opened. apply hinv_opening. case_bool_decide as E; cbn [negb]; [|by apply hinv_fail].
  destruct (open_result o p al rt) as [[handle path]|[code m]] eqn:Er; [|apply hinv_fail, hinv_state; [by intros []|done]].
  assert (hs_binding h = None) as Hb by (apply H; by right). set (b := {| bd_handle := handle; bd_model := _; bd_modelPending := _; bd_request := _; bd_sessionPath := _ |}).
  apply hinv_respond.
  - intros v Hin. apply elem_of_cons in Hin as [[= ->]|Hin]; [|by apply elem_of_nil in Hin]. by apply showable_handle.
  - unfold open_result in Er. apply bind_Ok in Er as (bound & Hbd & Hrt). destruct rt; [|done]. injection Hrt as ->.
    destruct H. split; cbn [set_state set_binding hs_sent hs_binding hs_tasks hs_state].
    + intros f v Hf Hv. destruct (hi_shown0 f v Hf Hv) as [->|[->|(hd & Hd & _)]]; [by left|by right; left|]. unfold bound_handle in Hd. by rewrite Hb in Hd.
    + intros ? hd [= <-] Hh. cbn in Hh. subst handle. unfold earned. cbn [b bd_request]. destruct (or_resume o) as [text|]; [|by destruct al as [|[]]; simplify_eq].
      destruct (parsePiSessionHandle text (or_stateRoot o)) as [hd'|]; [|done]. case_bool_decide as Ec; [|done]. destruct p; [|done]. by injection Hbd as <- <-.
    + intros ? [= <-] Hh. cbn in Hh |- *. subst handle. destruct (or_resume o) as [text|]; [|done]. destruct (parsePiSessionHandle text _); [|done].
      case_bool_decide; [|done]. by destruct p.
    + intros t Ht. specialize (hi_runs0 t Ht). unfold run_handle in *. rewrite Hb in hi_runs0. repeat case_match; try done; by destruct hi_runs0 as (? & ? & ?).
    + by intros [].
Qed.

Lemma hinv_inspected id had ok extra h : handle_inv extra h → handle_inv extra (inspected id had ok h).
Proof.
  intros H. unfold inspected. destruct (proved had ok h) as [nh|] eqn:E.
  - apply hinv_respond; [|done]. intros v Hin. apply elem_of_cons in Hin as [[= ->]|Hin]; [by eapply showable_proved|]. revert v Hin. no_handle.
  - apply hinv_await, hinv_add; [done|]. unfold latchIdentityFailure. assert (handle_inv extra (set_state SFailed h)) as Hf by (apply hinv_state; [by intros []|done]).
    destruct (hs_state h); try done; (case_match; [by apply hinv_cancel, hinv_turn|done]).
Qed.

Lemma hinv_conclude t run tracker failed ids extra h b : hs_binding h = Some b → tr_established run = bool_decide (is_Some (bd_handle b)) →
  handle_inv (t :: extra) h → handle_inv extra (conclude run tracker failed ids h).
Proof.
  intros Hb He H%hinv_drop. unfold conclude. case_match; [|done]. apply hinv_await, hinv_add; [|done]. cbn [run_handle]. exists b. split_and!; [done..|].
  destruct (is_completed _) eqn:Ec; [|done]. by destruct (tr_established run).
Qed.

Lemma hinv_prepared run how entries h : handle_inv [KPreparing run] h → handle_inv [] (prepared run how entries h).
Proof.
  intros H. destruct (hi_runs _ _ H (KPreparing run)) as (b & Hb & He); [by left|]. unfold prepared. case_match; [|by eapply hinv_drop].
  set (how' := match how with PReady _ => _ | _ => _ end). clearbody how'.
  set (h1 := set_session (hs_session h) false _). assert (handle_inv [KPreparing run] h1 ∧ hs_binding h1 = Some b) as [H1 Hb1]
    by (split; [by apply hinv_session, hinv_turn|done]). clearbody h1.
  pose proof (hinv_model_selected [KPreparing run] h1 H1) as H2.
  assert (∃ b2, hs_binding (model_selected h1) = Some b2 ∧ tr_established run = bool_decide (is_Some (bd_handle b2))) as (b2 & Hb2 & He2).
  { unfold model_selected. rewrite Hb1. cbn. by eexists. }
  destruct how'; [destruct (cancelled _); [|apply hinv_await, hinv_add; [by exists b2|by eapply hinv_drop]]|..]; by eapply (hinv_conclude (KPreparing run)).
Qed.

(** A new handle, shown by the completed first Turn. *)
Lemma hinv_promote b hd ids t effort turnId h h' : hs_binding h = Some b → bd_handle b = None → omap task_run (hs_tasks h) = [] →
  hs_binding h' = Some (set_handle hd b) → hs_sent h' = hs_sent h ++ [TurnSettled ids (readyOrPending (Some hd)) (Completed t) effort turnId] →
  hs_tasks h' = hs_tasks h → (hs_state h' ≠ SUnopened ∧ hs_state h' ≠ SOpening) → handle_inv [] h → handle_inv [] h'.
Proof.
  intros Hb Hn Hr Eb Es Et Ee []. split; rewrite ?Es, ?Eb, ?Et.
  - intros f v [Hf|Hf%list_elem_of_singleton]%elem_of_app Hv; unfold showable, bound_handle; rewrite Eb; cbn [mbind option_bind set_handle bd_handle].
    + destruct (hi_shown0 f v Hf Hv) as [->|[->|(hd' & Hd & _)]]; [by left|by right; left|]. unfold bound_handle in Hd. rewrite Hb in Hd. cbn in Hd. congruence.
    + subst f. injection Hv as <-. right; right. by exists hd.
  - intros ? hd' [= <-] [= <-]. unfold earned. cbn [set_handle bd_request]. rewrite (hi_new0 b Hb Hn). exists ids, t, effort, turnId. apply elem_of_app. right. by left.
  - by intros ? [= <-].
  - intros u Hu. cbn [app] in Hu. assert (task_run u = None) as Hk.
    { destruct (task_run u) as [n|] eqn:E; [|done]. assert (n ∈ omap task_run (hs_tasks h)) as Hin by (apply list_elem_of_omap; by exists u). rewrite Hr in Hin. by apply elem_of_nil in Hin. }
    by destruct u.
  - intros []; by destruct Ee.
Qed.

(** The settlement shows the handle of the binding, and earns it if it is new. *)
Lemma hinv_settle run o ids proof ok level h : turn_inv [KProving run o ids proof] h → handle_inv [KProving run o ids proof] h →
  handle_inv [] (settle run o ids proof ok level h).
Proof.
  intros Ht H. destruct (hi_runs _ _ H (KProving run o ids proof)) as (b & Hb & He & Hp); [by left|].
  destruct (inv_run (KProving run o ids proof) (tr_turn run) [] h eq_refl Ht) as (Hn & Hr & [turn E]). apply hinv_drop in H.
  assert (∀ nh o' h2, handle_inv [] h2 → (showable h2 (handle_json nh)) → handle_inv []
    (match hs_turns h2 !! tr_turn run with
     | Some turn =>
       let fenced := bool_decide (is_Some (at_failure turn)) || bool_decide (is_Some (tr_setupFailure run))
                  || (negb (tr_established run) && negb (bool_decide (is_Some (hs_binding h2 ≫= bd_handle)))) in
       let h := set_turn None (hs_turns h2) h2 in
       let h := if bool_decide (hs_state h = SActive) then set_state (if fenced then SFailed else SOpen) h else h in
       alter_turn (set_done o') (tr_turn run) (emit (TurnSettled ids nh o' (effective_effort level) (at_turnId turn)) h)
     | None => h2 end)) as Hgen.
  { intros nh o' h2 H2 Hnh. destruct (hs_turns h2 !! tr_turn run) as [turn2|]; [|done]. cbv zeta. apply hinv_turn, hinv_emit.
    - intros v [= <-]. destruct (bool_decide (hs_state _ = SActive)); exact Hnh.
    - destruct (bool_decide (hs_state _ = SActive)); [apply hinv_state; [by destruct (_ || _ || _); intros []|]|]; by apply hinv_turn. }
  unfold settle. destruct proof as [had|[sid|]]; cbn [obtain_handle].
  - destruct (proved had ok h) as [nh|] eqn:Ep; [apply Hgen; [done|by eapply showable_proved]|]. apply Hgen; [by apply hinv_turn|by right; left].
  - rewrite Hb. destruct ok; [|apply Hgen; [by apply hinv_turn|by right; left]].
    cbn [set_binding hs_turns]. rewrite E. destruct Hp as [Hp Hc]. destruct o as [t| | |]; try done.
    assert (bd_handle b = None) as Hnone by (rewrite Hp in He; symmetry in He; apply bool_decide_eq_false_1 in He; by apply eq_None_not_Some).
    assert (before_turns (hs_state h) = false) as Hbt.
    { destruct (before_turns (hs_state h)) eqn:Ebt; [|done]. rewrite (ti_idle _ _ Ht Ebt) in Hn. done. }
    eapply (hinv_promote b); [exact Hb|exact Hnone|exact Hr|..|exact H]; destruct (bool_decide (hs_state _ = SActive)); try reflexivity; cbn;
      try (by destruct (_ || _ || _)); split; by intros Hx; rewrite Hx in Hbt.
  - apply Hgen; [by apply hinv_turn|by right; left].
Qed.

Lemma hinv_after_stop id extra h : handle_inv extra h → handle_inv extra (after_stop id h).
Proof.
  intros H. unfold after_stop. repeat case_match; [by apply hinv_await, hinv_add| |apply hinv_state; [by intros []|done]].
  apply hinv_exit, hinv_respond; [|apply hinv_state; [by intros []|done]]. intros v Hin. apply elem_of_cons in Hin as [[= ->]|Hin]; [by left|]. revert v Hin. no_handle.
Qed.
Lemma hinv_release id extra h : handle_inv extra h → handle_inv extra (release id h).
Proof. intros H. unfold release. case_match; [|by apply hinv_after_stop]. apply hinv_await, hinv_add; [done|]. by apply hinv_session. Qed.
Lemma hinv_stop id extra h : handle_inv extra h → handle_inv extra (stop id h).
Proof. intros H. unfold stop. case_match; [|by apply hinv_release]. apply hinv_await, hinv_add; [done|]. by apply hinv_cancel, hinv_turn. Qed.

Lemma hinv_resume task answer h h' : resume task answer h = Some h' → turn_inv [task] h → handle_inv [task] h → handle_inv [] h'.
Proof.
  intros Hr Ht H. pose proof (hinv_drop task [] h H) as Hd.
  destruct task as [o|id had|id had|id|run|run earlier tracker|run o ids proof|id n|id n|id|id n|id n|id|id had], answer; try discriminate; cbn [resume] in Hr.
  - injection Hr as <-. by apply hinv_opened.
  - injection Hr as <-. by apply hinv_inspected.
  - injection Hr as <-. apply hinv_respond; [|done]. intros v Hin. apply elem_of_cons in Hin as [[= ->]|Hin]; [apply showable_reported|]. revert v Hin. no_handle.
  - injection Hr as <-. by apply hinv_fail.
  - repeat case_match; simplify_eq. apply hinv_await, hinv_model_selected. by apply hinv_session.
  - repeat case_match; simplify_eq. apply hinv_await. by apply hinv_session.
  - injection Hr as <-. by apply hinv_prepared.
  - destruct (hs_turns h !! tr_turn run); simplify_eq. apply hinv_await, hinv_add; [exact (hi_runs _ _ H _ (list_elem_of_here _ _))|].
    apply hinv_emit; [unfold forwardNative; by repeat case_match|done].
  - injection Hr as <-. destruct (hi_runs _ _ H _ (list_elem_of_here _ _)) as (b & Hb & He). by eapply (hinv_conclude (KPrompting run earlier tracker)).
  - injection Hr as <-. by apply hinv_settle.
  - injection Hr as <-. by apply hinv_await, hinv_add.
  - apply bind_Some in Hr as (? & _ & [= <-]). apply hinv_respond; [no_handle|done].
  - destruct (hs_opening h); simplify_eq. by apply hinv_stop.
  - injection Hr as <-. by apply hinv_await, hinv_add.
  - apply bind_Some in Hr as (? & _ & [= <-]). by apply hinv_release.
  - injection Hr as <-. by apply hinv_after_stop.
  - injection Hr as <-. apply hinv_exit, hinv_respond; [|apply hinv_state; [by intros []|done]].
    intros v Hin. apply elem_of_cons in Hin as [[= ->]|Hin]; [exact (showable_reported had ok h)|]. revert v Hin. no_handle.
Qed.

Lemma run_handle_inv inputs h h' : host_run h inputs = Some h' → turn_inv [] h → handle_inv [] h → handle_inv [] h'.
Proof.
  revert h. induction inputs as [|i inputs IH]; intros h; cbn [host_run]; [by intros [= <-]|]. intros (h1 & Hs & Hr)%bind_Some Ht H.
  apply (IH h1); [done|by eapply step_inv|]. destruct i as [r| |k a]; cbn [host_step] in Hs.
  - injection Hs as <-. by apply hinv_dispatch.
  - injection Hs as <-. by apply hinv_abandon.
  - apply bind_Some in Hs as (t & Hk & Hs). eapply hinv_resume; [exact Hs|by apply inv_take|by apply hinv_take].
Qed.

Lemma new_host_handle : handle_inv [] new_host.
Proof. split; try done; cbn; by intros ? ? ?%elem_of_nil || by intros ? ?%elem_of_nil. Qed.
End Host.

(** A handle that was encoded is parsed as it was. *)
Lemma handle_text_roundtrip strict_child h stateRoot :
  wf_str (sh_cwd h) → wf_str (sh_path h) → wf_str (sh_sessionId h) → is_blank (sh_sessionId h) = false → strict_child stateRoot (sh_path h) = true →
  parsePiSessionHandle strict_child (encodePiSessionHandle h) stateRoot = Ok h.
Proof.
  intros Hc Hp Hs Hb Hk. set (v := obj [("cwd", JStr (sh_cwd h)); ("path", JStr (sh_path h)); ("sessionId", JStr (sh_sessionId h))]).
  assert (json_stringify v = Some (encodePiSessionHandle h)) as Hv.
  { unfold v, encodePiSessionHandle, member_text. cbn -[stringify_string js]. by rewrite <-?app_assoc. }
  apply stringify_parse in Hv; last first.
  { unfold v, obj. constructor; [by apply (bool_decide_eq_true_1 (NoDup _)); vm_compute|]. repeat constructor; cbn; try done; by apply wf_strb_sound. }
  unfold parsePiSessionHandle. rewrite Hv. unfold v, obj. cbn [fmap list_fmap fst snd as_read filterb keep_defined is_undefined negb]. keys.
  rewrite bool_decide_true by (by vm_compute). rewrite Hb. cbn [negb andb]. destruct h as [c p i]. cbn [sh_cwd sh_path sh_sessionId] in *.
  by rewrite bool_decide_true, Hk by done.
Qed.

(** ** Claims *)

(** C19. Over every history of requests, answers of the file system and the SDK, and a loss of the channel:
    every request is answered exactly once or is pending, and never both; accepted Turns settle one after
    another, each exactly once and in the order they were accepted; and while something is pending some
    task can go on, so no handler waits for another that waits for it. *)
Theorem requests_are_answered_once (sha256hex : jsstr → jsstr) (strict_child : jsstr → jsstr → bool) (inputs : list Input) (h : Host)
    (Hrun : host_run sha256hex strict_child new_host inputs = Some h) :
  requests inputs ≡ₚ omap answered_id (hs_sent h) ++ omap task_id (hs_tasks h) ∧
  at_turnId <$> hs_turns h = omap settled_turn (hs_sent h) ++ option_list (current_id h) ∧
  (hs_tasks h ≠ [] → ∃ k a, is_Some (host_step sha256hex strict_child h (IAnswer k a))).
Proof.
  destruct (host_run_inv _ _ inputs new_host h Hrun new_host_inv) as [Hi Ho]. split_and!.
  - rewrite Permutation_app_comm in Ho. cbn in Ho. by symmetry.
  - apply Hi.
  - by apply host_progress.
Qed.

(** C20. Over every history: a frame shows a ready handle only if it is the handle of the conversation, with the
    digest of its text; and that handle is the one the open request resumed, or, in a new conversation, it
    was promoted by a Turn that settled as completed and showed it. *)
Theorem ready_handle_is_earned (sha256hex : jsstr → jsstr) (strict_child : jsstr → jsstr → bool) (inputs : list Input) (h : Host)
    (f : HostFrame) (digest text : jsstr) (Hrun : host_run sha256hex strict_child new_host inputs = Some h)
    (Hsent : f ∈ hs_sent h) (Hshown : shown_handle f = Some (handle_json (Ready digest text))) :
  ∃ b hd, hs_binding h = Some b ∧ bd_handle b = Some hd ∧ text = encodePiSessionHandle hd ∧ digest = sha256hex text ∧
  earned sha256hex strict_child (hs_sent h) b hd.
Proof.
  pose proof (run_handle_inv _ _ inputs new_host h Hrun new_host_inv (new_host_handle _ _)) as Hi.
  destruct (hi_shown _ _ _ _ Hi f _ Hsent Hshown) as [[=]|[[=]|(hd & Hb & Ev)]]. injection Ev as -> ->.
  unfold bound_handle in Hb. apply bind_Some in Hb as (b & Hb & Hh). exists b, hd. split_and!; try done. by apply Hi.
Qed.

(** ** Examples *)

Module HostDemo.
Definition digest (t : jsstr) : jsstr := replicate 64 (cu "0").
Definition inside (root path : jsstr) : bool := starts_with (root ++ js "/") path.
Definition model : PiModelDescriptor :=
  {| md_contextWindow := 1000; md_inputModalities := [js "text"]; md_maxOutputTokens := 100; md_modelId := js "m1"; md_reasoning := false; md_reasoningEffortLevels := None |}.
Definition request : HostOpenRequest :=
  {| or_capabilityCredential := ChannelDemo.capabilityCredential; or_id := number_of_int 1; or_inferenceCredential := ChannelDemo.inferenceCredential;
     or_model := model; or_resume := None; or_stateRoot := js "/state"; or_workingDirectory := js "/work" |}.
Definition message : jsval := obj [
  ("role", JStr (js "assistant")); ("content", JArr [obj [("type", JStr (js "text")); ("text", JStr (js "Done."))]]);
  ("provider", JStr PI_PROVIDER_ALIAS); ("model", JStr (js "m1")); ("stopReason", JStr (js "stop"))].
Definition inputs : list Input := [
  IRequest (ROpen request); IRequest (RTurn (number_of_int 2) (js "early")); IAnswer 0 (AOpened false (Ok (js "/state/sessions/a/session.jsonl")) true);
  IRequest (RTurn (number_of_int 3) (js "turn-1")); IAnswer 0 (ASessionCreated (js "s1")); IAnswer 0 (APrepared (PReady false) []);
  IAnswer 0 (ASessionEvent (obj [("type", JStr (js "message_end")); ("message", message)]));
  IRequest (RTurn (number_of_int 4) (js "turn-2"));
  IAnswer 0 (ASessionEvent (obj [("type", JStr (js "turn_end")); ("message", message)]));
  IAnswer 0 (ASessionEvent (obj [("type", JStr (js "agent_end")); ("willRetry", JBool false); ("messages", JArr [message])]));
  IAnswer 0 (ASessionEvent (obj [("type", JStr (js "agent_settled"))]));
  IAnswer 0 (APrompted false [{| se_id := js "c1"; se_type := js "compaction" |}]); IAnswer 0 (ASettled true (Some (js "off")));
  IRequest (RInspect (number_of_int 5)); IAnswer 0 (AFile true); IRequest (RClose (number_of_int 6))].
Definition final : Host := default new_host (host_run digest inside new_host inputs).

Definition handle : PiSessionHandle := {| sh_cwd := js "/work"; sh_path := js "/state/sessions/a/session.jsonl"; sh_sessionId := js "s1" |}.
Definition settlement_frame : HostFrame :=
  TurnSettled [js "c1"] (readyOrPending digest (Some handle)) (Completed (js "Done.")) (js "none") (js "turn-1").

Lemma final_run : host_run digest inside new_host inputs = Some final.
Proof. vm_compute. reflexivity. Qed.

Lemma settlement_sent : settlement_frame ∈ hs_sent final.
Proof. apply list_elem_of_lookup_2 with (i := 8%nat). vm_compute. reflexivity. Qed.

Lemma requests_are_answered_once_witness :
  host_run digest inside new_host inputs = Some final ∧
  requests inputs ≡ₚ omap answered_id (hs_sent final) ++ omap task_id (hs_tasks final) ∧
  at_turnId <$> hs_turns final = omap settled_turn (hs_sent final) ++ option_list (current_id final) ∧
  (hs_tasks final ≠ [] → ∃ k a, is_Some (host_step digest inside final (IAnswer k a))).
Proof. exact (conj final_run (requests_are_answered_once digest inside inputs final final_run)). Defined.

Lemma ready_handle_is_earned_witness :
  settlement_frame ∈ hs_sent final ∧
  ∃ b hd, hs_binding final = Some b ∧ bd_handle b = Some hd ∧ encodePiSessionHandle handle = encodePiSessionHandle hd ∧
  digest (encodePiSessionHandle handle) = digest (encodePiSessionHandle handle) ∧ earned digest inside (hs_sent final) b hd.
Proof.
  exact (conj settlement_sent (ready_handle_is_earned digest inside inputs final settlement_frame (digest (encodePiSessionHandle handle))
    (encodePiSessionHandle handle) final_run settlement_sent eq_refl)).
Defined.

(** One Turn was accepted and settled, one was refused as early and one as busy; the close is pending. *)
Example history_of_host :
  at_turnId <$> hs_turns final = [js "turn-1"] ∧ omap task_id (hs_tasks final) = [number_of_int 6] ∧ hs_state final = SClosing.
Proof. vm_compute. done. Qed.

(** When the selection of the reasoning effort fails no prompt runs, yet the settlement lists compactions
    that the conversation already had: the set of earlier entries is only filled before a prompt. *)
Example refused_effort_lists_old_compactions :
  omap (λ f, match f with TurnSettled ids _ o _ _ => Some (ids, o) | _ => None end)
    (hs_sent (default new_host (host_run digest inside new_host
      [IRequest (ROpen request); IAnswer 0 (AOpened false (Ok (js "/state/sessions/a/session.jsonl")) true); IRequest (RTurn (number_of_int 2) (js "turn-1"));
       IAnswer 0 (ASessionCreated (js "s1")); IAnswer 0 (APrepared (PEffortRefused false) [{| se_id := js "old"; se_type := js "compaction" |}]); IAnswer 0 (ASettled true None)])))
  = [([js "old"], Failed "pi-setup-failed")].
Proof. vm_compute. reflexivity. Qed.
End HostDemo.
